(* ===== verification/_CoqProject ===== *)
-Q . S2P
Prelude.v
Effects.v
Slru.v
PreadPool.v
F32.v
Slices.v
FpFormats.v
Nvfp4.v
ReadBackend.v
PreadBackend.v
SizeClass.v
MoeCache.v
MoeResidency.v
MoeMethods.v
MoeCacheSpec.v
RustStr.v
Utf8.v
Pp.v
KvCache.v
ToyCache.v
Gguf.v
UnicodeData.v
Unicode.v
PretokCases.v
Pretok.v
Tokenizer.v
BpeMerge.v
TokenizerSpec.v
Auth.v
AuthSpec.v
Sampling.v
PrefixCache.v
PrefixCopies.v
PrefixCacheSpec.v
Prefill.v
PrefillSpec.v
Stream.v
Lanes.v
Batch.v
BatchSpec.v
Admission.v
VHeads.v
SpecDecode.v
SpecDecodeSpec.v
Toolcall.v
ToolcallSpec.v
Health.v
HealthSpec.v
Chat.v
ChatSpec.v
JsonText.v
JsonTextSpec.v
HfVocab.v
HfVocabSpec.v
