(* ===== verification/Prelude.v ===== *)
(** * memra: a verification library

    memra is an inference engine for large language models: a Rust host around
    CUDA kernels, an OpenAI-compatible HTTP server in front of it.  This
    library models the host code that decides things (what is resident where,
    which bytes a transfer carries, how a file is read, how a text becomes
    tokens, who may use the server) and proves it right.  The kernels
    themselves are CUDA and outside its reach.

    ** The program and the files that model it

    A request enters through [memra-server/src/main.rs], is authenticated
    ([auth.rs]), takes an in-flight slot of its tenant and lane, and is queued
    to the one worker thread ([worker.rs]), which asks the yield gate of
    [memra-lanes] whether a dark-lane step may run.  Its text is tokenized
    ([memra-tokenizer]) with the vocabulary of a GGUF file ([memra-gguf]); its
    session resumes a stored prefix or starts cold, is primed in chunks, then
    decoded in batches with the others; each token is sampled
    ([memra-sampling]) and streamed as text.  The forward pass of
    [memra-engine] runs over the KV cache ([memra-kv]), placed on pipeline
    stages ([pp.rs]), with weights repacked at load, and mixture-of-experts
    blocks kept by the residency cache ([moe_cache.rs]) and read from disk by
    the pinned read pool ([spill_pread.rs]).

    - [Prelude], [Effects]: outcomes of Rust code ([Ok], [Err], [Panic]), the
      state-and-outcome computation [M] with its total-correctness [wp].
    - [F32], [RustStr], [Utf8]: binary32/binary64 arithmetic, Rust strings and
      the functions of [core::str] the program uses, UTF-8.
    - [Slru]: the intrusive lists and the per-class SLRU of [moe_cache.rs].
      [SizeClass]: its size-class plan.
    - [PreadPool]: [spill_pread.rs], owner methods and disk workers as
      interleaved steps.  [ReadBackend] is the interface the expert cache uses,
      [PreadBackend] its discharge by the pool.
    - [MoeCache] (state and methods of [MoeSlotCache]), [MoeResidency] and
      [MoeMethods] (invariant, one specification per method), [MoeCacheSpec]
      (what the forward pass may rely on, under any sequence of calls).
    - [Pp]: stage maps, device placement and guards of [pp.rs].
    - [KvCache]: [memra-kv/src/lib.rs], allocation, snapshots and rollback.
    - [Gguf]: the GGUF reader of [memra-gguf/src/lib.rs].
    - [UnicodeData], [Unicode], [PretokCases], [Pretok]: the tables and the
      pre-tokenizers of [memra-tokenizer/src/unicode*.rs].
    - [Tokenizer], [BpeMerge], [TokenizerSpec]: [memra-tokenizer/src/lib.rs].
    - [Slices], [FpFormats], [Nvfp4], [VHeads]: byte slices, the narrow float
      formats, the NVFP4 and FP8 repacking and the reordering of V heads of
      [memra-engine] and [memra-gguf].
    - [Sampling]: [memra-sampling/src/lib.rs].
    - [PrefixCache], [PrefixCopies], [PrefixCacheSpec]: the cross-request
      prefix cache of [worker.rs], its device copies and what it promises.
    - [Prefill], [PrefillSpec]: opening a session on the prefix cache and
      priming its prompt.  [Stream]: the text and the end of a session.
      [Batch], [BatchSpec]: the batched decode tick over all sessions.
    - [SpecDecode], [SpecDecodeSpec]: the speculative loops of [eagle.rs] and
      [dflash.rs] over the KV cache, against the greedy loop of [decode.rs].
      [ToyCache]: a concrete cache on which witnesses run.
    - [Chat], [ChatSpec]: [memra-tokenizer/src/chat.rs], the prompt of each
      dialect.  [Toolcall], [ToolcallSpec]: [memra-server/src/toolcall.rs], the
      streaming parser of tool calls and reasoning.
    - [JsonText], [JsonTextSpec]: [memra-tokenizer/src/json.rs], the JSON parser.
      [HfVocab], [HfVocabSpec]: [Tokenizer::from_hf_dir], which uses it.
    - [Health], [HealthSpec]: [memra-server/src/health.rs] and the worker thread
      that stamps it, access by access.
    - [Auth], [AuthSpec]: [memra-server/src/auth.rs].
    - [Lanes]: [memra-lanes/src/lib.rs].  [Admission]: the in-flight slots,
      rate headers and namespaces of [memra-server/src/main.rs].

    ** What the theorems show

    - Expert cache: the slot arena implements a queue policy; under any
      sequence of calls the slot a dispatch returns holds the block's bytes,
      in whatever order copies and reads complete; a prefetch evicts no block
      it was asked to keep; the plan fits the budget.
    - Read pool: no buffer is written by a worker while a transfer reads it,
      a delivered ticket has exactly the bytes asked for, draining terminates.
    - Stages: every layer has exactly one stage, guards hold when they should.
    - KV cache: a rollback restores the snapshot, and it never shares a
      mirror; each buffer lives on the device of the stage that uses it.
    - GGUF: a well-formed file is read back exactly, split files merge, the
      fuel of the reader always suffices, malformed headers are errors.
    - Tokenizer: the work queue computes textbook byte pair encoding whichever
      of several equal bigrams the heap returns; encoding loses nothing; a text
      that is not to be parsed for markers yields none by spelling it, only where
      the vocabulary marks a piece that tokenizing makes (a character, the result
      of a merge); the qwen35 splitter is the regular expression its
      documentation gives.
    - JSON: the parser accepts exactly the texts of an unambiguous grammar.  A
      Hugging Face directory loads without panic, and a consistent one to a
      well-formed tokenizer, in any order of iteration of its map.
    - Weights: repacking keeps every value a checkpoint denotes, the one-pass
      splits equal their two-pass references, binary16 rounds to nearest.
    - Sampling: what is drawn lies inside every cut that is on, unless min-p
      rejects the whole nucleus (it may exceed 1), when it is the raw argmax;
      greedy takes the first best logit.
    - Prefix cache: it is a least-recently-used queue within its budget, a hit
      is the longest stored prefix in the caller's own namespace, which others
      influence only by evicting from the shared budget; a restored snapshot is
      the state that was snapshot.
    - Sessions: a prompt is primed once, in order, whatever the tick budgets,
      and a resumed session ends where a cold one does; the texts streamed are
      together the text of the tokens, and each reason to stop is given exactly
      when it is due; a tick over many sessions gives each
      what it would get alone; however a generation is cut into deltas, the
      tool-call parser reads the same content, reasoning and calls in it.
    - Prompts: a request without tools gets the plain prompt's bytes in every
      dialect; an assistant turn rendered into a prompt is parsed back as the same
      content and calls, in both dialects with tools, as far as a format without
      escapes allows.
    - Health: under every interleaving of worker, watchers, handlers and clock a
      fault, a death or a hang is reported, and waiting never is.
    - Speculation: whatever the drafters propose, the tokens are those of the
      plain greedy loop.
    - Server: a configured server never opens, tenants' cache namespaces are
      disjoint, a key works until it is revoked; slots are counted exactly
      under every interleaving and all come back; the gate never starves the
      interactive lane.

    ** Conventions, fuel and bounds

    Machine integers are [Z] (or [nat] for sizes that index lists) with their
    wrap-around or overflow check written out.  A loop that is not structural
    takes fuel, and a theorem shows that the fuel the definition passes is
    enough: the reader's is the file's length, a worker's read the bytes left,
    the merge queue's the number of symbols and merges, the JSON parser's the
    length of the text.  A method's mutations
    before an early return are kept in the state it returns.

    ** Parameters

    Code outside the repository is a class or an argument, with what the
    program relies on as named laws: [Os] (kernel, threads, CUDA events),
    [Gpu], [KvDev], [fs] and [Alloc] (files, allocator), [HeapPop] (pop of
    [BinaryHeap] returns a greatest element), [AuthEnv] (TOML and SHA-256),
    [SortDesc] and [F32Exp] (the unstable sort, [exp]), [Grammar] and
    [GrammarMask] (the grammar library), [Trunk], [Engine] and [Target] (the
    forward pass over one cache, over a batch, and for speculation), [Eagle] and
    [Dflash] (the drafters), [Json] ([serde_json]).  Each has an instance the
    witnesses run on.  The order in which a [HashMap] is iterated, [iter] of
    [HfVocab], is any permutation of its bindings.

    ** Not modelled

    CUDA kernels and their launchers ([memra-engine/src/lib.rs], the [*_ffi]
    files), the forward passes, sequences of launches, and the speculative loops
    interleaved with them (MTP, [gemma_spec.rs]), the CPU experts (vector intrinsics), configuration and
    safetensors sources, the quantisers, the rest of the worker (speculative and
    graph sessions, the admission loop, session affinity, metrics), the HTTP
    routes, constrained decoding (a library), the test programs under [bin/]. *)
From stdpp Require Export prelude gmap list strings.
From Stdlib Require Export ZArith Lia.

(** * Outcomes of Rust code

    A call returns normally ([Ok]), returns a [Result::Err] ([Err]) or panics
    ([Panic]: a failed [assert!], an out-of-range index, an [unwrap] of nothing).
    A panic carries no value: the code below it never runs. *)
Inductive outcome (E A : Type) : Type :=
  | Ok (a : A)
  | Err (e : E)
  | Panic.
Arguments Ok {E A} a.
Arguments Err {E A} e.
Arguments Panic {E A}.

#[export] Instance outcome_ret (E : Type) : MRet (outcome E) := fun A a => Ok a.
#[export] Instance outcome_bind (E : Type) : MBind (outcome E) :=
  fun A B f m => match m with Ok a => f a | Err e => Err e | Panic => Panic end.
#[export] Instance outcome_fmap (E : Type) : FMap (outcome E) :=
  fun A B f m => match m with Ok a => Ok (f a) | Err e => Err e | Panic => Panic end.

(** [Option::ok_or] and [Option::unwrap]/[expect]/indexing. *)
Definition ok_or {E A : Type} (o : option A) (e : E) : outcome E A :=
  match o with Some a => Ok a | None => Err e end.
Definition or_panic {E A : Type} (o : option A) : outcome E A :=
  match o with Some a => Ok a | None => Panic end.
Definition assert_that {E : Type} (b : bool) : outcome E unit :=
  if b then Ok tt else Panic.

Definition is_ok {E A : Type} (o : outcome E A) : bool :=
  match o with Ok _ => true | _ => false end.
Definition is_err {E A : Type} (o : outcome E A) : bool :=
  match o with Err _ => true | _ => false end.

Lemma bind_Ok {E A B : Type} (f : A -> outcome E B) (m : outcome E A) (b : B) :
  (m ≫= f) = Ok b -> exists a, m = Ok a /\ f a = Ok b.
Proof. destruct m; simpl; intros H; try discriminate H; eauto. Qed.

(** * Machine integers

    An unsigned w-bit integer is a [Z] in [0, 2^w); operations that wrap apply
    [wrap] to the exact result. *)
Section MachineInt.
Local Open Scope Z_scope.

Definition wrap (w z : Z) : Z := z mod 2 ^ w.
Definition u_max (w : Z) : Z := 2 ^ w - 1.
Definition in_u (w z : Z) : Prop := 0 <= z < 2 ^ w.
Definition sat_sub (a b : Z) : Z := Z.max 0 (a - b).
(** [as i32]/[as i8]: two's complement reinterpretation. *)
Definition to_signed (w z : Z) : Z :=
  let u := z mod 2 ^ w in if u <? 2 ^ (w - 1) then u else u - 2 ^ w.
Definition div_ceil (a b : Z) : Z := (a + b - 1) / b.

Lemma wrap_small (w z : Z) : in_u w z -> wrap w z = z.
Proof. intros H. apply Z.mod_small, H. Qed.

Lemma wrap_in_u (w z : Z) : 0 <= w -> in_u w (wrap w z).
Proof. intros H. apply Z.mod_pos_bound, Z.pow_pos_nonneg; lia. Qed.

Lemma wrap_wrap (w z : Z) : wrap w (wrap w z) = wrap w z.
Proof. apply Zmod_mod. Qed.

Lemma div_ceil_bounds (a b : Z) :
  0 < b -> a <= div_ceil a b * b < a + b.
Proof.
  intros Hb. unfold div_ceil.
  pose proof (Z.div_mod (a + b - 1) b ltac:(lia)).
  pose proof (Z.mod_pos_bound (a + b - 1) b Hb). nia.
Qed.
End MachineInt.

Create HintDb memra.
Create Rewrite HintDb memra.
#[export] Hint Resolve wrap_in_u : memra.
#[export] Hint Rewrite wrap_wrap : memra.

(** * Tactics *)

(** Case split on every [match]/[if] scrutinee of a hypothesis that is an
    equation between outcomes or options, closing the impossible branches. *)
Ltac break_match_in H :=
  match type of H with
  | context [match ?x with _ => _ end] => destruct x eqn:?; try discriminate H
  end.
Ltac break_in H := repeat (break_match_in H; simpl in H).
Ltac break_goal :=
  match goal with
  | |- context [match ?x with _ => _ end] => destruct x eqn:?
  end.

(** * Lists *)
Section Lists.
Context {A : Type}.
Implicit Types l : list A.

Lemma NoDup_app_not_in l1 l2 (x : A) :
  NoDup (l1 ++ (x :: l2)) -> (x ∉ l1) ∧ (x ∉ l2).
Proof.
  intros H. apply NoDup_app in H as (_ & Hd & H2).
  apply NoDup_cons in H2 as [H2 _]. split; [|done].
  intros Hin. apply (Hd x Hin). set_solver.
Qed.

Lemma NoDup_remove_mid l1 l2 (x : A) :
  NoDup (l1 ++ (x :: l2)) -> NoDup (l1 ++ l2).
Proof.
  rewrite <-(Permutation_middle l1 l2 x). intros H. by apply NoDup_cons in H as [_ H].
Qed.

Lemma elem_of_mid_ne l1 l2 (x y : A) : y ∈ l1 ++ (x :: l2) -> y <> x -> y ∈ l1 ++ l2.
Proof. rewrite !elem_of_app, elem_of_cons. tauto. Qed.

(** [Vec::pop]: the last element and the rest. *)
Definition vec_pop l : option (A * list A) :=
  match reverse l with [] => None | x :: r => Some (x, reverse r) end.

Lemma vec_pop_nil : vec_pop [] = None.
Proof. done. Qed.
Lemma vec_pop_snoc l (x : A) : vec_pop (l ++ [x]) = Some (x, l).
Proof. unfold vec_pop. rewrite reverse_snoc. by rewrite reverse_involutive. Qed.
Lemma vec_pop_Some l (x : A) l' : vec_pop l = Some (x, l') -> l = l' ++ [x].
Proof.
  destruct l as [|y l _] using rev_ind; [done|].
  rewrite vec_pop_snoc. by intros [= -> ->].
Qed.
Lemma vec_pop_None l : vec_pop l = None -> l = [].
Proof. destruct l as [|y l _] using rev_ind; [done|]. by rewrite vec_pop_snoc. Qed.

(** [iter().position(p)] on the elements. *)
Fixpoint find_split (p : A -> bool) l : option (list A * A * list A) :=
  match l with
  | [] => None
  | x :: l =>
      if p x then Some ([], x, l)
      else r ← find_split p l; let '(a, y, b) := r in Some (x :: a, y, b)
  end.

Lemma find_split_Some p l a (x : A) b :
  find_split p l = Some (a, x, b) -> l = a ++ (x :: b) ∧ p x = true ∧ Forall (fun y => p y = false) a.
Proof.
  revert a. induction l as [|y l IH]; intros a; simpl; [done|].
  destruct (p y) eqn:Hy; [by intros [= <- <- <-]|].
  destruct (find_split p l) as [[[a' x'] b']|]; simpl; [|done].
  intros [= <- -> ->]. destruct (IH a' eq_refl) as (-> & ? & ?). auto.
Qed.
Lemma find_split_None p l : find_split p l = None -> Forall (fun y => p y = false) l.
Proof.
  induction l as [|y l IH]; simpl; [done|].
  destruct (p y) eqn:Hy; [done|]. destruct (find_split p l) as [[[a' x'] b']|]; [done|].
  auto.
Qed.
End Lists.
