(* ===== verification/Effects.v ===== *)
(** Stateful fallible code.

    A method [fn op(&mut self, ..) -> Result<A, E>] is a computation [M S E A]:
    from the state it returns the state after the call (an [Err] keeps every
    mutation made before it) and an [outcome].  [wp] is total correctness: the
    call does not panic and its post-condition holds of the result, [Ok] or
    [Err], and the state. *)
From S2P Require Import Prelude.

Definition M (S E A : Type) : Type := S -> S * outcome E A.

Section Ops.
Context {S E : Type}.

Definition ret {A} (a : A) : M S E A := fun s => (s, Ok a).
Definition throw {A} (e : E) : M S E A := fun s => (s, Err e).
Definition panic {A} : M S E A := fun s => (s, Panic).
Definition bind {A B} (m : M S E A) (k : A -> M S E B) : M S E B :=
  fun s => match m s with
           | (s, Ok a) => k a s
           | (s, Err e) => (s, Err e)
           | (s, Panic) => (s, Panic)
           end.
(** [match op() { Ok(a) => .., Err(e) => .. }]. *)
Definition attempt {A} (m : M S E A) : M S E (A + E) :=
  fun s => match m s with
           | (s, Ok a) => (s, Ok (inl a))
           | (s, Err e) => (s, Ok (inr e))
           | (s, Panic) => (s, Panic)
           end.
Definition get : M S E S := fun s => (s, Ok s).
Definition put (s : S) : M S E unit := fun _ => (s, Ok tt).
Definition gets {A} (f : S -> A) : M S E A := fun s => (s, Ok (f s)).
Definition modify (f : S -> S) : M S E unit := fun s => (f s, Ok tt).
Definition unwrap {A} (o : option A) : M S E A :=
  match o with Some a => ret a | None => panic end.
Definition or_err {A} (o : option A) (e : E) : M S E A :=
  match o with Some a => ret a | None => throw e end.
Definition massert (b : bool) : M S E unit := if b then ret tt else panic.
Definition when (b : bool) (m : M S E unit) : M S E unit := if b then m else ret tt.
Fixpoint for_each {A} (f : A -> M S E unit) (l : list A) : M S E unit :=
  match l with [] => ret tt | x :: l => bind (f x) (fun _ => for_each f l) end.

(** A computation on a component of the state. *)
Definition zoom {T A} (proj : S -> T) (upd : T -> S -> S) (m : M T E A) : M S E A :=
  fun s => match m (proj s) with (t, r) => (upd t s, r) end.

Definition wp {A} (m : M S E A) (Q : A -> S -> Prop) (X : E -> S -> Prop) (s : S) : Prop :=
  match m s with
  | (s', Ok a) => Q a s'
  | (s', Err e) => X e s'
  | (_, Panic) => False
  end.

Lemma wp_mono {A} (m : M S E A) (Q Q' : A -> S -> Prop) (X X' : E -> S -> Prop) s :
  wp m Q X s -> (forall a s', Q a s' -> Q' a s') -> (forall e s', X e s' -> X' e s') ->
  wp m Q' X' s.
Proof. unfold wp. destruct (m s) as [s' [a|e|]]; eauto. Qed.

Lemma wp_conseq {A} (m : M S E A) (Q Q' : A -> S -> Prop) (X : E -> S -> Prop) s :
  wp m Q X s -> (forall a s', Q a s' -> Q' a s') -> wp m Q' X s.
Proof. intros H HQ. by eapply wp_mono. Qed.
(** What [wp] says of a run. *)
Lemma wp_run {A} (m : M S E A) (Q : A -> S -> Prop) (X : E -> S -> Prop) s s' a :
  wp m Q X s -> m s = (s', Ok a) -> Q a s'.
Proof. unfold wp. intros H E0. by rewrite E0 in H. Qed.
Lemma wp_ret {A} (a : A) (Q : A -> S -> Prop) (X : E -> S -> Prop) s :
  Q a s -> wp (ret a) Q X s.
Proof. done. Qed.
Lemma wp_throw {A} (e : E) (Q : A -> S -> Prop) (X : E -> S -> Prop) s :
  X e s -> wp (throw e) Q X s.
Proof. done. Qed.
Lemma wp_bind {A B} (m : M S E A) (k : A -> M S E B) (Q : B -> S -> Prop)
    (X : E -> S -> Prop) s :
  wp m (fun a s' => wp (k a) Q X s') X s -> wp (bind m k) Q X s.
Proof. unfold wp, bind. destruct (m s) as [s' [a|e|]]; done. Qed.
Lemma wp_attempt {A} (m : M S E A) (Q : A + E -> S -> Prop) (X : E -> S -> Prop) s :
  wp m (fun a => Q (inl a)) (fun e => Q (inr e)) s -> wp (attempt m) Q X s.
Proof. unfold wp, attempt. destruct (m s) as [s' [a|e|]]; done. Qed.
Lemma wp_get (Q : S -> S -> Prop) (X : E -> S -> Prop) s : Q s s -> wp get Q X s.
Proof. done. Qed.
Lemma wp_put (t : S) (Q : unit -> S -> Prop) (X : E -> S -> Prop) s : Q tt t -> wp (put t) Q X s.
Proof. done. Qed.
Lemma wp_gets {A} (f : S -> A) (Q : A -> S -> Prop) (X : E -> S -> Prop) s :
  Q (f s) s -> wp (gets f) Q X s.
Proof. done. Qed.
Lemma wp_modify (f : S -> S) (Q : unit -> S -> Prop) (X : E -> S -> Prop) s :
  Q tt (f s) -> wp (modify f) Q X s.
Proof. done. Qed.
Lemma wp_unwrap {A} (o : option A) (Q : A -> S -> Prop) (X : E -> S -> Prop) s :
  (exists a, o = Some a /\ Q a s) -> wp (unwrap o) Q X s.
Proof. by intros (a & -> & H). Qed.
Lemma wp_or_err {A} (o : option A) (e : E) (Q : A -> S -> Prop) (X : E -> S -> Prop) s :
  (forall a, o = Some a -> Q a s) -> (o = None -> X e s) -> wp (or_err o e) Q X s.
Proof. destruct o; unfold wp; simpl; eauto. Qed.
Lemma wp_massert (b : bool) (Q : unit -> S -> Prop) (X : E -> S -> Prop) s :
  b = true -> Q tt s -> wp (massert b) Q X s.
Proof. by intros ->. Qed.
Lemma wp_when (b : bool) (m : M S E unit) (Q : unit -> S -> Prop) (X : E -> S -> Prop) s :
  (b = true -> wp m Q X s) -> (b = false -> Q tt s) -> wp (when b m) Q X s.
Proof. destruct b; unfold when; [intros H _|intros _ H]; by apply H. Qed.
Lemma wp_zoom {T A} (proj : S -> T) (upd : T -> S -> S) (m : M T E A)
    (Q : A -> S -> Prop) (X : E -> S -> Prop) s :
  match m (proj s) with
  | (t, Ok a) => Q a (upd t s)
  | (t, Err e) => X e (upd t s)
  | (_, Panic) => False
  end -> wp (zoom proj upd m) Q X s.
Proof. unfold wp, zoom. destruct (m (proj s)) as [t [a|e|]]; done. Qed.

(** A loop keeps its invariant when each turn does. *)
Lemma wp_for_each {A} (f : A -> M S E unit) (l : list A) (I : S -> Prop)
    (X : E -> S -> Prop) s :
  I s -> (forall x s, x ∈ l -> I s -> wp (f x) (fun _ => I) X s) ->
  wp (for_each f l) (fun _ => I) X s.
Proof.
  revert s. induction l as [|x l IH]; intros s Hs Hf; [done|].
  apply wp_bind. eapply wp_mono; [apply Hf; [set_solver|done]| |done].
  intros [] s' Hs'. apply IH; [done|]. intros y ? ?. apply Hf. set_solver.
Qed.
(** The same for a loop over indices, whose invariant may mention them. *)
Lemma wp_for_seq (f : nat -> M S E unit) (a n : nat) (I : nat -> S -> Prop) (X : E -> S -> Prop) s :
  I a s -> (forall i s, a <= i < a + n -> I i s -> wp (f i) (fun _ => I (i + 1)) X s) ->
  wp (for_each f (seq a n)) (fun _ => I (a + n)) X s.
Proof.
  revert a s. induction n as [|n IH]; intros a s Hs Hf; simpl; [by rewrite Nat.add_0_r|].
  apply wp_bind. eapply wp_conseq; [apply Hf; [lia|done]|].
  intros [] s' Hs'. replace (a + Datatypes.S n) with (Datatypes.S a + n) by lia.
  apply IH; [by rewrite <-Nat.add_1_r|]. intros i t Hi. apply Hf. lia.
Qed.
End Ops.

#[export] Instance M_ret (S E : Type) : MRet (M S E) := fun A => ret.
#[export] Instance M_bind (S E : Type) : MBind (M S E) := fun A B k m => bind m k.

(** One step through a computation. *)
Ltac wp_step :=
  lazymatch goal with
  | |- wp (bind _ _) _ _ _ => apply wp_bind
  | |- wp (mbind _ _) _ _ _ => apply wp_bind
  | |- wp (ret _) _ _ _ => apply wp_ret
  | |- wp (throw _) _ _ _ => apply wp_throw
  | |- wp (gets _) _ _ _ => apply wp_gets
  | |- wp get _ _ _ => apply wp_get
  | |- wp (put _) _ _ _ => apply wp_put
  | |- wp (unwrap (Some _)) _ _ _ => apply wp_ret
  | |- wp (modify _) _ _ _ => apply wp_modify
  | |- wp (attempt _) _ _ _ => apply wp_attempt
  end.
Ltac wp_steps := repeat (wp_step; cbv beta).
