(* ===== verification/Slru.v ===== *)
(** The intrusive SLRU lists of [memra-engine/src/moe_cache.rs].

    A cache slot carries one [SlotLink] in an arena shared by all lists; an
    [SlruList] is a head/tail/len triple over that arena.  [seg_repr] says that
    a list represents a sequence of slots (front = LRU, back = MRU) and every
    operation is shown to implement the matching operation on the sequence,
    without ever failing an index or a debug assertion. *)
From S2P Require Import Prelude.

Module SlruList.

Definition NIL : Z := 2 ^ 32 - 1.
Definition SEG_NONE : Z := 0.
Definition SEG_PROBATION : Z := 1.
Definition SEG_PROTECTED : Z := 2.

Record SlotLink := mkLink { prev : Z; next : Z; seg : Z }.
#[export] Instance SlotLink_eq_dec : EqDecision SlotLink.
Proof. solve_decision. Defined.

Definition link_none : SlotLink := mkLink NIL NIL SEG_NONE.

Record SlruList := mkList { head : Z; tail : Z; len : nat }.

Definition new : SlruList := mkList NIL NIL 0.

(** [slot as u32]. *)
Definition as_u32 (slot : nat) : Z := wrap 32 (Z.of_nat slot).

(** [links[i as usize].next = v] and [links[i as usize].prev = v]; [None] is
    the out-of-range panic. *)
Definition set_next (links : list SlotLink) (i v : Z) : option (list SlotLink) :=
  l ← links !! Z.to_nat i;
  Some (<[Z.to_nat i := mkLink (prev l) v (seg l)]> links).
Definition set_prev (links : list SlotLink) (i v : Z) : option (list SlotLink) :=
  l ← links !! Z.to_nat i;
  Some (<[Z.to_nat i := mkLink v (next l) (seg l)]> links).

(** The three list operations.  [None] is a panic: an index out of range, a
    failed [debug_assert], or the underflow of [len]. *)
Definition push_back (q : SlruList) (slot : nat) (sg : Z) (links : list SlotLink)
    : option (SlruList * list SlotLink) :=
  l ← links !! slot;
  if negb (seg l =? SEG_NONE)%Z then None else
  let s := as_u32 slot in
  let links := <[slot := mkLink (tail q) NIL sg]> links in
  if negb (tail q =? NIL)%Z then
    links ← set_next links (tail q) s;
    Some (mkList (head q) s (S (len q)), links)
  else
    Some (mkList s s (S (len q)), links).

Definition unlink (q : SlruList) (slot : nat) (links : list SlotLink)
    : option (SlruList * list SlotLink) :=
  l ← links !! slot;
  if (seg l =? SEG_NONE)%Z then None else
  r ← (if negb (prev l =? NIL)%Z then
         links ← set_next links (prev l) (next l); Some (q, links)
       else if negb (head q =? as_u32 slot)%Z then None
       else Some (mkList (next l) (tail q) (len q), links));
  let '(q, links) := r in
  r ← (if negb (next l =? NIL)%Z then
         links ← set_prev links (next l) (prev l); Some (q, links)
       else if negb (tail q =? as_u32 slot)%Z then None
       else Some (mkList (head q) (prev l) (len q), links));
  let '(q, links) := r in
  let links := <[slot := link_none]> links in
  match len q with
  | O => None
  | S n => Some (mkList (head q) (tail q) n, links)
  end.

Definition pop_front (q : SlruList) (links : list SlotLink)
    : option (option nat * SlruList * list SlotLink) :=
  if (head q =? NIL)%Z then Some (None, q, links) else
  let s := Z.to_nat (head q) in
  r ← unlink q s links;
  let '(q, links) := r in
  Some (Some s, q, links).

(** [SlruIter::next] driven to the end from [cur].  The iteration visits each
    list member once, so one step more than the arena's length is enough fuel;
    running out of it, like an index out of range, gives [None]. *)
Fixpoint iter_from (fuel : nat) (cur : Z) (links : list SlotLink) : option (list nat) :=
  match fuel with
  | O => None
  | S fuel =>
      if (cur =? NIL)%Z then Some [] else
      let s := Z.to_nat cur in
      l ← links !! s;
      rest ← iter_from fuel (next l) links;
      Some (s :: rest)
  end.
Definition iter (q : SlruList) (links : list SlotLink) : option (list nat) :=
  iter_from (S (length links)) (head q) links.

(** ** What a list represents *)

Definition first_or (n : Z) (xs : list nat) : Z :=
  match xs with [] => n | x :: _ => as_u32 x end.
Fixpoint last_or (p : Z) (xs : list nat) : Z :=
  match xs with [] => p | x :: xs => last_or (as_u32 x) xs end.

(** The slots [xs] are chained in the arena, [p] before the first and [n]
    after the last one. *)
Fixpoint chain (links : list SlotLink) (sg p : Z) (xs : list nat) (n : Z) : Prop :=
  match xs with
  | [] => True
  | x :: xs => links !! x = Some (mkLink p (first_or n xs) sg) /\
               chain links sg (as_u32 x) xs n
  end.

Record seg_repr (links : list SlotLink) (sg : Z) (q : SlruList) (xs : list nat) : Prop := {
  sr_head : head q = first_or NIL xs;
  sr_tail : tail q = last_or NIL xs;
  sr_len : len q = length xs;
  sr_chain : chain links sg NIL xs NIL;
  sr_nodup : NoDup xs;
}.

(** Every slot index is below the list terminator. *)
Definition arena_ok (links : list SlotLink) : Prop := (Z.of_nat (length links) <= NIL)%Z.

(** Two arenas agree outside a set of slots. *)
Definition same_outside (P : nat -> Prop) (l1 l2 : list SlotLink) : Prop :=
  length l1 = length l2 /\ forall y, ~ P y -> l2 !! y = l1 !! y.

Section Facts.
Implicit Types (links : list SlotLink) (xs ys zs : list nat).

Lemma as_u32_small links (x : nat) :
  arena_ok links -> x < length links -> as_u32 x = Z.of_nat x.
Proof. unfold arena_ok, NIL, as_u32. intros. apply wrap_small. unfold in_u. lia. Qed.

Lemma as_u32_not_nil links (x : nat) :
  arena_ok links -> x < length links -> as_u32 x <> NIL.
Proof. intros. erewrite as_u32_small by done. unfold arena_ok in *. lia. Qed.

Lemma as_u32_nat links (x : nat) :
  arena_ok links -> x < length links -> Z.to_nat (as_u32 x) = x.
Proof. intros. erewrite as_u32_small by done. lia. Qed.

Lemma set_next_at links (x : nat) l (v : Z) :
  arena_ok links -> links !! x = Some l ->
  set_next links (as_u32 x) v = Some (<[x := mkLink (prev l) v (seg l)]> links).
Proof.
  intros Ha Hx. unfold set_next.
  rewrite (as_u32_nat links) by eauto using lookup_lt_Some. by rewrite Hx.
Qed.

Lemma set_prev_at links (x : nat) l (v : Z) :
  arena_ok links -> links !! x = Some l ->
  set_prev links (as_u32 x) v = Some (<[x := mkLink v (next l) (seg l)]> links).
Proof.
  intros Ha Hx. unfold set_prev.
  rewrite (as_u32_nat links) by eauto using lookup_lt_Some. by rewrite Hx.
Qed.

Lemma chain_frame links links' sg p xs n :
  (forall x, x ∈ xs -> links' !! x = links !! x) ->
  chain links sg p xs n -> chain links' sg p xs n.
Proof.
  revert p. induction xs as [|x xs IH]; intros p Heq; [done|].
  intros [Hx Hc]; split; [rewrite Heq; set_solver|].
  apply IH; [|done]. intros y Hy. apply Heq. set_solver.
Qed.

Lemma chain_in links sg p xs n (x : nat) :
  chain links sg p xs n -> x ∈ xs -> exists l, links !! x = Some l /\ seg l = sg.
Proof.
  revert p. induction xs as [|y xs IH]; intros p; [set_solver|].
  intros [Hy Hc] [->|Hin]%elem_of_cons; eauto.
Qed.

Lemma first_or_app n xs ys : first_or n (xs ++ ys) = first_or (first_or n ys) xs.
Proof. by destruct xs. Qed.
Lemma last_or_app p xs ys : last_or p (xs ++ ys) = last_or (last_or p xs) ys.
Proof. revert p. induction xs as [|x xs IH]; intros p; [done|]. apply IH. Qed.

Lemma chain_app links sg p xs ys n :
  chain links sg p (xs ++ ys) n <->
  chain links sg p xs (first_or n ys) /\ chain links sg (last_or p xs) ys n.
Proof.
  revert p. induction xs as [|x xs IH]; intros p; simpl; [tauto|].
  rewrite IH, first_or_app. tauto.
Qed.

Lemma chain_lt links sg p xs n (x : nat) :
  chain links sg p xs n -> x ∈ xs -> x < length links.
Proof. intros Hc Hx. destruct (chain_in _ _ _ _ _ _ Hc Hx) as (l & Hl & _).
  eauto using lookup_lt_Some. Qed.

(** Redirecting the link after a nonempty chain. *)
Lemma chain_set_last links sg p xs (t : nat) n n' :
  NoDup (xs ++ [t]) ->
  chain links sg p (xs ++ [t]) n ->
  chain (<[t := mkLink (last_or p xs) n' sg]> links) sg p (xs ++ [t]) n'.
Proof.
  intros Hnd Hc. assert (t < length links) by (eapply chain_lt; [exact Hc|set_solver]).
  apply chain_app in Hc as [H1 [H2 _]]. apply chain_app. simpl in *.
  apply NoDup_app_not_in in Hnd as [Hnot _].
  split; [|split; [apply list_lookup_insert_eq; lia|done]].
  eapply chain_frame; [|done]. intros y Hy. apply list_lookup_insert_ne. set_solver.
Qed.

(** Redirecting the link before a nonempty chain. *)
Lemma chain_set_first links sg p p' (x : nat) xs n :
  NoDup (x :: xs) ->
  chain links sg p (x :: xs) n ->
  chain (<[x := mkLink p' (first_or n xs) sg]> links) sg p' (x :: xs) n.
Proof.
  intros Hnd Hc. assert (x < length links) by (eapply chain_lt; [exact Hc|set_solver]).
  destruct Hc as [H1 H2]. apply NoDup_cons in Hnd as [Hnot _].
  split; [apply list_lookup_insert_eq; lia|].
  eapply chain_frame; [|done]. intros y Hy. apply list_lookup_insert_ne. set_solver.
Qed.

(** *** The operations implement the sequence operations *)

Lemma push_back_repr links sg q xs (slot : nat) l :
  arena_ok links -> seg_repr links sg q xs -> slot ∉ xs ->
  links !! slot = Some l -> seg l = SEG_NONE ->
  exists q' links',
    push_back q slot sg links = Some (q', links') /\
    seg_repr links' sg q' (xs ++ [slot]) /\
    same_outside (fun y => y ∈ xs ++ [slot]) links links'.
Proof.
  intros Ha [Hh Ht Hl Hc Hnd] Hnot Hs Hseg.
  assert (Hlt : slot < length links) by eauto using lookup_lt_Some.
  assert (NoDup (xs ++ [slot])) by (apply NoDup_app; split_and!; [done|set_solver|apply NoDup_singleton]).
  unfold push_back. rewrite Hs; simpl. rewrite Hseg; simpl.
  destruct xs as [|t xs _] using rev_ind.
  - simpl in Ht. rewrite Ht, Z.eqb_refl. simpl. do 2 eexists. split; [done|]. split.
    + split; simpl in *; try done; [lia|]. split; [|done]. apply list_lookup_insert_eq. lia.
    + split; [by rewrite length_insert|]. intros y Hy.
      apply list_lookup_insert_ne. set_solver.
  - assert (Hlast : last_or NIL (xs ++ [t]) = as_u32 t) by apply last_or_app.
    assert (t < length links) by (eapply chain_lt; [exact Hc|set_solver]).
    rewrite Ht, Hlast. rewrite (proj2 (Z.eqb_neq _ _)) by eauto using as_u32_not_nil.
    simpl. apply chain_app in Hc as Hc'. destruct Hc' as [Hc1 [Ht' _]].
    set (links1 := <[slot:=_]> links).
    assert (Hne : slot <> t) by set_solver.
    assert (Ht1 : links1 !! t = Some (mkLink (last_or NIL xs) NIL sg))
      by (unfold links1; by rewrite list_lookup_insert_ne by done).
    erewrite set_next_at; [|unfold arena_ok, links1 in *; by rewrite length_insert|exact Ht1].
    simpl. do 2 eexists. split; [done|].
    assert (Hc1' : chain links1 sg NIL (xs ++ [t]) NIL).
    { eapply chain_frame; [|exact Hc]. intros y Hy. unfold links1.
      rewrite list_lookup_insert_ne; set_solver. }
    split.
    + split; simpl; [by rewrite Hh, !first_or_app|by rewrite last_or_app|
        rewrite Hl, !length_app; simpl; lia| |done].
      apply chain_app. split.
      * simpl. apply chain_set_last with (n := NIL); [done|exact Hc1'].
      * rewrite last_or_app. simpl. split; [|done].
        rewrite list_lookup_insert_ne by done. unfold links1.
        by rewrite list_lookup_insert_eq by lia.
    + split; [unfold links1; by rewrite !length_insert|]. intros y Hy.
      unfold links1. rewrite !list_lookup_insert_ne; set_solver.
Qed.

(** The three cases of [unlink]'s two redirections, as one fact each. *)
Lemma unlink_prev_step links sg q ys (slot : nat) zs :
  arena_ok links -> NoDup (ys ++ slot :: zs) ->
  chain links sg NIL (ys ++ slot :: zs) NIL ->
  head q = first_or NIL (ys ++ slot :: zs) ->
  exists q' links',
    (if negb (last_or NIL ys =? NIL)%Z then
       links' ← set_next links (last_or NIL ys) (first_or NIL zs); Some (q, links')
     else if negb (head q =? as_u32 slot)%Z then None
     else Some (mkList (first_or NIL zs) (tail q) (len q), links)) = Some (q', links') /\
    head q' = first_or NIL (ys ++ zs) /\ tail q' = tail q /\ len q' = len q /\
    chain links' sg NIL ys (first_or NIL zs) /\
    chain links' sg (as_u32 slot) zs NIL /\
    same_outside (fun y => y ∈ ys) links links'.
Proof.
  intros Ha Hnd Hc Hh. apply chain_app in Hc as Hc'. destruct Hc' as [Hc1 [Hs Hc2]].
  destruct ys as [|t ys _] using rev_ind.
  - simpl in *. rewrite Hh, Z.eqb_refl. simpl. do 2 eexists. repeat split; eauto.
  - rewrite last_or_app; simpl. assert (t < length links) by (eapply chain_lt; [exact Hc1|set_solver]).
    rewrite (proj2 (Z.eqb_neq _ _)) by eauto using as_u32_not_nil. simpl.
    apply chain_app in Hc1 as Hc1'. destruct Hc1' as [_ [Ht _]].
    erewrite set_next_at by eauto. simpl. do 2 eexists.
    assert (NoDup (ys ++ [t])) by (apply NoDup_app in Hnd; tauto).
    assert (t ∉ zs).
    { intros Hin. apply NoDup_app in Hnd as (_ & Hd & _).
      apply (Hd t); [set_solver|]. right. done. }
    repeat split; eauto.
    + rewrite Hh, !first_or_app. done.
    + by eapply chain_set_last.
    + eapply chain_frame; [|done]. intros y Hy. apply list_lookup_insert_ne. set_solver.
    + by rewrite length_insert.
    + intros y Hy. apply list_lookup_insert_ne. set_solver.
Qed.

Lemma unlink_next_step links sg q (slot : nat) zs (p : Z) :
  arena_ok links -> NoDup (slot :: zs) ->
  chain links sg (as_u32 slot) zs NIL ->
  tail q = last_or p (slot :: zs) ->
  exists q' links',
    (if negb (first_or NIL zs =? NIL)%Z then
       links' ← set_prev links (first_or NIL zs) p; Some (q, links')
     else if negb (tail q =? as_u32 slot)%Z then None
     else Some (mkList (head q) p (len q), links)) = Some (q', links') /\
    head q' = head q /\ tail q' = last_or p zs /\ len q' = len q /\
    chain links' sg p zs NIL /\
    same_outside (fun y => y ∈ zs) links links'.
Proof.
  intros Ha Hnd Hc Ht. destruct zs as [|z zs].
  - simpl in *. rewrite Ht, Z.eqb_refl. simpl. do 2 eexists. repeat split; eauto.
  - assert (z < length links) by (eapply chain_lt; [exact Hc|set_solver]).
    simpl. rewrite (proj2 (Z.eqb_neq _ _)) by eauto using as_u32_not_nil. simpl.
    pose proof (proj1 Hc) as Hz. erewrite set_prev_at by eauto. simpl. do 2 eexists.
    apply NoDup_cons in Hnd as [_ Hnd].
    split; [done|]. split; [done|]. split; [by rewrite Ht|]. split; [done|]. split.
    + by eapply chain_set_first.
    + split; [by rewrite length_insert|]. intros y Hy. apply list_lookup_insert_ne. set_solver.
Qed.

Lemma unlink_repr links sg q ys (slot : nat) zs :
  arena_ok links -> sg <> SEG_NONE -> seg_repr links sg q (ys ++ slot :: zs) ->
  exists q' links',
    unlink q slot links = Some (q', links') /\
    seg_repr links' sg q' (ys ++ zs) /\
    links' !! slot = Some link_none /\
    same_outside (fun y => y ∈ ys ++ slot :: zs) links links'.
Proof.
  intros Ha Hsg [Hh Ht Hl Hc Hnd].
  apply chain_app in Hc as Hc'. destruct Hc' as [_ [Hs _]].
  assert (Hlt : slot < length links) by eauto using lookup_lt_Some.
  destruct (NoDup_app_not_in _ _ _ Hnd) as [Hny Hnz].
  unfold unlink. rewrite Hs; simpl. rewrite (proj2 (Z.eqb_neq _ _)) by done.
  destruct (unlink_prev_step links sg q ys slot zs) as
    (q1 & links1 & -> & Hh1 & Ht1 & Hl1 & Hc1 & Hc1' & Hlen1 & Hout1); [done..|].
  simpl. destruct (unlink_next_step links1 sg q1 slot zs (last_or NIL ys)) as
    (q2 & links2 & -> & Hh2 & Ht2 & Hl2 & Hc2 & Hlen2 & Hout2).
  { unfold arena_ok in *. by rewrite <-Hlen1. }
  { apply NoDup_app in Hnd; tauto. }
  { done. }
  { rewrite Ht1, Ht, last_or_app. done. }
  simpl. rewrite Hl2, Hl1, Hl, length_app. simpl.
  rewrite Nat.add_succ_r. do 2 eexists. split; [done|].
  assert (slot < length links2) by (rewrite <-Hlen2, <-Hlen1; done).
  split; [|split].
  - split; simpl; [by rewrite Hh2|by rewrite Ht2, last_or_app|by rewrite length_app| |].
    + apply chain_app. split.
      * eapply chain_frame; [|exact Hc1]. intros y Hy.
        rewrite list_lookup_insert_ne by set_solver. apply Hout2.
        intros Hin. apply NoDup_app in Hnd as (_ & Hd & _). apply (Hd y Hy). by right.
      * eapply chain_frame; [|exact Hc2]. intros y Hy.
        rewrite list_lookup_insert_ne by set_solver. done.
    + eauto using NoDup_remove_mid.
  - apply list_lookup_insert_eq. lia.
  - split; [rewrite length_insert; congruence|]. intros y Hy.
    rewrite list_lookup_insert_ne by set_solver.
    rewrite Hout2 by set_solver. apply Hout1. set_solver.
Qed.

Lemma seg_repr_frame links links' sg q xs :
  (forall x, x ∈ xs -> links' !! x = links !! x) ->
  seg_repr links sg q xs -> seg_repr links' sg q xs.
Proof. intros Heq [? ? ? ? ?]. split; try done. eauto using chain_frame. Qed.

Lemma seg_repr_in links sg q xs (x : nat) :
  seg_repr links sg q xs -> x ∈ xs -> exists l, links !! x = Some l /\ seg l = sg.
Proof. intros [_ _ _ Hc _]. eauto using chain_in. Qed.

Lemma seg_repr_new links sg : seg_repr links sg new [].
Proof. split; try done. constructor. Qed.

Lemma same_outside_weaken (P Q : nat -> Prop) links links' :
  (forall x, P x -> Q x) -> same_outside P links links' -> same_outside Q links links'.
Proof. intros H [? Ho]. split; [done|]. intros y Hy. apply Ho. naive_solver. Qed.

Lemma same_outside_trans (P : nat -> Prop) l1 l2 l3 :
  same_outside P l1 l2 -> same_outside P l2 l3 -> same_outside P l1 l3.
Proof.
  intros [? H1] [? H2]. split; [congruence|].
  intros y Hy. rewrite H2 by done. by apply H1.
Qed.

Lemma same_outside_refl (P : nat -> Prop) links : same_outside P links links.
Proof. done. Qed.

Lemma same_outside_arena (P : nat -> Prop) links links' :
  same_outside P links links' -> arena_ok links -> arena_ok links'.
Proof. intros [Hl _]. unfold arena_ok. by rewrite Hl. Qed.

Lemma pop_front_nil links sg q :
  seg_repr links sg q [] -> pop_front q links = Some (None, q, links).
Proof. intros [Hh _ _ _ _]. unfold pop_front. by rewrite Hh, Z.eqb_refl. Qed.

Lemma pop_front_cons links sg q (x : nat) xs :
  arena_ok links -> sg <> SEG_NONE -> seg_repr links sg q (x :: xs) ->
  exists q' links',
    pop_front q links = Some (Some x, q', links') /\
    seg_repr links' sg q' xs /\
    links' !! x = Some link_none /\
    same_outside (fun y => y ∈ x :: xs) links links'.
Proof.
  intros Ha Hsg Hr. unfold pop_front. rewrite (sr_head _ _ _ _ Hr). simpl.
  assert (x < length links) by (eapply chain_lt; [apply Hr|set_solver]).
  rewrite (proj2 (Z.eqb_neq _ _)) by eauto using as_u32_not_nil.
  rewrite (as_u32_nat links) by done.
  destruct (unlink_repr links sg q [] x xs)
    as (q' & links' & -> & Hx & Hrest); [done..|].
  simpl. eauto.
Qed.

Lemma iter_from_chain links sg p xs fuel :
  arena_ok links -> chain links sg p xs NIL -> length xs < fuel ->
  iter_from fuel (first_or NIL xs) links = Some xs.
Proof.
  intros Ha. revert p fuel. induction xs as [|x xs IH]; intros p fuel Hc Hf;
    (destruct fuel as [|fuel]; [simpl in Hf; lia|]); simpl; [done|].
  pose proof (chain_lt _ _ _ _ _ x Hc ltac:(set_solver)). destruct Hc as [Hx Hc].
  rewrite (proj2 (Z.eqb_neq _ _)) by eauto using as_u32_not_nil.
  rewrite (as_u32_nat links) by done. rewrite Hx. simpl.
  erewrite IH; [done|done|]. simpl in Hf. lia.
Qed.

Lemma iter_repr links sg q xs :
  arena_ok links -> seg_repr links sg q xs -> iter q links = Some xs.
Proof.
  intros Ha [Hh _ _ Hc Hnd]. unfold iter. rewrite Hh.
  eapply iter_from_chain; [done..|].
  assert (length xs <= length links); [|lia].
  rewrite <-(length_seq (length links) 0). apply submseteq_length, NoDup_submseteq; [done|].
  intros x Hx. apply elem_of_seq. split; [lia|]. eapply chain_lt; eauto.
Qed.
End Facts.

End SlruList.

(** * Size classes: the segmented LRU policy *)
Module SlotClass.
Import SlruList.

Record SlotClass := mkClass {
  capacity : Z;
  probation : SlruList;
  protected : SlruList;
  free : list nat;
  protected_cap : nat;
}.
Definition with_probation (q : SlruList) (c : SlotClass) : SlotClass :=
  mkClass (capacity c) q (protected c) (free c) (protected_cap c).
Definition with_protected (q : SlruList) (c : SlotClass) : SlotClass :=
  mkClass (capacity c) (probation c) q (free c) (protected_cap c).
Definition with_free (f : list nat) (c : SlotClass) : SlotClass :=
  mkClass (capacity c) (probation c) (protected c) f (protected_cap c).

(** The demotion loop of [push_protected].  Each turn takes one slot out of the
    protected list, so its length is enough fuel; [None] is a panic (or the
    fuel running out, which [push_protected_repr] excludes). *)
Fixpoint demote_loop (fuel : nat) (c : SlotClass) (links : list SlotLink)
    : option (SlotClass * list SlotLink) :=
  if protected_cap c <? len (protected c) then
    match fuel with
    | O => None
    | S fuel =>
        r ← pop_front (protected c) links;
        let '(demoted, q, links) := r in
        let c := with_protected q c in
        match demoted with
        | None => Some (c, links)
        | Some demoted =>
            r ← push_back (probation c) demoted SEG_PROBATION links;
            let '(q, links) := r in
            demote_loop fuel (with_probation q c) links
        end
    end
  else Some (c, links).

Definition push_protected (c : SlotClass) (slot : nat) (links : list SlotLink)
    : option (SlotClass * list SlotLink) :=
  r ← push_back (protected c) slot SEG_PROTECTED links;
  let '(q, links) := r in
  demote_loop (len q) (with_protected q c) links.

Definition on_hit_full (c : SlotClass) (slot : nat) (links : list SlotLink)
    : option (SlotClass * list SlotLink) :=
  l ← links !! slot;
  if (seg l =? SEG_PROBATION)%Z then
    r ← unlink (probation c) slot links;
    let '(q, links) := r in push_protected (with_probation q c) slot links
  else if (seg l =? SEG_PROTECTED)%Z then
    r ← unlink (protected c) slot links;
    let '(q, links) := r in
    r ← push_back q slot SEG_PROTECTED links;
    let '(q, links) := r in Some (with_protected q c, links)
  else push_protected c slot links.

Definition pop_lru (c : SlotClass) (links : list SlotLink)
    : option (option nat * SlotClass * list SlotLink) :=
  r ← pop_front (probation c) links;
  let '(s, q, links) := r in
  let c := with_probation q c in
  match s with
  | Some s => Some (Some s, c, links)
  | None =>
      r ← pop_front (protected c) links;
      let '(s, q, links) := r in Some (s, with_protected q c, links)
  end.

Definition unlink_from_segment (c : SlotClass) (slot : nat) (links : list SlotLink)
    : option (SlotClass * list SlotLink) :=
  l ← links !! slot;
  if (seg l =? SEG_PROBATION)%Z then
    r ← unlink (probation c) slot links; let '(q, links) := r in Some (with_probation q c, links)
  else if (seg l =? SEG_PROTECTED)%Z then
    r ← unlink (protected c) slot links; let '(q, links) := r in Some (with_protected q c, links)
  else Some (c, links).

(** The local [fn take] of [evict_one_excluding]: the first slot of the list,
    from the LRU end, that may be taken. *)
Definition take (q : SlruList) (may_take : nat -> bool) (links : list SlotLink)
    : option (option nat * SlruList * list SlotLink) :=
  xs ← iter q links;
  match find_split may_take xs with
  | None => Some (None, q, links)
  | Some (_, slot, _) =>
      r ← unlink q slot links; let '(q, links) := r in Some (Some slot, q, links)
  end.

(** [take(probation).or_else(|| take(protected))]. *)
Definition take_excluding (c : SlotClass) (may_take : nat -> bool) (links : list SlotLink)
    : option (option nat * SlotClass * list SlotLink) :=
  r ← take (probation c) may_take links;
  let '(s, q, links) := r in
  let c := with_probation q c in
  match s with
  | Some s => Some (Some s, c, links)
  | None =>
      r ← take (protected c) may_take links;
      let '(s, q, links) := r in Some (s, with_protected q c, links)
  end.

(** [publish]'s insertion of an admitted slot at the probation MRU end. *)
Definition push_probation (c : SlotClass) (slot : nat) (links : list SlotLink)
    : option (SlotClass * list SlotLink) :=
  r ← push_back (probation c) slot SEG_PROBATION links;
  let '(q, links) := r in Some (with_probation q c, links).

(** ** The reference policy

    The queue-based SLRU the source keeps (in its tests) as the statement of
    the intended eviction decisions. *)
Record OldSlru := mkOld {
  o_probation : list nat;
  o_protected : list nat;
  o_cap : nat;
}.

Fixpoint old_demote (fuel : nat) (o : OldSlru) : OldSlru :=
  match fuel with
  | O => o
  | S fuel =>
      if o_cap o <? length (o_protected o) then
        match o_protected o with
        | [] => o
        | d :: rest => old_demote fuel (mkOld (o_probation o ++ [d]) rest (o_cap o))
        end
      else o
  end.
Definition old_push_protected (slot : nat) (o : OldSlru) : OldSlru :=
  let o := mkOld (o_probation o) (o_protected o ++ [slot]) (o_cap o) in
  old_demote (length (o_protected o)) o.

Definition is_slot (slot : nat) (x : nat) : bool := bool_decide (x = slot).

Definition old_on_hit_full (slot : nat) (o : OldSlru) : OldSlru :=
  match find_split (is_slot slot) (o_probation o) with
  | Some (a, _, b) => old_push_protected slot (mkOld (a ++ b) (o_protected o) (o_cap o))
  | None =>
      match find_split (is_slot slot) (o_protected o) with
      | Some (a, _, b) => mkOld (o_probation o) ((a ++ b) ++ [slot]) (o_cap o)
      | None => old_push_protected slot o
      end
  end.

Definition old_pop_lru (o : OldSlru) : option nat * OldSlru :=
  match o_probation o with
  | s :: rest => (Some s, mkOld rest (o_protected o) (o_cap o))
  | [] =>
      match o_protected o with
      | s :: rest => (Some s, mkOld [] rest (o_cap o))
      | [] => (None, o)
      end
  end.

Definition old_take_excluding (may_take : nat -> bool) (o : OldSlru) : option nat * OldSlru :=
  match find_split may_take (o_probation o) with
  | Some (a, s, b) => (Some s, mkOld (a ++ b) (o_protected o) (o_cap o))
  | None =>
      match find_split may_take (o_protected o) with
      | Some (a, s, b) => (Some s, mkOld (o_probation o) (a ++ b) (o_cap o))
      | None => (None, o)
      end
  end.

Definition old_unlink (slot : nat) (o : OldSlru) : OldSlru :=
  match find_split (is_slot slot) (o_probation o) with
  | Some (a, _, b) => mkOld (a ++ b) (o_protected o) (o_cap o)
  | None =>
      match find_split (is_slot slot) (o_protected o) with
      | Some (a, _, b) => mkOld (o_probation o) (a ++ b) (o_cap o)
      | None => o
      end
  end.

Definition old_push_probation (slot : nat) (o : OldSlru) : OldSlru :=
  mkOld (o_probation o ++ [slot]) (o_protected o) (o_cap o).

(** ** The refinement relation

    The class's two lists hold the reference queues, over the slots [mine] of
    this class; a slot of the class tagged with a segment is in that queue. *)
Record class_repr (links : list SlotLink) (c : SlotClass) (mine : nat -> Prop)
    (o : OldSlru) : Prop := {
  cr_prob : seg_repr links SEG_PROBATION (probation c) (o_probation o);
  cr_prot : seg_repr links SEG_PROTECTED (protected c) (o_protected o);
  cr_cap : protected_cap c = o_cap o;
  cr_mine : forall x, x ∈ o_probation o ++ o_protected o -> mine x;
  cr_seg : forall x l, mine x -> links !! x = Some l ->
    seg l = SEG_NONE \/ (seg l = SEG_PROBATION /\ x ∈ o_probation o) \/
    (seg l = SEG_PROTECTED /\ x ∈ o_protected o);
}.

Section Refinement.
Implicit Types (links : list SlotLink) (c : SlotClass) (o : OldSlru) (mine : nat -> Prop).

Lemma class_repr_frame links links' c mine o :
  (forall x, mine x -> links' !! x = links !! x) ->
  class_repr links c mine o -> class_repr links' c mine o.
Proof.
  intros Heq [Hp Ht Hc Hm Hs]. split; try done.
  - eapply seg_repr_frame; [|done]. intros x Hx. apply Heq, Hm. set_solver.
  - eapply seg_repr_frame; [|done]. intros x Hx. apply Heq, Hm. set_solver.
  - intros x l Hx. rewrite Heq by done. eauto.
Qed.

Lemma class_repr_with_free links c mine o f :
  class_repr links c mine o -> class_repr links (with_free f c) mine o.
Proof. by intros [? ? ? ? ?]. Qed.

Lemma class_disjoint links c mine o (x : nat) :
  class_repr links c mine o -> x ∈ o_probation o -> x ∈ o_protected o -> False.
Proof.
  intros [Hp Ht _ _ _] H1 H2.
  destruct (seg_repr_in _ _ _ _ _ Hp H1) as (l & Hl & Hs).
  destruct (seg_repr_in _ _ _ _ _ Ht H2) as (l' & Hl' & Hs').
  assert (SEG_PROBATION = SEG_PROTECTED) by congruence. done.
Qed.

Lemma class_unlink_prob links c mine o a (x : nat) b :
  arena_ok links -> class_repr links c mine o -> o_probation o = a ++ (x :: b) ->
  exists q links',
    unlink (probation c) x links = Some (q, links') /\
    class_repr links' (with_probation q c) mine (mkOld (a ++ b) (o_protected o) (o_cap o)) /\
    links' !! x = Some link_none /\ same_outside mine links links'.
Proof.
  intros Ha Hr Ho. pose proof Hr as [Hp Ht Hc Hm Hs]. rewrite Ho in Hp.
  destruct (unlink_repr _ SEG_PROBATION _ _ _ _ Ha ltac:(done) Hp) as (q & links' & -> & Hp' & Hx & Hout).
  do 2 eexists. split; [done|]. split; [split; simpl; try done|].
  - eapply seg_repr_frame; [|done]. intros y Hy. apply Hout. rewrite <-Ho.
    intros Hy'. eauto using class_disjoint.
  - intros y Hy. apply Hm. rewrite Ho. set_solver.
  - intros y l Hy Hl. destruct (decide (y = x)) as [->|Hne].
    { left. rewrite Hx in Hl. by injection Hl as <-. }
    destruct (decide (y ∈ a ++ b)) as [Hin|Hin].
    { right; left. split; [|done]. destruct (seg_repr_in _ _ _ _ _ Hp' Hin) as (l' & Hl' & ?).
      congruence. }
    rewrite (proj2 Hout) in Hl by set_solver.
    destruct (Hs y l Hy Hl) as [?|[[_ Hy']|[? ?]]]; [by left| |by eauto].
    rewrite Ho in Hy'. destruct (Hin (elem_of_mid_ne _ _ _ _ Hy' Hne)).
  - split; [done|]. eapply same_outside_weaken; [|exact Hout].
    intros y Hy. apply Hm. rewrite Ho. set_solver.
Qed.

Lemma class_unlink_prot links c mine o a (x : nat) b :
  arena_ok links -> class_repr links c mine o -> o_protected o = a ++ (x :: b) ->
  exists q links',
    unlink (protected c) x links = Some (q, links') /\
    class_repr links' (with_protected q c) mine (mkOld (o_probation o) (a ++ b) (o_cap o)) /\
    links' !! x = Some link_none /\ same_outside mine links links'.
Proof.
  intros Ha Hr Ho. pose proof Hr as [Hp Ht Hc Hm Hs]. rewrite Ho in Ht.
  destruct (unlink_repr _ SEG_PROTECTED _ _ _ _ Ha ltac:(done) Ht) as (q & links' & -> & Ht' & Hx & Hout).
  do 2 eexists. split; [done|]. split; [split; simpl; try done|].
  - eapply seg_repr_frame; [|done]. intros y Hy. apply Hout. rewrite <-Ho.
    intros Hy'. eauto using class_disjoint.
  - intros y Hy. apply Hm. rewrite Ho. set_solver.
  - intros y l Hy Hl. destruct (decide (y = x)) as [->|Hne].
    { left. rewrite Hx in Hl. by injection Hl as <-. }
    destruct (decide (y ∈ a ++ b)) as [Hin|Hin].
    { right; right. split; [|done]. destruct (seg_repr_in _ _ _ _ _ Ht' Hin) as (l' & Hl' & ?).
      congruence. }
    rewrite (proj2 Hout) in Hl by set_solver.
    destruct (Hs y l Hy Hl) as [?|[[? ?]|[_ Hy']]]; [by left|by eauto|].
    rewrite Ho in Hy'. destruct (Hin (elem_of_mid_ne _ _ _ _ Hy' Hne)).
  - split; [done|]. eapply same_outside_weaken; [|exact Hout].
    intros y Hy. apply Hm. rewrite Ho. set_solver.
Qed.

Lemma class_not_in links c mine o (x : nat) l :
  class_repr links c mine o -> links !! x = Some l -> seg l = SEG_NONE ->
  (x ∉ o_probation o) ∧ (x ∉ o_protected o).
Proof.
  intros [Hp Ht _ _ _] Hl Hn. split; intros Hin.
  - destruct (seg_repr_in _ _ _ _ _ Hp Hin) as (l' & Hl' & Hs).
    exfalso. assert (seg l = seg l') by congruence. rewrite Hs, Hn in *. done.
  - destruct (seg_repr_in _ _ _ _ _ Ht Hin) as (l' & Hl' & Hs).
    exfalso. assert (seg l = seg l') by congruence. rewrite Hs, Hn in *. done.
Qed.

Lemma class_push_prob links c mine o (x : nat) l :
  arena_ok links -> class_repr links c mine o -> mine x ->
  links !! x = Some l -> seg l = SEG_NONE ->
  exists q links',
    push_back (probation c) x SEG_PROBATION links = Some (q, links') /\
    class_repr links' (with_probation q c) mine (old_push_probation x o) /\
    same_outside mine links links'.
Proof.
  intros Ha Hr Hx Hl Hn. pose proof Hr as [Hp Ht Hc Hm Hs].
  destruct (class_not_in _ _ _ _ _ _ Hr Hl Hn) as [Hnp Hnt].
  destruct (push_back_repr _ _ _ _ _ _ Ha Hp Hnp Hl Hn) as (q & links' & -> & Hp' & Hout).
  do 2 eexists. split; [done|]. split; [split; simpl; try done|].
  - eapply seg_repr_frame; [|done]. intros y Hy. apply Hout.
    intros [Hy'| ->%list_elem_of_singleton]%elem_of_app; [eauto using class_disjoint|done].
  - intros y Hy. destruct (decide (y = x)) as [->|]; [done|]. apply Hm. set_solver.
  - intros y l' Hy Hl'. destruct (decide (y ∈ o_probation o ++ [x])) as [Hin|Hin].
    { right; left. split; [|done]. destruct (seg_repr_in _ _ _ _ _ Hp' Hin) as (l'' & ? & ?).
      congruence. }
    rewrite (proj2 Hout) in Hl' by done.
    destruct (Hs y l' Hy Hl') as [?|[[? ?]|[? ?]]]; [by left| |by eauto]. set_solver.
  - eapply same_outside_weaken; [|exact Hout].
    intros y [Hy| ->%list_elem_of_singleton]%elem_of_app; [apply Hm; set_solver|done].
Qed.

Lemma class_push_prot links c mine o (x : nat) l :
  arena_ok links -> class_repr links c mine o -> mine x ->
  links !! x = Some l -> seg l = SEG_NONE ->
  exists q links',
    push_back (protected c) x SEG_PROTECTED links = Some (q, links') /\
    class_repr links' (with_protected q c) mine
      (mkOld (o_probation o) (o_protected o ++ [x]) (o_cap o)) /\
    same_outside mine links links'.
Proof.
  intros Ha Hr Hx Hl Hn. pose proof Hr as [Hp Ht Hc Hm Hs].
  destruct (class_not_in _ _ _ _ _ _ Hr Hl Hn) as [Hnp Hnt].
  destruct (push_back_repr _ _ _ _ _ _ Ha Ht Hnt Hl Hn) as (q & links' & -> & Ht' & Hout).
  do 2 eexists. split; [done|]. split; [split; simpl; try done|].
  - eapply seg_repr_frame; [|done]. intros y Hy. apply Hout.
    intros [Hy'| ->%list_elem_of_singleton]%elem_of_app; [eauto using class_disjoint|done].
  - intros y Hy. destruct (decide (y = x)) as [->|]; [done|]. apply Hm. set_solver.
  - intros y l' Hy Hl'. destruct (decide (y ∈ o_protected o ++ [x])) as [Hin|Hin].
    { right; right. split; [|done]. destruct (seg_repr_in _ _ _ _ _ Ht' Hin) as (l'' & ? & ?).
      congruence. }
    rewrite (proj2 Hout) in Hl' by done.
    destruct (Hs y l' Hy Hl') as [?|[[? ?]|[? ?]]]; [by left|by eauto|]. set_solver.
  - eapply same_outside_weaken; [|exact Hout].
    intros y [Hy| ->%list_elem_of_singleton]%elem_of_app; [apply Hm; set_solver|done].
Qed.

(** Popping the front is unlinking the first slot. *)
Lemma pop_front_unlink links sg q (x : nat) xs :
  arena_ok links -> seg_repr links sg q (x :: xs) ->
  pop_front q links =
    (r ← unlink q x links; let '(q, links) := r in Some (Some x, q, links)).
Proof.
  intros Ha Hr. unfold pop_front. rewrite (sr_head _ _ _ _ Hr). simpl.
  assert (x < length links) by (eapply chain_lt; [apply Hr|set_solver]).
  rewrite (proj2 (Z.eqb_neq _ _)) by eauto using as_u32_not_nil.
  by rewrite (as_u32_nat links).
Qed.

Lemma demote_loop_repr fuel links c mine o :
  arena_ok links -> class_repr links c mine o -> length (o_protected o) <= fuel ->
  exists c' links',
    demote_loop fuel c links = Some (c', links') /\
    class_repr links' c' mine (old_demote fuel o) /\
    free c' = free c /\ capacity c' = capacity c /\ same_outside mine links links'.
Proof.
  revert links c o. induction fuel as [|fuel IH]; intros links c o Ha Hr Hf; simpl;
    rewrite (cr_cap _ _ _ _ Hr), (sr_len _ _ _ _ (cr_prot _ _ _ _ Hr)).
  { rewrite (proj2 (Nat.ltb_ge _ _)) by lia. eauto 10 using same_outside_refl. }
  destruct (o_cap o <? length (o_protected o)) eqn:Hlt;
    [|eauto 10 using same_outside_refl].
  destruct (o_protected o) as [|d rest] eqn:Ho; [done|].
  pose proof (cr_prot _ _ _ _ Hr) as Ht. rewrite Ho in Ht.
  rewrite (pop_front_unlink _ _ _ _ _ Ha Ht).
  destruct (class_unlink_prot _ _ _ _ [] d rest Ha Hr Ho)
    as (q & links1 & -> & Hr1 & Hd & Hout1). simpl in *.
  pose proof (same_outside_arena _ _ _ Hout1 Ha) as Ha1.
  destruct (class_push_prob _ _ _ _ d link_none Ha1 Hr1) as (q2 & links2 & Hpush & Hr2 & Hout2);
    [apply (cr_mine _ _ _ _ Hr); rewrite Ho; set_solver|done|done|].
  simpl in Hpush. rewrite Hpush; simpl.
  destruct (IH links2 (with_probation q2 (with_protected q c)) _
    (same_outside_arena _ _ _ Hout2 Ha1) Hr2) as (c' & links' & -> & Hr' & Hf' & Hc' & Hout');
    [simpl; lia|].
  do 2 eexists. split; [done|]. split; [exact Hr'|]. split; [done|]. split; [done|].
  eauto using same_outside_trans.
Qed.

Lemma push_protected_repr links c mine o (x : nat) l :
  arena_ok links -> class_repr links c mine o -> mine x ->
  links !! x = Some l -> seg l = SEG_NONE ->
  exists c' links',
    push_protected c x links = Some (c', links') /\
    class_repr links' c' mine (old_push_protected x o) /\
    free c' = free c /\ capacity c' = capacity c /\ same_outside mine links links'.
Proof.
  intros Ha Hr Hx Hl Hn. unfold push_protected, old_push_protected.
  destruct (class_push_prot _ _ _ _ x l Ha Hr Hx Hl Hn) as (q & links1 & -> & Hr1 & Hout1).
  simpl. pose proof (sr_len _ _ _ _ (cr_prot _ _ _ _ Hr1)) as Hlen. simpl in Hlen.
  rewrite Hlen.
  destruct (demote_loop_repr (length (o_protected o ++ [x])) links1 (with_protected q c) mine
    (mkOld (o_probation o) (o_protected o ++ [x]) (o_cap o))
    (same_outside_arena _ _ _ Hout1 Ha) Hr1) as (c' & links' & -> & Hr' & Hf' & Hc' & Hout');
    [done|].
  do 2 eexists. split; [done|]. eauto using same_outside_trans.
Qed.

(** Finding a slot by value in a queue it belongs to. *)
Lemma find_slot_in (x : nat) (xs : list nat) :
  x ∈ xs -> exists a b, find_split (is_slot x) xs = Some (a, x, b) /\ xs = a ++ (x :: b).
Proof.
  intros Hin. destruct (find_split (is_slot x) xs) as [[[a y] b]|] eqn:Hf.
  - apply find_split_Some in Hf as (-> & Hp%bool_decide_eq_true_1 & _). subst. eauto.
  - apply find_split_None in Hf. rewrite Forall_forall in Hf.
    specialize (Hf x Hin). unfold is_slot in Hf. by rewrite bool_decide_eq_true_2 in Hf.
Qed.

Lemma find_slot_not_in (x : nat) (xs : list nat) :
  x ∉ xs -> find_split (is_slot x) xs = None.
Proof.
  intros Hin. destruct (find_split (is_slot x) xs) as [[[a y] b]|] eqn:Hf; [|done].
  apply find_split_Some in Hf as (-> & Hp%bool_decide_eq_true_1 & _). set_solver.
Qed.

(** Where a slot of the class is, read off its tag. *)
Lemma class_slot_cases links c mine o (x : nat) l :
  class_repr links c mine o -> mine x -> links !! x = Some l ->
  (seg l = SEG_NONE /\ (x ∉ o_probation o) ∧ (x ∉ o_protected o)) \/
  (seg l = SEG_PROBATION /\ x ∈ o_probation o) \/
  (seg l = SEG_PROTECTED /\ x ∈ o_protected o /\ (x ∉ o_probation o)).
Proof.
  intros Hr Hx Hl. destruct (cr_seg _ _ _ _ Hr x l Hx Hl) as [Hn|[?|[Hs Hin]]].
  - left. split; [done|]. eauto using class_not_in.
  - by right; left.
  - right; right. split; [done|]. split; [done|]. intros ?. eauto using class_disjoint.
Qed.

Lemma on_hit_full_repr links c mine o (x : nat) :
  arena_ok links -> class_repr links c mine o -> mine x -> x < length links ->
  exists c' links',
    on_hit_full c x links = Some (c', links') /\
    class_repr links' c' mine (old_on_hit_full x o) /\
    free c' = free c /\ capacity c' = capacity c /\ same_outside mine links links'.
Proof.
  intros Ha Hr Hx Hlt. destruct (lookup_lt_is_Some_2 links x Hlt) as [l Hl].
  unfold on_hit_full, old_on_hit_full. rewrite Hl; simpl.
  destruct (class_slot_cases _ _ _ _ _ _ Hr Hx Hl)
    as [(Hs & Hp & Ht)|[(Hs & Hp)|(Hs & Ht & Hp)]]; rewrite Hs; simpl.
  - rewrite !find_slot_not_in by done. by eapply push_protected_repr.
  - destruct (find_slot_in _ _ Hp) as (a & b & -> & Ho).
    destruct (class_unlink_prob _ _ _ _ a x b Ha Hr Ho) as (q & links1 & -> & Hr1 & Hn & Hout1).
    simpl. destruct (push_protected_repr links1 (with_probation q c) mine
      (mkOld (a ++ b) (o_protected o) (o_cap o)) x _ (same_outside_arena _ _ _ Hout1 Ha) Hr1 Hx Hn)
      as (c' & links' & -> & Hr' & ? & ? & ?); [done|].
    do 2 eexists. split; [done|]. eauto using same_outside_trans.
  - rewrite (find_slot_not_in _ _ Hp).
    destruct (find_slot_in _ _ Ht) as (a & b & -> & Ho).
    destruct (class_unlink_prot _ _ _ _ a x b Ha Hr Ho) as (q & links1 & -> & Hr1 & Hn & Hout1).
    simpl. destruct (class_push_prot _ _ _ _ x _ (same_outside_arena _ _ _ Hout1 Ha) Hr1 Hx Hn)
      as (q2 & links2 & Hpush & Hr2 & Hout2); [done|].
    simpl in Hpush. rewrite Hpush. simpl.
    do 2 eexists. split; [done|]. eauto using same_outside_trans.
Qed.

Lemma push_probation_repr links c mine o (x : nat) l :
  arena_ok links -> class_repr links c mine o -> mine x ->
  links !! x = Some l -> seg l = SEG_NONE ->
  exists c' links',
    push_probation c x links = Some (c', links') /\
    class_repr links' c' mine (old_push_probation x o) /\
    free c' = free c /\ capacity c' = capacity c /\ same_outside mine links links'.
Proof.
  intros Ha Hr Hx Hl Hn. unfold push_probation.
  destruct (class_push_prob _ _ _ _ x l Ha Hr Hx Hl Hn) as (q & links1 & -> & Hr1 & Hout1).
  simpl. eauto 10.
Qed.

Lemma pop_lru_repr links c mine o :
  arena_ok links -> class_repr links c mine o ->
  exists c' links',
    pop_lru c links = Some ((old_pop_lru o).1, c', links') /\
    class_repr links' c' mine (old_pop_lru o).2 /\
    (forall x, (old_pop_lru o).1 = Some x -> links' !! x = Some link_none) /\
    free c' = free c /\ capacity c' = capacity c /\ same_outside mine links links'.
Proof.
  intros Ha Hr. unfold pop_lru, old_pop_lru.
  pose proof (cr_prob _ _ _ _ Hr) as Hp. pose proof (cr_prot _ _ _ _ Hr) as Ht.
  destruct (o_probation o) as [|x rest] eqn:Hop.
  - rewrite (pop_front_nil _ _ _ Hp). simpl.
    destruct (o_protected o) as [|x rest] eqn:Hot.
    + rewrite (pop_front_nil _ _ _ Ht). simpl. do 2 eexists. split; [done|].
      split; [|done]. destruct Hr. by split.
    + rewrite (pop_front_unlink _ _ _ _ _ Ha Ht).
      destruct (class_unlink_prot _ _ _ _ [] x rest Ha Hr Hot)
        as (q & links1 & -> & Hr1 & Hn & Hout1). simpl. rewrite Hop in Hr1.
      do 2 eexists. split; [done|]. split; [destruct Hr1; by split|].
      split; [by intros ? [= <-]|done].
  - rewrite (pop_front_unlink _ _ _ _ _ Ha Hp).
    destruct (class_unlink_prob _ _ _ _ [] x rest Ha Hr Hop)
      as (q & links1 & -> & Hr1 & Hn & Hout1). simpl.
    do 2 eexists. split; [done|]. split; [done|]. split; [by intros ? [= <-]|done].
Qed.

Lemma take_excluding_repr links c mine o may_take :
  arena_ok links -> class_repr links c mine o ->
  exists c' links',
    take_excluding c may_take links = Some ((old_take_excluding may_take o).1, c', links') /\
    class_repr links' c' mine (old_take_excluding may_take o).2 /\
    (forall x, (old_take_excluding may_take o).1 = Some x -> links' !! x = Some link_none) /\
    free c' = free c /\ capacity c' = capacity c /\ same_outside mine links links'.
Proof.
  intros Ha Hr. unfold take_excluding, old_take_excluding, take.
  rewrite (iter_repr _ _ _ _ Ha (cr_prob _ _ _ _ Hr)). simpl.
  destruct (find_split may_take (o_probation o)) as [[[a x] b]|] eqn:Hfp.
  - apply find_split_Some in Hfp as (Ho & _).
    destruct (class_unlink_prob _ _ _ _ a x b Ha Hr Ho) as (q & links1 & -> & Hr1 & Hn & Hout1).
    simpl. do 2 eexists. split; [done|]. split; [done|]. split; [by intros ? [= <-]|done].
  - simpl. rewrite (iter_repr _ _ _ _ Ha (cr_prot _ _ _ _ Hr)). simpl.
    destruct (find_split may_take (o_protected o)) as [[[a x] b]|] eqn:Hft.
    + apply find_split_Some in Hft as (Ho & _).
      destruct (class_unlink_prot _ _ _ _ a x b Ha Hr Ho) as (q & links1 & -> & Hr1 & Hn & Hout1).
      simpl. do 2 eexists. split; [done|]. split; [destruct Hr1; by split|].
      split; [by intros ? [= <-]|done].
    + simpl. do 2 eexists. split; [done|]. split; [|done]. destruct Hr. by split.
Qed.

Lemma unlink_from_segment_repr links c mine o (x : nat) :
  arena_ok links -> class_repr links c mine o -> mine x -> x < length links ->
  exists c' links',
    unlink_from_segment c x links = Some (c', links') /\
    class_repr links' c' mine (old_unlink x o) /\
    (exists l, links' !! x = Some l /\ seg l = SEG_NONE) /\
    free c' = free c /\ capacity c' = capacity c /\ same_outside mine links links'.
Proof.
  intros Ha Hr Hx Hlt. destruct (lookup_lt_is_Some_2 links x Hlt) as [l Hl].
  unfold unlink_from_segment, old_unlink. rewrite Hl; simpl.
  destruct (class_slot_cases _ _ _ _ _ _ Hr Hx Hl)
    as [(Hs & Hp & Ht)|[(Hs & Hp)|(Hs & Ht & Hp)]]; rewrite Hs; simpl.
  - rewrite !find_slot_not_in by done. do 2 eexists. split; [done|].
    split; [done|]. split; [eauto|]. done.
  - destruct (find_slot_in _ _ Hp) as (a & b & -> & Ho).
    destruct (class_unlink_prob _ _ _ _ a x b Ha Hr Ho) as (q & links1 & -> & Hr1 & Hn & Hout1).
    simpl. do 2 eexists. split; [done|]. split; [done|]. split; [eauto|done].
  - rewrite (find_slot_not_in _ _ Hp).
    destruct (find_slot_in _ _ Ht) as (a & b & -> & Ho).
    destruct (class_unlink_prot _ _ _ _ a x b Ha Hr Ho) as (q & links1 & -> & Hr1 & Hn & Hout1).
    simpl. do 2 eexists. split; [done|]. split; [done|]. split; [eauto|done].
Qed.
End Refinement.

(** ** The listed slots *)

Definition queue (o : OldSlru) : list nat := o_probation o ++ o_protected o.

Section Queue.
Implicit Types (links : list SlotLink) (c : SlotClass) (o : OldSlru) (mine : nat -> Prop).

Lemma old_demote_queue fuel o : queue (old_demote fuel o) ≡ₚ queue o.
Proof.
  revert o. induction fuel as [|fuel IH]; intros o; simpl; [done|].
  destruct (_ <? _); [|done]. destruct (o_protected o) as [|d rest] eqn:Ho; [done|].
  rewrite IH. unfold queue. simpl. rewrite Ho, <-app_assoc. done.
Qed.
Lemma old_push_protected_queue (x : nat) o : queue (old_push_protected x o) ≡ₚ x :: queue o.
Proof.
  unfold old_push_protected. rewrite old_demote_queue. unfold queue. simpl.
  rewrite app_assoc. by rewrite <-Permutation_cons_append.
Qed.

Lemma find_slot (x : nat) (xs : list nat) :
  match find_split (is_slot x) xs with
  | Some (a, y, b) => y = x /\ xs = a ++ (x :: b)
  | None => x ∉ xs
  end.
Proof.
  destruct (find_split (is_slot x) xs) as [[[a y] b]|] eqn:Hf.
  - apply find_split_Some in Hf as (-> & Hp%bool_decide_eq_true_1 & _). by subst.
  - apply find_split_None in Hf. rewrite Forall_forall in Hf. intros Hin.
    specialize (Hf x Hin). by apply bool_decide_eq_false_1 in Hf.
Qed.

Lemma old_on_hit_full_queue (x : nat) o :
  x ∈ queue o -> queue (old_on_hit_full x o) ≡ₚ queue o.
Proof.
  intros Hx. unfold old_on_hit_full. pose proof (find_slot x (o_probation o)) as Hp.
  destruct (find_split (is_slot x) (o_probation o)) as [[[a y] b]|].
  - destruct Hp as [-> Hp]. rewrite old_push_protected_queue. unfold queue. simpl. rewrite Hp.
    rewrite <-!app_assoc. by rewrite Permutation_middle.
  - pose proof (find_slot x (o_protected o)) as Ht.
    destruct (find_split (is_slot x) (o_protected o)) as [[[a y] b]|].
    + destruct Ht as [-> Ht]. unfold queue. simpl. rewrite Ht.
      by rewrite <-Permutation_cons_append, Permutation_middle.
    + unfold queue in Hx. apply elem_of_app in Hx. tauto.
Qed.

Lemma old_unlink_queue (x : nat) o :
  x ∈ queue o -> queue o ≡ₚ x :: queue (old_unlink x o).
Proof.
  intros Hx. unfold old_unlink. pose proof (find_slot x (o_probation o)) as Hp.
  destruct (find_split (is_slot x) (o_probation o)) as [[[a y] b]|].
  - destruct Hp as [-> Hp]. unfold queue. simpl. rewrite Hp, <-!app_assoc. simpl.
    symmetry. apply Permutation_middle.
  - pose proof (find_slot x (o_protected o)) as Ht.
    destruct (find_split (is_slot x) (o_protected o)) as [[[a y] b]|].
    + destruct Ht as [-> Ht]. unfold queue. simpl. rewrite Ht, !app_assoc.
      by rewrite <-Permutation_middle.
    + unfold queue in Hx. apply elem_of_app in Hx. tauto.
Qed.

Lemma old_pop_lru_queue o :
  match (old_pop_lru o).1 with
  | Some x => queue o = x :: queue (old_pop_lru o).2
  | None => (old_pop_lru o).2 = o
  end.
Proof.
  unfold old_pop_lru, queue. destruct (o_probation o) as [|x rest] eqn:Hp; simpl; [|done].
  by destruct (o_protected o).
Qed.

Lemma old_take_queue f o :
  match (old_take_excluding f o).1 with
  | Some x => queue o ≡ₚ x :: queue (old_take_excluding f o).2 /\ f x = true
  | None => (old_take_excluding f o).2 = o
  end.
Proof.
  unfold old_take_excluding.
  destruct (find_split f (o_probation o)) as [[[a x] b]|] eqn:Hp; simpl.
  { apply find_split_Some in Hp as (Hp & Hf & _). unfold queue. simpl. rewrite Hp, <-!app_assoc.
    split; [|done]. symmetry. apply Permutation_middle. }
  destruct (find_split f (o_protected o)) as [[[a x] b]|] eqn:Ht; simpl; [|done].
  apply find_split_Some in Ht as (Ht & Hf & _). unfold queue. simpl. rewrite Ht, !app_assoc.
  split; [|done]. by rewrite <-Permutation_middle.
Qed.

(** A slot of the class is tagged exactly when a queue holds it. *)
Lemma class_listed links c mine o (x : nat) :
  class_repr links c mine o -> mine x ->
  (exists l, links !! x = Some l /\ seg l <> SEG_NONE) <-> x ∈ queue o.
Proof.
  intros Hr Hx. split.
  - intros (l & Hl & Hs). destruct (cr_seg _ _ _ _ Hr x l Hx Hl) as [?|[[_ ?]|[_ ?]]]; [done| |];
      unfold queue; set_solver.
  - intros [Hin|Hin]%elem_of_app.
    + destruct (seg_repr_in _ _ _ _ _ (cr_prob _ _ _ _ Hr) Hin) as (l & Hl & Hs).
      exists l. by rewrite Hs.
    + destruct (seg_repr_in _ _ _ _ _ (cr_prot _ _ _ _ Hr) Hin) as (l & Hl & Hs).
      exists l. by rewrite Hs.
Qed.

Lemma class_queue_nodup links c mine o : class_repr links c mine o -> NoDup (queue o).
Proof.
  intros Hr. apply NoDup_app. split; [apply (sr_nodup _ _ _ _ (cr_prob _ _ _ _ Hr))|].
  split; [|apply (sr_nodup _ _ _ _ (cr_prot _ _ _ _ Hr))].
  intros x Hp Ht. by eapply class_disjoint.
Qed.

(** Both segments iterate to the queue. *)
Lemma class_iter links c mine o :
  arena_ok links -> class_repr links c mine o ->
  iter (probation c) links = Some (o_probation o) /\
  iter (protected c) links = Some (o_protected o).
Proof. intros Ha Hr. split; eapply iter_repr; eauto using cr_prob, cr_prot. Qed.
End Queue.

(** ** Runs

    The calls a cache makes on one class, as a trace: a hit, the insertion of a
    published slot, a plain eviction, an eviction that spares some slots, and
    the removal of one slot. *)
Inductive slru_op : Type :=
  | OpHit (slot : nat)
  | OpAdmit (slot : nat)
  | OpEvict
  | OpTake (may_take : nat -> bool)
  | OpUnlink (slot : nat).

Definition class_step (op : slru_op) (c : SlotClass) (links : list SlotLink)
    : option (option nat * SlotClass * list SlotLink) :=
  match op with
  | OpHit x => r ← on_hit_full c x links; Some (None, r.1, r.2)
  | OpAdmit x => r ← push_probation c x links; Some (None, r.1, r.2)
  | OpEvict => pop_lru c links
  | OpTake may_take => take_excluding c may_take links
  | OpUnlink x => r ← unlink_from_segment c x links; Some (None, r.1, r.2)
  end.

Definition old_step (op : slru_op) (o : OldSlru) : option nat * OldSlru :=
  match op with
  | OpHit x => (None, old_on_hit_full x o)
  | OpAdmit x => (None, old_push_probation x o)
  | OpEvict => old_pop_lru o
  | OpTake may_take => old_take_excluding may_take o
  | OpUnlink x => (None, old_unlink x o)
  end.

Fixpoint class_run (ops : list slru_op) (c : SlotClass) (links : list SlotLink)
    : option (list (option nat) * SlotClass * list SlotLink) :=
  match ops with
  | [] => Some ([], c, links)
  | op :: ops =>
      r ← class_step op c links;
      let '(v, c, links) := r in
      r ← class_run ops c links;
      let '(vs, c, links) := r in Some (v :: vs, c, links)
  end.

Fixpoint old_run (ops : list slru_op) (o : OldSlru) : list (option nat) * OldSlru :=
  match ops with
  | [] => ([], o)
  | op :: ops =>
      let '(v, o) := old_step op o in
      let '(vs, o) := old_run ops o in (v :: vs, o)
  end.

(** The caller's side: slots are in range, and only a slot in neither queue is
    admitted. *)
Definition op_ok (n : nat) (op : slru_op) (o : OldSlru) : Prop :=
  match op with
  | OpHit x | OpUnlink x => x < n
  | OpAdmit x => x < n /\ x ∉ o_probation o ++ o_protected o
  | OpEvict | OpTake _ => True
  end.
Fixpoint ops_ok (n : nat) (ops : list slru_op) (o : OldSlru) : Prop :=
  match ops with
  | [] => True
  | op :: ops => op_ok n op o /\ ops_ok n ops (old_step op o).2
  end.

(** A fresh class: two empty lists over an arena of unlinked nodes. *)
Definition class_new (cap : Z) (fr : list nat) (pcap : nat) : SlotClass :=
  mkClass cap SlruList.new SlruList.new fr pcap.

Lemma class_step_repr (op : slru_op) (c : SlotClass) (links : list SlotLink) (o : OldSlru) :
  arena_ok links -> class_repr links c (fun _ => True) o -> op_ok (length links) op o ->
  exists c' links',
    class_step op c links = Some ((old_step op o).1, c', links') /\
    class_repr links' c' (fun _ => True) (old_step op o).2 /\
    same_outside (fun _ => True) links links'.
Proof.
  intros Ha Hr Hok. destruct op as [x|x| |f|x]; simpl in *.
  - destruct (on_hit_full_repr _ _ _ _ x Ha Hr) as (c' & l' & -> & ? & _ & _ & ?); eauto.
  - destruct Hok as [Hlt Hnot]. destruct (lookup_lt_is_Some_2 links x Hlt) as [l Hl].
    destruct (push_probation_repr _ _ _ _ x l Ha Hr I Hl) as (c' & l' & -> & ? & _ & _ & ?); [|eauto].
    destruct (class_slot_cases _ _ _ _ _ _ Hr I Hl) as [?|[?|?]]; set_solver.
  - destruct (pop_lru_repr _ _ _ _ Ha Hr) as (c' & l' & -> & ? & _ & _ & _ & ?); eauto.
  - destruct (take_excluding_repr _ _ _ _ f Ha Hr) as (c' & l' & -> & ? & _ & _ & _ & ?); eauto.
  - destruct (unlink_from_segment_repr _ _ _ _ x Ha Hr) as (c' & l' & -> & ? & _ & _ & _ & ?); eauto.
Qed.

Lemma class_run_repr (ops : list slru_op) (c : SlotClass) (links : list SlotLink) (o : OldSlru) :
  arena_ok links -> class_repr links c (fun _ => True) o -> ops_ok (length links) ops o ->
  exists c' links',
    class_run ops c links = Some ((old_run ops o).1, c', links') /\
    class_repr links' c' (fun _ => True) (old_run ops o).2 /\ arena_ok links'.
Proof.
  revert c links o. induction ops as [|op ops IH]; intros c links o Ha Hr Hok; simpl in *; [eauto|].
  destruct Hok as [Hok1 Hoks].
  destruct (class_step_repr op c links o Ha Hr Hok1) as (c1 & l1 & -> & Hr1 & Hout).
  pose proof (same_outside_arena _ _ _ Hout Ha) as Ha1.
  destruct (old_step op o) as [v o1]; simpl in *.
  destruct (IH c1 l1 o1 Ha1 Hr1) as (c2 & l2 & -> & ? & ?); [by rewrite <-(proj1 Hout)|].
  destruct (old_run ops o1) as [vs o2]; simpl in *. eauto.
Qed.

Lemma class_new_repr (n : nat) cap fr pcap mine :
  class_repr (replicate n link_none) (class_new cap fr pcap) mine (mkOld [] [] pcap).
Proof.
  split; simpl; [by split; try constructor..|done| |].
  { intros x Hx. by apply not_elem_of_nil in Hx. }
  intros x l _ [-> _]%lookup_replicate. by left.
Qed.

(** C1. The linked-list SLRU makes exactly the decisions of the queue-based
    reference policy: on every trace of hits, admissions, evictions, filtered
    evictions and removals, over any number of slots a u32 can index, no index
    or debug assertion fails, the evicted slots are the reference's, in order,
    and both lists iterate to the reference's queues. *)
Theorem slru_matches_reference (ops : list slru_op) (n : nat) (cap : Z) (fr : list nat) (pcap : nat) :
  (Z.of_nat n < 2 ^ 32)%Z ->
  ops_ok n ops (mkOld [] [] pcap) ->
  exists c links,
    class_run ops (class_new cap fr pcap) (replicate n link_none) =
      Some ((old_run ops (mkOld [] [] pcap)).1, c, links) /\
    iter (probation c) links = Some (o_probation (old_run ops (mkOld [] [] pcap)).2) /\
    iter (protected c) links = Some (o_protected (old_run ops (mkOld [] [] pcap)).2).
Proof.
  intros Hn Hok.
  destruct (class_run_repr ops (class_new cap fr pcap) (replicate n link_none) (mkOld [] [] pcap))
    as (c & links & -> & Hr & Ha).
  - unfold arena_ok, NIL. rewrite length_replicate. lia.
  - apply class_new_repr.
  - by rewrite length_replicate.
  - exists c, links. split; [done|].
    split; eapply iter_repr; eauto using cr_prob, cr_prot.
Qed.

Definition slru_trace : list slru_op :=
  [OpAdmit 0; OpAdmit 1; OpAdmit 2; OpHit 0; OpHit 2; OpTake (fun s => negb (s =? 1)); OpEvict].
Lemma slru_matches_reference_witness :
  (old_run slru_trace (mkOld [] [] 1)).1 =
    [None; None; None; None; None; Some 0; Some 1] /\
  exists c links,
    class_run slru_trace (class_new 4096 [] 1) (replicate 3 link_none) =
      Some ((old_run slru_trace (mkOld [] [] 1)).1, c, links) /\
    iter (probation c) links = Some (o_probation (old_run slru_trace (mkOld [] [] 1)).2) /\
    iter (protected c) links = Some (o_protected (old_run slru_trace (mkOld [] [] 1)).2).
Proof.
  split; [vm_compute; reflexivity|].
  apply (slru_matches_reference slru_trace 3 4096 [] 1); [reflexivity|].
  cbn. repeat split; try lia; apply (bool_decide_unpack _); vm_compute; exact I.
Defined.

End SlotClass.
