(* ===== verification/PreadPool.v ===== *)
(** The positioned-read pool of [memra-engine/src/spill_pread.rs].

    Pinned buffers move between the CUDA owner thread, which runs every method
    of [PreadPool], and the disk workers, which own a buffer's bytes while they
    read.  The kernel, CUDA and the thread scheduler are the class [Os]. *)
From S2P Require Import Prelude Effects.

(** * Modes, depths and alignment *)

Definition DIRECT_IO_ALIGNMENT : Z := 4096.
Definition direct_extent_aligned (offset len : Z) : bool :=
  ((offset mod DIRECT_IO_ALIGNMENT =? 0) && (len mod DIRECT_IO_ALIGNMENT =? 0))%Z.

Inductive SpillIoMode := Mmap | Pread | Worker | Direct.
#[export] Instance SpillIoMode_eq_dec : EqDecision SpillIoMode.
Proof. solve_decision. Defined.

Definition is_worker (m : SpillIoMode) : bool :=
  match m with Worker | Direct => true | _ => false end.

Definition parse_spill_io (value : option string) : outcome string SpillIoMode :=
  let v := default "mmap"%string value in
  if bool_decide (v = "mmap"%string) then Ok Mmap
  else if bool_decide (v = "pread"%string) then Ok Pread
  else if bool_decide (v = "worker"%string) then Ok Worker
  else if bool_decide (v = "direct"%string) then Ok Direct
  else Err "expected mmap, pread, worker, or direct"%string.

(** [configured_mode]: an unparsable value keeps the default. *)
Definition configured_mode (value : option string) : SpillIoMode :=
  match parse_spill_io value with Ok m => m | _ => Mmap end.

(** * Exact positioned reads *)

(** What one [File::read_at] returns. *)
Inductive read_answer := RdOk (n : nat) | RdInterrupted | RdErr.

Inductive read_error := ShortRead | OffsetOverflow | ReadFailed.
#[export] Instance read_error_eq_dec : EqDecision read_error.
Proof. solve_decision. Defined.

(** The [n] bytes a file with contents [c] holds at [off]. *)
Definition slice_at (c : list Z) (off : Z) (n : nat) : list Z :=
  take n (drop (Z.to_nat off) c).

(** The loop consumes the kernel's answers; [None] means it is still waiting
    for one.  The result is the destination after the call and the outcome. *)
Fixpoint pread_exact_at (c : list Z) (answers : list read_answer) (dst : list Z) (offset : Z)
    : option (list Z * outcome read_error unit) :=
  match dst, answers with
  | [], _ => Some ([], Ok tt)
  | _, [] => None
  | _, RdOk 0 :: _ => Some (dst, Err ShortRead)
  | _, RdOk n :: answers =>
      let written := slice_at c offset n in
      if (u_max 64 <? offset + Z.of_nat n)%Z then
        Some (written ++ drop n dst, Err OffsetOverflow)
      else if length dst <? n then Some (dst, Panic)
      else
        r ← pread_exact_at c answers (drop n dst) (offset + Z.of_nat n);
        Some (written ++ r.1, r.2)
  | _, RdInterrupted :: answers => pread_exact_at c answers dst offset
  | _, RdErr :: _ => Some (dst, Err ReadFailed)
  end.

(** The kernel answers a read of [n] bytes at [off] as [pread(2)] documents:
    no more bytes than asked for or than the file has, zero only at the end of
    the file, and interruptions do not go on for ever. *)
Fixpoint served (c : list Z) (answers : list read_answer) (n : nat) (off : Z) : Prop :=
  match n with
  | O => True
  | S _ =>
      match answers with
      | [] => False
      | RdOk k :: answers =>
          k <= n /\ (Z.of_nat k <= Z.max 0 (Z.of_nat (length c) - off))%Z /\
          (k = 0 -> (Z.of_nat (length c) <= off)%Z) /\
          (k <> 0 -> served c answers (n - k) (off + Z.of_nat k))
      | RdInterrupted :: answers => served c answers n off
      | RdErr :: _ => True
      end
  end.

Lemma slice_at_length (c : list Z) (off : Z) (n : nat) :
  (0 <= off)%Z -> (off + Z.of_nat n <= Z.of_nat (length c))%Z -> length (slice_at c off n) = n.
Proof. intros ? ?. unfold slice_at. rewrite length_take, length_drop. lia. Qed.

Lemma slice_at_app (c : list Z) (off : Z) (k n : nat) :
  (0 <= off)%Z ->
  slice_at c off k ++ slice_at c (off + Z.of_nat k) n = slice_at c off (k + n).
Proof.
  intros Hoff. unfold slice_at.
  rewrite Z2Nat.inj_add, Nat2Z.id by lia. rewrite <-drop_drop, take_take_drop. done.
Qed.

(** The loop returns, without panicking; success fills the destination with
    exactly the file's bytes, and a short read is reported only when the file
    ends before the extent does. *)
Lemma pread_exact_at_spec (c : list Z) answers (dst : list Z) (off : Z) :
  (0 <= off)%Z -> (Z.of_nat (length c) <= u_max 64)%Z -> served c answers (length dst) off ->
  exists d r, pread_exact_at c answers dst off = Some (d, r) /\ length d = length dst /\
    match r with
    | Ok _ => d = slice_at c off (length dst) /\
              (dst = [] \/ off + Z.of_nat (length dst) <= Z.of_nat (length c))%Z
    | Err ShortRead => (Z.of_nat (length c) < off + Z.of_nat (length dst))%Z
    | Err ReadFailed => RdErr ∈ answers
    | Err OffsetOverflow => False
    | Panic => False
    end.
Proof.
  intros Hoff Hc. revert dst off Hoff.
  induction answers as [|a answers IH]; intros dst off Hoff Hs.
  { destruct dst; simpl in *; [|done]. do 2 eexists. eauto. }
  destruct dst as [|b dst]; [simpl; do 2 eexists; eauto|].
  destruct a as [k| |]; simpl in Hs.
  - destruct Hs as (Hk & Hav & Hz & Hs). destruct k as [|k].
    { simpl. do 2 eexists. split; [done|]. split; [done|]. simpl. specialize (Hz eq_refl). lia. }
    specialize (Hs ltac:(done)). cbn [pread_exact_at].
    rewrite (proj2 (Z.ltb_ge _ _)) by lia.
    rewrite (proj2 (Nat.ltb_ge _ _)) by (simpl; lia).
    destruct (IH (drop (S k) (b :: dst)) (off + Z.of_nat (S k))%Z) as (d & r & -> & Hd & Hr); [lia| |].
    { rewrite length_drop. simpl in *. exact Hs. }
    rewrite length_drop in *. cbn [mbind option_bind fst snd].
    assert (Hlen : length (slice_at c off (S k)) = S k) by (apply slice_at_length; lia).
    do 2 eexists. split; [done|].
    split; [rewrite length_app, Hlen, Hd; simpl; lia|].
    destruct r as [[]|[]|]; try done; simpl length in *.
    + destruct Hr as [-> Hr]. rewrite slice_at_app by lia. split; [f_equal; lia|].
      right. destruct Hr as [Hr|Hr]; [|lia].
      apply (f_equal length) in Hr. rewrite length_drop in Hr. simpl in Hr. lia.
    + lia.
    + by right.
  - cbn [pread_exact_at]. destruct (IH (b :: dst) off Hoff Hs) as (d & r & -> & Hd & Hr).
    do 2 eexists. split; [done|]. split; [done|].
    destruct r as [?|[]|]; try done. by right.
  - simpl. do 2 eexists. split; [done|]. split; [done|]. left.
Qed.

(** * Buffer phases *)

Inductive BufferPhase := Free | Reading | Canceled | Ready | Failed | H2d.
#[export] Instance BufferPhase_eq_dec : EqDecision BufferPhase.
Proof. solve_decision. Defined.

Module Phase.

(** Each method returns the phase after the call and its result; [None] is its
    [panic!]/[assert!]. *)
Definition begin_read (p : BufferPhase) : BufferPhase * bool :=
  if bool_decide (p = Free) then (Reading, true) else (p, false).
Definition finish_read (success : bool) (p : BufferPhase) : option (BufferPhase * bool) :=
  match p with
  | Reading => Some (if success then Ready else Failed, false)
  | Canceled => Some (Free, true)
  | _ => None
  end.
Definition cancel_read (p : BufferPhase) : BufferPhase * bool :=
  match p with
  | Reading => (Canceled, false)
  | Ready | Failed => (Free, true)
  | _ => (p, false)
  end.
Definition begin_h2d (p : BufferPhase) : option BufferPhase :=
  if bool_decide (p = Ready) then Some H2d else None.
Definition abort_read (p : BufferPhase) : option BufferPhase :=
  match p with Reading | Canceled | Ready | Failed => Some Free | _ => None end.
Definition finish_h2d (complete : bool) (p : BufferPhase) : BufferPhase * bool :=
  if negb (bool_decide (p = H2d)) || negb complete then (p, false) else (Free, true).

End Phase.

(** * The pool *)

Inductive WorkerAdmission := Demand | Speculative.
Definition free_buffer_floor (a : WorkerAdmission) : nat :=
  match a with Demand => 0 | Speculative => 1 end.

(** [Box<dyn Error>], by the place that makes it. *)
Inductive PoolErr :=
  | EIo (e : read_error)     (* the read itself *)
  | EPinned                  (* cudarc refused the pinned slice *)
  | ETooLarge                (* extent exceeds the buffer capacity *)
  | EUnaligned               (* O_DIRECT alignment *)
  | EMetadata | EFadvise | EOpenDirect | EInodeChanged
  | EBlockingBackend         (* worker read on the blocking backend *)
  | ETicketOverflow
  | EShutDown | EDisconnected | EUnavailable | EChannel
  | EUnknownTicket | ELostBuffer | EInvalidState
  | ENotReady
  | ENoReusable | EMissingEvent | EEventSync
  | EAlloc | ESpawn.

Record PreadStats := mkStats {
  reads : Z; bytes_read : Z; read_errors : Z; short_reads : Z;
  fallbacks : Z; buffer_waits : Z; ring_full : Z;
}.
Definition no_stats : PreadStats := mkStats 0 0 0 0 0 0 0.

(** The u64 counters. *)
Definition inc (z k : Z) : Z := wrap 64 (z + k).

Record PinnedBuffer := mkBuffer {
  data : option (list Z);
  phase : BufferPhase;
  ready : option Z;
  ticket : option Z;
  error : option PoolErr;
}.

(** The kernel, CUDA and the scheduler.  Every answer is read off the state
    [world], so every behaviour in time is some [Os]. *)
Class Os := {
  world : Type;
  file : Type;
  (** what the file holds *)
  contents : file -> list Z;
  (** the answers to the successive [read_at] calls of one exact read *)
  os_reads : world -> file -> Z -> nat -> list read_answer * world;
  (** [fstat]: device and inode *)
  os_metadata : world -> file -> option (Z * Z) * world;
  os_fadvise : world -> file -> bool * world;
  os_open_direct : world -> file -> option file * world;
  (** [PinnedHostSlice::as_slice]/[as_mut_slice] succeeds *)
  os_pin : world -> bool * world;
  os_event_complete : world -> Z -> bool * world;
  os_event_sync : world -> Z -> bool * world;
  os_stream_sync : world -> bool * world;
  (** which worker steps happen before the owner's next channel operation *)
  os_sched : world -> list bool * world;
  (** which running read the next completion comes from *)
  os_pick : world -> nat * world;
}.

Section Pool.
Context {os : Os}.

Record ReadRequest := mkRequest {
  rq_ticket : Z; rq_index : nat; rq_file : file; rq_offset : Z; rq_len : nat; rq_data : list Z;
}.
Record ReadCompletion := mkCompletion {
  rc_ticket : Z; rc_index : nat; rc_len : nat; rc_data : list Z; rc_result : unit + PoolErr;
}.

(** The worker threads and the two channels.  [sender] is the owner's end of
    the request channel; a worker holds at most one request. *)
Record WorkerPool := mkWorkers {
  sender : bool;
  depth : nat;
  queue : list ReadRequest;
  running : list ReadRequest;
  completions : list ReadCompletion;
}.

Record PreadPool := mkPool {
  buffers : list PinnedBuffer;
  capacity : nat;
  stats : PreadStats;
  mode : SpillIoMode;
  workers : option WorkerPool;
  next_ticket : Z;
  tickets : gset Z;
  direct_files : gmap (Z * Z) file;
  random_advised_files : gset (Z * Z);
  env : world;
}.

Definition with_buffers (b : list PinnedBuffer) (p : PreadPool) : PreadPool :=
  mkPool b (capacity p) (stats p) (mode p) (workers p) (next_ticket p) (tickets p)
    (direct_files p) (random_advised_files p) (env p).
Definition with_stats (s : PreadStats) (p : PreadPool) : PreadPool :=
  mkPool (buffers p) (capacity p) s (mode p) (workers p) (next_ticket p) (tickets p)
    (direct_files p) (random_advised_files p) (env p).
Definition with_workers (w : option WorkerPool) (p : PreadPool) : PreadPool :=
  mkPool (buffers p) (capacity p) (stats p) (mode p) w (next_ticket p) (tickets p)
    (direct_files p) (random_advised_files p) (env p).
Definition with_next_ticket (t : Z) (p : PreadPool) : PreadPool :=
  mkPool (buffers p) (capacity p) (stats p) (mode p) (workers p) t (tickets p)
    (direct_files p) (random_advised_files p) (env p).
Definition with_tickets (t : gset Z) (p : PreadPool) : PreadPool :=
  mkPool (buffers p) (capacity p) (stats p) (mode p) (workers p) (next_ticket p) t
    (direct_files p) (random_advised_files p) (env p).
Definition with_direct_files (d : gmap (Z * Z) file) (p : PreadPool) : PreadPool :=
  mkPool (buffers p) (capacity p) (stats p) (mode p) (workers p) (next_ticket p) (tickets p)
    d (random_advised_files p) (env p).
Definition with_advised (a : gset (Z * Z)) (p : PreadPool) : PreadPool :=
  mkPool (buffers p) (capacity p) (stats p) (mode p) (workers p) (next_ticket p) (tickets p)
    (direct_files p) a (env p).
Definition with_env (w : world) (p : PreadPool) : PreadPool :=
  mkPool (buffers p) (capacity p) (stats p) (mode p) (workers p) (next_ticket p) (tickets p)
    (direct_files p) (random_advised_files p) w.

Definition P := M PreadPool PoolErr.

(** Ask the environment. *)
Definition ask {A : Type} (f : world -> A * world) : P A :=
  fun p => let '(a, w) := f (env p) in (with_env w p, Ok a).

Definition count_stat (f : PreadStats -> PreadStats) : P unit :=
  modify (fun p => with_stats (f (stats p)) p).
Definition st_read (len : nat) (s : PreadStats) : PreadStats :=
  mkStats (inc (reads s) 1) (inc (bytes_read s) (Z.of_nat len)) (read_errors s) (short_reads s)
    (fallbacks s) (buffer_waits s) (ring_full s).
Definition st_error (s : PreadStats) : PreadStats :=
  mkStats (reads s) (bytes_read s) (inc (read_errors s) 1) (short_reads s)
    (fallbacks s) (buffer_waits s) (ring_full s).
Definition st_short (s : PreadStats) : PreadStats :=
  mkStats (reads s) (bytes_read s) (read_errors s) (inc (short_reads s) 1)
    (fallbacks s) (buffer_waits s) (ring_full s).
Definition st_fallback (s : PreadStats) : PreadStats :=
  mkStats (reads s) (bytes_read s) (read_errors s) (short_reads s)
    (inc (fallbacks s) 1) (buffer_waits s) (ring_full s).
Definition st_wait (s : PreadStats) : PreadStats :=
  mkStats (reads s) (bytes_read s) (read_errors s) (short_reads s)
    (fallbacks s) (inc (buffer_waits s) 1) (ring_full s).
Definition st_full (s : PreadStats) : PreadStats :=
  mkStats (reads s) (bytes_read s) (read_errors s) (short_reads s)
    (fallbacks s) (buffer_waits s) (inc (ring_full s) 1).

(** [self.buffers[i]], read and written back; an index out of range panics. *)
Definition buffer (i : nat) : P PinnedBuffer :=
  p ← get; unwrap (buffers p !! i).
Definition set_buffer (i : nat) (b : PinnedBuffer) : P unit :=
  p ← get; massert (i <? length (buffers p));; put (with_buffers (<[i := b]> (buffers p)) p).

(** [iter().position(|b| ..)]. *)
Fixpoint position (f : PinnedBuffer -> bool) (bs : list PinnedBuffer) : option nat :=
  match bs with
  | [] => None
  | b :: bs => if f b then Some 0 else S <$> position f bs
  end.
Definition phase_is (ph : BufferPhase) (b : PinnedBuffer) : bool := bool_decide (phase b = ph).
Definition ticket_is (t : Z) (b : PinnedBuffer) : bool := bool_decide (ticket b = Some t).
Definition count_free (bs : list PinnedBuffer) : nat :=
  length (filter (fun b => phase b = Free) bs).

(** ** The worker threads *)

(** [read_worker]'s body on one request, with the read's answers. *)
Definition run_request (w : world) (r : ReadRequest) : option (ReadCompletion * world) :=
  let '(pinned, w) := os_pin w in
  if negb pinned then
    Some (mkCompletion (rq_ticket r) (rq_index r) (rq_len r) (rq_data r) (inr EPinned), w)
  else if length (rq_data r) <? rq_len r then None
  else
    let '(answers, w) := os_reads w (rq_file r) (rq_offset r) (rq_len r) in
    x ← pread_exact_at (contents (rq_file r)) answers (take (rq_len r) (rq_data r)) (rq_offset r);
    let '(d, res) := x in
    let data := d ++ drop (rq_len r) (rq_data r) in
    match res with
    | Ok _ => Some (mkCompletion (rq_ticket r) (rq_index r) (rq_len r) data (inl tt), w)
    | Err e => Some (mkCompletion (rq_ticket r) (rq_index r) (rq_len r) data (inr (EIo e)), w)
    | Panic => None
    end.

(** An idle worker takes the oldest request. *)
Definition worker_take (wp : WorkerPool) : WorkerPool :=
  match queue wp with
  | r :: q =>
      if length (running wp) <? depth wp
      then mkWorkers (sender wp) (depth wp) q (running wp ++ [r]) (completions wp)
      else wp
  | [] => wp
  end.

(** A busy worker, chosen by the environment, finishes its read. *)
Definition worker_finish (wp : WorkerPool) (w : world) : option (WorkerPool * world) :=
  let '(k, w) := os_pick w in
  let k := k mod length (running wp) in
  match running wp !! k with
  | None => Some (wp, w)
  | Some r =>
      c ← run_request w r;
      Some (mkWorkers (sender wp) (depth wp) (queue wp) (delete k (running wp))
              (completions wp ++ [c.1]), c.2)
  end.

Fixpoint worker_steps (steps : list bool) (wp : WorkerPool) (w : world)
    : option (WorkerPool * world) :=
  match steps with
  | [] => Some (wp, w)
  | true :: steps => worker_steps steps (worker_take wp) w
  | false :: steps => r ← worker_finish wp w; worker_steps steps r.1 r.2
  end.

(** The workers run between two of the owner's channel operations.  A worker
    that panics (or waits for the kernel for ever) is a panic of the model. *)
Definition let_workers_run : P unit :=
  p ← get;
  match workers p with
  | None => ret tt
  | Some wp =>
      steps ← ask os_sched;
      p ← get;
      r ← unwrap (worker_steps steps wp (env p));
      put (with_env r.2 (with_workers (Some r.1) p))
  end.

(** [completions.try_recv().ok()]. *)
Definition try_recv : P (option ReadCompletion) :=
  let_workers_run;;
  p ← get;
  match workers p with
  | None => ret None
  | Some wp =>
      match completions wp with
      | [] => ret None
      | c :: cs =>
          put (with_workers (Some (mkWorkers (sender wp) (depth wp) (queue wp) (running wp) cs)) p);;
          ret (Some c)
      end
  end.

(** [completions.recv()]: blocks until a worker sends; with nothing queued,
    running or sent it fails once the workers are gone, and never returns
    while they live (a panic of the model). *)
Definition recv : P ReadCompletion :=
  let_workers_run;;
  p ← get;
  match workers p with
  | None => throw EUnavailable
  | Some wp =>
      match completions wp with
      | c :: cs =>
          put (with_workers (Some (mkWorkers (sender wp) (depth wp) (queue wp) (running wp) cs)) p);;
          ret c
      | [] =>
          let wp := worker_take wp in
          match running wp with
          | [] => if sender wp then panic else throw EChannel
          | _ =>
              r ← unwrap (worker_finish wp (env p));
              match completions r.1 with
              | c :: cs =>
                  put (with_env r.2 (with_workers
                    (Some (mkWorkers (sender r.1) (depth r.1) (queue r.1) (running r.1) cs)) p));;
                  ret c
              | [] => panic
              end
          end
      end
  end.

Definition outstanding (wp : WorkerPool) : nat :=
  length (queue wp) + length (running wp) + length (completions wp).

(** ** The methods *)

Definition io_file (f : file) : P file :=
  meta ← ask (fun w => os_metadata w f);
  key ← or_err meta EMetadata;
  p ← get;
  if bool_decide (mode p = Worker) then
    if bool_decide (key ∈ random_advised_files p) then ret f else
    put (with_advised ({[ key ]} ∪ random_advised_files p) p);;
    ok ← ask (fun w => os_fadvise w f);
    if negb ok then
      modify (fun p => with_advised (random_advised_files p ∖ {[ key ]}) p);; throw EFadvise
    else ret f
  else if negb (bool_decide (mode p = Direct)) then ret f
  else
    match direct_files p !! key with
    | Some direct => ret direct
    | None =>
        opened ← ask (fun w => os_open_direct w f);
        direct ← or_err opened EOpenDirect;
        meta' ← ask (fun w => os_metadata w direct);
        key' ← or_err meta' EMetadata;
        if negb (bool_decide (key' = key)) then throw EInodeChanged else
        modify (fun p => with_direct_files (<[key := direct]> (direct_files p)) p);;
        ret direct
    end.

Definition finish_worker_completion (c : ReadCompletion) : P unit :=
  p ← get;
  match buffers p !! rc_index c with
  | None => ret tt
  | Some b =>
      if negb (bool_decide (phase b = Reading) || bool_decide (phase b = Canceled))
         || negb (bool_decide (ticket b = Some (rc_ticket c)))
         || bool_decide (is_Some (data b))
      then ret tt
      else
        let success := match rc_result c with inl _ => true | inr _ => false end in
        let short := match rc_result c with inr (EIo ShortRead) => true | _ => false end in
        '(ph, canceled) ← unwrap (Phase.finish_read success (phase b));
        (if success then count_stat (st_read (rc_len c))
         else count_stat st_error;; when short (count_stat st_short));;
        let b := mkBuffer (Some (rc_data c)) ph (ready b) (ticket b) (error b) in
        set_buffer (rc_index c)
          (if canceled : bool then mkBuffer (data b) (phase b) (ready b) None None
           else match rc_result c with
                | inr e => mkBuffer (data b) (phase b) (ready b) (ticket b) (Some e)
                | inl _ => b
                end)
  end.

(** The drain loop; each turn receives one of the outstanding reads. *)
Fixpoint poll_loop (fuel : nat) : P unit :=
  match fuel with
  | O => panic
  | S fuel =>
      c ← try_recv;
      match c with
      | None => ret tt
      | Some c => finish_worker_completion c;; poll_loop fuel
      end
  end.
Definition poll_worker_completions : P unit :=
  p ← get;
  poll_loop (S (match workers p with Some wp => outstanding wp | None => 0 end)).

Definition reap_buffer (i : nat) : P unit :=
  b ← buffer i;
  if negb (bool_decide (phase b = H2d)) then ret tt else
  complete ← match ready b with
             | Some ev => ask (fun w => os_event_complete w ev)
             | None => ret false
             end;
  let '(ph, freed) := Phase.finish_h2d complete (phase b) in
  set_buffer i (mkBuffer (data b) ph (if freed then None else ready b) (ticket b) (error b)).
Definition reap_completed : P unit :=
  poll_worker_completions;;
  p ← get;
  for_each reap_buffer (seq 0 (length (buffers p))).

Definition wait_for_one : P unit :=
  p ← get;
  match position (phase_is H2d) (buffers p) with
  | None => throw ENoReusable
  | Some i =>
      count_stat st_wait;;
      b ← buffer i;
      ev ← or_err (ready b) EMissingEvent;
      ok ← ask (fun w => os_event_sync w ev);
      if negb ok then throw EEventSync else
      let '(ph, freed) := Phase.finish_h2d true (phase b) in
      massert freed;;
      set_buffer i (mkBuffer (data b) ph None (ticket b) (error b))
  end.

Definition set_phase (i : nat) (ph : BufferPhase) : P unit :=
  b ← buffer i; set_buffer i (mkBuffer (data b) ph (ready b) (ticket b) (error b)).
Definition set_data (i : nat) (d : option (list Z)) : P unit :=
  b ← buffer i; set_buffer i (mkBuffer d (phase b) (ready b) (ticket b) (error b)).
Definition set_ticket (i : nat) (t : option Z) : P unit :=
  b ← buffer i; set_buffer i (mkBuffer (data b) (phase b) (ready b) t (error b)).
Definition set_ready (i : nat) (ev : option Z) : P unit :=
  b ← buffer i; set_buffer i (mkBuffer (data b) (phase b) ev (ticket b) (error b)).
Definition set_error (i : nat) (e : option PoolErr) : P unit :=
  b ← buffer i; set_buffer i (mkBuffer (data b) (phase b) (ready b) (ticket b) e).
Definition phase_abort (i : nat) : P unit :=
  b ← buffer i; ph ← unwrap (Phase.abort_read (phase b)); set_phase i ph.

Definition read (f : file) (offset : Z) (len : nat) : P nat :=
  p ← get;
  if capacity p <? len then count_stat st_error;; throw ETooLarge else
  reap_completed;;
  p ← get;
  (if existsb (phase_is Free) (buffers p) then ret tt else wait_for_one);;
  p ← get;
  i ← unwrap (position (phase_is Free) (buffers p));
  b ← buffer i;
  let '(ph, began) := Phase.begin_read (phase b) in
  massert began;;
  set_phase i ph;;
  d ← unwrap (data b);
  pinned ← ask os_pin;
  if negb pinned then phase_abort i;; count_stat st_error;; throw EPinned else
  massert (len <=? length d);;
  answers ← ask (fun w => os_reads w f offset len);
  '(d', res) ← unwrap (pread_exact_at (contents f) answers (take len d) offset);
  set_data i (Some (d' ++ drop len d));;
  match res with
  | Ok _ =>
      b ← buffer i;
      '(ph, canceled) ← unwrap (Phase.finish_read true (phase b));
      set_phase i ph;;
      massert (negb canceled);;
      count_stat (st_read len);;
      ret i
  | Err e =>
      phase_abort i;;
      count_stat st_error;;
      when (bool_decide (e = ShortRead)) (count_stat st_short);;
      throw (EIo e)
  | Panic => panic
  end.

Definition submit_worker_with_admission (f : file) (offset : Z) (len : nat)
    (admission : WorkerAdmission) : P (option Z) :=
  p ← get;
  if negb (is_worker (mode p)) then throw EBlockingBackend else
  if capacity p <? len then count_stat st_error;; throw ETooLarge else
  if bool_decide (mode p = Direct) && negb (direct_extent_aligned offset (Z.of_nat len)) then
    count_stat st_error;; throw EUnaligned
  else
  f ← io_file f;
  reap_completed;;
  p ← get;
  if count_free (buffers p) <=? free_buffer_floor admission then
    count_stat st_full;; ret None
  else
  i ← unwrap (position (phase_is Free) (buffers p));
  let t := next_ticket p in
  if (u_max 64 <? t + 1)%Z then throw ETicketOverflow else
  put (with_next_ticket (t + 1)%Z p);;
  b ← buffer i;
  let '(ph, began) := Phase.begin_read (phase b) in
  massert began;;
  set_phase i ph;;
  set_ticket i (Some t);;
  d ← unwrap (data b);
  set_data i None;;
  let request := mkRequest t i f offset len d in
  p ← get;
  match workers p with
  | None => throw EShutDown
  | Some wp =>
      if negb (sender wp) then throw EShutDown
      else if depth wp =? 0 then
        set_data i (Some d);; set_ticket i None;; phase_abort i;; throw EDisconnected
      else if depth wp <=? length (queue wp) then
        count_stat st_full;;
        set_data i (Some d);; set_ticket i None;; phase_abort i;; ret None
      else
        put (with_workers (Some (mkWorkers (sender wp) (depth wp) (queue wp ++ [request])
               (running wp) (completions wp))) p);;
        modify (fun p => with_tickets ({[ t ]} ∪ tickets p) p);;
        ret (Some t)
  end.
Definition submit_worker (f : file) (offset : Z) (len : nat) : P (option Z) :=
  submit_worker_with_admission f offset len Demand.
Definition submit_worker_speculative (f : file) (offset : Z) (len : nat) : P (option Z) :=
  submit_worker_with_admission f offset len Speculative.

(** The harvest loop of [wait_worker]; each turn receives one of the
    outstanding reads. *)
Fixpoint wait_loop (fuel : nat) (t : Z) (waited : bool) : P nat :=
  match fuel with
  | O => panic
  | S fuel =>
      p ← get;
      i ← or_err (position (ticket_is t) (buffers p)) ELostBuffer;
      b ← buffer i;
      match phase b with
      | Ready =>
          modify (fun p => with_tickets (tickets p ∖ {[ t ]}) p);; ret i
      | Failed =>
          modify (fun p => with_tickets (tickets p ∖ {[ t ]}) p);;
          set_ticket i None;;
          set_error i None;;
          phase_abort i;;
          throw (default (EIo ReadFailed) (error b))
      | Reading =>
          when (negb waited) (count_stat st_wait);;
          c ← recv;
          finish_worker_completion c;;
          wait_loop fuel t true
      | _ => throw EInvalidState
      end
  end.
Definition wait_worker (t : Z) : P nat :=
  p ← get;
  if negb (bool_decide (t ∈ tickets p)) then throw EUnknownTicket else
  poll_worker_completions;;
  p ← get;
  wait_loop (S (match workers p with Some wp => outstanding wp | None => 0 end)) t false.

Definition cancel_worker (t : Z) : P bool :=
  poll_worker_completions;;
  p ← get;
  if negb (bool_decide (t ∈ tickets p)) then ret false else
  put (with_tickets (tickets p ∖ {[ t ]}) p);;
  match position (ticket_is t) (buffers p) with
  | None => ret false
  | Some i =>
      b ← buffer i;
      let '(ph, reusable) := Phase.cancel_read (phase b) in
      massert (reusable || bool_decide (ph = Canceled));;
      set_buffer i (if reusable : bool then mkBuffer (data b) ph (ready b) None None
                    else mkBuffer (data b) ph (ready b) (ticket b) (error b));;
      ret true
  end.

Definition bytes (i len : nat) : P (list Z) :=
  b ← buffer i;
  if negb (bool_decide (phase b = Ready)) then throw ENotReady else
  d ← unwrap (data b);
  pinned ← ask os_pin;
  if negb pinned then throw EPinned else
  massert (len <=? length d);;
  ret (take len d).

Definition mark_h2d (i : nat) (ev : Z) : P unit :=
  b ← buffer i;
  ph ← unwrap (Phase.begin_h2d (phase b));
  set_buffer i (mkBuffer (data b) ph (Some ev) None (error b)).
Definition mark_unknown_h2d (i : nat) : P unit :=
  b ← buffer i;
  ph ← unwrap (Phase.begin_h2d (phase b));
  set_buffer i (mkBuffer (data b) ph None None (error b)).
Definition abort_read (i : nat) : P unit :=
  b ← buffer i;
  ph ← unwrap (Phase.abort_read (phase b));
  set_buffer i (mkBuffer (data b) ph (ready b) None None).
Definition note_fallback : P Z :=
  count_stat st_fallback;; p ← get; ret (fallbacks (stats p)).

(** [WorkerPool::shutdown]: the request sender is dropped and every worker is
    joined, so the requests still queued are read first. *)
Fixpoint join_loop (fuel : nat) (wp : WorkerPool) (w : world) : option (WorkerPool * world) :=
  match queue wp, running wp with
  | [], [] => Some (wp, w)
  | _, _ =>
      match fuel with
      | O => None
      | S fuel => r ← worker_finish (worker_take wp) w; join_loop fuel r.1 r.2
      end
  end.
Definition shutdown : P unit :=
  p ← get;
  match workers p with
  | None => ret tt
  | Some wp =>
      r ← unwrap (join_loop (length (queue wp) + length (running wp))
                    (mkWorkers false (depth wp) (queue wp) (running wp) (completions wp)) (env p));
      put (with_env r.2 (with_workers
        (Some (mkWorkers false 0 (queue r.1) (running r.1) (completions r.1))) p))
  end.

Definition drain_buffer (i : nat) : P unit :=
  b ← buffer i;
  if bool_decide (phase b = H2d) then
    let '(ph, freed) := Phase.finish_h2d true (phase b) in
    massert freed;; set_buffer i (mkBuffer (data b) ph None None None)
  else
    match phase b with
    | Reading | Canceled | Ready | Failed =>
        ph ← unwrap (Phase.abort_read (phase b));
        set_buffer i (mkBuffer (data b) ph None None None)
    | _ => set_buffer i (mkBuffer (data b) (phase b) None None None)
    end.
Definition leak_buffer (i : nat) : P unit :=
  b ← buffer i; set_buffer i (mkBuffer None (phase b) (ready b) (ticket b) (error b)).
Definition drain : P bool :=
  shutdown;;
  poll_worker_completions;;
  ok ← ask os_stream_sync;
  p ← get;
  if ok : bool then
    for_each drain_buffer (seq 0 (length (buffers p)));;
    modify (fun p => with_tickets ∅ p);;
    ret true
  else
    for_each leak_buffer (seq 0 (length (buffers p)));;
    ret false.

(** ** Construction *)

(** [try_new]'s allocation loop over the allocator's answers, one per buffer of
    the requested depth; a failure after the first buffer is tolerated. *)
Fixpoint alloc_buffers (answers : list (option (list Z))) (acc : list PinnedBuffer)
    : option (list PinnedBuffer) :=
  match answers with
  | [] => Some acc
  | Some d :: answers => alloc_buffers answers (acc ++ [mkBuffer (Some d) Free None None None])
  | None :: _ => match acc with [] => None | _ => Some acc end
  end.
Definition try_new (answers : list (option (list Z))) (spawned : bool) (cap : nat)
    (m : SpillIoMode) (w : world) : outcome PoolErr PreadPool :=
  if bool_decide (m = Mmap) then Panic else
  match alloc_buffers answers [] with
  | None => Err EAlloc
  | Some bs =>
      let pool wk := mkPool bs cap no_stats m wk 1 ∅ ∅ ∅ w in
      if is_worker m then
        if spawned then Ok (pool (Some (mkWorkers true (length bs) [] [] []))) else Err ESpawn
      else Ok (pool None)
  end.

(** ** The invariant *)

Definition in_flight (ph : BufferPhase) : Prop := ph = Reading \/ ph = Canceled.
Definition req_id (r : ReadRequest) : Z * nat := (rq_ticket r, rq_index r).
Definition comp_id (c : ReadCompletion) : Z * nat := (rc_ticket c, rc_index c).
Definition out_ids (reqs : list ReadRequest) (comps : list ReadCompletion) : list (Z * nat) :=
  map req_id reqs ++ map comp_id comps.

(** [G] gives the bytes a ticket was issued for. *)
Definition req_ok (cap : nat) (G : gmap Z (list Z)) (r : ReadRequest) : Prop :=
  length (rq_data r) = cap /\ rq_len r <= cap /\ (0 <= rq_offset r)%Z /\
  forall x, G !! rq_ticket r = Some x ->
    x = slice_at (contents (rq_file r)) (rq_offset r) (rq_len r).
Definition comp_ok (cap : nat) (G : gmap Z (list Z)) (c : ReadCompletion) : Prop :=
  length (rc_data c) = cap /\
  (rc_result c = inl tt ->
   forall x, G !! rc_ticket c = Some x -> length x <= cap /\ take (length x) (rc_data c) = x).

(** What each phase says about a buffer, given the reads in flight and the
    unclaimed tickets. *)
Definition phase_ok (cap : nat) (ids : list (Z * nat)) (tk : gset Z) (G : gmap Z (list Z))
    (i : nat) (b : PinnedBuffer) : Prop :=
  match phase b with
  | Free => (exists d, data b = Some d /\ length d = cap) /\
            ticket b = None /\ ready b = None /\ error b = None
  | Reading => data b = None /\ ready b = None /\ error b = None /\
               exists t, ticket b = Some t /\ (t, i) ∈ ids /\ t ∈ tk
  | Canceled => data b = None /\ ready b = None /\ error b = None /\
                exists t, ticket b = Some t /\ (t, i) ∈ ids /\ t ∉ tk
  | Ready => ready b = None /\ error b = None /\
             exists d, data b = Some d /\ length d = cap /\
             forall t x, ticket b = Some t -> G !! t = Some x ->
               length x <= cap /\ take (length x) d = x
  | Failed => (exists d, data b = Some d /\ length d = cap) /\ ready b = None /\
              exists t, ticket b = Some t /\ t ∈ tk
  | H2d => (exists d, data b = Some d /\ length d = cap) /\ ticket b = None /\ error b = None
  end.

Record core (cap : nat) (bs : list PinnedBuffer) (reqs : list ReadRequest)
    (comps : list ReadCompletion) (nt : Z) (tk : gset Z) (G : gmap Z (list Z)) : Prop := {
  c_buf : forall i b, bs !! i = Some b -> phase_ok cap (out_ids reqs comps) tk G i b;
  c_nodup : NoDup (out_ids reqs comps).*1;
  c_ids : forall t i, (t, i) ∈ out_ids reqs comps ->
    exists b, bs !! i = Some b /\ in_flight (phase b) /\ ticket b = Some t;
  c_uniq : forall i j b c t, bs !! i = Some b -> bs !! j = Some c ->
    ticket b = Some t -> ticket c = Some t -> i = j;
  c_tk : forall t, t ∈ tk -> exists i b, bs !! i = Some b /\ ticket b = Some t;
  c_lt : forall i b t, bs !! i = Some b -> ticket b = Some t -> (t < nt)%Z;
  c_G : forall t, is_Some (G !! t) -> (t < nt)%Z;
  c_req : Forall (req_ok cap G) reqs;
  c_comp : Forall (comp_ok cap G) comps;
}.

(** The workers of a live pool. *)
Definition pool_reqs (p : PreadPool) : list ReadRequest :=
  match workers p with Some wp => queue wp ++ running wp | None => [] end.
Definition pool_comps (p : PreadPool) : list ReadCompletion :=
  match workers p with Some wp => completions wp | None => [] end.
Definition workers_ok (n : nat) (o : option WorkerPool) (m : SpillIoMode) : Prop :=
  match o with
  | Some wp => (sender wp = true /\ depth wp = n /\ 0 < n) \/
               (sender wp = false /\ queue wp = [] /\ running wp = [])
  | None => is_worker m = false
  end.
Definition direct_ok (d : gmap (Z * Z) file) : Prop :=
  forall key f g w w', d !! key = Some g -> os_metadata w f = (Some key, w') ->
    contents f = contents g.

(** [ex]: completions the owner has received but not yet booked. *)
Record pinv (ex : list ReadCompletion) (G : gmap Z (list Z)) (p : PreadPool) : Prop := {
  pi_core : core (capacity p) (buffers p) (pool_reqs p) (ex ++ pool_comps p)
              (next_ticket p) (tickets p) G;
  pi_workers : workers_ok (length (buffers p)) (workers p) (mode p);
  pi_direct : direct_ok (direct_files p);
}.

Definition pool_inv (G : gmap Z (list Z)) (p : PreadPool) : Prop := pinv [] G p.

(** What the kernel guarantees: reads are served as documented, files are
    shorter than 2^64 bytes, and two handles on one inode read the same bytes. *)
Class OsLaws : Prop := {
  law_served : forall w f off n, served (contents f) (os_reads w f off n).1 n off;
  law_size : forall f, (Z.of_nat (length (contents f)) <= u_max 64)%Z;
  law_inode : forall w1 w2 f1 f2 k, (os_metadata w1 f1).1 = Some k ->
    (os_metadata w2 f2).1 = Some k -> contents f1 = contents f2;
}.
Context {laws : OsLaws}.

Lemma core_perm cap bs reqs reqs' comps nt tk G :
  reqs ≡ₚ reqs' -> core cap bs reqs comps nt tk G -> core cap bs reqs' comps nt tk G.
Proof.
  intros Hp [Hb Hnd Hi Hu Ht Hl HG Hr Hc].
  assert (Hids : out_ids reqs comps ≡ₚ out_ids reqs' comps)
    by (unfold out_ids; by rewrite Hp).
  split; try done.
  - intros i b Hib. specialize (Hb i b Hib). unfold phase_ok in *.
    destruct (phase b); try done; by setoid_rewrite <-Hids.
  - by rewrite <-Hids.
  - intros t i. rewrite <-Hids. apply Hi.
  - by rewrite <-Hp.
Qed.

Lemma core_G_sub cap bs reqs comps nt tk G G' :
  G' ⊆ G -> core cap bs reqs comps nt tk G -> core cap bs reqs comps nt tk G'.
Proof.
  intros Hsub [Hb Hnd Hi Hu Ht Hl HG Hr Hc].
  assert (Hl' : forall t x, G' !! t = Some x -> G !! t = Some x)
    by (intros; by eapply lookup_weaken).
  split; try done.
  - intros i b Hib. specialize (Hb i b Hib). unfold phase_ok in *.
    destruct (phase b); try done. destruct Hb as (? & ? & d & ? & ? & ?). eauto 10.
  - intros t [x Hx]. eauto.
  - eapply Forall_impl; [exact Hr|]. intros r (? & ? & ? & ?). repeat split; eauto.
  - eapply Forall_impl; [exact Hc|]. intros c (? & H). split; [done|]. eauto.
Qed.

(** One buffer changes. *)
Lemma core_set cap bs reqs comps nt tk G (i : nat) b b' reqs' comps' nt' tk' :
  core cap bs reqs comps nt tk G -> bs !! i = Some b ->
  (nt <= nt')%Z ->
  (forall t j, j <> i -> (t, j) ∈ out_ids reqs' comps' <-> (t, j) ∈ out_ids reqs comps) ->
  NoDup (out_ids reqs' comps').*1 ->
  (forall t, (t, i) ∈ out_ids reqs' comps' -> in_flight (phase b') /\ ticket b' = Some t) ->
  (forall t, ticket b <> Some t -> ticket b' <> Some t -> t ∈ tk' <-> t ∈ tk) ->
  (forall t, t ∈ tk' -> ticket b = Some t -> ticket b' = Some t) ->
  (ticket b' = None \/ ticket b' = ticket b \/
   exists t, ticket b' = Some t /\ (t < nt')%Z /\ forall j c, bs !! j = Some c -> ticket c <> Some t) ->
  phase_ok cap (out_ids reqs' comps') tk' G i b' ->
  Forall (req_ok cap G) reqs' -> Forall (comp_ok cap G) comps' ->
  core cap (<[i := b']> bs) reqs' comps' nt' tk' G.
Proof.
  intros [Hb Hnd Hi Hu Ht Hl HG Hr Hc] Hib Hnt Hids Hnd' Hidi Htk Htki Hti Hok Hr' Hc'.
  assert (Hlt : i < length bs) by eauto using lookup_lt_Some.
  assert (Hlk : forall j c, <[i:=b']> bs !! j = Some c ->
    (j = i /\ c = b') \/ (j <> i /\ bs !! j = Some c)).
  { intros j c. destruct (decide (j = i)) as [->|Hne].
    - rewrite list_lookup_insert_eq by done. intros [= <-]. by left.
    - rewrite list_lookup_insert_ne by done. by right. }
  assert (Hother : forall j c t, j <> i -> bs !! j = Some c -> ticket c = Some t ->
    ticket b <> Some t /\ ticket b' <> Some t).
  { intros j c t Hne Hj Hct. assert (ticket b <> Some t) by (intros ?; apply Hne; eauto).
    split; [done|]. destruct Hti as [->|[->|(t' & -> & _ & Hfr)]]; [done|done|].
    intros [= ->]. by apply (Hfr j c Hj). }
  split.
  - intros j c [[-> ->]|[Hne Hj]]%Hlk; [done|]. specialize (Hb j c Hj). unfold phase_ok in *.
    destruct (phase c); try done.
    + destruct Hb as (? & ? & ? & t & Ht1 & Hin & Htk1). split_and!; try done.
      exists t. destruct (Hother j c t Hne Hj Ht1). rewrite Hids, Htk by done. done.
    + destruct Hb as (? & ? & ? & t & Ht1 & Hin & Htk1). split_and!; try done.
      exists t. destruct (Hother j c t Hne Hj Ht1). rewrite Hids, Htk by done. done.
    + destruct Hb as (? & ? & t & Ht1 & Htk1). split_and!; try done.
      exists t. destruct (Hother j c t Hne Hj Ht1). rewrite Htk by done. done.
  - done.
  - intros t j Hin. destruct (decide (j = i)) as [->|Hne].
    + exists b'. rewrite list_lookup_insert_eq by done. split; [done|]. by apply Hidi.
    + rewrite list_lookup_insert_ne by done. apply Hids in Hin; [|done]. by apply Hi.
  - intros j k c d t [[-> ->]|[Hne Hj]]%Hlk [[-> ->]|[Hne' Hk]]%Hlk Hc1 Hd; [done| | |eauto].
    + by destruct (Hother k d t Hne' Hk Hd).
    + by destruct (Hother j c t Hne Hj Hc1).
  - intros t Hin. destruct (decide (ticket b' = Some t)) as [He|Hne].
    + exists i, b'. by rewrite list_lookup_insert_eq.
    + destruct (decide (ticket b = Some t)) as [He|Hne']; [by specialize (Htki t Hin He)|].
      apply Htk in Hin; [|done..]. destruct (Ht t Hin) as (j & c & Hj & Hjt).
      exists j, c. rewrite list_lookup_insert_ne; [done|]. intros <-. simplify_eq.
  - intros j c t [[-> ->]|[Hne Hj]]%Hlk Hct.
    + destruct Hti as [He|[He|(t' & He & Hlt' & _)]]; rewrite He in Hct;
        [done|specialize (Hl i b t Hib Hct); lia|injection Hct as <-; lia].
    + specialize (Hl j c t Hj Hct). lia.
  - intros t HGt. specialize (HG t HGt). lia.
  - done.
  - done.
Qed.

(** A worker's read. *)
Lemma run_request_spec w r cap G :
  req_ok cap G r ->
  exists c w', run_request w r = Some (c, w') /\ comp_id c = req_id r /\ comp_ok cap G c.
Proof.
  intros (Hd & Hlen & Hoff & HG). unfold run_request.
  destruct (os_pin w) as [[] w1]; simpl.
  2: { do 2 eexists. split; [done|]. split; [done|]. by split. }
  rewrite (proj2 (Nat.ltb_ge _ _)) by lia.
  pose proof (law_served w1 (rq_file r) (rq_offset r) (rq_len r)) as Hs.
  destruct (os_reads w1 (rq_file r) (rq_offset r) (rq_len r)) as [answers w2]; simpl in Hs.
  assert (Htl : length (take (rq_len r) (rq_data r)) = rq_len r) by (rewrite length_take; lia).
  destruct (pread_exact_at_spec (contents (rq_file r)) answers (take (rq_len r) (rq_data r))
    (rq_offset r) Hoff (law_size _)) as (d & res & -> & Hdl & Hres); [by rewrite Htl|].
  rewrite Htl in *.
  assert (Happ : length (d ++ drop (rq_len r) (rq_data r)) = cap)
    by (rewrite length_app, length_drop; lia).
  cbn [mbind option_bind]. destruct res as [[]|e|]; [| |done].
  - do 2 eexists. split; [done|]. split; [done|]. split; [done|]. simpl. intros _ x Hx.
    specialize (HG x Hx). destruct Hres as [Hdeq _]. subst x. rewrite <-Hdeq.
    split; [lia|]. by rewrite take_app_length.
  - do 2 eexists. split; [done|]. split; [done|]. split; [done|]. done.
Qed.

Lemma core_finish_read cap bs reqs r c comps nt tk G :
  core cap bs (r :: reqs) comps nt tk G -> comp_id c = req_id r -> comp_ok cap G c ->
  core cap bs reqs (comps ++ [c]) nt tk G.
Proof.
  intros [Hb Hnd Hi Hu Ht Hl HG Hr Hc] Hid Hok.
  assert (Hids : out_ids (r :: reqs) comps ≡ₚ out_ids reqs (comps ++ [c])).
  { unfold out_ids. rewrite map_app. simpl. rewrite Hid.
    rewrite app_assoc. by rewrite <-Permutation_cons_append. }
  split; try done.
  - intros i b Hib. specialize (Hb i b Hib). unfold phase_ok in *.
    destruct (phase b); try done; by setoid_rewrite <-Hids.
  - by rewrite <-Hids.
  - intros t i. rewrite <-Hids. apply Hi.
  - by apply Forall_cons_1 in Hr as [_ Hr].
  - apply Forall_app. split; [done|]. by constructor.
Qed.

Definition pool_live (p : PreadPool) : bool :=
  match workers p with Some wp => sender wp | None => true end.

(** Channel operations and bookkeeping leave these alone. *)
Definition pool_outstanding (p : PreadPool) : nat :=
  match workers p with Some wp => outstanding wp | None => 0 end.
Record steady (p p' : PreadPool) : Prop := {
  sd_cap : capacity p' = capacity p;
  sd_mode : mode p' = mode p;
  sd_tk : tickets p' = tickets p;
  sd_nt : next_ticket p' = next_ticket p;
  sd_len : length (buffers p') = length (buffers p);
  sd_live : pool_live p' = pool_live p;
}.
(** The parts of a pool that no owner call changes. *)
Definition same_kind (p p' : PreadPool) : Prop :=
  pool_live p' = pool_live p /\ mode p' = mode p.
Lemma steady_kind p p' : steady p p' -> same_kind p p'.
Proof. intros []. by split. Qed.
Lemma steady_refl p : steady p p.
Proof. by split. Qed.
Lemma steady_trans p q r : steady p q -> steady q r -> steady p r.
Proof. intros [] []. split; congruence. Qed.

Definition wsame (wp wp' : WorkerPool) : Prop :=
  sender wp' = sender wp /\ depth wp' = depth wp /\ outstanding wp' = outstanding wp /\
  (queue wp = [] -> running wp = [] -> queue wp' = [] /\ running wp' = []).

Lemma worker_take_spec cap bs ex wp nt tk G :
  core cap bs (queue wp ++ running wp) (ex ++ completions wp) nt tk G ->
  core cap bs (queue (worker_take wp) ++ running (worker_take wp))
    (ex ++ completions (worker_take wp)) nt tk G /\ wsame wp (worker_take wp).
Proof.
  intros H. unfold worker_take. destruct (queue wp) as [|r q] eqn:Hq; [by rewrite Hq|].
  destruct (length (running wp) <? depth wp); [|by rewrite Hq]. simpl. split.
  - eapply core_perm; [|exact H]. simpl. rewrite (Permutation_app_comm (running wp)).
    simpl. by rewrite Permutation_middle.
  - split_and!; try done; [|by rewrite Hq].
    unfold outstanding. simpl. rewrite Hq, length_app. simpl. lia.
Qed.

Lemma worker_finish_spec cap bs ex wp nt tk G w :
  core cap bs (queue wp ++ running wp) (ex ++ completions wp) nt tk G ->
  exists wp' w',
    worker_finish wp w = Some (wp', w') /\
    core cap bs (queue wp' ++ running wp') (ex ++ completions wp') nt tk G /\
    wsame wp wp' /\ (running wp <> [] -> length (completions wp') = S (length (completions wp))).
Proof.
  intros H. unfold worker_finish. destruct (os_pick w) as [k w1].
  set (k' := k mod length (running wp)).
  destruct (running wp !! k') as [r|] eqn:Hk.
  - pose proof (c_req _ _ _ _ _ _ _ H) as Hr. apply Forall_app in Hr as [_ Hr].
    assert (Hok : req_ok cap G r) by (by eapply Forall_lookup_1).
    destruct (run_request_spec w1 r cap G Hok) as (c & w2 & -> & Hid & Hc). simpl.
    do 2 eexists. split; [done|]. simpl. split; [|split].
    + rewrite app_assoc. eapply core_finish_read; [|exact Hid|exact Hc].
      eapply core_perm; [|exact H]. rewrite (delete_Permutation _ _ _ Hk) at 1.
      by rewrite Permutation_middle.
    + split_and!; try done; [|intros _ Hrn; by rewrite Hrn in Hk].
      unfold outstanding. simpl. rewrite length_app.
      apply lookup_lt_Some in Hk as Hlt. rewrite length_delete by eauto. simpl. lia.
    + intros _. rewrite length_app. simpl. lia.
  - do 2 eexists. split; [done|]. split; [done|]. split; [done|]. intros Hne. exfalso.
    apply lookup_ge_None in Hk. assert (length (running wp) <> 0) by (by destruct (running wp)).
    pose proof (Nat.mod_upper_bound k (length (running wp))). lia.
Qed.

Lemma wsame_trans a b c : wsame a b -> wsame b c -> wsame a c.
Proof.
  intros (? & ? & ? & Hq1) (? & ? & ? & Hq2). split_and!; try congruence.
  intros Hq Hr. destruct (Hq1 Hq Hr). auto.
Qed.

Lemma worker_steps_spec steps cap bs ex wp nt tk G w :
  core cap bs (queue wp ++ running wp) (ex ++ completions wp) nt tk G ->
  exists wp' w',
    worker_steps steps wp w = Some (wp', w') /\
    core cap bs (queue wp' ++ running wp') (ex ++ completions wp') nt tk G /\ wsame wp wp'.
Proof.
  revert wp w. induction steps as [|[] steps IH]; intros wp w H; simpl;
    [by do 2 eexists; repeat split; try apply H| |].
  - destruct (worker_take_spec _ _ _ _ _ _ _ H) as [H1 Hs].
    destruct (IH _ w H1) as (wp' & w' & -> & ? & ?). eauto 10 using wsame_trans.
  - destruct (worker_finish_spec _ _ _ _ _ _ _ w H) as (wp1 & w1 & -> & H1 & Hs & _). simpl.
    destruct (IH _ w1 H1) as (wp' & w' & -> & ? & ?). eauto 10 using wsame_trans.
Qed.

Lemma workers_ok_same n wp wp' m :
  workers_ok n (Some wp) m -> wsame wp wp' -> workers_ok n (Some wp') m.
Proof.
  intros [(? & ? & ?)|(? & ? & ?)] (? & ? & ? & Hqr); [left|right].
  - split_and!; congruence.
  - split; [congruence|]. by apply Hqr.
Qed.

Lemma wp_ask {A} (f : world -> A * world) (Q : A -> PreadPool -> Prop) X p :
  (forall a w, f (env p) = (a, w) -> Q a (with_env w p)) -> wp (ask f) Q X p.
Proof. unfold wp, ask. destruct (f (env p)). eauto. Qed.

Lemma wp_let_workers_run ex G p (X : PoolErr -> PreadPool -> Prop) :
  pinv ex G p ->
  wp let_workers_run (fun _ p' => pinv ex G p' /\ steady p p' /\
     buffers p' = buffers p /\ pool_outstanding p' = pool_outstanding p /\
     (pool_reqs p = [] -> pool_reqs p' = [])) X p.
Proof.
  intros [Hc Hw Hd]. unfold let_workers_run. wp_steps.
  unfold pool_reqs, pool_comps, pool_outstanding in *.
  destruct (workers p) as [wk|] eqn:Hwk.
  2: { split; [split; unfold pool_reqs, pool_comps; by rewrite ?Hwk|]. by rewrite Hwk. }
  apply wp_bind, wp_ask. intros steps w _. wp_steps.
  destruct (worker_steps_spec steps _ _ _ _ _ _ _ w Hc) as (wk' & w' & Hst & Hc' & Hs).
  cbn [env with_env]. rewrite Hst. wp_steps. cbn.
  split; [split; try done|].
  - cbn. by eapply workers_ok_same.
  - split; [split; try done; unfold pool_live; rewrite Hwk; apply Hs|]. split; [done|].
    split; [apply Hs|]. intros Hnil. apply app_nil in Hnil as [Hq Hr].
    destruct Hs as (_ & _ & _ & Hs). by destruct (Hs Hq Hr) as [-> ->].
Qed.

Lemma wp_buffer i b (Q : PinnedBuffer -> PreadPool -> Prop) X p :
  buffers p !! i = Some b -> Q b p -> wp (buffer i) Q X p.
Proof. intros Hb HQ. unfold buffer. wp_steps. rewrite Hb. by wp_steps. Qed.
Lemma wp_set_buffer i b (Q : unit -> PreadPool -> Prop) X p :
  i < length (buffers p) -> Q tt (with_buffers (<[i := b]> (buffers p)) p) ->
  wp (set_buffer i b) Q X p.
Proof.
  intros Hb HQ. unfold set_buffer. wp_steps. apply wp_massert; [by apply Nat.ltb_lt|].
  by wp_steps.
Qed.

Lemma wp_count_stat f (Q : unit -> PreadPool -> Prop) X p :
  Q tt (with_stats (f (stats p)) p) -> wp (count_stat f) Q X p.
Proof. done. Qed.

(** The buffer of a read in flight. *)
Lemma core_out cap bs reqs comps nt tk G t i :
  core cap bs reqs comps nt tk G -> (t, i) ∈ out_ids reqs comps ->
  exists b, bs !! i = Some b /\ in_flight (phase b) /\ ticket b = Some t /\ data b = None /\
    ready b = None /\ error b = None /\ (phase b = Reading <-> t ∈ tk) /\ i < length bs.
Proof.
  intros Hc Hin. destruct (c_ids _ _ _ _ _ _ _ Hc t i Hin) as (b & Hb & Hf & Ht).
  pose proof (c_buf _ _ _ _ _ _ _ Hc i b Hb) as Hok. unfold phase_ok in Hok.
  exists b. destruct Hf as [Hp|Hp]; rewrite Hp in Hok |- *;
    destruct Hok as (? & ? & ? & t' & Ht' & ? & ?); simplify_eq;
    split_and!; try done; eauto using lookup_lt_Some; try (by left); by right.
Qed.

Lemma core_deliver cap bs reqs c cs nt tk G b b' :
  core cap bs reqs (c :: cs) nt tk G -> bs !! rc_index c = Some b ->
  phase_ok cap (out_ids reqs cs) tk G (rc_index c) b' ->
  ticket b' = None \/ ticket b' = ticket b ->
  (forall t, t ∈ tk -> ticket b = Some t -> ticket b' = Some t) ->
  core cap (<[rc_index c := b']> bs) reqs cs nt tk G.
Proof.
  intros Hc Hb Hok Ht Htk.
  assert (Hids : out_ids reqs (c :: cs) ≡ₚ comp_id c :: out_ids reqs cs)
    by (unfold out_ids; simpl; by rewrite Permutation_middle).
  pose proof (c_nodup _ _ _ _ _ _ _ Hc) as Hnd. rewrite Hids in Hnd.
  apply NoDup_cons in Hnd as [Hnot Hnd].
  eapply core_set; try done.
  - intros t j Hj. rewrite Hids, elem_of_cons. unfold comp_id. split; [by right|].
    intros [[= -> ->]|?]; [done|done].
  - intros t Hin. exfalso.
    assert (H1 : (t, rc_index c) ∈ out_ids reqs (c :: cs)) by (rewrite Hids; by right).
    assert (H2 : comp_id c ∈ out_ids reqs (c :: cs)) by (rewrite Hids; by left).
    destruct (c_ids _ _ _ _ _ _ _ Hc _ _ H1) as (b1 & Hb1 & _ & Ht1).
    destruct (c_ids _ _ _ _ _ _ _ Hc (rc_ticket c) (rc_index c) H2) as (b2 & Hb2 & _ & Ht2).
    assert (b1 = b2) as -> by congruence. assert (t = rc_ticket c) as -> by congruence.
    apply Hnot. apply list_elem_of_fmap. by exists (rc_ticket c, rc_index c).
  - tauto.
  - apply Hc.
  - apply (Forall_inv_tail (c_comp _ _ _ _ _ _ _ Hc)).
Qed.

Lemma wp_finish_worker_completion c ex G p X :
  pinv (c :: ex) G p ->
  wp (finish_worker_completion c)
    (fun _ p' => pinv ex G p' /\ steady p p' /\ workers p' = workers p) X p.
Proof.
  intros [Hc Hw Hd]. assert (Hin : comp_id c ∈ out_ids (pool_reqs p) ((c :: ex) ++ pool_comps p)).
  { unfold out_ids. simpl. apply elem_of_app. right. by left. }
  destruct (core_out _ _ _ _ _ _ _ _ _ Hc Hin) as (b & Hb & Hf & Ht & Hdat & Hrd & He & Hph & Hlt).
  pose proof (Forall_inv (c_comp _ _ _ _ _ _ _ Hc)) as (Hlen & Hbytes).
  unfold finish_worker_completion. wp_steps. rewrite Hb.
  assert (Hg : negb (bool_decide (phase b = Reading) || bool_decide (phase b = Canceled))
     || negb (bool_decide (ticket b = Some (rc_ticket c))) || bool_decide (is_Some (data b)) = false).
  { rewrite Ht, Hdat, (bool_decide_eq_true_2 (Some _ = Some _)) by done.
    by destruct Hf as [-> | ->]. }
  rewrite Hg. wp_steps. rewrite Hrd, Ht, He.
  assert (Hfin : forall b' st, steady p (with_buffers (<[rc_index c:=b']> (buffers p)) (with_stats st p))).
  { intros. split; try done. simpl. by rewrite length_insert. }
  assert (Hdone : forall b' st,
    phase_ok (capacity p) (out_ids (pool_reqs p) (ex ++ pool_comps p)) (tickets p) G (rc_index c) b' ->
    ticket b' = None \/ ticket b' = ticket b ->
    (forall t, t ∈ tickets p -> ticket b = Some t -> ticket b' = Some t) ->
    pinv ex G (with_buffers (<[rc_index c:=b']> (buffers p)) (with_stats st p))).
  { intros. split; try done; [by eapply core_deliver|]. simpl. by rewrite length_insert. }
  destruct Hf as [Hp|Hp]; rewrite Hp; simpl.
  - assert (Htk : rc_ticket c ∈ tickets p) by (by apply Hph).
    destruct (rc_result c) as [[]|e] eqn:Hres; wp_steps.
    + apply wp_count_stat. apply wp_set_buffer; [done|]. split; [|by split; [apply Hfin|]].
      apply Hdone; [|by rewrite Ht; right|by rewrite Ht].
      do 2 (split; [done|]). eexists. split; [done|]. split; [done|].
      simpl. intros t x [= <-] Hx. by apply Hbytes.
    + apply wp_count_stat. apply wp_when; intros _; [apply wp_count_stat|];
        (apply wp_set_buffer; [done|]; split; [|by split; [apply Hfin|]];
        apply Hdone; [|by rewrite Ht; right|by rewrite Ht];
        split; [by eauto|]; split; [done|]; eauto).
  - assert (Htk : rc_ticket c ∉ tickets p).
    { intros Hin'. apply Hph in Hin'. congruence. }
    destruct (rc_result c) as [[]|e] eqn:Hres; wp_steps.
    + apply wp_count_stat. apply wp_set_buffer; [done|]. split; [|by split; [apply Hfin|]].
      apply Hdone; [|by left|intros t ? Ht'; congruence].
      split; [by eauto|]. done.
    + apply wp_count_stat. apply wp_when; intros _; [apply wp_count_stat|];
        (apply wp_set_buffer; [done|]; split; [|by split; [apply Hfin|]];
        apply Hdone; [|by left|intros t ? Ht'; congruence];
        split; [by eauto|]; done).
Qed.

Lemma pinv_recv c cs wp ex G p :
  pinv ex G p -> workers p = Some wp -> completions wp = c :: cs ->
  pinv (ex ++ [c]) G (with_workers
    (Some (mkWorkers (sender wp) (depth wp) (queue wp) (running wp) cs)) p).
Proof.
  intros [Hc Hw Hd] Hwk Hcs. unfold pool_reqs, pool_comps in *. rewrite Hwk in *.
  split; try done. unfold pool_reqs, pool_comps. simpl. rewrite <-app_assoc. simpl.
  by rewrite <-Hcs.
Qed.

Lemma wp_try_recv G p X :
  pool_inv G p ->
  wp try_recv (fun r p' => steady p p' /\
    match r with
    | Some c => pinv [c] G p' /\ S (pool_outstanding p') = pool_outstanding p
    | None => pool_inv G p' /\ pool_outstanding p' = pool_outstanding p /\ pool_comps p' = []
    end /\ (pool_reqs p = [] -> pool_reqs p' = [])) X p.
Proof.
  intros H. unfold try_recv. wp_steps.
  eapply wp_mono; [by apply (wp_let_workers_run [] G p X)| |done].
  intros [] p1 (H1 & Hst & _ & Hout & Hnil). wp_steps. unfold pool_comps.
  destruct (workers p1) as [wp1|] eqn:Hwk; [|wp_steps; by rewrite Hwk].
  destruct (completions wp1) as [|c cs] eqn:Hcs; wp_steps; [by rewrite Hwk|].
  split; [split; try apply Hst; rewrite <-(sd_live _ _ Hst); unfold pool_live; by rewrite Hwk|].
  split; [|intros Hr; specialize (Hnil Hr); unfold pool_reqs in *; simpl; by rewrite Hwk in Hnil].
  split; [by apply (pinv_recv _ _ _ [])|].
  rewrite <-Hout. unfold pool_outstanding, outstanding. simpl. rewrite Hwk, Hcs. simpl. lia.
Qed.

Lemma wp_poll_loop fuel G p X :
  pool_inv G p -> pool_outstanding p < fuel ->
  wp (poll_loop fuel) (fun _ p' => pool_inv G p' /\ steady p p' /\
    pool_outstanding p' <= pool_outstanding p /\
    (pool_reqs p = [] -> pool_reqs p' = [] /\ pool_comps p' = [])) X p.
Proof.
  revert p. induction fuel as [|fuel IH]; intros p H Hf; [lia|]. simpl. wp_steps.
  eapply wp_mono; [by apply (wp_try_recv G p X)| |done].
  intros [c|] p1 (Hst & Hr & Hnil); cycle 1.
  { wp_steps. destruct Hr as (? & -> & ?). split_and!; [done|done|lia|auto]. }
  destruct Hr as [H1 Hout]. wp_steps.
  eapply wp_mono; [by apply (wp_finish_worker_completion c [] G p1 X)| |done].
  intros [] p2 (H2 & Hst2 & Hwk). assert (Ho2 : pool_outstanding p2 = pool_outstanding p1)
    by (unfold pool_outstanding; by rewrite Hwk).
  eapply wp_mono; [apply IH; [done|lia]| |done].
  intros [] p3 (H3 & Hst3 & Ho3 & Hn3). split; [done|]. split; [by eauto using steady_trans|].
  split; [lia|]. intros Hr. apply Hn3. unfold pool_reqs. rewrite Hwk. by apply Hnil.
Qed.

Lemma wp_poll G p X :
  pool_inv G p ->
  wp poll_worker_completions (fun _ p' => pool_inv G p' /\ steady p p') X p.
Proof.
  intros H. unfold poll_worker_completions. wp_steps.
  eapply wp_mono; [apply wp_poll_loop; [done|]|by intros [] p' (? & ? & _)|done].
  unfold pool_outstanding. lia.
Qed.

(** With no read queued or running, polling books everything. *)
Lemma wp_poll_idle G p X :
  pool_inv G p -> pool_reqs p = [] ->
  wp poll_worker_completions (fun _ p' => pool_inv G p' /\ steady p p' /\
    pool_reqs p' = [] /\ pool_comps p' = []) X p.
Proof.
  intros H Hr. unfold poll_worker_completions. wp_steps.
  eapply wp_mono; [apply wp_poll_loop; [done|]|intros [] p' (? & ? & _ & Hn); by destruct (Hn Hr)|done].
  unfold pool_outstanding. lia.
Qed.

(** A blocking receive returns when some read is outstanding. *)
Lemma wp_recv G p X :
  pool_inv G p -> 0 < pool_outstanding p ->
  wp recv (fun c p' => pinv [c] G p' /\ steady p p' /\
    S (pool_outstanding p') = pool_outstanding p) X p.
Proof.
  intros H Hpos. unfold recv. wp_steps.
  eapply wp_mono; [by apply (wp_let_workers_run [] G p X)| |done].
  intros [] p1 (H1 & Hst & _ & Hout & _). wp_steps. rewrite <-Hout in Hpos |- *.
  unfold pool_outstanding in *. destruct (workers p1) as [wp1|] eqn:Hwk; [|lia].
  destruct (completions wp1) as [|c cs] eqn:Hcs; wp_steps.
  2: { split; [by apply (pinv_recv _ _ _ [])|].
       split; [split; try apply Hst; rewrite <-(sd_live _ _ Hst); unfold pool_live; by rewrite Hwk|].
       unfold outstanding. simpl. rewrite Hcs. simpl. lia. }
  pose proof H1 as [Hc Hw Hd]. unfold pool_reqs, pool_comps in Hc. rewrite Hwk in Hc, Hw.
  destruct (worker_take_spec _ _ [] wp1 _ _ _ Hc) as [Hc2 Hs2].
  set (wp2 := worker_take wp1) in *.
  assert (Hrun : running wp2 <> []).
  { destruct Hw as [(Hsnd & Hdep & Hn)|(Hsnd & Hq & Hr)]; unfold wp2, worker_take.
    2: { unfold outstanding in Hpos. rewrite Hq, Hr, Hcs in Hpos. simpl in Hpos. lia. }
    destruct (queue wp1) as [|r q] eqn:Hq.
    - intros Hr. unfold outstanding in Hpos. rewrite Hq, Hr, Hcs in Hpos. simpl in Hpos. lia.
    - destruct (length (running wp1) <? depth wp1) eqn:Hlt; simpl.
      + by destruct (running wp1).
      + apply Nat.ltb_ge in Hlt. destruct (running wp1); [simpl in Hlt; lia|done]. }
  destruct (worker_finish_spec _ _ [] wp2 _ _ _ (env p1) Hc2) as (wp3 & w3 & Hfin & Hc3 & Hs3 & Hne).
  destruct (running wp2) as [|r rs] eqn:Hr2; [done|]. rewrite Hfin. wp_steps. simpl.
  destruct (completions wp3) as [|c cs] eqn:Hcs3; [by specialize (Hne Hrun)|]. wp_steps.
  split.
  - set (p2 := with_env w3 (with_workers (Some wp3) p1)).
    assert (H2 : pool_inv G p2).
    { split; [|by eapply workers_ok_same; [by eapply workers_ok_same|]|done].
      unfold pool_reqs, pool_comps. simpl. by rewrite Hcs3. }
    by apply (pinv_recv c cs wp3 [] G p2).
  - destruct Hs2 as (Hl2 & _ & <- & _), Hs3 as (Hl3 & _ & <- & _).
    split; [split; try apply Hst; rewrite <-(sd_live _ _ Hst); unfold pool_live; rewrite Hwk; simpl; congruence|].
    unfold outstanding. simpl. rewrite Hcs3. simpl. lia.
Qed.

Lemma pinv_env ex G w p : pinv ex G p -> pinv ex G (with_env w p).
Proof. by intros []. Qed.
Lemma pinv_stats ex G st p : pinv ex G p -> pinv ex G (with_stats st p).
Proof. by intros []. Qed.
Lemma steady_env p w : steady p (with_env w p).
Proof. done. Qed.
Lemma steady_stats p st : steady p (with_stats st p).
Proof. done. Qed.
Ltac pool_inv_tac := repeat (apply pinv_env || apply pinv_stats); assumption.
Ltac pool_frame := split; [by pool_inv_tac|by split].

(** An idle buffer changes hands. *)
Lemma core_idle_set cap bs reqs comps nt tk G (i : nat) b b' tk' :
  core cap bs reqs comps nt tk G -> bs !! i = Some b -> ~ in_flight (phase b) ->
  ticket b' = None \/ ticket b' = ticket b ->
  (forall t, ticket b <> Some t -> t ∈ tk' <-> t ∈ tk) ->
  (forall t, t ∈ tk' -> ticket b = Some t -> ticket b' = Some t) ->
  phase_ok cap (out_ids reqs comps) tk' G i b' ->
  core cap (<[i := b']> bs) reqs comps nt tk' G.
Proof.
  intros Hc Hb Hnf Ht Htk Htki Hok.
  assert (Hni : forall t, (t, i) ∉ out_ids reqs comps).
  { intros t Hin. destruct (c_ids _ _ _ _ _ _ _ Hc t i Hin) as (c & Hc' & Hf & _).
    by simplify_eq. }
  eapply core_set; try done; try apply Hc.
  - intros t Hin. by destruct (Hni t).
  - intros t Hne _. by apply Htk.
  - tauto.
Qed.

(** The same for a pool; the update may also touch statistics. *)
Lemma pinv_idle_set G p (i : nat) b b' :
  pool_inv G p -> buffers p !! i = Some b -> ~ in_flight (phase b) ->
  ticket b' = None \/ ticket b' = ticket b ->
  (forall t, t ∈ tickets p -> ticket b = Some t -> ticket b' = Some t) ->
  phase_ok (capacity p) (out_ids (pool_reqs p) (pool_comps p)) (tickets p) G i b' ->
  pool_inv G (with_buffers (<[i := b']> (buffers p)) p).
Proof.
  intros [Hc Hw Hd] Hb Hnf Ht Htk Hok. split; try done.
  - eapply core_idle_set; try done.
  - simpl. by rewrite length_insert.
Qed.
Lemma steady_set p i b : steady p (with_buffers (<[i := b]> (buffers p)) p).
Proof. split; try done. simpl. by rewrite length_insert. Qed.

Lemma pinv_buf G p i b :
  pool_inv G p -> buffers p !! i = Some b ->
  phase_ok (capacity p) (out_ids (pool_reqs p) (pool_comps p)) (tickets p) G i b.
Proof. intros [Hc _ _]. apply Hc. Qed.

Lemma wp_reap_buffer i G p X :
  pool_inv G p -> i < length (buffers p) ->
  wp (reap_buffer i) (fun _ p' => pool_inv G p' /\ steady p p') X p.
Proof.
  intros H Hi. destruct (lookup_lt_is_Some_2 _ _ Hi) as [b Hb].
  unfold reap_buffer. wp_steps. apply (wp_buffer i b); [done|].
  destruct (bool_decide (phase b = H2d)) eqn:Hph; cbn; wp_steps; [|done].
  apply bool_decide_eq_true_1 in Hph. pose proof (pinv_buf _ _ _ _ H Hb) as Hok.
  unfold phase_ok in Hok. rewrite Hph in Hok. destruct Hok as ((d & Hd & Hl) & Ht & He).
  assert (Hset : forall (c : bool) w,
    let q := with_env w p in
    let b' := mkBuffer (data b) (Phase.finish_h2d c (phase b)).1
      (if (Phase.finish_h2d c (phase b)).2 then None else ready b) (ticket b) (error b) in
    pool_inv G (with_buffers (<[i := b']> (buffers q)) q) /\
    steady p (with_buffers (<[i := b']> (buffers q)) q)).
  { intros c w. simpl. split; [|split; try done; simpl; by rewrite length_insert].
    apply (pinv_idle_set G (with_env w p) i b); try done.
    - by apply pinv_env.
    - rewrite Hph. by intros [|].
    - by right.
    - unfold phase_ok. rewrite Hph. destruct c; simpl; split_and!; eauto. }
  destruct (ready b) as [ev|].
  - apply wp_ask. intros c w _. specialize (Hset c w).
    destruct (Phase.finish_h2d c (phase b)) as [ph fr]. by apply wp_set_buffer.
  - wp_steps. specialize (Hset false (env p)).
    destruct (Phase.finish_h2d false (phase b)) as [ph fr]. apply wp_set_buffer; [done|].
    exact Hset.
Qed.

Lemma wp_reap_completed G p X :
  pool_inv G p -> wp reap_completed (fun _ p' => pool_inv G p' /\ steady p p') X p.
Proof.
  intros H. unfold reap_completed. wp_steps.
  eapply wp_mono; [by apply (wp_poll G p X)| |done].
  intros [] p1 [H1 Hst]. wp_steps.
  eapply wp_mono; [apply wp_for_each with (I := fun q => pool_inv G q /\ steady p q)| |done].
  - done.
  - intros i q Hi [Hq Hsq]. apply elem_of_seq in Hi.
    eapply wp_mono; [apply (wp_reap_buffer i G q X); [done|]| |done].
    + rewrite (sd_len _ _ Hsq), <-(sd_len _ _ Hst). lia.
    + intros [] q' [? ?]. eauto using steady_trans.
  - done.
Qed.

Lemma position_Some f bs i :
  position f bs = Some i -> exists b, bs !! i = Some b /\ f b = true.
Proof.
  revert i. induction bs as [|b bs IH]; intros i; simpl; [done|].
  destruct (f b) eqn:Hf; [intros [= <-]; eauto|].
  destruct (position f bs) as [j|]; simpl; [|done]. intros [= <-]. by apply IH.
Qed.
Lemma position_is_Some f bs : existsb f bs = true -> exists i, position f bs = Some i.
Proof.
  induction bs as [|b bs IH]; simpl; [done|]. destruct (f b); [eauto|].
  intros H. destruct (IH H) as [i ->]. by eexists.
Qed.
Lemma position_lookup f bs i b : bs !! i = Some b -> f b = true -> is_Some (position f bs).
Proof.
  intros Hb Hf. destruct (position_is_Some f bs) as [j ->]; [|by eexists].
  apply existsb_exists. exists b. split; [|done]. apply list_elem_of_In.
  by eapply list_elem_of_lookup_2.
Qed.

Lemma wp_wait_for_one G p :
  pool_inv G p ->
  wp wait_for_one
    (fun _ p' => pool_inv G p' /\ steady p p' /\ existsb (phase_is Free) (buffers p') = true)
    (fun _ p' => pool_inv G p' /\ steady p p') p.
Proof.
  intros H. unfold wait_for_one. wp_steps.
  destruct (position (phase_is H2d) (buffers p)) as [i|] eqn:Hpos; wp_steps; [|done].
  apply position_Some in Hpos as (b & Hb & Hph%bool_decide_eq_true_1).
  apply wp_count_stat. wp_steps. apply (wp_buffer i b); [done|]. wp_steps.
  apply wp_or_err; [|by intros _; pool_frame]. intros ev Hev. wp_steps. apply wp_ask. intros ok w _.
  destruct ok; simpl; wp_steps; [|by pool_frame]. rewrite Hph. simpl. wp_steps.
  pose proof (pinv_buf _ _ _ _ H Hb) as Hok. unfold phase_ok in Hok. rewrite Hph in Hok.
  destruct Hok as ((d & Hd & Hl) & Ht & He).
  assert (Hlt : i < length (buffers p)) by eauto using lookup_lt_Some.
  apply wp_set_buffer; [done|]. split; [|split].
  - apply (pinv_idle_set G (with_env w (with_stats (st_wait (stats p)) p)) i b); try done.
    + by apply pinv_env, pinv_stats.
    + rewrite Hph. by intros [|].
    + by right.
    + split; [by eauto|done].
  - split; try done. simpl. by rewrite length_insert.
  - apply existsb_exists. exists (mkBuffer (data b) Free None (ticket b) (error b)).
    split; [|done].
    apply list_elem_of_In, list_elem_of_lookup_2 with i. simpl. by rewrite list_lookup_insert_eq.
Qed.

(** Buffer [i] is held by the owner: its read is complete and its ticket, if
    any, has been consumed; its data starts with [x]. *)
Definition claimed (p : PreadPool) (i : nat) (x : list Z) : Prop :=
  exists b d, buffers p !! i = Some b /\ phase b = Ready /\ data b = Some d /\
    length x <= length d /\ take (length x) d = x /\
    forall t, ticket b = Some t -> t ∉ tickets p.

Lemma claimed_set G p i x b' :
  pool_inv G p -> claimed p i x -> ticket b' = None ->
  (forall d, length d = capacity p -> (exists b, buffers p !! i = Some b /\ data b = Some d /\
     ready b = None /\ error b = None /\ phase b = Ready) ->
     phase_ok (capacity p) (out_ids (pool_reqs p) (pool_comps p)) (tickets p) G i b') ->
  pool_inv G (with_buffers (<[i := b']> (buffers p)) p).
Proof.
  intros H (b & d & Hb & Hph & Hd & _ & _ & Htk) Ht Hok.
  pose proof (pinv_buf _ _ _ _ H Hb) as Hb'. unfold phase_ok in Hb'. rewrite Hph in Hb'.
  destruct Hb' as (Hr & He & d' & Hd' & Hl & _). simplify_eq.
  eapply pinv_idle_set; try done.
  - rewrite Hph. by intros [|].
  - by left.
  - intros t Hin Hbt. by destruct (Htk t Hbt).
  - apply (Hok d); [done|]. by exists b.
Qed.

Lemma wp_bytes G p i x (X : PoolErr -> PreadPool -> Prop) :
  claimed p i x -> pool_inv G p ->
  (forall w, X EPinned (with_env w p)) ->
  wp (bytes i (length x)) (fun r p' => r = x /\ exists w, p' = with_env w p) X p.
Proof.
  intros (b & d & Hb & Hph & Hd & Hl & Hx & _) H HX. unfold bytes. wp_steps.
  apply (wp_buffer i b); [done|]. rewrite (bool_decide_eq_true_2 _ Hph). cbn [negb].
  rewrite Hd. wp_steps. apply wp_ask. intros [] w _; simpl; [|wp_steps; apply HX].
  wp_steps. apply wp_massert; [by apply Nat.leb_le|]. wp_steps. eauto.
Qed.

Lemma wp_mark_h2d G p i x ev X :
  pool_inv G p -> claimed p i x ->
  wp (mark_h2d i ev) (fun _ p' => pool_inv G p' /\ steady p p') X p.
Proof.
  intros H Hcl. pose proof Hcl as (b & d & Hb & Hph & Hd & _).
  unfold mark_h2d. wp_steps. apply (wp_buffer i b); [done|]. rewrite Hph. simpl. wp_steps.
  apply wp_set_buffer; [by eapply lookup_lt_Some|]. split; [|apply steady_set].
  eapply claimed_set; try done. intros d' Hd' (b0 & Hb0 & ? & ? & ? & ?). simplify_eq.
  split; [by eauto|]. done.
Qed.

Lemma wp_mark_unknown_h2d G p i x X :
  pool_inv G p -> claimed p i x ->
  wp (mark_unknown_h2d i) (fun _ p' => pool_inv G p' /\ steady p p') X p.
Proof.
  intros H Hcl. pose proof Hcl as (b & d & Hb & Hph & Hd & _).
  unfold mark_unknown_h2d. wp_steps. apply (wp_buffer i b); [done|]. rewrite Hph. simpl. wp_steps.
  apply wp_set_buffer; [by eapply lookup_lt_Some|]. split; [|apply steady_set].
  eapply claimed_set; try done. intros d' Hd' (b0 & Hb0 & ? & ? & ? & ?). simplify_eq.
  split; [by eauto|]. done.
Qed.

Lemma wp_abort_read G p i x X :
  pool_inv G p -> claimed p i x ->
  wp (abort_read i) (fun _ p' => pool_inv G p' /\ steady p p') X p.
Proof.
  intros H Hcl. pose proof Hcl as (b & d & Hb & Hph & Hd & _).
  unfold abort_read. wp_steps. apply (wp_buffer i b); [done|]. rewrite Hph. simpl. wp_steps.
  apply wp_set_buffer; [by eapply lookup_lt_Some|]. split; [|apply steady_set].
  eapply claimed_set; try done. intros d' Hd' (b0 & Hb0 & ? & ? & ? & ?). simplify_eq.
  split; [by eauto|]. done.
Qed.

Lemma wp_note_fallback G p X :
  pool_inv G p -> wp note_fallback (fun _ p' => pool_inv G p' /\ steady p p') X p.
Proof. intros H. unfold note_fallback. wp_steps. apply wp_count_stat. wp_steps. pool_frame. Qed.

(** The buffer that holds an unclaimed ticket. *)
Lemma ticket_buffer G p t :
  pool_inv G p -> t ∈ tickets p ->
  exists i b, position (ticket_is t) (buffers p) = Some i /\ buffers p !! i = Some b /\
    ticket b = Some t /\ i < length (buffers p) /\
    (phase b = Reading \/ phase b = Ready \/ phase b = Failed).
Proof.
  intros H Hin. destruct (c_tk _ _ _ _ _ _ _ (pi_core _ _ _ H) t Hin) as (j & c & Hj & Hjt).
  destruct (position_lookup (ticket_is t) (buffers p) j c Hj) as [i Hi].
  { by apply bool_decide_eq_true_2. }
  rewrite Hi. apply position_Some in Hi as (b & Hb & Ht%bool_decide_eq_true_1).
  exists i, b. split_and!; try done; [by eapply lookup_lt_Some|].
  pose proof (pinv_buf _ _ _ _ H Hb) as Hok. unfold phase_ok in Hok.
  destruct (phase b); auto; [|  |].
  - destruct Hok as (_ & Hn & _). congruence.
  - destruct Hok as (_ & _ & _ & t' & Ht' & _ & Hn). congruence.
  - destruct Hok as (_ & Hn & _). congruence.
Qed.

(** Dropping a ticket while its buffer changes from [b] to [b']. *)
Lemma pinv_drop_ticket G p t i b b' :
  pool_inv G p -> buffers p !! i = Some b -> ticket b = Some t ->
  ticket b' = None \/ ticket b' = Some t ->
  (in_flight (phase b) -> in_flight (phase b') /\ ticket b' = Some t) ->
  phase_ok (capacity p) (out_ids (pool_reqs p) (pool_comps p)) (tickets p ∖ {[ t ]}) G i b' ->
  pool_inv G (with_buffers (<[i := b']> (buffers p)) (with_tickets (tickets p ∖ {[ t ]}) p)).
Proof.
  intros [Hc Hw Hd] Hb Ht Ht' Hf Hok. split; try done; [|simpl; by rewrite length_insert].
  simpl. eapply core_set; try done; try apply Hc.
  - intros u Hin. destruct (c_ids _ _ _ _ _ _ _ Hc u i Hin) as (c & Hci & Hcf & Hct).
    simplify_eq. by apply Hf.
  - intros u Hu _. set_solver.
  - set_solver.
  - rewrite Ht. tauto.
Qed.

Lemma wp_cancel_worker t G p X :
  pool_inv G p ->
  wp (cancel_worker t) (fun _ p' => pool_inv G p' /\ tickets p' = tickets p ∖ {[ t ]} /\
    same_kind p p') X p.
Proof.
  intros H. unfold cancel_worker. wp_steps.
  eapply wp_mono; [by apply (wp_poll G p X)| |done]. intros [] p1 [H1 Hst]. wp_steps.
  unfold same_kind. rewrite <-(sd_tk _ _ Hst), <-(sd_live _ _ Hst), <-(sd_mode _ _ Hst).
  destruct (bool_decide (t ∈ tickets p1)) eqn:Hin; cbn [negb]; wp_steps.
  2: { apply bool_decide_eq_false_1 in Hin. split; [done|]. split; [set_solver|done]. }
  apply bool_decide_eq_true_1 in Hin.
  destruct (ticket_buffer G p1 t H1 Hin) as (i & b & Hpos & Hb & Ht & Hlt & Hph).
  simpl. rewrite Hpos. wp_steps. apply (wp_buffer i b); [done|].
  pose proof (pinv_buf _ _ _ _ H1 Hb) as Hok. unfold phase_ok in Hok.
  destruct Hph as [Hp|[Hp|Hp]]; rewrite Hp in Hok |- *; simpl; wp_steps;
    try (apply wp_massert; [done|]); wp_steps; (apply wp_set_buffer; [done|]); wp_steps;
    (split; [apply (pinv_drop_ticket G p1 t i b); try done|done]);
    try (by left); try (by right); try (rewrite Hp; by intros [|]).
  - intros _. simpl. split; [by right|done].
  - destruct Hok as (? & ? & ? & t' & ? & ? & ?). simplify_eq. split_and!; try done.
    eexists. split; [done|]. split; [done|]. set_solver.
  - destruct Hok as (? & ? & d & ? & ? & ?). split; [by eauto|]. done.
  - destruct Hok as ((d & ? & ?) & ? & ?). split; [by eauto|]. done.
Qed.

Lemma wp_set_phase i b ph (Q : unit -> PreadPool -> Prop) X p :
  buffers p !! i = Some b ->
  Q tt (with_buffers (<[i := mkBuffer (data b) ph (ready b) (ticket b) (error b)]> (buffers p)) p) ->
  wp (set_phase i ph) Q X p.
Proof.
  intros Hb HQ. unfold set_phase. wp_steps. apply (wp_buffer i b); [done|].
  apply wp_set_buffer; [by eapply lookup_lt_Some|done].
Qed.
Lemma wp_set_data i b d (Q : unit -> PreadPool -> Prop) X p :
  buffers p !! i = Some b ->
  Q tt (with_buffers (<[i := mkBuffer d (phase b) (ready b) (ticket b) (error b)]> (buffers p)) p) ->
  wp (set_data i d) Q X p.
Proof.
  intros Hb HQ. unfold set_data. wp_steps. apply (wp_buffer i b); [done|].
  apply wp_set_buffer; [by eapply lookup_lt_Some|done].
Qed.
Lemma wp_set_ticket i b t (Q : unit -> PreadPool -> Prop) X p :
  buffers p !! i = Some b ->
  Q tt (with_buffers (<[i := mkBuffer (data b) (phase b) (ready b) t (error b)]> (buffers p)) p) ->
  wp (set_ticket i t) Q X p.
Proof.
  intros Hb HQ. unfold set_ticket. wp_steps. apply (wp_buffer i b); [done|].
  apply wp_set_buffer; [by eapply lookup_lt_Some|done].
Qed.
Lemma wp_set_error i b e (Q : unit -> PreadPool -> Prop) X p :
  buffers p !! i = Some b ->
  Q tt (with_buffers (<[i := mkBuffer (data b) (phase b) (ready b) (ticket b) e]> (buffers p)) p) ->
  wp (set_error i e) Q X p.
Proof.
  intros Hb HQ. unfold set_error. wp_steps. apply (wp_buffer i b); [done|].
  apply wp_set_buffer; [by eapply lookup_lt_Some|done].
Qed.
Lemma wp_phase_abort i b ph (Q : unit -> PreadPool -> Prop) X p :
  buffers p !! i = Some b -> Phase.abort_read (phase b) = Some ph ->
  Q tt (with_buffers (<[i := mkBuffer (data b) ph (ready b) (ticket b) (error b)]> (buffers p)) p) ->
  wp (phase_abort i) Q X p.
Proof.
  intros Hb Hph HQ. unfold phase_abort. wp_steps. apply (wp_buffer i b); [done|].
  rewrite Hph. wp_steps. by apply (wp_set_phase i b).
Qed.

Lemma inflight_outstanding G p i b :
  pool_inv G p -> buffers p !! i = Some b -> in_flight (phase b) -> 0 < pool_outstanding p.
Proof.
  intros H Hb Hf. pose proof (pinv_buf _ _ _ _ H Hb) as Hok. unfold phase_ok in Hok.
  assert (exists t, (t, i) ∈ out_ids (pool_reqs p) (pool_comps p)) as [t Hin].
  { destruct Hf as [Hp|Hp]; rewrite Hp in Hok; destruct Hok as (_ & _ & _ & t & _ & ? & _); eauto. }
  unfold pool_reqs, pool_comps, pool_outstanding, outstanding, out_ids in *.
  destruct (workers p) as [wp0|]; [|by apply not_elem_of_nil in Hin].
  destruct (queue wp0), (running wp0), (completions wp0); simpl in *; try lia.
  by apply not_elem_of_nil in Hin.
Qed.

(** After a wait that started in [p]. *)
Definition wait_err (t : Z) (G : gmap Z (list Z)) (p : PreadPool) (_ : PoolErr) (p' : PreadPool) : Prop :=
  pool_inv G p' /\ tickets p' = tickets p ∖ {[ t ]} /\ same_kind p p'.
Definition wait_done (t : Z) (G : gmap Z (list Z)) (p : PreadPool) (i : nat) (p' : PreadPool) : Prop :=
  pool_inv G p' /\ tickets p' = tickets p ∖ {[ t ]} /\ same_kind p p' /\
  forall x, G !! t = Some x -> claimed p' i x.

Lemma wp_wait_loop fuel t waited G p :
  pool_inv G p -> t ∈ tickets p -> pool_outstanding p < fuel ->
  wp (wait_loop fuel t waited) (wait_done t G p) (wait_err t G p) p.
Proof.
  revert waited p. induction fuel as [|fuel IH]; intros waited p H Hin Hf; [lia|].
  destruct (ticket_buffer G p t H Hin) as (i & b & Hpos & Hb & Ht & Hlt & Hph).
  pose proof (pinv_buf _ _ _ _ H Hb) as Hok. unfold phase_ok in Hok.
  cbn [wait_loop]. wp_steps. rewrite Hpos. wp_steps. apply wp_or_err; [|done].
  intros ? [= <-]. wp_steps. apply (wp_buffer i b); [done|].
  destruct Hph as [Hp|[Hp|Hp]]; rewrite Hp in *; wp_steps.
  - assert (Hone : forall q, pool_inv G q -> buffers q = buffers p -> tickets q = tickets p ->
      pool_outstanding q = pool_outstanding p -> same_kind p q ->
      wp recv (fun c => wp (finish_worker_completion c;; wait_loop fuel t true)
        (wait_done t G p) (wait_err t G p)) (wait_err t G p) q).
    { intros q Hq Hqb Hqt Hqo Hql. eapply wp_conseq; [apply (wp_recv G); [done|]|].
      { rewrite <-Hqb in Hb. eapply (inflight_outstanding G _ i b Hq); [done|]. rewrite Hp. by left. }
      intros c p1 (H1 & Hst1 & Ho1). wp_steps.
      eapply wp_conseq; [by apply (wp_finish_worker_completion c [] G p1)|].
      intros [] p2 (H2 & Hst2 & Hwk).
      assert (Htk : tickets p2 = tickets p)
        by (rewrite (sd_tk _ _ Hst2), <-Hqt; apply (sd_tk _ _ Hst1)).
      destruct Hql as [Hql Hqm].
      assert (Hlv : pool_live p2 = pool_live p)
        by (rewrite (sd_live _ _ Hst2), <-Hql; apply (sd_live _ _ Hst1)).
      assert (Hlm : mode p2 = mode p)
        by (rewrite (sd_mode _ _ Hst2), <-Hqm; apply (sd_mode _ _ Hst1)).
      unfold wait_done, wait_err, same_kind in *. rewrite <-Htk, <-Hlv, <-Hlm. apply IH; [done|by rewrite Htk|].
      unfold pool_outstanding in *. rewrite Hwk. lia. }
    destruct waited; simpl; wp_steps; [by apply Hone|].
    apply wp_count_stat. wp_steps. apply Hone; [by pool_inv_tac|done..].
  - destruct Hok as (Hr & He & d & Hd & Hl & Hx).
    assert (Hinv : pool_inv G (with_tickets (tickets p ∖ {[ t ]}) p)).
    { pose proof (pinv_drop_ticket G p t i b b H Hb Ht) as Hdrop.
      rewrite (list_insert_id _ _ _ Hb) in Hdrop. apply Hdrop.
      - by right.
      - rewrite Hp. by intros [|].
      - unfold phase_ok. rewrite Hp. eauto 10. }
    split; [done|]. split; [done|]. split; [done|]. intros x HG. destruct (Hx t x Ht HG) as [? ?].
    exists b, d. split_and!; try done; [lia|]. rewrite Ht. intros ? [= <-]. simpl. set_solver.
  - apply (wp_set_ticket i b); [done|]. wp_steps.
    eapply wp_set_error; [simpl; by rewrite list_lookup_insert_eq|]. wp_steps.
    eapply wp_phase_abort; [simpl; by rewrite !list_insert_insert_eq, list_lookup_insert_eq|by simpl; rewrite Hp|].
    wp_steps. simpl. rewrite !list_insert_insert_eq. split; [|done].
    apply (pinv_drop_ticket G p t i b); try done.
    + by left.
    + rewrite Hp. by intros [|].
    + destruct Hok as (? & ? & ?). done.
Qed.

Lemma wp_wait_worker t G p :
  pool_inv G p ->
  wp (wait_worker t) (wait_done t G p) (wait_err t G p) p.
Proof.
  intros H. unfold wait_worker. wp_steps.
  destruct (bool_decide (t ∈ tickets p)) eqn:Hin; cbn [negb]; wp_steps.
  2: { apply bool_decide_eq_false_1 in Hin. split; [done|]. split; [set_solver|done]. }
  apply bool_decide_eq_true_1 in Hin.
  eapply wp_conseq; [by apply (wp_poll G p)|]. intros [] p1 [H1 Hst]. wp_steps.
  unfold wait_done, wait_err, same_kind. rewrite <-(sd_tk _ _ Hst) in Hin |- *.
  rewrite <-(sd_live _ _ Hst), <-(sd_mode _ _ Hst).
  apply wp_wait_loop; [done..|]. unfold pool_outstanding. lia.
Qed.

Lemma free_buffer G p i :
  pool_inv G p -> position (phase_is Free) (buffers p) = Some i ->
  exists b d, buffers p !! i = Some b /\ phase b = Free /\ i < length (buffers p) /\
    data b = Some d /\ length d = capacity p /\ ticket b = None /\ ready b = None /\ error b = None.
Proof.
  intros H (b & Hb & Hp%bool_decide_eq_true_1)%position_Some.
  pose proof (pinv_buf _ _ _ _ H Hb) as Hok. unfold phase_ok in Hok. rewrite Hp in Hok.
  destruct Hok as ((d & ? & ?) & ? & ? & ?). exists b, d. split_and!; eauto using lookup_lt_Some.
Qed.

(** Replacing a free buffer's contents, or handing them to the owner. *)
Lemma pinv_refill G p i b d ph :
  pool_inv G p -> buffers p !! i = Some b -> phase b = Free -> length d = capacity p ->
  ph = Free \/ ph = Ready ->
  pool_inv G (with_buffers (<[i := mkBuffer (Some d) ph None None None]> (buffers p)) p).
Proof.
  intros H Hb Hp Hd Hph. eapply pinv_idle_set; try done.
  - rewrite Hp. by intros [|].
  - by left.
  - intros t Hin Ht. pose proof (pinv_buf _ _ _ _ H Hb) as Hok. unfold phase_ok in Hok.
    rewrite Hp in Hok. destruct Hok as (_ & Hn & _). congruence.
  - destruct Hph as [-> | ->]; unfold phase_ok; simpl; [by split; [eauto|]|].
    split; [done|]. split; [done|]. exists d. by split_and!.
Qed.

Lemma wp_read f off len G p :
  pool_inv G p -> (0 <= off)%Z ->
  wp (read f off len)
    (fun i p' => (pool_inv G p' /\ steady p p') /\ length (slice_at (contents f) off len) = len /\
       claimed p' i (slice_at (contents f) off len))
    (fun _ p' => pool_inv G p' /\ steady p p') p.
Proof.
  intros H Hoff. unfold read. wp_steps.
  destruct (capacity p <? len) eqn:Hcap.
  { wp_steps. apply wp_count_stat. wp_steps. pool_frame. }
  apply Nat.ltb_ge in Hcap. wp_steps.
  eapply wp_conseq; [by apply (wp_reap_completed G p)|]. intros [] p1 [H1 Hst1]. wp_steps.
  apply wp_mono with (Q := fun _ q => pool_inv G q /\ steady p q /\
      existsb (phase_is Free) (buffers q) = true) (X := fun _ q => pool_inv G q /\ steady p q); [|clear p1 H1 Hst1|done].
  { destruct (existsb (phase_is Free) (buffers p1)) eqn:Hex; [by wp_steps|].
    eapply wp_mono; [by apply (wp_wait_for_one G p1)| |intros ? ? [? ?]; eauto using steady_trans].
    intros [] q (? & ? & ?). split; [done|]. split; [|done]. by eapply steady_trans. }
  intros [] p1 (H1 & Hst1 & Hex). wp_steps.
  destruct (position_is_Some _ _ Hex) as [i Hpos]. rewrite Hpos. wp_steps.
  destruct (free_buffer G p1 i H1 Hpos) as (b & d & Hb & Hp & Hlt & Hd & Hdl & Ht & Hr & He).
  apply (wp_buffer i b); [done|]. rewrite Hp. simpl. wp_steps.
  apply (wp_set_phase i b); [done|]. wp_steps. rewrite Hd. wp_steps.
  rewrite (sd_cap _ _ Hst1) in Hdl.
  apply wp_ask. intros pinned w1 _. destruct pinned; simpl.
  2: { wp_steps. eapply wp_phase_abort; [simpl; by rewrite list_lookup_insert_eq|done|].
    wp_steps. apply wp_count_stat. wp_steps. simpl. rewrite list_insert_insert_eq, Ht, Hr, He.
    split; [|eapply steady_trans; [exact Hst1|]; split; try done; simpl; by rewrite length_insert].
    apply pinv_stats. change (pool_inv G (with_buffers
      (<[i:=mkBuffer (Some d) Free None None None]> (buffers (with_env w1 p1))) (with_env w1 p1))).
    eapply pinv_refill; [by apply pinv_env|done..| |by left].
    simpl. by rewrite Hdl, (sd_cap _ _ Hst1). }
  wp_steps. apply wp_massert; [apply Nat.leb_le; lia|]. wp_steps.
  apply wp_ask. intros answers w2 Hans. wp_steps.
  pose proof (law_served w1 f off len) as Hs. simpl in Hans. rewrite Hans in Hs.
  assert (Htl : length (take len d) = len) by (rewrite length_take; lia).
  destruct (pread_exact_at_spec (contents f) answers (take len d) off Hoff (law_size f))
    as (d' & res & -> & Hd' & Hres); [by rewrite Htl|].
  rewrite Htl in Hd', Hres. wp_steps.
  eapply wp_set_data; [simpl; by rewrite list_lookup_insert_eq|]. wp_steps. simpl.
  rewrite list_insert_insert_eq, Ht, Hr, He.
  assert (Hnd : length (d' ++ drop len d) = capacity p) by (rewrite length_app, length_drop; lia).
  assert (Hfin : forall st ph, ph = Free \/ ph = Ready ->
    let q := with_stats st (with_buffers (<[i:=mkBuffer (Some (d' ++ drop len d)) ph None None None]>
      (buffers p1)) (with_env w2 p1)) in pool_inv G q /\ steady p q).
  { intros st ph Hph.
    split; [|eapply steady_trans; [exact Hst1|]; split; try done; simpl; by rewrite length_insert].
    apply pinv_stats. apply (pinv_refill G (with_env w2 p1) i b); [by apply pinv_env|done..| |done].
    simpl. by rewrite Hnd, (sd_cap _ _ Hst1). }
  assert (Hl1 : i < length (buffers p1)) by done.
  destruct res as [[]|e|]; [| |done].
  - destruct Hres as [-> Hlen].
    eapply wp_bind, wp_buffer; [simpl; by rewrite list_lookup_insert_eq|]. simpl. wp_steps.
    eapply wp_set_phase; [simpl; by rewrite list_lookup_insert_eq|]. wp_steps.
    apply wp_massert; [done|]. wp_steps. apply wp_count_stat. wp_steps. simpl. rewrite list_insert_insert_eq.
    split; [by apply Hfin; right|]. split; [done|].
    exists (mkBuffer (Some (slice_at (contents f) off len ++ drop len d)) Ready None None None), (slice_at (contents f) off len ++ drop len d).
    simpl. rewrite list_lookup_insert_eq by done. split_and!; try done.
    + rewrite length_app. lia.
    + by rewrite take_app_length.
  - eapply wp_bind, wp_phase_abort; [simpl; by rewrite list_lookup_insert_eq|done|].
    wp_steps. apply wp_count_stat. wp_steps. simpl. rewrite list_insert_insert_eq.
    apply wp_when; intros _; wp_steps; [apply wp_count_stat; wp_steps|]; by apply Hfin; left.
Qed.

(** [io_file] hands back a file with the same bytes and leaves the buffers,
    workers and tickets alone. *)
Record io_frame (G : gmap Z (list Z)) (p p' : PreadPool) : Prop := {
  if_inv : pool_inv G p';
  if_steady : steady p p';
}.
Lemma wp_io_file f G p :
  pool_inv G p ->
  wp (io_file f) (fun f' p' => io_frame G p p' /\ contents f' = contents f)
    (fun _ p' => io_frame G p p') p.
Proof.
  intros H. unfold io_file. wp_steps. apply wp_ask. intros meta w Hmeta. wp_steps.
  assert (Hfr : forall a e, io_frame G p (with_advised a (with_env e p)))
    by (intros; split; [by destruct H|by split]).
  assert (Hfr0 : forall e, io_frame G p (with_env e p))
    by (intros; split; [by destruct H|by split]).
  apply wp_or_err; [|by eauto]. intros key ->. wp_steps. simpl.
  destruct (bool_decide (mode p = Worker)).
  { destruct (bool_decide (key ∈ random_advised_files p)); wp_steps; [by auto|].
    apply wp_ask. intros ok w2 _. destruct ok; simpl; wp_steps; [|exact (Hfr _ w2)].
    split; [exact (Hfr _ w2)|done]. }
  destruct (negb (bool_decide (mode p = Direct))); [by wp_steps|].
  destruct (direct_files p !! key) as [g|] eqn:Hg.
  { wp_steps. split; [done|]. symmetry. by eapply (pi_direct _ _ _ H). }
  wp_steps. apply wp_ask. intros opened w2 _. wp_steps. apply wp_or_err; [|intros _; exact (Hfr0 w2)].
  intros g ->. wp_steps. apply wp_ask. intros meta' w3 Hmeta'. wp_steps.
  apply wp_or_err; [|intros _; exact (Hfr0 w3)]. intros key' ->. wp_steps. simpl in *.
  destruct (bool_decide (key' = key)) eqn:Hk; simpl; wp_steps; [|exact (Hfr0 w3)].
  apply bool_decide_eq_true_1 in Hk as ->.
  assert (Hfg : forall f w4 w4', os_metadata w4 f = (Some key, w4') -> contents f = contents g).
  { intros f' w4 w4' Hm. eapply law_inode with (w1 := w4) (w2 := w2); [by rewrite Hm|by rewrite Hmeta']. }
  split; [|symmetry; by eapply Hfg]. split; [|by split].
  destruct H as [Hc Hw Hd]. split; try done. simpl. intros k f' g' w4 w4' Hl Hm.
  apply lookup_insert_Some in Hl as [[<- <-]|[_ Hl]]; [by eapply Hfg|by eapply Hd].
Qed.

(** The reads in flight sit in distinct buffers, none of them buffer [i], so
    the request channel has room. *)
Lemma ids_bound cap bs reqs comps nt tk G (i : nat) :
  core cap bs reqs comps nt tk G -> i < length bs ->
  (forall t, (t, i) ∉ out_ids reqs comps) -> length (out_ids reqs comps) < length bs.
Proof.
  intros Hc Hi Hni.
  assert (Hnd : NoDup (i :: (out_ids reqs comps).*2)).
  { apply NoDup_cons. split.
    { intros ([t j] & Hj & Hin)%list_elem_of_fmap. simpl in Hj. subst. by apply (Hni t). }
    apply NoDup_fmap_2_strong; [|eapply NoDup_fmap_1, Hc].
    intros [t j] [t' j'] Hin Hin' Heq. simpl in Heq. subst j'. f_equal.
    destruct (c_ids _ _ _ _ _ _ _ Hc _ _ Hin) as (b & Hb & _ & Hbt).
    destruct (c_ids _ _ _ _ _ _ _ Hc _ _ Hin') as (b' & Hb' & _ & Hbt'). congruence. }
  assert (Hsub : i :: (out_ids reqs comps).*2 ⊆+ seq 0 (length bs)).
  { apply NoDup_submseteq; [done|]. intros j [->|([t k] & -> & Hin)%list_elem_of_fmap]%elem_of_cons;
      apply elem_of_seq; [lia|].
    destruct (c_ids _ _ _ _ _ _ _ Hc _ _ Hin) as (b & Hb & _).
    apply lookup_lt_Some in Hb. simpl. lia. }
  apply submseteq_length in Hsub. rewrite length_seq in Hsub. simpl in Hsub.
  rewrite length_fmap in Hsub. lia.
Qed.

Lemma free_not_out G p i b :
  pool_inv G p -> buffers p !! i = Some b -> phase b = Free ->
  forall t, (t, i) ∉ out_ids (pool_reqs p) (pool_comps p).
Proof.
  intros H Hb Hp t Hin. destruct (c_ids _ _ _ _ _ _ _ (pi_core _ _ _ H) t i Hin) as (c & ? & Hf & _).
  simplify_eq. rewrite Hp in Hf. by destruct Hf.
Qed.

(** Reserving a free buffer and sending its request. *)
Lemma core_reserve cap bs reqs comps nt tk G (i : nat) b d f off len x :
  core cap bs reqs comps nt tk G -> bs !! i = Some b -> phase b = Free -> ticket b = None ->
  (forall t, (t, i) ∉ out_ids reqs comps) ->
  length d = cap -> len <= cap -> (0 <= off)%Z -> x = slice_at (contents f) off len ->
  core cap (<[i := mkBuffer None Reading None (Some nt) None]> bs)
    (mkRequest nt i f off len d :: reqs) comps (nt + 1) ({[ nt ]} ∪ tk) (<[nt := x]> G).
Proof.
  intros Hc Hb Hp Htb Hni Hd Hlen Hoff Hx.
  assert (Hfresh : forall j c, bs !! j = Some c -> ticket c <> Some nt).
  { intros j c Hj Ht. pose proof (c_lt _ _ _ _ _ _ _ Hc _ _ _ Hj Ht). lia. }
  assert (HGn : G !! nt = None).
  { destruct (G !! nt) eqn:HG; [|done].
    pose proof (c_G _ _ _ _ _ _ _ Hc nt ltac:(by rewrite HG)). lia. }
  assert (Hold : forall t j, (t, j) ∈ out_ids reqs comps -> t <> nt).
  { intros t j Hin ->. destruct (c_ids _ _ _ _ _ _ _ Hc _ _ Hin) as (c & Hj & _ & Ht).
    by apply (Hfresh j c). }
  assert (Hc' : core cap bs reqs comps (nt + 1) tk (<[nt := x]> G)).
  { destruct Hc as [Hbu Hnd Hi Hu Ht Hl HG Hr Hco]. split; try done.
    - intros j c Hj. specialize (Hbu j c Hj). unfold phase_ok in *. destruct (phase c); try done.
      destruct Hbu as (? & ? & d' & ? & ? & Hxx). do 2 (split; [done|]). exists d'.
      split; [done|]. split; [done|]. intros t y Hct Hy.
      rewrite lookup_insert_ne in Hy by (intros <-; by eapply Hfresh). eauto.
    - intros j c t Hj Hct. specialize (Hl j c t Hj Hct). lia.
    - intros t. destruct (decide (t = nt)) as [->|]; [lia|].
      rewrite lookup_insert_ne by done. intros ?%HG. lia.
    - rewrite Forall_forall in *. intros r Hin. destruct (Hr r Hin) as (? & ? & ? & Hy).
      repeat split; try done. intros y. rewrite lookup_insert_ne; [apply Hy|].
      intros ->. apply (Hold (rq_ticket r) (rq_index r)); [|done].
      apply elem_of_app. left. by apply list_elem_of_fmap_2 with (f := req_id).
    - rewrite Forall_forall in *. intros r Hin. destruct (Hco r Hin) as (? & Hy).
      split; [done|]. intros Hres y. rewrite lookup_insert_ne; [by apply Hy|].
      intros ->. apply (Hold (rc_ticket r) (rc_index r)); [|done].
      apply elem_of_app. right. by apply list_elem_of_fmap_2 with (f := comp_id). }
  eapply core_set; try done.
  - intros t j Hj. unfold out_ids. simpl. rewrite elem_of_cons. unfold req_id at 1. simpl.
    split; [intros [[= -> ->]|?]; done|by right].
  - unfold out_ids. simpl. apply NoDup_cons. split; [|apply Hc].
    intros ([t j] & Heq & Hin)%list_elem_of_fmap. simpl in Heq.
    by apply (Hold t j).
  - intros t Hin. unfold out_ids in Hin. simpl in Hin.
    apply elem_of_cons in Hin as [[= ->]|Hin]; [by split; [left|]|by destruct (Hni t)].
  - simpl. intros t _ Ht. assert (t <> nt) by congruence. set_solver.
  - rewrite Htb. done.
  - right; right. exists nt. split; [done|]. split; [lia|done].
  - unfold phase_ok. simpl. split_and!; try done. exists nt. split; [done|]. split; [left|set_solver].
  - constructor; [|apply Hc']. repeat split; try done. intros y. simpl.
    rewrite lookup_insert_eq. by intros [= <-].
  - apply Hc'.
Qed.

Lemma count_free_take bs i b b' :
  bs !! i = Some b -> phase b = Free -> phase b' <> Free ->
  S (count_free (<[i := b']> bs)) = count_free bs.
Proof.
  intros Hb Hp Hp'. unfold count_free.
  rewrite (insert_take_drop bs i) by (by eapply lookup_lt_Some).
  rewrite <-(take_drop_middle bs i b Hb) at 3. rewrite !filter_app, !filter_cons.
  rewrite decide_False, decide_True, !length_app by done. simpl. lia.
Qed.

Lemma count_free_position bs : 0 < count_free bs -> is_Some (position (phase_is Free) bs).
Proof.
  intros H. unfold count_free in H.
  destruct (filter (fun b => phase b = Free) bs) as [|b l] eqn:Hf; [simpl in H; lia|].
  assert (Hin : b ∈ filter (fun b => phase b = Free) bs) by (rewrite Hf; left).
  apply list_elem_of_filter in Hin as [Hp [i Hi]%list_elem_of_lookup_1].
  eapply position_lookup; [done|]. by apply bool_decide_eq_true_2.
Qed.

(** What a submission leaves behind. *)
Definition submitted (G : gmap Z (list Z)) (p : PreadPool) (x : list Z) (floor : nat)
    (r : option Z) (p' : PreadPool) : Prop :=
  match r with
  | Some t =>
      pool_inv (<[t := x]> G) p' /\ G !! t = None /\ (t ∉ tickets p) /\
      tickets p' = {[ t ]} ∪ tickets p /\ floor <= count_free (buffers p') /\
      pool_live p' = true /\ mode p' = mode p
  | None => pool_inv G p' /\ steady p p'
  end.

Lemma wp_submit f off len adm G p :
  pool_inv G p -> pool_live p = true -> (0 <= off)%Z ->
  wp (submit_worker_with_admission f off len adm)
    (submitted G p (slice_at (contents f) off len) (free_buffer_floor adm))
    (fun _ p' => pool_inv G p' /\ steady p p') p.
Proof.
  intros H Hlive Hoff. unfold submit_worker_with_admission. wp_steps.
  destruct (negb (is_worker (mode p))) eqn:Hw; [by wp_steps|].
  apply negb_false_iff in Hw. destruct (capacity p <? len) eqn:Hcap.
  { wp_steps. apply wp_count_stat. wp_steps. split; [by pool_inv_tac|done]. }
  apply Nat.ltb_ge in Hcap.
  destruct (bool_decide (mode p = Direct) && negb (direct_extent_aligned off (Z.of_nat len))).
  { wp_steps. apply wp_count_stat. wp_steps. split; [by pool_inv_tac|done]. }
  wp_steps. eapply wp_mono; [by apply (wp_io_file f G p)| |].
  2: { intros _ p' [Hi Hs]. by split. }
  intros f' p1 [[H1 Hs1] Hf']. wp_steps.
  eapply wp_conseq; [by apply (wp_reap_completed G p1)|]. intros [] p2 [H2 Hs2]. wp_steps.
  pose proof (steady_trans _ _ _ Hs1 Hs2) as Hs. clear p1 Hs1 Hs2 H1.
  destruct (count_free (buffers p2) <=? free_buffer_floor adm) eqn:Hfl.
  { wp_steps. apply wp_count_stat. wp_steps. split; [by pool_inv_tac|split; apply Hs]. }
  apply Nat.leb_gt in Hfl. wp_steps.
  destruct (count_free_position (buffers p2)) as [i Hpos]; [lia|]. rewrite Hpos. wp_steps.
  destruct (free_buffer G p2 i H2 Hpos) as (b & d & Hb & Hp & Hlt & Hd & Hdl & Ht & Hr & He).
  destruct (u_max 64 <? next_ticket p2 + 1)%Z; wp_steps; [by split|].
  apply (wp_buffer i b); [done|]. rewrite Hp. simpl. wp_steps.
  eapply wp_set_phase; [done|]. wp_steps.
  eapply wp_set_ticket; [simpl; by rewrite list_lookup_insert_eq|]. wp_steps.
  rewrite Hd. wp_steps.
  eapply wp_set_data; [simpl; by rewrite !list_insert_insert_eq, list_lookup_insert_eq|]. wp_steps.
  simpl. rewrite !list_insert_insert_eq, Hr, He. simpl.
  pose proof H2 as [Hc Hwk Hdir]. unfold pool_reqs, pool_comps in Hc.
  rewrite (sd_mode _ _ Hs) in Hwk. unfold workers_ok in Hwk.
  destruct (workers p2) as [wp2|] eqn:Hwp; [|congruence].
  assert (Hsnd : sender wp2 = true).
  { rewrite <-Hlive, <-(sd_live _ _ Hs). unfold pool_live. by rewrite Hwp. }
  destruct Hwk as [(_ & Hdep & Hn)|(? & _)]; [|congruence].
  rewrite Hsnd. simpl. rewrite (proj2 (Nat.eqb_neq _ _)) by lia.
  pose proof (free_not_out G p2 i b H2 Hb Hp) as Hni. unfold pool_reqs, pool_comps in Hni.
  rewrite Hwp in Hni. pose proof (ids_bound _ _ _ _ _ _ _ _ Hc Hlt Hni) as Hbound.
  unfold out_ids in Hbound. rewrite length_app, !length_map, length_app in Hbound.
  rewrite (proj2 (Nat.leb_gt _ _)) by lia. wp_steps. simpl.
  assert (HGn : G !! next_ticket p2 = None).
  { destruct (G !! next_ticket p2) eqn:HG; [|done].
    pose proof (c_G _ _ _ _ _ _ _ Hc (next_ticket p2) ltac:(by rewrite HG)). lia. }
  split; [split|split; [done|split]].
  - unfold pool_reqs, pool_comps. simpl.
    eapply core_perm; [|eapply (core_reserve _ _ _ _ _ _ _ i b d f' off len)].
    + simpl. rewrite <-!app_assoc. simpl. by rewrite Permutation_middle.
    + exact Hc.
    + done.
    + done.
    + done.
    + done.
    + done.
    + by rewrite (sd_cap _ _ Hs).
    + done.
    + by rewrite Hf'.
  - simpl. rewrite length_insert. by left.
  - done.
  - intros Hin. rewrite <-(sd_tk _ _ Hs) in Hin.
    destruct (c_tk _ _ _ _ _ _ _ Hc _ Hin) as (j & c & Hj & Hjt).
    pose proof (c_lt _ _ _ _ _ _ _ Hc _ _ _ Hj Hjt). lia.
  - simpl. rewrite (sd_tk _ _ Hs). split; [done|].
    pose proof (count_free_take _ i b (mkBuffer None Reading None (Some (next_ticket p2)) None) Hb Hp ltac:(done)).
    simpl in *. split; [lia|]. split; [done|apply Hs].
Qed.

(** ** Teardown *)

Lemma join_loop_spec fuel cap bs wp nt tk G w :
  core cap bs (queue wp ++ running wp) (completions wp) nt tk G ->
  0 < depth wp \/ (queue wp = [] /\ running wp = []) ->
  length (queue wp) + length (running wp) <= fuel ->
  exists wp' w',
    join_loop fuel wp w = Some (wp', w') /\ queue wp' = [] /\ running wp' = [] /\
    core cap bs [] (completions wp') nt tk G.
Proof.
  revert wp w. induction fuel as [|fuel IH]; intros wp w Hc Hd Hf.
  { destruct (queue wp) as [|r q] eqn:Hq, (running wp) as [|r' q'] eqn:Hr; simpl in Hf; try lia.
    exists wp, w. simpl. rewrite Hq, Hr. done. }
  destruct (decide (queue wp = [] /\ running wp = [])) as [[Hq Hr]|Hne].
  { exists wp, w. simpl. rewrite Hq, Hr in *. done. }
  destruct Hd as [Hd|Hd]; [|done].
  destruct (worker_take_spec _ _ [] wp _ _ _ Hc) as [Hc2 Hs2]. set (wp2 := worker_take wp) in *.
  assert (Hrun : running wp2 <> []).
  { unfold wp2, worker_take. destruct (queue wp) as [|r q] eqn:Hq.
    - intros Hr. by destruct Hne.
    - destruct (length (running wp) <? depth wp) eqn:Hlt; simpl; [by destruct (running wp)|].
      apply Nat.ltb_ge in Hlt. destruct (running wp); [simpl in Hlt; lia|done]. }
  destruct (worker_finish_spec _ _ [] wp2 _ _ _ w Hc2) as (wp3 & w3 & Hfin & Hc3 & Hs3 & Hcl).
  specialize (Hcl Hrun). destruct Hs2 as (_ & Hd2 & Ho2 & _), Hs3 as (_ & Hd3 & Ho3 & _).
  assert (Hcomp2 : completions wp2 = completions wp).
  { unfold wp2, worker_take. destruct (queue wp); [done|]. by destruct (_ <? _). }
  destruct (IH wp3 w3 Hc3) as (wp' & w' & Hj & ? & ? & ?).
  { left. rewrite Hd3, Hd2. done. }
  { unfold outstanding in *. rewrite Hcomp2 in *. lia. }
  exists wp', w'. split; [|done]. simpl. fold wp2. rewrite Hfin. simpl.
  destruct (queue wp), (running wp); try done. by destruct Hne.
Qed.

Lemma wp_shutdown G p X :
  pool_inv G p ->
  wp shutdown (fun _ p' => pool_inv G p' /\ pool_reqs p' = [] /\ buffers p' = buffers p /\
    capacity p' = capacity p) X p.
Proof.
  intros H. unfold shutdown. wp_steps. pose proof H as [Hc Hw Hd].
  unfold pool_reqs, pool_comps in Hc. destruct (workers p) as [wp0|] eqn:Hwp.
  2: { wp_steps. split; [done|]. unfold pool_reqs. by rewrite Hwp. }
  destruct (join_loop_spec (length (queue wp0) + length (running wp0)) (capacity p) (buffers p)
    (mkWorkers false (depth wp0) (queue wp0) (running wp0) (completions wp0)) (next_ticket p)
    (tickets p) G (env p) Hc) as (wp' & w' & -> & Hq & Hr & Hc').
  { simpl. destruct Hw as [(? & ? & ?)|(? & ? & ?)]; [left; lia|by right]. }
  { done. }
  wp_steps. unfold pool_reqs. simpl. rewrite Hq, Hr. split; [|done]. split; [|simpl|done].
  - unfold pool_reqs, pool_comps. simpl. done.
  - by right.
Qed.

(** A whole-pool loop that rewrites each buffer independently. *)
Lemma wp_each_buffer (f : nat -> P unit) (R : PinnedBuffer -> PinnedBuffer -> Prop) p X :
  (forall i b q, buffers q !! i = Some b -> wp (f i)
     (fun _ q' => exists b', R b b' /\ q' = with_buffers (<[i := b']> (buffers q)) q) X q) ->
  wp (for_each f (seq 0 (length (buffers p))))
    (fun _ p' => exists bs, p' = with_buffers bs p /\ Forall2 R (buffers p) bs) X p.
Proof.
  intros Hf.
  assert (Hgen : forall done todo q, buffers q = done ++ todo -> q = with_buffers (done ++ todo) p ->
    wp (for_each f (seq (length done) (length todo)))
      (fun _ p' => exists bs, p' = with_buffers (done ++ bs) p /\ Forall2 R todo bs) X q).
  { intros dn todo. revert dn. induction todo as [|b todo IH]; intros dn q Hq Heq; simpl.
    { apply wp_ret. exists []. split; [done|constructor]. }
    apply wp_bind. eapply wp_conseq; [apply (Hf (length dn) b q)|].
    { rewrite Hq. by rewrite list_lookup_middle. }
    intros [] q' (b' & Hb' & ->). rewrite Hq, insert_app_r_alt, Nat.sub_diag by lia. simpl.
    specialize (IH (dn ++ [b']) (with_buffers (dn ++ b' :: todo) q)).
    rewrite length_app in IH. simpl in IH. rewrite Nat.add_1_r in IH.
    eapply wp_conseq; [apply IH; [by rewrite <-app_assoc|by rewrite Heq, <-app_assoc]|].
    intros [] p' (bs & -> & HR). exists (b' :: bs). rewrite <-app_assoc. split; [done|by constructor]. }
  apply (Hgen [] (buffers p) p); [done|by destruct p].
Qed.

(** After [drain] every buffer is free with its allocation in place, or (when
    CUDA cannot prove that the transfers are over) every allocation is leaked. *)
Definition drained (cap : nat) (b : PinnedBuffer) : Prop :=
  phase b = Free /\ ticket b = None /\ ready b = None /\
  exists d, data b = Some d /\ length d = cap.

Lemma wp_drain G p X :
  pool_inv G p ->
  wp drain (fun ok p' => length (buffers p') = length (buffers p) /\
    if ok : bool then tickets p' = ∅ /\ Forall (drained (capacity p)) (buffers p')
    else Forall (fun b => data b = None) (buffers p')) X p.
Proof.
  intros H. unfold drain. wp_steps.
  eapply wp_conseq; [by apply (wp_shutdown G p)|]. intros [] p1 (H1 & Hr1 & Hb1 & Hcap). wp_steps.
  eapply wp_conseq; [by apply (wp_poll_idle G p1)|]. intros [] p2 (H2 & Hst & Hr2 & Hc2). wp_steps.
  apply wp_ask. intros ok w _. wp_steps. rewrite <-Hb1, <-Hcap, <-(sd_cap _ _ Hst), <-(sd_len _ _ Hst).
  destruct ok.
  - wp_steps.
    set (ok0 := fun b => ~ in_flight (phase b) /\ exists d, data b = Some d /\ length d = capacity p2).
    eapply wp_conseq; [apply (wp_each_buffer drain_buffer (fun b b' => ok0 b -> drained (capacity p2) b'))|].
    { intros i b q Hb. assert (Hlt : i < length (buffers q)) by eauto using lookup_lt_Some.
      unfold drain_buffer. wp_steps. apply (wp_buffer i b); [done|].
      destruct (phase b) eqn:Hp; simpl; wp_steps;
        (apply wp_set_buffer; [done|]); eexists; (split; [|done]); intros [Hn ?];
        try (by destruct Hn; rewrite Hp; (left + right)); by repeat split. }
    intros [] p3 (bs & -> & HR). wp_steps. simpl in *.
    rewrite <-(Forall2_length _ _ _ HR). split; [done|]. split; [done|].
    eapply Forall2_Forall_r; [exact HR|]. apply Forall_lookup. intros i b Hb b2 Hok. apply Hok.
    pose proof (pinv_buf _ _ _ _ H2 Hb) as Hbo. rewrite Hr2, Hc2 in Hbo. unfold phase_ok in Hbo.
    unfold ok0, in_flight.
    destruct (phase b); destruct Hbo as (Ha & Hbb & Hcc);
      try (destruct Hcc as (? & ? & ? & Hin & ?); by apply not_elem_of_nil in Hin).
    + split; [by intros [|]|done].
    + destruct Hcc as (d & ? & ? & _). split; [by intros [|]|eauto].
    + split; [by intros [|]|done].
    + split; [by intros [|]|done].
  - wp_steps. eapply wp_conseq; [apply (wp_each_buffer leak_buffer (fun _ b' => data b' = None))|].
    { intros i b q Hb. unfold leak_buffer. wp_steps. apply (wp_buffer i b); [done|].
      apply wp_set_buffer; [by eapply lookup_lt_Some|]. by eexists (mkBuffer None _ _ _ _). }
    intros [] p3 (bs & -> & HR). wp_steps. simpl in *.
    rewrite <-(Forall2_length _ _ _ HR). split; [done|].
    eapply Forall2_Forall_r; [exact HR|]. by apply Forall_true; intros.
Qed.

(** ** Runs of a pool *)

Lemma alloc_buffers_ok answers acc bs cap :
  alloc_buffers answers acc = Some bs ->
  Forall (fun a => forall d, a = Some d -> length d = cap) answers ->
  Forall (drained cap) acc -> Forall (fun b => error b = None) acc ->
  Forall (drained cap) bs /\ Forall (fun b => error b = None) bs /\
  (answers <> [] -> bs <> []) /\ (acc <> [] -> bs <> []).
Proof.
  revert acc. induction answers as [|[d|] answers IH]; intros acc; simpl.
  - intros [= <-]. done.
  - intros Hb [Hd Hall]%Forall_cons Ha He. destruct (IH _ Hb Hall) as (? & ? & _ & Hne).
    + apply Forall_app. split; [done|]. constructor; [|done]. repeat split. eauto.
    + apply Forall_app. split; [done|]. by constructor.
    + split; [done|]. split; [done|]. split; intros _; apply Hne; by destruct acc.
  - destruct acc as [|b acc]; [done|]. intros [= <-]. done.
Qed.

Lemma try_new_inv answers spawned cap m w p :
  try_new answers spawned cap m w = Ok p -> answers <> [] ->
  Forall (fun a => forall d, a = Some d -> length d = cap) answers ->
  pool_inv ∅ p /\ pool_live p = true /\ capacity p = cap.
Proof.
  unfold try_new. intros Ht Hne Hall. destruct (bool_decide (m = Mmap)); [done|].
  destruct (alloc_buffers answers []) as [bs|] eqn:Hb; [|done].
  destruct (alloc_buffers_ok _ _ _ cap Hb Hall) as (Hdr & Her & Hn & _); [done..|].
  specialize (Hn Hne). rewrite Forall_lookup in Hdr, Her.
  assert (Hcore : core cap bs [] [] 1 ∅ ∅).
  { split; try done.
    - intros i b Hi. destruct (Hdr i b Hi) as (Hp & Htk & Hr & Hd). unfold phase_ok. rewrite Hp.
      pose proof (Her i b Hi). eauto.
    - constructor.
    - intros t i Hin. by apply not_elem_of_nil in Hin.
    - intros i j b c t Hi _ Hbt _. destruct (Hdr i b Hi) as (_ & Htk & _). congruence.
    - intros i b t Hi Hbt. destruct (Hdr i b Hi) as (_ & Htk & _). congruence.
    - intros t [x Hx]. by rewrite lookup_empty in Hx. }
  destruct (is_worker m) eqn:Hw; [destruct spawned; [|done]|]; injection Ht as <-;
    (split; [split; try done|done]).
  left. split; [done|]. split; [done|]. by destruct bs; [|simpl; lia].
Qed.

(** The owner's calls.  The last four act on a buffer the owner holds. *)
Inductive pool_op :=
  | ORead (f : file) (off : Z) (len : nat)
  | OSubmit (f : file) (off : Z) (len : nat) (a : WorkerAdmission)
  | OWait (t : Z)
  | OCancel (t : Z)
  | OBytes (i len : nat)
  | OMarkH2d (i : nat) (ev : Z)
  | OMarkUnknown (i : nat)
  | OAbort (i : nat)
  | OFallback.

Definition discard {A} (m : P A) : P unit := m;; ret tt.
Definition pool_exec (op : pool_op) : P unit :=
  match op with
  | ORead f off len => discard (read f off len)
  | OSubmit f off len a => discard (submit_worker_with_admission f off len a)
  | OWait t => discard (wait_worker t)
  | OCancel t => discard (cancel_worker t)
  | OBytes i len => discard (bytes i len)
  | OMarkH2d i ev => discard (mark_h2d i ev)
  | OMarkUnknown i => discard (mark_unknown_h2d i)
  | OAbort i => discard (abort_read i)
  | OFallback => discard note_fallback
  end.

(** Offsets are u64; [bytes], [mark_*] and [abort_read] are called on a buffer
    that a read or a wait has just returned, so it is ready and unticketed. *)
Definition held (i : nat) (p : PreadPool) : Prop :=
  exists b, buffers p !! i = Some b /\ phase b = Ready /\
    forall t, ticket b = Some t -> t ∉ tickets p.
Definition op_allowed (op : pool_op) (p : PreadPool) : Prop :=
  match op with
  | ORead _ off _ | OSubmit _ off _ _ => (0 <= off)%Z
  | OBytes i len => held i p /\ len <= capacity p
  | OMarkH2d i _ | OMarkUnknown i | OAbort i => held i p
  | OWait _ | OCancel _ | OFallback => True
  end.

Inductive pool_reach (p0 : PreadPool) : PreadPool -> Prop :=
  | pool_reach_init : pool_reach p0 p0
  | pool_reach_step op p :
      pool_reach p0 p -> op_allowed op p -> pool_reach p0 (pool_exec op p).1.

(** No buffer a worker may still write is visible to the owner: its bytes are
    out of the pool, it is in no reusable phase, and no two requests share it;
    and a buffer that is offered for reuse has its allocation and no pending
    transfer. *)
Definition worker_exclusive (p : PreadPool) : Prop :=
  (forall r, r ∈ pool_reqs p -> exists b, buffers p !! rq_index r = Some b /\
     data b = None /\ in_flight (phase b) /\ ticket b = Some (rq_ticket r)) /\
  NoDup (map rq_index (pool_reqs p)) /\
  (forall i b, buffers p !! i = Some b -> phase b = Free ->
     is_Some (data b) /\ ready b = None /\ ticket b = None).

Lemma held_claimed G i p : pool_inv G p -> held i p -> exists x d,
  claimed p i x /\ length x = 0 /\ length d = capacity p /\
  exists b, buffers p !! i = Some b /\ data b = Some d.
Proof.
  intros H (b & Hb & Hp & Ht). pose proof (pinv_buf _ _ _ _ H Hb) as Hok.
  unfold phase_ok in Hok. rewrite Hp in Hok. destruct Hok as (_ & _ & d & Hd & Hl & _).
  exists [], d. split; [exists b, d; split_and!; try done; simpl; lia|]. eauto.
Qed.

Lemma pool_exclusive G p : pool_inv G p -> worker_exclusive p.
Proof.
  intros H. pose proof H as [Hc _ _]. split_and!.
  - intros r Hr. assert (Hin : req_id r ∈ out_ids (pool_reqs p) (pool_comps p)).
    { apply elem_of_app. left. by apply list_elem_of_fmap_2 with (f := req_id). }
    destruct (core_out _ _ _ _ _ _ _ _ _ Hc Hin) as (b & ? & ? & ? & ? & _). eauto 10.
  - assert (Hids : forall t t' i, (t, i) ∈ out_ids (pool_reqs p) (pool_comps p) ->
      (t', i) ∈ out_ids (pool_reqs p) (pool_comps p) -> t = t').
    { intros t t' i H1 H2. destruct (c_ids _ _ _ _ _ _ _ Hc _ _ H1) as (b & Hb & _ & Hbt).
      destruct (c_ids _ _ _ _ _ _ _ Hc _ _ H2) as (b' & Hb' & _ & Hbt'). congruence. }
    pose proof (c_nodup _ _ _ _ _ _ _ Hc) as Hnd. simpl in *. revert Hids Hnd. clear.
    unfold out_ids. generalize (map comp_id (pool_comps p)). intros cs.
    induction (pool_reqs p) as [|r rs IH]; intros Hids Hnd; simpl in *; [constructor|].
    apply NoDup_cons in Hnd as [Hn Hnd]. apply NoDup_cons. split.
    + intros (r' & Heq & Hin)%list_elem_of_fmap. apply Hn.
      assert (Hr' : req_id r' ∈ map req_id rs ++ cs).
      { apply elem_of_app. left. by apply list_elem_of_fmap_2 with (f := req_id). }
      apply list_elem_of_fmap. exists (req_id r'). split; [|done].
      apply (Hids _ _ (rq_index r)); [by left|]. right. rewrite Heq. exact Hr'.
    + apply IH; [|done]. intros t t' i H1 H2. apply (Hids t t' i); by right.
  - intros i b Hb Hp. pose proof (pinv_buf _ _ _ _ H Hb) as Hok. unfold phase_ok in Hok.
    rewrite Hp in Hok. destruct Hok as ((d & Hd & _) & ? & ? & _). split_and!; [by exists d|done..].
Qed.

Lemma wp_discard {A} (m : P A) (Q : A -> PreadPool -> Prop) (R : PreadPool -> Prop)
    (X : PoolErr -> PreadPool -> Prop) p :
  wp m Q X p -> (forall a p', Q a p' -> R p') -> (forall e p', X e p' -> R p') ->
  wp (discard m) (fun _ => R) (fun _ => R) p.
Proof.
  intros H HQ HX. unfold discard. wp_steps. eapply wp_mono; [exact H| |exact HX].
  intros a p' Ha. wp_steps. eauto.
Qed.

(** Every call keeps the invariant and does not panic; [G0] are tickets whose
    bytes are being tracked. *)
Definition pool_good (G0 : gmap Z (list Z)) (p : PreadPool) : Prop :=
  exists G, G0 ⊆ G /\ pool_inv G p /\ pool_live p = true.
Lemma pool_exec_good G0 op p :
  pool_good G0 p -> op_allowed op p ->
  wp (pool_exec op) (fun _ => pool_good G0) (fun _ => pool_good G0) p.
Proof.
  intros (G & HG0 & H & Hl) Ha.
  assert (Hst : forall p', pool_inv G p' /\ steady p p' -> pool_good G0 p').
  { intros p' [? Hs]. exists G. split; [done|]. split; [done|]. by rewrite (sd_live _ _ Hs). }
  destruct op as [f off len|f off len a|t|t|i len|i ev|i|i|]; simpl in *.
  -  eapply wp_discard; [by apply (wp_read f off len G)| |by eauto]. intros i p' [? _]. auto.
  - eapply wp_discard; [by apply (wp_submit f off len a G)| |by eauto].
    intros [t|] p'; simpl; [|by auto]. intros (? & HGt & ? & ? & ? & ? & ?).
    exists (<[t:=slice_at (contents f) off len]> G). split; [|done].
    etrans; [done|]. by apply insert_subseteq.
  - eapply wp_discard; [by apply (wp_wait_worker t G)| |].
    + intros i p' (? & ? & [? ?] & _). exists G. split_and!; [done|done|congruence].
    + intros i p' (? & ? & [? ?]). exists G. split_and!; [done|done|congruence].
  - eapply wp_discard; [by apply (wp_cancel_worker t G p (fun _ _ => False))| |done].
    intros i p' (? & ? & [? ?]). exists G. split_and!; [done|done|congruence].
  - destruct Ha as [Hh Hlen]. destruct Hh as (b & Hb & Hp & Ht).
    pose proof (pinv_buf _ _ _ _ H Hb) as Hok. unfold phase_ok in Hok. rewrite Hp in Hok.
    destruct Hok as (_ & _ & d & Hd & Hdl & _).
    assert (Hcl : claimed p i (take len d)).
    { assert (Htl : length (take len d) = len) by (rewrite length_take; lia).
      exists b, d. rewrite Htl. split_and!; try done. lia. }
    eapply wp_discard with (X := fun _ => pool_good G0).
    + pose proof (wp_bytes G p i _ (fun _ => pool_good G0) Hcl H) as Hw.
      rewrite length_take in Hw. replace (len `min` length d) with len in Hw by lia.
      apply Hw. intros w. exists G. split_and!; [done|by apply pinv_env|done].
    + intros ? ? (_ & w & ->). exists G. split_and!; [done|by apply pinv_env|done].
    + done.
  - destruct (held_claimed _ _ _ H Ha) as (x & _ & Hcl & _).
    eapply wp_discard; [by eapply (wp_mark_h2d G p i x ev (fun _ _ => False))| |done]. by intros ? ? ?; auto.
  - destruct (held_claimed _ _ _ H Ha) as (x & _ & Hcl & _).
    eapply wp_discard; [by eapply (wp_mark_unknown_h2d G p i x (fun _ _ => False))| |done]. by intros ? ? ?; auto.
  - destruct (held_claimed _ _ _ H Ha) as (x & _ & Hcl & _).
    eapply wp_discard; [by eapply (wp_abort_read G p i x (fun _ _ => False))| |done]. by intros ? ? ?; auto.
  - eapply wp_discard; [by eapply (wp_note_fallback G p (fun _ _ => False))| |done]. by intros ? ? ?; auto.
Qed.

Lemma pool_reach_good G0 p0 p : pool_good G0 p0 -> pool_reach p0 p -> pool_good G0 p.
Proof.
  intros H0. induction 1 as [|op p Hr IH Ha]; [done|].
  pose proof (pool_exec_good G0 op p IH Ha) as Hw. unfold wp in Hw.
  by destruct (pool_exec op p) as [p' [?|?|]].
Qed.

(** A pool as [try_new] builds it: the allocator's answers hold buffers of the
    requested size, and at least one buffer was requested. *)
Definition new_pool (answers : list (option (list Z))) (cap : nat) (p0 : PreadPool) : Prop :=
  answers <> [] /\ Forall (fun a => forall d, a = Some d -> length d = cap) answers /\
  exists spawned m w, try_new answers spawned cap m w = Ok p0.

Lemma new_pool_good answers cap p0 p :
  new_pool answers cap p0 -> pool_reach p0 p -> pool_good ∅ p.
Proof.
  intros (Hne & Hall & spawned & m & w & Hn) Hr. eapply pool_reach_good; [|done].
  destruct (try_new_inv _ _ _ _ _ _ Hn Hne Hall) as (? & ? & _). by exists ∅.
Qed.

(** C2. In every state the owner's calls can reach, whatever the workers, the
    kernel and CUDA do in between, the bytes a worker may still write are out of
    the owner's reach: its buffer is in no reusable phase and belongs to no
    other request; a free buffer has its allocation and no pending transfer.
    And no call panics or blocks for ever. *)
Theorem pool_safe (answers : list (option (list Z))) (cap : nat) (p0 p : PreadPool) :
  new_pool answers cap p0 -> pool_reach p0 p ->
  worker_exclusive p /\ forall op, op_allowed op p -> (pool_exec op p).2 <> Panic.
Proof.
  intros Hn Hr. pose proof (new_pool_good _ _ _ _ Hn Hr) as Hg. split.
  - destruct Hg as (G & _ & H & _). by eapply pool_exclusive.
  - intros op Ha. pose proof (pool_exec_good ∅ op p Hg Ha) as Hw. unfold wp in Hw.
    by destruct (pool_exec op p) as [p' [?|?|]].
Qed.

(** C3. A worker read delivers exactly the extent it was submitted for: after
    any calls in between, waiting for the ticket returns, and if it returns a
    buffer then that buffer's bytes are the file's. *)
Theorem worker_read_exact (answers : list (option (list Z))) (cap : nat) (p0 p p1 p2 : PreadPool)
    (f : file) (off : Z) (len : nat) (a : WorkerAdmission) (t : Z) :
  new_pool answers cap p0 -> pool_reach p0 p ->
  (0 <= off)%Z -> (off + Z.of_nat len <= Z.of_nat (length (contents f)))%Z ->
  submit_worker_with_admission f off len a p = (p1, Ok (Some t)) ->
  pool_reach p1 p2 ->
  exists p3 r, wait_worker t p2 = (p3, r) /\ r <> Panic /\
    forall i, r = Ok i -> exists p4,
      bytes i len p3 = (p4, Ok (slice_at (contents f) off len)) \/
      bytes i len p3 = (p4, Err EPinned).
Proof.
  intros Hn Hr Hoff Hext Hs Hr2.
  destruct (new_pool_good _ _ _ _ Hn Hr) as (G & _ & H & Hl).
  pose proof (wp_submit f off len a G p H Hl Hoff) as Hsub. unfold wp in Hsub. rewrite Hs in Hsub.
  destruct Hsub as (H1 & _ & _ & _ & _ & Hl1 & _). set (x := slice_at (contents f) off len) in *.
  assert (Hg2 : pool_good {[ t := x ]} p2).
  { eapply pool_reach_good; [|exact Hr2]. exists (<[t := x]> G). split; [|done].
    apply map_singleton_subseteq_l. apply lookup_insert_eq. }
  destruct Hg2 as (G2 & Hsub & H2 & Hl2). apply map_singleton_subseteq_l in Hsub.
  pose proof (wp_wait_worker t G2 p2 H2) as Hw. unfold wp in Hw.
  destruct (wait_worker t p2) as [p3 r] eqn:Hwt. exists p3, r. split; [done|].
  destruct r as [i|e|]; [|by split|done]. split; [done|]. intros ? [= <-].
  destruct Hw as (H3 & _ & _ & Hcl). specialize (Hcl x Hsub).
  pose proof (wp_bytes G2 p3 i x (fun e _ => e = EPinned) Hcl H3 ltac:(done)) as Hb.
  unfold x in Hb at 1. rewrite slice_at_length in Hb by done. unfold wp in Hb.
  destruct (bytes i len p3) as [p4 [y|e|]]; [| |done]; exists p4.
  - left. by destruct Hb as [-> _].
  - right. by rewrite Hb.
Qed.

(** Speculative prefetch never takes the last pinned buffer: after an
    accepted speculative submission a demand miss still finds one free. *)
Theorem speculative_reserve (answers : list (option (list Z))) (cap : nat) (p0 p p' : PreadPool)
    (f : file) (off : Z) (len : nat) (t : Z) :
  new_pool answers cap p0 -> pool_reach p0 p -> (0 <= off)%Z ->
  submit_worker_speculative f off len p = (p', Ok (Some t)) -> 1 <= count_free (buffers p').
Proof.
  intros Hn Hr Hoff Hs. destruct (new_pool_good _ _ _ _ Hn Hr) as (G & _ & H & Hl).
  pose proof (wp_submit f off len Speculative G p H Hl Hoff) as Hsub. unfold wp in Hsub.
  unfold submit_worker_speculative in Hs. rewrite Hs in Hsub.
  by destruct Hsub as (_ & _ & _ & _ & ? & _).
Qed.

(** C4. Teardown returns; afterwards either every transfer is proved over and
    every buffer is free with its allocation, or every allocation is leaked. *)
Theorem drain_safe (answers : list (option (list Z))) (cap : nat) (p0 p : PreadPool) :
  new_pool answers cap p0 -> pool_reach p0 p ->
  exists p' ok, drain p = (p', Ok ok) /\
    if ok : bool then tickets p' = ∅ /\ Forall (drained (capacity p)) (buffers p')
    else Forall (fun b => data b = None) (buffers p').
Proof.
  intros Hn Hr. destruct (new_pool_good _ _ _ _ Hn Hr) as (G & _ & H & Hl).
  pose proof (wp_drain G p (fun _ _ => False) H) as Hw. unfold wp in Hw.
  destruct (drain p) as [p' [ok|e|]]; [|done|done]. exists p', ok. split; [done|]. apply Hw.
Qed.

End Pool.

(** An exact positioned read, for every way the kernel may split or
    interrupt it: without a read error it returns, with exactly the file's bytes
    when the extent lies in the file and with an end-of-file error when not. *)
Theorem pread_exact_total (c : list Z) (answers : list read_answer) (dst : list Z) (off : Z) :
  (0 <= off)%Z -> (Z.of_nat (length c) <= u_max 64)%Z ->
  served c answers (length dst) off -> RdErr ∉ answers -> dst <> [] ->
  if (off + Z.of_nat (length dst) <=? Z.of_nat (length c))%Z
  then pread_exact_at c answers dst off = Some (slice_at c off (length dst), Ok tt)
  else exists d, pread_exact_at c answers dst off = Some (d, Err ShortRead).
Proof.
  intros Hoff Hc Hs Hne Hd.
  destruct (pread_exact_at_spec c answers dst off Hoff Hc Hs) as (d & r & -> & Hl & Hr).
  destruct (Z.leb_spec (off + Z.of_nat (length dst)) (Z.of_nat (length c))).
  - destruct r as [[]|[]|]; try done; [by destruct Hr as [-> _]|lia].
  - destruct r as [[]|[]|]; try done; [|by eauto]. destruct Hr as [_ [?|?]]; [done|lia].
Qed.
Lemma pread_exact_total_witness :
  pread_exact_at [10; 11; 12; 13; 14]%Z [RdInterrupted; RdOk 1; RdOk 2] [0; 0; 0]%Z 1
    = Some ([11; 12; 13]%Z, Ok tt).
Proof.
  refine (pread_exact_total [10; 11; 12; 13; 14]%Z [RdInterrupted; RdOk 1; RdOk 2] [0; 0; 0]%Z 1
    _ _ _ _ _).
  - lia.
  - vm_compute. discriminate.
  - cbn. repeat split; lia.
  - intros H. repeat (apply elem_of_cons in H as [H|H]; [discriminate H|]). by apply not_elem_of_nil in H.
  - discriminate.
Defined.

(** * A concrete environment

    One file of six bytes, read in full whenever it can be; workers take and
    finish a request at every turn; CUDA events are complete. *)
Module Toy.
Definition disk : list Z := [10; 11; 12; 13; 14; 15]%Z.
Definition available (off : Z) (n : nat) : nat := min n (Z.to_nat (Z.max 0 (6 - off))).
Definition answers (off : Z) (n : nat) : list read_answer :=
  if available off n =? n then [RdOk n]
  else if available off n =? 0 then [RdOk 0] else [RdOk (available off n); RdOk 0].

#[export] Instance toy_os : Os := {
  world := nat;
  file := unit;
  contents _ := disk;
  os_reads w _ off n := (answers off n, S w);
  os_metadata w _ := (Some (0, 0)%Z, S w);
  os_fadvise w _ := (true, S w);
  os_open_direct w _ := (Some tt, S w);
  os_pin w := (true, S w);
  os_event_complete w _ := (true, S w);
  os_event_sync w _ := (true, S w);
  os_stream_sync w := (true, S w);
  os_sched w := ([true; false], S w);
  os_pick w := (0, S w);
}.

Lemma toy_served (n : nat) (off : Z) : served disk (answers off n) n off.
Proof.
  destruct n as [|n]; [done|]. unfold answers, available.
  set (k := S n `min` _). assert (Hk : (Z.of_nat k <= Z.max 0 (6 - off))%Z) by lia.
  assert (k <= S n) by lia.
  destruct (Nat.eqb_spec k (S n)) as [Heq|Hne]; [|destruct (Nat.eqb_spec k 0) as [Hz|Hz]].
  - simpl. split; [lia|]. split; [lia|]. split; [done|]. by rewrite Nat.sub_diag.
  - simpl. split; [lia|]. split; [lia|]. split; [|done]. intros _. lia.
  - cbn [served]. split; [done|]. split; [simpl; lia|]. split; [done|]. intros _.
    destruct (S n - k) as [|m] eqn:Hm; [done|]. split; [lia|]. split; [lia|].
    split; [|done]. intros _. simpl. lia.
Qed.
#[export] Instance toy_laws : OsLaws.
Proof.
  split; [intros; apply toy_served|by intros; vm_compute|done].
Qed.

Definition buf : list Z := [0; 0; 0; 0]%Z.
Definition pool0 : PreadPool :=
  mkPool [mkBuffer (Some buf) Free None None None; mkBuffer (Some buf) Free None None None]
    4 no_stats Worker (Some (mkWorkers true 2 [] [] [])) 1 ∅ ∅ ∅ 0.
Lemma pool0_new : new_pool [Some buf; Some buf] 4 pool0.
Proof.
  split; [done|]. split; [by repeat constructor; intros ? [= <-]|].
  by exists true, Worker, 0.
Qed.
Definition submitted1 : PreadPool := (pool_exec (OSubmit (os:=toy_os) tt 2 3 Speculative) pool0).1.
Lemma submitted1_reach : pool_reach pool0 submitted1.
Proof. apply (pool_reach_step _ (OSubmit (os:=toy_os) tt 2 3 Speculative)); [constructor|simpl; lia]. Qed.
End Toy.
Import Toy.

Lemma pool_safe_witness :
  worker_exclusive submitted1 /\ forall op, op_allowed op submitted1 -> (pool_exec op submitted1).2 <> Panic.
Proof. exact (pool_safe _ 4 _ _ pool0_new submitted1_reach). Defined.

Lemma worker_read_exact_witness :
  exists p3 r, wait_worker 1 submitted1 = (p3, r) /\ r <> Panic /\
    forall i, r = Ok i -> exists p4,
      bytes i 3 p3 = (p4, Ok (slice_at disk 2 3)) \/ bytes i 3 p3 = (p4, Err EPinned).
Proof.
  refine (worker_read_exact _ 4 pool0 pool0 submitted1 submitted1 tt 2 3 Speculative 1
    pool0_new _ _ _ _ _).
  - constructor.
  - lia.
  - vm_compute. discriminate.
  - vm_compute. reflexivity.
  - constructor.
Defined.

Lemma speculative_reserve_witness : 1 <= count_free (buffers submitted1).
Proof.
  refine (speculative_reserve _ 4 pool0 pool0 submitted1 tt 2 3 1 pool0_new _ _ _).
  - constructor.
  - lia.
  - vm_compute. reflexivity.
Defined.

Lemma drain_safe_witness :
  exists p' ok, drain submitted1 = (p', Ok ok) /\
    if ok : bool then tickets p' = ∅ /\ Forall (drained (capacity submitted1)) (buffers p')
    else Forall (fun b => data b = None) (buffers p').
Proof. exact (drain_safe _ 4 _ _ pool0_new submitted1_reach). Defined.
