(* ===== verification/F32.v ===== *)
(** IEEE-754 binary32/binary64 arithmetic, as Rust's [f32]/[f64] operators:
    round-to-nearest-even on [spec_float].  The sign and payload of a NaN are not
    represented (Rust leaves them unspecified). *)
From Stdlib Require Import ZArith SpecFloat.
From S2P Require Import Prelude.

Definition f32_add : spec_float -> spec_float -> spec_float := SFadd 24 128.
Definition f32_mul : spec_float -> spec_float -> spec_float := SFmul 24 128.
Definition f64_add : spec_float -> spec_float -> spec_float := SFadd 53 1024.
Definition f64_mul : spec_float -> spec_float -> spec_float := SFmul 53 1024.
Definition f64_div : spec_float -> spec_float -> spec_float := SFdiv 53 1024.
Definition f32_sub : spec_float -> spec_float -> spec_float := SFsub 24 128.
Definition f32_div : spec_float -> spec_float -> spec_float := SFdiv 24 128.
(** [z as f32] of an integer; [2f32.powi(k)] (exact on a power of two). *)
Definition f32_of_int (z : Z) : spec_float := binary_normalize 24 128 z 0 false.
Definition f32_pow2 (k : Z) : spec_float := binary_normalize 24 128 1 k false.
(** [f32::from_bits], [f32::to_bits] (of the canonical NaN). *)
Definition f32_from_bits (b : Z) : spec_float :=
  let s := Z.testbit b 31 in
  let e := Z.land (Z.shiftr b 23) 255 in
  let m := Z.land b 8388607 in
  if (e =? 255)%Z then (if (m =? 0)%Z then S754_infinity s else S754_nan)
  else match (if (e =? 0)%Z then m else m + 8388608)%Z with
       | Zpos p => S754_finite s p (Z.max e 1 - 150)
       | _ => S754_zero s
       end.
Definition f32_to_bits (x : spec_float) : Z :=
  let sgn (s : bool) : Z := if s then (2 ^ 31)%Z else 0%Z in
  match x with
  | S754_zero s => sgn s
  | S754_infinity s => (sgn s + 255 * 2 ^ 23)%Z
  | S754_nan => (255 * 2 ^ 23 + 2 ^ 22)%Z
  | S754_finite s m e =>
      if (Zpos m <? 2 ^ 23)%Z then (sgn s + Zpos m)%Z
      else (sgn s + (e + 150) * 2 ^ 23 + (Zpos m - 2 ^ 23))%Z
  end.
Definition f_abs : spec_float -> spec_float := SFabs.
Definition f_neg : spec_float -> spec_float := SFopp.

#[export] Instance spec_float_eq_dec : EqDecision spec_float.
Proof. solve_decision. Defined.
Definition same_float (a b : spec_float) : bool := bool_decide (a = b).
Lemma same_float_eq a b : same_float a b = true -> a = b.
Proof. apply bool_decide_eq_true_1. Qed.
Definition f32_zero : spec_float := S754_zero false.
Definition f32_one : spec_float := S754_finite false 8388608 (-23).
(** [1.0e-3_f32] *)
Definition f32_milli : spec_float := S754_finite false 8589935 (-33).

(** [a >= b]: false when either is a NaN. *)
Definition f_ge (a b : spec_float) : bool := SFleb b a.
Definition f_lt : spec_float -> spec_float -> bool := SFltb.
Definition f_gt (a b : spec_float) : bool := SFltb b a.
(** [f32::max]: a NaN is ignored. *)
Definition f_max (a b : spec_float) : spec_float :=
  match a, b with
  | S754_nan, _ => b
  | _, S754_nan => a
  | _, _ => if SFltb a b then b else a
  end.

(** [total_cmp]: like the numeric order, with -0 below +0 and the (positive)
    NaN above everything. *)
Definition total_cmp (a b : spec_float) : comparison :=
  match a, b with
  | S754_nan, S754_nan => Eq
  | S754_nan, _ => Gt
  | _, S754_nan => Lt
  | S754_zero sa, S754_zero sb =>
      match sa, sb with true, false => Lt | false, true => Gt | _, _ => Eq end
  | _, _ => match SFcompare a b with Some c => c | None => Eq end
  end.

(** ** [total_cmp] is a total preorder *)

(** Its key: the kind of float, then exponent and mantissa, mirrored below 0. *)
Definition float_key (a : spec_float) : Z * Z * Z :=
  match a with
  | S754_infinity true => (-3, 0, 0)
  | S754_finite true m e => (-2, - e, - Zpos m)
  | S754_zero true => (-1, 0, 0)
  | S754_zero false => (0, 0, 0)
  | S754_finite false m e => (1, e, Zpos m)
  | S754_infinity false => (2, 0, 0)
  | S754_nan => (3, 0, 0)
  end%Z.
Definition key_le (a b : Z * Z * Z) : Prop :=
  (a.1.1 < b.1.1 \/ a.1.1 = b.1.1 /\ (a.1.2 < b.1.2 \/ a.1.2 = b.1.2 /\ a.2 <= b.2))%Z.
(** Never above: [total_cmp a b != Greater]. *)
Definition float_le (a b : spec_float) : Prop := total_cmp a b <> Gt.

Lemma key_le_trans a b c : key_le a b -> key_le b c -> key_le a c.
Proof. unfold key_le. lia. Qed.
(** A comparison is what the keys say. *)
Lemma total_cmp_key (a b : spec_float) :
  match total_cmp a b with
  | Lt => key_le (float_key a) (float_key b) /\ ~ key_le (float_key b) (float_key a)
  | Eq => key_le (float_key a) (float_key b) /\ key_le (float_key b) (float_key a)
  | Gt => ~ key_le (float_key a) (float_key b) /\ key_le (float_key b) (float_key a)
  end.
Proof.
  unfold key_le.
  destruct a as [[]|[]| |[] ma ea], b as [[]|[]| |[] mb eb]; simpl; try lia; unfold SFcompare.
  - destruct (Z.compare_spec ea eb); simpl; try lia.
    change (Pos.compare_cont Eq ma mb) with (Pos.compare ma mb).
    destruct (Pos.compare_spec ma mb); simpl; lia.
  - destruct (Z.compare_spec ea eb); simpl; try lia.
    change (Pos.compare_cont Eq ma mb) with (Pos.compare ma mb).
    destruct (Pos.compare_spec ma mb); simpl; lia.
Qed.
Lemma float_le_key (a b : spec_float) : float_le a b <-> key_le (float_key a) (float_key b).
Proof. pose proof (total_cmp_key a b) as H. unfold float_le. destruct (total_cmp a b); intuition congruence. Qed.
Lemma float_le_trans a b c : float_le a b -> float_le b c -> float_le a c.
Proof. rewrite !float_le_key. apply key_le_trans. Qed.
Lemma float_le_refl a : float_le a a.
Proof. apply float_le_key. unfold key_le. lia. Qed.
Lemma total_cmp_not_lt a b : total_cmp a b <> Lt -> float_le b a.
Proof.
  intros H. apply float_le_key. pose proof (total_cmp_key a b) as Hk.
  destruct (total_cmp a b); intuition congruence.
Qed.

(** [a < b] as the key of [total_cmp]: numbers, both zeros alike. *)
Definition num_key (a : spec_float) : Z * Z * Z := match a with S754_zero _ => (0, 0, 0)%Z | _ => float_key a end.
Lemma SFcompare_key x y : x <> S754_nan -> y <> S754_nan ->
  match SFcompare x y with
  | Some Lt => key_le (num_key x) (num_key y) /\ ~ key_le (num_key y) (num_key x)
  | Some Eq => num_key x = num_key y
  | Some Gt => key_le (num_key y) (num_key x) /\ ~ key_le (num_key x) (num_key y)
  | None => False
  end.
Proof.
  unfold key_le. destruct x as [[]|[]| |[] m e], y as [[]|[]| |[] m' e']; try done; intros _ _; simpl; try lia; unfold SFcompare.
  all: destruct (Z.compare_spec e e'); simpl; try lia; subst;
    change (Pos.compare_cont Eq ?a ?b) with (Pos.compare a b); destruct (Pos.compare_spec m m'); simpl; try lia; by subst.
Qed.
Lemma SFltb_leb_trans x y z : SFltb x y = true -> SFleb y z = true -> SFltb x z = true.
Proof.
  unfold SFltb, SFleb. intros Hxy Hyz.
  assert (Hx : x <> S754_nan) by (by intros ->).
  assert (Hy : y <> S754_nan) by (by intros ->).
  assert (Hz : z <> S754_nan) by (intros ->; by destruct y as [[]|[]| |[]]).
  pose proof (SFcompare_key x y Hx Hy) as H1. pose proof (SFcompare_key y z Hy Hz) as H2. pose proof (SFcompare_key x z Hx Hz) as H3.
  unfold key_le in *. destruct (SFcompare x y) as [[]|]; try done. destruct (SFcompare y z) as [[]|]; try done;
    destruct (SFcompare x z) as [[]|]; try done; try rewrite H2 in *; try rewrite H3 in *; lia.
Qed.
(** What [total_cmp] ranks no higher, [<] does not rank higher. *)
Lemma float_le_not_lt x y : float_le y x -> SFltb x y = false.
Proof.
  intros H. destruct (SFltb x y) eqn:E; [|done]. exfalso. apply float_le_key in H. unfold SFltb in E.
  assert (x <> S754_nan) by (by intros ->). assert (y <> S754_nan) by (intros ->; by destruct x as [[]|[]| |[]]).
  pose proof (SFcompare_key x y) as Hk. unfold key_le in *.
  destruct x as [[]|[]| |[] m e], y as [[]|[]| |[] m' e']; try done; simpl in *; try lia; unfold SFcompare in *;
    repeat case_match; simpl in *; try done; specialize (Hk ltac:(done) ltac:(done)); lia.
Qed.
Lemma SFltb_irrefl x : SFltb x x = false.
Proof. apply float_le_not_lt, float_le_refl. Qed.
Lemma SFltb_nan_l x y : SFltb x y = true -> x <> S754_nan /\ y <> S754_nan.
Proof. intros H. split; intros ->; [done|]. by destruct x as [[]|[]| |[]]. Qed.
Lemma SFltb_trans x y z : SFltb x y = true -> SFltb y z = true -> SFltb x z = true.
Proof.
  intros H1 H2. eapply SFltb_leb_trans; [done|]. revert H2. unfold SFltb, SFleb. by destruct (SFcompare y z) as [[]|].
Qed.
Lemma SFltb_total x y : x <> S754_nan -> y <> S754_nan -> SFltb x y = false -> SFleb y x = true.
Proof.
  intros Hx Hy H. pose proof (SFcompare_key x y Hx Hy) as H1. pose proof (SFcompare_key y x Hy Hx) as H2.
  unfold SFltb, SFleb, key_le in *. destruct (SFcompare x y) as [[]|]; try done;
    destruct (SFcompare y x) as [[]|]; try done; try rewrite H1 in *; lia.
Qed.
