(* ===== verification/Slices.v ===== *)
(** Vectors written by index in counted loops.

    Rust's [out[i] = v], [s[a..a+n]] and [copy_from_slice] panic out of range:
    they are functions to [option].  [fills N dom F m] says that the computation
    [m] on a vector of length [N] does not panic and writes exactly the positions
    [dom], position [p] with [F p]; it composes over sequences and loops, so a
    nest of loops is specified by the element it leaves at each position. *)
From S2P Require Import Prelude.
Local Open Scope nat_scope.

(** ** Operations *)
Section Ops.
Context {A S : Type}.
Implicit Types l out : list A.

(** [out[i] = v] *)
Definition set_at (i : nat) (v : A) out : option (list A) :=
  if i <? length out then Some (<[i := v]> out) else None.
(** [&l[off..off + n]] *)
Definition slice (off n : nat) l : option (list A) :=
  if off + n <=? length l then Some (take n (drop off l)) else None.
(** [out[off..off + src.len()].copy_from_slice(src)] *)
Definition copy_at (off : nat) (src : list A) out : option (list A) :=
  if off + length src <=? length out then Some (take off out ++ src ++ drop (off + length src) out) else None.
(** [for k in 0..n { s = f(k, s) }]: [None] is a panic. *)
Fixpoint for_from (k n : nat) (f : nat -> S -> option S) (s : S) : option S :=
  match n with O => Some s | Datatypes.S n => s ← f k s; for_from (Datatypes.S k) n f s end.
Definition for_range (n : nat) (f : nat -> S -> option S) : S -> option S := for_from 0 n f.
End Ops.

(** ** Lookups *)
Section Lookups.
Context {A : Type}.
Implicit Types l out src : list A.

Lemma slice_Some off n l : off + n <= length l ->
  exists s, slice off n l = Some s /\ length s = n /\ forall i, i < n -> s !! i = l !! (off + i).
Proof.
  intros H. unfold slice. rewrite (proj2 (Nat.leb_le _ _) H). eexists. split; [done|].
  split; [rewrite length_take, length_drop; lia|]. intros i Hi. by rewrite lookup_take_lt, lookup_drop.
Qed.
Lemma slice_inv off n l s : slice off n l = Some s ->
  off + n <= length l /\ length s = n /\ forall i, i < n -> s !! i = l !! (off + i).
Proof.
  unfold slice. destruct (Nat.leb_spec (off + n) (length l)); [|done]. intros [= <-]. split; [done|].
  split; [rewrite length_take, length_drop; lia|]. intros i Hi. by rewrite lookup_take_lt, lookup_drop.
Qed.
Lemma copy_at_Some off src out : off + length src <= length out ->
  exists o, copy_at off src out = Some o /\ length o = length out /\
    forall p, o !! p = if (off <=? p) && (p <? off + length src) then src !! (p - off) else out !! p.
Proof.
  intros H. unfold copy_at. rewrite (proj2 (Nat.leb_le _ _) H). eexists. split; [done|].
  split; [rewrite !length_app, length_take, length_drop; lia|]. intros p.
  destruct (Nat.leb_spec off p), (Nat.ltb_spec p (off + length src)); cbn.
  - rewrite lookup_app_r by (rewrite length_take; lia). rewrite length_take, lookup_app_l by lia. f_equal. lia.
  - rewrite lookup_app_r by (rewrite length_take; lia). rewrite length_take, lookup_app_r by lia.
    rewrite lookup_drop. f_equal. lia.
  - rewrite lookup_app_l by (rewrite length_take; lia). by rewrite lookup_take_lt by lia.
  - lia.
Qed.
End Lookups.

(** ** Loops *)
Section Loops.
Context {S : Type}.

Lemma for_from_inv (P : nat -> S -> Prop) (f : nat -> S -> option S) n : forall k s,
  P k s ->
  (forall i s, k <= i < k + n -> P i s -> exists s', f i s = Some s' /\ P (Datatypes.S i) s') ->
  exists s', for_from k n f s = Some s' /\ P (k + n) s'.
Proof.
  induction n as [|n IH]; intros k s H0 Hf; cbn.
  - exists s. split; [done|]. by rewrite Nat.add_0_r.
  - destruct (Hf k s ltac:(lia) H0) as (s1 & -> & H1). cbn.
    destruct (IH (Datatypes.S k) s1 H1) as (s2 & ? & ?).
    { intros i s' Hi. apply Hf. lia. }
    exists s2. split; [done|]. by replace (k + Datatypes.S n) with (Datatypes.S k + n) by lia.
Qed.
(** The loop rule: [P k] holds before iteration [k], which does not panic. *)
Lemma for_range_inv (P : nat -> S -> Prop) (f : nat -> S -> option S) n s :
  P 0 s -> (forall i s, i < n -> P i s -> exists s', f i s = Some s' /\ P (Datatypes.S i) s') ->
  exists s', for_range n f s = Some s' /\ P n s'.
Proof. intros H0 Hf. apply (for_from_inv P f n 0 s H0). intros i s' Hi. apply Hf. lia. Qed.
Lemma for_from_ext (f g : nat -> S -> option S) n : forall k s,
  (forall i s, k <= i < k + n -> f i s = g i s) -> for_from k n f s = for_from k n g s.
Proof.
  induction n as [|n IH]; intros k s H; cbn; [done|].
  rewrite H by lia. destruct (g k s); cbn; [|done]. apply IH. intros i s' Hi. apply H. lia.
Qed.
Lemma for_range_ext (f g : nat -> S -> option S) n s :
  (forall i s, i < n -> f i s = g i s) -> for_range n f s = for_range n g s.
Proof. intros H. apply for_from_ext. intros i s' Hi. apply H. lia. Qed.
End Loops.

(** ** Footprints *)
Section Fills.
Context {A : Type} (N : nat) (F : nat -> A).
Implicit Types (dom : nat -> bool) (m : list A -> option (list A)).

Definition fills dom m : Prop :=
  forall l, length l = N -> exists l', m l = Some l' /\ length l' = N /\
    forall p, p < N -> l' !! p = if dom p then Some (F p) else l !! p.

Lemma fills_id : fills (fun _ => false) Some.
Proof. intros l Hl. exists l. auto. Qed.
Lemma fills_ext dom1 dom2 m : (forall p, p < N -> dom1 p = dom2 p) -> fills dom1 m -> fills dom2 m.
Proof.
  intros He H l Hl. destruct (H l Hl) as (l' & ? & ? & Hp). exists l'. split; [done|]. split; [done|].
  intros p Hlt. rewrite <- He by done. auto.
Qed.
Lemma fills_set i : i < N -> fills (fun p => p =? i) (set_at i (F i)).
Proof.
  intros Hi l Hl. unfold set_at. rewrite (proj2 (Nat.ltb_lt i (length l))) by lia.
  eexists. split; [done|]. split; [by rewrite length_insert|]. intros p Hp.
  destruct (Nat.eqb_spec p i) as [->|Hne].
  - by rewrite list_lookup_insert_eq by lia.
  - by rewrite list_lookup_insert_ne by done.
Qed.
Lemma fills_set_eq i v : i < N -> v = F i -> fills (fun p => p =? i) (set_at i v).
Proof. intros Hi ->. by apply fills_set. Qed.
Lemma fills_copy off src : off + length src <= N ->
  (forall i, i < length src -> src !! i = Some (F (off + i))) ->
  fills (fun p => (off <=? p) && (p <? off + length src)) (copy_at off src).
Proof.
  intros Ho Hs l Hl. destruct (copy_at_Some off src l ltac:(lia)) as (o & -> & Hlen & Hlk).
  exists o. split; [done|]. split; [lia|]. intros p Hp. rewrite Hlk.
  destruct (Nat.leb_spec off p), (Nat.ltb_spec p (off + length src)); cbn; try done.
  rewrite Hs by lia. do 2 f_equal. lia.
Qed.
Lemma fills_copy_n off n src : length src = n -> off + n <= N ->
  (forall i, i < n -> src !! i = Some (F (off + i))) ->
  fills (fun p => (off <=? p) && (p <? off + n)) (copy_at off src).
Proof. intros <-. apply fills_copy. Qed.
Lemma fills_seq dom1 dom2 m1 m2 : fills dom1 m1 -> fills dom2 m2 ->
  fills (fun p => dom1 p || dom2 p) (fun l => l ← m1 l; m2 l).
Proof.
  intros H1 H2 l Hl. destruct (H1 l Hl) as (l1 & -> & Hl1 & Hp1). cbn.
  destruct (H2 l1 Hl1) as (l2 & -> & Hl2 & Hp2). exists l2. split; [done|]. split; [done|].
  intros p Hp. rewrite Hp2, Hp1 by done. by destruct (dom1 p), (dom2 p).
Qed.
Lemma fills_for_from (dom : nat -> nat -> bool) f n : forall k,
  (forall i, k <= i < k + n -> fills (dom i) (f i)) ->
  fills (fun p => existsb (fun i => dom i p) (seq k n)) (for_from k n f).
Proof.
  induction n as [|n IH]; intros k Hf; cbn.
  - apply fills_id.
  - apply (fills_seq (dom k) _ (f k)); [apply Hf; lia|]. apply IH. intros i Hi. apply Hf. lia.
Qed.
Lemma fills_for (dom : nat -> nat -> bool) f n :
  (forall i, i < n -> fills (dom i) (f i)) ->
  fills (fun p => existsb (fun i => dom i p) (seq 0 n)) (for_range n f).
Proof. intros Hf. apply fills_for_from. intros i Hi. apply Hf. lia. Qed.

Lemma fills_all dom m l : fills dom m -> length l = N ->
  (forall p, p < N -> dom p = true \/ l !! p = Some (F p)) -> m l = Some (F <$> seq 0 N).
Proof.
  intros H Hl Hd. destruct (H l Hl) as (l' & -> & Hl' & Hp). f_equal. apply list_eq. intros p.
  destruct (decide (p < N)) as [Hlt|Hge].
  - rewrite Hp, list_lookup_fmap, lookup_seq_lt by done. cbn. destruct (Hd p Hlt) as [->|E]; [done|].
    rewrite E. by destruct (dom p).
  - rewrite !lookup_ge_None_2; [done| |lia]. rewrite length_fmap, length_seq. lia.
Qed.
End Fills.

(** Membership in a loop's footprint. *)
Lemma existsb_seq (dom : nat -> bool) n i : i < n -> dom i = true -> existsb dom (seq 0 n) = true.
Proof. intros Hi Hd. apply existsb_exists. exists i. split; [|done]. apply in_seq. lia. Qed.
Lemma existsb_seq_interval (off w n p : nat) :
  existsb (fun i => (off + i * w <=? p) && (p <? off + i * w + w)) (seq 0 n) = (off <=? p) && (p <? off + n * w).
Proof.
  apply eq_true_iff_eq. rewrite existsb_exists. split.
  - intros (i & Hi & H). apply in_seq in Hi. cbv beta in H. rewrite andb_true_iff, Nat.leb_le, Nat.ltb_lt in *.
    pose proof (Nat.mul_le_mono_r (i + 1) n w ltac:(lia)). lia.
  - intros H. rewrite andb_true_iff, Nat.leb_le, Nat.ltb_lt in H. exists ((p - off) / w). assert (w <> 0) by (intros ->; lia). pose proof (Nat.div_mod (p - off) w ltac:(lia)).
    pose proof (Nat.mod_upper_bound (p - off) w ltac:(lia)). split; [|rewrite andb_true_iff, Nat.leb_le, Nat.ltb_lt; lia].
    apply in_seq. split; [lia|]. apply Nat.Div0.div_lt_upper_bound. lia.
Qed.

(** ** Mutable sub-slices: [f(&mut out[off..off + n])] *)
Section Sub.
Context {A : Type}.
Implicit Types out : list A.
Definition with_slice (off n : nat) (f : list A -> option (list A)) out : option (list A) :=
  s ← slice off n out; s' ← f s; copy_at off s' out.

Lemma fills_sub (N : nat) (F : nat -> A) off n dom f :
  off + n <= N -> fills n (fun i => F (off + i)) dom f ->
  fills N F (fun p => (off <=? p) && (p <? off + n) && dom (p - off)) (with_slice off n f).
Proof.
  intros Ho Hf l Hl. unfold with_slice.
  destruct (slice_Some off n l ltac:(lia)) as (s & -> & Hs & Hlk). cbn [mbind option_bind].
  destruct (Hf s Hs) as (s' & -> & Hs' & Hp). cbn [mbind option_bind].
  destruct (copy_at_Some off s' l ltac:(lia)) as (o & -> & Hlo & Hlko).
  exists o. split; [done|]. split; [lia|]. intros p Hlt. rewrite Hlko, Hs'. cbv beta.
  destruct ((off <=? p) && (p <? off + n)) eqn:E; [|done].
  apply andb_true_iff in E as [E1%Nat.leb_le E2%Nat.ltb_lt].
  rewrite Hp by lia. rewrite Hlk by lia. by replace (off + (p - off)) with p by lia.
Qed.
(** A sub-slice written whole. *)
Lemma fills_sub_all (N : nat) (F : nat -> A) off n dom f :
  off + n <= N -> fills n (fun i => F (off + i)) dom f -> (forall i, i < n -> dom i = true) ->
  fills N F (fun p => (off <=? p) && (p <? off + n)) (with_slice off n f).
Proof.
  intros Ho Hf Hd. eapply fills_ext; [|by apply fills_sub]. intros p _. cbv beta.
  destruct ((off <=? p) && (p <? off + n)) eqn:E; [|done].
  apply andb_true_iff in E as [E1%Nat.leb_le E2%Nat.ltb_lt]. apply Hd. lia.
Qed.
(** Chunks of one width, in a loop. *)
Lemma fills_chunks (N : nat) (F : nat -> A) off w n f :
  off + n * w <= N ->
  (forall i, i < n -> fills N F (fun p => (off + i * w <=? p) && (p <? off + i * w + w)) (f i)) ->
  fills N F (fun p => (off <=? p) && (p <? off + n * w)) (for_range n f).
Proof.
  intros Hn Hf. eapply fills_ext; [|exact (fills_for N F (fun i p => (off + i * w <=? p) && (p <? off + i * w + w)) f n Hf)].
  intros p _. by apply existsb_seq_interval.
Qed.
End Sub.

Lemma in_interval (a b p : nat) : (a <=? p) && (p <? b) = true <-> a <= p < b.
Proof. rewrite andb_true_iff, Nat.leb_le, Nat.ltb_lt. done. Qed.
(** Quotient and remainder of an offset into a row. *)
Lemma div_mod_row (o w i : nat) : i < w -> (o * w + i) / w = o /\ (o * w + i) mod w = i.
Proof.
  intros Hi. split.
  - symmetry. apply (Nat.div_unique _ w o i); lia.
  - symmetry. apply (Nat.mod_unique _ w o i); lia.
Qed.
