(* ===== verification/FpFormats.v ===== *)
(** Small floating-point formats: FP8 E4M3 and the unsigned block scales
    ([memra-gguf/src/nvfp4_repack.rs]), binary16 and bfloat16
    ([memra-gguf/src/dequant.rs]).  A byte is a [Z] in [0, 256). *)
From Stdlib Require Import SpecFloat.
From S2P Require Import Prelude F32.
Local Open Scope Z_scope.

(** ** Decoders *)

(** The doubled e2m1 codebook. *)
Definition KVALUES_MXFP4 : list Z := [0; 1; 2; 3; 4; 6; 8; 12; 0; -1; -2; -3; -4; -6; -8; -12].

Definition e4m3_normal (exp : Z) (man : spec_float) : spec_float :=
  f32_mul (f32_add f32_one (f32_div man (f32_of_int 8))) (f32_pow2 (exp - 7)).
(** An unsigned block scale, halved. *)
Definition ue4m3_to_f32 (x : Z) : spec_float :=
  if (x =? 0) || (x =? 127) then f32_zero
  else
    let exp := Z.land (Z.shiftr x 3) 15 in
    let man := f32_of_int (Z.land x 7) in
    let raw := if exp =? 0 then f32_mul man (f32_pow2 (-9)) else e4m3_normal exp man in
    f32_mul raw (f32_pow2 (-1)).
Definition fp8_e4m3_to_f32 (x : Z) : spec_float :=
  let mag := Z.land x 127 in
  if mag =? 127 then f32_zero
  else
    let sign := if negb (Z.land x 128 =? 0) then f32_of_int (-1) else f32_one in
    let exp := Z.land (Z.shiftr mag 3) 15 in
    let man := f32_of_int (Z.land mag 7) in
    let raw := if exp =? 0 then f32_mul (f32_div man (f32_of_int 8)) (f32_pow2 (-6)) else e4m3_normal exp man in
    f32_mul sign raw.
Definition fp16_to_f32 (h : Z) : spec_float :=
  let sign := Z.land (Z.shiftr h 15) 1 in
  let exp := Z.land (Z.shiftr h 10) 31 in
  let mant := Z.land h 1023 in
  let val :=
    if exp =? 0 then (if mant =? 0 then f32_zero else f32_mul (f32_of_int mant) (f32_pow2 (-24)))
    else if exp =? 31 then (if mant =? 0 then S754_infinity false else S754_nan)
    else f32_mul (f32_add f32_one (f32_div (f32_of_int mant) (f32_of_int 1024))) (f32_pow2 (exp - 15)) in
  if sign =? 1 then f_neg val else val.
Definition bf16_to_f32 (b : Z) : spec_float := f32_from_bits (Z.shiftl b 16).

(** ** Encoders *)

(** The decoded magnitudes of the codes [0..=0x7E]. *)
Definition e4m3_table : list spec_float := fp8_e4m3_to_f32 ∘ Z.of_nat <$> seq 0 127.
(** The largest [lo] with [t[lo] <= ax] by bisection; [None] is an index out of range. *)
Fixpoint e4m3_search (fuel : nat) (t : list spec_float) (ax : spec_float) (lo hi : nat) : option (nat * nat) :=
  match fuel with
  | O => None
  | S fuel =>
      if (lo + 1 <? hi)%nat then
        let mid := ((lo + hi) / 2)%nat in
        v ← t !! mid;
        if SFleb v ax then e4m3_search fuel t ax mid hi else e4m3_search fuel t ax lo mid
      else Some (lo, hi)
  end.
Definition sign_negative (x : spec_float) : bool :=
  match x with S754_zero s | S754_infinity s | S754_finite s _ _ => s | S754_nan => false end.
Definition is_nan (x : spec_float) : bool := match x with S754_nan => true | _ => false end.
Definition f32_to_fp8_e4m3 (x : spec_float) : option Z :=
  let t := e4m3_table in
  if is_nan x then Some 0
  else
    let sign := if sign_negative x then 128 else 0 in
    let ax := f_abs x in
    if SFeqb ax f32_zero then Some 0
    else
      t126 ← t !! 126%nat;
      if f_ge ax t126 then Some (Z.lor sign 126)
      else
        '(lo, hi) ← e4m3_search 127 t ax 0 126;
        tlo ← t !! lo; thi ← t !! hi;
        let dl := f32_sub ax tlo in
        let dh := f32_sub thi ax in
        let c := if f_lt dl dh then lo else if f_lt dh dl then hi else if Nat.even lo then lo else hi in
        Some (if (c =? 0)%nat then 0 else Z.lor sign (Z.of_nat c)).

(** The nearest of the codes [1..0x7E] to the raw scale, the first of equals. *)
Definition ue4m3_raw (c : Z) : spec_float :=
  let exp := Z.land (Z.shiftr c 3) 15 in
  let man := f32_of_int (Z.land c 7) in
  if exp =? 0 then f32_mul man (f32_pow2 (-9)) else e4m3_normal exp man.
Definition nearest (x : spec_float) (cand : list (Z * spec_float)) (best : Z) : Z :=
  (foldl (fun '(bd, best) '(c, v) =>
     let d := f_abs (f32_sub v x) in if f_lt d bd then (d, c) else (bd, best))
     (S754_infinity false, best) cand).2.
Definition ue4m3_codes : list (Z * spec_float) := (fun n => (Z.of_nat n, ue4m3_raw (Z.of_nat n))) <$> seq 1 126.
Definition f32_to_ue4m3 (x : spec_float) : Z :=
  if negb (f_gt x f32_zero) then 0 else nearest x ue4m3_codes 0.

Definition f32_to_f16_bits (x : spec_float) : Z :=
  let b := f32_to_bits x in
  let sign := Z.land (Z.shiftr b 16) 32768 in
  let exp := Z.land (Z.shiftr b 23) 255 in
  let man := Z.land b 8388607 in
  if exp =? 255 then Z.lor (Z.lor sign 31744) (if negb (man =? 0) then 512 else 0)
  else
    let e16 := exp - 127 + 15 in
    if e16 >=? 31 then Z.lor sign 31744
    else if e16 <=? 0 then
      if e16 <? -10 then sign
      else
        let man24 := Z.lor man 8388608 in
        let shift := 14 - e16 in
        let half_man := Z.shiftr man24 shift in
        let round := Z.land (Z.shiftr man24 (shift - 1)) 1 in
        let sticky := negb (Z.land man24 (Z.shiftl 1 (shift - 1) - 1) =? 0) in
        let m := if (round =? 1) && (sticky || (Z.land half_man 1 =? 1)) then half_man + 1 else half_man in
        Z.lor sign m
    else
      let m := Z.shiftr man 13 in
      let round := Z.land (Z.shiftr man 12) 1 in
      let sticky := negb (Z.land man 4095 =? 0) in
      if (round =? 1) && (sticky || (Z.land m 1 =? 1)) then
        if m + 1 =? 1024 then
          if e16 + 1 >=? 31 then Z.lor sign 31744 else Z.lor (Z.lor sign (Z.shiftl (e16 + 1) 10)) 0
        else Z.lor (Z.lor sign (Z.shiftl e16 10)) (m + 1)
      else Z.lor (Z.lor sign (Z.shiftl e16 10)) m.

(** ** Values *)

(** The magnitude of a finite float in units of 2^-149, the least positive one. *)
Definition f32_units (x : spec_float) : Z :=
  match x with S754_finite _ m e => Zpos m * 2 ^ (e + 149) | _ => 0 end.
(** The finite floats of Rust: normal, or at the least exponent. *)
Definition f32_canonical (x : spec_float) : bool :=
  match x with
  | S754_zero _ => true
  | S754_finite _ m e =>
      (-149 <=? e) && (e <=? 104) && (Zpos m <? 2 ^ 24) && ((2 ^ 23 <=? Zpos m) || (e =? -149))
  | _ => false
  end.
(** The magnitude of a binary16 bit pattern in units of 2^-24. *)
Definition f16_units (h : Z) : Z :=
  if h / 1024 =? 0 then h mod 1024 else (1024 + h mod 1024) * 2 ^ (h / 1024 - 1).

(** A property of the [n] numbers from [a] on, by computation. *)
Fixpoint check_from (P : Z -> bool) (n : nat) (a : Z) : bool :=
  match n with O => true | S n => P a && check_from P n (a + 1) end.
Lemma check_from_spec (P : Z -> bool) n : forall a, check_from P n a = true ->
  forall z, a <= z < a + Z.of_nat n -> P z = true.
Proof.
  induction n as [|n IH]; intros a H z Hz; [lia|]. cbn in H. apply andb_true_iff in H as [H0 H].
  destruct (Z.eq_dec z a) as [->|Hne]; [done|]. apply (IH (a + 1)); [done|lia].
Qed.

(** Decoding a binary16 gives exactly its value. *)
Lemma fp16_units h : 0 <= h < 31744 -> f32_units (fp16_to_f32 h) = f16_units h * 2 ^ 125.
Proof.
  intros Hh. apply Z.eqb_eq.
  apply (check_from_spec (fun h => f32_units (fp16_to_f32 h) =? f16_units h * 2 ^ 125) (31 * 1024) 0); [|lia].
  vm_compute. reflexivity.
Qed.

(** ** Rounding a mantissa to nearest, ties to even *)

Definition rne (m s : Z) : Z :=
  let half := Z.shiftr m s in
  let round := Z.land (Z.shiftr m (s - 1)) 1 in
  let sticky := negb (Z.land m (Z.shiftl 1 (s - 1) - 1) =? 0) in
  if (round =? 1) && (sticky || (Z.land half 1 =? 1)) then half + 1 else half.
Lemma land_1_mod m : Z.land m 1 = m mod 2.
Proof. change 1 with (Z.ones 1). by rewrite Z.land_ones. Qed.
Lemma rne_spec m s : 0 <= m -> 1 <= s ->
  2 * Z.abs (rne m s * 2 ^ s - m) <= 2 ^ s /\
  (2 * Z.abs (rne m s * 2 ^ s - m) = 2 ^ s -> Z.even (rne m s) = true).
Proof.
  intros Hm Hs. unfold rne. rewrite !land_1_mod.
  assert (E1 : Z.shiftl 1 (s - 1) - 1 = Z.ones (s - 1)) by (rewrite Z.ones_equiv, Z.shiftl_1_l; lia).
  rewrite E1, Z.land_ones, !Z.shiftr_div_pow2 by lia.
  assert (E2 : 2 ^ s = 2 * 2 ^ (s - 1)) by (rewrite <- Z.pow_succ_r by lia; f_equal; lia).
  pose proof (Z.pow_pos_nonneg 2 (s - 1) ltac:(lia) ltac:(lia)) as Hp. set (p := 2 ^ (s - 1)) in *.
  rewrite E2. pose proof (Z.div_mod m p ltac:(lia)) as Em. pose proof (Z.mod_pos_bound m p Hp) as Hr.
  assert (Eh : m / (2 * p) = m / p / 2) by (rewrite Z.mul_comm; symmetry; apply Z.div_div; lia).
  rewrite Eh. set (q := m / p) in *. set (r := m mod p) in *.
  pose proof (Z.div_mod q 2 ltac:(lia)) as Eq. pose proof (Z.mod_pos_bound q 2 ltac:(lia)) as Hq.
  set (h := q / 2) in *. set (b := q mod 2) in *.
  pose proof (Zmod_even h) as Hev. pose proof (Z.mod_pos_bound h 2 ltac:(lia)).
  assert (Em' : m = h * (2 * p) + b * p + r) by (rewrite Em, Eq; ring).
  clearbody q r h b p. clear Em Eq Eh. subst m.
  destruct (Z.eqb_spec b 1) as [->|Hb]; cbn [andb].
  - destruct (Z.eqb_spec r 0) as [->|Hr0]; cbn [negb orb].
    + destruct (Z.eqb_spec (h mod 2) 1) as [H1|H1].
      * replace ((h + 1) * (2 * p) - (h * (2 * p) + 1 * p + 0)) with p by ring.
        split; [lia|]. intros _. rewrite Z.add_1_r, Z.even_succ, <- Z.negb_even. destruct (Z.even h); [lia|done].
      * replace (h * (2 * p) - (h * (2 * p) + 1 * p + 0)) with (- p) by ring.
        split; [lia|]. intros _. destruct (Z.even h); [done|lia].
    + replace ((h + 1) * (2 * p) - (h * (2 * p) + 1 * p + r)) with (p - r) by ring. split; lia.
  - assert (b = 0) as -> by lia.
    replace (h * (2 * p) - (h * (2 * p) + 0 * p + r)) with (- r) by ring. split; lia.
Qed.
Lemma rne_add m s k : 1 <= s -> rne (m + 2 * k * 2 ^ s) s = rne m s + 2 * k.
Proof.
  intros Hs. unfold rne. rewrite !land_1_mod.
  assert (E1 : Z.shiftl 1 (s - 1) - 1 = Z.ones (s - 1)) by (rewrite Z.ones_equiv, Z.shiftl_1_l; lia).
  rewrite E1, !Z.land_ones, !Z.shiftr_div_pow2 by lia.
  assert (E2 : 2 ^ s = 2 * 2 ^ (s - 1)) by (rewrite <- Z.pow_succ_r by lia; f_equal; lia).
  pose proof (Z.pow_pos_nonneg 2 s ltac:(lia) ltac:(lia)). pose proof (Z.pow_pos_nonneg 2 (s - 1) ltac:(lia) ltac:(lia)).
  rewrite Z.div_add by lia. replace (2 * k * 2 ^ s) with (4 * k * 2 ^ (s - 1)) by (rewrite E2; ring).
  rewrite Z.div_add, Z.mod_add by lia.
  replace (m / 2 ^ (s - 1) + 4 * k) with (m / 2 ^ (s - 1) + 2 * k * 2) by ring. rewrite Z.mod_add by lia.
  rewrite (Z.mul_comm 2 k), Z.mod_add by lia. destruct (_ && _); ring.
Qed.
Lemma rne_bound m s n : 0 <= m < n * 2 ^ s -> 1 <= s -> 0 <= rne m s <= n.
Proof.
  intros Hm Hs. unfold rne. rewrite !Z.shiftr_div_pow2 by lia.
  pose proof (Z.pow_pos_nonneg 2 s ltac:(lia) ltac:(lia)).
  assert (0 <= m / 2 ^ s < n) by (split; [apply Z.div_pos; lia|apply Z.div_lt_upper_bound; lia]).
  destruct (_ && _); lia.
Qed.

(** ** Fields of a bit pattern *)

Lemma lor_fields a b n : 0 <= n -> 0 <= b < 2 ^ n -> Z.lor (a * 2 ^ n) b = a * 2 ^ n + b.
Proof.
  intros Hn Hb. rewrite <- Z.add_lor_land.
  replace (Z.land (a * 2 ^ n) b) with 0; [lia|]. symmetry. apply Z.bits_inj'. intros i Hi.
  rewrite Z.land_spec, Z.bits_0, andb_false_iff.
  destruct (Z.lt_ge_cases i n).
  - left. by apply Z.mul_pow2_bits_low.
  - right. rewrite <- (Z.mod_small b (2 ^ n)) by done. by apply Z.mod_pow2_bits_high.
Qed.
(** Sign, exponent field and mantissa field. *)
Definition f32_fields (s : bool) (e m : Z) : Z := (if s then 2 ^ 31 else 0) + e * 2 ^ 23 + m.
Lemma fields_extract s e m : 0 <= e < 256 -> 0 <= m < 2 ^ 23 ->
  let b := f32_fields s e m in
  Z.land (Z.shiftr b 16) 32768 = (if s then 32768 else 0) /\
  Z.land (Z.shiftr b 23) 255 = e /\ Z.land b 8388607 = m.
Proof.
  intros He Hm b. assert (Eb : b = ((if s then 256 else 0) + e) * 2 ^ 23 + m) by (unfold b, f32_fields; destruct s; ring).
  repeat split.
  - change 32768 with (1 * 2 ^ 15). rewrite Z.shiftr_div_pow2 by lia.
    assert (Hd : b / 2 ^ 16 = (if s then 1 else 0) * 2 ^ 15 + (e * 2 ^ 23 + m) / 2 ^ 16).
    { unfold b, f32_fields. destruct s; [|by rewrite Z.add_0_l].
      replace (2 ^ 31 + e * 2 ^ 23 + m) with (e * 2 ^ 23 + m + 1 * 2 ^ 15 * 2 ^ 16) by ring. rewrite Z.div_add by lia. lia. }
    assert (Hlow : 0 <= (e * 2 ^ 23 + m) / 2 ^ 16 < 2 ^ 15).
    { split; [apply Z.div_pos; lia|apply Z.div_lt_upper_bound; [lia|]]. change (2 ^ 16 * 2 ^ 15) with (256 * 2 ^ 23). nia. }
    rewrite Hd. set (l := (e * 2 ^ 23 + m) / 2 ^ 16) in *. rewrite <- lor_fields by lia.
    rewrite Z.land_lor_distr_l.
    replace (Z.land l (1 * 2 ^ 15)) with 0.
    + rewrite Z.lor_0_r. destruct s; reflexivity.
    + symmetry. apply Z.bits_inj'. intros i Hi. rewrite Z.land_spec, Z.bits_0, andb_false_iff.
      destruct (Z.lt_ge_cases i 15); [right; by apply Z.mul_pow2_bits_low|].
      left. rewrite <- (Z.mod_small l (2 ^ 15)) by done. by apply Z.mod_pow2_bits_high.
  - change 255 with (Z.ones 8). rewrite Z.land_ones, Z.shiftr_div_pow2, Eb by lia.
    rewrite Z.add_comm, Z.div_add, Z.div_small, Z.add_0_l by lia.
    destruct s; [|by rewrite Z.mod_small]. rewrite Z.add_comm. change 256 with (1 * 2 ^ 8) at 1. rewrite Z.mod_add by lia. by apply Z.mod_small.
  - change 8388607 with (Z.ones 23). rewrite Z.land_ones, Eb by lia. rewrite Z.add_comm, Z.mod_add by lia. by apply Z.mod_small.
Qed.
(** Exponent and mantissa fields of a canonical float, and its value. *)
Lemma canonical_fields x : f32_canonical x = true ->
  exists e m, 0 <= e < 255 /\ 0 <= m < 2 ^ 23 /\ f32_to_bits x = f32_fields (sign_negative x) e m /\
    f32_units x = if e =? 0 then m else (m + 2 ^ 23) * 2 ^ (e - 1).
Proof.
  intros Hx. destruct x as [s|s| |s m e]; try done.
  - exists 0, 0. split; [lia|]. split; [lia|]. split; [|done]. by destruct s.
  - cbn in Hx. unfold f32_to_bits, f32_units, sign_negative, f32_fields.
    change (Zpos m <? 2 ^ 24) with (Zpos m <? 2 ^ 24) in Hx.
    destruct (Z.ltb_spec (Zpos m) (2 ^ 23)) as [Hs|Hn].
    + assert (e = -149) as -> by lia. exists 0, (Zpos m).
      split; [lia|]. split; [lia|]. split; [destruct s; lia|]. cbn. lia.
    + exists (e + 150), (Zpos m - 2 ^ 23). split; [lia|]. split; [lia|]. split; [destruct s; lia|].
      rewrite (proj2 (Z.eqb_neq _ _)) by lia. f_equal; [lia|]. f_equal. lia.
Qed.

(** The magnitude [f32_to_f16_bits] computes from the fields. *)
Definition f16_magnitude (e m : Z) : Z :=
  let e16 := e - 112 in
  if e16 >=? 31 then 31744
  else if e16 <=? 0 then if e16 <? -10 then 0 else rne (m + 2 ^ 23) (14 - e16)
  else Z.min 31744 (e16 * 1024 + rne m 13).
Lemma f32_to_f16_bits_fields x e m : f32_canonical x = true -> 0 <= e < 255 -> 0 <= m < 2 ^ 23 ->
  f32_to_bits x = f32_fields (sign_negative x) e m ->
  f32_to_f16_bits x = (if sign_negative x then 32768 else 0) + f16_magnitude e m.
Proof.
  intros Hx He Hm Eb. unfold f32_to_f16_bits. rewrite Eb.
  destruct (fields_extract (sign_negative x) e m ltac:(lia) Hm) as (-> & -> & ->).
  rewrite (proj2 (Z.eqb_neq _ _)) by lia. unfold f16_magnitude.
  replace (e - 127 + 15) with (e - 112) by lia. set (e16 := e - 112).
  assert (Hlor : forall k, 0 <= k < 2 ^ 15 ->
    Z.lor (if sign_negative x then 32768 else 0) k = (if sign_negative x then 32768 else 0) + k).
  { intros k Hk. destruct (sign_negative x); [|done]. change 32768 with (1 * 2 ^ 15). by apply lor_fields. }
  destruct (Z.geb_spec e16 31); [apply Hlor; lia|].
  destruct (Z.leb_spec e16 0); [destruct (Z.ltb_spec e16 (-10)); [lia|]|].
  - assert (E24 : Z.lor m 8388608 = m + 2 ^ 23).
    { rewrite Z.lor_comm. change 8388608 with (1 * 2 ^ 23). rewrite lor_fields by lia. lia. }
    rewrite E24. apply Hlor.
    assert (Hb : 0 <= m + 2 ^ 23 < 2 ^ 10 * 2 ^ (14 - e16)).
    { rewrite <- Z.pow_add_r by lia. split; [lia|]. apply (Z.lt_le_trans _ (2 ^ 24)); [lia|]. apply Z.pow_le_mono_r; lia. }
    pose proof (rne_bound _ _ _ Hb ltac:(lia)). unfold rne in *. lia.
  - pose proof (rne_bound m 13 1024 ltac:(lia) ltac:(lia)) as Hk.
    fold (rne m 13) in *. unfold rne in *. change (13 - 1) with 12 in *. change (Z.shiftl 1 12 - 1) with 4095 in *.
    assert (Hsh : forall a k, 0 <= k < 1024 -> 0 <= a < 31 ->
      Z.lor (Z.lor (if sign_negative x then 32768 else 0) (Z.shiftl a 10)) k = (if sign_negative x then 32768 else 0) + (a * 1024 + k)).
    { intros a k Ha Hk'. rewrite <- Z.lor_assoc, Z.shiftl_mul_pow2 by lia. rewrite lor_fields by lia. change (2 ^ 10) with 1024. apply Hlor. lia. }
    destruct (_ && _) eqn:Er.
    + destruct (Z.eqb_spec (Z.shiftr m 13 + 1) 1024) as [E|E].
      * rewrite E. destruct (Z.geb_spec (e16 + 1) 31); [rewrite Hlor by lia; lia|]. rewrite Hsh by lia. lia.
      * rewrite Hsh by lia. lia.
    + assert (Z.shiftr m 13 < 1024) by (rewrite Z.shiftr_div_pow2 by lia; apply Z.div_lt_upper_bound; lia).
      rewrite Hsh by lia. lia.
Qed.

(** ** The nearest binary16 *)

Lemma f16_units_normal a k : 1 <= a -> 0 <= k <= 1024 -> f16_units (a * 1024 + k) = (1024 + k) * 2 ^ (a - 1).
Proof.
  intros Ha Hk. unfold f16_units. destruct (Z.eq_dec k 1024) as [->|Hne].
  - replace (a * 1024 + 1024) with ((a + 1) * 1024) by ring. rewrite Z.div_mul, Z.mod_mul by lia.
    rewrite (proj2 (Z.eqb_neq _ _)) by lia. replace (a + 1 - 1) with (Z.succ (a - 1)) by lia. rewrite Z.pow_succ_r by lia. lia.
  - rewrite Z.add_comm, Z.div_add, Z.mod_add, Z.div_small, Z.mod_small by lia.
    rewrite (proj2 (Z.eqb_neq _ _)) by lia. do 2 f_equal; lia.
Qed.
Lemma f16_units_subnormal k : 0 <= k <= 1024 -> f16_units k = k.
Proof.
  intros Hk. destruct (Z.eq_dec k 1024) as [->|Hne]; [done|].
  unfold f16_units. rewrite Z.div_small, Z.mod_small by lia. done.
Qed.
(** Above a binade every binary16 is a multiple of its spacing; the others are below it. *)
Lemma f16_units_grid h g : 0 <= h -> 0 <= g ->
  (exists k, f16_units h = k * 2 ^ g) \/ f16_units h < 1024 * 2 ^ g.
Proof.
  intros Hh Hg. unfold f16_units. pose proof (Z.mod_pos_bound h 1024 ltac:(lia)) as Hm.
  pose proof (Z.pow_pos_nonneg 2 g ltac:(lia) Hg).
  destruct (Z.eqb_spec (h / 1024) 0); [right; nia|].
  assert (0 < h / 1024) by (pose proof (Z.div_pos h 1024); lia).
  destruct (Z.le_gt_cases g (h / 1024 - 1)) as [Hle|Hgt].
  - left. exists ((1024 + h mod 1024) * 2 ^ (h / 1024 - 1 - g)).
    rewrite <- Z.mul_assoc, <- Z.pow_add_r by lia. do 2 f_equal. lia.
  - right. assert (Hp : 2 * 2 ^ (h / 1024 - 1) <= 2 ^ g).
    { rewrite <- Z.pow_succ_r by lia. apply Z.pow_le_mono_r; lia. } nia.
Qed.
Lemma nearest_multiple G X k : 0 < G -> 2 * Z.abs (k * G - X) <= G -> forall k',
  Z.abs (k * G - X) <= Z.abs (k' * G - X) /\
  (Z.abs (k * G - X) = Z.abs (k' * G - X) -> k' <> k -> 2 * Z.abs (k * G - X) = G).
Proof.
  intros HG Hk k'. destruct (Z.eq_dec k' k) as [->|Hne]; [lia|].
  assert (G <= Z.abs (k' * G - k * G)).
  { replace (k' * G - k * G) with ((k' - k) * G) by ring. rewrite Z.abs_mul, (Z.abs_eq G) by lia. nia. }
  lia.
Qed.
(** A multiple of the spacing nearest to [X] is the nearest binary16. *)
Lemma nearest_f16 X g k h : 0 <= g -> 0 <= h -> f16_units h = k * 2 ^ g ->
  g = 0 \/ 1024 * (2 ^ g * 2 ^ 125) <= X ->
  2 * Z.abs (k * (2 ^ g * 2 ^ 125) - X) <= 2 ^ g * 2 ^ 125 ->
  (2 * Z.abs (k * (2 ^ g * 2 ^ 125) - X) = 2 ^ g * 2 ^ 125 -> Z.even h = true) ->
  forall h', 0 <= h' ->
    Z.abs (f16_units h * 2 ^ 125 - X) <= Z.abs (f16_units h' * 2 ^ 125 - X) /\
    (Z.abs (f16_units h * 2 ^ 125 - X) = Z.abs (f16_units h' * 2 ^ 125 - X) -> f16_units h' <> f16_units h -> Z.even h = true).
Proof.
  intros Hg Hh Eh Hlow Hnear Htie h' Hh'. rewrite Eh.
  pose proof (Z.pow_pos_nonneg 2 g ltac:(lia) Hg) as Hp. assert (0 < 2 ^ 125) by lia.
  set (u := 2 ^ 125) in *. clearbody u.
  assert (HG : 0 < 2 ^ g * u) by nia.
  rewrite <- (Z.mul_assoc k). set (G := 2 ^ g * u) in *.
  assert (Hmul : forall k', f16_units h' = k' * 2 ^ g -> f16_units h' * u = k' * G) by (intros k' ->; unfold G; ring).
  destruct (f16_units_grid h' g Hh' Hg) as [[k' Ek']|Hlt].
  - rewrite (Hmul k' Ek'). destruct (nearest_multiple G X k HG Hnear k') as [H1 H2]. split; [done|].
    intros He Hne. apply Htie, H2; [done|]. intros ->. by apply Hne.
  - destruct Hlow as [->|Hlow].
    { rewrite (Hmul (f16_units h')) by (cbn; lia). destruct (nearest_multiple G X k HG Hnear (f16_units h')) as [H1 H2].
      split; [done|]. intros He Hne. apply Htie, H2; [done|]. intros E. apply Hne. rewrite E. lia. }
    assert (f16_units h' * u < 1024 * G) by (unfold G; nia).
    destruct (nearest_multiple G X k HG Hnear 1024) as [H1 _]. lia.
Qed.
Lemma f16_magnitude_nearest e m (X := if e =? 0 then m else (m + 2 ^ 23) * 2 ^ (e - 1)) :
  0 <= e < 255 -> 0 <= m < 2 ^ 23 ->
  0 <= f16_magnitude e m <= 31744 /\
  (f16_magnitude e m = 31744 <-> 65520 * 2 ^ 149 <= X) /\
  (f16_magnitude e m < 31744 -> forall h', 0 <= h' ->
    Z.abs (f16_units (f16_magnitude e m) * 2 ^ 125 - X) <= Z.abs (f16_units h' * 2 ^ 125 - X) /\
    (Z.abs (f16_units (f16_magnitude e m) * 2 ^ 125 - X) = Z.abs (f16_units h' * 2 ^ 125 - X) ->
     f16_units h' <> f16_units (f16_magnitude e m) -> Z.even (f16_magnitude e m) = true)).
Proof.
  intros He Hm. unfold f16_magnitude. set (e16 := e - 112).
  assert (HX : 0 < e -> X = (m + 2 ^ 23) * 2 ^ (e - 1)) by (intros H; unfold X; by rewrite (proj2 (Z.eqb_neq e 0)) by lia).
  destruct (Z.geb_spec e16 31) as [H31|H31]; [|destruct (Z.leb_spec e16 0) as [H0|H0]; [destruct (Z.ltb_spec e16 (-10)) as [Hu|Hu]|]].
  - split; [lia|]. split; [|lia]. split; [intros _|done]. rewrite HX by lia.
    pose proof (Z.pow_le_mono_r 2 142 (e - 1) ltac:(lia) ltac:(lia)).
    apply (Z.le_trans _ (2 ^ 23 * 2 ^ 142)); [lia|]. nia.
  - assert (Hsmall : 0 <= X < 2 ^ 124).
    { unfold X. destruct (Z.eqb_spec e 0); [lia|].
      pose proof (Z.pow_le_mono_r 2 (e - 1) 100 ltac:(lia) ltac:(lia)). pose proof (Z.pow_pos_nonneg 2 (e - 1) ltac:(lia) ltac:(lia)).
      split; [nia|]. apply (Z.lt_le_trans _ (2 ^ 24 * 2 ^ (e - 1))); [nia|]. change (2 ^ 124) with (2 ^ 24 * 2 ^ 100). nia. }
    split; [lia|]. split; [lia|]. intros _. apply (nearest_f16 X 0 0 0); [lia..|reflexivity|by left| |].
    + change (2 ^ 0 * 2 ^ 125) with (2 * 2 ^ 124). lia.
    + reflexivity.
  - set (s := 14 - e16). assert (Hs : 1 <= s) by lia.
    assert (Eu : 2 ^ 125 = 2 ^ s * 2 ^ (e - 1)) by (rewrite <- Z.pow_add_r by lia; f_equal; lia).
    pose proof (Z.pow_pos_nonneg 2 (e - 1) ltac:(lia) ltac:(lia)) as Ht. set (t := 2 ^ (e - 1)) in *.
    assert (Hb : 0 <= m + 2 ^ 23 < 1024 * 2 ^ s).
    { split; [lia|]. apply (Z.lt_le_trans _ (2 ^ 10 * 2 ^ 14)); [lia|]. pose proof (Z.pow_le_mono_r 2 14 s ltac:(lia) ltac:(lia)). lia. }
    pose proof (rne_bound _ _ _ Hb Hs) as Hk. destruct (rne_spec (m + 2 ^ 23) s ltac:(lia) Hs) as [Hr Htie].
    set (k := rne (m + 2 ^ 23) s) in *. specialize (HX ltac:(lia)).
    assert (Ed : k * (2 ^ 0 * 2 ^ 125) - X = (k * 2 ^ s - (m + 2 ^ 23)) * t) by (rewrite Eu, HX; ring).
    split; [lia|]. split.
    + split; [lia|]. intros Hbig. exfalso.
      assert (X < 1024 * 2 ^ 125) by (rewrite HX, Eu; nia). lia.
    + intros _. apply (nearest_f16 X 0 k k); [lia..|rewrite f16_units_subnormal by lia; cbn; lia|by left| |]; rewrite Ed, Z.abs_mul, (Z.abs_eq t) by lia; rewrite Z.mul_1_l, Eu.
      * nia.
      * intros E. apply Htie. nia.
  - pose proof (rne_bound m 13 1024 ltac:(lia) ltac:(lia)) as Hk. destruct (rne_spec m 13 ltac:(lia) ltac:(lia)) as [Hr Htie].
    set (k := rne m 13) in *. specialize (HX ltac:(lia)).
    assert (Eu : 2 ^ (e16 - 1) * 2 ^ 125 = 2 ^ 13 * 2 ^ (e - 1)) by (rewrite <- !Z.pow_add_r by lia; f_equal; lia).
    pose proof (Z.pow_pos_nonneg 2 (e - 1) ltac:(lia) ltac:(lia)) as Ht.
    assert (Ed : (1024 + k) * (2 ^ (e16 - 1) * 2 ^ 125) - X = (k * 2 ^ 13 - m) * 2 ^ (e - 1)) by (rewrite Eu, HX; ring).
    assert (Hinf : 31744 <= e16 * 1024 + k <-> 65520 * 2 ^ 149 <= X).
    { rewrite HX. destruct (Z.eq_dec e16 30) as [E|Hne].
      - replace (e - 1) with 141 by lia. change (65520 * 2 ^ 149) with (16773120 * 2 ^ 141).
        assert (k = 1024 <-> 8384512 <= m).
        { split; [intros ->; lia|]. intros Hge. destruct (Z.eq_dec k 1023) as [E3|]; [|lia].
          exfalso. rewrite E3 in *. assert (Z.even 1023 = true) by (apply Htie; lia). done. }
        split; intros; [|nia]. assert (8384512 <= m) by lia. nia.
      - split; [lia|]. intros Hbig. exfalso.
        pose proof (Z.pow_le_mono_r 2 (e - 1) 140 ltac:(lia) ltac:(lia)).
        assert ((m + 2 ^ 23) * 2 ^ (e - 1) < 2 ^ 24 * 2 ^ 140) by nia. lia. }
    split; [lia|]. split; [rewrite <- Hinf; lia|]. intros Hfin.
    rewrite Z.min_r by lia.
    apply (nearest_f16 X (e16 - 1) (1024 + k)); [lia|lia|by apply f16_units_normal; lia|right| |].
    + rewrite Eu, HX. nia.
    + rewrite Ed, Eu, Z.abs_mul, (Z.abs_eq (2 ^ (e - 1))) by lia. nia.
    + rewrite Ed, Eu, Z.abs_mul, (Z.abs_eq (2 ^ (e - 1))) by lia. intros E.
      replace (e16 * 1024 + k) with (k + 2 * (e16 * 512)) by ring. rewrite Z.even_add_mul_2. apply Htie. nia.
Qed.

(** C25. Encoding a binary32 as binary16 rounds to nearest, ties to even: the
    decoded result is at least as near as every finite binary16, an even one in
    a tie; it is infinite exactly from half-way past the largest finite value
    on; sign, infinities and NaN are kept. *)
Theorem f16_nearest (x : spec_float) :
  match x with
  | S754_nan => is_nan (fp16_to_f32 (f32_to_f16_bits x)) = true
  | S754_infinity s => fp16_to_f32 (f32_to_f16_bits x) = x
  | _ => f32_canonical x = true ->
      exists h, f32_to_f16_bits x = (if sign_negative x then 32768 else 0) + h /\ 0 <= h <= 31744 /\
        (h = 31744 <-> 65520 * 2 ^ 149 <= f32_units x) /\
        (h < 31744 -> forall h', 0 <= h' < 31744 ->
          let err k := Z.abs (f32_units (fp16_to_f32 k) - f32_units x) in
          err h <= err h' /\ (err h = err h' -> f32_units (fp16_to_f32 h') <> f32_units (fp16_to_f32 h) -> Z.even h = true))
  end.
Proof.
  assert (H : f32_canonical x = true ->
    exists h, f32_to_f16_bits x = (if sign_negative x then 32768 else 0) + h /\ 0 <= h <= 31744 /\
        (h = 31744 <-> 65520 * 2 ^ 149 <= f32_units x) /\
        (h < 31744 -> forall h', 0 <= h' < 31744 ->
          let err k := Z.abs (f32_units (fp16_to_f32 k) - f32_units x) in
          err h <= err h' /\ (err h = err h' -> f32_units (fp16_to_f32 h') <> f32_units (fp16_to_f32 h) -> Z.even h = true))).
  { intros Hx. destruct (canonical_fields x Hx) as (e & m & He & Hm & Eb & Eu).
    exists (f16_magnitude e m). split; [by apply f32_to_f16_bits_fields|].
    destruct (f16_magnitude_nearest e m He Hm) as (Hr & Hinf & Hnear). rewrite Eu. split; [done|]. split; [done|].
    intros Hlt h' Hh'. specialize (Hnear Hlt h' ltac:(lia)) as [H1 H2]. cbv beta zeta. rewrite !fp16_units by lia.
    split; [done|]. intros E Hne. apply H2; [done|]. intros E16. apply Hne. by rewrite E16. }
  destruct x as [s|s| |s m e]; [exact H| |reflexivity|exact H]. destruct s; reflexivity.
Qed.
Lemma f16_nearest_witness :
  exists h, f32_to_f16_bits (S754_finite false 11184811 (-25)) = 0 + h /\ 0 <= h <= 31744.
Proof.
  destruct (f16_nearest (S754_finite false 11184811 (-25)) eq_refl) as (h & E & Hh & _).
  exists h. split; [exact E|exact Hh].
Defined.

(** ** FP8 E4M3 *)

(** Encoding inverts decoding on every code but NaN and -0. *)
Lemma e4m3_roundtrip c : 0 <= c < 256 -> Z.land c 127 <> 127 -> c <> 128 ->
  f32_to_fp8_e4m3 (fp8_e4m3_to_f32 c) = Some c.
Proof.
  intros Hc Hn H0.
  assert (H : (Z.land c 127 =? 127) || (c =? 128) || match f32_to_fp8_e4m3 (fp8_e4m3_to_f32 c) with Some d => d =? c | None => false end = true).
  { apply (check_from_spec (fun c => (Z.land c 127 =? 127) || (c =? 128) ||
      match f32_to_fp8_e4m3 (fp8_e4m3_to_f32 c) with Some d => d =? c | None => false end) 256 0); [vm_compute; reflexivity|lia]. }
  destruct (f32_to_fp8_e4m3 _) as [d|]; [|lia]. f_equal. lia.
Qed.
(** The bisection never leaves the table, and stops. *)
Lemma e4m3_search_total ax : forall fuel lo hi, (lo < hi <= 126)%nat -> (hi - lo < fuel)%nat ->
  exists lo' hi', e4m3_search fuel e4m3_table ax lo hi = Some (lo', hi') /\ hi' = S lo' /\ (lo' < 126)%nat.
Proof.
  induction fuel as [|fuel IH]; intros lo hi Hlh Hf; [lia|]. cbn [e4m3_search].
  destruct (Nat.ltb_spec (lo + 1) hi) as [Hlt|Hge].
  - assert (lo < (lo + hi) / 2 < hi)%nat.
    { pose proof (Nat.div_mod (lo + hi) 2 ltac:(lia)). pose proof (Nat.mod_upper_bound (lo + hi) 2 ltac:(lia)). lia. }
    destruct (lookup_lt_is_Some_2 e4m3_table ((lo + hi) / 2)) as [v ->]; [unfold e4m3_table; rewrite length_fmap, length_seq; lia|].
    cbn [mbind option_bind]. destruct (SFleb v ax); apply IH; lia.
  - exists lo, hi. split; [done|]. lia.
Qed.
Definition code_ok (z : Z) : bool :=
  forallb (fun s : bool => let c := Z.lor (if s then 128 else 0) z in
    (0 <=? c) && (c <? 256) && negb (Z.land c 127 =? 127)) [true; false].
(** Encoding is total and never yields a NaN code. *)
Lemma e4m3_encode_total x : exists c, f32_to_fp8_e4m3 x = Some c /\ 0 <= c < 256 /\ Z.land c 127 <> 127.
Proof.
  assert (Hc : forall (s : bool) n, (n <= 126)%nat ->
    let c := Z.lor (if s then 128 else 0) (Z.of_nat n) in 0 <= c < 256 /\ Z.land c 127 <> 127).
  { intros s n Hn.
    assert (H : code_ok (Z.of_nat n) = true) by (apply (check_from_spec code_ok 127 0); [vm_compute; reflexivity|lia]).
    unfold code_ok in H. cbn [forallb] in H. cbv zeta in *. destruct s; lia. }
  unfold f32_to_fp8_e4m3. destruct (is_nan x); [by exists 0|]. destruct (SFeqb _ _); [by exists 0|].
  destruct (lookup_lt_is_Some_2 e4m3_table 126) as [t Et]; [unfold e4m3_table; rewrite length_fmap, length_seq; lia|].
  rewrite Et. cbn [mbind option_bind]. destruct (f_ge _ t).
  { exists (Z.lor (if sign_negative x then 128 else 0) (Z.of_nat 126)). split; [done|]. by apply Hc. }
  destruct (e4m3_search_total (f_abs x) 127 0 126) as (lo & hi & -> & -> & Hlo); [lia|lia|]. cbn [mbind option_bind].
  destruct (lookup_lt_is_Some_2 e4m3_table lo) as [tl ->]; [unfold e4m3_table; rewrite length_fmap, length_seq; lia|].
  destruct (lookup_lt_is_Some_2 e4m3_table (S lo)) as [th ->]; [unfold e4m3_table; rewrite length_fmap, length_seq; lia|].
  cbn [mbind option_bind]. eexists. split; [reflexivity|].
  set (c := if f_lt _ _ then lo else _). assert (c <= 126)%nat by (subst c; repeat case_match; lia).
  clearbody c. destruct (c =? 0)%nat; [split; [lia|discriminate]|]. by apply Hc.
Qed.
