(* ===== verification/Nvfp4.v ===== *)
(** NVFP4 weights: [memra-gguf/src/nvfp4_repack.rs], and the split planes of
    [memra-engine/src/model.rs].

    A checkpoint stores two 4-bit codes per byte in element order and one
    scale byte per 16 elements; a GGUF block of 64 elements is 4 scale bytes and
    32 bytes whose nibbles are interleaved; the split layout keeps all quant
    bytes first and all scales after them. *)
From Stdlib Require Import SpecFloat.
From S2P Require Import Prelude F32 Slices FpFormats.
Local Open Scope nat_scope.

(** ** Repacking *)

(** The code of an element of block [b] in a checkpoint row. *)
Definition nib (w_row : list Z) (e_local b : nat) : option Z :=
  let g := b * 64 + e_local in
  byte ← w_row !! (g / 2);
  Some (if Nat.even g then Z.land byte 15 else Z.shiftr byte 4).
Definition nib_pair (w_row : list Z) (s j b : nat) : option Z :=
  lo ← nib w_row (s * 16 + j) b;
  hi ← nib w_row (s * 16 + j + 8) b;
  Some (Z.lor lo (wrap 8 (Z.shiftl hi 4))).
(** The 36 bytes of block [b]. *)
Definition repack_block (w_row s_row : list Z) (b : nat) (blk : list Z) : option (list Z) :=
  sc ← slice (b * 4) 4 s_row;
  blk ← copy_at 0 sc blk;
  for_range 4 (fun s => for_range 8 (fun j blk =>
    v ← nib_pair w_row s j b; set_at (4 + s * 8 + j) v blk)) blk.
Definition repack_ok (weight wscale : list Z) (out_f in_f : nat) : bool :=
  (in_f mod 64 =? 0) && (length weight =? out_f * (in_f / 2)) && (length wscale =? out_f * (in_f / 16)).
Definition repack_modelopt_to_gguf (weight wscale : list Z) (out_f in_f : nat) : option (list Z) :=
  if negb (repack_ok weight wscale out_f in_f) then None
  else
    let in_bytes := in_f / 2 in
    let scl_bytes := in_f / 16 in
    let nblk := in_f / 64 in
    let row_bytes := nblk * 36 in
    for_range out_f (fun o out =>
      w_row ← slice (o * in_bytes) in_bytes weight;
      s_row ← slice (o * scl_bytes) scl_bytes wscale;
      with_slice (o * row_bytes) row_bytes (for_range nblk (fun b =>
        with_slice (b * 36) 36 (repack_block w_row s_row b))) out)
      (replicate (out_f * row_bytes) 0%Z).
Definition repack_modelopt_to_split (weight wscale : list Z) (out_f in_f : nat) : option (list Z) :=
  if negb (repack_ok weight wscale out_f in_f) then None
  else
    let in_bytes := in_f / 2 in
    let nblk := in_f / 64 in
    let qplane := out_f * nblk * 32 in
    out ← with_slice qplane (out_f * nblk * 36 - qplane)
            (fun s => if length s =? length wscale then copy_at 0 wscale s else None)
            (replicate (out_f * nblk * 36) 0%Z);
    for_range out_f (fun o out =>
      w_row ← slice (o * in_bytes) in_bytes weight;
      for_range nblk (fun b =>
        with_slice ((o * nblk + b) * 32) 32 (for_range 4 (fun s => for_range 8 (fun j q =>
          v ← nib_pair w_row s j b; set_at (s * 8 + j) v q)))) out) out.

(** ** Split planes from blocks, and back *)
Definition repack_nvfp4_split (bytes : list Z) (out_f : nat) : option (list Z) :=
  if out_f =? 0 then None
  else
    let row_bytes := length bytes / out_f in
    let nsb64 := row_bytes / 36 in
    let qplane := out_f * nsb64 * 32 in
    for_range out_f (fun o => for_range nsb64 (fun s rp =>
      src ← slice (o * row_bytes + s * 36) 36 bytes;
      sc ← slice 0 4 src;
      rp ← copy_at (qplane + (o * nsb64 + s) * 4) sc rp;
      q ← slice 4 32 src;
      copy_at ((o * nsb64 + s) * 32) q rp)) (replicate (length bytes) 0%Z).
Definition unpack_nvfp4_split (rp : list Z) (out_f : nat) : option (list Z) :=
  if out_f =? 0 then None
  else
    let row_bytes := length rp / out_f in
    let nsb64 := row_bytes / 36 in
    let qplane := out_f * nsb64 * 32 in
    for_range out_f (fun o => for_range nsb64 (fun s back =>
      sc ← slice (qplane + (o * nsb64 + s) * 4) 4 rp;
      back ← copy_at (o * row_bytes + s * 36) sc back;
      q ← slice ((o * nsb64 + s) * 32) 32 rp;
      copy_at (o * row_bytes + s * 36 + 4) q back)) (replicate (length rp) 0%Z).

(** ** Reference dequantisation of a row *)
Definition f32_half : spec_float := f32_pow2 (-1).
Definition kvalue (code : Z) : option spec_float := f32_of_int <$> KVALUES_MXFP4 !! Z.to_nat code.
Definition dequant_modelopt_row (weight_row wscale_row : list Z) (in_f : nat) : option (list spec_float) :=
  for_range in_f (fun e out =>
    byte ← weight_row !! (e / 2);
    k ← kvalue (if Nat.even e then Z.land byte 15 else Z.shiftr byte 4);
    sc ← wscale_row !! (e / 16);
    set_at e (f32_mul (f32_mul k f32_half) (f32_mul (ue4m3_to_f32 sc) (f32_of_int 2))) out)
    (replicate in_f f32_zero).
Definition dequant_gguf_row (row : list Z) (in_f : nat) : option (list spec_float) :=
  for_range (in_f / 64) (fun i out =>
    d_bytes ← slice (i * 36) 4 row;
    qs ← slice (i * 36 + 4) 32 row;
    for_range 4 (fun s out =>
      sc ← d_bytes !! s;
      let d := ue4m3_to_f32 sc in
      let yb := i * 64 + s * 16 in
      for_range 8 (fun j out =>
        byte ← qs !! (s * 8 + j);
        lo ← kvalue (Z.land byte 15);
        out ← set_at (yb + j) (f32_mul lo d) out;
        hi ← kvalue (Z.shiftr byte 4);
        set_at (yb + j + 8) (f32_mul hi d) out) out) out)
    (replicate in_f f32_zero).

(** ** Nibbles and codes *)

Definition is_byte (b : Z) : Prop := (0 <= b < 256)%Z.
Definition pack (lo hi : Z) : Z := Z.lor lo (wrap 8 (Z.shiftl hi 4)).

(** A property of all numbers below a bound, by computation. *)
Lemma below_forall (P : Z -> bool) (n : nat) :
  forallb (fun i => P (Z.of_nat i)) (seq 0 n) = true -> forall z, (0 <= z < Z.of_nat n)%Z -> P z = true.
Proof.
  rewrite forallb_forall. intros H z Hz. specialize (H (Z.to_nat z)). rewrite Z2Nat.id in H by lia.
  apply H, in_seq. lia.
Qed.
Lemma pack_nibbles lo hi : (0 <= lo < 16)%Z -> (0 <= hi < 16)%Z ->
  Z.land (pack lo hi) 15 = lo /\ Z.shiftr (pack lo hi) 4 = hi /\ is_byte (pack lo hi).
Proof.
  intros Hlo Hhi.
  pose proof (below_forall (fun lo => forallb (fun h => let hi := Z.of_nat h in
    ((Z.land (pack lo hi) 15 =? lo) && (Z.shiftr (pack lo hi) 4 =? hi) && (0 <=? pack lo hi) && (pack lo hi <? 256))%Z)
    (seq 0 16)) 16 ltac:(vm_compute; reflexivity) lo ltac:(lia)) as H.
  apply (below_forall (fun hi => ((Z.land (pack lo hi) 15 =? lo) && (Z.shiftr (pack lo hi) 4 =? hi) && (0 <=? pack lo hi) && (pack lo hi <? 256))%Z) 16) with (z := hi) in H; [|lia].
  unfold is_byte. lia.
Qed.
Lemma nibble_bounds b : is_byte b -> (0 <= Z.land b 15 < 16)%Z /\ (0 <= Z.shiftr b 4 < 16)%Z.
Proof.
  unfold is_byte. intros Hb. change 15%Z with (Z.ones 4). rewrite Z.land_ones, Z.shiftr_div_pow2 by lia. change (2 ^ 4)%Z with 16%Z.
  pose proof (Z.mod_pos_bound b 16 ltac:(lia)). split; [lia|].
  split; [apply Z.div_pos; lia|apply Z.div_lt_upper_bound; lia].
Qed.
Lemma kvalue_Some c : (0 <= c < 16)%Z -> exists k, kvalue c = Some k.
Proof.
  intros Hc. unfold kvalue. destruct (lookup_lt_is_Some_2 KVALUES_MXFP4 (Z.to_nat c)) as [k ->]; [cbn; lia|]. by exists (f32_of_int k).
Qed.
(** The doubled codebook and the halved scale cancel in binary32, bit for bit. *)
Lemma doubled_half_cancel c sc k : (0 <= c < 16)%Z -> is_byte sc -> kvalue c = Some k ->
  f32_mul (f32_mul k f32_half) (f32_mul (ue4m3_to_f32 sc) (f32_of_int 2)) = f32_mul k (ue4m3_to_f32 sc).
Proof.
  intros Hc Hsc Hk.
  pose proof (below_forall (fun c => forallb (fun n => let sc := Z.of_nat n in
    match kvalue c with
    | Some k => same_float (f32_mul (f32_mul k f32_half) (f32_mul (ue4m3_to_f32 sc) (f32_of_int 2))) (f32_mul k (ue4m3_to_f32 sc))
    | None => true end) (seq 0 256)) 16 ltac:(vm_compute; reflexivity) c ltac:(lia)) as H.
  cbv beta in H. rewrite Hk in H.
  apply (below_forall (fun sc => same_float (f32_mul (f32_mul k f32_half) (f32_mul (ue4m3_to_f32 sc) (f32_of_int 2))) (f32_mul k (ue4m3_to_f32 sc))) 256) with (z := sc) in H; [|done].
  by apply same_float_eq in H.
Qed.

(** ** What repacking writes *)

(** A row of a row-major matrix of width [w]. *)
Definition row {A : Type} (w : nat) (l : list A) (o : nat) : list A := take w (drop (o * w) l).
Lemma slice_row {A : Type} (w n o : nat) (l : list A) : length l = n * w -> o < n ->
  slice (o * w) w l = Some (row w l o) /\ length (row w l o) = w.
Proof.
  intros Hl Ho. pose proof (Nat.mul_le_mono_r (o + 1) n w ltac:(lia)).
  unfold slice, row. rewrite (proj2 (Nat.leb_le _ _)) by lia. split; [done|].
  rewrite length_take, length_drop. lia.
Qed.
Lemma row_lookup {A : Type} (w o i : nat) (l : list A) : i < w -> row w l o !! i = l !! (o * w + i).
Proof. intros Hi. unfold row. by rewrite lookup_take_lt, lookup_drop by done. Qed.
Lemma Forall_row {A : Type} (P : A -> Prop) w (l : list A) o : Forall P l -> Forall P (row w l o).
Proof. intros H. by apply Forall_take, Forall_drop. Qed.

(** Byte [k] of the quants, of the whole block, of the whole row. *)
Definition qbyte (w_row : list Z) (b k : nat) : Z := default 0%Z (nib_pair w_row (k / 8) (k mod 8) b).
Definition gbyte (w_row s_row : list Z) (b k : nat) : Z :=
  if k <? 4 then default 0%Z (s_row !! (b * 4 + k)) else qbyte w_row b (k - 4).
Definition grow (w_row s_row : list Z) (i : nat) : Z := gbyte w_row s_row (i / 36) (i mod 36).

Section Repack_row.
Context (nblk : nat) (w_row s_row : list Z).
Context (Hw : length w_row = 32 * nblk) (Hs : length s_row = 4 * nblk) (Hb : Forall is_byte w_row).

Lemma nib_Some e b : b < nblk -> e < 64 -> exists c, nib w_row e b = Some c /\ (0 <= c < 16)%Z.
Proof.
  intros Hlt He. unfold nib.
  assert (Hd : (b * 64 + e) / 2 < length w_row) by (apply Nat.Div0.div_lt_upper_bound; lia).
  destruct (lookup_lt_is_Some_2 _ _ Hd) as [v Hv]. rewrite Hv. cbn [mbind option_bind].
  eexists. split; [done|]. pose proof (nibble_bounds v (Forall_lookup_1 _ _ _ _ Hb Hv)).
  destruct (Nat.even _); tauto.
Qed.
Lemma nib_pair_Some s j b : b < nblk -> s < 4 -> j < 8 ->
  exists lo hi, nib w_row (s * 16 + j) b = Some lo /\ nib w_row (s * 16 + j + 8) b = Some hi /\
    (0 <= lo < 16)%Z /\ (0 <= hi < 16)%Z /\ nib_pair w_row s j b = Some (pack lo hi).
Proof.
  intros Hlt Hs4 Hj. destruct (nib_Some (s * 16 + j) b Hlt ltac:(lia)) as (lo & Elo & ?).
  destruct (nib_Some (s * 16 + j + 8) b Hlt ltac:(lia)) as (hi & Ehi & ?).
  exists lo, hi. unfold nib_pair. rewrite Elo, Ehi. done.
Qed.
(** The nest over [s] and [j] writes 32 quant bytes from [off] on. *)
Lemma quants_fill N F off b : b < nblk -> off + 32 <= N -> (forall k, k < 32 -> F (off + k) = qbyte w_row b k) ->
  fills N F (fun p => (off <=? p) && (p <? off + 4 * 8))
    (for_range 4 (fun s => for_range 8 (fun j q => v ← nib_pair w_row s j b; set_at (off + s * 8 + j) v q))).
Proof.
  intros Hlt Ho HF. apply fills_chunks; [lia|]. intros s Hs4.
  eapply fills_ext; [|apply (fills_for N F (fun j p => p =? off + s * 8 + j))].
  - intros p _. apply eq_true_iff_eq. rewrite existsb_exists, in_interval. split.
    + intros (j & Hj & He). apply in_seq in Hj. apply Nat.eqb_eq in He. lia.
    + intros Hp. exists (p - (off + s * 8)). split; [apply in_seq; lia|apply Nat.eqb_eq; lia].
  - intros j Hj. destruct (nib_pair_Some s j b Hlt Hs4 Hj) as (lo & hi & _ & _ & _ & _ & Hp).
    assert (Hfill : F (off + s * 8 + j) = pack lo hi).
    { rewrite <- Nat.add_assoc, HF by lia. unfold qbyte.
      destruct (div_mod_row s 8 j Hj) as [-> ->]. by rewrite Hp. }
    rewrite <- Hfill in Hp. eapply fills_ext; [reflexivity|].
    intros l Hl. rewrite Hp. cbn [mbind option_bind]. apply fills_set; lia.
Qed.
Lemma repack_block_fill b : b < nblk ->
  fills 36 (gbyte w_row s_row b) (fun p => (0 <=? p) && (p <? 0 + 4) || (4 <=? p) && (p <? 4 + 4 * 8)) (repack_block w_row s_row b).
Proof.
  intros Hlt. unfold repack_block.
  destruct (slice_Some (b * 4) 4 s_row ltac:(lia)) as (sc & -> & Hsc & Hlk). cbn [mbind option_bind].
  pose proof (fills_copy 36 (gbyte w_row s_row b) 0 sc) as Hc. rewrite Hsc in Hc.
  apply (fills_seq 36 _ _ _ (copy_at 0 sc)).
  - apply Hc; [lia|]. intros i Hi. rewrite Hlk by done. cbn [Nat.add].
    unfold gbyte. rewrite (proj2 (Nat.ltb_lt _ _) Hi).
    destruct (lookup_lt_is_Some_2 s_row (b * 4 + i)) as [v ->]; [lia|done].
  - apply quants_fill; [done|lia|]. intros k Hk. unfold gbyte.
    rewrite (proj2 (Nat.ltb_ge _ _)) by lia. f_equal. lia.
Qed.
Lemma repack_row_fill :
  fills (nblk * 36) (grow w_row s_row) (fun p => (0 <=? p) && (p <? 0 + nblk * 36))
    (for_range nblk (fun b => with_slice (b * 36) 36 (repack_block w_row s_row b))).
Proof.
  apply fills_chunks; [lia|]. intros b Hb'. cbn [Nat.add].
  pose proof (Nat.mul_le_mono_r (b + 1) nblk 36 ltac:(lia)).
  eapply fills_sub_all; [lia|..].
  - intros l Hl. destruct (repack_block_fill b Hb' l Hl) as (l' & ? & Hl' & Hp). exists l'. split; [done|]. split; [done|].
    intros p Hlt. rewrite Hp by done. unfold grow.
    destruct (div_mod_row b 36 p ltac:(lia)) as [-> ->]. reflexivity.
  - intros i Hi. rewrite orb_true_iff, !in_interval. lia.
Qed.
End Repack_row.

(** ** Whole weights *)

Section Repack.
Context (weight wscale : list Z) (out_f in_f : nat).
Context (Hok : repack_ok weight wscale out_f in_f = true) (Hb : Forall is_byte weight).

Lemma repack_ok_inv : exists nblk, in_f = 64 * nblk /\ in_f / 64 = nblk /\ in_f / 2 = 32 * nblk /\ in_f / 16 = 4 * nblk /\
  length weight = out_f * (32 * nblk) /\ length wscale = out_f * (4 * nblk).
Proof.
  unfold repack_ok in Hok. apply andb_true_iff in Hok as [[Hm%Nat.eqb_eq Hw%Nat.eqb_eq]%andb_true_iff Hs%Nat.eqb_eq].
  pose proof (Nat.div_mod in_f 64 ltac:(lia)) as Hd. exists (in_f / 64).
  assert (H2 : in_f / 2 = 32 * (in_f / 64)) by (symmetry; apply (Nat.div_unique _ _ _ 0); lia).
  assert (H16 : in_f / 16 = 4 * (in_f / 64)) by (symmetry; apply (Nat.div_unique _ _ _ 0); lia).
  rewrite H2 in Hw. rewrite H16 in Hs. repeat split; [lia|done..].
Qed.
Definition w_of (o : nat) : list Z := row (in_f / 2) weight o.
Definition s_of (o : nat) : list Z := row (in_f / 16) wscale o.
Lemma rows_of o : o < out_f ->
  slice (o * (in_f / 2)) (in_f / 2) weight = Some (w_of o) /\ slice (o * (in_f / 16)) (in_f / 16) wscale = Some (s_of o) /\
  length (w_of o) = 32 * (in_f / 64) /\ length (s_of o) = 4 * (in_f / 64) /\ Forall is_byte (w_of o).
Proof.
  intros Ho. destruct repack_ok_inv as (nblk & Hin & H64 & H2 & H16 & Hw & Hs).
  unfold w_of, s_of. rewrite H2, H16, H64.
  destruct (slice_row (32 * nblk) out_f o weight Hw Ho), (slice_row (4 * nblk) out_f o wscale Hs Ho).
  repeat split; [done..|]. by apply Forall_row.
Qed.

(** The block layout: row [o] is [grow] of row [o] of the checkpoint. *)
Definition packed_byte (p : nat) : Z :=
  let row_bytes := in_f / 64 * 36 in grow (w_of (p / row_bytes)) (s_of (p / row_bytes)) (p mod row_bytes).
Lemma repack_gguf_spec :
  repack_modelopt_to_gguf weight wscale out_f in_f = Some (packed_byte <$> seq 0 (out_f * (in_f / 64 * 36))).
Proof.
  unfold repack_modelopt_to_gguf. rewrite Hok. cbn [negb].
  set (row_bytes := in_f / 64 * 36).
  apply (fills_all _ _ (fun p => (0 <=? p) && (p <? 0 + out_f * row_bytes))); [|by rewrite length_replicate|].
  2:{ intros p Hp. left. apply in_interval. lia. }
  apply fills_chunks; [lia|]. intros o Ho. cbn [Nat.add].
  pose proof (Nat.mul_le_mono_r (o + 1) out_f row_bytes ltac:(lia)).
  destruct (rows_of o Ho) as (Ew & Es & Hw & Hs & Hbw).
  intros l Hl. rewrite Ew, Es. cbn [mbind option_bind]. revert l Hl.
  eapply fills_sub_all; [lia|..].
  - intros l Hl. destruct (repack_row_fill (in_f / 64) _ _ Hw Hs Hbw l Hl) as (l' & E & Hl' & Hp).
    exists l'. split; [exact E|]. split; [done|]. intros p Hlt. rewrite Hp by done. unfold packed_byte. fold row_bytes.
    destruct (div_mod_row o row_bytes p ltac:(lia)) as [-> ->]. reflexivity.
  - intros i Hi. apply in_interval. lia.
Qed.
Lemma row_map {A : Type} (f : nat -> A) w n o : o < n -> row w (f <$> seq 0 (n * w)) o = (fun i => f (o * w + i)) <$> seq 0 w.
Proof.
  intros Ho. pose proof (Nat.mul_le_mono_r (o + 1) n w ltac:(lia)).
  apply list_eq. intros i. destruct (decide (i < w)).
  - rewrite row_lookup, !list_lookup_fmap, !lookup_seq_lt by lia. done.
  - rewrite !lookup_ge_None_2; [done|rewrite length_fmap, length_seq; lia|].
    unfold row. rewrite length_take. lia.
Qed.
Lemma packed_row o : o < out_f ->
  row (in_f / 64 * 36) (packed_byte <$> seq 0 (out_f * (in_f / 64 * 36))) o = grow (w_of o) (s_of o) <$> seq 0 (in_f / 64 * 36).
Proof.
  intros Ho. rewrite row_map by done. apply list_fmap_ext. intros i x [Hi%eq_sym Hx]%lookup_seq.
  unfold packed_byte. subst x. cbn [Nat.add] in *.
  destruct (div_mod_row o (in_f / 64 * 36) i ltac:(lia)) as [-> ->]. done.
Qed.
End Repack.

(** ** Dequantised rows, element by element *)

Definition kv (c : Z) : spec_float := default f32_zero (kvalue c).
Lemma kvalue_kv c : (0 <= c < 16)%Z -> kvalue c = Some (kv c).
Proof. intros Hc. unfold kv. by destruct (kvalue_Some c Hc) as [k ->]. Qed.
Definition byte_at (l : list Z) (i : nat) : Z := default 0%Z (l !! i).
Lemma byte_at_Some l i : i < length l -> l !! i = Some (byte_at l i).
Proof. intros Hi. unfold byte_at. by destruct (lookup_lt_is_Some_2 l i Hi) as [v ->]. Qed.
Lemma byte_at_byte l i : Forall is_byte l -> is_byte (byte_at l i).
Proof.
  intros Hb. unfold byte_at. destruct (l !! i) eqn:E; cbn; [by eapply Forall_lookup_1|unfold is_byte; lia].
Qed.
(** Code and value of element [e] of a checkpoint row. *)
Definition code_of (w_row : list Z) (e : nat) : Z :=
  let byte := byte_at w_row (e / 2) in if Nat.even e then Z.land byte 15 else Z.shiftr byte 4.
Definition melem (w_row s_row : list Z) (e : nat) : spec_float :=
  f32_mul (kv (code_of w_row e)) (ue4m3_to_f32 (byte_at s_row (e / 16))).
(** ... of a GGUF row. *)
Definition gcode (g : list Z) (e : nat) : Z :=
  let byte := byte_at g (e / 64 * 36 + 4 + e mod 64 / 16 * 8 + e mod 8) in
  if e mod 16 <? 8 then Z.land byte 15 else Z.shiftr byte 4.
Definition gelem (g : list Z) (e : nat) : spec_float :=
  f32_mul (kv (gcode g e)) (ue4m3_to_f32 (byte_at g (e / 64 * 36 + e mod 64 / 16))).

Lemma code_of_bounds w_row e : Forall is_byte w_row -> (0 <= code_of w_row e < 16)%Z.
Proof.
  intros Hb. unfold code_of. pose proof (nibble_bounds _ (byte_at_byte w_row (e / 2) Hb)). destruct (Nat.even e); tauto.
Qed.
Lemma dequant_modelopt_row_spec w_row s_row in_f nblk : in_f = 64 * nblk ->
  length w_row = 32 * nblk -> length s_row = 4 * nblk -> Forall is_byte w_row -> Forall is_byte s_row ->
  dequant_modelopt_row w_row s_row in_f = Some (melem w_row s_row <$> seq 0 in_f).
Proof.
  intros Hin Hw Hs Hbw Hbs. unfold dequant_modelopt_row.
  apply (fills_all in_f (melem w_row s_row) (fun p => existsb (fun e => p =? e) (seq 0 in_f))).
  - apply fills_for. intros e He.
    assert (e / 2 < length w_row) by (apply Nat.Div0.div_lt_upper_bound; lia).
    assert (e / 16 < length s_row) by (apply Nat.Div0.div_lt_upper_bound; lia).
    pose proof (code_of_bounds w_row e Hbw) as Hc. pose proof (byte_at_byte s_row (e / 16) Hbs) as Hsc.
    eapply fills_ext; [reflexivity|]. intros l Hl.
    rewrite (byte_at_Some w_row), (byte_at_Some s_row) by done. cbn [mbind option_bind].
    fold (code_of w_row e). rewrite (kvalue_kv _ Hc). cbn [mbind option_bind].
    rewrite (doubled_half_cancel (code_of w_row e) _ (kv (code_of w_row e)) Hc Hsc (kvalue_kv _ Hc)).
    by apply (fills_set in_f (melem w_row s_row)).
  - by rewrite length_replicate.
  - intros p Hp. left. apply (existsb_seq _ _ p Hp), Nat.eqb_refl.
Qed.

(** Index arithmetic of one block. *)
Lemma elem_index i s t : s < 4 -> t < 16 ->
  (i * 64 + s * 16 + t) / 64 = i /\ (i * 64 + s * 16 + t) mod 64 / 16 = s /\
  (i * 64 + s * 16 + t) mod 16 = t /\ (i * 64 + s * 16 + t) mod 8 = t mod 8.
Proof.
  intros Hs Ht. rewrite <- Nat.add_assoc. destruct (div_mod_row i 64 (s * 16 + t) ltac:(lia)) as [-> ->].
  destruct (div_mod_row s 16 t Ht) as [-> _]. split; [done|]. split; [done|].
  rewrite Nat.add_assoc. split.
  - replace (i * 64 + s * 16 + t) with ((i * 4 + s) * 16 + t) by lia. by destruct (div_mod_row (i * 4 + s) 16 t Ht).
  - replace (i * 64 + s * 16 + t) with (t + (i * 8 + s * 2) * 8) by lia. by rewrite Nat.Div0.mod_add.
Qed.
Lemma gcode_bounds g e : Forall is_byte g -> (0 <= gcode g e < 16)%Z.
Proof.
  intros Hb. unfold gcode. set (i := _ + e mod 8). pose proof (nibble_bounds _ (byte_at_byte g i Hb)).
  destruct (e mod 16 <? 8); tauto.
Qed.
Lemma gelem_at g i s t : s < 4 -> t < 16 ->
  gelem g (i * 64 + s * 16 + t) =
    f32_mul (kv (let byte := byte_at g (i * 36 + 4 + s * 8 + t mod 8) in if t <? 8 then Z.land byte 15 else Z.shiftr byte 4))
      (ue4m3_to_f32 (byte_at g (i * 36 + s))).
Proof. intros Hs Ht. unfold gelem, gcode. by destruct (elem_index i s t Hs Ht) as (-> & -> & -> & ->). Qed.
Lemma dequant_gguf_row_spec g in_f nblk : in_f = 64 * nblk -> length g = nblk * 36 -> Forall is_byte g ->
  dequant_gguf_row g in_f = Some (gelem g <$> seq 0 in_f).
Proof.
  intros Hin Hg Hb. unfold dequant_gguf_row.
  assert (E64 : in_f / 64 = nblk) by (subst; by rewrite Nat.mul_comm, Nat.div_mul).
  rewrite E64.
  apply (fills_all in_f (gelem g) (fun p => (0 <=? p) && (p <? 0 + nblk * 64))); [|by rewrite length_replicate|].
  2:{ intros p Hp. left. apply in_interval. lia. }
  apply fills_chunks; [lia|]. intros i Hi. cbn [Nat.add].
  destruct (slice_Some (i * 36) 4 g ltac:(lia)) as (db & E1 & Hdb & Hlk1).
  destruct (slice_Some (i * 36 + 4) 32 g ltac:(lia)) as (qs & E2 & Hqs & Hlk2).
  eapply fills_ext; [reflexivity|]. intros l. rewrite E1, E2. cbn [mbind option_bind]. revert l.
  apply (fills_chunks in_f (gelem g) (i * 64) 16 4); [lia|]. intros s Hs.
  eapply fills_ext; [|intros l; rewrite Hlk1 by done; rewrite byte_at_Some by lia; cbn [mbind option_bind]; revert l;
    apply (fills_for in_f (gelem g) (fun j p => (p =? i * 64 + s * 16 + j) || (p =? i * 64 + s * 16 + j + 8)))].
  - intros p _. apply eq_true_iff_eq. rewrite existsb_exists, in_interval. split.
    + intros (j & Hj & He). apply in_seq in Hj. rewrite orb_true_iff, !Nat.eqb_eq in He. lia.
    + intros Hp. exists ((p - (i * 64 + s * 16)) mod 8).
      pose proof (Nat.div_mod (p - (i * 64 + s * 16)) 8 ltac:(lia)).
      pose proof (Nat.mod_upper_bound (p - (i * 64 + s * 16)) 8 ltac:(lia)).
      assert ((p - (i * 64 + s * 16)) / 8 < 2) by (apply Nat.Div0.div_lt_upper_bound; lia).
      split; [apply in_seq; lia|]. rewrite orb_true_iff, !Nat.eqb_eq. lia.
  - intros j Hj. set (y := byte_at g (i * 36 + 4 + s * 8 + j)).
    assert (Hy : is_byte y) by by apply byte_at_byte.
    destruct (nibble_bounds y Hy) as [Hlo Hhi].
    intros l Hl. rewrite Hlk2 by lia. rewrite byte_at_Some by lia. cbn [mbind option_bind].
    rewrite Nat.add_assoc. fold y. rewrite (kvalue_kv _ Hlo), (kvalue_kv _ Hhi). cbn [mbind option_bind].
    apply (fills_seq in_f (gelem g) _ _ (set_at (i * 64 + s * 16 + j) _) (set_at (i * 64 + s * 16 + j + 8) _)); [..|done].
    + apply fills_set_eq; [lia|]. rewrite gelem_at by lia. rewrite (Nat.mod_small j 8) by lia.
      rewrite (proj2 (Nat.ltb_lt j 8)) by lia. done.
    + apply fills_set_eq; [lia|]. rewrite <- Nat.add_assoc, gelem_at by lia.
      replace ((j + 8) mod 8) with j by (rewrite <- (Nat.mod_small j 8) at 1 by lia; by rewrite <- (Nat.Div0.mod_add j 1 8)).
      rewrite (proj2 (Nat.ltb_ge (j + 8) 8)) by lia. done.
Qed.

(** The interleaved row holds the same values as the checkpoint row. *)
Lemma grow_byte nblk w_row s_row : length w_row = 32 * nblk -> length s_row = 4 * nblk ->
  Forall is_byte w_row -> Forall is_byte s_row -> Forall is_byte (grow w_row s_row <$> seq 0 (nblk * 36)).
Proof.
  intros Hw Hs Hbw Hbs. apply Forall_lookup_2. intros i x Hx.
  apply list_lookup_fmap_Some in Hx as (y & -> & [-> Hi]%lookup_seq). cbn [Nat.add].
  unfold grow, gbyte. destruct (Nat.ltb_spec (i mod 36) 4) as [H4|H4].
  - by apply byte_at_byte.
  - unfold qbyte.
    assert (i / 36 < nblk) by (apply Nat.Div0.div_lt_upper_bound; lia).
    pose proof (Nat.mod_upper_bound i 36 ltac:(lia)).
    destruct (nib_pair_Some nblk w_row s_row Hw Hs Hbw ((i mod 36 - 4) / 8) ((i mod 36 - 4) mod 8) (i / 36))
      as (lo & hi & _ & _ & Hlo & Hhi & ->); [done| |apply Nat.mod_upper_bound; lia|].
    { apply Nat.Div0.div_lt_upper_bound. lia. }
    by apply pack_nibbles.
Qed.
Lemma grow_elem nblk w_row s_row e : length w_row = 32 * nblk -> length s_row = 4 * nblk ->
  Forall is_byte w_row -> e < 64 * nblk ->
  gelem (grow w_row s_row <$> seq 0 (nblk * 36)) e = melem w_row s_row e.
Proof.
  intros Hw Hs Hbw He.
  set (i := e / 64). set (s := e mod 64 / 16). set (t := e mod 16).
  assert (Ee : e = i * 64 + s * 16 + t).
  { subst i s t. pose proof (Nat.div_mod e 64 ltac:(lia)). pose proof (Nat.div_mod (e mod 64) 16 ltac:(lia)).
    replace (e mod 16) with (e mod 64 mod 16); [lia|].
    rewrite (Nat.div_mod e 64) at 2 by lia. replace (64 * (e / 64)) with (e / 64 * 4 * 16) by lia.
    by rewrite Nat.add_comm, Nat.Div0.mod_add. }
  assert (Ht : t < 16) by (apply Nat.mod_upper_bound; lia).
  assert (Hs4 : s < 4) by (apply Nat.Div0.div_lt_upper_bound; pose proof (Nat.mod_upper_bound e 64 ltac:(lia)); lia).
  assert (Hi : i < nblk) by (apply Nat.Div0.div_lt_upper_bound; lia).
  clearbody i s t. subst e. rewrite gelem_at by done.
  pose proof (Nat.mod_upper_bound t 8 ltac:(lia)) as Hj. set (j := t mod 8) in *.
  assert (Hat : forall k, k < 36 -> byte_at (grow w_row s_row <$> seq 0 (nblk * 36)) (i * 36 + k) = gbyte w_row s_row i k).
  { intros k Hk. unfold byte_at. rewrite list_lookup_fmap, lookup_seq_lt by lia. cbn.
    unfold grow. by destruct (div_mod_row i 36 k Hk) as [-> ->]. }
  rewrite <- !(Nat.add_assoc (i * 36)), !Hat by lia. unfold melem. f_equal.
  - f_equal. unfold gbyte. rewrite (proj2 (Nat.ltb_ge (4 + s * 8 + j) 4)) by lia.
    replace (4 + s * 8 + j - 4) with (s * 8 + j) by lia. unfold qbyte.
    destruct (div_mod_row s 8 j Hj) as [-> ->].
    destruct (nib_pair_Some nblk w_row s_row Hw Hs Hbw s j i Hi Hs4 Hj) as (lo & hi & Elo & Ehi & Hlo & Hhi & ->). cbn [default from_option id].
    destruct (pack_nibbles lo hi Hlo Hhi) as (-> & -> & _).
    assert (Hc : forall e c, nib w_row e i = Some c -> code_of w_row (i * 64 + e) = c).
    { intros e c. unfold nib, code_of, byte_at. destruct (w_row !! _); [|done]. by intros [= <-]. }
    destruct (Nat.ltb_spec t 8); symmetry; rewrite <- Nat.add_assoc; apply Hc.
    + rewrite <- Elo. subst j. by rewrite Nat.mod_small.
    + pose proof (Nat.div_mod t 8 ltac:(lia)).
      assert (t / 8 < 2) by (apply Nat.Div0.div_lt_upper_bound; lia).
      assert (t / 8 <> 0) by (rewrite Nat.div_small_iff by lia; lia).
      assert (Et : s * 16 + t = s * 16 + j + 8) by (subst j; lia). rewrite Et. exact Ehi.
  - f_equal. unfold gbyte. rewrite (proj2 (Nat.ltb_lt s 4)) by lia. unfold byte_at. do 2 f_equal.
    replace (i * 64 + s * 16 + t) with ((i * 4 + s) * 16 + t) by lia. by destruct (div_mod_row (i * 4 + s) 16 t Ht) as [-> _].
Qed.

(** ** Split planes *)

(** Byte [p] of the split layout of [n] blocks; byte [p] of the blocks of a split weight. *)
Definition split_byte (bytes : list Z) (n p : nat) : Z :=
  if p <? n * 32 then byte_at bytes (p / 32 * 36 + 4 + p mod 32)
  else byte_at bytes ((p - n * 32) / 4 * 36 + (p - n * 32) mod 4).
Definition unsplit_byte (rp : list Z) (n p : nat) : Z :=
  let b := p / 36 in let k := p mod 36 in
  if k <? 4 then byte_at rp (n * 32 + b * 4 + k) else byte_at rp (b * 32 + (k - 4)).

Lemma blocks_of_row (bytes : list Z) out_f nsb : 0 < out_f -> length bytes = out_f * nsb * 36 ->
  length bytes / out_f = nsb * 36 /\ nsb * 36 / 36 = nsb.
Proof. intros Ho ->. split; [|by apply Nat.div_mul]. rewrite <- Nat.mul_assoc, Nat.mul_comm. apply Nat.div_mul. lia. Qed.
(** The two loops over rows and blocks visit block [o * nsb + s]. *)
Lemma exists_block out_f nsb (P : nat -> bool) q : q < out_f * nsb -> P q = true ->
  existsb (fun o => existsb (fun s => P (o * nsb + s)) (seq 0 nsb)) (seq 0 out_f) = true.
Proof.
  intros Hq HP. assert (nsb <> 0) by (intros ->; lia).
  apply (existsb_seq _ _ (q / nsb)); [apply Nat.Div0.div_lt_upper_bound; lia|].
  apply (existsb_seq _ _ (q mod nsb)); [by apply Nat.mod_upper_bound|].
  rewrite Nat.mul_comm, <- Nat.div_mod by done. done.
Qed.
Lemma block_lt out_f nsb o s : o < out_f -> s < nsb -> o * nsb + s < out_f * nsb.
Proof. intros Ho Hs. pose proof (Nat.mul_le_mono_r (o + 1) out_f nsb ltac:(lia)). lia. Qed.

Lemma repack_nvfp4_split_spec bytes out_f nsb : 0 < out_f -> length bytes = out_f * nsb * 36 ->
  repack_nvfp4_split bytes out_f = Some (split_byte bytes (out_f * nsb) <$> seq 0 (out_f * nsb * 36)).
Proof.
  intros Ho Hl. unfold repack_nvfp4_split. rewrite (proj2 (Nat.eqb_neq out_f 0)) by lia.
  destruct (blocks_of_row bytes out_f nsb Ho Hl) as [-> ->].
  set (n := out_f * nsb) in *. set (F := split_byte bytes n).
  set (dom q p := ((n * 32 + q * 4 <=? p) && (p <? n * 32 + q * 4 + 4)) || ((q * 32 <=? p) && (p <? q * 32 + 32))).
  apply (fills_all _ F (fun p => existsb (fun o => existsb (fun s => dom (o * nsb + s) p) (seq 0 nsb)) (seq 0 out_f))).
  - apply fills_for. intros o Hoo. apply fills_for. intros s Hs.
    pose proof (block_lt out_f nsb o s Hoo Hs) as Hq. fold n in Hq. set (q := o * nsb + s) in *.
    replace (o * (nsb * 36) + s * 36) with (q * 36) by (subst q; lia).
    destruct (slice_Some (q * 36) 36 bytes ltac:(lia)) as (src & E & Hsrc & Hlk).
    destruct (slice_Some 0 4 src ltac:(lia)) as (sc & E4 & Hsc & Hlk4).
    destruct (slice_Some 4 32 src ltac:(lia)) as (qs & E32 & Hqs & Hlk32).
    intros l Hlen. rewrite E. cbn [mbind option_bind]. rewrite E4, E32. cbn [mbind option_bind].
    refine (fills_seq _ F (fun p => (n * 32 + q * 4 <=? p) && (p <? n * 32 + q * 4 + 4)) (fun p => (q * 32 <=? p) && (p <? q * 32 + 32))
      (copy_at (n * 32 + q * 4) sc) (copy_at (q * 32) qs) _ _ l Hlen).
    + apply (fills_copy_n _ F _ 4 sc Hsc); [lia|]. intros i Hi. rewrite Hlk4, Hlk by lia. subst F. unfold split_byte.
      rewrite (proj2 (Nat.ltb_ge _ _)) by lia.
      replace (n * 32 + q * 4 + i - n * 32) with (q * 4 + i) by lia.
      destruct (div_mod_row q 4 i ltac:(lia)) as [-> ->]. apply byte_at_Some. lia.
    + apply (fills_copy_n _ F _ 32 qs Hqs); [lia|]. intros i Hi. rewrite Hlk32, Hlk by lia. subst F. unfold split_byte.
      rewrite (proj2 (Nat.ltb_lt _ _)) by lia.
      destruct (div_mod_row q 32 i ltac:(lia)) as [-> ->]. rewrite Nat.add_assoc. apply byte_at_Some. lia.
  - rewrite length_replicate. done.
  - intros p Hp. left. destruct (Nat.lt_ge_cases p (n * 32)).
    + apply (exists_block _ _ (fun q => dom q p) (p / 32)); [apply Nat.Div0.div_lt_upper_bound; lia|].
      pose proof (Nat.div_mod p 32 ltac:(lia)). pose proof (Nat.mod_upper_bound p 32 ltac:(lia)).
      unfold dom. rewrite orb_true_iff, !in_interval. lia.
    + apply (exists_block _ _ (fun q => dom q p) ((p - n * 32) / 4)); [apply Nat.Div0.div_lt_upper_bound; lia|].
      pose proof (Nat.div_mod (p - n * 32) 4 ltac:(lia)). pose proof (Nat.mod_upper_bound (p - n * 32) 4 ltac:(lia)).
      unfold dom. rewrite orb_true_iff, !in_interval. lia.
Qed.
Lemma unpack_nvfp4_split_spec rp out_f nsb : 0 < out_f -> length rp = out_f * nsb * 36 ->
  unpack_nvfp4_split rp out_f = Some (unsplit_byte rp (out_f * nsb) <$> seq 0 (out_f * nsb * 36)).
Proof.
  intros Ho Hl. unfold unpack_nvfp4_split. rewrite (proj2 (Nat.eqb_neq out_f 0)) by lia.
  destruct (blocks_of_row rp out_f nsb Ho Hl) as [-> ->].
  set (n := out_f * nsb) in *. set (F := unsplit_byte rp n).
  set (dom q p := ((q * 36 <=? p) && (p <? q * 36 + 4)) || ((q * 36 + 4 <=? p) && (p <? q * 36 + 4 + 32))).
  apply (fills_all _ F (fun p => existsb (fun o => existsb (fun s => dom (o * nsb + s) p) (seq 0 nsb)) (seq 0 out_f))).
  - apply fills_for. intros o Hoo. apply fills_for. intros s Hs.
    pose proof (block_lt out_f nsb o s Hoo Hs) as Hq. fold n in Hq. set (q := o * nsb + s) in *.
    replace (o * (nsb * 36) + s * 36) with (q * 36) by (subst q; lia).
    destruct (slice_Some (n * 32 + q * 4) 4 rp ltac:(lia)) as (sc & E4 & Hsc & Hlk4).
    destruct (slice_Some (q * 32) 32 rp ltac:(lia)) as (qs & E32 & Hqs & Hlk32).
    intros l Hlen. rewrite E4, E32. cbn [mbind option_bind].
    refine (fills_seq _ F (fun p => (q * 36 <=? p) && (p <? q * 36 + 4)) (fun p => (q * 36 + 4 <=? p) && (p <? q * 36 + 4 + 32))
      (copy_at (q * 36) sc) (copy_at (q * 36 + 4) qs) _ _ l Hlen).
    + apply (fills_copy_n _ F _ 4 sc Hsc); [lia|]. intros i Hi. rewrite Hlk4 by lia. subst F. unfold unsplit_byte.
      destruct (div_mod_row q 36 i ltac:(lia)) as [-> ->]. rewrite (proj2 (Nat.ltb_lt _ _)) by lia. apply byte_at_Some. lia.
    + apply (fills_copy_n _ F _ 32 qs Hqs); [lia|]. intros i Hi. rewrite Hlk32 by lia. subst F. unfold unsplit_byte.
      rewrite <- Nat.add_assoc. destruct (div_mod_row q 36 (4 + i) ltac:(lia)) as [-> ->].
      rewrite (proj2 (Nat.ltb_ge _ _)) by lia. replace (4 + i - 4) with i by lia. apply byte_at_Some. lia.
  - rewrite length_replicate. done.
  - intros p Hp. left.
    apply (exists_block _ _ (fun q => dom q p) (p / 36)); [apply Nat.Div0.div_lt_upper_bound; lia|].
    pose proof (Nat.div_mod p 36 ltac:(lia)). pose proof (Nat.mod_upper_bound p 36 ltac:(lia)).
    unfold dom. rewrite orb_true_iff, !in_interval. lia.
Qed.

Section Split.
Context (weight wscale : list Z) (out_f in_f : nat).
Context (Hok : repack_ok weight wscale out_f in_f = true) (Hb : Forall is_byte weight).
Let nblk := in_f / 64.
Let packed := packed_byte weight wscale in_f <$> seq 0 (out_f * (nblk * 36)).

Lemma packed_at o b k : o < out_f -> b < nblk -> k < 36 ->
  byte_at packed ((o * nblk + b) * 36 + k) = gbyte (w_of weight in_f o) (s_of wscale in_f o) b k.
Proof.
  intros Ho Hbl Hk. pose proof (block_lt out_f nblk o b Ho Hbl).
  unfold byte_at, packed. rewrite list_lookup_fmap, lookup_seq_lt by lia. cbn [fmap option_fmap option_map default from_option id Nat.add].
  unfold packed_byte. fold nblk. replace ((o * nblk + b) * 36 + k) with (o * (nblk * 36) + (b * 36 + k)) by lia.
  destruct (div_mod_row o (nblk * 36) (b * 36 + k) ltac:(lia)) as [-> ->].
  unfold grow. by destruct (div_mod_row b 36 k Hk) as [-> ->].
Qed.
Lemma split_quant o b k : o < out_f -> b < nblk -> k < 32 ->
  split_byte packed (out_f * nblk) ((o * nblk + b) * 32 + k) = qbyte (w_of weight in_f o) b k.
Proof.
  intros Ho Hbl Hk. pose proof (block_lt out_f nblk o b Ho Hbl). unfold split_byte.
  rewrite (proj2 (Nat.ltb_lt _ _)) by lia. destruct (div_mod_row (o * nblk + b) 32 k Hk) as [-> ->].
  rewrite <- Nat.add_assoc, packed_at by lia. unfold gbyte.
  rewrite (proj2 (Nat.ltb_ge (4 + k) 4)) by lia. f_equal. lia.
Qed.
Lemma split_scale i : i < out_f * nblk * 4 ->
  wscale !! i = Some (split_byte packed (out_f * nblk) (out_f * nblk * 32 + i)).
Proof.
  intros Hi. destruct (repack_ok_inv weight wscale out_f in_f Hok) as (n & Hin & H64 & H2 & H16 & Hw & Hs).
  fold nblk in H64. subst n. unfold split_byte. rewrite (proj2 (Nat.ltb_ge _ _)) by lia.
  replace (out_f * nblk * 32 + i - out_f * nblk * 32) with i by lia.
  assert (Hn0 : nblk <> 0) by (intros E; rewrite E in Hi; lia).
  pose proof (Nat.div_mod i 4 ltac:(lia)) as Ei. pose proof (Nat.mod_upper_bound i 4 ltac:(lia)) as Hk.
  assert (Hq : i / 4 < out_f * nblk) by (apply Nat.Div0.div_lt_upper_bound; lia).
  pose proof (Nat.div_mod (i / 4) nblk Hn0) as Eq. pose proof (Nat.mod_upper_bound (i / 4) nblk Hn0) as Hbl.
  assert (Ho : i / 4 / nblk < out_f) by (apply Nat.Div0.div_lt_upper_bound; lia).
  set (o := i / 4 / nblk) in *. set (b := (i / 4) mod nblk) in *. set (k := i mod 4) in *.
  assert (Ei4 : i / 4 = o * nblk + b) by lia. rewrite Ei4, packed_at by lia.
  unfold gbyte. rewrite (proj2 (Nat.ltb_lt _ _)) by lia. unfold s_of. rewrite H16, row_lookup by lia.
  replace (o * (4 * nblk) + (b * 4 + k)) with i by lia.
  destruct (lookup_lt_is_Some_2 wscale i) as [v ->]; [lia|done].
Qed.
Lemma repack_split_spec :
  repack_modelopt_to_split weight wscale out_f in_f = Some (split_byte packed (out_f * nblk) <$> seq 0 (out_f * nblk * 36)).
Proof.
  destruct (repack_ok_inv weight wscale out_f in_f Hok) as (n' & Hin & H64 & H2 & H16 & Hw & Hs).
  fold nblk in H64. subst n'.
  unfold repack_modelopt_to_split. rewrite Hok. cbn [negb]. fold nblk. set (n := out_f * nblk) in *.
  set (F := split_byte packed n).
  replace (n * 36 - n * 32) with (n * 4) by lia.
  set (dom p := ((n * 32 <=? p) && (p <? n * 32 + n * 4)) || ((0 <=? p) && (p <? 0 + out_f * (nblk * 32)))).
  match goal with |- (with_slice ?a ?b ?f ?l0 ≫= ?k) = _ =>
    apply (fills_all (n * 36) F dom (fun l => with_slice a b f l ≫= k) l0) end.
  - refine (fills_seq _ F _ _ (with_slice (n * 32) (n * 4) _) _ _ _).
    + apply (fills_sub_all _ F (n * 32) (n * 4) (fun p => (0 <=? p) && (p <? 0 + n * 4))); [lia| |].
      * intros l Hl. rewrite Hl. rewrite (proj2 (Nat.eqb_eq (n * 4) (length wscale))) by lia. revert l Hl.
        apply fills_copy_n; [lia|lia|]. intros i Hi. by apply split_scale.
      * intros i Hi. apply in_interval. lia.
    + apply fills_chunks; [lia|]. intros o Ho. cbn [Nat.add].
      destruct (rows_of weight wscale out_f in_f Hok Hb o Ho) as (Ew & _ & Hwo & Hso & Hbw).
      eapply fills_ext; [reflexivity|]. intros l. rewrite Ew. cbn [mbind option_bind]. revert l.
      pose proof (Nat.mul_le_mono_r (o + 1) out_f nblk ltac:(lia)).
      apply fills_chunks; [lia|]. intros b Hbl. replace (o * (nblk * 32) + b * 32) with ((o * nblk + b) * 32) by lia.
      apply (fills_sub_all _ F ((o * nblk + b) * 32) 32 (fun p => (0 <=? p) && (p <? 0 + 4 * 8))); [lia| |].
      * apply (quants_fill nblk (w_of weight in_f o) (s_of wscale in_f o) Hwo Hso Hbw 32 _ 0 b Hbl); [lia|].
        intros k Hk. by apply split_quant.
      * intros i Hi. apply in_interval. lia.
  - apply length_replicate.
  - intros p Hp. left. unfold dom. rewrite orb_true_iff, !in_interval. lia.
Qed.
End Split.

(** ** Repacking preserves the weight *)

(** C23. Repacking a checkpoint weight never panics on well-sized input (and
    always does otherwise), and every row of the GGUF blocks it writes
    dequantises to the same binary32 values, bit for bit, as the checkpoint row. *)
Theorem nvfp4_repack_exact (weight wscale : list Z) (out_f in_f : nat) :
  Forall is_byte weight -> Forall is_byte wscale ->
  if repack_ok weight wscale out_f in_f then
    exists packed, repack_modelopt_to_gguf weight wscale out_f in_f = Some packed /\
      length packed = out_f * (in_f / 64 * 36) /\
      forall o, o < out_f -> exists vals, length vals = in_f /\
        dequant_modelopt_row (row (in_f / 2) weight o) (row (in_f / 16) wscale o) in_f = Some vals /\
        dequant_gguf_row (row (in_f / 64 * 36) packed o) in_f = Some vals
  else repack_modelopt_to_gguf weight wscale out_f in_f = None.
Proof.
  intros Hb Hbs. destruct (repack_ok _ _ _ _) eqn:Hok; [|unfold repack_modelopt_to_gguf; by rewrite Hok].
  destruct (repack_ok_inv weight wscale out_f in_f Hok) as (nblk & Hin & H64 & _).
  eexists. split; [by apply repack_gguf_spec|]. split; [by rewrite length_fmap, length_seq|].
  intros o Ho. destruct (rows_of weight wscale out_f in_f Hok Hb o Ho) as (_ & _ & Hw & Hs & Hbw).
  assert (Hbso : Forall is_byte (s_of wscale in_f o)) by by apply Forall_row.
  rewrite H64 in Hw, Hs. exists (melem (w_of weight in_f o) (s_of wscale in_f o) <$> seq 0 in_f).
  split; [by rewrite length_fmap, length_seq|]. split.
  - by apply (dequant_modelopt_row_spec _ _ in_f nblk).
  - rewrite packed_row, H64 by done.
    rewrite (dequant_gguf_row_spec _ in_f nblk Hin); [|by rewrite length_fmap, length_seq|by apply (grow_byte nblk)].
    f_equal. apply list_fmap_ext. intros i x [-> Hi]%lookup_seq. apply grow_elem; [done..|lia].
Qed.
Lemma nvfp4_repack_exact_witness :
  exists packed, repack_modelopt_to_gguf (replicate 64 149%Z) (replicate 8 56%Z) 2 64 = Some packed /\ length packed = 72.
Proof.
  assert (Hw : Forall is_byte (replicate 64 149%Z)) by (apply Forall_replicate; unfold is_byte; lia).
  assert (Hs : Forall is_byte (replicate 8 56%Z)) by (apply Forall_replicate; unfold is_byte; lia).
  destruct (nvfp4_repack_exact (replicate 64 149%Z) (replicate 8 56%Z) 2 64 Hw Hs) as (p & E & Hl & _).
  exists p. split; [exact E|exact Hl].
Defined.

(** The one-pass repack to split planes is the block repack followed by the
    split; the scale plane is the checkpoint's scale tensor verbatim; and
    unpacking split planes gives back the blocks, for every weight. *)
Theorem nvfp4_split_fused (weight wscale : list Z) (out_f in_f : nat) :
  0 < out_f -> Forall is_byte weight ->
  (repack_ok weight wscale out_f in_f = true ->
   exists packed sp, repack_modelopt_to_gguf weight wscale out_f in_f = Some packed /\
     repack_modelopt_to_split weight wscale out_f in_f = Some sp /\
     repack_nvfp4_split packed out_f = Some sp /\
     drop (out_f * (in_f / 64) * 32) sp = wscale) /\
  (forall (bytes : list Z) nsb, length bytes = out_f * nsb * 36 ->
   exists sp, repack_nvfp4_split bytes out_f = Some sp /\ unpack_nvfp4_split sp out_f = Some bytes).
Proof.
  intros Ho Hb. split.
  - intros Hok. destruct (repack_ok_inv weight wscale out_f in_f Hok) as (n & Hin & H64 & H2 & H16 & Hw & Hs).
    do 2 eexists. split; [by apply repack_gguf_spec|]. split; [by apply repack_split_spec|].
    split; [rewrite (repack_nvfp4_split_spec _ out_f (in_f / 64) Ho); [done|rewrite length_fmap, length_seq; lia]|].
    apply list_eq. intros i. rewrite lookup_drop. rewrite H64.
    destruct (Nat.lt_ge_cases i (out_f * n * 4)) as [Hlt|Hge].
    + rewrite list_lookup_fmap, lookup_seq_lt by lia. cbn.
      pose proof (split_scale weight wscale out_f in_f Hok i) as Hsc. rewrite H64 in Hsc. rewrite Hsc by done. done.
    + rewrite !lookup_ge_None_2; [done|lia|]. rewrite length_fmap, length_seq. lia.
  - intros bytes nsb Hl. eexists. split; [by apply repack_nvfp4_split_spec|].
    set (n := out_f * nsb) in *.
    rewrite (unpack_nvfp4_split_spec _ out_f nsb Ho) by (rewrite length_fmap, length_seq; done). fold n.
    f_equal. apply list_eq. intros p. destruct (Nat.lt_ge_cases p (n * 36)) as [Hlt|Hge].
    2:{ rewrite !lookup_ge_None_2; [done|lia|]. rewrite length_fmap, length_seq. lia. }
    rewrite list_lookup_fmap, lookup_seq_lt by done. cbn [fmap option_fmap option_map Nat.add].
    rewrite (byte_at_Some bytes) by lia. f_equal.
    pose proof (Nat.div_mod p 36 ltac:(lia)) as Ep. pose proof (Nat.mod_upper_bound p 36 ltac:(lia)) as Hk.
    assert (Hq : p / 36 < n) by (apply Nat.Div0.div_lt_upper_bound; lia).
    assert (Hat : forall i, i < n * 36 -> byte_at (split_byte bytes n <$> seq 0 (n * 36)) i = split_byte bytes n i).
    { intros i Hi. unfold byte_at. by rewrite list_lookup_fmap, lookup_seq_lt. }
    unfold unsplit_byte. destruct (Nat.ltb_spec (p mod 36) 4).
    + rewrite Hat by lia. unfold split_byte. rewrite (proj2 (Nat.ltb_ge _ _)) by lia.
      replace (n * 32 + p / 36 * 4 + p mod 36 - n * 32) with (p / 36 * 4 + p mod 36) by lia.
      destruct (div_mod_row (p / 36) 4 (p mod 36) ltac:(lia)) as [-> ->]. f_equal. lia.
    + rewrite Hat by lia. unfold split_byte. rewrite (proj2 (Nat.ltb_lt _ _)) by lia.
      destruct (div_mod_row (p / 36) 32 (p mod 36 - 4) ltac:(lia)) as [-> ->]. f_equal. lia.
Qed.
Lemma nvfp4_split_fused_witness :
  exists packed sp, repack_modelopt_to_gguf (replicate 32 149%Z) [56; 57; 58; 59]%Z 1 64 = Some packed /\
    repack_nvfp4_split packed 1 = Some sp /\ drop 32 sp = [56; 57; 58; 59]%Z.
Proof.
  assert (Hw : Forall is_byte (replicate 32 149%Z)) by (apply Forall_replicate; unfold is_byte; lia).
  destruct (nvfp4_split_fused (replicate 32 149%Z) [56; 57; 58; 59]%Z 1 64 ltac:(lia) Hw) as [H _].
  destruct (H eq_refl) as (p & s & E1 & _ & E2 & E3). exists p, s. split; [exact E1|]. split; [exact E2|exact E3].
Defined.
