(* ===== verification/ReadBackend.v ===== *)
(** What the expert cache asks of its disk-read backend.

    [ReadBackend] lists the methods of [PreadPool] the cache calls, and
    [ReadBackendLaws] what it relies on: a ticket delivers the bytes it was
    submitted for, and a buffer it claims keeps them until it is handed to a
    transfer or given back.  [PreadBackend.v] shows that the pool of
    [PreadPool.v] is such a backend. *)
From S2P Require Import Prelude Effects.

Class ReadBackend := {
  rb_state : Type;
  rb_file : Type;
  rb_err : Type;
  (** the bytes of an extent *)
  rb_extent : rb_file -> Z -> nat -> list Z;
  rb_is_worker : rb_state -> bool;
  rb_read : rb_file -> Z -> nat -> M rb_state rb_err nat;
  rb_submit : rb_file -> Z -> nat -> M rb_state rb_err (option Z);
  rb_submit_speculative : rb_file -> Z -> nat -> M rb_state rb_err (option Z);
  rb_wait : Z -> M rb_state rb_err nat;
  rb_cancel : Z -> M rb_state rb_err bool;
  rb_bytes : nat -> nat -> M rb_state rb_err (list Z);
  rb_mark_h2d : nat -> Z -> M rb_state rb_err unit;
  rb_mark_unknown : nat -> M rb_state rb_err unit;
  rb_abort : nat -> M rb_state rb_err unit;
  rb_note_fallback : M rb_state rb_err Z;
}.

(** [rb_inv w G p]: the backend is sound, runs workers iff [w], and [G] gives
    the bytes of the tickets that may still be waited for. *)
Class ReadBackendLaws (rb : ReadBackend) := {
  rb_inv : bool -> gmap Z (list Z) -> rb_state -> Prop;
  rb_claimed : rb_state -> nat -> list Z -> Prop;
  law_kind w G p : rb_inv w G p -> rb_is_worker p = w;
  law_read w G p f off len :
    rb_inv w G p -> (0 <= off)%Z ->
    wp (rb_read f off len)
      (fun i p' => rb_inv w G p' /\ length (rb_extent f off len) = len /\
         rb_claimed p' i (rb_extent f off len))
      (fun _ p' => rb_inv w G p') p;
  law_submit w G p f off len :
    rb_inv w G p -> (0 <= off)%Z ->
    wp (rb_submit f off len)
      (fun r p' => match r with
         | Some t => G !! t = None /\ rb_inv w (<[t := rb_extent f off len]> G) p'
         | None => rb_inv w G p'
         end) (fun _ p' => rb_inv w G p') p;
  law_submit_speculative w G p f off len :
    rb_inv w G p -> (0 <= off)%Z ->
    wp (rb_submit_speculative f off len)
      (fun r p' => match r with
         | Some t => G !! t = None /\ rb_inv w (<[t := rb_extent f off len]> G) p'
         | None => rb_inv w G p'
         end) (fun _ p' => rb_inv w G p') p;
  law_wait w G p t :
    rb_inv w G p ->
    wp (rb_wait t)
      (fun i p' => rb_inv w G p' /\ forall x, G !! t = Some x -> rb_claimed p' i x)
      (fun _ p' => rb_inv w G p') p;
  law_cancel w G p t :
    rb_inv w G p -> wp (rb_cancel t) (fun _ p' => rb_inv w G p') (fun _ _ => False) p;
  law_bytes w G p i x :
    rb_inv w G p -> rb_claimed p i x ->
    wp (rb_bytes i (length x)) (fun r p' => r = x /\ rb_inv w G p' /\ rb_claimed p' i x)
      (fun _ p' => rb_inv w G p' /\ rb_claimed p' i x) p;
  law_mark_h2d w G p i x ev :
    rb_inv w G p -> rb_claimed p i x ->
    wp (rb_mark_h2d i ev) (fun _ p' => rb_inv w G p') (fun _ _ => False) p;
  law_mark_unknown w G p i x :
    rb_inv w G p -> rb_claimed p i x ->
    wp (rb_mark_unknown i) (fun _ p' => rb_inv w G p') (fun _ _ => False) p;
  law_abort w G p i x :
    rb_inv w G p -> rb_claimed p i x ->
    wp (rb_abort i) (fun _ p' => rb_inv w G p') (fun _ _ => False) p;
  law_note_fallback w G p :
    rb_inv w G p -> wp rb_note_fallback (fun _ p' => rb_inv w G p') (fun _ _ => False) p;
  (** the owner may forget a ticket *)
  law_forget w G G' p : rb_inv w G p -> G' ⊆ G -> rb_inv w G' p;
}.
