(* ===== verification/PreadBackend.v ===== *)
(** The pinned read pool is a read backend: [ReadBackend]'s laws, from the
    pool's invariant. *)
From S2P Require Import Prelude Effects PreadPool ReadBackend.

Section Backend.
Context {os : Os}.

#[export] Instance pread_backend : ReadBackend := {|
  rb_state := PreadPool;
  rb_file := file;
  rb_err := PoolErr;
  rb_extent f off len := slice_at (contents f) off len;
  rb_is_worker p := is_worker (mode p);
  rb_read := read;
  rb_submit := submit_worker;
  rb_submit_speculative := submit_worker_speculative;
  rb_wait := wait_worker;
  rb_cancel := cancel_worker;
  rb_bytes := bytes;
  rb_mark_h2d := mark_h2d;
  rb_mark_unknown := mark_unknown_h2d;
  rb_abort := abort_read;
  rb_note_fallback := note_fallback;
|}.

Context {laws : OsLaws}.

Definition backend_inv (w : bool) (G : gmap Z (list Z)) (p : PreadPool) : Prop :=
  pool_inv G p /\ pool_live p = true /\ is_worker (mode p) = w.

Lemma backend_kind w G p p' :
  backend_inv w G p -> pool_inv G p' -> same_kind p p' -> backend_inv w G p'.
Proof. intros (_ & Hl & Hm) H [Hl' Hm']. split; [done|]. by rewrite Hl', Hm'. Qed.
Lemma backend_steady w G p p' :
  backend_inv w G p -> pool_inv G p' /\ steady p p' -> backend_inv w G p'.
Proof. intros H [? ?]. eauto using backend_kind, steady_kind. Qed.

Lemma backend_submit w G p f off len a :
  backend_inv w G p -> (0 <= off)%Z ->
  wp (submit_worker_with_admission f off len a)
    (fun r p' => match r with
       | Some t => G !! t = None /\ backend_inv w (<[t := slice_at (contents f) off len]> G) p'
       | None => backend_inv w G p'
       end) (fun _ p' => backend_inv w G p') p.
Proof.
  intros H Hoff. pose proof H as (Hp & Hl & Hm).
  eapply wp_mono; [by apply (wp_submit f off len a G)| |].
  - intros [t|] p'; simpl; [|by apply backend_steady].
    intros (? & ? & _ & _ & _ & ? & Hm'). split; [done|]. split; [done|]. by rewrite Hm'.
  - intros e p'. by apply backend_steady.
Qed.

#[export] Instance pread_backend_laws : ReadBackendLaws pread_backend.
Proof.
  refine {| rb_inv := backend_inv; rb_claimed := claimed |}; simpl; intros w G p.
  - by intros (_ & _ & ?).
  - intros f off len H Hoff. eapply wp_mono; [apply (wp_read f off len G p); [apply H|done]| |].
    + intros i p' (? & ? & ?). split; [by eapply backend_steady|done].
    + intros e p'. by apply backend_steady.
  - intros f off len. apply backend_submit.
  - intros f off len. apply backend_submit.
  - intros t H. eapply wp_mono; [apply (wp_wait_worker t G p), H| |].
    + intros i p' (? & _ & ? & ?). split; [by eapply backend_kind|done].
    + intros e p' (? & _ & ?). by eapply backend_kind.
  - intros t H. eapply wp_conseq; [apply (wp_cancel_worker t G p), H|].
    intros i p' (? & _ & ?). by eapply backend_kind.
  - intros i x H Hcl. eapply wp_mono; [eapply (wp_bytes G p i x (fun _ p' => exists w0, p' = with_env w0 p));
      [done|apply H|by eauto]| |].
    + intros r p' (-> & e & ->). split; [done|]. split; [|done].
      destruct H as (? & ? & ?). split; [by apply pinv_env|done].
    + intros e0 p' (e & ->). split; [|done].
      destruct H as (? & ? & ?). split; [by apply pinv_env|done].
  - intros i x ev H Hcl. eapply wp_conseq; [eapply (wp_mark_h2d G p i x); [apply H|done]|].
    intros [] p'. by apply backend_steady.
  - intros i x H Hcl. eapply wp_conseq; [eapply (wp_mark_unknown_h2d G p i x); [apply H|done]|].
    intros [] p'. by apply backend_steady.
  - intros i x H Hcl. eapply wp_conseq; [eapply (wp_abort_read G p i x); [apply H|done]|].
    intros [] p'. by apply backend_steady.
  - intros H. eapply wp_conseq; [eapply (wp_note_fallback G p), H|].
    intros ? p'. by apply backend_steady.
  - intros G' H HG. destruct H as ([Hc ? ?] & ? & ?). split; [|done]. split; [|done..]. by eapply core_G_sub.
Defined.
End Backend.
