(* ===== verification/SizeClass.v ===== *)
(** The size-class plan of the expert cache: [size_class_plan] and the plan
    [MoeSlotCache::new] settles on, in [memra-engine/src/moe_cache.rs].

    Byte counts are [usize] and the products [u128], both as [Z]; [None] is an
    arithmetic overflow. *)
From Stdlib Require Import Sorted.
From S2P Require Import Prelude.
Local Open Scope Z_scope.

(** A [u128] result. *)
Definition u128 (z : Z) : option Z := if (0 <=? z) && (z <? 2 ^ 128) then Some z else None.

(** [BTreeMap<usize, usize>], as its entries in key order. *)
Fixpoint count_in (bytes : Z) (m : list (Z * Z)) : list (Z * Z) :=
  match m with
  | [] => [(bytes, 1)]
  | (b, n) :: m' =>
      if bytes =? b then (b, n + 1) :: m'
      else if bytes <? b then (bytes, 1) :: m
      else (b, n) :: count_in bytes m'
  end.
Definition block_counts (block_bytes : list Z) : list (Z * Z) :=
  fold_left (fun m b => if 0 <? b then count_in b m else m) block_bytes [].

Fixpoint sum_bytes (m : list (Z * Z)) : option Z :=
  match m with
  | [] => Some 0
  | (bytes, n) :: m => x ← u128 ((bytes + 8) * n); y ← sum_bytes m; u128 (x + y)
  end.

Record entry := mkEntry { e_bytes : Z; e_count : Z; e_rem : Z; e_avail : Z }.
(** The floored share of each class and its remainder. *)
Fixpoint shares (budget total : Z) (m : list (Z * Z)) : option (list entry) :=
  match m with
  | [] => Some []
  | (bytes, n) :: m =>
      scaled ← u128 (n * budget);
      rest ← shares budget total m;
      Some (mkEntry bytes (Z.min (scaled / total) n) (scaled mod total) n :: rest)
  end.

(** [sort_by]: larger remainders first, then the lower index. *)
Fixpoint insert_order (plan : list entry) (i : nat) (order : list nat) : list nat :=
  match order with
  | [] => [i]
  | j :: order' =>
      match plan !! i, plan !! j with
      | Some a, Some b => if e_rem a <? e_rem b then j :: insert_order plan i order' else i :: order
      | _, _ => i :: order
      end
  end.
Definition remainder_order (plan : list entry) : list nat :=
  fold_right (insert_order plan) [] (seq 0 (length plan)).

(** The remainder pass. *)
Fixpoint top_up (budget : Z) (order : list nat) (plan : list entry) (used : Z)
    : option (list entry) :=
  match order with
  | [] => Some plan
  | i :: order =>
      e ← plan !! i;
      let required := e_bytes e + 8 in
      if e_count e <? e_avail e then
        total ← u128 (used + required);
        if total <=? budget then
          top_up budget order
            (<[i := mkEntry (e_bytes e) (e_count e + 1) (e_rem e) (e_avail e)]> plan) total
        else top_up budget order plan used
      else top_up budget order plan used
  end.

Definition kept (plan : list entry) : list (Z * Z) :=
  e ← plan; if 0 <? e_count e then [(e_bytes e, e_count e)] else [].

Definition size_class_plan (block_bytes : list Z) (budget : Z) : option (list (Z * Z)) :=
  let counts := block_counts block_bytes in
  if bool_decide (counts = []) || (budget =? 0) then Some [] else
  total ← sum_bytes counts;
  plan ← shares budget total counts;
  used ← sum_bytes (map (fun e => (e_bytes e, e_count e)) plan);
  plan ← top_up budget (remainder_order plan) plan used;
  Some (kept plan).

(** The plan of [MoeSlotCache::new]: at least eight slots. *)
Definition cache_plan (size_aware : bool) (layout : list Z) (budget max_block : Z)
    : option (list (Z * Z)) :=
  plan ← (if size_aware then size_class_plan layout budget else Some []);
  if fold_right Z.add 0 (map snd plan) <? 8
  then Some [(max_block, Z.max 8 (budget / (max_block + 8)))]
  else Some plan.

(** ** Cost and bounds *)

Definition cost (m : list (Z * Z)) : Z := fold_right Z.add 0 (map (fun x => (x.1 + 8) * x.2) m).
Definition inventory (block_bytes : list Z) : list Z := filter (fun b => 0 < b) block_bytes.
(** How many blocks have [bytes] bytes. *)
Definition stock (bytes : Z) (m : list (Z * Z)) : Z :=
  fold_right Z.add 0 (map (fun x => if x.1 =? bytes then x.2 else 0) m).

Definition counts_ok (m : list (Z * Z)) : Prop :=
  StronglySorted (fun a b => a.1 < b.1) m /\ Forall (fun x => 0 < x.1 /\ 0 < x.2) m.

Lemma count_in_ok b m : 0 < b -> counts_ok m -> counts_ok (count_in b m).
Proof.
  intros Hb [Hs Hf]. induction m as [|[k n] m IH]; simpl.
  { split; repeat constructor; simpl; lia. }
  apply StronglySorted_inv in Hs as [Hs Hall]. apply Forall_cons in Hf as [Hkn Hf]. simpl in Hkn.
  destruct (Z.eqb_spec b k) as [->|Hne]; [|destruct (Z.ltb_spec b k)].
  - split; constructor; simpl; auto; lia.
  - split.
    + constructor; [by constructor|]. constructor; [done|].
      eapply Forall_impl; [exact Hall|]. intros [k' n'] Hk'. simpl in *. lia.
    + constructor; [simpl; lia|]. by constructor.
  - destruct (IH Hs Hf) as [Hs' Hf']. split.
    + constructor; [done|]. clear -Hall H Hne Hb. induction m as [|[k' n'] m IH]; simpl.
      * constructor; [simpl; lia|done].
      * apply Forall_cons in Hall as [Hk Hall]. simpl in Hk.
        destruct (b =? k'); [by constructor|]. destruct (b <? k').
        -- constructor; [simpl; lia|]. by constructor.
        -- constructor; [done|]. by apply IH.
    + constructor; [simpl; lia|done].
Qed.
Lemma block_counts_ok l : counts_ok (block_counts l).
Proof.
  unfold block_counts. assert (H : counts_ok []) by (split; constructor). revert H.
  generalize (@nil (Z * Z)). induction l as [|b l IH]; intros m Hm; simpl; [done|].
  apply IH. destruct (Z.ltb_spec 0 b); [by apply count_in_ok|done].
Qed.

(** The blocks counted, their number and their cost. *)
Definition total_count (m : list (Z * Z)) : Z := fold_right Z.add 0 (map snd m).
Lemma count_in_cost b m : cost (count_in b m) = b + 8 + cost m.
Proof.
  unfold cost. induction m as [|[k n] m IH]; simpl in *; [lia|].
  destruct (Z.eqb_spec b k) as [->|]; [simpl; lia|]. destruct (b <? k); simpl; [lia|].
  rewrite IH. lia.
Qed.
Lemma count_in_total b m : total_count (count_in b m) = 1 + total_count m.
Proof.
  unfold total_count. induction m as [|[k n] m IH]; simpl in *; [lia|].
  destruct (Z.eqb_spec b k) as [->|]; [simpl; lia|]. destruct (b <? k); simpl; [lia|].
  rewrite IH. lia.
Qed.
Lemma count_in_stock b b' m : stock b' (count_in b m) = (if b =? b' then 1 else 0) + stock b' m.
Proof.
  unfold stock. induction m as [|[k n] m IH]; simpl in *; [lia|].
  destruct (Z.eqb_spec b k) as [->|]; simpl.
  - destruct (k =? b'); lia.
  - destruct (b <? k); simpl; [lia|]. rewrite IH. lia.
Qed.
Lemma block_counts_fold (f : list (Z * Z) -> Z) (g : Z -> Z) l :
  (forall b m, f (count_in b m) = g b + f m) ->
  f (block_counts l) = fold_right Z.add 0 (map g (inventory l)) + f [].
Proof.
  intros Hf. unfold block_counts. generalize (@nil (Z * Z)).
  induction l as [|b l IH]; intros m; simpl; [done|]. rewrite IH. unfold inventory. rewrite filter_cons.
  destruct (Z.ltb_spec 0 b); [rewrite decide_True by done|rewrite decide_False by lia]; [|done].
  simpl. rewrite Hf. lia.
Qed.
(** How often a size occurs among the blocks. *)
Definition occurrences (bytes : Z) (l : list Z) : Z := Z.of_nat (length (filter (fun b => b = bytes) l)).

Lemma sum_indicator b l :
  fold_right Z.add 0 (map (fun x => if x =? b then 1 else 0) l) = occurrences b l.
Proof.
  unfold occurrences. induction l as [|x l IH]; simpl; [done|]. rewrite filter_cons, IH.
  destruct (Z.eqb_spec x b) as [->|]; [rewrite decide_True by done; simpl; lia|].
  by rewrite decide_False.
Qed.
Lemma stock_sorted m b n : counts_ok m -> (b, n) ∈ m -> stock b m = n.
Proof.
  intros [Hs Hf]. unfold stock. induction m as [|[k j] m IH]; [by intros ?%not_elem_of_nil|].
  apply StronglySorted_inv in Hs as [Hs Hall]. apply Forall_cons in Hf as [_ Hf].
  assert (Hz : forall c, c <= k -> fold_right Z.add 0 (map (fun x => if x.1 =? c then x.2 else 0) m) = 0).
  { intros c Hc. clear IH Hs Hf. induction m as [|[k' j'] m IH]; [done|].
    apply Forall_cons in Hall as [Hk Hall]. simpl in *. rewrite IH by done.
    destruct (Z.eqb_spec k' c); lia. }
  intros [[= -> ->]|Hin]%elem_of_cons; simpl.
  - rewrite Z.eqb_refl, Hz; lia.
  - rewrite Forall_forall in Hall. specialize (Hall _ Hin). simpl in Hall.
    destruct (Z.eqb_spec k b); [lia|]. by rewrite IH.
Qed.
Lemma block_counts_count l b n : (b, n) ∈ block_counts l -> n = occurrences b (inventory l).
Proof.
  intros Hin. rewrite <-(stock_sorted _ _ _ (block_counts_ok l) Hin).
  rewrite (block_counts_fold (stock b) (fun x => if x =? b then 1 else 0)) by (intros; apply count_in_stock).
  rewrite sum_indicator. unfold stock. simpl. lia.
Qed.

(** *** The arithmetic stays inside [u128] *)

Definition inputs_ok (l : list Z) (budget : Z) : Prop :=
  Forall (fun b => 0 <= b < 2 ^ 64) l /\ Z.of_nat (length l) <= 2 ^ 60 /\ 0 <= budget < 2 ^ 64.

Lemma u128_small z : 0 <= z < 2 ^ 128 -> u128 z = Some z.
Proof.
  intros [H1 H2]. unfold u128. rewrite (proj2 (Z.leb_le _ _)) by done.
  by rewrite (proj2 (Z.ltb_lt _ _)).
Qed.
Lemma cost_nonneg m : Forall (fun x => 0 <= x.1 /\ 0 <= x.2) m -> 0 <= cost m.
Proof. unfold cost. induction 1 as [|[b n] m [? ?] H IH]; simpl in *; nia. Qed.
Lemma sum_bytes_cost m :
  Forall (fun x => 0 <= x.1 /\ 0 <= x.2) m -> cost m < 2 ^ 128 -> sum_bytes m = Some (cost m).
Proof.
  intros H. induction H as [|[b n] m [Hb Hn] H IH]; intros Hc; [done|]. simpl in *.
  pose proof (cost_nonneg m H) as Hm. unfold cost in *. simpl in *. set (y := fold_right _ _ _) in *.
  rewrite u128_small by nia. simpl. rewrite IH by nia. simpl. apply u128_small. nia.
Qed.
Lemma counts_nonneg m : counts_ok m -> Forall (fun x => 0 <= x.1 /\ 0 <= x.2) m.
Proof. intros [_ H]. eapply Forall_impl; [exact H|]. simpl. lia. Qed.
Lemma block_counts_bounds l budget :
  inputs_ok l budget -> cost (block_counts l) < 2 ^ 128 /\ total_count (block_counts l) <= 2 ^ 60.
Proof.
  intros (Hl & Hlen & _).
  rewrite (block_counts_fold cost (fun b => b + 8)) by (intros; apply count_in_cost).
  rewrite (block_counts_fold total_count (fun _ => 1)) by (intros; apply count_in_total).
  change (cost []) with 0. change (total_count []) with 0.
  assert (H : fold_right Z.add 0 (map (fun b => b + 8) (inventory l)) <= Z.of_nat (length l) * (2 ^ 64 + 7) /\
    fold_right Z.add 0 (map (fun _ : Z => 1) (inventory l)) <= Z.of_nat (length l)).
  { clear Hlen. unfold inventory. induction Hl as [|b l Hb Hl IH]; [done|]. rewrite filter_cons.
    destruct (decide (0 < b)); cbn [map fold_right length]; lia. }
  lia.
Qed.

(** *** The two passes *)

Definition plan_counts (plan : list entry) : list (Z * Z) := map (fun e => (e_bytes e, e_count e)) plan.
Definition entry_ok (e : entry) : Prop := 0 < e_bytes e < 2 ^ 64 /\ 0 <= e_count e <= e_avail e.

Definition share_of (budget total : Z) (x : Z * Z) : Z := Z.min (x.2 * budget / total) x.2.
Lemma shares_spec budget total m :
  0 < total -> 0 <= budget < 2 ^ 64 -> Forall (fun x => 0 < x.1 /\ 0 < x.2) m -> total_count m <= 2 ^ 60 ->
  exists plan, shares budget total m = Some plan /\
    Forall2 (fun x e => e_bytes e = x.1 /\ e_avail e = x.2 /\ e_count e = share_of budget total x) m plan /\
    cost (plan_counts plan) * total <= budget * cost m.
Proof.
  intros Ht Hb. induction 1 as [|[b n] m [Hb0 Hn0] H IH]; simpl; intros Hc.
  { exists []. split; [done|]. split; [done|]. unfold cost. simpl. lia. }
  unfold total_count in *. simpl in *.
  assert (Hm : 0 <= fold_right Z.add 0 (map snd m)).
  { clear -H. induction H as [|[? ?] m [? ?] H IH]; simpl in *; lia. }
  rewrite u128_small by nia. simpl. destruct IH as (plan & -> & Hp & Hcost); [lia|]. simpl.
  eexists. split; [done|]. split; [by constructor|]. unfold cost in *. simpl in *.
  set (y := fold_right _ _ _) in *. set (z := fold_right _ _ (map _ m)) in *.
  pose proof (Z.mul_div_le (n * budget) total Ht) as Hdiv.
  assert (Z.min (n * budget / total) n * total <= n * budget) by nia. nia.
Qed.
Lemma share_ok budget total x : 0 < total -> 0 <= budget -> 0 < x.2 -> 0 <= share_of budget total x <= x.2.
Proof.
  intros Ht Hb Hx. unfold share_of.
  assert (0 <= x.2 * budget / total) by (apply Z.div_pos; nia). lia.
Qed.

Lemma insert_order_perm plan i order : insert_order plan i order ≡ₚ i :: order.
Proof.
  induction order as [|j order IH]; simpl; [done|].
  destruct (plan !! i) as [a|]; [|done]. destruct (plan !! j) as [b|]; [|done].
  destruct (_ <? _); [|done]. rewrite IH. constructor.
Qed.
Lemma remainder_order_perm plan : remainder_order plan ≡ₚ seq 0 (length plan).
Proof.
  unfold remainder_order. induction (seq 0 (length plan)) as [|i l IH]; simpl; [done|].
  by rewrite insert_order_perm, IH.
Qed.

Lemma cost_insert plan i e c :
  plan !! i = Some e ->
  cost (plan_counts (<[i := mkEntry (e_bytes e) c (e_rem e) (e_avail e)]> plan))
  = cost (plan_counts plan) + (e_bytes e + 8) * (c - e_count e).
Proof.
  unfold cost, plan_counts. revert i. induction plan as [|x plan IH]; intros [|i]; simpl; try done.
  - intros [= ->]. lia.
  - intros Hi. rewrite IH by done. lia.
Qed.
(** One more slot for a class the pass visits. *)
Definition extra (i : nat) (order : list nat) : Z := if bool_decide (i ∈ order) then 1 else 0.
Lemma extra_bounds i order : 0 <= extra i order <= 1.
Proof. unfold extra. destruct (bool_decide _); lia. Qed.
Lemma extra_cons i j order : extra i order <= extra i (j :: order).
Proof.
  unfold extra. destruct (bool_decide (i ∈ order)) eqn:H.
  - apply bool_decide_eq_true_1 in H. rewrite bool_decide_eq_true_2 by (by right). lia.
  - destruct (bool_decide (i ∈ j :: order)); lia.
Qed.
Lemma top_up_spec budget order plan :
  budget < 2 ^ 64 -> NoDup order -> (forall i, i ∈ order -> (i < length plan)%nat) ->
  Forall entry_ok plan -> cost (plan_counts plan) <= budget ->
  exists plan', top_up budget order plan (cost (plan_counts plan)) = Some plan' /\
    cost (plan_counts plan') <= budget /\ Forall entry_ok plan' /\ length plan' = length plan /\
    forall i e, plan !! i = Some e -> exists e', plan' !! i = Some e' /\ e_bytes e' = e_bytes e /\
      e_avail e' = e_avail e /\ e_count e <= e_count e' /\
      e_count e' <= e_count e + extra i order.
Proof.
  intros Hb. revert plan. induction order as [|i order IH]; intros plan Hnd Hin Hok Hc; simpl.
  { exists plan. split_and!; [done..|]. intros i e He. exists e. pose proof (extra_bounds i []). split_and!; try done; lia. }
  apply NoDup_cons in Hnd as [Hi Hnd].
  destruct (lookup_lt_is_Some_2 plan i) as [e He]; [apply Hin; left|]. rewrite He. simpl.
  assert (He0 : entry_ok e) by (rewrite Forall_forall in Hok; eapply Hok, list_elem_of_lookup_2, He).
  assert (Hskip : exists plan', top_up budget order plan (cost (plan_counts plan)) = Some plan' /\
    cost (plan_counts plan') <= budget /\ Forall entry_ok plan' /\ length plan' = length plan /\
    forall j x, plan !! j = Some x -> exists x', plan' !! j = Some x' /\ e_bytes x' = e_bytes x /\
      e_avail x' = e_avail x /\ e_count x <= e_count x' /\
      e_count x' <= e_count x + extra j (i :: order)).
  { destruct (IH plan) as (plan' & ? & ? & ? & ? & H); [done|intros; apply Hin; by right|done..|].
    exists plan'. split_and!; [done..|]. intros j x Hx. destruct (H j x Hx) as (x' & ? & ? & ? & ? & ?).
    exists x'. pose proof (extra_cons j i order).
    split_and!; [done..|lia]. }
  destruct (Z.ltb_spec (e_count e) (e_avail e)) as [Hlt|]; [|exact Hskip].
  assert (Hpos : 0 <= cost (plan_counts plan)).
  { apply cost_nonneg. unfold plan_counts. apply Forall_map. eapply Forall_impl; [exact Hok|].
    intros x [? ?]. simpl. lia. }
  destruct He0 as [Hbe Hce]. rewrite u128_small by lia. simpl.
  destruct (Z.leb_spec (cost (plan_counts plan) + (e_bytes e + 8)) budget) as [Hle|]; [|exact Hskip].
  set (e1 := mkEntry (e_bytes e) (e_count e + 1) (e_rem e) (e_avail e)).
  pose proof (cost_insert plan i e (e_count e + 1) He) as Hci. fold e1 in Hci.
  replace (cost (plan_counts plan) + (e_bytes e + 8)) with (cost (plan_counts (<[i := e1]> plan))) by lia.
  destruct (IH (<[i := e1]> plan)) as (plan' & ? & ? & ? & Hl & H).
  - done.
  - intros j Hj. rewrite length_insert. apply Hin. by right.
  - apply Forall_insert; [done|]. split; simpl; [done|]. lia.
  - lia.
  - exists plan'. split_and!; [done..|by rewrite Hl, length_insert|]. intros j x Hx.
    destruct (decide (j = i)) as [->|Hne].
    + assert (x = e) as -> by congruence. destruct (H i e1) as (x' & ? & ? & ? & ? & ?).
      { apply list_lookup_insert_eq. by eapply lookup_lt_Some. }
      simpl in *. exists x'.
      assert (Hx0 : extra i order = 0) by (unfold extra; by rewrite bool_decide_eq_false_2).
      assert (Hx1 : extra i (i :: order) = 1) by (unfold extra; rewrite bool_decide_eq_true_2; [done|left]).
      split_and!; [done..|lia|lia].
    + destruct (H j x) as (x' & ? & ? & ? & ? & ?); [by rewrite list_lookup_insert_ne|].
      exists x'. pose proof (extra_cons j i order).
      split_and!; [done..|lia].
Qed.

Lemma occurrences_inventory b l : 0 < b -> occurrences b (inventory l) = occurrences b l.
Proof.
  intros Hb. unfold occurrences, inventory. f_equal. induction l as [|x l IH]; [done|].
  rewrite (filter_cons _ x l), (filter_cons (fun y => y = b) x l).
  destruct (decide (0 < x)) as [Hx|Hx]; [rewrite filter_cons|]; destruct (decide (x = b)) as [He|He];
    simpl; rewrite ?IH; done || lia.
Qed.
Lemma block_counts_in l b n : (b, n) ∈ block_counts l -> 0 < b /\ 0 < n /\ b ∈ l /\ n = occurrences b l.
Proof.
  intros Hin. destruct (block_counts_ok l) as [_ Hf]. rewrite Forall_forall in Hf.
  destruct (Hf _ Hin) as [Hb Hn]. simpl in *. pose proof (block_counts_count _ _ _ Hin) as Heq.
  rewrite occurrences_inventory in Heq by done. split_and!; try done.
  destruct (filter (fun x => x = b) l) as [|x k] eqn:Hfl.
  - unfold occurrences in Heq. rewrite Hfl in Heq. simpl in Heq. lia.
  - assert (Hx : x ∈ filter (fun x => x = b) l) by (rewrite Hfl; left).
    apply list_elem_of_filter in Hx as [-> ?]. done.
Qed.

Lemma kept_elem plan b n : (b, n) ∈ kept plan <-> 0 < n /\ exists e, e ∈ plan /\ e_bytes e = b /\ e_count e = n.
Proof.
  unfold kept. rewrite list_elem_of_bind. split.
  - intros (e & Hin & He). destruct (Z.ltb_spec 0 (e_count e)).
    + apply list_elem_of_singleton in Hin as [= -> ->]. eauto.
    + by apply not_elem_of_nil in Hin.
  - intros (Hn & e & He & <- & <-). exists e. rewrite (proj2 (Z.ltb_lt _ _)) by done.
    split; [left|done].
Qed.
Lemma kept_cost plan : Forall entry_ok plan -> cost (kept plan) = cost (plan_counts plan).
Proof.
  unfold cost, kept, plan_counts. induction 1 as [|e plan [? ?] H IH]; [done|].
  rewrite bind_cons, map_app, foldr_app. simpl in *.
  destruct (Z.ltb_spec 0 (e_count e)); simpl; rewrite IH; nia.
Qed.
Lemma kept_sorted plan :
  StronglySorted (fun a b => e_bytes a < e_bytes b) plan -> StronglySorted (fun a b => a.1 < b.1) (kept plan).
Proof.
  induction plan as [|e plan IH]; intros Hs; [constructor|].
  apply StronglySorted_inv in Hs as [Hs Hall]. unfold kept. rewrite bind_cons. fold (kept plan).
  destruct (0 <? e_count e); simpl; [|by apply IH]. constructor; [by apply IH|].
  apply Forall_forall. intros [b n] Hin. apply kept_elem in Hin as (_ & e' & He' & <- & _).
  rewrite Forall_forall in Hall. by apply Hall.
Qed.

(** What the two passes make of the counts. *)
Definition topped (budget total : Z) (x : Z * Z) (e : entry) : Prop :=
  e_bytes e = x.1 /\ e_avail e = x.2 /\
  share_of budget total x <= e_count e <= Z.min x.2 (share_of budget total x + 1).
Lemma size_class_plan_passes l budget :
  inputs_ok l budget -> block_counts l <> [] -> budget <> 0 ->
  exists plan, size_class_plan l budget = Some (kept plan) /\ Forall entry_ok plan /\
    cost (plan_counts plan) <= budget /\
    Forall2 (topped budget (cost (block_counts l))) (block_counts l) plan.
Proof.
  intros Hin Hne Hb0. pose proof Hin as (Hl & Hlen & Hbud).
  destruct (block_counts_bounds l budget Hin) as [Hc Ht].
  pose proof (block_counts_ok l) as Hok. unfold size_class_plan.
  rewrite bool_decide_eq_false_2 by done. rewrite (proj2 (Z.eqb_neq _ _)) by done. simpl.
  rewrite (sum_bytes_cost (block_counts l)) by (done || by apply counts_nonneg). simpl.
  assert (Hpos : 0 < cost (block_counts l)).
  { destruct Hok as [_ Hf]. destruct (block_counts l) as [|[b n] m] eqn:Hm; [done|].
    apply Forall_cons in Hf as [[? ?] Hf]. simpl in *.
    assert (0 <= cost m) by (apply cost_nonneg; eapply Forall_impl; [exact Hf|]; simpl; lia).
    unfold cost in *. simpl. nia. }
  set (total := cost (block_counts l)) in *.
  destruct (shares_spec budget total (block_counts l) Hpos Hbud (proj2 Hok) Ht) as (plan & -> & Hp & Hcost).
  simpl. assert (Hpok : Forall entry_ok plan).
  { apply Forall_forall. intros e He. apply list_elem_of_lookup in He as [i He].
    destruct (Forall2_lookup_r _ _ _ _ _ Hp He) as ([b n] & Hx & Hb & Ha & Hcn). simpl in *.
    apply list_elem_of_lookup_2 in Hx. destruct (block_counts_in _ _ _ Hx) as (? & ? & Hbl & _).
    rewrite Forall_forall in Hl. specialize (Hl _ Hbl). unfold entry_ok. rewrite Hb, Ha, Hcn.
    split; [lia|]. apply (share_ok budget total (b, n)); simpl; lia. }
  assert (Hle : cost (plan_counts plan) <= budget) by (fold total in Hcost; nia).
  rewrite (sum_bytes_cost (map _ plan)); cycle 1.
  { apply Forall_map. eapply Forall_impl; [exact Hpok|]. intros e [? ?]. simpl. lia. }
  { change (map _ plan) with (plan_counts plan). lia. }
  change (map _ plan) with (plan_counts plan). simpl.
  destruct (top_up_spec budget (remainder_order plan) plan) as (plan' & -> & Hc' & Hok' & Hlen' & Hall).
  - lia.
  - rewrite remainder_order_perm. apply NoDup_seq.
  - intros i Hi. rewrite remainder_order_perm in Hi. apply elem_of_seq in Hi. lia.
  - done.
  - done.
  - exists plan'. split_and!; [done..|]. apply Forall2_same_length_lookup_2.
    { rewrite Hlen'. by eapply Forall2_length. }
    intros i x e' Hx He'. destruct (Forall2_lookup_l _ _ _ _ _ Hp Hx) as (e & He & Hb & Ha & Hcn).
    destruct (Hall i e He) as (e2 & He2 & Hb2 & Ha2 & Hlo & Hhi). assert (e2 = e') as -> by congruence.
    pose proof (extra_bounds i (remainder_order plan)).
    rewrite Forall_forall in Hok'. destruct (Hok' e') as [_ ?]; [by eapply list_elem_of_lookup_2|].
    unfold topped. rewrite Hb2, Hb, Ha2, Ha. split_and!; [done..|lia|lia].
Qed.

Lemma topped_sorted budget total m plan :
  StronglySorted (fun a b => a.1 < b.1) m -> Forall2 (topped budget total) m plan ->
  StronglySorted (fun a b => e_bytes a < e_bytes b) plan.
Proof.
  intros Hs H. induction H as [|x e m plan (Hb & _ & _) H IH]; [constructor|].
  apply StronglySorted_inv in Hs as [Hs Hall]. constructor; [by apply IH|].
  clear IH Hs. induction H as [|y f m plan (Hb' & _) H IH]; [constructor|].
  apply Forall_cons in Hall as [Hlt Hall]. constructor; [lia|by apply IH].
Qed.

Lemma block_counts_mem l b : 0 < b -> b ∈ l -> (b, occurrences b l) ∈ block_counts l.
Proof.
  intros Hb Hbl. assert (Hocc : stock b (block_counts l) = occurrences b l).
  { rewrite (block_counts_fold (stock b) (fun x => if x =? b then 1 else 0)) by (intros; apply count_in_stock).
    rewrite sum_indicator, occurrences_inventory by done. unfold stock. simpl. lia. }
  assert (Hpos : 0 < occurrences b l).
  { unfold occurrences. assert (Hx : b ∈ filter (fun x => x = b) l) by (by apply list_elem_of_filter).
    destruct (filter _ l); [by apply not_elem_of_nil in Hx|]. simpl. lia. }
  destruct (decide (b ∈ (block_counts l).*1)) as [Hn|Hno].
  { apply list_elem_of_fmap in Hn as ([b0 n] & -> & Hn). simpl in *.
    by destruct (block_counts_in _ _ _ Hn) as (_ & _ & _ & <-). }
  exfalso. assert (stock b (block_counts l) = 0); [|lia]. clear -Hno. unfold stock.
  induction (block_counts l) as [|[k n] m IH]; [done|]. simpl.
  apply not_elem_of_cons in Hno as [Hk Hno]. simpl in Hk. rewrite IH by done.
  destruct (Z.eqb_spec k b); [congruence|done].
Qed.

(** The slots a block size would get of a fractional split. *)
Definition fair_share (l : list Z) (budget b : Z) : Z :=
  Z.min (occurrences b l * budget / cost (block_counts l)) (occurrences b l).

(** C8. The size-class plan of any layout and budget: no [u128] operation
    overflows; the slots with their tail pads fit the budget; the classes are
    distinct block sizes in increasing order, none empty and none with more
    slots than the model has blocks of that size; and every block size gets its
    proportional share of the budget rounded down, or one more. *)
Theorem size_class_plan_sound (l : list Z) (budget : Z) :
  inputs_ok l budget ->
  exists plan, size_class_plan l budget = Some plan /\ cost plan <= budget /\
    StronglySorted (fun a b => a.1 < b.1) plan /\
    (forall b n, (b, n) ∈ plan -> 0 < n <= occurrences b l /\ b ∈ l) /\
    (forall b, 0 < b -> b ∈ l ->
       exists n, fair_share l budget b <= n <= fair_share l budget b + 1 /\ (n = 0 \/ (b, n) ∈ plan)).
Proof.
  intros Hin.
  assert (Hcase : (block_counts l = [] \/ budget = 0) \/ block_counts l <> [] /\ budget <> 0).
  { destruct (block_counts l); destruct (decide (budget = 0)); auto. }
  pose proof (block_counts_mem l) as Hmem.
  destruct Hcase as [Hz|[Hne Hb0]].
  - exists []. unfold size_class_plan.
    assert (Ht : bool_decide (block_counts l = []) || (budget =? 0) = true).
    { destruct Hz as [->| ->]; [done|]. by rewrite orb_true_r. }
    rewrite Ht. split_and!; [done|unfold cost; simpl; destruct Hin as (_ & _ & ?); lia|constructor| |].
    + intros b n Hb. by apply not_elem_of_nil in Hb.
    + intros b Hb Hbl. specialize (Hmem b Hb Hbl). exists 0. split; [|by left].
      destruct Hz as [Hz| ->]; [rewrite Hz in Hmem; by apply not_elem_of_nil in Hmem|].
      unfold fair_share. rewrite Z.mul_0_r, Zdiv_0_l. unfold occurrences. lia.
  - destruct (size_class_plan_passes l budget Hin Hne Hb0) as (plan & Heq & Hok & Hcost & Hp).
    exists (kept plan). split_and!; [done|by rewrite kept_cost| | |].
    + eapply kept_sorted, topped_sorted; [apply block_counts_ok|exact Hp].
    + intros b n (Hn & e & He & <- & <-)%kept_elem. apply list_elem_of_lookup in He as [i He].
      destruct (Forall2_lookup_r _ _ _ _ _ Hp He) as ([b n] & Hx & Hb & Ha & Hc). simpl in *.
      apply list_elem_of_lookup_2 in Hx. destruct (block_counts_in _ _ _ Hx) as (_ & _ & ? & ->).
      rewrite Hb. split; [lia|done].
    + intros b Hb Hbl. specialize (Hmem b Hb Hbl). apply list_elem_of_lookup in Hmem as [i Hi].
      destruct (Forall2_lookup_l _ _ _ _ _ Hp Hi) as (e & He & Hbe & _ & Hc). simpl in *.
      unfold share_of in Hc. simpl in Hc. fold (fair_share l budget b) in Hc. exists (e_count e). split; [lia|].
      destruct (decide (e_count e = 0)) as [|Hnz]; [by left|]. right. apply kept_elem.
      apply list_elem_of_lookup_2 in He. rewrite Forall_forall in Hok. destruct (Hok _ He).
      split; [lia|by exists e].
Qed.

(** When the whole model fits the budget, every block has its slot. *)
Theorem size_class_plan_full (l : list Z) (budget : Z) :
  inputs_ok l budget -> cost (block_counts l) <= budget -> size_class_plan l budget = Some (block_counts l).
Proof.
  intros Hin Hfit. destruct (decide (block_counts l = [])) as [Hz|Hne].
  { unfold size_class_plan. rewrite Hz. done. }
  assert (Hpos : 0 < cost (block_counts l)).
  { destruct (block_counts_ok l) as [_ Hf]. destruct (block_counts l) as [|[b n] m] eqn:Hm; [done|].
    apply Forall_cons in Hf as [[? ?] Hf]. simpl in *.
    assert (0 <= cost m) by (apply cost_nonneg; eapply Forall_impl; [exact Hf|]; simpl; lia).
    unfold cost in *. simpl. nia. }
  destruct (size_class_plan_passes l budget Hin Hne) as (plan & -> & Hok & _ & Hp); [lia|]. f_equal.
  pose proof (block_counts_ok l) as [_ Hf]. clear Hne. revert Hpos Hfit Hp Hf. generalize (cost (block_counts l)).
  intros total Ht Hle Hp. induction Hp as [|[b n] e m plan (Hb & Ha & Hc) Hp IH]; intros Hf; [done|].
  apply Forall_cons in Hok as [_ Hok]. apply Forall_cons in Hf as [[_ Hn] Hf]. simpl in *.
  assert (Hs : share_of budget total (b, n) = n).
  { unfold share_of. simpl. apply Z.min_r. apply Z.div_le_lower_bound; nia. }
  rewrite Hs in Hc. rewrite (proj2 (Z.ltb_lt _ _)) by lia.
  simpl. f_equal; [f_equal; lia|by apply IH].
Qed.

Definition toy_layout : list Z := [30; 10; 10; 30; 0; 10].
Lemma size_class_plan_sound_witness :
  exists plan, size_class_plan toy_layout 80 = Some plan /\ cost plan <= 80 /\
    StronglySorted (fun a b => a.1 < b.1) plan /\
    (forall b n, (b, n) ∈ plan -> 0 < n <= occurrences b toy_layout /\ b ∈ toy_layout) /\
    (forall b, 0 < b -> b ∈ toy_layout ->
       exists n, fair_share toy_layout 80 b <= n <= fair_share toy_layout 80 b + 1 /\ (n = 0 \/ (b, n) ∈ plan)).
Proof.
  refine (size_class_plan_sound toy_layout 80 _).
  split_and!; [repeat constructor; lia|simpl; lia|lia|lia].
Defined.
Lemma size_class_plan_full_witness :
  size_class_plan toy_layout 130 = Some [(10, 3); (30, 2)].
Proof.
  refine (size_class_plan_full toy_layout 130 _ _); [|vm_compute; congruence].
  split_and!; [repeat constructor; lia|simpl; lia|lia|lia].
Defined.
Example toy_plan : size_class_plan toy_layout 80 = Some [(10, 2); (30, 1)].
Proof. reflexivity. Qed.
