(* ===== verification/MoeCache.v ===== *)
(** The expert-residency cache of [memra-engine/src/moe_cache.rs].

    [Cache] is [MoeSlotCache]; its fields are grouped in the records
    [Residency], [Freq], [Sources], [Spill] and [Counters].  A method is a
    computation [C]: it returns, fails with an [Err] that keeps the mutations
    made so far, or panics.  CUDA is the class [Gpu], whose answers are read off
    the state [gpu]; the disk reads are a [ReadBackend].

    A slot's [content] is what the compute stream reads at its start: [None]
    while a copy that may still be writing it has not been waited for. *)
From Stdlib Require Import SpecFloat.
From S2P Require Import Prelude Effects F32 Slru ReadBackend.
Import SlruList SlotClass.

Definition PROJ_GATE : Z := 0.
Definition PROJ_UP : Z := 1.
Definition PROJ_DOWN : Z := 2.

Record BlockId := mkBlock { layer : Z; proj : Z; ex : Z }.
#[export] Instance BlockId_eq_dec : EqDecision BlockId.
Proof. solve_decision. Defined.
#[export] Instance BlockId_countable : Countable BlockId.
Proof.
  refine (inj_countable' (fun b => (layer b, proj b, ex b)) (fun '(l, p, e) => mkBlock l p e) _).
  by intros [].
Defined.
(** The layer id of the NextN/MTP block. *)
Definition MTP_LAYER : Z := 65535.

Inductive DispatchSlot := Resident (slot : nat).

(** [ExpertKeepalive]: the owner of host bytes, by the address of its
    allocation, and the key it is deduplicated by. *)
Inductive ExpertKeepalive := KeepPinned (p : Z) | KeepBuffer (p : Z) | KeepMmap (p : Z).
Inductive KeepaliveKey := KeyPinned (p : Z) | KeyBuffer (p : Z) | KeyMmap (p : Z).
#[export] Instance KeepaliveKey_eq_dec : EqDecision KeepaliveKey.
Proof. solve_decision. Defined.
#[export] Instance KeepaliveKey_countable : Countable KeepaliveKey.
Proof.
  refine (inj_countable'
    (fun k => match k with KeyPinned p => inl (inl p) | KeyBuffer p => inl (inr p) | KeyMmap p => inr p end)
    (fun x => match x with inl (inl p) => KeyPinned p | inl (inr p) => KeyBuffer p | inr p => KeyMmap p end) _).
  by intros [].
Defined.
Definition from_owner (o : ExpertKeepalive) : KeepaliveKey :=
  match o with KeepPinned p => KeyPinned p | KeepBuffer p => KeyBuffer p | KeepMmap p => KeyMmap p end.

Record Slot := mkSlot { buf_bytes : nat; content : option (list Z) }.

(** [PendingBlock]; [written] is what the copy in flight writes. *)
Record PendingBlock := mkPending {
  p_slot : nat; p_ready : Z; p_keepalive : option ExpertKeepalive; written : list Z;
}.
Record WorkerRead := mkRead { wr_ticket : Z; wr_len : nat }.

(** Which blocks are where. *)
Record Residency := mkRes {
  slots : list Slot;
  slot_class : list nat;
  classes : list SlotClass;
  links : list SlotLink;
  occupant : list (option BlockId);
  table : gmap BlockId nat;
  per_layer : gmap Z Z;
  dev_rows : gmap Z (list Z);
}.

(** The optional LFU policy. *)
Record Freq := mkFreq {
  frequencies : gmap BlockId spec_float;
  frequency_evict : bool;
  frequency_decay : option spec_float;
  mtp_frequency_weight : spec_float;
  last_forward_layer : option Z;
  last_forward_t : nat;
}.

(** Host allocations a copy may still be reading. *)
Record Sources := mkSources {
  inflight_sources : list (Z * ExpertKeepalive);
  quarantined_sources : list ExpertKeepalive;
  compute_sources : gmap KeepaliveKey ExpertKeepalive;
  copy_stream_unknown : bool;
  compute_stream_unknown : bool;
}.

Record Counters := mkCounters { hits : Z; misses : Z; staged_bytes : Z }.

(** CUDA, for the calls the cache makes; [true]/[Some] is [Ok]. *)
Class Gpu := {
  gstate : Type;
  (** [stage_expert]: H2D on the compute stream *)
  g_stage : gstate -> bool * gstate;
  g_compute_sync : gstate -> bool * gstate;
  (** [stream().record_event], [copy_stream.wait] *)
  g_record_compute : gstate -> bool * gstate;
  g_copy_wait : gstate -> bool * gstate;
  (** [stage_expert_async]: H2D on the copy stream and its completion event *)
  g_stage_async : gstate -> option Z * gstate;
  g_copy_sync : gstate -> bool * gstate;
  g_new_event : gstate -> option Z * gstate;
  (** [memcpy_htod] followed by [event.record] *)
  g_memcpy_record : gstate -> bool * gstate;
  g_compute_wait : gstate -> Z -> bool * gstate;
  g_event_complete : gstate -> Z -> bool * gstate;
  (** [clone_htod] of a pointer row *)
  g_upload : gstate -> bool * gstate;
  (** the fixed device address of a slot *)
  slot_addr : nat -> Z;
}.

Section Cache.
Context {rb : ReadBackend} {gpu_ : Gpu}.

Inductive ExpertSource :=
  | Memory (bytes : list Z) (keepalive : option ExpertKeepalive)
  | Disk (file : rb_file) (offset : Z) (len : nat) (fallback : list Z)
         (keepalive : ExpertKeepalive).

Record Spill := mkSpill {
  pread : option rb_state;
  worker_reads : gmap BlockId WorkerRead;
  pread_requested : bool;
  pread_fallbacks : Z;
  (** [copy_h2d_enabled()] *)
  copy_h2d : bool;
}.

Record Cache := mkCache {
  res : Residency;
  pending : gmap BlockId PendingBlock;
  freq : Freq;
  srcs : Sources;
  spill : Spill;
  ctr : Counters;
  n_slots : nat;
  max_block_bytes : nat;
  size_aware : bool;
  frozen : bool;
  prewarm_tried : gset Z;
  gpu : gstate;
}.

Inductive CacheErr :=
  | ENoSlot (len : nat)     (* no class can hold the block *)
  | EStage                  (* the copy failed and the stream was drained *)
  | EUnknown                (* ... and the drain failed too *)
  | EComputeWait
  | EUpload.

Definition C := M Cache CacheErr.

Definition set_slots x (r : Residency) : Residency := mkRes x (slot_class r) (classes r) (links r) (occupant r) (table r) (per_layer r) (dev_rows r).
Definition set_classes x (r : Residency) : Residency := mkRes (slots r) (slot_class r) x (links r) (occupant r) (table r) (per_layer r) (dev_rows r).
Definition set_links x (r : Residency) : Residency := mkRes (slots r) (slot_class r) (classes r) x (occupant r) (table r) (per_layer r) (dev_rows r).
Definition set_occupant x (r : Residency) : Residency := mkRes (slots r) (slot_class r) (classes r) (links r) x (table r) (per_layer r) (dev_rows r).
Definition set_table x (r : Residency) : Residency := mkRes (slots r) (slot_class r) (classes r) (links r) (occupant r) x (per_layer r) (dev_rows r).
Definition set_per_layer x (r : Residency) : Residency := mkRes (slots r) (slot_class r) (classes r) (links r) (occupant r) (table r) x (dev_rows r).
Definition set_dev_rows x (r : Residency) : Residency := mkRes (slots r) (slot_class r) (classes r) (links r) (occupant r) (table r) (per_layer r) x.
Definition set_frequencies x (q : Freq) : Freq := mkFreq x (frequency_evict q) (frequency_decay q) (mtp_frequency_weight q) (last_forward_layer q) (last_forward_t q).
Definition set_last_forward_layer x (q : Freq) : Freq := mkFreq (frequencies q) (frequency_evict q) (frequency_decay q) (mtp_frequency_weight q) x (last_forward_t q).
Definition set_last_forward_t x (q : Freq) : Freq := mkFreq (frequencies q) (frequency_evict q) (frequency_decay q) (mtp_frequency_weight q) (last_forward_layer q) x.
Definition set_inflight_sources x (k : Sources) : Sources := mkSources x (quarantined_sources k) (compute_sources k) (copy_stream_unknown k) (compute_stream_unknown k).
Definition set_quarantined_sources x (k : Sources) : Sources := mkSources (inflight_sources k) x (compute_sources k) (copy_stream_unknown k) (compute_stream_unknown k).
Definition set_compute_sources x (k : Sources) : Sources := mkSources (inflight_sources k) (quarantined_sources k) x (copy_stream_unknown k) (compute_stream_unknown k).
Definition set_copy_stream_unknown x (k : Sources) : Sources := mkSources (inflight_sources k) (quarantined_sources k) (compute_sources k) x (compute_stream_unknown k).
Definition set_compute_stream_unknown x (k : Sources) : Sources := mkSources (inflight_sources k) (quarantined_sources k) (compute_sources k) (copy_stream_unknown k) x.
Definition set_pread x (w : Spill) : Spill := mkSpill x (worker_reads w) (pread_requested w) (pread_fallbacks w) (copy_h2d w).
Definition set_worker_reads x (w : Spill) : Spill := mkSpill (pread w) x (pread_requested w) (pread_fallbacks w) (copy_h2d w).
Definition set_pread_fallbacks x (w : Spill) : Spill := mkSpill (pread w) (worker_reads w) (pread_requested w) x (copy_h2d w).
Definition set_res x (c : Cache) : Cache := mkCache x (pending c) (freq c) (srcs c) (spill c) (ctr c) (n_slots c) (max_block_bytes c) (size_aware c) (frozen c) (prewarm_tried c) (gpu c).
Definition set_pending x (c : Cache) : Cache := mkCache (res c) x (freq c) (srcs c) (spill c) (ctr c) (n_slots c) (max_block_bytes c) (size_aware c) (frozen c) (prewarm_tried c) (gpu c).
Definition set_freq x (c : Cache) : Cache := mkCache (res c) (pending c) x (srcs c) (spill c) (ctr c) (n_slots c) (max_block_bytes c) (size_aware c) (frozen c) (prewarm_tried c) (gpu c).
Definition set_srcs x (c : Cache) : Cache := mkCache (res c) (pending c) (freq c) x (spill c) (ctr c) (n_slots c) (max_block_bytes c) (size_aware c) (frozen c) (prewarm_tried c) (gpu c).
Definition set_spill x (c : Cache) : Cache := mkCache (res c) (pending c) (freq c) (srcs c) x (ctr c) (n_slots c) (max_block_bytes c) (size_aware c) (frozen c) (prewarm_tried c) (gpu c).
Definition set_ctr x (c : Cache) : Cache := mkCache (res c) (pending c) (freq c) (srcs c) (spill c) x (n_slots c) (max_block_bytes c) (size_aware c) (frozen c) (prewarm_tried c) (gpu c).
Definition set_frozen x (c : Cache) : Cache := mkCache (res c) (pending c) (freq c) (srcs c) (spill c) (ctr c) (n_slots c) (max_block_bytes c) (size_aware c) x (prewarm_tried c) (gpu c).
Definition set_prewarm_tried x (c : Cache) : Cache := mkCache (res c) (pending c) (freq c) (srcs c) (spill c) (ctr c) (n_slots c) (max_block_bytes c) (size_aware c) (frozen c) x (gpu c).
Definition set_gpu x (c : Cache) : Cache := mkCache (res c) (pending c) (freq c) (srcs c) (spill c) (ctr c) (n_slots c) (max_block_bytes c) (size_aware c) (frozen c) (prewarm_tried c) x.

(** ** Residency bookkeeping

    Methods that touch only [Residency]; [None] is a panic. *)

Definition put_class (j : nat) (c : SlotClass) (l : list SlotLink) (r : Residency) : Residency :=
  set_links l (set_classes (<[j := c]> (classes r)) r).

Definition on_hit (slot : nat) (r : Residency) : option Residency :=
  j ← slot_class r !! slot;
  c ← classes r !! j;
  match free c with
  | _ :: _ => Some r
  | [] => x ← on_hit_full c slot (links r); Some (put_class j x.1 x.2 r)
  end.

Definition on_block_evicted (ly : Z) (r : Residency) : option Residency :=
  r ← match per_layer r !! ly with
      | Some c => if (c <? 1)%Z then None else Some (set_per_layer (<[ly := (c - 1)%Z]> (per_layer r)) r)
      | None => Some r
      end;
  Some (set_dev_rows (delete ly (dev_rows r)) r).

Definition remove_occupant (slot : nat) (r : Residency) : option Residency :=
  o ← occupant r !! slot;
  match o with
  | None => Some r
  | Some old =>
      on_block_evicted (layer old)
        (set_table (delete old (table r)) (set_occupant (<[slot := None]> (occupant r)) r))
  end.

(** The scored candidates of [frequency_victim_in_class], in list order. *)
Fixpoint lfu_candidates (fr : gmap BlockId spec_float) (occ : list (option BlockId))
    (keep : list BlockId) (pos : nat) (xs : list nat) : option (list (spec_float * nat * nat)) :=
  match xs with
  | [] => Some []
  | s :: xs =>
      o ← occ !! s;
      rest ← lfu_candidates fr occ keep (S pos) xs;
      Some (match o with
            | Some id =>
                if bool_decide (id ∈ keep) then rest
                else (default f32_zero (fr !! id), pos, s) :: rest
            | None => rest
            end)
  end.
Definition candidate_cmp (a b : spec_float * nat * nat) : comparison :=
  match total_cmp a.1.1 b.1.1 with Eq => Nat.compare a.1.2 b.1.2 | c => c end.
(** [Iterator::min_by]: the first of the least elements. *)
Fixpoint min_by (best : spec_float * nat * nat) (l : list (spec_float * nat * nat))
    : spec_float * nat * nat :=
  match l with
  | [] => best
  | x :: l => min_by (match candidate_cmp best x with Gt => x | _ => best end) l
  end.
Definition frequency_victim_in_class (fr : gmap BlockId spec_float) (keep : list BlockId)
    (j : nat) (r : Residency) : option (option nat * Residency) :=
  c ← classes r !! j;
  xs ← iter (probation c) (links r);
  ys ← iter (protected c) (links r);
  cands ← lfu_candidates fr (occupant r) keep 0 (xs ++ ys);
  match cands with
  | [] => Some (None, r)
  | b :: rest =>
      let slot := (min_by b rest).2 in
      x ← unlink_from_segment c slot (links r);
      Some (Some slot, put_class j x.1 x.2 r)
  end.

Definition lru_victim (j : nat) (r : Residency) : option (option nat * Residency) :=
  c ← classes r !! j;
  x ← pop_lru c (links r);
  let '(slot, c, l) := x in Some (slot, put_class j c l r).

(** A slot whose block may be evicted; [occupant[s]] is in range for every
    listed slot. *)
Definition may_take (occ : list (option BlockId)) (keep : list BlockId) (s : nat) : bool :=
  match occ !! s with Some (Some id) => negb (bool_decide (id ∈ keep)) | _ => false end.
Definition lru_victim_excluding (keep : list BlockId) (j : nat) (r : Residency)
    : option (option nat * Residency) :=
  c ← classes r !! j;
  x ← take_excluding c (may_take (occupant r) keep) (links r);
  let '(slot, c, l) := x in Some (slot, put_class j c l r).

(** The loop over the classes that can hold [required] bytes. *)
Fixpoint evict_loop (pick : nat -> Residency -> option (option nat * Residency))
    (required : nat) (js : list nat) (r : Residency) : option (option nat * Residency) :=
  match js with
  | [] => Some (None, r)
  | j :: js =>
      c ← classes r !! j;
      if (capacity c <? Z.of_nat required)%Z then evict_loop pick required js r else
      x ← pick j r;
      match x.1 with
      | Some slot => r ← remove_occupant slot x.2; Some (Some slot, r)
      | None => evict_loop pick required js x.2
      end
  end.
Definition evict_one (q : Freq) (required : nat) (r : Residency)
    : option (option nat * Residency) :=
  evict_loop (if frequency_evict q then frequency_victim_in_class (frequencies q) [] else lru_victim)
    required (seq 0 (length (classes r))) r.
Definition evict_one_excluding (q : Freq) (required : nat) (keep : list BlockId) (r : Residency)
    : option (option nat * Residency) :=
  evict_loop (if frequency_evict q then frequency_victim_in_class (frequencies q) keep
              else lru_victim_excluding keep)
    required (seq 0 (length (classes r))) r.

(** The first class that can hold [required] bytes and has a free slot. *)
Fixpoint pop_free (required : nat) (cs : list SlotClass) : option (nat * list SlotClass) :=
  match cs with
  | [] => None
  | c :: cs =>
      match (if (Z.of_nat required <=? capacity c)%Z then vec_pop (free c) else None) with
      | Some (slot, rest) => Some (slot, with_free rest c :: cs)
      | None => x ← pop_free required cs; Some (x.1, c :: x.2)
      end
  end.
Definition reserve_slot (q : Freq) (required : nat) (r : Residency)
    : option (option nat * Residency) :=
  match pop_free required (classes r) with
  | Some (slot, cs) => Some (Some slot, set_classes cs r)
  | None => evict_one q required r
  end.
Definition reserve_prefetch_slot (q : Freq) (required : nat) (keep : list BlockId) (r : Residency)
    : option (option nat * Residency) :=
  match pop_free required (classes r) with
  | Some (slot, cs) => Some (Some slot, set_classes cs r)
  | None => evict_one_excluding q required keep r
  end.

Definition release_reserved_slot (slot : nat) (r : Residency) : option Residency :=
  o ← occupant r !! slot;
  if bool_decide (is_Some o) then None else
  j ← slot_class r !! slot;
  c ← classes r !! j;
  Some (set_classes (<[j := with_free (free c ++ [slot]) c]> (classes r)) r).

Definition publish (id : BlockId) (slot : nat) (r : Residency) : option Residency :=
  if length (occupant r) <=? slot then None else
  let r := set_table (<[id := slot]> (table r)) (set_occupant (<[slot := Some id]> (occupant r)) r) in
  j ← slot_class r !! slot;
  c ← classes r !! j;
  x ← push_probation c slot (links r);
  let r := put_class j x.1 x.2 r in
  let k := default 0%Z (per_layer r !! layer id) in
  if (u_max 32 <? k + 1)%Z then None
  else Some (set_per_layer (<[layer id := (k + 1)%Z]> (per_layer r)) r).

(** [expert_residency_shape]: per expert the mask of its resident projections;
    then (experts, complete, one projection, two projections, stranded). *)
Definition proj_mask (p : Z) : option Z := if (p <? 8)%Z then Some (Z.shiftl 1 p) else None.
Fixpoint residency_masks (ids : list BlockId) (masks : gmap (Z * Z) Z) : option (gmap (Z * Z) Z) :=
  match ids with
  | [] => Some masks
  | id :: ids =>
      b ← proj_mask (proj id);
      let key := (layer id, ex id) in
      residency_masks ids (<[key := Z.lor (default 0%Z (masks !! key)) b]> masks)
  end.
Definition count_ones (m : Z) : nat :=
  length (filter (fun i => Z.testbit m i = true) [0; 1; 2; 3; 4; 5; 6; 7]%Z).
Definition expert_residency_shape (r : Residency) : option (nat * nat * nat * nat * nat) :=
  masks ← residency_masks (map_to_list (table r)).*1 ∅;
  let ms := (map_to_list masks).*2 in
  let complete := length (filter (fun m => m = 7%Z) ms) in
  let one := length (filter (fun m => count_ones m = 1) ms) in
  let two := length (filter (fun m => count_ones m = 2) ms) in
  Some (length ms, complete, one, two, one + 2 * two).

Definition export_residency (r : Residency) : list (Z * Z * Z) :=
  id ← omap id (occupant r); [(layer id, proj id, ex id)].
Definition resident (id : BlockId) (r : Residency) : option nat := table r !! id.

(** ** Frequencies *)

Definition frequency_increment (q : Freq) (id : BlockId) : spec_float :=
  if (layer id =? MTP_LAYER)%Z then mtp_frequency_weight q else f32_one.
Definition bump (q : Freq) (id : BlockId) : Freq :=
  set_frequencies (<[id := f32_add (default f32_zero (frequencies q !! id)) (frequency_increment q id)]>
    (frequencies q)) q.
Definition set_last (ly : Z) (t : nat) (q : Freq) : Freq :=
  set_last_forward_t t (set_last_forward_layer (Some ly) q).
Definition begin_forward_epoch (ly : Z) (t : nat) (q : Freq) : Freq :=
  match frequency_decay q with
  | None => set_last ly t q
  | Some decay =>
      let new_sweep := match last_forward_layer q with Some p => (ly <=? p)%Z | None => false end in
      let q :=
        if new_sweep && (t =? 1) then
          if negb (last_forward_t q =? 1) then set_frequencies ∅ q
          else set_frequencies
                 (filter (fun kv => f_ge kv.2 f32_milli = true)
                    ((fun s => f32_mul s decay) <$> frequencies q)) q
        else q in
      set_last ly t q
  end.

(** ** The methods *)

Definition gask {A : Type} (f : gstate -> A * gstate) : C A :=
  fun c => let '(a, w) := f (gpu c) in (set_gpu w c, Ok a).
Definition on_res (f : Residency -> option Residency) : C unit :=
  c ← get; r ← unwrap (f (res c)); put (set_res r c).
Definition pick_res {A : Type} (f : Residency -> option (A * Residency)) : C A :=
  c ← get; x ← unwrap (f (res c)); put (set_res x.2 c);; ret x.1.
Definition on_freq (f : Freq -> Freq) : C unit := modify (fun c => set_freq (f (freq c)) c).
Definition on_srcs (f : Sources -> Sources) : C unit := modify (fun c => set_srcs (f (srcs c)) c).
Definition on_spill (f : Spill -> Spill) : C unit := modify (fun c => set_spill (f (spill c)) c).
Definition on_ctr (f : Counters -> Counters) : C unit := modify (fun c => set_ctr (f (ctr c)) c).
Definition inc64 (z k : Z) : Z := wrap 64 (z + k).
Definition count_hit (k : Counters) : Counters := mkCounters (inc64 (hits k) 1) (misses k) (staged_bytes k).
Definition count_miss (k : Counters) : Counters := mkCounters (hits k) (inc64 (misses k) 1) (staged_bytes k).
Definition count_staged (len : nat) (k : Counters) : Counters :=
  mkCounters (hits k) (misses k) (inc64 (staged_bytes k) (Z.of_nat len)).

(** A call of the pool: [self.pread.as_mut().unwrap().m()]; its result is
    matched on by the caller. *)
Definition on_pool {A : Type} (m : M rb_state rb_err A) : C (A + rb_err) :=
  c ← get;
  p ← unwrap (pread (spill c));
  match m p with
  | (p, Ok a) => put (set_spill (set_pread (Some p) (spill c)) c);; ret (inl a)
  | (p, Err e) => put (set_spill (set_pread (Some p) (spill c)) c);; ret (inr e)
  | (_, Panic) => panic
  end.

(** A copy of [len] bytes to the start of a slot; slicing past the buffer
    panics. *)
Definition write_slot (slot len : nat) (known : option (list Z)) : C unit :=
  c ← get;
  s ← unwrap (slots (res c) !! slot);
  massert (len <=? buf_bytes s);;
  put (set_res (set_slots (<[slot := mkSlot (buf_bytes s) known]> (slots (res c))) (res c)) c).

(** [Ok(event)], or [Err((_, reusable))]. *)
Definition stage_on_copy_stream (bytes : list Z) (slot : nat) : C (Z + bool) :=
  ok ← gask g_record_compute;
  if negb ok then ret (inr true) else
  ok ← gask g_copy_wait;
  if negb ok then ret (inr true) else
  write_slot slot (length bytes) None;;
  ev ← gask g_stage_async;
  match ev with
  | Some ev => ret (inl ev)
  | None => drained ← gask g_copy_sync; ret (inr drained)
  end.

Definition stage_pread_on_compute_stream (bytes : list Z) (slot : nat) : C (option Z) :=
  ev ← gask g_new_event;
  match ev with
  | None => ret None
  | Some ev =>
      write_slot slot (length bytes) None;;
      ok ← gask g_memcpy_record;
      if ok : bool then write_slot slot (length bytes) (Some bytes);; ret (Some ev) else ret None
  end.

Definition stage_pread_prefetch_on_copy_stream (bytes : list Z) (slot : nat) : C (Z + bool) :=
  ev ← gask g_new_event;
  match ev with
  | None => ret (inr true)
  | Some ev =>
      write_slot slot (length bytes) None;;
      ok ← gask g_memcpy_record;
      if ok : bool then ret (inl ev) else drained ← gask g_copy_sync; ret (inr drained)
  end.

(** [retain(|(ready, _)| !ready.is_complete())]. *)
Fixpoint reap_list (l : list (Z * ExpertKeepalive)) (w : gstate)
    : list (Z * ExpertKeepalive) * gstate :=
  match l with
  | [] => ([], w)
  | x :: l =>
      let '(complete, w) := g_event_complete w x.1 in
      let '(l, w) := reap_list l w in
      (if complete : bool then l else x :: l, w)
  end.
Definition reap_copy_sources : C unit :=
  c ← get;
  l ← gask (reap_list (inflight_sources (srcs c)));
  on_srcs (set_inflight_sources l).

Definition retain_compute_source (owner : option ExpertKeepalive) : C unit :=
  match owner with
  | None => ret tt
  | Some o =>
      on_srcs (fun k =>
        match compute_sources k !! from_owner o with
        | Some _ => k
        | None => set_compute_sources (<[from_owner o := o]> (compute_sources k)) k
        end)
  end.

Definition admit_block (id : BlockId) (bytes : list Z) : C nat :=
  c ← get;
  o ← pick_res (reserve_slot (freq c) (length bytes));
  slot ← or_err o (ENoSlot (length bytes));
  write_slot slot (length bytes) None;;
  ok ← gask g_stage;
  if negb ok then
    drained ← gask g_compute_sync;
    if drained : bool then on_res (release_reserved_slot slot);; throw EStage
    else on_srcs (set_compute_stream_unknown true);; throw EUnknown
  else
    write_slot slot (length bytes) (Some bytes);;
    on_ctr (count_staged (length bytes));;
    on_res (publish id slot);;
    ret slot.

Definition note_pread_fallback : C unit :=
  on_spill (fun w => set_pread_fallbacks (inc64 (pread_fallbacks w) 1) w);;
  c ← get;
  match pread (spill c) with
  | None => ret tt
  | Some _ => on_pool rb_note_fallback;; ret tt
  end.

Definition begin_worker_scope : C unit :=
  c ← get;
  if bool_decide (worker_reads (spill c) = ∅) then ret tt else
  let tickets := (fun kv => wr_ticket kv.2) <$> map_to_list (worker_reads (spill c)) in
  on_spill (set_worker_reads ∅);;
  match pread (spill c) with
  | Some p =>
      if rb_is_worker p then for_each (fun t => on_pool (rb_cancel t);; ret tt) tickets else ret tt
  | None => ret tt
  end.

(** One turn of [promote_worker_reads_at_safe_boundary]; the result says
    whether the block was promoted. *)
Definition promote_one (keep : list BlockId) (id : BlockId) : C bool :=
  c ← get;
  if bool_decide (is_Some (table (res c) !! id)) || bool_decide (is_Some (pending c !! id)) then
    match worker_reads (spill c) !! id with
    | None => ret false
    | Some read =>
        on_spill (fun w => set_worker_reads (delete id (worker_reads w)) w);;
        match pread (spill c) with
        | Some _ => on_pool (rb_cancel (wr_ticket read));; ret false
        | None => ret false
        end
    end
  else
  match worker_reads (spill c) !! id with
  | None => ret false
  | Some read =>
      o ← pick_res (reserve_prefetch_slot (freq c) (wr_len read) keep);
      match o with
      | None => ret false
      | Some slot =>
          on_spill (fun w => set_worker_reads (delete id (worker_reads w)) w);;
          x ← on_pool (rb_wait (wr_ticket read));
          match x with
          | inr _ =>
              on_pool (rb_cancel (wr_ticket read));;
              on_res (release_reserved_slot slot);;
              note_pread_fallback;;
              ret false
          | inl index =>
              y ← on_pool (rb_bytes index (wr_len read));
              match y with
              | inr _ =>
                  on_pool (rb_abort index);;
                  on_res (release_reserved_slot slot);;
                  note_pread_fallback;;
                  ret false
              | inl bytes =>
                  z ← stage_pread_prefetch_on_copy_stream bytes slot;
                  match z with
                  | inr true =>
                      on_pool (rb_abort index);;
                      on_res (release_reserved_slot slot);;
                      note_pread_fallback;;
                      ret false
                  | inr false =>
                      on_pool (rb_mark_unknown index);;
                      on_srcs (set_copy_stream_unknown true);;
                      throw EUnknown
                  | inl ev =>
                      on_pool (rb_mark_h2d index ev);;
                      on_res (fun r => if length (occupant r) <=? slot then None
                                       else Some (set_occupant (<[slot := Some id]> (occupant r)) r));;
                      modify (fun c => set_pending (<[id := mkPending slot ev None bytes]> (pending c)) c);;
                      on_ctr (count_staged (wr_len read));;
                      ret true
                  end
              end
          end
      end
  end.
Fixpoint promote_loop (keep : list BlockId) (order : list BlockId) (promoted : nat) : C nat :=
  match order with
  | [] => ret promoted
  | id :: order =>
      b ← promote_one keep id;
      promote_loop keep order (if b : bool then S promoted else promoted)
  end.
Definition promote_worker_reads_at_safe_boundary (order keep : list BlockId) : C nat :=
  c ← get;
  if negb (copy_h2d (spill c)) then ret 0 else promote_loop keep order 0.

(** [dispatch_disk], up to its [match read]: a worker's read or a synchronous
    one; [None] is any failure, left to the fallback. *)
Definition disk_read (pend : option WorkerRead) (p : rb_state) (file : rb_file) (offset : Z)
    (len : nat) : C (option nat) :=
  if rb_is_worker p then
    ticket ← match pend with
             | Some read => ret (inl (Some (wr_ticket read)))
             | None => on_pool (rb_submit file offset len)
             end;
    match ticket with
    | inl (Some t) =>
        x ← on_pool (rb_wait t);
        match x with
        | inl index => ret (Some index)
        | inr _ => on_pool (rb_cancel t);; ret None
        end
    | inl None => ret None
    | inr _ => ret None
    end
  else
    massert (bool_decide (pend = None));;
    x ← on_pool (rb_read file offset len);
    match x with inl index => ret (Some index) | inr _ => ret None end.

(** ... and from there: the block's bytes go from buffer [index] to a slot. *)
Definition disk_admit (id : BlockId) (index len : nat) (fallback : list Z) : C DispatchSlot :=
  let admit_fallback := (s ← admit_block id fallback; ret (Resident s)) in
  c ← get;
  o ← pick_res (reserve_slot (freq c) len);
  slot ← or_err o (ENoSlot len);
  y ← on_pool (rb_bytes index len);
  match y with
  | inr _ =>
      on_pool (rb_abort index);;
      on_res (release_reserved_slot slot);;
      note_pread_fallback;;
      admit_fallback
  | inl bytes =>
      z ← stage_pread_on_compute_stream bytes slot;
      match z with
      | None =>
          drained ← gask g_compute_sync;
          if drained : bool then
            on_pool (rb_abort index);;
            on_res (release_reserved_slot slot);;
            note_pread_fallback;;
            admit_fallback
          else
            on_pool (rb_mark_unknown index);;
            throw EUnknown
      | Some ev =>
          on_pool (rb_mark_h2d index ev);;
          on_ctr (count_staged len);;
          on_res (publish id slot);;
          ret (Resident slot)
      end
  end.

Definition dispatch_disk (id : BlockId) (file : rb_file) (offset : Z) (len : nat)
    (fallback : list Z) : C DispatchSlot :=
  let admit_fallback := (s ← admit_block id fallback; ret (Resident s)) in
  c ← get;
  match pread (spill c) with
  | None =>
      when (pread_requested (spill c)) note_pread_fallback;;
      admit_fallback
  | Some p =>
      let pend := worker_reads (spill c) !! id in
      on_spill (fun w => set_worker_reads (delete id (worker_reads w)) w);;
      read ← disk_read pend p file offset len;
      match read with
      | None => note_pread_fallback;; admit_fallback
      | Some index => disk_admit id index len fallback
      end
  end.

Definition dispatch_source (id : BlockId) (source : ExpertSource) : C DispatchSlot :=
  reap_copy_sources;;
  on_freq (fun q => bump q id);;
  c ← get;
  match table (res c) !! id with
  | Some s =>
      on_ctr count_hit;;
      on_res (on_hit s);;
      ret (Resident s)
  | None =>
      match pending c !! id with
      | Some pb =>
          ok ← gask (fun w => g_compute_wait w (p_ready pb));
          if negb ok then throw EComputeWait else
          modify (fun c => set_pending (delete id (pending c)) c);;
          write_slot (p_slot pb) (length (written pb)) (Some (written pb));;
          on_ctr count_miss;;
          match p_keepalive pb with
          | Some k => on_srcs (fun s => set_inflight_sources (inflight_sources s ++ [(p_ready pb, k)]) s)
          | None => ret tt
          end;;
          on_res (publish id (p_slot pb));;
          ret (Resident (p_slot pb))
      | None =>
          on_ctr count_miss;;
          match source with
          | Memory bytes keepalive =>
              retain_compute_source keepalive;;
              s ← admit_block id bytes; ret (Resident s)
          | Disk file offset len fallback keepalive =>
              retain_compute_source (Some keepalive);;
              dispatch_disk id file offset len fallback
          end
      end
  end.
Definition dispatch (id : BlockId) (bytes : list Z) : C DispatchSlot :=
  dispatch_source id (Memory bytes None).

Definition prefetch_bytes (id : BlockId) (bytes : list Z) (keepalive : option ExpertKeepalive)
    (keep : list BlockId) : C bool :=
  c ← get;
  o ← pick_res (reserve_prefetch_slot (freq c) (length bytes) keep);
  match o with
  | None => ret false
  | Some slot =>
      z ← stage_on_copy_stream bytes slot;
      match z with
      | inr true => on_res (release_reserved_slot slot);; throw EStage
      | inr false =>
          on_srcs (set_copy_stream_unknown true);;
          match keepalive with
          | Some k => on_srcs (fun s => set_quarantined_sources (quarantined_sources s ++ [k]) s)
          | None => ret tt
          end;;
          throw EUnknown
      | inl ev =>
          on_res (fun r => if length (occupant r) <=? slot then None
                           else Some (set_occupant (<[slot := Some id]> (occupant r)) r));;
          modify (fun c => set_pending (<[id := mkPending slot ev keepalive bytes]> (pending c)) c);;
          on_ctr (count_staged (length bytes));;
          ret true
      end
  end.

Definition prefetch_source (id : BlockId) (source : ExpertSource) (keep : list BlockId) : C bool :=
  reap_copy_sources;;
  c ← get;
  if bool_decide (is_Some (table (res c) !! id)) || bool_decide (is_Some (pending c !! id))
     || bool_decide (is_Some (worker_reads (spill c) !! id)) then ret false else
  match source with
  | Memory bytes keepalive => prefetch_bytes id bytes keepalive keep
  | Disk file offset len fallback keepalive =>
      match pread (spill c) with
      | Some p =>
          if rb_is_worker p then
            x ← on_pool (rb_submit_speculative file offset len);
            match x with
            | inl (Some t) =>
                on_spill (fun w => set_worker_reads (<[id := mkRead t len]> (worker_reads w)) w);;
                ret true
            | inl None => ret false
            | inr _ => note_pread_fallback;; ret false
            end
          else ret false
      | None => prefetch_bytes id fallback (Some keepalive) keep
      end
  end.
Definition prefetch (id : BlockId) (bytes : list Z) (keep : list BlockId) : C bool :=
  prefetch_source id (Memory bytes None) keep.

Definition force_admit (id : BlockId) (bytes : list Z) : C nat :=
  c ← get;
  match table (res c) !! id with
  | Some s => ret s
  | None => admit_block id bytes
  end.

Definition note_profile_hit (id : BlockId) : C unit :=
  c ← get;
  if frozen c || negb (bool_decide (is_Some (table (res c) !! id))) then ret tt
  else on_freq (fun q => bump q id).

Definition begin_epoch (ly : Z) (t : nat) : C unit := on_freq (begin_forward_epoch ly t).

(** [freeze]; the report it prints computes the residency shape. *)
Definition freeze : C unit :=
  c ← get;
  if frozen c then ret tt else
  put (set_frozen true c);;
  unwrap (expert_residency_shape (res c));;
  ret tt.

(** [buf]. *)
Definition buf (d : DispatchSlot) (c : Cache) : option Slot :=
  match d with Resident s => slots (res c) !! s end.
Definition reset_counters : C unit := on_ctr (fun _ => mkCounters 0 0 0).

(** ** Profiles, prewarm and the device pointer rows *)

(** What the cache reads of [MoeWeights]: per projection the expert count, the
    byte length of each expert's block, and where its bytes are. *)
Record ExpertTensor := mkTensor {
  n_expert : nat;
  layout_len : nat -> nat;
  expert_source : nat -> ExpertSource;
}.
Record MoeWeights := mkWeights {
  gate_exps : ExpertTensor;
  up_exps : ExpertTensor;
  down_exps : ExpertTensor;
  active_experts : option (list bool);
}.
Definition exps_of (m : MoeWeights) (p : Z) : option ExpertTensor :=
  if (p =? PROJ_GATE)%Z then Some (gate_exps m)
  else if (p =? PROJ_UP)%Z then Some (up_exps m)
  else if (p =? PROJ_DOWN)%Z then Some (down_exps m)
  else None.

(** Admitting a source through its host bytes. *)
Definition admit_source (id : BlockId) (source : ExpertSource) : C unit :=
  match source with
  | Memory bytes keepalive => retain_compute_source keepalive;; admit_block id bytes;; ret tt
  | Disk _ _ _ fallback keepalive =>
      retain_compute_source (Some keepalive);; admit_block id fallback;; ret tt
  end.

Definition restage_block (id : BlockId) (m : MoeWeights) : C bool :=
  c ← get;
  if bool_decide (is_Some (table (res c) !! id)) then ret true else
  match exps_of m (proj id) with
  | None => ret false
  | Some exps =>
      let e := Z.to_nat (ex id) in
      if n_expert exps <=? e then ret false else
      inactive ← match active_experts m with
                 | None => ret false
                 | Some active => b ← unwrap (active !! e); ret (negb b)
                 end;
      if inactive : bool then ret false else
      if layout_len exps e =? 0 then ret false else
      admit_source id (expert_source exps e);; ret true
  end.

Definition is_disk (s : ExpertSource) : bool := match s with Disk _ _ _ _ _ => true | _ => false end.
Definition has_disk (m : MoeWeights) (e : nat) : bool :=
  is_disk (expert_source (gate_exps m) e) || is_disk (expert_source (up_exps m) e)
  || is_disk (expert_source (down_exps m) e).

Definition prewarm_one (ly : Z) (e : nat) (pe : Z * ExpertTensor) : C unit :=
  let id := mkBlock ly pe.1 (wrap 16 (Z.of_nat e)) in
  c ← get;
  if bool_decide (is_Some (table (res c) !! id)) then ret tt
  else admit_source id (expert_source pe.2 e).
Definition prewarm_expert (ly : Z) (m : MoeWeights) (e : nat) : C unit :=
  for_each (prewarm_one ly e)
    [(PROJ_GATE, gate_exps m); (PROJ_UP, up_exps m); (PROJ_DOWN, down_exps m)].
Definition prewarm_layer (ly : Z) (m : MoeWeights) : C unit :=
  c ← get;
  if bool_decide (ly ∈ prewarm_tried c) then ret tt else
  put (set_prewarm_tried ({[ ly ]} ∪ prewarm_tried c) c);;
  let n := n_expert (gate_exps m) in
  if bool_decide (is_Some (pread (spill c))) && existsb (has_disk m) (seq 0 n) then ret tt else
  let resident := Z.to_nat (default 0%Z (per_layer (res c) !! ly)) in
  massert (resident <=? 3 * n);;
  let missing := 3 * n - resident in
  if size_aware c then ret tt else
  if list_sum (map (fun k => length (free k)) (classes (res c))) <? missing then ret tt else
  for_each (prewarm_expert ly m) (seq 0 n).

(** The [3 * n] slot addresses of a layer's blocks, projection-major; [None]
    when a block is missing. *)
Definition row_ids (ly : Z) (n : nat) : list BlockId :=
  p ← [0; 1; 2]%Z; e ← seq 0 n; [mkBlock ly p (wrap 16 (Z.of_nat e))].
Definition row_addresses (ly : Z) (n : nat) (r : Residency) : option (list Z) :=
  mapM (fun id => slot_addr <$> table r !! id) (row_ids ly n).
Definition layer_dev_row (ly : Z) (n : nat) : C (option (list Z)) :=
  c ← get;
  if negb (Z.to_nat (default 0%Z (per_layer (res c) !! ly)) =? 3 * n) then ret None else
  match dev_rows (res c) !! ly with
  | Some row => ret (Some row)
  | None =>
      match row_addresses ly n (res c) with
      | None => ret None
      | Some host =>
          ok ← gask g_upload;
          if negb ok then throw EUpload else
          on_res (fun r => Some (set_dev_rows (<[ly := host]> (dev_rows r)) r));;
          ret (Some host)
      end
  end.

(** ** Construction *)

(** The slots of one class: [count] buffers of [capacity + 8] bytes. *)
Definition new_class (capacity : nat) (start count : nat) (pcap : nat) : SlotClass :=
  mkClass (Z.of_nat capacity) SlruList.new SlruList.new (reverse (seq start count)) pcap.
(** [((count as f64 * 0.8) as usize).max(1)]; exact below 2^50, where the
    product rounds to a double whose floor is that of [4 * count / 5]. *)
Definition protected_cap_of (count : nat) : nat := Nat.max 1 (4 * count / 5).
Fixpoint new_classes (plan : list (nat * nat)) (index start : nat)
    : list SlotClass * list nat * list Slot :=
  match plan with
  | [] => ([], [], [])
  | (capacity, count) :: plan =>
      let '(cs, sc, sl) := new_classes plan (S index) (start + count) in
      (new_class capacity start count (protected_cap_of count) :: cs,
       replicate count index ++ sc,
       replicate count (mkSlot (capacity + 8) None) ++ sl)
  end.
Definition new_residency (plan : list (nat * nat)) : Residency :=
  let '(cs, sc, sl) := new_classes plan 0 0 in
  let n := length sl in
  mkRes sl sc cs (replicate n link_none) (replicate n None) ∅ ∅ ∅.
End Cache.
