(* ===== verification/MoeResidency.v ===== *)
(** The residency of the expert cache: which blocks are in which slots.

    [rinv] is the invariant of [Residency]; the lemmas below show that every
    residency operation of [MoeCache.v] is total on it and keeps it. *)
From Stdlib Require Import SpecFloat.
From S2P Require Import Prelude Effects F32 Slru ReadBackend MoeCache.
Import SlruList SlotClass.

Section Residency_inv.
Context {rb : ReadBackend} {gpu_ : Gpu}.

(** ** The residency invariant *)

Definition idle (r : Residency) (s : nat) : Prop :=
  exists l, links r !! s = Some l /\ seg l = SEG_NONE.
Definition listed (r : Residency) (s : nat) : Prop :=
  exists l, links r !! s = Some l /\ seg l <> SEG_NONE.
Definition layer_count (ly : Z) (t : gmap BlockId nat) : nat :=
  size (filter (fun kv => layer kv.1 = ly) t).

(** [src id] are the block's bytes, [pend] the copies in flight and [out] the
    slots that are reserved or quarantined. *)
Record rinv (src : BlockId -> list Z) (pend : gmap BlockId PendingBlock) (out : gset nat)
    (r : Residency) : Prop := {
  ri_slots : length (slots r) = length (links r);
  ri_class : length (slot_class r) = length (links r);
  ri_occ : length (occupant r) = length (links r);
  ri_arena : arena_ok (links r);
  ri_size : forall s j sl, slot_class r !! s = Some j -> slots r !! s = Some sl ->
    exists c, classes r !! j = Some c /\ Z.of_nat (buf_bytes sl) = (capacity c + 8)%Z;
  (** each class represents some queues over its own slots *)
  ri_repr : forall j c, classes r !! j = Some c ->
    exists o, class_repr (links r) c (fun s => slot_class r !! s = Some j) o;
  (** a slot is free, listed, pending or out *)
  ri_free : forall j c s, classes r !! j = Some c -> s ∈ free c ->
    slot_class r !! s = Some j /\ occupant r !! s = Some None /\ idle r s /\ (s ∉ out);
  ri_free_nodup : forall j c, classes r !! j = Some c -> NoDup (free c);
  ri_listed : forall s, listed r s -> exists id, occupant r !! s = Some (Some id) /\
    table r !! id = Some s;
  ri_table : forall id s, table r !! id = Some s ->
    occupant r !! s = Some (Some id) /\ listed r s;
  ri_pending : forall id pb, pend !! id = Some pb ->
    occupant r !! p_slot pb = Some (Some id) /\ idle r (p_slot pb) /\ (p_slot pb ∉ out) /\
    written pb = src id /\ exists sl, slots r !! p_slot pb = Some sl /\ length (src id) <= buf_bytes sl;
  ri_out : forall s, s ∈ out -> occupant r !! s = Some None /\ idle r s;
  ri_layer : forall ly, default 0%Z (per_layer r !! ly) = Z.of_nat (layer_count ly (table r));
  (** a resident slot holds its block's bytes *)
  ri_content : forall id s sl, table r !! id = Some s -> slots r !! s = Some sl ->
    content sl = Some (src id);
  ri_rows : forall ly row, dev_rows r !! ly = Some row ->
    exists n, row_addresses ly n r = Some row;
}.

Section Residency_facts.
Context (src : BlockId -> list Z).
Implicit Types (r : Residency) (pend : gmap BlockId PendingBlock) (out : gset nat).

Lemma lookup_same_len {A B} (l : list A) (k : list B) (s : nat) :
  length l = length k -> is_Some (k !! s) -> is_Some (l !! s).
Proof. intros Hl [x Hx]. apply lookup_lt_is_Some_2. rewrite Hl. by eapply lookup_lt_Some. Qed.

Lemma rinv_slot r pend out s l :
  rinv src pend out r -> links r !! s = Some l ->
  exists sl j c, slots r !! s = Some sl /\ slot_class r !! s = Some j /\ classes r !! j = Some c /\
    Z.of_nat (buf_bytes sl) = (capacity c + 8)%Z /\ is_Some (occupant r !! s) /\ s < length (links r).
Proof.
  intros H Hl. assert (Hs : is_Some (links r !! s)) by eauto.
  destruct (lookup_same_len (slots r) (links r) s (ri_slots _ _ _ _ H) Hs) as [sl Hsl].
  destruct (lookup_same_len (slot_class r) (links r) s (ri_class _ _ _ _ H) Hs) as [j Hj].
  destruct (ri_size _ _ _ _ H s j sl Hj Hsl) as (c & Hc & Hz).
  exists sl, j, c. split_and!; try done; [|by eapply lookup_lt_Some].
  by apply (lookup_same_len (occupant r) (links r) s (ri_occ _ _ _ _ H)).
Qed.


Lemma idle_or_listed r s : s < length (links r) -> idle r s \/ listed r s.
Proof.
  intros Hs. destruct (lookup_lt_is_Some_2 _ _ Hs) as [l Hl].
  destruct (decide (seg l = SEG_NONE)); [left|right]; by exists l.
Qed.
Lemma idle_not_listed r s : idle r s -> ~ listed r s.
Proof. intros (l & Hl & Hs) (l' & Hl' & Hs'). congruence. Qed.
Lemma idle_lt r s : idle r s -> s < length (links r).
Proof. intros (l & Hl & _). by eapply lookup_lt_Some. Qed.
Lemma listed_lt r s : listed r s -> s < length (links r).
Proof. intros (l & Hl & _). by eapply lookup_lt_Some. Qed.

(** [r'] is [r] after a segment operation on class [j]. *)
Record relinked (j : nat) (r r' : Residency) : Prop := {
  rl_eq : exists cs l, r' = set_links l (set_classes cs r);
  rl_len : length (links r') = length (links r);
  rl_cap : forall k c, classes r !! k = Some c -> exists c', classes r' !! k = Some c' /\
    capacity c' = capacity c;
  rl_free : forall k c', classes r' !! k = Some c' -> exists c, classes r !! k = Some c /\
    free c' = free c;
  rl_repr : forall k c', classes r' !! k = Some c' ->
    exists o, class_repr (links r') c' (fun s => slot_class r !! s = Some k) o;
}.

Lemma put_class_relinked r pend out (j : nat) c c' l' o' :
  rinv src pend out r -> classes r !! j = Some c ->
  class_repr l' c' (fun s => slot_class r !! s = Some j) o' ->
  same_outside (fun s => slot_class r !! s = Some j) (links r) l' ->
  free c' = free c -> capacity c' = capacity c ->
  relinked j r (put_class j c' l' r).
Proof.
  intros H Hc Hr [Hlen Hout] Hf Hcap. assert (Hj : j < length (classes r)) by eauto using lookup_lt_Some.
  split.
  - by eexists _, _.
  - by simpl.
  - intros k d Hd. simpl. destruct (decide (k = j)) as [->|Hne].
    + rewrite list_lookup_insert_eq by done. simplify_eq. eauto.
    + rewrite list_lookup_insert_ne by done. eauto.
  - intros k d Hd. simpl in Hd. apply list_lookup_insert_Some in Hd as [(-> & -> & _)|[_ Hd]]; eauto.
  - intros k d Hd. simpl in Hd. apply list_lookup_insert_Some in Hd as [(<- & -> & _)|[Hne Hd]].
    + simpl. eauto.
    + destruct (ri_repr _ _ _ _ H k d Hd) as [o Ho]. exists o. simpl.
      eapply class_repr_frame; [|done]. intros s Hs. apply Hout. congruence.
Qed.

(** Listed slots of the updated class are those of the new queues. *)
Lemma put_class_listed r (j : nat) c c' l' o o' s :
  class_repr (links r) c (fun s => slot_class r !! s = Some j) o ->
  class_repr l' c' (fun s => slot_class r !! s = Some j) o' ->
  same_outside (fun s => slot_class r !! s = Some j) (links r) l' ->
  listed (put_class j c' l' r) s <->
    (slot_class r !! s = Some j /\ s ∈ queue o') \/ (slot_class r !! s <> Some j /\ listed r s).
Proof.
  intros Ho Ho' [_ Hout]. unfold listed. simpl.
  destruct (decide (slot_class r !! s = Some j)) as [Hm|Hm].
  - rewrite (class_listed _ _ _ _ s Ho' Hm). tauto.
  - rewrite Hout by done. tauto.
Qed.

Lemma rinv_same_listed r r' pend out (j : nat) :
  rinv src pend out r -> relinked j r r' -> (forall s, listed r' s <-> listed r s) ->
  rinv src pend out r'.
Proof.
  intros H [(cs & l & ->) Hlen Hcap Hfree Hrepr] Hls.
  assert (Hidle : forall s, idle r s -> idle (set_links l (set_classes cs r)) s).
  { intros s Hs. pose proof (idle_lt _ _ Hs) as Hlt. rewrite <-Hlen in Hlt.
    destruct (idle_or_listed _ s Hlt) as [?|Hl]; [done|]. apply Hls in Hl.
    by destruct (idle_not_listed _ _ Hs). }
  destruct H as [? ? ? Ha Hsz ? Hfr Hnd Hli Ht Hp Ho ? ? ?]. simpl in *. split; simpl; try done.
  - congruence.
  - congruence.
  - congruence.
  - unfold arena_ok in *. by rewrite Hlen.
  - intros s k sl Hk Hs. destruct (Hsz s k sl Hk Hs) as (c & Hc & Hz).
    destruct (Hcap k c Hc) as (c' & Hc' & Hce). exists c'. split; [done|lia].
  - intros k c' s Hc' Hin. destruct (Hfree k c' Hc') as (c & Hc & Hf). rewrite Hf in Hin.
    destruct (Hfr k c s Hc Hin) as (? & ? & ? & ?). eauto.
  - intros k c' Hc'. destruct (Hfree k c' Hc') as (c & Hc & ->). by eapply Hnd.
  - intros s Hs. apply Hli. by apply Hls.
  - intros id s Hid. destruct (Ht id s Hid) as [? ?]. split; [done|]. by apply Hls.
  - intros id pb Hpb. destruct (Hp id pb Hpb) as (? & ? & ? & ? & ?). split_and!; auto.
  - intros s Hs. destruct (Ho s Hs). auto.
Qed.

(** A hit never disturbs residency. *)
Lemma on_hit_inv r pend out s :
  rinv src pend out r -> listed r s ->
  exists r', on_hit s r = Some r' /\ rinv src pend out r' /\ table r' = table r /\
    slots r' = slots r.
Proof.
  intros H Hs. pose proof Hs as (l & Hl & _).
  destruct (rinv_slot r pend out s l H Hl) as (sl & j & c & Hsl & Hj & Hc & _ & _ & Hlt).
  unfold on_hit. rewrite Hj. simpl. rewrite Hc. simpl.
  destruct (free c) eqn:Hf; [|by eauto].
  destruct (ri_repr _ _ _ _ H j c Hc) as [o Ho].
  destruct (on_hit_full_repr _ _ _ _ s (ri_arena _ _ _ _ H) Ho Hj Hlt)
    as (c' & l' & -> & Ho' & Hf' & Hcap' & Hout). simpl.
  eexists. split; [done|]. split; [|done].
  eapply rinv_same_listed; [done|by eapply put_class_relinked|].
  assert (Hq : queue (old_on_hit_full s o) ≡ₚ queue o).
  { apply old_on_hit_full_queue. by apply (class_listed _ _ _ _ s Ho Hj). }
  intros t. rewrite (put_class_listed r j c c' l' o _ t Ho Ho' Hout), Hq.
  destruct (decide (slot_class r !! t = Some j)) as [Ht|Ht]; [|tauto].
  pose proof (class_listed _ _ _ _ t Ho Ht) as Hiff. unfold listed. tauto.
Qed.

Lemma layer_count_delete ly id (t : gmap BlockId nat) s :
  t !! id = Some s ->
  layer_count ly t = (if decide (layer id = ly) then 1 else 0) + layer_count ly (delete id t).
Proof.
  intros Hid. unfold layer_count. rewrite map_filter_delete.
  destruct (decide (layer id = ly)) as [He|He].
  - assert (Hf : filter (fun kv => layer kv.1 = ly) t !! id = Some s)
      by (apply map_lookup_filter_Some; by split).
    rewrite map_size_delete, Hf. pose proof (map_size_ne_0_lookup_2 (filter (fun kv => layer kv.1 = ly) t) id ltac:(by rewrite Hf)). lia.
  - rewrite delete_id; [done|]. apply map_lookup_filter_None. right. intros ? ? ?. by apply He.
Qed.
Lemma layer_count_insert ly id (t : gmap BlockId nat) s :
  t !! id = None ->
  layer_count ly (<[id := s]> t) = (if decide (layer id = ly) then 1 else 0) + layer_count ly t.
Proof.
  intros Hid. rewrite (layer_count_delete ly id (<[id := s]> t) s) by apply lookup_insert_eq.
  by rewrite delete_insert_id by done.
Qed.

(** No more blocks than slots. *)
Lemma table_bound (t : gmap BlockId nat) (n : nat) :
  (forall id s, t !! id = Some s -> s < n) ->
  (forall i j s, t !! i = Some s -> t !! j = Some s -> i = j) -> size t <= n.
Proof.
  intros Hlt Hinj. rewrite <-length_map_to_list, <-(length_fmap snd (map_to_list t)).
  rewrite <-(length_seq n 0). apply submseteq_length, NoDup_submseteq.
  - apply NoDup_fmap_2_strong; [|apply NoDup_map_to_list].
    intros [i s] [j s'] Hi Hj Heq. simpl in Heq. subst s'.
    apply elem_of_map_to_list in Hi, Hj. f_equal. by eapply Hinj.
  - intros s ([i s'] & -> & Hin)%list_elem_of_fmap. apply elem_of_map_to_list in Hin.
    apply elem_of_seq. simpl. specialize (Hlt i s' Hin). lia.
Qed.
Lemma layer_count_bound r pend out ly :
  rinv src pend out r -> layer_count ly (table r) <= length (links r).
Proof.
  intros H. transitivity (size (table r)).
  { unfold layer_count. apply map_subseteq_size, map_filter_subseteq. }
  apply table_bound.
  - intros id s Hs. destruct (ri_table _ _ _ _ H id s Hs) as [_ Hl]. by apply listed_lt.
  - intros i j s Hi Hj. destruct (ri_table _ _ _ _ H i s Hi) as [Ho _].
    destruct (ri_table _ _ _ _ H j s Hj) as [Ho' _]. congruence.
Qed.

Lemma row_addresses_ext ly n r r' :
  (forall id, layer id = ly -> is_Some (table r !! id) -> table r' !! id = table r !! id) ->
  is_Some (row_addresses ly n r) -> row_addresses ly n r' = row_addresses ly n r.
Proof.
  intros Heq [row Hrow]. unfold row_addresses in *. rewrite Hrow.
  apply mapM_Some. apply mapM_Some in Hrow.
  assert (Hly : Forall (fun id => layer id = ly) (row_ids ly n)).
  { apply Forall_forall. intros id Hin. unfold row_ids in Hin.
    apply list_elem_of_bind in Hin as (p & Hin & _). apply list_elem_of_bind in Hin as (e & Hin & _).
    by apply list_elem_of_singleton in Hin as ->. }
  revert Hly. induction Hrow as [|id a ids row Hid Hrow IH]; intros Hly; constructor.
  - apply Forall_cons in Hly as [Hl _]. rewrite Heq; [done|done|].
    by destruct (table r !! id).
  - apply IH. by apply Forall_cons in Hly as [_ Hly].
Qed.

(** Unlisting a victim and dropping its occupant turns it into a reserved slot. *)
Lemma evict_inv r r1 pend out (j : nat) x :
  rinv src pend out r -> relinked j r r1 -> listed r x ->
  (forall s, listed r1 s <-> listed r s /\ s <> x) ->
  exists r2 id, remove_occupant x r1 = Some r2 /\ rinv src pend ({[ x ]} ∪ out) r2 /\
    (x ∉ out) /\ table r !! id = Some x /\ table r2 = delete id (table r) /\
    slots r2 = slots r /\ occupant r !! x = Some (Some id) /\ classes r2 = classes r1.
Proof.
  intros H [(cs & l & ->) Hlen Hcap Hfree Hrepr] Hx Hls.
  destruct (ri_listed _ _ _ _ H x Hx) as (id & Hox & Htx).
  assert (Hnout : x ∉ out).
  { intros Hin. destruct (ri_out _ _ _ _ H x Hin) as [? ?]. congruence. }
  unfold remove_occupant. simpl. rewrite Hox. simpl. unfold on_block_evicted. simpl.
  pose proof (ri_layer _ _ _ _ H (layer id)) as Hcnt.
  pose proof (layer_count_delete (layer id) id (table r) x Htx) as Hdel.
  rewrite decide_True in Hdel by done.
  destruct (per_layer r !! layer id) as [k|] eqn:Hk; simpl in Hcnt; [|lia].
  rewrite (proj2 (Z.ltb_ge _ _)) by lia. simpl.
  eexists _, id. split; [done|]. split; [|done].
  assert (Hxlt : x < length (occupant r)) by eauto using lookup_lt_Some.
  set (r1 := set_links l (set_classes cs r)) in *.
  assert (Hidle : forall s, idle r s -> idle r1 s).
  { intros s Hs. pose proof (idle_lt _ _ Hs) as Hlt. rewrite <-Hlen in Hlt.
    destruct (idle_or_listed _ s Hlt) as [?|Hl]; [done|]. apply Hls in Hl as [Hl _].
    by destruct (idle_not_listed _ _ Hs). }
  assert (Hidx : idle r1 x).
  { assert (Hlt : x < length (links r1)) by (rewrite Hlen; by apply listed_lt).
    destruct (idle_or_listed _ x Hlt) as [?|Hl]; [done|]. apply Hls in Hl as [_ []]. done. }
  destruct H as [? ? ? Ha Hsz ? Hfr Hnd Hli Ht Hp Ho Hla Hco Hro]. simpl in *. split; simpl; try done.
  - congruence.
  - congruence.
  - rewrite length_insert. congruence.
  - unfold arena_ok in *. unfold r1 in Hlen. simpl in Hlen. by rewrite Hlen.
  - intros s m sl Hm Hs. destruct (Hsz s m sl Hm Hs) as (c & Hc & Hz).
    destruct (Hcap m c Hc) as (c' & Hc' & Hce). exists c'. split; [done|lia].
  - intros m c' s Hc' Hin. destruct (Hfree m c' Hc') as (c & Hc & Hf). rewrite Hf in Hin.
    destruct (Hfr m c s Hc Hin) as (? & Hos & ? & ?).
    assert (s <> x) by (intros ->; congruence).
    rewrite list_lookup_insert_ne by done. split_and!; [done|done|by apply Hidle|set_solver].
  - intros m c' Hc'. destruct (Hfree m c' Hc') as (c & Hc & ->). by eapply Hnd.
  - intros s [Hs Hne]%Hls. destruct (Hli s Hs) as (id' & Ho' & Ht').
    exists id'. rewrite list_lookup_insert_ne by done. split; [done|].
    rewrite lookup_delete_ne; [done|]. intros ->. congruence.
  - intros id' s [Hne Hid']%lookup_delete_Some. destruct (Ht id' s Hid') as [Ho' Hl'].
    assert (s <> x) by (intros ->; congruence).
    rewrite list_lookup_insert_ne by done. split; [done|]. by apply Hls.
  - intros id' pb Hpb. destruct (Hp id' pb Hpb) as (Ho' & Hi' & ? & ? & ?).
    assert (p_slot pb <> x). { intros He. rewrite He in Hi'. by apply idle_not_listed in Hi'. }
    rewrite list_lookup_insert_ne by done. split_and!; [done|by apply Hidle|set_solver|done|done].
  - intros s [->%elem_of_singleton|Hs]%elem_of_union.
    + by rewrite list_lookup_insert_eq.
    + destruct (Ho s Hs). rewrite list_lookup_insert_ne by (intros <-; contradiction).
      split; [done|by apply Hidle].
  - intros ly. destruct (decide (ly = layer id)) as [->|Hne].
    + rewrite lookup_insert_eq. simpl. lia.
    + rewrite lookup_insert_ne by done. rewrite Hla.
      rewrite (layer_count_delete ly id (table r) x Htx), decide_False by done. done.
  - intros id' s sl [_ Hid']%lookup_delete_Some. by apply Hco.
  - intros ly row [Hne Hrow]%lookup_delete_Some. destruct (Hro ly row Hrow) as [n Hn].
    exists n. rewrite <-Hn. apply row_addresses_ext; [|by rewrite Hn].
    intros id' Hl' _. simpl. rewrite lookup_delete_ne; [done|]. intros ->. by apply Hne.
Qed.

(** Removing [x] from the queues of class [j] unlists it and nothing else. *)
Lemma put_class_removed r (j : nat) c c' l' o o' x :
  class_repr (links r) c (fun s => slot_class r !! s = Some j) o ->
  class_repr l' c' (fun s => slot_class r !! s = Some j) o' ->
  same_outside (fun s => slot_class r !! s = Some j) (links r) l' ->
  queue o ≡ₚ x :: queue o' ->
  listed r x /\ slot_class r !! x = Some j /\
  forall s, listed (put_class j c' l' r) s <-> listed r s /\ s <> x.
Proof.
  intros Ho Ho' Hout Hq.
  assert (Hx : x ∈ queue o) by (rewrite Hq; left).
  assert (Hm : slot_class r !! x = Some j) by (by apply (cr_mine _ _ _ _ Ho)).
  assert (Hnx : x ∉ queue o').
  { pose proof (class_queue_nodup _ _ _ _ Ho) as Hnd. rewrite Hq in Hnd. by apply NoDup_cons in Hnd as [? _]. }
  split; [by apply (class_listed _ _ _ _ x Ho Hm)|]. split; [done|]. intros s.
  rewrite (put_class_listed r j c c' l' o o' s Ho Ho' Hout).
  destruct (decide (slot_class r !! s = Some j)) as [Hs|Hs].
  - pose proof (class_listed _ _ _ _ s Ho Hs) as Hiff. rewrite Hq, elem_of_cons in Hiff.
    unfold listed. split.
    + intros [[_ Hin]|[? _]]; [|done]. split; [apply Hiff; by right|]. intros ->. done.
    + intros [Hl Hne]. left. split; [done|]. apply Hiff in Hl as [?|?]; done.
  - split; [|by intros [? _]; right].
    intros [[? _]|[_ Hl]]; [done|]. split; [done|]. intros ->. done.
Qed.
Lemma put_class_kept r (j : nat) c c' l' o o' :
  class_repr (links r) c (fun s => slot_class r !! s = Some j) o ->
  class_repr l' c' (fun s => slot_class r !! s = Some j) o' ->
  same_outside (fun s => slot_class r !! s = Some j) (links r) l' ->
  queue o' ≡ₚ queue o ->
  forall s, listed (put_class j c' l' r) s <-> listed r s.
Proof.
  intros Ho Ho' Hout Hq s. rewrite (put_class_listed r j c c' l' o o' s Ho Ho' Hout), Hq.
  destruct (decide (slot_class r !! s = Some j)) as [Hs|Hs]; [|tauto].
  pose proof (class_listed _ _ _ _ s Ho Hs). unfold listed. tauto.
Qed.

(** What a victim choice does; [V] is what it promises of the victim. *)
Definition picks (V : Residency -> nat -> Prop)
    (pick : nat -> Residency -> option (option nat * Residency)) : Prop :=
  forall r pend out j, rinv src pend out r -> j < length (classes r) ->
    exists v r1, pick j r = Some (v, r1) /\ relinked j r r1 /\ length (classes r1) = length (classes r) /\
      match v with
      | None => forall s, listed r1 s <-> listed r s
      | Some x => listed r x /\ slot_class r !! x = Some j /\ V r x /\ forall s, listed r1 s <-> listed r s /\ s <> x
      end.

Lemma relinked_refl r pend out j : rinv src pend out r -> relinked j r r.
Proof.
  intros H. split; try done; [exists (classes r), (links r); by destruct r|eauto|eauto|].
  apply (ri_repr _ _ _ _ H).
Qed.

Lemma lru_victim_picks : picks (fun _ _ => True) lru_victim.
Proof.
  intros r pend out j H Hj. unfold lru_victim.
  destruct (lookup_lt_is_Some_2 _ _ Hj) as [c Hc]. rewrite Hc. simpl.
  destruct (ri_repr _ _ _ _ H j c Hc) as [o Ho].
  destruct (pop_lru_repr _ _ _ _ (ri_arena _ _ _ _ H) Ho)
    as (c' & l' & -> & Ho' & _ & Hf & Hcap & Hout). simpl.
  eexists _, _. split; [done|]. split; [by eapply put_class_relinked|].
  split; [simpl; apply length_insert|]. pose proof (old_pop_lru_queue o) as Hq.
  destruct ((old_pop_lru o).1) as [x|].
  - assert (Hp : queue o ≡ₚ x :: queue (old_pop_lru o).2) by (by rewrite Hq).
    by destruct (put_class_removed r j c c' l' o _ x Ho Ho' Hout Hp) as (? & ? & ?).
  - eapply put_class_kept; [exact Ho|exact Ho'|done|]. by rewrite Hq.
Qed.

Definition spared (keep : list BlockId) r (x : nat) : Prop :=
  forall id, occupant r !! x = Some (Some id) -> id ∉ keep.

Lemma lru_victim_excluding_picks keep : picks (spared keep) (lru_victim_excluding keep).
Proof.
  intros r pend out j H Hj. unfold lru_victim_excluding.
  destruct (lookup_lt_is_Some_2 _ _ Hj) as [c Hc]. rewrite Hc. simpl.
  destruct (ri_repr _ _ _ _ H j c Hc) as [o Ho].
  destruct (take_excluding_repr _ _ _ _ (may_take (occupant r) keep) (ri_arena _ _ _ _ H) Ho)
    as (c' & l' & -> & Ho' & _ & Hf & Hcap & Hout). simpl.
  eexists _, _. split; [done|]. split; [by eapply put_class_relinked|].
  split; [simpl; apply length_insert|].
  pose proof (old_take_queue (may_take (occupant r) keep) o) as Hq.
  destruct ((old_take_excluding _ o).1) as [x|].
  - destruct Hq as [Hp Hm].
    destruct (put_class_removed r j c c' l' o _ x Ho Ho' Hout Hp) as (? & ? & ?).
    split_and!; [done..| |done]. intros id Hid. unfold may_take in Hm. rewrite Hid in Hm.
    by apply negb_true_iff, bool_decide_eq_false_1 in Hm.
  - eapply put_class_kept; [exact Ho|exact Ho'|done|]. by rewrite Hq.
Qed.

Lemma lfu_candidates_spec fr occ keep pos xs :
  (forall x, x ∈ xs -> is_Some (occ !! x)) ->
  exists cands, lfu_candidates fr occ keep pos xs = Some cands /\
    forall c, c ∈ cands -> c.2 ∈ xs /\ exists id, occ !! c.2 = Some (Some id) /\ id ∉ keep.
Proof.
  revert pos. induction xs as [|x xs IH]; intros pos Hin; simpl.
  { eexists. split; [done|]. intros c Hc. by apply not_elem_of_nil in Hc. }
  destruct (Hin x) as [o Ho]; [left|]. rewrite Ho. simpl.
  destruct (IH (S pos)) as (cands & -> & Hc); [intros y Hy; apply Hin; by right|]. simpl.
  assert (Hc' : forall c, c ∈ cands -> c.2 ∈ x :: xs /\ exists id, occ !! c.2 = Some (Some id) /\ id ∉ keep).
  { intros c H. destruct (Hc c H). split; [by right|done]. }
  destruct o as [id|]; [|by eauto]. destruct (bool_decide (id ∈ keep)) eqn:Hk; [by eauto|].
  apply bool_decide_eq_false_1 in Hk. eexists. split; [done|].
  intros c [->|H]%elem_of_cons; [|by apply Hc']. simpl. split; [left|eauto].
Qed.
Lemma min_by_in b l : min_by b l ∈ b :: l.
Proof.
  revert b. induction l as [|x l IH]; intros b; simpl; [left|].
  specialize (IH (match candidate_cmp b x with Gt => x | _ => b end)).
  apply elem_of_cons in IH as [->|IH].
  - destruct (candidate_cmp b x); [left|left|right; left].
  - by do 2 right.
Qed.

Lemma frequency_victim_picks fr keep : picks (spared keep) (frequency_victim_in_class fr keep).
Proof.
  intros r pend out j H Hj. unfold frequency_victim_in_class.
  destruct (lookup_lt_is_Some_2 _ _ Hj) as [c Hc]. rewrite Hc. simpl.
  destruct (ri_repr _ _ _ _ H j c Hc) as [o Ho].
  destruct (class_iter _ _ _ _ (ri_arena _ _ _ _ H) Ho) as [-> ->]. simpl. fold (queue o).
  destruct (lfu_candidates_spec fr (occupant r) keep 0 (queue o)) as (cands & -> & Hcs).
  { intros x Hx. pose proof (cr_mine _ _ _ _ Ho x Hx) as Hm.
    apply (class_listed _ _ _ _ x Ho Hm) in Hx as (l & Hl & _).
    destruct (rinv_slot r pend out x l H Hl) as (_ & _ & _ & _ & _ & _ & _ & ? & _). done. }
  simpl. destruct cands as [|b rest].
  { eexists _, _. split; [done|]. split; [by eapply relinked_refl|]. done. }
  pose proof (min_by_in b rest) as Hmin. set (x := (min_by b rest).2).
  destruct (Hcs _ Hmin) as (Hx & id & Hox & Hk). fold x in Hx, Hox.
  pose proof (cr_mine _ _ _ _ Ho x Hx) as Hm.
  pose proof (proj2 (class_listed _ _ _ _ x Ho Hm) Hx) as Hlx.
  destruct (unlink_from_segment_repr _ _ _ _ x (ri_arena _ _ _ _ H) Ho Hm (listed_lt r x Hlx))
    as (c' & l' & -> & Ho' & _ & Hf & Hcap & Hout). simpl.
  eexists _, _. split; [done|]. split; [by eapply put_class_relinked|].
  split; [simpl; apply length_insert|].
  destruct (put_class_removed r j c c' l' o _ x Ho Ho' Hout (old_unlink_queue x o Hx)) as (? & _ & ?).
  split_and!; [done..| |done]. intros id' Hid'. by simplify_eq.
Qed.

(** Taking a slot out of service: [x] is reserved, and at most its own block
    left the table. *)
Record reserved pend out (keep : list BlockId) (required : nat) r (x : nat) r' : Prop := {
  rs_inv : rinv src pend ({[ x ]} ∪ out) r';
  rs_new : x ∉ out;
  rs_slots : slots r' = slots r;
  rs_room : exists sl, slots r !! x = Some sl /\ required + 8 <= buf_bytes sl;
  rs_table : table r' = table r \/
    exists id, table r !! id = Some x /\ (id ∉ keep) /\ table r' = delete id (table r);
}.
Definition reservation pend out (keep : list BlockId) (required : nat) r (v : option nat) r' : Prop :=
  match v with
  | Some x => reserved pend out keep required r x r'
  | None => rinv src pend out r' /\ table r' = table r /\ slots r' = slots r
  end.

Lemma evict_loop_spec keep pick required js r pend out :
  picks (spared keep) pick -> rinv src pend out r -> (forall j, j ∈ js -> j < length (classes r)) ->
  exists v r', evict_loop pick required js r = Some (v, r') /\
    reservation pend out keep required r v r'.
Proof.
  intros Hp. revert r. induction js as [|j js IH]; intros r H Hjs; simpl.
  { eexists None, r. split; [done|]. by split_and!. }
  assert (Hj : j < length (classes r)) by (apply Hjs; left).
  assert (Hjs' : forall k, k ∈ js -> k < length (classes r)) by (intros k Hk; apply Hjs; by right).
  destruct (lookup_lt_is_Some_2 _ _ Hj) as [c Hc]. rewrite Hc. simpl.
  destruct (capacity c <? Z.of_nat required)%Z eqn:Hcap; [by apply IH|].
  apply Z.ltb_ge in Hcap.
  destruct (Hp r pend out j H Hj) as (v & r1 & -> & Hrl & Hlen & Hv). simpl.
  destruct v as [x|].
  - destruct Hv as (Hx & Hxj & Hsp & Hls).
    destruct (evict_inv r r1 pend out j x H Hrl Hx Hls)
      as (r2 & id & -> & Hinv & Hnew & Htx & Ht2 & Hs2 & Hox & _).
    simpl. eexists (Some x), r2. split; [done|]. split; try done.
    + destruct Hx as (l & Hl & _).
      destruct (rinv_slot r pend out x l H Hl) as (sl & k & d & Hsl & Hk & Hd & Hz & _).
      exists sl. split; [done|]. simplify_eq. lia.
    + right. exists id. split_and!; auto.
  - pose proof (rinv_same_listed r r1 pend out j H Hrl Hv) as H1.
    destruct (IH r1 H1) as (v' & r' & He & Hr'); [intros; rewrite Hlen; auto|].
    destruct Hrl as [(cs & l & ->) _ _ _ _]. exists v', r'. split; [done|].
    destruct v' as [x|]; [|done]. destruct Hr' as [? ? ? ? ?]. by split.
Qed.

Lemma pop_free_spec required cs slot cs' :
  pop_free required cs = Some (slot, cs') ->
  exists j c fr, cs !! j = Some c /\ free c = fr ++ [slot] /\ (Z.of_nat required <= capacity c)%Z /\
    cs' = <[j := with_free fr c]> cs.
Proof.
  revert cs'. induction cs as [|c cs IH]; intros cs'; simpl; [done|].
  destruct (Z.of_nat required <=? capacity c)%Z eqn:Hcap.
  - destruct (vec_pop (free c)) as [[s fr]|] eqn:Hpop.
    + intros [= -> <-]. apply vec_pop_Some in Hpop. apply Z.leb_le in Hcap.
      by exists 0, c, fr.
    + destruct (pop_free required cs) as [[s cs0]|]; simpl; [|done]. intros [= -> <-].
      destruct (IH _ eq_refl) as (j & d & fr & ? & ? & ? & ->). by exists (S j), d, fr.
  - destruct (pop_free required cs) as [[s cs0]|]; simpl; [|done]. intros [= -> <-].
    destruct (IH _ eq_refl) as (j & d & fr & ? & ? & ? & ->). by exists (S j), d, fr.
Qed.

(** Replacing a class by one with another free list. *)
Lemma set_free_repr r pend out (j : nat) c fr k d :
  rinv src pend out r -> classes r !! j = Some c ->
  <[j := with_free fr c]> (classes r) !! k = Some d ->
  exists d0, classes r !! k = Some d0 /\ capacity d = capacity d0 /\
    free d = (if decide (k = j) then fr else free d0) /\
    exists o, class_repr (links r) d (fun s => slot_class r !! s = Some k) o.
Proof.
  intros H Hc Hd. apply list_lookup_insert_Some in Hd as [(<- & <- & _)|[Hne Hd]].
  - exists c. rewrite decide_True by done. split_and!; [done..|].
    destruct (ri_repr _ _ _ _ H j c Hc) as [o Ho]. exists o. by apply class_repr_with_free.
  - exists d. rewrite decide_False by done. split_and!; [done..|]. by apply (ri_repr _ _ _ _ H).
Qed.

Lemma pop_free_inv pend out keep required r slot cs :
  rinv src pend out r -> pop_free required (classes r) = Some (slot, cs) ->
  reserved pend out keep required r slot (set_classes cs r).
Proof.
  intros H (j & c & fr & Hc & Hfree & Hcap & ->)%pop_free_spec.
  assert (Hin : slot ∈ free c) by (rewrite Hfree; apply elem_of_app; right; left).
  destruct (ri_free _ _ _ _ H j c slot Hc Hin) as (Hj & Hocc & Hidle & Hnew).
  pose proof (ri_free_nodup _ _ _ _ H j c Hc) as Hnd. rewrite Hfree in Hnd.
  pose proof (NoDup_app_not_in fr [] slot Hnd) as [Hnfr _].
  pose proof (set_free_repr r pend out j c fr) as Hget.
  split; [|done|done| |by left].
  - pose proof H as [? ? ? Ha Hsz ? Hfr Hnds Hli Ht Hp Ho ? ? ?]. split; simpl; try done.
    + intros s k sl Hk Hs. destruct (Hsz s k sl Hk Hs) as (d & Hd & Hz).
      destruct (decide (k = j)) as [->|Hne].
      * simplify_eq. exists (with_free fr c).
        rewrite list_lookup_insert_eq by eauto using lookup_lt_Some. done.
      * exists d. by rewrite list_lookup_insert_ne.
    + intros k d Hd. destruct (Hget k d H Hc Hd) as (_ & _ & _ & _ & ?). done.
    + intros k d s Hd Hs. destruct (Hget k d H Hc Hd) as (d0 & Hd0 & _ & Hf & _).
      rewrite Hf in Hs. clear Hf. destruct (decide (k = j)) as [->|Hne].
      * destruct (Hfr j c s Hc) as (? & ? & ? & ?); [rewrite Hfree; apply elem_of_app; by left|].
        split_and!; [done..|]. intros [->%elem_of_singleton|?]%elem_of_union; done.
      * destruct (Hfr k d0 s Hd0 Hs) as (? & ? & ? & ?).
        split_and!; [done..|]. intros [->%elem_of_singleton|?]%elem_of_union; [congruence|done].
    + intros k d Hd. destruct (Hget k d H Hc Hd) as (d0 & Hd0 & _ & Hf & _). rewrite Hf.
      destruct (decide (k = j)); [|by eapply Hnds]. by apply NoDup_app in Hnd as [? _].
    + intros id pb Hpb. destruct (Hp id pb Hpb) as (Ho' & ? & ? & ? & ?).
      split_and!; [done..| |done|done].
      intros [He%elem_of_singleton|?]%elem_of_union; [|done]. rewrite He in Ho'. congruence.
    + intros s [->%elem_of_singleton|Hs]%elem_of_union; auto.
  - destruct Hidle as (l & Hl & _).
    destruct (rinv_slot r pend out slot l H Hl) as (sl & k & d & Hsl & Hk & Hd & Hz & _).
    exists sl. split; [done|]. simplify_eq. lia.
Qed.

Lemma lru_victim_spares_nil : picks (spared []) lru_victim.
Proof.
  intros r pend out j H Hj.
  destruct (lru_victim_picks r pend out j H Hj) as (v & r1 & ? & ? & ? & Hv).
  exists v, r1. split_and!; [done..|]. destruct v as [x|]; [|done].
  destruct Hv as (? & ? & _ & ?). split_and!; [done..| |done]. intros id _. apply not_elem_of_nil.
Qed.

Lemma reserve_slot_spec q required r pend out :
  rinv src pend out r ->
  exists v r', reserve_slot q required r = Some (v, r') /\
    reservation pend out [] required r v r'.
Proof.
  intros H. unfold reserve_slot, evict_one.
  destruct (pop_free required (classes r)) as [[slot cs]|] eqn:Hpop.
  - eexists (Some slot), _. split; [done|]. by apply pop_free_inv.
  - apply evict_loop_spec; [|done|].
    + destruct (frequency_evict q); [apply frequency_victim_picks|apply lru_victim_spares_nil].
    + intros j Hj. apply elem_of_seq in Hj. lia.
Qed.
Lemma reserve_prefetch_slot_spec q required keep r pend out :
  rinv src pend out r ->
  exists v r', reserve_prefetch_slot q required keep r = Some (v, r') /\
    reservation pend out keep required r v r'.
Proof.
  intros H. unfold reserve_prefetch_slot, evict_one_excluding.
  destruct (pop_free required (classes r)) as [[slot cs]|] eqn:Hpop.
  - eexists (Some slot), _. split; [done|]. by apply pop_free_inv.
  - apply evict_loop_spec; [|done|].
    + destruct (frequency_evict q); [apply frequency_victim_picks|apply lru_victim_excluding_picks].
    + intros j Hj. apply elem_of_seq in Hj. lia.
Qed.

(** A reserved slot given back is free again. *)
Lemma release_inv pend out slot r :
  rinv src pend ({[ slot ]} ∪ out) r -> slot ∉ out ->
  exists r', release_reserved_slot slot r = Some r' /\ rinv src pend out r' /\
    table r' = table r /\ slots r' = slots r.
Proof.
  intros H Hnew. destruct (ri_out _ _ _ _ H slot) as [Hocc (l & Hl & Hseg)]; [set_solver|].
  destruct (rinv_slot r pend _ slot l H Hl) as (sl & j & c & Hsl & Hj & Hc & _).
  unfold release_reserved_slot. rewrite Hocc. simpl. rewrite Hj. simpl. rewrite Hc. simpl.
  eexists. split; [done|]. split; [|done].
  assert (Hnf : slot ∉ free c).
  { intros Hin. destruct (ri_free _ _ _ _ H j c slot Hc Hin) as (_ & _ & _ & Hn). set_solver. }
  pose proof (set_free_repr r pend ({[ slot ]} ∪ out) j c (free c ++ [slot])) as Hget.
  pose proof H as [? ? ? Ha Hsz ? Hfr Hnds Hli Ht Hp Ho ? ? ?]. split; simpl; try done.
  - intros s k sl' Hk Hs. destruct (Hsz s k sl' Hk Hs) as (d & Hd & Hz).
    destruct (decide (k = j)) as [->|Hne].
    + simplify_eq. exists (with_free (free c ++ [slot]) c).
      rewrite list_lookup_insert_eq by eauto using lookup_lt_Some. done.
    + exists d. by rewrite list_lookup_insert_ne.
  - intros k d Hd. destruct (Hget k d H Hc Hd) as (_ & _ & _ & _ & ?). done.
  - intros k d s Hd Hs. destruct (Hget k d H Hc Hd) as (d0 & Hd0 & _ & Hf & _). rewrite Hf in Hs. clear Hf.
    assert (Hold : s ∈ free d0 -> slot_class r !! s = Some k /\ occupant r !! s = Some None /\ idle r s /\ (s ∉ out)).
    { intros Hin. destruct (Hfr k d0 s Hd0 Hin) as (? & ? & ? & ?).
      split_and!; [done..|]. intros Hso. set_solver. }
    destruct (decide (k = j)) as [->|Hne]; [|by apply Hold]. simplify_eq.
    apply elem_of_app in Hs as [Hs| ->%list_elem_of_singleton]; [by apply Hold|].
    split_and!; [done..| |done]. by exists l.
  - intros k d Hd. destruct (Hget k d H Hc Hd) as (d0 & Hd0 & _ & Hf & _). rewrite Hf. clear Hf.
    destruct (decide (k = j)) as [->|]; [|by eapply Hnds]. simplify_eq.
    apply NoDup_app. split_and!; [by eapply Hnds| |apply NoDup_singleton].
    intros s Hs ->%list_elem_of_singleton. done.
  - intros id pb Hpb. destruct (Hp id pb Hpb) as (? & ? & ? & ? & ?).
    split_and!; [done..| |done|done]. set_solver.
  - intros s Hs. apply Ho. set_solver.
Qed.

Lemma rinv_weaken pend pend' out out' r :
  rinv src pend out r -> out' ⊆ out -> pend' ⊆ pend -> rinv src pend' out' r.
Proof.
  intros H Hout Hpend. pose proof H as [? ? ? ? ? ? Hfr ? ? ? Hp Ho ? ? ?]. split; try done.
  - intros j c s Hc Hs. destruct (Hfr j c s Hc Hs) as (? & ? & ? & ?). split_and!; [done..|]. set_solver.
  - intros id pb Hpb. destruct (Hp id pb) as (? & ? & ? & ? & ?); [by eapply lookup_weaken|].
    split_and!; [done..| |done|done]. set_solver.
  - intros s Hs. apply Ho. set_solver.
Qed.

(** [slot] belongs to nobody. *)
Definition unowned pend out r (slot : nat) : Prop :=
  idle r slot /\ (slot ∉ out) /\
  (forall j c, classes r !! j = Some c -> slot ∉ free c) /\
  (forall id pb, pend !! id = Some pb -> p_slot pb <> slot).
Lemma reserved_unowned pend out slot r :
  rinv src pend ({[ slot ]} ∪ out) r -> slot ∉ out -> unowned pend out r slot.
Proof.
  intros H Hnew. destruct (ri_out _ _ _ _ H slot) as [_ Hidle]; [set_solver|].
  split_and!; [done|done| |].
  - intros j c Hc Hin. destruct (ri_free _ _ _ _ H j c slot Hc Hin) as (_ & _ & _ & Hn). set_solver.
  - intros id pb Hpb He. destruct (ri_pending _ _ _ _ H id pb Hpb) as (_ & _ & Hn & _). set_solver.
Qed.

Lemma put_class_pushed r (j : nat) c c' l' o x :
  class_repr (links r) c (fun s => slot_class r !! s = Some j) o ->
  class_repr l' c' (fun s => slot_class r !! s = Some j) (old_push_probation x o) ->
  same_outside (fun s => slot_class r !! s = Some j) (links r) l' ->
  slot_class r !! x = Some j ->
  forall s, listed (put_class j c' l' r) s <-> listed r s \/ s = x.
Proof.
  intros Ho Ho' Hout Hx s.
  rewrite (put_class_listed r j c c' l' o _ s Ho Ho' Hout).
  assert (Hq : s ∈ queue (old_push_probation x o) <-> s ∈ queue o \/ s = x).
  { unfold queue, old_push_probation. simpl.
    rewrite !elem_of_app, list_elem_of_singleton. tauto. }
  destruct (decide (slot_class r !! s = Some j)) as [Hs|Hs].
  - pose proof (class_listed _ _ _ _ s Ho Hs) as Hiff. unfold listed. tauto.
  - split; [intros [[? _]|[_ ?]]; tauto|]. intros [?| ->]; [by right|done].
Qed.

(** Publishing a filled slot makes its block resident. *)
Lemma publish_inv pend out id slot r sl :
  rinv src pend out r -> unowned pend out r slot -> table r !! id = None ->
  slots r !! slot = Some sl -> content sl = Some (src id) ->
  exists r', publish id slot r = Some r' /\ rinv src pend out r' /\
    table r' = <[id := slot]> (table r) /\ slots r' = slots r.
Proof.
  intros H (Hidle & Hnew & Hnf & Hnp) Hid Hsl Hsrc.
  pose proof Hidle as (l & Hl & Hseg).
  destruct (rinv_slot r pend _ slot l H Hl) as (sl' & j & c & Hsl' & Hj & Hc & _ & _ & Hlt).
  assert (Hocc : slot < length (occupant r)) by (by rewrite (ri_occ _ _ _ _ H)).
  unfold publish. rewrite (proj2 (Nat.leb_gt _ _) Hocc). simpl. rewrite Hj. simpl. rewrite Hc. simpl.
  destruct (ri_repr _ _ _ _ H j c Hc) as [o Ho].
  destruct (push_probation_repr _ _ _ _ slot l (ri_arena _ _ _ _ H) Ho Hj Hl Hseg)
    as (c' & l' & -> & Ho' & Hf & Hcap & Hout). simpl.
  assert (Hidl : forall i s, table r !! i = Some s -> s <> slot).
  { intros i s Hi ->. destruct (ri_table _ _ _ _ H i slot Hi) as [_ Hls].
    by apply idle_not_listed in Hidle. }
  assert (Hcnt : layer_count (layer id) (<[id := slot]> (table r)) <= length (links r)).
  { transitivity (size (<[id := slot]> (table r))).
    { unfold layer_count. apply map_subseteq_size, map_filter_subseteq. }
    apply table_bound.
    - intros i s [[<- <-]|[_ Hi]]%lookup_insert_Some; [done|].
      destruct (ri_table _ _ _ _ H i s Hi) as [_ ?]. by apply listed_lt.
    - intros i i' s [[<- <-]|[? Hi]]%lookup_insert_Some [[<- He]|[? Hi']]%lookup_insert_Some; try done.
      + by apply Hidl in Hi'.
      + subst s. by apply Hidl in Hi.
      + destruct (ri_table _ _ _ _ H i s Hi) as [? _]. destruct (ri_table _ _ _ _ H i' s Hi') as [? _].
        congruence. }
  pose proof (ri_layer _ _ _ _ H (layer id)) as Hly.
  pose proof (layer_count_insert (layer id) id (table r) slot Hid) as Hins.
  rewrite decide_True in Hins by done.
  pose proof (ri_arena _ _ _ _ H) as Ha. unfold arena_ok, NIL in Ha. unfold u_max.
  rewrite (proj2 (Z.ltb_ge _ _)) by lia.
  eexists. split; [done|]. split; [|done].
  pose proof (put_class_relinked r pend out j c c' l' _ H Hc Ho' Hout Hf Hcap) as Hrl.
  pose proof (put_class_pushed r j c c' l' o slot Ho Ho' Hout Hj) as Hls.
  destruct Hrl as [_ Hlen Hcaps Hfree Hrepr]. set (r1 := put_class j c' l' r) in *.
  assert (Hidle1 : forall s, idle r s -> s <> slot -> idle r1 s).
  { intros s Hs Hne. pose proof (idle_lt _ _ Hs) as Hslt. rewrite <-Hlen in Hslt.
    destruct (idle_or_listed _ s Hslt) as [?|Hl1]; [done|]. apply Hls in Hl1 as [Hl1|]; [|done].
    by destruct (idle_not_listed _ _ Hs). }
  pose proof H as [? ? ? ? Hsz ? Hfr Hnds Hli Ht Hp Hot Hla Hco Hro]. change (length l' = length (links r)) in Hlen. split; simpl.
  - rewrite Hlen. congruence.
  - rewrite Hlen. congruence.
  - rewrite Hlen, length_insert. congruence.
  - unfold arena_ok. by rewrite Hlen.
  - intros s k sl0 Hk Hs. destruct (Hsz s k sl0 Hk Hs) as (d & Hd & Hz).
    destruct (Hcaps k d Hd) as (d' & Hd' & Hce). exists d'. split; [done|lia].
  - done.
  - intros k d' s Hd' Hin. destruct (Hfree k d' Hd') as (d & Hd & Hfd). rewrite Hfd in Hin.
    destruct (Hfr k d s Hd Hin) as (? & ? & ? & ?).
    assert (s <> slot) by (intros ->; by eapply Hnf).
    rewrite list_lookup_insert_ne by done. split_and!; [done|done|by apply Hidle1|done].
  - intros k d' Hd'. destruct (Hfree k d' Hd') as (d & Hd & ->). by eapply Hnds.
  - intros s [Hs| ->]%Hls.
    + destruct (Hli s Hs) as (i & Hi & Hti).
      rewrite list_lookup_insert_ne by (by apply not_eq_sym, (Hidl i)).
      exists i. split; [done|]. rewrite lookup_insert_ne; [done|]. intros ->. congruence.
    + exists id. rewrite list_lookup_insert_eq by done. by rewrite lookup_insert_eq.
  - intros i s [[<- <-]|[Hne Hi]]%lookup_insert_Some.
    + rewrite list_lookup_insert_eq by done. split; [done|]. apply Hls. by right.
    + destruct (Ht i s Hi). rewrite list_lookup_insert_ne by (by apply not_eq_sym, (Hidl i)).
      split; [done|]. apply Hls. by left.
  - intros i pb Hpb. pose proof (Hnp i pb Hpb). destruct (Hp i pb Hpb) as (? & ? & ? & ? & ?).
    rewrite list_lookup_insert_ne by done. split_and!; [done|by apply Hidle1|done..].
  - intros s Hs. assert (s <> slot) by (by intros ->). destruct (Hot s Hs).
    rewrite list_lookup_insert_ne by done. split; [done|by apply Hidle1].
  - intros ly. destruct (decide (ly = layer id)) as [->|Hne].
    + rewrite lookup_insert_eq. simpl. lia.
    + rewrite lookup_insert_ne by done. rewrite Hla.
      rewrite (layer_count_insert ly id (table r) slot Hid), decide_False by done. done.
  - intros i s sl0 [[<- <-]|[_ Hi]]%lookup_insert_Some Hs; [congruence|by eapply Hco].
  - intros ly row Hrow. destruct (Hro ly row Hrow) as [n Hn]. exists n.
    rewrite <-Hn. apply row_addresses_ext; [|by rewrite Hn].
    intros i _ [s Hi]. simpl. rewrite lookup_insert_ne; [done|]. intros ->. congruence.
Qed.

(** Overwriting a slot no resident block uses. *)
Lemma write_inv pend out slot r sl x :
  rinv src pend out r -> slots r !! slot = Some sl ->
  (forall id, table r !! id = Some slot -> x = Some (src id)) ->
  rinv src pend out (set_slots (<[slot := mkSlot (buf_bytes sl) x]> (slots r)) r).
Proof.
  intros H Hsl Hx. pose proof H as [? ? ? ? Hsz ? ? ? ? ? Hp ? ? Hco ?]. split; simpl; try done.
  - by rewrite length_insert.
  - intros s j sl' Hj [(<- & <- & _)|[_ Hs]]%list_lookup_insert_Some; [|by eauto]. simpl. by eauto.
  - intros id pb Hpb. destruct (Hp id pb Hpb) as (? & ? & ? & ? & sl' & Hs' & Hlen).
    split_and!; try done. destruct (decide (slot = p_slot pb)) as [->|Hne].
    + eexists. rewrite list_lookup_insert_eq by eauto using lookup_lt_Some.
      split; [done|]. simpl. congruence.
    + exists sl'. by rewrite list_lookup_insert_ne.
  - intros id s sl' Hid [(<- & <- & _)|[_ Hs]]%list_lookup_insert_Some; [|by eauto]. by apply Hx.
Qed.

(** A reserved slot whose copy is in flight becomes pending. *)
Lemma pending_inv pend out id slot ev k r sl :
  rinv src pend ({[ slot ]} ∪ out) r -> slot ∉ out -> table r !! id = None ->
  slots r !! slot = Some sl -> length (src id) <= buf_bytes sl ->
  rinv src (<[id := mkPending slot ev k (src id)]> pend) out
    (set_occupant (<[slot := Some id]> (occupant r)) r).
Proof.
  intros H Hnew Hid Hsl Hlen.
  destruct (reserved_unowned _ _ _ _ H Hnew) as (Hidle & _ & Hnf & Hnp).
  destruct (ri_out _ _ _ _ H slot) as [Hocc _]; [set_solver|].
  assert (Hidl : forall i s, table r !! i = Some s -> s <> slot).
  { intros i s Hi ->. destruct (ri_table _ _ _ _ H i slot Hi) as [? _]. congruence. }
  pose proof (rinv_weaken pend pend _ out r H ltac:(set_solver) ltac:(done)) as Hw.
  destruct Hw as [? ? ? ? Hsz ? Hfr Hnds Hli Ht Hp Hot Hla Hco Hro]. split; simpl; try done.
  - by rewrite length_insert.
  - intros j c s Hc Hin. destruct (Hfr j c s Hc Hin) as (? & ? & ? & ?).
    rewrite list_lookup_insert_ne; [done|]. intros ->. by eapply Hnf.
  - intros s Hs. destruct (Hli s Hs) as (i & ? & Hti). exists i.
    rewrite list_lookup_insert_ne by (by apply not_eq_sym, (Hidl i)). done.
  - intros i s Hi. destruct (Ht i s Hi). rewrite list_lookup_insert_ne by (by apply not_eq_sym, (Hidl i)).
    done.
  - intros i pb [[<- <-]|[Hne Hi]]%lookup_insert_Some.
    + simpl. rewrite list_lookup_insert_eq by (by eapply lookup_lt_Some). split_and!; eauto.
    + rewrite list_lookup_insert_ne by (by apply not_eq_sym, (Hnp i)). by apply Hp.
  - intros s Hs. rewrite list_lookup_insert_ne by (by intros ->). by apply Hot.
Qed.

(** ** Construction *)

Definition plan_slots (plan : list (nat * nat)) : nat := list_sum plan.*2.

Lemma new_classes_spec plan index start cs sc sl :
  new_classes plan index start = (cs, sc, sl) ->
  length sc = plan_slots plan /\ length sl = plan_slots plan /\
  (forall k c, cs !! k = Some c -> exists cap st n, c = new_class cap st n (protected_cap_of n) /\
     forall s, s ∈ seq st n -> start <= s /\ sc !! (s - start) = Some (index + k)) /\
  (forall i j x, sc !! i = Some j -> sl !! i = Some x -> exists k c, j = index + k /\
     cs !! k = Some c /\ Z.of_nat (buf_bytes x) = (capacity c + 8)%Z).
Proof.
  revert index start cs sc sl. induction plan as [|[cap n] plan IH]; intros index start cs sc sl; simpl.
  { intros [= <- <- <-]. split_and!; done. }
  destruct (new_classes plan (S index) (start + n)) as [[cs0 sc0] sl0] eqn:Heq.
  intros [= <- <- <-]. destruct (IH _ _ _ _ _ Heq) as (Hsc & Hsl & Hcs & Hb).
  rewrite !length_app, !length_replicate, Hsc, Hsl. split_and!; try done.
  - intros [|k] c; simpl.
    + intros [= <-]. exists cap, start, n. split; [done|]. intros s Hs%elem_of_seq.
      split; [lia|]. rewrite lookup_app_l by (rewrite length_replicate; lia).
      rewrite Nat.add_0_r. apply lookup_replicate_2. lia.
    + intros Hc. destruct (Hcs k c Hc) as (cap' & st & n' & -> & Hs').
      exists cap', st, n'. split; [done|]. intros s Hs. destruct (Hs' s Hs) as [? Hk].
      split; [lia|]. rewrite lookup_app_r by (rewrite length_replicate; lia).
      rewrite length_replicate. replace (s - start - n) with (s - (start + n)) by lia.
      rewrite Hk. f_equal. lia.
  - intros i j x Hi Hx. destruct (decide (i < n)) as [Hlt|Hge].
    + rewrite lookup_app_l in Hi by (rewrite length_replicate; lia).
      rewrite lookup_app_l in Hx by (rewrite length_replicate; lia).
      apply lookup_replicate in Hi as [-> _]. apply lookup_replicate in Hx as [-> _].
      exists 0. eexists. split; [lia|]. split; [done|]. simpl. lia.
    + rewrite lookup_app_r in Hi by (rewrite length_replicate; lia).
      rewrite lookup_app_r in Hx by (rewrite length_replicate; lia).
      rewrite length_replicate in Hi. rewrite length_replicate in Hx.
      destruct (Hb _ _ _ Hi Hx) as (k & c & -> & ? & ?). exists (S k), c. split; [lia|done].
Qed.

(** The cache starts with every slot free. *)
Lemma new_residency_inv plan :
  (Z.of_nat (plan_slots plan) <= NIL)%Z -> rinv src ∅ ∅ (new_residency plan).
Proof.
  intros Ha. unfold new_residency.
  destruct (new_classes plan 0 0) as [[cs sc] sl] eqn:Heq.
  destruct (new_classes_spec _ _ _ _ _ _ Heq) as (Hsc & Hsl & Hcs & Hb).
  split; simpl; rewrite ?length_replicate; try done.
  - congruence.
  - unfold arena_ok. rewrite length_replicate. by rewrite Hsl.
  - intros s j x Hj Hx. destruct (Hb s j x Hj Hx) as (k & c & -> & ? & ?). by exists c.
  - intros j c Hc. destruct (Hcs j c Hc) as (cap & st & n & -> & _). eexists.
    apply class_new_repr.
  - intros j c s Hc Hin. destruct (Hcs j c Hc) as (cap & st & n & -> & Hs). simpl in Hin.
    rewrite elem_of_reverse in Hin. destruct (Hs s Hin) as [_ Hk]. rewrite Nat.sub_0_r in Hk.
    simpl in Hk. assert (Hlt : s < length sl) by (rewrite Hsl, <-Hsc; by eapply lookup_lt_Some).
    split_and!; [done|by apply lookup_replicate_2| |apply not_elem_of_empty].
    exists link_none. split; [by apply lookup_replicate_2|done].
  - intros j c Hc. destruct (Hcs j c Hc) as (cap & st & n & -> & _). simpl.
    rewrite (reverse_Permutation (seq st n)). apply NoDup_seq.
  - intros s (l & Hl & Hs). simpl in Hl. by apply lookup_replicate in Hl as [-> _].
Qed.

(** *** The LFU victim *)

Definition score (fr : gmap BlockId spec_float) id : spec_float := default f32_zero (fr !! id).

(** Every evictable slot is a candidate, with its block's score. *)
Lemma lfu_candidates_scores fr occ keep pos xs cands :
  lfu_candidates fr occ keep pos xs = Some cands ->
  (forall c, c ∈ cands -> exists id, occ !! c.2 = Some (Some id) /\ c.1.1 = score fr id) /\
  (forall y id, y ∈ xs -> occ !! y = Some (Some id) -> id ∉ keep -> exists c, c ∈ cands /\ c.2 = y).
Proof.
  revert pos cands. induction xs as [|x xs IH]; intros pos cands; simpl.
  { intros [= <-]. split; [intros c Hc|intros y id Hy]; by apply not_elem_of_nil in Hc || apply not_elem_of_nil in Hy. }
  destruct (occ !! x) as [o|] eqn:Ho; [|done]. simpl.
  destruct (lfu_candidates fr occ keep (S pos) xs) as [rest|] eqn:Hrest; [|done]. simpl.
  destruct (IH _ _ Hrest) as [Hc Hy]. intros [= <-].
  assert (Hskip : match o with Some id => bool_decide (id ∈ keep) = true | None => True end ->
    forall y id, y ∈ x :: xs -> occ !! y = Some (Some id) -> id ∉ keep -> exists c, c ∈ rest /\ c.2 = y).
  { intros Hk y id [->|Hin]%elem_of_cons Hoy Hid; [|by eapply Hy]. rewrite Ho in Hoy. injection Hoy as ->.
    by apply bool_decide_eq_true_1 in Hk. }
  destruct o as [id|]; [|split; [done|by apply Hskip]].
  destruct (bool_decide (id ∈ keep)) eqn:Hk; [split; [done|by apply Hskip]|]. clear Hskip. split.
  - intros c [->|Hin]%elem_of_cons; [by exists id|by apply Hc].
  - intros y i [->|Hin]%elem_of_cons Hoy Hi; [by eexists; split; [left|]|].
    destruct (Hy y i Hin Hoy Hi) as (c & ? & ?). exists c. split; [by right|done].
Qed.

Lemma candidate_cmp_le a b : candidate_cmp a b <> Gt -> float_le a.1.1 b.1.1.
Proof. unfold candidate_cmp, float_le. intros H Hg. rewrite Hg in H. done. Qed.
Lemma candidate_cmp_gt a b : candidate_cmp a b = Gt -> float_le b.1.1 a.1.1.
Proof.
  unfold candidate_cmp. intros H. apply total_cmp_not_lt. intros Hl. by rewrite Hl in H.
Qed.
Lemma min_by_least b l c : c ∈ b :: l -> float_le (min_by b l).1.1 c.1.1.
Proof.
  revert b c. induction l as [|x l IH]; intros b c; simpl.
  { intros ->%list_elem_of_singleton. apply float_le_refl. }
  set (b' := match candidate_cmp b x with Gt => x | _ => b end).
  assert (Hb : float_le b'.1.1 b.1.1 /\ float_le b'.1.1 x.1.1).
  { unfold b'. destruct (candidate_cmp b x) eqn:Hc.
    - split; [apply float_le_refl|]. apply candidate_cmp_le. by rewrite Hc.
    - split; [apply float_le_refl|]. apply candidate_cmp_le. by rewrite Hc.
    - split; [by apply candidate_cmp_gt|apply float_le_refl]. }
  destruct Hb as [Hb Hx].
  assert (Hm : float_le (min_by b' l).1.1 b'.1.1) by (apply IH; left).
  intros [->|[->|Hin]%elem_of_cons]%elem_of_cons.
  - by eapply float_le_trans.
  - by eapply float_le_trans.
  - apply IH. by right.
Qed.

(** The LFU victim has the least score of the class's evictable blocks. *)
Lemma frequency_victim_least fr keep (j : nat) r pend out x r' :
  rinv src pend out r -> frequency_victim_in_class fr keep j r = Some (Some x, r') ->
  exists id, occupant r !! x = Some (Some id) /\ (id ∉ keep) /\ listed r x /\
    forall y idy, listed r y -> slot_class r !! y = Some j -> occupant r !! y = Some (Some idy) ->
      idy ∉ keep -> float_le (score fr id) (score fr idy).
Proof.
  intros H. unfold frequency_victim_in_class.
  destruct (classes r !! j) as [c|] eqn:Hc; simpl; [|done].
  destruct (ri_repr _ _ _ _ H j c Hc) as [o Ho].
  destruct (class_iter _ _ _ _ (ri_arena _ _ _ _ H) Ho) as [-> ->]. simpl. fold (queue o).
  destruct (lfu_candidates _ _ _ 0 (queue o)) as [cands|] eqn:Hcs; simpl; [|done].
  destruct cands as [|b rest]; [done|].
  destruct (lfu_candidates_spec fr (occupant r) keep 0 (queue o)) as (cands & Heq & Hin).
  { intros y Hy. pose proof (cr_mine _ _ _ _ Ho y Hy) as Hm.
    apply (class_listed _ _ _ _ y Ho Hm) in Hy as (l & Hl & _).
    destruct (rinv_slot r pend out y l H Hl) as (_ & _ & _ & _ & _ & _ & _ & ? & _). done. }
  rewrite Hcs in Heq. injection Heq as <-.
  destruct (unlink_from_segment c _ _) as [[c' l']|]; simpl; [|done]. intros [= <- _].
  destruct (lfu_candidates_scores _ _ _ _ _ _ Hcs) as [Hsc Hall].
  pose proof (min_by_in b rest) as Hmin.
  destruct (Hin _ Hmin) as (Hxq & id & Hox & Hk). destruct (Hsc _ Hmin) as (id' & Hox' & Heq).
  exists id. split_and!; [done..| |].
  { pose proof (cr_mine _ _ _ _ Ho _ Hxq) as Hm. by apply (class_listed _ _ _ _ _ Ho Hm). }
  intros y idy Hy Hyj Hoy Hky.
  assert (id' = id) as -> by congruence. rewrite <-Heq.
  apply (class_listed _ _ _ _ y Ho Hyj) in Hy.
  destruct (Hall y idy Hy Hoy Hky) as (cy & Hcy & <-).
  destruct (Hsc _ Hcy) as (idy' & Hoy' & Heqy). assert (idy' = idy) as -> by congruence.
  rewrite <-Heqy. by apply min_by_least.
Qed.
End Residency_facts.
End Residency_inv.
