(* ===== verification/MoeMethods.v ===== *)
(** The methods of the expert cache: the invariant [cache_inv] and, per method,
    the total-correctness specification that keeps it. *)
From Stdlib Require Import SpecFloat.
From S2P Require Import Prelude Effects F32 Slru ReadBackend MoeCache MoeResidency.
Import SlruList SlotClass.

Section Methods.
Context {rb : ReadBackend} {gpu_ : Gpu}.

(** ** The cache invariant *)

Section Method_facts.
Context {laws : ReadBackendLaws rb} (src : BlockId -> list Z).
Implicit Types (c : Cache) (out : gset nat) (keep : list BlockId).

(** A read in flight delivers its block. *)
Definition pool_ok (w : Spill) : Prop :=
  match pread w with
  | None => worker_reads w = ∅
  | Some p => exists k G, rb_inv k G p /\
      forall id rd, worker_reads w !! id = Some rd ->
        k = true /\ G !! wr_ticket rd = Some (src id) /\ wr_len rd = length (src id)
  end.
Definition cache_inv out c : Prop :=
  rinv src (pending c) out (res c) /\ pool_ok (spill c).

(** [c] is a state of a call begun in [c0]: the invariant holds, no block has
    become resident and those of [keep] have stayed. *)
Record during out keep c0 c : Prop := {
  du_inv : cache_inv out c;
  du_sub : table (res c) ⊆ table (res c0);
  du_keep : forall id s, id ∈ keep -> table (res c0) !! id = Some s -> table (res c) !! id = Some s;
  du_pending : pending c = pending c0;
}.
(** ... that holds a reserved slot with room for [len] bytes. *)
Record holding out keep (slot len : nat) c0 c : Prop := {
  ho_during : during ({[ slot ]} ∪ out) keep c0 c;
  ho_new : slot ∉ out;
  ho_room : exists sl, slots (res c) !! slot = Some sl /\ len <= buf_bytes sl;
}.
(** The call has made [id] resident in slot [s]. *)
Record admitted out id (s : nat) c0 c : Prop := {
  ad_inv : cache_inv out c;
  ad_in : table (res c) !! id = Some s;
  ad_sub : table (res c) ⊆ <[id := s]> (table (res c0));
}.
(** The call has failed: only a stream of unknown state takes a slot out of
    service. *)
Definition failed out keep c0 (e : CacheErr) c : Prop :=
  exists out', during out' keep c0 c /\ out ⊆ out' /\ (e <> EUnknown -> out' = out).

(** The parts of the state the residency methods leave alone. *)
Definition rest c : gmap BlockId PendingBlock * Spill * Freq := (pending c, spill c, freq c).

Lemma during_refl out keep c : cache_inv out c -> during out keep c c.
Proof. by split. Qed.
Lemma during_core out keep c0 c c' :
  during out keep c0 c -> res c' = res c -> pending c' = pending c -> pool_ok (spill c') ->
  during out keep c0 c'.
Proof.
  intros [(H1 & H2) ? ? ?] Hr Hp Hs. split; [split| | |]; congruence || by rewrite ?Hr, ?Hp.
Qed.
Lemma holding_core out keep slot len c0 c c' :
  holding out keep slot len c0 c -> res c' = res c -> pending c' = pending c -> pool_ok (spill c') ->
  holding out keep slot len c0 c'.
Proof.
  intros [H Hn Hr] Hres Hp Hs. split; [by eapply during_core|done|by rewrite Hres].
Qed.
Lemma during_pool out keep c0 c : during out keep c0 c -> pool_ok (spill c).
Proof. by intros [(_ & ?) _ _ _]. Qed.
Lemma during_absent out keep c0 c id :
  during out keep c0 c -> table (res c0) !! id = None -> table (res c) !! id = None.
Proof. intros [_ Hsub _ _] H. by eapply lookup_weaken_None. Qed.
Lemma during_fails out keep c0 c e : during out keep c0 c -> failed out keep c0 e c.
Proof. intros H. by exists out. Qed.
Lemma holding_fails out keep slot len c0 c :
  holding out keep slot len c0 c -> failed out keep c0 EUnknown c.
Proof. intros [H _ _]. exists ({[ slot ]} ∪ out). split; [done|]. split; [set_solver|done]. Qed.

(** *** The primitive steps *)

Lemma wp_gask {A} (f : gstate -> A * gstate) (Q : A -> Cache -> Prop) (X : CacheErr -> Cache -> Prop) c :
  (forall a w, f (gpu c) = (a, w) -> Q a (set_gpu w c)) -> wp (gask f) Q X c.
Proof. unfold wp, gask. destruct (f (gpu c)) as [a w]. eauto. Qed.
Lemma wp_on_pool {A} (m : M rb_state rb_err A) (Q : A + rb_err -> Cache -> Prop)
    (X : CacheErr -> Cache -> Prop) c p :
  pread (spill c) = Some p ->
  wp m (fun a p' => Q (inl a) (set_spill (set_pread (Some p') (spill c)) c))
       (fun e p' => Q (inr e) (set_spill (set_pread (Some p') (spill c)) c)) p ->
  wp (on_pool m) Q X c.
Proof.
  intros Hp H. unfold on_pool. wp_steps. apply wp_unwrap. exists p. split; [done|].
  unfold wp in *. destruct (m p) as [p' [a|e|]]; exact H.
Qed.
Lemma wp_on_res f (Q : unit -> Cache -> Prop) (X : CacheErr -> Cache -> Prop) c :
  (exists r, f (res c) = Some r /\ Q tt (set_res r c)) -> wp (on_res f) Q X c.
Proof. intros (r & Hf & HQ). unfold on_res. wp_steps. apply wp_unwrap. exists r. by split. Qed.

Lemma wp_reserve {X : CacheErr -> Cache -> Prop} f out keep keep' (len : nat) c0 c
    (Q : option nat -> Cache -> Prop) :
  during out keep c0 c -> keep ⊆ keep' ->
  (exists v r', f (res c) = Some (v, r') /\ reservation src (pending c) out keep' len (res c) v r') ->
  (forall o r', rest (set_res r' c) = rest c ->
     match o with
     | Some slot => holding out keep slot len c0 (set_res r' c)
     | None => during out keep c0 (set_res r' c) /\ table r' = table (res c)
     end -> Q o (set_res r' c)) ->
  wp (pick_res f) Q X c.
Proof.
  intros [(Hr & Hs) Hsub Hk Hpd] Hkk (v & r' & Hf & Hv) HQ. unfold pick_res. wp_steps.
  apply wp_unwrap. exists (v, r'). split; [done|]. wp_steps. simpl. apply HQ; [done|].
  destruct v as [slot|]; simpl in Hv.
  - destruct Hv as [Hinv Hnew Hsl (sl & Hl & Hlen) Ht]. split; [|done|].
    + split; simpl; try done.
      * destruct Ht as [->|(i & _ & _ & ->)]; [done|]. etrans; [apply delete_subseteq|done].
      * intros id s Hin Hid. specialize (Hk id s Hin Hid).
        destruct Ht as [->|(i & _ & Hi & ->)]; [done|]. rewrite lookup_delete_ne; [done|].
        intros ->. by apply Hi, Hkk.
    + exists sl. simpl. rewrite Hsl. split; [done|lia].
  - destruct Hv as (Hinv & Ht & Hsl). split; [|done].
    split; simpl; rewrite ?Ht; done.
Qed.

Lemma wp_write_slot {X : CacheErr -> Cache -> Prop} out keep slot len known c0 c
    (Q : unit -> Cache -> Prop) :
  holding out keep slot len c0 c ->
  (forall r', rest (set_res r' c) = rest c -> holding out keep slot len c0 (set_res r' c) ->
     (exists sl, slots r' !! slot = Some sl /\ content sl = known) -> Q tt (set_res r' c)) ->
  wp (write_slot slot len known) Q X c.
Proof.
  intros [[(Hr & Hs) Hsub Hk Hpd] Hn (sl & Hsl & Hlen)] HQ. unfold write_slot. wp_steps.
  apply wp_unwrap. exists sl. split; [done|]. wp_steps. apply wp_massert; [by apply Nat.leb_le|].
  wp_steps. assert (Hlt : slot < length (slots (res c))) by eauto using lookup_lt_Some.
  apply HQ; [done| |].
  - split; [|done|].
    + split; simpl; try done. split; [|done]. apply write_inv; [done|done|].
      intros id Hid. destruct (ri_table _ _ _ _ Hr id slot Hid) as [Ho _].
      destruct (ri_out _ _ _ _ Hr slot) as [Ho' _]; [set_solver|]. congruence.
    + eexists. simpl. rewrite list_lookup_insert_eq by done. done.
  - eexists. simpl. rewrite list_lookup_insert_eq by done. done.
Qed.

Lemma wp_release {X : CacheErr -> Cache -> Prop} out keep slot len c0 c (Q : unit -> Cache -> Prop) :
  holding out keep slot len c0 c ->
  (forall r', rest (set_res r' c) = rest c -> during out keep c0 (set_res r' c) -> Q tt (set_res r' c)) ->
  wp (on_res (release_reserved_slot slot)) Q X c.
Proof.
  intros [[(Hr & Hs) Hsub Hk Hpd] Hn _] HQ.
  destruct (release_inv _ _ _ _ _ Hr Hn) as (r' & Hrel & Hr' & Ht & Hsl).
  apply wp_on_res. exists r'. split; [done|]. apply HQ; [done|].
  split; simpl; rewrite ?Ht; done.
Qed.

Lemma wp_publish {X : CacheErr -> Cache -> Prop} out keep id slot len c0 c (Q : unit -> Cache -> Prop) :
  holding out keep slot len c0 c -> table (res c0) !! id = None ->
  (exists sl, slots (res c) !! slot = Some sl /\ content sl = Some (src id)) ->
  (forall r', rest (set_res r' c) = rest c -> admitted out id slot c0 (set_res r' c) ->
     Q tt (set_res r' c)) ->
  wp (on_res (publish id slot)) Q X c.
Proof.
  intros [[(Hr & Hs) Hsub Hk Hpd] Hn _] Hid (sl & Hsl & Hc) HQ.
  assert (Hid' : table (res c) !! id = None) by (by eapply lookup_weaken_None).
  destruct (publish_inv src (pending c) out id slot (res c) sl) as (r' & Hpub & Hr' & Ht & _); [| |done..|].
  { eapply rinv_weaken; [exact Hr|set_solver|done]. }
  { by eapply reserved_unowned. }
  apply wp_on_res. exists r'. split; [done|]. apply HQ; [done|]. split; simpl; rewrite ?Ht.
  - done.
  - apply lookup_insert_eq.
  - by apply insert_mono.
Qed.

(** *** The pool's steps *)

Definition claimed c (i : nat) (x : list Z) : Prop :=
  exists p, pread (spill c) = Some p /\ rb_claimed p i x.
(** Ticket [t] will deliver [x]. *)
Definition ticketed (w : Spill) (t : Z) (x : list Z) : Prop :=
  exists p k G, pread w = Some p /\ rb_inv k G p /\ G !! t = Some x /\ k = true /\
    forall id rd, worker_reads w !! id = Some rd ->
      k = true /\ G !! wr_ticket rd = Some (src id) /\ wr_len rd = length (src id).
Definition pooled (p : rb_state) c : Cache := set_spill (set_pread (Some p) (spill c)) c.

Lemma ticketed_ok w t x : ticketed w t x -> pool_ok w.
Proof. intros (p & k & G & Hp & ? & _ & _ & ?). unfold pool_ok. rewrite Hp. eauto. Qed.
Lemma pool_ok_delete id w :
  pool_ok w -> pool_ok (set_worker_reads (delete id (worker_reads w)) w).
Proof.
  unfold pool_ok. simpl. destruct (pread w) as [p|].
  - intros (k & G & Hi & H). exists k, G. split; [done|]. intros i rd [_ Hr]%lookup_delete_Some. eauto.
  - intros ->. apply delete_empty.
Qed.
Lemma pool_ok_clear w : pool_ok w -> pool_ok (set_worker_reads ∅ w).
Proof.
  unfold pool_ok. simpl. destruct (pread w) as [p|]; [|done].
  intros (k & G & Hi & _). exists k, G. split; [done|]. intros i rd Hr. by rewrite lookup_empty in Hr.
Qed.
Lemma pool_ok_fallbacks n w : pool_ok w -> pool_ok (set_pread_fallbacks n w).
Proof. done. Qed.
Lemma pool_ok_read id rd w :
  pool_ok w -> worker_reads w !! id = Some rd ->
  ticketed (set_worker_reads (delete id (worker_reads w)) w) (wr_ticket rd) (src id) /\
  wr_len rd = length (src id).
Proof.
  unfold pool_ok. intros H Hrd. destruct (pread w) as [p|] eqn:Hp.
  - destruct H as (k & G & Hi & H). destruct (H id rd Hrd) as (-> & ? & ?). split; [|done].
    exists p, true, G. split_and!; try done. simpl. intros i r [_ Hr]%lookup_delete_Some. eauto.
  - rewrite H in Hrd. by rewrite lookup_empty in Hrd.
Qed.

Lemma wp_pool {X : CacheErr -> Cache -> Prop} {A} (m : M rb_state rb_err A)
    (P : A + rb_err -> rb_state -> Prop) (Q : A + rb_err -> Cache -> Prop) c p :
  pool_ok (spill c) -> pread (spill c) = Some p ->
  (forall k G, rb_inv k G p -> wp m (fun a p' => rb_inv k G p' /\ P (inl a) p')
                                    (fun e p' => rb_inv k G p' /\ P (inr e) p') p) ->
  (forall y p', pool_ok (set_pread (Some p') (spill c)) -> P y p' -> Q y (pooled p' c)) ->
  wp (on_pool m) Q X c.
Proof.
  intros Hok Hp Hm HQ. unfold pool_ok in Hok. rewrite Hp in Hok. destruct Hok as (k & G & Hi & Hr).
  apply (wp_on_pool _ _ _ _ p Hp). eapply wp_mono; [by apply Hm| |].
  - intros a p' [Hi' HP]. apply HQ; [by exists k, G|done].
  - intros e p' [Hi' HP]. apply HQ; [by exists k, G|done].
Qed.

(** Giving a buffer up, or cancelling a ticket, only touches the pool. *)
Lemma wp_pool_quiet {X : CacheErr -> Cache -> Prop} {A} (m : M rb_state rb_err A)
    (Q : A + rb_err -> Cache -> Prop) c p :
  pool_ok (spill c) -> pread (spill c) = Some p ->
  (forall k G, rb_inv k G p -> wp m (fun _ p' => rb_inv k G p') (fun _ _ => False) p) ->
  (forall a p', pool_ok (set_pread (Some p') (spill c)) -> Q (inl a) (pooled p' c)) ->
  wp (on_pool m) Q X c.
Proof.
  intros Hok Hp Hm HQ.
  apply (wp_pool m (fun y _ => exists a, y = inl a) Q c p Hok Hp).
  - intros k G Hi. eapply wp_mono; [by apply Hm| |done]. simpl. eauto.
  - intros y p' Hok' [a ->]. by apply HQ.
Qed.
Lemma wp_pool_cancel {X : CacheErr -> Cache -> Prop} t (Q : bool + rb_err -> Cache -> Prop) c p :
  pool_ok (spill c) -> pread (spill c) = Some p ->
  (forall a p', pool_ok (set_pread (Some p') (spill c)) -> Q (inl a) (pooled p' c)) ->
  wp (on_pool (rb_cancel t)) Q X c.
Proof. intros Hok Hp HQ. eapply wp_pool_quiet; [done..| |done]. intros. by apply law_cancel. Qed.
Lemma wp_pool_claimed {X : CacheErr -> Cache -> Prop} (m : M rb_state rb_err unit) i x
    (Q : unit + rb_err -> Cache -> Prop) c :
  pool_ok (spill c) -> claimed c i x ->
  (forall k G p, rb_inv k G p -> rb_claimed p i x ->
     wp m (fun _ p' => rb_inv k G p') (fun _ _ => False) p) ->
  (forall p', pool_ok (set_pread (Some p') (spill c)) -> Q (inl tt) (pooled p' c)) ->
  wp (on_pool m) Q X c.
Proof.
  intros Hok (p & Hp & Hc) Hm HQ. eapply wp_pool_quiet; [done..| |].
  - intros k G Hi. by apply Hm.
  - intros [] p' ?. by apply HQ.
Qed.
Lemma wp_pool_bytes {X : CacheErr -> Cache -> Prop} i x (Q : list Z + rb_err -> Cache -> Prop) c :
  pool_ok (spill c) -> claimed c i x ->
  (forall y p', pool_ok (set_pread (Some p') (spill c)) -> claimed (pooled p' c) i x ->
     (forall b, y = inl b -> b = x) -> Q y (pooled p' c)) ->
  wp (on_pool (rb_bytes i (length x))) Q X c.
Proof.
  intros Hok (p & Hp & Hc) HQ.
  apply (wp_pool _ (fun y p' => rb_claimed p' i x /\ forall b, y = inl b -> b = x) Q c p Hok Hp).
  - intros k G Hi. eapply wp_mono; [by apply law_bytes| |].
    + intros b p' (-> & ? & ?). split_and!; [done..|]. congruence.
    + intros e p' (? & ?). by split_and!.
  - intros y p' Hok' [Hc' Hy]. apply HQ; [done| |done]. by exists p'.
Qed.
Lemma wp_pool_wait {X : CacheErr -> Cache -> Prop} t x (Q : nat + rb_err -> Cache -> Prop) c :
  ticketed (spill c) t x ->
  (forall y p', pool_ok (set_pread (Some p') (spill c)) ->
     (forall i, y = inl i -> claimed (pooled p' c) i x) -> Q y (pooled p' c)) ->
  wp (on_pool (rb_wait t)) Q X c.
Proof.
  intros (p & k & G & Hp & Hi & Ht & -> & Hr) HQ. apply (wp_on_pool _ _ _ _ p Hp).
  eapply wp_mono; [by apply law_wait| |].
  - intros i p' [Hi' Hc]. apply HQ; [by exists true, G|].
    intros ? [= <-]. exists p'. split; [done|]. by apply Hc.
  - intros e p' Hi'. apply HQ; [by exists true, G|done].
Qed.
Lemma wp_pool_submit {X : CacheErr -> Cache -> Prop} (m : M rb_state rb_err (option Z)) x
    (Q : option Z + rb_err -> Cache -> Prop) c p :
  pool_ok (spill c) -> pread (spill c) = Some p -> rb_is_worker p = true ->
  (forall k G, rb_inv k G p -> wp m (fun r p' => match r with
     | Some t => G !! t = None /\ rb_inv k (<[t := x]> G) p'
     | None => rb_inv k G p' end) (fun _ p' => rb_inv k G p') p) ->
  (forall y p', pool_ok (set_pread (Some p') (spill c)) ->
     (forall t, y = inl (Some t) -> ticketed (set_pread (Some p') (spill c)) t x) -> Q y (pooled p' c)) ->
  wp (on_pool m) Q X c.
Proof.
  intros Hok Hp Hw Hm HQ. unfold pool_ok in Hok. rewrite Hp in Hok. destruct Hok as (k & G & Hi & Hr).
  pose proof (law_kind _ _ _ Hi) as Hk. rewrite Hw in Hk. subst k.
  apply (wp_on_pool _ _ _ _ p Hp). eapply wp_mono; [by apply Hm| |].
  - intros [t|] p'; simpl.
    + intros [Hn Hi'].
      assert (Ht : ticketed (set_pread (Some p') (spill c)) t x).
      { exists p', true, (<[t := x]> G). split_and!; [done..|by rewrite lookup_insert_eq|done|].
        intros id rd Hrd. destruct (Hr id rd Hrd) as (? & Hg & ?). split_and!; [done| |done].
        rewrite lookup_insert_ne; [done|]. intros ->. congruence. }
      apply HQ; [by eapply ticketed_ok|]. intros ? [= <-]. done.
    + intros Hi'. apply HQ; [by exists true, G|done].
  - intros e p' Hi'. apply HQ; [by exists true, G|done].
Qed.
Lemma wp_pool_read {X : CacheErr -> Cache -> Prop} f off len x (Q : nat + rb_err -> Cache -> Prop) c p :
  pool_ok (spill c) -> pread (spill c) = Some p -> (0 <= off)%Z -> rb_extent f off len = x ->
  (forall y p', pool_ok (set_pread (Some p') (spill c)) ->
     (forall i, y = inl i -> claimed (pooled p' c) i x) -> Q y (pooled p' c)) ->
  wp (on_pool (rb_read f off len)) Q X c.
Proof.
  intros Hok Hp Hoff <- HQ.
  apply (wp_pool _ (fun y p' => forall i, y = inl i -> rb_claimed p' i (rb_extent f off len)) Q c p Hok Hp).
  - intros k G Hi. eapply wp_mono; [by apply law_read| |].
    + intros i p' (? & ? & ?). split; [done|]. by intros ? [= <-].
    + intros e p' ?. by split.
  - intros y p' Hok' Hy. apply HQ; [done|]. intros i ->. exists p'. split; [done|]. by apply Hy.
Qed.

(** *** Admission *)

Lemma holding_pool out keep slot len c0 c : holding out keep slot len c0 c -> pool_ok (spill c).
Proof. intros [H _ _]. by eapply during_pool. Qed.
(** [core H]: a change outside the residency and the copies in flight. *)
Ltac core H := first
  [ eapply holding_core; [exact H|reflexivity|reflexivity|first [exact (holding_pool _ _ _ _ _ _ H)|done]]
  | eapply during_core; [exact H|reflexivity|reflexivity|first [exact (during_pool _ _ _ _ H)|done]] ].
Ltac m_step :=
  lazymatch goal with
  | |- wp (or_err (Some _) _) _ _ _ => apply wp_ret
  | |- wp (or_err None _) _ _ _ => apply wp_throw
  | |- wp (on_srcs _) _ _ _ => apply wp_modify
  | |- wp (on_ctr _) _ _ _ => apply wp_modify
  | |- wp (on_freq _) _ _ _ => apply wp_modify
  | |- wp (on_spill _) _ _ _ => apply wp_modify
  | |- wp (when true ?m) _ _ _ => change (when true m) with m
  | |- wp (when false ?m) _ _ _ => change (when false m) with (ret (S := Cache) (E := CacheErr) tt)
  | |- _ => wp_step
  end.
Ltac m_steps := repeat (m_step; cbv beta).

Lemma wp_admit out id c0 c :
  during out [] c0 c -> table (res c0) !! id = None ->
  wp (admit_block id (src id)) (fun s c' => admitted out id s c0 c') (failed out [] c0) c.
Proof.
  intros H Hid. unfold admit_block. m_steps.
  eapply (wp_reserve _ out [] [] (length (src id))); [done|done|apply reserve_slot_spec, H|].
  intros [slot|] r1 _ Ho; m_steps; [|simpl; destruct Ho as [Ho _]; by apply during_fails].
  eapply wp_write_slot; [exact Ho|].
  intros r2 _ H2 _. simpl in *. m_steps. apply wp_gask. intros ok w _.
  assert (H3 : holding out [] slot (length (src id)) c0 (set_gpu w (set_res r2 (set_res r1 c)))) by core H2.
  destruct ok; simpl.
  - m_steps. eapply wp_write_slot; [exact H3|]. intros r4 _ H4 Hc. m_steps.
    eapply (wp_publish out [] id slot (length (src id)) c0).
    + core H4.
    + done.
    + exact Hc.
    + intros r5 _ Ha. m_steps. exact Ha.
  - m_steps. apply wp_gask. intros drained w' _. 
    assert (H5 : holding out [] slot (length (src id)) c0
      (set_gpu w' (set_gpu w (set_res r2 (set_res r1 c))))) by core H3.
    destruct drained.
    + m_steps. eapply wp_release; [exact H5|]. intros r6 _ H6. m_steps. by apply during_fails.
    + m_steps. eapply holding_fails. core H5.
Qed.

(** A pool call, a counter or a stream flag leaves the call's state as it was. *)
Lemma wp_note_pread_fallback {X : CacheErr -> Cache -> Prop} (Q : unit -> Cache -> Prop) c :
  pool_ok (spill c) ->
  (forall w, pool_ok w -> Q tt (set_spill w c)) ->
  wp note_pread_fallback Q X c.
Proof.
  intros Hok HQ. unfold note_pread_fallback. m_steps.
  destruct (pread (spill (set_spill _ c))) as [p|] eqn:Hp; [|by m_steps; apply HQ].
  m_steps. eapply wp_pool_quiet; [exact Hok|exact Hp| |].
  - intros k G Hi. by apply law_note_fallback.
  - intros a p' Hok'. m_steps. by apply HQ.
Qed.

(** *** Disk blocks *)

(** What the callers pass for a block: its bytes, wherever they are. *)
Definition source_ok id (s : ExpertSource) : Prop :=
  match s with
  | Memory bytes _ => bytes = src id
  | Disk file off len fallback _ =>
      (0 <= off)%Z /\ rb_extent file off len = src id /\ len = length (src id) /\ fallback = src id
  end.

(** Giving the slot and the buffer back, then admitting the host bytes. *)
Lemma wp_fall_back out id i x slot len c0 c :
  holding out [] slot len c0 c -> claimed c i x ->
  table (res c0) !! id = None ->
  wp (on_pool (rb_abort i);; on_res (release_reserved_slot slot);; note_pread_fallback;;
      (s ← admit_block id (src id); ret (Resident s)))
    (fun d c' => match d with Resident s => admitted out id s c0 c' end) (failed out [] c0) c.
Proof.
  intros H Hcl Hid. m_steps.
  eapply wp_pool_claimed; [by eapply holding_pool|done|intros; by eapply law_abort|].
  intros p Hp. m_steps. eapply wp_release; [core H|]. intros r _ Hr. m_steps.
  apply wp_note_pread_fallback; [done|]. intros w Hw. m_steps.
  eapply wp_conseq; [apply (wp_admit out id c0); [core Hr|done]|]. intros s c' Ha. by m_steps.
Qed.

Lemma wp_disk_read {X : CacheErr -> Cache -> Prop} pend file off len id c p (Q : option nat -> Cache -> Prop) :
  pool_ok (spill c) -> pread (spill c) = Some p -> (0 <= off)%Z -> rb_extent file off len = src id ->
  match pend with Some rd => ticketed (spill c) (wr_ticket rd) (src id) | None => True end ->
  (forall r w, pool_ok w -> (forall i, r = Some i -> claimed (set_spill w c) i (src id)) ->
     Q r (set_spill w c)) ->
  wp (disk_read pend p file off len) Q X c.
Proof.
  intros Hok Hp Hoff Hx Hpend HQ. unfold disk_read.
  (* waiting on a ticket that is good in a state [c1] of the pool *)
  assert (Hwait : forall t w1, ticketed w1 t (src id) ->
    wp (x ← on_pool (rb_wait t);
        match x with inl index => ret (Some index) | inr _ => on_pool (rb_cancel t);; ret None end)
      Q X (set_spill w1 c)).
  { intros t w1 Ht. wp_steps. eapply wp_pool_wait; [exact Ht|]. intros y p1 Hok1 Hy.
    destruct y as [i|e]; wp_steps.
    - apply HQ; [done|]. intros ? [= <-]. by apply Hy.
    - eapply wp_pool_cancel; [exact Hok1|done|]. intros a p2 Hok2. wp_steps. by apply HQ. }
  assert (Heta : c = set_spill (spill c) c) by (by destruct c).
  destruct (rb_is_worker p) eqn:Hw.
  - destruct pend as [rd|].
    + do 2 wp_step. cbv beta. rewrite Heta. by apply Hwait.
    + wp_step. eapply (wp_pool_submit _ (src id)); [done|exact Hp|done| |].
      { intros k G Hi. rewrite <-Hx. by apply law_submit. }
      intros [[t|]|e] p1 Hok1 Ht; [|wp_steps; by apply HQ..]. by apply Hwait, Ht.
  - wp_steps. apply wp_massert.
    { destruct pend as [rd|]; [|done]. destruct Hpend as (p' & k & G & Hp' & Hi & _ & -> & _).
      pose proof (law_kind _ _ _ Hi). congruence. }
    wp_steps. eapply wp_pool_read; [done|done|done|exact Hx|]. intros [i|e] p1 Hok1 Hy; wp_steps.
    + apply HQ; [done|]. intros ? [= <-]. by apply Hy.
    + by apply HQ.
Qed.

Lemma wp_disk_admit out id i c0 c :
  during out [] c0 c -> table (res c0) !! id = None ->
  claimed c i (src id) ->
  wp (disk_admit id i (length (src id)) (src id))
    (fun d c' => match d with Resident s => admitted out id s c0 c' end) (failed out [] c0) c.
Proof.
  intros H Hid Hcl. unfold disk_admit. m_steps.
  eapply wp_reserve; [exact H|reflexivity|apply reserve_slot_spec, H|].
  intros [slot|] r1 _ Ho; m_steps; [|simpl; destruct Ho as [Ho _]; by apply during_fails].
  eapply wp_pool_bytes; [exact (during_pool _ _ _ _ H)|exact Hcl|].
  intros y p1 Hok1 Hcl1 Hy. assert (H1 : holding out [] slot (length (src id)) c0 (pooled p1 (set_res r1 c)))
    by core Ho.
  destruct y as [b|e]; [|by apply wp_fall_back with (src id) (length (src id))].
  assert (b = src id) as -> by (by apply Hy). clear Hy Ho. unfold stage_pread_on_compute_stream.
  m_steps. apply wp_gask. intros ev w1 _. destruct ev as [ev|]; m_steps; cycle 1.
  { apply wp_gask. intros drained w2 _.
    assert (H2 : holding out [] slot (length (src id)) c0
      (set_gpu w2 (set_gpu w1 (pooled p1 (set_res r1 c))))) by core H1.
    destruct drained; [by apply wp_fall_back with (src id) (length (src id))|]. m_steps.
    eapply wp_pool_claimed; [exact Hok1|exact Hcl1|intros; by eapply law_mark_unknown|].
    intros p2 Hok2. m_steps. eapply holding_fails. core H2. }
  assert (H2 : holding out [] slot (length (src id)) c0 (set_gpu w1 (pooled p1 (set_res r1 c)))) by core H1.
  eapply wp_write_slot; [exact H2|]. intros r3 _ H3 _. m_steps.
  apply wp_gask. intros ok w4 _.
  assert (H4 : holding out [] slot (length (src id)) c0
    (set_gpu w4 (set_res r3 (set_gpu w1 (pooled p1 (set_res r1 c)))))) by core H3.
  destruct ok; m_steps; cycle 1.
  { apply wp_gask. intros drained w5 _.
    assert (H5 : holding out [] slot (length (src id)) c0
      (set_gpu w5 (set_gpu w4 (set_res r3 (set_gpu w1 (pooled p1 (set_res r1 c))))))) by core H4.
    destruct drained; [by apply wp_fall_back with (src id) (length (src id))|]. m_steps.
    eapply wp_pool_claimed; [exact Hok1|exact Hcl1|intros; by eapply law_mark_unknown|].
    intros p2 Hok2. m_steps. eapply holding_fails. core H5. }
  eapply wp_write_slot; [exact H4|]. intros r5 _ H5 Hc. m_steps.
  eapply wp_pool_claimed; [exact Hok1|exact Hcl1|intros; by eapply law_mark_h2d|].
  intros p2 Hok2. m_steps.
  eapply (wp_publish out [] id slot (length (src id)) c0); [core H5|done|exact Hc|].
  intros r6 _ Ha. m_steps. exact Ha.
Qed.

Lemma wp_dispatch_disk out id file off len fallback k c0 c :
  during out [] c0 c -> table (res c0) !! id = None ->
  source_ok id (Disk file off len fallback k) ->
  wp (dispatch_disk id file off len fallback)
    (fun d c' => match d with Resident s => admitted out id s c0 c' end) (failed out [] c0) c.
Proof.
  intros H Hid (Hoff & Hx & -> & ->). pose proof (during_pool _ _ _ _ H) as Hok.
  assert (Hadmit : forall c1, during out [] c0 c1 ->
    wp (s ← admit_block id (src id); ret (Resident s))
      (fun d c' => match d with Resident s => admitted out id s c0 c' end) (failed out [] c0) c1).
  { intros c1 H1. m_steps. eapply wp_conseq; [by apply (wp_admit out id c0)|].
    intros s c' Ha. by m_steps. }
  unfold dispatch_disk. wp_step. apply wp_get. destruct (pread (spill c)) as [p|] eqn:Hp; cycle 1.
  { wp_step. apply wp_when; intros _; [|by apply Hadmit].
    apply wp_note_pread_fallback; [done|]. intros w Hw. apply Hadmit. core H. }
  wp_step. m_step. wp_step. cbv beta.
  eapply (wp_disk_read _ _ _ _ id _ p); [by apply pool_ok_delete|done|done|done| |].
  { destruct (worker_reads (spill c) !! id) as [rd|] eqn:Hrd; [|done].
    by apply (pool_ok_read id rd). }
  intros [i|] w Hw Hcl.
  - apply wp_disk_admit; [core H|done|by apply Hcl].
  - wp_step. apply wp_note_pread_fallback; [done|]. intros w' Hw'. apply Hadmit. core H.
Qed.

Lemma wp_reap {X : CacheErr -> Cache -> Prop} (Q : unit -> Cache -> Prop) c :
  (forall w l, Q tt (set_srcs (set_inflight_sources l (srcs c)) (set_gpu w c))) ->
  wp reap_copy_sources Q X c.
Proof.
  intros HQ. unfold reap_copy_sources. wp_steps. apply wp_gask. intros l w _. apply wp_modify. apply HQ.
Qed.
Lemma wp_retain {X : CacheErr -> Cache -> Prop} o (Q : unit -> Cache -> Prop) c :
  (forall k, Q tt (set_srcs k c)) -> wp (retain_compute_source o) Q X c.
Proof.
  intros HQ. destruct o as [o|]; simpl.
  - apply wp_modify. apply HQ.
  - apply wp_ret. specialize (HQ (srcs c)). by destruct c.
Qed.
Lemma resident_listed out id s c :
  cache_inv out c -> table (res c) !! id = Some s -> listed (res c) s.
Proof. intros (H & _) Hs. by destruct (ri_table _ _ _ _ H id s Hs). Qed.

(** A prefetched block is made resident when its copy is waited for. *)
Lemma wp_publish_pending {X : CacheErr -> Cache -> Prop} out id pb c0 c (Q : unit -> Cache -> Prop) :
  cache_inv out c -> table (res c) = table (res c0) -> table (res c0) !! id = None ->
  pending c !! id = Some pb ->
  (forall r1 r2, admitted out id (p_slot pb) c0 (set_res r2 (set_pending (delete id (pending c)) c)) ->
     publish id (p_slot pb) r1 = Some r2 -> Q tt (set_res r1 (set_pending (delete id (pending c)) c))) ->
  wp (write_slot (p_slot pb) (length (written pb)) (Some (written pb))) Q X
    (set_pending (delete id (pending c)) c).
Proof.
  intros (Hr & Hs) Ht Hid Hpb HQ.
  destruct (ri_pending _ _ _ _ Hr id pb Hpb) as (Hocc & Hidle & Hnew & -> & sl & Hsl & Hlen).
  unfold write_slot. wp_steps. apply wp_unwrap. exists sl. split; [done|]. wp_steps.
  apply wp_massert; [by apply Nat.leb_le|]. wp_steps. simpl.
  set (r1 := set_slots _ _).
  assert (Hr1 : rinv src (delete id (pending c)) out r1).
  { apply write_inv; [|done|].
    - eapply rinv_weaken; [exact Hr|done|apply delete_subseteq].
    - intros i Hi. destruct (ri_table _ _ _ _ Hr i _ Hi) as [? _]. congruence. }
  assert (Hlt : p_slot pb < length (slots (res c))) by eauto using lookup_lt_Some.
  destruct (publish_inv src (delete id (pending c)) out id (p_slot pb) r1 (mkSlot (buf_bytes sl) (Some (src id))))
    as (r2 & Hpub & Hr2 & Ht2 & _).
  - done.
  - split_and!; [done|done| |].
    + intros j k Hk Hin. destruct (ri_free _ _ _ _ Hr j k _ Hk Hin) as (_ & Ho & _). congruence.
    + intros i pb' [Hne Hpb']%lookup_delete_Some He.
      destruct (ri_pending _ _ _ _ Hr i pb' Hpb') as (Ho & _). rewrite He in Ho. congruence.
  - unfold r1. simpl. by rewrite Ht.
  - unfold r1. simpl. by apply list_lookup_insert_eq.
  - done.
  - eapply (HQ r1 r2); [|done]. simpl in Ht2. split; simpl; rewrite ?Ht2.
    + done.
    + apply lookup_insert_eq.
    + by rewrite Ht.
Qed.

Lemma wp_dispatch_source out id source c :
  cache_inv out c -> source_ok id source ->
  wp (dispatch_source id source)
    (fun d c' => match d with Resident s => admitted out id s c c' end) (failed out [] c) c.
Proof.
  intros H Hsrc. unfold dispatch_source. wp_step. apply wp_reap. intros w l. m_steps.
  set (c1 := set_freq _ _).
  assert (H1 : during out [] c c1) by (pose proof (during_refl out [] c H) as H0; core H0).
  change (table (res c1)) with (table (res c)). change (pending c1) with (pending c).
  destruct (table (res c) !! id) as [s|] eqn:Hid.
  - m_steps. destruct H as (Hr & Hs).
    destruct (on_hit_inv src _ _ _ s Hr) as (r' & Hh & Hr' & Ht & _).
    { by destruct (ri_table _ _ _ _ Hr id s Hid). }
    apply wp_on_res. exists r'. split; [done|]. m_steps. split; simpl; rewrite ?Ht.
    + done.
    + done.
    + by rewrite insert_id.
  - destruct (pending c !! id) as [pb|] eqn:Hpb.
    + m_steps. apply wp_gask. intros ok w2 _. destruct ok; m_steps; cycle 1.
      { apply during_fails. core H1. }
      set (c2 := set_gpu w2 c1). cbn [negb]. m_steps.
      apply (wp_publish_pending out id pb c c2); [|done|done|done|].
      { eapply du_inv. unfold c2. core H1. }
      intros r1 r2 Ha Hpub. m_steps.
      destruct (p_keepalive pb) as [k|]; m_steps; apply wp_on_res; exists r2; (split; [exact Hpub|]);
        m_steps; destruct Ha as [Hi ? ?]; by split.
    + destruct source as [bytes k|file off len fb k]; m_steps.
      * simpl in Hsrc. subst bytes. apply wp_retain. intros k'. m_steps.
        eapply wp_conseq; [apply (wp_admit out id c); [core H1|done]|].
        intros s c' Ha. by m_steps.
      * apply wp_retain. intros k'. eapply wp_dispatch_disk; [core H1|done|exact Hsrc].
Qed.

(** *** Prefetching *)

(** [during], for a call that may start a copy. *)
Record calm out keep c0 c : Prop := {
  ca_inv : cache_inv out c;
  ca_sub : table (res c) ⊆ table (res c0);
  ca_keep : forall id s, id ∈ keep -> table (res c0) !! id = Some s -> table (res c) !! id = Some s;
}.
Definition stopped out keep c0 (e : CacheErr) c : Prop :=
  exists out', calm out' keep c0 c /\ out ⊆ out' /\ (e <> EUnknown -> out' = out).
Lemma during_calm out keep c0 c : during out keep c0 c -> calm out keep c0 c.
Proof. by intros [? ? ? _]. Qed.
Lemma failed_stopped out keep c0 e c : failed out keep c0 e c -> stopped out keep c0 e c.
Proof. intros (o & H & ?). exists o. split; [by apply during_calm|done]. Qed.
Lemma calm_stopped out keep c0 e c : calm out keep c0 c -> stopped out keep c0 e c.
Proof. intros H. by exists out. Qed.
Lemma calm_trans out out' keep c0 c1 c2 :
  calm out keep c0 c1 -> calm out' keep c1 c2 -> calm out' keep c0 c2.
Proof. intros [_ ? ?] [? ? ?]. split; [done|by etrans|by eauto]. Qed.
Lemma stopped_trans out keep c0 c1 c2 e :
  calm out keep c0 c1 -> stopped out keep c1 e c2 -> stopped out keep c0 e c2.
Proof. intros H (o & H' & ?). exists o. split; [by eapply calm_trans|done]. Qed.

Lemma wp_make_pending {X : CacheErr -> Cache -> Prop} {A} out keep id slot ev k c0 c
    (m : C A) (Q : A -> Cache -> Prop) :
  holding out keep slot (length (src id)) c0 c -> table (res c0) !! id = None ->
  (forall c', calm out keep c0 c' -> is_Some (pending c' !! id) -> wp m Q X c') ->
  wp (on_res (fun r => if length (occupant r) <=? slot then None
                       else Some (set_occupant (<[slot := Some id]> (occupant r)) r));;
      modify (fun c => set_pending (<[id := mkPending slot ev k (src id)]> (pending c)) c);; m) Q X c.
Proof.
  intros [[(Hr & Hs) Hsub Hk Hpd] Hn (sl & Hsl & Hlen)] Hid HQ.
  pose proof (lookup_weaken_None _ _ _ Hid Hsub) as Hid'.
  assert (Hlt : slot < length (occupant (res c))).
  { destruct (ri_out _ _ _ _ Hr slot) as [Ho _]; [set_solver|]. by eapply lookup_lt_Some. }
  wp_step. apply wp_on_res. rewrite (proj2 (Nat.leb_gt _ _) Hlt). eexists. split; [done|].
  wp_step. apply wp_modify. apply HQ; [|simpl; by rewrite lookup_insert_eq].
  split; try done. split; [|done]. by eapply pending_inv.
Qed.

(** A prefetch that started leaves the block in flight. *)
Definition in_flight id c : Prop := is_Some (pending c !! id) \/ is_Some (worker_reads (spill c) !! id).

Lemma wp_prefetch_bytes out keep id k c0 c :
  during out keep c0 c -> table (res c0) !! id = None ->
  wp (prefetch_bytes id (src id) k keep)
    (fun b c' => calm out keep c0 c' /\ (b = true -> in_flight id c')) (stopped out keep c0) c.
Proof.
  intros H Hid. unfold prefetch_bytes. m_steps.
  eapply wp_reserve; [exact H|reflexivity|apply reserve_prefetch_slot_spec, H|].
  intros [slot|] r1 _ Ho; m_steps; cycle 1.
  { split; [|done]. by apply during_calm, Ho. }
  unfold stage_on_copy_stream. m_steps. apply wp_gask. intros ok w1 _.
  assert (Hstop : forall c1, holding out keep slot (length (src id)) c0 c1 ->
    wp (on_res (release_reserved_slot slot);; throw EStage)
      (fun b c' => calm out keep c0 c' /\ (b = true -> in_flight id c')) (stopped out keep c0) c1).
  { intros c1 H1. m_steps. eapply wp_release; [exact H1|]. intros r _ Hr. m_steps.
    by apply failed_stopped, during_fails. }
  assert (H1 : holding out keep slot (length (src id)) c0 (set_gpu w1 (set_res r1 c))) by core Ho.
  destruct ok; cbn [negb]; wp_step; [m_steps|by apply Hstop]. apply wp_gask. intros ok w2 _.
  assert (H2 : holding out keep slot (length (src id)) c0 (set_gpu w2 (set_gpu w1 (set_res r1 c)))) by core H1.
  destruct ok; cbn [negb]; wp_step; [m_steps|by apply Hstop].
  eapply wp_write_slot; [exact H2|]. intros r3 _ H3 _. m_steps. apply wp_gask. intros ev w4 _.
  assert (H4 : holding out keep slot (length (src id)) c0
    (set_gpu w4 (set_res r3 (set_gpu w2 (set_gpu w1 (set_res r1 c)))))) by core H3.
  destruct ev as [ev|]; wp_step.
  - eapply wp_make_pending; [exact H4|done|]. intros c5 H5 Hp5. m_steps.
    split; [|intros _; by left]. by destruct H5 as [(? & ?) ? ?].
  - apply wp_gask. intros drained w5 _.
    assert (H5 : holding out keep slot (length (src id)) c0
      (set_gpu w5 (set_gpu w4 (set_res r3 (set_gpu w2 (set_gpu w1 (set_res r1 c))))))) by core H4.
    destruct drained; wp_step; [by apply Hstop|]. m_steps.
    destruct k as [k|]; m_steps; eapply failed_stopped, holding_fails; core H5.
Qed.

Lemma pool_ok_insert id t w :
  ticketed w t (src id) ->
  pool_ok (set_worker_reads (<[id := mkRead t (length (src id))]> (worker_reads w)) w).
Proof.
  intros (p & k & G & Hp & Hi & Ht & -> & Hr). unfold pool_ok. simpl. rewrite Hp.
  exists true, G. split; [done|]. intros i rd [[<- <-]|[_ Hrd]]%lookup_insert_Some; [done|]. by apply Hr.
Qed.

Lemma wp_prefetch_source out keep id source c :
  cache_inv out c -> source_ok id source ->
  wp (prefetch_source id source keep)
    (fun b c' => calm out keep c c' /\ (b = true -> in_flight id c')) (stopped out keep c) c.
Proof.
  intros H Hsrc. unfold prefetch_source. wp_step. apply wp_reap. intros w l. m_steps.
  set (c1 := set_srcs _ _).
  assert (H1 : during out keep c c1) by (pose proof (during_refl out keep c H) as H0; core H0).
  destruct (_ || _) eqn:Hb.
  { apply wp_ret. split; [by apply during_calm|done]. }
  apply orb_false_iff in Hb as [[Hid Hpx]%orb_false_iff _]. 
  apply bool_decide_eq_false_1, eq_None_not_Some in Hid.
  destruct source as [bytes k|file off len fb k].
  { simpl in Hsrc. subst bytes. by apply wp_prefetch_bytes. }
  destruct Hsrc as (Hoff & Hx & -> & ->).
  destruct (pread (spill c1)) as [p|] eqn:Hpr; [|by apply wp_prefetch_bytes].
  destruct (rb_is_worker p) eqn:Hw; cycle 1.
  { apply wp_ret. split; [by apply during_calm|done]. }
  wp_step. eapply (wp_pool_submit _ (src id)); [exact (during_pool _ _ _ _ H1)|exact Hpr|done| |].
  { intros g G Hi. pose proof (law_submit_speculative g G p file off (length (src id)) Hi Hoff) as Hl.
    by rewrite Hx in Hl. }
  intros [[t|]|e] p2 Hok2 Ht.
  - m_steps. specialize (Ht t eq_refl). split.
    + apply during_calm. eapply during_core; [exact H1|done|done|]. by apply (pool_ok_insert id t).
    + intros _. right. simpl. by rewrite lookup_insert_eq.
  - m_steps. split; [|done]. apply during_calm. core H1.
  - wp_step. apply wp_note_pread_fallback; [done|]. intros w3 Hw3. m_steps.
    split; [|done]. apply during_calm. core H1.
Qed.

(** *** Promotion of the background reads *)

Lemma wp_give_up {X : CacheErr -> Cache -> Prop} out keep slot len c0 c (Q : bool -> Cache -> Prop) :
  holding out keep slot len c0 c ->
  (forall c', during out keep c0 c' -> Q false c') ->
  wp (on_res (release_reserved_slot slot);; note_pread_fallback;; ret false) Q X c.
Proof.
  intros H HQ. wp_step. eapply wp_release; [exact H|]. intros r _ Hr. wp_step.
  apply wp_note_pread_fallback; [exact (during_pool _ _ _ _ Hr)|]. intros w Hw. apply wp_ret, HQ. core Hr.
Qed.

Lemma wp_promote_one out keep id c :
  cache_inv out c ->
  wp (promote_one keep id) (fun _ c' => calm out keep c c') (stopped out keep c) c.
Proof.
  intros H. pose proof (during_refl out keep c H) as H0. pose proof (during_pool _ _ _ _ H0) as Hok.
  assert (Hcalm : forall c', during out keep c c' -> calm out keep c c') by (intros; by apply during_calm).
  unfold promote_one. wp_step. apply wp_get. destruct (_ || _) eqn:Hb.
  - destruct (worker_reads (spill c) !! id) as [rd|] eqn:Hrd; [|wp_steps; by apply Hcalm].
    wp_step. m_step.
    assert (H1 : during out keep c (set_spill (set_worker_reads (delete id (worker_reads (spill c))) (spill c)) c)).
    { eapply during_core; [exact H0|done|done|]. by apply pool_ok_delete. }
    destruct (pread (spill c)) as [p|] eqn:Hp; wp_steps; [|by apply Hcalm].
    eapply wp_pool_cancel; [by apply pool_ok_delete|exact Hp|]. intros a p' Hok'. wp_steps.
    apply Hcalm. core H1.
  - apply orb_false_iff in Hb as [Hid Hpidx].
    apply bool_decide_eq_false_1, eq_None_not_Some in Hid.
    destruct (worker_reads (spill c) !! id) as [rd|] eqn:Hrd; [|wp_steps; by apply Hcalm].
    destruct (pool_ok_read id rd _ Hok Hrd) as [Htk Hlen]. rewrite Hlen.
    wp_step. eapply wp_reserve; [exact H0|reflexivity|apply reserve_prefetch_slot_spec, H|].
    intros [slot|] r1 _ Ho; [|apply wp_ret; by apply Hcalm, Ho]. wp_step. m_step. wp_step.
    eapply wp_pool_wait; [exact Htk|]. intros y p1 Hok1 Hcl.
    set (c1 := pooled p1 _).
    assert (H1 : holding out keep slot (length (src id)) c c1) by core Ho.
    destruct y as [i|e]; cycle 1.
    { wp_step. eapply wp_pool_cancel; [exact Hok1|done|]. intros a p2 Hok2.
      eapply wp_give_up; [core H1|exact Hcalm]. }
    specialize (Hcl i eq_refl). wp_step. eapply wp_pool_bytes; [exact Hok1|exact Hcl|].
    intros y p2 Hok2 Hcl2 Hy. set (c2 := pooled p2 c1).
    assert (H2 : holding out keep slot (length (src id)) c c2) by core H1.
    assert (Habort : forall c3 p3, holding out keep slot (length (src id)) c c3 -> claimed c3 i (src id) ->
      pread (spill c3) = Some p3 ->
      wp (on_pool (rb_abort i);; on_res (release_reserved_slot slot);; note_pread_fallback;; ret false)
        (fun _ c' => calm out keep c c') (stopped out keep c) c3).
    { intros c3 p3 H3 Hcl3 _. wp_step.
      eapply wp_pool_claimed; [by eapply holding_pool|done|intros; by eapply law_abort|].
      intros p4 Hok4. eapply wp_give_up; [core H3|exact Hcalm]. }
    destruct y as [b|e]; [|by eapply Habort].
    assert (b = src id) as -> by (by apply Hy). clear Hy.
    unfold stage_pread_prefetch_on_copy_stream. m_steps. apply wp_gask. intros ev w3 _.
    destruct ev as [ev|]; wp_step; [|eapply Habort; [core H2|exact Hcl2|done]].
    eapply wp_write_slot; [core H2|]. intros r4 _ H4 _. m_steps. apply wp_gask. intros ok w5 _.
    set (c5 := set_gpu w5 _).
    assert (H5 : holding out keep slot (length (src id)) c c5) by core H4.
    destruct ok; m_steps.
    + eapply wp_pool_claimed; [exact Hok2|exact Hcl2|intros; by eapply law_mark_h2d|].
      intros p6 Hok6. eapply (wp_make_pending out keep id slot ev None c); [core H5|done|].
      intros c7 H7 _. m_steps. by destruct H7 as [(? & ?) ? ?].
    + apply wp_gask. intros drained w6 _. destruct drained; wp_step.
      * eapply Habort; [core H5|exact Hcl2|done].
      * m_step. eapply wp_pool_claimed; [exact Hok2|exact Hcl2|intros; by eapply law_mark_unknown|].
        intros p7 Hok7. m_steps. eapply failed_stopped, holding_fails. core H5.
Qed.

Lemma wp_promote_loop out keep order n c0 c :
  calm out keep c0 c ->
  wp (promote_loop keep order n) (fun _ c' => calm out keep c0 c') (stopped out keep c0) c.
Proof.
  revert n c. induction order as [|id order IH]; intros n c H; simpl; [done|]. wp_step.
  eapply wp_mono; [apply (wp_promote_one out keep id c), H| |].
  - intros b c1 H1. apply IH. by eapply calm_trans.
  - intros e c1. by apply stopped_trans.
Qed.
Lemma wp_promote out keep order c :
  cache_inv out c ->
  wp (promote_worker_reads_at_safe_boundary order keep) (fun _ c' => calm out keep c c') (stopped out keep c) c.
Proof.
  intros H. unfold promote_worker_reads_at_safe_boundary. wp_step. apply wp_get.
  assert (calm out keep c c) by by split.
  destruct (negb _); [done|]. by apply wp_promote_loop.
Qed.

Lemma wp_begin_worker_scope out keep c :
  cache_inv out c ->
  wp begin_worker_scope (fun _ c' => during out keep c c' /\ worker_reads (spill c') = ∅) (fun _ _ => False) c.
Proof.
  intros H. pose proof (during_refl out keep c H) as H0. unfold begin_worker_scope.
  wp_step. apply wp_get. destruct (bool_decide _) eqn:Hb.
  { apply bool_decide_eq_true_1 in Hb. done. }
  wp_step. m_step. set (c1 := set_spill _ c).
  assert (H1 : during out keep c c1).
  { eapply during_core; [exact H0|done|done|]. by apply pool_ok_clear, (during_pool _ _ _ _ H0). }
  destruct (pread (spill c)) as [p|] eqn:Hp; [|done].
  destruct (rb_is_worker p); [|done].
  eapply wp_conseq.
  - apply (wp_for_each _ _ (fun c' => during out keep c c' /\ worker_reads (spill c') = ∅ /\
      is_Some (pread (spill c')))); [split_and!; [done|done|by exists p]|].
    intros t c2 _ (H2 & Hw & p2 & Hp2). wp_step.
    eapply wp_pool_cancel; [exact (during_pool _ _ _ _ H2)|exact Hp2|]. intros a p3 Hok3. wp_steps.
    split_and!; [core H2|done|by exists p3].
  - intros [] c2 (? & ? & _). done.
Qed.

(** *** Admission outside the dispatch path *)

(** After a failed call: the invariant, with at most one more slot out of
    service, and that only when a stream's state is unknown. *)
Definition contained out (e : CacheErr) c : Prop :=
  exists out', cache_inv out' c /\ out ⊆ out' /\ (e <> EUnknown -> out' = out).
Lemma stopped_contained out keep c0 e c : stopped out keep c0 e c -> contained out e c.
Proof. intros (o & [? _ _] & ?). by exists o. Qed.
Lemma failed_contained out keep c0 e c : failed out keep c0 e c -> contained out e c.
Proof. intros H. by eapply stopped_contained, failed_stopped. Qed.

Lemma wp_force_admit out id c :
  cache_inv out c ->
  wp (force_admit id (src id)) (fun s c' => cache_inv out c' /\ table (res c') !! id = Some s)
    (contained out) c.
Proof.
  intros H. unfold force_admit. wp_step. apply wp_get.
  destruct (table (res c) !! id) as [s|] eqn:Hid; [done|].
  eapply wp_mono; [apply (wp_admit out id c c); [by apply during_refl|done]| |].
  - intros s c' [? ? _]. done.
  - intros e c'. apply failed_contained.
Qed.

Lemma wp_admit_source out id source c :
  cache_inv out c -> table (res c) !! id = None -> source_ok id source ->
  wp (admit_source id source)
    (fun _ c' => cache_inv out c' /\ is_Some (table (res c') !! id)) (contained out) c.
Proof.
  intros H Hid Hsrc.
  assert (Ha : forall k, wp (admit_block id (src id);; ret tt)
    (fun _ c' => cache_inv out c' /\ is_Some (table (res c') !! id)) (contained out) (set_srcs k c)).
  { intros k. wp_step. eapply wp_mono; [apply (wp_admit out id c)| |].
    - pose proof (during_refl out [] c H) as H0. core H0.
    - done.
    - intros s c' [? ? _]. apply wp_ret. eauto.
    - intros e c'. apply failed_contained. }
  destruct source as [bytes k|file off len fb k]; simpl.
  - simpl in Hsrc. subst bytes. wp_step. apply wp_retain. intros k'. apply Ha.
  - destruct Hsrc as (_ & _ & _ & ->). wp_step. apply wp_modify. apply Ha.
Qed.

Lemma wp_restage_block out id m c :
  cache_inv out c ->
  (forall exps, exps_of m (proj id) = Some exps -> Z.to_nat (ex id) < n_expert exps ->
     source_ok id (expert_source exps (Z.to_nat (ex id))) /\
     forall active, active_experts m = Some active -> n_expert exps <= length active) ->
  wp (restage_block id m)
    (fun b c' => cache_inv out c' /\ (b = true -> is_Some (table (res c') !! id))) (contained out) c.
Proof.
  intros H Hm. unfold restage_block. wp_step. apply wp_get.
  destruct (bool_decide _) eqn:Hid.
  { apply bool_decide_eq_true_1 in Hid. by apply wp_ret. }
  apply bool_decide_eq_false_1, eq_None_not_Some in Hid.
  destruct (exps_of m (proj id)) as [exps|] eqn:He; [|by apply wp_ret].
  destruct (n_expert exps <=? Z.to_nat (ex id)) eqn:Hn; [by apply wp_ret|].
  apply Nat.leb_gt in Hn. destruct (Hm exps eq_refl Hn) as [Hs Hact].
  assert (Ha : forall inactive : bool,
    wp (if inactive then ret false
        else if layout_len exps (Z.to_nat (ex id)) =? 0 then ret false
        else admit_source id (expert_source exps (Z.to_nat (ex id)));; ret true)
      (fun b c' => cache_inv out c' /\ (b = true -> is_Some (table (res c') !! id))) (contained out) c).
  { intros []; [by apply wp_ret|]. destruct (_ =? 0); [by apply wp_ret|].
    wp_step. eapply wp_mono; [by apply (wp_admit_source out id)| |done].
    intros [] c' [? ?]. by apply wp_ret. }
  wp_step. destruct (active_experts m) as [active|]; wp_step; [|exact (Ha false)].
  specialize (Hact active eq_refl).
  destruct (lookup_lt_is_Some_2 active (Z.to_nat (ex id))) as [b Hb]; [lia|].
  apply wp_unwrap. exists b. split; [done|]. apply wp_ret. exact (Ha (negb b)).
Qed.

(** Per layer, the bytes [prewarm_layer] finds for each block. *)
Definition weights_ok (ly : Z) (m : MoeWeights) : Prop :=
  forall p exps e, exps_of m p = Some exps -> e < n_expert (gate_exps m) ->
    source_ok (mkBlock ly p (wrap 16 (Z.of_nat e))) (expert_source exps e).

Lemma wp_prewarm_layer out ly m c :
  cache_inv out c -> weights_ok ly m ->
  layer_count ly (table (res c)) <= 3 * n_expert (gate_exps m) ->
  wp (prewarm_layer ly m) (fun _ c' => cache_inv out c') (contained out) c.
Proof.
  intros H Hm Hcnt. unfold prewarm_layer. wp_step. apply wp_get.
  destruct (bool_decide _); [by apply wp_ret|]. wp_step. apply wp_put.
  destruct (_ && _); [by apply wp_ret|]. wp_step. apply wp_massert.
  { apply Nat.leb_le. destruct H as [Hr _]. rewrite (ri_layer _ _ _ _ Hr ly). lia. }
  destruct (size_aware c); [by apply wp_ret|]. destruct (_ <? _); [by apply wp_ret|].
  apply wp_for_each; [done|]. intros e c1 He%elem_of_seq H1. unfold prewarm_expert.
  apply wp_for_each; [done|]. intros [p exps] c2 Hp H2. unfold prewarm_one. wp_step. apply wp_get.
  simpl. destruct (bool_decide _) eqn:Hid; [by apply wp_ret|].
  apply bool_decide_eq_false_1, eq_None_not_Some in Hid.
  eapply wp_conseq; [apply (wp_admit_source out); [done|done|]|by intros [] c3 [? _]].
  apply Hm; [|lia]. repeat (apply elem_of_cons in Hp as [[= -> ->]|Hp]; [done|]).
  by apply not_elem_of_nil in Hp.
Qed.

(** *** The device pointer rows *)

Lemma row_ids_lookup ly n p e :
  p < 3 -> e < n -> row_ids ly n !! (p * n + e) = Some (mkBlock ly (Z.of_nat p) (wrap 16 (Z.of_nat e))).
Proof.
  intros Hp He. set (blk q := fun e : nat => mkBlock ly q (wrap 16 (Z.of_nat e))).
  assert (Hone : forall q l, (e ← l; [blk q e]) = blk q <$> l).
  { intros q l. induction l as [|x l IH]; [done|]. rewrite bind_cons, IH. done. }
  unfold row_ids. rewrite !bind_cons. change (mbind _ []) with (@nil BlockId).
  change (((e ← seq 0 n; [blk 0%Z e]) ++ (e ← seq 0 n; [blk 1%Z e]) ++ (e ← seq 0 n; [blk 2%Z e]) ++ [])
    !! (p * n + e) = Some (blk (Z.of_nat p) e)).
  rewrite !(Hone _ (seq 0 n)), app_nil_r.
  assert (Hl : forall q, length (blk q <$> seq 0 n) = n) by (intros; by rewrite length_fmap, length_seq).
  assert (Hg : forall q, (blk q <$> seq 0 n) !! e = Some (blk q e)).
  { intros q. rewrite list_lookup_fmap, lookup_seq_lt by done. done. }
  destruct p as [|[|[|p]]]; [| | |lia].
  - rewrite lookup_app_l by (rewrite Hl; lia). apply Hg.
  - rewrite lookup_app_r, Hl by (rewrite Hl; lia). rewrite lookup_app_l by (rewrite Hl; lia).
    replace (1 * n + e - n) with e by lia. apply Hg.
  - rewrite lookup_app_r, Hl by (rewrite Hl; lia). rewrite lookup_app_r, Hl by (rewrite Hl; lia).
    replace (2 * n + e - n - n) with e by lia. apply Hg.
Qed.
Lemma row_addresses_lookup ly n r row p e :
  row_addresses ly n r = Some row -> p < 3 -> e < n ->
  exists s, table r !! mkBlock ly (Z.of_nat p) (wrap 16 (Z.of_nat e)) = Some s /\
    row !! (p * n + e) = Some (slot_addr s).
Proof.
  intros Hrow Hp He. unfold row_addresses in Hrow. apply mapM_Some in Hrow.
  destruct (Forall2_lookup_l _ _ _ _ _ Hrow (row_ids_lookup ly n p e Hp He)) as (a & Ha & Hs).
  destruct (table r !! _) as [s|] eqn:Ht; simpl in Hs; [|done]. injection Hs as <-. by exists s.
Qed.

Lemma wp_layer_dev_row out ly n c :
  cache_inv out c ->
  wp (layer_dev_row ly n)
    (fun o c' => during out [] c c' /\ forall row, o = Some row ->
       exists m, row_addresses ly m (res c') = Some row /\ (dev_rows (res c) !! ly = None -> m = n))
    (fun e c' => e = EUpload /\ during out [] c c') c.
Proof.
  intros H. pose proof (during_refl out [] c H) as H0. unfold layer_dev_row. wp_step. apply wp_get.
  destruct (negb _); [by apply wp_ret|].
  destruct (dev_rows (res c) !! ly) as [row|] eqn:Hrow.
  { apply wp_ret. split; [done|]. intros ? [= <-]. destruct H as [Hr _].
    destruct (ri_rows _ _ _ _ Hr ly row Hrow) as [m Hm]. by exists m. }
  destruct (row_addresses ly n (res c)) as [host|] eqn:Hh; [|by apply wp_ret].
  wp_step. apply wp_gask. intros ok w _. assert (H1 : during out [] c (set_gpu w c)) by core H0.
  destruct ok; cbn [negb]; [|by apply wp_throw].
  wp_step. apply wp_on_res. eexists. split; [done|]. apply wp_ret. split.
  - destruct H as [Hr Hs]. split; try done. split; [|done].
    destruct Hr as [? ? ? ? ? ? ? ? ? ? ? ? ? ? Hrows]. split; try done. simpl.
    intros ly' row' [[<- <-]|[_ Hr']]%lookup_insert_Some; [by exists n|by apply Hrows].
  - intros row [= <-]. exists n. split; [exact Hh|done].
Qed.
End Method_facts.
End Methods.
