(* ===== verification/MoeCacheSpec.v ===== *)
(** What the expert cache promises to the forward pass: under any sequence of
    calls, the slot a dispatch returns holds the block's bytes. *)
From Stdlib Require Import SpecFloat.
From S2P Require Import Prelude Effects F32 Slru PreadPool ReadBackend PreadBackend.
From S2P Require Import MoeCache MoeResidency MoeMethods.

Section Spec.
Context {rb : ReadBackend} {gpu_ : Gpu} {laws : ReadBackendLaws rb} (src : BlockId -> list Z).
Implicit Types (c : Cache) (keep : list BlockId).

(** The calls the engine makes. *)
Inductive cache_op :=
  | OpDispatch (id : BlockId) (source : ExpertSource)
  | OpPrefetch (id : BlockId) (source : ExpertSource) (keep : list BlockId)
  | OpPromote (order keep : list BlockId)
  | OpScope
  | OpForceAdmit (id : BlockId)
  | OpRestage (id : BlockId) (m : MoeWeights)
  | OpPrewarm (ly : Z) (m : MoeWeights)
  | OpDevRow (ly : Z) (n : nat)
  | OpEpoch (ly : Z) (t : nat)
  | OpProfileHit (id : BlockId)
  | OpFreeze
  | OpResetCounters.

(** The caller keeps an [Err] and goes on. *)
Definition run_op (op : cache_op) : C unit :=
  match op with
  | OpDispatch id s => attempt (dispatch_source id s);; ret tt
  | OpPrefetch id s keep => attempt (prefetch_source id s keep);; ret tt
  | OpPromote order keep => attempt (promote_worker_reads_at_safe_boundary order keep);; ret tt
  | OpScope => begin_worker_scope
  | OpForceAdmit id => attempt (force_admit id (src id));; ret tt
  | OpRestage id m => attempt (restage_block id m);; ret tt
  | OpPrewarm ly m => attempt (prewarm_layer ly m);; ret tt
  | OpDevRow ly n => attempt (layer_dev_row ly n);; ret tt
  | OpEpoch ly t => begin_epoch ly t
  | OpProfileHit id => note_profile_hit id
  | OpFreeze => freeze
  | OpResetCounters => reset_counters
  end.
Definition cache_exec (op : cache_op) (c : Cache) : Cache * outcome CacheErr unit := run_op op c.

(** What the engine guarantees of a call. *)
Definition op_ok (op : cache_op) (c : Cache) : Prop :=
  match op with
  | OpDispatch id s | OpPrefetch id s _ => source_ok src id s
  | OpRestage id m =>
      forall exps, exps_of m (proj id) = Some exps -> Z.to_nat (ex id) < n_expert exps ->
        source_ok src id (expert_source exps (Z.to_nat (ex id))) /\
        forall active, active_experts m = Some active -> n_expert exps <= length active
  | OpPrewarm ly m =>
      weights_ok src ly m /\ layer_count ly (table (res c)) <= 3 * n_expert (gate_exps m)
  | OpFreeze => forall id, is_Some (table (res c) !! id) -> (proj id < 8)%Z
  | _ => True
  end.

Definition fresh_cache (plan : list (nat * nat)) (c : Cache) : Prop :=
  res c = new_residency plan /\ (Z.of_nat (plan_slots plan) <= u_max 32)%Z /\ pending c = ∅ /\
  worker_reads (spill c) = ∅ /\
  match pread (spill c) with Some p => exists k, rb_inv k ∅ p | None => True end.
Inductive cache_reach (c0 : Cache) : Cache -> Prop :=
  | cache_reach_init : cache_reach c0 c0
  | cache_reach_step c op : cache_reach c0 c -> op_ok op c -> cache_reach c0 (cache_exec op c).1.

Definition good c : Prop := exists out, cache_inv src out c.

Lemma fresh_good plan c : fresh_cache plan c -> good c.
Proof.
  intros (Hr & Hn & Hp & Hw & Hpr). exists ∅. split.
  - rewrite Hr, Hp. by apply new_residency_inv.
  - unfold pool_ok. destruct (pread (spill c)) as [p|]; [|done]. destruct Hpr as [k Hk].
    exists k, ∅. split; [done|]. intros id rd Hrd. rewrite Hw in Hrd. by rewrite lookup_empty in Hrd.
Qed.

Lemma residency_masks_total ids masks :
  (forall id, id ∈ ids -> (proj id < 8)%Z) -> is_Some (residency_masks ids masks).
Proof.
  revert masks. induction ids as [|id ids IH]; intros masks H; simpl; [done|].
  unfold proj_mask. rewrite (proj2 (Z.ltb_lt _ _)) by (apply H; left). simpl.
  apply IH. intros i Hi. apply H. by right.
Qed.

Lemma wp_attempt_good {A} (m : C A) (Q : A -> Cache -> Prop) (X : CacheErr -> Cache -> Prop) c :
  wp m Q X c -> (forall a c', Q a c' -> good c') -> (forall e c', X e c' -> good c') ->
  wp (attempt m;; ret tt) (fun _ => good) (fun _ _ => False) c.
Proof.
  intros H HQ HX. wp_step. wp_step. eapply wp_mono; [exact H| |].
  - intros a c' Ha. apply wp_ret. eauto.
  - intros e c' He. apply wp_ret. eauto.
Qed.
Lemma contained_good out e c : contained src out e c -> good c.
Proof. intros (o & ? & _). by exists o. Qed.
Lemma failed_good out keep c0 e c : failed src out keep c0 e c -> good c.
Proof. intros H. by eapply contained_good, failed_contained. Qed.
Lemma stopped_good out keep c0 e c : stopped src out keep c0 e c -> good c.
Proof. intros H. by eapply contained_good, stopped_contained. Qed.
Hint Resolve contained_good failed_good stopped_good : memra.

(** Every call keeps the invariant and returns. *)
Lemma wp_run_op op c :
  good c -> op_ok op c -> wp (run_op op) (fun _ => good) (fun _ _ => False) c.
Proof.
  intros [out H] Hop. destruct op as [id s|id s keep|order keep| |id|id m|ly m|ly n|ly t|id| |]; simpl in *.
  - eapply wp_attempt_good; [by apply (wp_dispatch_source src out)| |eauto with memra].
    intros [s'] c' [? _ _]. by exists out.
  - eapply wp_attempt_good; [by apply (wp_prefetch_source src out)| |eauto with memra].
    intros b c' [[? _ _] _]. by exists out.
  - eapply wp_attempt_good; [by apply (wp_promote src out)| |eauto with memra].
    intros b c' [? _ _]. by exists out.
  - eapply wp_conseq; [by apply (wp_begin_worker_scope src out [])|].
    intros [] c' [[? _ _ _] _]. by exists out.
  - eapply wp_attempt_good; [by apply (wp_force_admit src out)| |eauto with memra].
    intros s c' [? _]. by exists out.
  - eapply wp_attempt_good; [by apply (wp_restage_block src out)| |eauto with memra].
    intros b c' [? _]. by exists out.
  - destruct Hop as [? ?].
    eapply wp_attempt_good; [by apply (wp_prewarm_layer src out)| |eauto with memra].
    intros b c' ?. by exists out.
  - eapply wp_attempt_good; [by apply (wp_layer_dev_row src out)| |].
    + intros o c' [[? _ _ _] _]. by exists out.
    + intros e c' [_ [? _ _ _]]. by exists out.
  - by exists out.
  - unfold note_profile_hit. wp_step. apply wp_get. destruct (_ || _); [by exists out|]. by exists out.
  - unfold freeze. wp_step. apply wp_get. destruct (frozen c); [by exists out|]. wp_step. apply wp_put.
    wp_step. apply wp_unwrap. unfold expert_residency_shape.
    destruct (residency_masks_total (map_to_list (table (res c))).*1 ∅) as [masks ->].
    { intros id ([i s] & -> & Hin)%list_elem_of_fmap. apply elem_of_map_to_list in Hin.
      apply Hop. by exists s. }
    eexists. split; [done|]. apply wp_ret. by exists out.
  - by exists out.
Qed.
Lemma reach_good plan c0 c : fresh_cache plan c0 -> cache_reach c0 c -> good c.
Proof.
  intros H0 Hr. induction Hr as [|c op Hr IH Hop]; [by eapply fresh_good|].
  pose proof (wp_run_op op c IH Hop) as Hw. unfold wp in Hw. unfold cache_exec.
  by destruct (run_op op c) as [c' [[]|e|]].
Qed.

(** C5. From a fresh cache, under any sequence of dispatches, prefetches,
    promotions and admissions, with any answers of CUDA and of the read
    backend and with errors ignored by the caller: no call panics, every
    resident block's slot holds exactly that block's bytes, and no slot serves
    two blocks. *)
Theorem cache_safe (plan : list (nat * nat)) (c0 c : Cache) :
  fresh_cache plan c0 -> cache_reach c0 c ->
  (forall op, op_ok op c -> (cache_exec op c).2 <> Panic) /\
  (forall id s, table (res c) !! id = Some s ->
     exists sl, slots (res c) !! s = Some sl /\ content sl = Some (src id)) /\
  (forall id id' s, table (res c) !! id = Some s -> table (res c) !! id' = Some s -> id = id').
Proof.
  intros H0 Hr. pose proof (reach_good _ _ _ H0 Hr) as Hg. split; [|destruct Hg as (out & Hi & _); split].
  - intros op Hop. pose proof (wp_run_op op c Hg Hop) as Hw. unfold wp in Hw. unfold cache_exec.
    by destruct (run_op op c) as [c' [[]|e|]].
  - intros id s Hid. destruct (ri_table _ _ _ _ Hi id s Hid) as [_ (l & Hl & _)].
    destruct (rinv_slot src _ _ _ s l Hi Hl) as (sl & _ & _ & Hsl & _). exists sl. split; [done|].
    by eapply (ri_content _ _ _ _ Hi).
  - intros id id' s Hid Hid'. destruct (ri_table _ _ _ _ Hi id s Hid) as [Ho _].
    destruct (ri_table _ _ _ _ Hi id' s Hid') as [Ho' _]. congruence.
Qed.

(** C6. A dispatch is bit-identical whatever path served it: a hit, a
    prefetched copy, a worker or synchronous disk read, or the host fallback.
    The buffer of the returned slot holds exactly the block's bytes; a failed
    dispatch makes no block resident. *)
Theorem dispatch_bit_identical (plan : list (nat * nat)) (c0 c : Cache) id source :
  fresh_cache plan c0 -> cache_reach c0 c -> source_ok src id source ->
  exists c' r, dispatch_source id source c = (c', r) /\ r <> Panic /\
    (forall d, r = Ok d -> exists sl, buf d c' = Some sl /\ content sl = Some (src id)) /\
    (forall e, r = Err e -> table (res c') ⊆ table (res c)).
Proof.
  intros H0 Hr Hs. destruct (reach_good _ _ _ H0 Hr) as [out H].
  pose proof (wp_dispatch_source src out id source c H Hs) as Hw. unfold wp in Hw.
  destruct (dispatch_source id source c) as [c' [[s]|e|]]; [| |done].
  - exists c', (Ok (Resident s)). split_and!; [done..| |done]. intros d [= <-].
    destruct Hw as [[Hi _] Hin _]. destruct (ri_table _ _ _ _ Hi id s Hin) as [_ (l & Hl & _)].
    destruct (rinv_slot src _ _ _ s l Hi Hl) as (sl & _ & _ & Hsl & _).
    exists sl. split; [done|]. by eapply (ri_content _ _ _ _ Hi).
  - exists c', (Err e). split_and!; [done..|]. intros e' [= <-]. by destruct Hw as (o & [_ ? _ _] & _).
Qed.

(** A hit moves no bytes: it returns the slot the block is in, and the
    slots, the residency table, the copies in flight and the count of staged
    bytes are what they were; only the hit counter and the recency order move. *)
Theorem dispatch_hit (plan : list (nat * nat)) (c0 c : Cache) id s source :
  fresh_cache plan c0 -> cache_reach c0 c -> table (res c) !! id = Some s ->
  exists c', dispatch_source id source c = (c', Ok (Resident s)) /\
    slots (res c') = slots (res c) /\ table (res c') = table (res c) /\ pending c' = pending c /\
    staged_bytes (ctr c') = staged_bytes (ctr c) /\ misses (ctr c') = misses (ctr c) /\
    hits (ctr c') = wrap 64 (hits (ctr c) + 1).
Proof.
  intros H0 Hr Hid. destruct (reach_good _ _ _ H0 Hr) as [out H].
  set (post d c' := d = Resident s /\
    slots (res c') = slots (res c) /\ table (res c') = table (res c) /\ pending c' = pending c /\
    staged_bytes (ctr c') = staged_bytes (ctr c) /\ misses (ctr c') = misses (ctr c) /\
    hits (ctr c') = wrap 64 (hits (ctr c) + 1)).
  assert (Hw : wp (dispatch_source id source) post (fun _ _ => False) c).
  { unfold dispatch_source. wp_step. apply wp_reap. intros w l. wp_step. apply wp_modify. wp_step.
    apply wp_get. simpl. rewrite Hid. wp_step. apply wp_modify. wp_step.
    destruct H as [Hi _]. destruct (ri_table _ _ _ _ Hi id s Hid) as [_ Hls].
    destruct (on_hit_inv src _ _ _ s Hi Hls) as (r' & Hh & _ & Ht & Hsl).
    apply wp_on_res. exists r'. split; [done|]. by apply wp_ret. }
  unfold wp in Hw. destruct (dispatch_source id source c) as [c' [d|e|]]; [|done|done].
  destruct Hw as (-> & Hw). by exists c'.
Qed.

(** C7. Neither a prefetch nor a promotion of finished reads ever evicts a block
    the caller asked to keep, and neither makes a block resident before it is
    dispatched. *)
Theorem prefetch_keeps (plan : list (nat * nat)) (c0 c : Cache) id source order keep :
  fresh_cache plan c0 -> cache_reach c0 c -> source_ok src id source ->
  (forall op, op = OpPrefetch id source keep \/ op = OpPromote order keep ->
     table (res (cache_exec op c).1) ⊆ table (res c) /\
     forall i s, i ∈ keep -> table (res c) !! i = Some s ->
       table (res (cache_exec op c).1) !! i = Some s).
Proof.
  intros H0 Hr Hs op Hop. destruct (reach_good _ _ _ H0 Hr) as [out H].
  assert (Hw : wp (run_op op) (fun _ c' => exists out', calm src out' keep c c') (fun _ _ => False) c).
  { destruct Hop as [-> | ->]; simpl; wp_step; wp_step; eapply wp_mono;
      [by apply (wp_prefetch_source src out)| | |by apply (wp_promote src out)| |].
    - intros b c' [? _]. apply wp_ret. by exists out.
    - intros e c' (o & ? & _). apply wp_ret. by exists o.
    - intros b c' ?. apply wp_ret. by exists out.
    - intros e c' (o & ? & _). apply wp_ret. by exists o. }
  unfold wp in Hw. unfold cache_exec. destruct (run_op op c) as [c' [[]|e|]]; [|done|done].
  by destruct Hw as (o & [_ ? ?]).
Qed.

(** A device pointer row hands a kernel one address per projection and
    expert, and each is the address of the slot that holds that block's bytes
    in the state the row was asked for in. *)
Theorem dev_row_addresses (plan : list (nat * nat)) (c0 c c' : Cache) ly n row :
  fresh_cache plan c0 -> cache_reach c0 c -> layer_dev_row ly n c = (c', Ok (Some row)) ->
  exists m, (dev_rows (res c) !! ly = None -> m = n) /\
    forall p e, p < 3 -> e < m -> exists s sl,
      row !! (p * m + e) = Some (slot_addr s) /\ slots (res c') !! s = Some sl /\
      content sl = Some (src (mkBlock ly (Z.of_nat p) (wrap 16 (Z.of_nat e)))).
Proof.
  intros H0 Hr Heq. destruct (reach_good _ _ _ H0 Hr) as [out H].
  pose proof (wp_layer_dev_row src out ly n c H) as Hw. unfold wp in Hw. rewrite Heq in Hw.
  destruct Hw as [[[Hi _] _ _ _] Hrow]. destruct (Hrow row eq_refl) as (m & Hm & Hmn).
  exists m. split; [done|]. intros p e Hp He.
  destruct (row_addresses_lookup _ _ _ _ _ _ Hm Hp He) as (s & Hs & Ha).
  destruct (ri_table _ _ _ _ Hi _ _ Hs) as [_ (l & Hl & _)].
  destruct (rinv_slot src _ _ _ s l Hi Hl) as (sl & _ & _ & Hsl & _).
  exists s, sl. split_and!; [done..|]. by eapply (ri_content _ _ _ _ Hi).
Qed.

(** Under the LFU policy the victim of a class is, among the blocks resident
    in that class that the caller did not ask to keep, one with the least
    score in [f32::total_cmp]'s order. *)
Theorem lfu_victim_least (plan : list (nat * nat)) (c0 c : Cache) keep (j x : nat) r' :
  fresh_cache plan c0 -> cache_reach c0 c ->
  frequency_victim_in_class (frequencies (freq c)) keep j (res c) = Some (Some x, r') ->
  exists id, table (res c) !! id = Some x /\ (id ∉ keep) /\
    forall idy y, table (res c) !! idy = Some y -> slot_class (res c) !! y = Some j -> idy ∉ keep ->
      float_le (score (frequencies (freq c)) id) (score (frequencies (freq c)) idy).
Proof.
  intros H0 Hr Hv. destruct (reach_good _ _ _ H0 Hr) as (out & Hi & _).
  destruct (frequency_victim_least src _ _ _ _ _ _ _ _ Hi Hv) as (id & Hx & Hk & Hle & Hall).
  exists id. split_and!; [|done|].
  - destruct (ri_listed _ _ _ _ Hi x Hle) as (id' & Hx' & Ht). congruence.
  - intros idy y Hy Hj Hky. destruct (ri_table _ _ _ _ Hi idy y Hy). by eapply Hall.
Qed.
End Spec.

(** ** A concrete cache, over the pinned pool *)

Module ToyCache.
#[export] Instance toy_gpu : Gpu := {
  gstate := nat;
  g_stage w := (true, S w);
  g_compute_sync w := (true, S w);
  g_record_compute w := (true, S w);
  g_copy_wait w := (true, S w);
  g_stage_async w := (Some 7%Z, S w);
  g_copy_sync w := (true, S w);
  g_new_event w := (Some 7%Z, S w);
  g_memcpy_record w := (true, S w);
  g_compute_wait w _ := (true, S w);
  g_event_complete w _ := (true, S w);
  g_upload w := (true, S w);
  slot_addr s := (4096 + Z.of_nat s)%Z;
}.
(** Blocks are three bytes; block [e] of the disk starts at [3 * e mod 6]. *)
Definition toy_src (id : BlockId) : list Z :=
  if Z.even (ex id) then [10; 11; 12]%Z else [13; 14; 15]%Z.
#[export] Instance toy_rb : ReadBackend := pread_backend (os := Toy.toy_os).
Definition toy_disk (e : Z) : ExpertSource (rb := toy_rb) :=
  Disk (rb := toy_rb) tt (if Z.even e then 0 else 3) 3 (toy_src (mkBlock 0 0 e)) (KeepMmap 1).
Definition toy_mem (e : Z) : ExpertSource (rb := toy_rb) := Memory (toy_src (mkBlock 0 0 e)) None.
Definition blk (p e : Z) : BlockId := mkBlock 0 p e.
Definition toy_cache (plan : list (nat * nat)) : Cache (rb := toy_rb) (gpu_ := toy_gpu) :=
  mkCache (new_residency plan) ∅ (mkFreq ∅ false None f32_one None 0)
    (mkSources [] [] ∅ false false) (mkSpill (Some Toy.pool0) ∅ true 0 true) (mkCounters 0 0 0)
    (plan_slots plan) 3 false false ∅ 0.
#[export] Instance toy_backend_laws : ReadBackendLaws toy_rb :=
  pread_backend_laws (os := Toy.toy_os) (laws := Toy.toy_laws).
Lemma toy_fresh : fresh_cache [(3, 3)] (toy_cache [(3, 3)]).
Proof.
  split_and!; try done. exists true.
  destruct (new_pool_good (laws := Toy.toy_laws) _ _ _ _ Toy.pool0_new (pool_reach_init _)) as (G & _ & H & Hl).
  refine (law_forget true G ∅ _ _ _); [|apply map_empty_subseteq]. by split_and!.
Qed.

Fixpoint run_ops (ops : list cache_op) (c : Cache) : Cache :=
  match ops with [] => c | op :: ops => run_ops ops (cache_exec toy_src op c).1 end.
Fixpoint ops_ok (ops : list cache_op) (c : Cache) : Prop :=
  match ops with
  | [] => True
  | op :: ops => op_ok toy_src op c /\ ops_ok ops (cache_exec toy_src op c).1
  end.
Lemma run_ops_reach c0 ops c :
  cache_reach toy_src c0 c -> ops_ok ops c -> cache_reach toy_src c0 (run_ops ops c).
Proof.
  revert c. induction ops as [|op ops IH]; intros c H; simpl; [done|].
  intros [H1 H2]. apply IH; [by constructor|done].
Qed.

(** A read, a prefetch through the workers, its promotion, and a dispatch. *)
Definition toy_ops : list cache_op :=
  [OpDispatch (blk 0 0) (toy_disk 0); OpPrefetch (blk 1 0) (toy_disk 0) [blk 0 0];
   OpPromote [blk 1 0] [blk 0 0]; OpDispatch (blk 1 0) (toy_disk 0);
   OpDispatch (blk 2 0) (toy_mem 0)].
Definition toy_c0 : Cache (rb := toy_rb) (gpu_ := toy_gpu) := toy_cache [(3, 3)].
Definition toy_c : Cache (rb := toy_rb) (gpu_ := toy_gpu) := run_ops toy_ops toy_c0.
Example toy_ok : table (res toy_c) !! blk 1 0 = Some 1 /\ hits (ctr toy_c) = 0%Z /\ misses (ctr toy_c) = 3%Z.
Proof. vm_compute. done. Qed.
Lemma toy_reach : cache_reach toy_src toy_c0 toy_c.
Proof.
  apply run_ops_reach; [constructor|]. unfold toy_ops. cbn [ops_ok op_ok].
  split_and!; try (vm_compute; intuition congruence).
Qed.
End ToyCache.
Import ToyCache.

Lemma cache_safe_witness :
  (exists s, table (res toy_c) !! blk 1 0 = Some s) /\
  (forall op, op_ok toy_src op toy_c -> (cache_exec toy_src op toy_c).2 <> Panic) /\
  (forall id s, table (res toy_c) !! id = Some s ->
     exists sl, slots (res toy_c) !! s = Some sl /\ content sl = Some (toy_src id)) /\
  (forall id id' s, table (res toy_c) !! id = Some s -> table (res toy_c) !! id' = Some s -> id = id').
Proof.
  split; [by exists 1; vm_compute|].
  exact (cache_safe toy_src _ _ _ toy_fresh toy_reach).
Defined.

Lemma dispatch_bit_identical_witness :
  exists c' r, dispatch_source (blk 1 1) (toy_disk 1) toy_c = (c', r) /\ r <> Panic /\
    (forall d, r = Ok d -> exists sl, buf d c' = Some sl /\ content sl = Some [13; 14; 15]%Z) /\
    (forall e, r = Err e -> table (res c') ⊆ table (res toy_c)).
Proof.
  refine (dispatch_bit_identical toy_src _ _ _ (blk 1 1) (toy_disk 1) toy_fresh toy_reach _).
  vm_compute. intuition congruence.
Defined.

Lemma dispatch_hit_witness :
  exists c', dispatch_source (blk 1 0) (toy_disk 0) toy_c = (c', Ok (Resident 1)) /\
    slots (res c') = slots (res toy_c) /\ table (res c') = table (res toy_c) /\ pending c' = pending toy_c /\
    staged_bytes (ctr c') = staged_bytes (ctr toy_c) /\ misses (ctr c') = misses (ctr toy_c) /\
    hits (ctr c') = wrap 64 (hits (ctr toy_c) + 1).
Proof.
  refine (dispatch_hit toy_src _ _ _ (blk 1 0) 1 (toy_disk 0) toy_fresh toy_reach _). by vm_compute.
Defined.

(** Three slots, all taken: the prefetch must evict, and spares what it is told to. *)
Lemma prefetch_keeps_witness :
  table (res (cache_exec toy_src (OpPrefetch (blk 1 1) (toy_disk 1) [blk 0 0]) toy_c).1) !! blk 0 0
  = table (res toy_c) !! blk 0 0.
Proof.
  assert (H : exists s, table (res toy_c) !! blk 0 0 = Some s) by (by eexists; vm_compute).
  destruct H as [s Hs]. rewrite Hs.
  refine (proj2 (prefetch_keeps toy_src _ _ _ (blk 1 1) (toy_disk 1) [] [blk 0 0] toy_fresh toy_reach _ _
    (or_introl eq_refl)) _ s _ Hs); [|left].
  vm_compute. intuition congruence.
Defined.

Lemma dev_row_addresses_witness :
  exists c' row, layer_dev_row 0 1 toy_c = (c', Ok (Some row)) /\
  exists m, (dev_rows (res toy_c) !! 0%Z = None -> m = 1) /\
    forall p e, p < 3 -> e < m -> exists s sl,
      row !! (p * m + e) = Some (slot_addr s) /\ slots (res c') !! s = Some sl /\
      content sl = Some (toy_src (mkBlock 0 (Z.of_nat p) (wrap 16 (Z.of_nat e)))).
Proof.
  assert (H : exists c' row, layer_dev_row 0 1 toy_c = (c', Ok (Some row))).
  { destruct (layer_dev_row 0 1 toy_c) as [c' r] eqn:He. exists c'.
    assert (Hr : (layer_dev_row 0 1 toy_c).2 = Ok (Some [4096; 4097; 4098]%Z)) by (by vm_compute).
    rewrite He in Hr. simpl in Hr. exists [4096; 4097; 4098]%Z. by rewrite Hr. }
  destruct H as (c' & row & H). exists c', row. split; [exact H|].
  exact (dev_row_addresses toy_src _ _ _ c' 0 1 row toy_fresh toy_reach H).
Defined.

(** One block is kept; the victim is one of the two others. *)
Lemma lfu_victim_least_witness :
  exists x r', frequency_victim_in_class (frequencies (freq toy_c)) [blk 0 0] 0 (res toy_c) = Some (Some x, r') /\
  exists id, table (res toy_c) !! id = Some x /\ (id ∉ [blk 0 0]) /\
    forall idy y, table (res toy_c) !! idy = Some y -> slot_class (res toy_c) !! y = Some 0 -> idy ∉ [blk 0 0] ->
      float_le (score (frequencies (freq toy_c)) id) (score (frequencies (freq toy_c)) idy).
Proof.
  assert (H : exists x r', frequency_victim_in_class (frequencies (freq toy_c)) [blk 0 0] 0 (res toy_c)
    = Some (Some x, r')) by (do 2 eexists; vm_compute; reflexivity).
  destruct H as (x & r' & H). exists x, r'. split; [exact H|].
  exact (lfu_victim_least toy_src _ _ _ [blk 0 0] 0 x r' toy_fresh toy_reach H).
Defined.
