(* ===== verification/RustStr.v ===== *)
(** Rust strings and the [std] string functions the program uses.

    A [str] is the list of its code points; [lit] makes one of an ASCII
    literal.  The functions are those of [core::str]: [trim], [split],
    [strip_prefix], [find], [parse::<u*>]. *)
From Stdlib Require Import Ascii.
From S2P Require Import Prelude.
Local Open Scope Z_scope.

Definition str : Type := list Z.
Fixpoint lit (s : string) : str :=
  match s with
  | EmptyString => []
  | String a s => Z.of_nat (nat_of_ascii a) :: lit s
  end.
#[global] Arguments lit : simpl never.
#[export] Instance str_eq_dec : EqDecision str.
Proof. unfold str. apply _. Defined.
(** A newline. *)
Definition NL : str := [10].
Definition str_eqb (a b : str) : bool := bool_decide (a = b).

(** [char::is_whitespace]: the Unicode property White_Space. *)
Definition is_whitespace (c : Z) : bool :=
  ((9 <=? c) && (c <=? 13)) || (c =? 32) || (c =? 133) || (c =? 160) || (c =? 5760) ||
  ((8192 <=? c) && (c <=? 8202)) || (c =? 8232) || (c =? 8233) || (c =? 8239) || (c =? 8287) ||
  (c =? 12288).
Definition is_ascii_digit (c : Z) : bool := (48 <=? c) && (c <=? 57).

Fixpoint drop_while (p : Z -> bool) (s : str) : str :=
  match s with
  | c :: s' => if p c then drop_while p s' else s
  | [] => []
  end.
Definition trim_start (s : str) : str := drop_while is_whitespace s.
Definition trim_end (s : str) : str := reverse (drop_while is_whitespace (reverse s)).
Definition trim (s : str) : str := trim_end (trim_start s).

(** [split(char)]: always at least one piece. *)
Fixpoint split_on (sep : Z) (s : str) : list str :=
  match s with
  | [] => [[]]
  | c :: s =>
      if c =? sep then [] :: split_on sep s
      else match split_on sep s with
           | [] => [[c]]
           | p :: ps => (c :: p) :: ps
           end
  end.
Fixpoint join (sep : Z) (l : list str) : str :=
  match l with
  | [] => []
  | [p] => p
  | p :: l => p ++ sep :: join sep l
  end.

Fixpoint strip_prefix (p s : str) : option str :=
  match p, s with
  | [], _ => Some s
  | a :: p, b :: s => if a =? b then strip_prefix p s else None
  | _ :: _, [] => None
  end.
Definition starts_with (p s : str) : bool := bool_decide (is_Some (strip_prefix p s)).
Definition ends_with (p s : str) : bool := starts_with (reverse p) (reverse s).
(** [split_once]/[find]: the parts around the first occurrence of [p]. *)
Fixpoint split_once (p s : str) : option (str * str) :=
  match strip_prefix p s with
  | Some rest => Some ([], rest)
  | None =>
      match s with
      | [] => None
      | c :: s => x ← split_once p s; Some (c :: x.1, x.2)
      end
  end.
Definition contains (p s : str) : bool := bool_decide (is_Some (split_once p s)).

(** [parse::<u{w}>]: an optional plus, then digits; empty, other characters
    and overflow are errors. *)
Fixpoint parse_digits (w acc : Z) (s : str) : option Z :=
  match s with
  | [] => Some acc
  | c :: s =>
      if is_ascii_digit c then
        let acc := acc * 10 + (c - 48) in
        if u_max w <? acc then None else parse_digits w acc s
      else None
  end.
Definition strip_plus (s : str) : str :=
  match s with c :: s' => if c =? 43 then s' else s | [] => [] end.
Definition parse_uint (w : Z) (s : str) : option Z :=
  match strip_plus s with [] => None | _ => parse_digits w 0 (strip_plus s) end.

(** [to_string] of an unsigned integer. *)
Fixpoint digits_rev (fuel : nat) (n : Z) : str :=
  match fuel with
  | O => []
  | S fuel => (48 + n mod 10) :: (if n <? 10 then [] else digits_rev fuel (n / 10))
  end.
Definition show_uint (n : Z) : str := reverse (digits_rev (S (Z.to_nat (Z.log2 n))) n).

(** ** Facts *)

Lemma drop_while_head p s : match drop_while p s with c :: _ => p c = false | [] => True end.
Proof. induction s as [|c s IH]; simpl; [done|]. destruct (p c) eqn:Hc; [exact IH|exact Hc]. Qed.
Lemma drop_while_suffix p s : exists q, s = q ++ drop_while p s /\ Forall (fun c => p c = true) q.
Proof.
  induction s as [|c s (q & Hq & Hf)]; simpl; [by exists []|].
  destruct (p c) eqn:Hc; [|by exists []]. exists (c :: q). split; [by rewrite Hq at 1|by constructor].
Qed.
Lemma strip_prefix_Some p s r : strip_prefix p s = Some r <-> s = p ++ r.
Proof.
  revert s. induction p as [|a p IH]; intros s; simpl.
  - split; [by intros [= ->]|by intros ->].
  - destruct s as [|b s]; [done|]. destruct (Z.eqb_spec a b) as [->|Hne].
    + rewrite IH. split; [by intros ->|by intros [= ->]].
    + split; [done|]. intros [= -> _]. done.
Qed.
Lemma starts_with_spec p s : starts_with p s = true <-> exists r, s = p ++ r.
Proof.
  unfold starts_with. rewrite bool_decide_eq_true. split.
  - intros [r Hr]. exists r. by apply strip_prefix_Some.
  - intros [r Hr]. exists r. by apply strip_prefix_Some.
Qed.
Lemma split_once_Some p s a b : split_once p s = Some (a, b) -> s = a ++ p ++ b.
Proof.
  revert a. induction s as [|c s IH]; intros a; simpl.
  - destruct (strip_prefix p []) as [r|] eqn:Hp; [|done]. intros [= <- <-].
    by apply strip_prefix_Some in Hp.
  - destruct (strip_prefix p (c :: s)) as [r|] eqn:Hp.
    + intros [= <- <-]. by apply strip_prefix_Some in Hp.
    + destruct (split_once p s) as [[a' b']|]; simpl; [|done]. intros [= <- <-].
      simpl. f_equal. by apply IH.
Qed.

(** Splitting and joining are inverse. *)
Lemma split_on_join sep s : join sep (split_on sep s) = s.
Proof.
  induction s as [|c s IH]; [done|]. simpl. destruct (Z.eqb_spec c sep) as [->|Hne].
  - destruct (split_on sep s) as [|p ps] eqn:Hs; simpl in *; [by destruct s; simpl in Hs; repeat case_match|].
    f_equal. exact IH.
  - destruct (split_on sep s) as [|p [|q ps]] eqn:Hs; simpl in *; by subst.
Qed.
Lemma split_on_nonempty sep s : split_on sep s <> [].
Proof. destruct s as [|c s]; simpl; [done|]. destruct (c =? sep); [done|]. by destruct (split_on sep s). Qed.

(** Printing then parsing an integer gives it back. *)
Lemma parse_digits_app w acc s n :
  parse_digits w acc s = Some n -> forall t, parse_digits w acc (s ++ t) = parse_digits w n t.
Proof.
  revert acc. induction s as [|c s IH]; intros acc; simpl; [by intros [= ->]|].
  destruct (is_ascii_digit c); [|done]. destruct (u_max w <? acc * 10 + (c - 48)); [done|]. apply IH.
Qed.
Lemma parse_show_digits w n fuel :
  0 <= n <= u_max w -> n < 2 ^ Z.of_nat fuel ->
  parse_digits w 0 (reverse (digits_rev fuel n)) = Some n.
Proof.
  revert n. induction fuel as [|fuel IH]; intros n Hn Hf; [simpl in *; f_equal; lia|].
  cbn [digits_rev]. rewrite reverse_cons.
  pose proof (Z.div_mod n 10 ltac:(lia)) as Hd. pose proof (Z.mod_pos_bound n 10 ltac:(lia)) as Hm.
  assert (Hdig : forall acc, acc * 10 + n mod 10 <= u_max w ->
    parse_digits w acc [48 + n mod 10] = Some (acc * 10 + n mod 10)).
  { intros acc Ha. simpl. unfold is_ascii_digit. rewrite !(proj2 (Z.leb_le _ _)) by lia. simpl.
    replace (48 + n mod 10 - 48) with (n mod 10) by lia. by rewrite (proj2 (Z.ltb_ge _ _)) by lia. }
  destruct (Z.ltb_spec n 10) as [Hlt|Hge].
  - rewrite reverse_nil. simpl app. assert (n / 10 = 0) by (apply Z.div_small; lia).
    rewrite Hdig by lia. f_equal. lia.
  - assert (0 < n / 10) by (apply Z.div_str_pos; lia).
    assert (n / 10 < 2 ^ Z.of_nat fuel).
    { apply Z.div_lt_upper_bound; [lia|]. rewrite Nat2Z.inj_succ, Z.pow_succ_r in Hf by lia. lia. }
    rewrite (parse_digits_app _ _ _ (n / 10)) by (apply IH; lia). rewrite Hdig by lia. f_equal. lia.
Qed.
Lemma parse_show w n : 0 <= n <= u_max w -> parse_uint w (show_uint n) = Some n.
Proof.
  intros Hn. assert (H : parse_digits w 0 (show_uint n) = Some n).
  { apply parse_show_digits; [done|]. rewrite Nat2Z.inj_succ, Z2Nat.id by apply Z.log2_nonneg.
    destruct (decide (n = 0)) as [->|]; [done|]. apply Z.log2_spec. lia. }
  unfold parse_uint. destruct (show_uint n) as [|c s] eqn:Hs.
  - unfold show_uint in Hs. apply (f_equal length) in Hs. by rewrite length_reverse in Hs.
  - assert (Hc : c <> 43).
    { by intros ->. }
    unfold strip_plus. by rewrite (proj2 (Z.eqb_neq _ _)).
Qed.
(** A parsed integer is in range. *)
Lemma parse_digits_range w acc s n : 0 <= acc <= u_max w -> parse_digits w acc s = Some n -> 0 <= n <= u_max w.
Proof.
  revert acc. induction s as [|c s IH]; intros acc Ha; simpl; [by intros [= <-]|].
  unfold is_ascii_digit. destruct (Z.leb_spec 48 c); [|done]. destruct (Z.leb_spec c 57); [|done]. simpl.
  destruct (Z.ltb_spec (u_max w) (acc * 10 + (c - 48))); [done|]. apply IH. lia.
Qed.
Lemma parse_uint_range w s n : 0 <= w -> parse_uint w s = Some n -> 0 <= n <= u_max w.
Proof.
  intros Hw. unfold parse_uint. set (t := strip_plus s).
  assert (0 <= u_max w) by (unfold u_max; pose proof (Z.pow_pos_nonneg 2 w); lia).
  destruct t; [done|]. apply parse_digits_range. lia.
Qed.

(** ** Lists of printed integers *)

Lemma show_uint_digits n : 0 <= n -> Forall (fun c => 48 <= c <= 57) (show_uint n).
Proof.
  intros Hn. unfold show_uint. rewrite Forall_reverse. generalize (S (Z.to_nat (Z.log2 n))) as fuel. intros fuel. revert n Hn.
  induction fuel as [|fuel IH]; intros n Hn; simpl; [done|].
  pose proof (Z.mod_pos_bound n 10). constructor; [lia|].
  destruct (n <? 10); [done|]. apply IH. apply Z.div_pos; lia.
Qed.
Lemma show_uint_inj w n m : 0 <= n <= u_max w -> 0 <= m <= u_max w -> show_uint n = show_uint m -> n = m.
Proof. intros Hn Hm H. apply (parse_show w) in Hn. apply (parse_show w) in Hm. congruence. Qed.

Lemma drop_while_none p s : Forall (fun c => p c = false) s -> drop_while p s = s.
Proof. destruct 1 as [|c s Hc _]; simpl; [done|]. by rewrite Hc. Qed.
Lemma trim_none s : Forall (fun c => is_whitespace c = false) s -> trim s = s.
Proof.
  intros H. unfold trim, trim_start, trim_end. rewrite (drop_while_none _ s) by done.
  rewrite drop_while_none by (by rewrite Forall_reverse). apply reverse_involutive.
Qed.
Lemma digits_trim s : Forall (fun c => 48 <= c <= 57) s -> trim s = s.
Proof.
  intros H. apply trim_none. eapply Forall_impl; [exact H|]. intros c Hc. simpl in Hc.
  unfold is_whitespace. repeat apply orb_false_intro; lia.
Qed.

Lemma split_on_app sep p s :
  Forall (fun c => c <> sep) p -> split_on sep (p ++ sep :: s) = p :: split_on sep s.
Proof.
  induction 1 as [|c p Hc _ IH]; simpl; [by rewrite Z.eqb_refl|].
  rewrite (proj2 (Z.eqb_neq _ _)) by done. by rewrite IH.
Qed.
Lemma split_on_none sep p : Forall (fun c => c <> sep) p -> split_on sep p = [p].
Proof.
  induction 1 as [|c p Hc _ IH]; simpl; [done|]. rewrite (proj2 (Z.eqb_neq _ _)) by done. by rewrite IH.
Qed.
Lemma join_split_on sep l :
  l <> [] -> Forall (Forall (fun c => c <> sep)) l -> split_on sep (join sep l) = l.
Proof.
  intros Hne H. induction H as [|p l Hp H IH]; [done|]. destruct l as [|q l]; [by apply split_on_none|].
  simpl. rewrite split_on_app by done. f_equal. by apply IH.
Qed.
