(* ===== verification/Utf8.v ===== *)
(** Byte strings: little-endian integers ([from_le_bytes]) and UTF-8
    ([char::encode_utf8], [String::from_utf8_lossy]).

    A byte is a [Z] below 256. *)
From S2P Require Import Prelude RustStr.
Local Open Scope Z_scope.

Definition is_byte (b : Z) : Prop := 0 <= b < 256.

(** ** Little-endian integers *)

Fixpoint from_le (bs : list Z) : Z := match bs with [] => 0 | b :: bs => b + 256 * from_le bs end.
Fixpoint to_le (n : nat) (x : Z) : list Z :=
  match n with O => [] | S n => x mod 256 :: to_le n (x / 256) end.

Lemma to_le_length n x : length (to_le n x) = n.
Proof. revert x. induction n as [|n IH]; intros x; simpl; [done|]. by rewrite IH. Qed.
Lemma to_le_bytes n x : Forall is_byte (to_le n x).
Proof.
  revert x. induction n as [|n IH]; intros x; simpl; constructor; [|done].
  apply Z.mod_pos_bound. lia.
Qed.
Lemma from_to_le n x : from_le (to_le n x) = x mod 256 ^ Z.of_nat n.
Proof.
  revert x. induction n as [|n IH]; intros x; cbn [to_le from_le]; [by rewrite Z.mod_1_r|].
  rewrite IH, Nat2Z.inj_succ, Z.pow_succ_r by lia.
  rewrite Z.rem_mul_r by (try lia; apply Z.pow_nonzero; lia). lia.
Qed.
Lemma from_le_bound bs : Forall is_byte bs -> 0 <= from_le bs < 256 ^ Z.of_nat (length bs).
Proof.
  induction 1 as [|b bs Hb H IH]; cbn [from_le length]; [simpl; lia|].
  rewrite Nat2Z.inj_succ, Z.pow_succ_r by lia. unfold is_byte in Hb. lia.
Qed.

(** ** UTF-8 *)

(** A [char]: a Unicode scalar value. *)
Definition is_char (c : Z) : Prop := 0 <= c < 55296 \/ 57344 <= c < 1114112.
Definition utf8_char (c : Z) : list Z :=
  if c <? 128 then [c]
  else if c <? 2048 then [192 + c / 64; 128 + c mod 64]
  else if c <? 65536 then [224 + c / 4096; 128 + c / 64 mod 64; 128 + c mod 64]
  else [240 + c / 262144; 128 + c / 4096 mod 64; 128 + c / 64 mod 64; 128 + c mod 64].
Definition utf8 (s : str) : list Z := s ≫= utf8_char.
Lemma utf8_cons c s : utf8 (c :: s) = utf8_char c ++ utf8 s.
Proof. done. Qed.
(** A character takes at least one byte. *)
Lemma utf8_length s : (length s <= length (utf8 s))%nat.
Proof.
  induction s as [|c s IH]; [done|]. rewrite utf8_cons, length_app. cbn [length]. assert (H1 : (1 <= length (utf8_char c))%nat); [|lia].
  unfold utf8_char. destruct (c <? 128); [|destruct (c <? 2048); [|destruct (c <? 65536)]]; cbn; lia.
Qed.

Definition cont (b : Z) : bool := (128 <=? b) && (b <=? 191).
(** The range of a sequence's second byte, by its first. *)
Definition second_ok (b0 b1 : Z) : bool :=
  if b0 =? 224 then (160 <=? b1) && (b1 <=? 191)
  else if b0 =? 237 then (128 <=? b1) && (b1 <=? 159)
  else if b0 =? 240 then (144 <=? b1) && (b1 <=? 191)
  else if b0 =? 244 then (128 <=? b1) && (b1 <=? 143)
  else cont b1.
(** U+FFFD, for each maximal invalid prefix of a sequence. *)
Definition replacement : Z := 65533.
(** The character that starts with byte [b0], and the bytes after it. *)
Definition lossy_char (b0 : Z) (l : list Z) : Z * list Z :=
  if b0 <? 128 then (b0, l)
  else if (194 <=? b0) && (b0 <=? 223) then
    match l with
    | b1 :: r => if cont b1 then ((b0 - 192) * 64 + (b1 - 128), r) else (replacement, l)
    | [] => (replacement, [])
    end
  else if (224 <=? b0) && (b0 <=? 239) then
    match l with
    | b1 :: r1 =>
        if second_ok b0 b1 then
          match r1 with
          | b2 :: r2 =>
              if cont b2 then ((b0 - 224) * 4096 + (b1 - 128) * 64 + (b2 - 128), r2) else (replacement, r1)
          | [] => (replacement, [])
          end
        else (replacement, l)
    | [] => (replacement, [])
    end
  else if (240 <=? b0) && (b0 <=? 244) then
    match l with
    | b1 :: r1 =>
        if second_ok b0 b1 then
          match r1 with
          | b2 :: r2 =>
              if cont b2 then
                match r2 with
                | b3 :: r3 =>
                    if cont b3
                    then ((b0 - 240) * 262144 + (b1 - 128) * 4096 + (b2 - 128) * 64 + (b3 - 128), r3)
                    else (replacement, r2)
                | [] => (replacement, [])
                end
              else (replacement, r1)
          | [] => (replacement, [])
          end
        else (replacement, l)
    | [] => (replacement, [])
    end
  else (replacement, l).
Fixpoint lossy_fuel (fuel : nat) (bs : list Z) : str :=
  match fuel, bs with
  | S fuel, b :: bs => let '(c, rest) := lossy_char b bs in c :: lossy_fuel fuel rest
  | _, _ => []
  end.
(** One step per byte is enough: every step consumes its first byte. *)
Definition from_utf8_lossy (bs : list Z) : str := lossy_fuel (length bs) bs.

Lemma lossy_char_shorter b l : (length (lossy_char b l).2 <= length l)%nat.
Proof.
  unfold lossy_char. repeat (case_match; simpl; try lia).
Qed.
Lemma lossy_fuel_enough n bs : (length bs <= n)%nat -> lossy_fuel n bs = from_utf8_lossy bs.
Proof.
  unfold from_utf8_lossy. revert bs.
  assert (H : forall k n m bs, (length bs <= k)%nat -> (length bs <= n)%nat -> (length bs <= m)%nat ->
    lossy_fuel n bs = lossy_fuel m bs).
  { clear. intros k. induction k as [|k IH]; intros n m [|b bs] Hk Hn Hm; simpl in *; try lia; try by destruct n, m.
    destruct n as [|n], m as [|m]; try lia. simpl. pose proof (lossy_char_shorter b bs) as Hs.
    destruct (lossy_char b bs) as [c rest]. simpl in Hs. f_equal. apply IH; lia. }
  intros bs Hn. apply (H (length bs)); lia.
Qed.

Ltac leb_true := repeat (rewrite (proj2 (Z.leb_le _ _)) by lia).
Lemma lossy_utf8_char c rest :
  is_char c -> exists b l, utf8_char c = b :: l /\ lossy_char b (l ++ rest) = (c, rest).
Proof.
  intros Hc. unfold is_char in Hc. unfold utf8_char.
  pose proof (Z.div_mod c 64 ltac:(lia)) as H6. pose proof (Z.mod_pos_bound c 64 ltac:(lia)) as B6.
  pose proof (Z.div_mod (c / 64) 64 ltac:(lia)) as H12. pose proof (Z.mod_pos_bound (c / 64) 64 ltac:(lia)) as B12.
  pose proof (Z.div_mod (c / 4096) 64 ltac:(lia)) as H18. pose proof (Z.mod_pos_bound (c / 4096) 64 ltac:(lia)) as B18.
  assert (E12 : c / 64 / 64 = c / 4096) by (rewrite Z.div_div by lia; f_equal; lia).
  assert (E18 : c / 4096 / 64 = c / 262144) by (rewrite Z.div_div by lia; f_equal; lia).
  assert (0 <= c / 262144) by (apply Z.div_pos; lia).
  destruct (Z.ltb_spec c 128).
  { eexists _, _. split; [done|]. unfold lossy_char. by rewrite (proj2 (Z.ltb_lt _ _)). }
  unfold lossy_char, second_ok, cont. destruct (Z.ltb_spec c 2048); [|destruct (Z.ltb_spec c 65536)];
    eexists _, _; (split; [done|]); cbn [app].
  - rewrite (proj2 (Z.ltb_ge _ _)) by lia. leb_true. cbn [andb]. f_equal. lia.
  - rewrite (proj2 (Z.ltb_ge _ _)) by lia.
    rewrite (proj2 (Z.leb_gt (224 + c / 4096) 223)) by lia. leb_true. cbn [andb].
    destruct (Z.eqb_spec (224 + c / 4096) 224); [|destruct (Z.eqb_spec (224 + c / 4096) 237)];
      leb_true; cbn [andb].
    + f_equal. lia.
    + f_equal. lia.
    + rewrite (proj2 (Z.eqb_neq _ 240)) by lia. rewrite (proj2 (Z.eqb_neq _ 244)) by lia. leb_true. cbn [andb].
      f_equal. lia.
  - rewrite (proj2 (Z.ltb_ge _ _)) by lia.
    rewrite (proj2 (Z.leb_gt (240 + c / 262144) 223)) by lia.
    rewrite (proj2 (Z.leb_gt (240 + c / 262144) 239)) by lia. leb_true. cbn [andb].
    rewrite (proj2 (Z.eqb_neq _ 224)) by lia. rewrite (proj2 (Z.eqb_neq _ 237)) by lia.
    destruct (Z.eqb_spec (240 + c / 262144) 240); [|destruct (Z.eqb_spec (240 + c / 262144) 244)];
      leb_true; cbn [andb]; f_equal; lia.
Qed.
Lemma from_utf8_app s rest :
  Forall is_char s -> from_utf8_lossy (utf8 s ++ rest) = s ++ from_utf8_lossy rest.
Proof.
  induction 1 as [|c s Hc H IH]; [done|]. rewrite utf8_cons, <-app_assoc.
  destruct (lossy_utf8_char c (utf8 s ++ rest) Hc) as (b & l & Hb & Hl). rewrite Hb.
  unfold from_utf8_lossy at 1. cbn [app length lossy_fuel]. rewrite Hl. f_equal.
  rewrite <-IH. apply lossy_fuel_enough. rewrite (length_app l). lia.
Qed.
(** Decoding what was encoded gives the string back. *)
Lemma from_utf8_utf8 s : Forall is_char s -> from_utf8_lossy (utf8 s) = s.
Proof. intros H. pose proof (from_utf8_app s [] H) as E. rewrite !app_nil_r in E. exact E. Qed.
Lemma utf8_app s t : utf8 (s ++ t) = utf8 s ++ utf8 t.
Proof. unfold utf8. by rewrite bind_app. Qed.
Lemma utf8_bytes s : Forall is_char s -> Forall is_byte (utf8 s).
Proof.
  induction 1 as [|c s Hc H IH]; [done|]. rewrite utf8_cons. apply Forall_app. split; [|exact IH].
  unfold is_char in Hc. unfold utf8_char, is_byte.
  pose proof (Z.mod_pos_bound c 64 ltac:(lia)). pose proof (Z.mod_pos_bound (c / 64) 64 ltac:(lia)).
  pose proof (Z.mod_pos_bound (c / 4096) 64 ltac:(lia)).
  pose proof (Z.div_mod c 64 ltac:(lia)). pose proof (Z.div_mod c 4096 ltac:(lia)).
  pose proof (Z.div_mod c 262144 ltac:(lia)). pose proof (Z.mod_pos_bound c 4096 ltac:(lia)).
  pose proof (Z.mod_pos_bound c 262144 ltac:(lia)).
  destruct (Z.ltb_spec c 128); [repeat constructor; lia|].
  destruct (Z.ltb_spec c 2048); [repeat constructor; lia|].
  destruct (Z.ltb_spec c 65536); repeat constructor; lia.
Qed.
