(* ===== verification/Pp.v ===== *)
(** Pipeline-parallel stage placement: [memra-engine/src/pp.rs].

    The environment is a function from variable names to values; [None] is
    [Err] of [std::env::var].  A stage map is the fence
    [[0, c1, .., c(N-1), n_layers]]. *)
From S2P Require Import Prelude RustStr.
Local Open Scope nat_scope.

Definition env : Type := string -> option str.
Definition env_is (e : env) (name : string) (v : string) : bool :=
  match e name with Some s => str_eqb s (lit v) | None => false end.
Definition parse_usize (s : str) : option nat := Z.to_nat <$> parse_uint 64 s.

(** [slice::binary_search] on a strictly increasing slice: [inl k] is [Ok(k)],
    [inr k] the insertion point. *)
Fixpoint binary_search_from (k : nat) (l : list nat) (x : nat) : nat + nat :=
  match l with
  | [] => inr k
  | y :: l => if x =? y then inl k else if x <? y then inr k else binary_search_from (S k) l x
  end.
Definition binary_search (l : list nat) (x : nat) : nat + nat := binary_search_from 0 l x.

(** ** The door *)

Fixpoint parse_all (l : list str) : option (list nat) :=
  match l with
  | [] => Some []
  | p :: l => n ← parse_usize (trim p); ns ← parse_all l; Some (n :: ns)
  end.
Definition even_cuts (n_layers n_st : nat) : list nat :=
  (fun s => s * n_layers / n_st) <$> seq 1 (n_st - 1).
(** The cuts between the stages; [None] is a warning and a shut door. *)
Definition cuts_of (e : env) (n_layers n_st : nat) : option (list nat) :=
  match e "MEMRA_PP_SPLITS" with
  | Some s =>
      cuts ← parse_all (split_on 44 s);
      if length cuts =? n_st - 1 then Some cuts else None
  | None =>
      match e "MEMRA_PP_SPLIT" with
      | Some v => if negb (n_st =? 2) then None else c ← parse_usize v; Some [c]
      | None => Some (even_cuts n_layers n_st)
      end
  end.
Fixpoint increasing (l : list nat) : bool :=
  match l with
  | a :: (b :: _) as l' => (a <? b) && increasing l'
  | _ => true
  end.
Definition pp_cuts (e : env) (n_layers : nat) : option (list nat) :=
  v ← e "MEMRA_PP_STAGES";
  if str_eqb v [] || str_eqb v (lit "0") || str_eqb v (lit "1") then None else
  n_st ← parse_usize v;
  if (n_st <? 2) || (n_layers <? n_st) then None else
  cuts ← cuts_of e n_layers n_st;
  let fence := 0 :: cuts ++ [n_layers] in
  if increasing fence then Some fence else None.

Definition pp2_split (e : env) (n_layers : nat) : option nat :=
  f ← pp_cuts e n_layers;
  if length f =? 3 then f !! 1 else None.

(** [fence[1..len - 1]] *)
Definition inner (fence : list nat) : list nat := take (length fence - 2) (drop 1 fence).
Definition stage_of (fence : list nat) (il : nat) : nat :=
  match binary_search (inner fence) il with inl k => k + 1 | inr k => k end.

Definition pp2_streams_off (e : env) : bool := env_is e "MEMRA_PP_STREAMS" "0".
Definition pp_shard_off (e : env) : bool := env_is e "MEMRA_PP_SHARD" "0".
Definition pp2_overlap (e : env) : bool := env_is e "MEMRA_PP_OVERLAP" "1".
Definition batch_pp_on (e : env) : bool := negb (env_is e "MEMRA_BATCH_PP" "0").
Definition prime_pp_on (e : env) : bool := negb (env_is e "MEMRA_PRIME_PP" "0").
Definition spec_pp_on (e : env) : bool := negb (env_is e "MEMRA_SPEC_PP" "0").
Definition pp2_devices_env (e : env) : option str :=
  s ← e "MEMRA_PP_DEVICES"; if str_eqb s [] then None else Some s.

Definition stages_open (e : env) : bool :=
  match v ← e "MEMRA_PP_STAGES"; parse_usize v with Some n => 2 <=? n | None => false end.
(** [sort_unstable] then [dedup]: the distinct names. *)
Definition device_names (s : str) : list str := map trim (split_on 44 s).
Definition pp_multi_stream_same_device (e : env) : bool :=
  let devices := pp2_devices_env e in
  if (negb (stages_open e) && bool_decide (devices = None)) || pp2_streams_off e then false else
  match devices with
  | None => true
  | Some s => length (remove_dups (device_names s)) <? length (device_names s)
  end.
Definition pp_sharded_cross_device (e : env) : bool :=
  if negb (stages_open e) || pp_shard_off e || pp2_streams_off e then false else
  match pp2_devices_env e with
  | None => false
  | Some s => 2 <=? length (remove_dups (device_names s))
  end.
(** [true] is [Ok]. *)
Definition refuse_unsplit_if_remote (e : env) : bool :=
  negb (pp_sharded_cross_device e && negb (env_is e "MEMRA_PP_ALLOW_UNSPLIT_BATCH" "1")).

(** ** The runtime's stages

    [PpNRt::build], up to the CUDA calls: the device of each stage and which
    stages own an engine; [None] is an error. *)
Record StageRt := mkStage { dev : nat; own_engine : bool }.
Record PpNRt := mkRt { stages : list StageRt; cross : list bool; cross_any : bool }.

Definition stage_devices (e : env) (primary : nat) : option (list nat) :=
  devices ← match pp2_devices_env e with
            | Some s => v ← parse_all (split_on 44 s); if 2 <=? length v then Some v else None
            | None =>
                let n := match v ← e "MEMRA_PP_STAGES"; parse_usize v with
                         | Some n => if 2 <=? n then n else 2
                         | None => 2
                         end in
                Some (replicate n primary)
            end;
  match v ← e "MEMRA_PP_STAGES"; parse_usize v with
  | Some n => if (2 <=? n) && negb (n =? length devices) then None else Some devices
  | None => Some devices
  end.
Definition mk_stage (primary s d : nat) : StageRt :=
  mkStage d (negb ((d =? primary) && (s =? 0))).
Fixpoint crossings (l : list nat) : list bool :=
  match l with
  | a :: (b :: _) as l' => negb (a =? b) :: crossings l'
  | _ => []
  end.
(** [present] is the number of CUDA devices. *)
Definition build (e : env) (primary present : nat) : option PpNRt :=
  devices ← stage_devices e primary;
  let used := remove_dups (devices ++ [primary]) in
  if (1 <? length used) && existsb (fun d => present <=? d) used then None else
  Some (mkRt (imap (mk_stage primary) devices) (crossings devices)
    (match devices with d :: ds => existsb (fun x => negb (x =? d)) ds | [] => false end)).

(** The engine a stage's work runs on: its own, or the primary's. *)
Inductive EngineId := PrimaryEngine | StageEngine (s : nat).
Definition engine (rt : PpNRt) (s : nat) : option EngineId :=
  st ← stages rt !! s; Some (if own_engine st then StageEngine s else PrimaryEngine).
Definition n_stages (rt : PpNRt) : nat := length (stages rt).

(** The engine that loads layer [il]'s weights; [None] is an error. *)
Definition layer_engine (e : env) (rt : option PpNRt) (n_trunk il : nat) : option EngineId :=
  if pp_shard_off e || bool_decide (pp2_devices_env e = None) || pp2_streams_off e
  then Some PrimaryEngine else
  match pp_cuts e n_trunk with
  | None => Some PrimaryEngine
  | Some fence =>
      rt ← rt;
      engine rt (stage_of fence (Nat.min il (n_trunk - 1)))
  end.

(** ** The stage map *)

Definition fence_ok (fence : list nat) (n_layers : nat) : Prop :=
  2 <= length fence /\ fence !! 0 = Some 0 /\ last fence = Some n_layers /\
  forall i a b, fence !! i = Some a -> fence !! S i = Some b -> a < b.

Lemma increasing_spec l :
  increasing l = true <-> forall i a b, l !! i = Some a -> l !! S i = Some b -> a < b.
Proof.
  induction l as [|a l IH]; simpl; [done|]. destruct l as [|b l].
  { split; [|done]. intros _ [|i] x y; simpl; done. }
  rewrite andb_true_iff, Nat.ltb_lt, IH. split.
  - intros [Hab H] [|i] x y; simpl; [by intros [= <-] [= <-]|by apply H].
  - intros H. split; [by apply (H 0)|]. intros i. apply (H (S i)).
Qed.
Lemma increasing_lt l i j a b :
  increasing l = true -> l !! i = Some a -> l !! j = Some b -> i < j -> a < b.
Proof.
  intros H Ha Hb Hij. rewrite increasing_spec in H.
  revert b Hb. induction Hij as [|j Hij IH]; intros b Hb; [by eapply H|].
  destruct (lookup_lt_is_Some_2 l j) as [m Hm].
  { apply lookup_lt_Some in Hb. lia. }
  specialize (IH m Hm). specialize (H j m b Hm Hb). lia.
Qed.

(** What a binary search on an increasing list finds. *)
Lemma binary_search_from_spec k l x :
  increasing l = true ->
  match binary_search_from k l x with
  | inl j => k <= j /\ l !! (j - k) = Some x
  | inr j => k <= j <= k + length l /\
      (forall i y, i < j - k -> l !! i = Some y -> y < x) /\
      (forall i y, j - k <= i -> l !! i = Some y -> x < y)
  end.
Proof.
  revert k. induction l as [|y l IH]; intros k H; simpl.
  { split; [lia|]. split; [intros; lia|done]. }
  assert (Hl : increasing l = true).
  { destruct l; [done|]. simpl in H. by apply andb_true_iff in H as [_ H]. }
  destruct (Nat.eqb_spec x y) as [->|Hne].
  { split; [lia|]. by rewrite Nat.sub_diag. }
  destruct (Nat.ltb_spec x y) as [Hlt|Hge].
  - split; [lia|]. split; [intros; lia|]. intros i z _ Hz. destruct i as [|i]; [by injection Hz as <-|].
    pose proof (increasing_lt _ 0 (S i) y z H eq_refl Hz ltac:(lia)). lia.
  - specialize (IH (S k) Hl). destruct (binary_search_from (S k) l x) as [j|j].
    + destruct IH as [Hj Hx]. split; [lia|]. replace (j - k) with (S (j - S k)) by lia. done.
    + destruct IH as (Hj & Hlo & Hhi). split; [lia|]. split.
      * intros [|i] z Hi Hz; [injection Hz as <-; lia|]. apply (Hlo i); [lia|done].
      * intros [|i] z Hi Hz; [lia|]. apply (Hhi i); [lia|done].
Qed.

Lemma inner_lookup fence i : i < length fence - 2 -> inner fence !! i = fence !! S i.
Proof. intros Hi. unfold inner. rewrite lookup_take_lt by done. by rewrite lookup_drop. Qed.
Lemma inner_length fence : length (inner fence) = length fence - 2.
Proof. unfold inner. rewrite length_take, length_drop. lia. Qed.
Lemma inner_increasing fence : increasing fence = true -> increasing (inner fence) = true.
Proof.
  intros H. apply increasing_spec. intros i a b Ha Hb.
  assert (S i < length (inner fence)) by (by eapply lookup_lt_Some). rewrite inner_length in *.
  rewrite inner_lookup in Ha by lia. rewrite inner_lookup in Hb by lia.
  apply (increasing_lt fence (S i) (S (S i)) a b H Ha Hb). lia.
Qed.

(** The stage of a layer is the one whose range holds it; layers at or past the
    end of the fence go to the last stage. *)
Lemma stage_of_spec fence n il :
  increasing fence = true -> 2 <= length fence -> fence !! 0 = Some 0 -> last fence = Some n ->
  let s := stage_of fence il in
  s < length fence - 1 /\
  (forall a, fence !! s = Some a -> a <= il) /\
  (il < n -> forall b, fence !! S s = Some b -> il < b) /\
  (n <= il -> s = length fence - 2).
Proof.
  intros H Hlen H0 Hlast s. subst s. unfold stage_of, binary_search.
  pose proof (binary_search_from_spec 0 (inner fence) il (inner_increasing _ H)) as Hb.
  assert (Hn : fence !! (length fence - 1) = Some n).
  { rewrite last_lookup in Hlast. by rewrite <-Hlast; f_equal; lia. }
  destruct (binary_search_from 0 (inner fence) il) as [k|k].
  - destruct Hb as [_ Hk]. rewrite Nat.sub_0_r in Hk.
    assert (Hlt : k < length (inner fence)) by (by eapply lookup_lt_Some). rewrite inner_length in Hlt.
    rewrite inner_lookup in Hk by done. rewrite Nat.add_1_r. split; [lia|]. split; [|split].
    + intros a Ha. assert (a = il) by congruence. lia.
    + intros _ b Hb. apply (increasing_lt fence (S k) (S (S k)) il b H Hk Hb). lia.
    + intros Hge. pose proof (increasing_lt fence (S k) (length fence - 1) il n H Hk Hn ltac:(lia)). lia.
  - destruct Hb as (Hk & Hlo & Hhi). rewrite inner_length in Hk. rewrite Nat.sub_0_r in Hlo, Hhi.
    split; [lia|]. split; [|split].
    + intros a Ha. destruct k as [|k]; [rewrite H0 in Ha; injection Ha as <-; lia|].
      assert (a < il); [|lia]. apply (Hlo k); [lia|]. rewrite inner_lookup by lia. done.
    + intros Hil b Hb. destruct (decide (k < length fence - 2)) as [Hlt|Hge].
      * apply (Hhi k); [done|]. by rewrite inner_lookup.
      * replace (S k) with (length fence - 1) in Hb by lia. congruence.
    + intros Hge. destruct (decide (k < length fence - 2)) as [Hlt|]; [|lia].
      destruct (lookup_lt_is_Some_2 fence (S k)) as [c Hc]; [lia|].
      assert (il < c) by (apply (Hhi k); [done|by rewrite inner_lookup]).
      pose proof (increasing_lt fence (S k) (length fence - 1) c n H Hc Hn ltac:(lia)). lia.
Qed.

#[local] Arguments increasing : simpl never.

Lemma pp_cuts_fence e n fence :
  pp_cuts e n = Some fence ->
  increasing fence = true /\ 3 <= length fence /\ fence !! 0 = Some 0 /\ last fence = Some n.
Proof.
  unfold pp_cuts. destruct (e "MEMRA_PP_STAGES") as [v|]; simpl; [|done].
  destruct (_ || _); [done|]. destruct (parse_usize v) as [n_st|]; simpl; [|done].
  destruct (Nat.ltb_spec n_st 2); [done|]. destruct (n <? n_st); [done|]. simpl.
  destruct (cuts_of e n n_st) as [cuts|] eqn:Hc; simpl; [|done].
  destruct (increasing (0 :: cuts ++ [n])) eqn:Hi; [|done]. intros [= <-]. split; [done|].
  assert (Hlen : length cuts = n_st - 1).
  { revert Hc. unfold cuts_of. destruct (e "MEMRA_PP_SPLITS") as [s|].
    - destruct (parse_all _) as [cs|]; simpl; [|done].
      destruct (Nat.eqb_spec (length cs) (n_st - 1)); [|done]. by intros [= <-].
    - destruct (e "MEMRA_PP_SPLIT") as [w|].
      + destruct (Nat.eqb_spec n_st 2) as [->|]; simpl; [|done].
        destruct (parse_usize w); simpl; [|done]. by intros [= <-].
      + intros [= <-]. unfold even_cuts. by rewrite length_fmap, length_seq. }
  split; [simpl; rewrite length_app; simpl; lia|]. split; [done|].
  change (0 :: cuts ++ [n]) with ((0 :: cuts) ++ [n]). apply last_snoc.
Qed.

Lemma fence_below fence n s b :
  increasing fence = true -> last fence = Some n -> fence !! s = Some b -> b <= n.
Proof.
  intros Hi Hl Hb. pose proof (lookup_lt_Some _ _ _ Hb) as Hlt.
  assert (Hn : fence !! (length fence - 1) = Some n).
  { rewrite last_lookup in Hl. by rewrite <-Hl; f_equal; lia. }
  destruct (decide (s = length fence - 1)) as [->|]; [replace b with n by congruence; done|].
  pose proof (increasing_lt fence s (length fence - 1) b n Hi Hb Hn ltac:(lia)). lia.
Qed.
(** Each layer of the trunk is in the range of one stage only. *)
Lemma stage_of_unique e n fence il s a b :
  pp_cuts e n = Some fence -> fence !! s = Some a -> fence !! S s = Some b -> a <= il < b ->
  il < n /\ stage_of fence il = s.
Proof.
  intros Hf Ha Hb [Hal Hbl]. destruct (pp_cuts_fence _ _ _ Hf) as (Hi & Hlen & H0 & Hl).
  pose proof (fence_below _ _ _ _ Hi Hl Hb) as Hbn. split; [lia|].
  destruct (stage_of_spec fence n il Hi ltac:(lia) H0 Hl) as (Hs & Hlo & Hhi & _).
  set (t := stage_of fence il) in *.
  destruct (lookup_lt_is_Some_2 fence t) as [at' Hat]; [lia|].
  destruct (lookup_lt_is_Some_2 fence (S t)) as [bt Hbt]; [lia|].
  specialize (Hlo _ Hat). specialize (Hhi ltac:(lia) _ Hbt).
  destruct (Nat.lt_trichotomy t s) as [Hlt|[?|Hlt]]; [|done|].
  - destruct (decide (S t = s)) as [<-|]; [|pose proof (increasing_lt fence (S t) s bt a Hi Hbt Ha ltac:(lia)); lia].
    assert (bt = a) by congruence. lia.
  - destruct (decide (S s = t)) as [<-|]; [|pose proof (increasing_lt fence (S s) t b at' Hi Hb Hat ltac:(lia)); lia].
    assert (b = at') by congruence. lia.
Qed.

(** C9. An open door's stage map is a partition of the layers: at least two
    stages, none empty, and layer [il] belongs to stage [s] exactly when it lies
    in that stage's half-open range. *)
Theorem pp_stages_partition (e : env) (n : nat) (fence : list nat) :
  pp_cuts e n = Some fence ->
  3 <= length fence /\ (forall s a b, fence !! s = Some a -> fence !! S s = Some b -> a < b) /\
  forall il, il < n -> stage_of fence il < length fence - 1 /\
    forall s a b, fence !! s = Some a -> fence !! S s = Some b -> stage_of fence il = s <-> a <= il < b.
Proof.
  intros Hf. destruct (pp_cuts_fence _ _ _ Hf) as (Hi & Hlen & H0 & Hl).
  split; [done|]. split; [intros; by eapply increasing_spec|]. intros il Hil.
  destruct (stage_of_spec fence n il Hi ltac:(lia) H0 Hl) as (Hs & Hlo & Hhi & _). split; [done|].
  intros s a b Ha Hb. split.
  - intros <-. split; [by apply Hlo|by apply Hhi].
  - intros Hab. by eapply stage_of_unique.
Qed.

Lemma even_cut_step n_layers n_st s :
  2 <= n_st <= n_layers -> s * n_layers / n_st < S s * n_layers / n_st.
Proof.
  intros H. apply Nat.lt_le_trans with (S (s * n_layers / n_st)); [lia|].
  replace (S (s * n_layers / n_st)) with ((s * n_layers + 1 * n_st) / n_st).
  - apply Nat.Div0.div_le_mono. lia.
  - rewrite Nat.div_add by lia. lia.
Qed.

(** Without explicit cuts the door opens for every stage count from two to
    the number of layers, and the even split gives each stage the rounded-down
    share of the layers or one more. *)
Theorem pp_even_split (e : env) (n n_st : nat) :
  (v ← e "MEMRA_PP_STAGES"; parse_usize v) = Some n_st -> e "MEMRA_PP_SPLITS" = None ->
  e "MEMRA_PP_SPLIT" = None -> 2 <= n_st <= n ->
  exists fence, pp_cuts e n = Some fence /\ length fence = n_st + 1 /\
    forall s a b, fence !! s = Some a -> fence !! S s = Some b -> n / n_st <= b - a <= n / n_st + 1.
Proof.
  intros Hst Hs1 Hs2 Hn. unfold pp_cuts, cuts_of. rewrite Hs1, Hs2.
  destruct (e "MEMRA_PP_STAGES") as [v|]; simpl in *; [|done].
  assert (Hne : str_eqb v [] || str_eqb v (lit "0") || str_eqb v (lit "1") = false).
  { unfold str_eqb. rewrite !bool_decide_eq_false_2; [done|..];
      intros ->; vm_compute in Hst; first [discriminate Hst|injection Hst as <-; lia]. }
  rewrite Hne, Hst. simpl. rewrite (proj2 (Nat.ltb_ge n_st 2)), (proj2 (Nat.ltb_ge n n_st)) by lia. simpl.
  set (fence := 0 :: even_cuts n n_st ++ [n]).
  assert (Hlen : length fence = n_st + 1).
  { unfold fence, even_cuts. simpl. rewrite length_app, length_fmap, length_seq. simpl. lia. }
  assert (Hget : forall s, s <= n_st -> fence !! s = Some (s * n / n_st)).
  { intros [|s] Hs; [unfold fence; simpl; by rewrite Nat.Div0.div_0_l|].
    unfold fence, even_cuts. simpl. destruct (decide (s < n_st - 1)) as [Hlt|Hge].
    - rewrite lookup_app_l by (rewrite length_fmap, length_seq; lia).
      rewrite list_lookup_fmap, lookup_seq_lt by lia. simpl. done.
    - assert (s = n_st - 1) as -> by lia.
      rewrite lookup_app_r by (rewrite length_fmap, length_seq; lia).
      rewrite length_fmap, length_seq, Nat.sub_diag. simpl. f_equal.
      replace (n + (n_st - 1) * n) with (n * n_st) by nia. symmetry. apply Nat.div_mul. lia. }
  assert (Hstep : forall s a b, fence !! s = Some a -> fence !! S s = Some b ->
    a = s * n / n_st /\ b = S s * n / n_st).
  { intros s a b Ha Hb. assert (S s < length fence) by (by eapply lookup_lt_Some).
    rewrite Hget in Ha by lia. rewrite Hget in Hb by lia. split; congruence. }
  assert (Hi : increasing fence = true).
  { apply increasing_spec. intros s a b Ha Hb. destruct (Hstep s a b Ha Hb) as [-> ->].
    by apply even_cut_step. }
  rewrite Hi. exists fence. split; [done|]. split; [done|]. intros s a b Ha Hb.
  destruct (Hstep s a b Ha Hb) as [-> ->]. clear -Hn.
  pose proof (Nat.div_mod_eq (s * n) n_st). pose proof (Nat.mod_upper_bound (s * n) n_st ltac:(lia)).
  pose proof (Nat.div_mod_eq (S s * n) n_st). pose proof (Nat.mod_upper_bound (S s * n) n_st ltac:(lia)).
  pose proof (Nat.div_mod_eq n n_st). pose proof (Nat.mod_upper_bound n n_st ltac:(lia)). nia.
Qed.

(** ** The same-device guard *)

(** A device list as an operator writes it: decimal, comma-separated. *)
Definition show_devices (ds : list nat) : str := join 44 ((fun d => show_uint (Z.of_nat d)) <$> ds).

Lemma show_digits ds : Forall (Forall (fun c => 48 <= c <= 57)%Z) ((fun d => show_uint (Z.of_nat d)) <$> ds).
Proof. apply Forall_fmap, Forall_forall. intros d _. simpl. apply show_uint_digits. lia. Qed.
Lemma show_devices_split ds :
  ds <> [] -> split_on 44 (show_devices ds) = (fun d => show_uint (Z.of_nat d)) <$> ds.
Proof.
  intros Hne. apply join_split_on; [by destruct ds|].
  eapply Forall_impl; [apply show_digits|]. intros s Hs. eapply Forall_impl; [exact Hs|]. simpl. lia.
Qed.
Lemma show_devices_names ds :
  ds <> [] -> device_names (show_devices ds) = (fun d => show_uint (Z.of_nat d)) <$> ds.
Proof.
  intros Hne. unfold device_names. rewrite show_devices_split by done.
  rewrite <-list_fmap_compose. apply list_fmap_ext. intros _ d _. simpl.
  apply digits_trim, show_uint_digits. lia.
Qed.
Lemma show_devices_parse ds :
  Forall (fun d => Z.of_nat d <= u_max 64)%Z ds ->
  parse_all ((fun d => show_uint (Z.of_nat d)) <$> ds) = Some ds.
Proof.
  induction 1 as [|d ds Hd H IH]; [done|]. rewrite fmap_cons. cbn [parse_all]. rewrite digits_trim by (apply show_uint_digits; lia).
  unfold parse_usize. rewrite parse_show by lia. rewrite IH. cbn. by rewrite Nat2Z.id.
Qed.
Lemma remove_dups_short {A} `{EqDecision A} (l : list A) :
  length (remove_dups l) < length l <-> ~ NoDup l.
Proof.
  induction l as [|x l IH]; simpl.
  { split; [lia|]. intros H. destruct H. constructor. }
  rewrite NoDup_cons. assert (Hle : length (remove_dups l) <= length l).
  { clear. induction l as [|x l IH]; simpl; [lia|]. destruct (decide_rel _ _ _); simpl; lia. }
  destruct (decide_rel _ _ _) as [Hin|Hin]; simpl.
  - split; [tauto|]. lia.
  - rewrite <-Nat.succ_lt_mono, IH. tauto.
Qed.

(** When the device list is written in plain decimal, the pipelined arm is
    refused exactly when two stages share a device. *)
Theorem pp_same_device_guard (e : env) (ds : list nat) :
  e "MEMRA_PP_DEVICES" = Some (show_devices ds) -> 2 <= length ds ->
  Forall (fun d => Z.of_nat d <= u_max 64)%Z ds -> pp2_streams_off e = false ->
  (v ← e "MEMRA_PP_STAGES"; parse_usize v) = Some (length ds) ->
  (forall primary, stage_devices e primary = Some ds) /\
  (pp_multi_stream_same_device e = true <-> ~ NoDup ds).
Proof.
  intros He Hlen Hd Hoff Hst. assert (Hne : ds <> []) by (intros ->; simpl in Hlen; lia).
  assert (Hdev : pp2_devices_env e = Some (show_devices ds)).
  { unfold pp2_devices_env. rewrite He. simpl. unfold str_eqb. rewrite bool_decide_eq_false_2; [done|].
    intros Hz. pose proof (show_devices_split ds Hne) as Hs. rewrite Hz in Hs.
    apply (f_equal length) in Hs. rewrite length_fmap in Hs. simpl in Hs. lia. }
  assert (Hlb : (2 <=? length ds) = true) by (by apply Nat.leb_le).
  split.
  - intros primary. unfold stage_devices. rewrite Hdev, show_devices_split, show_devices_parse by done.
    rewrite Hst. cbv [mbind option_bind]. rewrite Hlb, Nat.eqb_refl. done.
  - unfold pp_multi_stream_same_device, stages_open. rewrite Hdev, Hoff, Hst, Hlb.
    simpl. rewrite Nat.ltb_lt, remove_dups_short.
    rewrite show_devices_names by done. split; intros Hn Hnd; apply Hn.
    + apply NoDup_fmap_2_strong; [|done]. intros x y Hx Hy Heq. rewrite Forall_forall in Hd.
      pose proof (Hd x Hx). pose proof (Hd y Hy). apply (show_uint_inj 64) in Heq; lia.
    + by eapply NoDup_fmap_1.
Qed.

(** The names are compared as text: a device spelt twice differently passes the
    guard although both stages run on it. *)
Definition spelt_twice : env := fun name =>
  if (name =? "MEMRA_PP_STAGES")%string then Some (lit "2")
  else if (name =? "MEMRA_PP_DEVICES")%string then Some (lit "0,00") else None.
Example pp_guard_spelling :
  stage_devices spelt_twice 0 = Some [0; 0] /\ pp_multi_stream_same_device spelt_twice = false /\
  pp_sharded_cross_device spelt_twice = true.
Proof. vm_compute. done. Qed.

Definition three_stages : env := fun name =>
  if (name =? "MEMRA_PP_STAGES")%string then Some (lit "3")
  else if (name =? "MEMRA_PP_DEVICES")%string then Some (lit "0,1,0") else None.
Lemma pp_stages_partition_witness :
  pp_cuts three_stages 7 = Some [0; 2; 4; 7] /\
  forall il, il < 7 -> stage_of [0; 2; 4; 7] il < 3 /\
    forall s a b, [0; 2; 4; 7] !! s = Some a -> [0; 2; 4; 7] !! S s = Some b ->
      stage_of [0; 2; 4; 7] il = s <-> a <= il < b.
Proof.
  assert (H : pp_cuts three_stages 7 = Some [0; 2; 4; 7]) by (vm_compute; reflexivity).
  split; [exact H|]. exact (proj2 (proj2 (pp_stages_partition three_stages 7 _ H))).
Defined.
Lemma pp_even_split_witness :
  exists fence, pp_cuts three_stages 7 = Some fence /\ length fence = 4 /\
    forall s a b, fence !! s = Some a -> fence !! S s = Some b -> 2 <= b - a <= 3.
Proof. apply (pp_even_split three_stages 7 3); [vm_compute; reflexivity|done|done|lia]. Defined.
Lemma pp_same_device_guard_witness :
  (forall primary, stage_devices three_stages primary = Some [0; 1; 0]) /\
  (pp_multi_stream_same_device three_stages = true <-> ~ NoDup [0; 1; 0]).
Proof.
  apply (pp_same_device_guard three_stages [0; 1; 0]);
    [vm_compute; reflexivity|simpl; lia|repeat constructor; vm_compute; congruence|done|vm_compute; reflexivity].
Defined.
