(* ===== verification/KvCache.v ===== *)
(** The dual KV / recurrent cache: [memra-kv/src/lib.rs].

    A device buffer is its address, the device that owns it and its contents;
    the K and V planes are written by kernels outside this crate, so only their
    sizes are kept.  The device seam [KvDev] is a class: whether a call
    succeeds and which address an allocation gets are its answers. *)
From S2P Require Import Prelude Effects RustStr Pp.
Local Open Scope nat_scope.

(** ** Formats *)

Inductive KFmt := K_q8_0 | K_fp8.
Inductive VFmt := V_q5_1 | V_q4_0 | V_fp8.
(** [None] is the panic on an unsupported format. *)
Definition kv_cache_formats (e : env) : option (KFmt * VFmt) :=
  k ← match e "MEMRA_KV_K" with
      | None => Some K_q8_0
      | Some s =>
          if str_eqb s (lit "fp8") then Some K_fp8
          else if str_eqb s (lit "q8_0") || str_eqb s [] then Some K_q8_0 else None
      end;
  v ← match e "MEMRA_KV_V" with
      | None => Some V_q5_1
      | Some s =>
          if str_eqb s (lit "q4_0") then Some V_q4_0
          else if str_eqb s (lit "fp8") then Some V_fp8
          else if str_eqb s (lit "q5_1") || str_eqb s [] then Some V_q5_1 else None
      end;
  Some (k, v).
Definition k_blk (k : KFmt) : nat := match k with K_fp8 => 32 | K_q8_0 => 34 end.
Definition v_blk (v : VFmt) : nat := match v with V_q4_0 => 18 | V_fp8 => 32 | V_q5_1 => 24 end.
Definition kv_blk_bytes (e : env) : option (nat * nat) :=
  f ← kv_cache_formats e; Some (k_blk f.1, v_blk f.2).
Definition gkv_on (e : env) : bool :=
  match e "MEMRA_GEMMA_GKV" with Some v => negb (str_eqb v (lit "0")) | None => true end.
Definition wkv_on (e : env) : bool :=
  match e "MEMRA_GEMMA_WKV" with
  | Some v => negb (str_eqb v (lit "0"))
  | None => bool_decide (e "MEMRA_DRAFT" = None)
  end.
(** [force] is [KV_FP8_FORCE]. *)
Definition kv_fp8_on (e : env) (force : Z) : bool :=
  match e "MEMRA_KV_FP8" with Some v => str_eqb v (lit "1") | None => (force =? 1)%Z end.

(** ** What the cache reads of [ModelConfig] *)

Record SsmConfig := mkSsm {
  conv_kernel : nat; state_size : nat; time_step_rank : nat; group_count : nat;
}.
Record Gemma4Config := mkGemma {
  head_count_kv : list nat;
  swa_pattern : list bool;
  key_length_global : nat;
  key_length_swa : nat;
  shared_kv_layers : nat;
}.
Record ModelConfig := mkConfig {
  n_layer : nat;
  n_head_kv : nat;
  head_dim_k : nat;
  head_dim_v : nat;
  full_attention_interval : nat;
  ssm : option SsmConfig;
  gemma4 : option Gemma4Config;
  nextn_predict_layers : nat;
}.
Inductive LayerKind := FullAttention | LinearAttention.
#[export] Instance LayerKind_eq_dec : EqDecision LayerKind.
Proof. solve_decision. Defined.
Definition layer_kind (cfg : ModelConfig) (il : nat) : LayerKind :=
  if full_attention_interval cfg =? 0 then FullAttention
  else if (il + 1) mod full_attention_interval cfg =? 0 then FullAttention else LinearAttention.
Definition n_full_attn_layers (cfg : ModelConfig) : nat :=
  length (filter (fun il => layer_kind cfg il = FullAttention) (seq 0 (n_layer cfg))).

(** ** The device seam *)

Class KvDev := {
  dstate : Type;
  f32 : Type;
  f32_0 : f32;
  (** does the next call succeed *)
  dev_ok : dstate -> bool * dstate;
  (** the address of a fresh allocation *)
  dev_ptr : dstate -> Z * dstate;
  (** what a copy that failed leaves in its destination *)
  dev_junk : dstate -> nat -> list f32 * dstate;
  (** the addresses handed out so far *)
  allocated : dstate -> gset Z;
}.
Class KvDevLaws (kd : KvDev) := {
  ok_allocated w b w' : dev_ok w = (b, w') -> allocated w' = allocated w;
  ptr_fresh w p w' : dev_ptr w = (p, w') -> (p ∉ allocated w) /\ allocated w' = {[ p ]} ∪ allocated w;
  junk_allocated w n x w' : dev_junk w n = (x, w') -> allocated w' = allocated w /\ length x = n;
}.

Section Kv.
Context {kd : KvDev}.

Record Buf := mkBuf { ptr : Z; owner : nat; data : list f32 }.
Record ByteBuf := mkBytes { b_ptr : Z; b_owner : nat; b_data : list Z }.
Definition b_size (b : ByteBuf) : nat := length (b_data b).
Record IntBuf := mkInt { i_ptr : Z; i_owner : nat; value : Z }.

Record KvLayer := mkKv {
  k : ByteBuf; v : ByteBuf;
  kv_dim_k : nat; kv_dim_v : nat;
  k_tok_bytes : nat; v_tok_bytes : nat;
  len : nat;
  len_d : IntBuf;
}.
Record RecurLayer := mkRecur { conv_state : Buf; ssm_state : Buf; ssm_state_alt : Buf }.
Record Cache := mkKvCache {
  kv : list (option KvLayer);
  recur : list (option RecurLayer);
  pos : nat;
  max_ctx : nat;
}.
Record CacheSnapshot := mkSnap {
  kv_len : list (option nat);
  conv : list (option Buf);
  ssm_snap : list (option Buf);
  snap_pos : nat;
}.

Inductive KvErr := EDevice.
Definition D := M dstate KvErr.

(** The device calls; [d] is the device. *)
Definition call : D unit :=
  w ← get; let '(ok, w) := dev_ok w in put w;; if ok : bool then ret tt else throw EDevice.
Definition fresh : D Z := w ← get; let '(p, w) := dev_ptr w in put w;; ret p.
Definition zeros (d n : nat) : D Buf := call;; p ← fresh; ret (mkBuf p d (replicate n f32_0)).
Definition alloc_u8 (d n : nat) : D ByteBuf := call;; p ← fresh; ret (mkBytes p d (replicate n 0%Z)).
Definition htod_i32_one (d : nat) (x : Z) : D IntBuf := call;; p ← fresh; ret (mkInt p d x).
Definition clone_dtod (d : nat) (b : Buf) : D Buf := call;; p ← fresh; ret (mkBuf p d (data b)).
(** [copy_into(dst, 0, src, len)]: the new contents of [dst], and whether the
    call succeeded. *)
Definition copy_into (dst src : Buf) (n : nat) : D (Buf * bool) :=
  massert (n <=? length (data src));;
  massert (n <=? length (data dst));;
  w ← get;
  let '(ok, w) := dev_ok w in
  if ok : bool then put w;; ret (mkBuf (ptr dst) (owner dst) (take n (data src) ++ drop n (data dst)), true)
  else
    let '(junk, w) := dev_junk w (length (data dst)) in
    put w;; ret (mkBuf (ptr dst) (owner dst) junk, false).
Definition set_i32_one (dst : IntBuf) (x : Z) : D (IntBuf * bool) :=
  w ← get;
  let '(ok, w) := dev_ok w in
  put w;; ret (if ok : bool then mkInt (i_ptr dst) (i_owner dst) x else dst, ok).

(** ** Allocation *)

(** The layer's K and V widths, gemma4's per-layer geometry included; [None] is
    an index out of range. *)
Definition layer_dims (cfg : ModelConfig) (il : nat) : option (nat * nat) :=
  match gemma4 cfg with
  | Some g =>
      swa ← swa_pattern g !! il;
      let hd := if swa : bool then key_length_swa g else key_length_global g in
      let n := default (n_head_kv cfg) (head_count_kv g !! il) in
      Some (hd * n, hd * n)
  | None => Some (head_dim_k cfg * n_head_kv cfg, head_dim_v cfg * n_head_kv cfg)
  end.
Definition shared_layer (cfg : ModelConfig) (il : nat) : bool :=
  match gemma4 cfg with
  | Some g => (0 <? shared_kv_layers g) && (n_layer cfg - shared_kv_layers g <=? il)
  | None => false
  end.
Definition layer_fp8 (e : env) (force : Z) (cfg : ModelConfig) (il : nat) : option bool :=
  match gemma4 cfg with
  | Some g =>
      swa ← swa_pattern g !! il;
      Some ((gkv_on e && negb swa) || (wkv_on e && swa))
  | None => Some (kv_fp8_on e force)
  end.
Definition ssm_dims (cfg : ModelConfig) : nat * nat * nat * nat :=
  match ssm cfg with
  | Some s =>
      let num_k := group_count s in
      let num_v := time_step_rank s in
      let ds := state_size s in
      (ds * num_k * 2 + ds * num_v, ds, num_v, conv_kernel s)
  | None => (0, 0, 0, 0)
  end.

Definition new_kv_layer (d mc dk dv kbb vbb : nat) : D KvLayer :=
  let ktb := dk / 32 * kbb in
  let vtb := dv / 32 * vbb in
  k ← alloc_u8 d (mc * ktb + 8);
  v ← alloc_u8 d (mc * vtb + 8);
  l ← htod_i32_one d 0;
  ret (mkKv k v dk dv ktb vtb 0 l).
Definition new_recur_layer (d : nat) (dims : nat * nat * nat * nat) : D RecurLayer :=
  let '(conv_dim, d_state, num_v, d_conv) := dims in
  massert (1 <=? d_conv);;
  c ← zeros d (conv_dim * (d_conv - 1));
  s ← zeros d (d_state * d_state * num_v);
  a ← zeros d (d_state * d_state * num_v);
  ret (mkRecur c s a).
(** [pick il] is the device that owns layer [il]; [None] is an index out of range. *)
Definition new_layer (e : env) (force : Z) (pick : nat -> option nat) (cfg : ModelConfig) (mc il : nat)
    : D (option KvLayer * option RecurLayer) :=
  d ← unwrap (pick il);
  dims ← unwrap (layer_dims cfg il);
  (* [n_layer - shared_kv_layers] *)
  massert (match gemma4 cfg with Some g => shared_kv_layers g <=? n_layer cfg | None => true end);;
  if shared_layer cfg il then ret (None, None) else
  blk ← unwrap (kv_blk_bytes e);
  fp8 ← unwrap (layer_fp8 e force cfg il);
  let '(kbb, vbb) := if fp8 : bool then (32, 32) else blk in
  match layer_kind cfg il with
  | FullAttention =>
      l ← new_kv_layer d mc dims.1 dims.2 kbb vbb; ret (Some l, None)
  | LinearAttention =>
      r ← new_recur_layer d (ssm_dims cfg); ret (None, Some r)
  end.
Fixpoint new_layers (e : env) (force : Z) (pick : nat -> option nat) (cfg : ModelConfig) (mc : nat)
    (ils : list nat) : D (list (option KvLayer * option RecurLayer)) :=
  match ils with
  | [] => ret []
  | il :: ils =>
      l ← new_layer e force pick cfg mc il;
      ls ← new_layers e force pick cfg mc ils;
      ret (l :: ls)
  end.
Definition new_inner (e : env) (force : Z) (pick : nat -> option nat) (cfg : ModelConfig) (mc : nat) : D Cache :=
  massert ((head_dim_k cfg mod 32 =? 0) && (head_dim_v cfg mod 32 =? 0));;
  unwrap (kv_blk_bytes e);;
  ls ← new_layers e force pick cfg mc (seq 0 (n_layer cfg));
  ret (mkKvCache ls.*1 ls.*2 0 mc).

Definition new (e : env) (force : Z) (d : nat) (cfg : ModelConfig) (mc : nat) : D Cache :=
  new_inner e force (fun _ => Some d) cfg mc.
Definition new_pp2 (e : env) (force : Z) (d0 d1 split : nat) (cfg : ModelConfig) (mc : nat) : D Cache :=
  new_inner e force (fun il => Some (if il <? split then d0 else d1)) cfg mc.
(** The stage [new_ppn] allocates layer [il] through. *)
Definition pick_stage (n_dev : nat) (fence : list nat) (il : nat) : nat :=
  Nat.min (match binary_search (inner fence) il with inl k => k + 1 | inr k => k end) (n_dev - 1).
Definition new_ppn (e : env) (force : Z) (devs : list nat) (fence : list nat) (cfg : ModelConfig)
    (mc : nat) : D Cache :=
  massert (length devs + 1 =? length fence);;
  new_inner e force (fun il =>
    if length fence <? 2 then None else devs !! pick_stage (length devs) fence il) cfg mc.

(** ** Snapshots *)

Fixpoint snap_layers (d : nat) (rs : list (option RecurLayer)) : D (list (option Buf) * list (option Buf)) :=
  match rs with
  | [] => ret ([], [])
  | Some rl :: rs =>
      c ← clone_dtod d (conv_state rl);
      s ← clone_dtod d (ssm_state rl);
      r ← snap_layers d rs;
      ret (Some c :: r.1, Some s :: r.2)
  | None :: rs => r ← snap_layers d rs; ret (None :: r.1, None :: r.2)
  end.
Definition snapshot (d : nat) (c : Cache) : D CacheSnapshot :=
  massert (length (kv c) <=? length (recur c));;
  r ← snap_layers d (take (length (kv c)) (recur c));
  ret (mkSnap (map (option_map len) (kv c)) r.1 r.2 (pos c)).

(** A device call made while changing [X]. *)
Definition lift {X A : Type} (m : D A) : M (dstate * X) KvErr A :=
  zoom fst (fun w s => (w, s.2)) m.
Definition update {X : Type} (f : X -> X) : M (dstate * X) KvErr unit := modify (fun s => (s.1, f s.2)).

Definition set_snap_len il x (s : CacheSnapshot) : CacheSnapshot :=
  mkSnap (<[il := x]> (kv_len s)) (conv s) (ssm_snap s) (snap_pos s).
Definition set_snap_conv il x (s : CacheSnapshot) : CacheSnapshot :=
  mkSnap (kv_len s) (<[il := x]> (conv s)) (ssm_snap s) (snap_pos s).
Definition set_snap_ssm il x (s : CacheSnapshot) : CacheSnapshot :=
  mkSnap (kv_len s) (conv s) (<[il := x]> (ssm_snap s)) (snap_pos s).
Definition snapshot_into_layer (c : Cache) (il : nat) : M (dstate * CacheSnapshot) KvErr unit :=
  kvl ← unwrap (kv c !! il);
  s ← get;
  massert (il <? length (kv_len s.2));;
  update (set_snap_len il (option_map len kvl));;
  rl ← unwrap (recur c !! il);
  match rl with
  | None => ret tt
  | Some rl =>
      dc ← unwrap (mjoin (conv s.2 !! il));
      ds ← unwrap (mjoin (ssm_snap s.2 !! il));
      r ← lift (copy_into dc (conv_state rl) (length (data (conv_state rl))));
      update (set_snap_conv il (Some r.1));;
      if negb r.2 then throw EDevice else
      r ← lift (copy_into ds (ssm_state rl) (length (data (ssm_state rl))));
      update (set_snap_ssm il (Some r.1));;
      if negb r.2 then throw EDevice else ret tt
  end.
Definition snapshot_into (c : Cache) : M (dstate * CacheSnapshot) KvErr unit :=
  for_each (snapshot_into_layer c) (seq 0 (length (kv c)));;
  update (fun s => mkSnap (kv_len s) (conv s) (ssm_snap s) (pos c)).

Definition set_kv il x (c : Cache) : Cache := mkKvCache (<[il := x]> (kv c)) (recur c) (pos c) (max_ctx c).
Definition set_recur il x (c : Cache) : Cache := mkKvCache (kv c) (<[il := x]> (recur c)) (pos c) (max_ctx c).
Definition set_pos x (c : Cache) : Cache := mkKvCache (kv c) (recur c) x (max_ctx c).
Definition with_len (n : nat) (d : IntBuf) (l : KvLayer) : KvLayer :=
  mkKv (k l) (v l) (kv_dim_k l) (kv_dim_v l) (k_tok_bytes l) (v_tok_bytes l) n d.
(** [as i32] *)
Definition as_i32 (n : nat) : Z := to_signed 32 (Z.of_nat n).

Definition rollback_kv (il n : nat) (l : KvLayer) : M (dstate * Cache) KvErr unit :=
  update (set_kv il (Some (with_len n (len_d l) l)));;
  r ← lift (set_i32_one (len_d l) (as_i32 n));
  update (set_kv il (Some (with_len n r.1 l)));;
  if r.2 : bool then ret tt else throw EDevice.
Definition rollback_recur (il : nat) (sc ss : option Buf) (rl : RecurLayer) : M (dstate * Cache) KvErr unit :=
  rl ← match sc with
       | None => ret rl
       | Some b =>
           r ← lift (copy_into (conv_state rl) b (length (data b)));
           let rl := mkRecur r.1 (ssm_state rl) (ssm_state_alt rl) in
           update (set_recur il (Some rl));;
           if r.2 : bool then ret rl else throw EDevice
       end;
  match ss with
  | None => ret tt
  | Some b =>
      r ← lift (copy_into (ssm_state rl) b (length (data b)));
      update (set_recur il (Some (mkRecur (conv_state rl) r.1 (ssm_state_alt rl))));;
      if r.2 : bool then ret tt else throw EDevice
  end.
Definition rollback_layer (snap : CacheSnapshot) (accept_len il : nat) : M (dstate * Cache) KvErr unit :=
  c ← get;
  kvl ← unwrap (kv c.2 !! il);
  saved ← unwrap (kv_len snap !! il);
  match kvl, saved with
  | Some l, Some n => rollback_kv il (n + accept_len) l
  | _, _ => ret tt
  end;;
  rl ← unwrap (recur c.2 !! il);
  match rl with
  | None => ret tt
  | Some rl =>
      sc ← unwrap (conv snap !! il);
      ss ← unwrap (ssm_snap snap !! il);
      rollback_recur il sc ss rl
  end.
Definition rollback (snap : CacheSnapshot) (accept_len : nat) : M (dstate * Cache) KvErr unit :=
  c ← get;
  for_each (rollback_layer snap accept_len) (seq 0 (length (kv c.2)));;
  update (set_pos (snap_pos snap)).

(** ** Facts *)

Definition kv_ptrs (l : KvLayer) : list Z := [b_ptr (k l); b_ptr (v l); i_ptr (len_d l)].
Definition recur_ptrs (r : RecurLayer) : list Z :=
  [ptr (conv_state r); ptr (ssm_state r); ptr (ssm_state_alt r)].
Definition opt_ptrs {A : Type} (f : A -> list Z) (o : option A) : list Z := match o with Some x => f x | None => [] end.
Definition layer_ptrs (x : option KvLayer * option RecurLayer) : list Z :=
  opt_ptrs kv_ptrs x.1 ++ opt_ptrs recur_ptrs x.2.
Definition cache_ptrs (c : Cache) : list Z :=
  (l ← kv c; opt_ptrs kv_ptrs l) ++ (r ← recur c; opt_ptrs recur_ptrs r).

Section Facts.
Context {laws : KvDevLaws kd}.
Implicit Types (w : dstate) (c : Cache).

(** Between [w] and [w'] exactly the distinct new addresses [ps] were used. *)
Definition grew (w w' : dstate) (ps : list Z) : Prop :=
  NoDup ps /\ (forall p, p ∈ ps -> (p ∉ allocated w) /\ p ∈ allocated w') /\ allocated w ⊆ allocated w'.
Lemma grew_nil w : grew w w [].
Proof. split; [constructor|]. split; [|done]. intros p Hp. by apply not_elem_of_nil in Hp. Qed.
Lemma grew_same w w' : allocated w' = allocated w -> grew w w' [].
Proof. intros H. split; [constructor|]. split; [intros p Hp; by apply not_elem_of_nil in Hp|by rewrite H]. Qed.
Lemma grew_app w w1 w2 ps qs : grew w w1 ps -> grew w1 w2 qs -> grew w w2 (ps ++ qs).
Proof.
  intros (H1 & H2 & H3) (G1 & G2 & G3). split; [|split; [|by etrans]].
  - apply NoDup_app. split; [done|]. split; [|done]. intros p Hp Hq.
    destruct (H2 p Hp). by destruct (G2 p Hq).
  - intros p [Hp|Hp]%elem_of_app.
    + destruct (H2 p Hp). split; [done|]. by apply G3.
    + destruct (G2 p Hp) as [Hn ?]. split; [|done]. intros Hin. by apply Hn, H3.
Qed.

Lemma wp_call (Q : unit -> dstate -> Prop) (X : KvErr -> dstate -> Prop) w :
  (forall w', allocated w' = allocated w -> Q tt w') -> (forall w', allocated w' = allocated w -> X EDevice w') ->
  wp call Q X w.
Proof.
  intros HQ HX. unfold call. wp_step. apply wp_get. destruct (dev_ok w) as [b w'] eqn:He.
  apply ok_allocated in He. wp_step. apply wp_put. destruct b; [by apply HQ|by apply HX].
Qed.
Lemma wp_fresh (Q : Z -> dstate -> Prop) (X : KvErr -> dstate -> Prop) w :
  (forall p w', grew w w' [p] -> Q p w') -> wp fresh Q X w.
Proof.
  intros HQ. unfold fresh. wp_step. apply wp_get. destruct (dev_ptr w) as [p w'] eqn:He.
  apply ptr_fresh in He as [Hn Ha]. wp_step. apply wp_put, HQ. split; [apply NoDup_singleton|].
  rewrite Ha. split; [|set_solver]. intros q ->%list_elem_of_singleton. split; [done|set_solver].
Qed.
(** Any single allocation. *)
Lemma wp_alloc {A} (f : Z -> A) (Q : A -> dstate -> Prop) (X : KvErr -> dstate -> Prop) w :
  (forall p w', grew w w' [p] -> Q (f p) w') -> (forall e w', X e w') ->
  wp (call;; p ← fresh; ret (f p)) Q X w.
Proof.
  intros HQ HX. wp_step. apply wp_call; [|by intros; apply HX]. intros w1 H1. wp_step.
  apply wp_fresh. intros p w2 H2. apply wp_ret, HQ.
  pose proof (grew_app _ _ _ [] [p] (grew_same _ _ H1) H2) as H. done.
Qed.

(** *** Allocation *)

(** A configuration the allocator accepts. *)
Record config_ok (e : env) (cfg : ModelConfig) : Prop := {
  cfg_formats : is_Some (kv_blk_bytes e);
  cfg_heads : head_dim_k cfg mod 32 = 0 /\ head_dim_v cfg mod 32 = 0;
  cfg_gemma : forall g, gemma4 cfg = Some g ->
    n_layer cfg <= length (swa_pattern g) /\ shared_kv_layers g <= n_layer cfg;
  cfg_ssm : forall il, il < n_layer cfg -> layer_kind cfg il = LinearAttention ->
    exists s, ssm cfg = Some s /\ 1 <= conv_kernel s;
}.
(** Bytes of one 32-element block of layer [il]. *)
Definition layer_blk (e : env) (force : Z) (cfg : ModelConfig) (il : nat) : option (nat * nat) :=
  fp8 ← layer_fp8 e force cfg il; if fp8 : bool then Some (32, 32) else kv_blk_bytes e.

(** What the cache holds for layer [il]. *)
Definition layer_layout (e : env) (force : Z) (pick : nat -> nat) (cfg : ModelConfig) (mc il : nat)
    (x : option KvLayer * option RecurLayer) : Prop :=
  if shared_layer cfg il then x = (None, None) else
  match layer_kind cfg il with
  | FullAttention => exists l dims blk, x = (Some l, None) /\ layer_dims cfg il = Some dims /\
      layer_blk e force cfg il = Some blk /\
      kv_dim_k l = dims.1 /\ kv_dim_v l = dims.2 /\
      k_tok_bytes l = dims.1 / 32 * blk.1 /\ v_tok_bytes l = dims.2 / 32 * blk.2 /\
      b_size (k l) = mc * k_tok_bytes l + 8 /\ b_size (v l) = mc * v_tok_bytes l + 8 /\
      len l = 0 /\ value (len_d l) = 0%Z /\
      b_owner (k l) = pick il /\ b_owner (v l) = pick il /\ i_owner (len_d l) = pick il
  | LinearAttention => exists r s, x = (None, Some r) /\ ssm cfg = Some s /\
      data (conv_state r) = replicate ((state_size s * group_count s * 2 + state_size s * time_step_rank s)
        * (conv_kernel s - 1)) f32_0 /\
      data (ssm_state r) = replicate (state_size s * state_size s * time_step_rank s) f32_0 /\
      data (ssm_state_alt r) = data (ssm_state r) /\
      owner (conv_state r) = pick il /\ owner (ssm_state r) = pick il /\ owner (ssm_state_alt r) = pick il
  end.

Lemma layer_dims_total e cfg il : config_ok e cfg -> il < n_layer cfg -> is_Some (layer_dims cfg il).
Proof.
  intros H Hil. unfold layer_dims. destruct (gemma4 cfg) as [g|] eqn:Hg; [|done].
  destruct (cfg_gemma _ _ H g Hg) as [Hl _].
  destruct (lookup_lt_is_Some_2 (swa_pattern g) il) as [b ->]; [lia|]. done.
Qed.
Lemma layer_fp8_total e force cfg il : config_ok e cfg -> il < n_layer cfg -> is_Some (layer_fp8 e force cfg il).
Proof.
  intros H Hil. unfold layer_fp8. destruct (gemma4 cfg) as [g|] eqn:Hg; [|done].
  destruct (cfg_gemma _ _ H g Hg) as [Hl _].
  destruct (lookup_lt_is_Some_2 (swa_pattern g) il) as [b ->]; [lia|]. done.
Qed.

Lemma wp_new_layer e force pk pick cfg mc il w :
  config_ok e cfg -> il < n_layer cfg -> pk il = Some (pick il) ->
  wp (new_layer e force pk cfg mc il)
    (fun x w' => layer_layout e force pick cfg mc il x /\ grew w w' (layer_ptrs x)) (fun _ _ => True) w.
Proof.
  intros H Hil Hpk. destruct (layer_dims_total e cfg il H Hil) as [dims Hdims].
  destruct (layer_fp8_total e force cfg il H Hil) as [fp8 Hfp8].
  destruct (cfg_formats _ _ H) as [blk Hblk].
  unfold new_layer, layer_layout. rewrite Hdims, Hpk. wp_steps.
  apply wp_massert.
  { destruct (gemma4 cfg) as [g|] eqn:Hg; [|done]. apply Nat.leb_le, (cfg_gemma _ _ H g Hg). }
  wp_steps. destruct (shared_layer cfg il) eqn:Hsh.
  { apply wp_ret. split; [done|]. apply grew_nil. }
  rewrite Hblk, Hfp8. wp_steps.
  assert (Hlb : layer_blk e force cfg il = Some (if fp8 then (32, 32) else blk)).
  { unfold layer_blk. rewrite Hfp8. simpl. by destruct fp8. }
  destruct (if fp8 then (32, 32) else blk) as [kbb vbb].
  destruct (layer_kind cfg il) eqn:Hk.
  - unfold new_kv_layer. wp_step. wp_step. unfold alloc_u8. apply wp_alloc; [|done]. intros p1 w1 H1.
    wp_step. apply wp_alloc; [|done]. intros p2 w2 H2. wp_step. unfold htod_i32_one.
    apply wp_alloc; [|done]. intros p3 w3 H3. apply wp_ret, wp_ret. split.
    + eexists _, dims, (kbb, vbb). split_and!; try done; apply length_replicate.
    + exact (grew_app _ _ _ [p1] [p2; p3] H1 (grew_app _ _ _ [p2] [p3] H2 H3)).
  - destruct (cfg_ssm _ _ H il Hil Hk) as (s & Hs & Hc). unfold ssm_dims. rewrite Hs.
    unfold new_recur_layer. wp_step. wp_step. apply wp_massert; [by apply Nat.leb_le|].
    wp_step. unfold zeros. apply wp_alloc; [|done]. intros p1 w1 H1. wp_step. apply wp_alloc; [|done].
    intros p2 w2 H2. wp_step. apply wp_alloc; [|done]. intros p3 w3 H3. apply wp_ret, wp_ret. split.
    + eexists _, s. by split_and!.
    + exact (grew_app _ _ _ [p1] [p2; p3] H1 (grew_app _ _ _ [p2] [p3] H2 H3)).
Qed.
Lemma wp_new_layers e force pk pick cfg mc ils w :
  config_ok e cfg -> (forall il, il ∈ ils -> il < n_layer cfg /\ pk il = Some (pick il)) ->
  wp (new_layers e force pk cfg mc ils)
    (fun xs w' => Forall2 (layer_layout e force pick cfg mc) ils xs /\ grew w w' (xs ≫= layer_ptrs))
    (fun _ _ => True) w.
Proof.
  intros H. revert w. induction ils as [|il ils IH]; intros w Hin; simpl.
  { apply wp_ret. split; [done|]. apply grew_nil. }
  wp_step. eapply wp_conseq; [apply (wp_new_layer _ _ pk pick); [done|apply Hin; left..]|].
  intros x w1 [Hx H1]. wp_step. eapply wp_conseq; [apply IH; intros; apply Hin; by right|].
  intros xs w2 [Hxs H2]. apply wp_ret. split; [by constructor|]. by eapply grew_app.
Qed.

Lemma cache_ptrs_layers (ls : list (option KvLayer * option RecurLayer)) p mc :
  cache_ptrs (mkKvCache ls.*1 ls.*2 p mc) ≡ₚ (ls ≫= layer_ptrs).
Proof.
  unfold cache_ptrs. simpl. induction ls as [|[a b] ls IH]; [done|]. simpl.
  rewrite <-IH. unfold layer_ptrs. simpl. rewrite <-!app_assoc. apply Permutation_app_head.
  rewrite !app_assoc. apply Permutation_app_tail. apply Permutation_app_comm.
Qed.
Lemma wp_new_inner e force pk pick cfg mc w :
  config_ok e cfg -> (forall il, il < n_layer cfg -> pk il = Some (pick il)) ->
  wp (new_inner e force pk cfg mc)
    (fun c w' => (length (kv c) = n_layer cfg /\ length (recur c) = n_layer cfg /\ pos c = 0 /\ max_ctx c = mc) /\
       (forall il, il < n_layer cfg -> exists a b, kv c !! il = Some a /\ recur c !! il = Some b /\
          layer_layout e force pick cfg mc il (a, b)) /\ grew w w' (cache_ptrs c))
    (fun _ _ => True) w.
Proof.
  intros H Hpk. destruct (cfg_heads _ _ H) as [Hk Hv]. unfold new_inner. wp_step.
  apply wp_massert; [by rewrite Hk, Hv|]. wp_step. apply wp_unwrap.
  destruct (cfg_formats _ _ H) as [blk Hblk]. exists blk. split; [done|]. wp_step.
  eapply wp_conseq; [apply (wp_new_layers _ _ pk pick); [done|]|].
  { intros il Hil. apply elem_of_seq in Hil. split; [lia|apply Hpk; lia]. }
  intros xs w' [Hxs Hg]. apply wp_ret. pose proof (Forall2_length _ _ _ Hxs) as Hl. rewrite length_seq in Hl.
  split; [|split].
  - simpl. rewrite !length_fmap. by split_and!.
  - intros il Hil. destruct (Forall2_lookup_l _ _ _ il il Hxs) as ([a b] & Hx & Hlay).
    { rewrite lookup_seq_lt by done. done. }
    exists a, b. simpl. by rewrite !list_lookup_fmap, Hx.
  - destruct Hg as (H1 & H2 & H3). split; [by rewrite cache_ptrs_layers|]. split; [|done].
    intros p Hp. apply H2. by rewrite cache_ptrs_layers in Hp.
Qed.

(** *** Snapshots *)

(** A buffer saved from the layer's [f]: its own allocation, the same floats. *)
Definition saved_from (f : RecurLayer -> Buf) (r : option RecurLayer) (b : option Buf) : Prop :=
  match r, b with
  | Some r, Some b => data b = data (f r)
  | None, None => True
  | _, _ => False
  end.
Definition snap_ptrs (l : list (option Buf)) : list Z := b ← l; opt_ptrs (fun b => [ptr b]) b.
Record snap_of c (s : CacheSnapshot) : Prop := {
  so_kv : kv_len s = map (option_map len) (kv c);
  so_conv : Forall2 (saved_from conv_state) (recur c) (conv s);
  so_ssm : Forall2 (saved_from ssm_state) (recur c) (ssm_snap s);
  so_pos : snap_pos s = pos c;
}.

Lemma wp_snap_layers d rs w :
  wp (snap_layers d rs)
    (fun r w' => Forall2 (saved_from conv_state) rs r.1 /\ Forall2 (saved_from ssm_state) rs r.2 /\
       exists ps, grew w w' ps /\ ps ≡ₚ snap_ptrs r.1 ++ snap_ptrs r.2)
    (fun _ _ => True) w.
Proof.
  revert w. induction rs as [|[rl|] rs IH]; intros w; simpl.
  - apply wp_ret. split; [done|]. split; [done|]. exists []. split; [apply grew_nil|done].
  - wp_step. unfold clone_dtod. apply wp_alloc; [|done]. intros p1 w1 H1. wp_step.
    apply wp_alloc; [|done]. intros p2 w2 H2. wp_step. eapply wp_conseq; [apply IH|].
    intros r w3 (Hc & Hs & ps & H3 & Hp). apply wp_ret. split; [by constructor|]. split; [by constructor|].
    exists ([p1] ++ [p2] ++ ps). split; [by eapply grew_app; [|eapply grew_app]|].
    simpl. rewrite Hp. constructor. apply Permutation_middle.
  - wp_step. eapply wp_conseq; [apply IH|]. intros r w' (Hc & Hs & Hps). apply wp_ret.
    split; [by constructor|]. by split; [constructor|].
Qed.
Lemma wp_snapshot d c w :
  length (kv c) = length (recur c) ->
  wp (snapshot d c)
    (fun s w' => snap_of c s /\ exists ps, grew w w' ps /\ ps ≡ₚ snap_ptrs (conv s) ++ snap_ptrs (ssm_snap s))
    (fun _ _ => True) w.
Proof.
  intros Hl. unfold snapshot. wp_step. apply wp_massert; [apply Nat.leb_le; lia|].
  wp_step. rewrite take_ge by lia. eapply wp_conseq; [apply wp_snap_layers|].
  intros r w' (Hc & Hs & Hp). by apply wp_ret.
Qed.

Lemma wp_copy_into dst src (Q : Buf * bool -> dstate -> Prop) (X : KvErr -> dstate -> Prop) w :
  length (data src) = length (data dst) ->
  (forall w', allocated w' = allocated w -> Q (mkBuf (ptr dst) (owner dst) (data src), true) w') ->
  (forall junk w', allocated w' = allocated w -> Q (mkBuf (ptr dst) (owner dst) junk, false) w') ->
  wp (copy_into dst src (length (data src))) Q X w.
Proof.
  intros Hl HQ HX. unfold copy_into. wp_step. apply wp_massert; [by apply Nat.leb_le|].
  wp_step. apply wp_massert; [apply Nat.leb_le; lia|]. wp_step. apply wp_get.
  destruct (dev_ok w) as [b w1] eqn:He. apply ok_allocated in He. destruct b.
  - wp_step. apply wp_put, wp_ret. rewrite take_ge by lia. rewrite drop_ge, app_nil_r by lia. by apply HQ.
  - destruct (dev_junk w1 (length (data dst))) as [junk w2] eqn:Hj. apply junk_allocated in Hj as [Hj _].
    wp_step. apply wp_put, wp_ret, HX. congruence.
Qed.
Lemma wp_lift {X A} (m : D A) (Q : A -> dstate * X -> Prop) (E : KvErr -> dstate * X -> Prop) s :
  wp m (fun a w => Q a (w, s.2)) (fun e w => E e (w, s.2)) s.1 -> wp (lift m) Q E s.
Proof.
  intros H. unfold lift. apply wp_zoom. unfold wp in H. by destruct (m s.1) as [w [a|e|]].
Qed.

(** *** Rollback *)

(** The layer states a rollback produces: same addresses, saved values. *)
Definition roll_kv (accept : nat) (saved : option nat) (l : option KvLayer) : option KvLayer :=
  match l, saved with
  | Some l, Some n =>
      Some (with_len (n + accept) (mkInt (i_ptr (len_d l)) (i_owner (len_d l)) (as_i32 (n + accept))) l)
  | _, _ => l
  end.
Definition roll_buf (saved : option Buf) (b : Buf) : Buf :=
  match saved with Some s => mkBuf (ptr b) (owner b) (data s) | None => b end.
Definition roll_recur (sc ss : option Buf) (r : option RecurLayer) : option RecurLayer :=
  option_map (fun r => mkRecur (roll_buf sc (conv_state r)) (roll_buf ss (ssm_state r)) (ssm_state_alt r)) r.
Definition buf_fits (saved : option Buf) (b : Buf) : Prop :=
  match saved with Some s => length (data s) = length (data b) | None => True end.

Lemma wp_rollback_kv il n l (c : Cache) w (Q : unit -> dstate * Cache -> Prop) :
  (forall w', allocated w' = allocated w ->
     Q tt (w', set_kv il (roll_kv 0 (Some n) (Some l)) c)) ->
  wp (rollback_kv il n l) Q (fun _ s => allocated s.1 = allocated w) (w, c).
Proof.
  intros HQ. unfold rollback_kv. wp_step. apply wp_modify. wp_step. apply wp_lift.
  unfold set_i32_one. wp_step. apply wp_get. simpl. destruct (dev_ok w) as [b w1] eqn:He.
  apply ok_allocated in He. wp_step. apply wp_put, wp_ret. wp_step. apply wp_modify. simpl.
  destruct b; [|by apply wp_throw]. apply wp_ret. specialize (HQ w1 He). unfold roll_kv in HQ.
  rewrite Nat.add_0_r in HQ. unfold set_kv in *. simpl in *. by rewrite list_insert_insert_eq.
Qed.

Lemma wp_rollback_recur il sc ss rl (c : Cache) w (Q : unit -> dstate * Cache -> Prop) :
  recur c !! il = Some (Some rl) -> buf_fits sc (conv_state rl) -> buf_fits ss (ssm_state rl) ->
  (forall w', allocated w' = allocated w -> Q tt (w', set_recur il (roll_recur sc ss (Some rl)) c)) ->
  wp (rollback_recur il sc ss rl) Q (fun _ s => allocated s.1 = allocated w) (w, c).
Proof.
  intros Hrl Hc Hs HQ. unfold rollback_recur.
  (* the second copy, from a state with the first one done *)
  assert (Hssm : forall rl' c' w', ssm_state rl' = ssm_state rl -> recur c' !! il = Some (Some rl') ->
    set_recur il (roll_recur None ss (Some rl')) c' = set_recur il (roll_recur sc ss (Some rl)) c ->
    allocated w' = allocated w ->
    wp (match ss with
        | None => ret tt
        | Some b =>
            r ← lift (copy_into (ssm_state rl') b (length (data b)));
            update (set_recur il (Some (mkRecur (conv_state rl') r.1 (ssm_state_alt rl'))));;
            if r.2 : bool then ret tt else throw EDevice
        end) Q (fun _ s => allocated s.1 = allocated w) (w', c')).
  { intros rl' c' w' Hsame Hrl' Heq Hw. destruct ss as [b|].
    - wp_step. apply wp_lift. rewrite Hsame. apply wp_copy_into; [done| |].
      + intros w2 Hw2. simpl in Hw2. wp_step. apply wp_modify, wp_ret. simpl.
        specialize (HQ w2 ltac:(congruence)). rewrite <-Heq in HQ. unfold roll_recur in HQ. simpl in HQ.
        by rewrite Hsame in HQ.
      + intros junk w2 Hw2. simpl in Hw2. wp_step. apply wp_modify, wp_throw. simpl. congruence.
    - apply wp_ret. specialize (HQ w' Hw). rewrite <-Heq in HQ. unfold roll_recur, set_recur in HQ. simpl in HQ.
      rewrite list_insert_id in HQ; [by destruct c'|]. by destruct rl'. }
  destruct sc as [b|]; wp_step.
  - wp_step. apply wp_lift. apply wp_copy_into; [done| |].
    + intros w1 Hw1. wp_step. apply wp_modify, wp_ret.
      set (rl1 := mkRecur (mkBuf (ptr (conv_state rl)) (owner (conv_state rl)) (data b)) (ssm_state rl)
        (ssm_state_alt rl)).
      refine (Hssm rl1 (set_recur il (Some rl1) c) w1 eq_refl _ _ Hw1); simpl.
      * apply list_lookup_insert_eq. by eapply lookup_lt_Some.
      * unfold roll_recur, set_recur. simpl. by rewrite list_insert_insert_eq.
    + intros junk w1 Hw1. wp_step. apply wp_modify, wp_throw. done.
  - apply wp_ret. by apply Hssm.
Qed.

(** A snapshot of a cache with these layers. *)
Record snap_fits (s : CacheSnapshot) c : Prop := {
  sf_kv : length (kv_len s) = length (kv c);
  sf_recur : length (recur c) = length (kv c);
  sf_conv : Forall2 (fun b r => forall rl, r = Some rl -> buf_fits b (conv_state rl)) (conv s) (recur c);
  sf_ssm : Forall2 (fun b r => forall rl, r = Some rl -> buf_fits b (ssm_state rl)) (ssm_snap s) (recur c);
}.
(** The cache after a rollback. *)
Definition rolled (s : CacheSnapshot) (accept : nat) c : Cache :=
  mkKvCache (zip_with (roll_kv accept) (kv_len s) (kv c))
    (zip_with (fun x r => roll_recur x.1 x.2 r) (zip (conv s) (ssm_snap s)) (recur c))
    (snap_pos s) (max_ctx c).

Lemma wp_rollback_layer s accept il a b n sc ss (c : Cache) w :
  kv c !! il = Some a -> recur c !! il = Some b -> kv_len s !! il = Some n ->
  conv s !! il = Some sc -> ssm_snap s !! il = Some ss ->
  (forall rl, b = Some rl -> buf_fits sc (conv_state rl) /\ buf_fits ss (ssm_state rl)) ->
  wp (rollback_layer s accept il)
    (fun _ s' => s'.2 = set_recur il (roll_recur sc ss b) (set_kv il (roll_kv accept n a) c) /\
       allocated s'.1 = allocated w)
    (fun _ s' => allocated s'.1 = allocated w) (w, c).
Proof.
  intros Ha Hb Hn Hsc Hss Hfit. unfold rollback_layer. wp_step. apply wp_get. simpl.
  rewrite Ha, Hn. wp_steps. rewrite Hb, Hsc, Hss.
  assert (Hrec : forall w', allocated w' = allocated w ->
    wp (rl ← unwrap (Some b);
        match rl with
        | None => ret tt
        | Some rl => sc ← unwrap (Some sc); ss ← unwrap (Some ss); rollback_recur il sc ss rl
        end)
      (fun _ s' => s'.2 = set_recur il (roll_recur sc ss b) (set_kv il (roll_kv accept n a) c) /\
         allocated s'.1 = allocated w)
      (fun _ s' => allocated s'.1 = allocated w) (w', set_kv il (roll_kv accept n a) c)).
  { intros w' Hw'. wp_steps. destruct b as [rl|].
    - wp_steps. destruct (Hfit rl eq_refl). rewrite <-Hw'. apply wp_rollback_recur; [done..|].
      intros w2 Hw2. by split.
    - apply wp_ret. split; [|exact Hw']. unfold set_recur, roll_recur. simpl. by rewrite (list_insert_id (recur c)). }
  assert (Hid : roll_kv accept n a = a -> set_kv il (roll_kv accept n a) c = c).
  { intros ->. unfold set_kv. rewrite list_insert_id by done. by destruct c. }
  destruct a as [l|]; [destruct n as [n|]|].
  - apply wp_rollback_kv. intros w' Hw'. specialize (Hrec w' Hw'). unfold roll_kv in *.
    rewrite Nat.add_0_r. exact Hrec.
  - apply wp_ret. replace (w, c) with (w, set_kv il (roll_kv accept None (Some l)) c) by (by rewrite Hid).
    by apply Hrec.
  - apply wp_ret. replace (w, c) with (w, set_kv il (roll_kv accept n None) c) by (by rewrite Hid).
    by apply Hrec.
Qed.

Lemma zip_with_lookup2 {A B E} (f : A -> B -> E) l r i a b :
  l !! i = Some a -> r !! i = Some b -> zip_with f l r !! i = Some (f a b).
Proof. intros Ha Hb. apply lookup_zip_with_Some. eauto. Qed.

Lemma wp_rollback s accept (c : Cache) w :
  snap_fits s c ->
  wp (rollback s accept) (fun _ s' => s'.2 = rolled s accept c /\ allocated s'.1 = allocated w)
    (fun _ s' => allocated s'.1 = allocated w) (w, c).
Proof.
  intros [Hkv Hrec Hconv Hssm]. unfold rollback. wp_step. apply wp_get. wp_step. simpl.
  pose proof (Forall2_length _ _ _ Hconv) as Lc. pose proof (Forall2_length _ _ _ Hssm) as Ls.
  remember (rolled s accept c) as R eqn:HR.
  assert (LR : length (kv R) = length (kv c) /\ length (recur R) = length (kv c)).
  { rewrite HR. simpl. rewrite !length_zip_with. lia. }
  set (I i (st : dstate * Cache) := allocated st.1 = allocated w /\ pos st.2 = pos c /\ max_ctx st.2 = max_ctx c /\
    (length (kv st.2) = length (kv c) /\ length (recur st.2) = length (kv c)) /\
    (forall j, j < i -> kv st.2 !! j = kv R !! j /\ recur st.2 !! j = recur R !! j) /\
    (forall j, i <= j -> kv st.2 !! j = kv c !! j /\ recur st.2 !! j = recur c !! j)).
  eapply wp_conseq; [apply (wp_for_seq _ 0 (length (kv c)) I)|].
  - unfold I. simpl. split_and!; try done; intros; lia.
  - intros i [w1 c1] [_ Hi] (Hw & Hp & Hm & [Lk Lr] & Hlo & Hhi). simpl in *.
    destruct (Hhi i ltac:(lia)) as [Hki Hri].
    destruct (lookup_lt_is_Some_2 (kv c) i Hi) as [a Ha].
    destruct (lookup_lt_is_Some_2 (recur c) i) as [b Hb]; [lia|].
    destruct (lookup_lt_is_Some_2 (kv_len s) i) as [n Hn]; [lia|].
    destruct (lookup_lt_is_Some_2 (conv s) i) as [sc Hsc]; [lia|].
    destruct (lookup_lt_is_Some_2 (ssm_snap s) i) as [ss Hss]; [lia|].
    eapply wp_mono; [apply (wp_rollback_layer s accept i a b n sc ss c1 w1); try done; try congruence| |].
    + intros rl ->. split; [by apply (Forall2_lookup_lr _ _ _ _ _ _ Hconv Hsc Hb)|].
      by apply (Forall2_lookup_lr _ _ _ _ _ _ Hssm Hss Hb).
    + intros [] [w2 c2] [Hc2 Hw2]. simpl in Hc2, Hw2. subst c2. unfold I. simpl. rewrite !length_insert.
      assert (HRk : kv R !! i = Some (roll_kv accept n a)) by (rewrite HR; by apply zip_with_lookup2).
      assert (HRr : recur R !! i = Some (roll_recur sc ss b)).
      { rewrite HR. simpl. erewrite zip_with_lookup2; [|by apply zip_with_lookup2|done]. done. }
      split_and!; [congruence|done..| |].
      * intros j Hj. destruct (decide (j = i)) as [->|Hne].
        -- rewrite !list_lookup_insert_eq by lia. by rewrite HRk, HRr.
        -- rewrite !list_lookup_insert_ne by done. apply Hlo. lia.
      * intros j Hj. rewrite !list_lookup_insert_ne by lia. apply Hhi. lia.
    + intros e [w2 c2] Hw2. simpl in *. congruence.
  - intros [] [w1 c1] (Hw & Hp & Hm & [Lk Lr] & Hlo & _). simpl in *. apply wp_modify. simpl.
    split; [|done]. unfold set_pos. assert (kv c1 = kv R) as ->.
    { apply list_eq_same_length with (length (kv c)); [lia|lia|]. intros j x y Hj Hx Hy.
      destruct (Hlo j Hj). congruence. }
    assert (recur c1 = recur R) as ->.
    { apply list_eq_same_length with (length (kv c)); [lia|lia|]. intros j x y Hj Hx Hy.
      destruct (Hlo j Hj). congruence. }
    rewrite Hm. by rewrite HR.
Qed.

(** *** Refreshing a snapshot in place *)

(** A snapshot with this cache's shapes. *)
Definition slot_fits (f : RecurLayer -> Buf) (r : option RecurLayer) (b : option Buf) : Prop :=
  match r, b with
  | Some r, Some b => length (data (f r)) = length (data b)
  | None, None => True
  | _, _ => False
  end.
Record snap_shape c (s : CacheSnapshot) : Prop := {
  ss_kv : length (kv_len s) = length (kv c);
  ss_recur : length (recur c) = length (kv c);
  ss_conv : Forall2 (slot_fits conv_state) (recur c) (conv s);
  ss_ssm : Forall2 (slot_fits ssm_state) (recur c) (ssm_snap s);
}.
(** The saved buffer after a refresh: its own address, the layer's floats. *)
Definition refreshed (f : RecurLayer -> Buf) (r : option RecurLayer) (b : option Buf) : option Buf :=
  match r, b with
  | Some r, Some b => Some (mkBuf (ptr b) (owner b) (data (f r)))
  | _, _ => b
  end.
Definition refreshed_snap c (s : CacheSnapshot) : CacheSnapshot :=
  mkSnap (map (option_map len) (kv c)) (zip_with (refreshed conv_state) (recur c) (conv s))
    (zip_with (refreshed ssm_state) (recur c) (ssm_snap s)) (pos c).

Lemma wp_snapshot_into_layer c il a r b d (s : CacheSnapshot) w :
  kv c !! il = Some a -> recur c !! il = Some r -> il < length (kv_len s) ->
  conv s !! il = Some b -> ssm_snap s !! il = Some d ->
  slot_fits conv_state r b -> slot_fits ssm_state r d ->
  wp (snapshot_into_layer c il)
    (fun _ s' => s'.2 = mkSnap (<[il := option_map len a]> (kv_len s))
        (<[il := refreshed conv_state r b]> (conv s)) (<[il := refreshed ssm_state r d]> (ssm_snap s))
        (snap_pos s) /\ allocated s'.1 = allocated w)
    (fun _ s' => allocated s'.1 = allocated w) (w, s).
Proof.
  intros Ha Hr Hlt Hb Hd Hfb Hfd. unfold snapshot_into_layer. rewrite Ha, Hr. wp_steps.
  apply wp_massert; [by apply Nat.ltb_lt|]. wp_step. apply wp_modify. wp_steps. simpl. rewrite Hb, Hd.
  destruct r as [rl|]; [destruct b as [b|], d as [d|]|destruct b as [b|], d as [d|]];
    try by (exfalso; simpl in *).
  - wp_steps. simpl. wp_steps. apply wp_lift. simpl. simpl in Hfb, Hfd. apply wp_copy_into; [done| |].
    + intros w1 Hw1. wp_step. apply wp_modify. simpl. wp_step. apply wp_lift. simpl.
      apply wp_copy_into; [done| |].
      * intros w2 Hw2. wp_step. apply wp_modify, wp_ret. split; [done|]. simpl in *. congruence.
      * intros junk w2 Hw2. wp_step. apply wp_modify, wp_throw. simpl in *. congruence.
    + intros junk w1 Hw1. wp_step. apply wp_modify, wp_throw. done.
  - apply wp_ret. split; [|done]. simpl. unfold refreshed, set_snap_len.
    by rewrite (list_insert_id (conv s)), (list_insert_id (ssm_snap s)).
Qed.

Lemma wp_snapshot_into c (s : CacheSnapshot) w :
  snap_shape c s ->
  wp (snapshot_into c) (fun _ s' => s'.2 = refreshed_snap c s /\ allocated s'.1 = allocated w)
    (fun _ s' => allocated s'.1 = allocated w) (w, s).
Proof.
  intros [Hkv Hrec Hconv Hssm]. unfold snapshot_into. wp_step.
  pose proof (Forall2_length _ _ _ Hconv) as Lc. pose proof (Forall2_length _ _ _ Hssm) as Ls.
  remember (refreshed_snap c s) as R eqn:HR.
  assert (LR : length (kv_len R) = length (kv c) /\ length (conv R) = length (kv c) /\
    length (ssm_snap R) = length (kv c)).
  { rewrite HR. simpl. rewrite length_map, !length_zip_with. lia. }
  set (I i (st : dstate * CacheSnapshot) := allocated st.1 = allocated w /\
    (length (kv_len st.2) = length (kv c) /\ length (conv st.2) = length (kv c) /\
     length (ssm_snap st.2) = length (kv c)) /\
    (forall j, j < i -> kv_len st.2 !! j = kv_len R !! j /\ conv st.2 !! j = conv R !! j /\
       ssm_snap st.2 !! j = ssm_snap R !! j) /\
    (forall j, i <= j -> conv st.2 !! j = conv s !! j /\ ssm_snap st.2 !! j = ssm_snap s !! j)).
  eapply wp_conseq; [apply (wp_for_seq _ 0 (length (kv c)) I)|].
  - unfold I. simpl. split_and!; try done; try (intros; lia).
  - intros i [w1 s1] [_ Hi] (Hw & (Lk & Lc1 & Ls1) & Hlo & Hhi). simpl in *.
    destruct (Hhi i ltac:(lia)) as [Hci Hsi].
    destruct (lookup_lt_is_Some_2 (kv c) i Hi) as [a Ha].
    destruct (lookup_lt_is_Some_2 (recur c) i) as [r Hr]; [lia|].
    destruct (lookup_lt_is_Some_2 (conv s) i) as [b Hb]; [lia|].
    destruct (lookup_lt_is_Some_2 (ssm_snap s) i) as [d Hd]; [lia|].
    pose proof (Forall2_lookup_lr _ _ _ _ _ _ Hconv Hr Hb) as Hfb.
    pose proof (Forall2_lookup_lr _ _ _ _ _ _ Hssm Hr Hd) as Hfd.
    eapply wp_mono; [apply (wp_snapshot_into_layer c i a r b d s1 w1); try done; try congruence; lia| |].
    + intros [] [w2 s2] [Hs2 Hw2]. simpl in Hs2, Hw2. subst s2. unfold I. simpl. rewrite !length_insert.
      assert (HRk : kv_len R !! i = Some (option_map len a)).
      { rewrite HR. simpl. pose proof (list_lookup_fmap (option_map len) (kv c) i) as Hf.
        rewrite Ha in Hf. exact Hf. }
      assert (HRc : conv R !! i = Some (refreshed conv_state r b)) by (rewrite HR; by apply zip_with_lookup2).
      assert (HRs : ssm_snap R !! i = Some (refreshed ssm_state r d)) by (rewrite HR; by apply zip_with_lookup2).
      split_and!; try congruence.
      * intros j Hj. destruct (decide (j = i)) as [->|Hne].
        -- rewrite !list_lookup_insert_eq by lia. by rewrite HRk, HRc, HRs.
        -- rewrite !list_lookup_insert_ne by done. apply Hlo. lia.
      * intros j Hj. rewrite !list_lookup_insert_ne by lia. apply Hhi. lia.
    + intros e [w2 s2] Hw2. simpl in *. congruence.
  - intros [] [w1 s1] (Hw & (Lk & Lc1 & Ls1) & Hlo & _). simpl in *. apply wp_modify. simpl.
    split; [|done]. rewrite (list_eq_same_length (kv_len s1) (kv_len R) (length (kv c)));
      [|lia|lia|intros j x y Hj Hx Hy; destruct (Hlo j Hj) as (? & ? & ?); congruence].
    rewrite (list_eq_same_length (conv s1) (conv R) (length (kv c)));
      [|lia|lia|intros j x y Hj Hx Hy; destruct (Hlo j Hj) as (? & ? & ?); congruence].
    rewrite (list_eq_same_length (ssm_snap s1) (ssm_snap R) (length (kv c)));
      [|lia|lia|intros j x y Hj Hx Hy; destruct (Hlo j Hj) as (? & ? & ?); congruence].
    rewrite HR. done.
Qed.
Lemma refreshed_saved f c l : Forall2 (slot_fits f) (recur c) l ->
  Forall2 (saved_from f) (recur c) (zip_with (refreshed f) (recur c) l).
Proof. induction 1 as [|r b rs l Hrb H IH]; simpl; constructor; [|done]. by destruct r, b. Qed.
Lemma refreshed_snap_of c s : snap_shape c s -> snap_of c (refreshed_snap c s).
Proof. intros [? ? ? ?]. split; simpl; [done|by apply refreshed_saved..|done]. Qed.

(** *** Properties *)

Lemma pick_total devs fence il :
  2 <= length fence -> length devs + 1 = length fence ->
  (if length fence <? 2 then None else devs !! pick_stage (length devs) fence il)
  = Some (nth (pick_stage (length devs) fence il) devs 0).
Proof.
  intros Hf Hl. rewrite (proj2 (Nat.ltb_ge _ _)) by lia.
  destruct (lookup_lt_is_Some_2 devs (pick_stage (length devs) fence il)) as [d Hd]; [unfold pick_stage; lia|].
  rewrite Hd. f_equal. symmetry. by apply nth_lookup_Some.
Qed.
Lemma pick_stage_of fence il :
  2 <= length fence -> stage_of fence il < length fence - 1 ->
  pick_stage (length fence - 1) fence il = stage_of fence il.
Proof. intros. unfold pick_stage. fold (stage_of fence il). lia. Qed.

(** The N-stage allocator does not panic on an accepted configuration and,
    when every device call succeeds, gives each layer exactly the planes its
    geometry asks for: K and V sized for [max_ctx] tokens of the selected
    format, zeroed recurrent state, nothing for KV-shared layers.  All buffers
    are distinct, fresh allocations. *)
Theorem kv_new_layout e force devs fence cfg mc w :
  config_ok e cfg -> 2 <= length fence -> length devs + 1 = length fence ->
  wp (new_ppn e force devs fence cfg mc)
    (fun c w' => length (kv c) = n_layer cfg /\ length (recur c) = n_layer cfg /\ pos c = 0 /\ max_ctx c = mc /\
       (forall il, il < n_layer cfg -> exists a b, kv c !! il = Some a /\ recur c !! il = Some b /\
          layer_layout e force (fun il => nth (pick_stage (length devs) fence il) devs 0) cfg mc il (a, b)) /\
       NoDup (cache_ptrs c) /\ forall p, p ∈ cache_ptrs c -> (p ∉ allocated w) /\ p ∈ allocated w')
    (fun _ _ => True) w.
Proof.
  intros H Hf Hl. unfold new_ppn. wp_step. apply wp_massert; [by apply Nat.eqb_eq|].
  eapply wp_conseq; [apply (wp_new_inner _ _ _ (fun il => nth (pick_stage (length devs) fence il) devs 0) _ _ _ H)|].
  - intros il _. by apply pick_total.
  - intros c w' ((H1 & H2 & H3 & H4) & H5 & H6 & H7 & _). by split_and!.
Qed.

(** With the fence of [pp_cuts], every layer's K, V and recurrent buffers
    are allocated on the device of the stage that runs the layer. *)
Theorem kv_stage_owned e force devs fence cfg mc w :
  config_ok e cfg -> pp_cuts e (n_layer cfg) = Some fence -> length devs + 1 = length fence ->
  wp (new_ppn e force devs fence cfg mc)
    (fun c _ => forall il s a b d, fence !! s = Some a -> fence !! S s = Some b -> devs !! s = Some d ->
       a <= il < b ->
       (forall l, kv c !! il = Some (Some l) -> b_owner (k l) = d /\ b_owner (v l) = d /\ i_owner (len_d l) = d) /\
       (forall r, recur c !! il = Some (Some r) ->
          owner (conv_state r) = d /\ owner (ssm_state r) = d /\ owner (ssm_state_alt r) = d))
    (fun _ _ => True) w.
Proof.
  intros H Hf Hl. destruct (pp_cuts_fence _ _ _ Hf) as (Hi & Hlen & H0 & Hlast).
  unfold new_ppn. wp_step. apply wp_massert; [by apply Nat.eqb_eq|].
  eapply wp_conseq; [apply (wp_new_inner _ _ _ (fun il => nth (pick_stage (length devs) fence il) devs 0) _ _ _ H)|].
  { intros il _. apply pick_total; lia. }
  intros c w' (_ & Hlay & _) il s a b d Ha Hb Hd Hil.
  destruct (stage_of_unique _ _ _ _ _ _ _ Hf Ha Hb Hil) as [Hn Hs].
  destruct (Hlay il Hn) as (x & y & Hx & Hy & HL).
  assert (Hp : nth (pick_stage (length devs) fence il) devs 0 = d).
  { replace (length devs) with (length fence - 1) by lia. apply lookup_lt_Some in Hd as Hlt.
    rewrite pick_stage_of by lia. rewrite Hs. by apply nth_lookup_Some. }
  unfold layer_layout in HL. rewrite Hx, Hy, Hp in *.
  destruct (shared_layer cfg il); [injection HL as -> ->; by split|].
  destruct (layer_kind cfg il).
  - destruct HL as (l & dims & blk & [= -> ->] & _ & _ & _ & _ & _ & _ & _ & _ & _ & _ & ? & ? & ?).
    split; [|done]. by intros l' [= <-].
  - destruct HL as (r & sm & [= -> ->] & _ & _ & _ & _ & ? & ? & ?). split; [done|]. by intros r' [= <-].
Qed.

(** Two states of one cache: same layers, same buffer sizes. *)
Definition same_kv (a b : option KvLayer) : Prop := is_Some a <-> is_Some b.
Definition same_recur (a b : option RecurLayer) : Prop :=
  match a, b with
  | Some r, Some r' => length (data (conv_state r)) = length (data (conv_state r')) /\
      length (data (ssm_state r)) = length (data (ssm_state r'))
  | None, None => True
  | _, _ => False
  end.
Record same_shape c c' : Prop := {
  sh_len : length (recur c) = length (kv c);
  sh_kv : Forall2 same_kv (kv c) (kv c');
  sh_recur : Forall2 same_recur (recur c) (recur c');
}.
(** [c'] is [c1] rolled back to the state of [c] and [accept] more tokens: its
    own buffers, the values of [c]. *)
Definition restored_kv (accept : nat) (a a1 a' : option KvLayer) : Prop :=
  match a, a1, a' with
  | Some l, Some l1, Some l' => len l' = len l + accept /\
      len_d l' = mkInt (i_ptr (len_d l1)) (i_owner (len_d l1)) (as_i32 (len l + accept)) /\
      k l' = k l1 /\ v l' = v l1 /\ kv_dim_k l' = kv_dim_k l1 /\ kv_dim_v l' = kv_dim_v l1 /\
      k_tok_bytes l' = k_tok_bytes l1 /\ v_tok_bytes l' = v_tok_bytes l1
  | None, None, None => True
  | _, _, _ => False
  end.
Definition moved (b b1 b' : Buf) : Prop := b' = mkBuf (ptr b1) (owner b1) (data b).
Definition restored_recur (a a1 a' : option RecurLayer) : Prop :=
  match a, a1, a' with
  | Some r, Some r1, Some r' => moved (conv_state r) (conv_state r1) (conv_state r') /\
      moved (ssm_state r) (ssm_state r1) (ssm_state r') /\ ssm_state_alt r' = ssm_state_alt r1
  | None, None, None => True
  | _, _, _ => False
  end.
Definition restored c c1 (accept : nat) c' : Prop :=
  pos c' = pos c /\ max_ctx c' = max_ctx c1 /\
  Forall3 (restored_kv accept) (kv c) (kv c1) (kv c') /\ Forall3 restored_recur (recur c) (recur c1) (recur c').

Lemma saved_fits f c c1 l : (forall r r1, same_recur (Some r) (Some r1) -> length (data (f r)) = length (data (f r1))) ->
  Forall2 (saved_from f) (recur c) l -> Forall2 same_recur (recur c) (recur c1) ->
  Forall2 (fun b r => forall rl, r = Some rl -> buf_fits b (f rl)) l (recur c1).
Proof.
  intros Hf H. revert H. generalize (recur c) (recur c1). intros rs rs1 H. revert rs1.
  induction H as [|r b rs l Hrb H IH]; intros rs1 H1; inversion H1 as [|? r1 ? rs1' Hr ?]; subst; constructor; [|by apply IH].
  intros rl ->. destruct r as [r|], b as [b|]; simpl in *; try done. rewrite Hrb. by apply Hf.
Qed.
Lemma snap_of_fits c c1 s : snap_of c s -> same_shape c c1 -> snap_fits s c1.
Proof.
  intros [Hk Hc Hs _] [Hl Hkv Hr]. pose proof (Forall2_length _ _ _ Hkv). pose proof (Forall2_length _ _ _ Hr).
  split; [rewrite Hk, length_map; lia|lia| |].
  - eapply saved_fits; [|done|done]. by intros r r1 [? ?].
  - eapply saved_fits; [|done|done]. by intros r r1 [? ?].
Qed.
Lemma rolled_restored c c1 s accept : snap_of c s -> same_shape c c1 -> restored c c1 accept (rolled s accept c1).
Proof.
  intros [Hk Hc Hs Hp] [_ Hkv Hr]. split; [done|]. split; [done|]. simpl. rewrite Hk. split.
  - clear Hk Hc Hs Hr Hp. induction Hkv as [|a a1 l l1 Ha H IH]; simpl; constructor; [|done].
    destruct a as [a|], a1 as [a1|]; simpl; try done; destruct Ha as [Ha1 Ha2].
    + by destruct (Ha1 (mk_is_Some _ _ eq_refl)).
    + by destruct (Ha2 (mk_is_Some _ _ eq_refl)).
  - clear Hk Hkv Hp. revert Hc Hs Hr. generalize (recur c) (recur c1) (conv s) (ssm_snap s).
    intros rs rs1 cs ss Hc. revert rs1 ss. induction Hc as [|r b rs cs Hrb H IH]; intros rs1 ss Hs Hr;
      inversion Hs as [|? d ? ss' Hrd]; inversion Hr as [|? r1 ? rs1' Hr1]; subst; simpl; constructor; [|by apply IH].
    destruct r as [r|], r1 as [r1|], b as [b|], d as [d|]; simpl in *; try done.
    unfold moved. by rewrite Hrb, Hrd.
Qed.

(** C10. A snapshot taken before a speculative round, then a rollback from any
    later state of the cache: neither call panics, and when the device calls
    succeed every attention layer's host length and device mirror are the saved
    length plus the accepted tokens, the recurrent buffers hold exactly the
    saved floats, and no buffer moves, so captured graphs stay valid. *)
Theorem kv_snapshot_rollback d c accept w :
  length (recur c) = length (kv c) ->
  wp (snapshot d c)
    (fun s w1 => forall c1 w2, same_shape c c1 ->
       wp (rollback s accept) (fun _ st => restored c c1 accept st.2 /\ allocated st.1 = allocated w2)
         (fun _ st => allocated st.1 = allocated w2) (w2, c1))
    (fun _ _ => True) w.
Proof.
  intros Hl. eapply wp_conseq; [by apply wp_snapshot|]. intros s w1 [Hs _] c1 w2 H1.
  eapply wp_conseq; [by apply wp_rollback, snap_of_fits with c|]. intros [] [w3 c3] [Hc3 Hw3]. simpl in *. subst c3.
  split; [by apply rolled_restored|done].
Qed.

(** A snapshot's buffers are fresh allocations: none aliases a buffer of the
    cache it was taken from, nor another of its own. *)
Theorem kv_snapshot_fresh d c w :
  length (kv c) = length (recur c) -> (forall p, p ∈ cache_ptrs c -> p ∈ allocated w) ->
  wp (snapshot d c)
    (fun s _ => NoDup (snap_ptrs (conv s) ++ snap_ptrs (ssm_snap s)) /\
       forall p, p ∈ snap_ptrs (conv s) ++ snap_ptrs (ssm_snap s) -> p ∉ cache_ptrs c)
    (fun _ _ => True) w.
Proof.
  intros Hl Hc. eapply wp_conseq; [by apply wp_snapshot|]. intros s w1 (_ & ps & (Hn & Hf & _) & Hp).
  split; [by rewrite <-Hp|]. intros p Hin Hin'. rewrite <-Hp in Hin. apply (Hf p Hin), Hc, Hin'.
Qed.

Lemma saved_slots f c c1 l : (forall r r1, same_recur (Some r) (Some r1) -> length (data (f r)) = length (data (f r1))) ->
  Forall2 (saved_from f) (recur c) l -> Forall2 same_recur (recur c) (recur c1) -> Forall2 (slot_fits f) (recur c1) l.
Proof.
  intros Hf H. revert H. generalize (recur c) (recur c1). intros rs rs1 H. revert rs1.
  induction H as [|r b rs l Hrb H IH]; intros rs1 H1; inversion H1 as [|? r1 ? rs1' Hr ?]; subst; constructor; [|by apply IH].
  destruct r as [r|], b as [b|], r1 as [r1|]; simpl in *; try done. rewrite Hrb. symmetry. by apply Hf.
Qed.
Lemma refreshed_ptrs f rs l : Forall2 (slot_fits f) rs l -> snap_ptrs (zip_with (refreshed f) rs l) = snap_ptrs l.
Proof.
  induction 1 as [|r b rs l Hrb H IH]; [done|]. unfold snap_ptrs in *.
  cbn [zip_with mbind list_bind]. f_equal; [by destruct r, b|exact IH].
Qed.

(** Refreshing a snapshot in place gives what a new snapshot of the cache's
    present state would: the same lengths, floats and position, in the buffers
    the snapshot already had, with no allocation. *)
Theorem kv_snapshot_into d c w :
  length (recur c) = length (kv c) ->
  wp (snapshot d c)
    (fun s w1 => forall c1 w2, same_shape c c1 ->
       wp (snapshot_into c1)
         (fun _ st => snap_of c1 st.2 /\ snap_ptrs (conv st.2) = snap_ptrs (conv s) /\
            snap_ptrs (ssm_snap st.2) = snap_ptrs (ssm_snap s) /\ allocated st.1 = allocated w2)
         (fun _ st => allocated st.1 = allocated w2) (w2, s))
    (fun _ _ => True) w.
Proof.
  intros Hl. eapply wp_conseq; [by apply wp_snapshot|]. intros s w1 [[Hk Hc Hs Hp] _] c1 w2 [_ Hkv Hr].
  pose proof (Forall2_length _ _ _ Hkv). pose proof (Forall2_length _ _ _ Hr).
  assert (Hsh : snap_shape c1 s).
  { split; [rewrite Hk, length_map; lia|lia| |].
    - eapply saved_slots; [|done|done]. by intros r r1 [? ?].
    - eapply saved_slots; [|done|done]. by intros r r1 [? ?]. }
  eapply wp_conseq; [by apply wp_snapshot_into|]. intros [] [w3 s3] [Hs3 Hw3]. simpl in *. subst s3.
  split; [by apply refreshed_snap_of|]. destruct Hsh. simpl. by rewrite !refreshed_ptrs.
Qed.
End Facts.
End Kv.

(** ** A concrete device *)

Module ToyKv.
(** Every call succeeds; addresses are handed out in order. *)
#[export] Instance toy_dev : KvDev := {
  dstate := nat;
  f32 := Z;
  f32_0 := 0%Z;
  dev_ok w := (true, w);
  dev_ptr w := (Z.of_nat w, S w);
  dev_junk w n := (replicate n 7%Z, w);
  allocated w := list_to_set (Z.of_nat <$> seq 0 w);
}.
#[export] Instance toy_dev_laws : KvDevLaws toy_dev.
Proof.
  split; simpl.
  - by intros w b w' [= _ <-].
  - intros w p w' [= <- <-]. split.
    + rewrite elem_of_list_to_set, list_elem_of_fmap. intros (y & Hy & Hin). apply elem_of_seq in Hin. lia.
    + rewrite seq_S, fmap_app, list_to_set_app_L. simpl. set_solver.
  - intros w n x w' [= <- <-]. split; [done|]. by rewrite length_replicate.
Qed.

(** Four layers, the last one attention; two stages on devices 5 and 6. *)
Definition toy_env : env := fun s => if bool_decide (s = "MEMRA_PP_STAGES") then Some (lit "2") else None.
Definition toy_cfg : ModelConfig := mkConfig 4 2 32 32 4 (Some (mkSsm 3 2 2 1)) None 0.
Definition ok_of {S E A : Type} (d : A) (r : S * outcome E A) : A := match r.2 with Ok a => a | _ => d end.
Definition toy_run := new_ppn toy_env (-1) [5; 6] [0; 2; 4] toy_cfg 10 100.
Definition toy_c : Cache := ok_of (mkKvCache [] [] 0 0) toy_run.
Definition is_ok {S E A : Type} (r : S * outcome E A) : bool := match r.2 with Ok _ => true | _ => false end.
Lemma is_ok_run {S E A : Type} (d : A) (r : S * outcome E A) : is_ok r = true -> r = (r.1, Ok (ok_of d r)).
Proof. by destruct r as [s [a|e|]]. Qed.
Lemma toy_alloc : toy_run = (toy_run.1, Ok toy_c).
Proof. apply is_ok_run. vm_compute. reflexivity. Qed.
Lemma toy_config : config_ok toy_env toy_cfg.
Proof.
  split; [by eexists; vm_compute|done|done|]. intros il _ _. exists (mkSsm 3 2 2 1). split; [done|simpl; lia].
Qed.
(** The cache after three more tokens: other floats, the two state buffers swapped. *)
Definition toy_step (r : RecurLayer) : RecurLayer :=
  mkRecur (mkBuf (ptr (conv_state r)) (owner (conv_state r)) (map (Z.add 1) (data (conv_state r))))
    (mkBuf (ptr (ssm_state_alt r)) (owner (ssm_state_alt r)) (map (Z.add 2) (data (ssm_state r)))) (ssm_state r).
Definition toy_c1 : Cache :=
  mkKvCache (map (option_map (fun l => with_len (len l + 3) (len_d l) l)) (kv toy_c))
    (map (option_map toy_step) (recur toy_c)) (pos toy_c + 3) 10.
Lemma toy_shape_kv l : Forall2 same_kv l (map (option_map (fun l => with_len (len l + 3) (len_d l) l)) l).
Proof. induction l as [|[x|] l IH]; constructor; [by split|done|by split|done]. Qed.
Lemma toy_shape_recur l : Forall2 same_recur l (map (option_map toy_step) l).
Proof.
  induction l as [|[x|] l IH]; constructor; try done. unfold same_recur. simpl. by rewrite !length_map.
Qed.
Lemma toy_shape : same_shape toy_c toy_c1.
Proof. split; [vm_compute; reflexivity|apply toy_shape_kv|apply toy_shape_recur]. Qed.
Definition toy_s : CacheSnapshot := ok_of (mkSnap [] [] [] 0) (snapshot 5 toy_c 200).
Lemma toy_snapshot : snapshot 5 toy_c 200 = ((snapshot 5 toy_c 200).1, Ok toy_s).
Proof. apply is_ok_run. vm_compute. reflexivity. Qed.
End ToyKv.
Import ToyKv.

Lemma kv_new_layout_witness :
  length (kv toy_c) = 4 /\ NoDup (cache_ptrs toy_c) /\
  exists a b, kv toy_c !! 3 = Some a /\ recur toy_c !! 3 = Some b /\
    layer_layout toy_env (-1) (fun il => nth (pick_stage 2 [0; 2; 4] il) [5; 6] 0) toy_cfg 10 3 (a, b).
Proof.
  assert (Hf : 2 <= length [0; 2; 4]) by (simpl; lia).
  pose proof (wp_run _ _ _ _ _ _ (kv_new_layout toy_env (-1) [5; 6] [0; 2; 4] toy_cfg 10 100 toy_config Hf eq_refl)
    toy_alloc) as H.
  destruct H as (H & _ & _ & _ & Hlay & Hn & _). split; [exact H|]. split; [exact Hn|].
  apply (Hlay 3). simpl. lia.
Defined.

Lemma kv_stage_owned_witness :
  exists l, kv toy_c !! 3 = Some (Some l) /\ b_owner (k l) = 6 /\ b_owner (v l) = 6 /\ i_owner (len_d l) = 6.
Proof.
  assert (Hf : pp_cuts toy_env 4 = Some [0; 2; 4]) by (vm_compute; reflexivity).
  pose proof (wp_run _ _ _ _ _ _ (kv_stage_owned toy_env (-1) [5; 6] [0; 2; 4] toy_cfg 10 100 toy_config Hf eq_refl)
    toy_alloc) as H.
  assert (Hl : exists l, kv toy_c !! 3 = Some (Some l)) by (eexists; vm_compute; reflexivity).
  destruct Hl as [l Hl]. exists l. split; [exact Hl|].
  refine (proj1 (H 3 1 2 4 6 eq_refl eq_refl eq_refl _) l Hl). lia.
Defined.

Lemma kv_snapshot_rollback_witness :
  exists w c', rollback toy_s 2 (300, toy_c1) = ((w, c'), Ok tt) /\ restored toy_c toy_c1 2 c' /\
    exists l, kv c' !! 3 = Some (Some l) /\ len l = 2.
Proof.
  pose proof (wp_run _ _ _ _ _ _ (kv_snapshot_rollback 5 toy_c 2 200 eq_refl) toy_snapshot toy_c1 300 toy_shape) as H.
  assert (Hr : is_ok (rollback toy_s 2 (300, toy_c1)) = true) by (vm_compute; reflexivity).
  assert (Hk : (l ← mjoin (kv (rollback toy_s 2 (300, toy_c1)).1.2 !! 3); Some (len l)) = Some 2) by (vm_compute; reflexivity).
  destruct (rollback toy_s 2 (300, toy_c1)) as [[w c'] r] eqn:He. destruct r as [[]|e|]; [|discriminate Hr..]. simpl in Hk.
  exists w, c'. split; [done|]. split; [by destruct (wp_run _ _ _ _ _ _ H He)|].
  destruct (kv c' !! 3) as [[l|]|]; simpl in Hk; [|discriminate Hk..]. exists l. split; [done|]. by injection Hk.
Defined.

Lemma kv_snapshot_fresh_witness :
  length (snap_ptrs (conv toy_s) ++ snap_ptrs (ssm_snap toy_s)) = 6 /\
  forall p, p ∈ snap_ptrs (conv toy_s) ++ snap_ptrs (ssm_snap toy_s) -> p ∉ cache_ptrs toy_c.
Proof.
  split; [done|]. refine (proj2 (wp_run _ _ _ _ _ _ (kv_snapshot_fresh 5 toy_c 200 eq_refl _) toy_snapshot)).
  assert (Hall : Forall (fun p => p ∈ allocated 200) (cache_ptrs toy_c)).
  { apply (bool_decide_unpack _). vm_compute. exact I. }
  intros p Hp. rewrite Forall_forall in Hall. by apply Hall.
Defined.

Lemma kv_snapshot_into_witness :
  exists w s, snapshot_into toy_c1 (300, toy_s) = ((w, s), Ok tt) /\ snap_of toy_c1 s /\
    kv_len s = [None; None; None; Some 3] /\ snap_ptrs (conv s) = snap_ptrs (conv toy_s).
Proof.
  pose proof (wp_run _ _ _ _ _ _ (kv_snapshot_into 5 toy_c 200 eq_refl) toy_snapshot toy_c1 300 toy_shape) as H.
  assert (Hr : is_ok (snapshot_into toy_c1 (300, toy_s)) = true) by (vm_compute; reflexivity).
  assert (Hk : kv_len (snapshot_into toy_c1 (300, toy_s)).1.2 = [None; None; None; Some 3]) by (vm_compute; reflexivity).
  destruct (snapshot_into toy_c1 (300, toy_s)) as [[w s] r] eqn:He. destruct r as [[]|e|]; [|discriminate Hr..]. simpl in Hk.
  exists w, s. split; [done|]. destruct (wp_run _ _ _ _ _ _ H He) as (H1 & H2 & _).
  exact (conj H1 (conj Hk H2)).
Defined.
