(* ===== verification/ToyCache.v ===== *)
(** A one-layer cache whose bytes are the tokens it was fed: the concrete model
    on which the theorems about priming and speculative decoding are run. *)
From S2P Require Import Prelude Effects KvCache.
Local Open Scope nat_scope.

Module ToyRows.
Import ToyKv.
(** One attention layer of one-byte rows, the tokens themselves. *)
Definition append_rows (l : KvLayer) (b : ByteBuf) (ts : list Z) : ByteBuf :=
  mkBytes (b_ptr b) (b_owner b) (take (len l) (b_data b) ++ ts ++ drop (len l + length ts) (b_data b)).
Definition feed (c : Cache) (ts : list Z) : Cache :=
  match kv c with
  | [Some l] => mkKvCache [Some (mkKv (append_rows l (k l) ts) (append_rows l (v l) ts) 1 1 1 1 (len l + length ts) (len_d l))] (recur c)
                  (pos c + length ts) (max_ctx c)
  | _ => c
  end.
(** The tokens a cache holds. *)
Definition fed_tokens (c : Cache) : list Z := match kv c with [Some l] => take (len l) (b_data (k l)) | _ => [] end.
Definition holds_rows (n : nat) (b : ByteBuf) (f : list Z) : Prop := b_size b = n /\ take (length f) (b_data b) = f.
Definition toy_holds (c : Cache) (f : list Z) : Prop :=
  pos c = length f /\ recur c = [None] /\ length f <= max_ctx c
  /\ exists bk bv d, kv c = [Some (mkKv bk bv 1 1 1 1 (length f) d)] /\ holds_rows (max_ctx c) bk f /\ holds_rows (max_ctx c) bv f.
Definition toy_born (n : nat) : D Cache :=
  let b := mkBytes 0 5 (replicate n 0%Z) in
  ret (mkKvCache [Some (mkKv b b 1 1 1 1 0 (mkInt 0 5 0))] [None] 0 n).

Lemma rows_append n l b f ts : len l = length f -> holds_rows n b f -> length f + length ts <= n -> holds_rows n (append_rows l b ts) (f ++ ts).
Proof.
  intros Hl [Hs Ht] Hle. unfold holds_rows, append_rows, b_size in *. cbn [b_data]. rewrite Hl. split.
  - rewrite !length_app, length_take, length_drop. lia.
  - rewrite Ht, app_assoc. apply take_app_length.
Qed.
Lemma feed_holds c f ts : toy_holds c f -> length f + length ts <= max_ctx c -> toy_holds (feed c ts) (f ++ ts) /\ max_ctx (feed c ts) = max_ctx c.
Proof.
  intros (Hp & Hr & _ & bk & bv & d & Hk & Hbk & Hbv) Hle. unfold feed. rewrite Hk. split; [|done].
  unfold toy_holds. cbn [pos max_ctx recur kv k v len len_d]. rewrite Hp, length_app. split; [done|]. split; [done|]. split; [lia|].
  eexists _, _, _. split; [done|]. by split; apply rows_append.
Qed.
Lemma fed_tokens_holds c f : toy_holds c f -> fed_tokens c = f.
Proof. intros (_ & _ & _ & bk & bv & d & Hk & [_ Hbk] & _). unfold fed_tokens. by rewrite Hk. Qed.
Lemma toy_born_ok n w : wp (toy_born n) (fun c _ => toy_holds c [] /\ max_ctx c = n) (fun _ _ => True) w.
Proof.
  apply wp_ret. split; [|done]. split; [done|]. split; [done|]. split; [simpl; lia|]. eexists _, _, _. split; [done|].
  by split; (split; [unfold b_size; cbn; by rewrite length_replicate|]).
Qed.
End ToyRows.
