(* ===== verification/Gguf.v ===== *)
(** The GGUF reader: [memra-gguf/src/lib.rs].

    A file is its bytes, an unreadable path an error of the parameter [fs].
    Strings of the file are decoded by [from_utf8_lossy]; a float stays the
    bits it is stored as.  [Alloc] says which [Vec::with_capacity] calls the
    allocator can serve: the reader sizes three vectors by counts read from the
    file.  Arithmetic wraps, as in a release build. *)
From S2P Require Import Prelude Effects RustStr Utf8.
Local Open Scope Z_scope.

Definition GGUF_MAGIC : Z := 1179993927.
Definition GGUF_DEFAULT_ALIGNMENT : Z := 32.

(** ** Tensor types *)

Inductive GgmlType :=
  | F32 | F16 | Q4_0 | Q4_1 | Q5_0 | Q5_1 | Q8_0 | Q8_1 | Q2_K | Q3_K | Q4_K | Q5_K
  | Q6_K | Q8_K | IQ2_XXS | IQ2_XS | IQ3_XXS | IQ1_S | IQ4_NL | IQ3_S | IQ2_S | IQ4_XS
  | I8 | I16 | I32 | I64 | F64 | IQ1_M | BF16 | TQ1_0 | TQ2_0 | MXFP4 | NVFP4 | Q1_0.
#[export] Instance GgmlType_eq_dec : EqDecision GgmlType.
Proof. solve_decision. Defined.
(** [t as u32] *)
Definition type_id (t : GgmlType) : Z :=
  match t with
  | F32 => 0 | F16 => 1 | Q4_0 => 2 | Q4_1 => 3 | Q5_0 => 6 | Q5_1 => 7
  | Q8_0 => 8 | Q8_1 => 9 | Q2_K => 10 | Q3_K => 11 | Q4_K => 12 | Q5_K => 13
  | Q6_K => 14 | Q8_K => 15 | IQ2_XXS => 16 | IQ2_XS => 17 | IQ3_XXS => 18
  | IQ1_S => 19 | IQ4_NL => 20 | IQ3_S => 21 | IQ2_S => 22 | IQ4_XS => 23
  | I8 => 24 | I16 => 25 | I32 => 26 | I64 => 27 | F64 => 28 | IQ1_M => 29
  | BF16 => 30 | TQ1_0 => 34 | TQ2_0 => 35 | MXFP4 => 39 | NVFP4 => 40 | Q1_0 => 41
  end.
Definition from_u32 (v : Z) : option GgmlType :=
  match v with
  | 0 => Some F32 | 1 => Some F16 | 2 => Some Q4_0 | 3 => Some Q4_1 | 6 => Some Q5_0 | 7 => Some Q5_1
  | 8 => Some Q8_0 | 9 => Some Q8_1 | 10 => Some Q2_K | 11 => Some Q3_K | 12 => Some Q4_K | 13 => Some Q5_K
  | 14 => Some Q6_K | 15 => Some Q8_K | 16 => Some IQ2_XXS | 17 => Some IQ2_XS | 18 => Some IQ3_XXS
  | 19 => Some IQ1_S | 20 => Some IQ4_NL | 21 => Some IQ3_S | 22 => Some IQ2_S | 23 => Some IQ4_XS
  | 24 => Some I8 | 25 => Some I16 | 26 => Some I32 | 27 => Some I64 | 28 => Some F64 | 29 => Some IQ1_M
  | 30 => Some BF16 | 34 => Some TQ1_0 | 35 => Some TQ2_0 | 39 => Some MXFP4 | 40 => Some NVFP4 | 41 => Some Q1_0
  | _ => None
  end.
(** Elements and bytes of a block; [None] is the panic. *)
Definition block_and_type_size (t : GgmlType) : option (Z * Z) :=
  match t with
  | F32 => Some (1, 4) | F16 => Some (1, 2) | BF16 => Some (1, 2) | F64 => Some (1, 8)
  | I8 => Some (1, 1) | I16 => Some (1, 2) | I32 => Some (1, 4) | I64 => Some (1, 8)
  | Q4_0 => Some (32, 18)
  | Q4_1 => Some (32, 20)
  | Q5_0 => Some (32, 22)
  | Q5_1 => Some (32, 24)
  | Q8_0 => Some (32, 34)
  | Q8_1 => Some (32, 36)
  | Q2_K => Some (256, 84)
  | Q3_K => Some (256, 110)
  | Q4_K => Some (256, 144)
  | Q5_K => Some (256, 176)
  | Q6_K => Some (256, 210)
  | Q8_K => Some (256, 292)
  | IQ4_NL => Some (32, 18)
  | IQ4_XS => Some (256, 136)
  | IQ2_XXS => Some (256, 66)
  | IQ2_XS => Some (256, 74)
  | IQ2_S => Some (256, 82)
  | IQ3_XXS => Some (256, 98)
  | IQ3_S => Some (256, 110)
  | IQ1_S => Some (256, 50)
  | IQ1_M => Some (256, 56)
  | MXFP4 => Some (32, 17)
  | NVFP4 => Some (64, 36)
  | TQ1_0 | TQ2_0 | Q1_0 => None
  end.

(** ** Metadata *)

#[warnings="-register-all"]
Inductive MetaValue :=
  | VU8 (v : Z) | VI8 (v : Z) | VU16 (v : Z) | VI16 (v : Z) | VU32 (v : Z) | VI32 (v : Z)
  | VU64 (v : Z) | VI64 (v : Z) | VF32 (bits : Z) | VF64 (bits : Z) | VBool (b : bool)
  | VString (s : str) | VArray (l : list MetaValue).

Definition as_u64 (v : MetaValue) : option Z :=
  match v with
  | VU8 v | VU16 v | VU32 v | VU64 v => Some v
  | VI8 v | VI16 v | VI32 v | VI64 v => Some (wrap 64 v)
  | VBool b => Some (if b then 1 else 0)
  | _ => None
  end.
Definition as_str (v : MetaValue) : option str := match v with VString s => Some s | _ => None end.
Fixpoint all_str (l : list MetaValue) : option (list str) :=
  match l with
  | [] => Some []
  | v :: l => s ← as_str v; r ← all_str l; Some (s :: r)
  end.
Definition as_str_array (v : MetaValue) : option (list str) :=
  match v with VArray a => all_str a | _ => None end.

Record TensorInfo := mkTensor {
  name : str;
  ne : list Z;
  ggml_type : GgmlType;
  offset : Z;
  n_bytes : Z;
  shard : nat;
}.
(** The product wraps. *)
Definition product (l : list Z) : Z := foldl (fun a x => wrap 64 (a * x)) 1 l.
Definition n_elements (t : TensorInfo) : Z := product (ne t).

(** ** The cursor *)

Record Cursor := mkCursor { buf : list Z; cpos : nat }.
Inductive IoErr := ENotFound | EBadMagic (magic : Z) | EBadVersion (v : Z) | ENotSplitName.
Definition C := M Cursor IoErr.

(** Which [with_capacity(n)] succeed, by element type. *)
Class Alloc := {
  cap_meta : Z -> bool;
  cap_tensor : Z -> bool;
  cap_dim : Z -> bool;
}.

Definition read (n : nat) : C (list Z) :=
  c ← get;
  massert (cpos c + n <=? length (buf c))%nat;;
  put (mkCursor (buf c) (cpos c + n));;
  ret (take n (drop (cpos c) (buf c))).
Definition read_uint (n : nat) : C Z := bs ← read n; ret (from_le bs).
Definition read_sint (n : nat) (w : Z) : C Z := x ← read_uint n; ret (to_signed w x).
Definition u32 : C Z := read_uint 4.
Definition i64 : C Z := read_sint 8 64.
Definition u64 : C Z := read_uint 8.
(** The length is compared as a [Z]: it can be far past any file. *)
Definition string_ : C str :=
  len ← u64;
  c ← get;
  massert (Z.of_nat (cpos c) + len <=? Z.of_nat (length (buf c)));;
  bs ← read (Z.to_nat len);
  ret (from_utf8_lossy bs).

(** [for _ in 0..n { v.push(m) }]: every [m] used here reads at least one byte
    or panics, so one turn per byte left is enough fuel. *)
Fixpoint times {A} (fuel : nat) (n : Z) (m : C A) : C (list A) :=
  if n <=? 0 then ret []
  else match fuel with
       | O => panic
       | S fuel => x ← m; xs ← times fuel (n - 1) m; ret (x :: xs)
       end.
Definition left_bytes (c : Cursor) : nat := length (buf c) - cpos c.
Definition for_range {A} (n : Z) (m : C A) : C (list A) := c ← get; times (S (left_bytes c)) n m.

Section Reader.
Context {al : Alloc}.

(** [depth] bounds the nesting of arrays; each level reads 12 bytes. *)
Fixpoint value (depth : nat) (ty : Z) : C MetaValue :=
  match depth with
  | O => panic
  | S depth =>
      match ty with
      | 0 => x ← read_uint 1; ret (VU8 x)
      | 1 => x ← read_sint 1 8; ret (VI8 x)
      | 2 => x ← read_uint 2; ret (VU16 x)
      | 3 => x ← read_sint 2 16; ret (VI16 x)
      | 4 => x ← u32; ret (VU32 x)
      | 5 => x ← read_sint 4 32; ret (VI32 x)
      | 6 => x ← read_uint 4; ret (VF32 x)
      | 7 => x ← read_uint 1; ret (VBool (negb (x =? 0)))
      | 8 => s ← string_; ret (VString s)
      | 9 =>
          elem_type ← u32;
          n ← u64;
          massert (cap_meta n);;
          v ← for_range n (value depth elem_type);
          ret (VArray v)
      | 10 => x ← u64; ret (VU64 x)
      | 11 => x ← i64; ret (VI64 x)
      | 12 => x ← read_uint 8; ret (VF64 x)
      | _ => panic
      end
  end.
Definition read_kv : C (str * MetaValue) :=
  key ← string_;
  vtype ← u32;
  c ← get;
  val ← value (S (left_bytes c)) vtype;
  ret (key, val).
Definition read_tensor : C TensorInfo :=
  name ← string_;
  n_dims ← u32;
  massert (cap_dim n_dims);;
  ne ← for_range n_dims (x ← i64; ret (wrap 64 x));
  ty ← u32;
  ty ← unwrap (from_u32 ty);
  offset ← u64;
  let n_elems := product ne in
  bt ← unwrap (block_and_type_size ty);
  massert (n_elems mod bt.1 =? 0);;
  ret (mkTensor name ne ty offset (wrap 64 (n_elems / bt.1 * bt.2)) 0).

Definition alignment_of (meta : gmap str MetaValue) : Z :=
  default GGUF_DEFAULT_ALIGNMENT (v ← meta !! lit "general.alignment"; as_u64 v).
Record Parsed := mkParsed {
  p_bytes : list Z;
  p_start : Z;
  p_version : Z;
  p_meta : gmap str MetaValue;
  p_tensors : list TensorInfo;
}.
Definition insert_all (l : list (str * MetaValue)) : gmap str MetaValue :=
  foldl (fun m kv => <[kv.1 := kv.2]> m) ∅ l.
Definition parse_header : C Parsed :=
  magic ← u32;
  if negb (magic =? GGUF_MAGIC) then throw (EBadMagic magic) else
  version ← u32;
  if negb (version =? 3) then throw (EBadVersion version) else
  n_tensors ← i64;
  n_kv ← i64;
  kvs ← for_range n_kv read_kv;
  let metadata := insert_all kvs in
  let alignment := alignment_of metadata in
  massert (cap_tensor (wrap 64 n_tensors));;
  tensors ← for_range n_tensors read_tensor;
  c ← get;
  let header_end := Z.of_nat (cpos c) in
  massert (negb (alignment =? 0));;
  ret (mkParsed (buf c) (wrap 64 (div_ceil header_end alignment * alignment)) version metadata tensors).
Definition parse_bytes (bs : list Z) : outcome IoErr Parsed := (parse_header (mkCursor bs 0)).2.

(** ** Files and shards *)

(** A path: its parent and its file name. *)
Record Path := mkPath { dir : str; file_name : str }.
#[export] Instance Path_eq_dec : EqDecision Path.
Proof. solve_decision. Defined.
Record Shard := mkShard { mmap : list Z; path : Path; data_start : Z }.
Record GgufFile := mkGguf {
  shards : list Shard;
  version : Z;
  metadata : gmap str MetaValue;
  tensors : list TensorInfo;
  g_data_start : Z;
  alignment : Z;
}.

(** The last occurrence of [p], by the first one of the reversed string. *)
Definition rsplit_once (p s : str) : option (str * str) :=
  x ← split_once (reverse p) (reverse s); Some (reverse x.2, reverse x.1).
Definition strip_suffix (p s : str) : option str := reverse <$> strip_prefix (reverse p) (reverse s).
Definition all_digits (s : str) : bool := forallb is_ascii_digit s.
(** [{i:05}] *)
Definition pad5 (n : Z) : str := let s := show_uint n in replicate (5 - length s) 48 ++ s.
Definition shard_name (prefix : str) (i count : Z) : str :=
  prefix ++ lit "-" ++ pad5 i ++ lit "-of-" ++ pad5 count ++ lit ".gguf".
Definition split_sibling_paths (p : Path) (count : Z) : option (list Path) :=
  stem ← strip_suffix (lit ".gguf") (file_name p);
  ht ← rsplit_once (lit "-of-") stem;
  if negb (length (utf8 ht.2) =? 5)%nat || negb (all_digits ht.2) then None else
  pn ← rsplit_once (lit "-") ht.1;
  if negb (length (utf8 pn.2) =? 5)%nat || negb (all_digits pn.2) then None else
  Some ((fun i => mkPath (dir p) (shard_name pn.1 (Z.of_nat i) count)) <$> seq 1 (Z.to_nat count)).

Context (fs : Path -> option (list Z)).

Definition parse_one (p : Path) : outcome IoErr Parsed :=
  bs ← ok_or (fs p) ENotFound; parse_bytes bs.
Definition meta_u64 (key : string) (m : gmap str MetaValue) : option Z := v ← m !! lit key; as_u64 v.
Definition set_shard (i : nat) (t : TensorInfo) : TensorInfo :=
  mkTensor (name t) (ne t) (ggml_type t) (offset t) (n_bytes t) i.

(** The merge loop: shard [i] must say it is shard [i] of [count]; the first
    shard's metadata wins. *)
Fixpoint merge_shards (ver count : Z) (i : nat) (ps : list Path)
    (acc : list Shard * list TensorInfo * gmap str MetaValue)
    : outcome IoErr (list Shard * list TensorInfo * gmap str MetaValue) :=
  match ps with
  | [] => Ok acc
  | p :: ps =>
      x ← parse_one p;
      assert_that (p_version x =? ver);;
      assert_that (default 0 (meta_u64 "split.no" (p_meta x)) =? Z.of_nat i);;
      assert_that (default 0 (meta_u64 "split.count" (p_meta x)) =? count);;
      let '(shs, ts, merged) := acc in
      merge_shards ver count (S i) ps
        (shs ++ [mkShard (p_bytes x) p (p_start x)], ts ++ (set_shard i <$> p_tensors x), merged ∪ p_meta x)
  end.
Definition open (p : Path) : outcome IoErr GgufFile :=
  x ← parse_one p;
  let split_count := default 0 (meta_u64 "split.count" (p_meta x)) in
  if split_count <=? 1 then
    Ok (mkGguf [mkShard (p_bytes x) p (p_start x)] (p_version x) (p_meta x) (set_shard 0 <$> p_tensors x)
          (p_start x) (alignment_of (p_meta x)))
  else
    paths ← ok_or (split_sibling_paths p split_count) ENotSplitName;
    let total_expected := default 0 (meta_u64 "split.tensors.count" (p_meta x)) in
    m ← merge_shards (p_version x) split_count 0 paths ([], [], ∅);
    let '(shs, all, merged) := m in
    assert_that (negb (0 <? total_expected) || (Z.of_nat (length all) =? total_expected));;
    sh0 ← or_panic (head shs);
    Ok (mkGguf shs (p_version x) merged all (data_start sh0) (alignment_of merged)).

Definition tensor_file_range (g : GgufFile) (t : TensorInfo) : outcome IoErr (Z * Z) :=
  sh ← or_panic (shards g !! shard t);
  let start := wrap 64 (data_start sh + offset t) in
  Ok (start, wrap 64 (start + n_bytes t)).
(** [&mmap[start..end]] *)
Definition tensor_data (g : GgufFile) (t : TensorInfo) : outcome IoErr (list Z) :=
  sh ← or_panic (shards g !! shard t);
  r ← tensor_file_range g t;
  assert_that ((r.1 <=? r.2) && (r.2 <=? Z.of_nat (length (mmap sh))));;
  Ok (take (Z.to_nat (r.2 - r.1)) (drop (Z.to_nat r.1) (mmap sh))).
Definition n_shards (g : GgufFile) : nat := length (shards g).
Definition find (g : GgufFile) (n : str) : option TensorInfo :=
  snd <$> list_find (fun t => name t = n) (tensors g).
Definition arch (g : GgufFile) : option str := v ← metadata g !! lit "general.architecture"; as_str v.
Definition meta_arch (g : GgufFile) (suffix : str) : option MetaValue :=
  match arch g with
  | Some a =>
      match metadata g !! (a ++ lit "." ++ suffix) with
      | Some v => Some v
      | None => metadata g !! suffix
      end
  | None => metadata g !! suffix
  end.

(** ** What the cursor reads

    [parses m bs v]: [m] at bytes [bs] returns [v] and stops right after them. *)
Definition rest_of (c : Cursor) : list Z := drop (cpos c) (buf c).
Definition parses {A} (m : C A) (bs : list Z) (v : A) : Prop :=
  forall c tl, rest_of c = bs ++ tl -> (cpos c <= length (buf c))%nat ->
    m c = (mkCursor (buf c) (cpos c + length bs), Ok v).

Lemma rest_after c bs tl : rest_of c = bs ++ tl -> (cpos c <= length (buf c))%nat ->
  rest_of (mkCursor (buf c) (cpos c + length bs)) = tl /\ (cpos c + length bs <= length (buf c))%nat.
Proof.
  unfold rest_of. simpl. intros H Hle. split.
  - by rewrite <-drop_drop, H, drop_app_length.
  - apply (f_equal length) in H. rewrite length_drop, length_app in H. lia.
Qed.
Lemma parses_ret {A} (v : A) : parses (ret v) [] v.
Proof. intros [b p] tl _ _. unfold ret. simpl. by rewrite Nat.add_0_r. Qed.
Lemma parses_bind {A B} (m : C A) (k : A -> C B) bs1 bs2 v w :
  parses m bs1 v -> parses (k v) bs2 w -> parses (m ≫= k) (bs1 ++ bs2) w.
Proof.
  intros H1 H2 c tl Hc Hle. rewrite <-app_assoc in Hc. unfold mbind, M_bind, bind.
  rewrite (H1 c _ Hc Hle). destruct (rest_after _ _ _ Hc Hle) as [Hr Hl].
  rewrite (H2 _ _ Hr Hl). simpl. by rewrite length_app, Nat.add_assoc.
Qed.
Lemma parses_bind_ret {A B} (m : C A) (f : A -> B) bs v :
  parses m bs v -> parses (x ← m; ret (f x)) bs (f v).
Proof.
  intros H. rewrite <-(app_nil_r bs). eapply parses_bind; [exact H|apply parses_ret].
Qed.
Lemma parses_assert {B} (b : bool) (k : unit -> C B) bs w :
  b = true -> parses (k tt) bs w -> parses (massert b ≫= k) bs w.
Proof. intros -> H. exact (parses_bind (ret tt) k [] bs tt w (parses_ret tt) H). Qed.
Lemma parses_get {B} (k : Cursor -> C B) bs w :
  (forall c, (cpos c + length bs <= length (buf c))%nat -> parses (k c) bs w) -> parses (c ← get; k c) bs w.
Proof.
  intros H c tl Hc Hle. unfold mbind, M_bind, bind, get. apply H with tl; [|done|done].
  by destruct (rest_after _ _ _ Hc Hle).
Qed.
Lemma parses_read n bs : length bs = n -> parses (read n) bs bs.
Proof.
  intros <- c tl Hc Hle. destruct (rest_after _ _ _ Hc Hle) as [_ Hl].
  unfold read, mbind, M_bind, bind, get. rewrite (proj2 (Nat.leb_le _ _)) by done. simpl.
  unfold put, ret. f_equal. f_equal. change (take (length bs) (rest_of c) = bs). by rewrite Hc, take_app_length.
Qed.
Lemma from_to_le_u n x : 0 <= x < 256 ^ Z.of_nat n -> from_le (to_le n x) = x.
Proof. intros H. rewrite from_to_le. by apply Z.mod_small. Qed.
Lemma parses_uint n x : 0 <= x < 256 ^ Z.of_nat n -> parses (read_uint n) (to_le n x) x.
Proof.
  intros H. unfold read_uint. rewrite <-(from_to_le_u n x H) at 2. apply parses_bind_ret.
  apply parses_read, to_le_length.
Qed.
Lemma to_signed_wrap w x : 0 < w -> - 2 ^ (w - 1) <= x < 2 ^ (w - 1) -> to_signed w (wrap w x) = x.
Proof.
  intros Hw Hx. unfold to_signed, wrap. rewrite Z.mod_mod by (pose proof (Z.pow_pos_nonneg 2 w); lia).
  assert (H2 : 2 ^ w = 2 * 2 ^ (w - 1)) by (rewrite <-Z.pow_succ_r by lia; f_equal; lia).
  destruct (Z.ltb_spec x 0).
  - rewrite <-(Z.mod_add x 1 (2 ^ w)) by lia. rewrite Z.mod_small by lia.
    rewrite (proj2 (Z.ltb_ge _ _)) by lia. lia.
  - rewrite Z.mod_small by lia. rewrite (proj2 (Z.ltb_lt _ _)) by lia. done.
Qed.
Lemma parses_sint n w x :
  0 < w -> 2 ^ w = 256 ^ Z.of_nat n -> - 2 ^ (w - 1) <= x < 2 ^ (w - 1) ->
  parses (read_sint n w) (to_le n (wrap w x)) x.
Proof.
  intros Hw He Hx. unfold read_sint. rewrite <-(to_signed_wrap w x Hw Hx) at 2. apply parses_bind_ret.
  apply parses_uint. rewrite <-He. apply wrap_in_u. lia.
Qed.

(** *** Strings *)

(** A string a file can hold. *)
Definition str_ok (s : str) : Prop := Forall is_char s /\ Z.of_nat (length (utf8 s)) < 2 ^ 64.
Definition enc_str (s : str) : list Z := to_le 8 (Z.of_nat (length (utf8 s))) ++ utf8 s.
Lemma parses_string s : str_ok s -> parses string_ (enc_str s) s.
Proof.
  intros [Hc Hl]. unfold string_, enc_str. eapply parses_bind; [by apply parses_uint; split; [lia|]|].
  apply parses_get. intros c Hlen. apply parses_assert.
  { apply Z.leb_le. lia. }
  rewrite Nat2Z.id.
  pose proof (parses_bind_ret (read (length (utf8 s))) from_utf8_lossy _ _ (parses_read _ (utf8 s) eq_refl)) as P.
  by rewrite (from_utf8_utf8 s Hc) in P.
Qed.

(** *** Loops *)

Lemma times_nonpos {A} fuel n (m : C A) : n <= 0 -> times fuel n m = ret [].
Proof. intros H. destruct fuel; simpl; by rewrite (proj2 (Z.leb_le _ _)). Qed.
Lemma parses_times {A} fuel (m : C A) (enc : A -> list Z) (xs : list A) :
  (length xs <= fuel)%nat -> Forall (fun x => parses m (enc x) x) xs ->
  parses (times fuel (Z.of_nat (length xs)) m) (xs ≫= enc) xs.
Proof.
  intros Hf H. revert fuel Hf. induction H as [|x xs Hx H IH]; intros fuel Hf.
  - rewrite times_nonpos by (simpl; lia). apply parses_ret.
  - destruct fuel as [|fuel]; [simpl in Hf; lia|]. cbn [length times]. rewrite (proj2 (Z.leb_gt _ _)) by lia.
    cbn [mbind list_bind]. eapply parses_bind; [exact Hx|].
    replace (Z.of_nat (S (length xs)) - 1) with (Z.of_nat (length xs)) by lia.
    apply parses_bind_ret. apply IH. simpl in Hf. lia.
Qed.
(** A loop whose elements take at least a byte each has fuel enough. *)
Lemma parses_for_range {A} (m : C A) (enc : A -> list Z) (xs : list A) :
  Forall (fun x => (1 <= length (enc x))%nat /\ parses m (enc x) x) xs ->
  parses (for_range (Z.of_nat (length xs)) m) (xs ≫= enc) xs.
Proof.
  intros H. unfold for_range. apply parses_get. intros c Hc. apply parses_times.
  - assert (length xs <= length (xs ≫= enc))%nat; [|unfold left_bytes; lia].
    clear Hc c. induction H as [|x xs [Hx _] H IH]; [done|]. cbn [mbind list_bind length]. rewrite length_app.
    change (list_bind _ _ enc xs) with (xs ≫= enc). lia.
  - eapply Forall_impl; [exact H|]. by intros x [_ Hx].
Qed.

(** *** Values *)

Definition value_type (v : MetaValue) : Z :=
  match v with
  | VU8 _ => 0 | VI8 _ => 1 | VU16 _ => 2 | VI16 _ => 3 | VU32 _ => 4 | VI32 _ => 5 | VF32 _ => 6
  | VBool _ => 7 | VString _ => 8 | VArray _ => 9 | VU64 _ => 10 | VI64 _ => 11 | VF64 _ => 12
  end.
(** An empty array is written with element type 0. *)
Definition elem_type_of (l : list MetaValue) : Z := match l with [] => 0 | v :: _ => value_type v end.
(** The bytes of a value, as the layout comment of the source gives them. *)
Fixpoint enc_value (v : MetaValue) : list Z :=
  match v with
  | VU8 x => to_le 1 x
  | VI8 x => to_le 1 (wrap 8 x)
  | VU16 x => to_le 2 x
  | VI16 x => to_le 2 (wrap 16 x)
  | VU32 x => to_le 4 x
  | VI32 x => to_le 4 (wrap 32 x)
  | VF32 x => to_le 4 x
  | VBool b => to_le 1 (if b then 1 else 0)
  | VString s => enc_str s
  | VArray l => to_le 4 (elem_type_of l) ++ to_le 8 (Z.of_nat (length l)) ++ concat (map enc_value l)
  | VU64 x => to_le 8 x
  | VI64 x => to_le 8 (wrap 64 x)
  | VF64 x => to_le 8 x
  end.
(** Nesting of arrays, counting the value itself. *)
Fixpoint vdepth (v : MetaValue) : nat :=
  match v with VArray l => S (foldr Nat.max 0%nat (map vdepth l)) | _ => 1%nat end.
Definition in_s (w x : Z) : Prop := - 2 ^ (w - 1) <= x < 2 ^ (w - 1).
(** Values a file can hold; array elements have one type. *)
Inductive value_ok : MetaValue -> Prop :=
  | ok_u8 x : in_u 8 x -> value_ok (VU8 x)
  | ok_i8 x : in_s 8 x -> value_ok (VI8 x)
  | ok_u16 x : in_u 16 x -> value_ok (VU16 x)
  | ok_i16 x : in_s 16 x -> value_ok (VI16 x)
  | ok_u32 x : in_u 32 x -> value_ok (VU32 x)
  | ok_i32 x : in_s 32 x -> value_ok (VI32 x)
  | ok_f32 x : in_u 32 x -> value_ok (VF32 x)
  | ok_bool b : value_ok (VBool b)
  | ok_string s : str_ok s -> value_ok (VString s)
  | ok_array l : Z.of_nat (length l) < 2 ^ 64 -> cap_meta (Z.of_nat (length l)) = true ->
      (forall v, v ∈ l -> value_type v = elem_type_of l) -> (forall v, v ∈ l -> value_ok v) -> value_ok (VArray l)
  | ok_u64 x : in_u 64 x -> value_ok (VU64 x)
  | ok_i64 x : in_s 64 x -> value_ok (VI64 x)
  | ok_f64 x : in_u 64 x -> value_ok (VF64 x).

Lemma enc_value_nonempty v : (1 <= length (enc_value v))%nat.
Proof.
  destruct v; cbn [enc_value]; unfold enc_str; rewrite ?length_app, ?to_le_length; lia.
Qed.
Lemma value_type_range v : 0 <= value_type v <= 12.
Proof. destruct v; simpl; lia. Qed.
Lemma elem_type_range l : 0 <= elem_type_of l < 256 ^ Z.of_nat 4.
Proof. destruct l as [|v l]; simpl; [lia|]. pose proof (value_type_range v). lia. Qed.
Lemma vdepth_elem v l : v ∈ l -> (vdepth v <= foldr Nat.max 0%nat (map vdepth l))%nat.
Proof.
  induction 1 as [v l|v w l H IH]; simpl; lia.
Qed.
Lemma concat_map_bind {A B} (f : A -> list B) l : concat (map f l) = l ≫= f.
Proof. induction l as [|x l IH]; simpl; [done|]. by rewrite IH. Qed.

Lemma parses_value depth v :
  value_ok v -> (vdepth v <= depth)%nat -> parses (value depth (value_type v)) (enc_value v) v.
Proof.
  intros H. revert depth. induction H as [| | | | | | | | |l Hl Hcap Hty Hel IH| | |]; intros [|depth] Hd;
    try (simpl in Hd; lia); cbn [value value_type enc_value].
  all: try (apply parses_bind_ret; first [apply parses_uint; assumption
    | apply parses_sint; [done|done|assumption] | by apply parses_string]).
  - replace (VBool b) with (VBool (negb ((if b then 1 else 0) =? 0))) by (by destruct b).
    apply (parses_bind_ret (read_uint 1) (fun x => VBool (negb (x =? 0)))). apply parses_uint. destruct b; simpl; lia.
  - eapply parses_bind; [apply parses_uint, elem_type_range|].
    eapply parses_bind; [apply parses_uint; split; [lia|exact Hl]|]. apply parses_assert; [done|].
    apply parses_bind_ret. rewrite concat_map_bind. apply parses_for_range. apply Forall_forall. intros v Hv.
    split; [apply enc_value_nonempty|]. rewrite <-(Hty v Hv). apply IH; [done|].
    simpl in Hd. pose proof (vdepth_elem v l Hv). lia.
Qed.
(** Every level of nesting takes bytes, so the bytes left bound it. *)
Lemma vdepth_bytes v : (vdepth v <= length (enc_value v))%nat.
Proof.
  revert v. fix IH 1. intros [ | | | | | | | | | | | |l]; try (apply enc_value_nonempty).
  cbn [vdepth enc_value]. rewrite !length_app, !to_le_length.
  assert (foldr Nat.max 0%nat (map vdepth l) <= length (concat (map enc_value l)))%nat; [|lia].
  induction l as [|v l IHl]; simpl; [lia|]. rewrite length_app. pose proof (IH v). lia.
Qed.
Lemma parses_kv key v :
  str_ok key -> value_ok v ->
  parses read_kv (enc_str key ++ to_le 4 (value_type v) ++ enc_value v) (key, v).
Proof.
  intros Hk Hv. unfold read_kv. eapply parses_bind; [by apply parses_string|].
  eapply parses_bind; [apply parses_uint; pose proof (value_type_range v); simpl; lia|].
  apply parses_get. intros c Hc. apply (parses_bind_ret _ (fun val => (key, val))). apply parses_value; [done|].
  pose proof (vdepth_bytes v). unfold left_bytes. lia.
Qed.

(** *** Tensors *)

Definition enc_tensor (t : TensorInfo) : list Z :=
  enc_str (name t) ++ to_le 4 (Z.of_nat (length (ne t))) ++ (ne t ≫= to_le 8) ++
  to_le 4 (type_id (ggml_type t)) ++ to_le 8 (offset t).
(** A tensor info a file can hold; its size is that of its blocks. *)
Record tensor_ok (t : TensorInfo) : Prop := {
  t_name : str_ok (name t);
  t_dims : Z.of_nat (length (ne t)) < 2 ^ 32 /\ cap_dim (Z.of_nat (length (ne t))) = true;
  t_ne : Forall (fun d => 0 <= d < 2 ^ 64) (ne t);
  t_offset : 0 <= offset t < 2 ^ 64;
  t_bytes : exists blk size, block_and_type_size (ggml_type t) = Some (blk, size) /\
    n_elements t mod blk = 0 /\ n_bytes t = wrap 64 (n_elements t / blk * size);
  t_shard : shard t = 0%nat;
}.
Lemma from_u32_type_id t : from_u32 (type_id t) = Some t.
Proof. by destruct t. Qed.
Lemma type_id_range t : 0 <= type_id t < 256 ^ Z.of_nat 4.
Proof. by destruct t. Qed.
Lemma parses_dim d : 0 <= d < 2 ^ 64 -> parses (x ← i64; ret (wrap 64 x)) (to_le 8 d) d.
Proof.
  intros Hd. assert (E : to_le 8 d = to_le 8 (wrap 64 (to_signed 64 d)) /\ wrap 64 (to_signed 64 d) = d /\
    - 2 ^ 63 <= to_signed 64 d < 2 ^ 63).
  { unfold to_signed, wrap. rewrite (Z.mod_small d) by lia. destruct (Z.ltb_spec d (2 ^ (64 - 1))) as [Hlt|Hge].
    - rewrite Z.mod_small by lia. split; [done|]. split; [done|]. simpl in Hlt. lia.
    - rewrite <-(Z.mod_add (d - 2 ^ 64) 1 (2 ^ 64)) by lia.
      replace (d - 2 ^ 64 + 1 * 2 ^ 64) with d by lia. rewrite Z.mod_small by lia.
      split; [done|]. split; [done|]. simpl in Hge. lia. }
  destruct E as (-> & E & Hr). rewrite <-E at 2. apply (parses_bind_ret i64 (wrap 64)). apply parses_sint; done.
Qed.
Lemma parses_tensor t : tensor_ok t -> parses read_tensor (enc_tensor t) t.
Proof.
  intros [Hn [Hd Hcap] Hne Ho (blk & size & Hb & Hm & Hs) Hsh]. unfold read_tensor, enc_tensor.
  eapply parses_bind; [by apply parses_string|].
  eapply parses_bind; [apply parses_uint; split; [lia|exact Hd]|]. apply parses_assert; [done|].
  eapply parses_bind.
  { apply parses_for_range. eapply Forall_impl; [exact Hne|]. intros d Hdd. split; [rewrite to_le_length; lia|].
    by apply parses_dim. }
  eapply parses_bind; [apply parses_uint, type_id_range|]. rewrite from_u32_type_id.
  change (parses ((x ← ret (ggml_type t); (offset0 ← u64;
    let n_elems := product (ne t) in
    bt ← unwrap (block_and_type_size x);
    massert (n_elems mod bt.1 =? 0);;
    ret (mkTensor (name t) (ne t) x offset0 (wrap 64 (n_elems / bt.1 * bt.2)) 0)))) ([] ++ to_le 8 (offset t)) t).
  eapply parses_bind; [apply parses_ret|]. rewrite <-(app_nil_r (to_le 8 _)).
  eapply parses_bind; [by apply parses_uint|]. cbv zeta. rewrite Hb.
  refine (parses_bind (ret (blk, size)) _ [] [] (blk, size) t (parses_ret _) _).
  apply parses_assert; [by apply Z.eqb_eq|]. simpl. fold (n_elements t). rewrite <-Hs.
  destruct t; simpl in *; subst. apply parses_ret.
Qed.

(** *** Whole files *)

Record File := mkFile { f_kvs : list (str * MetaValue); f_tensors : list TensorInfo; f_data : list Z }.
Definition enc_kv (kv : str * MetaValue) : list Z :=
  enc_str kv.1 ++ to_le 4 (value_type kv.2) ++ enc_value kv.2.
Definition enc_header (f : File) : list Z :=
  to_le 4 GGUF_MAGIC ++ to_le 4 3 ++ to_le 8 (Z.of_nat (length (f_tensors f))) ++
  to_le 8 (Z.of_nat (length (f_kvs f))) ++ (f_kvs f ≫= enc_kv) ++ (f_tensors f ≫= enc_tensor).
Definition file_start (f : File) : Z :=
  let a := alignment_of (insert_all (f_kvs f)) in
  div_ceil (Z.of_nat (length (enc_header f))) a * a.
(** Header, padding to the alignment, tensor data. *)
Definition encode (f : File) : list Z :=
  enc_header f ++ replicate (Z.to_nat (file_start f) - length (enc_header f)) 0 ++ f_data f.
Record file_ok (f : File) : Prop := {
  fo_kvs : Forall (fun kv => str_ok kv.1 /\ value_ok kv.2) (f_kvs f);
  fo_tensors : Forall tensor_ok (f_tensors f);
  fo_cap : cap_tensor (Z.of_nat (length (f_tensors f))) = true;
  fo_align : 0 < alignment_of (insert_all (f_kvs f));
  fo_size : file_start f + Z.of_nat (length (f_data f)) < 2 ^ 63;
}.

(** Running a computation up to its result, step by step. *)
Lemma step_parses {A B} (m : C A) (k : A -> C B) bs v c tl X :
  parses m bs v -> rest_of c = bs ++ tl -> (cpos c <= length (buf c))%nat ->
  (rest_of (mkCursor (buf c) (cpos c + length bs)) = tl -> (cpos c + length bs <= length (buf c))%nat ->
     (k v (mkCursor (buf c) (cpos c + length bs))).2 = X) ->
  ((m ≫= k) c).2 = X.
Proof.
  intros H Hc Hle Hk. unfold mbind, M_bind, bind. rewrite (H c tl Hc Hle).
  destruct (rest_after c bs tl Hc Hle). by apply Hk.
Qed.
Lemma step_assert {B} (b : bool) (k : unit -> C B) c X : b = true -> (k tt c).2 = X -> ((massert b ≫= k) c).2 = X.
Proof. by intros ->. Qed.
Lemma step_get {B} (k : Cursor -> C B) c X : (k c c).2 = X -> ((get ≫= k) c).2 = X.
Proof. done. Qed.

Lemma header_counts f : file_ok f ->
  (length (f_tensors f) <= length (enc_header f))%nat /\ (length (f_kvs f) <= length (enc_header f))%nat.
Proof.
  intros _. unfold enc_header. rewrite !length_app.
  assert (H : forall A (enc : A -> list Z) xs, (forall x, 1 <= length (enc x))%nat ->
    (length xs <= length (xs ≫= enc))%nat).
  { intros A enc xs He. induction xs as [|x xs IH]; [done|]. cbn [mbind list_bind length]. rewrite length_app.
    change (list_bind _ _ enc xs) with (xs ≫= enc). pose proof (He x). lia. }
  pose proof (H _ enc_kv (f_kvs f)) as H1. pose proof (H _ enc_tensor (f_tensors f)) as H2.
  assert (forall kv, 1 <= length (enc_kv kv))%nat.
  { intros kv. unfold enc_kv, enc_str. rewrite !length_app, !to_le_length. lia. }
  assert (forall t, 1 <= length (enc_tensor t))%nat.
  { intros t. unfold enc_tensor, enc_str. rewrite !length_app, !to_le_length. lia. }
  specialize (H1 ltac:(done)). specialize (H2 ltac:(done)). lia.
Qed.
Lemma file_start_bounds f : file_ok f ->
  Z.of_nat (length (enc_header f)) <= file_start f < 2 ^ 63 /\
  file_start f < Z.of_nat (length (enc_header f)) + alignment_of (insert_all (f_kvs f)).
Proof.
  intros H. pose proof (fo_size _ H) as Hs. unfold file_start in *. cbv zeta in *.
  pose proof (div_ceil_bounds (Z.of_nat (length (enc_header f))) _ (fo_align _ H)). lia.
Qed.
Lemma parse_encode f : file_ok f ->
  parse_bytes (encode f) = Ok (mkParsed (encode f) (file_start f) 3 (insert_all (f_kvs f)) (f_tensors f)).
Proof.
  intros H. destruct (header_counts f H) as [Hct Hck]. destruct (file_start_bounds f H) as [Hst _].
  unfold parse_bytes. set (c := mkCursor (encode f) 0).
  assert (Hc : rest_of c = encode f) by done.
  assert (Hle : (cpos c <= length (buf c))%nat) by (simpl; lia).
  remember (encode f) as bs eqn:Hbs. rewrite Hbs in Hc. unfold encode, enc_header in Hc. rewrite <-!app_assoc in Hc.
  unfold parse_header.
  eapply step_parses; [exact (parses_uint 4 GGUF_MAGIC ltac:(done))|exact Hc|exact Hle|]. clear Hc Hle. intros Hc Hle.
  rewrite Z.eqb_refl. cbn [negb].
  eapply step_parses; [exact (parses_uint 4 3 ltac:(done))|exact Hc|exact Hle|]. clear Hc Hle. intros Hc Hle.
  rewrite Z.eqb_refl. cbn [negb].
  assert (Hsg : forall n, (n <= length (enc_header f))%nat -> parses i64 (to_le 8 (Z.of_nat n)) (Z.of_nat n)).
  { intros n Hn. replace (to_le 8 (Z.of_nat n)) with (to_le 8 (wrap 64 (Z.of_nat n))).
    - apply parses_sint; [done|done|]. lia.
    - f_equal. apply wrap_small. unfold in_u. lia. }
  eapply step_parses; [exact (Hsg _ Hct)|exact Hc|exact Hle|]. clear Hc Hle. intros Hc Hle.
  eapply step_parses; [exact (Hsg _ Hck)|exact Hc|exact Hle|]. clear Hc Hle. intros Hc Hle.
  assert (Hkv : parses (for_range (Z.of_nat (length (f_kvs f))) read_kv) (f_kvs f ≫= enc_kv) (f_kvs f)).
  { apply parses_for_range. eapply Forall_impl; [exact (fo_kvs _ H)|]. intros [k v] [Hk Hv]. simpl in Hk, Hv.
    split; [unfold enc_kv, enc_str; rewrite !length_app, !to_le_length; lia|]. by apply parses_kv. }
  eapply step_parses; [exact Hkv|exact Hc|exact Hle|]. clear Hc Hle. intros Hc Hle. cbv zeta.
  apply step_assert; [rewrite wrap_small by (unfold in_u; lia); exact (fo_cap _ H)|].
  assert (Hts : parses (for_range (Z.of_nat (length (f_tensors f))) read_tensor) (f_tensors f ≫= enc_tensor) (f_tensors f)).
  { apply parses_for_range. eapply Forall_impl; [exact (fo_tensors _ H)|]. intros t Ht.
    split; [unfold enc_tensor, enc_str; rewrite !length_app, !to_le_length; lia|]. by apply parses_tensor. }
  eapply step_parses; [exact Hts|exact Hc|exact Hle|]. clear Hc Hle. intros Hc Hle.
  apply step_get, step_assert; [rewrite (proj2 (Z.eqb_neq _ 0)) by (pose proof (fo_align _ H); lia); done|].
  unfold ret. cbn [snd buf cpos c] in Hc, Hle |- *.
  match goal with |- Ok (mkParsed _ (wrap 64 (div_ceil (Z.of_nat ?n) _ * _)) _ _ _) = _ =>
    assert (Hend : n = length (enc_header f)) end.
  { unfold enc_header. rewrite !length_app, !to_le_length. simpl. lia. }
  rewrite Hend. f_equal. f_equal. apply (wrap_small 64 (file_start f)). unfold in_u. lia.
Qed.

Lemma step_run {A B} (m : C A) (k : A -> C B) c c' v X :
  m c = (c', Ok v) -> (k v c').2 = X -> ((m ≫= k) c).2 = X.
Proof. intros H. unfold mbind, M_bind, bind. by rewrite H. Qed.

Lemma set_shard_id t : shard t = 0%nat -> set_shard 0 t = t.
Proof. destruct t. simpl. by intros ->. Qed.
Lemma set_shard_all l : Forall tensor_ok l -> set_shard 0 <$> l = l.
Proof.
  induction 1 as [|t l Ht H IH]; [done|]. cbn [fmap list_fmap]. rewrite set_shard_id by exact (t_shard _ Ht).
  f_equal. exact IH.
Qed.
(** A slice at [start] of what follows the first [start] bytes. *)
Lemma tensor_slice g t sh bs start data :
  shards g !! shard t = Some sh -> mmap sh = bs -> data_start sh = start ->
  drop (Z.to_nat start) bs = data -> 0 <= start -> Z.of_nat (length bs) = start + Z.of_nat (length data) ->
  Z.of_nat (length bs) < 2 ^ 63 -> 0 <= offset t -> 0 <= n_bytes t ->
  offset t + n_bytes t <= Z.of_nat (length data) ->
  tensor_data g t = Ok (take (Z.to_nat (n_bytes t)) (drop (Z.to_nat (offset t)) data)).
Proof.
  intros Hsh Hm Hs Hd H0 Hl Hlt Ho Hn Hin. unfold tensor_data, tensor_file_range. rewrite Hsh. cbn [or_panic mbind outcome_bind].
  rewrite Hs, Hm. rewrite (wrap_small 64 (start + offset t)) by (unfold in_u; lia).
  rewrite wrap_small by (unfold in_u; lia). cbn [fst snd].
  rewrite (proj2 (Z.leb_le _ _)) by lia. rewrite (proj2 (Z.leb_le _ _)) by lia. cbn [andb assert_that mbind outcome_bind].
  f_equal. replace (start + offset t + n_bytes t - (start + offset t)) with (n_bytes t) by lia.
  rewrite Z2Nat.inj_add by lia. by rewrite <-drop_drop, Hd.
Qed.

(** C11. Reading a file gives back what was written: for every metadata map,
    tensor table and data blob a GGUF v3 file can hold, [open] returns exactly
    them, the data section starts at the next multiple of the alignment, and
    [tensor_data] of a tensor that lies in the blob is its bytes. *)
Theorem gguf_roundtrip (p : Path) (f : File) :
  file_ok f -> fs p = Some (encode f) -> default 0 (meta_u64 "split.count" (insert_all (f_kvs f))) <= 1 ->
  exists g, open p = Ok g /\ metadata g = insert_all (f_kvs f) /\ tensors g = f_tensors f /\ n_shards g = 1%nat /\
    g_data_start g mod alignment g = 0 /\
    Z.of_nat (length (enc_header f)) <= g_data_start g < Z.of_nat (length (enc_header f)) + alignment g /\
    forall t, t ∈ f_tensors f -> 0 <= offset t + n_bytes t <= Z.of_nat (length (f_data f)) ->
      tensor_data g t = Ok (take (Z.to_nat (n_bytes t)) (drop (Z.to_nat (offset t)) (f_data f))).
Proof.
  intros H Hfs Hsplit. destruct (file_start_bounds f H) as [Hst Hst2].
  eexists. split.
  { unfold open, parse_one. rewrite Hfs. cbn [ok_or mbind outcome_bind]. rewrite (parse_encode f H).
    cbn [mbind outcome_bind p_meta p_bytes p_start p_version p_tensors].
    rewrite (proj2 (Z.leb_le _ _)) by exact Hsplit. reflexivity. }
  cbn [metadata tensors g_data_start alignment n_shards shards length].
  split; [done|]. split; [apply set_shard_all, (fo_tensors _ H)|]. split; [done|].
  split; [unfold file_start; apply Z.mod_mul; pose proof (fo_align _ H); lia|]. split; [lia|].
  intros t Ht Hin. pose proof (proj1 (Forall_forall _ _) (fo_tensors _ H) t Ht) as Hok.
  assert (Hlen : (length (enc_header f) <= Z.to_nat (file_start f))%nat) by lia.
  pose proof (fo_size _ H) as Hsz. destruct (t_bytes _ Hok) as (blk & size & _ & _ & Hnb).
  apply (tensor_slice _ t (mkShard (encode f) p (file_start f)) (encode f) (file_start f) (f_data f)); try done; try lia.
  - cbn [shards]. by rewrite (t_shard _ Hok).
  - unfold encode. rewrite app_assoc. apply drop_app_length'. rewrite length_app, length_replicate. lia.
  - unfold encode. rewrite !length_app, length_replicate. lia.
  - unfold encode. rewrite !length_app, length_replicate. lia.
  - pose proof (t_offset _ Hok). lia.
  - rewrite Hnb. apply wrap_in_u. lia.
Qed.

(** C13. A file that is not GGUF v3 is refused with an error that quotes what
    was read, never a panic, whatever follows its first eight bytes. *)
Theorem gguf_header_errors (p : Path) (bs : list Z) :
  fs p = Some bs -> (8 <= length bs)%nat ->
  let magic := from_le (take 4 bs) in
  let v := from_le (take 4 (drop 4 bs)) in
  (magic <> GGUF_MAGIC -> open p = Err (EBadMagic magic)) /\
  (magic = GGUF_MAGIC -> v <> 3 -> open p = Err (EBadVersion v)).
Proof.
  intros Hfs Hlen magic v.
  assert (Hread : forall c, (cpos c + 4 <= length (buf c))%nat ->
    u32 c = (mkCursor (buf c) (cpos c + 4), Ok (from_le (take 4 (drop (cpos c) (buf c)))))).
  { intros c Hc. unfold u32, read_uint, read, mbind, M_bind, bind, get. by rewrite (proj2 (Nat.leb_le _ _)) by done. }
  assert (Hopen : open p = (x ← parse_bytes bs; open p)).
  { unfold open, parse_one. rewrite Hfs. cbn [ok_or mbind outcome_bind]. by destruct (parse_bytes bs). }
  assert (Hp : (magic <> GGUF_MAGIC -> parse_bytes bs = Err (EBadMagic magic)) /\
    (magic = GGUF_MAGIC -> v <> 3 -> parse_bytes bs = Err (EBadVersion v))).
  { unfold parse_bytes, parse_header. split.
    - intros Hm. eapply step_run; [apply Hread; simpl; lia|]. cbn [cpos buf]. rewrite drop_0. fold magic.
      by rewrite (proj2 (Z.eqb_neq _ _) Hm).
    - intros Hm Hv. eapply step_run; [apply Hread; simpl; lia|]. cbn [cpos buf]. rewrite drop_0. fold magic.
      rewrite Hm, Z.eqb_refl. cbn [negb]. eapply step_run; [apply Hread; simpl; lia|]. cbn [cpos buf].
      change (0 + 4)%nat with 4%nat. fold v. by rewrite (proj2 (Z.eqb_neq _ _) Hv). }
  rewrite Hopen. destruct Hp as [H1 H2]. split; [intros Hm; by rewrite (H1 Hm)|intros Hm Hv; by rewrite (H2 Hm Hv)].
Qed.

(** *** The fuel is enough *)

Definition cur_ok (c : Cursor) : Prop := (cpos c <= length (buf c))%nat.
(** A successful [m] reads at least [k] bytes of the same buffer. *)
Definition advances {A} (k : nat) (m : C A) : Prop :=
  forall c c' v, cur_ok c -> m c = (c', Ok v) -> buf c' = buf c /\ (cpos c + k <= cpos c')%nat /\ cur_ok c'.

Lemma advances_bind {A B} j k (m : C A) (f : A -> C B) :
  advances j m -> (forall x, advances k (f x)) -> advances (j + k) (m ≫= f).
Proof.
  intros Hm Hf c c' v Hc. unfold mbind, M_bind, bind. destruct (m c) as [c1 [x|e|]] eqn:E; try done.
  intros H. destruct (Hm _ _ _ Hc E) as (B1 & P1 & O1). destruct (Hf x _ _ _ O1 H) as (B2 & P2 & O2).
  split; [congruence|]. split; [lia|done].
Qed.
Lemma advances_weaken {A} j k (m : C A) : (k <= j)%nat -> advances j m -> advances k m.
Proof. intros Hk H c c' v Hc E. destruct (H _ _ _ Hc E) as (? & ? & ?). split; [done|]. split; [lia|done]. Qed.
Lemma advances_ret {A} (v : A) : advances 0 (ret v).
Proof. intros c c' w Hc [= <- <-]. split; [done|]. split; [lia|done]. Qed.
Lemma advances_get : advances 0 (get : C Cursor).
Proof. intros c c' w Hc [= <- <-]. split; [done|]. split; [lia|done]. Qed.
Lemma advances_assert b : advances 0 (massert b : C unit).
Proof. destruct b; [apply advances_ret|]. intros c c' w Hc. done. Qed.
Lemma advances_unwrap {A} (o : option A) : advances 0 (unwrap o : C A).
Proof. destruct o; [apply advances_ret|]. intros c c' w Hc. done. Qed.
Lemma advances_panic {A} k : advances k (panic : C A).
Proof. intros c c' w Hc. done. Qed.
Lemma advances_read n : advances n (read n).
Proof.
  intros c c' v Hc. unfold read, mbind, M_bind, bind, get, massert.
  destruct (Nat.leb_spec (cpos c + n) (length (buf c))) as [Hle|]; [|done]. intros [= <- <-].
  split; [done|]. split; [simpl; lia|]. unfold cur_ok. simpl. done.
Qed.
Ltac adv := first [apply advances_ret | apply advances_get | apply advances_assert | apply advances_unwrap
  | apply advances_panic | apply advances_read].
Lemma advances_uint n : advances n (read_uint n).
Proof. apply (advances_weaken (n + 0)); [lia|]. apply advances_bind; [adv|intros; adv]. Qed.
Lemma advances_sint n w : advances n (read_sint n w).
Proof. apply (advances_weaken (n + 0)); [lia|]. apply advances_bind; [apply advances_uint|intros; adv]. Qed.
Lemma advances_string : advances 8 string_.
Proof.
  apply (advances_bind 8 0); [apply advances_uint|intros len]. apply (advances_bind 0 0); [adv|intros c].
  apply (advances_bind 0 0); [adv|intros _]. apply (advances_weaken (Z.to_nat len + 0)); [lia|].
  apply advances_bind; [adv|intros; adv].
Qed.
Lemma advances_times {A} fuel n (m : C A) : advances 0 m -> advances 0 (times fuel n m).
Proof.
  intros Hm. revert n. induction fuel as [|fuel IH]; intros n; simpl; destruct (n <=? 0); try adv.
  apply (advances_bind 0 0); [done|intros x]. apply (advances_bind 0 0); [apply IH|intros; adv].
Qed.
Lemma advances_for_range {A} n (m : C A) : advances 0 m -> advances 0 (for_range n m).
Proof. intros Hm. apply (advances_bind 0 0); [adv|intros c]. by apply advances_times. Qed.
Lemma advances_value depth ty : advances 1 (value depth ty).
Proof.
  revert ty. induction depth as [|depth IH]; intros ty; cbn [value]; [adv|].
  repeat match goal with
  | |- advances _ (match ?x with _ => _ end) => destruct x
  end; try adv;
  try (apply (advances_weaken (1 + 0)); [lia|]; apply advances_bind; [|intros; adv];
    first [apply advances_uint | apply advances_sint
      | eapply advances_weaken; [|apply advances_uint]; lia
      | eapply advances_weaken; [|apply advances_sint]; lia
      | eapply advances_weaken; [|apply advances_string]; lia]).
  apply (advances_weaken (4 + 0)); [lia|]. apply advances_bind; [apply advances_uint|intros elem].
  apply (advances_bind 0 0); [eapply advances_weaken; [|apply advances_uint]; lia|intros n].
  apply (advances_bind 0 0); [adv|intros _]. apply (advances_bind 0 0); [|intros; adv].
  apply advances_for_range. eapply advances_weaken; [|apply IH]. lia.
Qed.
Lemma advances_kv : advances 1 read_kv.
Proof.
  apply (advances_weaken (8 + 0)); [lia|]. apply advances_bind; [apply advances_string|intros key].
  apply (advances_bind 0 0); [eapply advances_weaken; [|apply advances_uint]; lia|intros ty].
  apply (advances_bind 0 0); [adv|intros c]. apply (advances_bind 0 0); [|intros; adv].
  eapply advances_weaken; [|apply advances_value]. lia.
Qed.
Lemma advances_tensor : advances 1 read_tensor.
Proof.
  apply (advances_weaken (8 + 0)); [lia|]. apply advances_bind; [apply advances_string|intros nm].
  apply (advances_bind 0 0); [eapply advances_weaken; [|apply advances_uint]; lia|intros nd].
  apply (advances_bind 0 0); [adv|intros _]. apply (advances_bind 0 0).
  { apply advances_for_range. apply (advances_bind 0 0); [|intros; adv].
    eapply advances_weaken; [|apply advances_sint]; lia. }
  intros ds. apply (advances_bind 0 0); [eapply advances_weaken; [|apply advances_uint]; lia|intros t].
  apply (advances_bind 0 0); [adv|intros ty]. apply (advances_bind 0 0); [eapply advances_weaken; [|apply advances_uint]; lia|intros o].
  cbv zeta. apply (advances_bind 0 0); [adv|intros bt]. apply (advances_bind 0 0); [adv|intros; adv].
Qed.

Lemma times_fuel {A} fuel fuel' n (m m' : C A) c :
  advances 1 m -> cur_ok c -> (left_bytes c < fuel)%nat -> (left_bytes c < fuel')%nat ->
  (forall c', buf c' = buf c -> (cpos c <= cpos c')%nat -> cur_ok c' -> m c' = m' c') ->
  times fuel n m c = times fuel' n m' c.
Proof.
  intros Hadv. revert fuel' n c. induction fuel as [|fuel IH]; intros [|fuel'] n c Hc Hf Hf' Heq; try lia.
  cbn [times]. destruct (n <=? 0); [done|]. unfold mbind, M_bind, bind. rewrite <-(Heq c eq_refl (Nat.le_refl _) Hc).
  destruct (m c) as [c1 [x|e|]] eqn:E; try done. destruct (Hadv _ _ _ Hc E) as (Hb & Hp & Ho).
  assert (Hl : (left_bytes c1 < left_bytes c)%nat) by (unfold left_bytes, cur_ok in *; rewrite Hb in *; lia).
  rewrite (IH fuel' (n - 1) c1 Ho); [done|lia|lia|].
  intros c' Hb' Hp' Ho'. apply Heq; [congruence|lia|done].
Qed.
Lemma bind_cong {A B} (m : C A) (f g : A -> C B) c :
  (forall c' v, m c = (c', Ok v) -> f v c' = g v c') -> (m ≫= f) c = (m ≫= g) c.
Proof. intros H. unfold mbind, M_bind, bind. destruct (m c) as [c1 [x|e|]] eqn:E; [by apply H|done|done]. Qed.
Lemma value_fuel depth depth' ty c :
  cur_ok c -> (left_bytes c < depth)%nat -> (left_bytes c < depth')%nat -> value depth ty c = value depth' ty c.
Proof.
  revert depth' ty c. induction depth as [|depth IH]; intros [|depth'] ty c Hc Hd Hd'; try lia.
  cbn [value]. repeat match goal with |- (match ?x with _ => _ end) _ = _ => destruct x end; try reflexivity.
  apply bind_cong. intros c1 elem E1. apply bind_cong. intros c2 n E2.
  destruct (advances_uint 4 _ _ _ Hc E1) as (B1 & P1 & O1). destruct (advances_uint 8 _ _ _ O1 E2) as (B2 & P2 & O2).
  apply bind_cong. intros c3 [] E3. destruct (advances_assert _ _ _ _ O2 E3) as (B3 & P3 & O3).
  unfold for_range. unfold mbind, M_bind, bind, get.
  rewrite (times_fuel (S (left_bytes c3)) (S (left_bytes c3)) n (value depth elem) (value depth' elem) c3); [done|..].
  - apply advances_value.
  - done.
  - lia.
  - lia.
  - intros c' Hb Hp Ho. unfold left_bytes, cur_ok in *. rewrite Hb, B3, B2, B1 in *. apply IH; unfold left_bytes, cur_ok; rewrite ?Hb, ?B3, ?B2, ?B1; try lia.
Qed.

(** The reader always finishes: the loops and the nesting are bounded by
    the bytes that are left, so more turns or a deeper recursion than the model
    allows never change what is read. *)
Theorem gguf_fuel_enough (depth fuel : nat) (ty n : Z) (c : Cursor) :
  (cpos c <= length (buf c))%nat -> (left_bytes c < depth)%nat -> (left_bytes c < fuel)%nat ->
  value depth ty c = value (S (left_bytes c)) ty c /\
  times fuel n (value depth ty) c = for_range n (value (S (left_bytes c)) ty) c /\
  times fuel n read_kv c = for_range n read_kv c /\ times fuel n read_tensor c = for_range n read_tensor c.
Proof.
  intros Hc Hd Hf. split; [apply value_fuel; [done|done|lia]|].
  unfold for_range. unfold mbind, M_bind, bind, get. split; [|split]; apply times_fuel; try done; try lia.
  - apply advances_value.
  - intros c' Hb Hp Ho. apply value_fuel; [done|..]; unfold left_bytes in *; rewrite Hb; lia.
  - apply advances_kv.
  - apply advances_tensor.
Qed.

(** *** Split models *)

Lemma split_once_first a q s t :
  a ∉ s -> split_once (a :: q) (s ++ a :: q ++ t) = Some (s, t).
Proof.
  intros Hs. induction s as [|c s IH].
  - cbn [app split_once]. destruct (a :: q ++ t) eqn:E; [done|]. rewrite <-E.
    replace (strip_prefix (a :: q) (a :: q ++ t)) with (Some t); [done|]. symmetry. by apply strip_prefix_Some.
  - cbn [app]. cbn [split_once]. destruct (strip_prefix (a :: q) (c :: s ++ a :: q ++ t)) as [r|] eqn:E.
    { cbn [strip_prefix] in E. destruct (Z.eqb_spec a c) as [->|]; [|done]. exfalso. apply Hs. left. }
    rewrite IH; [done|]. intros Hin. apply Hs. by right.
Qed.
Lemma rsplit_once_last q a s t :
  a ∉ t -> rsplit_once (q ++ [a]) (s ++ (q ++ [a]) ++ t) = Some (s, t).
Proof.
  intros Ht. unfold rsplit_once. rewrite !reverse_app. rewrite <-app_assoc. cbn [reverse rev_append app].
  change (reverse [a]) with [a]. cbn [app].
  rewrite (split_once_first a (reverse q) (reverse t) (reverse s)) by (by rewrite elem_of_reverse).
  cbn [mbind option_bind fst snd]. by rewrite !reverse_involutive.
Qed.
Lemma strip_suffix_app p s : strip_suffix p (s ++ p) = Some s.
Proof.
  unfold strip_suffix. rewrite reverse_app.
  replace (strip_prefix (reverse p) (reverse p ++ reverse s)) with (Some (reverse s)).
  - cbn [fmap option_fmap option_map]. by rewrite reverse_involutive.
  - symmetry. by apply strip_prefix_Some.
Qed.

Lemma digits_rev_length fuel n k : (1 <= k)%nat -> 0 <= n < 10 ^ Z.of_nat k -> (length (digits_rev fuel n) <= k)%nat.
Proof.
  revert n k. induction fuel as [|fuel IH]; intros n k Hk Hn; cbn [digits_rev length]; [lia|].
  destruct (Z.ltb_spec n 10); [simpl; lia|]. destruct k as [|[|k]]; [lia|simpl in Hn; lia|].
  enough (length (digits_rev fuel (n / 10)) <= S k)%nat by lia. apply IH; [lia|]. split; [apply Z.div_pos; lia|].
  apply Z.div_lt_upper_bound; [lia|]. rewrite <-Z.pow_succ_r, <-Nat2Z.inj_succ by lia. lia.
Qed.
Lemma pad5_spec n : 0 <= n <= 99999 -> length (pad5 n) = 5%nat /\ Forall (fun c => 48 <= c <= 57) (pad5 n).
Proof.
  intros Hn. unfold pad5.
  assert (Hl : (length (show_uint n) <= 5)%nat).
  { unfold show_uint. rewrite length_reverse. apply digits_rev_length; [lia|]. simpl. lia. }
  split; [rewrite length_app, length_replicate; lia|]. apply Forall_app. split; [|apply show_uint_digits; lia].
  apply Forall_replicate. lia.
Qed.
Lemma digits_utf8 s : Forall (fun c => 48 <= c <= 57) s -> length (utf8 s) = length s /\ all_digits s = true.
Proof.
  induction 1 as [|c s Hc H [IH1 IH2]]; [done|]. rewrite utf8_cons, length_app, IH1. unfold utf8_char.
  rewrite (proj2 (Z.ltb_lt _ _)) by lia. split; [done|]. unfold all_digits in *. cbn [forallb]. rewrite IH2, andb_true_r.
  unfold is_ascii_digit. by rewrite !(proj2 (Z.leb_le _ _)) by lia.
Qed.
Lemma digits_no_dash s : Forall (fun c => 48 <= c <= 57) s -> 45 ∉ s.
Proof. intros H Hin. rewrite Forall_forall in H. specialize (H _ Hin). simpl in H. lia. Qed.

Definition sibling (d prefix : str) (count : Z) (i : nat) : Path :=
  mkPath d (shard_name prefix (Z.of_nat i) count).
(** Any member of a set names all of it. *)
Lemma sibling_paths d prefix count i :
  0 <= count <= 99999 -> Z.of_nat i <= count ->
  split_sibling_paths (sibling d prefix count i) count = Some (sibling d prefix count <$> seq 1 (Z.to_nat count)).
Proof.
  intros Hc Hi. destruct (pad5_spec count Hc) as [Lc Dc]. destruct (pad5_spec (Z.of_nat i) ltac:(lia)) as [Li Di].
  destruct (digits_utf8 _ Dc) as [Uc Ac]. destruct (digits_utf8 _ Di) as [Ui Ai].
  unfold split_sibling_paths, sibling. cbn [file_name dir].
  assert (E1 : strip_suffix (lit ".gguf") (shard_name prefix (Z.of_nat i) count) =
    Some ((prefix ++ lit "-" ++ pad5 (Z.of_nat i)) ++ lit "-of-" ++ pad5 count)).
  { unfold shard_name. rewrite !app_assoc. rewrite strip_suffix_app. by rewrite <-!app_assoc. }
  rewrite E1. cbn [mbind option_bind].
  assert (E2 : rsplit_once (lit "-of-") ((prefix ++ lit "-" ++ pad5 (Z.of_nat i)) ++ lit "-of-" ++ pad5 count)
    = Some (prefix ++ lit "-" ++ pad5 (Z.of_nat i), pad5 count)).
  { change (lit "-of-") with ([45; 111; 102] ++ [45]). apply rsplit_once_last. by apply digits_no_dash. }
  rewrite E2. cbn [mbind option_bind fst snd]. rewrite Uc, Ac, Lc. cbn [Nat.eqb negb orb].
  assert (E3 : rsplit_once (lit "-") (prefix ++ lit "-" ++ pad5 (Z.of_nat i)) = Some (prefix, pad5 (Z.of_nat i))).
  { change (lit "-") with ([] ++ [45]). apply rsplit_once_last. by apply digits_no_dash. }
  rewrite E3. cbn [mbind option_bind fst snd]. by rewrite Ui, Ai, Li.
Qed.

(** One file per index, each saying which one it is. *)
Definition shard_says (ver count : Z) (i : nat) (p : Path) (x : Parsed) : Prop :=
  parse_one p = Ok x /\ p_version x = ver /\ meta_u64 "split.no" (p_meta x) = Some (Z.of_nat i) /\
  meta_u64 "split.count" (p_meta x) = Some count.
Definition shards_of (ps : list Path) (xs : list Parsed) : list Shard :=
  zip_with (fun p x => mkShard (p_bytes x) p (p_start x)) ps xs.
Definition tensors_of (i : nat) (xs : list Parsed) : list TensorInfo :=
  concat (imap (fun k x => set_shard (i + k) <$> p_tensors x) xs).
Definition metas (m : gmap str MetaValue) (xs : list Parsed) : gmap str MetaValue :=
  foldl (fun m x => m ∪ p_meta x) m xs.
Lemma tensors_of_cons i x xs : tensors_of i (x :: xs) = (set_shard i <$> p_tensors x) ++ tensors_of (S i) xs.
Proof.
  unfold tensors_of. cbn [imap concat]. rewrite Nat.add_0_r. f_equal. f_equal.
  apply imap_ext. intros k y _. simpl. by rewrite Nat.add_succ_r.
Qed.
Lemma merge_shards_ok ver count i ps xs acc :
  (forall k p x, ps !! k = Some p -> xs !! k = Some x -> shard_says ver count (i + k) p x) ->
  length ps = length xs ->
  merge_shards ver count i ps acc =
  Ok (acc.1.1 ++ shards_of ps xs, acc.1.2 ++ tensors_of i xs, metas acc.2 xs).
Proof.
  revert i xs acc. induction ps as [|p ps IH]; intros i [|x xs] [[shs ts] m] H Hl; simpl in Hl; try lia.
  - cbn. by rewrite !app_nil_r.
  - destruct (H 0%nat p x eq_refl eq_refl) as (Hp & Hv & Hn & Hc). rewrite Nat.add_0_r in Hn.
    cbn [merge_shards]. rewrite Hp. cbn [mbind outcome_bind]. rewrite Hv, Hn, Hc. cbn [default from_option id].
    rewrite !Z.eqb_refl. cbn [assert_that mbind outcome_bind]. rewrite (IH (S i) xs); [|intros k q y Hq Hy|lia].
    + cbn [fst snd]. rewrite tensors_of_cons. unfold metas. cbn [foldl shards_of zip_with]. unfold shards_of.
      by rewrite <-!app_assoc.
    + rewrite Nat.add_succ_l, <-Nat.add_succ_r. by apply (H (S k)).
Qed.
Lemma metas_first m xs k v : m !! k = Some v -> metas m xs !! k = Some v.
Proof.
  revert m. unfold metas. induction xs as [|x xs IH]; intros m H; [done|]. cbn [foldl]. apply IH.
  by apply lookup_union_Some_l.
Qed.
Lemma tensors_of_elem i xs k x t :
  xs !! k = Some x -> t ∈ p_tensors x -> set_shard (i + k) t ∈ tensors_of i xs.
Proof.
  revert i k. induction xs as [|y xs IH]; intros i [|k] Hx Ht; try done; rewrite tensors_of_cons; apply elem_of_app.
  - left. injection Hx as ->. rewrite Nat.add_0_r. apply list_elem_of_fmap. by exists t.
  - right. rewrite Nat.add_succ_r, <-Nat.add_succ_l. by apply IH.
Qed.

(** C12. A split model is one model: opening any shard of a consistent set gives
    the same file, with every shard's tensors in order, each addressed in its
    own shard's bytes, and the first shard's metadata. *)
Theorem gguf_split_merge (d prefix : str) (ver count : Z) (xs : list Parsed) :
  2 <= count <= 99999 -> Z.of_nat (length xs) = count ->
  (forall k x, xs !! k = Some x -> shard_says ver count k (sibling d prefix count (S k)) x /\
     meta_u64 "split.tensors.count" (p_meta x) ∈ [None; Some 0; Some (Z.of_nat (length (tensors_of 0 xs)))]) ->
  exists g, (forall k, (k < length xs)%nat -> open (sibling d prefix count (S k)) = Ok g) /\
    n_shards g = length xs /\ tensors g = tensors_of 0 xs /\
    (forall k x t, xs !! k = Some x -> t ∈ p_tensors x -> set_shard k t ∈ tensors g /\
       tensor_file_range g (set_shard k t) =
         Ok (wrap 64 (p_start x + offset t), wrap 64 (wrap 64 (p_start x + offset t) + n_bytes t))) /\
    (forall x key v, xs !! 0%nat = Some x -> p_meta x !! key = Some v -> metadata g !! key = Some v).
Proof.
  intros Hc Hlen H. set (ps := sibling d prefix count <$> seq 1 (Z.to_nat count)).
  assert (Hps : forall k, (k < length xs)%nat -> ps !! k = Some (sibling d prefix count (S k))).
  { intros k Hk. unfold ps. rewrite list_lookup_fmap, lookup_seq_lt by lia. done. }
  assert (Hl : length ps = length xs) by (unfold ps; rewrite length_fmap, length_seq; lia).
  destruct xs as [|x0 xs'] eqn:Hxs; [simpl in Hlen; lia|]. rewrite <-Hxs in *.
  assert (Hx0 : xs !! 0%nat = Some x0) by (by rewrite Hxs).
  assert (Hm : merge_shards ver count 0 ps ([], [], ∅) = Ok (shards_of ps xs, tensors_of 0 xs, metas ∅ xs)).
  { apply (merge_shards_ok ver count 0 ps xs ([], [], ∅)); [|done]. intros k p x Hp Hx.
    assert (k < length xs)%nat by (by eapply lookup_lt_Some). rewrite Hps in Hp by done. injection Hp as <-.
    by destruct (H k x Hx). }
  assert (Hsh0 : head (shards_of ps xs) = Some (mkShard (p_bytes x0) (sibling d prefix count 1) (p_start x0))).
  { rewrite head_lookup. unfold shards_of. apply lookup_zip_with_Some. exists (sibling d prefix count 1), x0.
    split; [done|]. split; [|done]. apply Hps. rewrite Hxs. simpl. lia. }
  exists (mkGguf (shards_of ps xs) ver (metas ∅ xs) (tensors_of 0 xs) (p_start x0) (alignment_of (metas ∅ xs))).
  split; [|split; [|split; [done|split]]].
  - intros k Hk. destruct (lookup_lt_is_Some_2 xs k Hk) as [x Hx]. destruct (H k x Hx) as [(Hp & Hv & Hn & Hcnt) Htot].
    unfold open. rewrite Hp. cbn [mbind outcome_bind]. rewrite Hcnt. cbn [default from_option id].
    rewrite (proj2 (Z.leb_gt _ _)) by lia. rewrite sibling_paths by lia. cbn [ok_or mbind outcome_bind].
    fold ps. rewrite Hv, Hm. cbn [mbind outcome_bind].
    assert (Ht : negb (0 <? default 0 (meta_u64 "split.tensors.count" (p_meta x))) ||
      (Z.of_nat (length (tensors_of 0 xs)) =? default 0 (meta_u64 "split.tensors.count" (p_meta x))) = true).
    { rewrite !elem_of_cons in Htot. destruct Htot as [->|[->|[->|Hno]]]; simpl; [done|done| |by apply not_elem_of_nil in Hno].
      rewrite Z.eqb_refl. apply orb_true_r. }
    rewrite Ht. cbn [assert_that mbind outcome_bind]. by rewrite Hsh0.
  - unfold n_shards, shards_of. cbn [shards]. rewrite length_zip_with. lia.
  - intros k x t Hx Ht. split; [by apply (tensors_of_elem 0 xs k x t)|].
    unfold tensor_file_range. cbn [shards shard set_shard].
    assert (E : shards_of ps xs !! k = Some (mkShard (p_bytes x) (sibling d prefix count (S k)) (p_start x))).
    { unfold shards_of. apply lookup_zip_with_Some. exists (sibling d prefix count (S k)), x.
      split; [done|]. split; [|done]. apply Hps. by eapply lookup_lt_Some. }
    by rewrite E.
  - intros x key v Hx Hv. cbn [metadata]. rewrite Hx0 in Hx. injection Hx as <-. rewrite Hxs.
    unfold metas. cbn [foldl]. apply metas_first. rewrite lookup_union, lookup_empty, Hv. done.
Qed.
End Reader.

(** ** Concrete files *)

Module ToyGguf.
#[export] Instance toy_alloc : Alloc := {
  cap_meta n := n <? 1000; cap_tensor n := n <? 1000; cap_dim n := n <? 1000;
}.
Lemma lit_char s : Forall is_char (lit s).
Proof.
  induction s as [|a s IH]; [constructor|]. unfold lit. fold lit. constructor; [|exact IH]. left.
  pose proof (Ascii.nat_ascii_bounded a). lia.
Qed.
Lemma lit_ok s : (Z.of_nat (length (utf8 (lit s))) <? 2 ^ 64) = true -> str_ok (lit s).
Proof. intros H. split; [apply lit_char|by apply Z.ltb_lt]. Qed.
Definition toy_file : File := mkFile
  [(lit "general.alignment", VU32 64); (lit "names", VArray [VString (lit "a"); VString (lit "bc")])]
  [mkTensor (lit "w") [4; 2] F32 0 32 0; mkTensor (lit "v") [32] Q8_0 32 34 0]
  (Z.of_nat <$> seq 0 66).
Definition toy_path : Path := mkPath (lit "/m") (lit "toy.gguf").
Definition toy_fs (p : Path) : option (list Z) := if bool_decide (p = toy_path) then Some (encode toy_file) else None.
Lemma toy_file_ok : file_ok toy_file.
Proof.
  split; try done.
  - repeat constructor; simpl; try (by apply lit_ok); try done.
    + intros v Hv. rewrite !elem_of_cons in Hv. by destruct Hv as [->|[->|Hv]]; [..|apply not_elem_of_nil in Hv].
    + intros v Hv. rewrite !elem_of_cons in Hv.
      destruct Hv as [->|[->|Hv]]; [by apply ok_string, lit_ok..|by apply not_elem_of_nil in Hv].
  - repeat constructor; simpl; try (by apply lit_ok); try lia; eexists _, _; by split_and!.
Qed.

(** The two shards of the source's own test. *)
Definition shard0 : File := mkFile
  [(lit "general.architecture", VString (lit "step35")); (lit "split.no", VU16 0); (lit "split.count", VU16 2);
   (lit "split.tensors.count", VI32 3)]
  [mkTensor (lit "blk.0.w") [8] F32 0 32 0; mkTensor (lit "blk.1.w") [4] F32 32 16 0]
  (replicate 32 161 ++ replicate 16 162).
Definition shard1 : File := mkFile
  [(lit "split.no", VU16 1); (lit "split.count", VU16 2); (lit "split.tensors.count", VI32 3)]
  [mkTensor (lit "blk.2.w") [16] F32 0 64 0] (replicate 64 177).
Definition split_path (i : nat) : Path := sibling (lit "/tmp") (lit "m") 2 i.
Definition split_fs (p : Path) : option (list Z) :=
  if bool_decide (p = split_path 1) then Some (encode shard0)
  else if bool_decide (p = split_path 2) then Some (encode shard1) else None.
Definition parsed (p : Path) : Parsed :=
  match parse_one split_fs p with Ok x => x | _ => mkParsed [] 0 0 ∅ [] end.
Lemma parsed_ok p : is_ok (parse_one split_fs p) = true -> parse_one split_fs p = Ok (parsed p).
Proof. unfold parsed. by destruct (parse_one split_fs p). Qed.
Definition both : list Parsed := [parsed (split_path 1); parsed (split_path 2)].
Lemma shard0_says : shard_says split_fs 3 2 0 (split_path 1) (parsed (split_path 1)).
Proof. split; [apply parsed_ok; by vm_compute|]. split_and!; vm_compute; reflexivity. Qed.
Lemma shard1_says : shard_says split_fs 3 2 1 (split_path 2) (parsed (split_path 2)).
Proof. split; [apply parsed_ok; by vm_compute|]. split_and!; vm_compute; reflexivity. Qed.
Lemma both_total : Z.of_nat (length (tensors_of 0 both)) = 3 /\
  meta_u64 "split.tensors.count" (p_meta (parsed (split_path 1))) = Some 3 /\
  meta_u64 "split.tensors.count" (p_meta (parsed (split_path 2))) = Some 3.
Proof. split_and!; vm_compute; reflexivity. Qed.
Lemma pair_lookup {A} (a b x : A) k : [a; b] !! k = Some x -> (k = 0%nat /\ x = a) \/ (k = 1%nat /\ x = b).
Proof. destruct k as [|[|k]]; [intros [= ->]; by left|intros [= ->]; by right|done]. Qed.
Definition opened (p : Path) : GgufFile :=
  match open split_fs p with Ok g => g | _ => mkGguf [] 0 ∅ [] 0 0 end.
Example split_values :
  (fun t => (shard t, offset t, n_bytes t)) <$> tensors (opened (split_path 2)) = [(0%nat, 0, 32); (0%nat, 32, 16); (1%nat, 0, 64)] /\
  arch (opened (split_path 2)) = Some (lit "step35") /\
  (t ← find (opened (split_path 2)) (lit "blk.2.w"); Some (tensor_data (opened (split_path 2)) t)) = Some (Ok (replicate 64 177)).
Proof. by vm_compute. Qed.
(** A header cut short panics instead of returning an error. *)
Example truncated_panics : parse_bytes [71; 71; 85; 70; 3; 0; 0; 0; 1] = Panic /\ parse_bytes [71; 71] = Panic.
Proof. by vm_compute. Qed.
(** So does an alignment of zero, or a type [from_u32] knows but whose size is not. *)
Example zero_alignment_panics :
  parse_bytes (encode (mkFile [(lit "general.alignment", VU32 0)] [] [])) = Panic.
Proof. by vm_compute. Qed.
Example ternary_type_panics : parse_bytes (encode (mkFile [] [mkTensor (lit "t") [256] TQ1_0 0 0 0] [])) = Panic.
Proof. by vm_compute. Qed.
End ToyGguf.
Import ToyGguf.

Lemma gguf_roundtrip_witness :
  exists g, open toy_fs toy_path = Ok g /\ g_data_start g = 192 /\
    tensor_data g (mkTensor (lit "v") [32] Q8_0 32 34 0) = Ok (Z.of_nat <$> seq 32 34).
Proof.
  assert (Hs : default 0 (meta_u64 "split.count" (insert_all (f_kvs toy_file))) <= 1) by (vm_compute; discriminate).
  destruct (gguf_roundtrip toy_fs toy_path toy_file toy_file_ok eq_refl Hs) as (g & Hg & _ & _ & _ & _ & _ & Hd).
  exists g. split; [exact Hg|]. split.
  - assert (E : (g ← open toy_fs toy_path; Ok (g_data_start g)) = Ok 192) by (vm_compute; reflexivity).
    rewrite Hg in E. by injection E.
  - rewrite Hd; [vm_compute; reflexivity| |].
    + right. left.
    + simpl. lia.
Defined.
Lemma gguf_header_errors_witness :
  open (fun _ => Some (lit "this is not a GGUF file")) toy_path = Err (EBadMagic 1936287860).
Proof.
  assert (Hl : (8 <= length (lit "this is not a GGUF file"))%nat) by (vm_compute; lia).
  refine (proj1 (gguf_header_errors (fun _ => Some (lit "this is not a GGUF file")) toy_path _ eq_refl Hl) _).
  vm_compute. discriminate.
Defined.
Lemma gguf_fuel_enough_witness :
  value 40 9 (mkCursor (to_le 4 0 ++ to_le 8 2 ++ [7; 8]) 0) = value 15 9 (mkCursor (to_le 4 0 ++ to_le 8 2 ++ [7; 8]) 0) /\
  (value 15 9 (mkCursor (to_le 4 0 ++ to_le 8 2 ++ [7; 8]) 0)).2 = Ok (VArray [VU8 7; VU8 8]).
Proof.
  split; [|by vm_compute]. apply (gguf_fuel_enough 40 40 9 0); unfold left_bytes; simpl; lia.
Defined.
Lemma gguf_split_merge_witness :
  exists g, (forall k, (k < 2)%nat -> open split_fs (split_path (S k)) = Ok g) /\ n_shards g = 2%nat.
Proof.
  destruct both_total as (Ht & H1 & H2).
  destruct (gguf_split_merge split_fs (lit "/tmp") (lit "m") 3 2 both) as (g & Hg & Hn & _); [lia|reflexivity| |].
  - intros k x [[-> ->]|[-> ->]]%pair_lookup.
    + split; [exact shard0_says|]. rewrite Ht, H1. right. right. left.
    + split; [exact shard1_says|]. rewrite Ht, H2. right. right. left.
  - exists g. split; [exact Hg|exact Hn].
Defined.
