(* ===== verification/UnicodeData.v ===== *)
(** The Unicode tables of [memra-tokenizer/src/unicode_data.rs]: code point
    ranges and their flags, the white space set, the lower-case map.  The
    numbers are those of the source, in decimal. *)
From S2P Require Import Prelude.
Local Open Scope Z_scope.

Definition UNICODE_RANGES_FLAGS : list (Z * Z) := [
  (0,128); (32,8); (33,32); (36,64); (37,32); (43,64); (44,32); (48,2); (58,32);
  (60,64); (63,32); (65,4); (91,32); (94,64); (95,32); (96,64); (97,4); (123,32);
  (124,64); (125,32); (126,64); (127,128); (160,8); (161,32); (162,64); (167,32); (168,64);
  (170,4); (171,32); (172,64); (173,128); (174,64); (178,2); (180,64); (181,4); (182,32);
  (184,64); (185,2); (186,4); (187,32); (188,2); (191,32); (192,4); (215,64); (216,4);
  (247,64); (248,4); (706,64); (710,4); (722,64); (736,4); (741,64); (748,4); (749,64);
  (750,4); (751,64); (768,16); (880,4); (885,64); (886,4); (888,1); (890,4); (894,32);
  (895,4); (896,1); (900,64); (902,4); (903,32); (904,4); (907,1); (908,4); (909,1);
  (910,4); (930,1); (931,4); (1014,64); (1015,4); (1154,64); (1155,16); (1162,4); (1328,1);
  (1329,4); (1367,1); (1369,4); (1370,32); (1376,4); (1417,32); (1419,1); (1421,64); (1424,1);
  (1425,16); (1470,32); (1471,16); (1472,32); (1473,16); (1475,32); (1476,16); (1478,32); (1479,16);
  (1480,1); (1488,4); (1515,1); (1519,4); (1523,32); (1525,1); (1536,128); (1542,64); (1545,32);
  (1547,64); (1548,32); (1550,64); (1552,16); (1563,32); (1564,128); (1565,32); (1568,4); (1611,16);
  (1632,2); (1642,32); (1646,4); (1648,16); (1649,4); (1748,32); (1749,4); (1750,16); (1757,128);
  (1758,64); (1759,16); (1765,4); (1767,16); (1769,64); (1770,16); (1774,4); (1776,2); (1786,4);
  (1789,64); (1791,4); (1792,32); (1806,1); (1807,128); (1808,4); (1809,16); (1810,4); (1840,16);
  (1867,1); (1869,4); (1958,16); (1969,4); (1970,1); (1984,2); (1994,4); (2027,16); (2036,4);
  (2038,64); (2039,32); (2042,4); (2043,1); (2045,16); (2046,64); (2048,4); (2070,16); (2074,4);
  (2075,16); (2084,4); (2085,16); (2088,4); (2089,16); (2094,1); (2096,32); (2111,1); (2112,4);
  (2137,16); (2140,1); (2142,32); (2143,1); (2144,4); (2155,1); (2160,4); (2184,64); (2185,4);
  (2191,1); (2192,128); (2194,1); (2200,16); (2208,4); (2250,16); (2274,128); (2275,16); (2308,4);
  (2362,16); (2365,4); (2366,16); (2384,4); (2385,16); (2392,4); (2402,16); (2404,32); (2406,2);
  (2416,32); (2417,4); (2433,16); (2436,1); (2437,4); (2445,1); (2447,4); (2449,1); (2451,4);
  (2473,1); (2474,4); (2481,1); (2482,4); (2483,1); (2486,4); (2490,1); (2492,16); (2493,4);
  (2494,16); (2501,1); (2503,16); (2505,1); (2507,16); (2510,4); (2511,1); (2519,16); (2520,1);
  (2524,4); (2526,1); (2527,4); (2530,16); (2532,1); (2534,2); (2544,4); (2546,64); (2548,2);
  (2554,64); (2556,4); (2557,32); (2558,16); (2559,1); (2561,16); (2564,1); (2565,4); (2571,1);
  (2575,4); (2577,1); (2579,4); (2601,1); (2602,4); (2609,1); (2610,4); (2612,1); (2613,4);
  (2615,1); (2616,4); (2618,1); (2620,16); (2621,1); (2622,16); (2627,1); (2631,16); (2633,1);
  (2635,16); (2638,1); (2641,16); (2642,1); (2649,4); (2653,1); (2654,4); (2655,1); (2662,2);
  (2672,16); (2674,4); (2677,16); (2678,32); (2679,1); (2689,16); (2692,1); (2693,4); (2702,1);
  (2703,4); (2706,1); (2707,4); (2729,1); (2730,4); (2737,1); (2738,4); (2740,1); (2741,4);
  (2746,1); (2748,16); (2749,4); (2750,16); (2758,1); (2759,16); (2762,1); (2763,16); (2766,1);
  (2768,4); (2769,1); (2784,4); (2786,16); (2788,1); (2790,2); (2800,32); (2801,64); (2802,1);
  (2809,4); (2810,16); (2816,1); (2817,16); (2820,1); (2821,4); (2829,1); (2831,4); (2833,1);
  (2835,4); (2857,1); (2858,4); (2865,1); (2866,4); (2868,1); (2869,4); (2874,1); (2876,16);
  (2877,4); (2878,16); (2885,1); (2887,16); (2889,1); (2891,16); (2894,1); (2901,16); (2904,1);
  (2908,4); (2910,1); (2911,4); (2914,16); (2916,1); (2918,2); (2928,64); (2929,4); (2930,2);
  (2936,1); (2946,16); (2947,4); (2948,1); (2949,4); (2955,1); (2958,4); (2961,1); (2962,4);
  (2966,1); (2969,4); (2971,1); (2972,4); (2973,1); (2974,4); (2976,1); (2979,4); (2981,1);
  (2984,4); (2987,1); (2990,4); (3002,1); (3006,16); (3011,1); (3014,16); (3017,1); (3018,16);
  (3022,1); (3024,4); (3025,1); (3031,16); (3032,1); (3046,2); (3059,64); (3067,1); (3072,16);
  (3077,4); (3085,1); (3086,4); (3089,1); (3090,4); (3113,1); (3114,4); (3130,1); (3132,16);
  (3133,4); (3134,16); (3141,1); (3142,16); (3145,1); (3146,16); (3150,1); (3157,16); (3159,1);
  (3160,4); (3163,1); (3165,4); (3166,1); (3168,4); (3170,16); (3172,1); (3174,2); (3184,1);
  (3191,32); (3192,2); (3199,64); (3200,4); (3201,16); (3204,32); (3205,4); (3213,1); (3214,4);
  (3217,1); (3218,4); (3241,1); (3242,4); (3252,1); (3253,4); (3258,1); (3260,16); (3261,4);
  (3262,16); (3269,1); (3270,16); (3273,1); (3274,16); (3278,1); (3285,16); (3287,1); (3293,4);
  (3295,1); (3296,4); (3298,16); (3300,1); (3302,2); (3312,1); (3313,4); (3315,16); (3316,1);
  (3328,16); (3332,4); (3341,1); (3342,4); (3345,1); (3346,4); (3387,16); (3389,4); (3390,16);
  (3397,1); (3398,16); (3401,1); (3402,16); (3406,4); (3407,64); (3408,1); (3412,4); (3415,16);
  (3416,2); (3423,4); (3426,16); (3428,1); (3430,2); (3449,64); (3450,4); (3456,1); (3457,16);
  (3460,1); (3461,4); (3479,1); (3482,4); (3506,1); (3507,4); (3516,1); (3517,4); (3518,1);
  (3520,4); (3527,1); (3530,16); (3531,1); (3535,16); (3541,1); (3542,16); (3543,1); (3544,16);
  (3552,1); (3558,2); (3568,1); (3570,16); (3572,32); (3573,1); (3585,4); (3633,16); (3634,4);
  (3636,16); (3643,1); (3647,64); (3648,4); (3655,16); (3663,32); (3664,2); (3674,32); (3676,1);
  (3713,4); (3715,1); (3716,4); (3717,1); (3718,4); (3723,1); (3724,4); (3748,1); (3749,4);
  (3750,1); (3751,4); (3761,16); (3762,4); (3764,16); (3773,4); (3774,1); (3776,4); (3781,1);
  (3782,4); (3783,1); (3784,16); (3791,1); (3792,2); (3802,1); (3804,4); (3808,1); (3840,4);
  (3841,64); (3844,32); (3859,64); (3860,32); (3861,64); (3864,16); (3866,64); (3872,2); (3892,64);
  (3893,16); (3894,64); (3895,16); (3896,64); (3897,16); (3898,32); (3902,16); (3904,4); (3912,1);
  (3913,4); (3949,1); (3953,16); (3973,32); (3974,16); (3976,4); (3981,16); (3992,1); (3993,16);
  (4029,1); (4030,64); (4038,16); (4039,64); (4045,1); (4046,64); (4048,32); (4053,64); (4057,32);
  (4059,1); (4096,4); (4139,16); (4159,4); (4160,2); (4170,32); (4176,4); (4182,16); (4186,4);
  (4190,16); (4193,4); (4194,16); (4197,4); (4199,16); (4206,4); (4209,16); (4213,4); (4226,16);
  (4238,4); (4239,16); (4240,2); (4250,16); (4254,64); (4256,4); (4294,1); (4295,4); (4296,1);
  (4301,4); (4302,1); (4304,4); (4347,32); (4348,4); (4681,1); (4682,4); (4686,1); (4688,4);
  (4695,1); (4696,4); (4697,1); (4698,4); (4702,1); (4704,4); (4745,1); (4746,4); (4750,1);
  (4752,4); (4785,1); (4786,4); (4790,1); (4792,4); (4799,1); (4800,4); (4801,1); (4802,4);
  (4806,1); (4808,4); (4823,1); (4824,4); (4881,1); (4882,4); (4886,1); (4888,4); (4955,1);
  (4957,16); (4960,32); (4969,2); (4989,1); (4992,4); (5008,64); (5018,1); (5024,4); (5110,1);
  (5112,4); (5118,1); (5120,32); (5121,4); (5741,64); (5742,32); (5743,4); (5760,8); (5761,4);
  (5787,32); (5789,1); (5792,4); (5867,32); (5870,2); (5873,4); (5881,1); (5888,4); (5906,16);
  (5910,1); (5919,4); (5938,16); (5941,32); (5943,1); (5952,4); (5970,16); (5972,1); (5984,4);
  (5997,1); (5998,4); (6001,1); (6002,16); (6004,1); (6016,4); (6068,16); (6100,32); (6103,4);
  (6104,32); (6107,64); (6108,4); (6109,16); (6110,1); (6112,2); (6122,1); (6128,2); (6138,1);
  (6144,32); (6155,16); (6158,128); (6159,16); (6160,2); (6170,1); (6176,4); (6265,1); (6272,4);
  (6277,16); (6279,4); (6313,16); (6314,4); (6315,1); (6320,4); (6390,1); (6400,4); (6431,1);
  (6432,16); (6444,1); (6448,16); (6460,1); (6464,64); (6465,1); (6468,32); (6470,2); (6480,4);
  (6510,1); (6512,4); (6517,1); (6528,4); (6572,1); (6576,4); (6602,1); (6608,2); (6619,1);
  (6622,64); (6656,4); (6679,16); (6684,1); (6686,32); (6688,4); (6741,16); (6751,1); (6752,16);
  (6781,1); (6783,16); (6784,2); (6794,1); (6800,2); (6810,1); (6816,32); (6823,4); (6824,32);
  (6830,1); (6832,16); (6863,1); (6912,16); (6917,4); (6964,16); (6981,4); (6989,1); (6992,2);
  (7002,32); (7009,64); (7019,16); (7028,64); (7037,32); (7039,1); (7040,16); (7043,4); (7073,16);
  (7086,4); (7088,2); (7098,4); (7142,16); (7156,1); (7164,32); (7168,4); (7204,16); (7224,1);
  (7227,32); (7232,2); (7242,1); (7245,4); (7248,2); (7258,4); (7294,32); (7296,4); (7305,1);
  (7312,4); (7355,1); (7357,4); (7360,32); (7368,1); (7376,16); (7379,32); (7380,16); (7401,4);
  (7405,16); (7406,4); (7412,16); (7413,4); (7415,16); (7418,4); (7419,1); (7424,4); (7616,16);
  (7680,4); (7958,1); (7960,4); (7966,1); (7968,4); (8006,1); (8008,4); (8014,1); (8016,4);
  (8024,1); (8025,4); (8026,1); (8027,4); (8028,1); (8029,4); (8030,1); (8031,4); (8062,1);
  (8064,4); (8117,1); (8118,4); (8125,64); (8126,4); (8127,64); (8130,4); (8133,1); (8134,4);
  (8141,64); (8144,4); (8148,1); (8150,4); (8156,1); (8157,64); (8160,4); (8173,64); (8176,1);
  (8178,4); (8181,1); (8182,4); (8189,64); (8191,1); (8192,8); (8203,128); (8208,32); (8232,8);
  (8234,128); (8239,8); (8240,32); (8260,64); (8261,32); (8274,64); (8275,32); (8287,8); (8288,128);
  (8293,1); (8294,128); (8304,2); (8305,4); (8306,1); (8308,2); (8314,64); (8317,32); (8319,4);
  (8320,2); (8330,64); (8333,32); (8335,1); (8336,4); (8349,1); (8352,64); (8385,1); (8400,16);
  (8433,1); (8448,64); (8450,4); (8451,64); (8455,4); (8456,64); (8458,4); (8468,64); (8469,4);
  (8470,64); (8473,4); (8478,64); (8484,4); (8485,64); (8486,4); (8487,64); (8488,4); (8489,64);
  (8490,4); (8494,64); (8495,4); (8506,64); (8508,4); (8512,64); (8517,4); (8522,64); (8526,4);
  (8527,64); (8528,2); (8579,4); (8581,2); (8586,64); (8588,1); (8592,64); (8968,32); (8972,64);
  (9001,32); (9003,64); (9255,1); (9280,64); (9291,1); (9312,2); (9372,64); (9450,2); (9472,64);
  (10088,32); (10102,2); (10132,64); (10181,32); (10183,64); (10214,32); (10224,64); (10627,32); (10649,64);
  (10712,32); (10716,64); (10748,32); (10750,64); (11124,1); (11126,64); (11158,1); (11159,64); (11264,4);
  (11493,64); (11499,4); (11503,16); (11506,4); (11508,1); (11513,32); (11517,2); (11518,32); (11520,4);
  (11558,1); (11559,4); (11560,1); (11565,4); (11566,1); (11568,4); (11624,1); (11631,4); (11632,32);
  (11633,1); (11647,16); (11648,4); (11671,1); (11680,4); (11687,1); (11688,4); (11695,1); (11696,4);
  (11703,1); (11704,4); (11711,1); (11712,4); (11719,1); (11720,4); (11727,1); (11728,4); (11735,1);
  (11736,4); (11743,1); (11744,16); (11776,32); (11823,4); (11824,32); (11856,64); (11858,32); (11870,1);
  (11904,64); (11930,1); (11931,64); (12020,1); (12032,64); (12246,1); (12272,64); (12288,8); (12289,32);
  (12292,64); (12293,4); (12295,2); (12296,32); (12306,64); (12308,32); (12320,64); (12321,2); (12330,16);
  (12336,32); (12337,4); (12342,64); (12344,2); (12347,4); (12349,32); (12350,64); (12352,1); (12353,4);
  (12439,1); (12441,16); (12443,64); (12445,4); (12448,32); (12449,4); (12539,32); (12540,4); (12544,1);
  (12549,4); (12592,1); (12593,4); (12687,1); (12688,64); (12690,2); (12694,64); (12704,4); (12736,64);
  (12772,1); (12783,64); (12784,4); (12800,64); (12831,1); (12832,2); (12842,64); (12872,2); (12880,64);
  (12881,2); (12896,64); (12928,2); (12938,64); (12977,2); (12992,64); (13312,4); (19904,64); (19968,4);
  (42125,1); (42128,64); (42183,1); (42192,4); (42238,32); (42240,4); (42509,32); (42512,4); (42528,2);
  (42538,4); (42540,1); (42560,4); (42607,16); (42611,32); (42612,16); (42622,32); (42623,4); (42654,16);
  (42656,4); (42726,2); (42736,16); (42738,32); (42744,1); (42752,64); (42775,4); (42784,64); (42786,4);
  (42889,64); (42891,4); (42955,1); (42960,4); (42962,1); (42963,4); (42964,1); (42965,4); (42970,1);
  (42994,4); (43010,16); (43011,4); (43014,16); (43015,4); (43019,16); (43020,4); (43043,16); (43048,64);
  (43052,16); (43053,1); (43056,2); (43062,64); (43066,1); (43072,4); (43124,32); (43128,1); (43136,16);
  (43138,4); (43188,16); (43206,1); (43214,32); (43216,2); (43226,1); (43232,16); (43250,4); (43256,32);
  (43259,4); (43260,32); (43261,4); (43263,16); (43264,2); (43274,4); (43302,16); (43310,32); (43312,4);
  (43335,16); (43348,1); (43359,32); (43360,4); (43389,1); (43392,16); (43396,4); (43443,16); (43457,32);
  (43470,1); (43471,4); (43472,2); (43482,1); (43486,32); (43488,4); (43493,16); (43494,4); (43504,2);
  (43514,4); (43519,1); (43520,4); (43561,16); (43575,1); (43584,4); (43587,16); (43588,4); (43596,16);
  (43598,1); (43600,2); (43610,1); (43612,32); (43616,4); (43639,64); (43642,4); (43643,16); (43646,4);
  (43696,16); (43697,4); (43698,16); (43701,4); (43703,16); (43705,4); (43710,16); (43712,4); (43713,16);
  (43714,4); (43715,1); (43739,4); (43742,32); (43744,4); (43755,16); (43760,32); (43762,4); (43765,16);
  (43767,1); (43777,4); (43783,1); (43785,4); (43791,1); (43793,4); (43799,1); (43808,4); (43815,1);
  (43816,4); (43823,1); (43824,4); (43867,64); (43868,4); (43882,64); (43884,1); (43888,4); (44003,16);
  (44011,32); (44012,16); (44014,1); (44016,2); (44026,1); (44032,4); (55204,1); (55216,4); (55239,1);
  (55243,4); (55292,1); (55296,128); (63744,4); (64110,1); (64112,4); (64218,1); (64256,4); (64263,1);
  (64275,4); (64280,1); (64285,4); (64286,16); (64287,4); (64297,64); (64298,4); (64311,1); (64312,4);
  (64317,1); (64318,4); (64319,1); (64320,4); (64322,1); (64323,4); (64325,1); (64326,4); (64434,64);
  (64451,1); (64467,4); (64830,32); (64832,64); (64848,4); (64912,1); (64914,4); (64968,1); (64975,64);
  (64976,1); (65008,4); (65020,64); (65024,16); (65040,32); (65050,1); (65056,16); (65072,32); (65107,1);
  (65108,32); (65122,64); (65123,32); (65124,64); (65127,1); (65128,32); (65129,64); (65130,32); (65132,1);
  (65136,4); (65141,1); (65142,4); (65277,1); (65279,128); (65280,1); (65281,32); (65284,64); (65285,32);
  (65291,64); (65292,32); (65296,2); (65306,32); (65308,64); (65311,32); (65313,4); (65339,32); (65342,64);
  (65343,32); (65344,64); (65345,4); (65371,32); (65372,64); (65373,32); (65374,64); (65375,32); (65382,4);
  (65471,1); (65474,4); (65480,1); (65482,4); (65488,1); (65490,4); (65496,1); (65498,4); (65501,1);
  (65504,64); (65511,1); (65512,64); (65519,1); (65529,128); (65532,64); (65534,1); (65536,4); (65548,1);
  (65549,4); (65575,1); (65576,4); (65595,1); (65596,4); (65598,1); (65599,4); (65614,1); (65616,4);
  (65630,1); (65664,4); (65787,1); (65792,32); (65795,1); (65799,2); (65844,1); (65847,64); (65856,2);
  (65913,64); (65930,2); (65932,64); (65935,1); (65936,64); (65949,1); (65952,64); (65953,1); (66000,64);
  (66045,16); (66046,1); (66176,4); (66205,1); (66208,4); (66257,1); (66272,16); (66273,2); (66300,1);
  (66304,4); (66336,2); (66340,1); (66349,4); (66369,2); (66370,4); (66378,2); (66379,1); (66384,4);
  (66422,16); (66427,1); (66432,4); (66462,1); (66463,32); (66464,4); (66500,1); (66504,4); (66512,32);
  (66513,2); (66518,1); (66560,4); (66718,1); (66720,2); (66730,1); (66736,4); (66772,1); (66776,4);
  (66812,1); (66816,4); (66856,1); (66864,4); (66916,1); (66927,32); (66928,4); (66939,1); (66940,4);
  (66955,1); (66956,4); (66963,1); (66964,4); (66966,1); (66967,4); (66978,1); (66979,4); (66994,1);
  (66995,4); (67002,1); (67003,4); (67005,1); (67072,4); (67383,1); (67392,4); (67414,1); (67424,4);
  (67432,1); (67456,4); (67462,1); (67463,4); (67505,1); (67506,4); (67515,1); (67584,4); (67590,1);
  (67592,4); (67593,1); (67594,4); (67638,1); (67639,4); (67641,1); (67644,4); (67645,1); (67647,4);
  (67670,1); (67671,32); (67672,2); (67680,4); (67703,64); (67705,2); (67712,4); (67743,1); (67751,2);
  (67760,1); (67808,4); (67827,1); (67828,4); (67830,1); (67835,2); (67840,4); (67862,2); (67868,1);
  (67871,32); (67872,4); (67898,1); (67903,32); (67904,1); (67968,4); (68024,1); (68028,2); (68030,4);
  (68032,2); (68048,1); (68050,2); (68096,4); (68097,16); (68100,1); (68101,16); (68103,1); (68108,16);
  (68112,4); (68116,1); (68117,4); (68120,1); (68121,4); (68150,1); (68152,16); (68155,1); (68159,16);
  (68160,2); (68169,1); (68176,32); (68185,1); (68192,4); (68221,2); (68223,32); (68224,4); (68253,2);
  (68256,1); (68288,4); (68296,64); (68297,4); (68325,16); (68327,1); (68331,2); (68336,32); (68343,1);
  (68352,4); (68406,1); (68409,32); (68416,4); (68438,1); (68440,2); (68448,4); (68467,1); (68472,2);
  (68480,4); (68498,1); (68505,32); (68509,1); (68521,2); (68528,1); (68608,4); (68681,1); (68736,4);
  (68787,1); (68800,4); (68851,1); (68858,2); (68864,4); (68900,16); (68904,1); (68912,2); (68922,1);
  (69216,2); (69247,1); (69248,4); (69290,1); (69291,16); (69293,32); (69294,1); (69296,4); (69298,1);
  (69373,16); (69376,4); (69405,2); (69415,4); (69416,1); (69424,4); (69446,16); (69457,2); (69461,32);
  (69466,1); (69488,4); (69506,16); (69510,32); (69514,1); (69552,4); (69573,2); (69580,1); (69600,4);
  (69623,1); (69632,16); (69635,4); (69688,16); (69703,32); (69710,1); (69714,2); (69744,16); (69745,4);
  (69747,16); (69749,4); (69750,1); (69759,16); (69763,4); (69808,16); (69819,32); (69821,128); (69822,32);
  (69826,16); (69827,1); (69837,128); (69838,1); (69840,4); (69865,1); (69872,2); (69882,1); (69888,16);
  (69891,4); (69927,16); (69941,1); (69942,2); (69952,32); (69956,4); (69957,16); (69959,4); (69960,1);
  (69968,4); (70003,16); (70004,32); (70006,4); (70007,1); (70016,16); (70019,4); (70067,16); (70081,4);
  (70085,32); (70089,16); (70093,32); (70094,16); (70096,2); (70106,4); (70107,32); (70108,4); (70109,32);
  (70112,1); (70113,2); (70133,1); (70144,4); (70162,1); (70163,4); (70188,16); (70200,32); (70206,16);
  (70207,4); (70209,16); (70210,1); (70272,4); (70279,1); (70280,4); (70281,1); (70282,4); (70286,1);
  (70287,4); (70302,1); (70303,4); (70313,32); (70314,1); (70320,4); (70367,16); (70379,1); (70384,2);
  (70394,1); (70400,16); (70404,1); (70405,4); (70413,1); (70415,4); (70417,1); (70419,4); (70441,1);
  (70442,4); (70449,1); (70450,4); (70452,1); (70453,4); (70458,1); (70459,16); (70461,4); (70462,16);
  (70469,1); (70471,16); (70473,1); (70475,16); (70478,1); (70480,4); (70481,1); (70487,16); (70488,1);
  (70493,4); (70498,16); (70500,1); (70502,16); (70509,1); (70512,16); (70517,1); (70656,4); (70709,16);
  (70727,4); (70731,32); (70736,2); (70746,32); (70748,1); (70749,32); (70750,16); (70751,4); (70754,1);
  (70784,4); (70832,16); (70852,4); (70854,32); (70855,4); (70856,1); (70864,2); (70874,1); (71040,4);
  (71087,16); (71094,1); (71096,16); (71105,32); (71128,4); (71132,16); (71134,1); (71168,4); (71216,16);
  (71233,32); (71236,4); (71237,1); (71248,2); (71258,1); (71264,32); (71277,1); (71296,4); (71339,16);
  (71352,4); (71353,32); (71354,1); (71360,2); (71370,1); (71424,4); (71451,1); (71453,16); (71468,1);
  (71472,2); (71484,32); (71487,64); (71488,4); (71495,1); (71680,4); (71724,16); (71739,32); (71740,1);
  (71840,4); (71904,2); (71923,1); (71935,4); (71943,1); (71945,4); (71946,1); (71948,4); (71956,1);
  (71957,4); (71959,1); (71960,4); (71984,16); (71990,1); (71991,16); (71993,1); (71995,16); (71999,4);
  (72000,16); (72001,4); (72002,16); (72004,32); (72007,1); (72016,2); (72026,1); (72096,4); (72104,1);
  (72106,4); (72145,16); (72152,1); (72154,16); (72161,4); (72162,32); (72163,4); (72164,16); (72165,1);
  (72192,4); (72193,16); (72203,4); (72243,16); (72250,4); (72251,16); (72255,32); (72263,16); (72264,1);
  (72272,4); (72273,16); (72284,4); (72330,16); (72346,32); (72349,4); (72350,32); (72355,1); (72368,4);
  (72441,1); (72448,32); (72458,1); (72704,4); (72713,1); (72714,4); (72751,16); (72759,1); (72760,16);
  (72768,4); (72769,32); (72774,1); (72784,2); (72813,1); (72816,32); (72818,4); (72848,1); (72850,16);
  (72872,1); (72873,16); (72887,1); (72960,4); (72967,1); (72968,4); (72970,1); (72971,4); (73009,16);
  (73015,1); (73018,16); (73019,1); (73020,16); (73022,1); (73023,16); (73030,4); (73031,16); (73032,1);
  (73040,2); (73050,1); (73056,4); (73062,1); (73063,4); (73065,1); (73066,4); (73098,16); (73103,1);
  (73104,16); (73106,1); (73107,16); (73112,4); (73113,1); (73120,2); (73130,1); (73440,4); (73459,16);
  (73463,32); (73465,1); (73472,16); (73474,4); (73475,16); (73476,4); (73489,1); (73490,4); (73524,16);
  (73531,1); (73534,16); (73539,32); (73552,2); (73562,1); (73648,4); (73649,1); (73664,2); (73685,64);
  (73714,1); (73727,32); (73728,4); (74650,1); (74752,2); (74863,1); (74864,32); (74869,1); (74880,4);
  (75076,1); (77712,4); (77809,32); (77811,1); (77824,4); (78896,128); (78912,16); (78913,4); (78919,16);
  (78934,1); (82944,4); (83527,1); (92160,4); (92729,1); (92736,4); (92767,1); (92768,2); (92778,1);
  (92782,32); (92784,4); (92863,1); (92864,2); (92874,1); (92880,4); (92910,1); (92912,16); (92917,32);
  (92918,1); (92928,4); (92976,16); (92983,32); (92988,64); (92992,4); (92996,32); (92997,64); (92998,1);
  (93008,2); (93018,1); (93019,2); (93026,1); (93027,4); (93048,1); (93053,4); (93072,1); (93760,4);
  (93824,2); (93847,32); (93851,1); (93952,4); (94027,1); (94031,16); (94032,4); (94033,16); (94088,1);
  (94095,16); (94099,4); (94112,1); (94176,4); (94178,32); (94179,4); (94180,16); (94181,1); (94192,16);
  (94194,1); (94208,4); (100344,1); (100352,4); (101590,1); (101632,4); (101641,1); (110576,4); (110580,1);
  (110581,4); (110588,1); (110589,4); (110591,1); (110592,4); (110883,1); (110898,4); (110899,1); (110928,4);
  (110931,1); (110933,4); (110934,1); (110948,4); (110952,1); (110960,4); (111356,1); (113664,4); (113771,1);
  (113776,4); (113789,1); (113792,4); (113801,1); (113808,4); (113818,1); (113820,64); (113821,16); (113823,32);
  (113824,128); (113828,1); (118528,16); (118574,1); (118576,16); (118599,1); (118608,64); (118724,1); (118784,64);
  (119030,1); (119040,64); (119079,1); (119081,64); (119141,16); (119146,64); (119149,16); (119155,128); (119163,16);
  (119171,64); (119173,16); (119180,64); (119210,16); (119214,64); (119275,1); (119296,64); (119362,16); (119365,64);
  (119366,1); (119488,2); (119508,1); (119520,2); (119540,1); (119552,64); (119639,1); (119648,2); (119673,1);
  (119808,4); (119893,1); (119894,4); (119965,1); (119966,4); (119968,1); (119970,4); (119971,1); (119973,4);
  (119975,1); (119977,4); (119981,1); (119982,4); (119994,1); (119995,4); (119996,1); (119997,4); (120004,1);
  (120005,4); (120070,1); (120071,4); (120075,1); (120077,4); (120085,1); (120086,4); (120093,1); (120094,4);
  (120122,1); (120123,4); (120127,1); (120128,4); (120133,1); (120134,4); (120135,1); (120138,4); (120145,1);
  (120146,4); (120486,1); (120488,4); (120513,64); (120514,4); (120539,64); (120540,4); (120571,64); (120572,4);
  (120597,64); (120598,4); (120629,64); (120630,4); (120655,64); (120656,4); (120687,64); (120688,4); (120713,64);
  (120714,4); (120745,64); (120746,4); (120771,64); (120772,4); (120780,1); (120782,2); (120832,64); (121344,16);
  (121399,64); (121403,16); (121453,64); (121461,16); (121462,64); (121476,16); (121477,64); (121479,32); (121484,1);
  (121499,16); (121504,1); (121505,16); (121520,1); (122624,4); (122655,1); (122661,4); (122667,1); (122880,16);
  (122887,1); (122888,16); (122905,1); (122907,16); (122914,1); (122915,16); (122917,1); (122918,16); (122923,1);
  (122928,4); (122990,1); (123023,16); (123024,1); (123136,4); (123181,1); (123184,16); (123191,4); (123198,1);
  (123200,2); (123210,1); (123214,4); (123215,64); (123216,1); (123536,4); (123566,16); (123567,1); (123584,4);
  (123628,16); (123632,2); (123642,1); (123647,64); (123648,1); (124112,4); (124140,16); (124144,2); (124154,1);
  (124896,4); (124903,1); (124904,4); (124908,1); (124909,4); (124911,1); (124912,4); (124927,1); (124928,4);
  (125125,1); (125127,2); (125136,16); (125143,1); (125184,4); (125252,16); (125259,4); (125260,1); (125264,2);
  (125274,1); (125278,32); (125280,1); (126065,2); (126124,64); (126125,2); (126128,64); (126129,2); (126133,1);
  (126209,2); (126254,64); (126255,2); (126270,1); (126464,4); (126468,1); (126469,4); (126496,1); (126497,4);
  (126499,1); (126500,4); (126501,1); (126503,4); (126504,1); (126505,4); (126515,1); (126516,4); (126520,1);
  (126521,4); (126522,1); (126523,4); (126524,1); (126530,4); (126531,1); (126535,4); (126536,1); (126537,4);
  (126538,1); (126539,4); (126540,1); (126541,4); (126544,1); (126545,4); (126547,1); (126548,4); (126549,1);
  (126551,4); (126552,1); (126553,4); (126554,1); (126555,4); (126556,1); (126557,4); (126558,1); (126559,4);
  (126560,1); (126561,4); (126563,1); (126564,4); (126565,1); (126567,4); (126571,1); (126572,4); (126579,1);
  (126580,4); (126584,1); (126585,4); (126589,1); (126590,4); (126591,1); (126592,4); (126602,1); (126603,4);
  (126620,1); (126625,4); (126628,1); (126629,4); (126634,1); (126635,4); (126652,1); (126704,64); (126706,1);
  (126976,64); (127020,1); (127024,64); (127124,1); (127136,64); (127151,1); (127153,64); (127168,1); (127169,64);
  (127184,1); (127185,64); (127222,1); (127232,2); (127245,64); (127406,1); (127462,64); (127491,1); (127504,64);
  (127548,1); (127552,64); (127561,1); (127568,64); (127570,1); (127584,64); (127590,1); (127744,64); (128728,1);
  (128732,64); (128749,1); (128752,64); (128765,1); (128768,64); (128887,1); (128891,64); (128986,1); (128992,64);
  (129004,1); (129008,64); (129009,1); (129024,64); (129036,1); (129040,64); (129096,1); (129104,64); (129114,1);
  (129120,64); (129160,1); (129168,64); (129198,1); (129200,64); (129202,1); (129280,64); (129620,1); (129632,64);
  (129646,1); (129648,64); (129661,1); (129664,64); (129673,1); (129680,64); (129726,1); (129727,64); (129734,1);
  (129742,64); (129756,1); (129760,64); (129769,1); (129776,64); (129785,1); (129792,64); (129939,1); (129940,64);
  (129995,1); (130032,2); (130042,1); (131072,4); (173792,1); (173824,4); (177978,1); (177984,4); (178206,1);
  (178208,4); (183970,1); (183984,4); (191457,1); (191472,4); (192094,1); (194560,4); (195102,1); (196608,4);
  (201547,1); (201552,4); (205744,1); (917505,128); (917506,1); (917536,128); (917632,1); (917760,16); (918000,1);
  (983040,128); (1048574,1); (1048576,128); (1114110,1); (1114112,0)
].

Definition UNICODE_SET_WHITESPACE : list Z := [
  9; 10; 11; 12; 13; 32; 133; 160; 5760; 8192; 8193; 8194;
  8195; 8196; 8197; 8198; 8199; 8200; 8201; 8202; 8232; 8233; 8239; 8287;
  12288
].

Definition UNICODE_MAP_LOWERCASE : list (Z * Z) := [
  (65,97); (66,98); (67,99); (68,100); (69,101); (70,102); (71,103); (72,104); (73,105);
  (74,106); (75,107); (76,108); (77,109); (78,110); (79,111); (80,112); (81,113); (82,114);
  (83,115); (84,116); (85,117); (86,118); (87,119); (88,120); (89,121); (90,122); (192,224);
  (193,225); (194,226); (195,227); (196,228); (197,229); (198,230); (199,231); (200,232); (201,233);
  (202,234); (203,235); (204,236); (205,237); (206,238); (207,239); (208,240); (209,241); (210,242);
  (211,243); (212,244); (213,245); (214,246); (216,248); (217,249); (218,250); (219,251); (220,252);
  (221,253); (222,254); (256,257); (258,259); (260,261); (262,263); (264,265); (266,267); (268,269);
  (270,271); (272,273); (274,275); (276,277); (278,279); (280,281); (282,283); (284,285); (286,287);
  (288,289); (290,291); (292,293); (294,295); (296,297); (298,299); (300,301); (302,303); (304,105);
  (306,307); (308,309); (310,311); (313,314); (315,316); (317,318); (319,320); (321,322); (323,324);
  (325,326); (327,328); (330,331); (332,333); (334,335); (336,337); (338,339); (340,341); (342,343);
  (344,345); (346,347); (348,349); (350,351); (352,353); (354,355); (356,357); (358,359); (360,361);
  (362,363); (364,365); (366,367); (368,369); (370,371); (372,373); (374,375); (376,255); (377,378);
  (379,380); (381,382); (385,595); (386,387); (388,389); (390,596); (391,392); (393,598); (394,599);
  (395,396); (398,477); (399,601); (400,603); (401,402); (403,608); (404,611); (406,617); (407,616);
  (408,409); (412,623); (413,626); (415,629); (416,417); (418,419); (420,421); (422,640); (423,424);
  (425,643); (428,429); (430,648); (431,432); (433,650); (434,651); (435,436); (437,438); (439,658);
  (440,441); (444,445); (452,454); (453,454); (455,457); (456,457); (458,460); (459,460); (461,462);
  (463,464); (465,466); (467,468); (469,470); (471,472); (473,474); (475,476); (478,479); (480,481);
  (482,483); (484,485); (486,487); (488,489); (490,491); (492,493); (494,495); (497,499); (498,499);
  (500,501); (502,405); (503,447); (504,505); (506,507); (508,509); (510,511); (512,513); (514,515);
  (516,517); (518,519); (520,521); (522,523); (524,525); (526,527); (528,529); (530,531); (532,533);
  (534,535); (536,537); (538,539); (540,541); (542,543); (544,414); (546,547); (548,549); (550,551);
  (552,553); (554,555); (556,557); (558,559); (560,561); (562,563); (570,11365); (571,572); (573,410);
  (574,11366); (577,578); (579,384); (580,649); (581,652); (582,583); (584,585); (586,587); (588,589);
  (590,591); (880,881); (882,883); (886,887); (895,1011); (902,940); (904,941); (905,942); (906,943);
  (908,972); (910,973); (911,974); (913,945); (914,946); (915,947); (916,948); (917,949); (918,950);
  (919,951); (920,952); (921,953); (922,954); (923,955); (924,956); (925,957); (926,958); (927,959);
  (928,960); (929,961); (931,963); (932,964); (933,965); (934,966); (935,967); (936,968); (937,969);
  (938,970); (939,971); (975,983); (984,985); (986,987); (988,989); (990,991); (992,993); (994,995);
  (996,997); (998,999); (1000,1001); (1002,1003); (1004,1005); (1006,1007); (1012,952); (1015,1016); (1017,1010);
  (1018,1019); (1021,891); (1022,892); (1023,893); (1024,1104); (1025,1105); (1026,1106); (1027,1107); (1028,1108);
  (1029,1109); (1030,1110); (1031,1111); (1032,1112); (1033,1113); (1034,1114); (1035,1115); (1036,1116); (1037,1117);
  (1038,1118); (1039,1119); (1040,1072); (1041,1073); (1042,1074); (1043,1075); (1044,1076); (1045,1077); (1046,1078);
  (1047,1079); (1048,1080); (1049,1081); (1050,1082); (1051,1083); (1052,1084); (1053,1085); (1054,1086); (1055,1087);
  (1056,1088); (1057,1089); (1058,1090); (1059,1091); (1060,1092); (1061,1093); (1062,1094); (1063,1095); (1064,1096);
  (1065,1097); (1066,1098); (1067,1099); (1068,1100); (1069,1101); (1070,1102); (1071,1103); (1120,1121); (1122,1123);
  (1124,1125); (1126,1127); (1128,1129); (1130,1131); (1132,1133); (1134,1135); (1136,1137); (1138,1139); (1140,1141);
  (1142,1143); (1144,1145); (1146,1147); (1148,1149); (1150,1151); (1152,1153); (1162,1163); (1164,1165); (1166,1167);
  (1168,1169); (1170,1171); (1172,1173); (1174,1175); (1176,1177); (1178,1179); (1180,1181); (1182,1183); (1184,1185);
  (1186,1187); (1188,1189); (1190,1191); (1192,1193); (1194,1195); (1196,1197); (1198,1199); (1200,1201); (1202,1203);
  (1204,1205); (1206,1207); (1208,1209); (1210,1211); (1212,1213); (1214,1215); (1216,1231); (1217,1218); (1219,1220);
  (1221,1222); (1223,1224); (1225,1226); (1227,1228); (1229,1230); (1232,1233); (1234,1235); (1236,1237); (1238,1239);
  (1240,1241); (1242,1243); (1244,1245); (1246,1247); (1248,1249); (1250,1251); (1252,1253); (1254,1255); (1256,1257);
  (1258,1259); (1260,1261); (1262,1263); (1264,1265); (1266,1267); (1268,1269); (1270,1271); (1272,1273); (1274,1275);
  (1276,1277); (1278,1279); (1280,1281); (1282,1283); (1284,1285); (1286,1287); (1288,1289); (1290,1291); (1292,1293);
  (1294,1295); (1296,1297); (1298,1299); (1300,1301); (1302,1303); (1304,1305); (1306,1307); (1308,1309); (1310,1311);
  (1312,1313); (1314,1315); (1316,1317); (1318,1319); (1320,1321); (1322,1323); (1324,1325); (1326,1327); (1329,1377);
  (1330,1378); (1331,1379); (1332,1380); (1333,1381); (1334,1382); (1335,1383); (1336,1384); (1337,1385); (1338,1386);
  (1339,1387); (1340,1388); (1341,1389); (1342,1390); (1343,1391); (1344,1392); (1345,1393); (1346,1394); (1347,1395);
  (1348,1396); (1349,1397); (1350,1398); (1351,1399); (1352,1400); (1353,1401); (1354,1402); (1355,1403); (1356,1404);
  (1357,1405); (1358,1406); (1359,1407); (1360,1408); (1361,1409); (1362,1410); (1363,1411); (1364,1412); (1365,1413);
  (1366,1414); (4256,11520); (4257,11521); (4258,11522); (4259,11523); (4260,11524); (4261,11525); (4262,11526); (4263,11527);
  (4264,11528); (4265,11529); (4266,11530); (4267,11531); (4268,11532); (4269,11533); (4270,11534); (4271,11535); (4272,11536);
  (4273,11537); (4274,11538); (4275,11539); (4276,11540); (4277,11541); (4278,11542); (4279,11543); (4280,11544); (4281,11545);
  (4282,11546); (4283,11547); (4284,11548); (4285,11549); (4286,11550); (4287,11551); (4288,11552); (4289,11553); (4290,11554);
  (4291,11555); (4292,11556); (4293,11557); (4295,11559); (4301,11565); (5024,43888); (5025,43889); (5026,43890); (5027,43891);
  (5028,43892); (5029,43893); (5030,43894); (5031,43895); (5032,43896); (5033,43897); (5034,43898); (5035,43899); (5036,43900);
  (5037,43901); (5038,43902); (5039,43903); (5040,43904); (5041,43905); (5042,43906); (5043,43907); (5044,43908); (5045,43909);
  (5046,43910); (5047,43911); (5048,43912); (5049,43913); (5050,43914); (5051,43915); (5052,43916); (5053,43917); (5054,43918);
  (5055,43919); (5056,43920); (5057,43921); (5058,43922); (5059,43923); (5060,43924); (5061,43925); (5062,43926); (5063,43927);
  (5064,43928); (5065,43929); (5066,43930); (5067,43931); (5068,43932); (5069,43933); (5070,43934); (5071,43935); (5072,43936);
  (5073,43937); (5074,43938); (5075,43939); (5076,43940); (5077,43941); (5078,43942); (5079,43943); (5080,43944); (5081,43945);
  (5082,43946); (5083,43947); (5084,43948); (5085,43949); (5086,43950); (5087,43951); (5088,43952); (5089,43953); (5090,43954);
  (5091,43955); (5092,43956); (5093,43957); (5094,43958); (5095,43959); (5096,43960); (5097,43961); (5098,43962); (5099,43963);
  (5100,43964); (5101,43965); (5102,43966); (5103,43967); (5104,5112); (5105,5113); (5106,5114); (5107,5115); (5108,5116);
  (5109,5117); (7312,4304); (7313,4305); (7314,4306); (7315,4307); (7316,4308); (7317,4309); (7318,4310); (7319,4311);
  (7320,4312); (7321,4313); (7322,4314); (7323,4315); (7324,4316); (7325,4317); (7326,4318); (7327,4319); (7328,4320);
  (7329,4321); (7330,4322); (7331,4323); (7332,4324); (7333,4325); (7334,4326); (7335,4327); (7336,4328); (7337,4329);
  (7338,4330); (7339,4331); (7340,4332); (7341,4333); (7342,4334); (7343,4335); (7344,4336); (7345,4337); (7346,4338);
  (7347,4339); (7348,4340); (7349,4341); (7350,4342); (7351,4343); (7352,4344); (7353,4345); (7354,4346); (7357,4349);
  (7358,4350); (7359,4351); (7680,7681); (7682,7683); (7684,7685); (7686,7687); (7688,7689); (7690,7691); (7692,7693);
  (7694,7695); (7696,7697); (7698,7699); (7700,7701); (7702,7703); (7704,7705); (7706,7707); (7708,7709); (7710,7711);
  (7712,7713); (7714,7715); (7716,7717); (7718,7719); (7720,7721); (7722,7723); (7724,7725); (7726,7727); (7728,7729);
  (7730,7731); (7732,7733); (7734,7735); (7736,7737); (7738,7739); (7740,7741); (7742,7743); (7744,7745); (7746,7747);
  (7748,7749); (7750,7751); (7752,7753); (7754,7755); (7756,7757); (7758,7759); (7760,7761); (7762,7763); (7764,7765);
  (7766,7767); (7768,7769); (7770,7771); (7772,7773); (7774,7775); (7776,7777); (7778,7779); (7780,7781); (7782,7783);
  (7784,7785); (7786,7787); (7788,7789); (7790,7791); (7792,7793); (7794,7795); (7796,7797); (7798,7799); (7800,7801);
  (7802,7803); (7804,7805); (7806,7807); (7808,7809); (7810,7811); (7812,7813); (7814,7815); (7816,7817); (7818,7819);
  (7820,7821); (7822,7823); (7824,7825); (7826,7827); (7828,7829); (7838,223); (7840,7841); (7842,7843); (7844,7845);
  (7846,7847); (7848,7849); (7850,7851); (7852,7853); (7854,7855); (7856,7857); (7858,7859); (7860,7861); (7862,7863);
  (7864,7865); (7866,7867); (7868,7869); (7870,7871); (7872,7873); (7874,7875); (7876,7877); (7878,7879); (7880,7881);
  (7882,7883); (7884,7885); (7886,7887); (7888,7889); (7890,7891); (7892,7893); (7894,7895); (7896,7897); (7898,7899);
  (7900,7901); (7902,7903); (7904,7905); (7906,7907); (7908,7909); (7910,7911); (7912,7913); (7914,7915); (7916,7917);
  (7918,7919); (7920,7921); (7922,7923); (7924,7925); (7926,7927); (7928,7929); (7930,7931); (7932,7933); (7934,7935);
  (7944,7936); (7945,7937); (7946,7938); (7947,7939); (7948,7940); (7949,7941); (7950,7942); (7951,7943); (7960,7952);
  (7961,7953); (7962,7954); (7963,7955); (7964,7956); (7965,7957); (7976,7968); (7977,7969); (7978,7970); (7979,7971);
  (7980,7972); (7981,7973); (7982,7974); (7983,7975); (7992,7984); (7993,7985); (7994,7986); (7995,7987); (7996,7988);
  (7997,7989); (7998,7990); (7999,7991); (8008,8000); (8009,8001); (8010,8002); (8011,8003); (8012,8004); (8013,8005);
  (8025,8017); (8027,8019); (8029,8021); (8031,8023); (8040,8032); (8041,8033); (8042,8034); (8043,8035); (8044,8036);
  (8045,8037); (8046,8038); (8047,8039); (8072,8064); (8073,8065); (8074,8066); (8075,8067); (8076,8068); (8077,8069);
  (8078,8070); (8079,8071); (8088,8080); (8089,8081); (8090,8082); (8091,8083); (8092,8084); (8093,8085); (8094,8086);
  (8095,8087); (8104,8096); (8105,8097); (8106,8098); (8107,8099); (8108,8100); (8109,8101); (8110,8102); (8111,8103);
  (8120,8112); (8121,8113); (8122,8048); (8123,8049); (8124,8115); (8136,8050); (8137,8051); (8138,8052); (8139,8053);
  (8140,8131); (8152,8144); (8153,8145); (8154,8054); (8155,8055); (8168,8160); (8169,8161); (8170,8058); (8171,8059);
  (8172,8165); (8184,8056); (8185,8057); (8186,8060); (8187,8061); (8188,8179); (8486,969); (8490,107); (8491,229);
  (8498,8526); (8544,8560); (8545,8561); (8546,8562); (8547,8563); (8548,8564); (8549,8565); (8550,8566); (8551,8567);
  (8552,8568); (8553,8569); (8554,8570); (8555,8571); (8556,8572); (8557,8573); (8558,8574); (8559,8575); (8579,8580);
  (9398,9424); (9399,9425); (9400,9426); (9401,9427); (9402,9428); (9403,9429); (9404,9430); (9405,9431); (9406,9432);
  (9407,9433); (9408,9434); (9409,9435); (9410,9436); (9411,9437); (9412,9438); (9413,9439); (9414,9440); (9415,9441);
  (9416,9442); (9417,9443); (9418,9444); (9419,9445); (9420,9446); (9421,9447); (9422,9448); (9423,9449); (11264,11312);
  (11265,11313); (11266,11314); (11267,11315); (11268,11316); (11269,11317); (11270,11318); (11271,11319); (11272,11320); (11273,11321);
  (11274,11322); (11275,11323); (11276,11324); (11277,11325); (11278,11326); (11279,11327); (11280,11328); (11281,11329); (11282,11330);
  (11283,11331); (11284,11332); (11285,11333); (11286,11334); (11287,11335); (11288,11336); (11289,11337); (11290,11338); (11291,11339);
  (11292,11340); (11293,11341); (11294,11342); (11295,11343); (11296,11344); (11297,11345); (11298,11346); (11299,11347); (11300,11348);
  (11301,11349); (11302,11350); (11303,11351); (11304,11352); (11305,11353); (11306,11354); (11307,11355); (11308,11356); (11309,11357);
  (11310,11358); (11311,11359); (11360,11361); (11362,619); (11363,7549); (11364,637); (11367,11368); (11369,11370); (11371,11372);
  (11373,593); (11374,625); (11375,592); (11376,594); (11378,11379); (11381,11382); (11390,575); (11391,576); (11392,11393);
  (11394,11395); (11396,11397); (11398,11399); (11400,11401); (11402,11403); (11404,11405); (11406,11407); (11408,11409); (11410,11411);
  (11412,11413); (11414,11415); (11416,11417); (11418,11419); (11420,11421); (11422,11423); (11424,11425); (11426,11427); (11428,11429);
  (11430,11431); (11432,11433); (11434,11435); (11436,11437); (11438,11439); (11440,11441); (11442,11443); (11444,11445); (11446,11447);
  (11448,11449); (11450,11451); (11452,11453); (11454,11455); (11456,11457); (11458,11459); (11460,11461); (11462,11463); (11464,11465);
  (11466,11467); (11468,11469); (11470,11471); (11472,11473); (11474,11475); (11476,11477); (11478,11479); (11480,11481); (11482,11483);
  (11484,11485); (11486,11487); (11488,11489); (11490,11491); (11499,11500); (11501,11502); (11506,11507); (42560,42561); (42562,42563);
  (42564,42565); (42566,42567); (42568,42569); (42570,42571); (42572,42573); (42574,42575); (42576,42577); (42578,42579); (42580,42581);
  (42582,42583); (42584,42585); (42586,42587); (42588,42589); (42590,42591); (42592,42593); (42594,42595); (42596,42597); (42598,42599);
  (42600,42601); (42602,42603); (42604,42605); (42624,42625); (42626,42627); (42628,42629); (42630,42631); (42632,42633); (42634,42635);
  (42636,42637); (42638,42639); (42640,42641); (42642,42643); (42644,42645); (42646,42647); (42648,42649); (42650,42651); (42786,42787);
  (42788,42789); (42790,42791); (42792,42793); (42794,42795); (42796,42797); (42798,42799); (42802,42803); (42804,42805); (42806,42807);
  (42808,42809); (42810,42811); (42812,42813); (42814,42815); (42816,42817); (42818,42819); (42820,42821); (42822,42823); (42824,42825);
  (42826,42827); (42828,42829); (42830,42831); (42832,42833); (42834,42835); (42836,42837); (42838,42839); (42840,42841); (42842,42843);
  (42844,42845); (42846,42847); (42848,42849); (42850,42851); (42852,42853); (42854,42855); (42856,42857); (42858,42859); (42860,42861);
  (42862,42863); (42873,42874); (42875,42876); (42877,7545); (42878,42879); (42880,42881); (42882,42883); (42884,42885); (42886,42887);
  (42891,42892); (42893,613); (42896,42897); (42898,42899); (42902,42903); (42904,42905); (42906,42907); (42908,42909); (42910,42911);
  (42912,42913); (42914,42915); (42916,42917); (42918,42919); (42920,42921); (42922,614); (42923,604); (42924,609); (42925,620);
  (42926,618); (42928,670); (42929,647); (42930,669); (42931,43859); (42932,42933); (42934,42935); (42936,42937); (42938,42939);
  (42940,42941); (42942,42943); (42944,42945); (42946,42947); (42948,42900); (42949,642); (42950,7566); (42951,42952); (42953,42954);
  (42960,42961); (42966,42967); (42968,42969); (42997,42998); (65313,65345); (65314,65346); (65315,65347); (65316,65348); (65317,65349);
  (65318,65350); (65319,65351); (65320,65352); (65321,65353); (65322,65354); (65323,65355); (65324,65356); (65325,65357); (65326,65358);
  (65327,65359); (65328,65360); (65329,65361); (65330,65362); (65331,65363); (65332,65364); (65333,65365); (65334,65366); (65335,65367);
  (65336,65368); (65337,65369); (65338,65370); (66560,66600); (66561,66601); (66562,66602); (66563,66603); (66564,66604); (66565,66605);
  (66566,66606); (66567,66607); (66568,66608); (66569,66609); (66570,66610); (66571,66611); (66572,66612); (66573,66613); (66574,66614);
  (66575,66615); (66576,66616); (66577,66617); (66578,66618); (66579,66619); (66580,66620); (66581,66621); (66582,66622); (66583,66623);
  (66584,66624); (66585,66625); (66586,66626); (66587,66627); (66588,66628); (66589,66629); (66590,66630); (66591,66631); (66592,66632);
  (66593,66633); (66594,66634); (66595,66635); (66596,66636); (66597,66637); (66598,66638); (66599,66639); (66736,66776); (66737,66777);
  (66738,66778); (66739,66779); (66740,66780); (66741,66781); (66742,66782); (66743,66783); (66744,66784); (66745,66785); (66746,66786);
  (66747,66787); (66748,66788); (66749,66789); (66750,66790); (66751,66791); (66752,66792); (66753,66793); (66754,66794); (66755,66795);
  (66756,66796); (66757,66797); (66758,66798); (66759,66799); (66760,66800); (66761,66801); (66762,66802); (66763,66803); (66764,66804);
  (66765,66805); (66766,66806); (66767,66807); (66768,66808); (66769,66809); (66770,66810); (66771,66811); (66928,66967); (66929,66968);
  (66930,66969); (66931,66970); (66932,66971); (66933,66972); (66934,66973); (66935,66974); (66936,66975); (66937,66976); (66938,66977);
  (66940,66979); (66941,66980); (66942,66981); (66943,66982); (66944,66983); (66945,66984); (66946,66985); (66947,66986); (66948,66987);
  (66949,66988); (66950,66989); (66951,66990); (66952,66991); (66953,66992); (66954,66993); (66956,66995); (66957,66996); (66958,66997);
  (66959,66998); (66960,66999); (66961,67000); (66962,67001); (66964,67003); (66965,67004); (68736,68800); (68737,68801); (68738,68802);
  (68739,68803); (68740,68804); (68741,68805); (68742,68806); (68743,68807); (68744,68808); (68745,68809); (68746,68810); (68747,68811);
  (68748,68812); (68749,68813); (68750,68814); (68751,68815); (68752,68816); (68753,68817); (68754,68818); (68755,68819); (68756,68820);
  (68757,68821); (68758,68822); (68759,68823); (68760,68824); (68761,68825); (68762,68826); (68763,68827); (68764,68828); (68765,68829);
  (68766,68830); (68767,68831); (68768,68832); (68769,68833); (68770,68834); (68771,68835); (68772,68836); (68773,68837); (68774,68838);
  (68775,68839); (68776,68840); (68777,68841); (68778,68842); (68779,68843); (68780,68844); (68781,68845); (68782,68846); (68783,68847);
  (68784,68848); (68785,68849); (68786,68850); (71840,71872); (71841,71873); (71842,71874); (71843,71875); (71844,71876); (71845,71877);
  (71846,71878); (71847,71879); (71848,71880); (71849,71881); (71850,71882); (71851,71883); (71852,71884); (71853,71885); (71854,71886);
  (71855,71887); (71856,71888); (71857,71889); (71858,71890); (71859,71891); (71860,71892); (71861,71893); (71862,71894); (71863,71895);
  (71864,71896); (71865,71897); (71866,71898); (71867,71899); (71868,71900); (71869,71901); (71870,71902); (71871,71903); (93760,93792);
  (93761,93793); (93762,93794); (93763,93795); (93764,93796); (93765,93797); (93766,93798); (93767,93799); (93768,93800); (93769,93801);
  (93770,93802); (93771,93803); (93772,93804); (93773,93805); (93774,93806); (93775,93807); (93776,93808); (93777,93809); (93778,93810);
  (93779,93811); (93780,93812); (93781,93813); (93782,93814); (93783,93815); (93784,93816); (93785,93817); (93786,93818); (93787,93819);
  (93788,93820); (93789,93821); (93790,93822); (93791,93823); (125184,125218); (125185,125219); (125186,125220); (125187,125221); (125188,125222);
  (125189,125223); (125190,125224); (125191,125225); (125192,125226); (125193,125227); (125194,125228); (125195,125229); (125196,125230); (125197,125231);
  (125198,125232); (125199,125233); (125200,125234); (125201,125235); (125202,125236); (125203,125237); (125204,125238); (125205,125239); (125206,125240);
  (125207,125241); (125208,125242); (125209,125243); (125210,125244); (125211,125245); (125212,125246); (125213,125247); (125214,125248); (125215,125249);
  (125216,125250); (125217,125251)
].

