(* ===== verification/Unicode.v ===== *)
(** The pre-tokenizers: [memra-tokenizer/src/unicode.rs].

    A text is the list of its code points; positions count code points.  A
    splitter returns the words; the source's last step, which turns code point
    counts into byte ranges of the same text, is the cut of the list. *)
From S2P Require Import Prelude RustStr Utf8 UnicodeData.
Local Open Scope Z_scope.

Definition FLAG_UNDEFINED : Z := 1.
Definition FLAG_NUMBER : Z := 2.
Definition FLAG_LETTER : Z := 4.
Definition FLAG_ACCENT_MARK : Z := 16.
Definition FLAG_PUNCTUATION : Z := 32.
Definition FLAG_SYMBOL : Z := 64.
Definition FLAG_WHITESPACE : Z := 256.
Definition MAX_CODEPOINTS : Z := 1114112.

Definition is_number (f : Z) : bool := negb (Z.land f FLAG_NUMBER =? 0).
Definition is_letter (f : Z) : bool := negb (Z.land f FLAG_LETTER =? 0).
Definition is_accent_mark (f : Z) : bool := negb (Z.land f FLAG_ACCENT_MARK =? 0).
Definition is_ws (f : Z) : bool := negb (Z.land f FLAG_WHITESPACE =? 0).
Definition category_flag (f : Z) : Z := Z.land f 255.

(** The table at one code point: the flags of the last range that wrote it. *)
Fixpoint range_flags (acc : Z) (l : list (Z * Z)) (cpt : Z) : Z :=
  match l with
  | (ini, fl) :: ((last, _) :: _) as l' =>
      range_flags (if (ini <=? cpt) && (cpt <? last) then fl else acc) l' cpt
  | _ => acc
  end.
Definition cpt_flags_table (cpt : Z) : Z :=
  let f := range_flags FLAG_UNDEFINED UNICODE_RANGES_FLAGS cpt in
  if bool_decide (cpt ∈ UNICODE_SET_WHITESPACE) then Z.lor f FLAG_WHITESPACE else f.
Definition cpt_flags_from_cpt (cpt : Z) : Z :=
  if cpt <? MAX_CODEPOINTS then cpt_flags_table cpt else FLAG_UNDEFINED.
(** The map's keys increase, so the binary search finds the one entry. *)
Fixpoint assoc (l : list (Z * Z)) (k : Z) : option Z :=
  match l with [] => None | (a, b) :: l => if a =? k then Some b else assoc l k end.
Definition tolower (cpt : Z) : Z := default cpt (assoc UNICODE_MAP_LOWERCASE cpt).

(** ** Bytes as characters *)

Definition byte_is_itself (b : Z) : bool :=
  ((33 <=? b) && (b <=? 126)) || ((161 <=? b) && (b <=? 172)) || ((174 <=? b) && (b <=? 255)).
(** The other bytes get 256, 257, .. in order. *)
Fixpoint number_bytes (n : Z) (bs : list Z) : list Z :=
  match bs with
  | [] => []
  | b :: bs => if byte_is_itself b then b :: number_bytes n bs else 256 + n :: number_bytes (n + 1) bs
  end.
Definition byte_unicode_map : list Z := number_bytes 0 (Z.of_nat <$> seq 0 256).
Definition byte_to_unicode (b : Z) : Z := nth (Z.to_nat b) byte_unicode_map 0.
Definition unicode_to_byte (c : Z) : option Z :=
  Z.of_nat ∘ fst <$> list_find (fun x => x = c) byte_unicode_map.
Definition byte_encode (s : str) : str := byte_to_unicode <$> utf8 s.

(** ** The qwen35 splitter *)

Definition OOR : Z := 4294967295.
Section Qwen.
Context (cpts : list Z).
Definition get_cpt (pos : nat) : Z := default OOR (cpts !! pos).
Definition get_flags (pos : nat) : Z :=
  match cpts !! pos with Some c => cpt_flags_from_cpt c | None => 0 end.
(** [while p(pos) { pos += 1 }], from [pos] to the end of the text at most. *)
Fixpoint scan (p : nat -> bool) (fuel pos : nat) : nat :=
  match fuel with O => pos | S fuel => if p pos then scan p fuel (S pos) else pos end.
Definition scan_while (p : nat -> bool) (pos : nat) : nat := scan p (S (length cpts)) pos.

Definition in_word (pos : nat) : bool := is_letter (get_flags pos) || is_accent_mark (get_flags pos).
Definition is_rn (pos : nat) : bool := (get_cpt pos =? 13) || (get_cpt pos =? 10).
(** None of [\s\p{L}\p{M}\p{N}], and some category. *)
Definition is_other (f : Z) : bool :=
  negb (is_ws f || is_letter f || is_accent_mark f || is_number f) && negb (f =? 0).
(** The end of the last [\r] or [\n] of the white space run at [pos], 0 if none. *)
Fixpoint last_rn (fuel pos : nat) (acc : nat) : nat :=
  match fuel with
  | O => acc
  | S fuel =>
      if is_ws (get_flags pos) then last_rn fuel (S pos) (if is_rn pos then S pos else acc) else acc
  end.

(** The length the contraction branch takes, if it applies. *)
Definition contraction (pos : nat) : option nat :=
  let n := length cpts in
  if (get_cpt pos =? 39) && (pos + 1 <? n)%nat then
    let nx := tolower (get_cpt (pos + 1)) in
    if (nx =? 115) || (nx =? 116) || (nx =? 109) || (nx =? 100) then Some 2%nat
    else if (pos + 2 <? n)%nat then
      let nn := tolower (get_cpt (pos + 2)) in
      if ((nx =? 114) && (nn =? 101)) || ((nx =? 118) && (nn =? 101)) || ((nx =? 108) && (nn =? 108))
      then Some 3%nat else None
    else None
  else None.
(** The end of the word at [pos], the contractions apart. *)
Definition word_end (pos : nat) : nat :=
  let cpt := get_cpt pos in
  let flags := get_flags pos in
  if negb ((cpt =? 13) || (cpt =? 10) || is_number flags) &&
     (is_letter flags || is_accent_mark flags || is_accent_mark (get_flags (pos + 1)) ||
      is_letter (get_flags (pos + 1)))
  then scan_while in_word (pos + 1)
  else if is_number flags then (pos + 1)%nat
  else
    let flags2 := if cpt =? 32 then get_flags (pos + 1) else flags in
    if negb (is_ws flags2 || is_letter flags2 || is_accent_mark flags2 || is_number flags2) && negb (flags =? 0) then
      let p := if cpt =? 32 then (pos + 1)%nat else pos in
      scan_while is_rn (scan_while (fun q => is_other (get_flags q)) p)
    else
      let ws_end := scan_while (fun q => is_ws (get_flags q)) pos in
      let num_ws := (ws_end - pos)%nat in
      let rn := last_rn (S (length cpts)) pos 0 in
      if (0 <? rn)%nat then rn
      else if (1 <? num_ws)%nat && negb (get_cpt ws_end =? OOR) then (ws_end - 1)%nat
      else if (0 <? num_ws)%nat then ws_end
      else (pos + 1)%nat.

(** [add_token]: the length pushed, the new [prev_end] and the lengths. *)
Definition add_token (e prev_end : nat) (lens : list nat) : nat * nat * list nat :=
  let len := (e - prev_end)%nat in (len, e, if (0 <? len)%nat then lens ++ [len] else lens).
Fixpoint qwen_loop (fuel pos prev_end : nat) (lens : list nat) : list nat :=
  match fuel with
  | O => lens
  | S fuel =>
      if (pos <? length cpts)%nat then
        match contraction pos with
        | Some k =>
            let '(len, prev_end, lens) := add_token (pos + k) prev_end lens in
            qwen_loop fuel (pos + len) prev_end lens
        | None =>
            let e := word_end pos in
            let '(_, prev_end, lens) := add_token e prev_end lens in
            qwen_loop fuel e prev_end lens
        end
      else lens
  end.
End Qwen.
(** The words of the given lengths. *)
Fixpoint cut (lens : list nat) (s : str) : list str :=
  match lens with [] => [] | len :: lens => take len s :: cut lens (drop len s) end.
Definition split_qwen35 (text : str) : list str := cut (qwen_loop text (length text) 0 0 []) text.

(** ** The deepseek-v3 splitter *)

Definition in_range (a b x : Z) : bool := (a <=? x) && (x <=? b).
Definition is_ascii_alphabetic (b : Z) : bool := in_range 65 90 b || in_range 97 122 b.
Definition collapse_cpt (cpt : Z) : Z :=
  if cpt <? 128 then cpt
  else
    let fl := cpt_flags_from_cpt cpt in
    if is_ws fl then 11
    else
      let c := category_flag fl in
      if c =? FLAG_NUMBER then 209
      else if c =? FLAG_LETTER then 210
      else if c =? FLAG_PUNCTUATION then 211
      else if c =? FLAG_ACCENT_MARK then 212
      else if c =? FLAG_SYMBOL then 213
      else 208.
Definition c_is_letter (b : Z) : bool := (b =? 210) || is_ascii_alphabetic b.
Definition c_is_mark (b : Z) : bool := b =? 212.
Definition c_is_punct (b : Z) : bool :=
  (b =? 211) || in_range 33 35 b || in_range 37 42 b || in_range 44 47 b || in_range 58 59 b ||
  in_range 63 64 b || in_range 91 93 b || (b =? 95) || (b =? 123) || (b =? 125).
Definition c_is_symbol (b : Z) : bool :=
  (b =? 213) || (b =? 36) || (b =? 43) || in_range 60 62 b || (b =? 94) || (b =? 96) || (b =? 124) || (b =? 126).
Definition c_is_number (b : Z) : bool := (b =? 209) || is_ascii_digit b.
Definition c_is_space (b : Z) : bool := (b =? 32) || in_range 9 13 b.
Definition c_is_ascii_punct_lit (b : Z) : bool :=
  in_range 33 47 b || in_range 58 64 b || in_range 91 96 b || in_range 123 126 b.
Definition is_cjk_kana (cpt : Z) : bool :=
  in_range 19968 40869 cpt || in_range 12352 12447 cpt || in_range 12448 12543 cpt.

Definition push_len (lens : list nat) (len : nat) : list nat := if (0 <? len)%nat then lens ++ [len] else lens.
(** The scan of one window: the words so far, the start of the gap. *)
Fixpoint pass_window (m : nat -> nat -> nat -> option nat) (fuel start e gap pos : nat) (out : list nat)
    : list nat * nat :=
  match fuel with
  | O => (out, gap)
  | S fuel =>
      if (pos <? e)%nat then
        match m start e pos with
        | Some m_end =>
            if (pos <? m_end)%nat
            then pass_window m fuel start e m_end m_end (push_len (push_len out (pos - gap)) (m_end - pos))
            else pass_window m fuel start e gap (S pos) out
        | None => pass_window m fuel start e gap (S pos) out
        end
      else (out, gap)
  end.
Fixpoint split_pass_from (m : nat -> nat -> nat -> option nat) (start : nat) (offsets : list nat) (out : list nat)
    : list nat :=
  match offsets with
  | [] => out
  | off :: offsets =>
      let e := (start + off)%nat in
      let '(out, gap) := pass_window m off start e start start out in
      split_pass_from m e offsets (push_len out (e - gap))
  end.
Definition split_pass (offsets : list nat) (m : nat -> nat -> nat -> option nat) : list nat :=
  split_pass_from m 0 offsets [].

(** [while e < end && p(l[e]) { e += 1 }] *)
Fixpoint run_to (p : Z -> bool) (l : list Z) (fuel e last : nat) : nat :=
  match fuel with
  | O => e
  | S fuel =>
      if (e <? last)%nat && match l !! e with Some x => p x | None => false end then run_to p l fuel (S e) last else e
  end.
Definition run (p : Z -> bool) (l : list Z) (e last : nat) : nat := run_to p l (last - e) e last.

Definition at_ (l : list Z) (i : nat) : Z := nth i l 0.
Definition pass1 (coll : list Z) (_ e pos : nat) : option nat :=
  if negb (c_is_number (at_ coll pos)) then None
  else Some (run c_is_number coll (pos + 1) (Nat.min e (pos + 3))).
Definition pass2 (cpts : str) (_ e pos : nat) : option nat :=
  if negb (is_cjk_kana (at_ cpts pos)) then None else Some (run is_cjk_kana cpts (pos + 1) e).
(** The last [\r] or [\n] of a white space run, and the run's end. *)
Fixpoint space_run (coll : list Z) (fuel e last : nat) (last_rn : option nat) : nat * option nat :=
  match fuel with
  | O => (e, last_rn)
  | S fuel =>
      if (e <? last)%nat && c_is_space (at_ coll e) then
        space_run coll fuel (S e) last
          (if (at_ coll e =? 13) || (at_ coll e =? 10) then Some (S e) else last_rn)
      else (e, last_rn)
  end.
Definition alt1 (coll : list Z) (e pos : nat) : option nat :=
  if c_is_ascii_punct_lit (at_ coll pos) && (pos + 1 <? e)%nat && is_ascii_alphabetic (at_ coll (pos + 1))
  then Some (run is_ascii_alphabetic coll (pos + 2) e) else None.
Definition letter_or_mark (b : Z) : bool := c_is_letter b || c_is_mark b.
Definition alt2 (coll : list Z) (e pos : nat) : option nat :=
  let b := at_ coll pos in
  let lead_ok := negb (b =? 13) && negb (b =? 10) && negb (c_is_letter b) && negb (c_is_punct b) && negb (c_is_symbol b) in
  let try s := let e' := run letter_or_mark coll s e in if (s <? e')%nat then Some e' else None in
  if lead_ok && (pos + 1 <? e)%nat && letter_or_mark (at_ coll (pos + 1)) then try (pos + 1)%nat
  else if negb (letter_or_mark b) then None else try pos.
Definition alt3 (coll : list Z) (e pos : nat) : option nat :=
  let s := if at_ coll pos =? 32 then (pos + 1)%nat else pos in
  let e' := run (fun b => c_is_punct b || c_is_symbol b) coll s e in
  if (s <? e')%nat then Some (run (fun b => (b =? 13) || (b =? 10)) coll e' e) else None.
Definition alt456 (coll : list Z) (e pos : nat) : option nat :=
  if c_is_space (at_ coll pos) then
    let '(run_end, last_rn) := space_run coll (e - pos) pos e None in
    match last_rn with
    | Some rn_end => Some rn_end
    | None =>
        if (run_end <? e)%nat then
          if (1 <? run_end - pos)%nat then Some (run_end - 1)%nat else Some (pos + 1)%nat
        else Some run_end
    end
  else None.
Definition or_else {A : Type} (a b : option A) : option A := match a with Some _ => a | None => b end.
Definition pass3 (coll : list Z) (_ e pos : nat) : option nat :=
  or_else (alt1 coll e pos) (or_else (alt2 coll e pos) (or_else (alt3 coll e pos) (alt456 coll e pos))).
Definition split_deepseek_v3 (text : str) : list str :=
  let coll := collapse_cpt <$> text in
  let offsets := split_pass [length text] (pass1 coll) in
  let offsets := split_pass offsets (pass2 text) in
  let offsets := split_pass offsets (pass3 coll) in
  cut offsets text.
