(* ===== verification/PretokCases.v ===== *)
(** The words the tests of the deepseek-v3 splitter expect (the table
    [DS3_CASES] of [memra-tokenizer/src/unicode.rs]); the text of a case is the
    concatenation of its words. *)
From S2P Require Import Prelude RustStr.
Local Open Scope Z_scope.

Definition DS3_CASES : list (list str) :=
  [[[72; 101; 108; 108; 111]; [32; 119; 111; 114; 108; 100]];
   [[72; 101; 108; 108; 111]; [44]; [32; 119; 111; 114; 108; 100]; [33]];
   [[32; 108; 101; 97; 100; 105; 110; 103]; [32; 97; 110; 100]; [32; 116; 114; 97; 105; 108; 105; 110; 103]; [32]];
      [[100; 111; 110]; [39; 116]; [32; 99; 97; 110]; [39; 116]; [32; 119; 101]; [39; 114; 101]; [32; 73]; [39; 118;
    101]; [32; 73]; [39; 109]; [32; 121; 111; 117]; [39; 108; 108]; [32; 104; 101]; [39; 100]];
   [[49; 50; 51]; [52; 53; 54]; [55]; [32]; [56; 57]; [32]; [48]];
   [[118]; [48]; [46]; [55; 49]; [46]; [48]; [32; 97; 110; 100]; [32]; [49; 50; 56]; [75]; [32; 99; 116; 120]];
      [[83; 116; 101; 112]; [45]; [51]; [46]; [55]; [45; 70; 108; 97; 115; 104]; [58]; [32]; [49; 57; 54]; [66];
    [45; 65]; [49; 49]; [66]; [32; 40]; [52; 53]; [32; 98; 108; 111; 99; 107; 115]; [41]];
   [[108; 105; 110; 101]; [49]; [10]; [108; 105; 110; 101]; [50]; [13; 10]; [108; 105; 110; 101]; [51]];
   [[116; 114; 97; 105; 108; 105; 110; 103]; [32; 110; 101; 119; 108; 105; 110; 101; 115]; [10; 10; 10]];
   [[116; 97; 98; 115]; [9; 97; 110; 100]; [9]; [9; 115; 112; 97; 99; 101; 115]; [32; 32]; [32; 120]];
   [[10; 10; 32; 32; 10]; [32; 105; 110; 100; 101; 110; 116; 101; 100]];
   [[20013; 25991; 27979; 35797]];
   [[28151; 21512]; [32; 69; 110; 103; 108; 105; 115; 104]; [32]; [20013; 25991]; [32]; [49; 50; 51]];
   [[26085; 26412; 35486; 12398; 12486; 12473; 12488]; [12289]; [12459; 12479; 12459; 12490]];
   [[54620; 44397; 50612]; [32; 53580; 49828; 53944]];
      [[101; 109; 111; 106; 105]; [32; 128640]; [32; 97; 110; 100]; [32; 115; 121; 109; 98; 111; 108; 115]; [32;
    126]; [32; 94]; [32; 124]; [32; 36]; [32; 43]];
   [[110; 97; 239; 118; 101]; [32; 99; 97; 102; 233]; [32; 114; 233; 115; 117; 109; 233]];
   [[220; 110; 239; 99; 246; 100; 233]; [32; 109; 196; 114; 107; 115]];
   [[97; 769; 98; 807; 99]];
      [[77; 111; 69]; [32; 116; 111; 112]; [45]; [56]; [32]; [50; 56; 56]; [32; 101; 120; 112; 101; 114; 116; 115];
    [64]; [52; 48; 57]; [54]];
   [[32; 32]];
   [[32]];
   [];
   [[9]];
   [[10]];
   [[120]];
   [[64; 35; 36; 37; 94; 38; 42; 40; 41]];
      [[115; 110; 97; 107; 101]; [95; 99; 97; 115; 101]; [32; 99; 97; 109; 101; 108; 67; 97; 115; 101]; [32; 107;
    101; 98; 97; 98]; [45; 99; 97; 115; 101]];
   [[112; 97; 116; 104]; [47; 116; 111]; [47; 102; 105; 108; 101]; [46; 103; 103; 117; 102]];
   [[123; 34]; [107; 101; 121]; [34; 58]; [32; 91]; [49]; [44]; [32]; [50]; [44]; [32]; [51]; [93; 125]];
   [[53]; [101]; [54]; [32; 118; 115]; [32]; [49]; [101]; [52]; [32; 114; 111; 112; 101]; [32; 98; 97; 115; 101]];
      [[1046; 1048; 1042; 1025; 1058]; [32; 1088; 1091; 1089; 1089; 1082; 1080; 1081]; [32; 1090; 1077; 1082; 1089;
    1090]];
   [[917; 955; 955; 951; 957; 953; 954; 940]; [32; 954; 949; 943; 956; 949; 957; 945]];
   [[1575; 1604; 1593; 1585; 1576; 1610; 1577]; [32; 1606; 1589]];
   [[9601]; [101; 115; 99; 97; 112; 101; 100]; [9601]; [115; 112; 97; 99; 101]];
   [[49; 48; 48]; [37; 37]; [32; 115; 117; 114; 101]; [63]; [32; 121; 101; 115]; [33; 33; 33]];
   [[32; 46]; [97]];
   [[32; 97]];
   [[46; 46]];
   [[97]; [49]];
   [[49]; [97]];
   [[49; 50; 51]; [52; 53; 54]; [55; 56; 57]; [48; 49; 50]; [51; 52]];
   [[32]; [49; 50; 51]];
   [[49; 50; 51]; [32]];
   [[32; 32]; [49; 50; 51]; [32; 32]];
   [[45; 97; 98; 99]];
   [[45; 97; 98; 99]; [49]];
   [[126; 97; 98; 99]];
   [[126]];
   [[126]; [32; 94]];
   [[160; 110; 98; 115; 112]];
   [[97]; [160]; [160; 98]];
   [[120]; [32; 10]; [32; 121]];
   [[120]; [32; 32; 10; 10]; [32]; [32; 121]];
   [[101; 110; 100]; [32; 119; 105; 116; 104]; [32; 115; 112; 97; 99; 101]; [32]];
   [[101; 110; 100]; [32; 119; 105; 116; 104]; [32; 115; 112; 97; 99; 101; 115]; [32; 32; 32]];
   [[13]];
   [[13; 13; 10; 10]];
   [[32; 10]; [32]];
   [[769; 108; 101; 97; 100; 105; 110; 103]; [32; 109; 97; 114; 107]];
   [[20013]; [49]; [25991]; [50]];
   [[12540; 12541; 12542]];
   [[40869]; [40870]];
   [[12352]; [12351]]].
