(* ===== verification/Pretok.v ===== *)
(** What the pre-tokenizers of [Unicode] compute.

    Both splitters cut the text into non-empty words without losing or moving a
    character.  [split_qwen35] is the leftmost-first matching of the regular
    expression its documentation gives: [Regex] is a backtracking matcher and
    [qwen_regex] that expression. *)
From S2P Require Import Prelude RustStr Utf8 UnicodeData Unicode PretokCases.
Local Open Scope nat_scope.
#[local] Arguments cpt_flags_from_cpt : simpl never.
#[local] Arguments tolower : simpl never.

(** ** Cutting *)

Lemma cut_concat lens s : sum_list lens = length s -> concat (cut lens s) = s.
Proof.
  revert s. induction lens as [|k lens IH]; intros s H; cbn [cut concat].
  - by destruct s.
  - simpl in H. rewrite IH; [apply take_drop|]. rewrite length_drop. lia.
Qed.
Lemma cut_nonempty lens s :
  sum_list lens <= length s -> Forall (fun k => 0 < k) lens -> Forall (fun w => w <> []) (cut lens s).
Proof.
  revert s. induction lens as [|k lens IH]; intros s Hs H; cbn [cut]; [constructor|].
  inversion H as [|? ? Hk Hl]; subst. simpl in Hs. constructor.
  - destruct k as [|k]; [lia|]. by destruct s; [simpl in Hs; lia|].
  - apply IH; [rewrite length_drop; lia|done].
Qed.

(** ** Runs *)

Section Run.
Context (p : nat -> bool) (n : nat) (Hp : forall q, n <= q -> p q = false).
(** The first position from [pos] on where [p] fails. *)
Definition is_run_end (pos e : nat) : Prop :=
  pos <= e /\ (forall q, pos <= q < e -> p q = true) /\ p e = false.
Lemma run_end_unique pos e e' : is_run_end pos e -> is_run_end pos e' -> e = e'.
Proof.
  intros (H1 & H2 & H3) (G1 & G2 & G3). destruct (Nat.lt_trichotomy e e') as [Hl|[->|Hl]]; [|done|].
  - rewrite G2 in H3 by lia. done.
  - rewrite H2 in G3 by lia. done.
Qed.
Lemma scan_run fuel pos : n < fuel + pos -> is_run_end pos (scan p fuel pos).
Proof.
  revert pos. induction fuel as [|fuel IH]; intros pos Hf; simpl.
  - split; [lia|]. split; [lia|]. apply Hp. lia.
  - destruct (p pos) eqn:E; [|split; [lia|]; split; [lia|done]].
    destruct (IH (S pos)) as (H1 & H2 & H3); [lia|]. split; [lia|]. split; [|done].
    intros q Hq. destruct (decide (q = pos)) as [->|]; [done|]. apply H2. lia.
Qed.
Lemma run_end_bound pos e : is_run_end pos e -> e <= Nat.max pos n.
Proof.
  intros (H1 & H2 & H3). destruct (Nat.le_gt_cases e (Nat.max pos n)) as [|Hgt]; [done|].
  assert (E : p (e - 1) = true) by (apply H2; lia). rewrite Hp in E by lia. done.
Qed.
End Run.

Section Qwen.
Context (cpts : list Z).
Abbreviation n := (length cpts).

Lemma get_flags_end q : n <= q -> get_flags cpts q = 0%Z.
Proof. intros H. unfold get_flags. by rewrite lookup_ge_None_2. Qed.
Lemma get_cpt_end q : n <= q -> get_cpt cpts q = OOR.
Proof. intros H. unfold get_cpt. by rewrite lookup_ge_None_2. Qed.
Lemma in_word_end q : n <= q -> in_word cpts q = false.
Proof. intros H. unfold in_word. by rewrite get_flags_end. Qed.
Lemma is_rn_end q : n <= q -> is_rn cpts q = false.
Proof. intros H. unfold is_rn. by rewrite get_cpt_end. Qed.
Lemma is_other_end q : n <= q -> is_other (get_flags cpts q) = false.
Proof. intros H. by rewrite get_flags_end. Qed.
Lemma is_ws_end q : n <= q -> is_ws (get_flags cpts q) = false.
Proof. intros H. by rewrite get_flags_end. Qed.
Lemma scan_while_run p pos : (forall q, n <= q -> p q = false) -> is_run_end p pos (scan_while cpts p pos).
Proof. intros H. apply (scan_run p n H). lia. Qed.
Lemma scan_while_bound p pos : (forall q, n <= q -> p q = false) ->
  pos <= scan_while cpts p pos <= Nat.max pos n.
Proof.
  intros H. pose proof (scan_while_run p pos H) as Hr. split; [apply Hr|]. by apply (run_end_bound p n H).
Qed.
(** The last line end of a white space run, if it has one. *)
Lemma last_rn_spec fuel pos acc e :
  is_run_end (fun q => is_ws (get_flags cpts q)) pos e -> e < fuel + pos ->
  ((forall q, pos <= q < e -> is_rn cpts q = false) /\ last_rn cpts fuel pos acc = acc) \/
  exists q, pos <= q < e /\ is_rn cpts q = true /\ (forall q', q < q' < e -> is_rn cpts q' = false) /\
    last_rn cpts fuel pos acc = S q.
Proof.
  revert pos acc. induction fuel as [|fuel IH]; intros pos acc (H1 & H2 & H3) Hf; [lia|]. cbn [last_rn].
  destruct (decide (e = pos)) as [->|Hne].
  { rewrite H3. left. split; [lia|done]. }
  rewrite (H2 pos) by lia.
  destruct (IH (S pos) (if is_rn cpts pos then S pos else acc)) as [[Hno Heq]|(q & Hq & Hrn & Hafter & Heq)]; [|lia|..].
  - split; [lia|]. split; [intros; apply H2; lia|done].
  - rewrite Heq. destruct (is_rn cpts pos) eqn:Hrn.
    + right. exists pos. split; [lia|]. split; [done|]. split; [intros; apply Hno; lia|done].
    + left. split; [|done]. intros q Hq. destruct (decide (q = pos)) as [->|]; [done|]. apply Hno. lia.
  - right. exists q. split; [lia|]. done.
Qed.
Abbreviation ws_run pos := (scan_while cpts (fun q => is_ws (get_flags cpts q)) pos).
Lemma ws_run_end pos : is_run_end (fun q => is_ws (get_flags cpts q)) pos (ws_run pos).
Proof. apply scan_while_run, is_ws_end. Qed.
Lemma last_rn_run pos : pos < n ->
  ((forall q, pos <= q < ws_run pos -> is_rn cpts q = false) /\ last_rn cpts (S n) pos 0 = 0) \/
  exists q, pos <= q < ws_run pos /\ is_rn cpts q = true /\ (forall q', q < q' < ws_run pos -> is_rn cpts q' = false) /\
    last_rn cpts (S n) pos 0 = S q.
Proof.
  intros Hpos. apply last_rn_spec; [apply ws_run_end|].
  pose proof (run_end_bound _ n is_ws_end _ _ (ws_run_end pos)). lia.
Qed.

(** Every word ends after its start, inside the text. *)
Lemma word_end_bound pos : pos < n -> pos < word_end cpts pos <= n.
Proof.
  intros Hpos. unfold word_end.
  destruct (negb _ && _).
  { pose proof (scan_while_bound (in_word cpts) (pos + 1) in_word_end). lia. }
  destruct (is_number _); [lia|].
  set (flags2 := if (get_cpt cpts pos =? 32)%Z then _ else _).
  destruct (negb (_ || _ || _ || _) && _) eqn:Hother.
  - set (p := if (get_cpt cpts pos =? 32)%Z then pos + 1 else pos).
    pose proof (scan_while_bound (fun q => is_other (get_flags cpts q)) p is_other_end) as H1.
    pose proof (scan_while_run (fun q => is_other (get_flags cpts q)) p is_other_end) as (_ & _ & Hend).
    set (e := scan_while cpts (fun q => is_other (get_flags cpts q)) p) in *.
    pose proof (scan_while_bound (is_rn cpts) e is_rn_end) as H2.
    assert (Hp : pos <= p <= pos + 1) by (subst p; destruct (_ =? _)%Z; lia).
    enough (pos < e \/ p = pos + 1) by lia.
    subst p flags2. destruct (get_cpt cpts pos =? 32)%Z; [by right|]. left.
    destruct (decide (e = pos)) as [Heq|]; [|lia]. exfalso. rewrite Heq in Hend. unfold is_other in Hend.
    by rewrite Hother in Hend.
  - cbv zeta. pose proof (scan_while_bound (fun q => is_ws (get_flags cpts q)) pos is_ws_end) as Hw.
    destruct (last_rn_run pos Hpos) as [[_ ->]|(q & Hq & _ & _ & ->)];
      [rewrite Nat.ltb_irrefl|rewrite (proj2 (Nat.ltb_lt _ _)) by lia; lia].
    destruct ((1 <? _) && _) eqn:Hc.
    { apply andb_true_iff in Hc as [Hc%Nat.ltb_lt _]. lia. }
    destruct (Nat.ltb_spec 0 (ws_run pos - pos)); lia.
Qed.
Lemma contraction_bound pos k : contraction cpts pos = Some k -> 0 < k /\ pos + k <= n.
Proof.
  unfold contraction. destruct (_ && _) eqn:E; [|done]. apply andb_true_iff in E as [_ E%Nat.ltb_lt].
  destruct (_ || _); [intros [= <-]; lia|]. destruct (Nat.ltb_spec (pos + 2) n); [|done].
  destruct (_ || _); [intros [= <-]; lia|done].
Qed.
Lemma qwen_loop_sum fuel pos lens :
  pos <= n -> n - pos <= fuel -> sum_list lens = pos -> Forall (fun k => 0 < k) lens ->
  sum_list (qwen_loop cpts fuel pos pos lens) = n /\ Forall (fun k => 0 < k) (qwen_loop cpts fuel pos pos lens).
Proof.
  revert pos lens. induction fuel as [|fuel IH]; intros pos lens Hpos Hf Hsum Hl; cbn [qwen_loop]; [split; [lia|done]|].
  destruct (Nat.ltb_spec pos n) as [Hlt|]; [|split; [lia|done]].
  assert (Hadd : forall e, pos < e <= n -> add_token e pos lens = (e - pos, e, lens ++ [e - pos])).
  { intros e He. unfold add_token. by rewrite (proj2 (Nat.ltb_lt _ _)) by lia. }
  assert (Hstep : forall e, pos < e <= n ->
    sum_list (qwen_loop cpts fuel e e (lens ++ [e - pos])) = n /\
    Forall (fun k => 0 < k) (qwen_loop cpts fuel e e (lens ++ [e - pos]))).
  { intros e He. apply IH; [lia|lia|rewrite sum_list_with_app; simpl; lia|].
    apply Forall_app. split; [done|]. constructor; [lia|done]. }
  destruct (contraction cpts pos) as [k|] eqn:Hc.
  - destruct (contraction_bound _ _ Hc). rewrite Hadd by lia. replace (pos + (pos + k - pos)) with (pos + k) by lia.
    apply Hstep. lia.
  - pose proof (word_end_bound pos Hlt). rewrite Hadd by lia. by apply Hstep.
Qed.
End Qwen.

(** The qwen35 splitter cuts the text into non-empty words, for every text. *)
Lemma split_qwen35_concat (text : str) :
  concat (split_qwen35 text) = text /\ Forall (fun w => w <> []) (split_qwen35 text).
Proof.
  destruct (qwen_loop_sum text (length text) 0 []) as [Hs Hp]; [lia|lia|done|done|].
  split; [by apply cut_concat|]. apply cut_nonempty; [by rewrite Hs|done].
Qed.

(** ** Regular expressions *)

(** Greedy, leftmost-first expressions over character classes; [Ahead p] is
    [(?!p)]. *)
Inductive Regex :=
  | Cls (p : Z -> bool)
  | Star (p : Z -> bool)
  | Opt (p : Z -> bool)
  | Seq (r s : Regex)
  | Alt (r s : Regex)
  | NotAhead (p : Z -> bool).
Definition Plus (p : Z -> bool) : Regex := Seq (Cls p) (Star p).

(** The characters from [pos] on that satisfy [p]: how many. *)
Fixpoint run_length (p : Z -> bool) (s : list Z) : nat :=
  match s with c :: s => if p c then S (run_length p s) else 0 | [] => 0 end.
Definition holds (p : Z -> bool) (s : list Z) (pos : nat) : bool :=
  match s !! pos with Some c => p c | None => false end.
(** The ends of the matches at [pos], in the order a backtracking engine tries them. *)
Fixpoint matches (r : Regex) (s : list Z) (pos : nat) : list nat :=
  match r with
  | Cls p => if holds p s pos then [S pos] else []
  | Star p => reverse (seq pos (S (run_length p (drop pos s))))
  | Opt p => if holds p s pos then [S pos; pos] else [pos]
  | Seq r t => matches r s pos ≫= matches t s
  | Alt r t => matches r s pos ++ matches t s pos
  | NotAhead p => if holds p s pos then [] else [pos]
  end.
Definition regex_match (r : Regex) (s : list Z) (pos : nat) : option nat := head (matches r s pos).
(** All the matches from left to right; a character no match starts at is a word. *)
Fixpoint find_all (r : Regex) (s : list Z) (fuel pos : nat) : list nat :=
  match fuel with
  | O => []
  | S fuel =>
      if pos <? length s then
        let e := default (S pos) (regex_match r s pos) in
        (e - pos) :: find_all r s fuel e
      else []
  end.

(** *** The expression of the documentation *)

Definition L (c : Z) : bool := is_letter (cpt_flags_from_cpt c).
Definition Mk (c : Z) : bool := is_accent_mark (cpt_flags_from_cpt c).
Definition N (c : Z) : bool := is_number (cpt_flags_from_cpt c).
Definition S_ (c : Z) : bool := is_ws (cpt_flags_from_cpt c).
Definition rn (c : Z) : bool := (c =? 13)%Z || (c =? 10)%Z.
Definition char_ci (k : Z) (c : Z) : bool := (tolower c =? k)%Z.
Definition apostrophe (c : Z) : bool := (c =? 39)%Z.
(** [(?i:'s|'t|'re|'ve|'m|'ll|'d)] *)
Definition r_contraction : Regex :=
  let ci (k : Z) := Cls (char_ci k) in
  let q r := Seq (Cls apostrophe) r in
  Alt (q (ci 115%Z)) (Alt (q (ci 116%Z)) (Alt (q (Seq (ci 114%Z) (ci 101%Z)))
    (Alt (q (Seq (ci 118%Z) (ci 101%Z))) (Alt (q (ci 109%Z)) (Alt (q (Seq (ci 108%Z) (ci 108%Z))) (q (ci 100%Z))))))).
(** [[^\r\n\p{L}\p{N}]?[\p{L}\p{M}]+] *)
Definition r_letters : Regex := Seq (Opt (fun c => negb (rn c || L c || N c))) (Plus (fun c => L c || Mk c)).
(** [\p{N}] *)
Definition r_number : Regex := Cls N.
(** [ ?[^\s\p{L}\p{M}\p{N}]+[\r\n]*] *)
Definition r_other : Regex :=
  Seq (Opt (fun c => (c =? 32)%Z)) (Seq (Plus (fun c => negb (S_ c || L c || Mk c || N c))) (Star rn)).
(** [\s*[\r\n]+] *)
Definition r_lines : Regex := Seq (Star S_) (Plus rn).
(** [\s+(?!\S)] *)
Definition r_trailing : Regex := Seq (Plus S_) (NotAhead (fun c => negb (S_ c))).
(** [\s+] *)
Definition r_spaces : Regex := Plus S_.
Definition qwen_regex : Regex :=
  Alt r_contraction (Alt r_letters (Alt r_number (Alt r_other (Alt r_lines (Alt r_trailing r_spaces))))).

(** *** The table has one category per code point *)

Lemma range_flags_in acc l c :
  range_flags acc l c = acc \/ exists x, x ∈ removelast l /\ range_flags acc l c = x.2.
Proof.
  revert acc. induction l as [|[ini fl] l IH]; intros acc; [by left|]. destruct l as [|[last x] l]; [by left|].
  change (range_flags acc ((ini, fl) :: (last, x) :: l) c)
    with (range_flags (if (ini <=? c)%Z && (c <? last)%Z then fl else acc) ((last, x) :: l) c).
  change (removelast ((ini, fl) :: (last, x) :: l)) with ((ini, fl) :: removelast ((last, x) :: l)).
  destruct (IH (if (ini <=? c)%Z && (c <? last)%Z then fl else acc)) as [H|(y & Hy & H)].
  - rewrite H. destruct (_ && _); [|by left]. right. exists (ini, fl). split; [left|done].
  - right. exists y. split; [by right|done].
Qed.
Definition categories : list Z := [1; 2; 4; 8; 16; 32; 64; 128]%Z.
Lemma table_categories : Forall (fun x => x.2 ∈ categories) (removelast UNICODE_RANGES_FLAGS).
Proof. apply (bool_decide_unpack _). vm_compute. exact I. Qed.
Lemma whitespace_flags :
  Forall (fun c => cpt_flags_from_cpt c ∈ [264; 384]%Z) UNICODE_SET_WHITESPACE.
Proof. apply (bool_decide_unpack _). vm_compute. exact I. Qed.
(** A code point is white space, and a separator or a control character, or it
    has exactly one category. *)
Lemma flags_cases c :
  cpt_flags_from_cpt c ∈ [264; 384]%Z \/ cpt_flags_from_cpt c ∈ categories.
Proof.
  destruct (decide (c ∈ UNICODE_SET_WHITESPACE)) as [Hin|Hn].
  - left. exact (proj1 (Forall_forall _ _) whitespace_flags c Hin).
  - right. unfold cpt_flags_from_cpt. destruct (c <? MAX_CODEPOINTS)%Z; [|left].
    unfold cpt_flags_table. rewrite bool_decide_eq_false_2 by done.
    destruct (range_flags_in FLAG_UNDEFINED UNICODE_RANGES_FLAGS c) as [->|(x & Hx & ->)]; [left|].
    exact (proj1 (Forall_forall _ _) table_categories x Hx).
Qed.

(** The classes of a code point: at most one holds. *)
Inductive class_of (c : Z) : Prop :=
  | C_letter : L c = true -> Mk c = false -> N c = false -> S_ c = false -> class_of c
  | C_mark : L c = false -> Mk c = true -> N c = false -> S_ c = false -> class_of c
  | C_number : L c = false -> Mk c = false -> N c = true -> S_ c = false -> class_of c
  | C_space : L c = false -> Mk c = false -> N c = false -> S_ c = true -> class_of c
  | C_other : L c = false -> Mk c = false -> N c = false -> S_ c = false -> class_of c.
Lemma classify c : class_of c /\ cpt_flags_from_cpt c <> 0%Z.
Proof.
  assert (H : forall f, cpt_flags_from_cpt c = f -> f ∈ [264; 384]%Z ++ categories -> class_of c /\ f <> 0%Z).
  { intros f Hf Hin. unfold categories in Hin. cbn [app] in Hin. rewrite !elem_of_cons in Hin.
    repeat destruct Hin as [->|Hin]; try (by apply not_elem_of_nil in Hin); (split; [|done]).
    3,6,8,9,10: apply C_other; unfold L, Mk, N, S_; by rewrite Hf.
    1,2: apply C_space; unfold L, Mk, N, S_; by rewrite Hf.
    - apply C_number; unfold L, Mk, N, S_; by rewrite Hf.
    - apply C_letter; unfold L, Mk, N, S_; by rewrite Hf.
    - apply C_mark; unfold L, Mk, N, S_; by rewrite Hf. }
  apply (H _ eq_refl). apply elem_of_app. apply flags_cases.
Qed.
Lemma rn_space c : rn c = true -> S_ c = true.
Proof.
  unfold rn. intros [->%Z.eqb_eq| ->%Z.eqb_eq]%orb_true_iff; by vm_compute.
Qed.
Lemma blank_space : S_ 32 = true.
Proof. by vm_compute. Qed.

(** *** Matching a run *)

Definition run_end (p : Z -> bool) (s : list Z) (pos : nat) : nat := pos + run_length p (drop pos s).
Lemma run_end_spec p s pos : is_run_end (holds p s) pos (run_end p s pos).
Proof.
  unfold run_end. remember (drop pos s) as t eqn:Ht. revert pos Ht. induction t as [|c t IH]; intros pos Ht; cbn [run_length].
  - split; [lia|]. split; [lia|]. unfold holds. rewrite lookup_ge_None_2; [done|].
    apply (f_equal length) in Ht. rewrite length_drop in Ht. simpl in Ht. lia.
  - assert (Hc : s !! pos = Some c).
    { rewrite <-(Nat.add_0_r pos), <-lookup_drop, <-Ht. done. }
    assert (Htl : t = drop (S pos) s).
    { replace (S pos) with (pos + 1) by lia. rewrite <-drop_drop, <-Ht. done. }
    destruct (p c) eqn:Hp.
    + destruct (IH (S pos) Htl) as (H1 & H2 & H3). split; [lia|]. split.
      * intros q Hq. destruct (decide (q = pos)) as [->|]; [unfold holds; by rewrite Hc|]. apply H2. lia.
      * by replace (pos + S (run_length p t)) with (S pos + run_length p t) by lia.
    + split; [lia|]. split; [lia|]. rewrite Nat.add_0_r. unfold holds. by rewrite Hc.
Qed.
Lemma run_end_eq p s pos e : is_run_end (holds p s) pos e -> run_end p s pos = e.
Proof. apply run_end_unique, run_end_spec. Qed.
Lemma run_end_S p s pos : holds p s pos = true -> run_end p s (S pos) = run_end p s pos.
Proof.
  intros H. symmetry. apply run_end_eq. destruct (run_end_spec p s (S pos)) as (H1 & H2 & H3).
  split; [lia|]. split; [|done]. intros q Hq. destruct (decide (q = pos)) as [->|]; [done|]. apply H2. lia.
Qed.
Lemma run_end_stop p s pos : holds p s pos = false -> run_end p s pos = pos.
Proof. intros H. apply run_end_eq. split; [lia|]. split; [lia|done]. Qed.
Lemma scan_while_holds p (q : nat -> bool) s pos :
  (forall i, q i = holds p s i) -> scan_while s q pos = run_end p s pos.
Proof.
  intros H. symmetry. apply run_end_eq. assert (Hend : forall i, length s <= i -> q i = false).
  { intros i Hi. rewrite H. unfold holds. by rewrite lookup_ge_None_2. }
  destruct (scan_while_run s q pos Hend) as (H1 & H2 & H3). split; [done|]. split.
  - intros i Hi. rewrite <-H. by apply H2.
  - by rewrite <-H.
Qed.

Lemma head_app {A} (l k : list A) : head (l ++ k) = match head l with Some x => Some x | None => head k end.
Proof. by destruct l. Qed.
Lemma star_cons p s pos : exists l, matches (Star p) s pos = run_end p s pos :: l.
Proof.
  cbn [matches]. rewrite seq_S, reverse_snoc. unfold run_end. by eexists.
Qed.
Lemma plus_matches p s pos :
  matches (Plus p) s pos = if holds p s pos then matches (Star p) s (S pos) else [].
Proof. cbn [Plus matches]. destruct (holds p s pos); [|done]. cbn [mbind list_bind]. by rewrite app_nil_r. Qed.
Lemma plus_head p s pos :
  head (matches (Plus p) s pos) = if holds p s pos then Some (run_end p s pos) else None.
Proof.
  rewrite plus_matches. destruct (holds p s pos) eqn:H; [|done].
  destruct (star_cons p s (S pos)) as [l ->]. by rewrite <-(run_end_S p s pos H).
Qed.
Lemma plus_none p s pos : holds p s pos = false -> matches (Plus p) s pos = [].
Proof. intros H. by rewrite plus_matches, H. Qed.
(** What a greedy run leaves to what follows it: the last end that works. *)
Lemma rev_seq_bind_none (f : nat -> list nat) pos k :
  (forall i, i <= k -> f (pos + i) = []) -> (reverse (seq pos (S k)) ≫= f) = [].
Proof.
  induction k as [|k IH]; intros H.
  - cbn. specialize (H 0 ltac:(lia)). rewrite Nat.add_0_r in H. by rewrite H.
  - rewrite seq_S, reverse_snoc. cbn [mbind list_bind]. rewrite (H (S k)) by lia. cbn [app].
    apply IH. intros; apply H; lia.
Qed.
Lemma rev_seq_bind_last (f : nat -> list nat) pos k j x :
  j <= k -> (forall i, j < i <= k -> f (pos + i) = []) -> head (f (pos + j)) = Some x ->
  head (reverse (seq pos (S k)) ≫= f) = Some x.
Proof.
  intros Hj. induction k as [|k IH]; intros H Hx.
  - replace j with 0 in Hx by lia. rewrite Nat.add_0_r in Hx. cbn. rewrite app_nil_r. exact Hx.
  - rewrite seq_S, reverse_snoc. cbn [mbind list_bind]. rewrite head_app. destruct (decide (j = S k)) as [->|].
    + by rewrite Hx.
    + rewrite (H (S k)) by lia. cbn [head]. apply IH; [lia|intros; apply H; lia|done].
Qed.

(** *** The splitter is the matcher *)

Lemma seq_cls p r s pos : matches (Seq (Cls p) r) s pos = if holds p s pos then matches r s (S pos) else [].
Proof. cbn [matches]. destruct (holds p s pos); [|done]. cbn [mbind list_bind]. by rewrite app_nil_r. Qed.

Lemma holds_some p s c pos : s !! pos = Some c -> holds p s pos = p c.
Proof. intros H. unfold holds. by rewrite H. Qed.
Lemma holds_none p s pos : s !! pos = None -> holds p s pos = false.
Proof. intros H. unfold holds. by rewrite H. Qed.
Ltac split_eqb :=
  repeat match goal with |- context [(?x =? ?k)%Z] => is_var x; destruct (Z.eqb_spec x k) as [->|] end.

Section Equivalence.
Context (cpts : list Z) (Hcpts : Forall (fun c => c < OOR)%Z cpts).
Abbreviation n := (length cpts).
Abbreviation hd r pos := (head (matches r cpts pos)).

Lemma contraction_matches pos :
  hd r_contraction pos = (fun k => pos + k) <$> contraction cpts pos.
Proof.
  unfold r_contraction, contraction. cbn zeta.
  repeat (change (matches (Alt ?r ?t) cpts pos) with (matches r cpts pos ++ matches t cpts pos)).
  rewrite !seq_cls. cbn [matches].
  destruct (cpts !! pos) as [c|] eqn:Hc; unfold get_cpt at 1; rewrite Hc; cbn [default from_option id];
    [rewrite !(fun p => holds_some p _ c pos Hc)|by rewrite !(fun p => holds_none p _ pos Hc)].
  unfold apostrophe. destruct (c =? 39)%Z; [|done]. cbn [andb].
  unfold get_cpt. replace (pos + 1) with (S pos) by lia. replace (pos + 2) with (S (S pos)) by lia.
  destruct (cpts !! S pos) as [c1|] eqn:Hc1.
  2:{ rewrite (proj2 (Nat.ltb_ge _ _)) by (apply lookup_ge_None in Hc1; lia). by rewrite !(fun p => holds_none p _ _ Hc1). }
  rewrite (proj2 (Nat.ltb_lt _ _)) by (apply lookup_lt_Some in Hc1; lia).
  rewrite !(fun p => holds_some p _ c1 _ Hc1). cbn [default from_option id]. unfold char_ci at 1 2 3 5 7 8 10.
  generalize (tolower c1). intros t1.
  destruct (cpts !! S (S pos)) as [c2|] eqn:Hc2.
  - rewrite (proj2 (Nat.ltb_lt _ _)) by (apply lookup_lt_Some in Hc2; lia).
    rewrite !(fun p => holds_some p _ c2 _ Hc2). cbn [default from_option id]. unfold char_ci.
    generalize (tolower c2). intros t2. split_eqb; cbn; f_equal; lia.
  - rewrite (proj2 (Nat.ltb_ge _ _)) by (apply lookup_ge_None in Hc2; lia).
    rewrite !(fun p => holds_none p _ _ Hc2). split_eqb; cbn; f_equal; lia.
Qed.

Lemma seq_opt_head p r pos :
  hd (Seq (Opt p) r) pos =
  match (if holds p cpts pos then hd r (S pos) else None) with Some e => Some e | None => hd r pos end.
Proof.
  cbn [matches]. destruct (holds p cpts pos); cbn [mbind list_bind]; rewrite app_nil_r; [|done]. apply head_app.
Qed.
Lemma seq_plus_star_head p q pos :
  hd (Seq (Plus p) (Star q)) pos = if holds p cpts pos then Some (run_end q cpts (run_end p cpts pos)) else None.
Proof.
  change (matches (Seq (Plus p) (Star q)) cpts pos) with (matches (Plus p) cpts pos ≫= matches (Star q) cpts).
  rewrite plus_matches. destruct (holds p cpts pos) eqn:Hp; [|done].
  destruct (star_cons p cpts (S pos)) as [l ->]. rewrite run_end_S by done.
  destruct (star_cons q cpts (run_end p cpts pos)) as [l' Hl]. cbn [mbind list_bind]. by rewrite Hl.
Qed.
Abbreviation LM := (fun c => L c || Mk c).
Abbreviation Other := (fun c => negb (S_ c || L c || Mk c || N c)).
Lemma letters_head pos c : cpts !! pos = Some c ->
  hd r_letters pos =
  if negb (rn c || N c) && (L c || Mk c || holds LM cpts (S pos)) then Some (run_end LM cpts (S pos)) else None.
Proof.
  intros Hc. unfold r_letters. rewrite seq_opt_head, !plus_head, !(fun p => holds_some p _ _ _ Hc).
  pose proof (rn_space c) as Hrn.
  assert (HLM : L c || Mk c = true -> run_end LM cpts (S pos) = run_end LM cpts pos).
  { intros H. apply run_end_S. by rewrite (holds_some _ _ _ _ Hc). }
  destruct (proj1 (classify c)) as [HL HM HN HS|HL HM HN HS|HL HM HN HS|HL HM HN HS|HL HM HN HS];
    rewrite HL, HM, HN in *; rewrite HS in *; destruct (rn c); try (by specialize (Hrn eq_refl)); cbn [negb orb andb];
    try destruct (holds LM cpts (S pos)); rewrite ?HLM by done; done.
Qed.
Lemma other_head pos c : cpts !! pos = Some c -> 
  let q := if (c =? 32)%Z then S pos else pos in
  hd r_other pos = if holds Other cpts q then Some (run_end rn cpts (run_end Other cpts q)) else None.
Proof.
  intros Hc q. subst q. unfold r_other. rewrite seq_opt_head, !seq_plus_star_head, !(fun p => holds_some p _ _ _ Hc).
  destruct (Z.eqb_spec c 32) as [->|].
  - rewrite blank_space. cbn [orb negb]. by destruct (holds _ _ _).
  - by rewrite (holds_some _ _ _ _ Hc).
Qed.
Abbreviation ws_end pos := (run_end S_ cpts pos).
Lemma ws_scan pos : scan_while cpts (fun q => is_ws (get_flags cpts q)) pos = ws_end pos.
Proof. apply scan_while_holds. intros i. unfold holds, get_flags. by destruct (cpts !! i). Qed.
Lemma ws_end_le pos : pos <= n -> pos <= ws_end pos <= n.
Proof.
  intros H. rewrite <-ws_scan. pose proof (scan_while_bound cpts (fun q => is_ws (get_flags cpts q)) pos (is_ws_end cpts)). lia.
Qed.
Lemma is_rn_holds q : is_rn cpts q = holds rn cpts q.
Proof. unfold is_rn, get_cpt, holds. by destruct (cpts !! q). Qed.
Lemma holds_rn_space q : holds S_ cpts q = false -> holds rn cpts q = false.
Proof.
  unfold holds. destruct (cpts !! q) as [c|]; [|done]. pose proof (rn_space c). destruct (rn c); [|done].
  intros HS. rewrite H in HS; done.
Qed.
Lemma seq_run p s pos : reverse (seq pos (S (run_length p (drop pos s)))) = matches (Star p) s pos.
Proof. done. Qed.
Lemma lines_head pos : pos < n ->
  let e := last_rn cpts (S n) pos 0 in hd r_lines pos = if (0 <? e)%nat then Some e else None.
Proof.
  intros Hpos e. subst e. unfold r_lines.
  change (matches (Seq (Star S_) (Plus rn)) cpts pos)
    with (reverse (seq pos (S (run_length S_ (drop pos cpts)))) ≫= matches (Plus rn) cpts).
  assert (Hend : pos + run_length S_ (drop pos cpts) = ws_end pos) by done.
  pose proof (run_end_spec S_ cpts pos) as (H1 & H2 & H3).
  destruct (last_rn_run cpts pos Hpos) as [[Hno ->]|(q & Hq & Hrn & Hafter & ->)]; rewrite ws_scan in *.
  - rewrite rev_seq_bind_none; [done|]. intros i Hi. apply plus_none. rewrite <-is_rn_holds.
    destruct (decide (pos + i = ws_end pos)) as [Heq|]; [|apply Hno; lia].
    rewrite Heq, is_rn_holds. by apply holds_rn_space.
  - apply (rev_seq_bind_last _ _ _ (q - pos)); [lia|..].
    + intros i Hi. apply plus_none. rewrite <-is_rn_holds.
      destruct (decide (pos + i = ws_end pos)) as [Heq|]; [|apply Hafter; lia].
      rewrite Heq, is_rn_holds. by apply holds_rn_space.
    + replace (pos + (q - pos)) with q by lia. rewrite plus_head, <-is_rn_holds, Hrn. f_equal.
      rewrite <-run_end_S by (by rewrite <-is_rn_holds). apply run_end_stop. rewrite <-is_rn_holds.
      destruct (decide (S q = ws_end pos)) as [Heq|]; [|apply Hafter; lia].
      rewrite Heq, is_rn_holds. by apply holds_rn_space.
Qed.
Lemma trailing_head pos : pos < n -> holds S_ cpts pos = true ->
  hd r_trailing pos =
  if (ws_end pos =? n)%nat then Some n else if (1 <? ws_end pos - pos)%nat then Some (ws_end pos - 1) else None.
Proof.
  intros Hpos HS. unfold r_trailing.
  change (matches (Seq (Plus S_) (NotAhead (fun c => negb (S_ c)))) cpts pos)
    with (matches (Plus S_) cpts pos ≫= matches (NotAhead (fun c => negb (S_ c))) cpts).
  rewrite plus_matches, HS. rewrite <-seq_run.
  pose proof (run_end_S S_ cpts pos HS) as Hr. unfold run_end in Hr at 1.
  pose proof (run_end_spec S_ cpts pos) as (H1 & H2 & H3).
  pose proof (ws_end_le pos ltac:(lia)) as Hle. 
  set (k := run_length S_ (drop (S pos) cpts)) in *.
  assert (Hin : forall q, pos <= q < ws_end pos -> holds (fun c => negb (S_ c)) cpts q = false).
  { intros q Hq. specialize (H2 q Hq). unfold holds in *. destruct (cpts !! q); [by rewrite H2|done]. }
  assert (Hat : ws_end pos < n -> holds (fun c => negb (S_ c)) cpts (ws_end pos) = true).
  { intros Hlt. unfold holds in *. destruct (lookup_lt_is_Some_2 _ _ Hlt) as [x Hx]. rewrite Hx in *. by rewrite H3. }
  destruct (Nat.eqb_spec (ws_end pos) n) as [Heq|Hne].
  { apply (rev_seq_bind_last _ _ _ k); [lia|lia|]. rewrite Hr, Heq. cbn [matches].
    unfold holds. by rewrite lookup_ge_None_2. }
  destruct (Nat.ltb_spec 1 (ws_end pos - pos)).
  - apply (rev_seq_bind_last _ _ _ (k - 1)); [lia|..].
    + intros i Hi. replace (S pos + i) with (ws_end pos) by lia. cbn [matches]. by rewrite Hat by lia.
    + replace (S pos + (k - 1)) with (ws_end pos - 1) by lia. cbn [matches]. by rewrite Hin by lia.
  - rewrite rev_seq_bind_none; [done|]. intros i Hi. replace (S pos + i) with (ws_end pos) by lia.
    cbn [matches]. by rewrite Hat by lia.
Qed.

Lemma get_flags_some q c : cpts !! q = Some c -> get_flags cpts q = cpt_flags_from_cpt c.
Proof. intros H. unfold get_flags. by rewrite H. Qed.
Lemma get_cpt_some q c : cpts !! q = Some c -> get_cpt cpts q = c.
Proof. intros H. unfold get_cpt. by rewrite H. Qed.
Lemma in_word_holds q : in_word cpts q = holds LM cpts q.
Proof. unfold in_word, get_flags, holds. by destruct (cpts !! q). Qed.
Lemma is_other_holds q : is_other (get_flags cpts q) = holds Other cpts q.
Proof.
  unfold holds. destruct (cpts !! q) as [c|] eqn:Hc; [|unfold get_flags; by rewrite Hc].
  rewrite (get_flags_some _ _ Hc). unfold is_other. rewrite (proj2 (Z.eqb_neq _ _) (proj2 (classify c))).
  apply andb_true_r.
Qed.
Lemma ws_end_inside pos : ws_end pos < n -> get_cpt cpts (ws_end pos) <> OOR.
Proof.
  intros Hlt. destruct (lookup_lt_is_Some_2 _ _ Hlt) as [x Hx]. rewrite (get_cpt_some _ _ Hx).
  pose proof (Forall_lookup_1 _ _ _ _ Hcpts Hx) as H. cbv beta in H. lia.
Qed.

(** The white space alternatives are the last branch. *)
Lemma spaces_tail pos : pos < n -> holds S_ cpts pos = true ->
  match (if (0 <? last_rn cpts (S n) pos 0)%nat then Some (last_rn cpts (S n) pos 0) else None) with
  | Some e => Some e
  | None => match hd r_trailing pos with Some e => Some e | None => hd r_spaces pos end
  end =
  Some (if (0 <? last_rn cpts (S n) pos 0)%nat then last_rn cpts (S n) pos 0
        else if (1 <? ws_end pos - pos)%nat && negb (get_cpt cpts (ws_end pos) =? OOR)%Z then ws_end pos - 1
        else if (0 <? ws_end pos - pos)%nat then ws_end pos else pos + 1).
Proof.
  intros Hpos HS. destruct (Nat.ltb_spec 0 (last_rn cpts (S n) pos 0)); [done|].
  rewrite trailing_head by done. unfold r_spaces. rewrite plus_head, HS.
  pose proof (ws_end_le pos ltac:(lia)) as Hle.
  assert (Hlt : pos < ws_end pos).
  { pose proof (run_end_S _ _ _ HS) as Hr. pose proof (run_end_spec S_ cpts (S pos)) as (H1 & _). lia. }
  rewrite (proj2 (Nat.ltb_lt 0 _)) by lia. destruct (Nat.eqb_spec (ws_end pos) n) as [->|Hne].
  - rewrite get_cpt_end by lia. rewrite Z.eqb_refl. by rewrite andb_false_r.
  - rewrite (proj2 (Z.eqb_neq _ _)) by (apply ws_end_inside; lia). rewrite andb_true_r.
    by destruct (1 <? ws_end pos - pos)%nat.
Qed.

(** One word of the loop is one match. *)
Lemma regex_word pos : pos < n -> contraction cpts pos = None ->
  regex_match qwen_regex cpts pos = Some (word_end cpts pos).
Proof.
  intros Hpos Hcon. destruct (lookup_lt_is_Some_2 _ _ Hpos) as [c Hc].
  unfold regex_match, qwen_regex.
  repeat (change (matches (Alt ?r ?t) cpts pos) with (matches r cpts pos ++ matches t cpts pos); rewrite head_app).
  rewrite contraction_matches, Hcon. cbn [fmap option_fmap option_map].
  rewrite (letters_head _ _ Hc), lines_head, (other_head _ _ Hc) by done. cbv zeta.
  unfold word_end. rewrite (get_cpt_some _ _ Hc), (get_flags_some _ _ Hc). cbv zeta.
  rewrite (scan_while_holds rn (is_rn cpts) cpts _ is_rn_holds), (scan_while_holds LM (in_word cpts) cpts _ in_word_holds),
    (scan_while_holds Other _ cpts _ is_other_holds), ws_scan.
  change (is_letter (cpt_flags_from_cpt c)) with (L c). change (is_accent_mark (cpt_flags_from_cpt c)) with (Mk c).
  change (is_number (cpt_flags_from_cpt c)) with (N c). change ((c =? 13)%Z || (c =? 10)%Z) with (rn c).
  rewrite (proj2 (Z.eqb_neq _ _) (proj2 (classify c))). cbn [negb]. rewrite andb_true_r.
  replace (pos + 1) with (S pos) by lia.
  rewrite <-(in_word_holds (S pos)). unfold in_word at 1.
  rewrite <-!orb_assoc. rewrite (orb_comm (is_accent_mark (get_flags cpts (S pos)))).
  change (is_letter (get_flags cpts (S pos)) || is_accent_mark (get_flags cpts (S pos))) with (in_word cpts (S pos)).
  destruct (negb (rn c || N c) && (L c || (Mk c || in_word cpts (S pos)))) eqn:Hletters; [done|].
  assert (HnLM : L c = false /\ Mk c = false \/ N c = true).
  { pose proof (rn_space c). destruct (proj1 (classify c)) as [HL HM HN HS|HL HM HN HS|HL HM HN HS|HL HM HN HS|HL HM HN HS];
      auto; rewrite ?HL, ?HM, HN in Hletters; destruct (rn c); (try by rewrite HS in *; intuition); done. }
  assert (Hnum : hd r_number pos = if N c then Some (S pos) else None).
  { unfold r_number. cbn [matches]. rewrite (holds_some _ _ _ _ Hc). by destruct (N c). }
  rewrite Hnum. destruct (N c) eqn:HN; [done|]. destruct HnLM as [[HL HM]|]; [|done].
  rewrite <-(get_flags_some _ _ Hc). set (q := if (c =? 32)%Z then S pos else pos).
  replace (if (c =? 32)%Z then get_flags cpts (S pos) else get_flags cpts pos) with (get_flags cpts q)
    by (subst q; by destruct (c =? 32)%Z).
  assert (HS : holds Other cpts q = false -> holds S_ cpts pos = true).
  { rewrite (holds_some _ _ _ _ Hc). subst q. destruct (Z.eqb_spec c 32) as [->|]; [by rewrite blank_space|].
    rewrite (holds_some _ _ _ _ Hc), HL, HM, HN, !orb_false_r. by destruct (S_ c). }
  pose proof (is_other_holds q) as Ho. unfold is_other in Ho. rewrite <-!orb_assoc in Ho.
  destruct (decide (q < n)) as [Hq|Hq].
  - destruct (lookup_lt_is_Some_2 _ _ Hq) as [x Hx]. rewrite (get_flags_some _ _ Hx) in Ho |- *.
    rewrite (proj2 (Z.eqb_neq _ _) (proj2 (classify x))), andb_true_r in Ho. rewrite Ho.
    destruct (holds Other cpts q); [done|]. replace (S pos) with (pos + 1) by lia. apply spaces_tail; auto.
  - clear Ho. assert (Hf : holds Other cpts q = false) by (unfold holds; by rewrite lookup_ge_None_2 by lia).
    rewrite Hf, get_flags_end by lia. cbn [is_ws is_letter is_accent_mark is_number negb orb].
    rewrite spaces_tail by auto. rewrite (run_end_stop Other cpts q Hf), (run_end_stop rn cpts q)
      by (unfold holds; by rewrite lookup_ge_None_2 by lia).
    change (negb (is_ws 0 || (is_letter 0 || (is_accent_mark 0 || is_number 0)))) with true. cbv iota. f_equal.
    subst q. destruct (Z.eqb_spec c 32) as [->|]; [|lia].
    assert (Hw : ws_end pos = S pos).
    { rewrite <-run_end_S by auto. apply run_end_stop. unfold holds. by rewrite lookup_ge_None_2 by lia. }
    destruct (last_rn_run cpts pos Hpos) as [[_ ->]|(q & Hq' & Hrn & _ & _)]; rewrite ?ws_scan, ?Hw in *.
    + rewrite Nat.sub_succ_l, Nat.sub_diag by lia. cbn. lia.
    + replace q with pos in Hrn by lia. rewrite is_rn_holds, (holds_some _ _ _ _ Hc) in Hrn. done.
Qed.
Lemma regex_step pos : pos < n ->
  regex_match qwen_regex cpts pos =
  Some (match contraction cpts pos with Some k => pos + k | None => word_end cpts pos end).
Proof.
  intros Hpos. destruct (contraction cpts pos) as [k|] eqn:Hk; [|by apply regex_word].
  unfold regex_match, qwen_regex. change (matches (Alt ?r ?t) cpts pos) with (matches r cpts pos ++ matches t cpts pos).
  by rewrite head_app, contraction_matches, Hk.
Qed.
Lemma qwen_loop_find_all fuel pos lens : pos <= n ->
  qwen_loop cpts fuel pos pos lens = lens ++ find_all qwen_regex cpts fuel pos.
Proof.
  revert pos lens. induction fuel as [|fuel IH]; intros pos lens Hpos; cbn [qwen_loop find_all]; [by rewrite app_nil_r|].
  destruct (Nat.ltb_spec pos n) as [Hlt|]; [|by rewrite app_nil_r]. rewrite regex_step by done. cbn [default from_option id].
  assert (Hstep : forall e, pos < e <= n ->
    add_token e pos lens = (e - pos, e, lens ++ [e - pos]) /\
    qwen_loop cpts fuel e e (lens ++ [e - pos]) = lens ++ (e - pos) :: find_all qwen_regex cpts fuel e).
  { intros e He. split; [unfold add_token; by rewrite (proj2 (Nat.ltb_lt _ _)) by lia|].
    rewrite IH by lia. by rewrite <-app_assoc. }
  destruct (contraction cpts pos) as [k|] eqn:Hk.
  - destruct (contraction_bound _ _ _ Hk). destruct (Hstep (pos + k)) as [-> Hl]; [lia|].
    by replace (pos + (pos + k - pos)) with (pos + k) by lia.
  - pose proof (word_end_bound cpts pos Hlt). by destruct (Hstep (word_end cpts pos)) as [-> Hl].
Qed.
End Equivalence.

(** C18. On every text the qwen35 splitter is the leftmost-first matcher of the
    expression it documents: the contractions, a run of letters and marks with
    at most one other character before it, one number, a run of other
    characters with the line ends after it, white space up to its last line
    end, white space before the last blank, white space. *)
Theorem split_qwen35_regex (text : str) : Forall is_char text ->
  split_qwen35 text = cut (find_all qwen_regex text (length text) 0) text.
Proof.
  intros H. unfold split_qwen35. rewrite qwen_loop_find_all; [done| |lia].
  eapply Forall_impl; [exact H|]. intros c Hc. unfold is_char in Hc. unfold OOR. lia.
Qed.

Example qwen_sample_ok : Forall is_char (lit "I'll  pay 42!").
Proof. apply Forall_forall. intros c Hc. left. vm_compute in Hc. repeat (apply elem_of_cons in Hc as [->|Hc]; [lia|]). by apply not_elem_of_nil in Hc. Qed.
(** The witness of [split_qwen35_regex]: a contraction, a double blank, digits. *)
Lemma split_qwen35_regex_witness :
  split_qwen35 (lit "I'll  pay 42!") = lit <$> ["I"; "'ll"; " "; " pay"; " "; "4"; "2"; "!"]%string /\
  split_qwen35 (lit "I'll  pay 42!") =
    cut (find_all qwen_regex (lit "I'll  pay 42!") (length (lit "I'll  pay 42!")) 0) (lit "I'll  pay 42!").
Proof. split; [by vm_compute|]. apply split_qwen35_regex. exact qwen_sample_ok. Defined.

(** ** The deepseek-v3 splitter *)

Lemma run_to_bound p l fuel e last : e <= run_to p l fuel e last <= Nat.max e last.
Proof.
  revert e. induction fuel as [|fuel IH]; intros e; cbn [run_to]; [lia|].
  destruct (_ && _) eqn:E; [|lia]. apply andb_true_iff in E as [E%Nat.ltb_lt _]. specialize (IH (S e)). lia.
Qed.
Lemma run_bound p l e last : e <= run p l e last <= Nat.max e last.
Proof. apply run_to_bound. Qed.

(** A matcher of a pass: a match stays in the window. *)
Definition bounded (m : nat -> nat -> nat -> option nat) : Prop :=
  forall start e pos m_end, pos < e -> m start e pos = Some m_end -> m_end <= e.
Lemma pass1_bounded coll : bounded (pass1 coll).
Proof.
  intros start e pos m_end Hpos. unfold pass1. destruct (negb _); [done|]. intros [= <-].
  pose proof (run_bound c_is_number coll (pos + 1) (Nat.min e (pos + 3))). lia.
Qed.
Lemma pass2_bounded cpts : bounded (pass2 cpts).
Proof.
  intros start e pos m_end Hpos. unfold pass2. destruct (negb _); [done|]. intros [= <-].
  pose proof (run_bound is_cjk_kana cpts (pos + 1) e). lia.
Qed.
Lemma space_run_bound coll fuel e last acc : e <= last -> (forall r, acc = Some r -> r <= e) ->
  e <= (space_run coll fuel e last acc).1 <= last /\
  (forall r, (space_run coll fuel e last acc).2 = Some r -> r <= (space_run coll fuel e last acc).1).
Proof.
  revert e acc. induction fuel as [|fuel IH]; intros e acc He Hacc; cbn [space_run]; [split; [simpl; lia|done]|].
  destruct (_ && _) eqn:E; [|split; [simpl; lia|done]]. apply andb_true_iff in E as [E%Nat.ltb_lt _].
  edestruct (IH (S e) (if (at_ coll e =? 13)%Z || (at_ coll e =? 10)%Z then Some (S e) else acc)) as [H1 H2]; [lia|..].
  { intros r. destruct (_ || _); [intros [= <-]; lia|]. intros H. specialize (Hacc r H). lia. }
  split; [lia|done].
Qed.
Lemma pass3_bounded coll : bounded (pass3 coll).
Proof.
  intros start e pos m_end Hpos. unfold pass3, or_else.
  destruct (alt1 coll e pos) as [e1|] eqn:H1.
  { intros [= <-]. unfold alt1 in H1. destruct (_ && _ && _) eqn:E; [|done]. simplify_eq.
    rewrite !andb_true_iff, Nat.ltb_lt in E. pose proof (run_bound is_ascii_alphabetic coll (pos + 2) e). lia. }
  destruct (alt2 coll e pos) as [e2|] eqn:H2.
  { intros [= <-]. unfold alt2 in H2. destruct (_ && (pos + 1 <? e) && _) eqn:E.
    - rewrite !andb_true_iff, Nat.ltb_lt in E. pose proof (run_bound letter_or_mark coll (pos + 1) e).
      destruct (_ <? run _ _ _ _); [|done]. injection H2 as <-. lia.
    - destruct (negb (letter_or_mark _)); [done|]. pose proof (run_bound letter_or_mark coll pos e).
      destruct (_ <? run _ _ _ _); [|done]. injection H2 as <-. lia. }
  destruct (alt3 coll e pos) as [e3|] eqn:H3.
  { intros [= <-]. unfold alt3 in H3. destruct (_ <? _) eqn:E; simplify_eq. apply Nat.ltb_lt in E.
    pose proof (run_bound (fun b => c_is_punct b || c_is_symbol b) coll (if (at_ coll pos =? 32)%Z then pos + 1 else pos) e).
    match goal with |- run ?p ?l ?a ?b <= _ => pose proof (run_bound p l a b) end.
    destruct (at_ coll pos =? 32)%Z; lia. }
  unfold alt456. destruct (c_is_space _); [|done].
  destruct (space_run_bound coll (e - pos) pos e None) as [Hb Hr]; [lia|done|].
  destruct (space_run coll (e - pos) pos e None) as [run_end [r|]]; simpl in *.
  - intros [= <-]. specialize (Hr r eq_refl). lia.
  - destruct (run_end <? e); [|intros [= <-]; lia]. destruct (1 <? _); intros [= <-]; lia.
Qed.

(** The words of a list of lengths tile [0 .. n]. *)
Definition tiles (n : nat) (lens : list nat) : Prop := sum_list lens = n /\ Forall (fun k => 0 < k) lens.
Lemma push_len_tiles n lens k : tiles n lens -> tiles (n + k) (push_len lens k).
Proof.
  intros [Hs Hp]. unfold push_len. destruct (Nat.ltb_spec 0 k); [|split; [lia|done]].
  split; [rewrite sum_list_with_app; simpl; lia|]. apply Forall_app. split; [done|]. by constructor.
Qed.
Lemma pass_window_tiles m fuel start e gap pos out :
  bounded m -> gap <= pos <= e -> tiles gap out ->
  let r := pass_window m fuel start e gap pos out in tiles r.2 r.1 /\ r.2 <= e.
Proof.
  intros Hm. revert gap pos out. induction fuel as [|fuel IH]; intros gap pos out Hpos Hout; cbn [pass_window]; [split; [done|simpl; lia]|].
  destruct (Nat.ltb_spec pos e) as [Hlt|]; [|split; [done|simpl; lia]].
  destruct (m start e pos) as [m_end|] eqn:E; [|apply IH; [lia|done]].
  destruct (Nat.ltb_spec pos m_end); [|apply IH; [lia|done]].
  apply IH; [pose proof (Hm _ _ _ _ Hlt E); lia|].
  replace m_end with (gap + (pos - gap) + (m_end - pos)) at 1 by lia. by do 2 apply push_len_tiles.
Qed.
(** The scan of a window reaches its end: more fuel changes nothing. *)
Lemma pass_window_fuel m fuel k start e gap pos out :
  e - pos <= fuel -> pass_window m (fuel + k) start e gap pos out = pass_window m fuel start e gap pos out.
Proof.
  revert gap pos out. induction fuel as [|fuel IH]; intros gap pos out Hf.
  - destruct k; [done|]. cbn [Nat.add pass_window]. by rewrite (proj2 (Nat.ltb_ge _ _)) by lia.
  - cbn [Nat.add pass_window]. destruct (Nat.ltb_spec pos e); [|done].
    destruct (m start e pos) as [m_end|]; [|apply IH; lia]. destruct (Nat.ltb_spec pos m_end); apply IH; lia.
Qed.
Lemma split_pass_from_tiles m start offsets out :
  bounded m -> tiles start out -> tiles (start + sum_list offsets) (split_pass_from m start offsets out).
Proof.
  intros Hm. revert start out. induction offsets as [|off offsets IH]; intros start out Hout; cbn [split_pass_from].
  { simpl. by rewrite Nat.add_0_r. }
  destruct (pass_window_tiles m off start (start + off) start start out Hm) as [H1 H2]; [lia|done|].
  destruct (pass_window m off start (start + off) start start out) as [out' gap']. simpl in H1, H2.
  change (sum_list (off :: offsets)) with (off + sum_list offsets). rewrite Nat.add_assoc. apply IH.
  replace (start + off) with (gap' + (start + off - gap')) at 1 by lia. by apply push_len_tiles.
Qed.
Lemma split_pass_tiles m offsets n : bounded m -> tiles n offsets -> tiles n (split_pass offsets m).
Proof.
  intros Hm [<- _]. apply (split_pass_from_tiles m 0 offsets []); [done|]. by split.
Qed.
(** So does the deepseek-v3 splitter, whatever its three passes match. *)
Lemma split_deepseek_v3_concat (text : str) :
  concat (split_deepseek_v3 text) = text /\ Forall (fun w => w <> []) (split_deepseek_v3 text).
Proof.
  unfold split_deepseek_v3. cbv zeta.
  set (lens := split_pass _ (pass3 _)). assert (Ht : tiles (length text) lens).
  { subst lens. apply split_pass_tiles; [apply pass3_bounded|]. apply split_pass_tiles; [apply pass2_bounded|].
    unfold split_pass. rewrite <-(Nat.add_0_r (length text)) at 1. 
    apply (split_pass_from_tiles _ 0 [length text] []); [apply pass1_bounded|by split]. }
  destruct Ht as [Hs Hp]. split; [by apply cut_concat|]. apply cut_nonempty; [by rewrite Hs|done].
Qed.
(** The cases of the tests. *)
Example split_deepseek_v3_cases : Forall (fun ws => split_deepseek_v3 (concat ws) = ws) DS3_CASES.
Proof. apply (bool_decide_unpack _). vm_compute. exact I. Qed.
