(* ===== verification/Tokenizer.v ===== *)
(** The tokenizer: [memra-tokenizer/src/lib.rs].

    [from_gguf] builds the [Tokenizer] record; [encode_special] splits the text
    at the special tokens, pre-tokenizes each remaining span and merges every
    word by rank; [decode_bytes_special] renders ids.  An index or slice out of
    range is a panic ([None]).  Ids and ranks are the source's [u32] and [i32].
    The work queue is [std]'s [BinaryHeap]: [pop] returns a greatest element,
    which of several equal ones is left open ([HeapPop]). *)
From S2P Require Import Prelude RustStr Utf8 Unicode Gguf.
Local Open Scope Z_scope.

(** ** State *)

Inductive TokAttr := Normal | Unknown | Control | UserDefined | Byte | Other.
#[export] Instance TokAttr_eq_dec : EqDecision TokAttr.
Proof. solve_decision. Defined.
Definition from_toktype (t : Z) : TokAttr :=
  match t with 2 => Unknown | 3 => Control | 4 => UserDefined | 6 => Byte | 1 => Normal | _ => Other end.
Definition is_special (a : TokAttr) : bool :=
  match a with Control | UserDefined | Unknown => true | _ => false end.

Record Tokenizer := mkTokenizer {
  id_to_token : list str;
  token_to_id : gmap str Z;
  attrs : list TokAttr;
  bpe_ranks : gmap (str * str) Z;
  special_tokens : list Z;
  eos_id : Z;
  bos_id : option Z;
  add_bos : bool;
  pre : str;
  chat_template : option str;
  spm_style : bool;
}.

(** [x as i32] of an unsigned index. *)
Definition as_i32 (x : nat) : Z := to_signed 32 (wrap 32 (Z.of_nat x)).
Definition as_u32 (x : nat) : Z := wrap 32 (Z.of_nat x).
(** [v[i]] with [i] a [u32] or [i32 as usize]: [None] out of range. *)
Definition index {A : Type} (l : list A) (i : Z) : option A := if i <? 0 then None else l !! Z.to_nat i.

(** ** Construction from the GGUF metadata *)

(** The map keeps the first id of a repeated piece. *)
Fixpoint add_tokens (i : nat) (tokens : list str) (m : gmap str Z) : gmap str Z :=
  match tokens with
  | [] => m
  | s :: tokens => add_tokens (S i) tokens (match m !! s with Some _ => m | None => <[s := as_u32 i]> m end)
  end.
Definition token_type (v : MetaValue) : option TokAttr :=
  match as_u64 v with
  | Some t => Some (from_toktype (to_signed 64 t))
  | None => match v with VI32 t => Some (from_toktype t) | _ => None end
  end.
Fixpoint set_attrs (a : list MetaValue) (l : list TokAttr) : list TokAttr :=
  match a, l with v :: a, x :: l => default x (token_type v) :: set_attrs a l | _, _ => l end.
(** The first space after the first character; the bytes of a character but an
    ASCII one are never a space. *)
Definition split_merge (word : str) : option (str * str) :=
  match word with [] => None | c :: word => x ← split_once [32] word; Some (c :: x.1, x.2) end.
Fixpoint add_merges (i : nat) (a : list MetaValue) (m : gmap (str * str) Z) : option (gmap (str * str) Z) :=
  match a with
  | [] => Some m
  | v :: a =>
      word ← as_str v;
      add_merges (S i) a (match split_merge word with Some p => <[p := as_i32 i]> m | None => m end)
  end.
(** [sort_by] with the longer piece first; it is stable. *)
Definition piece_len (tokens : list str) (id : Z) : nat := length (utf8 (default [] (index tokens id))).
Fixpoint insert_by_len (tokens : list str) (x : Z) (l : list Z) : list Z :=
  match l with
  | [] => [x]
  | y :: l' => if (piece_len tokens y <=? piece_len tokens x)%nat then x :: l else y :: insert_by_len tokens x l'
  end.
Definition sort_by_len (tokens : list str) (l : list Z) : list Z := foldr (insert_by_len tokens) [] l.
Definition special_ids (tokens : list str) (attrs : list TokAttr) : list Z :=
  sort_by_len tokens
    (filter (fun id => Is_true (match index attrs id with Some a => is_special a | None => false end))
       (Z.of_nat <$> seq 0 (Z.to_nat (as_u32 (length tokens))))).

Definition from_gguf (g : GgufFile) : outcome str Tokenizer :=
  let get k := metadata g !! lit k in
  model ← ok_or (v ← get "tokenizer.ggml.model"; as_str v) (lit "missing tokenizer.ggml.model");
  if negb (str_eqb model (lit "gpt2")) && negb (str_eqb model (lit "gemma4")) then
    Err (lit "unsupported tokenizer model '" ++ model ++ lit "' (only gpt2/gemma4)")
  else
    let spm_style := str_eqb model (lit "gemma4") in
    let pre := default (if spm_style then lit "gemma4" else lit "default") (v ← get "tokenizer.ggml.pre"; as_str v) in
    a ← ok_or (v ← get "tokenizer.ggml.tokens"; match v with VArray a => Some a | _ => None end)
          (lit "missing tokenizer.ggml.tokens array");
    tokens ← ok_or (all_str a) (lit "non-string in tokens[]");
    let n := length tokens in
    let attrs :=
      match get "tokenizer.ggml.token_type" with
      | Some (VArray a) => set_attrs a (replicate n Normal)
      | _ => replicate n Normal
      end in
    merges ← ok_or (v ← get "tokenizer.ggml.merges"; match v with VArray a => Some a | _ => None end)
               (lit "missing tokenizer.ggml.merges array");
    bpe_ranks ← ok_or (add_merges 0 merges ∅) (lit "non-string in merges[]");
    let special_tokens := special_ids tokens attrs in
    eos_id ← ok_or (v ← get "tokenizer.ggml.eos_token_id"; wrap 32 <$> as_u64 v)
               (lit "missing tokenizer.ggml.eos_token_id");
    let bos_id := v ← get "tokenizer.ggml.bos_token_id"; wrap 32 <$> as_u64 v in
    let add_bos :=
      default false (v ← get "tokenizer.ggml.add_bos_token";
        match v with VBool b => Some b | _ => (fun x => negb (x =? 0)) <$> as_u64 v end) || spm_style in
    let chat_template := v ← get "tokenizer.chat_template"; as_str v in
    Ok (mkTokenizer tokens (add_tokens 0 tokens ∅) attrs bpe_ranks special_tokens eos_id bos_id add_bos pre
          chat_template spm_style).

(** ** The merge queue *)

Record Bigram := mkBigram { left : Z; right : Z; rank : Z; b_text : str }.
#[export] Instance Bigram_eq_dec : EqDecision Bigram.
Proof. solve_decision. Defined.
(** [Ord for Bigram]: the lowest rank, then the lowest left index, is greatest. *)
Definition bigram_cmp (a b : Bigram) : comparison :=
  match rank b ?= rank a with Eq => left b ?= left a | o => o end.
(** [BinaryHeap]: [push] adds, [pop] takes out a greatest element. *)
Class HeapPop := {
  pop : list Bigram -> option (Bigram * list Bigram);
  pop_nil : pop [] = None;
  pop_max q : q <> [] ->
    exists b q', pop q = Some (b, q') /\ q ≡ₚ b :: q' /\ forall x, x ∈ q -> bigram_cmp x b <> Gt;
}.
Definition push (q : list Bigram) (b : Bigram) : list Bigram := b :: q.

Record Symbol := mkSymbol { s_text : str; s_prev : Z; s_next : Z; s_n : nat }.
Definition set_text (t : str) (s : Symbol) : Symbol := mkSymbol t (s_prev s) (s_next s) (s_n s).
Definition set_prev (p : Z) (s : Symbol) : Symbol := mkSymbol (s_text s) p (s_next s) (s_n s).
Definition set_next (x : Z) (s : Symbol) : Symbol := mkSymbol (s_text s) (s_prev s) x (s_n s).
Definition set_n (k : nat) (s : Symbol) : Symbol := mkSymbol (s_text s) (s_prev s) (s_next s) k.
(** [symbols[i].field = ..]: [None] out of range. *)
Definition update (f : Symbol -> Symbol) (i : Z) (l : list Symbol) : option (list Symbol) :=
  s ← index l i; Some (<[Z.to_nat i := f s]> l).

(** ** Merging and emission *)

Section Merge.
Context `{HeapPop} (tk : Tokenizer).
Definition text_to_token (s : str) : option Z := token_to_id tk !! s.
Definition find_bpe_rank (l r : str) : Z := default (-1) (bpe_ranks tk !! (l, r)).
Definition add_bigram (symbols : list Symbol) (l r : Z) (queue : list Bigram) : option (list Bigram) :=
  if (l =? -1) || (r =? -1) then Some queue
  else
    lt ← s_text <$> index symbols l;
    rt ← s_text <$> index symbols r;
    let rk := find_bpe_rank lt rt in
    Some (if rk <? 0 then queue else push queue (mkBigram l r rk (lt ++ rt))).
(** One bigram taken from the queue. *)
Definition merge_turn (b : Bigram) (symbols : list Symbol) (queue : list Bigram)
    : option (list Symbol * list Bigram) :=
  let li := left b in
  let ri := right b in
  ls ← index symbols li;
  rs ← index symbols ri;
  if (s_n ls =? 0)%nat || (s_n rs =? 0)%nat then Some (symbols, queue)
  else
    let combined := s_text ls ++ s_text rs in
    if negb (str_eqb combined (b_text b)) then Some (symbols, queue)
    else
      symbols ← update (set_text combined) li symbols;
      symbols ← update (set_n (s_n ls + s_n rs)) li symbols;
      symbols ← update (set_n 0) ri symbols;
      r_next ← s_next <$> index symbols ri;
      symbols ← update (set_next r_next) li symbols;
      symbols ← (if 0 <=? r_next then update (set_prev li) r_next symbols else Some symbols);
      l_prev ← s_prev <$> index symbols li;
      l_next ← s_next <$> index symbols li;
      queue ← add_bigram symbols l_prev li queue;
      queue ← add_bigram symbols li l_next queue;
      Some (symbols, queue).
Fixpoint merge_loop (fuel : nat) (symbols : list Symbol) (queue : list Bigram) : option (list Symbol) :=
  match pop queue with
  | None => Some symbols
  | Some (b, queue) =>
      match fuel with
      | O => None
      | S fuel => '(symbols, queue) ← merge_turn b symbols queue; merge_loop fuel symbols queue
      end
  end.
Fixpoint build_symbols (i n : nat) (chars : str) : list Symbol :=
  match chars with
  | [] => []
  | c :: chars =>
      mkSymbol [c] (as_i32 i - 1) (if (i + 1 =? n)%nat then -1 else as_i32 i + 1) 1 :: build_symbols (S i) n chars
  end.
Fixpoint seed_queue (symbols : list Symbol) (idx : list nat) (queue : list Bigram) : option (list Bigram) :=
  match idx with
  | [] => Some queue
  | i :: idx => queue ← add_bigram symbols (as_i32 i - 1) (as_i32 i) queue; seed_queue symbols idx queue
  end.
Definition hex_digit (d : Z) : Z := if d <? 10 then 48 + d else 55 + d.
Definition byte_piece (b : Z) : str :=
  if spm_style tk then lit "<0x" ++ [hex_digit (b / 16); hex_digit (b mod 16)] ++ lit ">" else [b].
Definition emit (text : str) : list Z :=
  match text_to_token text with
  | Some tok => [tok]
  | None => utf8 text ≫= fun b => match text_to_token (byte_piece b) with Some t => [t] | None => [] end
  end.
Definition emit_all (symbols : list Symbol) : list Z :=
  symbols ≫= fun s => if (s_n s =? 0)%nat then [] else emit (s_text s).
(** Every turn takes a bigram out; a merge adds at most two and uses up a symbol. *)
Definition bpe_merge_word (word : str) : option (list Z) :=
  let symbols := build_symbols 0 (length word) word in
  queue ← seed_queue symbols (seq 1 (length symbols - 1)) [];
  symbols ← merge_loop (3 * length word) symbols queue;
  Some (emit_all symbols).

(** ** Encoding *)

Definition escape (text : str) : str := (fun c => if c =? 32 then 9601 else c) <$> text.
(** Whole lines: the maximal runs of newlines and of other characters. *)
Fixpoint line_words (text : str) (words : list str) (cur : str) (cur_nl : option bool) : list str :=
  match text with
  | [] => if bool_decide (cur = []) then words else words ++ [cur]
  | c :: text =>
      let nl := c =? 10 in
      if negb (bool_decide (cur_nl = Some nl)) && negb (bool_decide (cur = []))
      then line_words text (words ++ [cur]) [c] (Some nl)
      else line_words text words (cur ++ [c]) (Some nl)
  end.
Fixpoint tokenize_words (f : str -> option (list Z)) (words : list str) : option (list Z) :=
  match words with [] => Some [] | w :: words => a ← f w; b ← tokenize_words f words; Some (a ++ b) end.
Definition spm_word (word : str) : option (list Z) :=
  if forallb (fun c => c =? 10) word then
    match text_to_token word with Some tok => Some [tok] | None => bpe_merge_word word end
  else bpe_merge_word word.
Definition split_words (text : str) : list str :=
  if str_eqb (pre tk) (lit "deepseek-v3") then split_deepseek_v3 text else split_qwen35 text.
Definition bpe_tokenize (text : str) : option (list Z) :=
  if spm_style tk then tokenize_words spm_word (line_words (escape text) [] [] None)
  else tokenize_words (fun w => bpe_merge_word (byte_encode w)) (split_words text).

Inductive Fragment := FText (s : str) | FToken (id : Z).
(** One text span cut at every occurrence of the needle, from left to right. *)
Fixpoint split_span (fuel : nat) (needle : str) (sid : Z) (rest : str) : list Fragment :=
  let text s := if bool_decide (s = []) then [] else [FText s] in
  match fuel with
  | O => text rest
  | S fuel =>
      match split_once needle rest with
      | Some (before, after) => text before ++ FToken sid :: split_span fuel needle sid after
      | None => text rest
      end
  end.
Definition split_frag (needle : str) (sid : Z) (f : Fragment) : list Fragment :=
  match f with FToken id => [FToken id] | FText s => split_span (length s) needle sid s end.
(** [sid] is split out: its class is asked for and its piece is not empty. *)
Definition enabled (parse_special : bool) (attr : TokAttr) (needle : str) : bool :=
  negb (negb parse_special && match attr with Control | Unknown => true | _ => false end) &&
  negb (bool_decide (needle = [])).
Fixpoint st_split (parse_special : bool) (sids : list Z) (frags : list Fragment) : option (list Fragment) :=
  match sids with
  | [] => Some frags
  | sid :: sids =>
      attr ← index (attrs tk) sid;
      needle ← index (id_to_token tk) sid;
      st_split parse_special sids
        (if enabled parse_special attr needle then frags ≫= split_frag needle sid else frags)
  end.
Definition st_partition (text : str) (parse_special : bool) : option (list Fragment) :=
  st_split parse_special (special_tokens tk) [FText text].
Fixpoint encode_frags (frags : list Fragment) : option (list Z) :=
  match frags with
  | [] => Some []
  | f :: frags =>
      a ← (match f with FToken id => Some [id] | FText s => bpe_tokenize s end);
      b ← encode_frags frags;
      Some (a ++ b)
  end.
Definition encode_special (text : str) (add_special parse_special : bool) : option (list Z) :=
  let out := if add_special && add_bos tk then match bos_id tk with Some b => [b] | None => [] end else [] in
  if bool_decide (text = []) then Some out
  else
    frags ← st_partition text parse_special;
    ids ← encode_frags frags;
    Some (out ++ ids).
Definition encode (text : str) (add_special : bool) : option (list Z) := encode_special text add_special true.
End Merge.

(** ** Decoding *)

Section Decode.
Context (tk : Tokenizer).
(** [unicode_to_byte], or the character's own bytes. *)
Definition char_bytes (c : Z) : list Z := match unicode_to_byte c with Some b => [b] | None => utf8_char c end.
Definition piece_to_bytes (piece : str) : list Z := piece ≫= char_bytes.
(** [u8::from_str_radix(_, 16)]: an optional plus, then hexadecimal digits. *)
Definition hex_value (c : Z) : option Z :=
  if is_ascii_digit c then Some (c - 48)
  else if in_range 65 70 c then Some (c - 55) else if in_range 97 102 c then Some (c - 87) else None.
Fixpoint parse_hex (acc : Z) (s : list Z) : option Z :=
  match s with
  | [] => Some acc
  | c :: s => d ← hex_value c; if 255 <? 16 * acc + d then None else parse_hex (16 * acc + d) s
  end.
Definition from_str_radix16 (s : list Z) : option Z :=
  match (match s with 43 :: s' => s' | _ => s end) with [] => None | s => parse_hex 0 s end.
(** [&piece[3..5]] of the bytes: a panic when it is not a slice of characters. *)
Definition is_boundary (bs : list Z) (i : nat) : bool :=
  match bs !! i with Some b => negb (cont b) | None => (i =? length bs)%nat end.
Definition slice35 (piece : str) : option (list Z) :=
  let bs := utf8 piece in
  if is_boundary bs 3 && is_boundary bs 5 then Some (take 2 (drop 3 bs)) else None.
Definition spm_char (c : Z) : list Z := if c =? 9601 then [32] else utf8_char c.
Definition spm_piece (attr : TokAttr) (piece : str) : option (list Z) :=
  if match attr with Byte => true | _ => false end ||
     ((length (utf8 piece) =? 6)%nat && starts_with (lit "<0x") piece && ends_with (lit ">") piece)
  then
    hex ← slice35 piece;
    match from_str_radix16 hex with Some b => Some [b] | None => Some (piece ≫= spm_char) end
  else Some (piece ≫= spm_char).
Definition decode_piece (special : bool) (attr : TokAttr) (piece : str) : option (list Z) :=
  match attr with
  | Normal | Byte => if spm_style tk then spm_piece attr piece else Some (piece_to_bytes piece)
  | UserDefined => Some (utf8 piece)
  | Control | Unknown => Some (if special then utf8 piece else [])
  | Other => Some []
  end.
Fixpoint decode_bytes_special (ids : list Z) (special : bool) : option (list Z) :=
  match ids with
  | [] => Some []
  | id :: ids =>
      a ← (match index (id_to_token tk) id with
           | None => Some []
           | Some piece => attr ← index (attrs tk) id; decode_piece special attr piece
           end);
      b ← decode_bytes_special ids special;
      Some (a ++ b)
  end.
Definition decode_special (ids : list Z) (special : bool) : option str :=
  from_utf8_lossy <$> decode_bytes_special ids special.
Definition decode (ids : list Z) : option str := decode_special ids true.
Definition token_is_control (id : Z) : bool :=
  match index (attrs tk) id with Some Control | Some Unknown => true | _ => false end.
Definition eog_ids : list Z :=
  foldl (fun ids t => match token_to_id tk !! lit t with
    | Some id => if bool_decide (id ∈ ids) then ids else ids ++ [id] | None => ids end)
    [eos_id tk] ["<|im_end|>"; "<turn|>"; "<end_of_turn>"]%string.
End Decode.

(** ** The queue as a list *)

(** A heap with the first greatest element on top. *)
Fixpoint best_first (b : Bigram) (q : list Bigram) : Bigram * list Bigram :=
  match q with
  | [] => (b, [])
  | x :: q =>
      let r := best_first x q in
      match bigram_cmp r.1 b with Gt => (r.1, b :: r.2) | _ => (b, x :: q) end
  end.
Lemma bigram_cmp_le x y z : bigram_cmp x y <> Gt -> bigram_cmp y z <> Gt -> bigram_cmp x z <> Gt.
Proof.
  unfold bigram_cmp. destruct (Z.compare_spec (rank y) (rank x)), (Z.compare_spec (rank z) (rank y)),
    (Z.compare_spec (rank z) (rank x)), (Z.compare_spec (left y) (left x)), (Z.compare_spec (left z) (left y)),
    (Z.compare_spec (left z) (left x)); intros; try done; lia.
Qed.
Lemma bigram_cmp_gt x y : bigram_cmp x y = Gt -> bigram_cmp y x <> Gt.
Proof.
  unfold bigram_cmp. destruct (Z.compare_spec (rank y) (rank x)), (Z.compare_spec (rank x) (rank y)),
    (Z.compare_spec (left y) (left x)), (Z.compare_spec (left x) (left y)); intros; try done; lia.
Qed.
Lemma bigram_cmp_refl x : bigram_cmp x x <> Gt.
Proof. unfold bigram_cmp. by rewrite !Z.compare_refl. Qed.
Lemma best_first_spec b q :
  (b :: q) ≡ₚ (best_first b q).1 :: (best_first b q).2 /\
  forall x, x ∈ b :: q -> bigram_cmp x (best_first b q).1 <> Gt.
Proof.
  revert b. induction q as [|y q IH]; intros b; cbn [best_first].
  { split; [done|]. intros x ->%list_elem_of_singleton. apply bigram_cmp_refl. }
  destruct (IH y) as [Hp Hm]. destruct (bigram_cmp (best_first y q).1 b) eqn:E; cbn [fst snd].
  1,2: split; [done|]; intros x [->|Hx]%elem_of_cons; [apply bigram_cmp_refl|];
    eapply bigram_cmp_le; [by apply Hm|]; by rewrite E.
  split; [rewrite Hp; apply Permutation_swap|]. intros x [->|Hx]%elem_of_cons; [by apply bigram_cmp_gt|by apply Hm].
Qed.
Definition list_pop (q : list Bigram) : option (Bigram * list Bigram) :=
  match q with [] => None | b :: q => Some (best_first b q) end.
#[export] Program Instance list_heap : HeapPop := {| pop := list_pop |}.
Next Obligation. done. Qed.
Next Obligation.
  intros [|b q] Hq; [done|]. destruct (best_first_spec b q) as [Hp Hm].
  exists (best_first b q).1, (best_first b q).2. split; [|done]. cbn [list_pop]. by rewrite <-surjective_pairing.
Qed.
