(* ===== verification/BpeMerge.v ===== *)
(** The merge queue computes byte pair encoding.

    [bpe_reference] is the textbook algorithm: while some adjacent pair of
    pieces has a rank, merge the leftmost pair of the lowest rank.  The source
    keeps a linked chain of symbols in a vector and a queue of candidate pairs,
    most of them out of date when they are taken; [chain] and [queue_ok] are
    the invariant that makes the two agree, whichever of several equal
    bigrams the heap returns. *)
From Stdlib Require Import Sorted.
From S2P Require Import Prelude RustStr Utf8 Unicode Gguf Tokenizer.
Local Open Scope Z_scope.

(** ** The reference *)

Section Reference.
Context (rank : str -> str -> Z).
(** The lowest rank of an adjacent pair, and the first place it is at. *)
Fixpoint best_pair (p : list str) : option (Z * nat) :=
  match p with
  | t :: ((u :: _) as p') =>
      let later := (fun x => (x.1, S x.2)) <$> best_pair p' in
      if rank t u <? 0 then later
      else match later with
           | Some (r, k) => if r <? rank t u then Some (r, k) else Some (rank t u, O)
           | None => Some (rank t u, O)
           end
  | _ => None
  end.
Fixpoint merge_at (k : nat) (p : list str) : list str :=
  match k, p with
  | O, t :: u :: p => (t ++ u) :: p
  | S k, t :: p => t :: merge_at k p
  | _, _ => p
  end.
(** Each merge shortens the list: [length p] turns are enough. *)
Fixpoint bpe_reference (fuel : nat) (p : list str) : list str :=
  match fuel with
  | O => p
  | S fuel => match best_pair p with Some (_, k) => bpe_reference fuel (merge_at k p) | None => p end
  end.

(** The pair after [a] is the leftmost of the lowest rank. *)
Definition is_best (p : list str) (r : Z) (k : nat) : Prop :=
  (exists a t u c, p = a ++ t :: u :: c /\ length a = k /\ rank t u = r /\ 0 <= r) /\
  forall a t u c, p = a ++ t :: u :: c -> 0 <= rank t u -> r < rank t u \/ (r = rank t u /\ (k <= length a)%nat).
Lemma best_pair_spec p :
  match best_pair p with
  | Some (r, k) => is_best p r k
  | None => forall a t u c, p = a ++ t :: u :: c -> rank t u < 0
  end.
Proof.
  induction p as [|t p IH]; [by intros [|? [|??]] ????|]. destruct p as [|u p]; [by intros [|? [|??]] ????|].
  change (best_pair (t :: u :: p)) with
    (let later := (fun x => (x.1, S x.2)) <$> best_pair (u :: p) in
     if rank t u <? 0 then later
     else match later with
          | Some (r, k) => if r <? rank t u then Some (r, k) else Some (rank t u, O)
          | None => Some (rank t u, O)
          end). cbv zeta.
  assert (Hhere : 0 <= rank t u ->
    (forall a t' u' c, u :: p = a ++ t' :: u' :: c -> 0 <= rank t' u' -> rank t u <= rank t' u') ->
    is_best (t :: u :: p) (rank t u) 0).
  { intros Hr Hle. split; [by exists [], t, u, p|]. intros [|x a] t' u' c Heq H; [simplify_list_eq; right; lia|].
    injection Heq as <- Heq. specialize (Hle a t' u' c ltac:(done) H). destruct (decide (rank t u = rank t' u')); [right; split; [done|lia]|left; lia]. }
  destruct (best_pair (u :: p)) as [[r k]|]; cbn [fmap option_fmap option_map fst snd].
  - destruct IH as [(a & t' & u' & c & Heq & Hk & Hrk & H0) Hmin].
    assert (Hlater : (rank t u < 0 \/ r < rank t u) -> is_best (t :: u :: p) r (S k)).
    { intros Hr. split.
      - exists (t :: a), t', u', c. split; [by rewrite Heq|]. simpl. auto.
      - intros [|x a'] t2 u2 c2 Heq2 H2; [simplify_list_eq; left; lia|].
        injection Heq2 as <- Heq2. destruct (Hmin a' t2 u2 c2 ltac:(done) H2) as [|[??]]; [by left|right; simpl; lia]. }
    destruct (Z.ltb_spec (rank t u) 0); [apply Hlater; by left|]. destruct (Z.ltb_spec r (rank t u)); [apply Hlater; by right|].
    apply Hhere; [done|]. intros a' t2 u2 c2 Heq2 H2. destruct (Hmin a' t2 u2 c2 Heq2 H2) as [|[??]]; lia.
  - destruct (Z.ltb_spec (rank t u) 0).
    + intros [|x a] t' u' c Heq; [by simplify_list_eq|]. injection Heq as <- Heq. by eapply (IH a).
    + apply Hhere; [done|]. intros a t' u' c Heq Hr. specialize (IH a t' u' c Heq). lia.
Qed.
Lemma merge_at_app a t u c : merge_at (length a) (a ++ t :: u :: c) = a ++ (t ++ u) :: c.
Proof. induction a as [|x a IH]; simpl; [done|by rewrite IH]. Qed.
(** A best pair is the one the reference merges. *)
Lemma bpe_reference_step fuel a t u c :
  is_best (a ++ t :: u :: c) (rank t u) (length a) ->
  bpe_reference (S fuel) (a ++ t :: u :: c) = bpe_reference fuel (a ++ (t ++ u) :: c).
Proof.
  intros [(a1 & t1 & u1 & c1 & Heq1 & Hk1 & Hr1 & H0) Hmin]. cbn [bpe_reference].
  pose proof (best_pair_spec (a ++ t :: u :: c)) as Hspec. destruct (best_pair _) as [[r k]|].
  - destruct Hspec as [(a2 & t2 & u2 & c2 & Heq2 & Hk2 & Hr2 & H2) Hmin2].
    destruct (Hmin a2 t2 u2 c2 Heq2) as [|[??]]; [lia|..]; destruct (Hmin2 a t u c eq_refl) as [|[??]]; try lia.
    replace k with (length a) by lia. by rewrite merge_at_app.
  - specialize (Hspec a t u c eq_refl). lia.
Qed.
Lemma bpe_reference_done fuel p :
  (forall a t u c, p = a ++ t :: u :: c -> rank t u < 0) -> bpe_reference fuel p = p.
Proof.
  intros H. destruct fuel; [done|]. cbn [bpe_reference]. pose proof (best_pair_spec p) as Hs.
  destruct (best_pair p) as [[r k]|]; [|done]. destruct Hs as [(a & t & u & c & Heq & _ & Hr & H0) _].
  specialize (H a t u c Heq). lia.
Qed.
Lemma merge_at_shorter k p : (S k < length p)%nat -> S (length (merge_at k p)) = length p.
Proof.
  revert p. induction k as [|k IH]; intros [|t [|u p]] Hk; simpl in *; try lia. rewrite IH; [done|simpl; lia].
Qed.
Lemma merge_at_concat k p : concat (merge_at k p) = concat p.
Proof.
  revert p. induction k as [|k IH]; intros [|t [|u p]]; try done; cbn [merge_at concat].
  - by rewrite app_assoc.
  - by rewrite IH.
  - by rewrite IH.
Qed.
Lemma bpe_reference_concat fuel p : concat (bpe_reference fuel p) = concat p.
Proof.
  revert p. induction fuel as [|fuel IH]; intros p; [done|]. cbn [bpe_reference].
  destruct (best_pair p) as [[r k]|]; [|done]. by rewrite IH, merge_at_concat.
Qed.
Lemma concat_singletons (w : str) : concat ((fun c => [c]) <$> w) = w.
Proof. induction w as [|c w IH]; [done|]. cbn. by rewrite IH. Qed.
(** With enough turns no pair with a rank is left. *)
Lemma bpe_reference_normal fuel p a t u c :
  (length p <= fuel)%nat -> bpe_reference fuel p = a ++ t :: u :: c -> rank t u < 0.
Proof.
  revert p. induction fuel as [|fuel IH]; intros p Hf.
  { destruct p; [|simpl in Hf; lia]. by destruct a. }
  cbn [bpe_reference]. pose proof (best_pair_spec p) as Hs. destruct (best_pair p) as [[r k]|]; [|apply Hs].
  destruct Hs as [(a' & t' & u' & c' & Heq & Hk & _) _]. apply IH.
  assert (S (length (merge_at k p)) = length p); [|lia]. apply merge_at_shorter. rewrite Heq, length_app. simpl. lia.
Qed.
(** Every piece is a single piece of the start or the join of a ranked pair. *)
Lemma bpe_reference_pieces (P : str -> Prop) fuel p :
  (forall t u, P t -> P u -> 0 <= rank t u -> P (t ++ u)) -> Forall P p -> Forall P (bpe_reference fuel p).
Proof.
  intros Hjoin. revert p. induction fuel as [|fuel IH]; intros p Hp; [done|]. cbn [bpe_reference].
  pose proof (best_pair_spec p) as Hs. destruct (best_pair p) as [[r k]|]; [|done].
  destruct Hs as [(a & t & u & c & -> & <- & Hr & H0) _]. apply IH. rewrite merge_at_app.
  apply Forall_app in Hp as [Ha Hp]. apply Forall_cons in Hp as [Ht Hp]. apply Forall_cons in Hp as [Hu Hc].
  apply Forall_app. split; [done|]. constructor; [|done]. apply Hjoin; [done|done|lia].
Qed.
End Reference.

(** ** The chain of symbols *)

Lemma index_nat {A : Type} (l : list A) (i : nat) : index l (Z.of_nat i) = l !! i.
Proof. unfold index. rewrite (proj2 (Z.ltb_ge _ _)) by lia. by rewrite Nat2Z.id. Qed.
Lemma update_nat f (l : list Symbol) (i : nat) s :
  l !! i = Some s -> update f (Z.of_nat i) l = Some (<[i := f s]> l).
Proof. intros H. unfold update. rewrite index_nat, H. cbn. by rewrite Nat2Z.id. Qed.

Abbreviation segment := (nat * str)%type.
Definition first_idx (segs : list segment) (nx : Z) : Z := match segs with (j, _) :: _ => Z.of_nat j | [] => nx end.
Definition last_idx (p : Z) (segs : list segment) : Z := match last segs with Some (i, _) => Z.of_nat i | None => p end.
(** The symbols at the segments hold their texts and link to their neighbours. *)
Fixpoint chain (sy : list Symbol) (p : Z) (segs : list segment) (nx : Z) : Prop :=
  match segs with
  | [] => True
  | (i, t) :: rest =>
      (exists n, sy !! i = Some (mkSymbol t p (first_idx rest nx) (S n))) /\ chain sy (Z.of_nat i) rest nx
  end.
Lemma symbol_chain_app sy p a b nx :
  chain sy p (a ++ b) nx <-> chain sy p a (first_idx b nx) /\ chain sy (last_idx p a) b nx.
Proof.
  revert p. induction a as [|[i t] a IH]; intros p; cbn [app chain]; [split; [done|by intros [_ ?]]|].
  rewrite IH. assert (Hlast : last_idx p ((i, t) :: a) = last_idx (Z.of_nat i) a).
  { unfold last_idx. rewrite last_cons. by destruct (last a) as [[]|]. }
  assert (Hfirst : first_idx (a ++ b) nx = first_idx a (first_idx b nx)) by by destruct a as [|[]].
  rewrite Hlast, Hfirst. tauto.
Qed.
Lemma symbol_chain_ext sy sy' p segs nx :
  (forall i, i ∈ segs.*1 -> sy' !! i = sy !! i) -> chain sy p segs nx -> chain sy' p segs nx.
Proof.
  revert p. induction segs as [|[i t] segs IH]; intros p Hext; cbn [chain]; [done|]. intros [[n Hn] Hc].
  split; [exists n; rewrite Hext; [done|left]|]. apply IH; [|done]. intros k Hk. apply Hext. by right.
Qed.
Definition is_live (sy : list Symbol) (i : nat) : bool :=
  match sy !! i with Some s => negb (s_n s =? 0)%nat | None => false end.
Definition live_ids (sy : list Symbol) : list nat := filter (fun i => is_live sy i = true) (seq 0 (length sy)).
Lemma live_ids_elem sy i : i ∈ live_ids sy <-> is_live sy i = true.
Proof.
  unfold live_ids. rewrite list_elem_of_filter, elem_of_seq. split; [tauto|]. intros H. split; [done|]. split; [lia|].
  unfold is_live in H. destruct (sy !! i) eqn:E; [|done]. by apply lookup_lt_Some in E.
Qed.
Lemma filter_seq_sorted (P : nat -> Prop) `{!forall x, Decision (P x)} a n : StronglySorted lt (filter P (seq a n)).
Proof.
  revert a. induction n as [|n IH]; intros a; cbn [seq]; [constructor|]. rewrite filter_cons.
  destruct (decide (P a)); [|apply IH]. constructor; [apply IH|]. apply Forall_forall. intros x Hx.
  apply list_elem_of_filter in Hx as [_ Hx%elem_of_seq]. lia.
Qed.
Lemma sorted_lt_NoDup l : StronglySorted lt l -> NoDup l.
Proof.
  induction 1 as [|x l Hs IH Hf]; constructor; [|done]. intros Hx.
  pose proof (proj1 (Forall_forall _ _) Hf x Hx). simpl in *. lia.
Qed.

(** ** The invariant of the merge loop *)

Section Simulation.
Context `{HeapPop} (tk : Tokenizer).
Abbreviation rk := (find_bpe_rank tk).

(** A queued bigram: the texts it was built from had its rank; while both its
    symbols live they are neighbours, the left one unchanged and the right one
    only grown. *)
Definition bigram_ok (sy : list Symbol) (segs : list segment) (b : Bigram) : Prop :=
  exists i j lt rt, b = mkBigram (Z.of_nat i) (Z.of_nat j) (rk lt rt) (lt ++ rt) /\ 0 <= rk lt rt /\
    (i < length sy)%nat /\ (j < length sy)%nat /\
    (is_live sy i = true -> is_live sy j = true -> exists a c u, segs = a ++ (i, lt) :: (j, rt ++ u) :: c).
Record queue_inv (sy : list Symbol) (q : list Bigram) (segs : list segment) : Prop := {
  qi_chain : chain sy (-1) segs (-1);
  qi_live : live_ids sy = segs.*1;
  qi_ok : forall b, b ∈ q -> bigram_ok sy segs b;
  qi_pairs : forall a i t j u c, segs = a ++ (i, t) :: (j, u) :: c -> 0 <= rk t u ->
    mkBigram (Z.of_nat i) (Z.of_nat j) (rk t u) (t ++ u) ∈ q;
}.

Lemma segs_sorted sy (segs : list segment) : live_ids sy = segs.*1 -> StronglySorted lt segs.*1.
Proof. intros <-. apply filter_seq_sorted. Qed.
Lemma StronglySorted_app_lt l (x : nat) k y : StronglySorted lt (l ++ x :: k) -> y ∈ l -> (y < x)%nat.
Proof.
  induction l as [|z l IH]; intros Hs Hy; [by apply not_elem_of_nil in Hy|]. inversion Hs as [|?? Hs' Hf]; subst.
  apply elem_of_cons in Hy as [->|Hy]; [|by apply IH].
  apply (proj1 (Forall_forall _ _) Hf). apply elem_of_app. right. left.
Qed.
(** Segments are found by their index. *)
Lemma segs_split (segs : list segment) a (i : nat) t c a' i' t' c' :
  StronglySorted lt segs.*1 -> segs = a ++ (i, t) :: c -> segs = a' ++ (i', t') :: c' ->
  (i <= i')%nat -> (length a <= length a')%nat.
Proof.
  intros Hs Heq Heq' Hle. destruct (Nat.le_gt_cases (length a) (length a')) as [|Hgt]; [done|]. exfalso.
  assert (Hin : i' ∈ a.*1).
  { apply (list_elem_of_fmap_2 fst a (i', t')). apply list_elem_of_lookup. exists (length a').
    rewrite <-(lookup_app_l a ((i, t) :: c)) by lia. rewrite <-Heq, Heq'. by apply list_lookup_middle. }
  rewrite Heq, fmap_app in Hs. cbn [fmap list_fmap fst] in Hs.
  pose proof (StronglySorted_app_lt _ _ _ _ Hs Hin). lia.
Qed.
Lemma segs_unique (segs : list segment) a (i : nat) t c a' t' c' :
  StronglySorted lt segs.*1 -> segs = a ++ (i, t) :: c -> segs = a' ++ (i, t') :: c' -> a = a' /\ t = t' /\ c = c'.
Proof.
  intros Hs Heq Heq'. assert (Hlen : length a = length a').
  { pose proof (segs_split _ _ _ _ _ _ _ _ _ Hs Heq Heq'). pose proof (segs_split _ _ _ _ _ _ _ _ _ Hs Heq' Heq). lia. }
  rewrite Heq in Heq'. apply app_inj_1 in Heq' as [-> [= -> ->]]; [done|done].
Qed.
Lemma chain_lookup sy a i t c :
  chain sy (-1) (a ++ (i, t) :: c) (-1) ->
  exists n, sy !! i = Some (mkSymbol t (last_idx (-1) a) (first_idx c (-1)) (S n)).
Proof. rewrite symbol_chain_app. cbn [chain]. by intros (_ & H1 & _). Qed.
Lemma last_idx_snoc p a i t : last_idx p (a ++ [(i, t)]) = Z.of_nat i.
Proof. unfold last_idx. by rewrite last_snoc. Qed.

(** [add_bigram] between two segments pushes their bigram when it has a rank. *)
Definition pair_bigram (x y : segment) : list Bigram :=
  if rk x.2 y.2 <? 0 then [] else [mkBigram (Z.of_nat x.1) (Z.of_nat y.1) (rk x.2 y.2) (x.2 ++ y.2)].
Lemma add_bigram_pair sy q (i j : nat) (si sj : Symbol) :
  sy !! i = Some si -> sy !! j = Some sj ->
  add_bigram tk sy (Z.of_nat i) (Z.of_nat j) q = Some (pair_bigram (i, s_text si) (j, s_text sj) ++ q).
Proof.
  intros Hi Hj. unfold add_bigram, pair_bigram. rewrite !(proj2 (Z.eqb_neq _ _)) by lia. cbn [orb].
  rewrite !index_nat, Hi, Hj. cbn. by destruct (_ <? 0).
Qed.
Lemma pair_bigram_ok sy a x y c b :
  (x.1 < length sy)%nat -> (y.1 < length sy)%nat -> b ∈ pair_bigram x y -> bigram_ok sy (a ++ x :: y :: c) b.
Proof.
  destruct x as [i t], y as [j u]. unfold pair_bigram. cbn [fst snd]. intros Hi Hj.
  destruct (Z.ltb_spec (rk t u) 0); [by intros ?%not_elem_of_nil|]. intros ->%list_elem_of_singleton.
  exists i, j, t, u. split; [done|]. split; [lia|]. split; [done|]. split; [done|]. intros _ _.
  exists a, c, []. by rewrite app_nil_r.
Qed.
Lemma pair_bigram_in (i j : nat) t u :
  0 <= rk t u -> mkBigram (Z.of_nat i) (Z.of_nat j) (rk t u) (t ++ u) ∈ pair_bigram (i, t) (j, u).
Proof. intros Hr. unfold pair_bigram. cbn [fst snd]. rewrite (proj2 (Z.ltb_ge _ _)) by lia. left. Qed.
Lemma pair_bigram_length x y : (length (pair_bigram x y) <= 1)%nat.
Proof. unfold pair_bigram. destruct (_ <? 0); simpl; lia. Qed.
(** The bigrams with the neighbours of a segment. *)
Definition left_bigram (a : list segment) (x : segment) : list Bigram :=
  match last a with Some y => pair_bigram y x | None => [] end.
Definition right_bigram (x : segment) (c : list segment) : list Bigram :=
  match c with y :: _ => pair_bigram x y | [] => [] end.
Lemma add_bigram_left sy q a i t c :
  chain sy (-1) (a ++ (i, t) :: c) (-1) ->
  add_bigram tk sy (last_idx (-1) a) (Z.of_nat i) q = Some (left_bigram a (i, t) ++ q).
Proof.
  intros Hc. destruct (chain_lookup _ _ _ _ _ Hc) as [n Hi]. unfold left_bigram.
  destruct a as [|[k v] a _] using rev_ind; [done|]. rewrite last_idx_snoc, last_snoc.
  rewrite <-app_assoc in Hc. destruct (chain_lookup _ _ _ _ _ Hc) as [m Hk].
  by rewrite (add_bigram_pair _ _ _ _ _ _ Hk Hi).
Qed.
Lemma add_bigram_right sy q a i t c :
  chain sy (-1) (a ++ (i, t) :: c) (-1) ->
  add_bigram tk sy (Z.of_nat i) (first_idx c (-1)) q = Some (right_bigram (i, t) c ++ q).
Proof.
  intros Hc. destruct (chain_lookup _ _ _ _ _ Hc) as [n Hi]. unfold right_bigram.
  destruct c as [|[k v] c]; [unfold add_bigram; by rewrite orb_true_r|]. cbn [first_idx].
  replace (a ++ (i, t) :: (k, v) :: c) with ((a ++ [(i, t)]) ++ (k, v) :: c) in Hc by by rewrite <-app_assoc.
  destruct (chain_lookup _ _ _ _ _ Hc) as [m Hk]. by rewrite (add_bigram_pair _ _ _ _ _ _ Hi Hk).
Qed.

(** The pointer updates of a merge: the two symbols' fields, .. *)
Definition merged (sy : list Symbol) (i j : nat) (si sj : Symbol) : list Symbol := <[j := sj]> (<[i := si]> sy).
Lemma merge_fields {A : Type} sy (i j : nat) t u p q nx n m (K : list Symbol -> option A) :
  sy !! i = Some (mkSymbol t p q (S n)) -> sy !! j = Some (mkSymbol u (Z.of_nat i) nx (S m)) -> i <> j ->
  let sy4 := merged sy i j (mkSymbol (t ++ u) p nx (S n + S m)) (mkSymbol u (Z.of_nat i) nx 0) in
  (symbols ← update (set_text (t ++ u)) (Z.of_nat i) sy;
   symbols ← update (set_n (S n + S m)) (Z.of_nat i) symbols;
   symbols ← update (set_n 0) (Z.of_nat j) symbols;
   r_next ← s_next <$> index symbols (Z.of_nat j);
   symbols ← update (set_next r_next) (Z.of_nat i) symbols;
   symbols ← (if 0 <=? r_next then update (set_prev (Z.of_nat i)) r_next symbols else Some symbols);
   K symbols) =
  (symbols ← (if 0 <=? nx then update (set_prev (Z.of_nat i)) nx sy4 else Some sy4); K symbols).
Proof.
  intros Hi Hj Hij sy4. pose proof (lookup_lt_Some _ _ _ Hi) as Hil. pose proof (lookup_lt_Some _ _ _ Hj) as Hjl.
  rewrite (update_nat _ _ _ _ Hi). cbn [mbind option_bind].
  erewrite update_nat by (apply list_lookup_insert_eq; lia). cbn [mbind option_bind].
  rewrite list_insert_insert_eq.
  erewrite (update_nat _ _ j) by (rewrite list_lookup_insert_ne by done; exact Hj). cbn [mbind option_bind].
  rewrite index_nat, list_lookup_insert_eq by (rewrite length_insert; lia). cbn [fmap option_fmap option_map mbind option_bind].
  erewrite (update_nat _ _ i) by (rewrite list_lookup_insert_ne by done; apply list_lookup_insert_eq; lia).
  cbn [mbind option_bind]. rewrite list_insert_insert_ne, list_insert_insert_eq by done. reflexivity.
Qed.
(** .. and the link back from what follows. *)
Lemma relink_next sy (i j : nat) si sj c :
  chain sy (Z.of_nat j) c (-1) -> i ∉ c.*1 -> j ∉ c.*1 -> NoDup c.*1 ->
  exists sy5, (let nx := first_idx c (-1) in
               if 0 <=? nx then update (set_prev (Z.of_nat i)) nx (merged sy i j si sj) else Some (merged sy i j si sj))
      = Some sy5 /\ length sy5 = length sy /\ chain sy5 (Z.of_nat i) c (-1) /\
    (forall k, k ∉ c.*1 -> sy5 !! k = merged sy i j si sj !! k) /\
    (forall k, is_live sy5 k = is_live (merged sy i j si sj) k).
Proof.
  intros Hc Hic Hjc Hnd. assert (Hlen : length (merged sy i j si sj) = length sy) by (unfold merged; by rewrite !length_insert).
  destruct c as [|[k v] c]; cbn [first_idx]; cbv zeta.
  { exists (merged sy i j si sj). done. }
  rewrite (proj2 (Z.leb_le _ _)) by lia. destruct Hc as [[nk Hk] Hc].
  cbn [fmap list_fmap fst] in *. rewrite not_elem_of_cons in Hic, Hjc. apply NoDup_cons in Hnd as [Hkc _].
  assert (Hm : forall l, l <> i -> l <> j -> merged sy i j si sj !! l = sy !! l).
  { intros l Hli Hlj. unfold merged. by rewrite !list_lookup_insert_ne by congruence. }
  assert (Hk4 : merged sy i j si sj !! k = sy !! k) by (apply Hm; naive_solver).
  erewrite update_nat by (rewrite Hk4; exact Hk). pose proof (lookup_lt_Some _ _ _ Hk) as Hkl.
  eexists. split; [done|]. split; [by rewrite length_insert|]. split; [|split].
  - cbn [chain]. split; [exists nk; rewrite list_lookup_insert_eq by lia; done|].
    eapply symbol_chain_ext; [|exact Hc]. intros l Hl. rewrite list_lookup_insert_ne by (intros ->; done).
    apply Hm; intros ->; naive_solver.
  - intros l Hl. rewrite not_elem_of_cons in Hl. rewrite list_lookup_insert_ne by naive_solver. done.
  - intros l. unfold is_live. destruct (decide (l = k)) as [->|]; [|by rewrite list_lookup_insert_ne by congruence].
    rewrite list_lookup_insert_eq by lia. by rewrite Hk4, Hk.
Qed.
(** A merge: the chain without the right symbol, the new neighbours queued. *)
Lemma merge_turn_live sy q a (i j : nat) t u c r :
  chain sy (-1) (a ++ (i, t) :: (j, u) :: c) (-1) -> NoDup (a ++ (i, t) :: (j, u) :: c).*1 ->
  exists sy', merge_turn tk (mkBigram (Z.of_nat i) (Z.of_nat j) r (t ++ u)) sy q =
      Some (sy', right_bigram (i, t ++ u) c ++ left_bigram a (i, t ++ u) ++ q) /\
    chain sy' (-1) (a ++ (i, t ++ u) :: c) (-1) /\ length sy' = length sy /\
    forall k, is_live sy' k = is_live sy k && negb (k =? j)%nat.
Proof.
  intros Hc Hnd. rewrite fmap_app in Hnd. cbn [fmap list_fmap fst] in Hnd. apply NoDup_app in Hnd as (_ & Ha & Hnd).
  apply NoDup_cons in Hnd as [Hni Hnd]. apply NoDup_cons in Hnd as [Hnj Hnc]. rewrite not_elem_of_cons in Hni.
  destruct Hni as [Hij Hic]. apply symbol_chain_app in Hc. cbn [chain first_idx] in Hc.
  destruct Hc as (Hcha & [n Hi] & [m Hj] & Hchc).   set (si := mkSymbol (t ++ u) (last_idx (-1) a) (first_idx c (-1)) (S n + S m)).
  set (sj := mkSymbol u (Z.of_nat i) (first_idx c (-1)) 0).
  destruct (relink_next sy i j si sj c Hchc Hic Hnj Hnc) as (sy5 & Hprev & Hlen & H5c & H5k & H5l). cbv zeta in Hprev.
  pose proof (lookup_lt_Some _ _ _ Hi) as Hil. pose proof (lookup_lt_Some _ _ _ Hj) as Hjl.
  assert (H5i : sy5 !! i = Some si).
  { rewrite H5k by done. unfold merged. rewrite list_lookup_insert_ne by done. by apply list_lookup_insert_eq. }
  assert (Hchain : chain sy5 (-1) (a ++ (i, t ++ u) :: c) (-1)).
  { apply symbol_chain_app. cbn [first_idx chain]. split; [|split; [by exists (n + S m)%nat|done]].
    eapply symbol_chain_ext; [|exact Hcha]. intros k Hk. pose proof (Ha k Hk) as Hk'. rewrite !not_elem_of_cons in Hk'.
    destruct Hk' as (Hki & Hkj & Hkc). rewrite H5k by done. unfold merged. by rewrite !list_lookup_insert_ne by congruence. }
  exists sy5. split; [|split; [done|split; [done|]]].
  - unfold merge_turn. cbn [left right b_text]. rewrite !index_nat, Hi, Hj. cbn [mbind option_bind s_n s_text Nat.eqb orb].
    unfold str_eqb. rewrite bool_decide_eq_true_2 by done. cbn [negb].
    erewrite (merge_fields sy i j t u _ _ _ _ _ (fun symbols => l_prev ← s_prev <$> index symbols (Z.of_nat i);
      l_next ← s_next <$> index symbols (Z.of_nat i); queue ← add_bigram tk symbols l_prev (Z.of_nat i) q;
      queue ← add_bigram tk symbols (Z.of_nat i) l_next queue; Some (symbols, queue)) Hi Hj Hij).
    fold si sj. rewrite Hprev. cbn [mbind option_bind]. rewrite index_nat, H5i.
    cbn [fmap option_fmap option_map mbind option_bind s_prev s_next si].
    rewrite (add_bigram_left _ _ _ _ _ _ Hchain). cbn [mbind option_bind].
    by rewrite (add_bigram_right _ _ _ _ _ _ Hchain).
  - intros k. rewrite H5l. unfold is_live, merged. destruct (Nat.eqb_spec k j) as [->|Hkj].
    + rewrite list_lookup_insert_eq by (rewrite length_insert; lia). by rewrite andb_false_r.
    + rewrite andb_true_r, list_lookup_insert_ne by congruence. destruct (decide (k = i)) as [->|].
      * by rewrite list_lookup_insert_eq, Hi by lia.
      * by rewrite list_lookup_insert_ne by congruence.
Qed.

(** ** Each turn keeps the invariant *)

Lemma neighbours_cases {A : Type} (a c a' c' : list A) x x' y' :
  a ++ x :: c = a' ++ x' :: y' :: c' ->
  (exists m, a = a' ++ x' :: y' :: m /\ c' = m ++ x :: c) \/ (a = a' ++ [x'] /\ x = y' /\ c = c') \/
  (a = a' /\ x = x' /\ c = y' :: c') \/ (exists m, a' = a ++ x :: m /\ c = m ++ x' :: y' :: c').
Proof.
  revert a'. induction a as [|z a IH]; intros [|z' a'] Heq; [simplify_list_eq..|injection Heq as -> Heq].
  - right; right; left. done.
  - right; right; right. by exists a'.
  - destruct a as [|z a]; simplify_list_eq; [right; left; done|left; by exists a].
  - destruct (IH _ Heq) as [(m & -> & ->)|[(-> & -> & ->)|[(-> & -> & ->)|(m & -> & ->)]]].
    + left. by exists m.
    + right; left. done.
    + right; right; left. done.
    + right; right; right. by exists m.
Qed.
Lemma pair_cases {A : Type} (a c a' c' : list A) x y x' y' :
  a ++ x :: y :: c = a' ++ x' :: y' :: c' ->
  (exists m, a = a' ++ x' :: y' :: m) \/ (a = a' ++ [x'] /\ x = y') \/ y = y' \/ y = x' \/
  (exists m, a' = a ++ x :: y :: m /\ c = m ++ x' :: y' :: c').
Proof.
  intros [(m & -> & _)|[(-> & -> & _)|[(-> & -> & Heq)|(m & -> & Heq)]]]%neighbours_cases.
  - left. by exists m.
  - right; left. done.
  - injection Heq as -> _. by right; right; left.
  - destruct m as [|z m]; simplify_list_eq; [by right; right; right; left|].
    right; right; right; right. exists m. done.
Qed.

Lemma filter_other (j : nat) (l : list nat) : j ∉ l -> filter (fun k => k <> j) l = l.
Proof.
  induction l as [|x l IH]; [done|]. rewrite not_elem_of_cons. intros [Hx Hl].
  rewrite filter_cons_True by congruence. by rewrite IH.
Qed.

Section Turn.
Context (sy sy' : list Symbol) (qq q : list Bigram) (a : list segment) (i j : nat) (t u : str) (c : list segment) (r : Z).
Abbreviation segs := (a ++ (i, t) :: (j, u) :: c).
Abbreviation segs' := (a ++ (i, t ++ u) :: c).
Context (Hinv : queue_inv sy qq segs) (Hq : qq ≡ₚ mkBigram (Z.of_nat i) (Z.of_nat j) r (t ++ u) :: q)
  (Hchain : chain sy' (-1) segs' (-1)) (Hlen : length sy' = length sy)
  (Hlive : forall k, is_live sy' k = is_live sy k && negb (k =? j)%nat).

Lemma turn_live : live_ids sy' = segs'.*1.
Proof.
  unfold live_ids. rewrite Hlen.
  assert (Heq : filter (fun k => is_live sy' k = true) (seq 0 (length sy)) = filter (fun k => k <> j) (live_ids sy)).
  { unfold live_ids. rewrite list_filter_filter. apply list_filter_iff. intros k. rewrite Hlive, andb_true_iff, negb_true_iff, Nat.eqb_neq.
    tauto. }
  rewrite Heq, (qi_live _ _ _ Hinv), !fmap_app. cbn [fmap list_fmap fst].
  pose proof (sorted_lt_NoDup _ (segs_sorted _ _ (qi_live _ _ _ Hinv))) as Hnd.
  rewrite fmap_app in Hnd. cbn [fmap list_fmap fst] in Hnd.
  apply NoDup_app in Hnd as (_ & Ha & Hnd). apply NoDup_cons in Hnd as [Hni Hnd]. apply NoDup_cons in Hnd as [Hnj _].
  rewrite filter_app, !filter_cons. rewrite (decide_True (P := i <> j)) by (intros ->; apply Hni; left).
  rewrite (decide_False (P := j <> j)) by congruence.
  rewrite !filter_other; [done|done|]. intros Hk. apply (Ha _ Hk). right; left.
Qed.
Lemma turn_bigram_ok b : bigram_ok sy segs b -> bigram_ok sy' segs' b.
Proof.
  intros (i' & j' & lt & rt & -> & Hr & Hi' & Hj' & Hadj). exists i', j', lt, rt. rewrite Hlen.
  repeat (split; [done|]). rewrite !Hlive, !andb_true_iff, !negb_true_iff, !Nat.eqb_neq. intros [Hli Hni] [Hlj Hnj].
  destruct (Hadj Hli Hlj) as (a' & c' & w & Heq).
  apply pair_cases in Heq as [(m & ->)|[[-> [= -> ->]]|[[= -> _]|[[= -> _]|(m & -> & ->)]]]]; [..|done|done|].
  - exists a', (m ++ (i, t ++ u) :: c), w. by rewrite <-app_assoc.
  - exists a', c, (w ++ u). by rewrite <-!app_assoc.
  - exists (a ++ (i, t ++ u) :: m), c', w. by rewrite <-app_assoc.
Qed.
Lemma turn_inv : queue_inv sy' (right_bigram (i, t ++ u) c ++ left_bigram a (i, t ++ u) ++ q) segs'.
Proof.
  pose proof (sorted_lt_NoDup _ (segs_sorted _ _ (qi_live _ _ _ Hinv))) as Hnd.
  rewrite fmap_app in Hnd. cbn [fmap list_fmap fst] in Hnd. apply NoDup_app in Hnd as (_ & Ha & Hnd).
  apply NoDup_cons in Hnd as [Hni _].
  assert (Hold : forall a1 i1 t1 j1 u1 c1, segs = a1 ++ (i1, t1) :: (j1, u1) :: c1 -> i1 <> i -> 0 <= rk t1 u1 ->
    mkBigram (Z.of_nat i1) (Z.of_nat j1) (rk t1 u1) (t1 ++ u1) ∈ q).
  { intros a1 i1 t1 j1 u1 c1 Heq Hne Hr. pose proof (qi_pairs _ _ _ Hinv _ _ _ _ _ _ Heq Hr) as Hin.
    rewrite Hq in Hin. apply elem_of_cons in Hin as [[= ->%Nat2Z.inj _ _ _]|]; done. }
  assert (Hin : forall x, x ∈ segs' -> (x.1 < length sy')%nat).
  { intros x Hx. assert (Hx1 : x.1 ∈ live_ids sy') by (rewrite turn_live; by apply list_elem_of_fmap_2).
    apply live_ids_elem in Hx1. unfold is_live in Hx1. destruct (sy' !! x.1) eqn:E; [|done]. by apply lookup_lt_Some in E. }
  split; [done|apply turn_live|..].
  - intros b. rewrite !elem_of_app. intros [Hb|[Hb|Hb]].
    + unfold right_bigram in Hb. destruct c as [|x c']; [by apply not_elem_of_nil in Hb|].
      apply pair_bigram_ok; [apply Hin..|done]; set_solver.
    + unfold left_bigram in Hb. destruct a as [|x a' _] using rev_ind; [by apply not_elem_of_nil in Hb|].
      rewrite last_snoc in Hb. rewrite <-app_assoc. apply pair_bigram_ok; [apply Hin..|done]; set_solver.
    + apply turn_bigram_ok, (qi_ok _ _ _ Hinv). rewrite Hq. by right.
  - intros a' i1 t1 j1 u1 c' Heq Hr. rewrite !elem_of_app.
    apply neighbours_cases in Heq as [(m & -> & ->)|[(-> & [= -> ->] & ->)|[(-> & [= -> ->] & ->)|(m & -> & ->)]]].
    + right; right. apply (Hold a' i1 t1 j1 u1 (m ++ (i, t) :: (j, u) :: c)); [by rewrite <-app_assoc|intros ->|done].
      apply (Ha i); [rewrite fmap_app; set_solver|left].
    + right; left. unfold left_bigram. rewrite last_snoc. by apply pair_bigram_in.
    + left. by apply pair_bigram_in.
    + right; right. apply (Hold (a ++ (i, t) :: (j, u) :: m) i1 t1 j1 u1 c'); [by rewrite <-app_assoc|intros ->|done].
      apply Hni. right. rewrite fmap_app. set_solver.
Qed.
End Turn.

(** ** The loop is the reference *)

Lemma bigram_cmp_not_gt x b :
  bigram_cmp x b <> Gt -> rank b < rank x \/ (rank b = rank x /\ left b <= left x).
Proof.
  unfold bigram_cmp. destruct (Z.compare_spec (rank b) (rank x)); [|by left|done].
  intros Hl. right. split; [done|]. by apply Z.compare_le_iff.
Qed.
(** A queued bigram is merged, or left behind. *)
Lemma turn_cases sy q segs b :
  chain sy (-1) segs (-1) -> live_ids sy = segs.*1 -> bigram_ok sy segs b ->
  (exists a i t j u c, segs = a ++ (i, t) :: (j, u) :: c /\
     b = mkBigram (Z.of_nat i) (Z.of_nat j) (rk t u) (t ++ u) /\ 0 <= rk t u) \/
  (merge_turn tk b sy q = Some (sy, q) /\
   forall a i t j u c r, segs = a ++ (i, t) :: (j, u) :: c -> b <> mkBigram (Z.of_nat i) (Z.of_nat j) r (t ++ u)).
Proof.
  intros Hc Hl (i & j & lt & rt & -> & Hr & Hi & Hj & Hadj).
  destruct (lookup_lt_is_Some_2 _ _ Hi) as [ls Hls], (lookup_lt_is_Some_2 _ _ Hj) as [rs Hrs].
  assert (Hin : forall a i1 t j1 u c, segs = a ++ (i1, t) :: (j1, u) :: c -> is_live sy i1 = true /\ is_live sy j1 = true).
  { intros a i1 t j1 u c ->. rewrite <-!live_ids_elem, Hl, fmap_app. cbn [fmap list_fmap fst]. set_solver. }
  unfold merge_turn. cbn [left right b_text]. rewrite !index_nat, Hls, Hrs. cbn [mbind option_bind].
  destruct (_ || _) eqn:Hdead.
  { right. split; [done|]. intros a i1 t j1 u c r Heq [= <-%Nat2Z.inj <-%Nat2Z.inj _ _]. destruct (Hin _ _ _ _ _ _ Heq) as [H1 H2].
    unfold is_live in H1, H2. rewrite Hls in H1. rewrite Hrs in H2. by destruct (s_n ls =? 0)%nat, (s_n rs =? 0)%nat. }
  apply orb_false_iff in Hdead as [Hln Hrn].
  destruct Hadj as (a & c & u & ->); [unfold is_live; by rewrite ?Hls, ?Hrs, ?Hln, ?Hrn..|].
  destruct (chain_lookup _ _ _ _ _ Hc) as [n Hi']. rewrite Hls in Hi'. injection Hi' as ->.
  pose proof Hc as Hc2.
  replace (a ++ (i, lt) :: (j, rt ++ u) :: c) with ((a ++ [(i, lt)]) ++ (j, rt ++ u) :: c) in Hc2 by by rewrite <-app_assoc.
  destruct (chain_lookup _ _ _ _ _ Hc2) as [m Hj']. rewrite Hrs in Hj'. injection Hj' as ->. cbn [s_text].
  destruct u as [|x u].
  { left. exists a, i, lt, j, rt, c. by rewrite app_nil_r. }
  right. assert (Hne : lt ++ rt ++ x :: u <> lt ++ rt).
  { intros Heq%(f_equal length). rewrite !length_app in Heq. simpl in Heq. lia. }
  unfold str_eqb. rewrite bool_decide_eq_false_2 by done. split; [done|].
  intros a1 i1 t1 j1 u1 c1 r Heq [= Hi1%Nat2Z.inj Hj1%Nat2Z.inj _ Ht]. subst i1 j1.
  destruct (segs_unique _ _ _ _ _ _ _ _ (segs_sorted _ _ Hl) eq_refl Heq) as (-> & -> & [= <- <-]). by apply Hne.
Qed.
(** What the heap takes out is the pair the reference merges. *)
Lemma popped_is_best sy qq segs b a i t j u c :
  queue_inv sy qq segs -> (forall x, x ∈ qq -> bigram_cmp x b <> Gt) ->
  segs = a ++ (i, t) :: (j, u) :: c -> b = mkBigram (Z.of_nat i) (Z.of_nat j) (rk t u) (t ++ u) -> 0 <= rk t u ->
  is_best rk (a.*2 ++ t :: u :: c.*2) (rk t u) (length a.*2).
Proof.
  intros Hinv Hmax Hsegs -> Hr. split; [by exists a.*2, t, u, c.*2|].
  intros a2 t2 u2 c2 Heq H2.
  assert (Hpre : exists a' i' j' c', segs = a' ++ (i', t2) :: (j', u2) :: c' /\ a2 = a'.*2).
  { assert (Hs : segs.*2 = a2 ++ t2 :: u2 :: c2) by (by rewrite Hsegs, fmap_app).
    apply fmap_app_inv in Hs as (a' & r' & -> & Hr' & ->).
    destruct r' as [|[i' v'] [|[j' w'] c']]; simplify_eq/=. by exists a', i', j', c'. }
  destruct Hpre as (a' & i' & j' & c' & Hs & ->).
  pose proof (Hmax _ (qi_pairs _ _ _ Hinv _ _ _ _ _ _ Hs H2)) as Hcmp.
  apply bigram_cmp_not_gt in Hcmp. cbn [Tokenizer.rank left] in Hcmp. destruct Hcmp as [|[Hrk Hle]]; [by left|].
  right. split; [done|]. rewrite !length_fmap.
  eapply segs_split; [exact (segs_sorted _ _ (qi_live _ _ _ Hinv))|exact Hsegs|exact Hs|lia].
Qed.
Lemma merge_loop_reference fuel sy q segs :
  queue_inv sy q segs -> (length q + 2 * length segs <= fuel)%nat ->
  exists sy' segs', merge_loop tk fuel sy q = Some sy' /\ chain sy' (-1) segs' (-1) /\ live_ids sy' = segs'.*1 /\
    forall k, (length segs <= k)%nat -> bpe_reference rk k segs.*2 = segs'.*2.
Proof.
  revert sy q segs. induction fuel as [|fuel IH]; intros sy q segs Hinv Hf.
  all: destruct (decide (q = [])) as [->|Hq].
  1,3: exists sy, segs; cbn [merge_loop]; rewrite pop_nil; split; [done|]; split; [apply Hinv|]; split; [apply Hinv|];
    intros k Hk; apply bpe_reference_done; intros a t u c Heq;
    apply fmap_app_inv in Heq as (a' & r' & -> & Hr' & ->);
    destruct r' as [|[i v] [|[j w] c']]; simplify_eq/=;
    destruct (Z.lt_ge_cases (rk v w) 0) as [|Hge]; [done|];
    pose proof (qi_pairs _ _ _ Hinv _ _ _ _ _ _ eq_refl Hge) as Hin; by apply not_elem_of_nil in Hin.
  { destruct q; [done|]. simpl in Hf. lia. }
  destruct (pop_max q Hq) as (b & q' & Hpop & Hperm & Hmax). cbn [merge_loop]. rewrite Hpop.
  assert (Hlen : length q = S (length q')) by (by rewrite Hperm).
  destruct (turn_cases sy q' segs b) as [(a & i & t & j & u & c & -> & -> & Hr)|[-> Hne]];
    [apply Hinv|apply Hinv|apply Hinv; rewrite Hperm; left|..].
  - destruct (merge_turn_live sy q' a i j t u c (rk t u)) as (sy' & -> & Hc' & Hl' & Hlive).
    { apply Hinv. }
    { rewrite <-(qi_live _ _ _ Hinv). apply sorted_lt_NoDup, filter_seq_sorted. }
    cbn [mbind option_bind].
    destruct (IH sy' (right_bigram (i, t ++ u) c ++ left_bigram a (i, t ++ u) ++ q') (a ++ (i, t ++ u) :: c))
      as (sy2 & segs2 & Hrun & Hc2 & Hl2 & Href).
    + by eapply turn_inv.
    + rewrite !length_app in *. cbn [length] in *.
      assert (length (right_bigram (i, t ++ u) c) <= 1)%nat by (destruct c; [simpl; lia|apply pair_bigram_length]).
      assert (length (left_bigram a (i, t ++ u)) <= 1)%nat by (unfold left_bigram; destruct (last a); [apply pair_bigram_length|simpl; lia]).
      lia.
    + exists sy2, segs2. split; [done|]. split; [done|]. split; [done|].
      intros [|k] Hk; rewrite length_app in Hk; cbn [length] in Hk; [lia|].
      rewrite fmap_app. cbn [fmap list_fmap snd]. rewrite bpe_reference_step; [|by eapply popped_is_best].
      rewrite <-(Href k) by (rewrite length_app; simpl; lia). by rewrite fmap_app.
  - cbn [mbind option_bind]. apply IH; [|lia].
    split; [apply Hinv|apply Hinv|..].
    + intros b' Hb'. apply Hinv. rewrite Hperm. by right.
    + intros a i t j u c Heq Hr. pose proof (qi_pairs _ _ _ Hinv _ _ _ _ _ _ Heq Hr) as Hin.
      rewrite Hperm in Hin. apply elem_of_cons in Hin as [Hb|]; [|done]. by destruct (Hne _ _ _ _ _ _ (rk t u) Heq).
Qed.

(** ** The initial state *)

Lemma as_i32_small (i : nat) : Z.of_nat i < 2 ^ 31 -> as_i32 i = Z.of_nat i.
Proof.
  intros Hi. unfold as_i32, to_signed. rewrite wrap_small by (unfold in_u; lia). rewrite Z.mod_small by lia.
  by rewrite (proj2 (Z.ltb_lt _ _)) by lia.
Qed.
Fixpoint init_segs (i : nat) (word : list Z) : list segment :=
  match word with [] => [] | c :: word => (i, [c]) :: init_segs (S i) word end.
Lemma init_segs_lookup i (word : list Z) k : init_segs i word !! k = (fun c => ((i + k)%nat, [c])) <$> word !! k.
Proof.
  revert i k. induction word as [|c word IH]; intros i [|k]; cbn; try done; [by rewrite Nat.add_0_r|].
  rewrite IH. by rewrite Nat.add_succ_r.
Qed.
Lemma init_segs_ids i word : (init_segs i word).*1 = seq i (length word).
Proof. revert i. induction word as [|c word IH]; intros i; cbn; [done|]. by rewrite IH. Qed.
Lemma init_segs_texts i word : (init_segs i word).*2 = (fun c => [c]) <$> word.
Proof. revert i. induction word as [|c word IH]; intros i; cbn; [done|]. by rewrite IH. Qed.
Lemma init_segs_length i word : length (init_segs i word) = length word.
Proof. revert i. induction word as [|c word IH]; intros i; cbn; [done|]. by rewrite IH. Qed.
Lemma build_symbols_length i n word : length (build_symbols i n word) = length word.
Proof. revert i. induction word as [|c word IH]; intros i; cbn; [done|]. by rewrite IH. Qed.
Lemma build_symbols_chain sy i n (word : list Z) :
  Z.of_nat n < 2 ^ 31 -> n = (i + length word)%nat ->
  (forall k, (k < length word)%nat -> sy !! (i + k)%nat = build_symbols i n word !! k) ->
  chain sy (Z.of_nat i - 1) (init_segs i word) (-1).
Proof.
  intros Hn. revert i. induction word as [|c word IH]; intros i Hi Hsy; [done|]. cbn [init_segs chain]. simpl in Hi. split.
  - exists 0%nat. specialize (Hsy 0%nat ltac:(simpl; lia)). rewrite Nat.add_0_r in Hsy. rewrite Hsy. cbn.
    rewrite !as_i32_small by lia. f_equal. f_equal. destruct word as [|c' word]; cbn.
    + rewrite (proj2 (Nat.eqb_eq _ _)); [done|]. simpl in Hi. lia.
    + rewrite (proj2 (Nat.eqb_neq _ _)) by (simpl in Hi; lia). lia.
  - replace (Z.of_nat i) with (Z.of_nat (S i) - 1) by lia. apply IH; [lia|]. intros k Hk.
    replace (S i + k)%nat with (i + S k)%nat by lia. rewrite Hsy by (simpl; lia). done.
Qed.
Lemma build_symbols_live i n (word : list Z) k : is_live (build_symbols i n word) k = (k <? length word)%nat.
Proof.
  unfold is_live. revert i k.
  induction word as [|c word IH]; intros i [|k]; cbn; try done.
Qed.

Section Seed.
Context (sy : list Symbol) (word : list Z) (Hlen : Z.of_nat (length word) < 2 ^ 31).
Context (Hsy : forall i c, word !! i = Some c -> exists s, sy !! i = Some s /\ s_text s = [c]).
Lemma seed_queue_spec k m q :
  (1 <= k)%nat -> (m = 0 \/ k + m <= length word)%nat ->
  exists q', seed_queue tk sy (seq k m) q = Some q' /\ (length q' <= length q + m)%nat /\
    (forall b, b ∈ q -> b ∈ q') /\
    (forall b, b ∈ q' -> b ∈ q \/ exists i c d, word !! i = Some c /\ word !! S i = Some d /\ b ∈ pair_bigram (i, [c]) (S i, [d])) /\
    (forall i c d b, (k <= S i < k + m)%nat -> word !! i = Some c -> word !! S i = Some d ->
       b ∈ pair_bigram (i, [c]) (S i, [d]) -> b ∈ q').
Proof.
  revert k q. induction m as [|m IH]; intros k q Hk Hm; cbn [seq seed_queue].
  { exists q. split; [done|]. split; [lia|]. split; [done|]. split; [by left|]. intros; lia. }
  destruct k as [|k]; [lia|].
  destruct (lookup_lt_is_Some_2 word k ltac:(lia)) as [c Hc], (lookup_lt_is_Some_2 word (S k) ltac:(lia)) as [d Hd].
  destruct (Hsy _ _ Hc) as (sc & Hsc & Htc), (Hsy _ _ Hd) as (sd & Hsd & Htd).
  rewrite as_i32_small by lia. replace (Z.of_nat (S k) - 1) with (Z.of_nat k) by lia.
  rewrite (add_bigram_pair _ _ _ _ _ _ Hsc Hsd), Htc, Htd. cbn [mbind option_bind].
  destruct (IH (S (S k)) (pair_bigram (k, [c]) (S k, [d]) ++ q) ltac:(lia) ltac:(lia)) as (q' & Hq' & Hl & Hsub & Hold & Hnew).
  exists q'. split; [exact Hq'|]. pose proof (pair_bigram_length (k, [c]) (S k, [d])). rewrite length_app in Hl. split; [lia|].
  split; [intros b Hb; apply Hsub, elem_of_app; by right|]. split.
  - intros b Hb. destruct (Hold b Hb) as [[Hb'|]%elem_of_app|]; [right; by exists k, c, d|by left|by right].
  - intros i c' d' b Hi Hc' Hd' Hb. destruct (decide (i = k)) as [->|]; [|by apply (Hnew i c' d'); [lia|..]].
    simplify_eq. apply Hsub, elem_of_app. by left.
Qed.
End Seed.
Lemma filter_true (P : nat -> Prop) `{!forall x, Decision (P x)} (l : list nat) : (forall x, x ∈ l -> P x) -> filter P l = l.
Proof.
  induction l as [|x l IH]; [done|]. intros Hx. rewrite filter_cons_True by (apply Hx; left).
  f_equal. apply IH. intros y Hy. apply Hx. by right.
Qed.
Lemma init_inv (word : list Z) : Z.of_nat (length word) < 2 ^ 31 ->
  let sy := build_symbols 0 (length word) word in
  exists q, seed_queue tk sy (seq 1 (length sy - 1)) [] = Some q /\ queue_inv sy q (init_segs 0 word) /\
    (length q <= length word)%nat.
Proof.
  intros Hn sy. assert (Hc : chain sy (-1) (init_segs 0 word) (-1)).
  { apply (build_symbols_chain sy 0 (length word) word Hn); [done|]. intros k _. done. }
  assert (Hlen : length sy = length word) by apply build_symbols_length.
  destruct (seed_queue_spec sy word Hn) with (k := 1%nat) (m := (length sy - 1)%nat) (q := @nil Bigram)
    as (q & Hq & Hl & _ & Hold & Hnew); [|lia|..].
  { intros i c Hi. assert (Hseg : init_segs 0 word !! i = Some (i, [c])) by (by rewrite init_segs_lookup, Hi).
    apply list_elem_of_split_length in Hseg as (a & r & Heq & _). rewrite Heq in Hc.
    destruct (chain_lookup _ _ _ _ _ Hc) as [n Hs]. by eexists. }
  { rewrite Hlen. destruct word; simpl; lia. }
  exists q. split; [done|]. rewrite Hlen in Hl. simpl in Hl. split; [|lia]. split; [done|..].
  - rewrite init_segs_ids. unfold live_ids. rewrite Hlen. apply filter_true. intros i Hi%elem_of_seq.
    subst sy. rewrite build_symbols_live. apply Nat.ltb_lt. lia.
  - intros b Hb. destruct (Hold b Hb) as [Hnil|(i & c & d & Hci & Hdi & Hb')]; [by apply not_elem_of_nil in Hnil|].
    assert (Hs1 : init_segs 0 word !! i = Some (i, [c])) by (by rewrite init_segs_lookup, Hci).
    assert (Hs2 : init_segs 0 word !! S i = Some (S i, [d])) by (by rewrite init_segs_lookup, Hdi).
    rewrite <-(take_drop_middle _ _ _ Hs1). rewrite <-(take_drop_middle (drop (S i) _) 0 (S i, [d]))
      by (rewrite lookup_drop, Nat.add_0_r; exact Hs2).
    apply pair_bigram_ok; [..|done]; rewrite Hlen; by eapply lookup_lt_Some.
  - intros a i t j u c Heq Hr.
    assert (H1 : init_segs 0 word !! length a = Some (i, t)) by (rewrite Heq; by apply list_lookup_middle).
    assert (H2 : init_segs 0 word !! S (length a) = Some (j, u)).
    { rewrite Heq. rewrite lookup_app_r by lia. by replace (S (length a) - length a)%nat with 1%nat by lia. }
    rewrite init_segs_lookup in H1, H2. destruct (word !! length a) as [c1|] eqn:E1; [|done].
    destruct (word !! S (length a)) as [c2|] eqn:E2; [|done]. simplify_eq/=.
    apply (Hnew (length a) c1 c2); [|done|done|by apply pair_bigram_in].
    apply lookup_lt_Some in E2. rewrite Hlen. lia.
Qed.

(** ** Emission *)

Lemma emit_all_live sy :
  emit_all tk sy = live_ids sy ≫= fun i => match sy !! i with Some s => emit tk (s_text s) | None => [] end.
Proof.
  unfold live_ids. induction sy as [|s sy IH] using rev_ind; [done|].
  unfold emit_all in *. rewrite bind_app, length_app, Nat.add_1_r, seq_S, filter_app, bind_app, IH. cbn [Nat.add]. f_equal.
  - assert (Hx : forall i, i ∈ seq 0 (length sy) -> (sy ++ [s]) !! i = sy !! i).
    { intros i Hi%elem_of_seq. apply lookup_app_l. lia. }
    clear IH. induction (seq 0 (length sy)) as [|i l IHl]; [done|]. rewrite !filter_cons.
    assert (Hlv : is_live (sy ++ [s]) i = is_live sy i) by (unfold is_live; by rewrite (Hx i) by left).
    rewrite Hlv. destruct (decide _); cbn [mbind list_bind]; [rewrite (Hx i) by left; f_equal|];
      apply IHl; intros k Hk; apply Hx; by right.
  - cbn [mbind list_bind]. rewrite app_nil_r, filter_cons, filter_nil. unfold is_live.
    rewrite list_lookup_middle by done. destruct (s_n s =? 0)%nat; cbn [negb].
    + by rewrite decide_False by done.
    + rewrite decide_True by done. cbn [mbind list_bind]. rewrite list_lookup_middle by done. by rewrite app_nil_r.
Qed.
Lemma emit_all_chain sy segs :
  chain sy (-1) segs (-1) -> live_ids sy = segs.*1 -> emit_all tk sy = segs.*2 ≫= emit tk.
Proof.
  intros Hc Hl. rewrite emit_all_live, Hl. clear Hl. revert Hc. generalize (-1) at 1. induction segs as [|[i t] segs IH]; intros p Hc; [done|].
  cbn [chain] in Hc. destruct Hc as [[n Hi] Hc]. cbn [fmap list_fmap fst snd mbind list_bind]. rewrite Hi. f_equal. by eapply IH.
Qed.
Lemma bpe_merge_word_segs word : Z.of_nat (length word) < 2 ^ 31 ->
  bpe_merge_word tk word = Some (bpe_reference rk (length word) ((fun c => [c]) <$> word) ≫= emit tk).
Proof.
  intros Hn. unfold bpe_merge_word. destruct (init_inv word Hn) as (q & -> & Hinv & Hl). cbn [mbind option_bind].
  destruct (merge_loop_reference (3 * length word) _ _ _ Hinv) as (sy' & segs' & -> & Hc & Hlive & Href).
  { rewrite init_segs_length. lia. }
  cbn [mbind option_bind]. f_equal. rewrite (emit_all_chain _ _ Hc Hlive). f_equal.
  rewrite <-(Href (length word)) by (by rewrite init_segs_length). by rewrite init_segs_texts.
Qed.
End Simulation.

(** A tokenizer over three letters: [a b] has the highest priority, then [ab a],
    then [b a]. *)
Module ToyMerge.
Definition word (s : string) : str := lit s.
Definition tk : Tokenizer :=
  mkTokenizer (word <$> ["a"; "b"; "ab"; "aba"; "ba"])%string
    (list_to_map [(word "a", 0); (word "b", 1); (word "ab", 2); (word "aba", 3); (word "ba", 4)])
    (replicate 5 Normal)
    (list_to_map [((word "a", word "b"), 0); ((word "ab", word "a"), 1); ((word "b", word "a"), 2)])
    [] 0 None false (word "qwen35") None false.
Example merges : bpe_merge_word tk (word "abaab") = Some [3; 2].
Proof. by vm_compute. Qed.
End ToyMerge.

(** C14. The merge loop is byte pair encoding: whichever greatest bigram the heap
    returns, a word of fewer than 2^31 characters never panics or runs out of
    turns, its tokens are those of the pieces the reference ends with, and the
    pieces tile the word with no ranked pair left. *)
Theorem bpe_merge_word_reference (heap : HeapPop) (tk : Tokenizer) (word : str) :
  Z.of_nat (length word) < 2 ^ 31 ->
  let pieces := bpe_reference (find_bpe_rank tk) (length word) ((fun c => [c]) <$> word) in
  bpe_merge_word tk word = Some (pieces ≫= emit tk) /\ concat pieces = word /\
  (forall a t u c, pieces = a ++ t :: u :: c -> find_bpe_rank tk t u < 0).
Proof.
  intros Hn pieces. split; [by apply bpe_merge_word_segs|]. split.
  - subst pieces. by rewrite bpe_reference_concat, concat_singletons.
  - intros a t u c. apply bpe_reference_normal. by rewrite length_fmap.
Qed.
Lemma bpe_merge_word_reference_witness :
  bpe_merge_word ToyMerge.tk (lit "abaab") = Some ([lit "aba"; lit "ab"] ≫= emit ToyMerge.tk).
Proof.
  destruct (bpe_merge_word_reference list_heap ToyMerge.tk (lit "abaab")) as [-> _]; [by vm_compute|]. by vm_compute.
Defined.
