(* ===== verification/TokenizerSpec.v ===== *)
(** What the tokenizer promises.

    [tokenizer_ok] is the invariant of the record, which [from_gguf]
    establishes; [byte_level] says the vocabulary is a byte-level one that
    holds every merge.  Under both encoding loses nothing; under the first alone
    it never fails, and in text that is not to be parsed for markers a control token
    comes out only where the vocabulary marks a [made] piece so. *)
From Stdlib Require Import Sorted.
From S2P Require Import Prelude RustStr Utf8 UnicodeData Unicode PretokCases Pretok Gguf Tokenizer BpeMerge.
Local Open Scope Z_scope.

(** ** The invariant *)

Record tokenizer_ok (tk : Tokenizer) : Prop := {
  tk_attrs : length (attrs tk) = length (id_to_token tk);
  (** A piece is looked up to the first id that has it. *)
  tk_ids s id : token_to_id tk !! s = Some id <->
    0 <= id /\ index (id_to_token tk) id = Some s /\ forall id', 0 <= id' < id -> index (id_to_token tk) id' <> Some s;
  (** The specials are the ids of the special classes, longer pieces first. *)
  tk_specials id : id ∈ special_tokens tk <-> exists a, index (attrs tk) id = Some a /\ is_special a = true;
  tk_sorted : StronglySorted (fun x y => (piece_len (id_to_token tk) y <= piece_len (id_to_token tk) x)%nat) (special_tokens tk);
  tk_nodup : NoDup (special_tokens tk);
  tk_ranks p r : bpe_ranks tk !! p = Some r -> - 2 ^ 31 <= r < 2 ^ 31;
}.

Lemma index_lookup {A : Type} (l : list A) id x :
  index l id = Some x <-> 0 <= id /\ l !! Z.to_nat id = Some x.
Proof.
  unfold index. destruct (Z.ltb_spec id 0); [|split; [auto|by intros []]]. split; [done|]. intros [? _]. lia.
Qed.
Lemma as_u32_index (i : nat) : Z.of_nat i < 2 ^ 32 -> as_u32 i = Z.of_nat i.
Proof. intros H. apply wrap_small. unfold in_u. lia. Qed.

(** [add_tokens] enters the tokens from the [i]-th on. *)
Lemma add_tokens_spec i tokens m s id :
  Z.of_nat (i + length tokens) < 2 ^ 32 ->
  add_tokens i tokens m !! s = Some id <->
  m !! s = Some id \/
  (m !! s = None /\ exists k : nat, id = Z.of_nat (i + k) /\ tokens !! k = Some s /\
     forall k', (k' < k)%nat -> tokens !! k' <> Some s).
Proof.
  revert i m. induction tokens as [|t tokens IH]; intros i m Hn; cbn [add_tokens].
  { split; [by left|]. intros [|(_ & k & _ & Hk & _)]; [done|by rewrite lookup_nil in Hk]. }
  simpl in Hn. rewrite IH by lia. clear IH. rewrite as_u32_index by lia.
  destruct (decide (t = s)) as [->|Hne].
  - assert (Hfirst : (exists k : nat, id = Z.of_nat (i + k) /\ (s :: tokens) !! k = Some s /\
       forall k', (k' < k)%nat -> (s :: tokens) !! k' <> Some s) <-> id = Z.of_nat i).
    { split.
      - intros ([|k] & -> & _ & Hmin); [f_equal; lia|]. destruct (Hmin 0%nat); [lia|done].
      - intros ->. exists 0%nat. split; [f_equal; lia|]. split; [done|]. intros; lia. }
    rewrite Hfirst. destruct (m !! s) as [y|] eqn:E.
    + rewrite E. naive_solver.
    + rewrite lookup_insert_eq. split; [intros [[= <-]|[? _]]; [by right|done]|intros [|[_ ->]]; [done|by left]].
  - assert (Hm : (match m !! t with Some _ => m | None => <[t:=Z.of_nat i]> m end) !! s = m !! s).
    { destruct (m !! t); [done|]. by rewrite lookup_insert_ne. }
    rewrite Hm. assert (Hshift : (exists k : nat, id = Z.of_nat (S i + k) /\ tokens !! k = Some s /\
         forall k', (k' < k)%nat -> tokens !! k' <> Some s) <->
      exists k : nat, id = Z.of_nat (i + k) /\ (t :: tokens) !! k = Some s /\
        forall k', (k' < k)%nat -> (t :: tokens) !! k' <> Some s).
    { split.
      - intros (k & -> & Hk & Hmin). exists (S k). split; [f_equal; lia|]. split; [done|].
        intros [|k'] Hk'; cbn; [congruence|]. apply Hmin. lia.
      - intros ([|k] & -> & Hk & Hmin); [by simplify_eq/=|]. exists k. split; [f_equal; lia|]. split; [done|].
        intros k' Hk'. apply (Hmin (S k')). lia. }
    by rewrite Hshift.
Qed.
Lemma set_attrs_length a l : length (set_attrs a l) = length l.
Proof. revert l. induction a as [|v a IH]; intros [|x l]; cbn; try done. by rewrite IH. Qed.

Lemma insert_by_len_perm tokens x l : insert_by_len tokens x l ≡ₚ x :: l.
Proof. induction l as [|y l IH]; cbn; [done|]. destruct (_ <=? _)%nat; [done|]. rewrite IH. apply Permutation_swap. Qed.
Lemma sort_by_len_perm tokens l : sort_by_len tokens l ≡ₚ l.
Proof. induction l as [|x l IH]; cbn; [done|]. by rewrite insert_by_len_perm, IH. Qed.
Lemma sort_by_len_sorted tokens l :
  StronglySorted (fun x y => (piece_len tokens y <= piece_len tokens x)%nat) (sort_by_len tokens l).
Proof.
  induction l as [|x l IH]; cbn; [constructor|]. fold (sort_by_len tokens l). induction IH as [|y l' Hs IHs Hf]; cbn; [by repeat constructor|].
  destruct (Nat.leb_spec (piece_len tokens y) (piece_len tokens x)) as [Hle|Hgt].
  - constructor; [by constructor|]. constructor; [done|]. eapply Forall_impl; [exact Hf|]. simpl. intros; lia.
  - constructor; [done|]. rewrite insert_by_len_perm. constructor; [lia|done].
Qed.
Lemma special_ids_elem tokens attrs id :
  Z.of_nat (length tokens) < 2 ^ 32 -> length attrs = length tokens ->
  id ∈ special_ids tokens attrs <-> exists a, index attrs id = Some a /\ is_special a = true.
Proof.
  intros Hn Hl. unfold special_ids. rewrite sort_by_len_perm, list_elem_of_filter, as_u32_index by done. rewrite Nat2Z.id. split.
  - intros [H _]. destruct (index attrs id) as [a|]; [|done]. exists a. split; [done|]. by apply Is_true_eq_true.
  - intros (a & Ha & Hs). rewrite Ha, Hs. split; [done|]. apply index_lookup in Ha as [H0 Ha%lookup_lt_Some].
    apply list_elem_of_fmap. exists (Z.to_nat id). rewrite elem_of_seq. lia.
Qed.
Lemma as_i32_range i : - 2 ^ 31 <= as_i32 i < 2 ^ 31.
Proof.
  unfold as_i32, to_signed. pose proof (Z.mod_pos_bound (wrap 32 (Z.of_nat i)) (2 ^ 32) ltac:(lia)).
  destruct (Z.ltb_spec (wrap 32 (Z.of_nat i) mod 2 ^ 32) (2 ^ (32 - 1))); lia.
Qed.
Lemma add_merges_range i a m m' :
  (forall p r, m !! p = Some r -> - 2 ^ 31 <= r < 2 ^ 31) -> add_merges i a m = Some m' ->
  forall p r, m' !! p = Some r -> - 2 ^ 31 <= r < 2 ^ 31.
Proof.
  revert i m. induction a as [|v a IH]; intros i m Hm Heq; cbn in Heq; [by simplify_eq|].
  destruct (as_str v) as [word|]; [|done]. cbn [mbind option_bind] in Heq. eapply IH; [|exact Heq]. destruct (split_merge word) as [q|]; [|done].
  intros p r [[_ <-]|[_ H]]%lookup_insert_Some; [apply as_i32_range|by eapply Hm].
Qed.

(** Where [from_gguf] finds each field. *)
Lemma from_gguf_fields g tk : from_gguf g = Ok tk ->
  exists a merges ranks tokens,
    (v ← metadata g !! lit "tokenizer.ggml.tokens"; match v with VArray a => Some a | _ => None end) = Some a /\
    all_str a = Some tokens /\ id_to_token tk = tokens /\ token_to_id tk = add_tokens 0 tokens ∅ /\
    length (attrs tk) = length tokens /\ special_tokens tk = special_ids tokens (attrs tk) /\
    add_merges 0 merges ∅ = Some ranks /\ bpe_ranks tk = ranks.
Proof.
  unfold from_gguf. intros (model & _ & H)%bind_Ok. destruct (_ && _); [done|].
  cbv zeta in H. apply bind_Ok in H as (a & Ha & H). apply bind_Ok in H as (tokens & Htok & H).
  apply bind_Ok in H as (merges & _ & H). apply bind_Ok in H as (ranks & Hr & H).
  apply bind_Ok in H as (eos & _ & H). injection H as <-. cbn.
  unfold ok_or in Ha, Htok, Hr.
  exists a, merges, ranks, tokens.
  destruct (_ ≫= _); simplify_eq. destruct (all_str a); simplify_eq. destruct (add_merges 0 merges ∅); simplify_eq.
  repeat (split; [done|]). split; [|done].
  destruct (metadata g !! lit "tokenizer.ggml.token_type") as [[]|]; rewrite ?set_attrs_length; apply length_replicate.
Qed.

Lemma from_gguf_tokenizer (g : GgufFile) (tk : Tokenizer) :
  from_gguf g = Ok tk -> Z.of_nat (length (id_to_token tk)) < 2 ^ 32 -> tokenizer_ok tk.
Proof.
  intros (a & merges & ranks & tokens & _ & _ & Htok & Hids & Hattrs & Hsp & Hm & Hr)%from_gguf_fields Hn.
  rewrite Htok in Hn. split.
  - by rewrite Htok.
  - intros s id. rewrite Hids, add_tokens_spec, Htok by done. rewrite index_lookup. split.
    + intros [|(_ & k & -> & Hk & Hmin)]; [by rewrite lookup_empty in *|]. split; [lia|]. cbn [Nat.add]. rewrite Nat2Z.id.
      split; [split; [lia|done]|]. intros id' Hid'. rewrite index_lookup. intros [_ Hx]. apply (Hmin (Z.to_nat id')); [lia|done].
    + intros (H0 & [_ Hk] & Hmin). right. split; [apply lookup_empty|]. exists (Z.to_nat id). split; [lia|]. split; [done|].
      intros k' Hk' Hx. apply (Hmin (Z.of_nat k')); [lia|]. rewrite index_nat. done.
  - intros id. rewrite Hsp. by apply special_ids_elem.
  - rewrite Hsp, Htok. apply sort_by_len_sorted.
  - rewrite Hsp. unfold special_ids. rewrite sort_by_len_perm. apply NoDup_filter, NoDup_fmap; [apply _|]. apply NoDup_seq.
  - rewrite Hr. eapply add_merges_range; [|exact Hm]. intros p r. by rewrite lookup_empty.
Qed.

(** ** Splitting at the special tokens *)

Lemma split_once_None p s : split_once p s = None -> forall a b, s <> a ++ p ++ b.
Proof.
  revert p. induction s as [|c s IH]; intros p H a b Heq; cbn in H.
  - destruct (strip_prefix p []) eqn:E; [done|]. symmetry in Heq. apply app_eq_nil in Heq as [-> [-> ->]%app_eq_nil].
    by rewrite (proj2 (strip_prefix_Some [] [] [])) in E.
  - destruct (strip_prefix p (c :: s)) eqn:E; [done|]. destruct (split_once p s) eqn:E'; [done|].
    destruct a as [|c' a].
    + by rewrite (proj2 (strip_prefix_Some p (c :: s) b)) in E.
    + injection Heq as _ Heq. by apply (IH p E' a b).
Qed.
(** The first occurrence: none is earlier. *)
Lemma split_once_leftmost p s a b a' b' : split_once p s = Some (a, b) -> s = a' ++ p ++ b' -> (length a <= length a')%nat.
Proof.
  revert a a'. induction s as [|c s IH]; intros a a' H Heq; cbn in H.
  - destruct (strip_prefix p []); simplify_eq. simpl. lia.
  - destruct (strip_prefix p (c :: s)) eqn:E; [simplify_eq; simpl; lia|].
    destruct (split_once p s) as [[x y]|] eqn:E'; [|done]. simplify_eq/=.
    destruct a' as [|c' a']; [by rewrite (proj2 (strip_prefix_Some p (c :: s) b')) in E|].
    injection Heq as _ Heq. simpl. specialize (IH x a' eq_refl Heq). lia.
Qed.

Definition occurs (needle s : str) : Prop := exists a b, s = a ++ needle ++ b.
Definition frag_text (tk : Tokenizer) (f : Fragment) : str :=
  match f with FText s => s | FToken id => default [] (index (id_to_token tk) id) end.
Section Spans.
Context (tk : Tokenizer) (needle : str) (sid : Z).
Context (Hneedle : needle <> []) (Hsid : index (id_to_token tk) sid = Some needle).
Lemma split_span_concat fuel s : concat (frag_text tk <$> split_span fuel needle sid s) = s.
Proof.
  assert (Htext : forall s', concat (frag_text tk <$> (if bool_decide (s' = []) then [] else [FText s'])) = s').
  { intros s'. destruct (bool_decide_reflect (s' = [])) as [->|]; [done|]. cbn. by rewrite app_nil_r. }
  revert s. induction fuel as [|fuel IH]; intros s; cbn [split_span]; [apply Htext|].
  destruct (split_once needle s) as [[a b]|] eqn:E; [|apply Htext].
  rewrite fmap_app, concat_app, Htext. cbn [fmap list_fmap concat frag_text]. rewrite IH, Hsid. cbn. by apply split_once_Some in E as ->.
Qed.
Lemma split_span_texts fuel s t : (length s <= fuel)%nat -> FText t ∈ split_span fuel needle sid s ->
  t <> [] /\ ~ occurs needle t /\ exists a b, s = a ++ t ++ b.
Proof.
  assert (Htext : forall s', FText t ∈ (if bool_decide (s' = []) then [] else [FText s']) -> t = s' /\ t <> []).
  { intros s'. destruct (bool_decide_reflect (s' = [])); [by intros ?%not_elem_of_nil|].
    by intros [= ->]%list_elem_of_singleton. }
  revert s. induction fuel as [|fuel IH]; intros s Hf; cbn [split_span].
  - intros [-> Hne]%Htext. destruct s; [done|simpl in Hf; lia].
  - destruct (split_once needle s) as [[a b]|] eqn:E.
    + pose proof (split_once_Some _ _ _ _ E) as Hs. rewrite elem_of_app. intros [[-> Hne]%Htext|[|Hin]%elem_of_cons]; [|done|].
      * split; [done|]. split; [|by exists [], (needle ++ b)]. intros (x & y & Hx).
        pose proof (split_once_leftmost _ _ _ _ x (y ++ needle ++ b) E) as Hle. rewrite Hs, Hx, <-!app_assoc in Hle.
        specialize (Hle eq_refl). rewrite !length_app in Hle. destruct needle; [done|simpl in Hle; lia].
      * assert (length b < length s)%nat.
        { rewrite Hs, !length_app. destruct needle; [done|simpl; lia]. }
        destruct (IH b ltac:(lia) Hin) as (H1 & H2 & x & y & ->). split; [done|]. split; [done|].
        exists (a ++ needle ++ x), y. by rewrite Hs, <-!app_assoc.
    + intros [-> Hne]%Htext. split; [done|]. split; [|by exists [], []; rewrite app_nil_r].
      intros (x & y & Hx). by apply (split_once_None _ _ E x y).
Qed.
Lemma split_span_tokens fuel s id : FToken id ∈ split_span fuel needle sid s -> id = sid.
Proof.
  assert (Htext : forall s', FToken id ∉ (if bool_decide (s' = []) then [] else [FText s'])).
  { intros s'. destruct (bool_decide _); [apply not_elem_of_nil|]. by intros ?%list_elem_of_singleton. }
  revert s. induction fuel as [|fuel IH]; intros s; cbn [split_span]; [by intros ?%Htext|].
  destruct (split_once needle s) as [[a b]|]; [|by intros ?%Htext].
  rewrite elem_of_app. intros [?%Htext|[[= ->]|Hin]%elem_of_cons]; [done|done|by eapply IH].
Qed.
End Spans.

(** What the fragments of a text are, once some specials are split out. *)
Record frags_ok (tk : Tokenizer) (ps : bool) (text : str) (done_ : list Z) (frags : list Fragment) : Prop := {
  fo_concat : concat (frag_text tk <$> frags) = text;
  fo_text t : FText t ∈ frags -> exists a b, text = a ++ t ++ b;
  fo_none t sid attr needle : FText t ∈ frags -> sid ∈ done_ -> index (attrs tk) sid = Some attr ->
    index (id_to_token tk) sid = Some needle -> enabled ps attr needle = true -> ~ occurs needle t;
  fo_token id : FToken id ∈ frags -> exists attr, index (attrs tk) id = Some attr /\
    enabled ps attr (frag_text tk (FToken id)) = true /\ id ∈ special_tokens tk;
}.
Lemma enabled_nonempty ps attr needle : enabled ps attr needle = true -> needle <> [].
Proof. unfold enabled. rewrite andb_true_iff, !negb_true_iff. by intros [_ ?%bool_decide_eq_false]. Qed.
Lemma split_frags_ok tk ps text done_ frags sid attr needle :
  frags_ok tk ps text done_ frags -> index (attrs tk) sid = Some attr -> index (id_to_token tk) sid = Some needle ->
  sid ∈ special_tokens tk -> enabled ps attr needle = true ->
  frags_ok tk ps text (sid :: done_) (frags ≫= split_frag needle sid).
Proof.
  intros Hok Hattr Hneedle Hsp Hen. pose proof (enabled_nonempty _ _ _ Hen) as Hne.
  assert (Htext : forall t, FText t ∈ frags ≫= split_frag needle sid ->
    exists s, FText s ∈ frags /\ ~ occurs needle t /\ exists a b, s = a ++ t ++ b).
  { intros t (f & Ht & Hf)%list_elem_of_bind. destruct f as [s|id]; [|by apply list_elem_of_singleton in Ht].
    exists s. split; [done|]. by destruct (split_span_texts tk needle sid Hne Hneedle _ _ _ (le_n _) Ht) as (_ & H1 & H2). }
  split.
  - rewrite <-(fo_concat _ _ _ _ _ Hok). clear Htext Hok. induction frags as [|f frags IH]; [done|].
    cbn [mbind list_bind fmap list_fmap concat]. rewrite fmap_app, concat_app. f_equal; [|exact IH].
    destruct f as [s|id]; cbn [split_frag]; [by apply split_span_concat|]. cbn. by rewrite app_nil_r.
  - intros t (s & Hs & _ & a & b & ->)%Htext. destruct (fo_text _ _ _ _ _ Hok _ Hs) as (x & y & ->).
    exists (x ++ a), (b ++ y). by rewrite <-!app_assoc.
  - intros t sid' attr' needle' (s & Hs & Hno & a & b & ->)%Htext [->|Hin]%elem_of_cons Ha' Hn' Hen'; [by simplify_eq|].
    intros (x & y & ->). apply (fo_none _ _ _ _ _ Hok _ _ _ _ Hs Hin Ha' Hn' Hen').
    exists (a ++ x), (y ++ b). by rewrite <-!app_assoc.
  - intros id (f & Ht & Hf)%list_elem_of_bind. destruct f as [s|id'].
    + apply split_span_tokens in Ht as ->. exists attr. split; [done|]. split; [|done]. cbn. by rewrite Hneedle.
    + apply list_elem_of_singleton in Ht. simplify_eq. by apply (fo_token _ _ _ _ _ Hok).
Qed.
Lemma st_split_ok tk ps text done_ sids frags :
  tokenizer_ok tk -> (forall sid, sid ∈ sids -> sid ∈ special_tokens tk) -> frags_ok tk ps text done_ frags ->
  exists frags', st_split tk ps sids frags = Some frags' /\ frags_ok tk ps text (reverse sids ++ done_) frags'.
Proof.
  intros Hok. revert done_ frags. induction sids as [|sid sids IH]; intros done_ frags Hsub Hf; cbn [st_split].
  { by exists frags. }
  destruct (proj1 (tk_specials _ Hok sid)) as (attr & Hattr & _); [apply Hsub; left|].
  assert (Hneedle : exists needle, index (id_to_token tk) sid = Some needle).
  { apply index_lookup in Hattr as [H0 Hl%lookup_lt_Some]. rewrite (tk_attrs _ Hok) in Hl.
    destruct (lookup_lt_is_Some_2 _ _ Hl) as [x Hx]. exists x. by apply index_lookup. }
  destruct Hneedle as [needle Hneedle]. rewrite Hattr, Hneedle. cbn [mbind option_bind].
  rewrite reverse_cons, <-app_assoc. apply IH; [intros; apply Hsub; by right|].
  destruct (enabled ps attr needle) eqn:Hen.
  - eapply split_frags_ok; eauto. apply Hsub. left.
  - split; [apply Hf|apply Hf| |apply Hf]. intros t sid' attr' needle' Ht [->|Hin]%elem_of_cons; [intros; congruence|].
    by apply (fo_none _ _ _ _ _ Hf).
Qed.
Lemma st_partition_frags tk text ps : tokenizer_ok tk ->
  exists frags, st_partition tk text ps = Some frags /\ frags_ok tk ps text (special_tokens tk) frags.
Proof.
  intros Hok. destruct (st_split_ok tk ps text [] (special_tokens tk) [FText text] Hok) as (frags & Hs & Hf); [done|..].
  - split.
    + cbn. by rewrite app_nil_r.
    + intros t [= ->]%list_elem_of_singleton. exists [], []. by rewrite app_nil_r.
    + intros t sid attr needle _ Hin. by apply not_elem_of_nil in Hin.
    + intros id Hin. by apply list_elem_of_singleton in Hin.
  - exists frags. split; [done|]. rewrite app_nil_r in Hf. split; [apply Hf|apply Hf| |apply Hf].
    intros t sid attr needle Ht Hin. apply (fo_none _ _ _ _ _ Hf _ _ _ _ Ht). by rewrite reverse_Permutation.
Qed.

(** With no special tokens to parse, only user-defined ones are split out. *)
Lemma st_partition_spec_frags tk text : tokenizer_ok tk -> exists frags, st_partition tk text false = Some frags /\
  (forall t, FText t ∈ frags -> exists a b, text = a ++ t ++ b) /\ forall id, FToken id ∈ frags -> index (attrs tk) id = Some UserDefined.
Proof.
  intros Hok. destruct (st_partition_frags tk text false Hok) as (frags & Hs & Hf). exists frags. split; [done|]. split; [apply Hf|]. intros id Hin.
  destruct (fo_token _ _ _ _ _ Hf _ Hin) as (attr & Hattr & Hen & Hsp).
  destruct (proj1 (tk_specials _ Hok id) Hsp) as (attr' & Hattr' & Hspec). rewrite Hattr in Hattr'. injection Hattr' as <-. rewrite Hattr. by destruct attr.
Qed.

(** Splitting out the special tokens loses nothing and finds every one: the
    fragments spell the text, no text fragment holds the piece of a special
    token that is to be parsed, and the token fragments are such tokens. *)
Theorem st_partition_spec (tk : Tokenizer) (text : str) (parse_special : bool) : tokenizer_ok tk ->
  exists frags, st_partition tk text parse_special = Some frags /\ concat (frag_text tk <$> frags) = text /\
    (forall t sid attr needle, FText t ∈ frags -> sid ∈ special_tokens tk -> index (attrs tk) sid = Some attr ->
       index (id_to_token tk) sid = Some needle -> enabled parse_special attr needle = true -> ~ occurs needle t) /\
    (forall id, FToken id ∈ frags -> id ∈ special_tokens tk /\ (parse_special = false -> index (attrs tk) id = Some UserDefined)).
Proof.
  intros Hok. destruct (st_partition_frags tk text parse_special Hok) as (frags & Hs & Hf). exists frags.
  split; [done|]. split; [apply Hf|]. split; [apply Hf|]. intros id Hin.
  destruct (fo_token _ _ _ _ _ Hf _ Hin) as (attr & Hattr & Hen & Hsp). split; [done|]. intros ->.
  destruct (proj1 (tk_specials _ Hok id) Hsp) as (attr' & Hattr' & Hspec). rewrite Hattr in Hattr'. injection Hattr' as <-. rewrite Hattr. by destruct attr.
Qed.

(** ** Byte-level vocabularies *)

Lemma unicode_byte_roundtrip b : is_byte b -> unicode_to_byte (byte_to_unicode b) = Some b.
Proof.
  intros Hb. assert (H : Forall (fun b => unicode_to_byte (byte_to_unicode b) = Some b) (Z.of_nat <$> seq 0 256)).
  { apply (bool_decide_unpack _). vm_compute. exact I. }
  apply (proj1 (Forall_forall _ _) H). apply list_elem_of_fmap. exists (Z.to_nat b). rewrite elem_of_seq. unfold is_byte in Hb. lia.
Qed.
Lemma piece_to_bytes_encode bs : Forall is_byte bs -> piece_to_bytes (byte_to_unicode <$> bs) = bs.
Proof.
  unfold piece_to_bytes. induction 1 as [|b bs Hb _ IH]; [done|]. cbn [fmap list_fmap mbind list_bind]. unfold char_bytes at 1.
  rewrite unicode_byte_roundtrip by done. cbn [app]. by rewrite IH.
Qed.
(** [id] is an ordinary token: not a protocol marker, not user defined. *)
Definition ordinary (tk : Tokenizer) (id : Z) : Prop :=
  index (attrs tk) id = Some Normal \/ index (attrs tk) id = Some Byte.
Definition ordinary_piece (tk : Tokenizer) (s : str) : Prop := exists id, token_to_id tk !! s = Some id /\ ordinary tk id.
(** Every byte and the result of every merge is an ordinary token. *)
Record byte_level (tk : Tokenizer) : Prop := {
  bl_style : spm_style tk = false;
  bl_bytes b : is_byte b -> ordinary_piece tk [byte_to_unicode b];
  bl_merges l r k : bpe_ranks tk !! (l, r) = Some k -> 0 <= k -> ordinary_piece tk (l ++ r);
}.

Section RoundTrip.
Context (heap : HeapPop) (tk : Tokenizer) (Hok : tokenizer_ok tk) (Hbl : byte_level tk).
(** The ids stand for the bytes. *)
Definition renders (ids bs : list Z) : Prop := decode_bytes_special tk ids true = Some bs.
Lemma renders_app ids bs ids' bs' : renders ids bs -> renders ids' bs' -> renders (ids ++ ids') (bs ++ bs').
Proof.
  unfold renders. revert bs. induction ids as [|id ids IH]; intros bs H H'; cbn in *; [by simplify_eq|].
  destruct (match index (id_to_token tk) id with Some _ => _ | None => _ end) as [a|]; [|done]. cbn in *.
  destruct (decode_bytes_special tk ids true) as [b|]; [|done]. cbn in H. injection H as <-.
  rewrite (IH b eq_refl H'). cbn. by rewrite app_assoc.
Qed.
Lemma emit_ordinary s : ordinary_piece tk s ->
  exists id, emit tk s = [id] /\ ordinary tk id /\ renders [id] (piece_to_bytes s).
Proof.
  intros (id & Hid & Hord). exists id. unfold emit, text_to_token. rewrite Hid. split; [done|]. split; [done|].
  pose proof (proj1 (tk_ids _ Hok s id) Hid) as (_ & Hs & _). unfold renders. cbn. rewrite Hs.
  destruct Hord as [Ha|Ha]; rewrite Ha; cbn; rewrite (bl_style _ Hbl); cbn; by rewrite app_nil_r.
Qed.
Lemma emit_pieces pieces : Forall (ordinary_piece tk) pieces ->
  Forall (ordinary tk) (pieces ≫= emit tk) /\ renders (pieces ≫= emit tk) (piece_to_bytes (concat pieces)).
Proof.
  induction 1 as [|s pieces Hs _ [IH1 IH2]]; [done|]. cbn [mbind list_bind concat].
  destruct (emit_ordinary s Hs) as (id & -> & Hord & Hr). split; [by constructor|].
  unfold piece_to_bytes. rewrite bind_app. by apply (renders_app [id]).
Qed.
Lemma merge_word_renders bs : Forall is_byte bs -> Z.of_nat (length bs) < 2 ^ 31 ->
  exists ids, bpe_merge_word tk (byte_to_unicode <$> bs) = Some ids /\ Forall (ordinary tk) ids /\ renders ids bs.
Proof.
  intros Hb Hn. rewrite bpe_merge_word_segs by (by rewrite length_fmap). eexists. split; [done|].
  match goal with |- context [bpe_reference ?r ?f ?p] => set (pieces := bpe_reference r f p) end.
  assert (Hp : Forall (ordinary_piece tk) pieces).
  { apply bpe_reference_pieces.
    - intros t u _ _ Hr. unfold find_bpe_rank in Hr. destruct (bpe_ranks tk !! (t, u)) as [k|] eqn:E; [|done].
      by apply (bl_merges _ Hbl _ _ k).
    - apply Forall_fmap, Forall_fmap. eapply Forall_impl; [exact Hb|]. intros b. apply (bl_bytes _ Hbl). }
  destruct (emit_pieces pieces Hp) as [H1 H2]. split; [done|].
  assert (Hc : concat pieces = byte_to_unicode <$> bs).
  { subst pieces. rewrite bpe_reference_concat. apply concat_singletons. }
  rewrite Hc, piece_to_bytes_encode in H2 by done. done.
Qed.
Lemma utf8_concat_bytes words : utf8 (concat words) = concat (utf8 <$> words).
Proof. induction words as [|w words IH]; [done|]. cbn. by rewrite utf8_app, IH. Qed.
Lemma words_render words : Forall (Forall is_char) words -> Z.of_nat (length (utf8 (concat words))) < 2 ^ 31 ->
  exists ids, tokenize_words (fun w => bpe_merge_word tk (byte_encode w)) words = Some ids /\ Forall (ordinary tk) ids /\
    renders ids (utf8 (concat words)).
Proof.
  induction 1 as [|w words Hw _ IH]; intros Hn; [by exists []|]. cbn [concat] in *. rewrite utf8_app, length_app in Hn.
  destruct (merge_word_renders (utf8 w)) as (a & Ha & Hoa & Hra); [by apply utf8_bytes|lia|].
  destruct IH as (b & Hb & Hob & Hrb); [lia|]. exists (a ++ b). cbn [tokenize_words]. unfold byte_encode. rewrite Ha. cbn [mbind option_bind].
  unfold byte_encode in Hb. rewrite Hb. split; [done|]. split; [by apply Forall_app|]. rewrite utf8_app. by apply renders_app.
Qed.
Lemma split_words_cut text : concat (split_words tk text) = text.
Proof. unfold split_words. destruct (str_eqb _ _); [apply split_deepseek_v3_concat|apply split_qwen35_concat]. Qed.
Lemma bpe_tokenize_renders text : Forall is_char text -> Z.of_nat (length (utf8 text)) < 2 ^ 31 ->
  exists ids, bpe_tokenize tk text = Some ids /\ Forall (ordinary tk) ids /\ renders ids (utf8 text).
Proof.
  intros Hc Hn. unfold bpe_tokenize. rewrite (bl_style _ Hbl).
  pose proof (words_render (split_words tk text)) as H. rewrite (split_words_cut text) in H. apply H; [|done].
  apply Forall_concat. by rewrite split_words_cut.
Qed.
Lemma special_renders id attr : id ∈ special_tokens tk -> index (attrs tk) id = Some attr ->
  renders [id] (utf8 (frag_text tk (FToken id))).
Proof.
  intros Hin Ha. destruct (proj1 (tk_specials _ Hok id) Hin) as (attr' & Ha' & Hs). rewrite Ha in Ha'. injection Ha' as <-.
  unfold renders. cbn. destruct (index (id_to_token tk) id) as [piece|] eqn:E; [|done]. rewrite Ha. cbn.
  destruct attr; try done; cbn; by rewrite app_nil_r.
Qed.
Lemma utf8_part_length a t b : (length (utf8 t) <= length (utf8 (a ++ t ++ b)))%nat.
Proof. rewrite !utf8_app, !length_app. lia. Qed.
Lemma frags_render frags :
  (forall t, FText t ∈ frags -> Forall is_char t /\ Z.of_nat (length (utf8 t)) < 2 ^ 31) ->
  (forall id, FToken id ∈ frags -> id ∈ special_tokens tk) ->
  exists ids, encode_frags tk frags = Some ids /\ renders ids (utf8 (concat (frag_text tk <$> frags))) /\
    forall id, id ∈ ids -> ordinary tk id \/ FToken id ∈ frags.
Proof.
  induction frags as [|f frags IH]; intros Ht Hs; [exists []; repeat split; set_solver|].
  destruct IH as (b & Hb & Hrb & Hib); [intros; apply Ht; by right|intros; apply Hs; by right|].
  cbn [encode_frags fmap list_fmap concat]. rewrite utf8_app. destruct f as [t|id].
  - destruct (Ht t) as [Hc Hn]; [left|]. destruct (bpe_tokenize_renders t Hc Hn) as (a & -> & Ho & Hra). cbn [mbind option_bind].
    rewrite Hb. exists (a ++ b). split; [done|]. split; [by apply renders_app|]. intros id [Hid|Hid]%elem_of_app.
    + left. by apply (proj1 (Forall_forall _ _) Ho).
    + destruct (Hib id Hid); [by left|right; by right].
  - destruct (proj1 (tk_specials _ Hok id) (Hs id ltac:(left))) as (attr & Ha & _).
    cbn [mbind option_bind]. rewrite Hb. exists (id :: b). split; [done|]. split.
    + apply (renders_app [id]); [|done]. eapply special_renders; [apply Hs; left|done].
    + intros id' [->|Hid]%elem_of_cons; [right; left|]. destruct (Hib id' Hid); [by left|right; by right].
Qed.
Lemma encode_renders text ps : Forall is_char text -> Z.of_nat (length (utf8 text)) < 2 ^ 31 ->
  exists ids, encode_special tk text false ps = Some ids /\ renders ids (utf8 text) /\
    forall id, id ∈ ids -> ordinary tk id \/ exists attr, index (attrs tk) id = Some attr /\ is_special attr = true /\
      (ps = false -> attr = UserDefined).
Proof.
  intros Hc Hn. unfold encode_special. cbn [andb]. destruct (decide (text = [])) as [->|Hne];
    [rewrite bool_decide_eq_true_2 by done|rewrite bool_decide_eq_false_2 by done].
  { exists []. repeat split; set_solver. }
  destruct (st_partition_frags tk text ps Hok) as (frags & -> & Hf). cbn [mbind option_bind app].
  destruct (frags_render frags) as (ids & Hids & Hr & Hin).
  - intros t (a & b & Heq)%(fo_text _ _ _ _ _ Hf). rewrite Heq in Hc, Hn. pose proof (utf8_part_length a t b).
    rewrite !Forall_app in Hc. split; [tauto|lia].
  - intros id (attr & _ & _ & H)%(fo_token _ _ _ _ _ Hf). done.
  - rewrite Hids. exists ids. split; [done|]. rewrite (fo_concat _ _ _ _ _ Hf) in Hr. split; [done|].
    intros id [|(attr & Ha & Hen & Hsp)%(fo_token _ _ _ _ _ Hf)]%Hin; [by left|right]. exists attr. split; [done|].
    destruct (proj1 (tk_specials _ Hok id) Hsp) as (attr' & Ha' & Hspec). rewrite Ha in Ha'. injection Ha' as <-.
    split; [done|]. intros ->. by destruct attr.
Qed.
End RoundTrip.

(** ** What a text can become *)

(** A piece that tokenizing makes by itself, without looking for a marker: a
    character, the stand-in of a byte, the result of a merge, and of a
    SentencePiece-style vocabulary a run of newlines. *)
Definition made (tk : Tokenizer) (s : str) : Prop :=
  (exists c, s = [c]) \/ (exists b, is_byte b /\ s = byte_piece tk b) \/
  (exists l r k, bpe_ranks tk !! (l, r) = Some k /\ 0 <= k /\ s = l ++ r) \/
  (spm_style tk = true /\ s <> [] /\ Forall (eq 10) s).
Definition made_id (tk : Tokenizer) (id : Z) : Prop := exists s, made tk s /\ token_to_id tk !! s = Some id.

Section Made.
Context (heap : HeapPop) (tk : Tokenizer).
Lemma emit_made s : made tk s -> Forall is_char s -> Forall (made_id tk) (emit tk s).
Proof.
  intros Hm Hc. unfold emit. destruct (text_to_token tk s) as [id|] eqn:E; [constructor; [by exists s|constructor]|].
  apply Forall_bind. eapply Forall_impl; [by apply utf8_bytes|]. intros b Hb. unfold compose. destruct (text_to_token tk (byte_piece tk b)) as [id|] eqn:Eb; [|constructor].
  constructor; [|constructor]. exists (byte_piece tk b). split; [right; left; by exists b|done].
Qed.
Lemma bpe_word_made w : Forall is_char w -> Z.of_nat (length w) < 2 ^ 31 ->
  exists ids, bpe_merge_word tk w = Some ids /\ Forall (made_id tk) ids.
Proof.
  intros Hc Hn. rewrite bpe_merge_word_segs by done. eexists. split; [done|].
  match goal with |- context [bpe_reference ?r ?f ?p] => set (pieces := bpe_reference r f p) end.
  assert (Hp : Forall (made tk) pieces).
  { apply bpe_reference_pieces.
    - intros t u _ _ Hr. unfold find_bpe_rank in Hr. destruct (bpe_ranks tk !! (t, u)) as [k|] eqn:E; [|done]. right. right. left. by exists t, u, k.
    - apply Forall_fmap, Forall_true. intros c. left. by exists c. }
  assert (Hch : Forall (Forall is_char) pieces).
  { apply Forall_concat. subst pieces. by rewrite bpe_reference_concat, concat_singletons. }
  apply Forall_bind. rewrite Forall_forall in *. intros s Hs. apply emit_made; [by apply Hp|by apply Hch].
Qed.
Lemma words_made f words : Forall (fun w => exists ids, f w = Some ids /\ Forall (made_id tk) ids) words ->
  exists ids, tokenize_words f words = Some ids /\ Forall (made_id tk) ids.
Proof.
  induction 1 as [|w words (a & Ha & Hoa) _ (b & Hb & Hob)]; [by exists []|]. exists (a ++ b). cbn [tokenize_words]. rewrite Ha, Hb. split; [done|by apply Forall_app].
Qed.
(** The words of a text are never empty and spell it. *)
Lemma line_words_cut text words cur nl : Forall (fun w => w <> []) words ->
  concat (line_words text words cur nl) = concat words ++ cur ++ text /\ Forall (fun w => w <> []) (line_words text words cur nl).
Proof.
  revert words cur nl. induction text as [|c text IH]; intros words cur nl Hw; cbn [line_words].
  - destruct (bool_decide_reflect (cur = [])) as [->|Hne]; [by rewrite !app_nil_r|]. rewrite concat_app. cbn [concat]. rewrite !app_nil_r.
    split; [done|]. apply Forall_app. by repeat constructor.
  - destruct (_ && negb (bool_decide (cur = []))) eqn:E.
    + apply andb_true_iff in E as [_ Hne%negb_true_iff%bool_decide_eq_false]. match goal with |- context [line_words text ?ws ?x ?o] => destruct (IH ws x o) as [-> H] end.
      * apply Forall_app. by repeat constructor.
      * split; [|done]. rewrite concat_app. cbn [concat app]. by rewrite app_nil_r, <- app_assoc.
    + match goal with |- context [line_words text ?ws ?x ?o] => destruct (IH ws x o Hw) as [-> H] end. split; [|done]. by rewrite <- app_assoc.
Qed.
Lemma concat_part (words : list str) w : w ∈ words -> Forall is_char (concat words) ->
  Forall is_char w /\ (length w <= length (concat words))%nat.
Proof.
  intros (a & b & ->)%list_elem_of_split. rewrite concat_app. cbn [concat]. rewrite !Forall_app, !length_app. intros (_ & H & _). split; [done|lia].
Qed.
Lemma byte_encode_chars w : Forall is_char (byte_encode w) /\ length (byte_encode w) = length (utf8 w).
Proof.
  split; [|apply length_fmap]. apply Forall_fmap, Forall_true. intros b. change (is_char (byte_to_unicode b)).
  assert (H : forallb (fun c => (0 <=? c) && (c <? 55296)) byte_unicode_map = true) by (vm_compute; reflexivity). rewrite forallb_forall in H.
  unfold byte_to_unicode. destruct (nth_in_or_default (Z.to_nat b) byte_unicode_map 0) as [Hin| ->]; [|left; lia].
  specialize (H _ Hin). apply andb_true_iff in H as [H1 H2]. left. lia.
Qed.
Lemma bpe_tokenize_made text : Forall is_char text -> Z.of_nat (length (utf8 text)) < 2 ^ 31 ->
  exists ids, bpe_tokenize tk text = Some ids /\ Forall (made_id tk) ids.
Proof.
  intros Hc Hn. unfold bpe_tokenize. destruct (spm_style tk) eqn:Hspm; apply words_made, Forall_forall; intros w Hw.
  - destruct (line_words_cut (escape text) [] [] None) as [Hcat Hne]; [done|]. cbn [concat app] in Hcat. rewrite Forall_forall in Hne.
    assert (Hce : Forall is_char (escape text)) by (apply Forall_fmap; eapply Forall_impl; [exact Hc|]; intros c H; cbn; unfold is_char in *; case_match; lia).
    rewrite <- Hcat in Hce. destruct (concat_part _ w Hw Hce) as [Hcw Hlw]. apply (f_equal length) in Hcat. unfold escape in Hcat at 2. rewrite length_fmap in Hcat. assert (Hlen : (length w <= length text)%nat) by (eapply Nat.le_trans; [exact Hlw|apply Nat.eq_le_incl; exact Hcat]).
    pose proof (utf8_length text) as Hu. assert (Hb : Z.of_nat (length w) < 2 ^ 31) by lia. unfold spm_word. destruct (forallb _ w) eqn:Enl; [|by apply bpe_word_made].
    unfold text_to_token. destruct (token_to_id tk !! w) as [id|] eqn:Et; [|by apply bpe_word_made]. exists [id]. split; [done|]. constructor; [|done].
    exists w. split; [|done]. right. right. right. split; [done|]. split; [by apply Hne|]. apply Forall_forall. intros x Hx.
    rewrite forallb_forall in Enl. specialize (Enl x (proj1 (list_elem_of_In _ _) Hx)). lia.
  - pose proof (split_words_cut tk text) as Hcat. rewrite <- Hcat in Hc, Hn. destruct (concat_part _ w Hw Hc) as [Hcw _].
    destruct (byte_encode_chars w) as [Hb Hl]. apply bpe_word_made; [done|]. rewrite Hl. apply list_elem_of_split in Hw as (a & b & Hw). rewrite Hw, concat_app in Hn.
    cbn [concat] in Hn. rewrite !utf8_app, !length_app in Hn. lia.
Qed.
Lemma frags_made frags : (forall t, FText t ∈ frags -> Forall is_char t /\ Z.of_nat (length (utf8 t)) < 2 ^ 31) ->
  exists ids, encode_frags tk frags = Some ids /\ forall id, id ∈ ids -> made_id tk id \/ FToken id ∈ frags.
Proof.
  induction frags as [|f frags IH]; intros Ht; [exists []; split; [done|set_solver]|]. destruct IH as (b & Hb & Hib); [intros; apply Ht; by right|].
  cbn [encode_frags]. rewrite Hb. destruct f as [t|id].
  - destruct (Ht t) as [Hc Hn]; [left|]. destruct (bpe_tokenize_made t Hc Hn) as (a & -> & Ha). exists (a ++ b). split; [done|].
    intros id [Hid|Hid]%elem_of_app; [left; by apply (proj1 (Forall_forall _ _) Ha)|]. destruct (Hib id Hid); [by left|right; by right].
  - exists (id :: b). split; [done|]. intros id' [->|Hid]%elem_of_cons; [right; left|]. destruct (Hib id' Hid); [by left|right; by right].
Qed.
End Made.

(** ** The promises *)

(** C17. The tokenizer read from a GGUF file is well formed: one attribute per
    piece, every piece looked up to its first id, the special ids exactly those
    of the special classes, each once and longer pieces first, ranks in [i32]. *)
Theorem from_gguf_ok (g : GgufFile) (tk : Tokenizer) :
  from_gguf g = Ok tk -> Z.of_nat (length (id_to_token tk)) < 2 ^ 32 -> tokenizer_ok tk.
Proof. apply from_gguf_tokenizer. Qed.

(** C15. Encoding a text and decoding the ids gives the text back, whatever the
    text holds and whether or not special tokens are parsed: with a complete
    byte-level vocabulary no input panics, and no byte is lost or changed. *)
Theorem encode_decode_roundtrip (heap : HeapPop) (tk : Tokenizer) (text : str) (parse_special : bool) :
  tokenizer_ok tk -> byte_level tk -> Forall is_char text -> Z.of_nat (length (utf8 text)) < 2 ^ 31 ->
  exists ids, encode_special tk text false parse_special = Some ids /\ decode_special tk ids true = Some text.
Proof.
  intros Hok Hbl Hc Hn. destruct (encode_renders heap tk Hok Hbl text parse_special Hc Hn) as (ids & Hids & Hr & _).
  exists ids. split; [done|]. unfold decode_special. rewrite Hr. cbn. by rewrite from_utf8_utf8.
Qed.

(** C16. A text encoded without parsing special tokens never yields a marker by spelling
    it: encoding succeeds, and a control or unknown token comes out only where the
    vocabulary marks so a piece that tokenizing makes by itself, a single character, the
    stand-in of a byte, the result of a merge or a run of newlines.  This holds of every
    well-formed tokenizer of either style, its vocabulary complete or not; where no
    such piece is so marked, as of a protocol marker that no merge spells, no control
    or unknown token comes out at all. *)
Theorem encode_no_control (heap : HeapPop) (tk : Tokenizer) (text : str) :
  tokenizer_ok tk -> Forall is_char text -> Z.of_nat (length (utf8 text)) < 2 ^ 31 ->
  exists ids, encode_special tk text false false = Some ids /\
    (forall id, id ∈ ids -> token_is_control tk id = true -> exists s, made tk s /\ token_to_id tk !! s = Some id) /\
    ((forall s id, made tk s -> token_to_id tk !! s = Some id -> token_is_control tk id = false) ->
     forall id, id ∈ ids -> token_is_control tk id = false).
Proof.
  intros Hok Hc Hn. unfold encode_special. cbn [andb]. destruct (bool_decide_reflect (text = [])) as [->|Hne].
  { exists []. split; [done|]. split; set_solver. }
  destruct (st_partition_spec_frags tk text Hok) as (frags & -> & Htext & Htok). cbn [mbind option_bind app].
  destruct (frags_made heap tk frags) as (ids & -> & Hin).
  - intros t (a & b & Heq)%Htext. rewrite Heq in Hc, Hn. pose proof (utf8_part_length a t b). rewrite !Forall_app in Hc. split; [tauto|lia].
  - cbn [mbind option_bind]. assert (H : forall id, id ∈ ids -> token_is_control tk id = true -> made_id tk id).
    { intros id Hid Hctl. destruct (Hin id Hid) as [Hm|Ha%Htok]; [done|]. unfold token_is_control in Hctl. by rewrite Ha in Hctl. }
    exists ids. split; [done|]. split; [exact H|]. intros Hno id Hid. destruct (token_is_control tk id) eqn:E; [|done].
    destruct (H id Hid E) as (s & Hs & Hts). by rewrite <- E, (Hno s id).
Qed.

(** A vocabulary of the 256 bytes, three merges and two specials. *)
Module ToyVocab.
Definition text (s : string) : MetaValue := VString (lit s).
Definition byte_tokens : list MetaValue := (fun b => VString [byte_to_unicode (Z.of_nat b)]) <$> seq 0 256.
Definition g : GgufFile :=
  mkGguf [] 3
    (list_to_map [(lit "tokenizer.ggml.model", text "gpt2"); (lit "tokenizer.ggml.pre", text "qwen35");
       (lit "tokenizer.ggml.tokens", VArray (byte_tokens ++ (text <$> ["he"; "ll"; "hell"; "<|im_end|>"; "<tool>"])%string));
       (lit "tokenizer.ggml.token_type", VArray (replicate 259 (VI32 1) ++ [VI32 3; VI32 4]));
       (lit "tokenizer.ggml.merges", VArray (text <$> ["h e"; "l l"; "he ll"])%string);
       (lit "tokenizer.ggml.eos_token_id", VU32 259)]) [] 0 32.
Definition dummy : Tokenizer := mkTokenizer [] ∅ [] ∅ [] 0 None false [] None false.
Definition tk : Tokenizer := match from_gguf g with Ok tk => tk | _ => dummy end.
Lemma read : from_gguf g = Ok tk.
Proof. by vm_compute. Qed.
Lemma size : Z.of_nat (length (id_to_token tk)) = 261.
Proof. by vm_compute. Qed.
Lemma ok : tokenizer_ok tk.
Proof. apply (from_gguf_tokenizer g); [exact read|]. rewrite size. lia. Qed.
Definition ordinary_pieceb (s : str) : bool :=
  match token_to_id tk !! s with
  | Some id => match index (attrs tk) id with Some Normal | Some Byte => true | _ => false end
  | None => false
  end.
Lemma ordinary_pieceb_ok s : ordinary_pieceb s = true -> ordinary_piece tk s.
Proof.
  unfold ordinary_pieceb, ordinary_piece, ordinary. destruct (token_to_id tk !! s) as [id|]; [|done].
  intros H. exists id. split; [done|]. destruct (index (attrs tk) id) as [[]|]; auto; done.
Qed.
Lemma complete : byte_level tk.
Proof.
  split; [by vm_compute| |].
  - intros b Hb. apply ordinary_pieceb_ok.
    assert (H : Forall (fun b => ordinary_pieceb [byte_to_unicode b] = true) (Z.of_nat <$> seq 0 256)).
    { apply (bool_decide_unpack _). vm_compute. exact I. }
    apply (proj1 (Forall_forall _ _) H). apply list_elem_of_fmap. exists (Z.to_nat b). rewrite elem_of_seq. unfold is_byte in Hb. lia.
  - intros l r k Hk _. apply ordinary_pieceb_ok.
    assert (H : map_Forall (fun p (_ : Z) => ordinary_pieceb (p.1 ++ p.2) = true) (bpe_ranks tk)).
    { apply (bool_decide_unpack _). vm_compute. exact I. }
    exact (H (l, r) k Hk).
Qed.
Lemma unmarked s id : made tk s -> token_to_id tk !! s = Some id -> token_is_control tk id = false.
Proof.
  intros Hm Hs. assert (H : map_Forall (fun s id => token_is_control tk id = true -> s = lit "<|im_end|>") (token_to_id tk)).
  { apply (bool_decide_unpack _). vm_compute. exact I. }
  specialize (H s id Hs). destruct (token_is_control tk id) eqn:E; [|done]. specialize (H E). subst s. exfalso.
  destruct Hm as [[c Hc]|[(b & _ & Hb)|[(l & r & k & Hk & _ & Hlr)|(Hspm & _)]]]; [discriminate Hc|discriminate Hb| |by vm_compute in Hspm].
  assert (Hr : map_Forall (fun p (_ : Z) => p.1 ++ p.2 <> lit "<|im_end|>") (bpe_ranks tk)).
  { apply (bool_decide_unpack _). vm_compute. exact I. }
  by apply (Hr (l, r) k Hk).
Qed.
Definition sample : str := lit "hello <|im_end|> h" ++ [233; 128640].
Lemma sample_chars : Forall is_char sample.
Proof. repeat constructor; unfold is_char; cbv; intuition discriminate. Qed.
Lemma sample_bytes : Z.of_nat (length (utf8 sample)) < 2 ^ 31.
Proof. by vm_compute. Qed.
(** "hell" is one token, and so is the marker when it is parsed. *)
Example encoded : encode_special tk sample false true = Some [258; 111; 32; 259; 32; 104; 195; 169; 240; 159; 154; 128].
Proof. by vm_compute. Qed.
End ToyVocab.

Lemma from_gguf_ok_witness : tokenizer_ok ToyVocab.tk.
Proof. apply (from_gguf_ok ToyVocab.g); [exact ToyVocab.read|rewrite ToyVocab.size; lia]. Defined.
Lemma st_partition_spec_witness :
  exists frags, st_partition ToyVocab.tk ToyVocab.sample true = Some frags /\ length frags = 3%nat.
Proof.
  destruct (st_partition_spec ToyVocab.tk ToyVocab.sample true ToyVocab.ok) as (frags & H & _).
  exists frags. split; [exact H|]. vm_compute in H. by injection H as <-.
Defined.
Lemma encode_decode_roundtrip_witness :
  exists ids, encode_special ToyVocab.tk ToyVocab.sample false true = Some ids /\
    decode_special ToyVocab.tk ids true = Some ToyVocab.sample.
Proof.
  exact (encode_decode_roundtrip list_heap ToyVocab.tk ToyVocab.sample true ToyVocab.ok ToyVocab.complete
           ToyVocab.sample_chars ToyVocab.sample_bytes).
Defined.
(** The marker of the sample is not made, so it does not come out. *)
Lemma encode_no_control_witness :
  exists ids, encode_special ToyVocab.tk ToyVocab.sample false false = Some ids /\
    forall id, id ∈ ids -> token_is_control ToyVocab.tk id = false.
Proof.
  destruct (encode_no_control list_heap ToyVocab.tk ToyVocab.sample ToyVocab.ok ToyVocab.sample_chars ToyVocab.sample_bytes) as (ids & Hids & _ & Hno).
  exists ids. split; [exact Hids|]. apply Hno. exact ToyVocab.unmarked.
Defined.
