(* ===== verification/Auth.v ===== *)
(** API keys and tenants: [memra-server/src/auth.rs].

    The keyring and its validation, the hot-reloading store, the authentication
    law, the namespaces that keep tenants apart, and the key commands.  The
    TOML library and SHA-256 are parameters ([AuthEnv]), and so is the
    lowercase of a non-ASCII character.  A store's state changes only in the locked section of
    [maybe_reload]; the file is what the call sees of it: its modification time
    and its text.  Messages are values of [AuthErr]. *)
From S2P Require Import Prelude RustStr Utf8.
Local Open Scope Z_scope.

Definition NS_SEP : Z := 31.

Definition is_ascii_upper (c : Z) : bool := (65 <=? c) && (c <=? 90).
Definition is_ascii_lower (c : Z) : bool := (97 <=? c) && (c <=? 122).
Definition is_ascii_alphanumeric (c : Z) : bool := is_ascii_digit c || is_ascii_upper c || is_ascii_lower c.
Definition is_ascii_hexdigit (c : Z) : bool :=
  is_ascii_digit c || ((65 <=? c) && (c <=? 70)) || ((97 <=? c) && (c <=? 102)).

(** ** Entries *)

Inductive LaneClass := Interactive | Batch.
#[export] Instance LaneClass_eq_dec : EqDecision LaneClass.
Proof. solve_decision. Defined.
Definition lane_class_parse (v : str) : option LaneClass :=
  if str_eqb v (lit "interactive") then Some Interactive
  else if str_eqb v (lit "batch") then Some Batch else None.
Definition lane_class_str (l : LaneClass) : str :=
  match l with Interactive => lit "interactive" | Batch => lit "batch" end.

Record KeyEntry := mkEntry {
  prefix : str;
  sha256 : str;
  tenant : str;
  lane : option str;
  enabled : bool;
  rate_limit : option Z;
  created_unix : option Z;
}.
#[export] Instance KeyEntry_eq_dec : EqDecision KeyEntry.
Proof. solve_decision. Defined.
Record TenantCtx := mkCtx { c_tenant : str; c_lane_class : LaneClass; c_rate_limit : option Z }.
Definition default_tenant : TenantCtx := mkCtx (lit "default") Interactive None.
Inductive AuthDenied := DUnknown | DDisabled.
Abbreviation Keyring := (gmap str KeyEntry).
Inductive AuthErr :=
  | EBadTenant (i : nat) (t : str) | EBadSha (i : nat) (t : str) | EBadLane (i : nat) (t : str) (l : str)
  | EZeroLimit (i : nat) (t : str) | EDuplicate (i : nat)
  | EToml | EInline (part : str) | EInlineEmpty | ERead | ENeither (spec : str)
  | EBadGenTenant (t : str) | EGenZeroLimit | EEntropy | EPrefixTaken (p : str) | EWrite
  | ENoMatch (h : str) | EAlreadyRevoked (p : str) | EAmbiguous (n : nat) (h : str).

Definition valid_tenant (t : str) : bool :=
  negb (bool_decide (t = [])) && forallb (fun c => is_ascii_alphanumeric c || (c =? 95) || (c =? 45)) t.
Definition valid_sha256 (s : str) : bool := (length (utf8 s) =? 64)%nat && forallb is_ascii_hexdigit s.

(** ** What the code is given *)

Class AuthEnv := {
  (** SHA-256 of the bytes: 32 bytes. *)
  digest : list Z -> list Z;
  (** [toml::from_str] and [toml::to_string] of a key file. *)
  toml_keys : str -> option (list KeyEntry);
  toml_string : list KeyEntry -> option str;
  (** [char::to_lowercase] beyond ASCII. *)
  wide_lower : Z -> str;
}.
Class AuthEnvLaws (E : AuthEnv) := {
  digest_bytes l : length (digest l) = 32%nat /\ Forall is_byte (digest l);
}.

Section Auth.
Context `{AuthEnv}.

Definition to_lowercase (s : str) : str :=
  s ≫= fun c => if c <? 128 then [if is_ascii_upper c then c + 32 else c] else wide_lower c.
Definition hex_lower (d : Z) : Z := if d <? 10 then 48 + d else 87 + d.
(** [format!(02x)] of a byte. *)
Definition hex2 (b : Z) : str := [hex_lower (b / 16); hex_lower (b mod 16)].
Definition sha256_hex (key : str) : str := digest (utf8 key) ≫= hex2.

(** ** The ring *)

Definition with_sha (e : KeyEntry) (s : str) : KeyEntry :=
  mkEntry (prefix e) s (tenant e) (lane e) (enabled e) (rate_limit e) (created_unix e).
Definition with_enabled (e : KeyEntry) (b : bool) : KeyEntry :=
  mkEntry (prefix e) (sha256 e) (tenant e) (lane e) b (rate_limit e) (created_unix e).
Fixpoint insert_entries (i : nat) (entries : list KeyEntry) (by_hash : Keyring) : outcome AuthErr Keyring :=
  match entries with
  | [] => Ok by_hash
  | e :: entries =>
      if negb (valid_tenant (tenant e)) then Err (EBadTenant i (tenant e))
      else
        let e := with_sha e (to_lowercase (sha256 e)) in
        if negb (valid_sha256 (sha256 e)) then Err (EBadSha i (tenant e))
        else
          match lane e with
          | Some l => if negb (bool_decide (is_Some (lane_class_parse l))) then Err (EBadLane i (tenant e) l) else Ok tt
          | None => Ok tt
          end ≫= fun _ =>
          if bool_decide (rate_limit e = Some 0) then Err (EZeroLimit i (tenant e))
          else
            match by_hash !! sha256 e with
            | Some _ => Err (EDuplicate i)
            | None => insert_entries (S i) entries (<[sha256 e := e]> by_hash)
            end
  end.
Definition from_entries (entries : list KeyEntry) : outcome AuthErr Keyring := insert_entries 0 entries ∅.
Definition from_toml (text : str) : outcome AuthErr Keyring := ok_or (toml_keys text) EToml ≫= from_entries.
Definition inline_entry (part : str) : outcome AuthErr KeyEntry :=
  match split_on 58 (trim part) with
  | [t; s] => Ok (mkEntry [] s t None true None None)
  | [t; s; l] => Ok (mkEntry [] s t (Some l) true None None)
  | _ => Err (EInline part)
  end.
Fixpoint inline_entries (parts : list str) : outcome AuthErr (list KeyEntry) :=
  match parts with
  | [] => Ok []
  | p :: parts => e ← inline_entry p; r ← inline_entries parts; Ok (e :: r)
  end.
Definition from_inline (spec : str) : outcome AuthErr Keyring :=
  entries ← inline_entries (filter (fun s => trim s <> []) (split_on 44 spec));
  if bool_decide (entries = []) then Err EInlineEmpty else from_entries entries.
Definition ring_lookup (ring : Keyring) (key : str) : TenantCtx + AuthDenied :=
  match ring !! sha256_hex key with
  | None => inr DUnknown
  | Some e =>
      if negb (enabled e) then inr DDisabled
      else inl (mkCtx (tenant e) (default Interactive (l ← lane e; lane_class_parse l)) (rate_limit e))
  end.

(** ** The store *)

(** What a call sees: the clock and the file. *)
Record View := mkView { v_now : Z; v_mtime : option Z; v_text : option str }.
Record KState := mkState { ring : Keyring; mtime : option Z; checked : Z }.
Inductive Source := File | Inline.
Record KeyStore := mkStore { source : Source; poll : Z; state : KState }.
Definition with_state (ks : KeyStore) (st : KState) : KeyStore := mkStore (source ks) (poll ks) st.
Definition due (poll : Z) (v : View) (st : KState) : bool := negb (v_now v - checked st <? poll).
(** The section under the write lock. *)
Definition reload_locked (poll : Z) (v : View) (st : KState) : KState :=
  if negb (due poll v st) then st
  else
    let st := mkState (ring st) (mtime st) (v_now v) in
    if bool_decide (v_mtime v = mtime st) then st
    else
      match ok_or (v_text v) ERead ≫= from_toml with
      | Ok r => mkState r (v_mtime v) (checked st)
      | _ => mkState (ring st) (v_mtime v) (checked st)
      end.
(** [v]: what the check under the read lock sees; [v']: under the write lock. *)
Definition maybe_reload (ks : KeyStore) (v v' : View) : KeyStore :=
  match source ks with
  | Inline => ks
  | File => if negb (due (poll ks) v (state ks)) then ks
            else with_state ks (reload_locked (poll ks) v' (state ks))
  end.
Definition store_lookup (ks : KeyStore) (key : str) (v v' : View) : KeyStore * (TenantCtx + AuthDenied) :=
  let ks := maybe_reload ks v v' in (ks, ring_lookup (ring (state ks)) key).
(** [is_file]: the value names an existing file.  The text is read at [v], the
    modification time after the parse, at [v']. *)
Definition from_spec (spec : str) (is_file : bool) (v v' : View) : outcome AuthErr KeyStore :=
  if is_file then
    text ← ok_or (v_text v) ERead;
    ring ← from_toml text;
    Ok (mkStore File 2000 (mkState ring (v_mtime v') (v_now v')))
  else if bool_decide (58 ∈ spec) then
    ring ← from_inline spec;
    Ok (mkStore Inline 2000 (mkState ring None (v_now v')))
  else Err (ENeither spec).

(** ** The authentication law *)

Definition authenticate_with (keyring : option KeyStore) (single_key bearer : option str) (v v' : View)
    : option KeyStore * (TenantCtx + AuthDenied) :=
  match keyring, single_key with
  | None, None => (keyring, inl default_tenant)
  | _, _ =>
      match bearer with
      | None => (keyring, inr DUnknown)
      | Some candidate =>
          let single := if bool_decide (single_key = Some candidate) then inl default_tenant else inr DUnknown in
          match keyring with
          | Some ks =>
              let '(ks, r) := store_lookup ks candidate v v' in
              (Some ks, match r with inl ctx => inl ctx | inr DDisabled => inr DDisabled | inr DUnknown => single end)
          | None => (None, single)
          end
      end
  end.

(** ** Namespaces *)

Definition scope_namespace (tenant raw_salt : str) : str := lit "t:" ++ tenant ++ NS_SEP :: raw_salt.
Definition meter_key (cache_ns : str) : str :=
  match (rest ← strip_prefix (lit "t:") cache_ns; split_once [NS_SEP] rest) with
  | Some (before, _) => lit "t:" ++ before
  | None => cache_ns
  end.

(** ** The key commands *)

(** The keys file: its text if it exists. *)
Definition header : str :=
  lit "# memra API keyring (MEMRA_API_KEYS points here)." ++ [10] ++
  lit "# Entries store SHA-256 of the key, never the plaintext. Managed by" ++ [10] ++
  lit "# `memra-server --gen-key <tenant>` / `--revoke-key <prefix>` (revoke" ++ [10] ++
  lit "# rewrites the file; comments outside this header are not preserved)." ++ [10].
Definition quoted (s : str) : str := [34] ++ s ++ [34; 10].
Definition gen_fragment (prefix sha tenant : str) (lane : LaneClass) (created : Z) (rate_limit : option Z) : str :=
  [10] ++ lit "[[keys]]" ++ [10] ++ lit "prefix = " ++ quoted prefix ++ lit "sha256 = " ++ quoted sha ++
  lit "tenant = " ++ quoted tenant ++ lit "lane = " ++ quoted (lane_class_str lane) ++
  lit "enabled = true" ++ [10] ++ lit "created_unix = " ++ show_uint created ++ [10] ++
  match rate_limit with Some rl => lit "rate_limit = " ++ show_uint rl ++ [10] | None => [] end.
Definition gen_key_text (tenant secret : str) : str := lit "mk-" ++ tenant ++ lit "-" ++ secret.
(** [entropy]: the 24 bytes read, if they are. *)
Definition gen_key (file : option str) (tenant_ : str) (lane_ : LaneClass) (limit : option Z)
    (entropy : option (list Z)) (created : Z) (writable : bool) : option str * outcome AuthErr str :=
  if negb (valid_tenant tenant_) then (file, Err (EBadGenTenant tenant_))
  else if bool_decide (limit = Some 0) then (file, Err EGenZeroLimit)
  else
    match entropy with
    | None => (file, Err EEntropy)
    | Some bytes =>
        let secret := bytes ≫= hex2 in
        let key := gen_key_text tenant_ secret in
        let prefix_ := gen_key_text tenant_ (take 12 secret) in
        let check :=
          match file with
          | None => Ok tt
          | Some text =>
              keys ← ok_or (toml_keys text) EToml;
              _ ← from_entries keys;
              if existsb (fun e => str_eqb (prefix e) prefix_) keys then Err (EPrefixTaken prefix_) else Ok tt
          end in
        match check with
        | Err e => (file, Err e)
        | Panic => (file, Panic)
        | Ok _ =>
            let fragment := match file with None => header | Some _ => [] end ++
              gen_fragment prefix_ (sha256_hex key) tenant_ lane_ created limit in
            if writable then (Some (default [] file ++ fragment), Ok key) else (file, Err EWrite)
        end
    end.
(** The entries [handle] names. *)
Definition revoke_matches (handle : str) (keys : list KeyEntry) : list nat :=
  let full_hash := sha256_hex handle in
  fst <$> filter (fun x => (prefix x.2 <> [] /\ starts_with handle (prefix x.2) = true) \/ sha256 x.2 = full_hash)
            (imap pair keys).
Definition revoke_key (file : option str) (handle : str) (writable : bool) : option str * outcome AuthErr str :=
  match (text ← ok_or file ERead; ok_or (toml_keys text) EToml) with
  | Err e => (file, Err e)
  | Panic => (file, Panic)
  | Ok keys =>
      match revoke_matches handle keys with
      | [] => (file, Err (ENoMatch handle))
      | [i] =>
          match keys !! i with
          | None => (file, Panic)
          | Some e =>
              if negb (enabled e) then (file, Err (EAlreadyRevoked (prefix e)))
              else
                match toml_string (<[i := with_enabled e false]> keys) with
                | None => (file, Err EToml)
                | Some out => if writable then (Some out, Ok (prefix e)) else (file, Err EWrite)
                end
          end
      | l => (file, Err (EAmbiguous (length l) handle))
      end
  end.
End Auth.
