(* ===== verification/AuthSpec.v ===== *)
(** What authentication promises: rings are valid whole or refused, a reload
    never opens the server, tenants' namespaces are disjoint, and a generated
    key works until it is revoked. *)
From S2P Require Import Prelude RustStr Utf8 Auth.
Local Open Scope Z_scope.

Section Spec.
Context `{HE : AuthEnv} {HL : AuthEnvLaws HE}.

(** ** Hashes *)

Lemma hex_lower_digit d : 0 <= d < 16 -> is_ascii_hexdigit (hex_lower d) = true /\ is_ascii_upper (hex_lower d) = false /\ hex_lower d < 128.
Proof.
  intros Hd. unfold hex_lower, is_ascii_hexdigit, is_ascii_digit, is_ascii_upper.
  destruct (Z.ltb_spec d 10); repeat rewrite ?orb_true_iff, ?andb_true_iff, ?andb_false_iff, ?Z.leb_le, ?Z.leb_gt; lia.
Qed.
Lemma hex2_digits b : is_byte b -> length (hex2 b) = 2%nat /\
  Forall (fun c => is_ascii_hexdigit c = true /\ is_ascii_upper c = false /\ c < 128) (hex2 b).
Proof.
  intros Hb. unfold is_byte in Hb. split; [done|]. unfold hex2.
  rewrite !Forall_cons. split; [|split; [|done]]; apply hex_lower_digit.
  - split; [apply Z.div_pos; lia|apply Z.div_lt_upper_bound; lia].
  - apply Z.mod_pos_bound. lia.
Qed.
Lemma hex_bytes l : Forall is_byte l -> length (l ≫= hex2) = (2 * length l)%nat /\
  Forall (fun c => is_ascii_hexdigit c = true /\ is_ascii_upper c = false /\ c < 128) (l ≫= hex2).
Proof.
  induction 1 as [|b l Hb _ [IH1 IH2]]; [done|]. cbn [mbind list_bind]. destruct (hex2_digits b Hb) as [H1 H2]. split.
  - rewrite length_app, H1, IH1. simpl. lia.
  - by apply Forall_app.
Qed.
Lemma to_lowercase_id s : Forall (fun c => is_ascii_upper c = false /\ c < 128) s -> to_lowercase s = s.
Proof.
  unfold to_lowercase. induction 1 as [|c s [Hu Hc] _ IH]; [done|]. cbn [mbind list_bind]. rewrite (proj2 (Z.ltb_lt _ _) Hc), Hu.
  cbn [app]. by f_equal.
Qed.
Lemma ascii_utf8 s : Forall (fun c => c < 128) s -> length (utf8 s) = length s.
Proof.
  induction 1 as [|c s Hc _ IH]; [done|]. rewrite utf8_cons, length_app, IH. unfold utf8_char.
  by rewrite (proj2 (Z.ltb_lt _ _) Hc).
Qed.
Lemma sha256_hex_ok key : valid_sha256 (sha256_hex key) = true /\ to_lowercase (sha256_hex key) = sha256_hex key.
Proof.
  destruct (digest_bytes (utf8 key)) as [Hl Hb]. destruct (hex_bytes _ Hb) as [H1 H2]. fold (sha256_hex key) in H1, H2. split.
  - unfold valid_sha256. apply andb_true_iff. split.
    + apply Nat.eqb_eq. rewrite ascii_utf8; [rewrite H1; by rewrite Hl|]. eapply Forall_impl; [exact H2|]. simpl. tauto.
    + apply forallb_forall. intros c Hc%list_elem_of_In. by apply (proj1 (Forall_forall _ _) H2).
  - apply to_lowercase_id. eapply Forall_impl; [exact H2|]. simpl. tauto.
Qed.

(** ** Rings *)

Record entry_ok (h : str) (e : KeyEntry) : Prop := {
  eo_hash : sha256 e = h;
  eo_sha : valid_sha256 h = true;
  eo_tenant : valid_tenant (tenant e) = true;
  eo_lane l : lane e = Some l -> is_Some (lane_class_parse l);
  eo_limit : rate_limit e <> Some 0;
}.
Definition ring_ok (r : Keyring) : Prop := map_Forall entry_ok r.
(** One more entry. *)
Lemma insert_entry_ok i e m r :
  insert_entries i [e] m = Ok r <->
  let e' := with_sha e (to_lowercase (sha256 e)) in
  entry_ok (sha256 e') e' /\ m !! sha256 e' = None /\ r = <[sha256 e' := e']> m.
Proof.
  cbn [insert_entries]. cbv zeta. set (e' := with_sha e (to_lowercase (sha256 e))).
  change (tenant e) with (tenant e'). change (lane e) with (lane e'). change (rate_limit e) with (rate_limit e').
  split.
  - destruct (valid_tenant (tenant e')) eqn:Ht; [cbn [negb]|done].
    destruct (valid_sha256 (sha256 e')) eqn:Hs; [cbn [negb]|done].
    intros ([] & Hlane & Hr)%bind_Ok. destruct (bool_decide_reflect (rate_limit e' = Some 0)); [done|].
    destruct (m !! sha256 e') eqn:Hm; [done|]. injection Hr as <-. split; [|done]. split; [done|done|done| |done].
    intros l Hl. rewrite Hl in Hlane. destruct (bool_decide_reflect (is_Some (lane_class_parse l))); done.
  - intros ([_ Hs Ht Hl Hlim] & Hm & ->). rewrite Ht, Hs, Hm. cbn [negb].
    rewrite bool_decide_eq_false_2 by done. destruct (lane e') as [l|]; [|done].
    rewrite bool_decide_eq_true_2 by by apply Hl. done.
Qed.
Lemma insert_entries_app i es fs m :
  insert_entries i (es ++ fs) m = insert_entries i es m ≫= insert_entries (i + length es) fs.
Proof.
  revert i m. induction es as [|e es IH]; intros i m; cbn [app insert_entries length]; [by rewrite Nat.add_0_r|].
  destruct (negb (valid_tenant _)); [done|]. destruct (negb (valid_sha256 _)); [done|].
  destruct (match lane _ with Some _ => _ | None => _ end) as [[]| |]; [|done|done]. cbn [mbind outcome_bind].
  destruct (bool_decide _); [done|]. destruct (m !! _); [done|]. rewrite IH. by rewrite Nat.add_succ_r.
Qed.
Lemma insert_entries_ok i es m r : ring_ok m -> insert_entries i es m = Ok r -> ring_ok r.
Proof.
  revert i m. induction es as [|e es IH]; intros i m Hm H; [by injection H as <-|].
  change (e :: es) with ([e] ++ es) in H. rewrite insert_entries_app in H. apply bind_Ok in H as (m' & He & H).
  apply insert_entry_ok in He as (He & _ & ->). eapply IH; [|exact H]. apply map_Forall_insert_2; done.
Qed.
Lemma from_entries_ok es r : from_entries es = Ok r -> ring_ok r.
Proof. apply insert_entries_ok. apply map_Forall_empty. Qed.
Lemma from_toml_ok text r : from_toml text = Ok r -> ring_ok r.
Proof. unfold from_toml. intros (es & _ & H)%bind_Ok. by eapply from_entries_ok. Qed.
(** The hashes of the ring are the entries', and each maps to its entry. *)
Lemma insert_entries_lookup i es m r h e :
  insert_entries i es m = Ok r -> r !! h = Some e ->
  m !! h = Some e \/ exists e0, e0 ∈ es /\ e = with_sha e0 (to_lowercase (sha256 e0)) /\ h = to_lowercase (sha256 e0).
Proof.
  revert i m. induction es as [|e0 es IH]; intros i m H Hr; [injection H as <-; by left|].
  change (e0 :: es) with ([e0] ++ es) in H. rewrite insert_entries_app in H. apply bind_Ok in H as (m' & He & H).
  apply insert_entry_ok in He as (_ & _ & ->). destruct (IH _ _ H Hr) as [Hi|(e1 & Hin & Heq)].
  - apply lookup_insert_Some in Hi as [[<- <-]|[_ Hi]]; [|by left]. right. exists e0. split; [left|done].
  - right. exists e1. split; [by right|done].
Qed.

(** ** Namespaces *)

Lemma valid_tenant_chars t c : valid_tenant t = true -> c ∈ t -> c <> NS_SEP /\ c <> 34 /\ c <> 10.
Proof.
  unfold valid_tenant. intros [_ Ht]%andb_true_iff Hc. pose proof (proj1 (forallb_forall _ _) Ht c) as H.
  rewrite <-list_elem_of_In in H. specialize (H Hc). cbv beta in H.
  unfold is_ascii_alphanumeric, is_ascii_digit, is_ascii_upper, is_ascii_lower, NS_SEP in *.
  rewrite !orb_true_iff, !andb_true_iff, !Z.leb_le, !Z.eqb_eq in H. lia.
Qed.
Lemma split_once_char c t s : c ∉ t -> split_once [c] (t ++ c :: s) = Some (t, s).
Proof.
  induction t as [|d t IH]; intros Hn; cbn [app split_once strip_prefix].
  - by rewrite Z.eqb_refl.
  - rewrite not_elem_of_cons in Hn. rewrite (proj2 (Z.eqb_neq _ _)) by tauto. by rewrite IH by tauto.
Qed.
Lemma meter_scope t salt : valid_tenant t = true -> meter_key (scope_namespace t salt) = lit "t:" ++ t.
Proof.
  intros Ht. unfold meter_key, scope_namespace.
  rewrite (proj2 (strip_prefix_Some (lit "t:") _ (t ++ NS_SEP :: salt)) eq_refl). cbn [mbind option_bind].
  rewrite split_once_char; [done|]. intros Hin. by destruct (valid_tenant_chars _ _ Ht Hin).
Qed.
Lemma ring_lookup_ok r key ctx : ring_ok r -> ring_lookup r key = inl ctx -> valid_tenant (c_tenant ctx) = true.
Proof.
  unfold ring_lookup. intros Hr. destruct (r !! sha256_hex key) as [e|] eqn:E; [|done]. destruct (negb (enabled e)); [done|].
  intros [= <-]. exact (eo_tenant _ _ (Hr _ _ E)).
Qed.

(** ** Reloading *)

(** One locked section: nothing, or the new file if it parses, or the old ring. *)
Lemma reload_locked_cases poll v st :
  let st' := reload_locked poll v st in
  (st' = st /\ due poll v st = false) \/
  (due poll v st = true /\ checked st' = v_now v /\ mtime st' = v_mtime v /\
   ((v_mtime v = mtime st /\ ring st' = ring st) \/
    (v_mtime v <> mtime st /\ exists text r, v_text v = Some text /\ from_toml text = Ok r /\ ring st' = r) \/
    (v_mtime v <> mtime st /\ (forall text r, v_text v = Some text -> from_toml text <> Ok r) /\ ring st' = ring st))).
Proof.
  cbv zeta. unfold reload_locked. destruct (due poll v st); cbn [negb]; [right|by left]. cbn [mtime ring checked].
  destruct (bool_decide_reflect (v_mtime v = mtime st)) as [Heq|Hne]; [by repeat split; [..|left]|].
  split; [done|]. destruct (v_text v) as [text|]; cbn [ok_or mbind outcome_bind].
  - destruct (from_toml text) as [r|e|] eqn:E; cbn; (split; [done|split; [done|right]]).
    + left. split; [done|]. by exists text, r.
    + right. split; [done|]. split; [|done]. intros ? ? [= <-]. by rewrite E.
    + right. split; [done|]. split; [|done]. intros ? ? [= <-]. by rewrite E.
  - split; [done|split; [done|right]]. right. split; [done|]. by split.
Qed.
(** The rings a store can hold: the first one, or what a file it saw parsed to. *)
Inductive seen_ring (r0 : Keyring) (views : list View) : Keyring -> Prop :=
  | seen_first : seen_ring r0 views r0
  | seen_file v text r : v ∈ views -> v_text v = Some text -> from_toml text = Ok r -> seen_ring r0 views r.
Lemma seen_ring_snoc r0 views v r : seen_ring r0 views r -> seen_ring r0 (views ++ [v]) r.
Proof. intros [|v' text r' Hin]; [constructor|]. eapply seen_file; eauto. apply elem_of_app. by left. Qed.
Lemma reload_all_seen poll views st :
  seen_ring (ring st) views (ring (foldl (fun st v => reload_locked poll v st) st views)).
Proof.
  induction views as [|v views IH] using rev_ind; [constructor|]. rewrite foldl_app. cbn [foldl].
  set (st1 := foldl _ st views) in *.
  destruct (reload_locked_cases poll v st1) as [[-> _]|(_ & _ & _ & [[_ ->]|[(_ & text & r & Ht & Hp & ->)|(_ & _ & ->)]])];
    auto using seen_ring_snoc.
  eapply seen_file; eauto. apply elem_of_app. right. left.
Qed.
Lemma seen_ring_ok r0 views r : ring_ok r0 -> seen_ring r0 views r -> ring_ok r.
Proof. intros H0 [|v text r' _ _ Hp]; [done|by eapply from_toml_ok]. Qed.
(** A due lookup of a changed file that parses answers from that file. *)
Lemma store_lookup_fresh ks key v text r :
  source ks = File -> due (poll ks) v (state ks) = true -> v_mtime v <> mtime (state ks) ->
  v_text v = Some text -> from_toml text = Ok r -> store_lookup ks key v v = (with_state ks (mkState r (v_mtime v) (v_now v)), ring_lookup r key).
Proof.
  intros Hs Hd Hm Ht Hr. unfold store_lookup, maybe_reload. rewrite Hs, Hd. cbn [negb].
  unfold reload_locked. rewrite Hd. cbn [negb mtime ring checked]. rewrite bool_decide_eq_false_2 by done.
  rewrite Ht. cbn [ok_or mbind outcome_bind]. rewrite Hr. done.
Qed.

(** ** The key commands *)

Lemma gen_key_ok file t l limit entropy created w file' key :
  gen_key file t l limit entropy created w = (file', Ok key) ->
  exists bytes, entropy = Some bytes /\ valid_tenant t = true /\ limit <> Some 0 /\ key = gen_key_text t (bytes ≫= hex2) /\
    (forall text, file = Some text -> exists keys r, toml_keys text = Some keys /\ from_entries keys = Ok r) /\
    file' = Some (default [] file ++ match file with None => header | Some _ => [] end ++
      gen_fragment (gen_key_text t (take 12 (bytes ≫= hex2))) (sha256_hex key) t l created limit).
Proof.
  unfold gen_key. destruct (valid_tenant t); [cbn [negb]|done]. destruct (bool_decide_reflect (limit = Some 0)); [done|].
  destruct entropy as [bytes|]; [|done]. cbv zeta.
  destruct (match file with Some _ => _ | None => _ end) as [[]| |] eqn:Hcheck; [|done|done].
  destruct w; [|done]. intros [= <- <-]. exists bytes. repeat (split; [done|]). split; [|done].
  intros text ->. apply bind_Ok in Hcheck as (keys & Hk & Hcheck). apply bind_Ok in Hcheck as (r & Hr & _).
  exists keys, r. split; [|done]. unfold ok_or in Hk. by destruct (toml_keys text); simplify_eq.
Qed.
(** The entry the fragment stands for. *)
Definition gen_entry (t secret sha : str) (l : LaneClass) (created : Z) (limit : option Z) : KeyEntry :=
  mkEntry (gen_key_text t (take 12 secret)) sha t (Some (lane_class_str l)) true limit (Some created).
Lemma lane_class_parse_str l : lane_class_parse (lane_class_str l) = Some l.
Proof. by destruct l. Qed.
Lemma gen_entry_insert i t secret key l created limit m b :
  valid_tenant t = true -> limit <> Some 0 -> m !! sha256_hex key = None ->
  let e := with_enabled (gen_entry t secret (sha256_hex key) l created limit) b in
  insert_entries i [e] m = Ok (<[sha256_hex key := e]> m).
Proof.
  intros Ht Hl Hm e. destruct (sha256_hex_ok key) as [Hs Hlow]. apply insert_entry_ok.
  assert (He : with_sha e (to_lowercase (sha256 e)) = e) by (change (sha256 e) with (sha256_hex key); rewrite Hlow; by destruct b).
  rewrite He. split; [|done]. split; [done|done|done| |done]. intros l' [= <-]. exists l. apply lane_class_parse_str.
Qed.
Lemma ring_lookup_insert_other m h e key : sha256_hex key <> h -> ring_lookup (<[h := e]> m) key = ring_lookup m key.
Proof. intros Hne. unfold ring_lookup. by rewrite lookup_insert_ne. Qed.
Lemma revoke_matches_last handle keys e :
  revoke_matches handle keys = [] -> sha256 e = sha256_hex handle -> revoke_matches handle (keys ++ [e]) = [length keys].
Proof.
  unfold revoke_matches. intros Hn Hs. rewrite imap_app, filter_app, fmap_app. unfold str in *. rewrite Hn.
  cbn [imap imap_app app]. rewrite filter_cons_True by (by right). cbn. by rewrite Nat.add_0_r.
Qed.

(** ** The promises *)

(** C20. Tenants cannot reach each other's cache: two keys of a valid ring whose
    namespaces collide, whatever salts their clients send, belong to the same
    tenant and sent the same salt, and a namespace is metered to its tenant. *)
Theorem tenant_isolation (text : str) (r : Keyring) (k1 k2 : str) (c1 c2 : TenantCtx) (s1 s2 : str) :
  from_toml text = Ok r -> ring_lookup r k1 = inl c1 -> ring_lookup r k2 = inl c2 ->
  meter_key (scope_namespace (c_tenant c1) s1) = lit "t:" ++ c_tenant c1 /\
  (scope_namespace (c_tenant c1) s1 = scope_namespace (c_tenant c2) s2 -> c_tenant c1 = c_tenant c2 /\ s1 = s2).
Proof.
  intros Hr%from_toml_ok H1 H2. pose proof (ring_lookup_ok _ _ _ Hr H1) as Ht1. pose proof (ring_lookup_ok _ _ _ Hr H2) as Ht2.
  split; [by apply meter_scope|]. intros Heq.
  assert (Ht : c_tenant c1 = c_tenant c2).
  { apply (app_inv_head (lit "t:")). rewrite <-(meter_scope _ s1 Ht1), <-(meter_scope _ s2 Ht2). by f_equal. }
  split; [done|]. rewrite Ht in Heq. unfold scope_namespace in Heq. by simplify_list_eq.
Qed.

(** C19. A configured server never opens.  After any reloads, of any files, a
    request is let in only with the single key, or with a key that is enabled in
    a ring the store has seen whole: the first one, or one a file parsed to. *)
Theorem auth_fails_closed (ks : KeyStore) (views : list View) (single bearer : option str) (v v' : View)
    (ks' : option KeyStore) (ctx : TenantCtx) :
  let ks1 := with_state ks (foldl (fun st v => reload_locked (poll ks) v st) (state ks) views) in
  authenticate_with (Some ks1) single bearer v v' = (ks', inl ctx) ->
  exists candidate, bearer = Some candidate /\
    ((single = Some candidate /\ ctx = default_tenant) \/
     exists r e, seen_ring (ring (state ks)) (views ++ [v']) r /\ r !! sha256_hex candidate = Some e /\
       enabled e = true /\ c_tenant ctx = tenant e /\ c_rate_limit ctx = rate_limit e).
Proof.
  intros ks1. unfold authenticate_with. destruct bearer as [candidate|]; [|by destruct single].
  unfold store_lookup. intros H. exists candidate. split; [done|].
  assert (Hseen : seen_ring (ring (state ks)) (views ++ [v']) (ring (state (maybe_reload ks1 v v')))).
  { pose proof (reload_all_seen (poll ks) views (state ks)) as H1.
    pose proof (reload_all_seen (poll ks) (views ++ [v']) (state ks)) as H2. rewrite foldl_app in H2. cbn [foldl] in H2.
    assert (Hold : seen_ring (ring (state ks)) (views ++ [v']) (ring (state ks1))).
    { by apply seen_ring_snoc. }
    unfold maybe_reload. destruct (source ks1); [|done]. destruct (negb _); [done|]. exact H2. }
  set (r := ring (state (maybe_reload ks1 v v'))) in *.
  destruct single as [k|]; cbv zeta beta iota in H; injection H as _ H;
    (destruct (ring_lookup r candidate) as [c|[]] eqn:E; [right|left|done]).
  1,3: injection H as ->; exists r; unfold ring_lookup in E; destruct (r !! sha256_hex candidate) as [e|]; [|done];
    exists e; destruct (enabled e) eqn:He; [|done]; injection E as <-; done.
  - destruct (bool_decide_reflect (Some k = Some candidate)) as [[= ->]|]; [|done]. by injection H as <-.
  - done.
Qed.

(** A generated key works and a revoked one stops, without touching the
    others: once the keys file holds the new entry, every due lookup answers with
    the key's tenant, lane class and limit, and the other keys answer as before;
    once the file is the one revoking it by its plaintext writes, it is refused as
    disabled.  What the TOML library must do is print and read back these files. *)
Theorem key_lifecycle (file : option str) (t : str) (l : LaneClass) (limit : option Z) (bytes : list Z) (created : Z)
    (text key out : str) (old : list KeyEntry) :
  let secret := bytes ≫= hex2 in
  let e := gen_entry t secret (sha256_hex key) l created limit in
  (text0 ← file; toml_keys text0) = match file with Some _ => Some old | None => None end -> (file = None -> old = []) ->
  gen_key file t l limit (Some bytes) created true = (Some text, Ok key) ->
  toml_keys text = Some (old ++ [e]) ->
  toml_string (old ++ [with_enabled e false]) = Some out -> toml_keys out = Some (old ++ [with_enabled e false]) ->
  (forall e', e' ∈ old -> to_lowercase (sha256 e') <> sha256_hex key) -> revoke_matches key old = [] ->
  exists r, from_entries old = Ok r /\
    (forall ks v, source ks = File -> due (poll ks) v (state ks) = true -> v_mtime v <> mtime (state ks) -> v_text v = Some text ->
       (store_lookup ks key v v).2 = inl (mkCtx t l limit) /\
       forall key', sha256_hex key' <> sha256_hex key -> (store_lookup ks key' v v).2 = ring_lookup r key') /\
    revoke_key (Some text) key true = (Some out, Ok (prefix e)) /\
    (forall ks v, source ks = File -> due (poll ks) v (state ks) = true -> v_mtime v <> mtime (state ks) -> v_text v = Some out ->
       (store_lookup ks key v v).2 = inr DDisabled /\
       forall key', sha256_hex key' <> sha256_hex key -> (store_lookup ks key' v v).2 = ring_lookup r key').
Proof.
  intros secret e Hold Hnone Hgen Htext Hout Hback Hfresh Hmatch.
  apply gen_key_ok in Hgen as (bytes' & [= <-] & Ht & Hl & Hkey & Hfile & _). fold secret in Hkey.
  assert (Hr : exists r, from_entries old = Ok r).
  { destruct file as [text0|]; [|rewrite Hnone by done; by exists ∅]. cbn in Hold.
    destruct (Hfile text0 eq_refl) as (keys & r & Hk & Hr). rewrite Hold in Hk. injection Hk as <-. by exists r. }
  destruct Hr as [r Hr]. exists r. split; [done|].
  assert (Hnew : r !! sha256_hex key = None).
  { destruct (r !! sha256_hex key) as [e'|] eqn:E; [|done]. exfalso.
    destruct (insert_entries_lookup _ _ _ _ _ _ Hr E) as [Hm|(e0 & Hin & _ & Heq)]; [by rewrite lookup_empty in Hm|].
    by apply (Hfresh e0 Hin). }
  assert (Hring : forall b txt, toml_keys txt = Some (old ++ [with_enabled e b]) ->
    from_toml txt = Ok (<[sha256_hex key := with_enabled e b]> r)).
  { intros b txt Htxt. unfold from_toml. rewrite Htxt. cbn [ok_or mbind outcome_bind]. unfold from_entries.
    rewrite insert_entries_app. unfold from_entries in Hr. rewrite Hr. cbn [mbind outcome_bind].
    by apply (gen_entry_insert _ t secret key l created limit r b). }
  assert (Hlook : forall b txt, toml_keys txt = Some (old ++ [with_enabled e b]) -> forall ks v, source ks = File ->
    due (poll ks) v (state ks) = true -> v_mtime v <> mtime (state ks) -> v_text v = Some txt ->
    (store_lookup ks key v v).2 = (if b then inl (mkCtx t l limit) else inr DDisabled) /\
    forall key', sha256_hex key' <> sha256_hex key -> (store_lookup ks key' v v).2 = ring_lookup r key').
  { intros b txt Htxt ks v Hs Hd Hm Hv. pose proof (Hring b txt Htxt) as Hp. split.
    - rewrite (store_lookup_fresh ks key v txt _ Hs Hd Hm Hv Hp). cbn [snd]. unfold ring_lookup. rewrite lookup_insert_eq.
      destruct b; [|done]. cbn. by rewrite lane_class_parse_str.
    - intros key' Hne. rewrite (store_lookup_fresh ks key' v txt _ Hs Hd Hm Hv Hp). cbn [snd].
      by apply ring_lookup_insert_other. }
  split; [by apply (Hlook true)|]. split; [|by apply (Hlook false)].
  unfold revoke_key. cbn [ok_or mbind outcome_bind]. rewrite Htext. cbn [ok_or].
  rewrite revoke_matches_last by done. rewrite list_lookup_middle by done. cbn [enabled e gen_entry negb].
  rewrite insert_app_r_alt, Nat.sub_diag by lia. cbn [list_insert insert]. by rewrite Hout.
Qed.
End Spec.

(** ** A toy environment: one generated key, then revoked *)

Module ToyAuth.
Definition toy_digest (l : list Z) : list Z := take 32 (((fun b => b mod 256) <$> l) ++ replicate 32 0).
Definition bytes : list Z := replicate 24 7.
Definition secret : str := bytes ≫= hex2.
Definition key : str := gen_key_text (lit "acme") secret.
Definition sha : str := toy_digest (utf8 key) ≫= hex2.
Definition text : str := header ++ gen_fragment (gen_key_text (lit "acme") (take 12 secret)) sha (lit "acme") Batch 5 (Some 3).
Definition entry : KeyEntry := gen_entry (lit "acme") secret sha Batch 5 (Some 3).
Definition out : str := lit "revoked".
#[export] Instance env : AuthEnv := {|
  digest := toy_digest;
  toml_keys t := if str_eqb t text then Some [entry] else if str_eqb t out then Some [with_enabled entry false] else None;
  toml_string ks := if bool_decide (ks = [with_enabled entry false]) then Some out else None;
  wide_lower c := [c];
|}.
End ToyAuth.
#[export] Existing Instance ToyAuth.env.
#[export] Instance toy_laws : AuthEnvLaws ToyAuth.env.
Proof.
  split. intros l. change (digest l) with (take 32 (((fun b => b mod 256) <$> l) ++ replicate 32 0)). split.
  - rewrite length_take, length_app, length_replicate. lia.
  - apply Forall_take, Forall_app. split.
    + apply Forall_fmap, Forall_true. intros b. unfold is_byte. simpl. apply Z.mod_pos_bound. lia.
    + apply Forall_replicate. unfold is_byte. lia.
Qed.
Lemma toy_generated : gen_key None (lit "acme") Batch (Some 3) (Some ToyAuth.bytes) 5 true = (Some ToyAuth.text, Ok ToyAuth.key).
Proof. vm_compute. reflexivity. Qed.
(** The store before the key was generated, and what it sees afterwards. *)
Definition toy_store : KeyStore := mkStore File 2000 (mkState ∅ None 0).
Lemma toy_ring : from_toml ToyAuth.text = Ok {[ToyAuth.sha := ToyAuth.entry]}.
Proof. vm_compute. reflexivity. Qed.
Lemma tenant_isolation_witness :
  meter_key (scope_namespace (lit "acme") (lit "salt")) = lit "t:acme".
Proof.
  assert (H : ring_lookup {[ToyAuth.sha := ToyAuth.entry]} ToyAuth.key = inl (mkCtx (lit "acme") Batch (Some 3))) by (vm_compute; reflexivity).
  exact (proj1 (tenant_isolation ToyAuth.text _ ToyAuth.key ToyAuth.key _ _ (lit "salt") (lit "salt") toy_ring H H)).
Defined.
Lemma auth_fails_closed_witness :
  exists ks', authenticate_with (Some toy_store) None (Some ToyAuth.key) (mkView 2000 (Some 1) (Some ToyAuth.text))
      (mkView 2000 (Some 1) (Some ToyAuth.text)) = (ks', inl (mkCtx (lit "acme") Batch (Some 3))) /\
    exists candidate, Some ToyAuth.key = Some candidate.
Proof.
  eexists. assert (H : authenticate_with (Some toy_store) None (Some ToyAuth.key) (mkView 2000 (Some 1) (Some ToyAuth.text))
      (mkView 2000 (Some 1) (Some ToyAuth.text)) =
      (Some (mkStore File 2000 (mkState {[ToyAuth.sha := ToyAuth.entry]} (Some 1) 2000)), inl (mkCtx (lit "acme") Batch (Some 3))))
    by (vm_compute; reflexivity).
  split; [exact H|]. destruct (auth_fails_closed toy_store [] None _ _ _ _ _ H) as (c & Hc & _). by exists c.
Defined.
Lemma key_lifecycle_witness :
  (store_lookup toy_store ToyAuth.key (mkView 2000 (Some 1) (Some ToyAuth.out)) (mkView 2000 (Some 1) (Some ToyAuth.out))).2
    = inr DDisabled.
Proof.
  destruct (key_lifecycle None (lit "acme") Batch (Some 3) ToyAuth.bytes 5 ToyAuth.text ToyAuth.key ToyAuth.out [])
    as (r & _ & _ & _ & H);
    [vm_compute; reflexivity|done|exact toy_generated|vm_compute; reflexivity|vm_compute; reflexivity|vm_compute; reflexivity| |done|].
  - intros e He. by apply not_elem_of_nil in He.
  - by apply H.
Defined.

(** A file that is overwritten between the read and the stat of [from_spec]: the
    store keeps the old ring and takes the new time for its own, so no later
    look at the unchanged file reloads it. *)
Definition raced : outcome AuthErr KeyStore :=
  from_spec (lit "keys.toml") true (mkView 0 (Some 1) (Some ToyAuth.text)) (mkView 0 (Some 2) (Some ToyAuth.out)).
Example startup_race_misses_reload :
  (ks ← raced; Ok (store_lookup ks ToyAuth.key (mkView 9000 (Some 2) (Some ToyAuth.out)) (mkView 9000 (Some 2) (Some ToyAuth.out))).2)
    = Ok (inl (mkCtx (lit "acme") Batch (Some 3))).
Proof. vm_compute. reflexivity. Qed.
