(* ===== verification/Sampling.v ===== *)
(** The host sampler: [memra-sampling/src/lib.rs].

    Penalties, temperature, top-k, softmax, top-p, min-p and the categorical
    draw, on binary32 logits, with the SplitMix64 generator.  [sort_unstable_by]
    is any function that sorts ([SortDesc]: the order of equal elements is left
    open, and that of NaNs, whose sign is not represented), [f32::exp] a
    parameter ([F32Exp]: its last bits are the platform's).  [None] is a panic.
    [sample_support] and [sample_greedy] say which tokens can be returned. *)
From Stdlib Require Import SpecFloat.
From stdpp Require Import sorting.
From S2P Require Import Prelude F32.
Local Open Scope Z_scope.

(** ** What the code is given *)

(** A candidate: token id and logit, or probability. *)
Abbreviation cand := (Z * spec_float)%type.
(** [a] may stand before [b] in descending [total_cmp] order. *)
Definition desc (a b : cand) : Prop := float_le b.2 a.2.
Definition not_nan (c : cand) : Prop := c.2 <> S754_nan.
(** [cand.sort_unstable_by(|a, b| b.1.total_cmp(&a.1))] *)
Class SortDesc := {
  sort_desc : list cand -> list cand;
  sort_perm l : sort_desc l ≡ₚ l;
  sort_sorted l : Forall not_nan l -> StronglySorted desc (sort_desc l);
}.
Class F32Exp := f32_exp : spec_float -> spec_float.

(** ** Configuration and state *)

Record SamplerConfig := mkSamplerConfig {
  temperature : spec_float;
  top_k : nat;
  top_p : spec_float;
  min_p : spec_float;
  penalty_last_n : nat;
  penalty_repeat : spec_float;
  penalty_freq : spec_float;
  penalty_present : spec_float;
  seed : Z;
}.
(** [impl Default]: greedy. *)
Definition default_config : SamplerConfig :=
  mkSamplerConfig f32_zero 0 f32_one f32_zero 0 f32_one f32_zero f32_zero 0.

(** SplitMix64: its state is 64 bits. *)
Definition golden : Z := 0x9E3779B97F4A7C15.
Definition rng_new (seed : Z) : Z := wrap 64 (seed + golden).
Definition next_u64 (st : Z) : Z * Z :=
  let st := wrap 64 (st + golden) in
  let z := wrap 64 (Z.lxor st (Z.shiftr st 30) * 0xBF58476D1CE4E5B9) in
  let z := wrap 64 (Z.lxor z (Z.shiftr z 27) * 0x94D049BB133111EB) in
  (Z.lxor z (Z.shiftr z 31), st).
Definition next_f32 (st : Z) : spec_float * Z :=
  let '(z, st) := next_u64 st in
  (f32_div (f32_of_int (Z.shiftr z 40)) (f32_of_int (Z.shiftl 1 24)), st).

Record Sampler := mkSampler { cfg : SamplerConfig; rng : Z; history : list Z }.
Definition sampler_new (c : SamplerConfig) : Sampler := mkSampler c (rng_new (seed c)) [].
Definition f_eq (a b : spec_float) : bool := SFeqb a b.
Definition f_le (a b : spec_float) : bool := SFleb a b.
Definition is_greedy (s : Sampler) : bool := f_le (temperature (cfg s)) f32_zero.
(** [penalty_repeat == 1.0 && penalty_freq == 0.0 && penalty_present == 0.0] *)
Definition no_penalties (c : SamplerConfig) : bool :=
  f_eq (penalty_repeat c) f32_one && f_eq (penalty_freq c) f32_zero && f_eq (penalty_present c) f32_zero.
Definition is_spec_sampling (s : Sampler) : bool :=
  let c := cfg s in
  f_gt (temperature c) f32_zero && no_penalties c
  && (top_k c =? 0)%nat && f_ge (top_p c) f32_one && f_le (min_p c) f32_zero.
Definition accept (token : Z) (s : Sampler) : Sampler := mkSampler (cfg s) (rng s) (history s ++ [token]).

(** ** Stages of [sample] *)

Definition f32_neg_inf : spec_float := S754_infinity true.
(** The loop of [argmax_u32] from index [i]. *)
Fixpoint argmax_from (i : Z) (best : Z) (bv : spec_float) (logits : list spec_float) : Z :=
  match logits with
  | [] => best
  | v :: rest => if f_gt v bv then argmax_from (i + 1) (wrap 32 i) v rest else argmax_from (i + 1) best bv rest
  end.
Definition argmax_u32 (logits : list spec_float) : Z := argmax_from 0 0 f32_neg_inf logits.

(** [.enumerate().map(|(i, &l)| (i as u32, l))] *)
Fixpoint candidates_from (i : Z) (logits : list spec_float) : list cand :=
  match logits with [] => [] | l :: rest => (wrap 32 i, l) :: candidates_from (i + 1) rest end.
Definition candidates (logits : list spec_float) : list cand := candidates_from 0 logits.

(** [*counts.entry(t).or_insert(0) += 1] over the window, on [i32]. *)
Definition count_tokens (win : list Z) : gmap Z Z :=
  foldl (fun m t => <[t := to_signed 32 (default 0 (m !! t) + 1)]> m) ∅ win.
(** One penalised logit. *)
Definition penalize (c : SamplerConfig) (cnt : Z) (l : spec_float) : spec_float :=
  let l := if negb (f_eq (penalty_repeat c) f32_one) then
             if f_gt l f32_zero then f32_div l (penalty_repeat c) else f32_mul l (penalty_repeat c)
           else l in
  let l := f32_sub l (f32_mul (f32_of_int cnt) (penalty_freq c)) in
  f32_sub l (penalty_present c).
(** [&self.history[len.saturating_sub(n)..]] *)
Definition penalty_window (s : Sampler) : list Z :=
  drop (length (history s) - penalty_last_n (cfg s)) (history s).
Definition apply_penalties (s : Sampler) (l : list cand) : list cand :=
  let c := cfg s in
  if (penalty_last_n c =? 0)%nat then l
  else if no_penalties c then l
  else match penalty_window s with
       | [] => l
       | win =>
           let counts := count_tokens win in
           map (fun x => match counts !! x.1 with Some cnt => (x.1, penalize c cnt x.2) | None => x end) l
       end.

(** [for &c in &cand[1..] { if c.1 > best.1 { best = c } }] *)
Definition best_of (best : cand) (l : list cand) : cand :=
  foldl (fun best c => if f_gt c.2 best.2 then c else best) best l.

Definition apply_temperature (c : SamplerConfig) (l : list cand) : list cand :=
  if f_gt (temperature c) f32_zero && negb (f_eq (temperature c) f32_one) then
    let inv := f32_div f32_one (temperature c) in map (fun x => (x.1, f32_mul x.2 inv)) l
  else l.

Definition max_prob (m : spec_float) (l : list cand) : spec_float := foldl (fun m c => f_max m c.2) m l.
(** [iter().sum()]: from -0 (Rust's identity of float addition). *)
Definition sum_probs (l : list cand) : spec_float := foldl (fun a c => f32_add a c.2) (S754_zero true) l.

Section Stages.
Context `{SortDesc, F32Exp}.

Definition apply_top_k (c : SamplerConfig) (l : list cand) : list cand :=
  if (0 <? top_k c)%nat && (top_k c <? length l)%nat then take (top_k c) (sort_desc l) else l.

Definition softmax_inplace (l : list cand) : list cand :=
  let maxl := max_prob f32_neg_inf l in
  let l := map (fun c => (c.1, f32_exp (f32_sub c.2 maxl))) l in
  let sum := foldl (fun a c => f32_add a c.2) f32_zero l in
  let inv := if f_gt sum f32_zero then f32_div f32_one sum else f32_zero in
  map (fun c => (c.1, f32_mul c.2 inv)) l.

(** [keep] when the loop of the top-p cut ends. *)
Fixpoint nucleus (p cum : spec_float) (l : list cand) : nat :=
  match l with
  | [] => 0
  | c :: rest => let cum := f32_add cum c.2 in if f_ge cum p then 1 else S (nucleus p cum rest)
  end.
Definition apply_top_p (c : SamplerConfig) (l : list cand) : list cand :=
  if f_lt (top_p c) f32_one then
    let l := sort_desc l in take (Nat.max 1 (nucleus (top_p c) f32_zero l)) l
  else l.

Definition min_p_threshold (c : SamplerConfig) (l : list cand) : spec_float :=
  f32_mul (min_p c) (max_prob f32_zero l).
Definition apply_min_p (c : SamplerConfig) (l : list cand) : list cand :=
  if f_gt (min_p c) f32_zero then List.filter (fun x => f_ge x.2 (min_p_threshold c l)) l else l.

(** The draw: the first candidate whose running sum reaches [r], or the last. *)
Fixpoint draw (r acc : spec_float) (l : list cand) : option Z :=
  match l with
  | [] => None
  | c :: rest =>
      let acc := f32_add acc c.2 in
      if f_ge acc r then Some c.1 else match rest with [] => Some c.1 | _ => draw r acc rest end
  end.

(** Logits after penalties and temperature, probabilities after softmax and top-p. *)
Definition scores (s : Sampler) (logits : list spec_float) : list cand :=
  apply_temperature (cfg s) (apply_penalties s (candidates logits)).
Definition probabilities (s : Sampler) (logits : list spec_float) : list cand :=
  softmax_inplace (apply_top_k (cfg s) (scores s logits)).

Definition sample (s : Sampler) (logits : list spec_float) : option (Z * Sampler) :=
  if is_greedy s && no_penalties (cfg s) then Some (argmax_u32 logits, s)
  else
    let l := apply_penalties s (candidates logits) in
    if is_greedy s then
      match l with [] => None | c :: rest => Some ((best_of c rest).1, s) end
    else
      let l := apply_top_p (cfg s) (probabilities s logits) in
      let l' := apply_min_p (cfg s) l in
      if f_gt (min_p (cfg s)) f32_zero && match l' with [] => true | _ => false end
      then Some (argmax_u32 logits, s)
      else
        let sum := sum_probs l' in
        let '(u, st) := next_f32 (rng s) in
        id ← draw (f32_mul u sum) f32_zero l';
        Some (id, mkSampler (cfg s) st (history s)).
End Stages.

(** ** Identities of candidates through the stages *)
Section Ids.
Context `{SortDesc, F32Exp}.
Implicit Types (l : list cand) (s : Sampler) (logits : list spec_float).

Lemma candidates_from_lookup i logits (j : nat) :
  0 <= i -> i + Z.of_nat (length logits) <= 2 ^ 32 ->
  candidates_from i logits !! j = (fun v => (i + Z.of_nat j, v)) <$> logits !! j.
Proof.
  revert i j. induction logits as [|v logits IH]; intros i j Hi Hl; [done|]. cbn [candidates_from length] in *.
  destruct j as [|j]; cbn.
  - rewrite wrap_small by (unfold in_u; lia). do 2 f_equal. lia.
  - rewrite IH by lia. destruct (logits !! j); [|done]. cbn. do 2 f_equal. lia.
Qed.
Lemma candidates_ids logits : Z.of_nat (length logits) <= 2 ^ 32 ->
  fst <$> candidates logits = seqZ 0 (Z.of_nat (length logits)).
Proof.
  intros Hl. apply list_eq. intros j. rewrite list_lookup_fmap. unfold candidates.
  rewrite candidates_from_lookup by lia. destruct (decide (j < length logits)%nat) as [Hj|Hj].
  - destruct (lookup_lt_is_Some_2 _ _ Hj) as [v ->]. cbn. symmetry. apply lookup_seqZ. lia.
  - rewrite (lookup_ge_None_2 logits) by lia. cbn. symmetry. apply lookup_seqZ_ge. lia.
Qed.

Lemma map_ids (f : cand -> spec_float) l : fst <$> map (fun x => (x.1, f x)) l = fst <$> l.
Proof. induction l as [|x l IH]; [done|]. cbn. by rewrite <- IH. Qed.
Lemma penalties_ids s l : fst <$> apply_penalties s l = fst <$> l.
Proof.
  unfold apply_penalties. destruct (_ =? 0)%nat, (no_penalties (cfg s)), (penalty_window s) as [|t w]; try done.
  generalize (count_tokens (t :: w)) as m. intros m. induction l as [|x l IH]; [done|]. cbn. rewrite <- IH.
  by destruct (m !! x.1).
Qed.
Lemma temperature_ids c l : fst <$> apply_temperature c l = fst <$> l.
Proof. unfold apply_temperature. destruct (_ && _); [|done]. apply map_ids. Qed.
Lemma scores_ids s logits : fst <$> scores s logits = fst <$> candidates logits.
Proof. unfold scores. by rewrite temperature_ids, penalties_ids. Qed.
Lemma softmax_ids l : fst <$> softmax_inplace l = fst <$> l.
Proof. unfold softmax_inplace. by rewrite !map_ids. Qed.

Lemma min_p_sub c l x : x ∈ apply_min_p c l -> x ∈ l.
Proof.
  unfold apply_min_p. destruct (f_gt _ _); [|done]. rewrite !list_elem_of_In. intros Hx. by apply filter_In in Hx as [Hx _].
Qed.
Lemma elem_of_take {A} n (l : list A) x : x ∈ take n l -> x ∈ l.
Proof. rewrite <- (take_drop n l) at 2. set_solver. Qed.
Lemma top_p_sub c l x : x ∈ apply_top_p c l -> x ∈ l.
Proof.
  unfold apply_top_p. destruct (f_lt _ _); [|done]. intros Hx. apply elem_of_take in Hx. by rewrite (sort_perm l) in Hx.
Qed.
Lemma top_k_sub c l x : x ∈ apply_top_k c l -> x ∈ l.
Proof.
  unfold apply_top_k. destruct (_ && _); [|done]. intros Hx. apply elem_of_take in Hx. by rewrite (sort_perm l) in Hx.
Qed.
Lemma top_p_nil c l : apply_top_p c l = [] -> l = [].
Proof.
  unfold apply_top_p. destruct (f_lt _ _); [|done]. intros Hx. apply Permutation_nil.
  rewrite <- (sort_perm l). revert Hx. destruct (sort_desc l) as [|x r]; [done|].
  by destruct (nucleus _ _ _).
Qed.
Lemma top_k_nil c l : apply_top_k c l = [] -> l = [].
Proof.
  unfold apply_top_k. destruct (0 <? top_k c)%nat eqn:E; [|done]. cbn [andb]. destruct (top_k c <? length l)%nat; [|done].
  intros Hx. apply Permutation_nil. rewrite <- (sort_perm l). apply Nat.ltb_lt in E.
  destruct (top_k c); [lia|]. by destruct (sort_desc l).
Qed.
End Ids.

(** ** The cuts *)
Section Cuts.
Context `{SortDesc, F32Exp}.
Implicit Types (l : list cand) (s : Sampler) (logits : list spec_float).

(** How many candidates rank strictly above value [v]. *)
Definition above (v : spec_float) (l : list cand) : nat := length (List.filter (fun c => f_gt c.2 v) l).

Lemma filter_perm {A} (f : A -> bool) (l l' : list A) : l ≡ₚ l' -> length (List.filter f l) = length (List.filter f l').
Proof. induction 1; cbn; repeat case_match; cbn; congruence. Qed.
Lemma filter_le {A} (f : A -> bool) (l : list A) : (length (List.filter f l) <= length l)%nat.
Proof. induction l as [|x l IH]; cbn; [done|]. destruct (f x); cbn; lia. Qed.
(** In a sorted list only what stands before an element can rank above it. *)
Lemma above_sorted a x b : StronglySorted desc (a ++ x :: b) -> (above x.2 (a ++ x :: b) <= length a)%nat.
Proof.
  unfold above. induction a as [|y a IH]; cbn; intros Hs; apply StronglySorted_inv in Hs as [Hs Hf].
  - unfold f_gt at 1. rewrite SFltb_irrefl. clear Hs.
    induction Hf as [|y b Hy _ IH]; [done|]. cbn. unfold f_gt at 1. by rewrite float_le_not_lt.
  - specialize (IH Hs). destruct (f_gt y.2 x.2); cbn; lia.
Qed.
Lemma top_k_above c l x : Forall not_nan l -> (0 < top_k c)%nat -> x ∈ apply_top_k c l -> (above x.2 l < top_k c)%nat.
Proof.
  intros Hn Hk Hx. unfold apply_top_k in Hx. rewrite (proj2 (Nat.ltb_lt _ _) Hk) in Hx. cbn [andb] in Hx.
  destruct (Nat.ltb_spec (top_k c) (length l)) as [Hl|Hl].
  - apply list_elem_of_lookup_1 in Hx as [j Hj]. apply lookup_take_Some in Hj as [Hj Hlt].
    pose proof (above_sorted (take j (sort_desc l)) x (drop (S j) (sort_desc l))) as Ha.
    rewrite take_drop_middle in Ha by done. specialize (Ha (sort_sorted _ Hn)). rewrite length_take in Ha.
    unfold above in *. rewrite (filter_perm _ _ _ (sort_perm l)) in Ha. lia.
  - apply list_elem_of_split in Hx as (a & b & ->). unfold above. rewrite List.filter_app, length_app in *. cbn in *.
    unfold f_gt at 2. rewrite SFltb_irrefl. pose proof (filter_le (fun c0 => f_gt c0.2 x.2) a).
    pose proof (filter_le (fun c0 => f_gt c0.2 x.2) b). lia.
Qed.

(** The running sum of a list, as the loops compute it. *)
Definition mass (l : list cand) : spec_float := foldl (fun a c => f32_add a c.2) f32_zero l.
(** No non-empty prefix of [l] has a running sum of at least [p]. *)
Definition stays_below (p : spec_float) (l : list cand) : Prop :=
  forall a b, l = a ++ b -> a <> [] -> f_ge (mass a) p = false.

Lemma nucleus_spec p cum l j : (j < nucleus p cum l)%nat ->
  forall a b, take j l = a ++ b -> a <> [] -> f_ge (foldl (fun a c => f32_add a c.2) cum a) p = false.
Proof.
  revert cum j. induction l as [|c l IH]; intros cum j Hj a b Hab Ha; cbn [nucleus] in Hj; [lia|].
  destruct j as [|j]; [by destruct a|]. destruct a as [|y a]; [done|]. cbn in Hab. injection Hab as <- Hab. cbn.
  destruct (f_ge (f32_add cum c.2) p) eqn:E in Hj; [lia|].
  destruct a as [|z a]; [done|]. apply (IH (f32_add cum c.2) j ltac:(lia) (z :: a) b); done.
Qed.
(** The loop stops where the running sum reaches [p], or at the end. *)
Lemma nucleus_reaches p cum l :
  f_ge (foldl (fun a c => f32_add a c.2) cum (take (nucleus p cum l) l)) p = true \/ nucleus p cum l = length l.
Proof.
  revert cum. induction l as [|c l IH]; intros cum; cbn [nucleus]; [by right|]. destruct (f_ge (f32_add cum c.2) p) eqn:E.
  - left. cbn [take foldl]. by rewrite take_0.
  - cbn [take foldl length]. destruct (IH (f32_add cum c.2)) as [Hr| ->]; [by left|by right].
Qed.
(** A candidate the top-p cut keeps comes before the running sum reaches [top_p]. *)
Lemma top_p_prefix c l x : f_lt (top_p c) f32_one = true -> x ∈ apply_top_p c l ->
  exists a b, sort_desc l = a ++ x :: b /\ stays_below (top_p c) a.
Proof.
  intros Hp Hx. unfold apply_top_p in Hx. rewrite Hp in Hx.
  apply list_elem_of_lookup_1 in Hx as [j Hj]. apply lookup_take_Some in Hj as [Hj Hlt].
  exists (take j (sort_desc l)), (drop (S j) (sort_desc l)). split; [by rewrite take_drop_middle|].
  intros a b Hab Ha. destruct (decide (j = 0)%nat) as [->|]; [by destruct a|].
  refine (nucleus_spec (top_p c) f32_zero (sort_desc l) j _ a b Hab Ha). lia.
Qed.
Lemma min_p_keeps c l x : f_gt (min_p c) f32_zero = true -> x ∈ apply_min_p c l -> f_ge x.2 (min_p_threshold c l) = true.
Proof.
  intros Hp Hx. unfold apply_min_p in Hx. rewrite Hp in Hx. apply list_elem_of_In, filter_In in Hx. by destruct Hx.
Qed.

(** [id] is the first of [l] at which the running sum reaches [r], or the last. *)
Definition drawn (r : spec_float) (l : list cand) (id : Z) : Prop :=
  exists a p b, l = a ++ (id, p) :: b /\ stays_below r a /\ (f_ge (mass (a ++ [(id, p)])) r = true \/ b = []).
Lemma draw_spec r acc l : l <> [] -> exists id a p b, draw r acc l = Some id /\ l = a ++ (id, p) :: b
  /\ (forall a1 a2, a = a1 ++ a2 -> a1 <> [] -> f_ge (foldl (fun a c => f32_add a c.2) acc a1) r = false)
  /\ (f_ge (foldl (fun a c => f32_add a c.2) acc (a ++ [(id, p)])) r = true \/ b = []).
Proof.
  revert acc. induction l as [|[id p] l IH]; intros acc Hl; [done|]. cbn [draw].
  destruct (f_ge (f32_add acc (id, p).2) r) eqn:E.
  - exists id, [], p, l. split; [done|]. split; [done|]. split; [by intros [|] ? [=]|]. by left.
  - destruct l as [|y l].
    + exists id, [], p, []. split; [done|]. split; [done|]. split; [by intros [|] ? [=]|]. by right.
    + destruct (IH (f32_add acc p) ltac:(done)) as (id' & a & p' & b & Hd & Heq & Hb & Hr).
      exists id', ((id, p) :: a), p', b. split; [done|]. split; [by rewrite Heq|]. split; [|done].
      intros [|z a1] a2 Ha Hne; [done|]. injection Ha as <- Ha. cbn.
      destruct a1 as [|w a1]; [done|]. by apply (Hb (w :: a1) a2).
Qed.
End Cuts.

(** ** The generator *)

Lemma lxor_bound n a b : 0 <= n -> 0 <= a < 2 ^ n -> 0 <= b < 2 ^ n -> 0 <= Z.lxor a b < 2 ^ n.
Proof.
  intros Hn Ha Hb. split; [apply Z.lxor_nonneg; lia|].
  destruct (Z.eq_dec (Z.lxor a b) 0) as [->|Hz]; [lia|]. apply Z.log2_lt_pow2; [pose proof (proj2 (Z.lxor_nonneg a b) ltac:(lia)); lia|].
  pose proof (Z.log2_lxor a b ltac:(lia) ltac:(lia)). destruct (Z.eq_dec n 0) as [->|]; [assert (a = 0) by lia; assert (b = 0) by lia; by subst|].
  assert (forall x, 0 <= x < 2 ^ n -> Z.log2 x < n) as Hlog; [|pose proof (Hlog a Ha); pose proof (Hlog b Hb); lia].
  intros x Hx. destruct (Z.eq_dec x 0) as [->|]; [simpl; lia|]. apply Z.log2_lt_pow2; lia.
Qed.
Lemma shiftr_bound n k a : 0 <= k -> 0 <= a < 2 ^ n -> 0 <= Z.shiftr a k < 2 ^ n.
Proof.
  intros Hk Ha. rewrite Z.shiftr_div_pow2 by done. split; [apply Z.div_pos; lia|].
  assert (Hp : 0 < 2 ^ k) by lia. pose proof (Z.div_le_upper_bound a (2 ^ k) a Hp). nia.
Qed.
(** A draw is one of the 2^24 multiples of 2^-24 in [0, 1). *)
Lemma next_f32_grid st : exists k, 0 <= k < 2 ^ 24 /\ (next_f32 st).1 = f32_div (f32_of_int k) (f32_of_int (2 ^ 24)).
Proof.
  unfold next_f32. destruct (next_u64 st) as [z st'] eqn:E. exists (Z.shiftr z 40). split; [|done].
  assert (Hz : 0 <= z < 2 ^ 64).
  { injection E as <- _. apply lxor_bound; [lia|apply wrap_in_u; lia|].
    apply shiftr_bound; [lia|apply wrap_in_u; lia]. }
  rewrite Z.shiftr_div_pow2 by lia. split; [apply Z.div_pos; lia|]. apply Z.div_lt_upper_bound; lia.
Qed.

(** ** What can be sampled *)
Section Sampled.
Context `{SortDesc, F32Exp}.
Implicit Types (s : Sampler) (logits : list spec_float).

(** The candidates the draw of [sample] runs over. *)
Definition survivors s logits : list cand :=
  apply_min_p (cfg s) (apply_top_p (cfg s) (probabilities s logits)).

(** A candidate that passed every cut the configuration asks for. *)
Record admissible s logits (id : Z) (p : spec_float) : Prop := {
  (** fewer than [top_k] tokens score higher *)
  adm_top_k : Forall not_nan (scores s logits) -> (0 < top_k (cfg s))%nat ->
    exists sc, (id, sc) ∈ scores s logits /\ (above sc (scores s logits) < top_k (cfg s))%nat;
  (** by descending probability, it comes before [top_p] is reached *)
  adm_top_p : f_lt (top_p (cfg s)) f32_one = true ->
    exists a b, sort_desc (probabilities s logits) = a ++ (id, p) :: b /\ stays_below (top_p (cfg s)) a;
  (** its probability is at least [min_p] times the highest *)
  adm_min_p : f_gt (min_p (cfg s)) f32_zero = true ->
    f_ge p (min_p_threshold (cfg s) (apply_top_p (cfg s) (probabilities s logits))) = true;
}.

(** Each list the next, cut by the configuration, from the scores of all tokens: [K] the
    top-k, [P] their probabilities, [N] the nucleus, [S] what min-p leaves of it. *)
Record cuts s logits (K P N S : list cand) : Prop := {
  (** the [top_k] best, when that is fewer than all *)
  cut_top_k : if (0 <? top_k (cfg s))%nat && (top_k (cfg s) <? length (scores s logits))%nat
    then length K = top_k (cfg s) /\ exists rest, K ++ rest ≡ₚ scores s logits /\
      (Forall not_nan (scores s logits) -> StronglySorted desc (K ++ rest))
    else K = scores s logits;
  cut_softmax : P = softmax_inplace K;
  (** the shortest prefix, by descending probability, whose sum reaches [top_p] *)
  cut_top_p : if f_lt (top_p (cfg s)) f32_one
    then N <> [] /\ exists rest, N ++ rest ≡ₚ P /\ (Forall not_nan P -> StronglySorted desc (N ++ rest)) /\
      (forall a b, N = a ++ b -> a <> [] -> b <> [] -> f_ge (mass a) (top_p (cfg s)) = false) /\
      (f_ge (mass N) (top_p (cfg s)) = true \/ rest = [])
    else N = P;
  (** in order, those with [min_p] times the highest probability of the nucleus *)
  cut_min_p : S = if f_gt (min_p (cfg s)) f32_zero
    then List.filter (fun x => f_ge x.2 (f32_mul (min_p (cfg s)) (max_prob f32_zero N))) N else N;
}.
Lemma sort_length l : length (sort_desc l) = length l.
Proof. by rewrite (Permutation_length (sort_perm l)). Qed.
Lemma scores_nil s logits : scores s logits = [] -> logits = [].
Proof.
  intros Hs. pose proof (scores_ids s logits) as Hi. rewrite Hs in Hi. by destruct logits.
Qed.
Lemma probabilities_nil s logits : probabilities s logits = [] -> logits = [].
Proof.
  intros Hp. apply (scores_nil s), (top_k_nil (cfg s)). pose proof (softmax_ids (apply_top_k (cfg s) (scores s logits))) as Hi.
  unfold probabilities in Hp. rewrite Hp in Hi. by destruct (apply_top_k (cfg s) (scores s logits)).
Qed.
Lemma ids_elem (l : list cand) id p : (id, p) ∈ l -> id ∈ fst <$> l.
Proof. intros Hx. apply list_elem_of_fmap. by exists (id, p). Qed.
Lemma elem_ids (l : list cand) id : id ∈ fst <$> l -> exists p, (id, p) ∈ l.
Proof. intros Hx. apply list_elem_of_fmap in Hx as ([i p] & -> & Hx). by exists p. Qed.

Lemma survivors_cuts s logits : logits <> [] ->
  cuts s logits (apply_top_k (cfg s) (scores s logits)) (probabilities s logits) (apply_top_p (cfg s) (probabilities s logits)) (survivors s logits).
Proof.
  intros Hne. split; [|done| |done].
  - unfold apply_top_k. set (k := top_k (cfg s)). set (l := scores s logits). destruct ((0 <? k)%nat && (k <? length l)%nat) eqn:E; [|done].
    apply andb_true_iff in E as [_ E%Nat.ltb_lt]. split; [rewrite length_take, sort_length; lia|]. exists (drop k (sort_desc l)). rewrite take_drop.
    split; [apply sort_perm|apply sort_sorted].
  - unfold apply_top_p. destruct (f_lt (top_p (cfg s)) f32_one); [|done]. set (l := probabilities s logits). set (n := Nat.max 1 _).
    assert (Hl : sort_desc l <> []). { intros Hx. apply (f_equal length) in Hx. rewrite sort_length in Hx. by destruct l eqn:El; [apply probabilities_nil in El|]. }
    assert (Hn : n = nucleus (top_p (cfg s)) f32_zero (sort_desc l)). { subst n. destruct (sort_desc l) as [|c r]; [done|]. cbn [nucleus]. destruct (f_ge _ _); lia. } clearbody n.
    split; [rewrite Hn; destruct (sort_desc l) as [|c r]; [done|]; cbn [nucleus]; by destruct (f_ge _ _)|]. exists (drop n (sort_desc l)). rewrite take_drop. split; [apply sort_perm|]. split; [apply sort_sorted|]. split.
    + intros a b Hab Ha Hb. assert (Hlen : (length a < n)%nat).
      { pose proof (length_take (sort_desc l) n) as Hlt. rewrite Hab, length_app in Hlt. destruct b; [done|cbn [length] in Hlt; lia]. }
      refine (nucleus_spec (top_p (cfg s)) f32_zero (sort_desc l) (length a) ltac:(by rewrite <- Hn) a [] _ Ha). rewrite app_nil_r.
      pose proof (f_equal (take (length a)) Hab) as Ht. rewrite take_take, take_app_length in Ht. by rewrite Nat.min_l in Ht by lia.
    + destruct (nucleus_reaches (top_p (cfg s)) f32_zero (sort_desc l)) as [Hx|Hx]; [left; by rewrite Hn|right]. rewrite Hn, Hx. by rewrite drop_all.
Qed.
Lemma survivor_admissible s logits id p : (id, p) ∈ survivors s logits -> admissible s logits id p /\ id ∈ fst <$> candidates logits.
Proof.
  intros Hx. pose proof (min_p_sub _ _ _ Hx) as Hp. pose proof (top_p_sub _ _ _ Hp) as Hk.
  apply ids_elem in Hk. unfold probabilities in Hk. rewrite softmax_ids in Hk. apply elem_ids in Hk as [sc Hk]. split.
  - split.
    + intros Hn Ht. exists sc. split; [by eapply top_k_sub|]. by apply (top_k_above (cfg s) _ (id, sc)).
    + intros Ht. by apply top_p_prefix.
    + intros Ht. by apply (min_p_keeps _ _ (id, p)).
  - rewrite <- (scores_ids s). eapply ids_elem, top_k_sub, Hk.
Qed.

Lemma argmax_from_bound i best bv logits n :
  0 <= i -> i + Z.of_nat (length logits) <= n -> n <= 2 ^ 32 -> 0 <= best < n -> 0 <= argmax_from i best bv logits < n.
Proof.
  revert i best bv. induction logits as [|v l IH]; intros i best bv Hi Hl Hn Hb; cbn [argmax_from length] in *; [done|].
  destruct (f_gt v bv); apply IH; try lia. rewrite wrap_small by (unfold in_u; lia). lia.
Qed.
End Sampled.

(** On a non-empty row sampling never panics and leaves history and
    configuration alone. *)
Lemma sample_total `{SortDesc, F32Exp} (s : Sampler) (logits : list spec_float) : logits <> [] ->
  exists id s', sample s logits = Some (id, s') /\ cfg s' = cfg s /\ history s' = history s.
Proof.
  intros Hne. unfold sample. destruct (is_greedy s) eqn:Hg; cbn [andb].
  - destruct (no_penalties (cfg s)); [by eexists _, _|]. destruct (apply_penalties s (candidates logits)) as [|c l] eqn:El.
    + exfalso. apply (f_equal (fun l => fst <$> l)) in El. rewrite penalties_ids in El. by destruct logits.
    + by eexists _, _.
  - fold (survivors s logits). destruct (f_gt (min_p (cfg s)) f32_zero && _) eqn:Hm; [by eexists _, _|].
    assert (Hc : survivors s logits <> []).
    { intros Hs. rewrite Hs, andb_true_r in Hm. unfold survivors, apply_min_p in Hs. rewrite Hm in Hs.
      by apply top_p_nil, probabilities_nil in Hs. }
    destruct (next_f32 (rng s)) as [u st]. destruct (draw_spec (f32_mul u (sum_probs (survivors s logits))) f32_zero _ Hc) as (id & a & p & b & -> & _).
    by eexists _, _.
Qed.

(** C26. Sampling at a positive temperature never panics on a non-empty vocabulary and
    returns one of its ids, leaving configuration and history alone.  The candidates are
    cut one stage after the other ([cuts]): exactly [top_k] best scores, the shortest
    prefix of descending probability that reaches [top_p], and of it exactly those with
    [min_p] times its highest probability.  The token returned is the first survivor of
    all the cuts at which the running sum reaches a multiple of 2^-24 below 1 of the
    total, so it lies inside every cut.  Only when min-p is on and rejects the whole
    nucleus (as it does for [min_p] above 1, which nothing refuses) is it the argmax of the raw
    logits, which need not. *)
Theorem sample_support `{SortDesc, F32Exp} (s : Sampler) (logits : list spec_float) :
  is_greedy s = false -> logits <> [] -> Z.of_nat (length logits) <= 2 ^ 32 ->
  exists id s' K P N S, sample s logits = Some (id, s') /\ 0 <= id < Z.of_nat (length logits)
    /\ cfg s' = cfg s /\ history s' = history s
    /\ cuts s logits K P N S
    /\ match S with
       | [] => f_gt (min_p (cfg s)) f32_zero = true /\ id = argmax_u32 logits /\ s' = s
       | _ => (exists p, (id, p) ∈ S /\ admissible s logits id p)
           /\ exists k, 0 <= k < 2 ^ 24 /\ drawn (f32_mul (f32_div (f32_of_int k) (f32_of_int (2 ^ 24))) (sum_probs S)) S id
       end.
Proof.
  intros Hg Hne Hlen. pose proof (survivors_cuts s logits Hne) as Hcuts. unfold sample. rewrite Hg. cbn [andb].
  fold (survivors s logits). destruct (survivors s logits) as [|c l] eqn:Hs.
  - assert (Hp : f_gt (min_p (cfg s)) f32_zero = true).
    { destruct (f_gt (min_p (cfg s)) f32_zero) eqn:E; [done|]. exfalso. unfold survivors, apply_min_p in Hs. rewrite E in Hs.
      by apply top_p_nil, probabilities_nil in Hs. }
    rewrite Hp. cbn [andb]. eexists (argmax_u32 logits), s, _, _, _, []. split; [done|]. split; [|split; [done|]; split; [done|]; split; [exact Hcuts|done]].
    apply argmax_from_bound; [lia..|]. destruct logits; [done|]. cbn [length] in *. lia.
  - rewrite andb_false_r, <- Hs in *. assert (Hc : survivors s logits <> []) by by rewrite Hs.
    destruct (next_f32_grid (rng s)) as (k & Hk & Hu). destruct (next_f32 (rng s)) as [u st]. cbn [fst] in Hu.
    set (r := f32_mul u _). destruct (draw_spec r f32_zero _ Hc) as (id & a & p & b & Hd & Heq & Hbelow & Hreach).
    rewrite Hd. cbn [mbind option_bind]. eexists id, (mkSampler (cfg s) st (history s)), _, _, _, (survivors s logits).
    destruct (survivor_admissible s logits id p) as [Ha Hid]; [rewrite Heq; set_solver|].
    rewrite candidates_ids in Hid by done. apply elem_of_seqZ in Hid. split; [done|]. split; [lia|]. split; [done|]. split; [done|].
    split; [exact Hcuts|]. 
    enough (HG : (exists p, (id, p) ∈ survivors s logits /\ admissible s logits id p) /\ exists k, 0 <= k < 2 ^ 24 /\
      drawn (f32_mul (f32_div (f32_of_int k) (f32_of_int (2 ^ 24))) (sum_probs (survivors s logits))) (survivors s logits) id) by (rewrite Hs in HG |- *; exact HG).
    split; [exists p; split; [rewrite Heq; set_solver|done]|]. exists k. split; [done|]. subst r. rewrite <- Hu.
    by exists a, p, b.
Qed.

(** ** Penalties and the greedy choice *)

(** How often token [t] is in the window. *)
Definition occurrences (win : list Z) (t : Z) : Z := Z.of_nat (length (List.filter (Z.eqb t) win)).
Lemma count_tokens_spec win t : Z.of_nat (length win) < 2 ^ 31 ->
  count_tokens win !! t = if occurrences win t =? 0 then None else Some (occurrences win t).
Proof.
  unfold count_tokens, occurrences. induction win as [|x win IH] using rev_ind; intros Hl; [done|].
  rewrite foldl_app, List.filter_app, !length_app in *. cbn [foldl length List.filter] in *.
  specialize (IH ltac:(lia)). pose proof (filter_le (Z.eqb t) win) as Hle.
  destruct (Z.eqb_spec t x) as [->|Hne].
  - rewrite lookup_insert_eq, IH. cbn [length].
    rewrite (proj2 (Z.eqb_neq (Z.of_nat (length (List.filter (Z.eqb x) win) + 1)) 0)) by lia.
    generalize dependent (length (List.filter (Z.eqb x) win)). intros n IH Hle. f_equal. unfold to_signed.
    destruct (Z.eqb_spec (Z.of_nat n) 0) as [E|E]; cbn [default].
    + by replace n with 0%nat by lia.
    + unfold id. rewrite Z.mod_small by lia. destruct (Z.ltb_spec (Z.of_nat n + 1) (2 ^ (32 - 1))); lia.
  - rewrite lookup_insert_ne by done. cbn [length]. by rewrite Nat.add_0_r.
Qed.
(** The logit [sample] sees for token [i]. *)
Definition penalized (s : Sampler) (i : Z) (l : spec_float) : spec_float :=
  let n := occurrences (penalty_window s) i in
  if negb (no_penalties (cfg s)) && negb (n =? 0) then penalize (cfg s) n l else l.
Lemma apply_penalties_spec s l : Z.of_nat (length (penalty_window s)) < 2 ^ 31 ->
  apply_penalties s l = map (fun x => (x.1, penalized s x.1 x.2)) l.
Proof.
  intros Hl. assert (Hid : forall f : Z -> spec_float -> spec_float, (forall x, f x.1 x.2 = x.2) -> map (fun x : cand => (x.1, f x.1 x.2)) l = l).
  { intros f Hf. rewrite <- (map_id l) at 2. apply map_ext. intros [i v]. by rewrite (Hf (i, v)). }
  unfold apply_penalties. destruct (Nat.eqb_spec (penalty_last_n (cfg s)) 0) as [Hn|_].
  { symmetry. apply Hid. intros x. unfold penalized, penalty_window. rewrite Hn, Nat.sub_0_r, drop_all.
    by rewrite andb_false_r. }
  destruct (no_penalties (cfg s)) eqn:Hp; [symmetry; apply Hid; intros x; unfold penalized; by rewrite Hp|].
  destruct (penalty_window s) as [|t w] eqn:Hw.
  { symmetry. apply Hid. intros x. unfold penalized. rewrite Hw. by rewrite andb_false_r. }
  apply map_ext. intros [i v]. cbn [fst snd]. rewrite count_tokens_spec by done. unfold penalized. rewrite Hp, Hw. cbn [negb andb].
  by destruct (occurrences (t :: w) i =? 0).
Qed.

(** The first of the greatest. *)
Lemma best_of_cons b c l : best_of b (c :: l) = best_of (if SFltb b.2 c.2 then c else b) l.
Proof. done. Qed.
Lemma best_of_spec b l : Forall not_nan (b :: l) -> exists pre post, b :: l = pre ++ best_of b l :: post
  /\ Forall (fun c => SFltb c.2 (best_of b l).2 = true) pre /\ Forall (fun c => SFltb (best_of b l).2 c.2 = false) post.
Proof.
  revert b. induction l as [|c l IH]; intros b Hn; [by exists [], []|]. rewrite best_of_cons.
  inversion_clear Hn as [|? ? Hb Hn']. inversion Hn' as [|? ? Hc Hl]; subst. destruct (SFltb b.2 c.2) eqn:E.
  - destruct (IH c Hn') as (pre & post & Heq & Hpre & Hpost). set (r := best_of c l) in *. clearbody r. exists (b :: pre), post.
    split; [by rewrite Heq|]. split; [|done]. constructor; [|done].
    destruct pre as [|y pre]; injection Heq as Hy _; [by rewrite <- Hy|]. inversion Hpre as [|? ? Hlt _]; subst.
    by eapply SFltb_trans.
  - destruct (IH b) as (pre & post & Heq & Hpre & Hpost); [by constructor|]. set (r := best_of b l) in *. clearbody r.
    destruct pre as [|y pre]; injection Heq as Hy Heq.
    + subst r post. exists [], (c :: l). split; [done|]. split; [done|]. by constructor.
    + exists (b :: c :: pre), post. subst y. split; [by rewrite Heq|]. split; [|done].
      inversion Hpre as [|? ? Hlt Hpre']; subst. constructor; [done|]. constructor; [|done].
      destruct (SFltb c.2 r.2) eqn:E2; [done|]. exfalso.
      pose proof (SFltb_nan_l _ _ Hlt) as [_ Hr]. apply SFltb_total in E2; [|done..].
      pose proof (SFltb_leb_trans _ _ _ Hlt E2). congruence.
Qed.
Lemma argmax_best i best bv logits : argmax_from i best bv logits = (best_of (best, bv) (candidates_from i logits)).1.
Proof.
  revert i best bv. induction logits as [|v l IH]; intros i best bv; [done|]. cbn [argmax_from candidates_from best_of foldl snd].
  by destruct (f_gt v bv); rewrite IH.
Qed.
Lemma argmax_candidates v logits : v <> S754_nan ->
  argmax_u32 (v :: logits) = (best_of (0, v) (candidates_from 1 logits)).1.
Proof.
  intros Hv. unfold argmax_u32. cbn [argmax_from]. change (0 + 1) with 1. change (wrap 32 0) with 0.
  rewrite !argmax_best. by destruct v as [[]|[]| |[] m e].
Qed.

(** Greedy sampling returns the first token of the highest penalised logit:
    the raw logit, divided (or, if not positive, multiplied) by the repetition
    penalty and lowered by the frequency and presence penalties when the token
    occurs in the last [penalty_last_n] accepted tokens.  The state is untouched
    (no random number is drawn). *)
Theorem sample_greedy `{SortDesc, F32Exp} (s : Sampler) (logits : list spec_float)
  (final := imap (fun i l => penalized s (Z.of_nat i) l) logits) :
  is_greedy s = true -> logits <> [] -> Z.of_nat (length logits) <= 2 ^ 32 ->
  Z.of_nat (length (penalty_window s)) < 2 ^ 31 -> Forall (fun v => v <> S754_nan) final ->
  exists (i : nat) v, sample s logits = Some (Z.of_nat i, s) /\ final !! i = Some v
    /\ (forall j w, (j < i)%nat -> final !! j = Some w -> f_gt v w = true)
    /\ (forall j w, final !! j = Some w -> f_gt w v = false).
Proof.
  intros Hg Hne Hlen Hw Hn. set (l := apply_penalties s (candidates logits)).
  assert (Hl : forall j, l !! j = (fun v => (Z.of_nat j, v)) <$> final !! j).
  { intros j. unfold l. rewrite apply_penalties_spec by done. rewrite list_lookup_fmap. unfold candidates, final.
    rewrite candidates_from_lookup by lia. rewrite list_lookup_imap. by destruct (logits !! j). }
  assert (Hnn : Forall not_nan l).
  { apply Forall_lookup. intros j c. rewrite Hl. destruct (final !! j) as [v|] eqn:E; [|done]. intros [= <-].
    by apply (Forall_lookup_1 _ _ _ _ Hn E). }
  assert (Hs : exists c rest, l = c :: rest /\ sample s logits = Some ((best_of c rest).1, s)).
  { unfold sample. rewrite Hg. cbn [andb]. fold l. destruct l as [|c rest] eqn:El.
    { destruct logits; [done|]. specialize (Hl 0%nat). by cbn in Hl. }
    exists c, rest. split; [done|]. destruct (no_penalties (cfg s)) eqn:Hp; [|done].
    assert (El' : candidates logits = c :: rest).
    { rewrite <- El. unfold l. rewrite apply_penalties_spec by done. rewrite <- (map_id (candidates logits)) at 1. apply map_ext.
      intros [i v]. unfold penalized. by rewrite Hp. }
    destruct logits as [|v logits]; [done|]. unfold candidates in El'. cbn [candidates_from] in El'. injection El' as <- <-.
    change (wrap 32 0) with 0 in *. rewrite argmax_candidates; [done|]. by inversion Hnn. }
  destruct Hs as (c & rest & El & ->). rewrite El in Hnn. destruct (best_of_spec c rest Hnn) as (pre & post & Heq & Hpre & Hpost).
  rewrite <- El in Heq. set (r := best_of c rest) in *. clearbody r.
  assert (Hr : l !! length pre = Some r) by (rewrite Heq; by apply list_lookup_middle).
  rewrite Hl in Hr. destruct (final !! length pre) as [v|] eqn:Ev; [|done]. injection Hr as <-.
  exists (length pre), v. split; [done|]. split; [done|]. split.
  - intros j w Hj Hw'. apply (Forall_lookup_1 _ _ j (Z.of_nat j, w) Hpre). rewrite <- (lookup_app_l pre (( Z.of_nat (length pre), v) :: post)) by done.
    by rewrite <- Heq, Hl, Hw'.
  - intros j w Hw'. assert (Hin : l !! j = Some (Z.of_nat j, w)) by by rewrite Hl, Hw'. apply list_elem_of_lookup_2 in Hin.
    rewrite Heq in Hin. apply elem_of_app in Hin as [Hin|Hin].
    + rewrite Forall_forall in Hpre. specialize (Hpre _ Hin). cbn in Hpre. destruct (f_gt w v) eqn:E; [|done].
      unfold f_gt in *. pose proof (SFltb_trans _ _ _ Hpre E) as Hx. by rewrite SFltb_irrefl in Hx.
    + apply elem_of_cons in Hin as [[= Hj ->]|Hin]; [unfold f_gt; apply SFltb_irrefl|].
      rewrite Forall_forall in Hpost. by apply (Hpost _ Hin).
Qed.

(** ** A token of probability zero

    The draw accepts the first candidate when the random number is 0 (one seed in
    2^24 per step): a banned token, logit -inf and probability 0, can be returned. *)
Definition zero_seed : Z := wrap 64 (- 2 * golden).
Definition zero_sampler : Sampler :=
  sampler_new (mkSamplerConfig f32_one 0 f32_one f32_zero 0 f32_one f32_zero f32_zero zero_seed).
Definition banned_first : list spec_float := [f32_neg_inf; f32_zero].
Lemma zero_probability_drawn `{SortDesc, F32Exp} :
  f32_exp f32_neg_inf = f32_zero -> f32_exp f32_zero = f32_one ->
  probabilities zero_sampler banned_first = [(0, f32_zero); (1, f32_one)]
  /\ fst <$> sample zero_sampler banned_first = Some 0.
Proof.
  intros Hinf Hzero.
  assert (Hsc : apply_top_k (cfg zero_sampler) (scores zero_sampler banned_first) = [(0, f32_neg_inf); (1, f32_zero)]) by done.
  assert (Hp : probabilities zero_sampler banned_first = [(0, f32_zero); (1, f32_one)]).
  { unfold probabilities. rewrite Hsc. unfold softmax_inplace. cbn [map fst snd].
    change (max_prob f32_neg_inf [(0, f32_neg_inf); (1, f32_zero)]) with f32_zero.
    change (f32_sub f32_neg_inf f32_zero) with f32_neg_inf. change (f32_sub f32_zero f32_zero) with f32_zero.
    by rewrite Hinf, Hzero. }
  split; [done|]. unfold sample. change (is_greedy zero_sampler) with false. cbn [andb]. rewrite Hp. vm_compute. done.
Qed.

(** ** Concrete instances *)
Module SamplingWitness.
#[local] Instance desc_dec a b : Decision (desc a b).
Proof. unfold desc, float_le. apply _. Defined.
#[local] Instance desc_trans : Transitive desc.
Proof. intros a b c H1 H2. unfold desc in *. by eapply float_le_trans. Qed.
Lemma desc_total_pair a b : desc a b \/ desc b a.
Proof.
  unfold desc. destruct (decide (float_le b.2 a.2)) as [H|H]; [by left|]. right. apply total_cmp_not_lt.
  intros Hlt. apply H. unfold float_le. by rewrite Hlt.
Qed.
#[local] Instance desc_total : Total desc.
Proof. intros a b. apply desc_total_pair. Qed.
#[export] Instance merge_desc : SortDesc := {|
  sort_desc := merge_sort desc;
  sort_perm := merge_sort_Permutation desc;
  sort_sorted l _ := StronglySorted_merge_sort desc l;
|}.
(** A step for [exp]: 0 at -inf, 1 at 0 and above, 1/2 below. *)
#[export] Instance step_exp : F32Exp := fun x =>
  match x with
  | S754_infinity true => f32_zero
  | S754_finite true _ _ => f32_pow2 (-1)
  | S754_nan => S754_nan
  | _ => f32_one
  end.
Definition toy_logits : list spec_float := f32_of_int <$> [3; 7; 5; -2].
Definition toy_sampler : Sampler :=
  mkSampler (mkSamplerConfig f32_one 2 (f32_pow2 (-1)) (f32_pow2 (-2)) 4 (f32_of_int 2) f32_one f32_zero 7) 7 [1; 2; 1].
Definition toy_greedy : Sampler :=
  mkSampler (mkSamplerConfig f32_zero 0 f32_one f32_zero 2 (f32_of_int 2) f32_one f32_zero 7) 7 [1; 2; 1].

(** Token 1 is penalised twice (7/2 - 2), token 2 once (5/2 - 1): token 0 wins. *)
Lemma sample_greedy_witness : sample toy_greedy toy_logits = Some (0, toy_greedy) /\
  exists (i : nat) v, sample toy_greedy toy_logits = Some (Z.of_nat i, toy_greedy)
    /\ imap (fun i l => penalized toy_greedy (Z.of_nat i) l) toy_logits !! i = Some v
    /\ (forall j w, (j < i)%nat -> imap (fun i l => penalized toy_greedy (Z.of_nat i) l) toy_logits !! j = Some w -> f_gt v w = true)
    /\ (forall j w, imap (fun i l => penalized toy_greedy (Z.of_nat i) l) toy_logits !! j = Some w -> f_gt w v = false).
Proof.
  split; [by vm_compute|]. apply (sample_greedy toy_greedy toy_logits); [done|done|by vm_compute|by vm_compute|].
  vm_compute. repeat constructor; discriminate.
Defined.
Lemma sample_support_witness : exists id s' p, sample toy_sampler toy_logits = Some (id, s') /\ 0 <= id < 4 /\ admissible toy_sampler toy_logits id p.
Proof.
  destruct (sample_support toy_sampler toy_logits) as (id & s' & K & P & N & S & Hs & Hid & _ & _ & _ & Hm); [done|done|by vm_compute|].
  destruct S as [|c S]; [|destruct Hm as [(p & _ & Ha) _]; exists id, s', p; split; [exact Hs|split; [exact Hid|exact Ha]]].
  exfalso. destruct Hm as (_ & _ & ->). assert (Hr : (fun x => rng x.2) <$> sample toy_sampler toy_logits <> Some 7) by (vm_compute; discriminate).
  rewrite Hs in Hr. by apply Hr.
Defined.
(** Nothing refuses a [min_p] of 2: no candidate passes, and the raw argmax is returned,
    here a token outside the top-k of the penalised logits. *)
Definition toy_min_p : Sampler :=
  mkSampler (mkSamplerConfig f32_one 1 f32_one (f32_of_int 2) 4 (f32_of_int 2) f32_one f32_zero 7) 7 [1; 2; 1].
Example min_p_above_one : (survivors toy_min_p toy_logits, fst <$> sample toy_min_p toy_logits, fst <$> apply_top_k (cfg toy_min_p) (scores toy_min_p toy_logits)) = ([], Some 1, [0]).
Proof. vm_compute. reflexivity. Qed.
End SamplingWitness.
