(* ===== verification/PrefixCache.v ===== *)
(** The cross-request prefix cache of the worker: [PrefixCache] of
    [memra-server/src/worker.rs], and the step of [admit] that probes it.

    Entries live in one pool per (model, namespace); a recency index, keyed by
    last use and insertion number, names the next victim.  An [Instant] is a
    number of nanoseconds; the [BTreeMap] is a [gmap] whose first entry is the
    one of least key.  Sizes are [nat]: they count bytes of device memory. *)
From S2P Require Import Prelude Effects RustStr KvCache.
Local Open Scope nat_scope.

(** ** State *)

Definition PoolKey : Type := str * str.
#[export] Instance PoolKey_eq_dec : EqDecision PoolKey.
Proof. unfold PoolKey, str. apply _. Defined.
#[export] Instance PoolKey_countable : Countable PoolKey.
Proof. unfold PoolKey, str. apply _. Defined.

Definition PREFIX_CACHE_MIN_TOKENS : nat := 64.

Section Prefix.
Context {kd : KvDev}.

(** One full-attention layer's cached bytes. *)
Record PrefixPlane := mkPlane { plane_k : ByteBuf; plane_v : ByteBuf; plane_len : nat }.
Record PrefixEntry := mkPrefix {
  toks : list Z;
  e_kv : list (option PrefixPlane);
  e_conv : list (option Buf);
  e_ssm : list (option Buf);
  e_pos : nat;
  e_logits : list f32;
  e_bytes : nat;
  last_use : Z;
  e_id : Z;
}.
Definition with_use (now id : Z) (e : PrefixEntry) : PrefixEntry :=
  mkPrefix (toks e) (e_kv e) (e_conv e) (e_ssm e) (e_pos e) (e_logits e) (e_bytes e) now id.

(** The recency key [(Instant, u64)] and its order. *)
Definition LruKey : Type := Z * Z.
Definition key_ltb (a b : LruKey) : bool := (a.1 <? b.1)%Z || ((a.1 =? b.1)%Z && (a.2 <? b.2)%Z).

Record PrefixCache := mkPx {
  entries : gmap PoolKey (list PrefixEntry);
  lru : gmap LruKey (PoolKey * nat);
  next_id : Z;
  total_bytes : nat;
  hits : Z;
  misses : Z;
  inserts : Z;
  evictions : Z;
  hit_tokens : Z;
  lcp_hist : list Z;
}.
Definition LCP_HIST_EDGES : list nat := [0; 1; 16; 32; 64; 128; 256; 512; 1024; 2048; 4096].
Definition px_default : PrefixCache := mkPx ∅ ∅ 0 0 0 0 0 0 0 (replicate 11 0%Z).

(** ** Probes *)

(** [a.iter().zip(b).take_while(|(x, y)| x == y).count()] *)
Fixpoint lcp (a b : list Z) : nat :=
  match a, b with
  | x :: a, y :: b => if (x =? y)%Z then S (lcp a b) else 0
  | _, _ => 0
  end.
(** [rposition(|&e| n >= e).unwrap_or(0)] *)
Fixpoint lcp_bucket_from (i : nat) (edges : list nat) (n best : nat) : nat :=
  match edges with
  | [] => best
  | e :: edges => lcp_bucket_from (S i) edges n (if e <=? n then i else best)
  end.
Definition lcp_bucket (n : nat) : nat := lcp_bucket_from 0 LCP_HIST_EDGES n 0.
Definition record_lcp (n : nat) (px : PrefixCache) : PrefixCache :=
  mkPx (entries px) (lru px) (next_id px) (total_bytes px) (hits px) (misses px) (inserts px) (evictions px)
    (hit_tokens px) (alter (Z.add 1) (lcp_bucket n) (lcp_hist px)).

Definition n_entries (px : PrefixCache) : nat := map_fold (fun _ p n => length p + n) 0 (entries px).

(** [n >= MIN && n <= prompt.len() && prompt[..n] == e.toks[..]] *)
Definition covers (prompt : list Z) (e : PrefixEntry) : bool :=
  let n := length (toks e) in
  (PREFIX_CACHE_MIN_TOKENS <=? n) && (n <=? length prompt) && bool_decide (take n prompt = toks e).
Fixpoint lookup_from (i : nat) (prompt : list Z) (best : option (nat * nat)) (pool : list PrefixEntry) : option (nat * nat) :=
  match pool with
  | [] => best
  | e :: pool =>
      let n := length (toks e) in
      let better := match best with Some (_, bn) => bn <? n | None => true end in
      lookup_from (S i) prompt (if covers prompt e && better then Some (i, n) else best) pool
  end.
Definition px_lookup (px : PrefixCache) (key : PoolKey) (prompt : list Z) : option nat :=
  pool ← entries px !! key; fst <$> lookup_from 0 prompt None pool.
Definition best_lcp (px : PrefixCache) (key : PoolKey) (prompt : list Z) : nat :=
  match entries px !! key with
  | Some pool => foldr (fun e m => Nat.max (lcp (toks e) prompt) m) 0 pool
  | None => 0
  end.
Definition has_covering (px : PrefixCache) (key : PoolKey) (prompt : list Z) : bool :=
  match entries px !! key with Some pool => existsb (covers prompt) pool | None => false end.
Definition has_key (px : PrefixCache) (key : PoolKey) (ts : list Z) : bool :=
  match entries px !! key with Some pool => existsb (fun e => bool_decide (toks e = ts)) pool | None => false end.

(** ** Changes *)

Definition lru_key (e : PrefixEntry) : LruKey := (last_use e, e_id e).
Definition set_maps (es : gmap PoolKey (list PrefixEntry)) (l : gmap LruKey (PoolKey * nat)) (px : PrefixCache) : PrefixCache :=
  mkPx es l (next_id px) (total_bytes px) (hits px) (misses px) (inserts px) (evictions px) (hit_tokens px) (lcp_hist px).
(** [now] is what [Instant::now()] returns. *)
Definition touch (now : Z) (key : PoolKey) (i : nat) (px : PrefixCache) : PrefixCache :=
  match entries px !! key ≫= (.!! i) with
  | None => px
  | Some e =>
      let e' := with_use now (e_id e) e in
      set_maps (alter (fun pool => <[i := e']> pool) key (entries px))
        (<[lru_key e' := (key, i)]> (delete (lru_key e) (lru px))) px
  end.
(** [Vec::swap_remove]: the last element takes the place of the removed one. *)
Definition swap_remove {A} (i : nat) (l : list A) : option (A * list A) :=
  x ← l !! i; z ← last l; Some (x, take (length l - 1) (<[i := z]> l)).
Definition remove_at (key : PoolKey) (i : nat) (px : PrefixCache) : PrefixCache * option PrefixEntry :=
  match entries px !! key with
  | None => (px, None)
  | Some pool =>
      if length pool <=? i then (px, None) else
      match swap_remove i pool with
      | None => (px, None)
      | Some (dead, pool') =>
          let l := delete (lru_key dead) (lru px) in
          let l := match pool' !! i with Some moved => <[lru_key moved := (key, i)]> l | None => l end in
          let es := match pool' with [] => delete key (entries px) | _ => <[key := pool']> (entries px) end in
          (set_maps es l px, Some dead)
      end
  end.
(** [lru.values().next()]: the value of the least key. *)
Definition first_kv {V} (m : gmap LruKey V) : option (LruKey * V) :=
  foldr (fun x best => match best with Some y => if key_ltb y.1 x.1 then best else Some x | None => Some x end)
    None (map_to_list m).
Definition evicted (dead : PrefixEntry) (px : PrefixCache) : PrefixCache :=
  mkPx (entries px) (lru px) (next_id px) (total_bytes px - e_bytes dead) (hits px) (misses px) (inserts px)
    (evictions px + 1) (hit_tokens px) (lcp_hist px).
(** [while self.total_bytes > budget]; every round removes an entry, so their
    number is fuel enough ([evict_loop_fits]). *)
Fixpoint evict_loop (fuel budget : nat) (px : PrefixCache) : PrefixCache :=
  match fuel with
  | 0 => px
  | S fuel =>
      if total_bytes px <=? budget then px else
      match first_kv (lru px) with
      | None => px
      | Some (_, (k, i)) =>
          match remove_at k i px with
          | (px', Some dead) => evict_loop fuel budget (evicted dead px')
          | (px', None) => px'
          end
      end
  end.
Definition insert_with_budget (budget : nat) (key : PoolKey) (e : PrefixEntry) (px : PrefixCache) : PrefixCache :=
  if budget <? e_bytes e then px
  else if has_key px key (toks e) then px
  else
    let e := with_use (last_use e) (next_id px) e in
    let pool := default [] (entries px !! key) ++ [e] in
    let px :=
      mkPx (<[key := pool]> (entries px)) (<[lru_key e := (key, length pool - 1)]> (lru px)) (next_id px + 1)
        (total_bytes px + e_bytes e) (hits px) (misses px) (inserts px + 1) (evictions px) (hit_tokens px) (lcp_hist px) in
    evict_loop (size (lru px)) budget px.
Definition evict_all (px : PrefixCache) : PrefixCache * nat :=
  let n := n_entries px in
  (mkPx ∅ ∅ (next_id px) 0 (hits px) (misses px) (inserts px) (evictions px + Z.of_nat n) (hit_tokens px) (lcp_hist px), n).

(** ** Copies *)

(** [copy_u8_into(dst, 0, src, n)]: both slices are checked; a destination whose
    copy failed is dropped by every caller here. *)
Definition copy_u8_into (dst src : ByteBuf) (n : nat) : D ByteBuf :=
  massert (n <=? b_size dst);;
  massert (n <=? b_size src);;
  call;; ret (mkBytes (b_ptr dst) (b_owner dst) (take n (b_data src) ++ drop n (b_data dst))).
(** Likewise [copy_into] and [set_i32_one], with their [?]. *)
Definition copied (dst src : Buf) : D Buf :=
  '(b, ok) ← copy_into dst src (length (data src)); if ok : bool then ret b else throw EDevice.
Definition set_i32 (dst : IntBuf) (x : Z) : D IntBuf :=
  '(b, ok) ← set_i32_one dst x; if ok : bool then ret b else throw EDevice.

Definition snapshot_kv (d : nat) (l : option KvLayer) : D (option PrefixPlane * nat) :=
  match l with
  | Some l =>
      let kb := len l * k_tok_bytes l in
      let vb := len l * v_tok_bytes l in
      pk ← alloc_u8 d (Nat.max kb 1);
      pv ← alloc_u8 d (Nat.max vb 1);
      pk ← (if 0 <? kb then copy_u8_into pk (k l) kb else ret pk);
      pv ← (if 0 <? vb then copy_u8_into pv (v l) vb else ret pv);
      ret (Some (mkPlane pk pv (len l)), kb + vb)
  | None => ret (None, 0)
  end.
Definition snapshot_recur (d : nat) (r : option RecurLayer) : D (option Buf * option Buf * nat) :=
  match r with
  | Some r =>
      c ← clone_dtod d (conv_state r);
      s ← clone_dtod d (ssm_state r);
      ret (Some c, Some s, (length (data (conv_state r)) + length (data (ssm_state r))) * 4)
  | None => ret (None, None, 0)
  end.
(** [for il in 0..n]: planes, convolution and recurrent states, bytes. *)
Fixpoint snapshot_layers (d : nat) (kvs : list (option KvLayer)) (rs : list (option RecurLayer))
  : D (list (option PrefixPlane) * list (option Buf) * list (option Buf) * nat) :=
  match kvs with
  | [] => ret ([], [], [], 0)
  | l :: kvs =>
      match rs with
      | [] => panic
      | r :: rs =>
          '(p, n) ← snapshot_kv d l;
          '(c, s, m) ← snapshot_recur d r;
          '(ps, cs, ss, total) ← snapshot_layers d kvs rs;
          ret (p :: ps, c :: cs, s :: ss, n + m + total)
      end
  end.
Definition prefix_snapshot (d : nat) (now : Z) (c : Cache) (ts : list Z) (logits : list f32) : D PrefixEntry :=
  '(ps, cs, ss, n) ← snapshot_layers d (kv c) (recur c);
  ret (mkPrefix ts ps cs ss (pos c) logits n now 0).

Inductive RestoreErr := EDev | ELayerCount | EKvKind (il : nat) | ERecurKind (il : nat).
(** A device call under [?]. *)
Definition dev {A} (m : D A) : M dstate RestoreErr A :=
  fun w => match m w with (w, Ok a) => (w, Ok a) | (w, Err _) => (w, Err EDev) | (w, Panic) => (w, Panic) end.
Definition restore_kv (il : nat) (dst : option KvLayer) (src : option PrefixPlane) : M dstate RestoreErr (option KvLayer) :=
  match dst, src with
  | Some l, Some p =>
      let kb := plane_len p * k_tok_bytes l in
      let vb := plane_len p * v_tok_bytes l in
      k' ← (if 0 <? kb then dev (copy_u8_into (k l) (plane_k p) kb) else ret (k l));
      v' ← (if 0 <? vb then dev (copy_u8_into (v l) (plane_v p) vb) else ret (v l));
      d' ← dev (set_i32 (len_d l) (as_i32 (plane_len p)));
      ret (Some (mkKv k' v' (kv_dim_k l) (kv_dim_v l) (k_tok_bytes l) (v_tok_bytes l) (plane_len p) d'))
  | None, None => ret None
  | _, _ => throw (EKvKind il)
  end.
Definition restore_recur (il : nat) (dst : option RecurLayer) (sc ss : option Buf) : M dstate RestoreErr (option RecurLayer) :=
  match dst, sc, ss with
  | Some r, Some c, Some s =>
      c' ← dev (copied (conv_state r) c);
      s' ← dev (copied (ssm_state r) s);
      ret (Some (mkRecur c' s' (ssm_state_alt r)))
  | None, None, None => ret None
  | _, _, _ => throw (ERecurKind il)
  end.
Definition restore_layer (e : PrefixEntry) (il : nat) (c : Cache) : M dstate RestoreErr Cache :=
  l ← unwrap (kv c !! il);
  p ← unwrap (e_kv e !! il);
  l' ← restore_kv il l p;
  let c := set_kv il l' c in
  r ← unwrap (recur c !! il);
  sc ← unwrap (e_conv e !! il);
  ss ← unwrap (e_ssm e !! il);
  r' ← restore_recur il r sc ss;
  ret (set_recur il r' c).
Fixpoint restore_layers (e : PrefixEntry) (ils : list nat) (c : Cache) : M dstate RestoreErr Cache :=
  match ils with
  | [] => ret c
  | il :: ils => c ← restore_layer e il c; restore_layers e ils c
  end.
Definition prefix_restore (c : Cache) (e : PrefixEntry) : M dstate RestoreErr Cache :=
  if negb (length (kv c) =? length (e_kv e)) then throw ELayerCount
  else
    c ← restore_layers e (seq 0 (length (kv c))) c;
    ret (set_pos (e_pos e) c).

(** ** The probe of [admit] *)

(** What restoring an entry into a fresh session cache came to. *)
Inductive Restored := ROk | RAllocFailed | RFailed.
Definition count_hit (n : nat) (px : PrefixCache) : PrefixCache :=
  mkPx (entries px) (lru px) (next_id px) (total_bytes px) (hits px + 1) (misses px) (inserts px) (evictions px)
    (hit_tokens px + Z.of_nat n) (lcp_hist px).
Definition count_miss (px : PrefixCache) : PrefixCache :=
  mkPx (entries px) (lru px) (next_id px) (total_bytes px) (hits px) (misses px + 1) (inserts px) (evictions px)
    (hit_tokens px) (lcp_hist px).
(** The entry a session resumes from, or where to snapshot its prime and whether
    to park its prompt. *)
Inductive Probe := Hit (e : PrefixEntry) | Miss (snapshot_at : option nat) (seed_prefix : bool).
Definition probe_miss (key : PoolKey) (prompt : list Z) (px : PrefixCache) : PrefixCache * Probe :=
  let l := best_lcp px key prompt in
  let split := (PREFIX_CACHE_MIN_TOKENS <=? l) && (l <? length prompt) && negb (has_key px key (take l prompt)) in
  (record_lcp l (count_miss px),
   Miss (if split then Some l else None) (PREFIX_CACHE_MIN_TOKENS <=? length prompt)).
(** [restore] is what copying the entry into a session cache comes to. *)
Definition probe (now : Z) (key : PoolKey) (prompt : list Z) (restore : Restored) (px : PrefixCache)
  : PrefixCache * Probe :=
  match (i ← px_lookup px key prompt; e ← entries px !! key ≫= (.!! i); Some (i, e)) with
  | Some (i, e) =>
      match restore with
      | ROk => let n := length (toks e) in (record_lcp n (count_hit n (touch now key i px)), Hit e)
      | RAllocFailed => probe_miss key prompt (evict_all px).1
      | RFailed => probe_miss key prompt px
      end
  | None => probe_miss key prompt px
  end.
End Prefix.
#[global] Arguments px_default {kd}.
