(* ===== verification/PrefixCopies.v ===== *)
(** Snapshots of a session's cache and their restoration: what
    [prefix_snapshot] and [prefix_restore] of [memra-server/src/worker.rs] copy.
    [prefix_roundtrip]: a snapshot restored into a fresh cache is the state that
    was snapshot. *)
From S2P Require Import Prelude Effects RustStr KvCache PrefixCache.
Local Open Scope nat_scope.

(** ** Snapshot and restore *)
Section Copies.
Context {kd : KvDev} {kl : KvDevLaws kd}.
Implicit Types (c : Cache) (e : PrefixEntry).

(** A plane holds the layer's cached bytes. *)
Definition plane_of (l : option KvLayer) (p : option PrefixPlane) : Prop :=
  match l, p with
  | Some l, Some p => plane_len p = len l
      /\ len l * k_tok_bytes l <= b_size (plane_k p) /\ len l * v_tok_bytes l <= b_size (plane_v p)
      /\ take (len l * k_tok_bytes l) (b_data (plane_k p)) = take (len l * k_tok_bytes l) (b_data (k l))
      /\ take (len l * v_tok_bytes l) (b_data (plane_v p)) = take (len l * v_tok_bytes l) (b_data (v l))
  | None, None => True
  | _, _ => False
  end.
(** The layer's tokens fit its buffers, and those of a cache of the same model. *)
Definition layer_ready (a a1 : option KvLayer) : Prop :=
  match a, a1 with
  | Some l, Some l1 => k_tok_bytes l1 = k_tok_bytes l /\ v_tok_bytes l1 = v_tok_bytes l
      /\ len l * k_tok_bytes l <= b_size (k l) /\ len l * v_tok_bytes l <= b_size (v l)
      /\ len l * k_tok_bytes l <= b_size (k l1) /\ len l * v_tok_bytes l <= b_size (v l1)
  | None, None => True
  | _, _ => False
  end.
(** The bytes of the cached tokens are those of [b]; the rest of [b1], and its buffer, stay. *)
Definition overlaid (n : nat) (b b1 b' : ByteBuf) : Prop :=
  b' = mkBytes (b_ptr b1) (b_owner b1) (take n (b_data b) ++ drop n (b_data b1)).
Definition reloaded_kv (a a1 a' : option KvLayer) : Prop :=
  match a, a1, a' with
  | Some l, Some l1, Some l' => len l' = len l
      /\ len_d l' = mkInt (i_ptr (len_d l1)) (i_owner (len_d l1)) (as_i32 (len l))
      /\ overlaid (len l * k_tok_bytes l) (k l) (k l1) (k l') /\ overlaid (len l * v_tok_bytes l) (v l) (v l1) (v l')
      /\ kv_dim_k l' = kv_dim_k l1 /\ kv_dim_v l' = kv_dim_v l1 /\ k_tok_bytes l' = k_tok_bytes l1 /\ v_tok_bytes l' = v_tok_bytes l1
  | None, None, None => True
  | _, _, _ => False
  end.

Lemma wp_call_any (Q : unit -> dstate -> Prop) (X : KvErr -> dstate -> Prop) w :
  (forall w', Q tt w') -> (forall w', X EDevice w') -> wp call Q X w.
Proof. intros HQ HX. unfold call. wp_step. apply wp_get. destruct (dev_ok w) as [b w']. wp_step. apply wp_put. destruct b; [apply HQ|apply HX]. Qed.
Lemma wp_fresh_any (Q : Z -> dstate -> Prop) (X : KvErr -> dstate -> Prop) w : (forall p w', Q p w') -> wp fresh Q X w.
Proof. intros HQ. unfold fresh. wp_step. apply wp_get. destruct (dev_ptr w) as [p w']. wp_step. apply wp_put, wp_ret, HQ. Qed.
Lemma wp_alloc_any {A} (f : Z -> A) (Q : A -> dstate -> Prop) (X : KvErr -> dstate -> Prop) w :
  (forall p w', Q (f p) w') -> (forall w', X EDevice w') -> wp (call;; p ← fresh; ret (f p)) Q X w.
Proof. intros HQ HX. wp_step. apply wp_call_any; [|done]. intros w1. wp_step. apply wp_fresh_any. intros p w2. apply wp_ret, HQ. Qed.
Lemma wp_copy_u8 dst src n (Q : ByteBuf -> dstate -> Prop) (X : KvErr -> dstate -> Prop) w :
  n <= b_size dst -> n <= b_size src ->
  (forall w', Q (mkBytes (b_ptr dst) (b_owner dst) (take n (b_data src) ++ drop n (b_data dst))) w') ->
  (forall w', X EDevice w') -> wp (copy_u8_into dst src n) Q X w.
Proof.
  intros Hd Hs HQ HX. unfold copy_u8_into. wp_step. apply wp_massert; [by apply Nat.leb_le|]. wp_step.
  apply wp_massert; [by apply Nat.leb_le|]. wp_step. apply wp_call_any; [|done]. intros w'. apply wp_ret, HQ.
Qed.
Lemma wp_copied dst src (Q : Buf -> dstate -> Prop) (X : KvErr -> dstate -> Prop) w :
  length (data src) = length (data dst) -> (forall w', Q (mkBuf (ptr dst) (owner dst) (data src)) w') ->
  (forall w', X EDevice w') -> wp (copied dst src) Q X w.
Proof.
  intros Hl HQ HX. unfold copied. wp_step. apply wp_copy_into; [done|..].
  - intros w' _. apply HQ.
  - intros junk w' _. apply HX.
Qed.
Lemma wp_set_i32 dst x (Q : IntBuf -> dstate -> Prop) (X : KvErr -> dstate -> Prop) w :
  (forall w', Q (mkInt (i_ptr dst) (i_owner dst) x) w') -> (forall w', X EDevice w') -> wp (set_i32 dst x) Q X w.
Proof.
  intros HQ HX. unfold set_i32, set_i32_one. wp_step. wp_step. apply wp_get. destruct (dev_ok w) as [b w']. wp_step. apply wp_put, wp_ret.
  destruct b; [apply HQ|apply HX].
Qed.
Lemma wp_dev {A} (m : D A) (Q : A -> dstate -> Prop) (X : RestoreErr -> dstate -> Prop) w :
  wp m Q (fun _ w' => X EDev w') w -> wp (dev m) Q X w.
Proof. unfold wp, dev. destruct (m w) as [w' [a|er|]]; done. Qed.

Lemma overlay_size n (b : ByteBuf) (l : list Z) : n <= length l -> n <= b_size b ->
  length (take n l ++ drop n (b_data b)) = b_size b.
Proof. intros H1 H2. unfold b_size in *. rewrite length_app, length_take, length_drop. lia. Qed.
Lemma take_overlay n (l m : list Z) : n <= length l -> take n (take n l ++ drop n m) = take n l.
Proof. intros H. rewrite take_app_le by (rewrite length_take; lia). by rewrite take_take, Nat.min_id. Qed.

Lemma wp_snapshot_kv d a w : (forall l, a = Some l -> layer_ready (Some l) (Some l)) ->
  wp (snapshot_kv d a) (fun r _ => plane_of a r.1) (fun _ _ => True) w.
Proof.
  destruct a as [l|]; intros Hr; [|done]. destruct (Hr l eq_refl) as (_ & _ & Hk & Hv & _). unfold snapshot_kv.
  set (kb := len l * k_tok_bytes l) in *. set (vb := len l * v_tok_bytes l) in *.
  wp_step. unfold alloc_u8. apply wp_alloc_any; [|done]. intros p1 w1. wp_step. apply wp_alloc_any; [|done]. intros p2 w2.
  assert (Hcopy : forall p n (src : ByteBuf) (Q : ByteBuf -> dstate -> Prop) w, n <= b_size src ->
      (forall b w', n <= b_size b -> take n (b_data b) = take n (b_data src) -> Q b w') ->
      wp (if 0 <? n then copy_u8_into (mkBytes p d (replicate (Nat.max n 1) 0%Z)) src n else ret (mkBytes p d (replicate (Nat.max n 1) 0%Z)))
        Q (fun _ _ => True) w).
  { intros p n src Q w' Hn HQ. assert (Hs : n <= b_size (mkBytes p d (replicate (Nat.max n 1) 0%Z))).
    { unfold b_size. cbn [b_data]. rewrite length_replicate. lia. }
    destruct (Nat.ltb_spec 0 n) as [Hpos|Hz].
    - apply wp_copy_u8; [done|done| |done]. intros w3. apply HQ; [|by apply take_overlay].
      change (n <= length (take n (b_data src) ++ drop n (b_data (mkBytes p d (replicate (Nat.max n 1) 0%Z))))). by rewrite overlay_size.
    - apply wp_ret, HQ; [done|]. by replace n with 0 by lia. }
  wp_step. apply Hcopy; [done|]. intros bk w3 Hbk Htk. wp_step. apply Hcopy; [done|]. intros bv w4 Hbv Htv. by apply wp_ret.
Qed.
Lemma wp_snapshot_layers d c w : length (recur c) = length (kv c) -> (forall l, Some l ∈ kv c -> layer_ready (Some l) (Some l)) ->
  wp (snapshot_layers d (kv c) (recur c)) (fun r _ => Forall2 plane_of (kv c) r.1.1.1
      /\ Forall2 (saved_from conv_state) (recur c) r.1.1.2 /\ Forall2 (saved_from ssm_state) (recur c) r.1.2) (fun _ _ => True) w.
Proof.
  destruct c as [kvs rs ps mc]. cbn [kv recur]. revert rs w. induction kvs as [|a kvs IH]; intros rs w Hl Hr; destruct rs as [|r rs]; try done.
  cbn [snapshot_layers]. wp_step. eapply wp_conseq; [apply wp_snapshot_kv; intros l ->; apply Hr; by left|]. intros [p n] w1 Hp. cbn [fst] in Hp.
  wp_step. assert (Hrec : wp (snapshot_recur d r) (fun x _ => saved_from conv_state r x.1.1 /\ saved_from ssm_state r x.1.2) (fun _ _ => True) w1).
  { destruct r as [r|]; [|done]. unfold snapshot_recur. wp_step. apply wp_alloc_any; [|done]. intros p1 w2. wp_step.
    apply wp_alloc_any; [|done]. intros p2 w3. by apply wp_ret. }
  eapply wp_conseq; [exact Hrec|]. intros [[sc ss] m] w2 [Hc Hs]. cbn [fst snd] in *.
  wp_step. eapply wp_conseq; [apply IH; [by injection Hl|intros l Hin; apply Hr; by right]|]. intros [[[ps' cs] ss'] t] w3 (H1 & H2 & H3).
  cbn [fst snd] in *. apply wp_ret. split; [by constructor|]. split; by constructor.
Qed.

Lemma wp_restore_kv il a a1 p w : layer_ready a a1 -> plane_of a p ->
  wp (restore_kv il a1 p) (fun a' _ => reloaded_kv a a1 a') (fun er _ => er = EDev) w.
Proof.
  destruct a as [l|], a1 as [l1|], p as [p|]; try done. intros (Htk & Htv & _ & _ & Hk & Hv) (Hlen & Hpk & Hpv & Hdk & Hdv).
  unfold restore_kv. rewrite Hlen, Htk, Htv.
  assert (Hcopy : forall n (dst src b : ByteBuf) (Q : ByteBuf -> dstate -> Prop) w, n <= b_size dst -> n <= b_size src ->
      take n (b_data src) = take n (b_data b) -> (forall b' w', overlaid n b dst b' -> Q b' w') ->
      wp (if 0 <? n then dev (copy_u8_into dst src n) else ret dst) Q (fun er _ => er = EDev) w).
  { intros n dst src b Q w' Hd Hs Ht HQ. destruct (Nat.ltb_spec 0 n) as [Hpos|Hz].
    - apply wp_dev, wp_copy_u8; [done|done| |done]. intros w1. apply HQ. unfold overlaid. by rewrite Ht.
    - apply wp_ret, HQ. replace n with 0 by lia. by destruct dst. }
  wp_step. apply (Hcopy _ _ _ (k l)); [done..|]. intros k' w1 Ok1. wp_step. apply (Hcopy _ _ _ (v l)); [done..|]. intros v' w2 Ok2.
  wp_step. apply wp_dev, wp_set_i32; [|done]. intros w3. by apply wp_ret.
Qed.
Lemma wp_restore_recur il r r1 sc ss w : same_recur r r1 -> saved_from conv_state r sc -> saved_from ssm_state r ss ->
  wp (restore_recur il r1 sc ss) (fun r' _ => restored_recur r r1 r') (fun er _ => er = EDev) w.
Proof.
  destruct r as [r|], r1 as [r1|], sc as [sc|], ss as [ss|]; try done. intros [Hc Hs] Ec Es. cbn in Ec, Es.
  unfold restore_recur. wp_step. apply wp_dev, wp_copied; [by rewrite Ec| |done]. intros w1.
  wp_step. apply wp_dev, wp_copied; [by rewrite Es| |done]. intros w2. apply wp_ret. cbn. unfold moved. by rewrite Ec, Es.
Qed.
End Copies.

Section Restore.
Context {kd : KvDev} {kl : KvDevLaws kd}.
Variables (c c1 : Cache) (e : PrefixEntry).
Hypothesis (Hlen : length (recur c) = length (kv c)).
Hypothesis (Hkv : Forall2 layer_ready (kv c) (kv c1)) (Hrec : Forall2 same_recur (recur c) (recur c1)).
Hypothesis (Hp : Forall2 plane_of (kv c) (e_kv e)).
Hypothesis (Hc : Forall2 (saved_from conv_state) (recur c) (e_conv e)) (Hs : Forall2 (saved_from ssm_state) (recur c) (e_ssm e)).

(** The cache after the first [i] layers. *)
Definition restored_to (i : nat) (c' : Cache) : Prop :=
  length (kv c') = length (kv c1) /\ length (recur c') = length (recur c1) /\ pos c' = pos c1 /\ max_ctx c' = max_ctx c1
  /\ forall j, (j < i -> forall a a1, kv c !! j = Some a -> kv c1 !! j = Some a1 -> exists a', kv c' !! j = Some a' /\ reloaded_kv a a1 a')
    /\ (j < i -> forall r r1, recur c !! j = Some r -> recur c1 !! j = Some r1 -> exists r', recur c' !! j = Some r' /\ restored_recur r r1 r')
    /\ (i <= j -> kv c' !! j = kv c1 !! j /\ recur c' !! j = recur c1 !! j).

Lemma wp_restore_layer i c' w : i < length (kv c) -> restored_to i c' ->
  wp (restore_layer e i c') (fun c'' _ => restored_to (S i) c'') (fun er _ => er = EDev) w.
Proof.
  intros Hi (H1 & H2 & H3 & H4 & H5). destruct (H5 i) as (_ & _ & Hsame). destruct Hsame as [Hk Hr]; [lia|].
  destruct (lookup_lt_is_Some_2 (kv c) i Hi) as [a Ha]. destruct (lookup_lt_is_Some_2 (recur c) i) as [r Er]; [lia|].
  destruct (Forall2_lookup_l _ _ _ _ _ Hkv Ha) as (a1 & Ha1 & Hready). destruct (Forall2_lookup_l _ _ _ _ _ Hrec Er) as (r1 & Er1 & Hsr).
  destruct (Forall2_lookup_l _ _ _ _ _ Hp Ha) as (p & Ep & Hpl). destruct (Forall2_lookup_l _ _ _ _ _ Hc Er) as (sc & Esc & Hsc).
  destruct (Forall2_lookup_l _ _ _ _ _ Hs Er) as (ss & Ess & Hss).
  unfold restore_layer. rewrite Hk, Ha1, Ep. wp_steps. eapply wp_conseq; [by apply (wp_restore_kv i a)|]. intros a' w1 Hre. cbv beta.
  cbn [recur set_kv]. rewrite Hr, Er1, Esc, Ess. wp_steps. eapply wp_conseq; [by apply (wp_restore_recur i r)|]. intros r' w2 Hrr. apply wp_ret.
  pose proof (lookup_lt_Some _ _ _ Ha1) as Hi1. pose proof (lookup_lt_Some _ _ _ Er1) as Hi2.
  unfold restored_to. cbn [kv recur pos max_ctx set_kv set_recur]. rewrite !length_insert. split_and!; [done..|]. intros j.
  destruct (H5 j) as (Hold & Holdr & Hnew). destruct (decide (j = i)) as [->|Hne].
  - rewrite !list_lookup_insert_eq by congruence. split; [|split; [|lia]].
    + intros _ b b1 Hb Hb1. exists a'. split; [done|]. congruence.
    + intros _ b b1 Hb Hb1. exists r'. split; [done|]. congruence.
  - rewrite !list_lookup_insert_ne by done. split; [|split].
    + intros Hj. apply Hold. lia.
    + intros Hj. apply Holdr. lia.
    + intros Hj. apply Hnew. lia.
Qed.
Lemma wp_restore_layers n : forall i c' w, i + n = length (kv c) -> restored_to i c' ->
  wp (restore_layers e (seq i n) c') (fun c'' _ => restored_to (i + n) c'') (fun er _ => er = EDev) w.
Proof.
  induction n as [|n IH]; intros i c' w Hn Hi; cbn [seq restore_layers]; [by rewrite Nat.add_0_r|].
  wp_step. eapply wp_conseq; [apply wp_restore_layer; [lia|done]|]. intros c'' w1 H'. cbv beta.
  replace (i + S n) with (S i + n) by lia. apply IH; [lia|done].
Qed.
End Restore.

(** [c'] has the buffers of [c1] and the cached state of [c]. *)
Definition reloaded {kd : KvDev} (c c1 c' : Cache) : Prop :=
  pos c' = pos c /\ max_ctx c' = max_ctx c1
  /\ Forall3 reloaded_kv (kv c) (kv c1) (kv c') /\ Forall3 restored_recur (recur c) (recur c1) (recur c').
Lemma Forall3_lookup_intro {A B E} (P : A -> B -> E -> Prop) (l : list A) (k : list B) (m : list E) :
  length k = length l -> length m = length l ->
  (forall i a b, l !! i = Some a -> k !! i = Some b -> exists x, m !! i = Some x /\ P a b x) -> Forall3 P l k m.
Proof.
  revert k m. induction l as [|a l IH]; intros [|b k] [|x m] Hk Hm H; try done; [constructor|]. constructor.
  - destruct (H 0 a b eq_refl eq_refl) as (x' & [= <-] & Hx). done.
  - apply IH; [by injection Hk|by injection Hm|]. intros i. apply (H (S i)).
Qed.

(** [e] holds what [c] had cached. *)
Record snap_of {kd : KvDev} (c : Cache) (e : PrefixEntry) : Prop := {
  so_kv : Forall2 plane_of (kv c) (e_kv e);
  so_conv : Forall2 (saved_from conv_state) (recur c) (e_conv e);
  so_ssm : Forall2 (saved_from ssm_state) (recur c) (e_ssm e);
  so_pos : e_pos e = pos c;
}.
Lemma wp_prefix_snapshot {kd : KvDev} {kl : KvDevLaws kd} d now c ts logits w :
  length (recur c) = length (kv c) -> (forall l, Some l ∈ kv c -> layer_ready (Some l) (Some l)) ->
  wp (prefix_snapshot d now c ts logits) (fun e _ => toks e = ts /\ e_logits e = logits /\ last_use e = now /\ snap_of c e) (fun _ _ => True) w.
Proof.
  intros Hlen Hr. unfold prefix_snapshot. wp_step. eapply wp_conseq; [by apply wp_snapshot_layers|].
  intros [[[ps cs] ss] n] w1 (Hp & Hc & Hs). cbn [fst snd] in *. apply wp_ret. split; [done|]. split; [done|]. split; [done|]. by split.
Qed.
Lemma wp_prefix_restore {kd : KvDev} {kl : KvDevLaws kd} c c1 e w :
  length (recur c) = length (kv c) -> Forall2 layer_ready (kv c) (kv c1) -> Forall2 same_recur (recur c) (recur c1) -> snap_of c e ->
  wp (prefix_restore c1 e) (fun c' _ => reloaded c c1 c') (fun er _ => er = EDev) w.
Proof.
  intros Hlen Hkv Hrec [Hp Hc Hs Hpos]. unfold prefix_restore.
  pose proof (Forall2_length _ _ _ Hp) as Hl1. pose proof (Forall2_length _ _ _ Hkv) as Hl2. pose proof (Forall2_length _ _ _ Hrec) as Hl3.
  destruct (Nat.eqb_spec (length (kv c1)) (length (e_kv e))) as [Heq|]; [|lia]. cbn [negb]. wp_step.
  eapply wp_conseq; [apply (wp_restore_layers c c1 e Hlen Hkv Hrec Hp Hc Hs (length (kv c1)) 0 c1); [lia|]|].
  { unfold restored_to. split_and!; [done..|]. intros j. split_and!; [lia|lia|done]. }
  intros c' w3 (H1 & H2 & _ & H4 & H5). apply wp_ret. unfold reloaded. cbn [pos max_ctx kv recur set_pos]. rewrite Hpos.
  split; [done|]. split; [done|]. split; apply Forall3_lookup_intro; try lia; intros i a b Ha Hb; destruct (H5 i) as (Ka & Ra & _);
    [apply Ka|apply Ra]; try done; pose proof (lookup_lt_Some _ _ _ Hb); lia.
Qed.

(** C29. Snapshotting a session's cache and restoring the entry into any fresh
    cache of the same geometry, at any later time, gives a cache in the same
    state: position, per-layer lengths and their device mirrors, the K and V bytes
    of the cached tokens, and the recurrent states, all in the fresh cache's own
    buffers.  Neither call panics and only a device failure can stop the restore. *)
Theorem prefix_roundtrip {kd : KvDev} {kl : KvDevLaws kd} (d : nat) (now : Z) (c c1 : Cache) (ts : list Z) (logits : list f32) (w : dstate) :
  length (recur c) = length (kv c) -> Forall2 layer_ready (kv c) (kv c1) -> Forall2 same_recur (recur c) (recur c1) ->
  wp (prefix_snapshot d now c ts logits)
    (fun e _ => toks e = ts /\ e_logits e = logits /\ last_use e = now /\
       forall w', wp (prefix_restore c1 e) (fun c' _ => reloaded c c1 c') (fun er _ => er = EDev) w')
    (fun _ _ => True) w.
Proof.
  intros Hlen Hkv Hrec. eapply wp_conseq; [apply wp_prefix_snapshot; [done|]|].
  { intros l Hl. apply list_elem_of_lookup_1 in Hl as [i Hi]. destruct (Forall2_lookup_l _ _ _ _ _ Hkv Hi) as ([l1|] & _ & H1); [|done].
    destruct H1 as (_ & _ & ? & ? & _). done. }
  intros e w1 (Ht & Hl & Hn & Hs). split; [done|]. split; [done|]. split; [done|]. intros w2. by apply wp_prefix_restore.
Qed.

(** ** Concrete instances *)
Module CopiesWitness.
Import ToyKv.
(** Two cached tokens of sevens in the attention layer, other recurrent states. *)
Definition toy_fill (b : ByteBuf) : ByteBuf := mkBytes (b_ptr b) (b_owner b) (map (fun _ => 7%Z) (b_data b)).
Definition toy_full : Cache :=
  mkKvCache (map (option_map (fun l => mkKv (toy_fill (k l)) (toy_fill (v l)) (kv_dim_k l) (kv_dim_v l) (k_tok_bytes l) (v_tok_bytes l) 2 (len_d l))) (kv toy_c))
    (map (option_map toy_step) (recur toy_c)) 2 10.
Lemma toy_recur_shape : Forall2 same_recur (recur toy_full) (recur toy_c).
Proof.
  unfold toy_full. cbn [recur]. induction (recur toy_c) as [|[x|] l IH]; constructor; try done. unfold same_recur. simpl. by rewrite !length_map.
Qed.
Definition toy_snap := prefix_snapshot 5 9 toy_full [1; 2]%Z [0%Z] 200.
Definition toy_stored : PrefixEntry := ok_of (mkPrefix [] [] [] [] 0 [] 0 0 0) toy_snap.
Definition toy_again : Cache := ok_of toy_c (prefix_restore toy_c toy_stored 300).
Lemma prefix_roundtrip_witness :
  exists w e, toy_snap = (w, Ok e) /\ exists w' c', prefix_restore toy_c e 300 = (w', Ok c') /\ reloaded toy_full toy_c c'.
Proof.
  assert (Hk : Forall2 layer_ready (kv toy_full) (kv toy_c)).
  { vm_compute. repeat constructor. }
  pose proof (prefix_roundtrip 5 9 toy_full toy_c [1; 2]%Z [0%Z] 200 eq_refl Hk toy_recur_shape) as H.
  assert (Hs : toy_snap = (toy_snap.1, Ok toy_stored)) by (apply is_ok_run; vm_compute; reflexivity).
  assert (Hr : prefix_restore toy_c toy_stored 300 = ((prefix_restore toy_c toy_stored 300).1, Ok toy_again))
    by (apply is_ok_run; vm_compute; reflexivity).
  destruct (wp_run _ _ _ _ _ _ H Hs) as (_ & _ & _ & H'). exists toy_snap.1, toy_stored. split; [exact Hs|].
  eexists _, _. split; [exact Hr|]. exact (wp_run _ _ _ _ _ _ (H' 300) Hr).
Defined.
End CopiesWitness.
