(* ===== verification/PrefixCacheSpec.v ===== *)
(** What the prefix cache promises.

    The abstract cache is a queue of entries, least recently used first, with no
    pools, no index and no clock.  [represents] ties a [PrefixCache] to it; every
    operation preserves the relation ([represents_insert], [represents_probe],
    [represents_empty]), so after any sequence of operations the cache holds
    what the queue holds and answers every probe as the queue does
    ([prefix_cache_lru]).  [prefix_hit_own]: a probe serves the longest entry of its
    own model and namespace that starts the prompt, and its answer is a function of
    that pool. *)
From stdpp Require Import sorting.
From S2P Require Import Prelude Effects RustStr KvCache PrefixCache.
Local Open Scope nat_scope.

Section Spec.
Context {kd : KvDev}.
Implicit Types (px : PrefixCache) (e : PrefixEntry) (key : PoolKey) (prompt : list Z).

(** ** The abstract cache *)

Abbreviation item := (PoolKey * PrefixEntry)%type.
Abbreviation queue := (list item).
(** Recency forgotten. *)
Definition erase (x : item) : item := (x.1, with_use 0 0 x.2).
Definition queue_bytes (q : queue) : nat := list_sum ((fun x => e_bytes x.2) <$> q).
Fixpoint drop_oldest (budget : nat) (q : queue) : queue :=
  match q with
  | [] => []
  | x :: q' => if queue_bytes q <=? budget then q else drop_oldest budget q'
  end.
Definition same_slot key (ts : list Z) (x : item) : bool := bool_decide (x.1 = key) && bool_decide (toks x.2 = ts).
Definition q_insert (budget : nat) key e (q : queue) : queue :=
  if budget <? e_bytes e then q
  else if existsb (same_slot key (toks e)) q then q
  else drop_oldest budget (q ++ [erase (key, e)]).
(** Move to the back. *)
Definition q_touch key (ts : list Z) (q : queue) : queue :=
  List.filter (fun x => negb (same_slot key ts x)) q ++ List.filter (same_slot key ts) q.
(** The entries of a pool, and what the probes see of them. *)
Definition q_pool key (q : queue) : list PrefixEntry := snd <$> List.filter (fun x => bool_decide (x.1 = key)) q.
Definition q_best_lcp key prompt (q : queue) : nat := foldr (fun e m => Nat.max (lcp (toks e) prompt) m) 0 (q_pool key q).
(** The longest entry of the pool that starts the prompt. *)
Definition q_serve key prompt (q : queue) : option PrefixEntry :=
  foldr (fun e best =>
    if covers prompt e && match best with Some b => length (toks b) <? length (toks e) | None => true end
    then Some e else best) None (q_pool key q).
Definition q_miss key prompt (q : queue) : Probe :=
  let l := q_best_lcp key prompt q in
  Miss (if (PREFIX_CACHE_MIN_TOKENS <=? l) && (l <? length prompt) && negb (existsb (same_slot key (take l prompt)) q)
        then Some l else None) (PREFIX_CACHE_MIN_TOKENS <=? length prompt).
Definition q_probe key prompt (restore : Restored) (q : queue) : queue * Probe :=
  match q_serve key prompt q with
  | Some e =>
      match restore with
      | ROk => (q_touch key (toks e) q, Hit e)
      | RAllocFailed => ([], q_miss key prompt [])
      | RFailed => (q, q_miss key prompt q)
      end
  | None => (q, q_miss key prompt q)
  end.

(** ** The relation *)

(** [e] is entry [i] of pool [key]. *)
Definition at_slot px key (i : nat) e : Prop := exists pool, entries px !! key = Some pool /\ pool !! i = Some e.
Definition key_lt (a b : LruKey) : Prop := (a.1 < b.1 \/ a.1 = b.1 /\ a.2 < b.2)%Z.
Definition recency (a b : item) : Prop := key_lt (lru_key a.2) (lru_key b.2).

Record indexed px (l : list item) : Prop := {
  ix_slot key i e : at_slot px key i e -> lru px !! lru_key e = Some (key, i);
  ix_lru lk key i : lru px !! lk = Some (key, i) -> exists e, at_slot px key i e /\ lru_key e = lk;
  ix_items key e : (key, e) ∈ l <-> exists i, at_slot px key i e;
  ix_sorted : StronglySorted recency l;
  ix_pools key : entries px !! key <> Some [];
}.
(** [l] is the cache's content, least recent first. *)
Record holds px (l : list item) : Prop := {
  h_indexed : indexed px l;
  h_slots : NoDup ((fun x : item => (x.1, toks x.2)) <$> l);
  h_ids : NoDup ((fun x : item => e_id x.2) <$> l);
  h_next : Forall (fun x : item => (e_id x.2 < next_id px)%Z) l;
  h_bytes : total_bytes px = queue_bytes l;
}.
Definition older (now : Z) (x : item) : Prop := (last_use x.2 < now)%Z.
(** The cache stands for the queue [q] at time [now]. *)
Record represents (budget : nat) (now : Z) px (q : queue) : Prop := {
  r_holds : exists l, holds px l /\ q = erase <$> l /\ Forall (older (now + 1)) l;
  r_budget : queue_bytes q <= budget;
}.

(** ** The recency order *)

Lemma key_ltb_spec a b : key_ltb a b = true <-> key_lt a b.
Proof.
  unfold key_ltb, key_lt. rewrite orb_true_iff, andb_true_iff, !Z.ltb_lt, Z.eqb_eq. done.
Qed.
Lemma key_lt_trans a b c : key_lt a b -> key_lt b c -> key_lt a c.
Proof. unfold key_lt. lia. Qed.
Lemma key_lt_irrefl a : ~ key_lt a a.
Proof. unfold key_lt. lia. Qed.
Lemma key_lt_total a b : a <> b -> key_lt a b \/ key_lt b a.
Proof. destruct a as [a1 a2], b as [b1 b2]. unfold key_lt. cbn. intros H. assert (a1 <> b1 \/ a2 <> b2) as [|]; [|lia..].
  destruct (Z.eq_dec a1 b1); [|by left]. right. congruence. Qed.

Lemma first_of_list {V} (l : list (LruKey * V)) (best := foldr (fun x best => match best with
    Some y => if key_ltb y.1 x.1 then best else Some x | None => Some x end) None l) :
  match best with None => l = [] | Some x => x ∈ l /\ forall y, y ∈ l -> ~ key_lt y.1 x.1 end.
Proof.
  subst best. induction l as [|x l IH]; [done|]. cbn [foldr]. destruct (foldr _ None l) as [y|].
  - destruct IH as [Hy Hmin]. destruct (key_ltb y.1 x.1) eqn:E.
    + apply key_ltb_spec in E. split; [by right|]. intros z Hz. apply elem_of_cons in Hz as [->|Hz]; [|by apply Hmin].
      intros Hlt. by apply (key_lt_irrefl x.1), (key_lt_trans _ y.1).
    + split; [by left|]. intros z Hz. apply elem_of_cons in Hz as [->|Hz]; [apply key_lt_irrefl|].
      intros Hlt. apply (Hmin z Hz). destruct (decide (y.1 = x.1)) as [->|Hne]; [done|].
      destruct (key_lt_total _ _ Hne) as [Hc|Hc]; [apply key_ltb_spec in Hc; congruence|]. by eapply key_lt_trans.
  - subst l. split; [by left|]. intros z Hz. apply list_elem_of_singleton in Hz as ->. apply key_lt_irrefl.
Qed.
Lemma first_kv_spec {V} (m : gmap LruKey V) :
  match first_kv m with
  | None => m = ∅
  | Some (k, v) => m !! k = Some v /\ forall k' v', m !! k' = Some v' -> ~ key_lt k' k
  end.
Proof.
  pose proof (first_of_list (map_to_list m)) as H. unfold first_kv. destruct (foldr _ None _) as [[k v]|].
  - destruct H as [Hin Hmin]. apply elem_of_map_to_list in Hin. split; [done|]. intros k' v' Hk.
    apply (Hmin (k', v')). by apply elem_of_map_to_list.
  - by apply map_to_list_empty_iff.
Qed.

(** ** Slots *)

Lemma NoDup_fmap_eq {A B} (f : A -> B) (l : list A) x y : NoDup (f <$> l) -> x ∈ l -> y ∈ l -> f x = f y -> x = y.
Proof.
  intros Hn Hx Hy Hf. apply list_elem_of_lookup_1 in Hx as [i Hi]. apply list_elem_of_lookup_1 in Hy as [j Hj].
  assert (i = j) as ->; [|congruence]. eapply (NoDup_lookup _ _ _ (f x)); [done|by rewrite list_lookup_fmap, Hi|].
  by rewrite list_lookup_fmap, Hj, Hf.
Qed.
Lemma at_slot_fun px key i e e' : at_slot px key i e -> at_slot px key i e' -> e = e'.
Proof. intros (p & H1 & H2) (p' & H3 & H4). congruence. Qed.
Lemma at_slot_inj px l key i key' i' e : indexed px l -> at_slot px key i e -> at_slot px key' i' e -> key = key' /\ i = i'.
Proof. intros Hx H1 H2. apply (ix_slot _ _ Hx) in H1, H2. rewrite H1 in H2. by injection H2. Qed.
Lemma at_slot_lookup px key i e : at_slot px key i e <-> entries px !! key ≫= (.!! i) = Some e.
Proof.
  unfold at_slot. split.
  - intros (p & -> & Hp). done.
  - destruct (entries px !! key) as [p|]; [|done]. cbn. by exists p.
Qed.
Lemma item_slot px l key e : indexed px l -> (key, e) ∈ l -> exists i, at_slot px key i e.
Proof. intros H Hin. by apply (ix_items _ _ H). Qed.

(** The least key of the index is that of the head. *)
Lemma first_kv_head px x l : indexed px (x :: l) -> exists i, first_kv (lru px) = Some (lru_key x.2, (x.1, i)) /\ at_slot px x.1 i x.2.
Proof.
  intros H. destruct x as [key e]. cbn [fst snd]. destruct (item_slot _ _ key e H) as [i Hi]; [by left|].
  pose proof (ix_slot _ _ H _ _ _ Hi) as Hl. pose proof (first_kv_spec (lru px)) as Hf.
  destruct (first_kv (lru px)) as [[k [key' j]]|]; [|by rewrite Hf in Hl].
  destruct Hf as [Hk Hmin]. exists i. split; [|done].
  destruct (ix_lru _ _ H _ _ _ Hk) as (e' & Hs & <-).
  assert (Hin : (key', e') ∈ (key, e) :: l) by (apply (ix_items _ _ H); by exists j).
  apply elem_of_cons in Hin as [[= -> ->]|Hin].
  - by destruct (at_slot_inj _ _ _ _ _ _ _ H Hs Hi) as [_ ->].
  - exfalso. apply (Hmin _ _ Hl). pose proof (ix_sorted _ _ H) as Hs'. apply StronglySorted_cons in Hs' as [Hf _].
    rewrite Forall_forall in Hf. apply (Hf _ Hin).
Qed.

(** ** Removal *)

Lemma swap_remove_spec {A} i (pool : list A) (a : A) : pool !! i = Some a ->
  exists pool', swap_remove i pool = Some (a, pool') /\ forall j x, pool' !! j = Some x <->
    j < length pool - 1 /\ pool !! (if decide (j = i) then length pool - 1 else j) = Some x.
Proof.
  intros Hi. unfold swap_remove. rewrite Hi. cbn [mbind option_bind].
  destruct pool as [|y pool] using rev_ind; [done|]. clear IHpool. rewrite last_snoc. cbn [mbind option_bind].
  eexists. split; [done|]. intros j x. rewrite length_app. cbn [length]. replace (length pool + 1 - 1) with (length pool) by lia.
  rewrite lookup_take_Some. destruct (decide (j = i)) as [->|Hne].
  - rewrite list_lookup_middle by done. pose proof (lookup_lt_Some _ _ _ Hi). rewrite list_lookup_insert_eq by done. tauto.
  - rewrite list_lookup_insert_ne by done. tauto.
Qed.
Lemma elem_mid {A} (l1 l2 : list A) x y : x ∈ l1 ++ y :: l2 <-> x = y \/ x ∈ l1 ++ l2.
Proof. set_solver. Qed.

Section Removal.
Variables (px : PrefixCache) (key : PoolKey) (i : nat) (e : PrefixEntry) (pool pool' : list PrefixEntry) (l1 l2 : list item).
Hypothesis (H : indexed px (l1 ++ (key, e) :: l2)).
Hypothesis (Hn : NoDup ((fun x : item => e_id x.2) <$> l1 ++ (key, e) :: l2)).
Hypothesis (Hp : entries px !! key = Some pool) (Hi : pool !! i = Some e).
Hypothesis (Hp' : forall j x, pool' !! j = Some x <->
  j < length pool - 1 /\ pool !! (if decide (j = i) then length pool - 1 else j) = Some x).
Definition rm_lru0 : gmap LruKey (PoolKey * nat) := delete (lru_key e) (lru px).
(** The cache [remove_at] leaves. *)
Definition rm_px : PrefixCache :=
  set_maps (match pool' with [] => delete key (entries px) | _ => <[key := pool']> (entries px) end)
    (match pool' !! i with Some moved => <[lru_key moved := (key, i)]> rm_lru0 | None => rm_lru0 end) px.

Lemma rm_slot : at_slot px key i e.
Proof. by exists pool. Qed.
Lemma rm_at k j x : at_slot rm_px k j x <-> (k <> key /\ at_slot px k j x) \/ (k = key /\ pool' !! j = Some x).
Proof.
  unfold at_slot, rm_px. cbn [entries set_maps]. destruct (decide (k = key)) as [->|Hk].
  - destruct pool' as [|y pool''].
    + rewrite lookup_delete_eq. split; [by intros (? & ? & ?)|]. by intros [[]|[]].
    + rewrite lookup_insert_eq. split; [intros (? & [= <-] & ?); by right|]. intros [[]|[_ ?]]; [done|by eexists].
  - destruct pool' as [|y pool'']; [rewrite lookup_delete_ne by done|rewrite lookup_insert_ne by done].
    all: split; [by left|]; by intros [[_ ?]|[? _]].
Qed.
(** Where an entry of the new cache was. *)
Lemma rm_old k j x : at_slot rm_px k j x -> exists j', at_slot px k j' x /\ (k <> key \/ j' <> i)
  /\ (j' = j \/ k = key /\ j = i /\ j' = length pool - 1).
Proof.
  intros Hx. apply rm_at in Hx as [[Hk Hx]|[-> Hx]]; [exists j; eauto|]. apply Hp' in Hx as [Hj Hx].
  eexists. split; [by exists pool|]. destruct (decide (j = i)) as [->|]; [|by eauto]. split; [right; lia|by right].
Qed.
Lemma rm_moved m : pool' !! i = Some m -> at_slot px key (length pool - 1) m /\ i < length pool - 1.
Proof. intros Hm. apply Hp' in Hm as [Hj Hm]. rewrite decide_True in Hm by done. split; [by exists pool|done]. Qed.
(** Where an entry of the old cache goes. *)
Lemma rm_new k j x : at_slot px k j x -> x <> e -> exists j', at_slot rm_px k j' x
  /\ (j' = j \/ pool' !! i = Some x /\ k = key /\ j' = i).
Proof.
  intros Hx Hne. destruct (decide (k = key)) as [->|Hk]; [|exists j; split; [apply rm_at|]; by left].
  destruct Hx as (pl & Hpl & Hx). rewrite Hp in Hpl. injection Hpl as <-. pose proof (lookup_lt_Some _ _ _ Hx).
  assert (Hji : j <> i) by congruence. pose proof (lookup_lt_Some _ _ _ Hi). destruct (decide (j = length pool - 1)) as [->|].
  - assert (Hm : pool' !! i = Some x) by (apply Hp'; rewrite decide_True by done; split; [lia|done]).
    exists i. split; [apply rm_at|]; by right.
  - exists j. split; [|by left]. apply rm_at. right. split; [done|]. apply Hp'. rewrite decide_False by done. split; [lia|done].
Qed.
Lemma rm_ix_slot k j x : at_slot rm_px k j x -> lru rm_px !! lru_key x = Some (k, j).
Proof.
  intros Hx. destruct (rm_old _ _ _ Hx) as (j' & Hx' & Hne & Hjj). pose proof (ix_slot _ _ H _ _ _ Hx') as Hl.
  assert (Hke : lru_key x <> lru_key e).
  { intros Heq. rewrite Heq, (ix_slot _ _ H _ _ _ rm_slot) in Hl. injection Hl as -> ->. by destruct Hne. }
  assert (Hd : rm_lru0 !! lru_key x = Some (k, j')) by (unfold rm_lru0; by rewrite lookup_delete_ne).
  unfold rm_px. cbn [lru set_maps]. destruct (pool' !! i) as [m|] eqn:Em.
  - destruct (rm_moved m Em) as [Hms Him]. destruct (decide (lru_key x = lru_key m)) as [Heq|Hnem].
    + rewrite Heq, (ix_slot _ _ H _ _ _ Hms) in Hl. injection Hl as <- <-. rewrite Heq, lookup_insert_eq.
      destruct Hjj as [<-|(_ & -> & _)]; [|done].
      exfalso. apply rm_at in Hx as [[]|[_ Hx]]; [done|]. apply Hp' in Hx as [Hx _]. lia.
    + rewrite lookup_insert_ne by done. rewrite Hd. destruct Hjj as [->|(-> & -> & ->)]; [done|].
      exfalso. apply Hnem. by rewrite (at_slot_fun _ _ _ _ _ Hx' Hms).
  - rewrite Hd. destruct Hjj as [->|(-> & -> & ->)]; [done|].
    exfalso. apply rm_at in Hx as [[]|[_ Hx]]; [done|]. by rewrite Em in Hx.
Qed.
Lemma rm_ix_lru lk k j : lru rm_px !! lk = Some (k, j) -> exists x, at_slot rm_px k j x /\ lru_key x = lk.
Proof.
  assert (Hdel : rm_lru0 !! lk = Some (k, j) -> (forall m, pool' !! i = Some m -> lk <> lru_key m) ->
      exists x, at_slot rm_px k j x /\ lru_key x = lk).
  { intros Hd Hm. unfold rm_lru0 in Hd. apply lookup_delete_Some in Hd as [Hne Hd]. destruct (ix_lru _ _ H _ _ _ Hd) as (x & Hx & <-).
    destruct (rm_new k j x Hx) as (j' & Hx' & [->|(Hmv & _)]); [congruence|by exists x|]. by destruct (Hm x). }
  unfold rm_px. cbn [lru set_maps]. destruct (pool' !! i) as [m|] eqn:Em; [|intros Hlk; apply Hdel; by rewrite ?Em].
  destruct (decide (lk = lru_key m)) as [->|Hne].
  - rewrite lookup_insert_eq. intros [= <- <-]. exists m. split; [|done]. apply rm_at. by right.
  - rewrite lookup_insert_ne by done. intros Hlk. apply Hdel; [done|]. by intros ? [= <-].
Qed.
Lemma rm_ix_items k x : (k, x) ∈ l1 ++ l2 <-> exists j, at_slot rm_px k j x.
Proof.
  split.
  - intros Hx. destruct (item_slot px _ k x H) as [j Hj]; [by apply elem_mid; right|].
    assert (Hne : x <> e).
    { intros ->. rewrite fmap_app, fmap_cons in Hn. apply NoDup_app_not_in in Hn as [H1 H2].
      apply elem_of_app in Hx as [Hx|Hx]; [apply H1|apply H2]; apply list_elem_of_fmap; by eexists (k, e). }
    destruct (rm_new k j x Hj Hne) as (j' & Hx' & _). by exists j'.
  - intros [j Hj]. destruct (rm_old _ _ _ Hj) as (j' & Hx & Hne & _).
    assert (Hin : (k, x) ∈ l1 ++ (key, e) :: l2) by (apply (ix_items _ _ H); by exists j').
    apply elem_mid in Hin as [[= -> ->]|Hin]; [|done]. exfalso. destruct (at_slot_inj _ _ _ _ _ _ _ H Hx rm_slot) as [_ ->]. by destruct Hne.
Qed.
Lemma rm_indexed : indexed rm_px (l1 ++ l2).
Proof.
  split; [exact rm_ix_slot|exact rm_ix_lru|exact rm_ix_items| |].
  - pose proof (ix_sorted _ _ H) as Ho. apply StronglySorted_app in Ho as (Ha & H1 & H2). apply StronglySorted_cons in H2 as [_ H2].
    apply StronglySorted_app. split; [|done]. intros x y Hx Hy. apply Ha; [done|by right].
  - intros k. unfold rm_px. cbn [entries set_maps]. destruct (decide (k = key)) as [->|Hk].
    + destruct pool'; [by rewrite lookup_delete_eq|by rewrite lookup_insert_eq].
    + pose proof (ix_pools _ _ H k). destruct pool'; [by rewrite lookup_delete_ne|by rewrite lookup_insert_ne].
Qed.
End Removal.

Lemma remove_at_indexed px l1 key e l2 i :
  indexed px (l1 ++ (key, e) :: l2) -> NoDup ((fun x : item => e_id x.2) <$> l1 ++ (key, e) :: l2) -> at_slot px key i e ->
  exists es lr, remove_at key i px = (set_maps es lr px, Some e) /\ indexed (set_maps es lr px) (l1 ++ l2).
Proof.
  intros H Hn (pool & Hp & Hi). unfold remove_at. rewrite Hp. pose proof (lookup_lt_Some _ _ _ Hi) as Hlt.
  destruct (Nat.leb_spec (length pool) i) as [|_]; [lia|].
  destruct (swap_remove_spec i pool e Hi) as (pool' & -> & Hp'). eexists _, _. split; [done|]. by eapply rm_indexed.
Qed.

(** ** Eviction *)

Lemma queue_bytes_app q1 q2 : queue_bytes (q1 ++ q2) = queue_bytes q1 + queue_bytes q2.
Proof. unfold queue_bytes. by rewrite fmap_app, list_sum_app. Qed.
Lemma queue_bytes_cons x q : queue_bytes (x :: q) = e_bytes x.2 + queue_bytes q.
Proof. done. Qed.
Lemma erase_bytes q : queue_bytes (erase <$> q) = queue_bytes q.
Proof. induction q as [|x q IH]; [done|]. rewrite fmap_cons, !queue_bytes_cons. by rewrite IH. Qed.
Lemma drop_oldest_fits budget q : queue_bytes (drop_oldest budget q) <= budget.
Proof. induction q as [|x q IH]; cbn [drop_oldest]; [unfold queue_bytes; cbn; lia|]. destruct (Nat.leb_spec (queue_bytes (x :: q)) budget); [done|apply IH]. Qed.
Lemma drop_oldest_suffix budget q : exists gone, q = gone ++ drop_oldest budget q.
Proof.
  induction q as [|x q [gone Hg]]; [by exists []|]. cbn [drop_oldest]. destruct (_ <=? budget); [by exists []|].
  exists (x :: gone). by rewrite Hg at 1.
Qed.

(** The fields an eviction does not touch. *)
Definition same_counts px px' : Prop :=
  next_id px' = next_id px /\ hits px' = hits px /\ misses px' = misses px /\ hit_tokens px' = hit_tokens px
  /\ lcp_hist px' = lcp_hist px.

Lemma holds_tail px x l px' : holds px (x :: l) -> indexed px' l -> next_id px' = next_id px ->
  total_bytes px' = total_bytes px - e_bytes x.2 -> holds px' l.
Proof.
  intros [_ Hs Hi Hn Hb] Hx Hid Ht. cbn [fmap list_fmap] in Hs, Hi. apply NoDup_cons in Hs as [_ Hs]. apply NoDup_cons in Hi as [_ Hi].
  inversion_clear Hn. split; try done; [by rewrite Hid|]. rewrite Ht, Hb, queue_bytes_cons. lia.
Qed.
Lemma evict_loop_fits fuel budget px l : holds px l -> length l <= fuel ->
  exists gone l', l = gone ++ l' /\ holds (evict_loop fuel budget px) l' /\ erase <$> l' = drop_oldest budget (erase <$> l)
    /\ same_counts px (evict_loop fuel budget px).
Proof.
  revert px l. induction fuel as [|fuel IH]; intros px l H Hf.
  { destruct l; [|cbn in Hf; lia]. by exists [], []. }
  cbn [evict_loop]. destruct l as [|[key e] l].
  { exists [], []. rewrite (h_bytes _ _ H). unfold queue_bytes. cbn [fmap list_fmap list_sum foldr Nat.leb]. done. }
  rewrite (h_bytes _ _ H), <- (erase_bytes ((key, e) :: l)). cbn [fmap list_fmap drop_oldest].
  destruct (Nat.leb_spec (queue_bytes (erase (key, e) :: (erase <$> l))) budget) as [Hle|Hgt].
  { exists [], ((key, e) :: l). done. }
  destruct (first_kv_head _ _ _ (h_indexed _ _ H)) as (i & -> & Hs). cbn [fst snd] in *.
  destruct (remove_at_indexed px [] key e l i (h_indexed _ _ H) (h_ids _ _ H) Hs) as (es & lr & -> & Hx).
  assert (Hx' : indexed (evicted e (set_maps es lr px)) l) by (destruct Hx; by split).
  cbn [length] in Hf. destruct (IH (evicted e (set_maps es lr px)) l) as (gone & l' & -> & Hl' & Hd & Hc); [|lia|].
  { by apply (holds_tail px (key, e)). }
  exists ((key, e) :: gone), l'. split; [done|]. split; [done|]. split; [done|].
  unfold same_counts in *. cbn in Hc. done.
Qed.
Lemma holds_size px l : holds px l -> length l <= size (lru px).
Proof.
  intros H. set (ks := (fun x : item => lru_key x.2) <$> l).
  assert (Hnd : NoDup ks).
  { apply (NoDup_fmap_1 snd). unfold ks. rewrite <- list_fmap_compose. exact (h_ids _ _ H). }
  rewrite <- (length_fmap (fun x : item => lru_key x.2) l). fold ks. rewrite <- (size_list_to_set (C := gset LruKey)) by done.
  rewrite <- size_dom. apply subseteq_size. intros k Hk. apply elem_of_list_to_set in Hk. unfold ks in Hk.
  apply list_elem_of_fmap in Hk as ([key e] & -> & Hin). destruct (item_slot _ _ _ _ (h_indexed _ _ H) Hin) as [i Hi].
  apply elem_of_dom. exists (key, i). exact (ix_slot _ _ (h_indexed _ _ H) _ _ _ Hi).
Qed.

(** ** Insertion and recency *)

Definition pushed px key e : PrefixCache :=
  let pool := default [] (entries px !! key) ++ [e] in
  set_maps (<[key := pool]> (entries px)) (<[lru_key e := (key, length pool - 1)]> (lru px)) px.
Lemma pushed_at px key e k j x : at_slot (pushed px key e) k j x <->
  at_slot px k j x \/ k = key /\ j = length (default [] (entries px !! key)) /\ x = e.
Proof.
  unfold at_slot, pushed. cbn [entries set_maps]. destruct (decide (k = key)) as [->|Hk].
  - rewrite lookup_insert_eq. split.
    + intros (p & [= <-] & Hx). apply lookup_app_Some in Hx as [Hx|[Hl Hx]].
      * left. destruct (entries px !! key) as [p|]; [by exists p|done].
      * right. apply list_lookup_singleton_Some in Hx as [Hj <-]. split; [done|]. split; [lia|done].
    + intros H. eexists. split; [done|]. destruct H as [(p & -> & Hx)|(_ & -> & ->)].
      * cbn [default]. apply lookup_app_l_Some, Hx.
      * by apply list_lookup_middle.
  - rewrite lookup_insert_ne by done. split; [by left|]. by intros [?|[? _]].
Qed.
Lemma pushed_indexed px l key e : indexed px l -> Forall (fun x => recency x (key, e)) l -> indexed (pushed px key e) (l ++ [(key, e)]).
Proof.
  intros H Hr. assert (Hfresh : forall k j x, at_slot px k j x -> lru_key x <> lru_key e).
  { intros k j x Hx Heq. assert (Hin : (k, x) ∈ l) by (apply (ix_items _ _ H); by exists j).
    rewrite Forall_forall in Hr. specialize (Hr _ Hin). unfold recency in Hr. cbn [snd] in Hr. rewrite Heq in Hr. by apply key_lt_irrefl in Hr. }
  assert (Hlen : length (default [] (entries px !! key) ++ [e]) - 1 = length (default [] (entries px !! key))) by (rewrite length_app; cbn; lia).
  split.
  - intros k j x Hx. unfold pushed. cbn [lru set_maps]. apply pushed_at in Hx as [Hx|(-> & -> & ->)].
    + rewrite lookup_insert_ne by (intros Heq; by apply (Hfresh _ _ _ Hx)). by apply (ix_slot _ _ H).
    + by rewrite lookup_insert_eq, Hlen.
  - intros lk k j. unfold pushed. cbn [lru set_maps]. rewrite Hlen. intros Hl. apply lookup_insert_Some in Hl as [[<- [= <- <-]]|[Hne Hl]].
    + exists e. split; [|done]. apply pushed_at. by right.
    + destruct (ix_lru _ _ H _ _ _ Hl) as (x & Hx & <-). exists x. split; [|done]. apply pushed_at. by left.
  - intros k x. rewrite elem_of_app, list_elem_of_singleton, (ix_items _ _ H). split.
    + intros [[j Hj]|[= -> ->]]; eexists; apply pushed_at; [by left|by right].
    + intros [j Hj]. apply pushed_at in Hj as [Hj|(-> & _ & ->)]; [left; by exists j|by right].
  - apply StronglySorted_app. split; [|split; [apply (ix_sorted _ _ H)|apply StronglySorted_cons; by split; [|constructor]]].
    intros x y Hx Hy. apply list_elem_of_singleton in Hy as ->. rewrite Forall_forall in Hr. by apply Hr.
  - intros k. unfold pushed. cbn [entries set_maps]. destruct (decide (k = key)) as [->|Hk].
    + rewrite lookup_insert_eq. by destruct (default [] _).
    + rewrite lookup_insert_ne by done. apply (ix_pools _ _ H).
Qed.

Section Touch.
Variables (px : PrefixCache) (key : PoolKey) (i : nat) (e : PrefixEntry) (now : Z) (l1 l2 : list item).
Hypothesis (H : holds px (l1 ++ (key, e) :: l2)) (Hs : at_slot px key i e).
Hypothesis (Ho : Forall (older now) (l1 ++ (key, e) :: l2)).
Abbreviation e' := (with_use now (e_id e) e).

Lemma touch_at k j x : at_slot (touch now key i px) k j x <->
  k = key /\ j = i /\ x = e' \/ ~ (k = key /\ j = i) /\ at_slot px k j x.
Proof.
  unfold touch. rewrite (proj1 (at_slot_lookup _ _ _ _) Hs). unfold at_slot at 1. cbn [entries set_maps].
  destruct Hs as (pool & Hp & Hi). pose proof (lookup_lt_Some _ _ _ Hi). destruct (decide (k = key)) as [->|Hk].
  - rewrite lookup_alter_eq, Hp. cbn [fmap option_fmap option_map]. split.
    + intros (p & [= <-] & Hx). destruct (decide (j = i)) as [->|Hj].
      * left. rewrite list_lookup_insert_eq in Hx by done. by injection Hx.
      * right. rewrite list_lookup_insert_ne in Hx by done. split; [tauto|by exists pool].
    + intros Hx. eexists. split; [done|]. destruct Hx as [(_ & -> & ->)|[Hne (p & Hp' & Hx)]].
      * by rewrite list_lookup_insert_eq.
      * rewrite Hp in Hp'. injection Hp' as <-. rewrite list_lookup_insert_ne; [done|]. intros ->. by apply Hne.
  - rewrite lookup_alter_ne by done. split; [right; split; [tauto|done]|]. by intros [[? _]|[_ ?]].
Qed.
Lemma touch_fresh k j x : at_slot px k j x -> lru_key x <> lru_key e'.
Proof.
  intros Hx Heq. assert (Hin : (k, x) ∈ l1 ++ (key, e) :: l2) by (apply (ix_items _ _ (h_indexed _ _ H)); by exists j).
  rewrite Forall_forall in Ho. specialize (Ho _ Hin). unfold older in Ho. cbn [snd] in Ho. injection Heq. cbn. lia.
Qed.
Lemma touch_indexed : indexed (touch now key i px) (l1 ++ l2 ++ [(key, e')]).
Proof.
  pose proof (h_indexed _ _ H) as Hx. split.
  - intros k j x Hkj. pose proof Hkj as Ha. apply touch_at in Ha. unfold touch.
    rewrite (proj1 (at_slot_lookup _ _ _ _) Hs). cbn [lru set_maps].
    destruct Ha as [(-> & -> & ->)|[Hne Ha]]; [by rewrite lookup_insert_eq|].
    rewrite lookup_insert_ne by (intros Heq; by apply (touch_fresh _ _ _ Ha)). rewrite lookup_delete_ne.
    + by apply (ix_slot _ _ Hx).
    + intros Heq. pose proof (ix_slot _ _ Hx _ _ _ Ha) as Hl. rewrite <- Heq, (ix_slot _ _ Hx _ _ _ Hs) in Hl.
      injection Hl as -> ->. tauto.
  - intros lk k j. unfold touch at 1. rewrite (proj1 (at_slot_lookup _ _ _ _) Hs). cbn [lru set_maps]. intros Hl.
    apply lookup_insert_Some in Hl as [[<- [= <- <-]]|[Hne Hl]]; [exists e'; split; [|done]; apply touch_at; by left|].
    apply lookup_delete_Some in Hl as [Hne' Hl]. destruct (ix_lru _ _ Hx _ _ _ Hl) as (x & Ha & <-). exists x. split; [|done].
    apply touch_at. right. split; [|done]. intros [-> ->]. by rewrite (at_slot_fun _ _ _ _ _ Ha Hs) in Hne'.
  - intros k x. rewrite app_assoc, elem_of_app, list_elem_of_singleton. split.
    + intros [Hin|[= -> ->]]; [|exists i; apply touch_at; by left].
      destruct (item_slot _ _ k x Hx) as [j Hj]; [by apply elem_mid; right|]. exists j. apply touch_at. right. split; [|done].
      intros [-> ->]. rewrite (at_slot_fun _ _ _ _ _ Hj Hs) in Hin. pose proof (h_ids _ _ H) as Hd. rewrite fmap_app in Hd. cbn [fmap list_fmap] in Hd.
      apply NoDup_app_not_in in Hd as [H1 H2]. apply elem_of_app in Hin as [Hin|Hin]; [apply H1|apply H2]; apply list_elem_of_fmap; by eexists (key, e).
    + intros [j Hj]. apply touch_at in Hj as [(-> & -> & ->)|[Hne Hj]]; [by right|]. left.
      assert (Hin : (k, x) ∈ l1 ++ (key, e) :: l2) by (apply (ix_items _ _ Hx); by exists j).
      apply elem_mid in Hin as [[= -> ->]|Hin]; [|done]. exfalso. destruct (at_slot_inj _ _ _ _ _ _ _ Hx Hj Hs) as [_ ->]. tauto.
  - rewrite app_assoc. pose proof (ix_sorted _ _ Hx) as Hso. apply StronglySorted_app in Hso as (Ha & H1 & H2).
    apply StronglySorted_cons in H2 as [_ H2]. apply StronglySorted_app. split; [|split; [|apply StronglySorted_cons; by split; [|constructor]]].
    + intros x y Hin Hy. apply list_elem_of_singleton in Hy as ->. rewrite Forall_forall in Ho.
      specialize (Ho x ltac:(apply elem_mid; by right)). left. cbn. exact Ho.
    + apply StronglySorted_app. split; [|done]. intros x y Hxx Hy. apply Ha; [done|by right].
  - intros k. unfold touch. rewrite (proj1 (at_slot_lookup _ _ _ _) Hs). cbn [entries set_maps].
    destruct Hs as (pool & Hp & Hi). destruct (decide (k = key)) as [->|Hk].
    + rewrite lookup_alter_eq, Hp. cbn. destruct pool; [done|]. by destruct i.
    + rewrite lookup_alter_ne by done. apply (ix_pools _ _ Hx).
Qed.
Lemma touch_fields : total_bytes (touch now key i px) = total_bytes px /\ same_counts px (touch now key i px).
Proof. unfold touch. rewrite (proj1 (at_slot_lookup _ _ _ _) Hs). done. Qed.
Lemma touch_holds : holds (touch now key i px) (l1 ++ l2 ++ [(key, e')]).
Proof.
  destruct touch_fields as [Ht Hc]. pose proof H as [_ Hsl Hid Hn Hb].
  assert (Hperm : l1 ++ (key, e) :: l2 ≡ₚ (l1 ++ l2) ++ [(key, e)]) by (by rewrite <- Permutation_middle, <- Permutation_cons_append).
  rewrite Hperm in Hsl, Hid, Hn. rewrite fmap_app in Hsl. rewrite fmap_app in Hid. split; [apply touch_indexed|..].
  - by rewrite app_assoc, fmap_app.
  - by rewrite app_assoc, fmap_app.
  - destruct Hc as [-> _]. rewrite app_assoc. apply Forall_app in Hn as [Hn1 Hn2]. apply Forall_app. split; [done|].
    inversion_clear Hn2. by constructor.
  - rewrite Ht, Hb, app_assoc, !queue_bytes_app, !queue_bytes_cons. cbn [snd with_use e_bytes]. unfold queue_bytes at 5. cbn. lia.
Qed.
End Touch.

(** ** Probes *)

Abbreviation erase_e := (with_use 0 0).
Lemma erase_same key ts x : same_slot key ts (erase x) = same_slot key ts x.
Proof. done. Qed.
Lemma existsb_fmap {A B} (p : B -> bool) (f : A -> B) (l : list A) : existsb p (f <$> l) = existsb (fun x => p (f x)) l.
Proof. induction l as [|x l IH]; [done|]. cbn. by rewrite <- IH. Qed.
Lemma existsb_elem {A} (p : A -> bool) (l : list A) : existsb p l = true <-> exists x, x ∈ l /\ p x = true.
Proof. rewrite existsb_exists. by setoid_rewrite <- list_elem_of_In. Qed.
Lemma bool_eq_iff (a b : bool) : (a = true <-> b = true) -> a = b.
Proof. destruct a, b; intuition congruence. Qed.

Lemma q_pool_elem key q e : e ∈ q_pool key q <-> (key, e) ∈ q.
Proof.
  unfold q_pool. rewrite list_elem_of_fmap. split.
  - intros ([k x] & -> & Hin). apply list_elem_of_In, filter_In in Hin as [Hin Hk]. apply bool_decide_eq_true in Hk. cbn in Hk. subst.
    by apply list_elem_of_In.
  - intros Hin. exists (key, e). split; [done|]. apply list_elem_of_In, filter_In. split; [by apply list_elem_of_In|]. by apply bool_decide_eq_true.
Qed.
Lemma q_pool_erase key l : q_pool key (erase <$> l) = erase_e <$> q_pool key l.
Proof.
  unfold q_pool. induction l as [|[k x] l IH]; [done|]. cbn. destruct (bool_decide (k = key)); cbn; by rewrite IH.
Qed.
(** The pool's entries are the items under its key. *)
Lemma pool_elem px l key e : holds px l -> e ∈ default [] (entries px !! key) <-> (key, e) ∈ l.
Proof.
  intros H. rewrite (ix_items _ _ (h_indexed _ _ H)). unfold at_slot. destruct (entries px !! key) as [p|]; cbn [default].
  - rewrite list_elem_of_lookup. split; [intros [i Hi]; by exists i, p|]. intros (i & p' & [= <-] & Hi). by exists i.
  - split; [by intros ?%elem_of_nil|]. by intros (i & p & ? & _).
Qed.
Lemma pool_q_pool px l key e : holds px l -> e ∈ default [] (entries px !! key) <-> e ∈ q_pool key l.
Proof. intros H. by rewrite q_pool_elem, (pool_elem px l). Qed.

Lemma has_key_spec px l key ts : holds px l -> has_key px key ts = existsb (same_slot key ts) (erase <$> l).
Proof.
  intros H. rewrite existsb_fmap. apply bool_eq_iff.
  replace (has_key px key ts) with (existsb (fun e => bool_decide (toks e = ts)) (default [] (entries px !! key)))
    by (unfold has_key; by destruct (entries px !! key)).
  rewrite !existsb_elem. unfold same_slot, erase. cbn [fst snd with_use toks]. split.
  - intros (e & Hin & Ht). exists (key, e). cbn [fst snd]. rewrite Ht, bool_decide_true by done. split; [|done]. by apply (pool_elem px).
  - intros ([k e] & Hin & Hb). apply andb_true_iff in Hb as [Hk Ht]. apply bool_decide_eq_true in Hk. cbn in Hk. subst k.
    exists e. split; [|done]. by apply (pool_elem px l).
Qed.
Lemma has_covering_spec px l key prompt : holds px l -> has_covering px key prompt = existsb (covers prompt) (q_pool key (erase <$> l)).
Proof.
  intros H. rewrite q_pool_erase, existsb_fmap. apply bool_eq_iff.
  replace (has_covering px key prompt) with (existsb (covers prompt) (default [] (entries px !! key)))
    by (unfold has_covering; by destruct (entries px !! key)).
  rewrite !existsb_elem. by setoid_rewrite (pool_q_pool px l _ _ H).
Qed.
Lemma max_lcp_le prompt (p : list PrefixEntry) n :
  foldr (fun e m => Nat.max (lcp (toks e) prompt) m) 0 p <= n <-> forall e, e ∈ p -> lcp (toks e) prompt <= n.
Proof.
  induction p as [|e p IH]; cbn [foldr]; [split; [|lia]; by intros _ e ?%elem_of_nil|].
  rewrite Nat.max_lub_iff, IH. split.
  - intros [H1 H2] x Hx. apply elem_of_cons in Hx as [->|Hx]; [done|by apply H2].
  - intros Hx. split; [apply Hx; by left|]. intros x Hin. apply Hx. by right.
Qed.
Lemma best_lcp_spec px l key prompt : holds px l -> best_lcp px key prompt = q_best_lcp key prompt (erase <$> l).
Proof.
  intros H. unfold q_best_lcp. rewrite q_pool_erase.
  replace (best_lcp px key prompt) with (foldr (fun e m => Nat.max (lcp (toks e) prompt) m) 0 (default [] (entries px !! key)))
    by (unfold best_lcp; by destruct (entries px !! key)).
  assert (Hf : foldr (fun e m => Nat.max (lcp (toks e) prompt) m) 0 (erase_e <$> q_pool key l)
    = foldr (fun e m => Nat.max (lcp (toks e) prompt) m) 0 (q_pool key l)).
  { induction (q_pool key l) as [|x p IH]; [done|]. cbn. by rewrite IH. }
  rewrite Hf. apply Nat.le_antisymm; apply max_lcp_le; intros e He; apply (pool_q_pool px l key e H) in He;
    by apply (proj1 (max_lcp_le prompt _ _) (Nat.le_refl _)).
Qed.

Lemma lookup_from_spec prompt pool i0 best :
  match lookup_from i0 prompt best pool with
  | None => best = None /\ forall e, e ∈ pool -> covers prompt e = false
  | Some (i, n) =>
      (best = Some (i, n) \/ exists e, i0 <= i /\ pool !! (i - i0) = Some e /\ covers prompt e = true /\ n = length (toks e))
      /\ (forall e, e ∈ pool -> covers prompt e = true -> length (toks e) <= n)
      /\ (forall j m, best = Some (j, m) -> m <= n)
  end.
Proof.
  revert i0 best. induction pool as [|e pool IH]; intros i0 best; cbn [lookup_from].
  { destruct best as [[i n]|]; [|by split; [|intros e ?%elem_of_nil]]. split; [by left|]. split; [by intros e ?%elem_of_nil|].
    by intros j m [= -> ->]. }
  set (b := if covers prompt e && _ then _ else best). specialize (IH (S i0) b).
  destruct (lookup_from (S i0) prompt b pool) as [[i n]|].
  - destruct IH as (Hwhere & Hmax & Hb). split; [|split].
    + destruct Hwhere as [Heq|(x & Hi & Hx & Hc & Hn)].
      * subst b. destruct (covers prompt e) eqn:Ec; [|by left]. cbn [andb] in Heq.
        destruct best as [[bi bn]|]; [destruct (bn <? length (toks e)); [|by left]|]; right; exists e; injection Heq as <- <-;
          rewrite Nat.sub_diag; (split; [lia|done]).
      * right. exists x. replace (i - i0) with (S (i - S i0)) by lia. split; [lia|done].
    + intros x Hx Hc. apply elem_of_cons in Hx as [->|Hx]; [|by apply Hmax]. unfold b in Hb. rewrite Hc in Hb. cbn [andb] in Hb.
      destruct best as [[bi bn]|]; [destruct (Nat.ltb_spec bn (length (toks e)))|]; [by eapply Hb|specialize (Hb _ _ eq_refl); lia|by eapply Hb].
    + intros j m ->. unfold b in Hb. destruct (covers prompt e); cbn [andb] in Hb; [|by apply (Hb j)].
      destruct (Nat.ltb_spec m (length (toks e))); [specialize (Hb _ _ eq_refl); lia|by apply (Hb j)].
  - destruct IH as [Hb Hc]. unfold b in Hb. destruct (covers prompt e) eqn:Ec; cbn [andb] in Hb.
    + exfalso. destruct best as [[bi bn]|]; [by destruct (bn <? _)|done].
    + split; [done|]. intros x Hx. apply elem_of_cons in Hx as [->|Hx]; [done|by apply Hc].
Qed.
Lemma q_serve_spec key prompt q :
  match q_serve key prompt q with
  | None => forall e, e ∈ q_pool key q -> covers prompt e = false
  | Some x => x ∈ q_pool key q /\ covers prompt x = true /\
      forall e, e ∈ q_pool key q -> covers prompt e = true -> length (toks e) <= length (toks x)
  end.
Proof.
  unfold q_serve. induction (q_pool key q) as [|e p IH]; cbn [foldr]; [by intros e ?%elem_of_nil|].
  set (best := foldr _ None p) in *. destruct (covers prompt e) eqn:Ec; cbn [andb].
  - destruct best as [b|].
    + destruct IH as (Hb & Hcb & Hmax). destruct (Nat.ltb_spec (length (toks b)) (length (toks e))).
      * split; [by left|]. split; [done|]. intros x Hx Hc. apply elem_of_cons in Hx as [->|Hx]; [done|]. specialize (Hmax x Hx Hc). lia.
      * split; [by right|]. split; [done|]. intros x Hx Hc. apply elem_of_cons in Hx as [->|Hx]; [done|by apply Hmax].
    + split; [by left|]. split; [done|]. intros x Hx Hc. apply elem_of_cons in Hx as [->|Hx]; [done|]. by rewrite IH in Hc.
  - destruct best as [b|].
    + destruct IH as (Hb & Hcb & Hmax). split; [by right|]. split; [done|].
      intros x Hx Hc. apply elem_of_cons in Hx as [->|Hx]; [congruence|by apply Hmax].
    + intros x Hx. apply elem_of_cons in Hx as [->|Hx]; [done|by apply IH].
Qed.
(** Two entries of a pool that start the prompt over the same length are one. *)
Lemma covers_toks prompt e : covers prompt e = true -> toks e = take (length (toks e)) prompt.
Proof. unfold covers. intros H. apply andb_true_iff in H as [_ H]. by apply bool_decide_eq_true in H. Qed.
(** What [lookup] finds is what the queue serves. *)
Lemma lookup_serves px l key prompt : holds px l ->
  match (i ← px_lookup px key prompt; e ← entries px !! key ≫= (.!! i); Some (i, e)) with
  | Some (i, e) => at_slot px key i e /\ (key, e) ∈ l /\ q_serve key prompt (erase <$> l) = Some (erase_e e)
  | None => q_serve key prompt (erase <$> l) = None
  end.
Proof.
  intros H. pose proof (q_serve_spec key prompt (erase <$> l)) as Hq. unfold px_lookup.
  destruct (entries px !! key) as [p|] eqn:Hp; cbn [mbind option_bind].
  - pose proof (lookup_from_spec prompt p 0 None) as Hl.
    assert (Hpool : forall e, e ∈ p <-> (key, e) ∈ l) by (intros e; rewrite <- (pool_elem px l) by done; by rewrite Hp).
    destruct (lookup_from 0 prompt None p) as [[i n]|]; cbn [fmap option_fmap option_map mbind option_bind fst].
    + destruct Hl as ([?|(e & _ & Hi & Hc & ->)] & Hmax & _); [done|]. rewrite Nat.sub_0_r in Hi. rewrite Hi. cbn.
      assert (Hin : (key, e) ∈ l) by (apply Hpool; by eapply list_elem_of_lookup_2). split; [by exists p|]. split; [done|].
      rewrite q_pool_erase in Hq. destruct (q_serve key prompt (erase <$> l)) as [b|].
      * destruct Hq as (Hb & Hcb & Hmaxb). f_equal. apply list_elem_of_fmap in Hb as (b' & -> & Hb). apply q_pool_elem in Hb.
        assert (Hlen : length (toks b') = length (toks e)).
        { apply Nat.le_antisymm; [apply Hmax; [by apply Hpool|done]|]. apply (Hmaxb (erase_e e)); [|done].
          apply list_elem_of_fmap. exists e. split; [done|]. by apply q_pool_elem. }
        assert (Ht : toks b' = toks e) by (rewrite (covers_toks prompt e Hc), (covers_toks prompt b' Hcb), Hlen; done).
        assert (Heq : (key, b') = (key, e)); [|by injection Heq as ->].
        apply (NoDup_fmap_eq _ _ _ _ (h_slots _ _ H)); [done..|]. cbn. by rewrite Ht.
      * exfalso. assert (Hf : covers prompt (erase_e e) = false).
        { apply Hq, list_elem_of_fmap. exists e. split; [done|]. by apply q_pool_elem. }
        change (covers prompt e = false) in Hf. congruence.
    + destruct Hl as [_ Hl]. destruct (q_serve key prompt (erase <$> l)) as [b|]; [|done]. exfalso. destruct Hq as (Hb & Hcb & _).
      rewrite q_pool_erase in Hb. apply list_elem_of_fmap in Hb as (b' & -> & Hb). apply q_pool_elem, Hpool, Hl in Hb. change (covers prompt b' = true) in Hcb. congruence.
  - destruct (q_serve key prompt (erase <$> l)) as [b|]; [|done]. exfalso. destruct Hq as (Hb & _). rewrite q_pool_erase in Hb.
    apply list_elem_of_fmap in Hb as (b' & -> & Hb). apply q_pool_elem, (pool_elem px l) in Hb; [|done]. rewrite Hp in Hb. by apply elem_of_nil in Hb.
Qed.

(** ** The operations preserve the relation *)

Lemma indexed_ext px px' l : indexed px l -> entries px' = entries px -> lru px' = lru px -> indexed px' l.
Proof. intros [H1 H2 H3 H4 H5] He Hl. split; unfold at_slot in *; by rewrite ?He, ?Hl. Qed.
Lemma holds_ext px px' l : holds px l -> entries px' = entries px -> lru px' = lru px -> next_id px' = next_id px ->
  total_bytes px' = total_bytes px -> holds px' l.
Proof.
  intros [Hi Hs Hd Hn Hb] He Hl Hnx Ht. split; [by eapply indexed_ext|done|done|by rewrite Hnx|by rewrite Ht].
Qed.
Lemma represents_ext budget now px px' q : represents budget now px q -> entries px' = entries px -> lru px' = lru px ->
  next_id px' = next_id px -> total_bytes px' = total_bytes px -> represents budget now px' q.
Proof.
  intros [(l & Hh & Hq & Ho) Hb] He Hl Hn Ht. split; [|done]. exists l. split; [by eapply holds_ext|done].
Qed.
Lemma represents_later budget t now px q : (t <= now)%Z -> represents budget t px q -> represents budget now px q.
Proof.
  intros Hle [(l & Hh & Hq & Ho) Hb]. split; [|done]. exists l. split; [done|]. split; [done|].
  eapply Forall_impl; [exact Ho|]. unfold older. cbn. lia.
Qed.

Lemma represents_insert budget t px q key e (px' := insert_with_budget budget key e px) :
  represents budget t px q -> (t < last_use e)%Z ->
  represents budget (last_use e) px' (q_insert budget key e q)
  /\ hits px' = hits px /\ misses px' = misses px /\ hit_tokens px' = hit_tokens px /\ lcp_hist px' = lcp_hist px.
Proof.
  intros Hr Ht. pose proof Hr as [(l & Hh & -> & Ho) Hb]. unfold px', insert_with_budget, q_insert.
  destruct (Nat.ltb_spec budget (e_bytes e)) as [|Hfit]; [split; [|done]; apply (represents_later _ t); [lia|done]|].
  rewrite (has_key_spec px l) by done. destruct (existsb _ _) eqn:Hk; [split; [|done]; apply (represents_later _ t); [lia|done]|].
  set (e1 := with_use (last_use e) (next_id px) e). set (px1 := mkPx _ _ _ _ _ _ _ _ _ _).
  assert (Hrec : Forall (fun x => recency x (key, e1)) l).
  { eapply Forall_impl; [exact Ho|]. intros x Hx. left. unfold older in Hx. cbn. lia. }
  assert (Hh1 : holds px1 (l ++ [(key, e1)])).
  { destruct Hh as [Hi Hs Hd Hn Ht1]. split.
    - by apply (indexed_ext (pushed px key e1)); [apply pushed_indexed|..].
    - rewrite fmap_app. apply NoDup_app. split; [done|]. split; [|apply NoDup_singleton].
      intros y Hy Hy2. apply list_elem_of_singleton in Hy2 as ->. apply list_elem_of_fmap in Hy as ([k x] & Heq & Hx).
      injection Heq as Hkk Htt. assert (Hex : existsb (same_slot key (toks e)) (erase <$> l) = true); [|congruence].
      rewrite existsb_fmap. apply existsb_elem. exists (k, x). split; [done|]. unfold same_slot, erase. cbn. by rewrite Hkk, <- Htt, !bool_decide_true.
    - rewrite fmap_app. apply NoDup_app. split; [done|]. split; [|apply NoDup_singleton].
      intros y Hy Hy2. apply list_elem_of_singleton in Hy2 as ->. apply list_elem_of_fmap in Hy as ([k x] & Heq & Hx).
      rewrite Forall_forall in Hn. specialize (Hn _ Hx). cbn in *. lia.
    - apply Forall_app. split; [|constructor; [cbn; lia|constructor]]. eapply Forall_impl; [exact Hn|]. cbn. lia.
    - unfold px1. cbn [total_bytes]. rewrite Ht1, queue_bytes_app. f_equal. unfold queue_bytes. cbn. lia. }
  destruct (evict_loop_fits (size (lru px1)) budget px1 _ Hh1 (holds_size _ _ Hh1)) as (gone & l' & Hl & Hh' & Hd & Hc & Hc2).
  split; [|done]. split; [exists l'; split; [done|]|apply drop_oldest_fits]. split.
  - rewrite Hd, fmap_app. done.
  - assert (Hf : Forall (older (last_use e + 1)) (gone ++ l')); [|by apply Forall_app in Hf as [_ Hf]].
    rewrite <- Hl. apply Forall_app. split; [|constructor; [unfold older; cbn; lia|constructor]].
    eapply Forall_impl; [exact Ho|]. unfold older. cbn. lia.
Qed.

Definition erase_probe (r : Probe) : Probe := match r with Hit e => Hit (erase_e e) | m => m end.
Lemma represents_miss budget now px q key prompt : represents budget now px q ->
  represents budget now (probe_miss key prompt px).1 q /\ (probe_miss key prompt px).2 = q_miss key prompt q.
Proof.
  intros Hr. split; [by apply (represents_ext _ _ px)|]. destruct Hr as [(l & Hh & -> & _) _].
  unfold probe_miss, q_miss. cbn [snd]. by rewrite (best_lcp_spec px l), (has_key_spec px l).
Qed.
Lemma represents_empty budget now px : entries px = ∅ -> lru px = ∅ -> total_bytes px = 0 -> represents budget now px [].
Proof.
  intros He Hl Ht. split; [|apply Nat.le_0_l]. exists []. split; [|done]. split; [|constructor..|done].
  split; unfold at_slot; rewrite ?He, ?Hl.
  - by intros k i e (p & H%lookup_empty_Some & _).
  - by intros lk k i H%lookup_empty_Some.
  - intros k e. split; [by intros ?%elem_of_nil|]. by intros (i & p & H%lookup_empty_Some & _).
  - constructor.
  - intros k. by rewrite lookup_empty.
Qed.
Lemma q_touch_mid key e l1 l2 : NoDup ((fun x : item => (x.1, toks x.2)) <$> l1 ++ (key, e) :: l2) ->
  q_touch key (toks e) (erase <$> l1 ++ (key, e) :: l2) = erase <$> (l1 ++ l2 ++ [(key, e)]).
Proof.
  intros Hn. assert (Hfilter : forall p (l : list item), List.filter p (erase <$> l) = erase <$> List.filter (fun x => p (erase x)) l).
  { intros p l. induction l as [|x l IH]; [done|]. cbn. destruct (p (erase x)); cbn; by rewrite IH. }
  assert (Hnone : forall l, l ⊆ l1 ++ l2 -> List.filter (same_slot key (toks e)) l = [] /\ List.filter (fun x => negb (same_slot key (toks e) x)) l = l).
  { intros l Hl. assert (Hf : forall x, x ∈ l -> same_slot key (toks e) x = false).
    { intros [k x] Hx. unfold same_slot. cbn. destruct (decide (k = key)) as [->|]; [|by rewrite bool_decide_false].
      rewrite (bool_decide_false (toks x = toks e)); [by rewrite andb_false_r|]. intros Heq.
      rewrite fmap_app in Hn. cbn [fmap list_fmap] in Hn. apply NoDup_app_not_in in Hn as [H1 H2]. apply Hl in Hx.
      apply elem_of_app in Hx as [Hx|Hx]; [apply H1|apply H2]; apply list_elem_of_fmap; exists (key, x); cbn; by rewrite Heq. }
    clear Hl. induction l as [|x l IH]; [done|]. destruct IH as [IH1 IH2]; [intros y Hy; apply Hf; by right|].
    cbn. rewrite Hf by by left. cbn. by rewrite IH1, IH2. }
  destruct (Hnone l1) as [H1 H2]; [set_solver|]. destruct (Hnone l2) as [H3 H4]; [set_solver|].
  unfold q_touch. rewrite !Hfilter, <- fmap_app. f_equal.
  change (List.filter (fun x => negb (same_slot key (toks e) x)) (l1 ++ (key, e) :: l2) ++
    List.filter (same_slot key (toks e)) (l1 ++ (key, e) :: l2) = l1 ++ l2 ++ [(key, e)]). rewrite !List.filter_app. cbn [List.filter].
  assert (Hs : same_slot key (toks e) (key, e) = true) by (unfold same_slot; by rewrite !bool_decide_true).
  rewrite Hs, H1, H2, H3, H4. cbn. by rewrite app_assoc.
Qed.
Lemma represents_probe budget t now px q key prompt restore : represents budget t px q -> (t < now)%Z ->
  represents budget now (probe now key prompt restore px).1 (q_probe key prompt restore q).1
  /\ erase_probe (probe now key prompt restore px).2 = (q_probe key prompt restore q).2.
Proof.
  intros Hr Ht. pose proof (represents_later _ _ now _ _ (Z.lt_le_incl _ _ Ht) Hr) as Hr'.
  pose proof Hr as [(l & Hh & -> & Ho) Hb]. pose proof (lookup_serves px l key prompt Hh) as Hl.
  assert (Hmiss : forall px q, represents budget now px q -> represents budget now (probe_miss key prompt px).1 q
      /\ erase_probe (probe_miss key prompt px).2 = q_miss key prompt q).
  { intros px' q' H'. destruct (represents_miss _ _ _ _ key prompt H') as [H1 H2]. split; [done|]. by rewrite <- H2. }
  unfold probe, q_probe. destruct (_ ≫= _) as [[i e]|]; [|rewrite Hl; by apply Hmiss].
  destruct Hl as (Hs & Hin & ->). destruct restore; [|apply Hmiss; by apply represents_empty|by apply Hmiss].
  cbn [fst snd erase_probe]. split; [|done]. apply list_elem_of_split in Hin as (l1 & l2 & ->).
  assert (Ho' : Forall (older now) (l1 ++ (key, e) :: l2)) by (eapply Forall_impl; [exact Ho|]; unfold older; cbn; lia).
  apply (represents_ext _ _ (touch now key i px)); [|done..]. pose proof (q_touch_mid key e l1 l2 (h_slots _ _ Hh)) as Hq. split.
  - eexists. split; [by apply touch_holds|]. split.
    + change (toks (erase_e e)) with (toks e). rewrite Hq, !fmap_app. done.
    + apply Forall_app in Ho' as [Ho1 Ho2]. inversion_clear Ho2 as [|? ? _ Ho3].
      repeat (apply Forall_app; split); [..|constructor; [unfold older; cbn; lia|constructor]]; eapply Forall_impl; try eassumption; unfold older; cbn; lia.
  - change (toks (erase_e e)) with (toks e). rewrite Hq. rewrite erase_bytes in *. rewrite !queue_bytes_app, !queue_bytes_cons in *.
    change (queue_bytes []) with 0. lia.
Qed.

(** ** Sequences of operations *)

Inductive Op :=
  | Insert (key : PoolKey) (e : PrefixEntry)
  | ProbeOp (now : Z) (key : PoolKey) (prompt : list Z) (restore : Restored)
  | EvictAll.
Fixpoint run (budget : nat) (ops : list Op) px : PrefixCache * list Probe :=
  match ops with
  | [] => (px, [])
  | Insert key e :: ops => run budget ops (insert_with_budget budget key e px)
  | ProbeOp now key prompt r :: ops =>
      let '(px, x) := probe now key prompt r px in let '(px, xs) := run budget ops px in (px, x :: xs)
  | EvictAll :: ops => run budget ops (evict_all px).1
  end.
Fixpoint q_run (budget : nat) (ops : list Op) (q : queue) : queue * list Probe :=
  match ops with
  | [] => (q, [])
  | Insert key e :: ops => q_run budget ops (q_insert budget key e q)
  | ProbeOp _ key prompt r :: ops =>
      let '(q, x) := q_probe key prompt r q in let '(q, xs) := q_run budget ops q in (q, x :: xs)
  | EvictAll :: ops => q_run budget ops []
  end.
(** Uses happen at increasing times: an entry is stamped when it is made. *)
Fixpoint timed (t : Z) (ops : list Op) : Prop :=
  match ops with
  | [] => True
  | Insert _ e :: ops => (t < last_use e)%Z /\ timed (last_use e) ops
  | ProbeOp now _ _ _ :: ops => (t < now)%Z /\ timed now ops
  | EvictAll :: ops => timed t ops
  end.

(** The counters after probes [xs], from those of [px]. *)
Definition is_hit (x : Probe) : bool := match x with Hit _ => true | Miss _ _ => false end.
Definition hit_length (x : Probe) : nat := match x with Hit e => length (toks e) | Miss _ _ => 0 end.
Definition zsum (l : list Z) : Z := foldr Z.add 0%Z l.
Record counted px (xs : list Probe) px' : Prop := {
  c_hits : hits px' = (hits px + Z.of_nat (length (List.filter is_hit xs)))%Z;
  c_misses : misses px' = (misses px + Z.of_nat (length (List.filter (fun x => negb (is_hit x)) xs)))%Z;
  c_tokens : hit_tokens px' = (hit_tokens px + Z.of_nat (list_sum (hit_length <$> xs)))%Z;
  c_hist : length (lcp_hist px) = 11 -> length (lcp_hist px') = 11 /\
    zsum (lcp_hist px') = (zsum (lcp_hist px) + Z.of_nat (length xs))%Z;
}.
Lemma counted_same px px' : hits px' = hits px -> misses px' = misses px -> hit_tokens px' = hit_tokens px ->
  lcp_hist px' = lcp_hist px -> counted px [] px'.
Proof. intros H1 H2 H3 H4. split; rewrite ?H1, ?H2, ?H3, ?H4; cbn; try lia. Qed.
Lemma counted_app px xs px' ys px'' : counted px xs px' -> counted px' ys px'' -> counted px (xs ++ ys) px''.
Proof.
  intros [H1 H2 H3 H4] [G1 G2 G3 G4]. split.
  - rewrite G1, H1, List.filter_app, length_app. lia.
  - rewrite G2, H2, List.filter_app, length_app. lia.
  - rewrite G3, H3, fmap_app, list_sum_app. lia.
  - intros Hl. destruct (H4 Hl) as [Hl' Hs]. destruct (G4 Hl') as [Hl'' Hs']. split; [done|]. rewrite Hs', Hs, length_app. lia.
Qed.
Lemma lcp_bucket_from_lt edges n i best : best < i + length edges -> lcp_bucket_from i edges n best < i + length edges.
Proof.
  revert i best. induction edges as [|e edges IH]; intros i best Hb; cbn [lcp_bucket_from length] in *; [lia|].
  rewrite Nat.add_succ_r in *. apply (IH (S i)). destruct (e <=? n); lia.
Qed.
Lemma zsum_alter i (l : list Z) : i < length l -> zsum (alter (Z.add 1) i l) = (zsum l + 1)%Z.
Proof.
  revert i. induction l as [|x l IH]; intros i Hi; cbn in Hi; [lia|]. destruct i as [|i]; cbn; [lia|].
  rewrite <- Z.add_assoc. f_equal. unfold zsum in IH. apply IH. lia.
Qed.
Lemma record_hist n px : length (lcp_hist px) = 11 -> length (lcp_hist (record_lcp n px)) = 11 /\
  zsum (lcp_hist (record_lcp n px)) = (zsum (lcp_hist px) + 1)%Z.
Proof.
  intros Hl. unfold record_lcp. cbn [lcp_hist]. rewrite length_alter. split; [done|]. apply zsum_alter. rewrite Hl.
  apply (lcp_bucket_from_lt LCP_HIST_EDGES n 0 0). cbn. lia.
Qed.
Lemma probe_counted budget t now px q key prompt r : represents budget t px q ->
  counted px [(probe now key prompt r px).2] (probe now key prompt r px).1.
Proof.
  intros [(l & Hh & _ & Ho) _]. assert (Hmiss : forall px', hits px' = hits px -> misses px' = misses px -> hit_tokens px' = hit_tokens px ->
      lcp_hist px' = lcp_hist px -> counted px [(probe_miss key prompt px').2] (probe_miss key prompt px').1).
  { intros px' H1 H2 H3 H4. unfold probe_miss. split; cbn [fst snd hits misses hit_tokens record_lcp count_miss is_hit negb List.filter length hit_length fmap list_fmap list_sum foldr]; rewrite ?H1, ?H2, ?H3; [lia..|].
    intros Hl. rewrite <- H4 in *. apply (record_hist _ (count_miss px')). done. }
  unfold probe. pose proof (lookup_serves px l key prompt Hh) as Hl. destruct (_ ≫= _) as [[i e]|]; [|by apply Hmiss].
  destruct Hl as (Hs & _). destruct r; [|by apply Hmiss..]. cbn [fst snd].
  destruct (touch_fields px key i e now Hs) as (_ & _ & H1 & H2 & H3 & H4).
  split; cbn [hits misses hit_tokens record_lcp count_hit is_hit negb List.filter length hit_length fmap list_fmap list_sum foldr]; rewrite ?H1, ?H2, ?H3; [lia..|].
  intros Hl. rewrite <- H4 in *. by apply (record_hist _ (count_hit _ (touch now key i px))).
Qed.

Lemma run_represents budget ops : forall t px q, represents budget t px q -> timed t ops ->
  (exists t', represents budget t' (run budget ops px).1 (q_run budget ops q).1)
  /\ erase_probe <$> (run budget ops px).2 = (q_run budget ops q).2
  /\ counted px (run budget ops px).2 (run budget ops px).1.
Proof.
  induction ops as [|[key e|now key prompt r|] ops IH]; intros t px q Hr Ht; cbn [run q_run].
  - split; [by exists t|]. split; [done|]. by apply counted_same.
  - destruct Ht as [Hlt Ht]. destruct (represents_insert _ _ _ _ key e Hr Hlt) as (Hr' & H1 & H2 & H3 & H4).
    destruct (IH _ _ _ Hr' Ht) as (Ha & Hb & Hc). split; [done|]. split; [done|].
    apply (counted_app _ [] (insert_with_budget budget key e px)); [by apply counted_same|done].
  - destruct Ht as [Hlt Ht]. destruct (represents_probe _ _ _ _ _ key prompt r Hr Hlt) as [Hr' Hx].
    pose proof (probe_counted budget t now px q key prompt r Hr) as Hp.
    destruct (probe now key prompt r px) as [px' x]. destruct (q_probe key prompt r q) as [q' x']. cbn [fst snd] in *.
    destruct (IH _ _ _ Hr' Ht) as (Ha & Hb & Hc). destruct (run budget ops px') as [px'' xs], (q_run budget ops q') as [q'' xs']. cbn [fst snd] in *.
    split; [done|]. split; [by rewrite fmap_cons, Hx, Hb|]. by apply (counted_app _ [x] px').
  - destruct (IH t (evict_all px).1 []) as (Ha & Hb & Hc); [by apply represents_empty|done|]. split; [done|]. split; [done|].
    apply (counted_app _ [] (evict_all px).1); [by apply counted_same|done].
Qed.
End Spec.

(** C27. The prefix cache is an LRU queue: after any sequence of insertions,
    probes and flushes at increasing times it stays within its byte budget, its
    byte count is that of the queue, every probe has the outcome the queue gives
    (the longest entry of the caller's own pool that starts the prompt, or the
    snapshot plan), membership, covering and longest-common-prefix queries agree
    with the queue, and the hit, miss, token and histogram counters are exact. *)
Theorem prefix_cache_lru {kd : KvDev} (budget : nat) (ops : list Op) :
  timed 0 ops ->
  let '(px, xs) := run budget ops px_default in
  let '(q, xs') := q_run budget ops [] in
  erase_probe <$> xs = xs'
  /\ total_bytes px = queue_bytes q /\ queue_bytes q <= budget
  /\ (forall key ts, has_key px key ts = existsb (same_slot key ts) q)
  /\ (forall key prompt, has_covering px key prompt = existsb (covers prompt) (q_pool key q))
  /\ (forall key prompt, best_lcp px key prompt = q_best_lcp key prompt q)
  /\ counted px_default xs px.
Proof.
  intros Ht. destruct (run_represents budget ops 0 px_default []) as ((t & Hr) & Hx & Hc); [by apply represents_empty|done|].
  destruct (run budget ops px_default) as [px xs], (q_run budget ops []) as [q xs']. cbn [fst snd] in *.
  destruct Hr as [(l & Hh & -> & _) Hb]. split; [done|]. split; [rewrite erase_bytes; apply (h_bytes _ _ Hh)|]. split; [done|].
  split; [intros; by apply has_key_spec|]. split; [intros; by apply has_covering_spec|]. split; [intros; by apply best_lcp_spec|done].
Qed.

(** ** Whose entry is served *)
Section Own.
Context {kd : KvDev}.

Lemma q_insert_items budget key e q x : x ∈ q_insert budget key e q -> x ∈ q \/ x = erase (key, e).
Proof.
  unfold q_insert. destruct (_ <? _); [by left|]. destruct (existsb _ _); [by left|]. intros Hx.
  destruct (drop_oldest_suffix budget (q ++ [erase (key, e)])) as [gone Hg].
  assert (Hin : x ∈ q ++ [erase (key, e)]) by (rewrite Hg; apply elem_of_app; by right). set_solver.
Qed.
Lemma q_probe_items key prompt r q x : x ∈ (q_probe key prompt r q).1 -> x ∈ q.
Proof.
  unfold q_probe. destruct (q_serve _ _ _) as [e|]; [|done]. destruct r; cbn [fst]; [|by intros ?%elem_of_nil|done].
  unfold q_touch. rewrite elem_of_app, !list_elem_of_In, !filter_In. tauto.
Qed.
Lemma q_run_items budget ops q key x : (key, x) ∈ (q_run budget ops q).1 ->
  (key, x) ∈ q \/ exists e0, Insert key e0 ∈ ops /\ x = with_use 0 0 e0.
Proof.
  revert q. induction ops as [|[k e|now k p r|] ops IH]; intros q; cbn [q_run]; [by left|..].
  - intros H. destruct (IH _ H) as [Hq|(e0 & Hin & ->)]; [|right; exists e0; split; [by right|done]].
    destruct (q_insert_items _ _ _ _ _ Hq) as [|[= -> ->]]; [by left|]. right. exists e. split; [by left|done].
  - pose proof (q_probe_items k p r q) as Hpr. destruct (q_probe k p r q) as [q' y]. specialize (IH q').
    destruct (q_run budget ops q') as [q'' ys]. cbn [fst] in *. intros H. destruct (IH H) as [Hq|(e0 & Hin & ->)]; [left; by apply Hpr|].
    right. exists e0. split; [by right|done].
  - intros H. destruct (IH _ H) as [Hq|(e0 & Hin & ->)]; [by apply elem_of_nil in Hq|]. right. exists e0. split; [by right|done].
Qed.
(** *** What a pool answers *)

Definition pool_of px key : list PrefixEntry := default [] (entries px !! key).
(** An entry a prompt may resume from: it starts the prompt, and is long enough. *)
Definition resumable prompt e : Prop := PREFIX_CACHE_MIN_TOKENS <= length (toks e) /\ toks e `prefix_of` prompt.
(** [l] is the length of the longest prefix the prompt shares with an entry. *)
Definition shares prompt (pool : list PrefixEntry) (l : nat) : Prop :=
  l <= length prompt /\ (exists e, e ∈ pool /\ take l prompt `prefix_of` toks e) /\
  forall e m, e ∈ pool -> m <= length prompt -> take m prompt `prefix_of` toks e -> m <= l.
(** The answer to a probe: the longest stored prefix if there is one and its copy succeeds;
    else a miss, which asks for a snapshot where the prompt leaves the stored entries. *)
Record answers prompt (r : Restored) (pool : list PrefixEntry) (x : Probe) : Prop := {
  an_longest e : x = Hit e -> r = ROk /\ e ∈ pool /\ resumable prompt e /\
    forall e', e' ∈ pool -> resumable prompt e' -> length (toks e') <= length (toks e);
  an_hits e : r = ROk -> e ∈ pool -> resumable prompt e -> exists e', x = Hit e';
  (** when memory ran out for the copy, the cache was emptied first *)
  an_miss at_ seed : x = Miss at_ seed ->
    let pool' := match r with RAllocFailed => if existsb (covers prompt) pool then [] else pool | _ => pool end in
    (seed = true <-> PREFIX_CACHE_MIN_TOKENS <= length prompt) /\
    forall l, at_ = Some l <-> shares prompt pool' l /\ PREFIX_CACHE_MIN_TOKENS <= l < length prompt /\ forall e, e ∈ pool' -> toks e <> take l prompt;
}.
Lemma covers_resumable prompt e : covers prompt e = true <-> resumable prompt e.
Proof.
  unfold covers, resumable. rewrite !andb_true_iff, !Nat.leb_le, bool_decide_eq_true. split.
  - intros [[H1 H2] H3]. split; [done|]. rewrite <- H3. apply prefix_take.
  - intros [H1 [t ->]]. rewrite length_app, take_app_length. split; [split; [done|lia]|done].
Qed.
Lemma lcp_spec a b m : m <= length b -> m <= lcp a b <-> take m b `prefix_of` a.
Proof.
  revert b m. induction a as [|x a IH]; intros b [|m] Hm; try (split; [intros _; apply prefix_nil|lia]).
  - destruct b as [|y b]; cbn [length] in Hm; [lia|]. split; [cbn; lia|]. by intros [t Ht].
  - destruct b as [|y b]; cbn [lcp take length] in *; [lia|]. destruct (Z.eqb_spec x y) as [->|Hne].
    + rewrite <- Nat.succ_le_mono, IH by lia. split; [apply prefix_cons|apply prefix_cons_inv_2].
    + split; [lia|]. intros Hp%prefix_cons_inv_1. congruence.
Qed.
Lemma lcp_le a b : lcp a b <= length b.
Proof. revert b. induction a as [|x a IH]; intros [|y b]; cbn [lcp length]; try lia. destruct (x =? y)%Z; [specialize (IH b)|]; lia. Qed.
Lemma max_lcp_shares prompt (pool : list PrefixEntry) l : pool <> [] ->
  shares prompt pool l <-> foldr (fun e m => Nat.max (lcp (toks e) prompt) m) 0 pool = l.
Proof.
  intros Hne. set (M := foldr _ 0 pool). assert (Hle : forall e, e ∈ pool -> lcp (toks e) prompt <= M) by (by apply max_lcp_le).
  assert (HM : exists e, e ∈ pool /\ M = lcp (toks e) prompt).
  { subst M. clear Hle. induction pool as [|e p IH]; [done|]. cbn [foldr]. destruct p as [|y p]; [exists e; split; [by left|cbn [foldr]; lia]|].
    destruct IH as (x & Hx & Hm); [done|]. rewrite Hm. destruct (Nat.le_ge_cases (lcp (toks e) prompt) (lcp (toks x) prompt)).
    - exists x. split; [by right|lia].
    - exists e. split; [by left|lia]. }
  destruct HM as (e & He & HM). pose proof (lcp_le (toks e) prompt) as Hlen. split.
  - intros (Hl & (e' & He' & Hp) & Hmax). apply Nat.le_antisymm.
    + apply (Hmax e); [done|lia|]. apply lcp_spec; lia.
    + apply (proj2 (lcp_spec _ _ _ Hl)) in Hp. specialize (Hle e' He'). lia.
  - intros <-. split; [lia|]. split; [exists e; split; [done|]; apply lcp_spec; lia|]. intros e' m He' Hm Hp. apply (proj2 (lcp_spec _ _ _ Hm)) in Hp. specialize (Hle e' He'). lia.
Qed.
Lemma best_lcp_pool px key prompt : best_lcp px key prompt = foldr (fun e m => Nat.max (lcp (toks e) prompt) m) 0 (pool_of px key).
Proof. unfold best_lcp, pool_of. by destruct (entries px !! key). Qed.
Lemma has_key_pool px key ts : has_key px key ts = existsb (fun e => bool_decide (toks e = ts)) (pool_of px key).
Proof. unfold has_key, pool_of. by destruct (entries px !! key). Qed.
Lemma miss_answers px key prompt at_ seed : (probe_miss key prompt px).2 = Miss at_ seed ->
  (seed = true <-> PREFIX_CACHE_MIN_TOKENS <= length prompt) /\
  forall l, at_ = Some l <-> shares prompt (pool_of px key) l /\ PREFIX_CACHE_MIN_TOKENS <= l < length prompt /\ forall e, e ∈ pool_of px key -> toks e <> take l prompt.
Proof.
  unfold probe_miss. cbn [snd]. set (sd := PREFIX_CACHE_MIN_TOKENS <=? length prompt). assert (Hsd : sd = true <-> PREFIX_CACHE_MIN_TOKENS <= length prompt) by apply Nat.leb_le.
  clearbody sd. match goal with |- Miss ?x _ = _ -> _ => set (sp := x) end. intros Hx. assert (at_ = sp /\ seed = sd) as [-> ->] by (clearbody sp; injection Hx; done). subst sp. split; [exact Hsd|]. intros l. rewrite best_lcp_pool, has_key_pool. set (M := foldr _ 0 _).
  assert (Hno : forall k, existsb (fun e => bool_decide (toks e = take k prompt)) (pool_of px key) = false <-> forall e, e ∈ pool_of px key -> toks e <> take k prompt).
  { intros k. rewrite <- not_true_iff_false, existsb_elem. setoid_rewrite bool_decide_eq_true. naive_solver. }
  destruct (decide (pool_of px key = [])) as [Hnil|Hne].
  - assert (HM : M = 0) by (subst M; by rewrite Hnil). rewrite HM. cbn. split; [done|]. intros ((_ & (e & He & _) & _) & _). rewrite Hnil in He. by apply elem_of_nil in He.
  - rewrite (max_lcp_shares prompt _ l Hne). fold M. destruct ((PREFIX_CACHE_MIN_TOKENS <=? M) && (M <? length prompt) && negb _) eqn:E.
    + apply andb_true_iff in E as [[H1%Nat.leb_le H2%Nat.ltb_lt]%andb_true_iff H3%negb_true_iff]. rewrite Hno in H3. split; [intros [= <-]; done|]. by intros [<- _].
    + split; [done|]. intros (<- & [H1 H2] & H3%Hno). apply Nat.leb_le in H1. apply Nat.ltb_lt in H2. by rewrite H1, H2, H3 in E.
Qed.
Lemma found_longest px key prompt :
  match (i ← px_lookup px key prompt; e ← entries px !! key ≫= (.!! i); Some (i, e)) with
  | Some (_, e) => e ∈ pool_of px key /\ resumable prompt e /\ forall e', e' ∈ pool_of px key -> resumable prompt e' -> length (toks e') <= length (toks e)
  | None => forall e, e ∈ pool_of px key -> ~ resumable prompt e
  end.
Proof.
  unfold px_lookup, pool_of. destruct (entries px !! key) as [p|] eqn:Hp; cbn [mbind option_bind default]; [|by intros e ?%elem_of_nil].
  pose proof (lookup_from_spec prompt p 0 None) as Hl. destruct (lookup_from 0 prompt None p) as [[i n]|]; cbn [fmap option_fmap option_map mbind option_bind fst].
  - destruct Hl as ([?|(e & _ & Hi & Hc & ->)] & Hmax & _); [done|]. rewrite Nat.sub_0_r in Hi. rewrite Hi. cbn [mbind option_bind].
    split; [by eapply list_elem_of_lookup_2|]. split; [by apply covers_resumable|]. intros e' He' Hr. apply Hmax; [done|by apply covers_resumable].
  - destruct Hl as [_ Hl]. intros e He Hr%covers_resumable. by rewrite Hl in Hr.
Qed.
Lemma probe_answers now key prompt r px : answers prompt r (pool_of px key) (probe now key prompt r px).2.
Proof.
  pose proof (found_longest px key prompt) as Hf. unfold probe. destruct (_ ≫= _) as [[i e]|].
  - destruct Hf as (He & Hr & Hmax). assert (Hex : existsb (covers prompt) (pool_of px key) = true) by (apply existsb_elem; exists e; by rewrite covers_resumable).
    destruct r; cbn [snd]; split; try (intros; discriminate).
    + intros e' [= <-]. done.
    + intros; by eexists.
    + intros at_ seed Hm. rewrite Hex. cbv zeta. by apply (miss_answers (evict_all px).1 key).
    + by apply miss_answers.
  - assert (Hex : existsb (covers prompt) (pool_of px key) = false).
    { apply not_true_iff_false. rewrite existsb_elem. intros (e & He & Hc%covers_resumable). by apply (Hf e). }
    split; [by intros|intros e _ He Hr; by destruct (Hf e)|]. intros at_ seed Hm. rewrite Hex.
    assert (Hp : match r with RAllocFailed => pool_of px key | _ => pool_of px key end = pool_of px key) by (by destruct r). rewrite Hp. by apply miss_answers.
Qed.
(** An answer depends on the pool alone. *)
Lemma probe_pool now now' key prompt r px px' : entries px' !! key = entries px !! key -> (probe now' key prompt r px').2 = (probe now key prompt r px).2.
Proof.
  intros Hp. assert (Hm : forall q q' : PrefixCache, entries q' !! key = entries q !! key -> (probe_miss key prompt q').2 = (probe_miss key prompt q).2).
  { intros q q' Hq. unfold probe_miss, best_lcp, has_key. cbn [snd]. by rewrite Hq. }
  unfold probe, px_lookup. rewrite Hp. destruct (_ ≫= _) as [[i e]|]; [|by apply Hm]. destruct r; cbn [snd]; [done|by apply Hm|by apply Hm].
Qed.
End Own.

(** C28. After any sequence of operations by any callers, a probe answers from its own
    pool, whose entries were all inserted under the same model and namespace: it serves
    the longest of them that starts the prompt, at least 64 tokens long, whenever there
    is one and its copy succeeds; a miss asks for a snapshot exactly where the prompt leaves the
    longest common prefix, when that is worth storing and is not stored.  The answer is a
    function of that pool: other namespaces influence it only by evicting from it, since
    the byte budget is shared. *)
Theorem prefix_hit_own {kd : KvDev} (budget : nat) (ops : list Op) (now : Z) (key : PoolKey) (prompt : list Z) (r : Restored) :
  timed 0 ops -> let px := (run budget ops px_default).1 in
  (forall e, e ∈ pool_of px key -> exists e0, Insert key e0 ∈ ops /\ with_use 0 0 e = with_use 0 0 e0) /\
  answers prompt r (pool_of px key) (probe now key prompt r px).2 /\
  (forall px' now', entries px' !! key = entries px !! key -> (probe now' key prompt r px').2 = (probe now key prompt r px).2).
Proof.
  intros Ht px. split; [|split; [apply probe_answers|by intros; apply probe_pool]].
  destruct (run_represents budget ops 0 px_default []) as ((t & Hr) & _); [by apply represents_empty|done|].
  fold px in Hr. destruct Hr as [(l & Hh & Hq & _) _]. intros e He. apply (pool_elem px l) in He; [|done].
  destruct (q_run_items budget ops [] key (with_use 0 0 e)) as [Hn|(e0 & Hin & Heq)].
  - rewrite Hq. apply list_elem_of_fmap. by exists (key, e).
  - by apply elem_of_nil in Hn.
  - by exists e0.
Qed.

(** ** Concrete instances *)
Module PrefixWitness.
Import ToyKv.
Definition toy_key (ns : string) : PoolKey := (lit "m", lit ns).
Definition toy_entry (tok : Z) (bytes : nat) (now : Z) : PrefixEntry := mkPrefix (replicate 64 tok) [] [] [] 64 [] bytes now 0.
(** Two namespaces; the hit saves the oldest entry, the last insertion evicts the other's. *)
Definition toy_ops : list Op :=
  [Insert (toy_key "a") (toy_entry 1 4 1); Insert (toy_key "b") (toy_entry 1 4 2);
   ProbeOp 3 (toy_key "a") (replicate 65 1%Z) ROk; ProbeOp 4 (toy_key "c") (replicate 65 1%Z) ROk;
   Insert (toy_key "a") (toy_entry 2 4 5)].
Lemma prefix_cache_lru_witness :
  let px := (run 8 toy_ops px_default).1 in
  total_bytes px = 8 /\ has_key px (toy_key "a") (replicate 64 1%Z) = true /\ has_key px (toy_key "b") (replicate 64 1%Z) = false
  /\ hits px = 1%Z /\ misses px = 1%Z.
Proof.
  pose proof (prefix_cache_lru 8 toy_ops ltac:(cbn; lia)) as H.
  assert (Hq : fst <$> (q_run 8 toy_ops []).1 = [toy_key "a"; toy_key "a"]) by (vm_compute; reflexivity).
  assert (Hk : queue_bytes (q_run 8 toy_ops []).1 = 8) by (vm_compute; reflexivity).
  assert (Ha : existsb (same_slot (toy_key "a") (replicate 64 1%Z)) (q_run 8 toy_ops []).1 = true) by (vm_compute; reflexivity).
  assert (Hb : existsb (same_slot (toy_key "b") (replicate 64 1%Z)) (q_run 8 toy_ops []).1 = false) by (vm_compute; reflexivity).
  assert (Hx : is_hit <$> (q_run 8 toy_ops []).2 = [true; false]) by (vm_compute; reflexivity).
  destruct (run 8 toy_ops px_default) as [px xs]. destruct (q_run 8 toy_ops []) as [q xs']. cbn [fst snd] in *.
  destruct H as (He & Ht & _ & Hkey & _ & _ & Hc). rewrite !Hkey, Ht, Hk, Ha, Hb. split; [done|]. split; [done|]. split; [done|].
  assert (Hxs : is_hit <$> xs = [true; false]).
  { rewrite <- Hx, <- He, <- list_fmap_compose. apply list_fmap_ext. by intros i [e|m b] _. }
  destruct xs as [|x [|y [|z xs]]]; try discriminate Hxs. injection Hxs as Hx1 Hx2.
  destruct Hc as [Hh Hm _ _]. rewrite Hh, Hm. cbn [List.filter]. rewrite Hx1, Hx2. done.
Defined.
(** Two entries of the pool start the prompt: the longer is served. *)
Definition toy_long : list Op := toy_ops ++ [Insert (toy_key "a") (mkPrefix (replicate 66 2%Z) [] [] [] 66 [] 2 6 0)].
Lemma prefix_hit_own_witness :
  exists e, (probe 7 (toy_key "a") (replicate 70 2%Z) ROk (run 10 toy_long px_default).1).2 = Hit e
    /\ length (toks e) = 66 /\ exists e0, Insert (toy_key "a") e0 ∈ toy_long /\ with_use 0 0 e = with_use 0 0 e0.
Proof.
  destruct (prefix_hit_own 10 toy_long 7 (toy_key "a") (replicate 70 2%Z) ROk ltac:(cbn; lia)) as (Hown & Hans & _).
  assert (Hh : hit_length (probe 7 (toy_key "a") (replicate 70 2%Z) ROk (run 10 toy_long px_default).1).2 = 66) by (vm_compute; reflexivity).
  destruct (probe _ _ _ _ _) as [px [e|m b]]; cbn [snd] in *; [|discriminate Hh].
  exists e. split; [done|]. split; [exact Hh|]. apply Hown. by destruct (an_longest _ _ _ _ Hans e eq_refl) as (_ & He & _).
Defined.
End PrefixWitness.
