(* ===== verification/Prefill.v ===== *)
(** Priming a prompt: [prefill_tick], [prefix_insert_from_session],
    [maybe_prefix_seed], the prefill half of [step_session] and the part of
    [admit] that opens a session on the prefix cache, in
    [memra-server/src/worker.rs].

    A session's prompt tokens wait in a queue and are fed to its cache in chunks
    under a token budget, or one by one; on the way the primed state may be
    snapshot into the prefix cache.  The forward pass is a parameter ([Trunk]); an
    [Err] ends the session, whose state is then dropped.  Tracing
    ([MEMRA_CONFIDENCE_TRACE]) is off. *)
From S2P Require Import Prelude Effects RustStr Sampling KvCache PrefixCache.
Local Open Scope nat_scope.

Definition PRIME_MIN_T : nat := 16.
Definition PREFILL_TICK_T : nat := 1024.

(** [prime_cache cache tokens queued_after] and [decode_step cache token]: the
    last row of logits, and the cache after. *)
Class Trunk {kd : KvDev} := {
  prime_cache : Cache -> list Z -> nat -> D (list f32 * Cache);
  decode_step : Cache -> Z -> D (list f32 * Cache);
}.

Section Prefill.
Context {kd : KvDev} {tr : Trunk}.

(** The part of a session that priming reads and writes. *)
Record Prime := mkPrime {
  p_key : PoolKey;
  p_cache : option Cache;
  p_sampler : Sampler;
  p_logits : list f32;
  p_fed : list Z;
  prefill_queue : list Z;
  p_done : bool;
  p_cached : nat;
  snapshot_at : option nat;
  seed_prefix : bool;
}.
Implicit Types (s : Prime) (px : PrefixCache).

Definition no_snapshot s : Prime :=
  mkPrime (p_key s) (p_cache s) (p_sampler s) (p_logits s) (p_fed s) (prefill_queue s) (p_done s) (p_cached s) None (seed_prefix s).
Definition no_seed s : Prime :=
  mkPrime (p_key s) (p_cache s) (p_sampler s) (p_logits s) (p_fed s) (prefill_queue s) (p_done s) (p_cached s) (snapshot_at s) false.
Definition set_done s : Prime :=
  mkPrime (p_key s) (p_cache s) (p_sampler s) (p_logits s) (p_fed s) (prefill_queue s) true (p_cached s) (snapshot_at s) (seed_prefix s).
(** [last_logits = l; for &tok in chunk { fed.push(tok); sampler.accept(tok) }] *)
Definition primed_by (l : list f32) (c : Cache) (chunk rest : list Z) s : Prime :=
  mkPrime (p_key s) (Some c) (foldl (fun sm t => accept t sm) (p_sampler s) chunk) l (p_fed s ++ chunk) rest (p_done s) (p_cached s)
    (snapshot_at s) (seed_prefix s).

(** ** Into the prefix cache *)

(** [dev_] is the device, [budget] the prefix cache's, [now] the clock. *)
Definition prefix_insert_from_session (dev_ budget : nat) (now : Z) s px : D PrefixCache :=
  match p_cache s, p_logits s with
  | None, _ | _, [] => ret px
  | Some c, _ =>
      r ← attempt (prefix_snapshot dev_ now c (p_fed s) (p_logits s));
      ret match r with inl e => insert_with_budget budget (p_key s) e px | inr _ => px end
  end.
Definition maybe_prefix_seed (dev_ budget : nat) (now : Z) s px : D (Prime * PrefixCache) :=
  if negb (seed_prefix s) then ret (s, px)
  else
    let s := no_seed s in
    if (0 <? p_cached s) || match p_cache s with None => true | Some _ => false end || (length (p_fed s) <? PREFIX_CACHE_MIN_TOKENS)
    then ret (s, px)
    else if has_covering px (p_key s) (p_fed s) then ret (s, px)
    else px ← prefix_insert_from_session dev_ budget now s px; ret (s, px).

(** ** Feeding the cache *)

Definition prime_chunk (take_ : nat) s : D Prime :=
  massert (take_ <=? length (prefill_queue s));;
  let chunk := take take_ (prefill_queue s) in
  let rest := drop take_ (prefill_queue s) in
  c ← unwrap (p_cache s);
  '(l, c) ← prime_cache c chunk (length rest);
  ret (primed_by l c chunk rest s).
Definition prime_token (tok : Z) (rest : list Z) s : D Prime :=
  c ← unwrap (p_cache s);
  '(l, c) ← decode_step c tok;
  ret (primed_by l c [tok] rest s).
Definition carried s : bool := match p_cache s with Some c => 0 <? pos c | None => false end.

(** The length of the chunk: [q] queued, [r] left to the snapshot boundary. *)
Definition chunk_len (eager_mono : bool) (q budget : nat) (bound_rem : option nat) : nat :=
  let take_ := if eager_mono then q else Nat.min q budget in
  let take_ := if (0 <? q - take_) && (q - take_ <? PRIME_MIN_T) then (if q <=? budget then q else take_) else take_ in
  match bound_rem with
  | None => take_
  | Some r =>
      if r <=? take_ then r
      else if r - take_ <? PRIME_MIN_T then Nat.max (r - PRIME_MIN_T) PRIME_MIN_T
      else take_
  end.
(** At the boundary the primed prefix is snapshot; priming then goes on. *)
Definition at_boundary (dev_ px_budget : nat) (now : Z) s px : D (Prime * PrefixCache) :=
  if bool_decide (snapshot_at s = Some (length (p_fed s))) then
    let s := no_snapshot s in
    px ← prefix_insert_from_session dev_ px_budget now s px; ret (s, px)
  else ret (s, px).
Definition when_primed (dev_ px_budget : nat) (now : Z) s px : D (Prime * PrefixCache) :=
  match prefill_queue s with
  | [] => maybe_prefix_seed dev_ px_budget now (set_done s) px
  | _ => ret (s, px)
  end.
(** What a tick consumed comes with the session and the prefix cache. *)
Definition prefill_tick (eager_mono : bool) (dev_ px_budget : nat) (now : Z) (budget : nat) s px : D (Prime * PrefixCache * nat) :=
  let q := length (prefill_queue s) in
  if q =? 0 then
    '(s, px) ← maybe_prefix_seed dev_ px_budget now (set_done s) px; ret (s, px, 0)
  else
    let carried_ := carried s in
    let s := if eager_mono then no_snapshot s else s in
    bound_rem ← match snapshot_at s with
                | None => ret None
                | Some b => massert (length (p_fed s) <=? b);; ret (Some (b - length (p_fed s)))
                end;
    '(s, consumed) ←
      (if (Nat.max PRIME_MIN_T 2 <=? q) && (PRIME_MIN_T <=? budget) && negb (eager_mono && carried_)
          && match bound_rem with None => true | Some r => PRIME_MIN_T <=? r end
       then
         let take_ := chunk_len eager_mono q budget bound_rem in
         s ← prime_chunk take_ s; ret (s, take_)
       else match prefill_queue s with
            | [] => ret (s, 0)
            | tok :: rest => s ← prime_token tok rest s; ret (s, 1)
            end);
    '(s, px) ← at_boundary dev_ px_budget now s px;
    '(s, px) ← when_primed dev_ px_budget now s px;
    ret (s, px, consumed).

(** ** Opening a session *)

Definition try_restore (c : Cache) (e : PrefixEntry) : D (Restored * option Cache) :=
  fun w => match prefix_restore c e w with
           | (w, Ok c) => (w, Ok (ROk, Some c))
           | (w, Err _) => (w, Ok (RFailed, None))
           | (w, Panic) => (w, Panic)
           end.
(** What the probe of [admit] restores from its entry, if it finds one; [alloc]
    is [pp::new_cache] at the session's context size. *)
Definition restored_cache (alloc : D Cache) (key : PoolKey) (prompt : list Z) px : D (Restored * option Cache) :=
  match i ← px_lookup px key prompt; entries px !! key ≫= (.!! i) with
  | None => ret (RFailed, None)
  | Some e =>
      a ← attempt alloc;
      match a with
      | inr _ => ret (RAllocFailed, None)
      | inl c => try_restore c e
      end
  end.
(** A cold cache: the prefix cache is emptied before the request fails. *)
Definition session_cache (alloc : D Cache) px : D (option Cache * PrefixCache) :=
  a ← attempt alloc;
  match a with
  | inl c => ret (Some c, px)
  | inr _ =>
      let '(px, evicted_) := evict_all px in
      if 0 <? evicted_ then a ← attempt alloc; ret (match a with inl c => Some c | inr _ => None end, px)
      else ret (None, px)
  end.
Definition opened (key : PoolKey) (c : Cache) (sm : Sampler) (prompt seed_fed : list Z) (seed_logits : list f32)
    (snapshot : option nat) (seed : bool) : Prime :=
  let suffix := drop (length seed_fed) prompt in
  mkPrime key (Some c) (foldl (fun sm t => accept t sm) sm seed_fed) seed_logits seed_fed suffix
    (match suffix with [] => true | _ => false end) (length seed_fed) snapshot seed.
(** [admit]'s probe and session, for a request that resumes no parked session;
    [None]: the request is answered with the allocation error. *)
Definition open_prime (alloc : D Cache) (now : Z) (key : PoolKey) (prompt : list Z) (sm : Sampler) px : D (option Prime * PrefixCache) :=
  '(r, c) ← restored_cache alloc key prompt px;
  let '(px, p) := probe now key prompt r px in
  match p with
  | Hit e => c ← unwrap c; ret (Some (opened key c sm prompt (toks e) (e_logits e) None false), px)
  | Miss snapshot seed =>
      '(c, px) ← session_cache alloc px;
      ret ((fun c => opened key c sm prompt [] [] snapshot seed) <$> c, px)
  end.

(** The prefill half of [step_session]. *)
Definition step_prefill (eager_mono : bool) s : D Prime :=
  let q := length (prefill_queue s) in
  s ← (if (Nat.max PRIME_MIN_T 2 <=? q) && negb (eager_mono && carried s) then
         let take_ := if eager_mono then q else Nat.min q PREFILL_TICK_T in
         let take_ := if (0 <? q - take_) && (q - take_ <? PRIME_MIN_T) then q else take_ in
         prime_chunk take_ s
       else match prefill_queue s with
            | [] => ret s
            | tok :: rest => prime_token tok rest s
            end);
  ret (match prefill_queue s with [] => set_done s | _ => s end).
End Prefill.
