(* ===== verification/PrefillSpec.v ===== *)
(** What priming promises.

    [holds c f]: the cache [c] is in the state after the tokens [f]; [row_ok f l]:
    [l] is a row of logits after [f].  The forward pass keeps them ([trunk_ok]),
    under the conditions it asserts: chunks of at least 16 tokens, room in the
    cache, and the true number of tokens of the request that follow.  Whatever
    the tick budgets, the prompt is primed exactly once and in order, no assertion
    is met, and the prefix cache only ever holds states that stand for their
    tokens ([honest]), so a session resumed from it is in the state a cold one
    reaches ([prefill_exact]). *)
From S2P Require Import Prelude Effects RustStr Sampling KvCache PrefixCache PrefixCopies ToyCache Prefill.
Local Open Scope nat_scope.

(** ** What the prefix cache stores *)
Section Stored.
Context {kd : KvDev}.
Implicit Types (px : PrefixCache) (key : PoolKey) (e : PrefixEntry).

Definition stored px key e : Prop := exists pool, entries px !! key = Some pool /\ e ∈ pool.

Lemma swap_remove_subset {A} i (l l' : list A) a : swap_remove i l = Some (a, l') -> a ∈ l /\ l' ⊆ l.
Proof.
  unfold swap_remove. destruct (l !! i) as [x|] eqn:Hi; [|done]. cbn [mbind option_bind]. destruct (last l) as [z|] eqn:Hz; [|done].
  cbn [mbind option_bind]. intros [= -> <-]. split; [by eapply list_elem_of_lookup_2|]. intros y Hy.
  apply list_elem_of_lookup_1 in Hy as [k Hk]. apply lookup_take_Some in Hk as [Hk _]. destruct (decide (k = i)) as [->|Hne].
  - rewrite list_lookup_insert_eq in Hk by (by eapply lookup_lt_Some). injection Hk as <-. apply last_Some in Hz as [l0 ->]. set_solver.
  - rewrite list_lookup_insert_ne in Hk by done. by eapply list_elem_of_lookup_2.
Qed.
Lemma remove_at_stored key i px k e : stored (remove_at key i px).1 k e -> stored px k e.
Proof.
  unfold remove_at. destruct (entries px !! key) as [pool|] eqn:Hp; [|done]. destruct (_ <=? _); [done|].
  destruct (swap_remove i pool) as [[dead pool']|] eqn:Hs; [|done]. apply swap_remove_subset in Hs as [_ Hs]. cbn [fst].
  intros (p & Hl & He). cbn [entries set_maps] in Hl. destruct (decide (k = key)) as [->|Hne].
  - exists pool. split; [done|]. destruct pool' as [|y pool']; [by rewrite lookup_delete_eq in Hl|].
    rewrite lookup_insert_eq in Hl. injection Hl as <-. set_solver.
  - exists p. split; [|done]. destruct pool'; [by rewrite lookup_delete_ne in Hl|by rewrite lookup_insert_ne in Hl].
Qed.
Lemma evict_loop_stored fuel budget px k e : stored (evict_loop fuel budget px) k e -> stored px k e.
Proof.
  revert px. induction fuel as [|fuel IH]; intros px; cbn [evict_loop]; [done|]. destruct (_ <=? _); [done|].
  destruct (first_kv (lru px)) as [[lk [k' i]]|]; [|done]. pose proof (remove_at_stored k' i px k e) as Hr.
  destruct (remove_at k' i px) as [px' [dead|]]; cbn [fst] in Hr; [|done]. intros Hs. apply Hr. by apply IH in Hs.
Qed.
Lemma insert_stored budget key e0 px k e : stored (insert_with_budget budget key e0 px) k e ->
  stored px k e \/ (k = key /\ exists id, e = with_use (last_use e0) id e0).
Proof.
  unfold insert_with_budget. destruct (_ <? _); [by left|]. destruct (has_key _ _ _); [by left|]. intros Hs.
  apply evict_loop_stored in Hs as (p & Hl & He). cbn [entries] in Hl. destruct (decide (k = key)) as [->|Hne].
  - rewrite lookup_insert_eq in Hl. injection Hl as <-. apply elem_of_app in He as [He|He].
    + left. destruct (entries px !! key) as [pool|] eqn:Hp; [|by apply elem_of_nil in He]. by exists pool.
    + right. split; [done|]. apply list_elem_of_singleton in He as ->. by eexists.
  - left. exists p. by rewrite lookup_insert_ne in Hl.
Qed.
Lemma touch_stored now key i px k e : stored (touch now key i px) k e -> exists e0, stored px k e0 /\ (e = e0 \/ e = with_use now (e_id e0) e0).
Proof.
  unfold touch. destruct (entries px !! key ≫= (.!! i)) as [x|] eqn:Hx; [|by intros Hs; exists e; split; [|left]].
  apply bind_Some in Hx as (pool & Hp & Hi). intros (p & Hl & He). cbn [entries set_maps] in Hl. destruct (decide (k = key)) as [->|Hne].
  - rewrite lookup_alter_eq, Hp in Hl. injection Hl as <-. apply list_elem_of_lookup_1 in He as [j Hj]. destruct (decide (j = i)) as [->|Hne].
    + rewrite list_lookup_insert_eq in Hj by (by eapply lookup_lt_Some). injection Hj as <-. exists x. split; [|by right].
      exists pool. split; [done|]. by eapply list_elem_of_lookup_2.
    + rewrite list_lookup_insert_ne in Hj by done. exists e. split; [|by left]. exists pool. split; [done|]. by eapply list_elem_of_lookup_2.
  - rewrite lookup_alter_ne in Hl by done. exists e. split; [by exists p|by left].
Qed.
(** A hit is an entry of the caller's pool, and starts the prompt. *)
Lemma lookup_from_covers prompt pool i0 best r : lookup_from i0 prompt best pool = Some r ->
  best = Some r \/ exists j e, pool !! j = Some e /\ r = (i0 + j, length (toks e)) /\ covers prompt e = true.
Proof.
  revert i0 best. induction pool as [|x pool IH]; intros i0 best; cbn [lookup_from]; [by left|]. intros Hr.
  destruct (IH _ _ Hr) as [Hb|(j & e & Hj & -> & Hc)].
  - destruct (covers prompt x) eqn:Hc; cbn [andb] in Hb; [|by left]. destruct (match best with Some _ => _ | None => _ end); [|by left].
    injection Hb as <-. right. exists 0, x. by rewrite Nat.add_0_r.
  - right. exists (S j), e. split; [done|]. split; [by rewrite Nat.add_succ_r|done].
Qed.
Lemma probe_hit now key prompt r px px' e : probe now key prompt r px = (px', Hit e) ->
  stored px key e /\ PREFIX_CACHE_MIN_TOKENS <= length (toks e) /\ toks e `prefix_of` prompt.
Proof.
  unfold probe. destruct (px_lookup px key prompt) as [i|] eqn:Hl; cbn [mbind option_bind]; [|intros Hm; by unfold probe_miss in Hm].
  destruct (entries px !! key) as [pool|] eqn:Hp; cbn [mbind option_bind]; [|intros Hm; by unfold probe_miss in Hm].
  destruct (pool !! i) as [x|] eqn:Hi; cbn [mbind option_bind]; [|intros Hm; by unfold probe_miss in Hm].
  destruct r; [|intros Hm; by unfold probe_miss in Hm..]. intros [= _ ->]. split; [exists pool; split; [done|by eapply list_elem_of_lookup_2]|].
  unfold px_lookup in Hl. rewrite Hp in Hl. cbn [mbind option_bind] in Hl. destruct (lookup_from 0 prompt None pool) as [[i' n]|] eqn:Hf; [|done].
  injection Hl as ->. apply lookup_from_covers in Hf as [?|(j & e' & Hj & [= -> ->] & Hc)]; [done|]. cbn in Hi. rewrite Hj in Hi. injection Hi as ->.
  unfold covers in Hc. apply andb_true_iff in Hc as [Hc Ht]. apply andb_true_iff in Hc as [Hc _]. apply Nat.leb_le in Hc.
  apply bool_decide_eq_true in Ht. split; [done|]. rewrite <- Ht. apply prefix_take.
Qed.
End Stored.

(** ** Lengths of chunks *)
Section Lengths.
Implicit Types (q budget n r : nat).

(** The tail test of [chunk_len] never changes the chunk. *)
Lemma chunk_len_no_tail mono q budget : chunk_len mono q budget None = if mono then q else Nat.min q budget.
Proof.
  unfold chunk_len. destruct mono; [by rewrite Nat.sub_diag|]. destruct (_ && _) eqn:E; [|done]. destruct (q <=? budget) eqn:Hq; [|done].
  apply Nat.leb_le in Hq. rewrite Nat.min_l in E by done. by rewrite Nat.sub_diag in E.
Qed.
Lemma chunk_len_bounds mono q budget bound_rem :
  PRIME_MIN_T <= q -> PRIME_MIN_T <= budget -> (forall r, bound_rem = Some r -> PRIME_MIN_T <= r <= q) ->
  let n := chunk_len mono q budget bound_rem in
  PRIME_MIN_T <= n <= q /\ (mono = false -> n <= budget) /\ (forall r, bound_rem = Some r -> n <= r).
Proof.
  unfold PRIME_MIN_T in *. intros Hq Hb Hr. set (t := chunk_len mono q budget None).
  assert (Ht : 16 <= t <= q /\ (mono = false -> t <= budget)).
  { unfold t. rewrite chunk_len_no_tail. destruct mono; lia. }
  destruct bound_rem as [r|]; [|split; [tauto|]; split; [tauto|done]]. specialize (Hr r eq_refl).
  assert (Hc : chunk_len mono q budget (Some r) = if r <=? t then r else if r - t <? PRIME_MIN_T then Nat.max (r - PRIME_MIN_T) PRIME_MIN_T else t) by done.
  cbn zeta. rewrite Hc. unfold PRIME_MIN_T. destruct (Nat.leb_spec r t); [|destruct (Nat.ltb_spec (r - t) 16)];
    (split; [lia|]; split; [intros Hm; destruct Ht as [_ Ht]; specialize (Ht Hm); lia|]; intros r0 [= <-]; lia).
Qed.
End Lengths.

(** ** The promise *)
Section Priming.
Context {kd : KvDev} {kl : KvDevLaws kd} {tr : Trunk}.
Variables (mono : bool) (holds : Cache -> list Z -> Prop) (row_ok : list Z -> list f32 -> Prop).
Implicit Types (c : Cache) (s : Prime) (px : PrefixCache) (f prompt : list Z) (e : PrefixEntry) (sm : Sampler).

(** The forward pass, for a request of [total] tokens: what a cache is like, what
    extends it, and that a copy of its cached state is as good. *)
Record trunk_ok (total : nat) : Prop := {
  tk_pos c f : holds c f -> pos c = length f;
  tk_shape c f : holds c f -> length (recur c) = length (kv c) /\ forall l, Some l ∈ kv c -> layer_ready (Some l) (Some l);
  tk_prime c f chunk rest w : holds c f -> PRIME_MIN_T <= length chunk -> length f + length chunk <= max_ctx c ->
    length f + length chunk + rest = total -> (mono = true -> f = []) ->
    wp (prime_cache c chunk rest) (fun r _ => holds r.2 (f ++ chunk) /\ row_ok (f ++ chunk) r.1 /\ max_ctx r.2 = max_ctx c) (fun _ _ => True) w;
  tk_step c f t w : holds c f -> length f + 1 <= max_ctx c ->
    wp (decode_step c t) (fun r _ => holds r.2 (f ++ [t]) /\ row_ok (f ++ [t]) r.1 /\ max_ctx r.2 = max_ctx c) (fun _ _ => True) w;
  tk_born c c1 f : holds c f -> holds c1 [] -> length f <= max_ctx c1 ->
    Forall2 layer_ready (kv c) (kv c1) /\ Forall2 same_recur (recur c) (recur c1);
  tk_reloaded c c1 c' f : holds c f -> holds c1 [] -> length f <= max_ctx c1 -> reloaded c c1 c' -> holds c' f;
}.

(** An entry stands for its tokens; the entries of the model [m] all do. *)
Definition stands e : Prop := exists c, holds c (toks e) /\ snap_of c e /\ row_ok (toks e) (e_logits e).
Definition honest (m : str) px : Prop := forall ns e, stored px (m, ns) e -> stands e.

Definition replay sm f : Sampler := foldl (fun x t => accept t x) sm f.
(** A session of [prompt] with its first tokens primed. *)
Record fed_to prompt sm (m : str) s : Prop := {
  ft_split : p_fed s ++ prefill_queue s = prompt;
  ft_cache : exists c, p_cache s = Some c /\ holds c (p_fed s) /\ length prompt <= max_ctx c;
  ft_row : p_fed s <> [] -> row_ok (p_fed s) (p_logits s);
  ft_sampler : p_sampler s = replay sm (p_fed s);
  ft_bound b : snapshot_at s = Some b -> length (p_fed s) <= b <= length prompt;
  ft_model : (p_key s).1 = m;
}.
Definition priming prompt sm m s : Prop := fed_to prompt sm m s /\ snapshot_at s <> Some (length (p_fed s)).
Definition primed prompt sm m s : Prop := fed_to prompt sm m s /\ prefill_queue s = [] /\ p_done s = true.

Lemma stands_use e now id : stands e -> stands (with_use now id e).
Proof. intros (c & Hc & [] & Hr). exists c. split; [done|]. split; [by split|done]. Qed.
Lemma honest_insert m budget key e px : honest m px -> (key.1 = m -> stands e) -> honest m (insert_with_budget budget key e px).
Proof. intros Hh He ns e' [Hs|(<- & id & ->)]%insert_stored; [by apply (Hh ns)|]. by apply stands_use, He. Qed.
Lemma honest_touch m now key i px : honest m px -> honest m (touch now key i px).
Proof. intros Hh ns e (e0 & Hs & He)%touch_stored. apply Hh in Hs. destruct He as [->| ->]; [done|by apply stands_use]. Qed.
Lemma honest_entries m px px' : entries px' = entries px -> honest m px -> honest m px'.
Proof. intros He Hh ns e (pool & Hp & Hin). rewrite He in Hp. apply (Hh ns). by exists pool. Qed.
Lemma honest_empty m px : entries px = ∅ -> honest m px.
Proof. intros He ns e (pool & Hp & _). by rewrite He, lookup_empty in Hp. Qed.

Section Total.
Variables (prompt : list Z) (m : str) (sm : Sampler).
Hypothesis Htr : trunk_ok (length prompt).

(** ** Snapshots *)

Lemma wp_insert s d budget now px w : fed_to prompt sm m s -> p_fed s <> [] -> honest m px ->
  wp (prefix_insert_from_session d budget now s px) (fun px' _ => honest m px') (fun _ _ => True) w.
Proof.
  intros Hf Hne Hh. destruct (ft_cache _ _ _ _ Hf) as (c & Hc & Hold & _). pose proof (ft_row _ _ _ _ Hf Hne) as Hrow.
  destruct (tk_shape _ Htr _ _ Hold) as [Hlen Hready].
  assert (Hins : wp (r ← attempt (prefix_snapshot d now c (p_fed s) (p_logits s));
                     ret match r with inl e => insert_with_budget budget (p_key s) e px | inr _ => px end)
                   (fun px' _ => honest m px') (fun _ _ => True) w).
  { wp_step. wp_step. eapply wp_mono; [by apply wp_prefix_snapshot|..]; cbv beta.
    - intros e w' (Et & El & _ & Hs). apply wp_ret, honest_insert; [done|]. intros _. exists c. by rewrite Et, El.
    - intros er w' _. by apply wp_ret. }
  unfold prefix_insert_from_session. rewrite Hc. by destruct (p_logits s); [apply wp_ret|].
Qed.
Lemma fed_to_frame s s' : fed_to prompt sm m s -> p_fed s' = p_fed s -> prefill_queue s' = prefill_queue s -> p_cache s' = p_cache s ->
  p_logits s' = p_logits s -> p_sampler s' = p_sampler s -> p_key s' = p_key s ->
  (forall b, snapshot_at s' = Some b -> snapshot_at s = Some b) -> fed_to prompt sm m s'.
Proof. intros [] E1 E2 E3 E4 E5 E6 Hb. split; repeat match goal with E : _ s' = _ |- _ => rewrite ?E; clear E end; try done. intros b Hs. apply Hb in Hs. auto. Qed.

(** The end of priming: the session is done, and its prompt may be stored. *)
Lemma wp_seed s d budget now px w : fed_to prompt sm m s -> prefill_queue s = [] -> honest m px ->
  wp (maybe_prefix_seed d budget now (set_done s) px) (fun r _ => primed prompt sm m r.1 /\ p_fed r.1 = p_fed s /\ snapshot_at r.1 = snapshot_at s /\ honest m r.2) (fun _ _ => True) w.
Proof.
  intros Hf Hq Hh. assert (Hd : primed prompt sm m (set_done s)) by (split; [by apply (fed_to_frame s)|done]).
  assert (Hn : primed prompt sm m (no_seed (set_done s))) by (split; [by apply (fed_to_frame s)|done]).
  unfold maybe_prefix_seed. destruct (negb _); [by apply wp_ret|]. cbn [p_cached p_cache p_fed no_seed set_done].
  destruct (_ || _) eqn:E; [by apply wp_ret|]. apply orb_false_iff in E as [_ E]. apply Nat.ltb_ge in E.
  destruct (has_covering _ _ _); [by apply wp_ret|]. wp_step.
  assert (Hne : p_fed s <> []) by (intros Hz; rewrite Hz in E; unfold PREFIX_CACHE_MIN_TOKENS in E; simpl in E; lia).
  eapply wp_conseq; [apply wp_insert; [apply Hn|done|done]|]. intros px' w' Hh'. by apply wp_ret.
Qed.

(** ** Feeding *)

Lemma fed_to_primed s c' l n : fed_to prompt sm m s -> n <= length (prefill_queue s) ->
  (forall b, snapshot_at s = Some b -> length (p_fed s) + n <= b) ->
  let chunk := take n (prefill_queue s) in
  holds c' (p_fed s ++ chunk) -> row_ok (p_fed s ++ chunk) l -> length prompt <= max_ctx c' ->
  fed_to prompt sm m (primed_by l c' chunk (drop n (prefill_queue s)) s).
Proof.
  intros [Hs _ _ Hsm Hb Hm] Hn Hle chunk Hc Hl Hmax. split; cbn [primed_by p_fed prefill_queue p_cache p_logits p_sampler p_key snapshot_at]; [|by eexists|done| | |done].
  - unfold chunk. by rewrite <- app_assoc, take_drop.
  - unfold replay. rewrite foldl_app, Hsm. done.
  - intros b Hsb. specialize (Hle b Hsb). apply Hb in Hsb. rewrite length_app. unfold chunk. rewrite length_take. lia.
Qed.
Definition after_chunk s n s' : Prop :=
  fed_to prompt sm m s' /\ p_fed s' = p_fed s ++ take n (prefill_queue s) /\ prefill_queue s' = drop n (prefill_queue s)
  /\ snapshot_at s' = snapshot_at s.
Lemma wp_prime_chunk s n w : fed_to prompt sm m s -> PRIME_MIN_T <= n <= length (prefill_queue s) -> (mono = true -> carried s = false) ->
  (forall b, snapshot_at s = Some b -> length (p_fed s) + n <= b) ->
  wp (prime_chunk n s) (fun s' _ => after_chunk s n s') (fun _ _ => True) w.
Proof.
  intros Hf Hn Hmono Hb. destruct (ft_cache _ _ _ _ Hf) as (c & Hc & Hold & Hmax). pose proof (ft_split _ _ _ _ Hf) as Hs.
  pose proof (f_equal length Hs) as Hlen. rewrite length_app in Hlen. unfold prime_chunk.
  wp_step. apply wp_massert; [apply Nat.leb_le; lia|]. wp_step. apply wp_unwrap. exists c. split; [done|]. wp_step.
  assert (Hpos := tk_pos _ Htr _ _ Hold). assert (Hempty : mono = true -> p_fed s = []).
  { intros Hm. specialize (Hmono Hm). unfold carried in Hmono. rewrite Hc in Hmono. apply Nat.ltb_ge in Hmono. apply length_zero_iff_nil. lia. }
  assert (Htk : length (take n (prefill_queue s)) = n) by (rewrite length_take; lia).
  assert (Hdr : length (drop n (prefill_queue s)) = length (prefill_queue s) - n) by apply length_drop.
  assert (Hp := fun H1 H2 H3 => tk_prime _ Htr c (p_fed s) (take n (prefill_queue s)) (length (drop n (prefill_queue s))) w Hold H1 H2 H3 Hempty).
  rewrite Htk, Hdr in Hp. rewrite Hdr. eapply wp_conseq; [apply Hp; lia|]. intros [l c'] w' (Hc' & Hl & Hm'). cbn [fst snd] in *. apply wp_ret.
  split; [|done]. apply fed_to_primed; [done|lia|done..|lia].
Qed.
Lemma wp_prime_token s t rest w : fed_to prompt sm m s -> prefill_queue s = t :: rest -> (forall b, snapshot_at s = Some b -> length (p_fed s) < b) ->
  wp (prime_token t rest s) (fun s' _ => after_chunk s 1 s') (fun _ _ => True) w.
Proof.
  intros Hf Hq Hb. destruct (ft_cache _ _ _ _ Hf) as (c & Hc & Hold & Hmax). pose proof (ft_split _ _ _ _ Hf) as Hs.
  pose proof (f_equal length Hs) as Hlen. rewrite length_app, Hq in Hlen. cbn [length] in Hlen. unfold prime_token.
  wp_step. apply wp_unwrap. exists c. split; [done|]. wp_step. eapply wp_conseq; [apply (tk_step _ Htr c (p_fed s)); [done|lia]|].
  intros [l c'] w' (Hc' & Hl & Hm'). cbn [fst snd] in *. apply wp_ret.
  assert (Ht : [t] = take 1 (prefill_queue s)) by (by rewrite Hq). assert (Hr : rest = drop 1 (prefill_queue s)) by (by rewrite Hq).
  split; [|by rewrite Hq]. rewrite Ht, Hr. apply fed_to_primed; rewrite <- ?Ht; [done|rewrite Hq; simpl; lia|..|lia]; try done.
  intros b Hsb. apply Hb in Hsb. lia.
Qed.

(** ** A tick *)

(** [n] tokens of the queue went into the cache. *)
Definition ticked s n (r : Prime * PrefixCache) : Prop :=
  priming prompt sm m r.1 /\ p_fed r.1 = p_fed s ++ take n (prefill_queue s) /\ (prefill_queue r.1 = [] -> primed prompt sm m r.1) /\ honest m r.2.
Lemma wp_settle s n s' d budget now px w : after_chunk s n s' -> 0 < n -> prefill_queue s <> [] -> honest m px ->
  wp ('(s', px) ← at_boundary d budget now s' px; '(s', px) ← when_primed d budget now s' px; ret (s', px, n))
    (fun r _ => ticked s n r.1 /\ r.2 = n) (fun _ _ => True) w.
Proof.
  intros (Hf & Hfed & Hq & _) Hn Hne Hh.
  assert (Hgrew : p_fed s' <> []).
  { rewrite Hfed. destruct (prefill_queue s); [done|]. destruct n; [lia|]. by destruct (p_fed s). }
  assert (Hend : forall s2 px w, priming prompt sm m s2 -> p_fed s2 = p_fed s' -> honest m px ->
            wp ('(s', px) ← when_primed d budget now s2 px; ret (s', px, n)) (fun r _ => ticked s n r.1 /\ r.2 = n) (fun _ _ => True) w).
  { intros s2 px2 w2 Hp Hf2 Hh2. unfold when_primed. wp_step. rewrite Hfed in Hf2. destruct (prefill_queue s2) as [|x q] eqn:Hq2.
    - eapply wp_conseq; [apply wp_seed; [apply Hp|done|done]|]. intros [s3 px3] w3 (Hd & Hf3 & Hs3 & Hh3). cbn [fst snd] in *. apply wp_ret. split; [|done].
      unfold ticked, priming. cbn [fst snd]. rewrite Hf3, Hs3.
      destruct Hp as [_ Hp]. by split; [split; [apply Hd|]|].
    - wp_step. wp_step. split; [|done]. split; [done|]. split; [done|]. split; [|done]. cbn [fst]. by rewrite Hq2. }
  wp_step. unfold at_boundary. case_bool_decide as Hb; [|wp_step; by apply Hend].
  assert (Hf2 : fed_to prompt sm m (no_snapshot s')) by (by apply (fed_to_frame s')).
  wp_step. eapply wp_conseq; [by apply wp_insert|]. intros px' w' Hh'. wp_step. apply Hend; [|done|done]. by split.
Qed.
Lemma wp_prefill_tick d pxb now budget s px w : priming prompt sm m s -> honest m px ->
  wp (prefill_tick mono d pxb now budget s px)
    (fun r _ => ticked s r.2 r.1 /\ (prefill_queue s <> [] -> 0 < r.2) /\ (mono = false -> r.2 <= Nat.max 1 budget)) (fun _ _ => True) w.
Proof.
  intros [Hf Hsnap] Hh. unfold prefill_tick. destruct (prefill_queue s) as [|t rest] eqn:Hq; cbn [length Nat.eqb].
  { wp_step. eapply wp_conseq; [by apply wp_seed|]. intros [s' px'] w' (Hd & Hfed & Hs & Hh'). cbn [fst snd] in *. apply wp_ret.
    split; [|split; [done|cbn [snd]; lia]]. unfold ticked, priming. cbn [fst snd]. rewrite Hfed, Hs, Hq, app_nil_r. by split; [split; [apply Hd|]|]. }
  set (s2 := if mono then no_snapshot s else s).
  assert (Hp2 : priming prompt sm m s2 /\ p_fed s2 = p_fed s /\ prefill_queue s2 = prefill_queue s /\ carried s2 = carried s
      /\ (mono = true -> snapshot_at s2 = None)).
  { unfold s2. destruct mono; [|by split; [split|]]. split; [|done]. by split; [apply (fed_to_frame s)|]. }
  clearbody s2. destruct Hp2 as ([Hf2 Hsnap2] & Ef & Eq & Ec & Em). clear Hf Hsnap.
  assert (Hlen : length (p_fed s2) + length (prefill_queue s2) = length prompt) by (rewrite <- (ft_split _ _ _ _ Hf2), length_app; done).
  assert (Hlt : forall b, snapshot_at s2 = Some b -> length (p_fed s2) < b <= length prompt).
  { intros b Hb. pose proof (ft_bound _ _ _ _ Hf2 b Hb). assert (b <> length (p_fed s2)) by congruence. lia. }
  assert (Hql : length (prefill_queue s2) = S (length rest)) by (by rewrite Eq, Hq).
  set (r := match snapshot_at s2 with Some b => Some (b - length (p_fed s2)) | None => None end).
  wp_step. apply wp_conseq with (fun x w' => x = r).
  { unfold r. destruct (snapshot_at s2) as [b|] eqn:Eb; [|done]. destruct (Hlt b eq_refl). wp_step. apply wp_massert; [apply Nat.leb_le; lia|]. done. }
  intros x w1 ->. wp_step. apply wp_conseq with (fun y _ => after_chunk s2 y.2 y.1 /\ 0 < y.2 /\ (mono = false -> y.2 <= Nat.max 1 budget)).
  2:{ intros [s' n] w2 (Ha & Hn & Hle). cbn [fst snd] in *. eapply wp_conseq; [apply (wp_settle s2 n s'); [done|done|by rewrite Eq, Hq|done]|].
      intros [[s3 px3] n'] w3 [Ht ->]. cbn [fst snd] in *. split; [|by split]. unfold ticked in *. by rewrite <- Ef, <- Eq. }
  destruct (_ && _) eqn:Hcond.
  - rewrite !andb_true_iff, !Nat.leb_le in Hcond. destruct Hcond as (((H4 & H5) & H6) & H7).
    assert (Hr : forall z, r = Some z -> PRIME_MIN_T <= z <= length (prefill_queue s2)).
    { unfold r in *. intros z Hz. destruct (snapshot_at s2) as [b|]; [|done]. injection Hz as <-. apply Nat.leb_le in H7. specialize (Hlt b eq_refl). lia. }
    destruct (chunk_len_bounds mono (length (prefill_queue s2)) budget r) as (Hn & Hle & Hbr); [lia|done|done|].
    rewrite <- Hql. set (n := chunk_len mono (length (prefill_queue s2)) budget r) in *. clearbody n.
    wp_step. eapply wp_conseq; [apply (wp_prime_chunk s2 n); [done|lia|..]|].
    + intros Hm. rewrite Ec. destruct (carried s); [|done]. by rewrite Hm in H6.
    + intros b Hb. unfold r in Hbr. rewrite Hb in Hbr. specialize (Hbr _ eq_refl). specialize (Hlt b Hb). lia.
    + intros s' w2 Ha. apply wp_ret. split; [done|]. unfold PRIME_MIN_T in *. split; [simpl; lia|]. intros Hm. specialize (Hle Hm). simpl. lia.
  - rewrite Eq, Hq. wp_step. eapply wp_conseq; [apply wp_prime_token; [done|by rewrite Eq|apply Hlt]|]. intros s' w2 Ha. apply wp_ret.
    cbn [fst snd]. split; [done|]. lia.
Qed.

(** ** A run *)

(** A tick of the scheduler: what it gives this session, and what the other
    sessions of the worker did to the prefix cache since its last one. *)
Record Tick := mkTick { t_dev : nat; t_px_budget : nat; t_now : Z; t_budget : nat; t_others : PrefixCache -> PrefixCache }.
Definition keeps_honest (t : Tick) : Prop := forall px, honest m px -> honest m (t_others t px).
Fixpoint prefill_ticks (ts : list Tick) s px : D (Prime * PrefixCache) :=
  match ts with
  | [] => ret (s, px)
  | t :: ts =>
      '(s, px, _) ← prefill_tick mono (t_dev t) (t_px_budget t) (t_now t) (t_budget t) s (t_others t px);
      prefill_ticks ts s px
  end.

Lemma queue_left s n s' : fed_to prompt sm m s -> fed_to prompt sm m s' -> p_fed s' = p_fed s ++ take n (prefill_queue s) ->
  length (prefill_queue s') = length (prefill_queue s) - n.
Proof.
  intros Hs Hs' Hfed. pose proof (f_equal length (ft_split _ _ _ _ Hs)) as H4. pose proof (f_equal length (ft_split _ _ _ _ Hs')) as H5.
  rewrite Hfed in H5. rewrite !length_app, length_take in *. lia.
Qed.
Lemma wp_prefill_ticks ts s px w : Forall keeps_honest ts -> priming prompt sm m s -> honest m px ->
  length (prefill_queue s) <= length ts -> (prefill_queue s = [] -> primed prompt sm m s) ->
  wp (prefill_ticks ts s px) (fun r _ => primed prompt sm m r.1 /\ honest m r.2) (fun _ _ => True) w.
Proof.
  revert s px w. induction ts as [|t ts IH]; intros s px w Hk Hp Hh Hle Hd; cbn [prefill_ticks length] in *.
  { apply wp_ret. split; [|done]. apply Hd, length_zero_iff_nil. lia. }
  inversion_clear Hk as [|? ? Ht Hts]. wp_step. eapply wp_conseq; [apply wp_prefill_tick; [done|by apply Ht]|].
  intros [[s1 px1] n] w1 ((Hp1 & Hfed & Hdone & Hh1) & Hpos & _). cbn [fst snd] in *.
  pose proof (queue_left s n s1 (proj1 Hp) (proj1 Hp1) Hfed) as Hq. apply IH; try done.
  destruct (prefill_queue s); [simpl in Hq; lia|]. assert (0 < n) by (by apply Hpos). lia.
Qed.

(** The step of the other scheduler also makes progress, and never leaves a tail
    too short to prime. *)
Lemma wp_step_prefill s w : priming prompt sm m s -> snapshot_at s = None ->
  wp (step_prefill mono s)
    (fun s' _ => priming prompt sm m s' /\ snapshot_at s' = snapshot_at s /\ (prefill_queue s' = [] -> primed prompt sm m s')
      /\ (prefill_queue s <> [] -> length (prefill_queue s') < length (prefill_queue s))) (fun _ _ => True) w.
Proof.
  intros [Hf Hs] Hnone. assert (Hlt : forall n b, snapshot_at s = Some b -> length (p_fed s) + n <= b) by (intros n b Hb; congruence).
  assert (Hend : forall s' n w, after_chunk s n s' -> (prefill_queue s <> [] -> 0 < n) ->
    wp (ret (match prefill_queue s' with [] => set_done s' | _ => s' end) : D Prime)
      (fun s' _ => priming prompt sm m s' /\ snapshot_at s' = snapshot_at s /\ (prefill_queue s' = [] -> primed prompt sm m s')
        /\ (prefill_queue s <> [] -> length (prefill_queue s') < length (prefill_queue s))) (fun _ _ => True) w).
  { intros s' n w' (Hf' & Hfed & Hq & Hsn) Hn. apply wp_ret. assert (Hl : prefill_queue s <> [] -> length (prefill_queue s') < length (prefill_queue s)).
    { intros Hne. specialize (Hn Hne). rewrite Hq, length_drop. destruct (prefill_queue s); [done|]. simpl. lia. }
    assert (Hd : fed_to prompt sm m (set_done s')) by (by apply (fed_to_frame s')).
    destruct (prefill_queue s') eqn:Eq; unfold priming, primed; cbn [prefill_queue snapshot_at set_done p_fed p_done]; rewrite Hsn, Hnone, ?Eq; done. }
  unfold step_prefill. destruct (_ && _) eqn:Hc.
  - rewrite andb_true_iff, Nat.leb_le in Hc. destruct Hc as [Hq Hm]. set (t := if mono then _ else _).
    assert (Ht : 16 <= t <= length (prefill_queue s)) by (unfold t, PREFILL_TICK_T, PRIME_MIN_T in *; destruct mono; lia).
    set (n := if (0 <? length (prefill_queue s) - t) && _ then _ else t).
    assert (Hn : PRIME_MIN_T <= n <= length (prefill_queue s)) by (unfold n; clearbody t; clear - Ht; destruct (_ && _); unfold PRIME_MIN_T; lia). clearbody n. clear t Ht.
    wp_step. eapply wp_conseq; [apply (wp_prime_chunk s n); [done|done| |by apply Hlt]|].
    + intros Hmn. destruct (carried s); [|done]. by rewrite Hmn in Hm.
    + intros s' w' Ha. apply (Hend s' n); [done|]. unfold PRIME_MIN_T in Hn. lia.
  - destruct (prefill_queue s) as [|t rest] eqn:Eq.
    + wp_step. wp_step. apply (Hend s 0); [|done]. split; [done|]. by rewrite Eq, app_nil_r.
    + wp_step. eapply wp_conseq; [apply (wp_prime_token s t rest); [done|done|]|].
      * intros b Hb. congruence.
      * intros s' w' Ha. apply (Hend s' 1); [done|lia].
Qed.

(** ** Opening *)

(** The entry the probe finds. *)
Definition found px key : option PrefixEntry := i ← px_lookup px key prompt; entries px !! key ≫= (.!! i).
Lemma probe_found now key r px e : found px key = Some e -> r = ROk ->
  exists i n, probe now key prompt r px = (record_lcp n (count_hit n (touch now key i px)), Hit e).
Proof.
  unfold found, probe. destruct (px_lookup px key prompt) as [i|]; [|done]. cbn [mbind option_bind]. intros -> ->. by eexists _, _.
Qed.
Lemma probe_cold now key r px : r <> ROk -> honest m px -> exists px', honest m px' /\ probe now key prompt r px = probe_miss key prompt px'.
Proof.
  intros Hr Hh. unfold probe. destruct (i ← px_lookup px key prompt; e ← entries px !! key ≫= (.!! i); Some (i, e)) as [[i e]|]; [|by exists px].
  destruct r; [done| |by exists px]. eexists. split; [|done]. by apply honest_empty.
Qed.
Lemma wp_try_restore c e w : stands e -> holds c [] -> length (toks e) <= max_ctx c ->
  wp (try_restore c e) (fun r _ => r = (RFailed, None) \/ exists c', r = (ROk, Some c') /\ holds c' (toks e) /\ max_ctx c' = max_ctx c)
    (fun _ _ => True) w.
Proof.
  intros (c0 & Hold & Hsnap & _) Hc Hle. destruct (tk_born _ Htr c0 c _ Hold Hc Hle) as [Hk Hr]. destruct (tk_shape _ Htr _ _ Hold) as [Hlen _].
  pose proof (wp_prefix_restore c0 c e w Hlen Hk Hr Hsnap) as Hw. unfold try_restore, wp in *.
  destruct (prefix_restore c e w) as [w' [c'|er|]]; [|by left|done]. right. exists c'. split; [done|].
  split; [by apply (tk_reloaded _ Htr c0 c)|]. by destruct Hw as (_ & Hm & _).
Qed.
Lemma wp_restored_cache alloc key px w : key.1 = m -> honest m px ->
  (forall w, wp alloc (fun c _ => holds c [] /\ length prompt <= max_ctx c) (fun _ _ => True) w) ->
  wp (restored_cache alloc key prompt px)
    (fun r _ => r.1 = ROk -> exists e c', found px key = Some e /\ toks e `prefix_of` prompt /\ stands e /\ 0 < length (toks e)
                  /\ r.2 = Some c' /\ holds c' (toks e) /\ length prompt <= max_ctx c') (fun _ _ => True) w.
Proof.
  intros Hkey Hh Ha. unfold restored_cache. change (i ← px_lookup px key prompt; entries px !! key ≫= (.!! i)) with (found px key).
  destruct (found px key) as [e|] eqn:He; [|by apply wp_ret]. destruct (probe_found 0 key ROk px e He eq_refl) as (i & n & Hprobe).
  apply probe_hit in Hprobe as (Hst & Hmin & Hpre). assert (Hs : stands e) by (destruct key as [m' ns]; cbn [fst] in Hkey; subst m'; by apply (Hh ns)).
  pose proof (prefix_length _ _ Hpre) as Hle. unfold PREFIX_CACHE_MIN_TOKENS in Hmin.
  wp_step. wp_step. eapply wp_mono; [apply Ha|..]; cbv beta; [|intros er w' _; by apply wp_ret]. intros c w' [Hc Hm].
  eapply wp_conseq; [apply wp_try_restore; [done|done|lia]|]. intros r w2 [->|(c' & -> & Hc' & Hm')]; [done|]. intros _. exists e, c'.
  split; [done|]. split; [done|]. split; [done|]. split; [lia|]. split; [done|]. split; [done|]. cbn [snd]. lia.
Qed.
Lemma wp_session_cache alloc px w : honest m px ->
  (forall w, wp alloc (fun c _ => holds c [] /\ length prompt <= max_ctx c) (fun _ _ => True) w) ->
  wp (session_cache alloc px) (fun r _ => honest m r.2 /\ forall c, r.1 = Some c -> holds c [] /\ length prompt <= max_ctx c) (fun _ _ => True) w.
Proof.
  intros Hh Ha. unfold session_cache. wp_step. wp_step. eapply wp_mono; [apply Ha|..]; cbv beta.
  - intros c w3 Hc. wp_step. split; [done|]. by intros c' [= <-].
  - intros er w3 _. cbn [evict_all]. destruct (0 <? _); [|wp_step; split; [by apply honest_empty|done]].
    wp_step. wp_step. eapply wp_mono; [apply Ha|..]; cbv beta; intros x w4 Hx; wp_step; split; try by apply honest_empty.
    + by intros c' [= <-].
    + done.
Qed.
Lemma opened_priming key c f l b sd : key.1 = m -> f `prefix_of` prompt -> holds c f -> length prompt <= max_ctx c -> (f <> [] -> row_ok f l) ->
  (forall n, b = Some n -> length f < n <= length prompt) ->
  let s := opened key c sm prompt f l b sd in priming prompt sm m s /\ (prefill_queue s = [] -> primed prompt sm m s).
Proof.
  intros Hkey [q ->] Hc Hm Hl Hb s. assert (Hq : drop (length f) (f ++ q) = q) by apply drop_app_length.
  assert (Hf : fed_to (f ++ q) sm m s).
  { split; cbn; [by rewrite Hq|by eexists|done|done|intros n Hn; apply Hb in Hn; lia|done]. }
  split; [split; [done|]; cbn; intros Hn; apply Hb in Hn; lia|]. intros Hs. split; [done|]. split; [done|]. unfold s, opened in *. cbn in *. by rewrite Hs.
Qed.
Lemma wp_open alloc now key px w : key.1 = m -> honest m px ->
  (forall w, wp alloc (fun c _ => holds c [] /\ length prompt <= max_ctx c) (fun _ _ => True) w) ->
  wp (open_prime alloc now key prompt sm px)
    (fun r _ => honest m r.2 /\ forall s, r.1 = Some s -> priming prompt sm m s /\ (prefill_queue s = [] -> primed prompt sm m s))
    (fun _ _ => True) w.
Proof.
  intros Hkey Hh Ha. unfold open_prime. wp_step. eapply wp_conseq; [by apply wp_restored_cache|]. intros [r c0] w1 Hr. cbn [fst snd] in Hr.
  assert (Hdec : r = ROk \/ r <> ROk) by (destruct r; [by left|by right..]). destruct Hdec as [->|Hne].
  - destruct (Hr eq_refl) as (e & c & He & Hpre & (c1 & _ & _ & Hrow) & Hpos & -> & Hc & Hm).
    destruct (probe_found now key ROk px e He eq_refl) as (i & n & ->). wp_step. apply wp_unwrap. exists c. split; [done|]. wp_step. cbn [fst snd].
    split; [apply (honest_entries m (touch now key i px)); [done|by apply honest_touch]|]. intros s [= <-]. apply opened_priming; try done.
  - destruct (probe_cold now key r px Hne Hh) as (px' & Hh' & ->). unfold probe_miss.
    set (b := if _ && _ && _ then Some _ else None). set (sd := _ <=? length prompt). set (px2 := record_lcp _ _).
    assert (Hh2 : honest m px2) by (by apply (honest_entries m px')).
    assert (Hb : forall n, b = Some n -> 0 < n <= length prompt).
    { unfold b. intros n. destruct (_ && _) eqn:E; [|done]. intros [= <-]. rewrite !andb_true_iff, Nat.leb_le, Nat.ltb_lt in E.
      unfold PREFIX_CACHE_MIN_TOKENS in E. lia. }
    clearbody b sd px2. wp_step. eapply wp_conseq; [by apply wp_session_cache|]. intros [[c|] px3] w2 [Hh3 Hc3]; cbn [fst snd] in *; wp_step; [|done].
    split; [done|]. intros s [= <-]. destruct (Hc3 c eq_refl) as [Hc Hm]. apply opened_priming; try done. apply prefix_nil.
Qed.
End Total.
End Priming.

(** C32. Opening a request on any honest prefix cache, then any ticks, under any
    budgets and with any honest traffic of other sessions in between: no assertion
    of the forward pass is met, and with as many ticks as the prompt has tokens
    the session is done, has been fed exactly its prompt, in order, holds the
    state of a prompt primed from nothing, whichever prefix it resumed from, with
    its row of logits and the sampler's history, and the prefix cache is still
    honest. *)
Theorem prefill_exact {kd : KvDev} {kl : KvDevLaws kd} {tr : Trunk} (mono : bool) (holds : Cache -> list Z -> Prop)
    (row_ok : list Z -> list f32 -> Prop) (prompt : list Z) (sm : Sampler) (alloc : D Cache) (now : Z) (key : PoolKey) (px : PrefixCache)
    (ts : list Tick) (w : dstate) :
  trunk_ok mono holds row_ok (length prompt) ->
  (forall w, wp alloc (fun c _ => holds c [] /\ length prompt <= max_ctx c) (fun _ _ => True) w) ->
  honest holds row_ok key.1 px -> Forall (keeps_honest holds row_ok key.1) ts -> length prompt <= length ts ->
  wp (open_prime alloc now key prompt sm px) (fun r _ => honest holds row_ok key.1 r.2 /\ forall s, r.1 = Some s -> forall w',
      wp (prefill_ticks mono ts s r.2) (fun r' _ => honest holds row_ok key.1 r'.2 /\
          p_done r'.1 = true /\ prefill_queue r'.1 = [] /\ p_fed r'.1 = prompt
          /\ (exists c, p_cache r'.1 = Some c /\ holds c prompt) /\ (prompt <> [] -> row_ok prompt (p_logits r'.1))
          /\ p_sampler r'.1 = replay sm prompt) (fun _ _ => True) w')
    (fun _ _ => True) w.
Proof.
  intros Htr Ha Hh Hts Hle. eapply wp_conseq; [by eapply wp_open|]. intros [o px1] w1 [Hh1 Ho]. cbn [fst snd] in *. split; [done|].
  intros s -> w'. destruct (Ho s eq_refl) as [Hp Hd]. pose proof (f_equal length (ft_split _ _ _ _ _ _ (proj1 Hp))) as Hlen.
  rewrite length_app in Hlen. eapply wp_conseq; [eapply wp_prefill_ticks; try done; lia|].
  intros [s' px2] w2 [(Hf & Hq & Hdone) Hh2]. cbn [fst snd] in *. split; [done|]. split; [done|]. split; [done|].
  pose proof (ft_split _ _ _ _ _ _ Hf) as Hs. rewrite Hq, app_nil_r in Hs. rewrite <- Hs. split; [done|].
  split; [destruct (ft_cache _ _ _ _ _ _ Hf) as (c & Hc & Hold & _); by exists c|]. split; [apply (ft_row _ _ _ _ _ _ Hf)|].
  apply (ft_sampler _ _ _ _ _ _ Hf).
Qed.

(** ** Concrete instances *)
Module PrefillWitness.
Import ToyKv ToyRows.
Definition toy_row (ts : list Z) : list Z := [foldr Z.add 0%Z ts].
#[local] Instance toy_trunk : Trunk := {
  prime_cache c ts _ := ret (toy_row ts, feed c ts);
  decode_step c t := ret (toy_row [t], feed c [t]);
}.
Definition toy_row_ok (f l : list Z) : Prop := length l = 1.
Lemma rows_overlaid (n m : nat) (f : list Z) (b b1 b' : ByteBuf) : holds_rows m b f -> b_size b1 = n -> length f <= n ->
  overlaid (length f) b b1 b' -> holds_rows n b' f.
Proof.
  intros [Hs Ht] H1 Hle ->. unfold holds_rows, b_size in *. cbn [b_data]. rewrite Ht. split; [|by apply take_app_length].
  rewrite length_app, length_drop. lia.
Qed.
Lemma Forall3_one {A B E} (P : A -> B -> E -> Prop) x y (l : list E) : Forall3 P [x] [y] l -> exists z, l = [z] /\ P x y z.
Proof. intros Hl. inversion Hl as [|? ? z ? ? l' Hz Hnil]. subst. inversion Hnil. by exists z. Qed.
Lemma toy_trunk_ok total : trunk_ok false toy_holds toy_row_ok total.
Proof.
  split.
  - by intros c f (H & _).
  - intros c f (Hp & Hr & Hl & bk & bv & d & -> & [Hk _] & [Hv _]). rewrite Hr. split; [done|].
    intros l Hin. apply list_elem_of_singleton in Hin as [= ->]. unfold layer_ready. cbn. lia.
  - intros c f ts r w Hc _ Hle _ _. destruct (feed_holds c f ts Hc Hle). by apply wp_ret.
  - intros c f t w Hc Hle. destruct (feed_holds c f [t] Hc Hle). by apply wp_ret.
  - intros c c1 f (_ & Hr & Hl & bk & bv & d & -> & [Hk _] & [Hv _]) (_ & Hr1 & _ & bk1 & bv1 & d1 & -> & [Hk1 _] & [Hv1 _]) Hle.
    rewrite Hr, Hr1. split; repeat constructor; cbn; lia.
  - intros c c1 c' f (Hp & Hr & Hl & bk & bv & d & Ek & Hk & Hv) (_ & Hr1 & _ & bk1 & bv1 & d1 & Ek1 & [Hk1 _] & [Hv1 _]) Hle (Hp' & Hm' & Hkv & Hrec).
    rewrite Ek, Ek1 in Hkv. rewrite Hr, Hr1 in Hrec. apply Forall3_one in Hkv as (l' & Ekv' & Hl'). apply Forall3_one in Hrec as (r' & Ers' & Hr').
    destruct r' as [r'|]; [done|]. destruct l' as [[k' v' dk dv kt vt n' d']|]; [|done].
    cbn in Hl'. destruct Hl' as (-> & _ & Ok & Ov & -> & -> & -> & ->). rewrite Nat.mul_1_r in Ok, Ov. split; [congruence|]. split; [done|].
    rewrite Hm'. split; [done|]. exists k', v', d'. split; [done|]. split; [by eapply (rows_overlaid _ _ f bk bk1)|by eapply (rows_overlaid _ _ f bv bv1)].
Qed.

(** A request of 64 tokens on an empty cache, then one of 70 that resumes it. *)
Definition first_prompt : list Z := Z.of_nat <$> seq 0 64.
Definition second_prompt : list Z := Z.of_nat <$> seq 0 70.
Definition toy_key : PoolKey := (lit "m", []).
Definition toy_sm : Sampler := sampler_new default_config.
Definition toy_ticks : list Tick := (fun i => mkTick 5 1000 (Z.of_nat i) 32 id) <$> seq 1 70.
Definition no_prime : Prime := mkPrime toy_key None toy_sm [] [] [] false 0 None false.
Definition opening (prompt : list Z) (px : PrefixCache) := open_prime (toy_born 100) 0 toy_key prompt toy_sm px 0.
Definition session_of (prompt : list Z) (px : PrefixCache) : Prime := default no_prime (ok_of (None, px_default) (opening prompt px)).1.
Definition cache_of (prompt : list Z) (px : PrefixCache) : PrefixCache := (ok_of (None, px_default) (opening prompt px)).2.
Definition running (prompt : list Z) (px : PrefixCache) := prefill_ticks false toy_ticks (session_of prompt px) (cache_of prompt px) 0.
Definition after (prompt : list Z) (px : PrefixCache) : Prime * PrefixCache := ok_of (no_prime, px_default) (running prompt px).
Definition first_px : PrefixCache := (after first_prompt px_default).2.
(** Both the opening and the ticks returned. *)
Definition went (prompt : list Z) (px : PrefixCache) : bool :=
  match opening prompt px with (_, Ok (Some _, _)) => is_ok (running prompt px) | _ => false end.
Lemma went_runs prompt px : went prompt px = true ->
  opening prompt px = ((opening prompt px).1, Ok (Some (session_of prompt px), cache_of prompt px))
  /\ running prompt px = ((running prompt px).1, Ok (after prompt px)).
Proof.
  unfold went. intros Hw. split.
  - unfold session_of, cache_of. by destruct (opening prompt px) as [w' [[[s|] px']| |]].
  - apply is_ok_run. by destruct (opening prompt px) as [w' [[[s|] px']| |]].
Qed.

Lemma toy_ticks_keep : Forall (keeps_honest toy_holds toy_row_ok (lit "m")) toy_ticks.
Proof. apply Forall_fmap, Forall_true. by intros i px. Qed.
Lemma prefill_exact_witness :
  n_entries first_px = 1 /\ p_cached (session_of second_prompt first_px) = 64
  /\ p_done (after second_prompt first_px).1 = true /\ p_fed (after second_prompt first_px).1 = second_prompt
  /\ exists c, p_cache (after second_prompt first_px).1 = Some c /\ toy_holds c second_prompt.
Proof.
  split; [vm_compute; reflexivity|]. split; [vm_compute; reflexivity|].
  destruct (went_runs first_prompt px_default ltac:(vm_compute; reflexivity)) as [Ho Hr].
  assert (Hpx0 : honest toy_holds toy_row_ok (lit "m") px_default) by (by apply honest_empty).
  assert (Hborn : forall (p : list Z) w, length p <= 100 -> wp (toy_born 100) (fun c _ => toy_holds c [] /\ length p <= max_ctx c) (fun _ _ => True) w).
  { intros p w Hp. eapply wp_conseq; [apply toy_born_ok|]. intros c w' [Hc Hm]. split; [done|]. by rewrite Hm. }
  assert (Hfirst : length first_prompt <= 100) by (apply Nat.leb_le; reflexivity). assert (Htsfirst : length first_prompt <= length toy_ticks) by (apply Nat.leb_le; reflexivity).
  pose proof (prefill_exact false toy_holds toy_row_ok first_prompt toy_sm (toy_born 100) 0 toy_key px_default toy_ticks 0
    (toy_trunk_ok _) (fun w => Hborn _ w Hfirst) Hpx0
    toy_ticks_keep Htsfirst) as Hw.
  destruct (wp_run _ _ _ _ _ _ Hw Ho) as [_ Hw1]. destruct (wp_run _ _ _ _ _ _ (Hw1 _ eq_refl 0) Hr) as [Hpx _]. clear Hw Hw1 Ho Hr.
  destruct (went_runs second_prompt first_px ltac:(vm_compute; reflexivity)) as [Ho Hr].
  assert (Hsecond : length second_prompt <= 100) by (apply Nat.leb_le; reflexivity). assert (Htssecond : length second_prompt <= length toy_ticks) by (apply Nat.leb_le; reflexivity).
  pose proof (prefill_exact false toy_holds toy_row_ok second_prompt toy_sm (toy_born 100) 0 toy_key first_px toy_ticks 0
    (toy_trunk_ok _) (fun w => Hborn _ w Hsecond) Hpx
    toy_ticks_keep Htssecond) as Hw.
  destruct (wp_run _ _ _ _ _ _ Hw Ho) as [_ Hw1]. destruct (wp_run _ _ _ _ _ _ (Hw1 _ eq_refl 0) Hr) as (_ & Hd & _ & Hfed & Hc & _).
  split; [exact Hd|]. split; [exact Hfed|]. exact Hc.
Defined.
End PrefillWitness.
