(* ===== verification/Stream.v ===== *)
(** One session's decode tick: [utf8_delta], [advance_sample_emit],
    [advance_token_emit] and [devsample_meta] of [memra-server/src/worker.rs].

    A session samples a token, appends it, and sends the text that became
    complete; stop conditions end it with one [Done].  The grammar of a
    constrained request is a parameter ([Grammar], the llguidance library), and
    whether the client still listens an argument ([alive]); messages that cannot
    be delivered are dropped.  [None] is a panic.  The events are those the call
    sends, in order.  [due] says when each reason to stop is the one to give, and
    [stream_exact] that it then is. *)
From Stdlib Require Import SpecFloat.
From S2P Require Import Prelude F32 RustStr Utf8 Sampling Tokenizer.
Local Open Scope Z_scope.

(** ** [std::str::from_utf8] *)

(** What the bytes after [b0] make of it: a character of [n] bytes, an invalid
    sequence of [n] bytes, or a sequence cut short. *)
Inductive Utf8Step := Good (c : Z) (n : nat) | Bad (n : nat) | More.
Definition utf8_step (b0 : Z) (l : list Z) : Utf8Step :=
  if b0 <? 128 then Good b0 1
  else if (194 <=? b0) && (b0 <=? 223) then
    match l with
    | [] => More
    | b1 :: _ => if cont b1 then Good ((b0 - 192) * 64 + (b1 - 128)) 2 else Bad 1
    end
  else if (224 <=? b0) && (b0 <=? 239) then
    match l with
    | [] => More
    | b1 :: r1 =>
        if second_ok b0 b1 then
          match r1 with
          | [] => More
          | b2 :: _ => if cont b2 then Good ((b0 - 224) * 4096 + (b1 - 128) * 64 + (b2 - 128)) 3 else Bad 2
          end
        else Bad 1
    end
  else if (240 <=? b0) && (b0 <=? 244) then
    match l with
    | [] => More
    | b1 :: r1 =>
        if second_ok b0 b1 then
          match r1 with
          | [] => More
          | b2 :: r2 =>
              if cont b2 then
                match r2 with
                | [] => More
                | b3 :: _ =>
                    if cont b3
                    then Good ((b0 - 240) * 262144 + (b1 - 128) * 4096 + (b2 - 128) * 64 + (b3 - 128)) 4
                    else Bad 3
                end
              else Bad 2
          end
        else Bad 1
    end
  else Bad 1.
(** [Ok(text)] or [Err]: the text of the valid prefix, its length
    ([valid_up_to]) and [error_len]. *)
Inductive FromUtf8 := Valid (text : str) | Invalid (text : str) (valid_up_to : nat) (error_len : option nat).
Fixpoint from_utf8_fuel (fuel : nat) (text : str) (at_ : nat) (bs : list Z) : FromUtf8 :=
  match fuel, bs with
  | S fuel, b :: l =>
      match utf8_step b l with
      | Good c n => from_utf8_fuel fuel (text ++ [c]) (at_ + n) (drop (n - 1) l)
      | Bad n => Invalid text at_ (Some n)
      | More => Invalid text at_ None
      end
  | _, _ => Valid text
  end.
(** A step per byte is enough ([from_utf8_spec]). *)
Definition from_utf8 (bs : list Z) : FromUtf8 := from_utf8_fuel (length bs) [] 0 bs.

(** The loop of [utf8_delta]; a round consumes at least a byte, so the bytes left
    are fuel enough ([utf8_delta_complete]). *)
Fixpoint delta_loop (fuel : nat) (decoded : list Z) (cursor : nat) (delta : str) : str * nat :=
  match fuel with
  | O => (delta, cursor)
  | S fuel =>
      if (length decoded <=? cursor)%nat then (delta, cursor)
      else match from_utf8 (drop cursor decoded) with
           | Valid text => delta_loop fuel decoded (length decoded) (delta ++ text)
           | Invalid text valid err =>
               match err with
               | None => (delta ++ text, (cursor + valid)%nat)
               | Some n => delta_loop fuel decoded (cursor + valid + n) (delta ++ text ++ [replacement])
               end
           end
  end.
Definition utf8_delta (decoded : list Z) (emitted_bytes : nat) : str * nat :=
  if (length decoded <? emitted_bytes)%nat then ([], emitted_bytes)
  else delta_loop (length decoded - emitted_bytes) decoded emitted_bytes [].

(** ** Sessions *)

Class Grammar := {
  gstate : Type;
  (** [mask_logits]: the state after, and the masked row or an error *)
  mask_logits : gstate -> list spec_float -> gstate * option (list spec_float);
  (** [consume]: the state after, and whether the token was accepted *)
  consume : gstate -> Z -> gstate * bool;
}.

Section Session.
Context `{SortDesc, F32Exp, Grammar}.

Inductive StopReason := MaxNew | Eos | Callback | ContextFull.
Inductive EngineError := EMask | EAdvance | EBatch.
Inductive Event :=
  | EvToken (id : Z) (text : str)
  | EvDone (reason : StopReason) (n_tokens n_prompt n_cached : nat)
  | EvError (e : EngineError).

Record Session := mkSession {
  s_model : str;
  sampler : Sampler;
  last_logits : list spec_float;
  device_next : option Z;
  constraint : option gstate;
  (** tokens the engine was fed, in order *)
  fed : list Z;
  generated : list Z;
  eos : list Z;
  stop_strings : list str;
  emitted_bytes : nat;
  budget : nat;
  n_prompt : nat;
  n_cached : nat;
  (** [cache.pos] and [cache.max_ctx], when the session has one *)
  s_cache : option (nat * nat);
}.
Definition set_sampled (sm : Sampler) (dev : option Z) (g : option gstate) (s : Session) : Session :=
  mkSession (s_model s) sm (last_logits s) dev g (fed s) (generated s) (eos s) (stop_strings s) (emitted_bytes s)
    (budget s) (n_prompt s) (n_cached s) (s_cache s).
Definition push_token (t : Z) (s : Session) : Session :=
  mkSession (s_model s) (accept t (sampler s)) (last_logits s) (device_next s) (constraint s) (fed s) (generated s ++ [t])
    (eos s) (stop_strings s) (emitted_bytes s) (budget s) (n_prompt s) (n_cached s) (s_cache s).
Definition set_constraint (g : option gstate) (s : Session) : Session := set_sampled (sampler s) (device_next s) g s.
Definition set_emitted (n : nat) (s : Session) : Session :=
  mkSession (s_model s) (sampler s) (last_logits s) (device_next s) (constraint s) (fed s) (generated s) (eos s)
    (stop_strings s) n (budget s) (n_prompt s) (n_cached s) (s_cache s).

Definition finish (s : Session) (r : StopReason) : Event := EvDone r (length (generated s)) (n_prompt s) (n_cached s).
Definition stopped (s : Session) (full : str) : bool :=
  match stop_strings s with [] => false | l => existsb (fun ss => contains ss full) l end.

(** The token of this tick: sampled on the device, from a masked copy, or from
    the logits.  [inr]: the mask failed. *)
Definition next_token (s : Session) : option (Session * (Z + unit)) :=
  match device_next s, constraint s with
  | Some t, _ => Some (set_sampled (sampler s) None (constraint s) s, inl t)
  | None, Some g =>
      match mask_logits g (last_logits s) with
      | (g', None) => Some (set_sampled (sampler s) None (Some g') s, inr tt)
      | (g', Some row) =>
          '(t, sm) ← sample (sampler s) row; Some (set_sampled sm None (Some g') s, inl t)
      end
  | None, None => '(t, sm) ← sample (sampler s) (last_logits s); Some (set_sampled sm None None s, inl t)
  end.

(** The grammar's step; [None]: it refused the token. *)
Definition consume_token (t : Z) (s : Session) : Session * bool :=
  match constraint s with
  | None => (s, true)
  | Some g => let '(g', ok) := consume g t in (set_constraint (Some g') s, ok)
  end.

(** The result of a tick: the session, the events, whether it goes on. *)
Definition Tick : Type := Session * list Event * bool.
(** From the accepted token on: end-of-sequence, grammar, text, stop strings. *)
Definition emit (tk : Tokenizer) (alive : bool) (t : Z) (full_check : bool) (s : Session) : option Tick :=
  let s := push_token t s in
  if bool_decide (t ∈ eos s) then Some (s, [finish s Eos], false)
  else
    let '(s, ok) := consume_token t s in
    if negb ok then Some (s, [EvError EAdvance], false)
    else
      decoded ← decode_bytes_special tk (generated s) true;
      let '(delta, n) := utf8_delta decoded (emitted_bytes s) in
      let s := set_emitted n s in
      let full := from_utf8_lossy decoded in
      if negb alive then Some (s, [], false)
      else if stopped s full then Some (s, [EvToken t delta; finish s Callback], false)
      else if full_check && match s_cache s with Some (pos, mc) => (mc <=? pos)%nat | None => false end
      then Some (s, [EvToken t delta; finish s ContextFull], false)
      else Some (s, [EvToken t delta], true).
Definition advance_sample_emit (tk : Tokenizer) (alive : bool) (s : Session) : option (Tick * option Z) :=
  if (budget s <=? length (generated s))%nat then Some ((s, [finish s MaxNew], false), None)
  else
    '(s, r) ← next_token s;
    match r with
    | inr _ => Some ((s, [EvError EMask], false), None)
    | inl t => '(s, evs, go) ← emit tk alive t true s; Some ((s, evs, go), if go : bool then Some t else None)
    end.
Definition advance_token_emit (tk : Tokenizer) (alive : bool) (tok : Z) (s : Session) : option Tick :=
  if (budget s <=? length (generated s))%nat then Some (s, [finish s MaxNew], false)
  else emit tk alive tok false s.

(** The metadata of a row the device samples: temperature, seed, counter. *)
Definition devsample_meta (devsample : bool) (s : Session) : option (spec_float * Z * Z) :=
  if negb devsample then None
  else
    let c := cfg (sampler s) in
    if negb (no_penalties c) || negb (top_k c =? 0)%nat || f_lt (top_p c) f32_one || f_gt (min_p c) f32_zero then None
    else if is_greedy (sampler s) then Some (f32_zero, 0, 0)
    else Some (temperature c, seed c, wrap 32 (Z.of_nat (length (generated s)))).
End Session.

(** ** The text that is complete *)

(** The characters of [bs], invalid sequences replaced, up to a last sequence
    that is cut short: those bytes are held back. *)
Fixpoint complete_fuel (fuel : nat) (bs : list Z) : str * list Z :=
  match fuel, bs with
  | S fuel, b :: l =>
      match utf8_step b l with
      | Good c n => let '(s, r) := complete_fuel fuel (drop (n - 1) l) in (c :: s, r)
      | Bad n => let '(s, r) := complete_fuel fuel (drop (n - 1) l) in (replacement :: s, r)
      | More => ([], bs)
      end
  | _, _ => ([], [])
  end.
Definition complete (bs : list Z) : str * list Z := complete_fuel (length bs) bs.

(** Bytes a step takes after the first. *)
Definition step_more (x : Utf8Step) : nat := match x with Good _ n | Bad n => n - 1 | More => 0 end.
Definition step_char (x : Utf8Step) : Z := match x with Good c _ => c | _ => replacement end.
Definition decided (x : Utf8Step) : bool := match x with More => false | _ => true end.
Lemma step_bound b l : decided (utf8_step b l) = true -> (step_more (utf8_step b l) <= length l)%nat /\
  match utf8_step b l with Good _ n | Bad n => (1 <= n)%nat | More => True end.
Proof. unfold utf8_step. repeat (case_match; cbn; try done; try lia). Qed.
(** More bytes do not change a decision. *)
Lemma step_app b l y : decided (utf8_step b l) = true -> utf8_step b (l ++ y) = utf8_step b l.
Proof.
  unfold utf8_step. destruct (b <? 128); [done|]. destruct (_ && _); [by destruct l as [|b1 l]|].
  destruct ((224 <=? b) && (b <=? 239)).
  - destruct l as [|b1 [|b2 l]]; cbn [app]; try done. by destruct (second_ok b b1).
  - destruct (_ && _); [|done]. destruct l as [|b1 [|b2 [|b3 l]]]; cbn [app]; try done; destruct (second_ok b b1); try done.
    by destruct (cont b2).
Qed.
Lemma lossy_step b l : lossy_char b l = (step_char (utf8_step b l),
  if decided (utf8_step b l) then drop (step_more (utf8_step b l)) l else []).
Proof.
  unfold lossy_char, utf8_step. destruct (b <? 128); [done|]. destruct (_ && _); [destruct l as [|b1 l]; [done|]; by destruct (cont b1)|].
  destruct ((224 <=? b) && (b <=? 239)).
  - destruct l as [|b1 r1]; [done|]. destruct (second_ok b b1); [|done]. destruct r1 as [|b2 r2]; [done|]. by destruct (cont b2).
  - destruct (_ && _); [|done]. destruct l as [|b1 r1]; [done|]. destruct (second_ok b b1); [|done].
    destruct r1 as [|b2 r2]; [done|]. destruct (cont b2); [|done]. destruct r2 as [|b3 r3]; [done|]. by destruct (cont b3).
Qed.
Lemma complete_fuel_eq n m bs : (length bs <= n)%nat -> (length bs <= m)%nat -> complete_fuel n bs = complete_fuel m bs.
Proof.
  revert m bs. induction n as [|n IH]; intros m [|b l] Hn Hm; cbn [length] in *; try lia; try by destruct m.
  destruct m as [|m]; [lia|]. cbn [complete_fuel]. destruct (utf8_step b l) as [c k|k|]; [..|done];
    rewrite (IH m) by (rewrite length_drop; lia); done.
Qed.
(** The equation of [complete]. *)
Lemma complete_cons b l : complete (b :: l) =
  if decided (utf8_step b l) then
    let '(s, r) := complete (drop (step_more (utf8_step b l)) l) in (step_char (utf8_step b l) :: s, r)
  else ([], b :: l).
Proof.
  unfold complete at 1. cbn [complete_fuel length]. destruct (utf8_step b l) as [c k|k|] eqn:E; cbn [decided step_more step_char]; [..|done];
    unfold complete; rewrite (complete_fuel_eq (length l) (length (drop (k - 1) l))) by (rewrite length_drop; lia); done.
Qed.
(** Induction on the characters of a byte string. *)
Lemma bytes_ind (P : list Z -> Prop) : P [] ->
  (forall b l, decided (utf8_step b l) = true -> P (drop (step_more (utf8_step b l)) l) -> P (b :: l)) ->
  (forall b l, decided (utf8_step b l) = false -> P (b :: l)) -> forall bs, P bs.
Proof.
  intros H0 H1 H2 bs. remember (length bs) as n eqn:Hn. assert (Hle : (length bs <= n)%nat) by lia. clear Hn. revert bs Hle.
  induction n as [|n IH]; intros [|b l] Hl; cbn [length] in *; try done; [lia|].
  destruct (decided (utf8_step b l)) eqn:E; [|by apply H2]. apply H1; [done|]. apply IH. rewrite length_drop. lia.
Qed.
(** Completing in two pieces is completing at once. *)
Lemma complete_app x y : complete (x ++ y) =
  let '(s1, r1) := complete x in let '(s2, r2) := complete (r1 ++ y) in (s1 ++ s2, r2).
Proof.
  induction x as [|b l E IH|b l E] using bytes_ind.
  - change (complete []) with (@nil Z, @nil Z). cbn [app]. by destruct (complete y).
  - rewrite <- app_comm_cons, !complete_cons, step_app, E by done. pose proof (step_bound b l E) as [Hb _].
    rewrite drop_app_le, IH by done. destruct (complete (drop _ l)) as [s1 r1]. by destruct (complete (r1 ++ y)) as [s2 r2].
  - rewrite (complete_cons b l), E. cbn [app]. by destruct (complete (b :: l ++ y)).
Qed.
Lemma complete_suffix bs : exists pre, bs = pre ++ (complete bs).2.
Proof.
  induction bs as [|b l E [pre IH]|b l E] using bytes_ind; [by exists []|..]; rewrite complete_cons, E; [|by exists []].
  destruct (complete (drop _ l)) as [s r]. cbn [snd] in *. exists (b :: take (step_more (utf8_step b l)) l ++ pre).
  cbn [app]. f_equal. by rewrite <- app_assoc, <- IH, take_drop.
Qed.
(** Rust's lossy decoding is the complete text and one U+FFFD for what is held. *)
Lemma lossy_complete bs : from_utf8_lossy bs = (complete bs).1 ++ match (complete bs).2 with [] => [] | _ => [replacement] end.
Proof.
  induction bs as [|b l E IH|b l E] using bytes_ind; [done|..].
  - unfold from_utf8_lossy. cbn [length lossy_fuel]. rewrite lossy_step, E, complete_cons, E. rewrite lossy_fuel_enough by (rewrite length_drop; lia).
    rewrite IH. by destruct (complete (drop _ l)).
  - unfold from_utf8_lossy. cbn [length lossy_fuel]. rewrite lossy_step, E, complete_cons, E. cbn [fst snd app].
    replace (step_char (utf8_step b l)) with replacement by (by destruct (utf8_step b l)). by destruct (length l).
Qed.
Lemma complete_held_empty b l : decided (utf8_step b l) = false -> complete (b :: l) = ([], b :: l).
Proof. intros E. by rewrite complete_cons, E. Qed.
Lemma complete_utf8 t : Forall is_char t -> complete (utf8 t) = (t, []).
Proof.
  induction 1 as [|c t Hc H IH]; [done|]. rewrite utf8_cons. destruct (lossy_utf8_char c (utf8 t) Hc) as (b & l & Hb & Hl).
  rewrite lossy_step in Hl. rewrite Hb, <- app_comm_cons, complete_cons.
  destruct (decided (utf8_step b (l ++ utf8 t))) eqn:E.
  - injection Hl as Hs Hd. by rewrite Hs, Hd, IH.
  - exfalso. injection Hl as Hs _. clear - Hb E Hs. destruct (utf8_step b (l ++ utf8 t)) eqn:E2; try done. cbn in Hs. subst c.
    vm_compute in Hb. injection Hb as <- <-. vm_compute in E2. done.
Qed.

(** [from_utf8] stops at the first invalid sequence. *)
Definition from_utf8_result (text : str) (at_ : nat) (bs : list Z) (r : FromUtf8) : Prop :=
  match r with
  | Valid t => exists s, t = text ++ s /\ complete bs = (s, [])
  | Invalid t n None => exists s k, t = text ++ s /\ n = (at_ + k)%nat /\ (k <= length bs)%nat /\ complete bs = (s, drop k bs)
  | Invalid t n (Some m) => exists s k, t = text ++ s /\ n = (at_ + k)%nat /\ (1 <= m)%nat /\ (k + m <= length bs)%nat /\
      complete bs = (s ++ replacement :: (complete (drop (k + m) bs)).1, (complete (drop (k + m) bs)).2)
  end.
Lemma from_utf8_fuel_spec bs : forall fuel text at_, (length bs <= fuel)%nat ->
  from_utf8_result text at_ bs (from_utf8_fuel fuel text at_ bs).
Proof.
  induction bs as [|b l E IH|b l E] using bytes_ind; intros fuel text at_ Hf.
  - destruct fuel; exists []; by rewrite app_nil_r.
  - destruct fuel as [|fuel]; cbn [length] in Hf; [lia|]. cbn [from_utf8_fuel]. pose proof (step_bound b l E) as [Hb Hn].
    pose proof (complete_cons b l) as Hc. rewrite E in Hc. destruct (utf8_step b l) as [c n|n|]; [..|done]; cbn [step_more step_char] in *.
    + specialize (IH fuel (text ++ [c]) (at_ + n)%nat ltac:(rewrite length_drop; lia)).
      destruct (from_utf8_fuel fuel (text ++ [c]) (at_ + n) (drop (n - 1) l)) as [t|t k [m|]]; cbn [from_utf8_result] in *.
      * destruct IH as (s & -> & Hs). exists (c :: s). rewrite <- app_assoc. split; [done|]. by rewrite Hc, Hs.
      * destruct IH as (s & j & -> & -> & Hm & Hj & Hs). exists (c :: s), (n + j)%nat. rewrite <- app_assoc. split; [done|]. split; [lia|].
        rewrite length_drop in Hj. split; [done|]. cbn [length]. split; [lia|]. rewrite Hc, Hs, drop_drop.
        replace (n + j + m)%nat with (S (n - 1 + (j + m))) by lia. done.
      * destruct IH as (s & j & -> & -> & Hj & Hs). exists (c :: s), (n + j)%nat. rewrite <- app_assoc. split; [done|]. split; [lia|].
        rewrite length_drop in Hj. cbn [length]. split; [lia|]. rewrite Hc, Hs, drop_drop. by replace (n + j)%nat with (S (n - 1 + j)) by lia.
    + exists [], 0%nat. rewrite app_nil_r, Nat.add_0_r. split; [done|]. split; [done|]. split; [done|]. cbn [length Nat.add app]. split; [lia|].
      rewrite Hc. replace n with (S (n - 1)) at 2 3 by lia. cbn [drop]. by destruct (complete (drop (n - 1) l)).
  - destruct fuel as [|fuel]; cbn [length] in Hf; [lia|]. cbn [from_utf8_fuel]. pose proof (complete_held_empty b l E) as Hc.
    destruct (utf8_step b l); try done. exists [], 0%nat. rewrite app_nil_r, Nat.add_0_r. split; [done|]. split; [done|]. split; [lia|done].
Qed.
Lemma delta_loop_spec decoded : forall fuel cursor delta, (cursor <= length decoded)%nat -> (length decoded - cursor <= fuel)%nat ->
  delta_loop fuel decoded cursor delta =
    (delta ++ (complete (drop cursor decoded)).1, (length decoded - length (complete (drop cursor decoded)).2)%nat).
Proof.
  induction fuel as [|fuel IH]; intros cursor delta Hc Hf; cbn [delta_loop].
  { rewrite drop_ge by lia. cbn. rewrite app_nil_r. f_equal. lia. }
  destruct (Nat.leb_spec (length decoded) cursor) as [Hge|Hlt]; [rewrite drop_ge by lia; cbn; rewrite app_nil_r; f_equal; lia|].
  pose proof (from_utf8_fuel_spec (drop cursor decoded) _ [] 0 (Nat.le_refl _)) as Hr. fold (from_utf8 (drop cursor decoded)) in Hr.
  destruct (from_utf8 (drop cursor decoded)) as [t|t n [m|]]; cbn [from_utf8_result] in Hr.
  - destruct Hr as (s & -> & Hs). rewrite IH by lia. rewrite Hs, drop_ge by lia. cbn. by rewrite app_nil_r.
  - destruct Hr as (s & k & -> & -> & Hm & Hk & Hs). rewrite length_drop in Hk. rewrite Hs, drop_drop. cbn [app Nat.add fst snd].
    rewrite IH by lia. rewrite Nat.add_assoc, <- !app_assoc. done.
  - destruct Hr as (s & k & -> & -> & Hk & Hs). rewrite Hs. cbn [app Nat.add fst snd]. f_equal. rewrite !length_drop. rewrite length_drop in Hk. lia.
Qed.
(** What [utf8_delta] emits is what became complete. *)
Lemma utf8_delta_complete decoded emitted : (emitted <= length decoded)%nat ->
  utf8_delta decoded emitted =
    ((complete (drop emitted decoded)).1, (length decoded - length (complete (drop emitted decoded)).2)%nat).
Proof.
  intros He. unfold utf8_delta. destruct (Nat.ltb_spec (length decoded) emitted) as [|_]; [lia|]. by rewrite delta_loop_spec by lia.
Qed.
(** Where the cursor stands once [bs] has been streamed. *)
Definition streamed (bs : list Z) : nat := (length bs - length (complete bs).2)%nat.
Lemma streamed_le bs : (streamed bs <= length bs)%nat.
Proof. unfold streamed. lia. Qed.
Lemma drop_streamed bs : drop (streamed bs) bs = (complete bs).2.
Proof.
  unfold streamed. destruct (complete_suffix bs) as [pre Hp]. set (r := (complete bs).2) in *. clearbody r. subst bs.
  rewrite length_app, Nat.add_sub. by rewrite drop_app_length.
Qed.
Lemma utf8_delta_step bs more : utf8_delta (bs ++ more) (streamed bs) =
  ((complete ((complete bs).2 ++ more)).1, streamed (bs ++ more))
  /\ (complete (bs ++ more)).1 = (complete bs).1 ++ (complete ((complete bs).2 ++ more)).1.
Proof.
  pose proof (streamed_le bs) as Hle. rewrite utf8_delta_complete by (rewrite length_app; lia).
  rewrite drop_app_le, drop_streamed by done. unfold streamed. rewrite (complete_app bs more). destruct (complete bs) as [s1 r1]. cbn [fst snd].
  by destruct (complete (r1 ++ more)) as [s2 r2].
Qed.

(** ** A session on its own *)
Section Generation.
Context `{SortDesc, F32Exp, Grammar}.
Implicit Types (s : Session) (tk : Tokenizer).

(** What a decode step gives the session: its row of logits (empty when the
    device sampled) and the token sampled on the device. *)
Definition Row : Type := list spec_float * option Z.
(** After the step: the token is fed, the cache holds one more. *)
Definition feed (t : Z) (r : Row) (s : Session) : Session :=
  mkSession (s_model s) (sampler s) r.1 r.2 (constraint s) (fed s ++ [t]) (generated s) (eos s) (stop_strings s)
    (emitted_bytes s) (budget s) (n_prompt s) (n_cached s) ((fun c => (S c.1, c.2)) <$> s_cache s).
(** Ticks until the session stops; [step] is the engine's row for a session and
    its next token. *)
Fixpoint generate (step : Session -> Z -> Row) (tk : Tokenizer) (fuel : nat) (s : Session) : option (Session * list Event) :=
  match fuel with
  | O => Some (s, [])
  | S fuel =>
      '((s, evs, go), t) ← advance_sample_emit tk true s;
      match t with
      | Some t => '(s, evs') ← generate step tk fuel (feed t (step s t) s); Some (s, evs ++ evs')
      | None => Some (s, evs)
      end
  end.

(** ** The text of the tokens *)

Lemma decode_cons tk i ids : decode_bytes_special tk (i :: ids) true =
  (a ← decode_bytes_special tk [i] true; b ← decode_bytes_special tk ids true; Some (a ++ b)).
Proof.
  cbn [decode_bytes_special]. destruct (match index (id_to_token tk) i with Some _ => _ | None => _ end) as [a|]; [|done].
  cbn [mbind option_bind]. by rewrite app_nil_r.
Qed.
Lemma decode_snoc tk ids t : decode_bytes_special tk (ids ++ [t]) true =
  (a ← decode_bytes_special tk ids true; b ← decode_bytes_special tk [t] true; Some (a ++ b)).
Proof.
  induction ids as [|i ids IH].
  - cbn [app]. change (decode_bytes_special tk [] true) with (Some (@nil Z)). cbn [mbind option_bind]. by destruct (decode_bytes_special tk [t] true).
  - rewrite <- app_comm_cons, (decode_cons tk i (ids ++ [t])), (decode_cons tk i ids), IH.
    destruct (decode_bytes_special tk [i] true) as [a|]; [|done]. cbn [mbind option_bind].
    destruct (decode_bytes_special tk ids true) as [b|]; [|done]. cbn [mbind option_bind].
    destruct (decode_bytes_special tk [t] true) as [c|]; [|done]. cbn [mbind option_bind]. by rewrite app_assoc.
Qed.

(** A tokenizer and an engine on which nothing panics. *)
Record serves_rows (step : Session -> Z -> Row) (tk : Tokenizer) : Prop := {
  sr_decode ids : is_Some (decode_bytes_special tk ids true);
  sr_row s t : (step s t).2 = None -> (step s t).1 <> [];
  sr_mask g l g' row : mask_logits g l = (g', Some row) -> l <> [] -> row <> [];
}.
(** A session between ticks: it can sample, and its cursor is where its text says. *)
Record running tk s : Prop := {
  ru_row : device_next s = None -> last_logits s <> [];
  ru_budget : (length (generated s) <= budget s)%nat;
  ru_cursor : exists bs, decode_bytes_special tk (generated s) true = Some bs /\ emitted_bytes s = streamed bs;
  ru_eos : Forall (fun t => ~ t ∈ eos s) (generated s);
}.

(** What the last event may be, of a session that has generated [vis] visibly. *)
Definition stop_text (s : Session) (bs : list Z) : Prop := exists ss, ss ∈ stop_strings s /\ contains ss (from_utf8_lossy bs) = true.
Inductive ends tk (s s' : Session) : list Z -> Event -> Prop :=
  | end_budget vis : generated s' = vis -> length vis = budget s -> ends tk s s' vis (finish s' MaxNew)
  | end_eos vis t : generated s' = vis ++ [t] -> t ∈ eos s -> ends tk s s' vis (finish s' Eos)
  | end_stop vis bs : generated s' = vis -> decode_bytes_special tk vis true = Some bs -> stop_text s bs ->
      ends tk s s' vis (finish s' Callback)
  | end_context vis pos mc : generated s' = vis -> s_cache s' = Some (pos, mc) -> (mc <= pos)%nat ->
      ends tk s s' vis (finish s' ContextFull)
  | end_mask vis : generated s' = vis -> ends tk s s' vis (EvError EMask)
  | end_refused vis t : generated s' = vis ++ [t] -> ends tk s s' vis (EvError EAdvance).

(** What stays the same. *)
Definition same_request s s' : Prop :=
  eos s' = eos s /\ stop_strings s' = stop_strings s /\ budget s' = budget s /\ n_prompt s' = n_prompt s /\ n_cached s' = n_cached s.
Lemma same_request_trans s1 s2 s3 : same_request s1 s2 -> same_request s2 s3 -> same_request s1 s3.
Proof. unfold same_request. intros (-> & -> & -> & -> & ->) (-> & -> & -> & -> & ->). done. Qed.
Lemma ends_request tk s1 s2 s' vis e : same_request s1 s2 -> ends tk s2 s' vis e -> ends tk s1 s' vis e.
Proof.
  intros (He & Hs & Hb & _) Hends. destruct Hends; unfold stop_text in *; rewrite ?He, ?Hs, ?Hb in *; by econstructor.
Qed.

(** *** When each reason is due *)

Definition reason_of (e : Event) : option (StopReason + EngineError) :=
  match e with EvToken _ _ => None | EvDone r _ _ _ => Some (inl r) | EvError x => Some (inr x) end.
(** The session [n] ticks later. *)
Fixpoint session_after (step : Session -> Z -> Row) tk (n : nat) s : option Session :=
  match n with
  | O => Some s
  | S n =>
      match advance_sample_emit tk true s with
      | Some (s1, _, _, Some t) => session_after step tk n (feed t (step s1 t) s1)
      | _ => None
      end
  end.
(** The last of [new] completed a stop string, or the cache had no room after it:
    every token before it had been fed. *)
Definition text_cut tk s (new : list Z) : Prop :=
  new <> [] /\ exists b, decode_bytes_special tk (generated s ++ new) true = Some b /\ stop_text s b.
Definition context_cut s (new : list Z) : Prop :=
  new <> [] /\ exists pos mc, s_cache s = Some (pos, mc) /\ (mc <= pos + (length new - 1))%nat.
Definition uncut tk s new : Prop := ~ text_cut tk s new /\ ~ context_cut s new.
(** The next tick draws a token, or fails to. *)
Definition next_is step tk s (new : list Z) (P : Session -> Z + unit -> Prop) : Prop :=
  uncut tk s new /\ (length (generated s) + length new < budget s)%nat /\
  exists sl s1 r, session_after step tk (length new) s = Some sl /\ next_token sl = Some (s1, r) /\ P s1 r.
(** The reason for which a session that streamed [new] ends there. *)
Definition due step tk s (new : list Z) (r : StopReason + EngineError) : Prop :=
  match r with
  | inl Callback => text_cut tk s new
  | inl ContextFull => ~ text_cut tk s new /\ context_cut s new
  | inl MaxNew => uncut tk s new /\ (budget s <= length (generated s) + length new)%nat
  | inl Eos => next_is step tk s new (fun _ r => exists t, r = inl t /\ t ∈ eos s)
  | inr EMask => next_is step tk s new (fun _ r => r = inr tt)
  | inr EAdvance => next_is step tk s new (fun s1 r => exists t, r = inl t /\ ~ t ∈ eos s /\ (consume_token t s1).2 = false)
  | inr EBatch => False
  end.
Lemma next_is_fun step tk s new P Q : next_is step tk s new P -> next_is step tk s new Q -> exists s1 r, P s1 r /\ Q s1 r.
Proof. intros (_ & _ & sl & s1 & r & Ha & Hb & Hp) (_ & _ & sl' & s1' & r' & Ha' & Hb' & Hq). exists s1, r. rewrite Ha in Ha'. injection Ha' as <-. rewrite Hb in Hb'. by injection Hb' as <- <-. Qed.
(** At most one reason is due. *)
Lemma due_unique step tk s new r r' : due step tk s new r -> due step tk s new r' -> r = r'.
Proof.
  assert (Hnext : forall P Q, next_is step tk s new P -> next_is step tk s new Q -> (forall s1 r, P s1 r -> Q s1 r -> False) -> False).
  { intros P Q HP HQ Hd. destruct (next_is_fun _ _ _ _ _ _ HP HQ) as (s1 & x & Hp & Hq). by eapply Hd. }
  assert (Hun : forall P, next_is step tk s new P -> uncut tk s new /\ (length (generated s) + length new < budget s)%nat) by (by intros P (? & ? & _)).
  destruct r as [[]|[]], r' as [[]|[]]; cbn [due]; intros Hr Hr'; try done; exfalso;
    try (eapply (Hnext _ _ Hr Hr'); naive_solver); repeat match goal with Hx : next_is _ _ _ _ _ |- _ => apply Hun in Hx end; unfold uncut in *; intuition lia.
Qed.
Lemma due_cons step tk s s2 evs t new r (s3 := feed t (step s2 t) s2) :
  advance_sample_emit tk true s = Some (s2, evs, true, Some t) -> generated s2 = generated s ++ [t] -> s_cache s2 = s_cache s -> same_request s s2 ->
  uncut tk s [t] -> (uncut tk s3 new -> uncut tk s (t :: new)) /\ (due step tk s3 new r -> due step tk s (t :: new) r).
Proof.
  intros Hadv Hg Hc (He & Hs & Hb & _) [Hnt Hnc]. assert (Hgen : generated s3 ++ new = generated s ++ t :: new) by (change (generated s3) with (generated s2); by rewrite Hg, <- app_assoc).
  assert (Hcache : s_cache s3 = (fun c => (S c.1, c.2)) <$> s_cache s) by (by rewrite <- Hc).
  assert (Ht : text_cut tk s3 new <-> text_cut tk s (t :: new)).
  { unfold text_cut. rewrite Hgen. unfold stop_text. change (stop_strings s3) with (stop_strings s2). rewrite Hs. split; [by intros [_ H']; split|].
    intros [_ H']. split; [|done]. intros ->. apply Hnt. by split. }
  assert (Hx : context_cut s3 new <-> context_cut s (t :: new)).
  { unfold context_cut. rewrite Hcache. split.
    - intros [Hne (pos & mc & Hp & Hle)]. split; [done|]. destruct (s_cache s) as [[pos0 mc0]|]; [|done]. injection Hp as <- <-. exists pos0, mc0. split; [done|].
      destruct new; [done|]. cbn [length] in *. lia.
    - intros [_ (pos & mc & Hp & Hle)]. split.
      + intros ->. apply Hnc. split; [done|]. by exists pos, mc.
      + rewrite Hp. exists (S pos), mc. split; [done|]. destruct new; [|cbn [length] in *; lia]. exfalso. apply Hnc. split; [done|]. by exists pos, mc. }
  assert (Hu : uncut tk s3 new <-> uncut tk s (t :: new)) by (unfold uncut; by rewrite Ht, Hx).
  assert (Hlen : (length (generated s3) + length new = length (generated s) + length (t :: new))%nat).
  { change (generated s3) with (generated s2). rewrite Hg, length_app. cbn [length]. lia. }
  assert (Hn : forall P, next_is step tk s3 new P <-> next_is step tk s (t :: new) P).
  { intros P. unfold next_is. rewrite Hu, Hlen. change (budget s3) with (budget s2). rewrite Hb. cbn [length session_after]. rewrite Hadv. done. }
  split; [by rewrite Hu|]. change (eos s3) with (eos s2) in *. change (budget s3) with (budget s2) in *.
  destruct r as [[]|[]]; cbn [due]; rewrite ?Hn, ?Ht, ?Hx, ?Hu, ?Hlen; change (eos s3) with (eos s2); change (budget s3) with (budget s2); rewrite ?He, ?Hb; done.
Qed.

Lemma next_token_total step tk s : serves_rows step tk -> (device_next s = None -> last_logits s <> []) ->
  exists s1 r, next_token s = Some (s1, r) /\ same_request s s1 /\ generated s1 = generated s /\ emitted_bytes s1 = emitted_bytes s
    /\ s_cache s1 = s_cache s /\ device_next s1 = None.
Proof.
  intros Hsr Hl. unfold next_token. destruct (device_next s) as [t|]; [by eexists _, _|]. specialize (Hl eq_refl).
  destruct (constraint s) as [g|].
  - destruct (mask_logits g (last_logits s)) as [g' [row|]] eqn:Em; [|by eexists _, _].
    destruct (sample_total (sampler s) row) as (t & sm & -> & _); [by eapply sr_mask|]. by eexists _, _.
  - destruct (sample_total (sampler s) (last_logits s)) as (t & sm & -> & _); [done|]. by eexists _, _.
Qed.

(** The outcome of [emit] on a running session's token. *)
Definition emitted tk (s : Session) (t : Z) (x : Tick) : Prop :=
  let '(s', evs, go) := x in
  same_request s s' /\ s_cache s' = s_cache s /\
  match evs with
  | [EvToken t' d] => go = true /\ t' = t /\ generated s' = generated s ++ [t] /\ ~ t ∈ eos s /\
      exists b0 b1, decode_bytes_special tk (generated s) true = Some b0 /\ decode_bytes_special tk (generated s') true = Some b1
        /\ (complete b1).1 = (complete b0).1 ++ d /\ emitted_bytes s' = streamed b1 /\ ~ stop_text s b1
        /\ ~ context_cut s [t]
  | [EvToken t' d; e] => go = false /\ t' = t /\ generated s' = generated s ++ [t] /\ ~ t ∈ eos s /\
      (exists b0 b1, decode_bytes_special tk (generated s) true = Some b0 /\ decode_bytes_special tk (generated s') true = Some b1
        /\ (complete b1).1 = (complete b0).1 ++ d) /\ ends tk s s' (generated s') e
      /\ (reason_of e = Some (inl Callback) /\ text_cut tk s [t] \/ reason_of e = Some (inl ContextFull) /\ ~ text_cut tk s [t] /\ context_cut s [t])
  | [e] => go = false /\ ends tk s s' (generated s) e
      /\ (reason_of e = Some (inl Eos) /\ t ∈ eos s \/ reason_of e = Some (inr EAdvance) /\ ~ t ∈ eos s /\ (consume_token t s).2 = false)
  | _ => False
  end.
Lemma consume_fields t s : let '(s', ok) := consume_token t s in
  same_request s s' /\ generated s' = generated s /\ emitted_bytes s' = emitted_bytes s /\ s_cache s' = s_cache s
  /\ device_next s' = device_next s.
Proof. unfold consume_token. destruct (constraint s) as [g|]; [|done]. by destruct (consume g t) as [g' ok]. Qed.
Lemma emit_emitted tk t s bs : (forall ids, is_Some (decode_bytes_special tk ids true)) ->
  decode_bytes_special tk (generated s) true = Some bs -> emitted_bytes s = streamed bs ->
  exists x, emit tk true t true s = Some x /\ emitted tk s t x.
Proof.
  intros Hd Hbs Hem. unfold emit. cbn [negb]. change (eos (push_token t s)) with (eos s).
  destruct (bool_decide (t ∈ eos s)) eqn:Eeos.
  { apply bool_decide_eq_true in Eeos. eexists. split; [done|]. cbn. split; [done|]. split; [done|]. split; [done|]. split; [by econstructor|by left]. }
  apply bool_decide_eq_false in Eeos. pose proof (consume_fields t (push_token t s)) as Hc.
  destruct (consume_token t (push_token t s)) as [s1 ok] eqn:Eok. destruct Hc as (Hreq & Hgen & Hem1 & Hca & _).
  change (generated (push_token t s)) with (generated s ++ [t]) in Hgen. change (emitted_bytes (push_token t s)) with (emitted_bytes s) in Hem1.
  change (same_request s s1) in Hreq. change (s_cache s1 = s_cache s) in Hca.
  destruct ok; cbn [negb].
  2: { eexists. split; [done|]. split; [done|]. split; [done|]. split; [done|]. split; [by econstructor|]. right. split; [done|]. split; [done|].
       clear - Eok. unfold consume_token in *. destruct (constraint s) as [g|] eqn:Eg; change (constraint (push_token t s)) with (constraint s) in Eok; rewrite Eg in Eok; [|by injection Eok].
       destruct (consume g t) as [g' ok']. by injection Eok as _ ->. }
  rewrite Hgen, decode_snoc, Hbs. destruct (Hd [t]) as [bt Hbt]. rewrite Hbt. cbn [mbind option_bind].
  rewrite Hem1, Hem. destruct (utf8_delta_step bs bt) as [-> Hcomp]. set (d := (complete ((complete bs).2 ++ bt)).1) in *.
  set (s2 := set_emitted _ s1). assert (Hdec : decode_bytes_special tk (generated s2) true = Some (bs ++ bt)).
  { change (generated s2) with (generated s1). by rewrite Hgen, decode_snoc, Hbs, Hbt. }
  assert (Hreq2 : same_request s s2) by done. assert (Hgen2 : generated s2 = generated s ++ [t]) by done.
  assert (Hstop : stopped s2 (from_utf8_lossy (bs ++ bt)) = true <-> stop_text s (bs ++ bt)).
  { unfold stopped, stop_text. destruct Hreq2 as (_ & <- & _). setoid_rewrite list_elem_of_In.
    rewrite <- (existsb_exists (fun ss => contains ss (from_utf8_lossy (bs ++ bt)))). by destruct (stop_strings s2). }
  destruct (stopped s2 (from_utf8_lossy (bs ++ bt))) eqn:Est.
  { eexists. split; [done|]. split; [done|]. split; [done|]. split; [done|]. split; [done|]. split; [done|]. split; [done|].
    split; [by exists bs, (bs ++ bt)|]. split; [econstructor; [done|exact Hdec|]; by apply Hstop|]. left. split; [done|]. split; [done|].
    exists (bs ++ bt). split; [by rewrite <- Hgen2|by apply Hstop]. }
  assert (Hns : ~ stop_text s (bs ++ bt)) by (by intros Hx%Hstop).
  assert (Hnt : ~ text_cut tk s [t]). { intros (_ & b & Hb & Hx). rewrite <- Hgen2, Hdec in Hb. by injection Hb as <-. }
  assert (Hcut : context_cut s [t] <-> exists pos mc, s_cache s2 = Some (pos, mc) /\ (mc <= pos)%nat).
  { unfold context_cut. rewrite <- Hca. change (s_cache s1) with (s_cache s2). cbn [length]. setoid_rewrite Nat.add_0_r. naive_solver. }
  cbn [andb]. destruct (s_cache s2) as [[pos mc]|] eqn:Ec.
  - destruct (Nat.leb_spec mc pos).
    + eexists. split; [done|]. split; [done|]. split; [by rewrite Ec, <- Hca|]. split; [done|]. split; [done|]. split; [done|]. split; [done|].
      split; [by exists bs, (bs ++ bt)|]. split; [by eapply end_context|]. right. split; [done|]. split; [done|]. apply Hcut. by exists pos, mc.
    + eexists. split; [done|]. split; [done|]. split; [by rewrite Ec, <- Hca|]. split; [done|]. split; [done|]. split; [done|]. split; [done|]. exists bs, (bs ++ bt). do 5 (split; [done|]).
      rewrite Hcut. intros (pos' & mc' & [= <- <-] & Hle). lia.
  - eexists. split; [done|]. split; [done|]. split; [by rewrite Ec, <- Hca|]. split; [done|]. split; [done|]. split; [done|]. split; [done|]. exists bs, (bs ++ bt). do 5 (split; [done|]).
    rewrite Hcut. by intros (pos' & mc' & [=] & _).
Qed.

Lemma ends_length tk s s' vis e : ends tk s s' vis e -> (length (generated s') <= S (length vis))%nat.
Proof. destruct 1 as [? -> _|? ? -> _|? ? -> _ _|? ? ? -> _ _|? ->|? ? ->]; rewrite ?length_app; cbn; lia. Qed.

(** The stream of the rest of a request, from a session between ticks. *)
Record stream_of step tk s (b0 : list Z) s' (new : list Z) (texts : list str) (e : Event) : Prop := {
  so_texts : length texts = length new;
  so_ends : ends tk s s' (generated s ++ new) e;
  so_text : exists b, decode_bytes_special tk (generated s ++ new) true = Some b /\ (complete b).1 = (complete b0).1 ++ concat texts;
  so_eos : Forall (fun t => ~ t ∈ eos s) new;
  so_budget : (length (generated s') <= budget s)%nat;
  so_request : same_request s s';
  so_uncut n : (0 < n < length new)%nat -> uncut tk s (take n new);
  so_due : exists r, reason_of e = Some r /\ due step tk s new r;
}.
Lemma uncut_nil tk s : uncut tk s [].
Proof. by split; intros [? _]. Qed.
(** The request ends with event [e], at once, after one more token, or later. *)
Lemma stream_end step tk s b0 s' e r : decode_bytes_special tk (generated s) true = Some b0 -> ends tk s s' (generated s) e ->
  (length (generated s') <= budget s)%nat -> same_request s s' -> reason_of e = Some r -> due step tk s [] r -> stream_of step tk s b0 s' [] [] e.
Proof.
  intros Hb He Hl Hr Hre Hd. split; cbn [length concat]; rewrite ?app_nil_r; try done; [by exists b0|lia|by exists r].
Qed.
Lemma stream_last step tk s b0 b1 s' t d e r : ~ t ∈ eos s -> generated s' = generated s ++ [t] ->
  decode_bytes_special tk (generated s') true = Some b1 -> (complete b1).1 = (complete b0).1 ++ d ->
  ends tk s s' (generated s') e -> (length (generated s) < budget s)%nat -> same_request s s' -> reason_of e = Some r -> due step tk s [t] r ->
  stream_of step tk s b0 s' [t] [d] e.
Proof.
  intros Ht Hg Hb Htxt He Hl Hr Hre Hd. split; try done; [by rewrite <- Hg| |by constructor|rewrite Hg, length_app; cbn; lia|cbn [length]; lia|by exists r].
  exists b1. rewrite <- Hg. split; [done|]. cbn [concat]. by rewrite app_nil_r.
Qed.
Lemma stream_cons step tk s s2 evs b0 b1 t d s' new texts e (s3 := feed t (step s2 t) s2) :
  advance_sample_emit tk true s = Some (s2, evs, true, Some t) -> generated s2 = generated s ++ [t] -> s_cache s2 = s_cache s -> same_request s s2 ->
  ~ t ∈ eos s -> decode_bytes_special tk (generated s3) true = Some b1 -> (complete b1).1 = (complete b0).1 ++ d -> uncut tk s [t] ->
  stream_of step tk s3 b1 s' new texts e -> stream_of step tk s b0 s' (t :: new) (d :: texts) e.
Proof.
  intros Hadv Hg Hca Hreq Ht Hb Htxt Hun [H1' H2' (b & Hd & Hbt) H4' H5' H6' H7' (r & Hr & Hdue)].
  pose proof (fun new r => due_cons step tk s s2 evs t new r Hadv Hg Hca Hreq Hun) as Hcons. change (same_request s s3) in Hreq. pose proof Hreq as (Heos & Hss & Hbud & _).
  change (generated s3) with (generated s2) in H2', Hd, Hb. rewrite Hg in H2', Hd, Hb. rewrite <- app_assoc in H2', Hd. cbn [app] in H2', Hd. split.
  - cbn. by rewrite H1'.
  - by apply (ends_request tk s s3).
  - exists b. split; [done|]. rewrite Hbt, Htxt. cbn [concat]. by rewrite app_assoc.
  - rewrite Heos in H4'. by constructor.
  - by rewrite <- Hbud.
  - by eapply same_request_trans.
  - intros n Hn. destruct n as [|[|n]]; [lia|by cbn [take]; rewrite take_0|]. cbn [take]. apply (proj1 (Hcons (take (S n) new) (inr EBatch))), H7'. cbn [length] in Hn. lia.
  - exists r. split; [done|]. by apply Hcons.
Qed.
Lemma generate_stream step tk : serves_rows step tk -> forall fuel s b0, running tk s ->
  decode_bytes_special tk (generated s) true = Some b0 -> (budget s - length (generated s) < fuel)%nat ->
  exists s' new texts e, generate step tk fuel s = Some (s', zip_with EvToken new texts ++ [e]) /\ stream_of step tk s b0 s' new texts e.
Proof.
  intros Hsr. induction fuel as [|fuel IH]; intros s b0 Hr Hb0 Hf; [lia|]. cbn [generate].
  pose proof Hr as [Hrow Hbud (b0' & Hb0' & Hcur) Heos]. rewrite Hb0 in Hb0'. injection Hb0' as <-. destruct (advance_sample_emit tk true s) as [x|] eqn:Eadv.
  2: { exfalso. revert Eadv. unfold advance_sample_emit. destruct (_ <=? _)%nat; [done|].
       destruct (next_token_total step tk s Hsr Hrow) as (s1 & r & -> & Hreq & Hgen & Hem & _). cbn [mbind option_bind]. destruct r as [t|[]]; [|done].
       destruct (emit_emitted tk t s1 b0 (sr_decode _ _ Hsr)) as ([[s2 evs] go] & -> & _); [by rewrite Hgen|by rewrite Hem|done]. }
  pose proof Eadv as Hadv. unfold advance_sample_emit in Eadv.
  destruct (Nat.leb_spec (budget s) (length (generated s))) as [Hge|Hlt].
  { injection Eadv as <-. cbn [mbind option_bind]. exists s, [], [], (finish s MaxNew). split; [done|].
    eapply stream_end; [done|apply end_budget; [done|lia]|lia|done|done|]. split; [apply uncut_nil|cbn [length]; lia]. }
  destruct (next_token_total step tk s Hsr Hrow) as (s1 & r & Hnext & Hreq & Hgen & Hem & Hca & Hdev). rewrite Hnext in Eadv. cbn [mbind option_bind] in Eadv.
  assert (Hdraw : forall P, P s1 r -> next_is step tk s [] P).
  { intros P HP. split; [apply uncut_nil|]. split; [cbn [length]; lia|]. exists s, s1, r. by split. }
  destruct r as [t|[]].
  2: { injection Eadv as <-. cbn [mbind option_bind]. exists s1, [], [], (EvError EMask). split; [done|].
       eapply stream_end; [done|by apply end_mask|rewrite Hgen; lia|done|done|by apply Hdraw]. }
  destruct (emit_emitted tk t s1 b0 (sr_decode _ _ Hsr)) as ([[s2 evs] go] & Hemit & Hx); [by rewrite Hgen|by rewrite Hem|].
  rewrite Hemit in Eadv. cbn [mbind option_bind] in Eadv. injection Eadv as <-. cbn [mbind option_bind].
  destruct Hx as (Hreq2 & Hca2 & Hx). pose proof (same_request_trans _ _ _ Hreq Hreq2) as Hreq3. pose proof Hreq as (Heos1 & Hss1 & Hbud1 & _).
  assert (Ht1 : text_cut tk s1 [t] <-> text_cut tk s [t]) by (unfold text_cut, stop_text; by rewrite Hgen, Hss1).
  assert (Hc1 : context_cut s1 [t] <-> context_cut s [t]) by (unfold context_cut; by rewrite Hca). rewrite Hgen, Heos1, Hb0, ?Ht1, ?Hc1 in Hx.
  destruct evs as [|e1 [|e2 [|]]]; [done|..|by destruct e1].
  - destruct e1 as [t' d|rs k1 k2 k3|er].
    2,3: (destruct Hx as (-> & He & Hwhy); pose proof (ends_length _ _ _ _ _ He); eexists s2, [], [], _; (split; [done|]);
      destruct Hwhy as [[Hre Heo]|[Hre Hno]]; (eapply stream_end; [done|by apply (ends_request tk s s1)|lia|done|exact Hre|apply Hdraw; by exists t])).
    destruct Hx as (-> & -> & Hgen2 & Hne & b0' & b1 & [= <-] & Hd1 & Htxt & Hem2 & Hns & Hnc).
    assert (Hun : uncut tk s [t]).
    { split; [|by rewrite Hc1 in Hnc || exact Hnc]. intros (_ & b & Hb & Hst). rewrite <- Hgen2, Hd1 in Hb. injection Hb as <-. apply Hns. unfold stop_text in *. by rewrite Hss1. }
    assert (Hca3 : s_cache s2 = s_cache s) by congruence. set (s3 := feed t (step s2 t) s2). pose proof Hreq3 as (Heos4 & _ & Hbud4 & _).
    assert (Hr3 : running tk s3).
    { split; [apply (sr_row _ _ Hsr)|..].
      - change (budget s3) with (budget s2). rewrite Hbud4. change (generated s3) with (generated s2). rewrite Hgen2, length_app. cbn. lia.
      - by exists b1.
      - change (eos s3) with (eos s2). rewrite Heos4. change (generated s3) with (generated s2). rewrite Hgen2. apply Forall_app. split; [done|]. by constructor. }
    destruct (IH s3 b1 Hr3 Hd1) as (s' & new & texts & e & -> & Hso).
    { change (budget s3) with (budget s2). rewrite Hbud4. change (generated s3) with (generated s2). rewrite Hgen2, length_app. cbn. lia. }
    cbn [mbind option_bind app]. exists s', (t :: new), (d :: texts), e. split; [done|]. by eapply stream_cons.
  - destruct e1 as [t' d| |]; [|done..]. destruct Hx as (-> & -> & Hgen2 & Hne & (b0' & b1 & [= <-] & Hd1 & Htxt) & He & Hwhy).
    exists s2, [t], [d], e2. split; [done|]. assert (Hwhy' : exists r, reason_of e2 = Some r /\ due step tk s [t] r).
    { destruct Hwhy as [[Hre Htc]|(Hre & Hnt & Hcc)]; eexists; (split; [exact Hre|]); cbn [due]; [by apply Ht1|]. by rewrite Ht1, Hc1 in *. }
    destruct Hwhy' as (rr & Hre & Hdue). eapply (stream_last step tk s b0 b1); try done. by apply (ends_request tk s s1).
Qed.
End Generation.

(** C30. A request served on its own always stops, without a panic, after at most its
    budget of tokens, with exactly one final event, and that event has a reason exactly
    when the reason is due ([due]): a stop string appears in the text, or else the
    cache has no room left, after the last visible token and after none before it; or
    else the budget is reached; or else the token then drawn is an end-of-sequence token, which is
    never streamed as text, or is refused by the grammar, or the grammar's mask fails.
    The texts streamed, one per visible token, concatenate to the decoded bytes' text:
    whatever the tokens' boundaries, only a final sequence cut short is held back, and
    invalid bytes become U+FFFD as in Rust's lossy decoding. *)
Theorem stream_exact `{SortDesc, F32Exp, Grammar} (step : Session -> Z -> Row) (tk : Tokenizer) (s : Session) (fuel : nat) :
  serves_rows step tk -> generated s = [] -> emitted_bytes s = 0%nat -> (device_next s = None -> last_logits s <> []) ->
  (budget s < fuel)%nat ->
  exists s' vis texts e bs,
    generate step tk fuel s = Some (s', zip_with EvToken vis texts ++ [e])
    /\ length texts = length vis /\ (length (generated s') <= budget s)%nat /\ ends tk s s' vis e
    /\ (forall r, reason_of e = Some r <-> due step tk s vis r)
    /\ Forall (fun t => ~ t ∈ eos s) vis
    /\ (forall n, (0 < n < length vis)%nat -> uncut tk s (take n vis))
    /\ decode_bytes_special tk vis true = Some bs /\ concat texts = (complete bs).1
    /\ from_utf8_lossy bs = concat texts ++ (match (complete bs).2 with [] => [] | _ => [replacement] end)
    /\ (forall text, Forall is_char text -> bs = utf8 text -> concat texts = text).
Proof.
  intros Hsr Hg Hem Hrow Hf. assert (Hr : running tk s).
  { split; [done|rewrite Hg; cbn; lia| |by rewrite Hg]. exists []. by rewrite Hg, Hem. }
  destruct (generate_stream step tk Hsr fuel s [] Hr) as (s' & vis & texts & e & Hgen & [H1' H2' (b & Hb & Ht) H4' H5' H6' H7' (r & Hre & Hdue)]).
  { by rewrite Hg. } { lia. }
  rewrite Hg in H2', Hb. cbn [app] in H2', Hb. change (complete []) with (@nil Z, @nil Z) in Ht. cbn [fst app] in Ht.
  exists s', vis, texts, e, b. split_and!; try done.
  - intros r'. rewrite Hre. split; [by intros [= <-]|]. intros Hdue'. f_equal. by eapply due_unique.
  - rewrite <- Ht. apply lossy_complete.
  - intros text Hc ->. rewrite <- Ht. by rewrite complete_utf8.
Qed.

(** ** A concrete stream *)
Module StreamWitness.
Import SamplingWitness.
#[export] Instance free_grammar : Grammar := {|
  gstate := unit; mask_logits g l := (g, Some l); consume g _ := (g, true);
|}.
(** Tokens 0 and 1 are the two bytes of U+00E9, token 2 ends the sequence. *)
Definition toy_tk : Tokenizer :=
  mkTokenizer [[195]; [169]; lit "end"] ∅ [Normal; Normal; Control] ∅ [] 2 None false [] None false.
Definition toy_row (s : Session) (t : Z) : Row := ([], Some (t + 1)).
Definition toy_session : Session :=
  mkSession (lit "m") (sampler_new default_config) [] (Some 0) None [5] [] [2] [lit "stop"] 0 5 1 0 (Some (1, 100))%nat.
Lemma toy_serves : serves_rows toy_row toy_tk.
Proof.
  split.
  - intros ids. induction ids as [|i ids [b IH]]; [by exists []|]. rewrite decode_cons, IH.
    assert (Hi : is_Some (decode_bytes_special toy_tk [i] true)); [|by destruct Hi as [a ->]; eexists].
    cbn [decode_bytes_special]. unfold index. cbn [id_to_token attrs toy_tk]. destruct (i <? 0); [by eexists|].
    destruct (Z.to_nat i) as [|[|[|n]]]; by eexists.
  - done.
  - by intros g l g' row [= _ ->].
Qed.
Lemma stream_exact_witness : exists s' texts, generate toy_row toy_tk 6 toy_session =
    Some (s', [EvToken 0 []; EvToken 1 [233]; EvDone Eos 3 1 0]) /\ concat texts = [233] /\ due toy_row toy_tk toy_session [0; 1] (inl Eos).
Proof.
  destruct (stream_exact toy_row toy_tk toy_session 6 toy_serves eq_refl eq_refl ltac:(done) ltac:(cbn; lia))
    as (s' & vis & texts & e & bs & Hg & Hlen & _ & _ & Hdue & _).
  assert (Hrun : exists s0, generate toy_row toy_tk 6 toy_session = Some (s0, [EvToken 0 []; EvToken 1 [233]; EvDone Eos 3 1 0]))
    by (eexists; vm_compute; reflexivity).
  destruct Hrun as [s0 Hrun]. exists s0, texts. split; [exact Hrun|]. rewrite Hrun in Hg. injection Hg as _ Hev.
  assert (Hvis : vis = [0; 1] /\ texts = [[]; [233]] /\ e = EvDone Eos 3 1 0).
  { destruct vis as [|v1 [|v2 [|v3 vis]]], texts as [|t1 [|t2 [|t3 texts]]]; try discriminate Hev; try discriminate Hlen; injection Hev; intros; subst; done. }
  destruct Hvis as (-> & -> & ->). split; [reflexivity|]. by apply (Hdue (inl Eos)).
Defined.
End StreamWitness.
