(* ===== verification/Lanes.v ===== *)
(** The lanes and the yield gate: [memra-lanes/src/lib.rs].

    Latencies are binary32 floats ([F32]).  Time is nanoseconds of the one
    monotonic clock; a call gets the instant it reads. *)
From Stdlib Require Import SpecFloat.
From S2P Require Import Prelude F32 RustStr.
Local Open Scope Z_scope.

Inductive Lane := LInteractive | LJudge | LHarvest.
#[export] Instance Lane_eq_dec : EqDecision Lane.
Proof. solve_decision. Defined.
Definition lane_parse (v : str) : option Lane :=
  if str_eqb v (lit "interactive") then Some LInteractive
  else if str_eqb v (lit "judge") then Some LJudge
  else if str_eqb v (lit "harvest") then Some LHarvest else None.
Definition lane_str (l : Lane) : str :=
  match l with LInteractive => lit "interactive" | LJudge => lit "judge" | LHarvest => lit "harvest" end.
Definition lane_all : list Lane := [LInteractive; LJudge; LHarvest].
Definition lane_idx (l : Lane) : nat := match l with LInteractive => 0 | LJudge => 1 | LHarvest => 2 end.

(** ** Float conversions *)

(** [x as f32] of an unsigned integer. *)
Definition f32_of_uint (x : Z) : spec_float := binary_normalize 24 128 x 0 false.
(** [Duration::as_secs_f32]. *)
Definition as_secs_f32 (nanos : Z) : spec_float :=
  f32_add (f32_of_uint (nanos / 1000000000)) (f32_div (f32_of_uint (nanos mod 1000000000)) (f32_of_uint 1000000000)).
(** [f32::round() as usize]: half away from zero, then saturating. *)
Definition round_as_usize (x : spec_float) : Z :=
  match x with
  | S754_finite false m e =>
      Z.min (u_max 64) (if 0 <=? e then Zpos m * 2 ^ e else (Zpos m + 2 ^ (- e - 1)) / 2 ^ (- e))
  | S754_infinity false => u_max 64
  | _ => 0
  end.

(** ** The window *)

Record StepStats := mkStats { window : list (Z * spec_float); window_s : spec_float }.
Definition record (now : Z) (ms : spec_float) (s : StepStats) : StepStats :=
  let w := window s ++ [(now, ms)] in
  mkStats (if 16384 <? Z.of_nat (length w) then tail w else w) (window_s s).
Definition expired (now : Z) (cutoff : spec_float) (t : Z) : bool := SFltb cutoff (as_secs_f32 (sat_sub now t)).
Fixpoint evict_front (now : Z) (cutoff : spec_float) (w : list (Z * spec_float)) : list (Z * spec_float) :=
  match w with
  | [] => []
  | x :: w' => if expired now cutoff x.1 then evict_front now cutoff w' else w
  end.
Definition evict (now : Z) (s : StepStats) : StepStats := mkStats (evict_front now (window_s s) (window s)) (window_s s).
(** [sort_by(partial_cmp.unwrap())]: the comparison of a NaN panics. *)
Fixpoint insert_f32 (x : spec_float) (l : list spec_float) : option (list spec_float) :=
  match l with
  | [] => Some [x]
  | y :: l' =>
      match SFcompare x y with
      | None => None
      | Some Gt => r ← insert_f32 x l'; Some (y :: r)
      | Some _ => Some (x :: l)
      end
  end.
Fixpoint sort_f32 (l : list spec_float) : option (list spec_float) :=
  match l with [] => Some [] | x :: l => r ← sort_f32 l; insert_f32 x r end.
Definition percentile_index (q : spec_float) (n : nat) : Z :=
  Z.min (round_as_usize (f32_mul (f32_div q (f32_of_uint 100)) (f32_of_uint (Z.of_nat (n - 1))))) (Z.of_nat (n - 1)).
(** The new state and the percentile; [None] outside is a panic. *)
Definition percentile (now : Z) (q : spec_float) (s : StepStats) : option (StepStats * option spec_float) :=
  let s := evict now s in
  match window s with
  | [] => Some (s, None)
  | w => v ← sort_f32 (snd <$> w); x ← v !! Z.to_nat (percentile_index q (length v)); Some (s, Some x)
  end.

(** ** The gate *)

Record LanePolicy := mkPolicy {
  slo_p99_ms : spec_float;
  shed_at : list spec_float;
  prefill_budget : list Z;
  max_sessions : list Z;
}.
(** The environment variable if it is set and parses, or the default. *)
Definition env_or {A : Type} (env : str -> option str) (parse : str -> option A) (k : string) (d : A) : A :=
  default d (v ← env (lit k); parse v).
Definition f32_50 : spec_float := S754_finite false 13107200 (-18).
Definition f32_09 : spec_float := S754_finite false 15099494 (-24).
Definition policy_from_env (env : str -> option str) (parse_f32 : str -> option spec_float) : LanePolicy :=
  let f := env_or env parse_f32 in
  let u := env_or env (parse_uint 64) in
  mkPolicy (f "MEMRA_SLO_P99_MS" f32_50)
    [S754_infinity false; f "MEMRA_SHED_JUDGE" f32_one; f "MEMRA_SHED_HARVEST" f32_09]
    [u "MEMRA_PREFILL_TICK" 1024; u "MEMRA_PREFILL_JUDGE" 256; u "MEMRA_PREFILL_HARVEST" 256]
    [u "MEMRA_LANE_MAX_INTERACTIVE" 32; u "MEMRA_LANE_MAX_JUDGE" 4; u "MEMRA_LANE_MAX_HARVEST" 8].
Definition threshold (p : LanePolicy) (l : Lane) : spec_float :=
  f32_mul (slo_p99_ms p) (nth (lane_idx l) (shed_at p) S754_nan).
Definition admit_lane (now : Z) (p : LanePolicy) (l : Lane) (stats : StepStats) (starved : bool) : option (StepStats * bool) :=
  if decide (l = LInteractive) then Some (stats, true)
  else if starved then Some (stats, false)
  else
    '(stats, r) ← percentile now (f32_of_uint 99) stats;
    Some (stats, match r with Some p99 => SFltb p99 (threshold p l) | None => true end).

(** ** What the gate promises *)

Lemma percentile_window now q s s' x : percentile now q s = Some (s', x) -> s' = evict now s.
Proof.
  unfold percentile. destruct (window (evict now s)) as [|w l]; [by intros [= <- _]|].
  destruct (sort_f32 _) as [v|]; [|done]. cbn. destruct (v !! _); [|done]. by intros [= <- _].
Qed.
Lemma insert_f32_perm x l r : insert_f32 x l = Some r -> r ≡ₚ x :: l.
Proof.
  revert r. induction l as [|y l IH]; intros r H; cbn in H; [by injection H as <-|].
  destruct (SFcompare x y) as [[]|]; [by injection H as <-..| |done].
  destruct (insert_f32 x l) as [r'|]; [|done]. injection H as <-. rewrite (IH r') by done. apply Permutation_swap.
Qed.
Lemma sort_f32_perm l v : sort_f32 l = Some v -> v ≡ₚ l.
Proof.
  revert v. induction l as [|x l IH]; intros v H; cbn in H; [by injection H as <-|].
  destruct (sort_f32 l) as [r|]; [|done]. cbn in H. by rewrite (insert_f32_perm _ _ _ H), (IH r).
Qed.
Lemma insert_f32_total x l : x <> S754_nan -> Forall (fun y => y <> S754_nan) l -> is_Some (insert_f32 x l).
Proof.
  intros Hx. induction 1 as [|y l Hy _ IH]; [by eexists|]. cbn. pose proof (SFcompare_key x y Hx Hy).
  destruct (SFcompare x y) as [[]|]; [by eexists..| |done]. destruct IH as [r ->]. by eexists.
Qed.
Lemma sort_f32_total l : Forall (fun y => y <> S754_nan) l -> is_Some (sort_f32 l).
Proof.
  induction 1 as [|x l Hx Hl [r Hr]]; [by eexists|]. cbn. rewrite Hr. cbn. apply insert_f32_total; [done|].
  by rewrite (sort_f32_perm _ _ Hr).
Qed.
Lemma evict_suffix now cutoff w : exists gone, w = gone ++ evict_front now cutoff w /\ Forall (fun x => expired now cutoff x.1 = true) gone.
Proof.
  induction w as [|x w (gone & Heq & Hg)]; [by exists []|]. cbn. destruct (expired now cutoff x.1) eqn:E.
  - exists (x :: gone). split; [by rewrite Heq at 1|by constructor].
  - by exists [].
Qed.
(** A latency measured is never a NaN: no lookup panics. *)
Lemma percentile_total now q s : Forall (fun x => x.2 <> S754_nan) (window s) -> is_Some (percentile now q s).
Proof.
  intros Hw. unfold percentile. destruct (evict_suffix now (window_s s) (window s)) as (gone & Heq & _).
  rewrite Heq in Hw. apply Forall_app in Hw as [_ Hw]. change (evict_front now (window_s s) (window s)) with (window (evict now s)) in Hw.
  destruct (window (evict now s)) as [|x l]; [by eexists|].
  destruct (sort_f32_total (snd <$> x :: l)) as [v Hv]; [by apply Forall_fmap|]. rewrite Hv. cbn.
  destruct (lookup_lt_is_Some_2 v (Z.to_nat (percentile_index q (length v)))) as [y Hy].
  - pose proof (Permutation_length (sort_f32_perm _ _ Hv)) as Hlen. simpl in Hlen. unfold percentile_index. lia.
  - rewrite Hy. by eexists.
Qed.

(** The yield gate sheds the dark lanes in order and never the interactive
    one: interactive is always admitted; no dark lane is while interactive work
    starves; with no sample left in the window both are; and when the thresholds
    are ordered, harvest is admitted only if judge would be.  The gate never
    panics on measured latencies and only ever drops expired samples. *)
Theorem yield_gate (now : Z) (p : LanePolicy) (s : StepStats) (starved : bool) :
  Forall (fun x => x.2 <> S754_nan) (window s) -> SFleb (threshold p LHarvest) (threshold p LJudge) = true ->
  admit_lane now p LInteractive s starved = Some (s, true) /\
  exists j h, admit_lane now p LJudge s starved = Some ((if starved then s else evict now s), j) /\
    admit_lane now p LHarvest s starved = Some ((if starved then s else evict now s), h) /\
    (starved = true -> j = false /\ h = false) /\
    (starved = false -> window (evict now s) = [] -> j = true /\ h = true) /\
    (h = true -> j = true).
Proof.
  intros Hw Hord. split; [done|]. unfold admit_lane. rewrite !decide_False by done.
  destruct starved; [by exists false, false|].
  destruct (percentile_total now (f32_of_uint 99) s Hw) as [[s' r] Hr]. rewrite Hr. cbn [mbind option_bind].
  pose proof (percentile_window _ _ _ _ _ Hr) as ->. eexists _, _. split; [done|]. split; [done|]. split; [done|]. split.
  - intros _ He. unfold percentile in Hr. rewrite He in Hr. by injection Hr as <-.
  - destruct r as [p99|]; [|done]. intros Hh. by eapply SFltb_leb_trans.
Qed.
(** The default policy, with one slow and one expired sample. *)
Definition toy_stats : StepStats := mkStats [(0, f32_of_uint 90); (60000000000, f32_of_uint 47)] (f32_of_uint 30).
Lemma yield_gate_witness :
  let p := policy_from_env (fun _ => None) (fun _ => None) in
  exists s', admit_lane 61000000000 p LJudge toy_stats false = Some (s', true) /\
    admit_lane 61000000000 p LHarvest toy_stats false = Some (s', false).
Proof.
  destruct (yield_gate 61000000000 (policy_from_env (fun _ => None) (fun _ => None)) toy_stats false) as (_ & j & h & Hj & Hh & _).
  - repeat constructor; done.
  - vm_compute. reflexivity.
  - exists (evict 61000000000 toy_stats). split; [rewrite Hj|rewrite Hh]; repeat f_equal.
    + vm_compute in Hj. by injection Hj as <-.
    + vm_compute in Hh. by injection Hh as <-.
Defined.
