(* ===== verification/Batch.v ===== *)
(** The batched decode tick of the worker: [run], [group_chunks],
    [stage_grammar_mask] and the decode phase of [step_session], in
    [memra-server/src/worker.rs].

    The scheduler keeps a vector of live sessions and, tick after tick: sweeps
    those whose client is gone, decodes the sessions of models without a batched
    arm one by one ([eager_decode]), decodes all others in chunks
    ([batch_decode]), and retires the finished ones, whose caches are parked for
    reuse ([retire]).  The engine is a parameter ([Engine]): it has a state of its
    own, may fail any call, and sees of a session its model and the tokens its
    cache was fed.  [None] is a panic.  Sessions on the speculative or graph path
    are in the vector but not [decodable]. *)
From Stdlib Require Import SpecFloat.
From S2P Require Import Prelude F32 RustStr Utf8 Sampling Tokenizer Stream Lanes.
Local Open Scope nat_scope.

(** ** What the code is given *)

Class GrammarMask `{Grammar} := {
  (** [compute_mask]: the state after, and the packed words or an error *)
  compute_mask : gstate -> gstate * option (list Z);
}.
(** A row of the batched step: the session's model and fed tokens, the token to
    feed, the sampling metadata, the staged mask. *)
Record BRow := mkRow {
  b_model : str;
  b_fed : list Z;
  b_tok : Z;
  b_samp : option (spec_float * Z * Z);
  b_mask : option (list Z);
}.
Class Engine := {
  estate : Type;
  decode_step : estate -> str -> list Z -> Z -> estate * option (list spec_float);
  decode_step_batch : estate -> list BRow -> estate * option (list Row);
  upload_mask : estate -> list Z -> estate * bool;
  (** the row parked on the device for a cache fed these tokens *)
  dtoh_last : estate -> str -> list Z -> option (list spec_float);
}.

Definition REUSE_MIN_PREFIX : nat := 16.

Section Batch.
Context `{SortDesc, F32Exp, GrammarMask, Engine}.

(** ** State *)

(** A live session with what the scheduler keeps beside its stream: the request's
    channel, its lane, whether it is on neither the speculative nor the graph
    path, whether its prompt is primed, and the mask words staged (empty: none). *)
Record Slot := mkSlot {
  sid : nat;
  lane : Lane;
  cache_ns : str;
  direct : bool;
  prefill_done : bool;
  mask : list Z;
  ses : Session;
}.
Definition with_ses (s : Session) (m : list Z) (x : Slot) : Slot :=
  mkSlot (sid x) (lane x) (cache_ns x) (direct x) (prefill_done x) m s.
Definition pool_key (x : Slot) : str * str := (s_model (ses x), cache_ns x).

(** A parked cache: the tokens it was fed, the logits after them, its capacity. *)
Record ReuseEntry := mkReuse { r_fed : list Z; r_cache : nat * nat; r_logits : list spec_float; r_cap : nat }.

(** What stays fixed: tokenizers, chunk widths, models without a batched arm,
    the environment's switches and the depth of a reuse pool. *)
Record Config := mkConfig {
  loaded : str -> option Tokenizer;
  caps : gmap str nat;
  eager_only : str -> bool;
  devsample : bool;
  constrain_host : bool;
  reuse_pool : nat;
}.
Record Worker := mkWorker {
  active : list Slot;
  engine : estate;
  finished : list nat;
  (** events sent, with the session they were sent to *)
  sent : list (nat * Event);
  reuse : gmap (str * str) (list ReuseEntry);
}.
Implicit Types (c : Config) (w : Worker) (x : Slot).

Definition set_slot (i : nat) x w : Worker :=
  mkWorker (<[i := x]> (active w)) (engine w) (finished w) (sent w) (reuse w).
Definition set_engine (e : estate) w : Worker := mkWorker (active w) e (finished w) (sent w) (reuse w).
Definition finish_at (i : nat) w : Worker := mkWorker (active w) (engine w) (finished w ++ [i]) (sent w) (reuse w).
Definition send (id : nat) (evs : list Event) w : Worker :=
  mkWorker (active w) (engine w) (finished w) (sent w ++ ((fun e => (id, e)) <$> evs)) (reuse w).

(** ** The decode phase *)

(** [for (i, s) in active.iter().enumerate() { if s.tx.is_closed() .. }] into an
    empty [finished]. *)
Fixpoint closed_from (closed : nat -> bool) (i : nat) (l : list Slot) : list nat :=
  match l with [] => [] | x :: l => (if closed (sid x) then [i] else []) ++ closed_from closed (S i) l end.
Definition sweep (closed : nat -> bool) w : Worker :=
  mkWorker (active w) (engine w) (closed_from closed 0 (active w)) (sent w) (reuse w).
Definition is_finished (i : nat) w : bool := bool_decide (i ∈ finished w).
Definition decodable x : bool :=
  direct x && prefill_done x && match s_cache (ses x) with Some _ => true | None => false end.

(** The decode half of [step_session], with what the tick makes of its result. *)
Definition step_decode c (alive : nat -> bool) (i : nat) w : option Worker :=
  x ← active w !! i;
  tk ← loaded c (s_model (ses x));
  if budget (ses x) <=? length (generated (ses x)) then Some (finish_at i (send (sid x) [finish (ses x) MaxNew] w))
  else
    '(s, r) ← next_token (ses x);
    match r with
    | inr _ => Some (finish_at i (send (sid x) [EvError EMask] (set_slot i (with_ses s (mask x) x) w)))
    | inl t =>
        '(s, evs, go) ← emit tk (alive (sid x)) t true s;
        let w := send (sid x) evs (set_slot i (with_ses s (mask x) x) w) in
        if negb go then Some (finish_at i w)
        else
          let '(e, r) := decode_step (engine w) (s_model s) (fed s) t in
          let w := set_engine e w in
          Some match r with
               | Some l => set_slot i (with_ses (feed t (l, None) s) (mask x) x) w
               | None => finish_at i (send (sid x) [EvError EBatch] w)
               end
    end.
Fixpoint eager_decode c (alive : nat -> bool) (idxs : list nat) w : option Worker :=
  match idxs with
  | [] => Some w
  | i :: idxs =>
      x ← active w !! i;
      if is_finished i w || negb (eager_only c (s_model (ses x))) || negb (decodable x) then eager_decode c alive idxs w
      else w ← step_decode c alive i w; eager_decode c alive idxs w
  end.

(** The indices to decode in batches, by lane ([sort_by_key] is stable). *)
Definition batchable c w (i : nat) x : bool :=
  negb (is_finished i w) && decodable x && negb (eager_only c (s_model (ses x))).
Definition decoding c w : list nat :=
  l ← lane_all;
  List.filter (fun i => match active w !! i with Some x => batchable c w i x && bool_decide (lane x = l) | None => false end)
    (seq 0 (length (active w))).

(** The mask of the next token into the session's device buffer; [false]: an error. *)
Definition stage_grammar_mask c (e : estate) x : Slot * estate * bool :=
  match constraint (ses x) with
  | None => (with_ses (ses x) [] x, e, true)
  | Some g =>
      if constrain_host c || match devsample_meta (devsample c) (ses x) with None => true | Some _ => false end
      then (with_ses (ses x) [] x, e, true)
      else
        let '(g, m) := compute_mask g in
        let s := set_constraint (Some g) (ses x) in
        match m with
        | None => (with_ses s [] x, e, false)
        | Some ws => let '(e, ok) := upload_mask e ws in (with_ses s (if ok : bool then ws else []) x, e, ok)
        end
  end.
(** One turn of the host half: the worker after, and the token to feed. *)
Definition advance_one c (alive : nat -> bool) (i : nat) w : option (Worker * option Z) :=
  x ← active w !! i;
  tk ← loaded c (s_model (ses x));
  '((s, evs, go), t) ← advance_sample_emit tk (alive (sid x)) (ses x);
  let x := with_ses s (mask x) x in
  let w := send (sid x) evs (set_slot i x w) in
  match go, t with
  | false, _ => Some (finish_at i w, None)
  | true, Some t =>
      let '(x, e, ok) := stage_grammar_mask c (engine w) x in
      let w := set_engine e (set_slot i x w) in
      if ok then Some (w, Some t) else Some (finish_at i (send (sid x) [EvError EMask] w), None)
  | true, None => Some (w, None)
  end.
Fixpoint advance_all c (alive : nat -> bool) (idxs : list nat) (ready : list (nat * Z)) w : option (Worker * list (nat * Z)) :=
  match idxs with
  | [] => Some (w, ready)
  | i :: idxs =>
      '(w, t) ← advance_one c alive i w;
      advance_all c alive idxs (ready ++ match t with Some t => [(i, t)] | None => [] end) w
  end.

(** ** Chunks *)

Definition model_at (l : list Slot) (i : nat) : option str := (fun x => s_model (ses x)) <$> l !! i.
Definition joins (l : list Slot) (caps : gmap str nat) (m : str) (chunk : list (nat * Z)) : option bool :=
  if length chunk <? default 8 (caps !! m) then
    p ← head chunk; m0 ← model_at l p.1; Some (bool_decide (m0 = m))
  else Some false.
Fixpoint group_from (l : list Slot) (caps : gmap str nat) (chunks : list (list (nat * Z))) (ready : list (nat * Z))
  : option (list (list (nat * Z))) :=
  match ready with
  | [] => Some chunks
  | it :: ready =>
      m ← model_at l it.1;
      j ← match last chunks with Some chunk => joins l caps m chunk | None => Some false end;
      group_from l caps (if j : bool then alter (.++ [it]) (length chunks - 1) chunks else chunks ++ [[it]]) ready
  end.
Definition group_chunks (l : list Slot) (ready : list (nat * Z)) (caps : gmap str nat) : option (list (list (nat * Z))) :=
  group_from l caps [] ready.

(** A constrained row without a staged mask is sampled on the host. *)
Definition row_request c x (t : Z) : BRow :=
  mkRow (s_model (ses x)) (fed (ses x)) t
    (match constraint (ses x), mask x with Some _, [] => None | _, _ => devsample_meta (devsample c) (ses x) end)
    (match mask x with [] => None | ws => Some ws end).
Definition request_at c w (it : nat * Z) : option BRow :=
  x ← active w !! it.1; _ ← s_cache (ses x); Some (row_request c x it.2).
Fixpoint apply_rows (chunk : list (nat * Z)) (rows : list Row) w : option Worker :=
  match chunk, rows with
  | [], _ => Some w
  | it :: chunk, r :: rows =>
      x ← active w !! it.1;
      apply_rows chunk rows (set_slot it.1 (with_ses (feed it.2 r (ses x)) (mask x) x) w)
  | _ :: _, [] => None
  end.
Fixpoint fail_rows (chunk : list (nat * Z)) w : option Worker :=
  match chunk with
  | [] => Some w
  | it :: chunk => x ← active w !! it.1; fail_rows chunk (finish_at it.1 (send (sid x) [EvError EBatch] w))
  end.
Definition run_chunk c (chunk : list (nat * Z)) w : option Worker :=
  m ← (p ← head chunk; model_at (active w) p.1);
  _ ← loaded c m;
  reqs ← mapM (request_at c w) chunk;
  let '(e, r) := decode_step_batch (engine w) reqs in
  match r with
  | Some rows => apply_rows chunk rows (set_engine e w)
  | None => fail_rows chunk (set_engine e w)
  end.
Fixpoint run_chunks c (chunks : list (list (nat * Z))) w : option Worker :=
  match chunks with [] => Some w | chunk :: chunks => w ← run_chunk c chunk w; run_chunks c chunks w end.
Definition batch_decode c (alive : nat -> bool) w : option Worker :=
  '(w, ready) ← advance_all c alive (decoding c w) [] w;
  chunks ← group_chunks (active w) ready (caps c);
  run_chunks c chunks w.

(** ** Retirement *)

(** [sort_unstable], [dedup], [.iter().rev()]. *)
Definition descending (l : list nat) : list nat := rev (List.filter (fun i => bool_decide (i ∈ l)) (seq 0 (S (list_max l)))).
(** Oldest first; [while pool.len() >= n.max(1) { pool.remove(0) }]. *)
Definition parked c x (e : estate) (pools : gmap (str * str) (list ReuseEntry)) : gmap (str * str) (list ReuseEntry) :=
  let s := ses x in
  if negb (direct x && (REUSE_MIN_PREFIX <=? length (fed s)) && prefill_done x) then pools
  else match s_cache s with
       | None => pools
       | Some (pos, mc) =>
           let row := match last_logits s with [] => default [] (dtoh_last e (s_model s) (fed s)) | l => l end in
           match row with
           | [] => pools
           | _ =>
               let pool := default [] (pools !! pool_key x) in
               let pool := drop (length pool - (Nat.max (reuse_pool c) 1 - 1)) pool in
               <[pool_key x := if 0 <? reuse_pool c then pool ++ [mkReuse (fed s) (pos, mc) row mc] else pool]> pools
           end
       end.
Definition retire_one c (i : nat) w : option Worker :=
  x ← active w !! i;
  Some (mkWorker (delete i (active w)) (engine w) (finished w) (sent w) (parked c x (engine w) (reuse w))).
Fixpoint retire_all c (idxs : list nat) w : option Worker :=
  match idxs with [] => Some w | i :: idxs => w ← retire_one c i w; retire_all c idxs w end.
Definition retire c w : option Worker := retire_all c (descending (finished w)) w.

(** The decode part of a tick: [closed] and [alive] are what the channels say at
    the sweep and at a send. *)
Definition tick c (closed alive : nat -> bool) w : option Worker :=
  let w := sweep closed w in
  w ← eager_decode c alive (seq 0 (length (active w))) w;
  w ← batch_decode c alive w;
  retire c w.
End Batch.
