(* ===== verification/BatchSpec.v ===== *)
(** What the batched tick promises each session.

    [alone] is a session decoded by itself with the rows the engine gives it.
    Whatever the other sessions do (arrive, leave, prime, fail, share chunks with
    it), in whatever order the lanes put them, a session that stays connected
    sends exactly the events of [alone], up to an engine failure, which is
    reported to it ([batch_isolated]); nothing panics; and decoding alone is
    [Stream.generate], so the texts are those of [Stream.stream_exact].

    The engine's contract is [serving]: a row of a step of one model, at most as
    wide as that model's chunk width, is what the step gives that row alone. *)
From Stdlib Require Import SpecFloat.
From S2P Require Import Prelude F32 RustStr Utf8 Sampling Tokenizer Stream Lanes Batch.
Local Open Scope nat_scope.

Section Spec.
Context `{SortDesc, F32Exp, GrammarMask, Engine}.
Context (c : Config) (row : BRow -> Row) (row1 : str -> list Z -> Z -> list spec_float).
Implicit Types (w : Worker) (x : Slot) (s : Session).

Definition fits (reqs : list BRow) : Prop :=
  exists m, Forall (fun r => b_model r = m) reqs /\ length reqs <= Nat.max 1 (default 8 (caps c !! m)).
Record serving : Prop := {
  sv_decode m tk ids : loaded c m = Some tk -> is_Some (decode_bytes_special tk ids true);
  sv_mask g l g' r : mask_logits g l = (g', Some r) -> l <> [] -> r <> [];
  sv_row r : (row r).2 = None -> (row r).1 <> [];
  sv_row1 m f t : row1 m f t <> [];
  sv_batch e reqs e' rows : fits reqs -> decode_step_batch e reqs = (e', Some rows) -> rows = row <$> reqs;
  sv_step e m f t e' l : decode_step e m f t = (e', Some l) -> l = row1 m f t;
}.
(** A session that can be decoded: its tokenizer is loaded, and it has a token or
    a row to sample. *)
Definition slot_ok x : Prop :=
  is_Some (loaded c (s_model (ses x))) /\ (device_next (ses x) = None -> last_logits (ses x) <> []).

(** ** A session alone *)

(** [stage_grammar_mask] when the upload succeeds. *)
Definition stage_alone x : Slot * bool :=
  match constraint (ses x) with
  | None => (with_ses (ses x) [] x, true)
  | Some g =>
      if constrain_host c || match devsample_meta (devsample c) (ses x) with None => true | Some _ => false end
      then (with_ses (ses x) [] x, true)
      else match compute_mask g with
           | (g, None) => (with_ses (set_constraint (Some g) (ses x)) [] x, false)
           | (g, Some ws) => (with_ses (set_constraint (Some g) (ses x)) ws x, true)
           end
  end.
(** The session after the host half, its events, and the token it feeds. *)
Definition advance_alone x : option (Slot * list Event * option Z) :=
  tk ← loaded c (s_model (ses x));
  '((s, evs, go), t) ← advance_sample_emit tk true (ses x);
  let x := with_ses s (mask x) x in
  match go, t with
  | true, Some t => let '(x, ok) := stage_alone x in
      Some (if ok : bool then (x, evs, Some t) else (x, evs ++ [EvError EMask], None))
  | _, _ => Some (x, evs, None)
  end.
Definition fed_alone x (t : Z) (r : Row) : Slot := with_ses (feed t r (ses x)) (mask x) x.
Definition tick_alone x : option (Slot * list Event * bool) :=
  if eager_only c (s_model (ses x)) then
    tk ← loaded c (s_model (ses x));
    '((s, evs, go), t) ← advance_sample_emit tk true (ses x);
    let x := with_ses s (mask x) x in
    match go, t with
    | true, Some t => Some (fed_alone x t (row1 (s_model s) (fed s) t, None), evs, true)
    | _, _ => Some (x, evs, false)
    end
  else
    '(x, evs, t) ← advance_alone x;
    match t with
    | Some t => Some (fed_alone x t (row (row_request c x t)), evs, true)
    | None => Some (x, evs, false)
    end.
(** [n] ticks: the events, and the session if it goes on. *)
Fixpoint alone (n : nat) x : option (list Event * option Slot) :=
  match n with
  | 0 => Some ([], Some x)
  | S n =>
      '(x, evs, go) ← tick_alone x;
      if go : bool then '(evs', o) ← alone n x; Some (evs ++ evs', o) else Some (evs, None)
  end.

Lemma alone_snoc n x evs x' : alone n x = Some (evs, Some x') ->
  alone (S n) x = '(y, e, go) ← tick_alone x'; Some (evs ++ e, if go : bool then Some y else None).
Proof.
  revert x evs. induction n as [|n IH]; intros x evs.
  - cbn [alone]. intros [= <- <-]. destruct (tick_alone x) as [[[y e] [|]]|]; cbn [mbind option_bind]; [|done..]. by rewrite app_nil_r.
  - rewrite (eq_refl : alone (S (S n)) x = '(x, evs, go) ← tick_alone x; if go : bool then '(evs', o) ← alone (S n) x; Some (evs ++ evs', o) else Some (evs, None)).
    cbn [alone]. fold (alone (S n)). destruct (tick_alone x) as [[[y e] [|]]|] eqn:Et; cbn [mbind option_bind]; [|done..].
    destruct (alone n y) as [[e' o]|] eqn:Ea; cbn [mbind option_bind]; [|done]. intros [= <- ->].
    pose proof (IH y e' Ea) as Hs. cbn [alone] in Hs. rewrite Hs. destruct (tick_alone x') as [[[z e''] go]|]; cbn [mbind option_bind]; [|done].
    by rewrite app_assoc.
Qed.
Lemma alone_ended n m x evs : alone n x = Some (evs, None) -> n <= m -> alone m x = Some (evs, None).
Proof.
  revert m x evs. induction n as [|n IH]; intros m x evs; [done|]. intros Ha Hm. destruct m as [|m]; [lia|].
  cbn [alone] in *. destruct (tick_alone x) as [[[y e] [|]]|]; cbn [mbind option_bind] in *; [|done..].
  destruct (alone n y) as [[e' o]|] eqn:Ea; cbn [mbind option_bind] in *; [|done]. injection Ha as <- ->.
  by rewrite (IH m y e' Ea) by lia.
Qed.

(** ** One call *)

(** What no phase of the tick changes. *)
Definition static x := (sid x, lane x, cache_ns x, direct x, prefill_done x, s_model (ses x), bool_decide (is_Some (s_cache (ses x)))).
Lemma with_ses_id x : with_ses (ses x) (mask x) x = x.
Proof. by destruct x. Qed.

Lemma next_token_fields s s' r : next_token s = Some (s', r) ->
  s_model s' = s_model s /\ s_cache s' = s_cache s /\ device_next s' = None /\ fed s' = fed s.
Proof.
  unfold next_token. destruct (device_next s); [by intros [= <- <-]|]. destruct (constraint s) as [g|].
  - destruct (mask_logits g (last_logits s)) as [g' [l|]]; [|by intros [= <- <-]].
    destruct (sample (sampler s) l) as [[t sm]|]; [|done]. by intros [= <- <-].
  - destruct (sample (sampler s) (last_logits s)) as [[t sm]|]; [|done]. by intros [= <- <-].
Qed.
Lemma emit_fields tk alive t full s s' evs go : emit tk alive t full s = Some (s', evs, go) ->
  s_model s' = s_model s /\ s_cache s' = s_cache s /\ device_next s' = device_next s /\ fed s' = fed s.
Proof.
  unfold emit. destruct (bool_decide _); [by intros [= <- <- <-]|].
  assert (Hc : let '(s1, _) := consume_token t (push_token t s) in
    s_model s1 = s_model s /\ s_cache s1 = s_cache s /\ device_next s1 = device_next s /\ fed s1 = fed s).
  { unfold consume_token. destruct (constraint (push_token t s)) as [g|]; [|done]. by destruct (consume g t). }
  destruct (consume_token t (push_token t s)) as [s1 ok]. destruct ok; cbn [negb]; [|by intros [= <- <- <-]].
  destruct (decode_bytes_special tk (generated s1) true) as [bs|]; [|done]. cbn [mbind option_bind].
  destruct (utf8_delta bs (emitted_bytes s1)) as [d n]. destruct (negb alive); [by intros [= <- <- <-]|].
  destruct (stopped _ _); [by intros [= <- <- <-]|]. destruct (full && _); by intros [= <- <- <-].
Qed.
Lemma emit_total tk alive t full s : (forall ids, is_Some (decode_bytes_special tk ids true)) -> is_Some (emit tk alive t full s).
Proof.
  intros Hd. unfold emit. destruct (bool_decide _); [done|]. destruct (consume_token t (push_token t s)) as [s1 ok].
  destruct ok; cbn [negb]; [|done]. destruct (Hd (generated s1)) as [bs ->]. cbn [mbind option_bind].
  destruct (utf8_delta bs (emitted_bytes s1)) as [d n]. destruct (negb alive); [done|]. destruct (stopped _ _); [done|]. by destruct (full && _).
Qed.
(** The host half never panics on a session that can be decoded. *)
Lemma advance_total (Hv : serving) x tk alive : slot_ok x -> loaded c (s_model (ses x)) = Some tk ->
  exists s evs t, advance_sample_emit tk alive (ses x) = Some ((s, evs, match t with Some _ => true | None => false end), t)
    /\ s_model s = s_model (ses x) /\ s_cache s = s_cache (ses x) /\ (is_Some t -> device_next s = None).
Proof.
  intros [_ Hrow] Htk. unfold advance_sample_emit. destruct (_ <=? _); [by exists (ses x), [finish (ses x) MaxNew], None|].
  assert (Hn : is_Some (next_token (ses x))).
  { unfold next_token. destruct (device_next (ses x)); [done|]. specialize (Hrow eq_refl). destruct (constraint (ses x)) as [g|].
    - destruct (mask_logits g (last_logits (ses x))) as [g' [l|]] eqn:Em; [|done].
      destruct (sample_total (sampler (ses x)) l) as (? & ? & -> & _); [by eapply sv_mask|done].
    - by destruct (sample_total (sampler (ses x)) (last_logits (ses x))) as (? & ? & -> & _). }
  destruct Hn as [[s r] Hn]. rewrite Hn. cbn [mbind option_bind]. apply next_token_fields in Hn as (Hm & Hc & Hd & Hf).
  destruct r as [t|[]]; [|by exists s, [EvError EMask], None].
  destruct (emit_total tk alive t true s) as [[[s' evs] go] He]; [intros; by eapply sv_decode|]. rewrite He. cbn [mbind option_bind].
  apply emit_fields in He as (Hm' & Hc' & Hd' & _). exists s', evs, (if go then Some t else None). split_and!; try congruence. by destruct go.
Qed.

(** ** Frames *)

Definition events_of (j : nat) w : list Event := snd <$> List.filter (fun p => p.1 =? j) (sent w).
(** From [w] to [w'] only the sessions at [l] moved, and only they were sent to. *)
Record only (l : list nat) w w' : Prop := {
  on_slot k : k ∉ l -> active w' !! k = active w !! k;
  on_static k : static <$> active w' !! k = static <$> active w !! k;
  on_fin k : k ∉ l -> k ∈ finished w' <-> k ∈ finished w;
  on_more k : k ∈ finished w -> k ∈ finished w';
  on_sent j : (forall k x, k ∈ l -> active w !! k = Some x -> sid x <> j) -> events_of j w' = events_of j w;
}.
Lemma only_refl l w : only l w w.
Proof. by split. Qed.
Lemma static_at w w' k x' : static <$> active w' !! k = static <$> active w !! k -> active w' !! k = Some x' ->
  exists x, active w !! k = Some x /\ static x' = static x.
Proof. intros Hs Hx. rewrite Hx in Hs. destruct (active w !! k) as [x|]; [|done]. exists x. split; [done|]. exact (inj Some _ _ Hs). Qed.
Lemma static_fields x y : static x = static y ->
  sid x = sid y /\ s_model (ses x) = s_model (ses y) /\ decodable x = decodable y /\ lane x = lane y.
Proof.
  unfold static, decodable. intros [= -> -> _ -> -> -> Hc]. split_and!; try done. f_equal.
  by destruct (s_cache (ses x)), (s_cache (ses y)).
Qed.
Lemma only_trans l1 l2 w w1 w2 : only l1 w w1 -> only l2 w1 w2 -> only (l1 ++ l2) w w2.
Proof.
  intros [A1 A2 A3 A4 A5] [B1 B2 B3 B4 B5]. split.
  - intros k Hk. rewrite B1, A1; set_solver.
  - intros k. by rewrite B2, A2.
  - intros k Hk. rewrite B3, A3; set_solver.
  - intros k Hk. by apply B4, A4.
  - intros j Hj. rewrite B5, A5; [done|intros k x Hk; apply Hj; set_solver|]. intros k x Hk Hx.
    destruct (static_at w w1 k x (A2 k) Hx) as (x0 & Hx0 & Hs). apply static_fields in Hs as [-> _]. apply (Hj k); [set_solver|done].
Qed.
Lemma only_weaken l l' w w' : only l w w' -> l ⊆ l' -> only l' w w'.
Proof.
  intros [A1 A2 A3 A4 A5] Hl. split; [|done| |done|]; intros k Hk.
  - apply A1. set_solver.
  - apply A3. set_solver.
  - apply A5. intros i x Hi. apply Hk. set_solver.
Qed.
Lemma only_step l w w1 w2 : only l w w1 -> only l w1 w2 -> only l w w2.
Proof. intros Ha Hb. eapply only_weaken; [by eapply only_trans|]. set_solver. Qed.

Lemma only_engine l e w : only l w (set_engine e w).
Proof. by split. Qed.
Lemma only_set_slot i x y w : active w !! i = Some x -> static y = static x -> only [i] w (set_slot i y w).
Proof.
  intros Hi Hs. split; cbn; [|intros k|done..].
  - intros k Hk. apply list_lookup_insert_ne. set_solver.
  - destruct (decide (k = i)) as [->|Hk]; [|by rewrite list_lookup_insert_ne].
    rewrite list_lookup_insert_eq by (by eapply lookup_lt_Some). rewrite Hi. cbn. by rewrite Hs.
Qed.
Lemma only_finish i w : only [i] w (finish_at i w).
Proof. split; try done; cbn; intros k; set_solver. Qed.
Lemma events_send j id evs w : events_of j (send id evs w) = events_of j w ++ (if id =? j then evs else []).
Proof.
  unfold events_of, send. cbn. rewrite List.filter_app, fmap_app. f_equal. induction evs as [|e evs IH]; cbn; [by destruct (id =? j)|].
  destruct (id =? j) eqn:E; cbn; [|by rewrite IH]. f_equal. by rewrite IH.
Qed.
Lemma only_send i x evs w : active w !! i = Some x -> only [i] w (send (sid x) evs w).
Proof.
  intros Hi. split; [done..|]. intros j Hj. rewrite events_send. destruct (Nat.eqb_spec (sid x) j) as [Heq|]; [|by rewrite app_nil_r].
  exfalso. by apply (Hj i x); [set_solver|..].
Qed.
Lemma set_slot_at i x y w : active w !! i = Some x -> active (set_slot i y w) !! i = Some y.
Proof. intros Hi. cbn. apply list_lookup_insert_eq. by eapply lookup_lt_Some. Qed.

(** ** One session's turn *)

Definition ok_at (i : nat) w : Prop := exists y, active w !! i = Some y /\ (i ∈ finished w \/ slot_ok y).
(** The session [x] at [i] did in the worker what it does alone, or the engine
    failed after that and it was told. *)
Definition turn (i : nat) x w w' : Prop :=
  exists y evs go, tick_alone x = Some (y, evs, go) /\
    ((events_of (sid x) w' = events_of (sid x) w ++ evs /\ if go : bool then active w' !! i = Some y /\ i ∉ finished w' else i ∈ finished w')
     \/ (go = true /\ i ∈ finished w' /\ exists e, events_of (sid x) w' = events_of (sid x) w ++ evs ++ [EvError e])).
(** Likewise for the host half, which leaves the token to feed. *)
Definition half_turn (i : nat) x w w' (t : option Z) : Prop :=
  exists y evs o, advance_alone x = Some (y, evs, o) /\
    ((events_of (sid x) w' = events_of (sid x) w ++ evs /\ t = o /\ active w' !! i = Some y /\ (i ∈ finished w' <-> o = None))
     \/ (is_Some o /\ t = None /\ i ∈ finished w' /\ exists e, events_of (sid x) w' = events_of (sid x) w ++ evs ++ [EvError e])).

Lemma step_decode_eq alive i w x tk s evs go t : active w !! i = Some x -> loaded c (s_model (ses x)) = Some tk ->
  advance_sample_emit tk (alive (sid x)) (ses x) = Some ((s, evs, go), t) ->
  let w1 := send (sid x) evs (set_slot i (with_ses s (mask x) x) w) in
  step_decode c alive i w =
    match t with
    | Some t =>
        let '(e, r) := decode_step (engine w1) (s_model s) (fed s) t in
        Some match r with
             | Some l => set_slot i (with_ses (feed t (l, None) s) (mask x) x) (set_engine e w1)
             | None => finish_at i (send (sid x) [EvError EBatch] (set_engine e w1))
             end
    | None => Some (finish_at i w1)
    end.
Proof.
  intros Hi Htk Ha. cbv zeta. unfold step_decode. rewrite Hi. cbn [mbind option_bind]. rewrite Htk. cbn [mbind option_bind].
  unfold advance_sample_emit in Ha. destruct (_ <=? _).
  { injection Ha as <- <- <- <-. rewrite with_ses_id. unfold set_slot. rewrite (list_insert_id _ _ _ Hi). by destruct w. }
  destruct (next_token (ses x)) as [[s1 r]|]; [|done]. cbn [mbind option_bind] in *. destruct r as [t1|[]]; [|by injection Ha as <- <- <- <-].
  destruct (emit tk (alive (sid x)) t1 true s1) as [[[s2 evs2] go2]|]; [|done]. cbn [mbind option_bind] in *.
  injection Ha as <- <- <- <-. by destruct go2.
Qed.
Lemma step_decode_spec (Hv : serving) alive i w x : active w !! i = Some x -> slot_ok x -> eager_only c (s_model (ses x)) = true ->
  exists w', step_decode c alive i w = Some w' /\ only [i] w w' /\ ok_at i w'
    /\ (alive (sid x) = true -> i ∉ finished w -> turn i x w w').
Proof.
  intros Hi Hok Heager. destruct Hok as [[tk Htk] Hrow]. pose proof (conj (mk_is_Some _ _ Htk) Hrow : slot_ok x) as Hok.
  destruct (advance_total Hv x tk (alive (sid x)) Hok Htk) as (s & evs & t & Ha & Hm & Hc & Hd).
  pose proof (step_decode_eq alive i w x tk s evs _ t Hi Htk Ha) as Heq. cbv zeta in Heq. set (x1 := with_ses s (mask x) x) in *.
  assert (Hst : static x1 = static x) by (unfold x1, static; cbn; by rewrite Hm, Hc).
  assert (Ho1 : only [i] w (send (sid x) evs (set_slot i x1 w))).
  { eapply only_step; [eapply only_set_slot; [exact Hi|exact Hst]|]. apply (only_send i x1). by eapply set_slot_at. }
  set (w1 := send (sid x) evs (set_slot i x1 w)) in *. assert (Hi1 : active w1 !! i = Some x1) by by apply (set_slot_at i x).
  assert (He1 : events_of (sid x) w1 = events_of (sid x) w ++ evs) by (unfold w1; rewrite events_send, Nat.eqb_refl; done).
  destruct t as [t|].
  - destruct (decode_step (engine w1) (s_model s) (fed s) t) as [e [l|]] eqn:Hs.
    + assert (Hst2 : static (with_ses (feed t (l, None) s) (mask x) x) = static x1).
      { unfold static. cbn. repeat f_equal. by destruct (s_cache s). }
      pose proof (sv_step Hv _ _ _ _ _ _ Hs) as ->. eexists. split; [exact Heq|]. split; [|split].
      * eapply only_step; [exact Ho1|]. eapply only_step; [apply (only_engine [i] e)|]. eapply only_set_slot; [exact Hi1|exact Hst2].
      * eexists. split; [by apply (set_slot_at i x1)|]. right. split; [cbn; by rewrite Hm|]. cbn. intros _. by apply sv_row1.
      * intros Hal Hf. rewrite Hal in Ha. unfold turn, tick_alone. rewrite Heager, Htk. cbn [mbind option_bind]. rewrite Ha. cbn [mbind option_bind].
        eexists _, _, true. split; [done|]. left. split; [done|]. split; [by apply (set_slot_at i x1)|done].
    + eexists. split; [exact Heq|]. split; [|split].
      * eapply only_step; [exact Ho1|]. eapply only_step; [apply (only_engine [i] e)|]. eapply only_step; [by apply (only_send i x1)|]. apply only_finish.
      * exists x1. split; [done|]. left. cbn. set_solver.
      * intros Hal Hf. rewrite Hal in Ha. unfold turn, tick_alone. rewrite Heager, Htk. cbn [mbind option_bind]. rewrite Ha. cbn [mbind option_bind].
        eexists _, _, true. split; [done|]. right. split; [done|]. split; [cbn; set_solver|]. exists EBatch.
        change (events_of (sid x) (send (sid x) [EvError EBatch] (set_engine e w1)) = events_of (sid x) w ++ evs ++ [EvError EBatch]).
        rewrite events_send, Nat.eqb_refl. change (events_of (sid x) (set_engine e w1)) with (events_of (sid x) w1). by rewrite He1, app_assoc.
  - eexists. split; [exact Heq|]. split; [|split].
    + eapply only_step; [exact Ho1|]. apply only_finish.
    + exists x1. split; [done|]. left. cbn. set_solver.
    + intros Hal Hf. rewrite Hal in Ha. unfold turn, tick_alone. rewrite Heager, Htk. cbn [mbind option_bind]. rewrite Ha. cbn [mbind option_bind].
      eexists _, _, false. split; [done|]. left. split; [done|]. cbn. set_solver.
Qed.

(** Staging the mask: as alone, unless the upload fails. *)
Lemma stage_spec e x : exists y e' ok, stage_grammar_mask c e x = (y, e', ok) /\ static y = static x
  /\ (device_next (ses y) = device_next (ses x) /\ last_logits (ses y) = last_logits (ses x))
  /\ (stage_alone x = (y, ok) \/ (ok = false /\ exists z, stage_alone x = (z, true))).
Proof.
  unfold stage_grammar_mask, stage_alone. destruct (constraint (ses x)) as [g|] eqn:Hg; [|by eexists _, _, _; split_and!; [done..|by left]].
  destruct (constrain_host c || _); [by eexists _, _, _; split_and!; [done..|by left]|].
  destruct (compute_mask g) as [g' [ws|]]; [|by eexists _, _, _; split_and!; [done..|by left]].
  destruct (upload_mask e ws) as [e' [|]].
  - by eexists _, _, _; split_and!; [done..|by left].
  - eexists _, _, _. split_and!; [done..|]. right. split; [done|]. by eexists.
Qed.
Lemma advance_one_spec (Hv : serving) alive i w x : active w !! i = Some x -> slot_ok x -> eager_only c (s_model (ses x)) = false ->
  i ∉ finished w ->
  exists w' t, advance_one c alive i w = Some (w', t) /\ only [i] w w' /\ is_Some (active w' !! i) /\ (is_Some t <-> i ∉ finished w')
    /\ (alive (sid x) = true -> half_turn i x w w' t).
Proof.
  intros Hi Hok Heager Hnf. destruct Hok as [[tk Htk] Hrow]. pose proof (conj (mk_is_Some _ _ Htk) Hrow : slot_ok x) as Hok.
  destruct (advance_total Hv x tk (alive (sid x)) Hok Htk) as (s & evs & t & Ha & Hm & Hc & Hd).
  unfold advance_one. rewrite Hi. cbn [mbind option_bind]. rewrite Htk. cbn [mbind option_bind]. rewrite Ha. cbn [mbind option_bind].
  set (x1 := with_ses s (mask x) x). assert (Hst : static x1 = static x) by (unfold x1, static; cbn; by rewrite Hm, Hc).
  change (sid x1) with (sid x).
  assert (Ho1 : only [i] w (send (sid x) evs (set_slot i x1 w))).
  { eapply only_step; [eapply only_set_slot; [exact Hi|exact Hst]|]. apply (only_send i x1). by eapply set_slot_at. }
  set (w1 := send (sid x) evs (set_slot i x1 w)) in *. assert (Hi1 : active w1 !! i = Some x1) by by apply (set_slot_at i x).
  assert (He1 : events_of (sid x) w1 = events_of (sid x) w ++ evs) by (unfold w1; rewrite events_send, Nat.eqb_refl; done).
  destruct t as [t|].
  - destruct (stage_spec (engine w1) x1) as (y & e & ok & Hs & Hsty & _ & Hal0). rewrite Hs.
    pose proof (static_fields _ _ Hsty) as (Hsid & _). change (sid x1) with (sid x) in Hsid.
    assert (Ho2 : only [i] w (set_engine e (set_slot i y w1))).
    { eapply only_step; [exact Ho1|]. eapply only_step; [eapply only_set_slot; [exact Hi1|exact Hsty]|]. apply only_engine. }
    assert (Hi2 : active (set_engine e (set_slot i y w1)) !! i = Some y) by by apply (set_slot_at i x1).
    set (w2 := set_engine e (set_slot i y w1)) in *. assert (He2 : events_of (sid x) w2 = events_of (sid x) w ++ evs) by done.
    assert (Hf2 : finished w2 = finished w) by done. destruct ok.
    + exists w2, (Some t). split; [done|]. split; [done|]. split; [by rewrite Hi2|]. split; [by rewrite Hf2|]. intros Hal. rewrite Hal in Ha.
      destruct Hal0 as [Hal0|[? _]]; [|done]. unfold half_turn, advance_alone. rewrite Htk. cbn [mbind option_bind]. rewrite Ha.
      cbn [mbind option_bind]. fold x1. rewrite Hal0. eexists _, _, _. split; [done|]. left. split; [done|]. split; [done|]. split; [done|]. by rewrite Hf2.
    + eexists _, None. split; [done|]. rewrite Hsid. set (w3 := finish_at i _).
      assert (Ho3 : only [i] w w3).
      { eapply (only_step _ _ (send (sid x) [EvError EMask] w2)); [|apply only_finish]. eapply only_step; [exact Ho2|].
        rewrite <- Hsid. by apply only_send. }
      assert (He3 : events_of (sid x) w3 = events_of (sid x) w ++ evs ++ [EvError EMask]).
      { change (events_of (sid x) w3) with (events_of (sid x) (send (sid x) [EvError EMask] w2)). by rewrite events_send, Nat.eqb_refl, He2, app_assoc. }
      assert (Hf3 : i ∈ finished w3) by (cbn; set_solver). assert (Hi3 : active w3 !! i = Some y) by done. clearbody w3.
      split; [done|]. split; [by rewrite Hi3|]. split; [split; [by intros []|done]|]. intros Hal. rewrite Hal in Ha.
      unfold half_turn, advance_alone. rewrite Htk. cbn [mbind option_bind]. rewrite Ha. cbn [mbind option_bind]. fold x1.
      destruct Hal0 as [-> | [_ [z ->]]]; cbn; (eexists _, _, _; split; [done|]).
      * left. by split_and!.
      * right. split; [done|]. split; [done|]. split; [done|]. by exists EMask.
  - cbn.
    exists (finish_at i w1), None. split; [done|]. split; [eapply only_step; [exact Ho1|apply only_finish]|].
    split; [by rewrite (Hi1 : active (finish_at i w1) !! i = _)|]. assert (Hf : i ∈ finished (finish_at i w1)) by (cbn; set_solver).
    split; [split; [by intros []|done]|]. intros Hal. rewrite Hal in Ha. unfold half_turn, advance_alone. rewrite Htk. cbn [mbind option_bind].
    rewrite Ha. cbn. eexists _, _, _. split; [done|]. left. split; [done|]. split; [done|]. split; [done|]. by split.
Qed.

(** ** Sessions side by side *)

Definition wf w : Prop :=
  NoDup (sid <$> active w) /\ (forall i, i ∈ finished w -> i < length (active w))
  /\ (forall i x, active w !! i = Some x -> decodable x = true -> i ∈ finished w \/ slot_ok x).
Definition untouched (i : nat) x w w' : Prop :=
  active w' !! i = Some x /\ (i ∈ finished w' <-> i ∈ finished w) /\ events_of (sid x) w' = events_of (sid x) w.

Lemma only_length l w w' : only l w w' -> length (active w') = length (active w).
Proof.
  intros Ho. apply Nat.le_antisymm; apply Nat.nlt_ge; intros Hlt.
  - destruct (lookup_lt_is_Some_2 _ _ Hlt) as [x Hx]. destruct (static_at w w' _ x (on_static _ _ _ Ho _) Hx) as (y & Hy & _).
    apply lookup_lt_Some in Hy. lia.
  - destruct (lookup_lt_is_Some_2 _ _ Hlt) as [x Hx]. pose proof (on_static _ _ _ Ho (length (active w'))) as Hs.
    rewrite Hx, lookup_ge_None_2 in Hs by lia. done.
Qed.
Lemma only_sids l w w' : only l w w' -> sid <$> active w' = sid <$> active w.
Proof.
  intros Ho. apply list_eq. intros k. rewrite !list_lookup_fmap. pose proof (on_static _ _ _ Ho k) as Hs.
  destruct (active w' !! k) as [x|], (active w !! k) as [y|]; try done. apply (inj Some) in Hs.
  apply static_fields in Hs as [Hs _]. cbn. by rewrite Hs.
Qed.
Lemma sids_ne w i k x y : NoDup (sid <$> active w) -> active w !! i = Some x -> active w !! k = Some y -> k <> i -> sid y <> sid x.
Proof.
  intros Hn Hi Hk Hne Heq. apply Hne. apply (NoDup_lookup (sid <$> active w) k i (sid x) Hn); rewrite list_lookup_fmap.
  - rewrite Hk. cbn. by rewrite Heq.
  - by rewrite Hi.
Qed.
Lemma only_untouched l i x w w' : only l w w' -> i ∉ l -> NoDup (sid <$> active w) -> active w !! i = Some x -> untouched i x w w'.
Proof.
  intros Ho Hi Hn Hx. split; [by rewrite (on_slot _ _ _ Ho)|]. split; [by apply (on_fin _ _ _ Ho)|].
  apply (on_sent _ _ _ Ho). intros k y Hk Hy. eapply sids_ne; [done..|]. by intros ->.
Qed.
Lemma untouched_trans i x w w1 w2 : untouched i x w w1 -> untouched i x w1 w2 -> untouched i x w w2.
Proof. intros (_ & Hf & He) (Hi & Hf' & He'). split; [done|]. split; [by rewrite Hf'|by rewrite He']. Qed.
Lemma turn_before i x w w1 w2 : untouched i x w w1 -> turn i x w1 w2 -> turn i x w w2.
Proof. intros (_ & _ & He) Ht. unfold turn. by rewrite <- He. Qed.
Lemma half_turn_before i x w w1 w2 t : untouched i x w w1 -> half_turn i x w1 w2 t -> half_turn i x w w2 t.
Proof. intros (_ & _ & He) Ht. unfold half_turn. by rewrite <- He. Qed.
Lemma only_after l i w w1 w2 x : only l w1 w2 -> i ∉ l -> NoDup (sid <$> active w) -> sid <$> active w1 = sid <$> active w ->
  active w !! i = Some x -> events_of (sid x) w2 = events_of (sid x) w1.
Proof.
  intros Ho Hi Hn Hs Hx. apply (on_sent _ _ _ Ho). intros k y Hk Hy Heq. apply Hi.
  assert (k = i) as <-; [|done]. apply (NoDup_lookup (sid <$> active w) k i (sid x) Hn).
  - rewrite <- Hs, list_lookup_fmap, Hy. cbn. by rewrite Heq.
  - by rewrite list_lookup_fmap, Hx.
Qed.
Lemma turn_after l i x w w1 w2 : only l w1 w2 -> i ∉ l -> NoDup (sid <$> active w) -> sid <$> active w1 = sid <$> active w ->
  active w !! i = Some x -> turn i x w w1 -> turn i x w w2.
Proof.
  intros Ho Hi Hn Hs Hx (y & evs & go & Ht & Hr). exists y, evs, go. split; [done|].
  rewrite (only_after l i w w1 w2 x), (on_slot _ _ _ Ho) by done. pose proof (on_fin _ _ _ Ho i Hi). destruct go; tauto.
Qed.
Lemma half_turn_after l i x w w1 w2 t : only l w1 w2 -> i ∉ l -> NoDup (sid <$> active w) -> sid <$> active w1 = sid <$> active w ->
  active w !! i = Some x -> half_turn i x w w1 t -> half_turn i x w w2 t.
Proof.
  intros Ho Hi Hn Hs Hx (y & evs & o & Ht & Hr). exists y, evs, o. split; [done|].
  rewrite (only_after l i w w1 w2 x), (on_slot _ _ _ Ho) by done. pose proof (on_fin _ _ _ Ho i Hi). tauto.
Qed.
Lemma only_fin_in l i w w' : only l w w' -> i ∈ finished w' -> i ∈ finished w \/ i ∈ l.
Proof. intros Ho Hi. destruct (decide (i ∈ l)) as [|Hn]; [by right|]. left. by apply (on_fin _ _ _ Ho). Qed.
(** Well-formedness after sessions at [l] moved, each left in order. *)
Lemma only_wf l w w' : only l w w' -> wf w -> (forall i, i ∈ l -> ok_at i w') -> wf w'.
Proof.
  intros Ho (Hn & Hb & Hok) Hl. pose proof (fun i => only_fin_in l i w w' Ho) as Hf. split; [by rewrite (only_sids _ _ _ Ho)|]. split.
  - intros i Hi. rewrite (only_length _ _ _ Ho). destruct (Hf i Hi) as [|Hil]; [by apply Hb|].
    destruct (Hl i Hil) as (y & Hy & _). rewrite <- (only_length _ _ _ Ho). by eapply lookup_lt_Some.
  - intros i x Hx Hd. destruct (decide (i ∈ l)) as [Hi|Hi]; [destruct (Hl i Hi) as (y & Hy & Ho'); congruence|].
    rewrite (on_slot _ _ _ Ho) in Hx by done. destruct (Hok i x Hx Hd) as [Hfi|]; [left; by apply (on_more _ _ _ Ho)|by right].
Qed.

(** ** The decode phase *)

Lemma eager_spec (Hv : serving) alive idxs w : wf w -> NoDup idxs -> (forall i, i ∈ idxs -> i < length (active w)) ->
  exists w', eager_decode c alive idxs w = Some w' /\ wf w' /\ only idxs w w'
    /\ forall i x, active w !! i = Some x -> i ∉ finished w -> decodable x = true -> alive (sid x) = true ->
       (eager_only c (s_model (ses x)) = true -> i ∈ idxs -> turn i x w w') /\ (eager_only c (s_model (ses x)) = false -> untouched i x w w').
Proof.
  revert w. induction idxs as [|i0 idxs IH]; intros w Hwf Hnd Hb.
  { exists w. split; [done|]. split; [done|]. split; [apply only_refl|]. intros i x Hx _ _ _. split; [set_solver|]. intros _. by split_and!. }
  apply NoDup_cons in Hnd as [Hi0 Hnd]. cbn [eager_decode]. destruct (lookup_lt_is_Some_2 (active w) i0) as [x0 Hx0]; [apply Hb; set_solver|].
  rewrite Hx0. cbn [mbind option_bind]. destruct (is_finished i0 w || negb _ || negb (decodable x0)) eqn:Hskip.
  - destruct (IH w) as (w' & -> & Hwf' & Ho & Hr); [done..|set_solver|]. exists w'. split; [done|]. split; [done|].
    split; [eapply only_weaken; [done|set_solver]|]. intros i x Hx Hf Hd Hal. destruct (Hr i x Hx Hf Hd Hal) as [Ht Hu]. split; [|done].
    intros He Hin. apply elem_of_cons in Hin as [->|Hin]; [|by apply Ht]. rewrite Hx0 in Hx. injection Hx as ->.
    unfold is_finished in Hskip. rewrite bool_decide_eq_false_2, He, Hd in Hskip by done. done.
  - apply orb_false_iff in Hskip as [Hskip Hd0]. apply orb_false_iff in Hskip as [Hf0 He0]. apply bool_decide_eq_false in Hf0.
    apply negb_false_iff in Hd0, He0. pose proof Hwf as (Hn & _ & Hok). destruct (Hok i0 x0 Hx0 Hd0) as [|Hok0]; [done|].
    destruct (step_decode_spec Hv alive i0 w x0 Hx0 Hok0 He0) as (w1 & -> & Ho1 & Hok1 & Ht1). cbn [mbind option_bind].
    assert (Hwf1 : wf w1). { eapply only_wf; [done..|]. intros i Hi. apply list_elem_of_singleton in Hi as ->. done. }
    destruct (IH w1) as (w' & -> & Hwf' & Ho & Hr); [done..| |].
    { intros i Hi. rewrite (only_length _ _ _ Ho1). apply Hb. set_solver. }
    exists w'. split; [done|]. split; [done|]. split; [change (i0 :: idxs) with ([i0] ++ idxs); by eapply only_trans|].
    intros i x Hx Hf Hd Hal. destruct (decide (i = i0)) as [->|Hne].
    + rewrite Hx0 in Hx. injection Hx as <-. split; [|congruence]. intros _ _.
      eapply turn_after; [exact Ho|done|done|by eapply only_sids|done|by apply Ht1].
    + assert (Hu1 : untouched i x w w1) by (eapply only_untouched; [done|set_solver|done..]).
      destruct Hu1 as (Hx1 & Hf1 & He1). destruct (Hr i x Hx1) as [Ht Hu]; [by rewrite Hf1|done..|]. split.
      * intros He Hin. eapply turn_before; [by split_and!|]. apply Ht; [done|set_solver].
      * intros He. eapply untouched_trans; [by split_and!|by apply Hu].
Qed.


Lemma advance_all_spec (Hv : serving) alive idxs ready w : NoDup (sid <$> active w) -> NoDup idxs ->
  (forall i, i ∈ idxs -> exists x, active w !! i = Some x /\ slot_ok x /\ eager_only c (s_model (ses x)) = false /\ i ∉ finished w) ->
  exists w' new, advance_all c alive idxs ready w = Some (w', ready ++ new) /\ only idxs w w'
    /\ new.*1 ⊆ idxs /\ NoDup new.*1 /\ (forall i, i ∈ idxs -> is_Some (active w' !! i) /\ (i ∈ new.*1 <-> i ∉ finished w'))
    /\ forall i x, i ∈ idxs -> active w !! i = Some x -> alive (sid x) = true ->
         exists t, half_turn i x w w' t /\ forall u, (i, u) ∈ new <-> t = Some u.
Proof.
  revert ready w. induction idxs as [|i0 idxs IH]; intros ready w Hn Hnd Hb.
  { exists w, []. rewrite app_nil_r. split; [done|]. split; [apply only_refl|]. split; [done|]. split; [constructor|]. split; set_solver. }
  apply NoDup_cons in Hnd as [Hi0 Hnd]. cbn [advance_all]. destruct (Hb i0) as (x0 & Hx0 & Hok0 & He0 & Hf0); [set_solver|].
  destruct (advance_one_spec Hv alive i0 w x0 Hx0 Hok0 He0 Hf0) as (w1 & t & -> & Ho1 & Hs1 & Hf1 & Hh1). cbn [mbind option_bind].
  set (new0 := match t with Some t => [(i0, t)] | None => [] end). assert (Hn0 : new0.*1 ⊆ [i0]) by (destruct t; set_solver).
  destruct (IH (ready ++ new0) w1) as (w' & new & -> & Ho & Hsub & Hnew & Hin & Hh); [by rewrite (only_sids _ _ _ Ho1)|done|..].
  { intros i Hi. destruct (Hb i) as (x & Hx & Hok & He & Hf); [set_solver|]. exists x.
    destruct (only_untouched [i0] i x w w1) as (Hx1 & Hf' & _); [done|set_solver|done..|]. by rewrite Hf'. }
  exists w', (new0 ++ new). rewrite app_assoc. split; [done|]. split; [change (i0 :: idxs) with ([i0] ++ idxs); by eapply only_trans|].
  rewrite fmap_app. split; [set_solver|]. split.
  { apply NoDup_app. split; [destruct t; [apply NoDup_singleton|constructor]|]. split; [set_solver|done]. }
  split.
  - intros i Hi. destruct (decide (i = i0)) as [->|Hne].
    + rewrite (on_slot _ _ _ Ho) by done. split; [done|]. pose proof (on_fin _ _ _ Ho i0 Hi0) as Hff. rewrite elem_of_app. destruct t; cbn.
      * assert (i0 ∉ finished w1) by (apply Hf1; done). set_solver.
      * assert (i0 ∈ finished w1) by (destruct (decide (i0 ∈ finished w1)) as [|Hd]; [done|by apply Hf1 in Hd as []]). set_solver.
    + destruct (Hin i) as [H1' H2']; [set_solver|]. split; [done|]. rewrite elem_of_app. set_solver.
  - intros i x Hi Hx Hal. destruct (decide (i = i0)) as [->|Hne].
    + rewrite Hx0 in Hx. injection Hx as <-. exists t. split.
      * eapply half_turn_after; [exact Ho|done|done|by eapply only_sids|done|by apply Hh1].
      * intros u. assert ((i0, u) ∉ new) by (intros Hu; apply Hi0, Hsub, list_elem_of_fmap; by exists (i0, u)).
        destruct t as [t|]; cbn; set_solver.
    + assert (Hu1 : untouched i x w w1) by (eapply only_untouched; [done|set_solver|done..]).
      destruct (Hh i x) as (t' & Ht' & Hu'); [set_solver|by destruct Hu1|done|]. exists t'. split; [by eapply half_turn_before|].
      intros u. rewrite elem_of_app, Hu'. destruct t as [t|]; cbn; [set_solver|]. set_solver.
Qed.

(** ** Chunks *)

Lemma concat_snoc {A} (l : list (list A)) (x : list A) : concat (l ++ [x]) = concat l ++ x.
Proof. rewrite concat_app. cbn. by rewrite app_nil_r. Qed.
Definition chunk_ok (l : list Slot) (chunk : list (nat * Z)) : Prop :=
  chunk <> [] /\ exists m, Forall (fun it => model_at l it.1 = Some m) chunk /\ length chunk <= Nat.max 1 (default 8 (caps c !! m)).
Lemma group_from_spec l chunks ready : Forall (chunk_ok l) chunks -> Forall (fun it => is_Some (model_at l it.1)) ready ->
  exists chunks', group_from l (caps c) chunks ready = Some chunks' /\ concat chunks' = concat chunks ++ ready /\ Forall (chunk_ok l) chunks'.
Proof.
  revert chunks. induction ready as [|it ready IH]; intros chunks Hc Hr; cbn [group_from].
  { exists chunks. by rewrite app_nil_r. }
  apply Forall_cons in Hr as [[m Hm] Hr]. rewrite Hm. cbn [mbind option_bind].
  assert (Hfresh : Forall (chunk_ok l) (chunks ++ [[it]])).
  { apply Forall_app. split; [done|]. constructor; [|done]. split; [done|]. exists m. split; [by repeat constructor|]. cbn. lia. }
  destruct (last chunks) as [chunk|] eqn:Hl.
  - apply last_Some in Hl as [pre ->]. apply Forall_app in Hc as [Hpre Hlast]. apply Forall_cons in Hlast as [Hlast _].
    destruct Hlast as [Hne (m0 & Hall & Hlen)]. unfold joins. destruct (Nat.ltb_spec (length chunk) (default 8 (caps c !! m))) as [Hlt|Hge]; cbn [mbind option_bind].
    + destruct chunk as [|p chunk]; [done|]. cbn [head mbind option_bind]. pose proof (Forall_inv Hall) as Hp. rewrite Hp. cbn [mbind option_bind].
      destruct (bool_decide (m0 = m)) eqn:Em.
      * apply bool_decide_eq_true in Em as ->. rewrite length_app. cbn [length]. replace (length pre + 1 - 1) with (length pre) by lia.
        assert (Ha : alter (.++ [it]) (length pre) (pre ++ [p :: chunk]) = pre ++ [(p :: chunk) ++ [it]]).
        { replace (length pre) with (length pre + 0) by lia. by rewrite alter_app_r. }
        rewrite Ha. destruct (IH (pre ++ [(p :: chunk) ++ [it]])) as (chunks' & -> & Hcc & Hok); [|done|].
        { apply Forall_app. split; [done|]. constructor; [|done]. split; [by destruct chunk|]. exists m. split; [by apply Forall_app; split; [|constructor]|].
          rewrite length_app. cbn [length] in *. lia. }
        exists chunks'. split; [done|]. split; [|done]. rewrite Hcc, !concat_snoc. by rewrite <- !app_assoc.
      * destruct (IH _ Hfresh Hr) as (chunks' & -> & Hcc & Hok). exists chunks'. split; [done|]. split; [|done].
        rewrite Hcc, concat_snoc. by rewrite <- !app_assoc.
    + destruct (IH _ Hfresh Hr) as (chunks' & -> & Hcc & Hok). exists chunks'. split; [done|]. split; [|done].
      rewrite Hcc, concat_snoc. by rewrite <- !app_assoc.
  - cbn [mbind option_bind]. destruct (IH _ Hfresh Hr) as (chunks' & -> & Hcc & Hok). exists chunks'. split; [done|]. split; [|done].
    rewrite Hcc, concat_snoc. by rewrite <- !app_assoc.
Qed.

Definition fed_turn (i : nat) x (t : Z) w w' : Prop :=
  (active w' !! i = Some (fed_alone x t (row (row_request c x t))) /\ (i ∈ finished w' <-> i ∈ finished w) /\ events_of (sid x) w' = events_of (sid x) w)
  \/ (is_Some (active w' !! i) /\ i ∈ finished w' /\ exists e, events_of (sid x) w' = events_of (sid x) w ++ [EvError e]).
Lemma static_fed x t r : static (fed_alone x t r) = static x.
Proof. unfold static, fed_alone. cbn. repeat f_equal. by destruct (s_cache (ses x)). Qed.

Lemma fed_turn_before i x t w w1 w2 : untouched i x w w1 -> fed_turn i x t w1 w2 -> fed_turn i x t w w2.
Proof. intros (_ & Hf & He) Ht. unfold fed_turn in *. rewrite <- He. intuition. Qed.
Lemma fed_turn_after l i x t w w1 w2 : only l w1 w2 -> i ∉ l -> NoDup (sid <$> active w) -> sid <$> active w1 = sid <$> active w ->
  active w !! i = Some x -> fed_turn i x t w w1 -> fed_turn i x t w w2.
Proof.
  intros Ho Hi Hn Hs Hx Ht. unfold fed_turn in *. rewrite (only_after l i w w1 w2 x), (on_slot _ _ _ Ho) by done.
  pose proof (on_fin _ _ _ Ho i Hi). tauto.
Qed.

Lemma apply_rows_spec (req : nat * Z -> BRow) chunk w : NoDup (sid <$> active w) -> NoDup chunk.*1 ->
  (forall it, it ∈ chunk -> exists x, active w !! it.1 = Some x /\ req it = row_request c x it.2) ->
  exists w', apply_rows chunk ((fun it => row (req it)) <$> chunk) w = Some w' /\ only chunk.*1 w w'
    /\ forall i t x, (i, t) ∈ chunk -> active w !! i = Some x -> fed_turn i x t w w'.
Proof.
  revert w. induction chunk as [|[i0 t0] chunk IH]; intros w Hn Hnd Hr.
  { exists w. split; [done|]. split; [apply only_refl|set_solver]. }
  destruct (Hr (i0, t0)) as (x0 & Hx0 & Hreq); [set_solver|]. cbn [apply_rows fst snd fmap list_fmap] in *. rewrite Hx0, Hreq. cbn [mbind option_bind].
  apply NoDup_cons in Hnd as [Hi0 Hnd]. set (w1 := set_slot i0 _ w).
  assert (Ho1 : only [i0] w w1) by (eapply only_set_slot; [exact Hx0|apply (static_fed x0)]).
  assert (Hsid : sid <$> active w1 = sid <$> active w) by by eapply only_sids.
  assert (Hu : forall i x, i <> i0 -> active w !! i = Some x -> untouched i x w w1).
  { intros i x Hi Hx. eapply only_untouched; [exact Ho1|set_solver|done..]. }
  assert (Hne : forall it, it ∈ chunk -> it.1 <> i0) by (intros it Hit Heq; apply Hi0; rewrite <- Heq; apply list_elem_of_fmap; by exists it).
  destruct (IH w1) as (w' & -> & Ho & Ht); [by rewrite Hsid|done|..].
  { intros it Hit. destruct (Hr it) as (x & Hx & Hq); [set_solver|]. exists x. split; [|done]. by destruct (Hu it.1 x (Hne it Hit) Hx). }
  exists w'. split; [done|]. split; [change (i0 :: chunk.*1) with ([i0] ++ chunk.*1); by eapply only_trans|].
  intros i t x Hit Hx. apply elem_of_cons in Hit as [[= -> ->]|Hit].
  - rewrite Hx0 in Hx. injection Hx as <-. eapply fed_turn_after; [exact Ho|done..|]. left. split; [by apply (set_slot_at i0 x0)|]. by split.
  - eapply fed_turn_before; [apply Hu; [by apply (Hne (i, t))|done]|]. apply Ht; [done|]. apply Hu; [by apply (Hne (i, t))|done].
Qed.
Lemma fail_rows_spec chunk w : NoDup (sid <$> active w) -> NoDup chunk.*1 -> (forall it, it ∈ chunk -> is_Some (active w !! it.1)) ->
  exists w', fail_rows chunk w = Some w' /\ only chunk.*1 w w'
    /\ forall i t x, (i, t) ∈ chunk -> active w !! i = Some x -> fed_turn i x t w w'.
Proof.
  revert w. induction chunk as [|[i0 t0] chunk IH]; intros w Hn Hnd Hr.
  { exists w. split; [done|]. split; [apply only_refl|set_solver]. }
  destruct (Hr (i0, t0)) as [x0 Hx0]; [set_solver|]. cbn [fail_rows fst snd] in *. rewrite Hx0. cbn [mbind option_bind].
  apply NoDup_cons in Hnd as [Hi0 Hnd]. set (w1 := finish_at i0 _).
  assert (Ho1 : only [i0] w w1) by (eapply only_step; [by apply only_send|apply only_finish]).
  assert (Hsid : sid <$> active w1 = sid <$> active w) by by eapply only_sids.
  assert (Hu : forall i x, i <> i0 -> active w !! i = Some x -> untouched i x w w1).
  { intros i x Hi Hx. eapply only_untouched; [exact Ho1|set_solver|done..]. }
  assert (Hne : forall it, it ∈ chunk -> it.1 <> i0) by (intros it Hit Heq; apply Hi0; rewrite <- Heq; apply list_elem_of_fmap; by exists it).
  destruct (IH w1) as (w' & -> & Ho & Ht); [by rewrite Hsid|done|..].
  { intros it Hit. destruct (Hr it) as [x Hx]; [set_solver|]. exists x. by destruct (Hu it.1 x (Hne it Hit) Hx). }
  exists w'. split; [done|]. split; [rewrite fmap_cons; cbn [fst]; change (i0 :: chunk.*1) with ([i0] ++ chunk.*1); by eapply only_trans|].
  intros i t x Hit Hx. apply elem_of_cons in Hit as [[= -> ->]|Hit].
  - rewrite Hx0 in Hx. injection Hx as <-. eapply fed_turn_after; [exact Ho|done..|]. right. split; [by rewrite (Hx0 : active w1 !! i0 = _)|].
    split; [cbn; set_solver|]. exists EBatch. change (events_of (sid x0) w1) with (events_of (sid x0) (send (sid x0) [EvError EBatch] w)).
    by rewrite events_send, Nat.eqb_refl.
  - eapply fed_turn_before; [apply Hu; [by apply (Hne (i, t))|done]|]. apply Ht; [done|]. apply Hu; [by apply (Hne (i, t))|done].
Qed.

Definition feedable x : Prop := is_Some (s_cache (ses x)) /\ is_Some (loaded c (s_model (ses x))).
Lemma mapM_total {A B} (f : A -> option B) (d : B) (l : list A) : (forall a, a ∈ l -> is_Some (f a)) ->
  mapM f l = Some ((fun a => default d (f a)) <$> l).
Proof.
  intros Hf. apply mapM_Some_2. apply Forall2_fmap_r, Forall_Forall2_diag, Forall_forall. intros a Ha. destruct (Hf a Ha) as [b Hb]. cbn. by rewrite Hb.
Qed.
Lemma run_chunk_spec (Hv : serving) chunk w : NoDup (sid <$> active w) -> NoDup chunk.*1 -> chunk_ok (active w) chunk ->
  (forall it, it ∈ chunk -> exists x, active w !! it.1 = Some x /\ feedable x) ->
  exists w', run_chunk c chunk w = Some w' /\ only chunk.*1 w w'
    /\ forall i t x, (i, t) ∈ chunk -> active w !! i = Some x -> fed_turn i x t w w'.
Proof.
  intros Hn Hnd [Hne (m & Hm & Hlen)] Hx. unfold run_chunk.
  assert (Hh : exists p, head chunk = Some p /\ p ∈ chunk) by (destruct chunk as [|p chunk']; [done|]; exists p; split; [done|set_solver]).
  destruct Hh as (p & -> & Hp). cbn [mbind option_bind]. rewrite (proj1 (Forall_forall _ _) Hm p Hp). cbn [mbind option_bind].
  destruct (Hx p Hp) as (x0 & Hx0 & _ & [tk Htk]). pose proof (proj1 (Forall_forall _ _) Hm p Hp) as Hm0. unfold model_at in Hm0.
  rewrite Hx0 in Hm0. injection Hm0 as Hm0. rewrite Hm0 in Htk. rewrite Htk. cbn [mbind option_bind].
  assert (Hreq : forall it, it ∈ chunk -> exists x, active w !! it.1 = Some x /\ request_at c w it = Some (row_request c x it.2)).
  { intros it Hit. destruct (Hx it Hit) as (x & Hx1 & [pc Hpc] & _). exists x. split; [done|]. unfold request_at. rewrite Hx1.
    cbn [mbind option_bind]. by rewrite Hpc. }
  rewrite (mapM_total _ (mkRow [] [] 0%Z None None)) by (intros it Hit; by destruct (Hreq it Hit) as (x & _ & ->)). cbn [mbind option_bind].
  set (req := fun it => default (mkRow [] [] 0%Z None None) (request_at c w it)).
  assert (Hrq : forall it, it ∈ chunk -> exists x, active w !! it.1 = Some x /\ req it = row_request c x it.2).
  { intros it Hit. destruct (Hreq it Hit) as (x & Hx1 & Hq). exists x. split; [done|]. unfold req. by rewrite Hq. }
  destruct (decode_step_batch (engine w) (req <$> chunk)) as [e [rows|]] eqn:Hb.
  - assert (Hfit : fits (req <$> chunk)).
    { exists m. rewrite length_fmap. split; [|done]. apply Forall_fmap, Forall_forall. intros it Hit. destruct (Hrq it Hit) as (x & Hx1 & Hq).
      cbn. rewrite Hq. cbn. pose proof (proj1 (Forall_forall _ _) Hm it Hit) as Hmi. unfold model_at in Hmi. rewrite Hx1 in Hmi. by injection Hmi. }
    pose proof (sv_batch Hv _ _ _ _ Hfit Hb) as ->. rewrite <- list_fmap_compose.
    destruct (apply_rows_spec req chunk (set_engine e w) Hn Hnd Hrq) as (w' & Hw' & Ho & Ht). exists w'. split; [exact Hw'|]. split; [|exact Ht].
    eapply only_step; [apply (only_engine _ e)|exact Ho].
  - destruct (fail_rows_spec chunk (set_engine e w) Hn Hnd) as (w' & Hw' & Ho & Ht).
    { intros it Hit. by destruct (Hx it Hit) as (x & Hx1 & _). }
    exists w'. split; [exact Hw'|]. split; [|exact Ht]. eapply only_step; [apply (only_engine _ e)|exact Ho].
Qed.
Lemma chunk_ok_only l w w' chunk : only l w w' -> chunk_ok (active w) chunk -> chunk_ok (active w') chunk.
Proof.
  intros Ho [Hne (m & Hm & Hl)]. split; [done|]. exists m. split; [|done]. eapply Forall_impl; [exact Hm|]. cbn. intros it Hit.
  unfold model_at in *. pose proof (on_static _ _ _ Ho it.1) as Hs. destruct (active w !! it.1) as [x|]; [|done].
  destruct (active w' !! it.1) as [y|]; [|done]. apply (inj Some) in Hs. apply static_fields in Hs as (_ & Hmd & _). cbn in *. by rewrite Hmd.
Qed.
Lemma run_chunks_spec (Hv : serving) chunks w : NoDup (sid <$> active w) -> NoDup (concat chunks).*1 -> Forall (chunk_ok (active w)) chunks ->
  (forall it, it ∈ concat chunks -> exists x, active w !! it.1 = Some x /\ feedable x) ->
  exists w', run_chunks c chunks w = Some w' /\ only (concat chunks).*1 w w'
    /\ forall i t x, (i, t) ∈ concat chunks -> active w !! i = Some x -> fed_turn i x t w w'.
Proof.
  revert w. induction chunks as [|chunk chunks IH]; intros w Hn Hnd Hok Hx.
  { exists w. split; [done|]. split; [apply only_refl|set_solver]. }
  apply Forall_cons in Hok as [Hc Hok]. cbn [concat run_chunks] in *. rewrite fmap_app in *. apply NoDup_app in Hnd as (Hnd1 & Hdis & Hnd2).
  destruct (run_chunk_spec Hv chunk w Hn Hnd1 Hc) as (w1 & -> & Ho1 & Ht1); [intros it Hit; apply Hx; set_solver|]. cbn [mbind option_bind].
  assert (Hsid : sid <$> active w1 = sid <$> active w) by by eapply only_sids.
  assert (Hnot : forall it, it ∈ concat chunks -> it.1 ∉ chunk.*1).
  { intros it Hit Hin. apply (Hdis it.1 Hin), list_elem_of_fmap. by exists it. }
  assert (Hu : forall it x, it ∈ concat chunks -> active w !! it.1 = Some x -> untouched it.1 x w w1).
  { intros it x Hit Hx1. eapply only_untouched; [exact Ho1|by apply Hnot|done..]. }
  destruct (IH w1) as (w' & -> & Ho & Ht); [by rewrite Hsid|done|..].
  - eapply Forall_impl; [exact Hok|]. intros ch. by eapply chunk_ok_only.
  - intros it Hit. destruct (Hx it) as (x & Hx1 & Hf); [set_solver|]. exists x. split; [|done]. by destruct (Hu it x Hit Hx1).
  - exists w'. split; [done|]. split; [by eapply only_trans|]. intros i t x Hit Hx1. apply elem_of_app in Hit as [Hit|Hit].
    + eapply fed_turn_after; [exact Ho| |done..|by apply Ht1]. intros Hin. apply (Hdis i); [apply list_elem_of_fmap; by exists (i, t)|done].
    + pose proof (Hu (i, t) x Hit Hx1) as Hui. eapply fed_turn_before; [exact Hui|]. apply Ht; [done|]. apply Hui.
Qed.

(** ** The batched phase *)

Lemma decoding_spec w i : i ∈ decoding c w <-> exists x, active w !! i = Some x /\ batchable c w i x = true.
Proof.
  unfold decoding. rewrite list_elem_of_bind. split.
  - intros (l & Hi & _). apply list_elem_of_In, List.filter_In in Hi as [_ Hi]. destruct (active w !! i) as [x|]; [|done].
    apply andb_true_iff in Hi as [Hi _]. by exists x.
  - intros (x & Hx & Hb). exists (lane x). split; [|by destruct (lane x); set_solver]. apply list_elem_of_In, List.filter_In.
    rewrite Hx, Hb, bool_decide_eq_true_2 by done. split; [|done]. apply in_seq. apply lookup_lt_Some in Hx. lia.
Qed.
Lemma decoding_nodup w : NoDup (decoding c w).
Proof.
  unfold decoding. cbn [mbind list_bind lane_all]. set (f := fun l i => match active w !! i with Some x => batchable c w i x && bool_decide (lane x = l) | None => false end).
  assert (Hf : forall l, NoDup (List.filter (f l) (seq 0 (length (active w))))).
  { intros l. apply NoDup_ListNoDup, List.NoDup_filter, NoDup_ListNoDup, NoDup_seq. }
  assert (Hd : forall l l' i, l <> l' -> i ∈ List.filter (f l) (seq 0 (length (active w))) -> i ∉ List.filter (f l') (seq 0 (length (active w)))).
  { intros l l' i Hl Hi Hi'. apply list_elem_of_In, List.filter_In in Hi as [_ Hi]. apply list_elem_of_In, List.filter_In in Hi' as [_ Hi'].
    unfold f in *. destruct (active w !! i) as [x|]; [|done]. apply andb_true_iff in Hi as [_ Hi]. apply andb_true_iff in Hi' as [_ Hi'].
    apply bool_decide_eq_true in Hi, Hi'. congruence. }
  rewrite app_nil_r. apply NoDup_app. split; [apply Hf|]. split.
  - intros i Hi. rewrite elem_of_app. intros [Hi'|Hi']; (eapply Hd; [|exact Hi|exact Hi']; done).
  - apply NoDup_app. split; [apply Hf|]. split; [|apply Hf]. intros i Hi. eapply Hd; [|exact Hi]. done.
Qed.

Lemma turn_of_half i x w w1 w2 t : eager_only c (s_model (ses x)) = false -> static <$> active w1 !! i = Some (static x) ->
  half_turn i x w w1 t ->
  (forall u y, t = Some u -> active w1 !! i = Some y -> fed_turn i y u w1 w2) ->
  (t = None -> events_of (sid x) w2 = events_of (sid x) w1 /\ (i ∈ finished w1 -> i ∈ finished w2)) -> turn i x w w2.
Proof.
  intros He Hst (y & evs & o & Ha & Hh) Hfed Hnone. unfold turn, tick_alone. rewrite He, Ha. cbn [mbind option_bind].
  destruct Hh as [(Hev & -> & Hy & Hf)|(Ho & -> & Hf & e & Hev)].
  - destruct o as [u|].
    + eexists _, _, true. split; [done|]. rewrite Hy in Hst. apply (inj Some), static_fields in Hst as (Hsid & _).
      destruct (Hfed u y eq_refl Hy) as [(Hz & Hfz & Hez)|(_ & Hfz & e & Hez)]; rewrite Hsid in Hez.
      * left. rewrite Hez, Hev. split; [done|]. split; [done|]. rewrite Hfz, Hf. done.
      * right. split; [done|]. split; [done|]. exists e. by rewrite Hez, Hev, app_assoc.
    + destruct (Hnone eq_refl) as [He' Hf']. eexists _, _, false. split; [done|]. left. rewrite He'. split; [done|]. apply Hf'. by apply Hf.
  - destruct (Hnone eq_refl) as [He' Hf']. destruct o as [u|]; [|by destruct Ho]. eexists _, _, true. split; [done|]. right.
    split; [done|]. split; [by apply Hf'|]. exists e. by rewrite He', Hev.
Qed.
Lemma feedable_static x y : static x = static y -> feedable y -> feedable x.
Proof.
  intros Hs [Hc Hl]. pose proof (static_fields _ _ Hs) as (_ & Hm & _). split; [|by rewrite Hm]. unfold static in Hs. injection Hs as _ _ _ _ _ _ Hs.
  by destruct (s_cache (ses x)), (s_cache (ses y)).
Qed.
Lemma ok_feedable x : decodable x = true -> slot_ok x -> feedable x.
Proof. intros Hd [Hl _]. split; [|done]. unfold decodable in Hd. destruct (s_cache (ses x)); [done|]. by rewrite andb_false_r in Hd. Qed.
Lemma batch_spec (Hv : serving) alive w : wf w ->
  exists w', batch_decode c alive w = Some w' /\ wf w' /\ only (decoding c w) w w'
    /\ forall i x, active w !! i = Some x -> i ∉ finished w -> decodable x = true -> eager_only c (s_model (ses x)) = false ->
         alive (sid x) = true -> turn i x w w'.
Proof.
  intros Hwf. pose proof Hwf as (Hn & _ & Hok). unfold batch_decode.
  assert (Hdec : forall i, i ∈ decoding c w -> exists x, active w !! i = Some x /\ slot_ok x /\ feedable x /\ eager_only c (s_model (ses x)) = false /\ i ∉ finished w).
  { intros i Hi. apply decoding_spec in Hi as (x & Hx & Hb). unfold batchable in Hb. apply andb_true_iff in Hb as [Hb He].
    apply andb_true_iff in Hb as [Hf Hd]. apply negb_true_iff in He. apply negb_true_iff, bool_decide_eq_false in Hf.
    destruct (Hok i x Hx Hd) as [|Ho]; [done|]. exists x. split_and!; try done. by apply ok_feedable. }
  destruct (advance_all_spec Hv alive (decoding c w) [] w Hn (decoding_nodup w)) as (w1 & new & -> & Ho1 & Hsub & Hnd & Hin & Hh).
  { intros i Hi. destruct (Hdec i Hi) as (x & ? & ? & _ & ? & ?). by exists x. }
  cbn [app mbind option_bind]. assert (Hmem : forall it, it ∈ new -> it.1 ∈ decoding c w) by (intros it Hit; apply Hsub, list_elem_of_fmap; by exists it).
  destruct (group_from_spec (active w1) [] new) as (chunks & Hg & Hcc & Hck); [done| |].
  { apply Forall_forall. intros it Hit. destruct (Hin it.1 (Hmem it Hit)) as [[y Hy] _]. unfold model_at. by rewrite Hy. }
  unfold group_chunks. rewrite Hg. cbn [mbind option_bind]. cbn [concat app] in Hcc. rewrite <- Hcc in *.
  assert (Hsid : sid <$> active w1 = sid <$> active w) by by eapply only_sids.
  assert (Hst : forall i x y, active w !! i = Some x -> active w1 !! i = Some y -> static y = static x).
  { intros i x y Hx Hy. pose proof (on_static _ _ _ Ho1 i) as Hs. rewrite Hx, Hy in Hs. exact (inj Some _ _ Hs). }
  destruct (run_chunks_spec Hv chunks w1) as (w' & -> & Ho & Ht); [by rewrite Hsid|done|done|..].
  { intros it Hit. destruct (Hin it.1 (Hmem it Hit)) as [[y Hy] _]. destruct (Hdec it.1 (Hmem it Hit)) as (x & Hx & _ & Hf & _).
    exists y. split; [done|]. by eapply feedable_static; [eapply Hst|]. }
  assert (Hall : only (decoding c w) w w') by (eapply only_weaken; [by eapply only_trans|set_solver]).
  exists w'. split; [done|]. split; [|split; [done|]].
  - eapply only_wf; [exact Hall|done|]. intros i Hi. destruct (Hin i Hi) as [[y Hy] Hiff]. destruct (decide (i ∈ (concat chunks).*1)) as [Hic|Hic].
    + apply list_elem_of_fmap in Hic as ([i' u] & -> & Hit). cbn [fst] in *. destruct (Ht i' u y Hit Hy) as [(Hz & _ & _)|([z Hz] & Hf & _)]; [|exists z; split; [done|by left]].
      eexists. split; [exact Hz|]. right. destruct (Hdec i' Hi) as (x & Hx & [Hl _] & _). pose proof (static_fields _ _ (Hst _ _ _ Hx Hy)) as (_ & Hm & _).
      split; cbn; [by rewrite Hm|]. apply (sv_row Hv).
    + exists y. rewrite (on_slot _ _ _ Ho) by done. split; [done|]. left. apply (on_more _ _ _ Ho).
      destruct (decide (i ∈ finished w1)) as [|Hd]; [done|]. by apply Hiff in Hd.
  - intros i x Hx Hf Hd He Hal. assert (Hi : i ∈ decoding c w).
    { apply decoding_spec. exists x. split; [done|]. unfold batchable, is_finished. by rewrite bool_decide_eq_false_2, Hd, He. }
    destruct (Hh i x Hi Hx Hal) as (t & Hht & Hu). eapply turn_of_half; [done| |exact Hht|..].
    + pose proof (on_static _ _ _ Ho1 i) as Hs. by rewrite Hx in Hs.
    + intros u y -> Hy. apply Ht; [by apply Hu|done].
    + intros ->. assert (Hic : i ∉ (concat chunks).*1).
      { intros Hic. apply list_elem_of_fmap in Hic as ([i' u] & -> & Hit). by apply Hu in Hit. }
      split; [by eapply (only_after _ _ w); [exact Ho|..]|]. apply (on_more _ _ _ Ho).
Qed.

(** ** Retirement *)

(** Those whose index is not listed, in order. *)
Fixpoint survivors (fin : nat -> bool) (i : nat) (l : list Slot) : list Slot :=
  match l with [] => [] | x :: l => (if fin i then [] else [x]) ++ survivors fin (S i) l end.
Lemma survivors_app fin i l1 l2 : survivors fin i (l1 ++ l2) = survivors fin i l1 ++ survivors fin (i + length l1) l2.
Proof.
  revert i. induction l1 as [|x l1 IH]; intros i; cbn [app survivors length]; [by rewrite Nat.add_0_r|].
  rewrite IH, <- app_assoc. by replace (i + S (length l1)) with (S i + length l1) by lia.
Qed.
Lemma survivors_elem fin i l x : x ∈ survivors fin i l <-> exists k, l !! k = Some x /\ fin (i + k) = false.
Proof.
  revert i. induction l as [|y l IH]; intros i; cbn [survivors]; [split; [set_solver|by intros (? & ? & _)]|].
  rewrite elem_of_app, IH. split.
  - intros [Hx|(k & Hk & Hf)].
    + exists 0. rewrite Nat.add_0_r. destruct (fin i); set_solver.
    + exists (S k). by rewrite Nat.add_succ_r.
  - intros ([|k] & Hk & Hf); [left|right].
    + rewrite Nat.add_0_r in Hf. rewrite Hf. injection Hk as ->. set_solver.
    + exists k. by rewrite Nat.add_succ_r in Hf.
Qed.
Lemma survivors_sublist fin i l : survivors fin i l `sublist_of` l.
Proof. revert i. induction l as [|x l IH]; intros i; cbn; [done|]. destruct (fin i); cbn; by constructor. Qed.
Lemma retire_all_spec fin n w : (forall i, i < n -> fin i = true -> i < length (active w)) ->
  exists w', retire_all c (rev (List.filter fin (seq 0 n))) w = Some w' /\ engine w' = engine w /\ sent w' = sent w
    /\ active w' = survivors fin 0 (take n (active w)) ++ drop n (active w).
Proof.
  revert w. induction n as [|n IH]; intros w Hb; [by exists w|].
  rewrite seq_S, List.filter_app, rev_app_distr. cbn [List.filter Nat.add]. destruct (fin n) eqn:Hn; cbn [rev app].
  - cbn [retire_all]. unfold retire_one. destruct (lookup_lt_is_Some_2 (active w) n) as [x Hx]; [by apply Hb; [lia|]|]. rewrite Hx. cbn [mbind option_bind].
    set (w1 := mkWorker _ _ _ _ _). assert (Ha : active w1 = take n (active w) ++ drop (S n) (active w)) by apply delete_take_drop.
    pose proof (lookup_lt_Some _ _ _ Hx) as Hlt.
    destruct (IH w1) as (w' & -> & He & Hs & Hw').
    { intros i Hi Hf. rewrite Ha, length_app, length_take, length_drop. lia. }
    exists w'. split; [done|]. split; [done|]. split; [done|]. rewrite Hw', Ha.
    rewrite take_app_le, drop_app_ge by (rewrite length_take; lia). rewrite take_take, Nat.min_id, length_take, (Nat.min_l n) by lia.
    rewrite drop_drop. replace (S n + (n - n)) with (S n) by lia. f_equal.
    rewrite (take_S_r _ _ _ Hx), survivors_app, length_take, (Nat.min_l n) by lia. cbn. by rewrite Hn, !app_nil_r.
  - destruct (IH w) as (w' & -> & He & Hs & Hw'); [intros; apply Hb; [lia|done]|]. exists w'. split; [done|]. split; [done|]. split; [done|].
    rewrite Hw'. destruct (active w !! n) as [x|] eqn:Hx.
    + pose proof (lookup_lt_Some _ _ _ Hx) as Hlt. rewrite (take_S_r _ _ _ Hx), survivors_app, length_take, (Nat.min_l n) by lia. cbn. rewrite Hn. cbn.
      rewrite <- app_assoc. f_equal. by rewrite (drop_S _ _ _ Hx).
    + apply lookup_ge_None in Hx. rewrite !take_ge, !drop_ge by lia. done.
Qed.
Lemma retire_spec w : (forall i, i ∈ finished w -> i < length (active w)) ->
  exists w', retire c w = Some w' /\ sent w' = sent w /\ active w' = survivors (fun i => bool_decide (i ∈ finished w)) 0 (active w).
Proof.
  intros Hb. unfold retire, descending. set (fin := fun i => bool_decide (i ∈ finished w)). set (n := S (list_max (finished w))).
  destruct (retire_all_spec fin n w) as (w' & -> & _ & Hs & Ha); [intros i _ Hi; apply bool_decide_eq_true in Hi; by apply Hb|].
  exists w'. split; [done|]. split; [done|]. rewrite Ha. rewrite <- (take_drop n (active w)) at 3. rewrite survivors_app. f_equal.
  assert (Hd : forall k l, n <= k -> survivors fin k l = l).
  { intros k l. revert k. induction l as [|x l IH]; intros k Hk; cbn; [done|]. assert (Hf : fin k = false).
    { apply bool_decide_eq_false. intros Hin. pose proof (proj1 (list_max_le (finished w) (list_max (finished w))) (le_n _)) as Hm.
      rewrite List.Forall_forall in Hm. apply list_elem_of_In, Hm in Hin. lia. }
    rewrite Hf. cbn. by rewrite IH by lia. }
  destruct (Nat.le_gt_cases n (length (active w))) as [Hle|Hgt]; [by rewrite Hd by (rewrite length_take; lia)|by rewrite drop_ge by lia].
Qed.

(** ** A tick *)

(** Between ticks: channels are distinct, and what is decodable can be decoded. *)
Definition good w : Prop :=
  NoDup (sid <$> active w) /\ (forall x, x ∈ active w -> decodable x = true -> slot_ok x).
Definition live (j : nat) w : Prop := j ∈ (sid <$> active w).

Lemma closed_from_spec closed i l k : k ∈ closed_from closed i l <-> exists n x, k = i + n /\ l !! n = Some x /\ closed (sid x) = true.
Proof.
  revert i. induction l as [|y l IH]; intros i; cbn [closed_from]; [split; [set_solver|by intros (? & ? & _ & ? & _)]|].
  rewrite elem_of_app, IH. split.
  - intros [Hk|(n & x & -> & Hx & Hc)].
    + exists 0, y. destruct (closed (sid y)); [|set_solver]. rewrite Nat.add_0_r. set_solver.
    + exists (S n), x. split; [lia|done].
  - intros ([|n] & x & -> & Hx & Hc); [left|right].
    + injection Hx as ->. rewrite Hc, Nat.add_0_r. set_solver.
    + exists n, x. split; [lia|done].
Qed.
(** The outcome of a tick for the session [x]. *)
Definition ticked x w w' : Prop :=
  exists y evs go, tick_alone x = Some (y, evs, go) /\
    ((events_of (sid x) w' = events_of (sid x) w ++ evs /\ if go : bool then y ∈ active w' else ~ live (sid x) w')
     \/ (go = true /\ ~ live (sid x) w' /\ exists e, events_of (sid x) w' = events_of (sid x) w ++ evs ++ [EvError e])).
Lemma tick_spec (Hv : serving) closed alive w : good w ->
  exists w', tick c closed alive w = Some w' /\ good w' /\ (forall j, live j w' -> live j w)
    /\ (forall j, ~ live j w -> events_of j w' = events_of j w)
    /\ forall x, x ∈ active w -> decodable x = true -> closed (sid x) = false -> alive (sid x) = true -> ticked x w w'.
Proof.
  intros [Hn Hok]. unfold tick. set (w0 := sweep closed w).
  assert (Hwf0 : wf w0).
  { split; [done|]. split.
    - intros i Hi. apply closed_from_spec in Hi as (n & x & -> & Hx & _). by eapply lookup_lt_Some.
    - intros i x Hx Hd. right. apply Hok; [by eapply list_elem_of_lookup_2|done]. }
  destruct (eager_spec Hv alive (seq 0 (length (active w0))) w0 Hwf0) as (w1 & -> & Hwf1 & Ho1 & Ht1).
  { apply NoDup_seq. } { intros i Hi. apply elem_of_seq in Hi. lia. }
  cbn [mbind option_bind]. destruct (batch_spec Hv alive w1 Hwf1) as (w2 & -> & Hwf2 & Ho2 & Ht2). cbn [mbind option_bind].
  pose proof (only_trans _ _ _ _ _ Ho1 Ho2) as Ho. destruct (retire_spec w2) as (w' & -> & Hsent & Hact); [apply Hwf2|].
  set (fin := fun i => bool_decide (i ∈ finished w2)) in *. exists w'. split; [done|].
  assert (Hev : forall j, events_of j w' = events_of j w2) by (intros j; unfold events_of; by rewrite Hsent).
  assert (Hsub : active w' `sublist_of` active w2) by (rewrite Hact; apply survivors_sublist).
  assert (Hn2 : NoDup (sid <$> active w2)) by apply Hwf2.
  assert (Hlive2 : forall j, j ∈ (sid <$> active w2) -> live j w) by (intros j; rewrite (only_sids _ _ _ Ho); done).
  assert (Hback : forall x, x ∈ active w' -> exists i, active w2 !! i = Some x /\ i ∉ finished w2).
  { intros x Hx. rewrite Hact in Hx. apply survivors_elem in Hx as (k & Hk & Hf). exists k. split; [done|]. by apply bool_decide_eq_false in Hf. }
  split; [|split; [|split]].
  - split; [eapply sublist_NoDup; [done|by apply (fmap_sublist sid)]|]. intros x Hx Hd. destruct (Hback x Hx) as (i & Hi & Hf).
    destruct Hwf2 as (_ & _ & Hok2). by destruct (Hok2 i x Hi Hd).
  - intros j Hj. apply Hlive2. unfold live in Hj. apply list_elem_of_fmap in Hj as (x & -> & Hx). apply list_elem_of_fmap.
    destruct (Hback x Hx) as (i & Hi & _). exists x. split; [done|]. by eapply list_elem_of_lookup_2.
  - intros j Hj. rewrite Hev. rewrite (on_sent _ _ _ Ho); [done|]. intros k x _ Hx <-. apply Hj. apply list_elem_of_fmap. exists x.
    split; [done|]. by eapply (list_elem_of_lookup_2 (active w0)).
  - intros x Hx Hd Hc Hal. apply list_elem_of_lookup_1 in Hx as [i Hi]. change (active w0 !! i = Some x) in Hi.
    assert (Hf0 : i ∉ finished w0).
    { intros Hin. apply closed_from_spec in Hin as (n & x' & -> & Hx' & Hc'). change (active w !! n = Some x) in Hi. congruence. }
    assert (Hturn : turn i x w0 w2).
    { destruct (Ht1 i x Hi Hf0 Hd Hal) as [Hte Htu]. destruct (eager_only c (s_model (ses x))) eqn:He.
      - specialize (Hte eq_refl). assert (i ∉ decoding c w1).
        { intros Hin. apply decoding_spec in Hin as (x1 & Hx1 & Hb). destruct (static_at _ _ _ _ (on_static _ _ _ Ho1 i) Hx1) as (x2 & Hx2 & Hs).
          rewrite Hi in Hx2. injection Hx2 as <-. apply static_fields in Hs as (_ & Hm & _). unfold batchable in Hb.
          rewrite Hm, He in Hb. by rewrite andb_false_r in Hb. }
        eapply turn_after; [exact Ho2|done|done|by eapply only_sids|done|]. apply Hte. apply elem_of_seq. apply lookup_lt_Some in Hi. lia.
      - specialize (Htu eq_refl). eapply turn_before; [exact Htu|]. destruct Htu as (Hi1 & Hf1 & _). apply Ht2; try done. by rewrite Hf1. }
    assert (Hgone : i ∈ finished w2 -> ~ live (sid x) w').
    { intros Hf Hl. apply list_elem_of_fmap in Hl as (y & Hsy & Hy). destruct (Hback y Hy) as (k & Hk & Hfk).
      assert (k = i) as ->; [|done]. apply (NoDup_lookup (sid <$> active w2) k i (sid x) Hn2); [by rewrite list_lookup_fmap, Hk, Hsy|].
      rewrite (only_sids _ _ _ Ho). by rewrite list_lookup_fmap, Hi. }
    destruct Hturn as (y & evs & go & Hta & Hr). exists y, evs, go. split; [done|]. rewrite Hev. change (events_of (sid x) w) with (events_of (sid x) w0).
    destruct Hr as [(He & Hg)|(-> & Hf & He)]; [left; split; [done|]|by right; split_and!; [done|by apply Hgone|]].
    destruct go; [|by apply Hgone]. destruct Hg as [Hy Hf]. rewrite Hact. apply survivors_elem. exists i. split; [done|]. by apply bool_decide_eq_false.
Qed.

(** ** A whole run, seen from one session *)

(** [n] ticks of a worker during which the client of [j] stays connected; between
    ticks sessions arrive, and those not decoding change or leave. *)
Inductive served (j : nat) : nat -> Worker -> Worker -> Prop :=
  | served_start w : served j 0 w w
  | served_tick n w w1 closed alive w2 : served j n w w1 -> tick c closed alive w1 = Some w2 ->
      closed j = false -> alive j = true -> served j (S n) w w2
  | served_arrive n w w1 e pools x : served j n w w1 -> ~ live (sid x) w1 -> sid x <> j -> (decodable x = true -> slot_ok x) ->
      served j n w (mkWorker (active w1 ++ [x]) e (finished w1) (sent w1) pools)
  | served_change n w w1 e pools i x y evs : served j n w w1 -> active w1 !! i = Some x -> decodable x = false ->
      sid y = sid x -> (decodable y = true -> slot_ok y) ->
      served j n w (send (sid x) evs (mkWorker (<[i := y]> (active w1)) e (finished w1) (sent w1) pools))
  | served_leave n w w1 e pools i x evs : served j n w w1 -> active w1 !! i = Some x -> decodable x = false ->
      served j n w (send (sid x) evs (mkWorker (delete i (active w1)) e (finished w1) (sent w1) pools)).

(** What [x] has been sent after [n] ticks: the events of [alone], all of them if
    it is over; or those up to a failure of the engine, and that. *)
Definition isolated (n : nat) x w w' : Prop :=
  exists evs, events_of (sid x) w' = events_of (sid x) w ++ evs /\
    ((exists y, alone n x = Some (evs, Some y) /\ sid y = sid x /\ decodable y = true /\ y ∈ active w')
     \/ (~ live (sid x) w' /\
         (alone n x = Some (evs, None)
          \/ exists k evs' y e, k <= n /\ alone k x = Some (evs', Some y) /\ evs = evs' ++ [EvError e]))).

Lemma advance_fields tk alive s s' evs go t : advance_sample_emit tk alive s = Some ((s', evs, go), t) ->
  s_model s' = s_model s /\ s_cache s' = s_cache s.
Proof.
  unfold advance_sample_emit. destruct (_ <=? _); [by intros [= <- <- <- <-]|].
  destruct (next_token s) as [[s1 r]|] eqn:Hn; [|done]. cbn [mbind option_bind]. apply next_token_fields in Hn as (Hm & Hc & _).
  destruct r as [t1|[]]; [|by intros [= <- <- <- <-]]. destruct (emit tk alive t1 true s1) as [[[s2 e2] g2]|] eqn:He; [|done].
  cbn [mbind option_bind]. apply emit_fields in He as (Hm2 & Hc2 & _). intros [= <- <- <- <-]. by rewrite Hm2, Hc2.
Qed.
Lemma static_ses s x m : s_model s = s_model (ses x) -> s_cache s = s_cache (ses x) -> static (with_ses s m x) = static x.
Proof. intros Hm Hc. unfold static. cbn. by rewrite Hm, Hc. Qed.
Lemma stage_alone_static x : static (stage_alone x).1 = static x.
Proof.
  unfold stage_alone. destruct (constraint (ses x)); [|done]. destruct (constrain_host c || _); [done|]. by destruct (compute_mask _) as [? [|]].
Qed.
Lemma tick_alone_static x y evs go : tick_alone x = Some (y, evs, go) -> static y = static x.
Proof.
  unfold tick_alone, advance_alone. destruct (loaded c (s_model (ses x))) as [tk|]; [|by destruct (eager_only _ _)]. cbn [mbind option_bind].
  destruct (advance_sample_emit tk true (ses x)) as [[[[s e] g] t]|] eqn:Ha; [|by destruct (eager_only _ _)]. cbn [mbind option_bind].
  apply advance_fields in Ha as [Hm Hc]. pose proof (static_ses s x (mask x) Hm Hc) as Hs. set (x1 := with_ses s (mask x) x) in *.
  destruct (eager_only _ _).
  - destruct g, t; intros [= <- <- <-]; try done. by rewrite static_fed.
  - pose proof (stage_alone_static x1) as Hst. destruct g, t; cbn [mbind option_bind]; try by intros [= <- <- <-].
    destruct (stage_alone x1) as [x2 ok]. cbn in Hst. destruct ok; cbn [mbind option_bind]; intros [= <- <- <-]; [|congruence].
    by rewrite static_fed, Hst.
Qed.
Lemma good_insert w e pools i x y evs : good w -> active w !! i = Some x -> sid y = sid x -> (decodable y = true -> slot_ok y) ->
  good (send (sid x) evs (mkWorker (<[i := y]> (active w)) e (finished w) (sent w) pools)).
Proof.
  intros [Hn Hok] Hi Hs Hy. split; cbn.
  - rewrite list_fmap_insert, Hs, list_insert_id; [done|]. by rewrite list_lookup_fmap, Hi.
  - intros z Hz. apply list_elem_of_lookup_1 in Hz as [k Hk]. destruct (decide (k = i)) as [->|Hne].
    + rewrite list_lookup_insert_eq in Hk by (by eapply lookup_lt_Some). by injection Hk as <-.
    + rewrite list_lookup_insert_ne in Hk by done. apply Hok. by eapply list_elem_of_lookup_2.
Qed.
Lemma good_delete w e pools i id evs : good w -> good (send id evs (mkWorker (delete i (active w)) e (finished w) (sent w) pools)).
Proof.
  intros [Hn Hok]. pose proof (sublist_delete (active w) i) as Hsub. split; cbn.
  - eapply sublist_NoDup; [exact Hn|]. by apply (fmap_sublist sid).
  - intros z Hz. apply Hok. eapply elem_of_submseteq; [exact Hz|]. by apply sublist_submseteq.
Qed.
Lemma good_arrive w e pools x : good w -> ~ live (sid x) w -> (decodable x = true -> slot_ok x) ->
  good (mkWorker (active w ++ [x]) e (finished w) (sent w) pools).
Proof.
  intros [Hn Hok] Hl Hx. split; cbn.
  - rewrite fmap_app. apply NoDup_app. split; [done|]. split; [|apply NoDup_singleton]. intros j Hj Hs. apply list_elem_of_singleton in Hs as ->. done.
  - intros z Hz. apply elem_of_app in Hz as [Hz|Hz]; [by apply Hok|]. apply list_elem_of_singleton in Hz as ->. done.
Qed.

(** Other sessions' moves do not touch a decoding session. *)
Lemma isolated_other n x w w1 w2 i z : good w1 -> active w1 !! i = Some z -> decodable z = false ->
  (forall j, j <> sid z -> events_of j w2 = events_of j w1) -> (forall y, y ∈ active w1 -> y <> z -> y ∈ active w2) ->
  (forall j, live j w2 -> live j w1) -> isolated n x w w1 -> isolated n x w w2.
Proof.
  intros [Hn _] Hi Hz Hev Hact Hlive (es & He & Hr). exists es. rewrite Hev.
  - split; [done|]. destruct Hr as [(y & Ha & Hs & Hd & Hy)|(Hl & Hr)]; [left|right; split; [|done]].
    + exists y. split_and!; try done. apply Hact; [done|]. intros ->. congruence.
    + intros Hl2. by apply Hl, Hlive.
  - destruct Hr as [(y & Ha & Hs & Hd & Hy)|(Hl & Hr)].
    + rewrite <- Hs. apply list_elem_of_lookup_1 in Hy as [k Hk]. eapply sids_ne; [done|exact Hi|exact Hk|]. intros ->. congruence.
    + intros Heq. apply Hl. unfold live. rewrite Heq. apply list_elem_of_fmap. exists z. split; [done|]. by eapply list_elem_of_lookup_2.
Qed.
Lemma served_isolated (Hv : serving) x n w w' : good w -> x ∈ active w -> decodable x = true -> served (sid x) n w w' ->
  good w' /\ isolated n x w w'.
Proof.
  intros Hg Hx Hd Hrun. induction Hrun as [w|n w w1 closed alive w2 Hrun IH Ht Hc Hal|n w w1 e pools z Hrun IH Hl Hne Hz
    |n w w1 e pools i z y evs Hrun IH Hi Hz Hs Hy|n w w1 e pools i z evs Hrun IH Hi Hz].
  - split; [done|]. exists []. rewrite app_nil_r. split; [done|]. left. by exists x.
  - destruct (IH Hg Hx) as [Hg1 (es & He & Hr)]. destruct (tick_spec Hv closed alive w1 Hg1) as (w2' & Ht' & Hg2 & Hlive & Hev & Htick).
    rewrite Ht in Ht'. injection Ht' as <-. split; [done|]. destruct Hr as [(y & Ha & Hs & Hdy & Hy)|(Hl & Hr)].
    + destruct (Htick y Hy Hdy) as (z & e2 & go & Hta & Hr); [by rewrite Hs..|]. pose proof (alone_snoc n x es y Ha) as Hsn. rewrite Hta in Hsn.
      cbn [mbind option_bind] in Hsn. pose proof (static_fields _ _ (tick_alone_static _ _ _ _ Hta)) as (Hsz & _ & Hdz & _). rewrite Hs in Hr, Hsz.
      destruct Hr as [[He2 Hgo]|(-> & Hgo & e & He2)].
      * exists (es ++ e2). rewrite He2, He, app_assoc. split; [done|]. destruct go; [left; exists z|right; split; [done|by left]]. split_and!; try done. congruence.
      * exists (es ++ e2 ++ [EvError e]). rewrite He2, He, !app_assoc. split; [done|]. right. split; [done|]. right.
        exists (S n), (es ++ e2), z, e. split; [lia|done].
    + exists es. rewrite Hev by done. split; [done|]. right. split; [intros Hl2; by apply Hl, Hlive|].
      destruct Hr as [Hr|(k & es' & y & e & Hk & Hr)]; [left; eapply alone_ended; [done|lia]|right; exists k, es', y, e; split; [lia|done]].
  - destruct (IH Hg Hx) as [Hg1 (es & He & Hr)]. split; [by apply good_arrive|]. exists es. split; [done|].
    destruct Hr as [(y & Ha & Hs & Hdy & Hy)|(Hl1 & Hr)]; [left; exists y; split_and!; try done; cbn; set_solver|right; split; [|done]].
    unfold live. cbn. rewrite fmap_app, elem_of_app. intros [Hin|Hin]; [done|]. apply list_elem_of_singleton in Hin. done.
  - destruct (IH Hg Hx) as [Hg1 Hiso]. split; [by apply good_insert|]. eapply isolated_other; [exact Hg1|exact Hi|done|..|exact Hiso].
    + intros j Hj. rewrite events_send. destruct (Nat.eqb_spec (sid z) j); [done|]. by rewrite app_nil_r.
    + intros u Hu Hne. apply list_elem_of_lookup_1 in Hu as [k Hk]. cbn. apply list_elem_of_lookup_2 with k. rewrite list_lookup_insert_ne; [done|].
      intros ->. congruence.
    + intros j. unfold live. cbn. rewrite list_fmap_insert, Hs, list_insert_id; [done|]. by rewrite list_lookup_fmap, Hi.
  - destruct (IH Hg Hx) as [Hg1 Hiso]. split; [by apply good_delete|]. eapply isolated_other; [exact Hg1|exact Hi|done|..|exact Hiso].
    + intros j Hj. rewrite events_send. destruct (Nat.eqb_spec (sid z) j); [done|]. by rewrite app_nil_r.
    + intros u Hu Hne. cbn. rewrite (delete_Permutation _ _ _ Hi) in Hu. set_solver.
    + intros j. unfold live. cbn. rewrite !list_elem_of_fmap. intros (u & Hju & Hu). exists u. split; [done|].
      rewrite (delete_Permutation _ _ _ Hi). set_solver.
Qed.

(** Alone, an unconstrained session is [generate]. *)
Definition solo_row (s : Session) (t : Z) : Row := row (mkRow (s_model s) (fed s) t (devsample_meta (devsample c) s) None).
Lemma next_token_free s s' r : constraint s = None -> next_token s = Some (s', r) -> constraint s' = None.
Proof.
  intros Hf. unfold next_token. rewrite Hf. destruct (device_next s); [by intros [= <- <-]|].
  destruct (sample (sampler s) (last_logits s)) as [[t sm]|]; [|done]. by intros [= <- <-].
Qed.
Lemma emit_free tk alive t full s s' evs go : constraint s = None -> emit tk alive t full s = Some (s', evs, go) -> constraint s' = None.
Proof.
  intros Hf. unfold emit, consume_token. destruct (bool_decide _); [by intros [= <- <- <-]|]. change (constraint (push_token t s)) with (constraint s).
  rewrite Hf. cbn [negb]. destruct (decode_bytes_special _ _ _) as [bs|]; [|done]. cbn [mbind option_bind].
  destruct (utf8_delta _ _) as [d n]. destruct (negb alive); [by intros [= <- <- <-]|].
  destruct (stopped _ _); [by intros [= <- <- <-]|]. destruct (full && _); by intros [= <- <- <-].
Qed.
Lemma alone_generate n x tk evs o : constraint (ses x) = None -> mask x = [] -> eager_only c (s_model (ses x)) = false ->
  loaded c (s_model (ses x)) = Some tk -> alone n x = Some (evs, o) -> exists s, generate solo_row tk n (ses x) = Some (s, evs).
Proof.
  intros Hf Hmask He Htk. revert x evs Hf Hmask He Htk. induction n as [|n IH]; intros x evs Hf Hmask He Htk.
  { intros [= <- <-]. by exists (ses x). }
  cbn [alone generate]. unfold tick_alone, advance_alone. rewrite He, Htk. cbn [mbind option_bind].
  destruct (advance_sample_emit tk true (ses x)) as [[[[s e] g] t]|] eqn:Ha; [|done]. cbn [mbind option_bind].
  assert (Hcase : (g = true /\ is_Some t \/ g = false /\ t = None) /\ constraint s = None).
  { unfold advance_sample_emit in Ha. destruct (_ <=? _); [injection Ha as <- <- <- <-; split; [by right|done]|].
    destruct (next_token (ses x)) as [[s1 r]|] eqn:Hn; [|done]. cbn [mbind option_bind] in Ha. apply next_token_free in Hn; [|done].
    destruct r as [t1|[]]; [|injection Ha as <- <- <- <-; split; [by right|done]].
    destruct (emit tk true t1 true s1) as [[[s2 e2] g2]|] eqn:Hem; [|done]. cbn [mbind option_bind] in Ha. apply emit_free in Hem; [|done].
    injection Ha as <- <- <- <-. split; [|done]. destruct g2; [left|right]; done. }
  apply advance_fields in Ha as [Hm Hc]. destruct Hcase as [[[-> [u ->]]|[-> ->]] Hfs]; cbn [mbind option_bind].
  - unfold stage_alone. cbn [ses with_ses]. rewrite Hfs. cbn [mbind option_bind]. set (x1 := with_ses _ [] _).
    assert (Hr : row (row_request c x1 u) = solo_row s u) by (unfold row_request, solo_row; cbn; by rewrite Hfs). rewrite Hr.
    destruct (alone n (fed_alone x1 u (solo_row s u))) as [[es o']|] eqn:Hal; [|done]. cbn [mbind option_bind]. intros [= <- ->].
    destruct (IH (fed_alone x1 u (solo_row s u)) es) as [s' Hs']; [done|done|cbn; by rewrite Hm|cbn; by rewrite Hm|exact Hal|].
    exists s'. change (ses (fed_alone x1 u (solo_row s u))) with (feed u (solo_row s u) s) in Hs'. by rewrite Hs'.
  - intros [= <- <-]. by exists s.
Qed.
End Spec.

(** C31. A session that is being decoded is isolated from the rest of the worker.
    Whatever the other sessions do while it is served, however the lanes order
    them and the chunks group them, and whichever engine calls fail, after [n]
    ticks it has been sent exactly the events it produces alone in [n] ticks, and
    it is still there to go on or it is over and retired; or the engine failed
    under it, and it has been sent its events up to there and one error.  The tick
    never panics, so it is never the others that stop it.  Alone, an unconstrained
    session is the loop of [Stream.generate]. *)
Theorem batch_isolated `{SortDesc, F32Exp, GrammarMask, Engine} (c : Config) (row : BRow -> Row)
    (row1 : str -> list Z -> Z -> list spec_float) (w : Worker) (x : Slot) (n : nat) (w' : Worker) :
  serving c row row1 -> good c w -> x ∈ active w -> decodable x = true -> served c (sid x) n w w' ->
  isolated c row row1 n x w w'
  /\ (forall closed alive, is_Some (tick c closed alive w'))
  /\ (forall tk evs o, constraint (ses x) = None -> mask x = [] -> eager_only c (s_model (ses x)) = false ->
      loaded c (s_model (ses x)) = Some tk -> alone c row row1 n x = Some (evs, o) ->
      exists s, generate (solo_row c row) tk n (ses x) = Some (s, evs)).
Proof.
  intros Hv Hg Hx Hd Hrun. destruct (served_isolated c row row1 Hv x n w w' Hg Hx Hd Hrun) as [Hg' Hiso]. split; [done|]. split.
  - intros closed alive. by destruct (tick_spec c row row1 Hv closed alive w' Hg') as (w2 & -> & _).
  - intros tk evs o. apply alone_generate.
Qed.

(** ** A concrete worker *)
Module BatchWitness.
Import SamplingWitness StreamWitness.
#[export] Instance no_mask : GrammarMask := {| compute_mask g := (g, None) |}.
Definition toy_row (r : BRow) : Row := ([], Some (b_tok r + 1)%Z).
Definition toy_row1 (m : str) (f : list Z) (t : Z) : list spec_float := [f32_zero].
(** The engine fails its third batched step. *)
#[export] Instance toy_engine : Engine := {|
  estate := nat;
  decode_step e m f t := (e, Some (toy_row1 m f t));
  decode_step_batch e reqs := (S e, if e =? 2 then None else Some (toy_row <$> reqs));
  upload_mask e ws := (e, true);
  dtoh_last e m f := Some [f32_zero];
|}.
Definition toy_config : Config := mkConfig (fun _ => Some toy_tk) ∅ (fun _ => false) true false 1.
Definition toy_slot (i : nat) (l : Lane) (t : Z) : Slot :=
  mkSlot i l [] true true [] (mkSession (lit "m") (sampler_new default_config) [] (Some t) None [5%Z] [] [2%Z] [lit "stop"] 0 5 1 0 (Some (1, 100))).
Definition toy_slots : list Slot := [toy_slot 7 LJudge (-3)%Z; toy_slot 8 LInteractive 0%Z].
Definition toy_worker : Worker := mkWorker toy_slots 0 [] [] ∅.
Definition toy_tick (w : Worker) : Worker := default w (tick toy_config (fun _ => false) (fun _ => true) w).
Lemma toy_serving : serving toy_config toy_row toy_row1.
Proof.
  split; try done.
  - intros m tk ids [= <-]. apply (sr_decode _ _ toy_serves).
  - by intros g l g' r [= _ ->].
  - intros e reqs e' rows _. cbn. destruct (e =? 2); [done|]. by intros [= _ <-].
  - by intros e m f t e' l [= _ <-].
Qed.
(** Session 8 decodes U+00E9 and ends, beside a session the engine fails. *)
Lemma batch_isolated_witness :
  isolated toy_config toy_row toy_row1 3 (toy_slot 8 LInteractive 0%Z) toy_worker (toy_tick (toy_tick (toy_tick toy_worker)))
  /\ events_of 8 (toy_tick (toy_tick (toy_tick toy_worker))) = [EvToken 0 []; EvToken 1 [233%Z]; EvDone Eos 3 1 0]
  /\ events_of 7 (toy_tick (toy_tick (toy_tick toy_worker))) = [EvToken (-3) []; EvToken (-2) []; EvToken (-1) []; EvError EBatch].
Proof.
  split; [|vm_compute; by split].
  apply (batch_isolated toy_config toy_row toy_row1 toy_worker (toy_slot 8 LInteractive 0%Z) 3); [apply toy_serving| |cbn; set_solver|done|].
  - split; [by apply (bool_decide_unpack _); vm_compute|]. intros x Hx _.
    assert (Hx' : x = toy_slot 7 LJudge (-3)%Z \/ x = toy_slot 8 LInteractive 0%Z) by (cbn in Hx; set_solver).
    by destruct Hx' as [->| ->].
  - assert (Hstep : forall w, tick toy_config (fun _ => false) (fun _ => true) w <> None ->
        tick toy_config (fun _ => false) (fun _ => true) w = Some (toy_tick w)).
    { intros w Hw. unfold toy_tick. by destruct (tick _ _ _ w). }
    assert (Hne : forall w, match tick toy_config (fun _ => false) (fun _ => true) w with Some _ => true | None => false end = true ->
        tick toy_config (fun _ => false) (fun _ => true) w <> None) by (intros w Hw Hn; by rewrite Hn in Hw).
    repeat (eapply served_tick; [|apply Hstep, Hne; vm_compute; reflexivity|done|done]). apply served_start.
Defined.

(** A session whose step the engine failed is retired like any other: its cache,
    which the failed step may have left half advanced, is parked for reuse. *)
Definition long_slot : Slot :=
  mkSlot 9 LInteractive [] true true [] (mkSession (lit "m") (sampler_new default_config) [] (Some 0%Z) None
    (Z.of_nat <$> seq 0 16) [] [] [] 0 5 1 0 (Some (16, 100))).
Lemma failed_session_parked : exists w', tick toy_config (fun _ => false) (fun _ => true) (mkWorker [long_slot] 2 [] [] ∅) = Some w'
  /\ events_of 9 w' = [EvToken 0 []; EvError EBatch]
  /\ reuse w' !! (lit "m", []) = Some [mkReuse (Z.of_nat <$> seq 0 16) (16, 100) [f32_zero] 100].
Proof. eexists. split; [vm_compute; reflexivity|]. by vm_compute. Qed.
End BatchWitness.
