(* ===== verification/Admission.v ===== *)
(** Admission of a request at the HTTP layer: [memra-server/src/main.rs]
    ([InflightGuard], [RateLimit], [lane_for_tenant], [tenant_namespace]).

    Handlers run concurrently.  Each is a [Handler] with a program counter; a
    step is one of its atomic actions: the section under the tenant mutex or the
    atomic addition on the lane counter.  A schedule is the list of handlers in
    the order they step. *)
From S2P Require Import Prelude RustStr Utf8 Auth Lanes.
Local Open Scope Z_scope.

(** ** Lanes and namespaces of a tenant *)

Inductive Refusal := RInvalidLane (v : str) | RLaneForbidden.
(** [header]: the [x-lane] header, if there is one; a value that is not text
    reads as a question mark. *)
Definition lane_for_tenant (header : option str) (t : TenantCtx) : outcome Refusal Lane :=
  requested ← match header with
              | None => Ok None
              | Some v => l ← ok_or (lane_parse v) (RInvalidLane v); Ok (Some l)
              end;
  match c_lane_class t, requested with
  | Interactive, r => Ok (default LInteractive r)
  | Batch, None => Ok LHarvest
  | Batch, Some LInteractive => Err RLaneForbidden
  | Batch, Some l => Ok l
  end.
Definition tenant_namespace (keyring : bool) (t : TenantCtx) (cache_salt : option str) : str :=
  let raw := default [] cache_salt in if keyring then scope_namespace (c_tenant t) raw else raw.

(** ** Rate limit headers *)

Record RateLimit := mkRate { limit : Z; remaining : Z; reset_s : Z }.
(** [estimate]: what [reset_estimate_s] makes of the metrics. *)
Definition compute (limit n_inflight estimate : Z) : RateLimit :=
  let remaining := sat_sub limit n_inflight in mkRate limit remaining (if 0 <? remaining then 0 else estimate).
(** [tenant.rate_limit.filter(|t| t < global)] *)
Definition narrower (global : Z) (t : TenantCtx) : option Z :=
  match c_rate_limit t with Some r => if r <? global then Some r else None | None => None end.
Definition at_admit (global n_inflight n_tenant estimate : Z) (t : TenantCtx) : RateLimit :=
  match narrower global t with
  | None => compute global n_inflight estimate
  | Some r =>
      let headroom := Z.min (sat_sub r n_tenant) (sat_sub global n_inflight) in
      compute r (r - headroom) estimate
  end.

(** ** In-flight slots *)

Inductive Pc :=
  | Arriving                  (* before [try_acquire] *)
  | Counted (nt : Z)          (* the tenant gauge is taken, the lane's is not *)
  | Holding (n nt : Z)        (* the guard is held *)
  | Dropping                  (* the lane's is given back, the tenant's is not *)
  | Refused (n : Z)
  | Finished.
Record Handler := mkHandler { h_lane : Lane; h_tenant : str; h_cap : option Z; h_pc : Pc }.
Definition at_pc (h : Handler) (pc : Pc) : Handler := mkHandler (h_lane h) (h_tenant h) (h_cap h) pc.
Record Gauges := mkGauges { counts : list Z; tenants : gmap str Z }.
(** [try_acquire], up to the end of the locked section. *)
Definition acquire_locked (h : Handler) (g : Gauges) : Gauges * Pc :=
  let e := default 0 (tenants g !! h_tenant h) in
  if match h_cap h with Some cap => cap <=? e | None => false end
  then (mkGauges (counts g) (<[h_tenant h := e]> (tenants g)), Refused e)
  else (mkGauges (counts g) (<[h_tenant h := wrap 64 (e + 1)]> (tenants g)), Counted (wrap 64 (e + 1))).
Definition bump (d : Z) (i : nat) (l : list Z) : list Z := alter (fun x => wrap 64 (x + d)) i l.
(** [drop], its locked section: a subtraction below zero panics. *)
Definition release_locked (h : Handler) (g : Gauges) : option Gauges :=
  match tenants g !! h_tenant h with
  | None => Some g
  | Some e =>
      if e <=? 0 then None
      else Some (mkGauges (counts g)
        (if e - 1 =? 0 then delete (h_tenant h) (tenants g) else <[h_tenant h := e - 1]> (tenants g)))
  end.
(** One atomic action of a handler. *)
Definition act (h : Handler) (g : Gauges) : option (Gauges * Handler) :=
  let i := lane_idx (h_lane h) in
  match h_pc h with
  | Arriving => let r := acquire_locked h g in Some (r.1, at_pc h r.2)
  | Counted nt =>
      Some (mkGauges (bump 1 i (counts g)) (tenants g), at_pc h (Holding (wrap 64 (default 0 (counts g !! i) + 1)) nt))
  | Holding _ _ => Some (mkGauges (bump (-1) i (counts g)) (tenants g), at_pc h Dropping)
  | Dropping => g ← release_locked h g; Some (g, at_pc h Finished)
  | Refused _ | Finished => Some (g, h)
  end.
Definition Sys : Type := Gauges * list Handler.
Definition sys_step (s : Sys) (k : nat) : option Sys :=
  match s.2 !! k with
  | None => Some s
  | Some h => '(g, h) ← act h s.1; Some (g, <[k := h]> s.2)
  end.
Fixpoint run_sys (s : Sys) (schedule : list nat) : option Sys :=
  match schedule with [] => Some s | k :: ks => s ← sys_step s k; run_sys s ks end.
Definition gauges0 : Gauges := mkGauges [0; 0; 0] ∅.

(** ** The invariant *)

(** The handlers that hold the tenant's gauge, and the lane's. *)
Definition has_tenant (pc : Pc) : bool := match pc with Counted _ | Holding _ _ | Dropping => true | _ => false end.
Definition has_lane (pc : Pc) : bool := match pc with Holding _ _ => true | _ => false end.
Definition in_tenant (t : str) (h : Handler) : bool := str_eqb (h_tenant h) t && has_tenant (h_pc h).
Definition in_lane (i : nat) (h : Handler) : bool := (lane_idx (h_lane h) =? i)%nat && has_lane (h_pc h).
Definition how_many (p : Handler -> bool) (hs : list Handler) : Z := Z.of_nat (length (filter (fun h => p h = true) hs)).
Record gauges_ok (s : Sys) : Prop := {
  go_lanes : length (counts s.1) = 3%nat;
  go_counts i : (i < 3)%nat -> counts s.1 !! i = Some (how_many (in_lane i) s.2);
  (** the map has exactly the tenants with a request in flight *)
  go_tenants t : tenants s.1 !! t = if how_many (in_tenant t) s.2 =? 0 then None else Some (how_many (in_tenant t) s.2);
}.
Lemma how_many_insert p hs k h h' :
  hs !! k = Some h ->
  how_many p (<[k := h']> hs) = how_many p hs - (if p h then 1 else 0) + (if p h' then 1 else 0).
Proof.
  intros Hk. unfold how_many. rewrite (insert_take_drop hs k h') by by eapply lookup_lt_Some.
  rewrite <-(take_drop_middle hs k h Hk) at 3. rewrite !filter_app, !filter_cons, !length_app.
  destruct (p h), (p h'); repeat (rewrite decide_True by done || rewrite decide_False by done); simpl; lia.
Qed.
Lemma how_many_nonneg p hs : 0 <= how_many p hs <= Z.of_nat (length hs).
Proof.
  unfold how_many. split; [lia|]. apply inj_le. induction hs as [|h hs IH]; [done|]. rewrite filter_cons.
  destruct (decide _); simpl; lia.
Qed.
Lemma how_many_pos p hs k h : hs !! k = Some h -> p h = true -> 1 <= how_many p hs.
Proof.
  intros Hk Hp. unfold how_many. assert (Hin : h ∈ filter (fun h => p h = true) hs).
  { apply list_elem_of_filter. split; [done|]. by eapply list_elem_of_lookup_2. }
  destruct (filter _ hs); [by apply not_elem_of_nil in Hin|]. simpl. lia.
Qed.

(** [act] changes only the program counter. *)
Lemma act_same h g g' h' : act h g = Some (g', h') ->
  h_tenant h' = h_tenant h /\ h_lane h' = h_lane h /\ h_cap h' = h_cap h.
Proof.
  unfold act. destruct (h_pc h); try (intros [= <- <-]; done).
  destruct (release_locked h g); [|done]. by intros [= <- <-].
Qed.
Lemma str_eqb_eq a b : str_eqb a b = true <-> a = b.
Proof. unfold str_eqb. apply bool_decide_eq_true. Qed.
Lemma lane_idx_lt l : (lane_idx l < 3)%nat.
Proof. destruct l; simpl; lia. Qed.

Definition cap_positive (h : Handler) : Prop := forall c, h_cap h = Some c -> 0 < c.
Record sys_ok (s : Sys) : Prop := {
  so_gauges : gauges_ok s;
  so_caps : Forall cap_positive s.2;
  so_small : Z.of_nat (length s.2) < 2 ^ 64;
  (** a tenant whose requests share a cap never has more in flight *)
  so_bound t c : (forall h, h ∈ s.2 -> h_tenant h = t -> h_cap h = Some c) -> 0 <= c -> how_many (in_tenant t) s.2 <= c;
}.

Section Step.
Context (g : Gauges) (hs : list Handler) (k : nat) (h : Handler).
Context (Hok : sys_ok (g, hs)) (Hk : hs !! k = Some h).
Abbreviation nt t := (how_many (in_tenant t) hs).
Abbreviation hs' pc := (<[k := at_pc h pc]> hs).
(** How a step to [pc] changes the numbers in flight. *)
Definition tenant_change (pc : Pc) : Z := Z.b2z (has_tenant pc) - Z.b2z (has_tenant (h_pc h)).
Definition lane_change (pc : Pc) : Z := Z.b2z (has_lane pc) - Z.b2z (has_lane (h_pc h)).

Lemma gauge_of t : default 0 (tenants g !! t) = nt t.
Proof. rewrite (go_tenants _ (so_gauges _ Hok)). cbn [fst snd]. destruct (Z.eqb_spec (nt t) 0) as [->|]; done. Qed.
Lemma tenant_step pc t :
  how_many (in_tenant t) (hs' pc) = nt t + (if str_eqb (h_tenant h) t then tenant_change pc else 0).
Proof.
  rewrite (how_many_insert _ _ _ _ _ Hk). unfold in_tenant at 2 3, tenant_change. cbn [at_pc h_tenant h_pc].
  destruct (str_eqb (h_tenant h) t), (has_tenant pc), (has_tenant (h_pc h)); simpl; lia.
Qed.
Lemma lane_step pc i :
  how_many (in_lane i) (hs' pc) =
  how_many (in_lane i) hs + (if (lane_idx (h_lane h) =? i)%nat then lane_change pc else 0).
Proof.
  rewrite (how_many_insert _ _ _ _ _ Hk). unfold in_lane at 2 3, lane_change. cbn [at_pc h_lane h_pc].
  destruct (_ =? _)%nat, (has_lane pc), (has_lane (h_pc h)); simpl; lia.
Qed.
(** A step that changes the gauges as the numbers in flight keeps them right. *)
Lemma step_gauges pc m l :
  l = (if lane_change pc =? 0 then counts g else bump (lane_change pc) (lane_idx (h_lane h)) (counts g)) ->
  (forall t, t <> h_tenant h -> m !! t = tenants g !! t) ->
  m !! h_tenant h = (let n := nt (h_tenant h) + tenant_change pc in if n =? 0 then None else Some n) ->
  gauges_ok (mkGauges l m, hs' pc).
Proof.
  intros -> Hm Hmt. destruct (so_gauges _ Hok) as [Hlen Hc Hg]. cbn [fst snd] in *. split; cbn [fst snd counts tenants].
  - destruct (lane_change pc =? 0); [done|]. unfold bump. by rewrite length_alter.
  - intros i Hlt. pose proof (lane_step pc i) as Hi. destruct (Z.eqb_spec (lane_change pc) 0) as [Hz|Hd].
    + rewrite Hc, Hi, Hz by done. f_equal. destruct (_ =? _)%nat; lia.
    + unfold bump. destruct (Nat.eqb_spec (lane_idx (h_lane h)) i) as [Heq|Hne].
      * rewrite Heq, list_lookup_alter_eq, Hc, Hi by done. cbn. f_equal. apply wrap_small. unfold in_u. rewrite <-Hi.
        pose proof (how_many_nonneg (in_lane i) (hs' pc)) as Hb. rewrite length_insert in Hb.
        pose proof (so_small _ Hok) as Hs. cbn [snd] in Hs. lia.
      * rewrite list_lookup_alter_ne, Hc, Hi by done. f_equal. lia.
  - intros t. rewrite tenant_step. destruct (decide (t = h_tenant h)) as [->|Hne].
    + by rewrite Hmt, (proj2 (str_eqb_eq _ _) eq_refl).
    + rewrite Hm, Hg by done. destruct (str_eqb (h_tenant h) t) eqn:E; [by apply str_eqb_eq in E|]. by rewrite Z.add_0_r.
Qed.
Lemma elem_insert_pc pc x : x ∈ hs -> exists x', x' ∈ hs' pc /\ h_tenant x' = h_tenant x /\ h_cap x' = h_cap x.
Proof.
  intros (j & Hj)%list_elem_of_lookup. destruct (decide (j = k)) as [->|Hne].
  - exists (at_pc h pc). split; [|by simplify_eq]. apply list_elem_of_lookup. exists k.
    apply list_lookup_insert_eq. by eapply lookup_lt_Some.
  - exists x. split; [|done]. apply list_elem_of_lookup. exists j. by rewrite list_lookup_insert_ne.
Qed.
(** So does the whole invariant, when a slot is taken only below the cap. *)
Lemma step_ok pc g' :
  gauges_ok (g', hs' pc) -> (tenant_change pc <= 0 \/ forall c, h_cap h = Some c -> nt (h_tenant h) + tenant_change pc <= c) ->
  sys_ok (g', hs' pc).
Proof.
  intros Hg Hcap. split; cbn [fst snd]; [done|..].
  - apply Forall_insert; [apply Hok|]. exact (proj1 (Forall_lookup _ _) (so_caps _ Hok) k h Hk).
  - rewrite length_insert. apply Hok.
  - intros t c Ht Hc0. assert (Hold : forall x, x ∈ hs -> h_tenant x = t -> h_cap x = Some c).
    { intros x Hx Hxt. destruct (elem_insert_pc pc x Hx) as (x' & Hx' & Hten & Hc). rewrite <-Hc. apply Ht; congruence. }
    pose proof (so_bound _ Hok t c Hold Hc0) as Hb. cbn [snd] in Hb. rewrite tenant_step.
    destruct (str_eqb (h_tenant h) t) eqn:E; [|lia]. apply str_eqb_eq in E as <-. destruct Hcap as [|Hcap]; [lia|].
    apply Hcap, Hold; [by eapply list_elem_of_lookup_2|done].
Qed.
(** A handler that holds no gauge leaves room, so nothing wraps. *)
Lemma count_room : has_tenant (h_pc h) = false -> 0 <= nt (h_tenant h) /\ nt (h_tenant h) + 1 <= Z.of_nat (length hs).
Proof.
  intros Hpc. pose proof (how_many_nonneg (in_tenant (h_tenant h)) (hs' Dropping)) as Hb.
  rewrite tenant_step, (proj2 (str_eqb_eq _ _) eq_refl), length_insert in Hb. unfold tenant_change in Hb. rewrite Hpc in Hb.
  pose proof (how_many_nonneg (in_tenant (h_tenant h)) hs). simpl in Hb. lia.
Qed.
Lemma act_ok :
  exists g' h', act h g = Some (g', h') /\ sys_ok (g', <[k := h']> hs) /\
    (forall n, h_pc h' = Refused n -> h_pc h = Refused n \/ exists cap, h_cap h = Some cap /\ cap <= n /\ n = nt (h_tenant h)).
Proof.
  pose proof (so_small _ Hok) as Hsm. cbn [snd] in Hsm. pose proof (go_tenants _ (so_gauges _ Hok) (h_tenant h)) as Hgt. cbn [fst snd] in Hgt.
  unfold act. destruct (h_pc h) as [|nt0|n nt0| |n|] eqn:Hpc.
  - pose proof count_room as Hroom. rewrite Hpc in Hroom. specialize (Hroom eq_refl).
    unfold acquire_locked. rewrite gauge_of.
    destruct (match h_cap h with Some cap => _ | None => _ end) eqn:Hfull; cbn [fst snd]; eexists _, _; (split; [done|]).
    + destruct (h_cap h) as [cap|] eqn:Hcap; [|done]. apply Z.leb_le in Hfull.
      pose proof (proj1 (Forall_lookup _ _) (so_caps _ Hok) k h Hk cap Hcap) as Hpos.
      split; [|intros n [= <-]; right; by exists cap]. apply step_ok; [|left; unfold tenant_change; by rewrite Hpc].
      apply step_gauges; unfold lane_change, tenant_change; rewrite ?Hpc; [done|intros; by rewrite lookup_insert_ne by congruence|].
      rewrite lookup_insert_eq. simpl. rewrite (proj2 (Z.eqb_neq _ _)) by lia. f_equal. lia.
    + rewrite wrap_small by (unfold in_u; lia). split; [|done]. apply step_ok.
      * apply step_gauges; unfold lane_change, tenant_change; rewrite ?Hpc; [done|intros; by rewrite lookup_insert_ne by congruence|].
        rewrite lookup_insert_eq. simpl. by rewrite (proj2 (Z.eqb_neq _ _)) by lia.
      * right. intros c Hc. rewrite Hc in Hfull. apply Z.leb_gt in Hfull. unfold tenant_change. rewrite Hpc. simpl. lia.
  - eexists _, _. split; [done|]. split; [|done]. apply step_ok; [|left; unfold tenant_change; by rewrite Hpc].
    apply step_gauges; unfold lane_change, tenant_change; rewrite ?Hpc; [done|done|]. simpl. rewrite Z.add_0_r. exact Hgt.
  - eexists _, _. split; [done|]. split; [|done]. apply step_ok; [|left; unfold tenant_change; by rewrite Hpc].
    apply step_gauges; unfold lane_change, tenant_change; rewrite ?Hpc; [done|done|]. simpl. rewrite Z.add_0_r. exact Hgt.
  - assert (Hpos : 1 <= nt (h_tenant h)).
    { apply (how_many_pos _ _ k h Hk). unfold in_tenant. rewrite Hpc. by rewrite (proj2 (str_eqb_eq _ _) eq_refl). }
    rewrite (proj2 (Z.eqb_neq _ _)) in Hgt by lia. unfold release_locked. rewrite Hgt, (proj2 (Z.leb_gt _ _)) by lia.
    cbn [mbind option_bind]. eexists _, _. split; [done|]. split; [|done].
    apply step_ok; [|left; unfold tenant_change; rewrite Hpc; done].
    apply step_gauges; unfold lane_change, tenant_change; rewrite ?Hpc; [done|..]; simpl.
    + intros t Hne. destruct (nt (h_tenant h) - 1 =? 0); [by rewrite lookup_delete_ne by congruence|by rewrite lookup_insert_ne by congruence].
    + replace (nt (h_tenant h) + (0 - 1)) with (nt (h_tenant h) - 1) by lia.
      destruct (nt (h_tenant h) - 1 =? 0); [apply lookup_delete_eq|apply lookup_insert_eq].
  - eexists _, _. split; [done|]. rewrite list_insert_id by done. split; [done|]. rewrite Hpc. auto.
  - eexists _, _. split; [done|]. rewrite list_insert_id by done. split; [done|]. by rewrite Hpc.
Qed.
End Step.

(** ** Schedules *)

Lemma sys_step_ok s k : sys_ok s -> exists s', sys_step s k = Some s' /\ sys_ok s'.
Proof.
  intros Hok. unfold sys_step. destruct (s.2 !! k) as [h|] eqn:Hk; [|by exists s]. destruct s as [g hs]. cbn [fst snd] in *.
  destruct (act_ok g hs k h Hok Hk) as (g' & h' & -> & Hok' & _). by eexists.
Qed.
Lemma run_sys_ok s schedule : sys_ok s -> exists s', run_sys s schedule = Some s' /\ sys_ok s'.
Proof.
  revert s. induction schedule as [|k ks IH]; intros s Hok; cbn [run_sys]; [by exists s|].
  destruct (sys_step_ok s k Hok) as (s1 & -> & Hok1). by apply IH.
Qed.
(** The steps a handler still has to make. *)
Definition left_to_do (pc : Pc) : nat :=
  match pc with Arriving => 4 | Counted _ => 3 | Holding _ _ => 2 | Dropping => 1 | Refused _ | Finished => 0 end.
Definition todo (s : Sys) (k : nat) : nat := match s.2 !! k with Some h => left_to_do (h_pc h) | None => 0 end.
Lemma act_progress h g g' h' : act h g = Some (g', h') -> (left_to_do (h_pc h') <= left_to_do (h_pc h) - 1)%nat.
Proof.
  unfold act, acquire_locked. destruct (h_pc h) eqn:Hpc; try (intros [= <- <-]; simpl; rewrite ?Hpc; simpl; lia).
  - intros [= <- <-]. destruct (match h_cap h with Some _ => _ | None => _ end); simpl; lia.
  - destruct (release_locked h g); [|done]. intros [= <- <-]. simpl. lia.
Qed.
Lemma sys_step_todo s s' k j : sys_step s k = Some s' ->
  (todo s' j <= todo s j - (if decide (j = k) then 1 else 0))%nat.
Proof.
  unfold sys_step, todo. destruct (s.2 !! k) as [h|] eqn:Hk.
  - destruct (act h s.1) as [[g' h']|] eqn:Ha; [|done]. intros [= <-]. cbn [snd]. destruct (decide (j = k)) as [->|].
    + rewrite list_lookup_insert_eq by (by eapply lookup_lt_Some). rewrite Hk. by eapply act_progress.
    + rewrite list_lookup_insert_ne by congruence. lia.
  - intros [= <-]. destruct (decide (j = k)) as [->|]; [rewrite Hk|]; lia.
Qed.
Lemma run_sys_todo s s' schedule j : run_sys s schedule = Some s' ->
  (todo s' j <= todo s j - length (filter (fun k => k = j) schedule))%nat.
Proof.
  revert s. induction schedule as [|k ks IH]; intros s H; cbn [run_sys] in H; [injection H as <-; simpl; lia|].
  destruct (sys_step s k) as [s1|] eqn:Hs; [|done]. specialize (IH s1 H). pose proof (sys_step_todo _ _ _ j Hs) as Ht.
  rewrite filter_cons. destruct (decide (k = j)) as [->|]; destruct (decide (j = _)); simpl in *; lia || congruence.
Qed.
Lemma sys0_ok hs : Forall (fun h => h_pc h = Arriving) hs -> Forall cap_positive hs -> Z.of_nat (length hs) < 2 ^ 64 ->
  sys_ok (gauges0, hs).
Proof.
  intros Hpc Hcap Hn.
  assert (Hzero : forall p, (forall h, h_pc h = Arriving -> p h = false) -> how_many p hs = 0).
  { intros p Hp. unfold how_many. destruct (filter _ hs) as [|h l] eqn:E; [done|].
    assert (Hin : h ∈ filter (fun h => p h = true) hs) by (rewrite E; left). apply list_elem_of_filter in Hin as [Ht Hin].
    rewrite (Hp h) in Ht; [done|]. exact (proj1 (Forall_forall _ _) Hpc h Hin). }
  assert (Ht : forall t, how_many (in_tenant t) hs = 0).
  { intros t. apply Hzero. intros h Hh. unfold in_tenant. rewrite Hh. apply andb_false_r. }
  split; [|done|done|intros; cbn [snd]; rewrite Ht; lia]. split; cbn [fst snd]; [done|..].
  - intros i Hi. rewrite Hzero by (intros h Hh; unfold in_lane; rewrite Hh; apply andb_false_r).
    by destruct i as [|[|[|]]]; [..|lia].
  - intros t. rewrite Ht. apply lookup_empty.
Qed.

(** C21. However the handlers of a server interleave, no slot is lost or invented:
    nothing panics or wraps, the lane counters and the tenant gauge are the
    numbers of requests in flight (a tenant with none has no entry), and a tenant
    whose key carries a cap never exceeds it. *)
Theorem inflight_exact (hs : list Handler) (schedule : list nat) :
  Forall (fun h => h_pc h = Arriving) hs -> Forall cap_positive hs -> Z.of_nat (length hs) < 2 ^ 64 ->
  exists s, run_sys (gauges0, hs) schedule = Some s /\ gauges_ok s /\
    forall t c, (forall h, h ∈ s.2 -> h_tenant h = t -> h_cap h = Some c) -> 0 <= c -> how_many (in_tenant t) s.2 <= c.
Proof.
  intros H1 H2 H3. destruct (run_sys_ok _ schedule (sys0_ok hs H1 H2 H3)) as (s & Hs & Hok).
  exists s. split; [done|]. split; [apply Hok|apply Hok].
Qed.

(** C22. The drain ends: once every handler has had its four turns, in any order
    and with any others between, all are finished or refused, every counter is
    back at zero and the tenant map is empty. *)
Theorem inflight_drains (hs : list Handler) (schedule : list nat) :
  Forall (fun h => h_pc h = Arriving) hs -> Forall cap_positive hs -> Z.of_nat (length hs) < 2 ^ 64 ->
  (forall k, (k < length hs)%nat -> (4 <= length (filter (fun j => j = k) schedule))%nat) ->
  exists s, run_sys (gauges0, hs) schedule = Some s /\ s.1 = gauges0 /\
    Forall (fun h => h_pc h = Finished \/ exists n, h_pc h = Refused n) s.2.
Proof.
  intros H1 H2 H3 Hturns. destruct (run_sys_ok _ schedule (sys0_ok hs H1 H2 H3)) as (s & Hs & Hok).
  assert (Hdone : Forall (fun h => h_pc h = Finished \/ exists n, h_pc h = Refused n) s.2).
  { apply Forall_lookup. intros k h Hk. pose proof (run_sys_todo _ _ _ k Hs) as Ht. unfold todo in Ht. rewrite Hk in Ht. cbn [snd] in Ht.
    assert (Hinit : (left_to_do (h_pc h) = 0)%nat).
    { destruct (hs !! k) as [h0|] eqn:E; [|lia]. pose proof (Hturns k ltac:(by eapply lookup_lt_Some)).
      assert (left_to_do (h_pc h0) <= 4)%nat by (destruct (h_pc h0); simpl; lia). lia. }
    destruct (h_pc h); try done; [right; by eexists|by left]. }
  assert (Hzero : forall p, (forall h, has_tenant (h_pc h) = false -> p h = false) -> how_many p s.2 = 0).
  { intros p Hp. unfold how_many. destruct (filter _ s.2) as [|h l] eqn:E; [done|].
    assert (Hin : h ∈ filter (fun h => p h = true) s.2) by (rewrite E; left). apply list_elem_of_filter in Hin as [Ht Hin].
    rewrite (Hp h) in Ht; [done|]. by destruct (proj1 (Forall_forall _ _) Hdone h Hin) as [->|[n ->]]. }
  exists s. split; [done|]. split; [|done]. destruct (so_gauges _ Hok) as [Hlen Hc Hg]. destruct s as [[cs ts] hs']. cbn [fst snd counts tenants] in *.
  f_equal.
  - assert (Hi : forall i, (i < 3)%nat -> cs !! i = Some 0).
    { intros i Hi. rewrite Hc by done. f_equal. apply Hzero. intros h Hh. unfold in_lane. destruct (h_pc h); try done; apply andb_false_r. }
    destruct cs as [|a [|b [|c [|]]]]; try done. pose proof (Hi 0%nat ltac:(lia)). pose proof (Hi 1%nat ltac:(lia)). pose proof (Hi 2%nat ltac:(lia)).
    by simplify_eq/=.
  - apply map_eq. intros t. rewrite Hg, lookup_empty. rewrite Hzero; [done|]. intros h Hh. unfold in_tenant. rewrite Hh. apply andb_false_r.
Qed.

(** Two requests of a tenant capped at one, and one of another. *)
Definition toy_handlers : list Handler :=
  [mkHandler LInteractive (lit "acme") (Some 1) Arriving; mkHandler LJudge (lit "acme") (Some 1) Arriving;
   mkHandler LInteractive (lit "blue") None Arriving].
Lemma toy_caps : Forall cap_positive toy_handlers.
Proof. repeat constructor; intros c [= <-]; lia. Qed.
Lemma inflight_exact_witness :
  exists s, run_sys (gauges0, toy_handlers) [0; 1; 2; 0; 2]%nat = Some s /\ counts s.1 = [2; 0; 0] /\
    h_pc <$> s.2 = [Holding 1 1; Refused 1; Holding 2 1].
Proof.
  destruct (inflight_exact toy_handlers [0; 1; 2; 0; 2]%nat) as (s & Hs & _); [by repeat constructor|exact toy_caps|simpl; lia|].
  exists s. split; [exact Hs|]. vm_compute in Hs. by injection Hs as <-.
Defined.
Lemma inflight_drains_witness :
  exists s, run_sys (gauges0, toy_handlers) [0; 1; 2; 0; 2; 1; 1; 1; 0; 0; 2; 2]%nat = Some s /\ s.1 = gauges0.
Proof.
  destruct (inflight_drains toy_handlers [0; 1; 2; 0; 2; 1; 1; 1; 0; 0; 2; 2]%nat) as (s & Hs & Hg & _);
    [by repeat constructor|exact toy_caps|simpl; lia| |by exists s].
  intros [|[|[|k]]] Hk; [vm_compute; lia..|simpl in Hk; lia].
Defined.
