(* ===== verification/VHeads.v ===== *)
(** V-head reordering of checkpoint weights: [memra-gguf/src/hf_mapping.rs] and
    the packed permutations of [nvfp4_repack.rs].

    The checkpoint groups V-heads by K-head, the engine tiles them.  The
    reorder is done on binary32 data, on NVFP4 blocks, or on FP8 codes with
    their grid of block scales.  A matrix is the row-major list of its
    elements.  [Err tt] is the source's [None]. *)
From Stdlib Require Import SpecFloat ArithRing.
From S2P Require Import Prelude F32 Slices FpFormats Nvfp4 KvCache.
Local Open Scope nat_scope.

(** ** The reorders *)
Section Loops.
Context {A : Type}.
Implicit Types data out : list A.

(** [for j in 0..nv/nk { for g in 0..nk { body(dst_head, src_head) } }] *)
Definition for_heads (nv nk : nat) (body : nat -> nat -> list A -> option (list A)) out : option (list A) :=
  if nk =? 0 then None
  else for_range (nv / nk) (fun j => for_range nk (fun g => body (j * nk + g) (g * (nv / nk) + j))) out.
Definition reorder_v_axis (zero : A) (block : list A) (nv nk head_dim : nat) : option (list A) :=
  for_heads nv nk (fun dst_head src_head out =>
    s ← slice (src_head * head_dim) head_dim block;
    copy_at (dst_head * head_dim) s out) (replicate (length block) zero).
(** [reorder_rows_v] and [reorder_rows_nvfp4] from the copy of the data on. *)
Definition reorder_rows_loop data (nv nk head_dim w row_lo : nat) : option (list A) :=
  for_heads nv nk (fun dst_head src_head => for_range head_dim (fun d out =>
    let dst_row := row_lo + dst_head * head_dim + d in
    let src_row := row_lo + src_head * head_dim + d in
    s ← slice (src_row * w) w data;
    copy_at (dst_row * w) s out)) data.
Definition reorder_rows_v data (nv nk head_dim in_f row_lo row_hi : nat) : option (list A) :=
  reorder_rows_loop data nv nk head_dim in_f row_lo.
Definition reorder_cols_v data (out_rows in_f nv nk head_dim : nat) : option (list A) :=
  if nk =? 0 then None
  else for_range out_rows (fun r => let base := r * in_f in
    for_heads nv nk (fun dst_head src_head => for_range head_dim (fun d out =>
      v ← data !! (base + src_head * head_dim + d);
      set_at (base + dst_head * head_dim + d) v out))) data.
End Loops.
Definition reorder_rows_nvfp4 (packed : list Z) (out_f row_bytes nv nk head_dim row_lo row_hi : nat) : option (list Z) :=
  if (length packed =? out_f * row_bytes) && (row_lo <=? row_hi) && (row_hi - row_lo =? nv * head_dim)
  then reorder_rows_loop packed nv nk head_dim row_bytes row_lo else None.
Definition reorder_cols_nvfp4 (packed : list Z) (out_f in_f nv nk head_dim : nat) : option (list Z) :=
  let row_bytes := in_f / 64 * 36 in
  if (in_f =? nv * head_dim) && (head_dim mod 64 =? 0) && (length packed =? out_f * row_bytes) && negb (nk =? 0) then
    let head_bytes := head_dim / 64 * 36 in
    for_range out_f (fun r => let base := r * row_bytes in
      for_heads nv nk (fun dst_head src_head out =>
        s ← slice (base + src_head * head_bytes) head_bytes packed;
        copy_at (base + dst_head * head_bytes) s out)) packed
  else None.

(** ** The permutation, and its action on blocks of 128 *)
Definition v_perm (n nv nk head_dim lo hi : nat) : outcome unit (list nat) :=
  if n <? hi then Err tt
  else if hi <? lo then Err tt
  else if negb (hi - lo =? nv * head_dim) then Err tt
  else if nk =? 0 then Panic
  else if negb (nv mod nk =? 0) then Err tt
  else or_panic (for_heads nv nk (fun dst_head src_head => for_range head_dim (fun d p =>
         set_at (lo + dst_head * head_dim + d) (lo + src_head * head_dim + d) p)) (seq 0 n)).
(** A slot still at [usize::MAX] is [None]: no [s >> 7] is that large. *)
Fixpoint block128_from (d : nat) (perm : list nat) (out : list (option nat)) : outcome unit (list (option nat)) :=
  match perm with
  | [] => Ok out
  | s :: perm =>
      slot ← or_panic (out !! (d / 128));
      match slot with
      | None => block128_from (S d) perm (<[d / 128 := Some (s / 128)]> out)
      | Some b => if b =? s / 128 then block128_from (S d) perm out else Err tt
      end
  end.
Definition ceil128 (n : nat) : nat := (n + 127) / 128.
Definition block128_perm (perm : list nat) : outcome unit (list (option nat)) :=
  block128_from 0 perm (replicate (ceil128 (length perm)) None).

(** ** Transforms *)
Inductive TransformKind :=
  | NegExpReorderHeads | ReorderHeads | Identity | NormPlusOne | Conv1dSqueezeReorder
  | QkvVReorderRows | ZReorderRows | AbReorderRows | OutReorderCols.
(** [(nk, nv, hk, hv)] *)
Definition head_params (cfg : ModelConfig) : option (nat * nat * nat * nat) :=
  s ← ssm cfg; Some (group_count s, time_step_rank s, state_size s, state_size s).
Definition f32_le (x : spec_float) : list Z :=
  let b := f32_to_bits x in (fun i => Z.land (Z.shiftr b (8 * Z.of_nat i)) 255) <$> seq 0 4.
Definition f32_to_le (v : list spec_float) : list Z := v ≫= f32_le.

Section Apply.
(** [f32::exp] *)
Context (f32_exp : spec_float -> spec_float).

(** The new [ne] and data; [apply] turns the data into bytes. *)
Definition apply_data (kind : TransformKind) (data : list spec_float) (ne : list nat) (cfg : ModelConfig) :
    option (list nat * list spec_float) :=
  '(nk, nv, hk, hv) ← head_params cfg;
  match kind with
  | Identity => Some (ne, data)
  | NormPlusOne => Some (ne, (fun x => f32_add x f32_one) <$> data)
  | NegExpReorderHeads =>
      out ← reorder_v_axis f32_zero ((fun x => f_neg (f32_exp x)) <$> data) nv nk 1; Some (ne, out)
  | ReorderHeads => out ← reorder_v_axis f32_zero data nv nk 1; Some (ne, out)
  | AbReorderRows =>
      in_f ← ne !! 0; out ← reorder_rows_v data nv nk 1 in_f 0 nv; Some (ne, out)
  | ZReorderRows =>
      in_f ← ne !! 0; total_out ← ne !! 1;
      out ← reorder_rows_v data nv nk hv in_f 0 total_out; Some (ne, out)
  | QkvVReorderRows =>
      in_f ← ne !! 0; conv_dim ← ne !! 1;
      out ← reorder_rows_v data nv nk hv in_f (2 * (nk * hk)) conv_dim; Some (ne, out)
  | Conv1dSqueezeReorder =>
      k ← ne !! 0;
      let c := foldr Nat.mul 1 (drop 1 ne) in
      out ← reorder_rows_v data nv nk hv k (2 * (nk * hk)) c; Some ([k; c], out)
  | OutReorderCols =>
      value_dim ← ne !! 0; hidden ← ne !! 1;
      out ← reorder_cols_v data hidden value_dim nv nk hv; Some (ne, out)
  end.
Definition apply (kind : TransformKind) (data : list spec_float) (ne : list nat) (cfg : ModelConfig) :
    option (list nat * list Z) :=
  '(ne, out) ← apply_data kind data ne cfg; Some (ne, f32_to_le out).
End Apply.

Definition apply_nvfp4 (kind : TransformKind) (packed : list Z) (out_f in_f : nat) (cfg : ModelConfig) :
    outcome unit (list nat * list Z) :=
  '(nk, nv, hk, hv) ← or_panic (head_params cfg);
  let row_bytes := in_f / 64 * 36 in
  let ne := [in_f; out_f] in
  match kind with
  | QkvVReorderRows =>
      out ← or_panic (reorder_rows_nvfp4 packed out_f row_bytes nv nk hv (2 * (nk * hk)) out_f); Ok (ne, out)
  | ZReorderRows => out ← or_panic (reorder_rows_nvfp4 packed out_f row_bytes nv nk hv 0 out_f); Ok (ne, out)
  | AbReorderRows => out ← or_panic (reorder_rows_nvfp4 packed out_f row_bytes nv nk 1 0 out_f); Ok (ne, out)
  | OutReorderCols => out ← or_panic (reorder_cols_nvfp4 packed out_f in_f nv nk hv); Ok (ne, out)
  | _ => Err tt
  end.

(** Rows of a row-major list moved by a list of sources. *)
Definition permute_rows {A : Type} (zero : A) (perm : list nat) (w : nat) (src : list A) (len : nat) : option (list A) :=
  for_range (length perm) (fun d out =>
    s ← perm !! d; r ← slice (s * w) w src; copy_at (d * w) r out) (replicate len zero).
Definition permute_cols {A : Type} (zero : A) (rows : nat) (perm : list nat) (w : nat) (src : list A) : option (list A) :=
  for_range rows (fun o => for_range (length perm) (fun d out =>
    s ← perm !! d; v ← src !! (o * w + s); set_at (o * w + d) v out)) (replicate (length src) zero).
(** The axis a kind permutes ([true]: the rows) and the permutation. *)
Definition kind_perm (kind : TransformKind) (out_f in_f nk nv hk hv : nat) : outcome unit (bool * list nat) :=
  match kind with
  | QkvVReorderRows => p ← v_perm out_f nv nk hv (2 * nk * hk) out_f; Ok (true, p)
  | ZReorderRows => p ← v_perm out_f nv nk hv 0 out_f; Ok (true, p)
  | AbReorderRows => p ← v_perm out_f nv nk 1 0 out_f; Ok (true, p)
  | OutReorderCols => p ← v_perm in_f nv nk hv 0 in_f; Ok (false, p)
  | _ => Err tt
  end.
Definition apply_fp8_blk (kind : TransformKind) (codes : list Z) (out_f in_f : nat) (scales : list spec_float)
    (cols : nat) (cfg : ModelConfig) : outcome unit (list nat * list Z * list spec_float * nat * nat) :=
  '(nk, nv, hk, hv) ← or_panic (head_params cfg);
  if negb (length codes =? out_f * in_f) || negb (cols =? ceil128 in_f) then Err tt
  else
    let rows := ceil128 out_f in
    if negb (length scales =? rows * cols) then Err tt
    else
      let ne := [in_f; out_f] in
      '(row_axis, perm) ← kind_perm kind out_f in_f nk nv hk hv;
      bslots ← block128_perm perm;
      bperm ← or_panic (mapM id bslots);
      if (row_axis : bool) then
        nc ← or_panic (permute_rows 0%Z perm in_f codes (length codes));
        ns ← or_panic (permute_rows f32_zero bperm cols scales (length scales));
        Ok (ne, nc, ns, rows, cols)
      else
        nc ← or_panic (permute_cols 0%Z out_f perm in_f codes);
        ns ← or_panic (permute_cols f32_zero rows bperm cols scales);
        Ok (ne, nc, ns, rows, cols).

(** ** The permutation of an axis *)

(** The source head of a destination head; the source index of an index of the
    axis, whose band starts at [lo]. *)
Definition head_src (nk vpk h : nat) : nat := h mod nk * vpk + h / nk.
Definition vmap (nk vpk hd lo i : nat) : nat :=
  if (lo <=? i) && (i <? lo + vpk * nk * hd) then lo + head_src nk vpk ((i - lo) / hd) * hd + (i - lo) mod hd else i.

Lemma head_src_at nk vpk j g : g < nk -> head_src nk vpk (j * nk + g) = g * vpk + j.
Proof. intros Hg. unfold head_src. by destruct (div_mod_row j nk g Hg) as [-> ->]. Qed.
Lemma head_src_lt nk vpk h : h < vpk * nk -> head_src nk vpk h < vpk * nk.
Proof.
  intros Hh. assert (Hnk : nk <> 0) by (intros ->; lia). unfold head_src.
  assert (h / nk < vpk) by (apply Nat.Div0.div_lt_upper_bound; lia).
  pose proof (Nat.mod_upper_bound h nk Hnk).
  pose proof (Nat.mul_le_mono_r (h mod nk + 1) nk vpk ltac:(lia)). lia.
Qed.
Lemma vmap_at nk vpk hd lo h d : h < vpk * nk -> d < hd ->
  vmap nk vpk hd lo (lo + h * hd + d) = lo + head_src nk vpk h * hd + d.
Proof.
  intros Hh Hd. unfold vmap. pose proof (Nat.mul_le_mono_r (h + 1) (vpk * nk) hd ltac:(lia)).
  rewrite (proj2 (in_interval _ _ _)) by lia.
  replace (lo + h * hd + d - lo) with (h * hd + d) by lia. by destruct (div_mod_row h hd d Hd) as [-> ->].
Qed.
(** An index is outside the band, or in one of its heads. *)
Lemma vmap_cases nk vpk hd lo i :
  (vmap nk vpk hd lo i = i /\ ~ lo <= i < lo + vpk * nk * hd) \/
  exists h d, h < vpk * nk /\ d < hd /\ i = lo + h * hd + d.
Proof.
  unfold vmap. destruct ((lo <=? i) && (i <? lo + vpk * nk * hd)) eqn:E.
  - apply in_interval in E. right. assert (hd <> 0) by (intros ->; lia).
    exists ((i - lo) / hd), ((i - lo) mod hd).
    pose proof (Nat.div_mod (i - lo) hd ltac:(done)). pose proof (Nat.mod_upper_bound (i - lo) hd ltac:(done)).
    split; [apply Nat.Div0.div_lt_upper_bound; lia|]. split; [done|lia].
  - left. split; [done|]. intros H. apply in_interval in H. congruence.
Qed.
Lemma vmap_lt nk vpk hd lo n i : lo + vpk * nk * hd <= n -> i < n -> vmap nk vpk hd lo i < n.
Proof.
  intros Hn Hi. destruct (vmap_cases nk vpk hd lo i) as [[-> _]|(h & d & Hh & Hd & ->)]; [done|].
  rewrite vmap_at by done. pose proof (head_src_lt nk vpk h Hh).
  pose proof (Nat.mul_le_mono_r (head_src nk vpk h + 1) (vpk * nk) hd ltac:(lia)). lia.
Qed.
(** Heads of [u] times as many, smaller elements move the same way. *)
Lemma vmap_scale nk vpk hd lo u i k : k < u ->
  vmap nk vpk (hd * u) (lo * u) (i * u + k) = vmap nk vpk hd lo i * u + k.
Proof.
  intros Hk. destruct (vmap_cases nk vpk hd lo i) as [[-> Hout]|(h & d & Hh & Hd & ->)].
  - unfold vmap. destruct ((_ <=? _) && _) eqn:E; [|done]. apply in_interval in E. exfalso. apply Hout.
    destruct (Nat.lt_ge_cases i lo).
    + pose proof (Nat.mul_le_mono_r (i + 1) lo u ltac:(lia)). lia.
    + split; [done|]. destruct (Nat.lt_ge_cases i (lo + vpk * nk * hd)); [done|].
      pose proof (Nat.mul_le_mono_r (lo + vpk * nk * hd) i u ltac:(lia)). lia.
  - rewrite vmap_at by done.
    replace ((lo + h * hd + d) * u + k) with (lo * u + h * (hd * u) + (d * u + k)) by ring.
    pose proof (Nat.mul_le_mono_r (d + 1) hd u ltac:(lia)). rewrite vmap_at by lia. ring.
Qed.

(** ** What the loops write *)
Section Written.
Context {A : Type} (dflt : A).
Implicit Types data out : list A.

(** Element [p] is the source's element [sigma p]. *)
Definition moved (sigma : nat -> nat) data : list A := (fun p => default dflt (data !! sigma p)) <$> seq 0 (length data).
Lemma moved_lookup sigma data p : p < length data -> sigma p < length data -> moved sigma data !! p = data !! sigma p.
Proof.
  intros Hp Hs. unfold moved. rewrite list_lookup_fmap, lookup_seq_lt by done. cbn.
  by destruct (lookup_lt_is_Some_2 _ _ Hs) as [v ->].
Qed.
Lemma length_moved sigma data : length (moved sigma data) = length data.
Proof. unfold moved. by rewrite length_fmap, length_seq. Qed.

Lemma for_heads_fill N (F : nat -> A) nv nk vpk off w body :
  0 < nk -> nv / nk = vpk -> off + vpk * nk * w <= N ->
  (forall h, h < vpk * nk -> fills N F (fun p => (off + h * w <=? p) && (p <? off + h * w + w)) (body h (head_src nk vpk h))) ->
  fills N F (fun p => (off <=? p) && (p <? off + vpk * (nk * w))) (for_heads nv nk body).
Proof.
  intros Hnk Hv HN Hb. unfold for_heads. rewrite (proj2 (Nat.eqb_neq nk 0)) by lia. rewrite Hv.
  apply fills_chunks; [lia|]. intros j Hj.
  pose proof (Nat.mul_le_mono_r (j + 1) vpk (nk * w) ltac:(lia)).
  apply (fills_chunks N F (off + j * (nk * w)) w nk); [lia|]. intros g Hg.
  pose proof (block_lt vpk nk j g Hj Hg) as Hh. rewrite <- (head_src_at nk vpk j g Hg).
  replace (off + j * (nk * w) + g * w) with (off + (j * nk + g) * w) by ring. by apply Hb.
Qed.
(** A copied range whose sources are consecutive. *)
Lemma fills_move N (F : nat -> A) data src dst n : dst + n <= N -> src + n <= length data ->
  (forall i, i < n -> F (dst + i) = default dflt (data !! (src + i))) ->
  fills N F (fun p => (dst <=? p) && (p <? dst + n)) (fun out => s ← slice src n data; copy_at dst s out).
Proof.
  intros Hd Hs HF. destruct (slice_Some src n data Hs) as (s & E & Hl & Hlk).
  eapply fills_ext; [reflexivity|]. intros out. rewrite E. cbn [mbind option_bind]. revert out.
  apply fills_copy_n; [done..|]. intros i Hi. rewrite Hlk, HF by done.
  by destruct (lookup_lt_is_Some_2 data (src + i)) as [v ->]; [lia|].
Qed.

Definition row_sigma (nk vpk hd lo w p : nat) : nat := vmap nk vpk hd lo (p / w) * w + p mod w.
Definition col_sigma (nk vpk hd w p : nat) : nat := p / w * w + vmap nk vpk hd 0 (p mod w).
Lemma div_mod_id w p : p / w * w + p mod w = p.
Proof. destruct (Nat.eq_dec w 0) as [->|]; [cbn; lia|]. pose proof (Nat.div_mod p w ltac:(done)). lia. Qed.

Lemma reorder_rows_spec data nv nk vpk hd w lo : 0 < nk -> nv / nk = vpk -> (lo + vpk * nk * hd) * w <= length data ->
  reorder_rows_loop data nv nk hd w lo = Some (moved (row_sigma nk vpk hd lo w) data).
Proof.
  intros Hnk Hv Hl. unfold reorder_rows_loop, moved.
  set (F p := default dflt (data !! row_sigma nk vpk hd lo w p)).
  apply (fills_all (length data) F (fun p => (lo * w <=? p) && (p <? lo * w + vpk * (nk * (hd * w))))); [|done|].
  - apply for_heads_fill; [done..|lia|]. intros h Hh.
    pose proof (Nat.mul_le_mono_r (h + 1) (vpk * nk) (hd * w) ltac:(lia)).
    apply (fills_chunks _ F (lo * w + h * (hd * w)) w hd); [lia|]. intros d Hd.
    pose proof (Nat.mul_le_mono_r (d + 1) hd w ltac:(lia)).
    pose proof (head_src_lt nk vpk h Hh).
    pose proof (Nat.mul_le_mono_r (head_src nk vpk h + 1) (vpk * nk) (hd * w) ltac:(lia)).
    replace (lo * w + h * (hd * w) + d * w) with ((lo + h * hd + d) * w) by ring.
    apply fills_move; [lia|lia|]. intros i Hi. unfold F, row_sigma.
    destruct (div_mod_row (lo + h * hd + d) w i Hi) as [-> ->]. by rewrite vmap_at.
  - intros p Hp. destruct ((lo * w <=? p) && (p <? lo * w + vpk * (nk * (hd * w)))) eqn:E; [by left|right].
    assert (Hid : row_sigma nk vpk hd lo w p = p).
    { unfold row_sigma. destruct (Nat.eq_dec w 0) as [->|Hw]; [by rewrite Nat.mul_0_r|].
      destruct (vmap_cases nk vpk hd lo (p / w)) as [[-> _]|(h & d & Hh & Hd & Ep)]; [apply div_mod_id|]. exfalso.
      pose proof (Nat.mul_le_mono_r (h + 1) (vpk * nk) hd ltac:(lia)).
      pose proof (div_mod_id w p) as Hdm. pose proof (Nat.mod_upper_bound p w Hw).
      assert ((lo * w <=? p) && (p <? lo * w + vpk * (nk * (hd * w))) = true); [|congruence].
      apply in_interval. rewrite Ep in Hdm. split; [nia|].
      pose proof (Nat.mul_le_mono_r (lo + h * hd + d + 1) (lo + vpk * nk * hd) w ltac:(lia)). lia. }
    unfold F. rewrite Hid. by destruct (lookup_lt_is_Some_2 _ _ Hp) as [v ->].
Qed.
End Written.

Section Written_cols.
Context {A : Type} (dflt : A).
Implicit Types data out : list A.

(** A loop over rows that moves heads of width [w] inside each row. *)
Lemma row_heads_spec data rows W nv nk vpk w body :
  0 < nk -> nv / nk = vpk -> vpk * nk * w <= W -> length data = rows * W ->
  (forall r h, r < rows -> h < vpk * nk ->
     fills (length data) (fun p => default dflt (data !! col_sigma nk vpk w W p))
       (fun p => (r * W + h * w <=? p) && (p <? r * W + h * w + w)) (body r h (head_src nk vpk h))) ->
  for_range rows (fun r => for_heads nv nk (body r)) data = Some (moved dflt (col_sigma nk vpk w W) data).
Proof.
  intros Hnk Hv Hw Hl Hb. unfold moved. set (F p := default dflt (data !! col_sigma nk vpk w W p)) in *.
  set (dom r p := (r * W <=? p) && (p <? r * W + vpk * (nk * w))).
  apply (fills_all (length data) F (fun p => existsb (fun r => dom r p) (seq 0 rows))); [|done|].
  - apply fills_for. intros r Hr. pose proof (Nat.mul_le_mono_r (r + 1) rows W ltac:(lia)).
    apply for_heads_fill; [done..|lia|]. intros h Hh. by apply Hb.
  - intros p Hp. destruct (existsb _ _) eqn:E; [by left|right].
    assert (Hid : col_sigma nk vpk w W p = p).
    { unfold col_sigma. destruct (vmap_cases nk vpk w 0 (p mod W)) as [[-> _]|(h & d & Hh & Hd & Ep)]; [apply div_mod_id|]. exfalso.
      assert (HW : W <> 0) by (intros ->; lia).
      assert (existsb (fun r => dom r p) (seq 0 rows) = true); [|congruence].
      apply (existsb_seq _ _ (p / W)); [apply Nat.Div0.div_lt_upper_bound; lia|].
      pose proof (div_mod_id W p). pose proof (Nat.mul_le_mono_r (h + 1) (vpk * nk) w ltac:(lia)).
      apply in_interval. lia. }
    unfold F. rewrite Hid. by destruct (lookup_lt_is_Some_2 _ _ Hp) as [v ->].
Qed.
Lemma col_sigma_at nk vpk w W r h i : h < vpk * nk -> i < w -> vpk * nk * w <= W ->
  col_sigma nk vpk w W (r * W + h * w + i) = r * W + head_src nk vpk h * w + i.
Proof.
  intros Hh Hi HW. pose proof (Nat.mul_le_mono_r (h + 1) (vpk * nk) w ltac:(lia)).
  unfold col_sigma. rewrite <- !Nat.add_assoc. destruct (div_mod_row r W (h * w + i) ltac:(lia)) as [-> ->].
  rewrite (vmap_at nk vpk w 0 h i Hh Hi : vmap nk vpk w 0 (h * w + i) = _). lia.
Qed.
Lemma reorder_cols_spec data rows in_f nv nk vpk hd :
  0 < nk -> nv / nk = vpk -> vpk * nk * hd <= in_f -> length data = rows * in_f ->
  reorder_cols_v data rows in_f nv nk hd = Some (moved dflt (col_sigma nk vpk hd in_f) data).
Proof.
  intros Hnk Hv Hw Hl. unfold reorder_cols_v. rewrite (proj2 (Nat.eqb_neq nk 0)) by lia.
  apply row_heads_spec; [done..|]. intros r h Hr Hh.
  pose proof (Nat.mul_le_mono_r (r + 1) rows in_f ltac:(lia)).
  pose proof (Nat.mul_le_mono_r (h + 1) (vpk * nk) hd ltac:(lia)).
  pose proof (head_src_lt nk vpk h Hh). pose proof (Nat.mul_le_mono_r (head_src nk vpk h + 1) (vpk * nk) hd ltac:(lia)).
  eapply fills_ext; [|apply (fills_for _ _ (fun d p => p =? r * in_f + h * hd + d))].
  - intros p _. apply eq_true_iff_eq. rewrite existsb_exists, in_interval. split.
    + intros (d & Hd & E). apply in_seq in Hd. apply Nat.eqb_eq in E. lia.
    + intros Hp. exists (p - (r * in_f + h * hd)). rewrite in_seq, Nat.eqb_eq. lia.
  - intros d Hd. destruct (lookup_lt_is_Some_2 data (r * in_f + head_src nk vpk h * hd + d)) as [v Ev]; [lia|].
    eapply fills_ext; [reflexivity|]. intros out. rewrite Ev. cbn [mbind option_bind]. revert out.
    apply fills_set_eq; [lia|]. by rewrite col_sigma_at, Ev.
Qed.
(** Heads moved as chunks. *)
Lemma chunk_cols_spec data rows W nv nk vpk w :
  0 < nk -> nv / nk = vpk -> vpk * nk * w <= W -> length data = rows * W ->
  for_range rows (fun r => let base := r * W in for_heads nv nk (fun dst_head src_head out =>
    s ← slice (base + src_head * w) w data; copy_at (base + dst_head * w) s out)) data
  = Some (moved dflt (col_sigma nk vpk w W) data).
Proof.
  intros Hnk Hv Hw Hl.
  apply (row_heads_spec data rows W nv nk vpk w (fun r dst_head src_head out =>
    s ← slice (r * W + src_head * w) w data; copy_at (r * W + dst_head * w) s out)); [done..|]. intros r h Hr Hh.
  pose proof (Nat.mul_le_mono_r (r + 1) rows W ltac:(lia)).
  pose proof (Nat.mul_le_mono_r (h + 1) (vpk * nk) w ltac:(lia)).
  pose proof (head_src_lt nk vpk h Hh). pose proof (Nat.mul_le_mono_r (head_src nk vpk h + 1) (vpk * nk) w ltac:(lia)).
  apply (fills_move dflt); [lia|lia|]. intros i Hi. by rewrite col_sigma_at.
Qed.
(** Rows, or columns, moved by an explicit list of sources. *)
Lemma permute_rows_spec data perm w : length data = length perm * w -> Forall (fun s => s < length perm) perm ->
  permute_rows dflt perm w data (length data) = Some (moved dflt (fun p => default 0 (perm !! (p / w)) * w + p mod w) data).
Proof.
  intros Hl Hp. unfold permute_rows, moved. set (F p := default dflt (data !! (default 0 (perm !! (p / w)) * w + p mod w))).
  apply (fills_all (length data) F (fun p => (0 <=? p) && (p <? 0 + length perm * w))); [|by rewrite length_replicate|].
  2:{ intros p Hlt. left. apply in_interval. lia. }
  apply fills_chunks; [lia|]. intros d Hd. cbn [Nat.add].
  destruct (lookup_lt_is_Some_2 perm d Hd) as [s Es]. pose proof (Forall_lookup_1 _ _ _ _ Hp Es) as Hs. cbn in Hs.
  pose proof (Nat.mul_le_mono_r (d + 1) (length perm) w ltac:(lia)).
  pose proof (Nat.mul_le_mono_r (s + 1) (length perm) w ltac:(lia)).
  eapply fills_ext; [reflexivity|]. intros out. rewrite Es. cbn [mbind option_bind]. revert out.
  apply (fills_move dflt); [lia|lia|]. intros i Hi. unfold F.
  destruct (div_mod_row d w i Hi) as [-> ->]. by rewrite Es.
Qed.
Lemma permute_cols_spec data rows perm : length data = rows * length perm -> Forall (fun s => s < length perm) perm ->
  permute_cols dflt rows perm (length perm) data =
    Some (moved dflt (fun p => p / length perm * length perm + default 0 (perm !! (p mod length perm))) data).
Proof.
  intros Hl Hp. unfold permute_cols, moved. set (w := length perm) in *.
  set (F p := default dflt (data !! (p / w * w + default 0 (perm !! (p mod w))))).
  apply (fills_all (length data) F (fun p => (0 <=? p) && (p <? 0 + rows * w))); [|by rewrite length_replicate|].
  2:{ intros p Hlt. left. apply in_interval. lia. }
  apply fills_chunks; [lia|]. intros r Hr. cbn [Nat.add].
  pose proof (Nat.mul_le_mono_r (r + 1) rows w ltac:(lia)).
  eapply fills_ext; [|apply (fills_for _ F (fun d p => p =? r * w + d))].
  - intros p _. apply eq_true_iff_eq. rewrite existsb_exists, in_interval. split.
    + intros (d & Hd & E). apply in_seq in Hd. apply Nat.eqb_eq in E. lia.
    + intros Hp'. exists (p - r * w). rewrite in_seq, Nat.eqb_eq. lia.
  - intros d Hd. destruct (lookup_lt_is_Some_2 perm d Hd) as [s Es]. pose proof (Forall_lookup_1 _ _ _ _ Hp Es) as Hs. cbn in Hs.
    destruct (lookup_lt_is_Some_2 data (r * w + s)) as [v Ev]; [lia|].
    eapply fills_ext; [reflexivity|]. intros out. rewrite Es. cbn [mbind option_bind]. rewrite Ev. cbn [mbind option_bind]. revert out.
    apply fills_set_eq; [lia|]. unfold F. destruct (div_mod_row r w d Hd) as [-> ->]. rewrite Es. cbn [default from_option id]. by rewrite Ev.
Qed.
End Written_cols.

(** ** The explicit permutation *)

Lemma v_perm_loop n nv nk vpk hd lo : 0 < nk -> nv / nk = vpk -> lo + vpk * nk * hd <= n ->
  for_heads nv nk (fun dst_head src_head => for_range hd (fun d p =>
    set_at (lo + dst_head * hd + d) (lo + src_head * hd + d) p)) (seq 0 n) = Some (vmap nk vpk hd lo <$> seq 0 n).
Proof.
  intros Hnk Hv Hn.
  apply (fills_all n (vmap nk vpk hd lo) (fun p => (lo <=? p) && (p <? lo + vpk * (nk * hd)))); [|apply length_seq|].
  - apply for_heads_fill; [done..|]. intros h Hh.
    pose proof (Nat.mul_le_mono_r (h + 1) (vpk * nk) hd ltac:(lia)).
    eapply fills_ext; [|apply (fills_for _ _ (fun d p => p =? lo + h * hd + d))].
    + intros p _. apply eq_true_iff_eq. rewrite existsb_exists, in_interval. split.
      * intros (d & Hd & E). apply in_seq in Hd. apply Nat.eqb_eq in E. lia.
      * intros Hp. exists (p - (lo + h * hd)). rewrite in_seq, Nat.eqb_eq. lia.
    + intros d Hd. apply fills_set_eq; [lia|]. by rewrite vmap_at.
  - intros p Hp. destruct (vmap_cases nk vpk hd lo p) as [[E _]|(h & d & Hh & Hd & ->)].
    + right. by rewrite E, lookup_seq_lt.
    + left. apply in_interval. pose proof (Nat.mul_le_mono_r (h + 1) (vpk * nk) hd ltac:(lia)). lia.
Qed.
Lemma v_perm_spec n nv nk hd lo hi :
  match v_perm n nv nk hd lo hi with
  | Ok p => exists vpk, 0 < nk /\ nv / nk = vpk /\ vpk * nk = nv /\ hi = lo + nv * hd /\ hi <= n /\ p = vmap nk vpk hd lo <$> seq 0 n
  | Err _ => True
  | Panic => nk = 0
  end.
Proof.
  unfold v_perm. destruct (Nat.ltb_spec n hi); [done|]. destruct (Nat.ltb_spec hi lo); [done|].
  destruct (Nat.eqb_spec (hi - lo) (nv * hd)); [|done]. cbn [negb].
  destruct (Nat.eqb_spec nk 0); [done|]. destruct (Nat.eqb_spec (nv mod nk) 0); [|done]. cbn [negb].
  assert (E : nv / nk * nk = nv) by (pose proof (Nat.div_mod nv nk ltac:(done)); lia).
  rewrite (v_perm_loop n nv nk (nv / nk)) by lia. cbn. exists (nv / nk). repeat split; lia.
Qed.
Lemma v_perm_fits n nv nk hd lo hi : 0 < nk -> nv mod nk = 0 -> hi = lo + nv * hd -> hi <= n ->
  v_perm n nv nk hd lo hi = Ok (vmap nk (nv / nk) hd lo <$> seq 0 n).
Proof.
  intros Hnk Hm -> Hn. unfold v_perm. assert (E : nv / nk * nk = nv) by (pose proof (Nat.div_mod nv nk ltac:(lia)); lia).
  rewrite (proj2 (Nat.ltb_ge n _)), (proj2 (Nat.ltb_ge _ lo)) by lia.
  replace (lo + nv * hd - lo) with (nv * hd) by lia. rewrite Nat.eqb_refl. cbn [negb].
  rewrite (proj2 (Nat.eqb_neq nk 0)), Hm by lia. cbn [negb Nat.eqb].
  by rewrite (v_perm_loop n nv nk (nv / nk)) by lia.
Qed.

(** ** The action on blocks *)

Lemma block128_from_spec perm : forall d out done_, length done_ = d ->
  (forall i s, done_ !! i = Some s -> out !! (i / 128) = Some (Some (s / 128))) ->
  (d + length perm + 127) / 128 <= length out ->
  match block128_from d perm out with
  | Ok b => length b = length out /\ forall i s, (done_ ++ perm) !! i = Some s -> b !! (i / 128) = Some (Some (s / 128))
  | Err _ => True
  | Panic => False
  end.
Proof.
  induction perm as [|s perm IH]; intros d out done_ Hd Hdone Hlen; cbn [block128_from].
  - split; [done|]. by rewrite app_nil_r.
  - assert (Hdl : d / 128 < length out).
    { cbn [length] in Hlen. apply (Nat.lt_le_trans _ ((d + S (length perm) + 127) / 128)); [|done].
      apply Nat.div_le_lower_bound; [lia|]. pose proof (Nat.div_mod d 128 ltac:(lia)). lia. }
    destruct (lookup_lt_is_Some_2 out _ Hdl) as [slot Es]. rewrite Es. cbn [or_panic mbind outcome_bind].
    assert (Hsnoc : forall out' : list (option nat), (forall i x, done_ !! i = Some x -> out' !! (i / 128) = Some (Some (x / 128))) ->
      out' !! (d / 128) = Some (Some (s / 128)) ->
      forall i x, (done_ ++ [s]) !! i = Some x -> out' !! (i / 128) = Some (Some (x / 128))).
    { intros out' Ho Hn i x Hi. apply lookup_app_Some in Hi as [Hi|[Hge Hi]]; [by apply Ho|].
      apply list_lookup_singleton_Some in Hi as [Hz <-]. replace i with d by lia. done. }
    assert (Hl' : length (done_ ++ [s]) = S d) by (rewrite length_app; cbn; lia).
    destruct slot as [b|].
    + destruct (Nat.eqb_spec b (s / 128)) as [->|]; [|done].
      specialize (IH (S d) out (done_ ++ [s]) Hl' (Hsnoc out Hdone Es)). rewrite <- app_assoc in IH. apply IH.
      replace (S d + length perm) with (d + S (length perm)) by lia. done.
    + set (out' := <[d / 128 := Some (s / 128)]> out).
      assert (Hlo : length out' = length out) by (unfold out'; by rewrite length_insert).
      specialize (IH (S d) out' (done_ ++ [s]) Hl'). rewrite <- app_assoc, Hlo in IH. apply IH.
      2:{ cbn [length] in Hlen. replace (S d + length perm) with (d + S (length perm)) by lia. done. }
      apply Hsnoc; unfold out'.
      * intros i x Hi. specialize (Hdone i x Hi). rewrite list_lookup_insert_ne; [done|]. intros E. congruence.
      * by rewrite list_lookup_insert_eq.
Qed.
Lemma block128_from_fits (f : nat -> nat) perm : forall d out,
  (forall i s, perm !! i = Some s -> s / 128 = f ((d + i) / 128)) ->
  (forall b x, out !! b = Some (Some x) -> x = f b) -> (d + length perm + 127) / 128 <= length out ->
  is_ok (block128_from d perm out) = true.
Proof.
  induction perm as [|s perm IH]; intros d out Hf Ho Hlen; cbn [block128_from]; [done|].
  assert (Hdl : d / 128 < length out).
  { cbn [length] in Hlen. apply (Nat.lt_le_trans _ ((d + S (length perm) + 127) / 128)); [|done].
    apply Nat.div_le_lower_bound; [lia|]. pose proof (Nat.div_mod d 128 ltac:(lia)). lia. }
  destruct (lookup_lt_is_Some_2 out _ Hdl) as [slot Es]. rewrite Es. cbn [or_panic mbind outcome_bind].
  pose proof (Hf 0 s eq_refl) as Hs. rewrite Nat.add_0_r in Hs.
  assert (Hf' : forall i x, perm !! i = Some x -> x / 128 = f ((S d + i) / 128)).
  { intros i x Hi. replace (S d + i) with (d + S i) by lia. by apply Hf. }
  assert (Hlen' : (S d + length perm + 127) / 128 <= length out) by (by replace (S d + length perm) with (d + S (length perm)) by lia).
  destruct slot as [b|].
  - rewrite (Ho _ _ Es), <- Hs, Nat.eqb_refl. by apply IH.
  - apply IH; [done| |by rewrite length_insert]. intros b x Hb.
    apply list_lookup_insert_Some in Hb as [(<- & [= <-] & _)|[_ Hb]]; [done|by apply Ho].
Qed.
Lemma block128_perm_spec perm :
  match block128_perm perm with
  | Ok b => exists bperm, mapM id b = Some bperm /\ length bperm = ceil128 (length perm) /\
      forall i s, perm !! i = Some s -> bperm !! (i / 128) = Some (s / 128)
  | Err _ => True
  | Panic => False
  end.
Proof.
  unfold block128_perm.
  pose proof (block128_from_spec perm 0 (replicate (ceil128 (length perm)) None) [] eq_refl) as H.
  rewrite length_replicate in H. specialize (H ltac:(done) ltac:(done)).
  destruct (block128_from _ _ _) as [b|e|]; [|done..]. destruct H as [Hl Hb]. cbn [app] in Hb.
  assert (Hall : forall k, k < length b -> exists x, b !! k = Some (Some x)).
  { intros k Hk. assert (k * 128 < length perm).
    { unfold ceil128 in Hl. pose proof (Nat.div_mod (length perm + 127) 128 ltac:(lia)). pose proof (Nat.mod_upper_bound (length perm + 127) 128 ltac:(lia)). lia. }
    destruct (lookup_lt_is_Some_2 perm (k * 128) ltac:(done)) as [s Es]. exists (s / 128).
    rewrite <- (Nat.div_mul k 128) at 1 by lia. by apply Hb. }
  destruct (mapM id b) as [bperm|] eqn:E.
  - apply mapM_Some in E. exists bperm. split; [done|]. pose proof (Forall2_length _ _ _ E) as Hlen.
    split; [lia|]. intros i s Hi. specialize (Hb i s Hi).
    destruct (Forall2_lookup_l _ _ _ _ _ E Hb) as (y & Hy & Hid). cbn [id] in Hid. congruence.
  - exfalso. apply mapM_None in E. apply Exists_exists in E as (x & Hx & Hid).
    apply list_elem_of_lookup in Hx as [k Hk]. destruct (Hall k (lookup_lt_Some _ _ _ Hk)) as [y Ey]. unfold id in Hid. congruence.
Qed.
(** A head of whole blocks, from a block boundary on, moves whole blocks. *)
Lemma vmap_blocks nk vpk hd lo i : hd mod 128 = 0 -> lo mod 128 = 0 ->
  vmap nk vpk hd lo i / 128 = vmap nk vpk (hd / 128) (lo / 128) (i / 128).
Proof.
  intros Hh Hl. pose proof (Nat.div_mod hd 128 ltac:(lia)). pose proof (Nat.div_mod lo 128 ltac:(lia)).
  replace (vmap nk vpk hd lo i) with (vmap nk vpk (hd / 128 * 128) (lo / 128 * 128) (i / 128 * 128 + i mod 128)).
  2:{ rewrite div_mod_id. do 2 f_equal; lia. }
  pose proof (Nat.mod_upper_bound i 128 ltac:(lia)) as Hi. rewrite vmap_scale by done. by apply div_mod_row.
Qed.
Lemma block128_fits n nk vpk hd lo : hd mod 128 = 0 -> lo mod 128 = 0 -> is_ok (block128_perm (vmap nk vpk hd lo <$> seq 0 n)) = true.
Proof.
  intros Hh Hl. apply (block128_from_fits (vmap nk vpk (hd / 128) (lo / 128))).
  - intros i s Hi. apply list_lookup_fmap_Some in Hi as (j & -> & [-> _]%lookup_seq). by apply vmap_blocks.
  - intros b x Hb. by apply lookup_replicate in Hb as [[=] _].
  - by rewrite length_replicate, length_fmap.
Qed.

(** ** FP8 codes with a grid of block scales *)

(** A kind moves the axis [kind_perm] names by the permutation it returns. *)
Lemma kind_perm_spec f32_exp kind out_f in_f cfg nk nv hk hv axis perm :
  head_params cfg = Some (nk, nv, hk, hv) -> kind_perm kind out_f in_f nk nv hk hv = Ok (axis, perm) ->
  exists vpk hd lo, perm = vmap nk vpk hd lo <$> seq 0 (if (axis : bool) then out_f else in_f) /\
    lo + vpk * nk * hd <= (if axis then out_f else in_f) /\ (axis = false -> lo = 0) /\
    forall data, length data = out_f * in_f -> apply_data f32_exp kind data [in_f; out_f] cfg =
      Some ([in_f; out_f], moved f32_zero (if axis then row_sigma nk vpk hd lo in_f else col_sigma nk vpk hd in_f) data).
Proof.
  intros Hp Hk. unfold apply_data. rewrite Hp. cbn [mbind option_bind].
  assert (Hrows : forall hd lo p, v_perm out_f nv nk hd lo out_f = Ok p ->
    exists vpk, p = vmap nk vpk hd lo <$> seq 0 out_f /\ lo + vpk * nk * hd <= out_f /\
      forall data : list spec_float, length data = out_f * in_f ->
      reorder_rows_loop data nv nk hd in_f lo = Some (moved f32_zero (row_sigma nk vpk hd lo in_f) data)).
  { intros hd lo p E. pose proof (v_perm_spec out_f nv nk hd lo out_f) as Hs. rewrite E in Hs.
    destruct Hs as (vpk & Hnk & Hv & Hvn & Hhi & _ & ->). exists vpk.
    assert (lo + vpk * nk * hd <= out_f) by (rewrite Hvn; lia). split; [done|]. split; [lia|]. intros data Hl.
    apply reorder_rows_spec; [done..|]. rewrite Hl. by apply Nat.mul_le_mono_r. }
  destruct kind; cbn [kind_perm] in Hk; try discriminate Hk; apply bind_Ok in Hk as (p & E & [= <- <-]).
  - destruct (Hrows _ _ _ E) as (vpk & -> & Hle & Er). exists vpk, hv, (2 * nk * hk). do 3 (split; [done|]).
    intros data Hl. rewrite Nat.mul_assoc. unfold reorder_rows_v. cbn [lookup list_lookup mbind option_bind]. by rewrite Er.
  - destruct (Hrows _ _ _ E) as (vpk & -> & Hle & Er). exists vpk, hv, 0. do 3 (split; [done|]).
    intros data Hl. unfold reorder_rows_v. cbn [lookup list_lookup mbind option_bind]. by rewrite Er.
  - destruct (Hrows _ _ _ E) as (vpk & -> & Hle & Er). exists vpk, 1, 0. do 3 (split; [done|]).
    intros data Hl. unfold reorder_rows_v. cbn [lookup list_lookup mbind option_bind]. by rewrite Er.
  - pose proof (v_perm_spec in_f nv nk hv 0 in_f) as Hs. rewrite E in Hs.
    destruct Hs as (vpk & Hnk & Hv & Hvn & Hhi & _ & ->). exists vpk, hv, 0.
    assert (vpk * nk * hv <= in_f) by (rewrite Hvn; lia). do 3 (split; [done|]).
    intros data Hl. cbn [lookup list_lookup mbind option_bind].
    by rewrite (reorder_cols_spec f32_zero data out_f in_f nv nk vpk hv).
Qed.
Lemma kind_perm_no_panic kind out_f in_f nk nv hk hv : 0 < nk -> kind_perm kind out_f in_f nk nv hk hv <> Panic.
Proof.
  intros Hnk. assert (H : forall n hd lo hi, v_perm n nv nk hd lo hi <> Panic).
  { intros n hd lo hi E. pose proof (v_perm_spec n nv nk hd lo hi) as Hs. rewrite E in Hs. lia. }
  destruct kind; cbn [kind_perm]; try done.
  all: match goal with |- context [v_perm ?n ?a ?b ?c ?d ?e] => specialize (H n c d e); destruct (v_perm n a b c d e) end; done.
Qed.
(** The shape a kind expects of a weight whose heads are [hv] wide. *)
Definition kind_shape (kind : TransformKind) (out_f in_f nk nv hv : nat) : Prop :=
  match kind with
  | QkvVReorderRows => out_f = 2 * nk * hv + nv * hv
  | ZReorderRows => out_f = nv * hv
  | OutReorderCols => in_f = nv * hv
  | _ => False
  end.
Lemma kind_fits kind out_f in_f nk nv hv : 0 < nk -> nv mod nk = 0 -> hv mod 128 = 0 -> kind_shape kind out_f in_f nk nv hv ->
  exists axis perm, kind_perm kind out_f in_f nk nv hv hv = Ok (axis, perm) /\ is_ok (block128_perm perm) = true.
Proof.
  intros Hnk Hm H128 Hk.
  assert (H2 : (2 * nk * hv) mod 128 = 0) by (rewrite Nat.Div0.mul_mod, H128, Nat.mul_0_r; done).
  destruct kind; try done; cbn [kind_shape kind_perm] in *.
  - rewrite (v_perm_fits out_f nv nk hv (2 * nk * hv)) by lia. cbn [mbind outcome_bind].
    do 2 eexists. split; [done|]. by apply block128_fits.
  - rewrite (v_perm_fits out_f nv nk hv 0) by lia. cbn [mbind outcome_bind].
    do 2 eexists. split; [done|]. by apply block128_fits.
  - rewrite (v_perm_fits in_f nv nk hv 0) by lia. cbn [mbind outcome_bind].
    do 2 eexists. split; [done|]. by apply block128_fits.
Qed.

Section Fp8.
Context (dq : Z -> spec_float -> spec_float).
(** The weight of codes and scale grid: element [(o, e)] has scale [(o / 128, e / 128)]. *)
Definition fp8_dequant (codes : list Z) (scales : list spec_float) (in_f cols : nat) : list spec_float :=
  (fun p => dq (byte_at codes p) (default f32_zero (scales !! (p / in_f / 128 * cols + p mod in_f / 128)))) <$> seq 0 (length codes).
Lemma length_fp8_dequant codes scales in_f cols : length (fp8_dequant codes scales in_f cols) = length codes.
Proof. unfold fp8_dequant. by rewrite length_fmap, length_seq. Qed.
Lemma fp8_dequant_lookup codes scales in_f cols p : p < length codes ->
  fp8_dequant codes scales in_f cols !! p =
    Some (dq (byte_at codes p) (default f32_zero (scales !! (p / in_f / 128 * cols + p mod in_f / 128)))).
Proof. intros Hp. unfold fp8_dequant. by rewrite list_lookup_fmap, lookup_seq_lt. Qed.

(** Moving codes by [sigma] and scales by [tau] moves the weight by [sigma],
    when [tau] maps the scale of a destination to the scale of its source. *)
Lemma fp8_dequant_moved codes scales in_f cols sigma tau :
  (forall p, p < length codes -> sigma p < length codes) ->
  (forall p, p < length codes ->
     let q := p / in_f / 128 * cols + p mod in_f / 128 in
     q < length scales /\ tau q = sigma p / in_f / 128 * cols + sigma p mod in_f / 128) ->
  fp8_dequant (moved 0%Z sigma codes) (moved f32_zero tau scales) in_f cols =
    moved f32_zero sigma (fp8_dequant codes scales in_f cols).
Proof.
  intros Hs Ht. apply list_eq. intros p.
  destruct (Nat.lt_ge_cases p (length codes)) as [Hp|Hp].
  2:{ rewrite !lookup_ge_None_2; [done|rewrite length_moved, length_fp8_dequant; done|rewrite length_fp8_dequant, length_moved; done]. }
  rewrite fp8_dequant_lookup by (by rewrite length_moved).
  rewrite (moved_lookup f32_zero sigma (fp8_dequant codes scales in_f cols)) by (rewrite length_fp8_dequant; auto).
  rewrite fp8_dequant_lookup by auto.
  destruct (Ht p Hp) as [Hq Et]. do 2 f_equal.
  - unfold byte_at. by rewrite moved_lookup by auto.
  - unfold moved. rewrite list_lookup_fmap, lookup_seq_lt by done. cbn [fmap option_fmap option_map default from_option id Nat.add].
    by rewrite Et.
Qed.
End Fp8.

Lemma ceil128_lt i n : i < n -> i / 128 < ceil128 n.
Proof.
  intros Hi. unfold ceil128. apply (Nat.lt_le_trans _ ((i + 128) / 128)).
  - rewrite <- (Nat.mul_1_l 128) at 2. rewrite Nat.div_add by lia. lia.
  - apply Nat.Div0.div_le_mono. lia.
Qed.
Lemma ceil128_mul k n : k < ceil128 n -> k * 128 < n.
Proof.
  unfold ceil128. intros Hk. pose proof (Nat.div_mod (n + 127) 128 ltac:(lia)). pose proof (Nat.mod_upper_bound (n + 127) 128 ltac:(lia)). lia.
Qed.
(** The block list of a permutation of [n] indices stays within its blocks. *)
Lemma bperm_bound (sigma : nat -> nat) n bperm : (forall i, i < n -> sigma i < n) -> length bperm = ceil128 n ->
  (forall i s, (sigma <$> seq 0 n) !! i = Some s -> bperm !! (i / 128) = Some (s / 128)) ->
  (forall i, i < n -> default 0 (bperm !! (i / 128)) = sigma i / 128) /\ Forall (fun s => s < length bperm) bperm.
Proof.
  intros Hs Hl Hb.
  assert (Hat : forall i, i < n -> bperm !! (i / 128) = Some (sigma i / 128)).
  { intros i Hi. apply Hb. by rewrite list_lookup_fmap, lookup_seq_lt. }
  split; [intros i Hi; by rewrite Hat|].
  apply Forall_lookup_2. intros k s Hk. pose proof (lookup_lt_Some _ _ _ Hk) as Hlt. rewrite Hl in *.
  apply ceil128_mul in Hlt. specialize (Hat (k * 128) Hlt). rewrite Nat.div_mul in Hat by lia.
  assert (s = sigma (k * 128) / 128) as -> by congruence. apply ceil128_lt, Hs, Hlt.
Qed.

Lemma moved_ext {A : Type} (dflt : A) s t (data : list A) : (forall p, p < length data -> s p = t p) -> moved dflt s data = moved dflt t data.
Proof.
  intros H. unfold moved. apply list_fmap_ext. intros i x [-> Hi]%lookup_seq. cbn [Nat.add]. by rewrite H.
Qed.
Lemma div_lt_rows p rows w : p < rows * w -> p / w < rows /\ p mod w < w.
Proof.
  intros Hp. assert (Hw : w <> 0) by (intros ->; lia). split; [apply Nat.Div0.div_lt_upper_bound; lia|by apply Nat.mod_upper_bound].
Qed.
(** The scale index of element [(o, e)]. *)
Lemma scale_index o e rows cols : o < rows -> e < cols -> o * cols + e < rows * cols.
Proof. intros Ho He. pose proof (Nat.mul_le_mono_r (o + 1) rows cols ltac:(lia)). lia. Qed.

Section Fp8_moves.
Context (dq : Z -> spec_float -> spec_float).
Context (codes : list Z) (scales : list spec_float) (out_f in_f : nat).
Context (Hc : length codes = out_f * in_f) (Hs : length scales = ceil128 out_f * ceil128 in_f).

Lemma fp8_rows nk vpk hd lo bperm : lo + vpk * nk * hd <= out_f -> length bperm = ceil128 out_f ->
  (forall i s, (vmap nk vpk hd lo <$> seq 0 out_f) !! i = Some s -> bperm !! (i / 128) = Some (s / 128)) ->
  exists nc ns, permute_rows 0%Z (vmap nk vpk hd lo <$> seq 0 out_f) in_f codes (length codes) = Some nc /\
    permute_rows f32_zero bperm (ceil128 in_f) scales (length scales) = Some ns /\
    length nc = length codes /\ length ns = length scales /\
    fp8_dequant dq nc ns in_f (ceil128 in_f) = moved f32_zero (row_sigma nk vpk hd lo in_f) (fp8_dequant dq codes scales in_f (ceil128 in_f)).
Proof.
  intros Hlo Hbl Hb. assert (Hv : forall i, i < out_f -> vmap nk vpk hd lo i < out_f) by (intros i; by apply vmap_lt).
  destruct (bperm_bound _ out_f bperm Hv Hbl Hb) as [Hbat Hbf].
  do 2 eexists. split; [apply permute_rows_spec|].
  { by rewrite length_fmap, length_seq. }
  { apply Forall_lookup_2. intros i x Hi. apply list_lookup_fmap_Some in Hi as (j & -> & [-> Hj]%lookup_seq).
    rewrite length_fmap, length_seq. by apply Hv. }
  split; [apply permute_rows_spec; [by rewrite Hbl|done]|]. rewrite !length_moved. do 2 (split; [done|]).
  rewrite (moved_ext 0%Z _ (row_sigma nk vpk hd lo in_f)).
  2:{ intros p Hp. rewrite Hc in Hp. destruct (div_lt_rows p out_f in_f Hp) as [Ho _].
      by rewrite list_lookup_fmap, lookup_seq_lt. }
  apply fp8_dequant_moved.
  - intros p Hp. rewrite Hc in *. destruct (div_lt_rows p out_f in_f Hp) as [Ho He]. apply scale_index; auto.
  - intros p Hp. rewrite Hc in Hp. destruct (div_lt_rows p out_f in_f Hp) as [Ho He].
    pose proof (ceil128_lt _ _ Ho) as Ho'. pose proof (ceil128_lt _ _ He) as He'.
    cbv zeta. split; [rewrite Hs; by apply scale_index|].
    destruct (div_mod_row (p / in_f / 128) (ceil128 in_f) (p mod in_f / 128) He') as [-> ->].
    rewrite Hbat by done. unfold row_sigma. by destruct (div_mod_row (vmap nk vpk hd lo (p / in_f)) in_f (p mod in_f) He) as [-> ->].
Qed.
Lemma fp8_cols nk vpk hd bperm : vpk * nk * hd <= in_f -> length bperm = ceil128 in_f ->
  (forall i s, (vmap nk vpk hd 0 <$> seq 0 in_f) !! i = Some s -> bperm !! (i / 128) = Some (s / 128)) ->
  exists nc ns, permute_cols 0%Z out_f (vmap nk vpk hd 0 <$> seq 0 in_f) in_f codes = Some nc /\
    permute_cols f32_zero (ceil128 out_f) bperm (ceil128 in_f) scales = Some ns /\
    length nc = length codes /\ length ns = length scales /\
    fp8_dequant dq nc ns in_f (ceil128 in_f) = moved f32_zero (col_sigma nk vpk hd in_f) (fp8_dequant dq codes scales in_f (ceil128 in_f)).
Proof.
  intros Hlo Hbl Hb. assert (Hv : forall i, i < in_f -> vmap nk vpk hd 0 i < in_f) by (intros i; by apply vmap_lt).
  destruct (bperm_bound _ in_f bperm Hv Hbl Hb) as [Hbat Hbf].
  set (perm := vmap nk vpk hd 0 <$> seq 0 in_f) in *.
  assert (Hpl : length perm = in_f) by (unfold perm; by rewrite length_fmap, length_seq).
  pose proof (permute_cols_spec 0%Z codes out_f perm) as E1. rewrite Hpl in E1.
  pose proof (permute_cols_spec f32_zero scales (ceil128 out_f) bperm) as E2. rewrite Hbl in E2.
  do 2 eexists. split; [apply E1; [done|]|].
  { apply Forall_lookup_2. intros i x Hi. apply list_lookup_fmap_Some in Hi as (j & -> & [-> Hj]%lookup_seq). by apply Hv. }
  rewrite Hbl in Hbf. split; [by apply E2|]. rewrite !length_moved. do 2 (split; [done|]).
  rewrite (moved_ext 0%Z _ (col_sigma nk vpk hd in_f)).
  2:{ intros p Hp. rewrite Hc in Hp. destruct (div_lt_rows p out_f in_f Hp) as [_ He].
      unfold perm. by rewrite list_lookup_fmap, lookup_seq_lt. }
  apply fp8_dequant_moved.
  - intros p Hp. rewrite Hc in *. destruct (div_lt_rows p out_f in_f Hp) as [Ho He]. apply scale_index; auto.
  - intros p Hp. rewrite Hc in Hp. destruct (div_lt_rows p out_f in_f Hp) as [Ho He].
    pose proof (ceil128_lt _ _ Ho) as Ho'. pose proof (ceil128_lt _ _ He) as He'.
    cbv zeta. split; [rewrite Hs; by apply scale_index|].
    destruct (div_mod_row (p / in_f / 128) (ceil128 in_f) (p mod in_f / 128) He') as [-> ->].
    rewrite Hbat by done. unfold col_sigma. by destruct (div_mod_row (p / in_f) in_f (vmap nk vpk hd 0 (p mod in_f)) (Hv _ He)) as [-> ->].
Qed.
End Fp8_moves.

(** A code times its block scale. *)
Definition f32_mul_code (c : Z) (s : spec_float) : spec_float := f32_mul (fp8_e4m3_to_f32 c) s.

(** C24. Reordering FP8 codes together with their block-128 scale grid is exact:
    whenever it is not refused, dequantising the result gives, value for value,
    the reorder of the dequantised weight, for any way of dequantising.  It is
    never refused when heads are whole blocks and the shape is the kind's, and
    never panics with a K-head. *)
Theorem fp8_blk_exact f32_exp kind codes out_f in_f scales cols cfg s :
  ssm cfg = Some s -> 0 < group_count s ->
  match apply_fp8_blk kind codes out_f in_f scales cols cfg with
  | Ok (ne, nc, ns, rows, cols') =>
      ne = [in_f; out_f] /\ rows = ceil128 out_f /\ cols' = cols /\ length nc = length codes /\ length ns = length scales /\
      forall dq, apply_data f32_exp kind (fp8_dequant dq codes scales in_f cols) [in_f; out_f] cfg =
        Some ([in_f; out_f], fp8_dequant dq nc ns in_f cols)
  | Err _ =>
      ~ (length codes = out_f * in_f /\ cols = ceil128 in_f /\ length scales = ceil128 out_f * cols /\
         time_step_rank s mod group_count s = 0 /\ state_size s mod 128 = 0 /\
         kind_shape kind out_f in_f (group_count s) (time_step_rank s) (state_size s))
  | Panic => False
  end.
Proof.
  intros Hssm Hnk. unfold apply_fp8_blk, head_params. rewrite Hssm. cbn [mbind option_bind or_panic outcome_bind].
  set (nk := group_count s) in *. set (nv := time_step_rank s). set (hv := state_size s).
  destruct (Nat.eqb_spec (length codes) (out_f * in_f)) as [Hc|]; [|cbn; intuition].
  destruct (Nat.eqb_spec cols (ceil128 in_f)) as [->|]; [|cbn; intuition]. cbn [negb orb].
  destruct (Nat.eqb_spec (length scales) (ceil128 out_f * ceil128 in_f)) as [Hs|]; [|cbn; intuition]. cbn [negb].
  destruct (kind_perm kind out_f in_f nk nv hv hv) as [[axis perm]|e|] eqn:Ek; cbn [mbind outcome_bind].
  - assert (Hp : head_params cfg = Some (nk, nv, hv, hv)) by (unfold head_params; by rewrite Hssm).
    pose proof (block128_perm_spec perm) as Hb.
    destruct (block128_perm perm) as [bslots|e|] eqn:Eb; cbn [mbind outcome_bind]; [| |done].
    + destruct Hb as (bperm & -> & Hbl & Hb). cbn [or_panic mbind outcome_bind].
      destruct (kind_perm_spec f32_exp kind out_f in_f cfg nk nv hv hv axis perm Hp Ek) as (vpk & hd & lo & -> & Hlo & Hz & Ha).
      rewrite length_fmap, length_seq in Hbl. destruct axis.
      * pose proof (fun dq => fp8_rows dq codes scales out_f in_f Hc Hs nk vpk hd lo bperm Hlo Hbl Hb) as Hr.
        destruct (Hr f32_mul_code) as (nc & ns & E1 & E2 & Hln & Hls & _). rewrite E1, E2. cbn [or_panic mbind outcome_bind].
        do 5 (split; [done|]). intros dq. rewrite Ha by (by rewrite length_fp8_dequant).
        destruct (Hr dq) as (nc' & ns' & E1' & E2' & _ & _ & <-). congruence.
      * rewrite (Hz eq_refl) in *.
        pose proof (fun dq => fp8_cols dq codes scales out_f in_f Hc Hs nk vpk hd bperm Hlo Hbl Hb) as Hr.
        destruct (Hr f32_mul_code) as (nc & ns & E1 & E2 & Hln & Hls & _). rewrite E1, E2. cbn [or_panic mbind outcome_bind].
        do 5 (split; [done|]). intros dq. rewrite Ha by (by rewrite length_fp8_dequant).
        destruct (Hr dq) as (nc' & ns' & E1' & E2' & _ & _ & <-). congruence.
    + intros (_ & _ & _ & Hm & H128 & Hk). destruct (kind_fits _ _ _ _ _ _ Hnk Hm H128 Hk) as (a & p & E & Hok).
      fold nk nv hv in E. rewrite Ek in E. injection E as -> ->. by rewrite Eb in Hok.
  - intros (_ & _ & _ & Hm & H128 & Hk). destruct (kind_fits _ _ _ _ _ _ Hnk Hm H128 Hk) as (a & p & E & Hok).
    fold nk nv hv in E. by rewrite Ek in E.
  - by apply (kind_perm_no_panic kind out_f in_f nk nv hv hv Hnk).
Qed.
Lemma fp8_blk_exact_witness :
  let cfg := mkConfig 1 1 1 1 0 (Some (mkSsm 4 128 2 1)) None 0 in let codes := replicate 256 56%Z in let scales := [f32_one; f32_half] in
  exists nc ns, apply_fp8_blk ZReorderRows codes 256 1 scales 1 cfg = Ok ([1; 256], nc, ns, 2, 1) /\ length nc = 256 /\ length ns = 2 /\
    forall dq, apply_data (fun x => x) ZReorderRows (fp8_dequant dq codes scales 1 1) [1; 256] cfg = Some ([1; 256], fp8_dequant dq nc ns 1 1).
Proof.
  pose proof (fp8_blk_exact (fun x => x) ZReorderRows (replicate 256 56%Z) 256 1 [f32_one; f32_half] 1
    (mkConfig 1 1 1 1 0 (Some (mkSsm 4 128 2 1)) None 0) (mkSsm 4 128 2 1) eq_refl ltac:(cbn; lia)) as H.
  cbv zeta. destruct (apply_fp8_blk _ _ _ _ _ _ _) as [[[[[ne nc] ns] rows] cols]|e|]; [..|destruct H].
  - destruct H as (-> & -> & -> & Hnc & Hns & Hdq). exists nc, ns. split; [reflexivity|]. split; [exact Hnc|]. split; [exact Hns|exact Hdq].
  - destruct H. vm_compute. tauto.
Defined.

(** ** NVFP4 blocks *)

Lemma gelem_block g g' i i' r : r < 64 -> (forall k, k < 36 -> byte_at g' (i * 36 + k) = byte_at g (i' * 36 + k)) ->
  gelem g' (i * 64 + r) = gelem g (i' * 64 + r).
Proof.
  intros Hr H. pose proof (Nat.div_mod r 16 ltac:(lia)). pose proof (Nat.mod_upper_bound r 16 ltac:(lia)) as Ht.
  assert (Hs : r / 16 < 4) by (apply Nat.Div0.div_lt_upper_bound; lia).
  replace (i * 64 + r) with (i * 64 + r / 16 * 16 + r mod 16) by lia.
  replace (i' * 64 + r) with (i' * 64 + r / 16 * 16 + r mod 16) by lia.
  rewrite !gelem_at by done. pose proof (Nat.mod_upper_bound (r mod 16) 8 ltac:(lia)).
  rewrite <- !(Nat.add_assoc (_ * 36)), !H by lia. done.
Qed.
Lemma moved_byte sigma packed p : p < length packed -> sigma p < length packed ->
  byte_at (moved 0%Z sigma packed) p = byte_at packed (sigma p).
Proof. intros Hp Hs. unfold byte_at. by rewrite moved_lookup. Qed.
Lemma Forall_moved (P : Z -> Prop) sigma packed : P 0%Z -> Forall P packed -> Forall P (moved 0%Z sigma packed).
Proof.
  intros H0 H. apply Forall_lookup_2. intros i x Hi. apply list_lookup_fmap_Some in Hi as (j & -> & _).
  destruct (packed !! sigma j) eqn:E; cbn; [by eapply Forall_lookup_1|done].
Qed.

Section Nvfp4_moves.
Context (packed : list Z) (out_f nblk : nat).
Let in_f := 64 * nblk.
Context (Hl : length packed = out_f * (nblk * 36)).

(** Moving packed rows, or packed heads inside every row, moves the values. *)
Lemma nvfp4_rows nk vpk hd lo p : lo + vpk * nk * hd <= out_f -> p < out_f * in_f ->
  gelem (moved 0%Z (row_sigma nk vpk hd lo (nblk * 36)) packed) p = gelem packed (row_sigma nk vpk hd lo in_f p).
Proof.
  intros Hlo Hp. destruct (div_lt_rows p out_f in_f Hp) as [Ho He]. unfold row_sigma at 2.
  set (o := p / in_f) in *. set (e := p mod in_f) in *.
  assert (Ep : p = (o * nblk + e / 64) * 64 + e mod 64).
  { pose proof (div_mod_id in_f p) as E. fold o e in E. pose proof (Nat.div_mod e 64 ltac:(lia)). unfold in_f in E. lia. }
  assert (Hb : e / 64 < nblk) by (apply Nat.Div0.div_lt_upper_bound; unfold in_f in He; lia).
  replace (vmap nk vpk hd lo o * in_f + e) with ((vmap nk vpk hd lo o * nblk + e / 64) * 64 + e mod 64).
  2:{ pose proof (Nat.div_mod e 64 ltac:(lia)). unfold in_f. lia. }
  rewrite Ep. apply gelem_block; [by apply Nat.mod_upper_bound|]. intros k Hk.
  pose proof (vmap_lt nk vpk hd lo out_f o Hlo Ho) as Hv.
  assert (Hin : e / 64 * 36 + k < nblk * 36) by (pose proof (Nat.mul_le_mono_r (e / 64 + 1) nblk 36 ltac:(lia)); lia).
  replace ((o * nblk + e / 64) * 36 + k) with (o * (nblk * 36) + (e / 64 * 36 + k)) by lia.
  assert (Es : row_sigma nk vpk hd lo (nblk * 36) (o * (nblk * 36) + (e / 64 * 36 + k)) = (vmap nk vpk hd lo o * nblk + e / 64) * 36 + k).
  { unfold row_sigma. destruct (div_mod_row o (nblk * 36) (e / 64 * 36 + k) Hin) as [-> ->]. lia. }
  rewrite moved_byte, Es; [done|rewrite Hl; by apply scale_index|rewrite Es, Hl].
  replace ((vmap nk vpk hd lo o * nblk + e / 64) * 36 + k) with (vmap nk vpk hd lo o * (nblk * 36) + (e / 64 * 36 + k)) by lia.
  by apply scale_index.
Qed.
Lemma nvfp4_cols nk vpk hb p : vpk * nk * hb <= nblk -> p < out_f * in_f ->
  gelem (moved 0%Z (col_sigma nk vpk (hb * 36) (nblk * 36)) packed) p = gelem packed (col_sigma nk vpk (hb * 64) in_f p).
Proof.
  intros Hlo Hp. destruct (div_lt_rows p out_f in_f Hp) as [Ho He]. unfold col_sigma at 2.
  set (o := p / in_f) in *. set (e := p mod in_f) in *.
  pose proof (Nat.div_mod e 64 ltac:(lia)) as Ee. pose proof (Nat.mod_upper_bound e 64 ltac:(lia)) as Hr.
  assert (Ep : p = (o * nblk + e / 64) * 64 + e mod 64).
  { pose proof (div_mod_id in_f p) as E. fold o e in E. unfold in_f in E. lia. }
  assert (Hb : e / 64 < nblk) by (apply Nat.Div0.div_lt_upper_bound; unfold in_f in He; lia).
  assert (Ev : vmap nk vpk (hb * 64) 0 e = vmap nk vpk hb 0 (e / 64) * 64 + e mod 64).
  { rewrite <- (vmap_scale nk vpk hb 0 64) by done. f_equal. lia. }
  rewrite Ev. replace (o * in_f + (vmap nk vpk hb 0 (e / 64) * 64 + e mod 64)) with ((o * nblk + vmap nk vpk hb 0 (e / 64)) * 64 + e mod 64) by (unfold in_f; lia).
  rewrite Ep. apply gelem_block; [done|]. intros k Hk.
  pose proof (vmap_lt nk vpk hb 0 nblk (e / 64) Hlo Hb) as Hv.
  assert (Hin : forall b, b < nblk -> b * 36 + k < nblk * 36) by (intros b Hbb; pose proof (Nat.mul_le_mono_r (b + 1) nblk 36 ltac:(lia)); lia).
  replace ((o * nblk + e / 64) * 36 + k) with (o * (nblk * 36) + (e / 64 * 36 + k)) by lia.
  assert (Es : col_sigma nk vpk (hb * 36) (nblk * 36) (o * (nblk * 36) + (e / 64 * 36 + k)) = (o * nblk + vmap nk vpk hb 0 (e / 64)) * 36 + k).
  { unfold col_sigma. destruct (div_mod_row o (nblk * 36) (e / 64 * 36 + k) (Hin _ Hb)) as [-> ->].
    pose proof (vmap_scale nk vpk hb 0 36 (e / 64) k Hk) as Ek. change (0 * 36) with 0 in Ek. rewrite Ek. lia. }
  rewrite moved_byte, Es; [done|rewrite Hl; apply scale_index; auto|rewrite Es, Hl].
  replace ((o * nblk + vmap nk vpk hb 0 (e / 64)) * 36 + k) with (o * (nblk * 36) + (vmap nk vpk hb 0 (e / 64) * 36 + k)) by lia.
  apply scale_index; auto.
Qed.
End Nvfp4_moves.

(** Bytes moved so that element [p] becomes element [tau p]. *)
Lemma dequant_moved packed out_f in_f nblk sigma tau :
  Forall is_byte packed -> in_f = 64 * nblk -> length packed = out_f * (nblk * 36) ->
  (forall p, p < out_f * in_f -> tau p < out_f * in_f /\ gelem (moved 0%Z sigma packed) p = gelem packed (tau p)) ->
  length (moved 0%Z sigma packed) = length packed /\ exists w v, dequant_gguf_row packed (out_f * in_f) = Some w /\
    length w = out_f * in_f /\ dequant_gguf_row (moved 0%Z sigma packed) (out_f * in_f) = Some v /\ v = moved f32_zero tau w.
Proof.
  intros Hb Hin Hl Ht. rewrite length_moved. split; [done|].
  exists (gelem packed <$> seq 0 (out_f * in_f)), (gelem (moved 0%Z sigma packed) <$> seq 0 (out_f * in_f)).
  assert (is_byte 0) by (unfold is_byte; lia).
  rewrite !(dequant_gguf_row_spec _ _ (out_f * nblk)); rewrite ?length_moved; [|lia|lia|by apply Forall_moved|lia|lia|done].
  rewrite length_fmap, length_seq. do 3 (split; [done|]). unfold moved at 2. rewrite length_fmap, length_seq.
  apply list_fmap_ext. intros i x [-> Hi]%lookup_seq. cbn [Nat.add]. destruct (Ht i Hi) as [Hti ->].
  by rewrite list_lookup_fmap, lookup_seq_lt.
Qed.
Lemma reorder_rows_dequant packed out_f in_f nblk nv nk hd lo out :
  Forall is_byte packed -> in_f = 64 * nblk -> reorder_rows_nvfp4 packed out_f (nblk * 36) nv nk hd lo out_f = Some out ->
  length out = length packed /\ exists w w', dequant_gguf_row packed (out_f * in_f) = Some w /\
    dequant_gguf_row out (out_f * in_f) = Some w' /\ reorder_rows_loop w nv nk hd in_f lo = Some w'.
Proof.
  intros Hb Hin E. unfold reorder_rows_nvfp4 in E.
  destruct (_ && _) eqn:Ec in E; [|done]. apply andb_true_iff in Ec as [[H1%Nat.eqb_eq H2%Nat.leb_le]%andb_true_iff H3%Nat.eqb_eq].
  assert (Hnk : 0 < nk) by (destruct nk; [done|lia]).
  assert (Hle : lo + nv / nk * nk * hd <= out_f).
  { pose proof (Nat.div_mod nv nk ltac:(lia)). pose proof (Nat.mul_le_mono_r (nv / nk * nk) nv hd ltac:(lia)). lia. }
  rewrite (reorder_rows_spec 0%Z packed nv nk (nv / nk) hd (nblk * 36) lo Hnk eq_refl) in E by (rewrite H1; by apply Nat.mul_le_mono_r).
  injection E as <-.
  destruct (dequant_moved packed out_f in_f nblk (row_sigma nk (nv / nk) hd lo (nblk * 36)) (row_sigma nk (nv / nk) hd lo in_f) Hb Hin H1)
    as (Hlen & w & v & E1 & Hw & E2 & Ev).
  { intros p Hlt. destruct (div_lt_rows p out_f in_f Hlt) as [Ho He]. split; [apply scale_index; [by apply vmap_lt|done]|].
    rewrite Hin in *. by apply (nvfp4_rows packed out_f nblk H1). }
  split; [done|]. exists w, v. do 2 (split; [done|]). rewrite Ev. apply reorder_rows_spec; [done..|].
  rewrite Hw. by apply Nat.mul_le_mono_r.
Qed.

(** A V-head reorder of packed NVFP4 blocks is the reorder of the weight:
    dequantising the reordered bytes gives, bit for bit, what the binary32
    transform makes of the dequantised weight, and neither panics. *)
Theorem nvfp4_reorder_exact f32_exp kind packed out_f in_f cfg ne packed' :
  Forall is_byte packed -> in_f mod 64 = 0 -> apply_nvfp4 kind packed out_f in_f cfg = Ok (ne, packed') ->
  ne = [in_f; out_f] /\ length packed' = length packed /\
  exists w w', dequant_gguf_row packed (out_f * in_f) = Some w /\ dequant_gguf_row packed' (out_f * in_f) = Some w' /\
    apply_data f32_exp kind w ne cfg = Some (ne, w').
Proof.
  intros Hb Hm Ha. unfold apply_nvfp4 in Ha.
  destruct (head_params cfg) as [[[[nk nv] hk] hv]|] eqn:Hp; [|done]. cbn [or_panic mbind outcome_bind] in Ha.
  set (nblk := in_f / 64) in *.
  assert (Hin : in_f = 64 * nblk) by (pose proof (Nat.div_mod in_f 64 ltac:(lia)); subst nblk; lia).
  unfold apply_data. rewrite Hp. cbn [mbind option_bind].
  destruct kind; try discriminate Ha; apply bind_Ok in Ha as (out & E & [= <- <-]); (split; [done|]); cbn [lookup list_lookup mbind option_bind].
  - destruct (reorder_rows_nvfp4 _ _ _ _ _ _ _ _) eqn:E' in E; [|done]. injection E as ->.
    destruct (reorder_rows_dequant _ _ _ _ _ _ _ _ _ Hb Hin E') as (Hl & w & w' & E1 & E2 & E3). split; [done|]. exists w, w'. do 2 (split; [done|]). unfold reorder_rows_v. by rewrite E3.
  - destruct (reorder_rows_nvfp4 _ _ _ _ _ _ _ _) eqn:E' in E; [|done]. injection E as ->.
    destruct (reorder_rows_dequant _ _ _ _ _ _ _ _ _ Hb Hin E') as (Hl & w & w' & E1 & E2 & E3). split; [done|]. exists w, w'. do 2 (split; [done|]). unfold reorder_rows_v. by rewrite E3.
  - destruct (reorder_rows_nvfp4 _ _ _ _ _ _ _ _) eqn:E' in E; [|done]. injection E as ->.
    destruct (reorder_rows_dequant _ _ _ _ _ _ _ _ _ Hb Hin E') as (Hl & w & w' & E1 & E2 & E3). split; [done|]. exists w, w'. do 2 (split; [done|]). unfold reorder_rows_v. by rewrite E3.
  - destruct (reorder_cols_nvfp4 _ _ _ _ _ _) eqn:E' in E; [|done]. injection E as ->. unfold reorder_cols_nvfp4 in E'.
    destruct (_ && _) eqn:Ec in E'; [|done].
    apply andb_true_iff in Ec as [[[H1%Nat.eqb_eq H2%Nat.eqb_eq]%andb_true_iff H3%Nat.eqb_eq]%andb_true_iff H4%negb_true_iff%Nat.eqb_neq].
    fold nblk in H3, E'. set (hb := hv / 64) in *.
    assert (Hhv : hv = hb * 64) by (pose proof (Nat.div_mod hv 64 ltac:(lia)); subst hb; lia).
    assert (Hvn : nv / nk * nk <= nv) by (pose proof (Nat.div_mod nv nk H4); lia).
    assert (Hle : nv / nk * nk * hb <= nblk).
    { pose proof (Nat.mul_le_mono_r _ nv hb Hvn). assert (64 * nblk = 64 * (nv * hb)) by (rewrite <- Hin, H1, Hhv; ring). lia. }
    pose proof (chunk_cols_spec 0%Z packed out_f (nblk * 36) nv nk (nv / nk) (hb * 36) ltac:(lia) eq_refl ltac:(lia) H3) as Ec.
    cbv zeta in Ec, E'. rewrite Ec in E'.
    injection E' as <-.
    destruct (dequant_moved packed out_f in_f nblk (col_sigma nk (nv / nk) (hb * 36) (nblk * 36)) (col_sigma nk (nv / nk) (hb * 64) in_f) Hb Hin H3) as (Hlen & w & v & E1 & Hw & E2 & Ev).
    { intros p Hlt. split.
      - destruct (div_lt_rows p out_f in_f Hlt) as [Ho He]. apply scale_index; [done|]. apply vmap_lt; [lia|done].
      - rewrite Hin in *. by apply (nvfp4_cols packed out_f nblk H3). }
    split; [done|]. exists w, v. do 2 (split; [done|]).
    rewrite (reorder_cols_spec f32_zero w out_f in_f nv nk (nv / nk) hv); [|lia|done|lia|done].
    by rewrite Hhv, <- Ev.
Qed.
Lemma nvfp4_reorder_exact_witness :
  let cfg := mkConfig 1 1 1 1 0 (Some (mkSsm 4 1 2 1)) None 0 in
  let packed := replicate 36 56%Z ++ replicate 36 57%Z in
  apply_nvfp4 ZReorderRows packed 2 64 cfg = Ok ([64; 2], packed) /\
  exists w, dequant_gguf_row packed 128 = Some w /\ apply_data (fun x => x) ZReorderRows w [64; 2] cfg = Some ([64; 2], w).
Proof.
  cbv zeta. set (cfg := mkConfig 1 1 1 1 0 (Some (mkSsm 4 1 2 1)) None 0). set (packed := replicate 36 56%Z ++ replicate 36 57%Z).
  assert (E : apply_nvfp4 ZReorderRows packed 2 64 cfg = Ok ([64; 2], packed)) by (vm_compute; reflexivity).
  split; [exact E|].
  assert (Hb : Forall is_byte packed) by (apply Forall_app; split; apply Forall_replicate; unfold is_byte; lia).
  destruct (nvfp4_reorder_exact (fun x => x) ZReorderRows packed 2 64 cfg [64; 2] packed Hb eq_refl E) as (_ & _ & w & w' & E1 & E2 & E3).
  exists w. split; [exact E1|]. assert (Ew : w' = w) by congruence. rewrite Ew in E3. exact E3.
Defined.
