(* ===== verification/SpecDecode.v ===== *)
(** Greedy speculative decoding: [generate_spec_eagle] of
    [memra-engine/src/eagle.rs], [generate_spec_dflash] of
    [memra-engine/src/dflash.rs], and the plain loop [generate] of
    [memra-engine/src/decode.rs] they are to agree with.

    A round drafts tokens, verifies them in one pass of the target over the KV
    cache, keeps the longest prefix the target itself would have chosen and takes
    the rest back.  The target ([Target]) and the drafters ([Eagle], [Dflash]) are
    parameters; the caches, snapshots and rollbacks are those of [KvCache]. *)
From Stdlib Require Import SpecFloat.
From S2P Require Import Prelude Effects F32 KvCache.
Local Open Scope nat_scope.

(** ** What the code is given *)

(** The passes of the target model: logits (all rows in one vector), the hidden
    rows a drafter reads, the cache after. *)
Class Target {kd : KvDev} := {
  hid : Type;
  n_vocab : nat;
  n_embd : nat;
  prime_cache : Cache -> list Z -> nat -> D (list spec_float * Cache);
  decode_step : Cache -> Z -> D (list spec_float * Cache);
  decode_step_aux : Cache -> Z -> D (list spec_float * list hid * Cache);
  decode_step_t : Cache -> list Z -> nat -> D (list spec_float * Cache);
  decode_step_t_aux2 : Cache -> list Z -> nat -> option nat -> D (list spec_float * list hid * option (list hid) * Cache);
  (** the argmax of every row, taken on the device *)
  decode_step_t_am : Cache -> list Z -> nat -> D (list Z * list hid * Cache);
}.
Class Eagle {kd : KvDev} {tg : Target} := {
  dhid : Type;
  draft_n_embd : nat;
  aux_layers : list nat;
  d2t : list Z;
  new_scratch : nat -> D KvLayer;
  fc : list hid -> D dhid;
  draft_token : Z -> dhid -> KvLayer -> nat -> D (list spec_float * dhid * KvLayer);
}.
(** The block drafter: its own cache, what it ingests, and the [b - 1] tokens it
    proposes after the last one. *)
Class Dflash {kd : KvDev} {tg : Target} := {
  dkv : Type;
  hidden : nat;
  block_size : nat;
  sliding_window : nat;
  new_dkv : nat -> D dkv;
  ingest_ctx : dkv -> list hid -> nat -> D dkv;
  forward_round : dkv -> Z -> nat -> D (list Z * dkv);
}.

(** [argmax] of [forward.rs], and its [as u32]. *)
Fixpoint argmax_from (i best : nat) (bv : spec_float) (logits : list spec_float) : nat :=
  match logits with
  | [] => best
  | v :: rest => if f_gt v bv then argmax_from (S i) i v rest else argmax_from (S i) best bv rest
  end.
Definition argmax (logits : list spec_float) : nat := argmax_from 0 0 (S754_infinity true) logits.
Definition tok_of (logits : list spec_float) : Z := wrap 32 (Z.of_nat (argmax logits)).

Section Decode.
Context {kd : KvDev} {tg : Target}.
Implicit Types (c : Cache) (out prompt drafts : list Z) (logits : list spec_float).

Definition PRIME_MIN_T : nat := 16.
(** [v[j * n..(j + 1) * n]] *)
Definition row_at (j : nat) logits : D (list spec_float) :=
  massert ((j + 1) * n_vocab <=? length logits);; ret (take n_vocab (drop (j * n_vocab) logits)).

(** ** The plain loop *)

Fixpoint prime_tokens (toks : list Z) logits c : D (list spec_float * Cache) :=
  match toks with
  | [] => ret (logits, c)
  | t :: toks => '(l, c) ← decode_step c t; prime_tokens toks l c
  end.
Fixpoint greedy_loop (n : nat) out logits c : D (list Z) :=
  match n with
  | 0 => ret out
  | S n =>
      let next := tok_of logits in
      '(l, c) ← decode_step c next;
      greedy_loop n (out ++ [next]) l c
  end.
(** [tokenwise]: the switches that rule batched priming out. *)
Definition generate (alloc : nat -> D Cache) (tokenwise : bool) prompt (max_new : nat) : D (list Z) :=
  c ← alloc (length prompt + max_new + 8);
  '(l, c) ← (if (PRIME_MIN_T <=? length prompt) && negb tokenwise then prime_cache c prompt 0 else prime_tokens prompt [] c);
  greedy_loop max_new [] l c.

(** ** Taking back *)

(** [cache.rollback(e, &snap, n)?] *)
Definition roll_back (s : CacheSnapshot) (n : nat) c : D Cache :=
  fun w => match rollback s n (w, c) with
           | ((w, c), Ok _) => (w, Ok c)
           | ((w, _), Err er) => (w, Err er)
           | ((w, _), Panic) => (w, Panic)
           end.
(** [kvl.len -= n; set_i32_one(&mut kvl.len_d, kvl.len)?] over the layers. *)
Fixpoint cut_layers (n : nat) (kvs : list (option KvLayer)) : D (list (option KvLayer)) :=
  match kvs with
  | [] => ret []
  | None :: kvs => kvs ← cut_layers n kvs; ret (None :: kvs)
  | Some l :: kvs =>
      massert (n <=? len l);;
      '(d, ok) ← set_i32_one (len_d l) (as_i32 (len l - n));
      (if ok : bool then ret tt else throw EDevice);;
      kvs ← cut_layers n kvs;
      ret (Some (with_len (len l - n) d l) :: kvs)
  end.
Definition cut_cache (n : nat) c : D Cache :=
  kvs ← cut_layers n (kv c);
  massert (n <=? pos c);;
  ret (mkKvCache kvs (recur c) (pos c - n) (max_ctx c)).

(** ** EAGLE *)
Section EagleLoop.
Context {ea : Eagle}.

(** [encode]: the drafter's hidden state from the target's. *)
Definition encode (aux : list hid) : D dhid := massert (length aux =? length aux_layers);; fc aux.
(** [(draft_id as i64 + self.d2t[draft_id]) as u32] *)
Definition d2t_map (draft_id : Z) : D Z := x ← unwrap (d2t !! Z.to_nat draft_id); ret (wrap 32 (draft_id + x)).
Definition reset (s : KvLayer) : KvLayer := with_len 0 (len_d s) s.
Fixpoint draft_loop (n : nat) (prev : Z) (g : dhid) (s : KvLayer) (at_ : nat) drafts : D (list Z * KvLayer) :=
  match n with
  | 0 => ret (drafts, s)
  | S n =>
      '(dl, g, s) ← draft_token prev g s at_;
      t ← d2t_map (tok_of dl);
      draft_loop n t g s (S at_) (drafts ++ [t])
  end.

(** What the target puts after the first [j] drafts. *)
Definition t_pred (last_logits tlogits : list spec_float) (j : nat) : D Z :=
  if j =? 0 then ret (tok_of last_logits) else r ← row_at (j - 1) tlogits; ret (tok_of r).
Fixpoint accept_from (n j : nat) (last_logits tlogits : list spec_float) drafts : D nat :=
  match n with
  | 0 => ret j
  | S n =>
      p ← t_pred last_logits tlogits j;
      d ← unwrap (drafts !! j);
      if (p =? d)%Z then accept_from n (S j) last_logits tlogits drafts else ret j
  end.
(** [for .. { if out.len() >= max_new { break; } out.push(t); }] *)
Fixpoint push_upto (max_new : nat) out (l : list Z) : list Z :=
  match l with
  | [] => out
  | t :: l => if max_new <=? length out then out else push_upto max_new (out ++ [t]) l
  end.

Record Round := mkRound {
  r_out : list Z;
  r_cache : Cache;
  r_last : Z;
  r_logits : list spec_float;
  r_prev_aux : list hid;
  r_aux : list hid;
  r_scratch : KvLayer;
  r_drafted : nat;
  r_accepted : nat;
}.
Implicit Types r : Round.

(** One turn of the loop; [shift] is [MEMRA_EAGLE_ALIGN]. *)
Definition eagle_round (shift : bool) (d max_new k : nat) r : D Round :=
  let c := r_cache r in
  let pos0 := pos c in
  snap ← snapshot d c;
  g ← encode (if shift then r_prev_aux r else r_aux r);
  '(drafts, s) ← draft_loop k (r_last r) g (reset (r_scratch r)) pos0 [];
  '(tlogits, c) ← decode_step_t c drafts pos0;
  n_acc ← accept_from k 0 (r_logits r) tlogits drafts;
  bonus ← t_pred (r_logits r) tlogits n_acc;
  let out := push_upto max_new (r_out r) (take n_acc drafts) in
  let out := if length out <? max_new then out ++ [bonus] else out in
  c ← roll_back snap 0 c;
  let replay := take n_acc drafts ++ [bonus] in
  let pred_col := if n_acc =? 0 then None else Some (length replay - 2) in
  '(rl, a_last, a_pred, c) ← decode_step_t_aux2 c replay pos0 pred_col;
  last_logits ← row_at (length replay - 1) rl;
  prev_aux ← (if n_acc =? 0 then ret (r_aux r) else unwrap a_pred);
  ret (mkRound out c bonus last_logits prev_aux a_last s (r_drafted r + k) (r_accepted r + n_acc)).
(** [while out.len() < max_new]; a round emits a token. *)
Fixpoint eagle_loop (fuel : nat) (shift : bool) (d max_new k : nat) r : D Round :=
  match fuel with
  | 0 => ret r
  | S fuel =>
      if max_new <=? length (r_out r) then ret r
      else r ← eagle_round shift d max_new k r; eagle_loop fuel shift d max_new k r
  end.
Fixpoint prime_aux (toks : list Z) (la : list spec_float * list hid) c : D (list spec_float * list hid * Cache) :=
  match toks with
  | [] => ret (la.1, la.2, c)
  | t :: toks => '(l, a, c) ← decode_step_aux c t; prime_aux toks (l, a) c
  end.
Definition generate_spec_eagle (alloc : nat -> D Cache) (shift : bool) (d : nat) prompt (max_new k : nat) : D (list Z * nat * nat) :=
  massert (1 <=? k);;
  massert (match prompt with [] => false | _ => true end);;
  massert (n_embd =? draft_n_embd);;
  c ← alloc (length prompt + max_new + k + 8);
  '(prime_logits, prime_a, c) ← prime_aux prompt ([], []) c;
  s ← new_scratch (k + 1);
  let last := tok_of prime_logits in
  '(l, a, c) ← decode_step_aux c last;
  r ← eagle_loop max_new shift d max_new k (mkRound [last] c last l prime_a a s 0 0);
  ret (take max_new (r_out r), r_drafted r, r_accepted r).
End EagleLoop.

(** ** DFlash *)
Section DflashLoop.
Context {df : Dflash}.

(** [clamp]: panics when [lo > hi]. *)
Definition clamp (x lo hi : nat) : D nat := massert (lo <=? hi);; ret (Nat.min (Nat.max x lo) hi).
(** Windows of at most 256 rows. *)
Fixpoint ingest_windows (fuel tp : nat) (kv : dkv) (taps : list hid) (r0 : nat) : D dkv :=
  match fuel with
  | 0 => ret kv
  | S fuel =>
      if r0 <? tp then
        let t_c := Nat.min (tp - r0) 256 in
        massert (r0 + t_c <=? length taps);;
        kv ← ingest_ctx kv (take t_c (drop r0 taps)) r0;
        ingest_windows fuel tp kv taps (r0 + t_c)
      else ret kv
  end.
(** [while m < n && block[m + 1] == vam[m] { m += 1; }] *)
Fixpoint accept_run (n m : nat) (block vam : list Z) : D nat :=
  match n with
  | 0 => ret m
  | S n =>
      b ← unwrap (block !! (m + 1));
      v ← unwrap (vam !! m);
      if (b =? v)%Z then accept_run n (m + 1) block vam else ret m
  end.
(** Pushes the accepted drafts; [true]: an end token or the limit was met. *)
Fixpoint push_drafts (eos : list Z) (max_new : nat) out (l : list Z) : list Z * bool :=
  match l with
  | [] => (out, false)
  | t :: l =>
      let out := out ++ [t] in
      if bool_decide (t ∈ eos) || (max_new <=? length out) then (out, true) else push_drafts eos max_new out l
  end.

Record DRound := mkDRound {
  d_out : list Z;
  d_cache : Cache;
  d_kv : dkv;
  d_last : Z;
  d_vt : nat;
  d_ctx : nat;
}.
Implicit Types r : DRound.
(** One turn of ['outer]; [true]: it broke out. *)
Definition dflash_round (adapt : bool) (vt_cap max_new : nat) (eos : list Z) r : D (DRound * bool) :=
  let c := d_cache r in
  let start := pos c in
  let vt := d_vt r in
  '(drafts, kv) ← forward_round (d_kv r) (d_last r) start;
  massert (length drafts =? block_size - 1);;
  let block := d_last r :: drafts in
  massert (vt <=? length block);;
  '(vam, taps, c) ← decode_step_t_am c (take vt block) start;
  m ← accept_run (vt - 1) 0 block vam;
  let out := d_out r ++ [d_last r] in
  let '(out, stop) := if bool_decide (d_last r ∈ eos) then (out, true) else push_drafts eos max_new out (take m drafts) in
  if stop then ret (mkDRound out c kv (d_last r) vt (d_ctx r), true)
  else
    next ← unwrap (vam !! m);
    let keep := m + 1 in
    c ← cut_cache (vt - keep) c;
    massert (keep <=? length taps);;
    kv ← ingest_ctx kv (take keep taps) (d_ctx r);
    vt ← (if adapt then clamp (m + 2) 3 vt_cap else ret vt);
    ret (mkDRound out c kv next vt (d_ctx r + keep), false).
Fixpoint dflash_loop (fuel : nat) (adapt : bool) (vt_cap max_new : nat) (eos : list Z) r : D DRound :=
  match fuel with
  | 0 => ret r
  | S fuel =>
      if max_new <=? length (d_out r) then ret r
      else
        '(r, stop) ← dflash_round adapt vt_cap max_new eos r;
        if stop : bool then ret r else dflash_loop fuel adapt vt_cap max_new eos r
  end.
(** [verify_t] and [adapt] are [MEMRA_DFLASH_VERIFY_T] and [MEMRA_DFLASH_ADAPT];
    [prime_taps] the hidden rows the prime tapped. *)
Definition generate_spec_dflash (alloc : nat -> D Cache) (prime_taps : Cache -> list Z -> D (list spec_float * list hid * Cache))
    (verify_t : nat) (adapt : bool) prompt (max_new : nat) (eos : list Z) : D (list Z) :=
  massert (n_embd =? hidden);;
  let max_ctx_ := length prompt + max_new + block_size + 8 in
  massert (max_ctx_ <=? sliding_window);;
  c ← alloc max_ctx_;
  '(logits, taps, c) ← prime_taps c prompt;
  let last := tok_of logits in
  kv ← new_dkv max_ctx_;
  kv ← ingest_windows (length prompt) (length prompt) kv taps 0;
  vt_cap ← clamp verify_t 2 block_size;
  r ← dflash_loop max_new adapt vt_cap max_new eos (mkDRound [] c kv last vt_cap (length prompt));
  ret (d_out r).
End DflashLoop.
End Decode.
