(* ===== verification/SpecDecodeSpec.v ===== *)
(** What speculative decoding promises.

    [row f] is the row of logits the target computes after the tokens [f], and
    [greedy f n] the [n] tokens plain greedy decoding appends to [f].  A cache
    [holds] tokens; the target's passes keep it so and depend on nothing but the
    cached state ([target_ok]).  Then, whatever the drafter proposes, the EAGLE
    loop returns exactly the greedy tokens ([eagle_exact]), and so does the block
    loop, up to an end token or at most one token past the limit
    ([dflash_exact]). *)
From Stdlib Require Import SpecFloat.
From S2P Require Import Prelude Effects F32 KvCache ToyCache SpecDecode.
Local Open Scope nat_scope.

(** ** Cached states *)
Section States.
Context {kd : KvDev}.
Implicit Types (c : Cache).

(** The rows of the first [n] tokens are the same in both layers' buffers. *)
Definition same_rows (n : nat) (l l' : KvLayer) : Prop :=
  kv_dim_k l' = kv_dim_k l /\ kv_dim_v l' = kv_dim_v l /\ k_tok_bytes l' = k_tok_bytes l /\ v_tok_bytes l' = v_tok_bytes l
  /\ b_size (k l') = b_size (k l) /\ b_size (v l') = b_size (v l)
  /\ take (n * k_tok_bytes l) (b_data (k l')) = take (n * k_tok_bytes l) (b_data (k l))
  /\ take (n * v_tok_bytes l) (b_data (v l')) = take (n * v_tok_bytes l) (b_data (v l)).
Definition opt_rel {A} (P : A -> A -> Prop) (a b : option A) : Prop :=
  match a, b with Some x, Some y => P x y | None, None => True | _, _ => False end.
(** [c'] caches what [c] does, and its device mirrors agree with its lengths. *)
Definition kv_same (l l' : KvLayer) : Prop := len l' = len l /\ value (len_d l') = as_i32 (len l') /\ same_rows (len l) l l'.
Definition recur_same (r r' : RecurLayer) : Prop := data (conv_state r') = data (conv_state r) /\ data (ssm_state r') = data (ssm_state r).
Definition same_state c c' : Prop :=
  pos c' = pos c /\ max_ctx c' = max_ctx c /\ Forall2 (opt_rel kv_same) (kv c) (kv c') /\ Forall2 (opt_rel recur_same) (recur c) (recur c').
(** [c1] comes from [c] by appending. *)
Definition appended c c1 : Prop :=
  length (recur c) = length (kv c) /\ max_ctx c1 = max_ctx c
  /\ Forall2 (opt_rel (fun l l1 => same_rows (len l) l l1)) (kv c) (kv c1) /\ Forall2 same_recur (recur c) (recur c1).
(** [c'] is [c] without its last [n] tokens; [c] has attention layers only. *)
Definition shortened (n : nat) c c' : Prop :=
  pos c = pos c' + n /\ max_ctx c' = max_ctx c /\ recur c' = recur c /\ Forall (fun r => r = None) (recur c)
  /\ Forall2 (opt_rel (fun l l' => len l = len l' + n /\ value (len_d l') = as_i32 (len l') /\ k l' = k l /\ v l' = v l
       /\ kv_dim_k l' = kv_dim_k l /\ kv_dim_v l' = kv_dim_v l /\ k_tok_bytes l' = k_tok_bytes l /\ v_tok_bytes l' = v_tok_bytes l)) (kv c) (kv c').
End States.

(** ** Greedy decoding *)
Section Greedy.
Variable row : list Z -> list spec_float.
Implicit Types (f ts : list Z).

Definition next f : Z := tok_of (row f).
Fixpoint greedy f (n : nat) : list Z := match n with 0 => [] | S n => next f :: greedy (f ++ [next f]) n end.
(** The rows of one pass over [ts] after [f]. *)
Fixpoint rows f ts : list spec_float := match ts with [] => [] | t :: ts => row (f ++ [t]) ++ rows (f ++ [t]) ts end.

Lemma greedy_length f n : length (greedy f n) = n.
Proof. revert f. induction n as [|n IH]; intros f; cbn [greedy length]; [done|]. by rewrite IH. Qed.
Lemma greedy_add f a b : greedy f (a + b) = greedy f a ++ greedy (f ++ greedy f a) b.
Proof.
  revert f. induction a as [|a IH]; intros f; cbn [greedy plus app]; [by rewrite app_nil_r|]. f_equal. rewrite IH. by rewrite <- app_assoc.
Qed.
Lemma greedy_S f n : greedy f (S n) = greedy f n ++ [next (f ++ greedy f n)].
Proof. rewrite <- Nat.add_1_r, greedy_add. done. Qed.
Lemma greedy_take f a n : a <= n -> take a (greedy f n) = greedy f a.
Proof.
  intros H. replace n with (a + (n - a)) by lia. rewrite greedy_add, take_app_le by (by rewrite greedy_length).
  apply take_ge. by rewrite greedy_length.
Qed.
(** A list is greedy when every token of it is the target's choice. *)
Lemma greedy_intro f ts n : n <= length ts -> (forall j, j < n -> ts !! j = Some (next (f ++ take j ts))) -> take n ts = greedy f n.
Proof.
  induction n as [|n IH]; intros Hn Hj; [done|]. rewrite greedy_S. specialize (IH ltac:(lia) ltac:(intros; apply Hj; lia)).
  rewrite (take_S_r _ _ _ (Hj n ltac:(lia))). by rewrite IH.
Qed.
End Greedy.

(** ** The target *)
Section Target.
Context {kd : KvDev} {kl : KvDevLaws kd} {tg : Target}.
Variables (row : list Z -> list spec_float) (holds : Cache -> list Z -> Prop) (n_aux : nat).
Implicit Types (c : Cache) (f ts : list Z).

Definition room c f n : Prop := length f + n <= max_ctx c.
Record target_ok : Prop := {
  to_vocab : 0 < n_vocab;
  to_row f : length (row f) = n_vocab;
  to_pos c f : holds c f -> pos c = length f;
  to_shape c f : holds c f -> length (recur c) = length (kv c);
  (** only the cached state matters *)
  to_state c c' f : holds c f -> same_state c c' -> holds c' f;
  (** in an attention-only cache a row does not depend on later ones *)
  to_cut c c' f ts : holds c (f ++ ts) -> shortened (length ts) c c' -> holds c' f;
  to_prime c f ts rest w : holds c f -> PRIME_MIN_T <= length ts -> room c f (length ts) ->
    wp (prime_cache c ts rest) (fun r _ => r.1 = row (f ++ ts) /\ holds r.2 (f ++ ts) /\ max_ctx r.2 = max_ctx c) (fun _ _ => True) w;
  to_step c f t w : holds c f -> room c f 1 ->
    wp (decode_step c t) (fun r _ => r.1 = row (f ++ [t]) /\ holds r.2 (f ++ [t]) /\ max_ctx r.2 = max_ctx c) (fun _ _ => True) w;
  to_aux c f t w : holds c f -> room c f 1 ->
    wp (decode_step_aux c t) (fun r _ => r.1.1 = row (f ++ [t]) /\ length r.1.2 = n_aux /\ holds r.2 (f ++ [t]) /\ max_ctx r.2 = max_ctx c)
      (fun _ _ => True) w;
  to_t c f ts w : holds c f -> ts <> [] -> room c f (length ts) ->
    wp (decode_step_t c ts (length f)) (fun r _ => r.1 = rows row f ts /\ appended c r.2) (fun _ _ => True) w;
  to_aux2 c f ts p w : holds c f -> ts <> [] -> room c f (length ts) -> (forall j, p = Some j -> j < length ts) ->
    wp (decode_step_t_aux2 c ts (length f) p)
      (fun r _ => r.1.1.1 = rows row f ts /\ length r.1.1.2 = n_aux /\ (forall j, p = Some j -> exists a, r.1.2 = Some a /\ length a = n_aux)
         /\ holds r.2 (f ++ ts) /\ max_ctx r.2 = max_ctx c) (fun _ _ => True) w;
  to_am c f ts w : holds c f -> ts <> [] -> room c f (length ts) ->
    wp (decode_step_t_am c ts (length f))
      (fun r _ => length r.1.1 = length ts /\ (forall j, j < length ts -> r.1.1 !! j = Some (next row (f ++ take (S j) ts)))
         /\ length r.1.2 = length ts /\ holds r.2 (f ++ ts) /\ max_ctx r.2 = max_ctx c) (fun _ _ => True) w;
}.
Hypothesis Hto : target_ok.

(** ** Taking back *)

Lemma rolled_back_state c c1 c' : appended c c1 -> restored c c1 0 c' -> same_state c c'.
Proof.
  intros (Hlen & Hmax & Hkv & _) (Hpos & Hmax' & Hk & Hr). split; [done|]. split; [congruence|]. split.
  - clear -Hkv Hk. revert Hkv. induction Hk as [|a a1 a' l l1 l' Ha H IH]; intros Hkv; [constructor|].
    inversion Hkv as [|? ? ? ? H4 H5]; subst. constructor; [|by apply IH].
    destruct a as [x|], a1 as [x1|], a' as [x'|]; try done. destruct Ha as (Hl & Hd & Ek & Ev & Edk & Edv & Et & Eu). cbn in *. unfold kv_same, same_rows in *.
    rewrite Ek, Ev, Hl, Edk, Edv, Et, Eu, Hd, Nat.add_0_r. done.
  - clear -Hr. induction Hr as [|a a1 a' l l1 l' Ha H IH]; constructor; [|done].
    destruct a as [x|], a1 as [x1|], a' as [x'|]; try done. destruct Ha as (E1 & E2 & _).
    cbn. unfold recur_same. by rewrite E1, E2.
Qed.
Lemma appended_shape c c1 : appended c c1 -> same_shape c c1.
Proof.
  intros (Hlen & _ & Hkv & Hr). split; [done| |done]. eapply Forall2_impl; [exact Hkv|]. intros [a|] [a1|] Ha; try done.
Qed.
Lemma wp_roll_back s c c1 w : snap_of c s -> appended c c1 ->
  wp (roll_back s 0 c1) (fun c' _ => same_state c c' /\ max_ctx c' = max_ctx c) (fun _ _ => True) w.
Proof.
  intros Hs Ha. pose proof (appended_shape _ _ Ha) as Hsh. pose proof (wp_rollback s 0 c1 w (snap_of_fits _ _ _ Hs Hsh)) as Hw.
  unfold roll_back. unfold wp in *. destruct (rollback s 0 (w, c1)) as [[w' c'] [[]|er|]]; [|done|done]. destruct Hw as [Ec _]. cbn in Ec. subst c'.
  pose proof (rolled_back_state _ _ _ Ha (rolled_restored _ _ _ 0 Hs Hsh)) as Hst. split; [done|]. by destruct Hst as (_ & ? & _).
Qed.
Lemma wp_cut_layers n kvs w : (forall l, Some l ∈ kvs -> n <= len l) ->
  wp (cut_layers n kvs) (fun kvs' _ => Forall2 (opt_rel (fun l l' => len l = len l' + n /\ value (len_d l') = as_i32 (len l') /\ k l' = k l /\ v l' = v l
       /\ kv_dim_k l' = kv_dim_k l /\ kv_dim_v l' = kv_dim_v l /\ k_tok_bytes l' = k_tok_bytes l /\ v_tok_bytes l' = v_tok_bytes l)) kvs kvs') (fun _ _ => True) w.
Proof.
  revert w. induction kvs as [|[l|] kvs IH]; intros w Hn; cbn [cut_layers]; [by apply wp_ret|..].
  - wp_step. apply wp_massert; [apply Nat.leb_le, Hn; by left|]. unfold set_i32_one. wp_step. wp_step. apply wp_get.
    destruct (dev_ok w) as [b w1]. wp_step. apply wp_put, wp_ret. wp_step. destruct b; [wp_step|by wp_step].
    wp_step. eapply wp_conseq; [apply IH; intros l' Hin; apply Hn; by right|]. intros kvs' w2 H2. apply wp_ret. constructor; [|done].
    assert (n <= len l) by (apply Hn; by left). cbn. split_and!; try done. lia.
  - wp_step. eapply wp_conseq; [apply IH; intros l' Hin; apply Hn; by right|]. intros kvs' w2 H2. apply wp_ret. by constructor.
Qed.

(** ** Verifying *)

Lemma rows_length f ts : length (rows row f ts) = length ts * n_vocab.
Proof. revert f. induction ts as [|t ts IH]; intros f; cbn [rows length]; [done|]. rewrite length_app, IH, (to_row Hto). lia. Qed.
Lemma wp_row_at f ts j w (Q : list spec_float -> dstate -> Prop) (X : KvErr -> dstate -> Prop) :
  j < length ts -> Q (row (f ++ take (S j) ts)) w -> wp (row_at j (rows row f ts)) Q X w.
Proof.
  intros Hj HQ. unfold row_at. wp_step. apply wp_massert; [apply Nat.leb_le; rewrite rows_length; nia|]. apply wp_ret.
  enough (Hr : take n_vocab (drop (j * n_vocab) (rows row f ts)) = row (f ++ take (S j) ts)) by (by rewrite Hr). clear HQ.
  revert f j Hj. induction ts as [|t ts IH]; intros f j Hj; cbn [length rows] in *; [lia|]. destruct j as [|j].
  - cbn [Nat.mul]. rewrite drop_0, take_app_le by (by rewrite (to_row Hto)). rewrite take_ge by (by rewrite (to_row Hto)). done.
  - cbn [Nat.mul]. rewrite drop_app_ge by (rewrite (to_row Hto); lia). rewrite (to_row Hto), Nat.add_comm, Nat.add_sub.
    rewrite IH by lia. rewrite <- app_assoc. done.
Qed.
Lemma wp_t_pred f ts j w (Q : Z -> dstate -> Prop) (X : KvErr -> dstate -> Prop) :
  j <= length ts -> Q (next row (f ++ take j ts)) w -> wp (t_pred (row f) (rows row f ts) j) Q X w.
Proof.
  intros Hj HQ. unfold t_pred. destruct j as [|j]; cbn [Nat.eqb].
  - apply wp_ret. by rewrite app_nil_r in HQ.
  - wp_step. cbn [Nat.sub]. rewrite Nat.sub_0_r. apply (wp_row_at f ts j); [lia|]. by apply wp_ret.
Qed.
Lemma wp_accept f ts n j w (X : KvErr -> dstate -> Prop) : j + n <= length ts -> take j ts = greedy row f j ->
  wp (accept_from n j (row f) (rows row f ts) ts) (fun m _ => m <= j + n /\ take m ts = greedy row f m) X w.
Proof.
  revert j w. induction n as [|n IH]; intros j w Hn Hj; cbn [accept_from]; [apply wp_ret; split; [lia|done]|].
  wp_step. apply wp_t_pred; [lia|]. wp_step. destruct (lookup_lt_is_Some_2 ts j) as [d Hd]; [lia|]. apply wp_unwrap. exists d. split; [done|].
  destruct (Z.eqb_spec (next row (f ++ take j ts)) d) as [<-|_]; [|apply wp_ret; split; [lia|done]].
  eapply wp_conseq; [apply IH; [lia|]|].
  - rewrite (take_S_r _ _ _ Hd), Hj, greedy_S. done.
  - intros m w' [Hm Ht]. split; [lia|done].
Qed.
Lemma push_upto_take n out l : length out <= n -> push_upto n out l = take n (out ++ l).
Proof.
  revert out. induction l as [|t l IH]; intros out Ho; cbn [push_upto]; [by rewrite app_nil_r, take_ge|].
  destruct (Nat.leb_spec n (length out)).
  - rewrite take_app_le by lia. by rewrite take_ge by lia.
  - rewrite IH by (rewrite length_app; simpl; lia). by rewrite <- app_assoc.
Qed.
Lemma push_bonus n out l b : length out <= n ->
  (let o := push_upto n out l in if length o <? n then o ++ [b] else o) = take n (out ++ l ++ [b]).
Proof.
  intros Ho. cbn zeta. rewrite push_upto_take by done. rewrite length_take, app_assoc. destruct (Nat.ltb_spec (Nat.min n (length (out ++ l))) n).
  - rewrite (take_ge (out ++ l)) by lia. rewrite take_ge; [done|]. rewrite length_app. simpl. lia.
  - by rewrite (take_app_le (out ++ l)) by lia.
Qed.

(** ** The plain loop *)

Lemma wp_prime_tokens ts l c f w : holds c f -> room c f (length ts) -> (f <> [] -> l = row f) -> f ++ ts <> [] ->
  wp (prime_tokens ts l c) (fun r _ => r.1 = row (f ++ ts) /\ holds r.2 (f ++ ts) /\ max_ctx r.2 = max_ctx c) (fun _ _ => True) w.
Proof.
  revert l c f w. induction ts as [|t ts IH]; intros l c f w Hc Hroom Hl Hne; cbn [prime_tokens].
  - rewrite app_nil_r in *. apply wp_ret. auto.
  - unfold room in *. cbn [length] in Hroom. wp_step. eapply wp_conseq; [apply (to_step Hto); [done|unfold room; lia]|].
    intros [l' c'] w' (E & Hc' & Hm). cbn [fst snd] in *. subst l'. eapply wp_conseq; [apply IH; [done|rewrite length_app, Hm; simpl; lia|done|by destruct f]|].
    intros [l' c2] w2. cbn [fst snd]. rewrite <- app_assoc, Hm. done.
Qed.
Lemma wp_greedy_loop n out c f w : holds c f -> room c f n ->
  wp (greedy_loop n out (row f) c) (fun r _ => r = out ++ greedy row f n) (fun _ _ => True) w.
Proof.
  revert out c f w. induction n as [|n IH]; intros out c f w Hc Hroom; cbn [greedy_loop greedy]; [apply wp_ret; by rewrite app_nil_r|].
  unfold room in *. wp_step. eapply wp_conseq; [apply (to_step Hto); [done|unfold room; lia]|]. intros [l c'] w' (E & Hc' & Hm). cbn [fst snd] in *. subst l.
  eapply wp_conseq; [apply IH; [done|rewrite length_app, Hm; simpl; lia]|]. intros r w2 ->. by rewrite <- app_assoc.
Qed.
Lemma wp_generate alloc tokenwise prompt n w : prompt <> [] ->
  (forall m w, wp (alloc m) (fun c _ => holds c [] /\ max_ctx c = m) (fun _ _ => True) w) ->
  wp (generate alloc tokenwise prompt n) (fun out _ => out = greedy row prompt n) (fun _ _ => True) w.
Proof.
  intros Hne Ha. unfold generate. wp_step. eapply wp_conseq; [apply Ha|]. intros c w1 [Hc Hm]. wp_step.
  assert (Hp : wp (if (PRIME_MIN_T <=? length prompt) && negb tokenwise then prime_cache c prompt 0 else prime_tokens prompt [] c)
    (fun r _ => r.1 = row ([] ++ prompt) /\ holds r.2 ([] ++ prompt) /\ max_ctx r.2 = max_ctx c) (fun _ _ => True) w1).
  { destruct (_ && _) eqn:E.
    - apply andb_true_iff in E as [E _]. apply Nat.leb_le in E. apply (to_prime Hto); [done..|]. unfold room. simpl. lia.
    - apply wp_prime_tokens; [done| |done|done]. unfold room. simpl. lia. }
  eapply wp_conseq; [exact Hp|]. intros [l c'] w2 (E & Hc' & Hm'). cbn [fst snd app] in *. subst l.
  eapply wp_conseq; [apply wp_greedy_loop; [done|unfold room; lia]|]. by intros r w3 ->.
Qed.

(** ** EAGLE *)
Section EagleSpec.
Context {ea : Eagle}.
Variable scratch_of : nat -> KvLayer -> Prop.

(** The drafter may propose anything, but its calls must be possible: a scratch
    of [m] rows takes [m] tokens, every draft id has a target id. *)
Record eagle_ok : Prop := {
  eo_aux : n_aux = length aux_layers;
  eo_embd : n_embd = draft_n_embd;
  eo_new m w : wp (new_scratch m) (fun s _ => scratch_of m s) (fun _ _ => True) w;
  eo_reset m s : scratch_of m s -> scratch_of m (with_len 0 (len_d s) s);
  eo_fc aux w : length aux = n_aux -> wp (fc aux) (fun _ _ => True) (fun _ _ => True) w;
  eo_draft prev g m s p w : scratch_of m s -> len s < m ->
    wp (draft_token prev g s p) (fun r _ => scratch_of m r.2 /\ len r.2 = S (len s) /\ Z.to_nat (tok_of r.1.1) < length d2t) (fun _ _ => True) w;
}.
Hypothesis Heo : eagle_ok.

Lemma wp_draft_loop n m prev g s p drafts w : scratch_of m s -> len s + n <= m ->
  wp (draft_loop n prev g s p drafts) (fun r _ => length r.1 = length drafts + n /\ scratch_of m r.2) (fun _ _ => True) w.
Proof.
  revert prev g s p drafts w. induction n as [|n IH]; intros prev g s p drafts w Hs Hn; cbn [draft_loop]; [apply wp_ret; split; [cbn [fst]; lia|done]|].
  wp_step. eapply wp_conseq; [apply (eo_draft Heo prev g m); [done|lia]|]. intros [[dl g'] s'] w1 (Hs' & Hl & Hd). cbn [fst snd] in *.
  unfold d2t_map. wp_step. wp_step. destruct (lookup_lt_is_Some_2 _ _ Hd) as [x Hx]. apply wp_unwrap. exists x. split; [done|]. apply wp_ret.
  eapply wp_conseq; [apply IH; [done|lia]|]. intros r w2 [H4 H5]. rewrite length_app in H4. simpl in H4. split; [lia|done].
Qed.

Record going (prompt : list Z) (max_new k : nat) (r : Round) (g : list Z) : Prop := {
  go_greedy : g = greedy row prompt (length g);
  go_some : g <> [];
  go_cache : holds (r_cache r) (prompt ++ g);
  go_logits : r_logits r = row (prompt ++ g);
  go_aux : length (r_prev_aux r) = n_aux /\ length (r_aux r) = n_aux;
  go_scratch : scratch_of (k + 1) (r_scratch r);
  go_ctx : max_ctx (r_cache r) = length prompt + max_new + k + 8;
  go_out : r_out r = take (Nat.max 1 max_new) g;
  go_count : r_accepted r <= r_drafted r;
}.
Lemma wp_eagle_round prompt shift d max_new k r g w : 0 < k -> going prompt max_new k r g -> length (r_out r) < max_new ->
  wp (eagle_round shift d max_new k r) (fun r' _ => exists g', going prompt max_new k r' g' /\ length g < length g') (fun _ _ => True) w.
Proof.
  intros Hk [Hg Hsome Hc Hl [Ha1 Ha2] Hs Hctx Hout Hcnt] Hlt.
  assert (Hog : r_out r = g).
  { rewrite Hout. apply take_ge. rewrite Hout, length_take in Hlt. lia. }
  assert (Hgn : length g < max_new) by (by rewrite <- Hog). set (F := prompt ++ g) in *.
  assert (HF : length F = length prompt + length g) by apply length_app.
  unfold eagle_round. rewrite (to_pos Hto _ _ Hc). wp_step. eapply wp_conseq; [apply wp_snapshot; symmetry; by apply (to_shape Hto _ F)|].
  intros snap w1 [Hsnap _]. unfold encode. wp_step. wp_step. apply wp_massert; [apply Nat.eqb_eq; rewrite <- (eo_aux Heo); by destruct shift|].
  eapply wp_conseq; [apply (eo_fc Heo); by destruct shift|]. intros gh w2 _. wp_step.
  eapply wp_conseq; [apply (wp_draft_loop k (k + 1)); [by apply (eo_reset Heo)|cbn; lia]|]. intros [drafts s'] w3 [Hd Hs']. cbn [fst snd length plus] in *.
  assert (Hne : drafts <> []) by (intros ->; simpl in Hd; lia).
  wp_step. eapply wp_conseq; [apply (to_t Hto _ F); [done|done|unfold room; lia]|]. intros [tl c1] w4 [E Happ]. cbn [fst snd] in *. subst tl.
  rewrite Hl. wp_step. eapply wp_conseq; [apply (wp_accept F drafts k 0); [lia|done]|]. intros m w5 [Hm Hacc].
  wp_step. apply wp_t_pred; [lia|]. set (bonus := next row (F ++ take m drafts)). wp_step.
  eapply wp_conseq; [by apply (wp_roll_back snap (r_cache r))|]. intros c' w6 [Hst Hmax].
  assert (Hc' : holds c' F) by (by apply (to_state Hto (r_cache r))).
  assert (Hrep : take m drafts ++ [bonus] = greedy row F (S m)) by (unfold bonus; by rewrite Hacc, greedy_S).
  set (replay := take m drafts ++ [bonus]) in *.
  assert (Hrl : length replay = S m) by (by rewrite Hrep, greedy_length). wp_step.
  eapply wp_conseq; [apply (to_aux2 Hto c' F replay); [done|by intros Hz; rewrite Hz in Hrl|unfold room; lia|]|].
  { intros j. destruct (Nat.eqb_spec m 0); [done|]. intros [= <-]. lia. }
  intros [[[rl al] ap] c2] w7 (E & Hal & Hap & Hc2 & Hmax2). cbn [fst snd] in *. subst rl.
  wp_step. apply (wp_row_at F replay); [lia|]. rewrite (take_ge replay) by lia. wp_step.
  assert (Hpa : wp (if m =? 0 then ret (r_aux r) else unwrap ap : D (list hid)) (fun a _ => length a = n_aux) (fun _ _ => True) w7).
  { destruct (Nat.eqb_spec m 0); [by apply wp_ret|]. apply wp_unwrap. destruct (Hap _ eq_refl) as (a & -> & Hla). by exists a. }
  eapply wp_conseq; [exact Hpa|]. intros pa w8 Hpa'. apply wp_ret. exists (g ++ replay).
  assert (Hgl : length (g ++ replay) = length g + S m) by (by rewrite length_app, Hrl). split; [|lia]. split; cbn [r_cache r_logits r_prev_aux r_aux r_scratch r_out r_accepted r_drafted].
  - rewrite Hgl, greedy_add, <- Hg. by rewrite Hrep.
  - by destruct g.
  - by rewrite app_assoc.
  - by rewrite app_assoc.
  - done.
  - done.
  - congruence.
  - rewrite push_bonus by lia. rewrite Hog, Nat.max_r by lia. done.
  - lia.
Qed.
Lemma wp_eagle_loop prompt fuel shift d max_new k r g w : 0 < k -> going prompt max_new k r g -> max_new <= length (r_out r) + fuel ->
  wp (eagle_loop fuel shift d max_new k r) (fun r' _ => exists g', going prompt max_new k r' g' /\ max_new <= length (r_out r')) (fun _ _ => True) w.
Proof.
  intros Hk. revert r g w. induction fuel as [|fuel IH]; intros r g w Hg Hf; cbn [eagle_loop].
  { apply wp_ret. exists g. split; [done|lia]. }
  destruct (Nat.leb_spec max_new (length (r_out r))); [apply wp_ret; by exists g|]. wp_step.
  eapply wp_conseq; [by apply (wp_eagle_round prompt _ _ _ _ _ g)|]. intros r' w' (g' & Hg' & Hlt). apply (IH _ g'); [done|].
  rewrite (go_out _ _ _ _ _ Hg), length_take in *. rewrite (go_out _ _ _ _ _ Hg'), length_take. lia.
Qed.
Lemma wp_prime_aux ts la c f w : holds c f -> room c f (length ts) -> (f <> [] -> la.1 = row f /\ length la.2 = n_aux) -> f ++ ts <> [] ->
  wp (prime_aux ts la c) (fun r _ => r.1.1 = row (f ++ ts) /\ length r.1.2 = n_aux /\ holds r.2 (f ++ ts) /\ max_ctx r.2 = max_ctx c) (fun _ _ => True) w.
Proof.
  revert la c f w. induction ts as [|t ts IH]; intros la c f w Hc Hroom Hl Hne; cbn [prime_aux].
  - rewrite app_nil_r in *. apply wp_ret. destruct (Hl Hne). auto.
  - unfold room in *. cbn [length] in Hroom. wp_step. eapply wp_conseq; [apply (to_aux Hto); [done|unfold room; lia]|].
    intros [[l' a'] c'] w' (E & Ha & Hc' & Hm). cbn [fst snd] in *. subst l'.
    eapply wp_conseq; [apply IH; [done|rewrite length_app, Hm; simpl; lia|done|by destruct f]|].
    intros [[l' a2] c2] w2. cbn [fst snd]. rewrite <- app_assoc, Hm. done.
Qed.
Lemma wp_generate_spec_eagle alloc shift d prompt max_new k w : prompt <> [] -> 0 < k ->
  (forall m w, wp (alloc m) (fun c _ => holds c [] /\ max_ctx c = m) (fun _ _ => True) w) ->
  wp (generate_spec_eagle alloc shift d prompt max_new k) (fun r _ => r.1.1 = greedy row prompt max_new /\ r.2 <= r.1.2) (fun _ _ => True) w.
Proof.
  intros Hne Hk Ha. unfold generate_spec_eagle. wp_step. apply wp_massert; [by apply Nat.leb_le|]. wp_step. apply wp_massert; [by destruct prompt|].
  wp_step. apply wp_massert; [apply Nat.eqb_eq, (eo_embd Heo)|]. wp_step. eapply wp_conseq; [apply Ha|]. intros c w1 [Hc Hm].
  wp_step. eapply wp_conseq; [apply (wp_prime_aux prompt ([], []) c []); [done|unfold room; simpl; lia|done|done]|].
  intros [[pl pa] c1] w2 (E & Hpa & Hc1 & Hm1). cbn [fst snd app] in *. subst pl. wp_step.
  eapply wp_conseq; [apply (eo_new Heo)|]. intros s w3 Hs. wp_step.
  eapply wp_conseq; [apply (to_aux Hto c1 prompt); [done|unfold room; lia]|]. intros [[l a] c2] w4 (E & Hla & Hc2 & Hm2). cbn [fst snd] in *. subst l.
  wp_step. eapply wp_conseq; [apply (wp_eagle_loop prompt max_new shift d max_new k _ [tok_of (row prompt)]); [done| |simpl; lia]|].
  { split; cbn [r_cache r_logits r_prev_aux r_aux r_scratch r_out r_accepted r_drafted]; try done; [congruence|].
    rewrite take_ge; [done|]. cbn [length]. lia. }
  intros r w5 (g & Hg & Hlen). apply wp_ret. cbn [fst snd]. split; [|apply Hg].
  rewrite (go_out _ _ _ _ _ Hg) in *. rewrite length_take in Hlen. rewrite take_take, (go_greedy _ _ _ _ _ Hg), greedy_take by lia.
  destruct max_new as [|n]; [done|]. by rewrite Nat.min_l by lia.
Qed.
End EagleSpec.

(** ** DFlash *)
Section DflashSpec.
Context {df : Dflash}.
Variables (prime_taps : Cache -> list Z -> D (list spec_float * list hid * Cache)) (eos : list Z).

(** The drafter proposes any [block_size - 1] tokens; the model has attention
    layers only, every one of them with all the tokens. *)
Record dflash_ok : Prop := {
  do_embd : n_embd = hidden;
  do_new m w : wp (new_dkv m) (fun _ _ => True) (fun _ _ => True) w;
  do_ingest s a p w : wp (ingest_ctx s a p) (fun _ _ => True) (fun _ _ => True) w;
  do_round s t p w : wp (forward_round s t p) (fun r _ => length r.1 = block_size - 1) (fun _ _ => True) w;
  do_prime c ts w : holds c [] -> room c [] (length ts) -> PRIME_MIN_T <= length ts ->
    wp (prime_taps c ts) (fun r _ => r.1.1 = row ts /\ length r.1.2 = length ts /\ holds r.2 ts /\ max_ctx r.2 = max_ctx c) (fun _ _ => True) w;
  do_dense c f : holds c f -> Forall (fun r => r = None) (recur c) /\ forall l, Some l ∈ kv c -> len l = length f;
}.
Hypothesis Hdo : dflash_ok.

Lemma wp_clamp x lo hi w (X : KvErr -> dstate -> Prop) : lo <= hi -> wp (clamp x lo hi) (fun y _ => lo <= y <= hi) X w.
Proof. intros H. unfold clamp. wp_step. apply wp_massert; [by apply Nat.leb_le|]. apply wp_ret. lia. Qed.
Lemma wp_ingest_windows fuel tp s taps r0 w : tp <= length taps ->
  wp (ingest_windows fuel tp s taps r0) (fun _ _ => True) (fun _ _ => True) w.
Proof.
  intros Hl. revert s r0 w. induction fuel as [|fuel IH]; intros s r0 w; cbn [ingest_windows]; [by apply wp_ret|].
  destruct (Nat.ltb_spec r0 tp); [|by apply wp_ret]. wp_step. apply wp_massert; [apply Nat.leb_le; lia|]. wp_step.
  eapply wp_conseq; [apply (do_ingest Hdo)|]. intros s' w' _. apply IH.
Qed.
Lemma wp_cut f ts c w : holds c (f ++ ts) ->
  wp (cut_cache (length ts) c) (fun c' _ => holds c' f /\ max_ctx c' = max_ctx c) (fun _ _ => True) w.
Proof.
  intros Hc. destruct (do_dense Hdo _ _ Hc) as [Hr Hl]. pose proof (to_pos Hto _ _ Hc) as Hp. rewrite length_app in *. unfold cut_cache.
  wp_step. eapply wp_conseq; [apply wp_cut_layers; intros l Hin; rewrite (Hl l Hin); lia|]. intros kvs w1 Hk. wp_step.
  apply wp_massert; [apply Nat.leb_le; lia|]. apply wp_ret. split; [|done]. eapply (to_cut Hto); [exact Hc|].
  split; [cbn; lia|]. split; [done|]. split; [done|]. by split.
Qed.
Lemma wp_accept_run F block vam n m w (X : KvErr -> dstate -> Prop) : m + n < length vam -> length vam <= length block ->
  (forall j, j < length vam -> vam !! j = Some (next row (F ++ take (S j) block))) -> take (S m) block = greedy row F (S m) ->
  wp (accept_run n m block vam) (fun m' _ => m' <= m + n /\ take (S m') block = greedy row F (S m')) X w.
Proof.
  intros Hn Hl Hv. revert m w Hn. induction n as [|n IH]; intros m w Hn Hm; cbn [accept_run]; [apply wp_ret; split; [lia|done]|].
  destruct (lookup_lt_is_Some_2 block (m + 1)) as [b Hb]; [lia|]. wp_step. apply wp_unwrap. exists b. split; [done|]. wp_step. apply wp_unwrap.
  eexists. split; [apply Hv; lia|]. destruct (Z.eqb_spec b (next row (F ++ take (S m) block))) as [E|_]; [|apply wp_ret; split; [lia|done]].
  eapply wp_conseq; [apply IH; [lia|]|].
  - rewrite Nat.add_1_r in *. rewrite (take_S_r _ _ _ Hb), E, Hm. by rewrite (greedy_S row F (S m)).
  - intros m' w' [H4 H5]. split; [lia|done].
Qed.
(** What [push_drafts] appends: all of [l], or its tokens up to the one that stopped it. *)
Lemma push_drafts_spec n out l out' stop : push_drafts eos n out l = (out', stop) ->
  exists j, j <= length l /\ out' = out ++ take j l
    /\ (forall i t, i + 1 < j -> l !! i = Some t -> t ∉ eos)
    /\ (stop = false -> j = length l /\ (forall t, t ∈ l -> t ∉ eos) /\ (l <> [] -> length out' < n))
    /\ (stop = true -> (exists t, last out' = Some t /\ t ∈ eos) \/ n <= length out')
    /\ length out' <= Nat.max n (length out + 1).
Proof.
  revert out. induction l as [|t l IH]; intros out; cbn [push_drafts].
  { intros [= <- <-]. exists 0. rewrite app_nil_r. split; [done|]. split; [done|]. split; [lia|]. split; [|split; [done|lia]].
    intros _. split; [done|]. split; [|done]. intros t Ht. by apply elem_of_nil in Ht. }
  destruct (_ || _) eqn:E.
  - intros [= <- <-]. exists 1. cbn [take]. split; [simpl; lia|]. split; [done|]. split; [lia|]. split; [done|]. rewrite length_app. simpl. split; [|lia].
    intros _. apply orb_true_iff in E as [E|E]; [left|right; apply Nat.leb_le in E; by rewrite length_app in E].
    apply bool_decide_eq_true in E. exists t. split; [apply last_snoc|done].
  - apply orb_false_iff in E as [E1 E2]. apply bool_decide_eq_false in E1. apply Nat.leb_gt in E2. rewrite length_app in E2. simpl in E2.
    intros Hp. destruct (IH _ Hp) as (j & Hj & Eo & Hno & Hgo & Hst & Hmax). exists (S j). cbn [take length]. split; [lia|].
    split; [by rewrite Eo, <- app_assoc|]. split; [|split; [|split; [done|rewrite length_app in Hmax; simpl in Hmax; lia]]].
    + intros [|i] x Hi; cbn; [by intros [= <-]|]. intros Hx. apply (Hno i); [lia|done].
    + intros Hs. destruct (Hgo Hs) as (-> & Hall & Hlt). split; [done|]. split; [set_solver|]. intros _.
      destruct l as [|y l]; [|by apply Hlt]. rewrite Eo, !length_app. simpl. lia.
Qed.

(** The tokens so far: greedy, and before the last none ends the generation. *)
Record running (prompt : list Z) (max_new vt_cap : nat) (r : DRound) (g : list Z) : Prop := {
  ru_greedy : g = greedy row prompt (length g);
  ru_out : d_out r = g;
  ru_cache : holds (d_cache r) (prompt ++ g);
  ru_last : d_last r = next row (prompt ++ g);
  ru_vt : 2 <= d_vt r <= vt_cap;
  ru_ctx : max_ctx (d_cache r) = length prompt + max_new + block_size + 8;
  ru_eos : forall t, t ∈ g -> t ∉ eos;
  ru_len : length g <= max_new;
}.
(** A stopped generation. *)
Record ended (prompt : list Z) (max_new : nat) (out : list Z) : Prop := {
  en_greedy : out = greedy row prompt (length out);
  en_len : length out <= max_new + 1;
  en_eos i t : i + 1 < length out -> out !! i = Some t -> t ∉ eos;
  en_why : (exists t, last out = Some t /\ t ∈ eos) \/ max_new <= length out;
}.
Lemma wp_dflash_round prompt adapt vt_cap max_new r g w : running prompt max_new vt_cap r g -> length g < max_new -> vt_cap <= block_size ->
  (adapt = true -> 3 <= vt_cap) ->
  wp (dflash_round adapt vt_cap max_new eos r)
    (fun x _ => if x.2 then ended prompt max_new (d_out x.1) else exists g', running prompt max_new vt_cap x.1 g' /\ length g < length g')
    (fun _ _ => True) w.
Proof.
  intros [Hg Ho Hc Hlast Hvt Hctx Heos Hlen] Hlt Hcap Had. set (F := prompt ++ g) in *.
  assert (HF : length F = length prompt + length g) by apply length_app.
  unfold dflash_round. rewrite (to_pos Hto _ _ Hc). wp_step. eapply wp_conseq; [apply (do_round Hdo)|]. intros [drafts kv'] w1 Hd. cbn [fst] in Hd.
  wp_step. apply wp_massert; [by apply Nat.eqb_eq|]. set (block := d_last r :: drafts).
  assert (Hbl : length block = block_size) by (unfold block; simpl; lia). wp_step. apply wp_massert; [apply Nat.leb_le; lia|].
  set (blk := take (d_vt r) block). assert (Hblk : length blk = d_vt r) by (unfold blk; rewrite length_take; lia).
  assert (Htk : forall j, j <= d_vt r -> take j blk = take j block) by (intros j Hj; unfold blk; rewrite take_take, Nat.min_l by lia; done).
  wp_step. eapply wp_conseq; [apply (to_am Hto _ F blk); [done|by intros Hz; rewrite Hz in Hblk; simpl in Hblk; lia|unfold room; lia]|].
  intros [[vam taps] c1] w2 (Hvl & Hvam & Htl & Hc1 & Hm1). cbn [fst snd] in *. rewrite Hblk in *.
  wp_step. eapply wp_conseq; [apply (wp_accept_run F block vam (d_vt r - 1) 0); [lia|lia| |]|].
  { intros j Hj. rewrite Hvl in Hj. rewrite Hvam by done. by rewrite Htk by lia. }
  { unfold block. cbn [take greedy]. by rewrite Hlast. }
  intros m w3 [Hm Hacc]. cbn [plus] in Hm.
  assert (Hsplit : d_last r :: take m drafts = greedy row F (S m)) by (rewrite <- Hacc; done).
  assert (Hfirst : take m drafts = drop 1 (greedy row F (S m))) by (by rewrite <- Hsplit).
  assert (Hpre : forall j, j <= m -> (g ++ [d_last r]) ++ take j (take m drafts) = greedy row prompt (length g + S j)).
  { intros j Hj. rewrite greedy_add, <- Hg. fold F. rewrite <- (greedy_take row F (S j) (S m)) by lia. rewrite <- Hsplit, <- app_assoc. done. }
  assert (Hmd : length (take m drafts) = m) by (rewrite length_take; lia).
  rewrite Ho. destruct (if bool_decide (d_last r ∈ eos) then _ else _) as [out' stop] eqn:Ep.
  assert (Hout : exists j, j <= m /\ out' = greedy row prompt (length g + S j) /\ length out' = length g + S j /\ length out' <= max_new + 1
      /\ (forall i t, i + 1 < length out' -> out' !! i = Some t -> t ∉ eos)
      /\ (stop = false -> j = m /\ (forall t, t ∈ out' -> t ∉ eos) /\ length out' <= max_new)
      /\ (stop = true -> (exists t, last out' = Some t /\ t ∈ eos) \/ max_new <= length out')).
  { case_bool_decide as He.
    - injection Ep as <- <-. exists 0. rewrite <- Hpre by lia. rewrite take_0, app_nil_r, !length_app. simpl.
      split; [lia|]. split; [done|]. split; [lia|]. split; [lia|]. split; [|split; [done|]].
      + intros i t Hi Ht. rewrite lookup_app_l in Ht by lia. apply Heos. by eapply list_elem_of_lookup_2.
      + intros _. left. exists (d_last r). split; [apply last_snoc|done].
    - apply push_drafts_spec in Ep as (j & Hj & -> & Hno & Hgo & Hst & Hmax). rewrite Hmd in Hj. exists j.
      assert (Hln : length ((g ++ [d_last r]) ++ take j (take m drafts)) = length g + S j).
      { rewrite !length_app, length_take, Hmd. simpl. lia. }
      assert (Hl1 : length (g ++ [d_last r]) = length g + 1) by (rewrite length_app; done). rewrite Hl1 in Hmax. split; [done|]. split; [by apply Hpre|]. split; [done|]. split; [lia|]. split; [|split; [|done]].
      + intros i t Hi Ht. rewrite Hln in Hi. apply lookup_app_Some in Ht as [Ht|[Hge Ht]].
        * apply lookup_app_Some in Ht as [Ht|[_ Ht]]; [apply Heos; by eapply list_elem_of_lookup_2|].
          apply list_elem_of_lookup_2, list_elem_of_singleton in Ht as ->. done.
        * rewrite length_app in *. simpl in *. apply lookup_take_Some in Ht as [Ht Hi']. apply (Hno (i - (length g + 1))); [lia|done].
      + intros Hs. destruct (Hgo Hs) as (Ej & Hall & Hlim). rewrite Hmd in Ej. subst j. split; [done|]. rewrite (take_ge (take m drafts)) by lia. split.
        * intros t Ht. apply elem_of_app in Ht as [Ht|Ht]; [|by apply Hall]. apply elem_of_app in Ht as [Ht|Ht]; [by apply Heos|].
          by apply list_elem_of_singleton in Ht as ->.
        * destruct (take m drafts) as [|y l] eqn:El; [rewrite app_nil_r, length_app; simpl; lia|]. rewrite <- El in *.
          rewrite (take_ge (take m drafts)) in Hlim by lia. apply Nat.lt_le_incl, Hlim. by rewrite El. }
  destruct Hout as (j & Hj & Eo & Hol & Hol1 & Hoe & Hcont & Hstop). destruct stop.
  { apply wp_ret. cbn [fst snd d_out]. split; [by rewrite Hol|done|done|by apply Hstop]. }
  destruct (Hcont eq_refl) as (-> & Hall & Hle). wp_step. apply wp_unwrap. exists (next row (F ++ take (S m) blk)).
  split; [apply Hvam; lia|]. rewrite Htk by lia. wp_step.
  assert (Hsplit2 : F ++ blk = (F ++ take (S m) block) ++ drop (S m) blk) by (by rewrite <- app_assoc, <- Htk, take_drop by lia).
  assert (Hcutn : d_vt r - (m + 1) = length (drop (S m) blk)) by (rewrite length_drop; lia). rewrite Hcutn.
  rewrite Hsplit2 in Hc1. eapply wp_conseq; [by apply wp_cut|]. intros c2 w4 [Hc2 Hm2]. wp_step. apply wp_massert; [apply Nat.leb_le; lia|].
  wp_step. eapply wp_conseq; [apply (do_ingest Hdo)|]. intros kv2 w5 _. wp_step.
  apply wp_conseq with (fun vt _ => 2 <= vt <= vt_cap).
  { destruct adapt; [|by apply wp_ret]. eapply wp_conseq; [apply wp_clamp; by apply Had|]. intros vt w6 [Hv1 Hv2]. split; [lia|done]. }
  intros vt w6 [Hv1 Hv2]. apply wp_ret. cbn [fst snd]. exists out'. split; [|lia].
  assert (Eo2 : out' = g ++ take (S m) block) by (rewrite Eo, <- Hpre by lia; rewrite (take_ge (take m drafts)) by lia; by rewrite <- app_assoc).
  split; cbn [d_out d_cache d_last d_vt]; [by rewrite Hol|done| | |done|congruence|done|done].
  - rewrite Eo2, app_assoc. done.
  - rewrite Eo2, app_assoc. done.
Qed.
Lemma wp_dflash_loop prompt fuel adapt vt_cap max_new r g w : running prompt max_new vt_cap r g -> vt_cap <= block_size ->
  (adapt = true -> 3 <= vt_cap) -> max_new <= length g + fuel ->
  wp (dflash_loop fuel adapt vt_cap max_new eos r) (fun r' _ => ended prompt max_new (d_out r')) (fun _ _ => True) w.
Proof.
  intros Hr Hcap Had. assert (Hend : forall r g, running prompt max_new vt_cap r g -> max_new <= length g -> ended prompt max_new (d_out r)).
  { intros r0 g0 [H4 -> _ _ _ _ H5 H6] Hle. split; [done|lia| |by right]. intros i t _ Ht. apply H5. by eapply list_elem_of_lookup_2. }
  revert r g w Hr. induction fuel as [|fuel IH]; intros r g w Hr Hf; cbn [dflash_loop]; [apply wp_ret, (Hend r g); [done|lia]|].
  rewrite (ru_out _ _ _ _ _ Hr). destruct (Nat.leb_spec max_new (length g)); [apply wp_ret; by apply (Hend r g)|].
  wp_step. eapply wp_conseq; [by apply (wp_dflash_round prompt _ _ _ _ g)|]. intros [r' [|]] w' H4; cbn [fst snd] in *; [by apply wp_ret|].
  destruct H4 as (g' & Hg' & Hlt). apply (IH r' g'); [done|lia].
Qed.
Lemma wp_generate_spec_dflash alloc verify_t adapt prompt max_new w : PRIME_MIN_T <= length prompt ->
  2 <= block_size -> (adapt = true -> 3 <= verify_t /\ 3 <= block_size) -> length prompt + max_new + block_size + 8 <= sliding_window ->
  (forall m w, wp (alloc m) (fun c _ => holds c [] /\ max_ctx c = m) (fun _ _ => True) w) ->
  wp (generate_spec_dflash alloc prime_taps verify_t adapt prompt max_new eos) (fun out _ => ended prompt max_new out) (fun _ _ => True) w.
Proof.
  intros Hp Hb Had Hwin Ha. unfold generate_spec_dflash. wp_step. apply wp_massert; [apply Nat.eqb_eq, (do_embd Hdo)|].
  wp_step. apply wp_massert; [by apply Nat.leb_le|]. wp_step. eapply wp_conseq; [apply Ha|]. intros c w1 [Hc Hm].
  wp_step. eapply wp_conseq; [apply (do_prime Hdo); [done|unfold room; simpl; lia|done]|]. intros [[l taps] c1] w2 (E & Htl & Hc1 & Hm1). cbn [fst snd] in *. subst l.
  wp_step. eapply wp_conseq; [apply (do_new Hdo)|]. intros kv w3 _. wp_step. eapply wp_conseq; [apply wp_ingest_windows; lia|]. intros kv' w4 _.
  wp_step. unfold clamp at 1. wp_step. apply wp_massert; [by apply Nat.leb_le|]. wp_step. set (cap := Nat.min (Nat.max verify_t 2) block_size).
  wp_step. eapply wp_conseq; [apply (wp_dflash_loop prompt max_new adapt cap max_new _ []); [|unfold cap; lia| |simpl; lia]|].
  - split; cbn [d_out d_cache d_last d_vt]; try done; [by rewrite app_nil_r|by rewrite app_nil_r|unfold cap; lia|congruence| |simpl; lia].
    intros t Ht. by apply elem_of_nil in Ht.
  - intros Ha'. specialize (Had Ha'). unfold cap. lia.
  - intros r w5 Hend. by apply wp_ret.
Qed.
End DflashSpec.
End Target.



(** ** Concrete instances *)
Module SpecWitness.
Import ToyKv ToyRows.
(** After a token [t] comes [t + 1], modulo eight. *)
Definition hot (i : Z) : list spec_float := (fun j => if (j =? i)%Z then f32_one else f32_zero) <$> seqZ 0 8.
Definition toy_row (f : list Z) : list spec_float := hot (match last f with Some t => (t + 1) mod 8 | None => 0 end)%Z.
#[local] Instance toy_target : Target := {
  hid := unit;
  n_vocab := 8;
  n_embd := 4;
  prime_cache c ts _ := ret (toy_row (fed_tokens c ++ ts), feed c ts);
  decode_step c t := ret (toy_row (fed_tokens c ++ [t]), feed c [t]);
  decode_step_aux c t := ret (toy_row (fed_tokens c ++ [t]), [tt], feed c [t]);
  decode_step_t c ts _ := ret (rows toy_row (fed_tokens c) ts, feed c ts);
  decode_step_t_aux2 c ts _ p := ret (rows toy_row (fed_tokens c) ts, [tt], (fun _ => [tt]) <$> p, feed c ts);
  decode_step_t_am c ts _ :=
    ret ((fun j => next toy_row (fed_tokens c ++ take (S j) ts)) <$> seq 0 (length ts), replicate (length ts) tt, feed c ts);
}.
(** Drafters that guess right until the token 3, which they repeat. *)
Definition guess (t : Z) : Z := if (t =? 3)%Z then 3%Z else ((t + 1) mod 8)%Z.
Definition toy_scratch : KvLayer := mkKv (mkBytes 0 5 []) (mkBytes 1 5 []) 1 1 1 1 0 (mkInt 2 5 0).
#[local] Instance toy_eagle : Eagle := {
  dhid := unit;
  draft_n_embd := 4;
  aux_layers := [2];
  d2t := replicate 8 0%Z;
  new_scratch _ := ret toy_scratch;
  fc _ := ret tt;
  draft_token t _ s _ := ret (hot (guess t), tt, with_len (S (len s)) (len_d s) s);
}.
#[local] Instance toy_dflash : Dflash := {
  dkv := unit;
  hidden := 4;
  block_size := 4;
  sliding_window := 64;
  new_dkv _ := ret tt;
  ingest_ctx _ _ _ := ret tt;
  forward_round _ t _ := ret ([guess t; guess (guess t); guess (guess (guess t))], tt);
}.
Definition toy_taps (c : Cache) (ts : list Z) : D (list spec_float * list unit * Cache) := ret (toy_row ts, replicate (length ts) tt, feed c ts).

Lemma Forall2_one {A B} (P : A -> B -> Prop) x (l : list B) : Forall2 P [x] l -> exists y, l = [y] /\ P x y.
Proof. intros Hl. inversion Hl as [|? y ? ? Hy Hnil]. subst. inversion Hnil. by exists y. Qed.
Lemma toy_row_length f : length (toy_row f) = 8.
Proof. unfold toy_row, hot. by rewrite length_fmap. Qed.
Lemma forward_argmax_bound i best bv l : best < i + length l \/ best = 0 -> argmax_from i best bv l < i + length l \/ argmax_from i best bv l = 0.
Proof.
  revert i best bv. induction l as [|v l IH]; intros i best bv Hb; cbn [argmax_from length] in *; [done|].
  rewrite <- Nat.add_succ_comm in *. destruct (f_gt v bv); apply IH; [left; lia|done].
Qed.
Lemma hot_tok i : Z.to_nat (tok_of (hot i)) < 8.
Proof.
  unfold tok_of, argmax. destruct (forward_argmax_bound 0 0 (S754_infinity true) (hot i)) as [Hb|Hb]; [by right| |rewrite Hb; apply Nat.ltb_lt; reflexivity].
  replace (length (hot i)) with 8 in Hb by (unfold hot; by rewrite length_fmap). rewrite wrap_small by (unfold in_u; lia). lia.
Qed.
Lemma feed_appended c f ts : toy_holds c f -> length f + length ts <= max_ctx c -> appended c (feed c ts).
Proof.
  intros (_ & Hr & Hl & bk & bv & d & Hk & [Hbk Hf] & [Hbv Hg]) Hle. unfold appended, feed. rewrite Hk. cbn [recur kv max_ctx]. rewrite Hr.
  split; [done|]. split; [done|]. split; [|by repeat constructor]. constructor; [|constructor]. cbn. unfold same_rows. cbn. rewrite !Nat.mul_1_r.
  unfold b_size in *. cbn [b_data]. rewrite !length_app, !length_take, !length_drop. do 4 (split; [done|]). split; [lia|]. split; [lia|].
  split; rewrite take_app_le by (rewrite length_take; lia); by rewrite take_take, Nat.min_id.
Qed.
Lemma toy_target_ok : target_ok toy_row toy_holds 1.
Proof.
  assert (Hfeed : forall c f ts, toy_holds c f -> room c f (length ts) -> fed_tokens c = f /\ toy_holds (feed c ts) (f ++ ts) /\ max_ctx (feed c ts) = max_ctx c).
  { intros c f ts Hc Hroom. split; [by apply fed_tokens_holds|]. by apply feed_holds. }
  split.
  - simpl. lia.
  - apply toy_row_length.
  - by intros c f (H & _).
  - intros c f (_ & Hr & _ & bk & bv & d & Hk & _). by rewrite Hr, Hk.
  - intros c c' f (Hp & Hr & Hl & bk & bv & d & Hk & [Hbk Hf] & [Hbv Hg]) (Hp' & Hm & Hkv & Hrec).
    rewrite Hk in Hkv. rewrite Hr in Hrec. apply Forall2_one in Hkv as ([l'|] & Ek' & Hl'); [|done]. apply Forall2_one in Hrec as ([r'|] & Er' & Hr'); [done|].
    destruct l' as [bk' bv' dk' dv' kt' vt' n' d']. destruct Hl' as (En & _ & Edk & Edv & Ekt & Evt & Esk & Esv & Hk' & Hv'). cbn in *. subst n' kt' vt' dk' dv'.
    rewrite !Nat.mul_1_r in *. split; [congruence|]. split; [done|]. split; [lia|]. exists bk', bv', d'. split; [done|]. unfold holds_rows. rewrite Hk', Hv'. split; split; congruence.
  - intros c c' f ts (Hp & Hr & Hl & bk & bv & d & Hk & [Hbk Hf] & [Hbv Hg]) (Hp' & Hm & Hr' & _ & Hkv).
    rewrite Hk in Hkv. apply Forall2_one in Hkv as ([l'|] & Ek' & Hl'); [|done].
    destruct l' as [bk' bv' dk' dv' kt' vt' n' d']. destruct Hl' as (En & _ & Ek & Ev & Edk & Edv & Ekt & Evt). cbn in *. subst kt' vt' dk' dv' bk' bv'.
    rewrite length_app in *. assert (n' = length f) as -> by lia. split; [lia|]. split; [congruence|]. split; [lia|]. exists bk, bv, d'. split; [done|].
    unfold holds_rows. rewrite Hm. split; (split; [done|]).
    + apply (f_equal (take (length f))) in Hf. rewrite take_take, take_app_length, Nat.min_l in Hf by lia. done.
    + apply (f_equal (take (length f))) in Hg. rewrite take_take, take_app_length, Nat.min_l in Hg by lia. done.
  - intros c f ts rest w Hc _ Hroom. destruct (Hfeed c f ts Hc Hroom) as (E & H4 & H5). apply wp_ret. by rewrite E.
  - intros c f t w Hc Hroom. destruct (Hfeed c f [t] Hc Hroom) as (E & H4 & H5). apply wp_ret. by rewrite E.
  - intros c f t w Hc Hroom. destruct (Hfeed c f [t] Hc Hroom) as (E & H4 & H5). apply wp_ret. by rewrite E.
  - intros c f ts w Hc _ Hroom. destruct (Hfeed c f ts Hc Hroom) as (E & H4 & H5). apply wp_ret. rewrite E. split; [done|]. by apply (feed_appended c f).
  - intros c f ts p w Hc _ Hroom _. destruct (Hfeed c f ts Hc Hroom) as (E & H4 & H5). apply wp_ret. rewrite E. split; [done|]. split; [done|].
    split; [|done]. intros j ->. by exists [tt].
  - intros c f ts w Hc _ Hroom. destruct (Hfeed c f ts Hc Hroom) as (E & H4 & H5). apply wp_ret. rewrite E. cbn [fst snd].
    rewrite length_fmap, length_seq, length_replicate. split; [done|]. split; [|done]. intros j Hj. rewrite list_lookup_fmap, lookup_seq_lt by done. done.
Qed.
Lemma toy_eagle_ok : eagle_ok 1 (fun _ _ => True).
Proof.
  split; try done. intros prev g m s p w _ Hs. apply wp_ret. split; [done|]. split; [done|]. apply hot_tok.
Qed.
Lemma toy_dflash_ok : dflash_ok toy_row toy_holds toy_taps.
Proof.
  split; try done.
  - intros c ts w Hc Hroom _. destruct (feed_holds c [] ts Hc Hroom) as [H4 H5]. apply wp_ret. cbn [fst snd]. by rewrite length_replicate.
  - intros c f (_ & Hr & _ & bk & bv & d & Hk & _). rewrite Hr, Hk. split; [by repeat constructor|]. intros l Hin.
    by apply list_elem_of_singleton in Hin as [= ->].
Qed.

Definition short_prompt : list Z := [5; 6]%Z.
Definition long_prompt : list Z := seqZ 0 16.
Definition dflash_run (verify_t max_new : nat) (eos : list Z) := generate_spec_dflash toy_born toy_taps verify_t true long_prompt max_new eos 0.
(** A round whose first push reaches the limit pushes one draft more. *)
Lemma dflash_overshoots : (ok_of [] (dflash_run 8 1 [])) = [0; 1]%Z.
Proof. vm_compute. reflexivity. Qed.
(** A verify width of two with adaptation on ends in a panic, from [clamp]. *)
Lemma dflash_width_panics : (dflash_run 2 6 []).2 = Panic.
Proof. vm_compute. reflexivity. Qed.
End SpecWitness.
