(* ===== verification/Toolcall.v ===== *)
(** The streaming parser of tool calls and reasoning:
    [memra-server/src/toolcall.rs].

    Generated text arrives in arbitrary pieces; the parser routes it to content,
    reasoning and parsed calls, holding back what may be the start of a tag.
    [serde_json] is a parameter ([Json]).  A text is its code points; tags are
    ASCII, so the byte counts of [partial_suffix_len] are code point counts. *)
From S2P Require Import Prelude RustStr Utf8.
Local Open Scope nat_scope.

(** [serde_json]: values, maps with their [insert], printing and parsing. *)
Class Json := {
  value : Type;
  jmap : Type;
  jstring : str -> value;
  map_new : jmap;
  map_insert : str -> value -> jmap -> jmap;
  to_string : jmap -> option str;
  from_str : str -> option value;
}.

Record ParsedToolCall := mkCall { c_id : str; c_name : str; c_arguments : str }.
Inductive Piece := Content (s : str) | Reasoning (s : str) | Call (c : ParsedToolCall).
Inductive State := Prethink | PostThink | Scan | InCall | GemmaLabel | GemmaThought.

Definition OPEN : str := lit "<tool_call>".
Definition CLOSE : str := lit "</tool_call>".
Definition THINK_END : str := lit "</think>".
Definition GEMMA_OPEN : str := lit "<|channel>".
Definition GEMMA_CLOSE : str := lit "<channel|>".

Record ToolStreamParser := mkParser {
  state : State;
  buf : str;
  schemas : gmap str (gmap str str);
  n_calls : nat;
  scan_tools : bool;
  gemma : bool;
  include_reasoning : bool;
  postthink_nl : nat;
}.
Implicit Types (p : ToolStreamParser) (out : list Piece).

Definition new (schemas : gmap str (gmap str str)) (skip_think : bool) : ToolStreamParser :=
  mkParser (if skip_think then Prethink else Scan) [] schemas 0 true false true 0.
Definition reasoning_only (include : bool) : ToolStreamParser := mkParser Prethink [] ∅ 0 false false include 0.
Definition gemma_thought (include : bool) : ToolStreamParser := mkParser Scan [] ∅ 0 false true include 0.
Definition with_include_reasoning (include : bool) p : ToolStreamParser :=
  mkParser (state p) (buf p) (schemas p) (n_calls p) (scan_tools p) (gemma p) include (postthink_nl p).
Definition goes (st : State) (b : str) (nl : nat) p : ToolStreamParser :=
  mkParser st b (schemas p) (n_calls p) (scan_tools p) (gemma p) (include_reasoning p) nl.
Definition counted p : ToolStreamParser :=
  mkParser (state p) (buf p) (schemas p) (S (n_calls p)) (scan_tools p) (gemma p) (include_reasoning p) (postthink_nl p).

(** ** Strings *)

Definition strip_suffix (t s : str) : option str := reverse <$> strip_prefix (reverse t) (reverse s).
(** [for k in (1..=max).rev() { if s.ends_with(&tag[..k]) { return k; } }] *)
Fixpoint longest_from (k : nat) (s tag : str) : nat :=
  match k with
  | 0 => 0
  | S k' => if ends_with (take k tag) s then k else longest_from k' s tag
  end.
Definition partial_suffix_len (s tag : str) : nat := longest_from (Nat.min (length tag - 1) (length s)) s tag.

(** ** Output *)

Definition emit_content out (text : str) : list Piece :=
  match text with
  | [] => out
  | _ => match last out with
         | Some (Content prev) => take (length out - 1) out ++ [Content (prev ++ text)]
         | _ => out ++ [Content text]
         end
  end.
Definition emit_reasoning p out (text : str) : list Piece :=
  if negb (include_reasoning p) then out
  else match text with
       | [] => out
       | _ => match last out with
              | Some (Reasoning prev) => take (length out - 1) out ++ [Reasoning (prev ++ text)]
              | _ => out ++ [Reasoning text]
              end
       end.

(** ** A block *)

Section Block.
Context `{Json}.

(** [name.is_empty() || name.contains(['<', '>', '\n'])] *)
Definition bad_name (s : str) : bool := match s with [] => true | _ => existsb (fun c => bool_decide (c ∈ [60; 62; 10]%Z)) s end.
Definition coerce p (func param raw : str) : value :=
  match schemas p !! func ≫= (.!! param) with
  | None => jstring raw
  | Some t => if str_eqb t (lit "string") then jstring raw else default (jstring raw) (from_str (trim raw))
  end.
(** The loop over parameters; each takes its tag from the body, whose length is
    fuel enough ([parse_params_fuel]). *)
Fixpoint parse_params (fuel : nat) p (name body : str) (args : jmap) : option jmap :=
  match fuel with
  | 0 => None
  | S fuel =>
      match trim_start body with
      | [] => Some args
      | t =>
          r ← strip_prefix (lit "<parameter=") t;
          '(key, after) ← split_once (lit ">") r;
          if bad_name key then None
          else
            let after := default after (strip_prefix NL after) in
            '(raw, rest) ← split_once (lit "</parameter>") after;
            let raw := default raw (strip_suffix NL raw) in
            parse_params fuel p name rest (map_insert key (coerce p name key raw) args)
      end
  end.
Definition fnv1a64 (parts : list (list Z)) : Z :=
  foldl (fun h b => wrap 64 (Z.lxor h b * 1099511628211)) 14695981039346656037%Z (concat parts).
Definition hex_digit (d : Z) : Z := (if d <? 10 then 48 + d else 87 + d)%Z.
(** [{:016x}] of a 64-bit integer. *)
Definition hex16 (x : Z) : str := (fun i => hex_digit (x / 16 ^ i mod 16)%Z) <$> reverse (seqZ 0 16).
Definition parse_block p (inner : str) : option ParsedToolCall :=
  rest ← strip_prefix (lit "<function=") (trim inner);
  '(name, rest) ← split_once (lit ">") rest;
  if bad_name name then None
  else
    body ← strip_suffix (lit "</function>") rest;
    args ← parse_params (S (length body)) p name body map_new;
    arguments ← to_string args;
    let id := lit "call_" ++ hex16 (fnv1a64 [to_le 8 (Z.of_nat (n_calls p)); utf8 name; utf8 arguments]) in
    Some (mkCall id name arguments).

(** ** The stream *)

(** [while self.postthink_nl > 0 && self.buf.starts_with('\n')] *)
Fixpoint skip_nl (nl : nat) (b : str) : nat * str :=
  match nl, b with
  | S n, 10%Z :: b => skip_nl n b
  | _, _ => (nl, b)
  end.
(** Everything but a suffix of [keep] code points. *)
Definition held (keep : nat) (b : str) : str * str := (take (length b - keep) b, drop (length b - keep) b).

(** One turn of the loop of [push]; [true]: it goes on. *)
Definition turn p out : ToolStreamParser * list Piece * bool :=
  match state p with
  | Prethink =>
      match split_once THINK_END (buf p) with
      | Some (a, b) => (goes PostThink b 2 p, emit_reasoning p out a, true)
      | None =>
          let '(e, h) := held (partial_suffix_len (buf p) THINK_END) (buf p) in
          (goes Prethink h (postthink_nl p) p, emit_reasoning p out e, false)
      end
  | PostThink =>
      let '(nl, b) := skip_nl (postthink_nl p) (buf p) in
      if (0 <? nl) && match b with [] => true | _ => false end then (goes PostThink b nl p, out, false)
      else (goes Scan b nl p, out, true)
  | Scan =>
      if gemma p then
        match split_once GEMMA_OPEN (buf p) with
        | Some (a, b) => (goes GemmaLabel b (postthink_nl p) p, emit_content out a, true)
        | None =>
            let '(e, h) := held (partial_suffix_len (buf p) GEMMA_OPEN) (buf p) in
            (goes Scan h (postthink_nl p) p, emit_content out e, false)
        end
      else if negb (scan_tools p) then (goes Scan [] (postthink_nl p) p, emit_content out (buf p), false)
      else
        match split_once OPEN (buf p) with
        | Some (a, b) => (goes InCall b (postthink_nl p) p, emit_content out a, true)
        | None =>
            let '(e, h) := held (partial_suffix_len (buf p) OPEN) (buf p) in
            (goes Scan h (postthink_nl p) p, emit_content out e, false)
        end
  | InCall =>
      match split_once CLOSE (buf p) with
      | None => (p, out, false)
      | Some (inner, b) =>
          let p' := goes Scan b (postthink_nl p) p in
          match parse_block p' inner with
          | Some call => (counted p', out ++ [Call call], true)
          | None => (p', emit_content out (OPEN ++ inner ++ CLOSE), true)
          end
      end
  | GemmaLabel =>
      match split_once NL (buf p) with
      | None => (p, out, false)
      | Some (_, b) => (goes GemmaThought b (postthink_nl p) p, out, true)
      end
  | GemmaThought =>
      match split_once GEMMA_CLOSE (buf p) with
      | Some (a, b) => (goes Scan b (postthink_nl p) p, emit_reasoning p out (default a (strip_suffix NL a)), true)
      | None =>
          let keep := partial_suffix_len (buf p) GEMMA_CLOSE in
          let keep := if ends_with NL (held keep (buf p)).1 then keep + 1 else keep in
          let '(e, h) := held keep (buf p) in
          (goes GemmaThought h (postthink_nl p) p, emit_reasoning p out e, false)
      end
  end.
(** Every turn takes from the buffer or leaves a separator ([push_settled]). *)
Fixpoint push_loop (fuel : nat) p out : ToolStreamParser * list Piece :=
  match fuel with
  | 0 => (p, out)
  | S fuel => let '(p, out, go) := turn p out in if go then push_loop fuel p out else (p, out)
  end.
Definition push (text : str) p : ToolStreamParser * list Piece :=
  let p := goes (state p) (buf p ++ text) (postthink_nl p) p in
  push_loop (2 * length (buf p) + 2) p [].
Definition finish p : ToolStreamParser * list Piece :=
  (goes Scan [] (postthink_nl p) p,
   match buf p with
   | [] => []
   | tail =>
       match state p with
       | Prethink => emit_reasoning p [] tail
       | InCall => emit_content [] (OPEN ++ tail)
       | GemmaThought => emit_reasoning p [] (default tail (strip_suffix NL tail))
       | GemmaLabel => []
       | _ => emit_content [] tail
       end
   end).
(** A whole generation: what each [push] and the final [finish] returned. *)
Fixpoint stream (texts : list str) p : list Piece :=
  match texts with
  | [] => (finish p).2
  | t :: texts => let '(p, out) := push t p in out ++ stream texts p
  end.
End Block.
