(* ===== verification/ToolcallSpec.v ===== *)
(** What the streaming tool-call parser promises.

    [reads p t l]: reading the text [t] as one piece from the state of [p], by the
    grammar of tags, gives [l], the characters of content and reasoning and the
    calls in order.  However a generation is cut into deltas, the parser's output
    is that reading, so cuts do not matter; and content and calls spell the text,
    except that a text that stops right after an opening tag loses the tag
    ([tool_stream_exact]). *)
From S2P Require Import Prelude RustStr Utf8 Toolcall.
Local Open Scope nat_scope.

(** ** Searching *)
Section Search.
Implicit Types (tag s t a b e h z : str).

Lemma strip_prefix_app tag s z r : strip_prefix tag s = Some r -> strip_prefix tag (s ++ z) = Some (r ++ z).
Proof. rewrite !strip_prefix_Some. intros ->. by rewrite <- app_assoc. Qed.
Lemma strip_prefix_long tag s z : length tag <= length s -> strip_prefix tag s = None -> strip_prefix tag (s ++ z) = None.
Proof.
  intros Hl Hn. destruct (strip_prefix tag (s ++ z)) as [r|] eqn:E; [|done]. apply strip_prefix_Some in E. exfalso.
  assert (Hs : s = tag ++ drop (length tag) s).
  { rewrite <- (take_drop (length tag) s) at 1. f_equal. apply (f_equal (take (length tag))) in E.
    by rewrite take_app_le, take_app_length in E by lia. }
  assert (Hsome : strip_prefix tag s = Some (drop (length tag) s)) by (by apply strip_prefix_Some). by rewrite Hsome in Hn.
Qed.
Lemma split_once_length tag s a b : split_once tag s = Some (a, b) -> length s = length a + length tag + length b.
Proof. intros H. apply split_once_Some in H as ->. rewrite !length_app. lia. Qed.
Lemma split_once_app tag s z a b : split_once tag s = Some (a, b) -> split_once tag (s ++ z) = Some (a, b ++ z).
Proof.
  revert a b. induction s as [|c s IH]; intros a b; cbn [split_once app].
  - destruct (strip_prefix tag []) as [r|] eqn:E; [|done]. intros [= <- <-]. apply (strip_prefix_app _ _ z) in E. cbn [app] in E.
    destruct z; cbn [split_once]; by rewrite E.
  - destruct (strip_prefix tag (c :: s)) as [r|] eqn:E.
    + intros [= <- <-]. apply (strip_prefix_app _ _ z) in E. cbn [app] in E. by rewrite E.
    + destruct (split_once tag s) as [[a' b']|] eqn:Es; [|done]. cbn [mbind option_bind fst snd]. intros [= <- <-].
      apply split_once_length in Es as Hl. apply (strip_prefix_long _ _ z) in E; [|simpl; lia]. cbn [app] in E. rewrite E.
      by rewrite (IH a' b' eq_refl).
Qed.
Lemma split_once_suffix tag e h : split_once tag (e ++ h) = None -> split_once tag h = None.
Proof.
  induction e as [|c e IH]; cbn [app split_once]; [done|]. destruct (strip_prefix tag (c :: e ++ h)); [done|].
  destruct (split_once tag (e ++ h)) as [[a b]|] eqn:E; [done|]. intros _. by apply IH.
Qed.
(** No occurrence starts before [h]: none is complete, and what precedes [h] starts no tag. *)
Lemma split_once_holdback tag e h z : split_once tag (e ++ h) = None ->
  (forall q s, e ++ h = q ++ s -> length h < length s < length tag -> s <> take (length s) tag) ->
  split_once tag (e ++ h ++ z) = (fun x => (e ++ x.1, x.2)) <$> split_once tag (h ++ z).
Proof.
  induction e as [|c e IH]; cbn [app]; intros Hn Hp; [by destruct (split_once tag (h ++ z)) as [[a b]|]|].
  cbn [split_once] in *. destruct (strip_prefix tag (c :: e ++ h)) as [r|] eqn:E; [done|].
  destruct (split_once tag (e ++ h)) as [[a b]|] eqn:Es; [done|].
  assert (Hz : strip_prefix tag (c :: e ++ h ++ z) = None).
  { destruct (decide (length tag <= length (c :: e ++ h))).
    - replace (c :: e ++ h ++ z) with ((c :: e ++ h) ++ z) by (cbn; by rewrite <- app_assoc). by apply strip_prefix_long.
    - destruct (strip_prefix tag (c :: e ++ h ++ z)) as [r|] eqn:Er; [|done]. apply strip_prefix_Some in Er. exfalso.
      apply (Hp [] (c :: e ++ h)); [done|cbn [length] in *; rewrite length_app in *; lia|].
      apply (f_equal (take (length (c :: e ++ h)))) in Er. rewrite take_app_le in Er by lia. rewrite <- Er.
      replace (c :: e ++ h ++ z) with ((c :: e ++ h) ++ z) by (cbn; by rewrite <- app_assoc). by rewrite take_app_length. }
  rewrite Hz, IH; [|done|].
  - by destruct (split_once tag (h ++ z)) as [[a b]|].
  - intros q s Hq Hl. apply (Hp (c :: q) s); [cbn; by rewrite Hq|done].
Qed.
Lemma ends_with_spec tag s : ends_with tag s = true <-> exists q, s = q ++ tag.
Proof.
  unfold ends_with. rewrite starts_with_spec. split.
  - intros [r Hr]. exists (reverse r). apply (f_equal reverse) in Hr. by rewrite reverse_app, !reverse_involutive in Hr.
  - intros [q ->]. exists (reverse q). by rewrite reverse_app.
Qed.
Lemma longest_from_spec n s tag : let k := longest_from n s tag in
  k <= n /\ (forall j, k < j <= n -> ends_with (take j tag) s = false).
Proof.
  induction n as [|n [IH1 IH2]]; cbn [longest_from]; [split; [done|lia]|]. destruct (ends_with (take (S n) tag) s) eqn:E; [split; [done|lia]|].
  split; [lia|]. intros j Hj. destruct (decide (j = S n)) as [->|]; [done|]. apply IH2. lia.
Qed.
(** What [partial_suffix_len] keeps back, and anything longer, is enough. *)
Lemma holdback_partial tag s keep z : split_once tag s = None -> partial_suffix_len s tag <= keep <= length s ->
  let e := take (length s - keep) s in let h := drop (length s - keep) s in
  split_once tag (s ++ z) = (fun x => (e ++ x.1, x.2)) <$> split_once tag (h ++ z).
Proof.
  intros Hn Hk e h. assert (Hs : s = e ++ h) by (unfold e, h; by rewrite take_drop). rewrite Hs, <- app_assoc. rewrite Hs in Hn.
  apply split_once_holdback; [done|]. intros q t Hq Hl Ht.
  assert (Hh : length h = keep) by (unfold h; rewrite length_drop; lia).
  destruct (longest_from_spec (Nat.min (length tag - 1) (length s)) s tag) as [_ Hmax]. fold (partial_suffix_len s tag) in Hmax.
  assert (Hlt : length t <= length s) by (rewrite Hs, Hq, length_app; lia).
  specialize (Hmax (length t) ltac:(lia)). rewrite <- Ht in Hmax. assert (Hends : ends_with t s = true).
  { apply ends_with_spec. exists q. by rewrite Hs. } by rewrite Hends in Hmax.
Qed.
Lemma partial_suffix_le tag s : partial_suffix_len s tag <= length s.
Proof. destruct (longest_from_spec (Nat.min (length tag - 1) (length s)) s tag) as [H _]. fold (partial_suffix_len s tag) in H. lia. Qed.
End Search.

(** ** The reading of a whole text *)

Inductive Atom := AContent (c : Z) | AReasoning (c : Z) | ACall (c : ParsedToolCall).
Definition atom_of (x : Piece) : list Atom :=
  match x with Content s => AContent <$> s | Reasoning s => AReasoning <$> s | Call c => [ACall c] end.
Definition atoms (l : list Piece) : list Atom := l ≫= atom_of.
Definition think p (s : str) : list Atom := if include_reasoning p then AReasoning <$> s else [].
Definition less_nl (s : str) : str := default s (strip_suffix NL s).
(** The parser without its buffer. *)
Definition bare p : ToolStreamParser := goes (state p) [] (postthink_nl p) p.

Section Reading.
Context `{Json}.
Implicit Types (t b a : str) (l : list Atom).

Inductive reads : ToolStreamParser -> str -> list Atom -> Prop :=
  | reads_open_think p t : state p = Prethink -> split_once THINK_END t = None -> reads p t (think p t)
  | reads_think p t a b l : state p = Prethink -> split_once THINK_END t = Some (a, b) ->
      reads (goes PostThink [] 2 p) b l -> reads p t (think p a ++ l)
  | reads_separator p t nl b l : state p = PostThink -> skip_nl (postthink_nl p) t = (nl, b) ->
      reads (goes Scan [] nl p) b l -> reads p t l
  | reads_plain p t : state p = Scan -> gemma p = false -> scan_tools p = false -> reads p t (AContent <$> t)
  | reads_content p t : state p = Scan -> gemma p || scan_tools p = true ->
      split_once (if gemma p then GEMMA_OPEN else OPEN) t = None -> reads p t (AContent <$> t)
  | reads_tag p t a b l : state p = Scan -> gemma p || scan_tools p = true ->
      split_once (if gemma p then GEMMA_OPEN else OPEN) t = Some (a, b) ->
      reads (goes (if gemma p then GemmaLabel else InCall) [] (postthink_nl p) p) b l -> reads p t ((AContent <$> a) ++ l)
  | reads_open_call p t : state p = InCall -> split_once CLOSE t = None ->
      reads p t (match t with [] => [] | _ => AContent <$> OPEN ++ t end)
  | reads_call p t a b l call : state p = InCall -> split_once CLOSE t = Some (a, b) -> parse_block p a = Some call ->
      reads (counted (goes Scan [] (postthink_nl p) p)) b l -> reads p t (ACall call :: l)
  | reads_malformed p t a b l : state p = InCall -> split_once CLOSE t = Some (a, b) -> parse_block p a = None ->
      reads (goes Scan [] (postthink_nl p) p) b l -> reads p t ((AContent <$> OPEN ++ a ++ CLOSE) ++ l)
  | reads_open_label p t : state p = GemmaLabel -> split_once NL t = None -> reads p t []
  | reads_label p t a b l : state p = GemmaLabel -> split_once NL t = Some (a, b) ->
      reads (goes GemmaThought [] (postthink_nl p) p) b l -> reads p t l
  | reads_open_thought p t : state p = GemmaThought -> split_once GEMMA_CLOSE t = None -> reads p t (think p (less_nl t))
  | reads_thought p t a b l : state p = GemmaThought -> split_once GEMMA_CLOSE t = Some (a, b) ->
      reads (goes Scan [] (postthink_nl p) p) b l -> reads p t (think p (less_nl a) ++ l).

Ltac same_facts :=
  repeat match goal with
    | Ha : ?x = _, Hb : ?x = _ |- _ => rewrite Ha in Hb; first [discriminate Hb | injection Hb as; subst | clear Hb]
    end.
(** The grammar is unambiguous. *)
Lemma reads_det p t l l' : reads p t l -> reads p t l' -> l = l'.
Proof.
  intros Hr. revert l'. induction Hr; intros l' Hr'; inversion Hr'; subst; same_facts; try done; try (f_equal; by auto); try by auto.
  all: try (match goal with G : gemma ?p = false, S : scan_tools ?p = false, O : gemma ?p || scan_tools ?p = true |- _ => by rewrite G, S in O end).
Qed.

(** ** Emitting *)

Lemma atoms_app x y : atoms (x ++ y) = atoms x ++ atoms y.
Proof. apply bind_app. Qed.
Lemma last_split {A} (l : list A) x : last l = Some x -> l = take (length l - 1) l ++ [x].
Proof. intros Hl. apply last_Some in Hl as [l' ->]. rewrite length_app, Nat.add_sub. by rewrite take_app_length. Qed.
Lemma atoms_content out s : atoms (emit_content out s) = atoms out ++ (AContent <$> s).
Proof.
  unfold emit_content. destruct s as [|c s]; [by rewrite app_nil_r|]. destruct (last out) as [[x|x|x]|] eqn:El; try (rewrite atoms_app; cbn; by rewrite app_nil_r).
  apply last_split, (f_equal atoms) in El. rewrite atoms_app in El. rewrite El, atoms_app, <- app_assoc. f_equal. cbn [atoms mbind list_bind atom_of]. by rewrite fmap_app, !app_nil_r.
Qed.
Lemma atoms_reasoning p out s : atoms (emit_reasoning p out s) = atoms out ++ think p s.
Proof.
  unfold emit_reasoning, think. destruct (include_reasoning p); cbn [negb]; [|by rewrite app_nil_r].
  destruct s as [|c s]; [by rewrite app_nil_r|]. destruct (last out) as [[x|x|x]|] eqn:El; try (rewrite atoms_app; cbn; by rewrite app_nil_r).
  apply last_split, (f_equal atoms) in El. rewrite atoms_app in El. rewrite El, atoms_app, <- app_assoc. f_equal. cbn [atoms mbind list_bind atom_of]. by rewrite fmap_app, !app_nil_r.
Qed.
Lemma think_app p s t : think p (s ++ t) = think p s ++ think p t.
Proof. unfold think. destruct (include_reasoning p); [apply fmap_app|done]. Qed.
End Reading.

(** ** A turn *)
Section Turn.
Context `{Json}.

Lemma parse_params_goes st b nl fuel p name body args : parse_params fuel (goes st b nl p) name body args = parse_params fuel p name body args.
Proof.
  revert body args. induction fuel as [|fuel IH]; intros body args; cbn [parse_params]; [done|]. destruct (trim_start body) as [|c t]; [done|].
  destruct (strip_prefix (lit "<parameter=") (c :: t)) as [r|]; [|done]. cbn [mbind option_bind]. destruct (split_once (lit ">") r) as [[key after]|]; [|done].
  cbn [mbind option_bind]. destruct (bad_name key); [done|]. destruct (split_once _ _) as [[raw rest]|]; [|done]. cbn [mbind option_bind]. apply IH.
Qed.
Lemma parse_block_goes st b nl p i : parse_block (goes st b nl p) i = parse_block p i.
Proof.
  unfold parse_block. destruct (strip_prefix _ (trim i)) as [r|]; [|done]. cbn [mbind option_bind]. destruct (split_once _ r) as [[name rest]|]; [|done].
  cbn [mbind option_bind]. destruct (bad_name name); [done|]. destruct (strip_suffix _ rest) as [body|]; [|done]. cbn [mbind option_bind].
  by rewrite parse_params_goes.
Qed.
Lemma skip_nl_app nl b nl' b' z : skip_nl nl b = (nl', b') -> (0 <? nl') = false \/ b' <> [] -> skip_nl nl (b ++ z) = (nl', b' ++ z).
Proof.
  revert b. induction nl as [|nl IH]; intros b; cbn [skip_nl].
  - intros [= <- <-] _. done.
  - destruct b as [|c b]; cbn [skip_nl app]; [intros [= <- <-] [?|?]; done|].
    intros Hs Hor. destruct (decide (c = 10%Z)) as [->|Hc]; [by apply IH|].
    assert (Hgo : forall y : str, match c with 10%Z => skip_nl nl y | _ => (S nl, c :: y) end = (S nl, c :: y)).
    { intros y. destruct c as [|c|c]; try done. do 4 (destruct c as [c|c|]; try done). }
    rewrite Hgo in *. by injection Hs as <- <-.
Qed.
Lemma skip_nl_more nl b nl' z : skip_nl nl b = (nl', []) -> skip_nl nl (b ++ z) = skip_nl nl' z.
Proof.
  revert b. induction nl as [|nl IH]; intros b; cbn [skip_nl].
  - by intros [= <- ->].
  - destruct b as [|c b]; cbn [skip_nl app]; [by intros [= <-]|]. destruct (decide (c = 10%Z)) as [->|Hc]; [by apply IH|].
    assert (Hgo : forall y : str, match c with 10%Z => skip_nl nl y | _ => (S nl, c :: y) end = (S nl, c :: y)).
    { intros y. destruct c as [|c|c]; try done. do 4 (destruct c as [c|c|]; try done). }
    by rewrite Hgo.
Qed.
Lemma held_app keep b e h : held keep b = (e, h) -> b = e ++ h.
Proof. unfold held. intros [= <- <-]. by rewrite take_drop. Qed.
Lemma strip_suffix_Some t s r : strip_suffix t s = Some r <-> s = r ++ t.
Proof.
  unfold strip_suffix. split.
  - destruct (strip_prefix (reverse t) (reverse s)) as [q|] eqn:E; [|done]. intros [= <-]. apply strip_prefix_Some in E.
    apply (f_equal reverse) in E. by rewrite reverse_app, !reverse_involutive in E.
  - intros ->. rewrite reverse_app. assert (E : strip_prefix (reverse t) (reverse t ++ reverse r) = Some (reverse r)) by (by apply strip_prefix_Some).
    rewrite E. cbn. by rewrite reverse_involutive.
Qed.
Lemma less_nl_same s : ends_with NL s = false -> less_nl s = s.
Proof.
  intros He. unfold less_nl. destruct (strip_suffix NL s) as [r|] eqn:E; [|done]. apply strip_suffix_Some in E as ->.
  assert (Ht : ends_with NL (r ++ NL) = true) by (apply ends_with_spec; by exists r). by rewrite Ht in He.
Qed.
Lemma less_nl_app e t : t <> [] -> less_nl (e ++ t) = e ++ less_nl t.
Proof.
  intros Ht. unfold less_nl. destruct (strip_suffix NL t) as [r|] eqn:E; cbn [default].
  - apply strip_suffix_Some in E as ->. assert (E2 : strip_suffix NL (e ++ r ++ NL) = Some (e ++ r)) by (apply strip_suffix_Some; by rewrite app_assoc). by rewrite E2.
  - destruct (strip_suffix NL (e ++ t)) as [q|] eqn:E2; [|done]. apply strip_suffix_Some in E2. exfalso.
    destruct (exists_last Ht) as (t' & c & ->). rewrite app_assoc in E2. apply app_inj_tail in E2 as [_ ->].
    assert (E3 : strip_suffix NL (t' ++ [10%Z]) = Some t') by (by apply strip_suffix_Some). by rewrite E3 in E.
Qed.

(** *** Reading past text that starts no tag *)

Definition past (tag e t : str) : Prop := split_once tag (e ++ t) = (fun x => (e ++ x.1, x.2)) <$> split_once tag t.
Lemma past_think p e t l : state p = Prethink -> past THINK_END e t -> reads p t l -> reads p (e ++ t) (think p e ++ l).
Proof.
  intros Hst Hp Hr. unfold past in Hp. inversion Hr; subst; try congruence; match goal with E : split_once THINK_END t = _ |- _ => rewrite E in Hp end; cbn in Hp.
  - rewrite <- think_app. by apply reads_open_think.
  - rewrite app_assoc, <- think_app. by eapply reads_think.
Qed.
Lemma past_content p e t l : state p = Scan -> gemma p || scan_tools p = true -> past (if gemma p then GEMMA_OPEN else OPEN) e t -> reads p t l ->
  reads p (e ++ t) ((AContent <$> e) ++ l).
Proof.
  intros Hst Hf Hp Hr. unfold past in Hp. inversion Hr; subst; try congruence;
    try (match goal with G : gemma ?p = false, S : scan_tools ?p = false |- _ => by rewrite G, S in Hf end);
    match goal with E : split_once _ t = _ |- _ => rewrite E in Hp end; cbn in Hp.
  - rewrite <- fmap_app. by apply reads_content.
  - rewrite app_assoc, <- fmap_app. by eapply reads_tag.
Qed.
Lemma past_thought p e t l : state p = GemmaThought -> past GEMMA_CLOSE e t -> ends_with NL e = false \/ (exists t', t = NL ++ t') -> reads p t l ->
  reads p (e ++ t) (think p e ++ l).
Proof.
  intros Hst Hp Hnl Hr. unfold past in Hp. inversion Hr; subst; try congruence; match goal with E : split_once _ t = _ |- _ => rewrite E in Hp end; cbn in Hp.
  - rewrite <- think_app. assert (El : less_nl (e ++ t) = e ++ less_nl t).
    { destruct t as [|c t]; [|by apply less_nl_app]. rewrite app_nil_r. destruct Hnl as [Hnl|[t' Ht]]; [|done]. rewrite less_nl_same by done. by rewrite app_nil_r. }
    rewrite <- El. by apply reads_open_thought.
  - rewrite app_assoc, <- think_app. assert (El : less_nl (e ++ a) = e ++ less_nl a).
    { destruct a as [|c a]; [|by apply less_nl_app]. rewrite app_nil_r. destruct Hnl as [Hnl|[t' Ht]]; [rewrite less_nl_same by done; by rewrite app_nil_r|].
      subst t. match goal with E : _ = Some ([], b) |- _ => apply split_once_Some in E; discriminate E end. }
    rewrite <- El. by eapply reads_thought.
Qed.
Lemma past_held tag b keep z e h : split_once tag b = None -> partial_suffix_len b tag <= keep <= length b -> held keep b = (e, h) ->
  past tag e (h ++ z) /\ b = e ++ h.
Proof.
  intros Hn Hk Hh. injection Hh as He Hh. pose proof (holdback_partial tag b keep z Hn Hk) as Hp. cbn zeta in Hp. rewrite He, Hh in Hp.
  assert (Hb : b = e ++ h) by (rewrite <- He, <- Hh; by rewrite take_drop). split; [|done]. unfold past. rewrite <- Hp, Hb at 1. by rewrite <- app_assoc.
Qed.

(** The close tag's own newline is held back with it. *)
Lemma held_newline k b keep e h : k <= length b -> keep = (if ends_with NL (held k b).1 then k + 1 else k) -> held keep b = (e, h) ->
  k <= keep <= length b /\ (ends_with NL e = false \/ exists t, h = NL ++ t).
Proof.
  intros Hk Hkeep Hh. destruct (ends_with NL (held k b).1) eqn:Ee; subst keep; injection Hh as He Hh; subst e h; [|split; [lia|by left]].
  apply ends_with_spec in Ee as [q Hq]. cbn [held fst] in Hq.
  assert (Hl : length q = length b - (k + 1) /\ k + 1 <= length b).
  { apply (f_equal length) in Hq. rewrite length_take, length_app in Hq. cbn [NL length] in Hq. lia. }
  destruct Hl as [Hq' Hle]. split; [lia|]. right. exists (drop (length b - k) b).
  rewrite <- (take_drop (length b - k) b) at 2. rewrite Hq, <- app_assoc, <- Hq'. by rewrite drop_app_length.
Qed.

(** *** One turn *)

(** The search for an opening tag, of either dialect. *)
Lemma tag_reads p out p' out' go z l tag st : state p = Scan -> gemma p || scan_tools p = true ->
  tag = (if gemma p then GEMMA_OPEN else OPEN) -> st = (if gemma p then GemmaLabel else InCall) ->
  match split_once tag (buf p) with
  | Some (a, b) => (goes st b (postthink_nl p) p, emit_content out a, true)
  | None => let '(e, h) := held (partial_suffix_len (buf p) tag) (buf p) in (goes Scan h (postthink_nl p) p, emit_content out e, false)
  end = (p', out', go) -> reads (bare p') (buf p' ++ z) l ->
  exists d, atoms out' = atoms out ++ d /\ reads (bare p) (buf p ++ z) (d ++ l).
Proof.
  intros Hst Ho -> ->. destruct (split_once _ (buf p)) as [[a b]|] eqn:Es.
  - intros [= <- <- <-] Hr. exists (AContent <$> a). split; [apply atoms_content|]. apply (split_once_app _ _ z) in Es. by eapply (reads_tag (bare p)).
  - destruct (held _ (buf p)) as [e h] eqn:Eh. intros [= <- <- <-] Hr. exists (AContent <$> e). split; [apply atoms_content|].
    destruct (past_held _ _ _ z _ _ Es (conj (le_n _) (partial_suffix_le _ _)) Eh) as [Hp Hb]. rewrite Hb, <- app_assoc.
    apply (past_content (bare p)); [done|done|done|]. by unfold bare in *; rewrite Hst.
Qed.
(** What is not yet read of [z] follows the buffer: what a turn emits is what the
    reading says of the text it takes. *)
Lemma turn_reads p out p' out' go z l : turn p out = (p', out', go) -> reads (bare p') (buf p' ++ z) l ->
  exists d, atoms out' = atoms out ++ d /\ reads (bare p) (buf p ++ z) (d ++ l).
Proof.
  unfold turn. destruct (state p) eqn:Est.
  - destruct (split_once THINK_END (buf p)) as [[a b]|] eqn:Es.
    + intros [= <- <- <-] Hr. exists (think p a). split; [apply atoms_reasoning|]. apply (split_once_app _ _ z) in Es. by eapply (reads_think (bare p)).
    + destruct (held _ (buf p)) as [e h] eqn:Eh. intros [= <- <- <-] Hr. exists (think p e). split; [apply atoms_reasoning|].
      destruct (past_held _ _ _ z _ _ Es (conj (le_n _) (partial_suffix_le _ _)) Eh) as [Hp Hb]. rewrite Hb, <- app_assoc.
      apply (past_think (bare p)); [done|done|]. by unfold bare in *; rewrite Est.
  - destruct (skip_nl (postthink_nl p) (buf p)) as [nl b] eqn:Ek. destruct ((0 <? nl) && _) eqn:Eb.
    + intros [= <- <- <-] Hr. exists []. rewrite app_nil_r. split; [done|]. destruct b; [|by rewrite andb_false_r in Eb].
      cbn [buf goes app] in Hr. inversion Hr; subst; try discriminate. eapply (reads_separator (bare p)); [done| |done].
      cbn [postthink_nl bare goes]. by rewrite (skip_nl_more _ _ _ _ Ek).
    + intros [= <- <- <-] Hr. exists []. rewrite app_nil_r. split; [done|]. eapply (reads_separator (bare p)); [done| |done].
      cbn [postthink_nl bare goes]. apply skip_nl_app; [done|]. apply andb_false_iff in Eb as [|]; [by left|right; by destruct b].
  - destruct (gemma p) eqn:Eg; [|destruct (scan_tools p) eqn:Et; cbn [negb]].
    + apply tag_reads; rewrite ?Eg; done.
    + apply tag_reads; rewrite ?Eg, ?Et; done.
    + intros [= <- <- <-] Hr. exists (AContent <$> buf p). split; [apply atoms_content|]. cbn [buf goes app] in Hr.
      inversion Hr; subst; try discriminate; try (match goal with O : gemma _ || scan_tools _ = true |- _ => cbn in O; by rewrite Eg, Et in O end).
      rewrite <- fmap_app. by apply (reads_plain (bare p)).
  - destruct (split_once CLOSE (buf p)) as [[a b]|] eqn:Es; [|intros [= <- <- <-] Hr; exists []; by rewrite app_nil_r].
    apply (split_once_app _ _ z) in Es. rewrite parse_block_goes. pose proof (atoms_content out (OPEN ++ a ++ CLOSE)) as Ha. revert Ha. generalize (emit_content out (OPEN ++ a ++ CLOSE)). intros raw Ha.
    destruct (parse_block p a) as [call|] eqn:Ep; intros [= <- <- <-] Hr.
    + exists [ACall call]. split; [by rewrite atoms_app|]. eapply (reads_call (bare p)); [done|done| |done]. unfold bare. by rewrite parse_block_goes.
    + exists (AContent <$> OPEN ++ a ++ CLOSE). split; [done|]. eapply (reads_malformed (bare p)); [done|done| |done]. unfold bare. by rewrite parse_block_goes.
  - destruct (split_once NL (buf p)) as [[a b]|] eqn:Es; intros [= <- <- <-] Hr; exists []; (split; [by rewrite app_nil_r|]); [|done].
    apply (split_once_app _ _ z) in Es. by eapply (reads_label (bare p)).
  - destruct (split_once GEMMA_CLOSE (buf p)) as [[a b]|] eqn:Es.
    + intros [= <- <- <-] Hr. exists (think p (less_nl a)). split; [apply atoms_reasoning|]. apply (split_once_app _ _ z) in Es. by eapply (reads_thought (bare p)).
    + cbn zeta. destruct (held _ (buf p)) as [e h] eqn:Eh in |- *. intros [= <- <- <-] Hr. exists (think p e). split; [apply atoms_reasoning|].
      destruct (held_newline _ _ _ _ _ (partial_suffix_le GEMMA_CLOSE (buf p)) eq_refl Eh) as [Hk Hnl].
      destruct (past_held _ _ _ z _ _ Es Hk Eh) as [Hp Hb]. rewrite Hb, <- app_assoc.
      apply (past_thought (bare p)); [done|done| |by unfold bare in *; rewrite Est]. destruct Hnl as [|[t Ht]]; [by left|right]. exists (t ++ z). by rewrite Ht, app_assoc.
Qed.

(** *** The loop *)

(** Nothing is left to do with the buffer. *)
Definition settled p : Prop :=
  match state p with
  | Prethink => split_once THINK_END (buf p) = None
  | PostThink => buf p = []
  | Scan =>
      if gemma p then split_once GEMMA_OPEN (buf p) = None
      else if scan_tools p then split_once OPEN (buf p) = None else buf p = []
  | InCall => split_once CLOSE (buf p) = None
  | GemmaLabel => split_once NL (buf p) = None
  | GemmaThought => split_once GEMMA_CLOSE (buf p) = None
  end.
Definition to_do p : nat := 2 * length (buf p) + match state p with PostThink => 1 | _ => 0 end.

Lemma held_suffix tag keep b e h : held keep b = (e, h) -> split_once tag b = None -> split_once tag h = None.
Proof. intros Hh Hn. apply held_app in Hh as ->. by eapply split_once_suffix. Qed.
Lemma skip_nl_length nl b nl' b' : skip_nl nl b = (nl', b') -> length b' <= length b.
Proof.
  revert b. induction nl as [|nl IH]; intros b; cbn [skip_nl]; [by intros [= <- <-]|]. destruct b as [|c b]; [by intros [= <- <-]|].
  destruct (decide (c = 10%Z)) as [->|Hc].
  - intros Hs. apply IH in Hs. simpl. lia.
  - intros Hs. enough (b' = c :: b) as -> by done. destruct c as [|c|c]; try (by injection Hs). do 4 (destruct c as [c|c|]; try (by injection Hs)); done.
Qed.
Lemma turn_settled p out p' out' : turn p out = (p', out', false) -> settled p'.
Proof.
  unfold turn, settled. destruct (state p) eqn:Est.
  - destruct (split_once THINK_END (buf p)) as [[a b]|] eqn:Es; [done|]. destruct (held _ _) as [e h] eqn:Eh. intros [= <- _]. by eapply held_suffix.
  - destruct (skip_nl _ _) as [nl b]. destruct ((0 <? nl) && _) eqn:Eb; [|done]. intros [= <- _]. apply andb_true_iff in Eb as [_ Eb]. by destruct b.
  - destruct (gemma p) eqn:Eg; [|destruct (scan_tools p) eqn:Et; cbn [negb]].
    + destruct (split_once GEMMA_OPEN (buf p)) as [[a b]|] eqn:Es; [done|]. destruct (held _ _) as [e h] eqn:Eh. intros [= <- _].
      cbn [state goes gemma buf]. rewrite Eg. by eapply held_suffix.
    + destruct (split_once OPEN (buf p)) as [[a b]|] eqn:Es; [done|]. destruct (held _ _) as [e h] eqn:Eh. intros [= <- _].
      cbn [state goes gemma scan_tools buf]. rewrite Eg, Et. by eapply held_suffix.
    + intros [= <- _]. cbn [state goes gemma scan_tools buf]. by rewrite Eg, Et.
  - destruct (split_once CLOSE (buf p)) as [[a b]|] eqn:Es; [by destruct (parse_block _ a)|]. intros [= <- _]. by rewrite Est.
  - destruct (split_once NL (buf p)) as [[a b]|] eqn:Es; [done|]. intros [= <- _]. by rewrite Est.
  - destruct (split_once GEMMA_CLOSE (buf p)) as [[a b]|] eqn:Es; [done|]. cbn zeta. destruct (held _ (buf p)) as [e h] eqn:Eh in |- *. intros [= <- _].
    by eapply held_suffix.
Qed.
Lemma split_once_less tag s a b : split_once tag s = Some (a, b) -> 0 < length tag -> length b < length s.
Proof. intros Hs Ht. apply split_once_length in Hs. lia. Qed.
Lemma turn_progress p out p' out' : turn p out = (p', out', true) -> to_do p' < to_do p.
Proof.
  unfold turn, to_do. destruct (state p) eqn:Est.
  - destruct (split_once THINK_END (buf p)) as [[a b]|] eqn:Es; [|by destruct (held _ _)]. intros [= <- _]. apply split_once_length in Es. cbn [buf state goes]. change (length THINK_END) with 8 in Es. lia.
  - destruct (skip_nl _ _) as [nl b] eqn:Ek. destruct ((0 <? nl) && _) eqn:Eb; [done|]. intros [= <- _]. apply skip_nl_length in Ek. cbn [buf state goes]. lia.
  - destruct (gemma p); [|destruct (scan_tools p); cbn [negb]; [|done]].
    + destruct (split_once GEMMA_OPEN (buf p)) as [[a b]|] eqn:Es; [|by destruct (held _ _)]. intros [= <- _]. apply split_once_less in Es; [|simpl; lia]. cbn [buf state goes]. lia.
    + destruct (split_once OPEN (buf p)) as [[a b]|] eqn:Es; [|by destruct (held _ _)]. intros [= <- _]. apply split_once_less in Es; [|simpl; lia]. cbn [buf state goes]. lia.
  - destruct (split_once CLOSE (buf p)) as [[a b]|] eqn:Es; [|done]. apply split_once_less in Es; [|simpl; lia].
    destruct (parse_block _ a); intros Ht; inversion Ht; subst; cbn [buf state goes counted]; lia.
  - destruct (split_once NL (buf p)) as [[a b]|] eqn:Es; [|done]. intros [= <- _]. apply split_once_less in Es; [|simpl; lia]. cbn [buf state goes]. lia.
  - destruct (split_once GEMMA_CLOSE (buf p)) as [[a b]|] eqn:Es; [|cbn zeta; by destruct (held _ (buf p)) in |- *]. intros [= <- _]. apply split_once_less in Es; [|simpl; lia]. cbn [buf state goes]. lia.
Qed.

(** With fuel for what is to do, the loop ends settled, having emitted what it read. *)
Lemma push_loop_reads fuel p out p' out' : push_loop fuel p out = (p', out') -> to_do p < fuel ->
  settled p' /\ forall z l, reads (bare p') (buf p' ++ z) l -> exists d, atoms out' = atoms out ++ d /\ reads (bare p) (buf p ++ z) (d ++ l).
Proof.
  revert p out. induction fuel as [|fuel IH]; intros p out; cbn [push_loop]; [lia|]. destruct (turn p out) as [[p1 out1] go] eqn:Et.
  destruct go; intros Hl Hf.
  - apply turn_progress in Et as Hm. apply IH in Hl as [Hs Hr]; [|lia]. split; [done|]. intros z l Hz.
    destruct (Hr z l Hz) as (d1 & Hd1 & Hr1). destruct (turn_reads _ _ _ _ _ _ _ Et Hr1) as (d & Hd & Hr2).
    exists (d ++ d1). rewrite Hd1, Hd. split; [by rewrite app_assoc|]. by rewrite <- app_assoc.
  - injection Hl as <- <-. split; [by eapply turn_settled|]. intros z l. by eapply turn_reads.
Qed.
Lemma push_settled text p : settled (push text p).1.
Proof.
  unfold push. destruct (push_loop _ _ _) as [p' out'] eqn:El. apply push_loop_reads in El as [Hs _]; [done|]. unfold to_do. destruct (state _); lia.
Qed.
Lemma push_reads text p p' out z l : push text p = (p', out) -> reads (bare p') (buf p' ++ z) l -> reads (bare p) (buf p ++ text ++ z) (atoms out ++ l).
Proof.
  unfold push. intros El Hr. apply push_loop_reads in El as [_ El]; [|unfold to_do; destruct (state _); lia].
  destruct (El z l Hr) as (d & Hd & Hr'). cbn [atoms mbind list_bind app] in Hd. rewrite Hd. cbn [buf goes] in Hr'. rewrite <- app_assoc in Hr'. done.
Qed.
Lemma finish_atoms p : atoms (finish p).2 =
  match state p with
  | Prethink => think p (buf p)
  | InCall => match buf p with [] => [] | t => AContent <$> OPEN ++ t end
  | GemmaThought => think p (less_nl (buf p))
  | GemmaLabel => []
  | _ => AContent <$> buf p
  end.
Proof.
  unfold finish, think. cbn [snd].
  destruct (buf p) as [|c t]; destruct (state p); rewrite ?atoms_reasoning, ?atoms_content; try done; by destruct (include_reasoning p).
Qed.
Lemma finish_reads p : settled p -> reads (bare p) (buf p) (atoms (finish p).2).
Proof.
  rewrite finish_atoms. unfold settled. destruct (state p) eqn:Est; intros Hs.
  - by apply (reads_open_think (bare p)).
  - rewrite Hs. apply (reads_separator (bare p) [] (postthink_nl p) []); [done|cbn; by destruct (postthink_nl p)|]. destruct (gemma p || scan_tools p) eqn:Ef.
    + apply (reads_content (goes Scan [] (postthink_nl p) p) []); [done|done|]. cbn. by destruct (gemma p).
    + apply orb_false_iff in Ef as [Eg Et]. by apply (reads_plain (goes Scan [] (postthink_nl p) p) []).
  - destruct (gemma p) eqn:Eg; [|destruct (scan_tools p) eqn:Et].
    1,2: apply (reads_content (bare p)); cbn [gemma scan_tools bare goes]; by rewrite ?Eg, ?Et.
    by apply (reads_plain (bare p)).
  - pose proof (reads_open_call (bare p) (buf p) Est Hs) as Hr. by destruct (buf p).
  - by eapply (reads_open_label (bare p)).
  - by apply (reads_open_thought (bare p)).
Qed.
Lemma stream_reads texts p : settled p -> reads (bare p) (buf p ++ concat texts) (atoms (stream texts p)).
Proof.
  revert p. induction texts as [|t texts IH]; intros p Hs; cbn [stream concat]; [rewrite app_nil_r; by apply finish_reads|].
  destruct (push t p) as [p' out] eqn:Ep. rewrite atoms_app. eapply push_reads; [done|]. apply IH. pose proof (push_settled t p) as Hp. by rewrite Ep in Hp.
Qed.

(** *** The loop over parameters *)

Lemma trim_start_length s : length (trim_start s) <= length s.
Proof. unfold trim_start. induction s as [|c s IH]; [done|]. simpl. destruct (is_whitespace c); simpl; lia. Qed.
Lemma strip_prefix_length t s r : strip_prefix t s = Some r -> length s = length t + length r.
Proof. intros E. apply strip_prefix_Some in E as ->. by rewrite length_app. Qed.
(** The body's length is fuel enough. *)
Lemma parse_params_fuel f f' p name body args : length body < f -> length body < f' ->
  parse_params f p name body args = parse_params f' p name body args.
Proof.
  revert f' body args. induction f as [|f IH]; intros [|f'] body args Hf Hf'; try lia. cbn [parse_params].
  pose proof (trim_start_length body) as Ht. destruct (trim_start body) as [|c t]; [done|].
  destruct (strip_prefix (lit "<parameter=") (c :: t)) as [r|] eqn:Er; [|done]. apply strip_prefix_length in Er. cbn [mbind option_bind].
  destruct (split_once (lit ">") r) as [[key after]|] eqn:Ek; [|done]. apply split_once_length in Ek. cbn [mbind option_bind].
  destruct (bad_name key); [done|]. destruct (split_once (lit "</parameter>") _) as [[raw rest]|] eqn:Ev; [|done]. apply split_once_length in Ev.
  cbn [mbind option_bind]. assert (Ha : length (default after (strip_prefix NL after)) <= length after).
  { destruct (strip_prefix NL after) as [q|] eqn:Eq; [|done]. apply strip_prefix_length in Eq. simpl. lia. }
  change (length (lit "<parameter=")) with 11 in Er. apply IH; lia.
Qed.

(** *** Content and calls spell the text *)

(** Calls parsed under the schemas [sc] and numbered from [n]. *)
Inductive spells (sc : gmap str (gmap str str)) : nat -> list Atom -> str -> Prop :=
  | spells_nil n : spells sc n [] []
  | spells_char n c l t : spells sc n l t -> spells sc n (AContent c :: l) (c :: t)
  | spells_call n q inner call l t : schemas q = sc -> n_calls q = n -> parse_block q inner = Some call ->
      spells sc (S n) l t -> spells sc n (ACall call :: l) (OPEN ++ inner ++ CLOSE ++ t).
(** All of the text, or all but an opening tag nothing follows. *)
Definition spelled (sc : gmap str (gmap str str)) (n : nat) (l : list Atom) (t : str) : Prop :=
  spells sc n l t \/ exists t', t = t' ++ OPEN /\ spells sc n l t'.

Lemma spells_text sc n a l t : spells sc n l t -> spells sc n ((AContent <$> a) ++ l) (a ++ t).
Proof. intros Hs. induction a as [|c a IH]; [done|]. cbn. by constructor. Qed.
Lemma spells_all sc n a : spells sc n (AContent <$> a) a.
Proof. induction a; cbn; by constructor. Qed.
Lemma spelled_text sc n a l t : spelled sc n l t -> spelled sc n ((AContent <$> a) ++ l) (a ++ t).
Proof.
  intros [Hs|(t' & -> & Hs)]; [left; by apply spells_text|]. right. exists (a ++ t'). split; [by rewrite app_assoc|by apply spells_text].
Qed.
Lemma spelled_call sc n q inner call l t : schemas q = sc -> n_calls q = n -> parse_block q inner = Some call ->
  spelled sc (S n) l t -> spelled sc n (ACall call :: l) (OPEN ++ inner ++ CLOSE ++ t).
Proof.
  intros Hq Hn Hc [Hs|(t' & -> & Hs)]; [left; by eapply spells_call|]. right. exists (OPEN ++ inner ++ CLOSE ++ t').
  split; [by rewrite <- !app_assoc|by eapply spells_call].
Qed.
Lemma reads_spelled p t l : reads p t l -> gemma p = false -> scan_tools p = true -> state p = Scan \/ state p = InCall ->
  spelled (schemas p) (n_calls p) l (match state p with InCall => OPEN ++ t | _ => t end).
Proof.
  intros Hr. induction Hr as [| | |p t Hst| p t Hst _ _|p t a b l Hst _ Hs Hr IH|p t Hst _|p t a b l call Hst Hs Hp Hr IH|p t a b l Hst Hs Hp Hr IH| | | |];
    intros Hg Hsc [Hst'|Hst']; try congruence; rewrite Hst'.
  - left. apply spells_all.
  - rewrite Hg in *. cbn [goes schemas n_calls state gemma scan_tools] in IH. apply split_once_Some in Hs as ->. apply spelled_text, IH; auto.
  - destruct t as [|c t]; [right; exists []; split; [done|constructor]|]. left. apply spells_all.
  - cbn [goes counted schemas n_calls state gemma scan_tools] in IH. apply split_once_Some in Hs as ->. eapply spelled_call; [done|done|done|]. apply IH; auto.
  - cbn [goes schemas n_calls state gemma scan_tools] in IH. apply split_once_Some in Hs as ->.
    replace (OPEN ++ a ++ CLOSE ++ b) with ((OPEN ++ a ++ CLOSE) ++ b) by (by rewrite <- !app_assoc). apply spelled_text, IH; auto.
Qed.
End Turn.

(** ** The property *)

(** C35. Cutting the generation into deltas does not change what the parser says of it:
    from any settled state (a new parser's, or the state after any [push]), the
    content characters, reasoning characters and calls that the deltas and the final
    [finish] produce are the grammar's unique reading of the whole text, so two ways
    to cut the same text give the same stream.  In the tool dialect, content and
    calls together spell the text exactly: each call is the block it was parsed from,
    numbered in order, and everything else, malformed and unterminated blocks
    included, is content verbatim, except that an opening tag with nothing after it
    at the end of the generation is dropped.  Every [push] ends settled. *)
Theorem tool_stream_exact `{Json} p texts : settled p ->
  reads (bare p) (buf p ++ concat texts) (atoms (stream texts p)) /\
  (forall l, reads (bare p) (buf p ++ concat texts) l -> l = atoms (stream texts p)) /\
  (forall texts', concat texts' = concat texts -> atoms (stream texts' p) = atoms (stream texts p)) /\
  (forall text, settled (push text p).1) /\
  (gemma p = false -> scan_tools p = true -> state p = Scan ->
   spelled (schemas p) (n_calls p) (atoms (stream texts p)) (buf p ++ concat texts)).
Proof.
  intros Hs. pose proof (stream_reads texts p Hs) as Hr. split; [done|]. split; [intros l Hl; by eapply reads_det|].
  split; [|split; [intros text; apply push_settled|]].
  - intros texts' Ht. pose proof (stream_reads texts' p Hs) as Hr'. rewrite Ht in Hr'. by eapply reads_det.
  - intros Hg Hsc Hst. apply reads_spelled in Hr; cbn [bare goes gemma scan_tools state schemas n_calls] in *; [|done|done|by left]. by rewrite Hst in Hr.
Qed.

(** ** Concrete runs *)
Module StreamRuns.

(** Values as their text, a map as its bindings. *)
Instance text_json : Json := {|
  value := str; jmap := list (str * str); jstring s := s; map_new := []; map_insert k v m := m ++ [(k, v)];
  to_string m := Some (concat ((fun kv => kv.1 ++ lit "=" ++ kv.2 ++ lit ";") <$> m)); from_str s := Some s |}.

Definition first : ToolStreamParser := new ∅ false.
Definition block : str := lit "_call><function=f><parameter=x>1</parameter></function></tool_call>".
Definition deltas : list str := [lit "a<tool"; block ++ lit "b<"; lit "c"].
Definition whole : list str := [concat deltas].

Lemma tool_stream_exact_witness :
  settled first /\
  stream deltas first =
    [Content (lit "a"); Call (mkCall (lit "call_" ++ hex16 (fnv1a64 [to_le 8 0; lit "f"; lit "x=1;"])) (lit "f") (lit "x=1;"));
     Content (lit "b"); Content (lit "<c")] /\
  atoms (stream whole first) = atoms (stream deltas first) /\
  spelled ∅ 0 (atoms (stream deltas first)) (concat deltas).
Proof.
  assert (Hs : settled first) by (vm_compute; reflexivity). split; [exact Hs|]. split; [vm_compute; reflexivity|].
  destruct (tool_stream_exact first deltas Hs) as (_ & _ & Hcut & _ & Hspell). split.
  - apply Hcut. vm_compute. reflexivity.
  - apply Hspell; vm_compute; reflexivity.
Defined.

(** A generation that stops right after an opening tag loses the tag; with one more
    character it is kept. *)
Lemma dangling_tag_lost : stream [lit "a<tool_call>"] first = [Content (lit "a")].
Proof. vm_compute. reflexivity. Qed.
Lemma unterminated_kept : stream [lit "a<tool_call>x"] first = [Content (lit "a"); Content (lit "<tool_call>x")].
Proof. vm_compute. reflexivity. Qed.
End StreamRuns.
