(* ===== verification/Health.v ===== *)
(** Liveness of the worker and GPU faults: [memra-server/src/health.rs], with the
    scheduler loop and the supervisor of [worker.rs] that drive it.

    The fields of [WorkerHealth] are atomics written by the worker thread and by
    the watchers and read by the health handlers.  A method is the list of its
    accesses ([Act]); a thread executes one access at a time, interleaved with the
    other threads and with the clock ([step]); a handler's reads are made in a
    sequence of states of a run ([live]).  One worker thread writes what the
    verdict depends on and each of its stores releases what it wrote before, so
    interleaving is faithful to the orderings the source asks for. *)
From S2P Require Import Prelude RustStr.
Local Open Scope Z_scope.

Definition PHASE_LOADING : Z := 0.
Definition PHASE_IDLE : Z := 1.
Definition PHASE_BUSY : Z := 2.
Definition PHASE_DEAD : Z := 3.
Definition phase_name (p : Z) : str :=
  if p =? PHASE_LOADING then lit "loading" else if p =? PHASE_IDLE then lit "idle"
  else if p =? PHASE_BUSY then lit "busy" else lit "dead".

Record WorkerHealth := mkHealth {
  beat_ms : Z;
  phase : Z;
  generation : Z;
  tick_max_ms : Z;
  faulted : bool;
  fault_reason : str;
  gpu_faulted : bool;
  gpu_reason : str;
  xid_warns : Z;
  stall_ms : Z;
}.
Implicit Types (h : WorkerHealth) (t : Z).

(** [MEMRA_HEALTH_STALL_S], in milliseconds. *)
Definition stall_threshold_ms (env : option str) : Z := wrap 64 (Z.max 1 (default 120 (env ≫= parse_uint 64)) * 1000).
Definition default_health (t : Z) (env : option str) : WorkerHealth :=
  mkHealth t PHASE_LOADING 0 0 false [] false [] 0 (stall_threshold_ms env).

(** ** Accesses *)

(** The clock is read, then what was read is stored or exchanged. *)
Inductive Act :=
  | ClockStore | StoreBeat (t : Z)
  | ClockSwap | SwapBeat (t : Z) | LoadMax (dt : Z) | StoreMax (dt : Z)
  | StorePhase (p : Z) | StoreFaulted (b : bool) | SetReason (r : str)
  | AddGeneration | GpuReason (r : str) | StoreGpuFaulted | AddXidWarn.

(** What an access does at time [t], and what its method does next with the value it read. *)
Definition exec (a : Act) (t : Z) h : WorkerHealth * list Act :=
  let '(mkHealth b p g m f r gf gr x s) := h in
  match a with
  | ClockStore => (h, [StoreBeat t])
  | StoreBeat t0 => (mkHealth t0 p g m f r gf gr x s, [])
  | ClockSwap => (h, [SwapBeat t])
  | SwapBeat t0 => (mkHealth t0 p g m f r gf gr x s, [LoadMax (sat_sub t0 b)])
  | LoadMax dt => (h, if m <? dt then [StoreMax dt] else [])
  | StoreMax dt => (mkHealth b p g dt f r gf gr x s, [])
  | StorePhase p' => (mkHealth b p' g m f r gf gr x s, [])
  | StoreFaulted f' => (mkHealth b p g m f' r gf gr x s, [])
  | SetReason r' => (mkHealth b p g m f r' gf gr x s, [])
  | AddGeneration => (mkHealth b p (wrap 32 (g + 1)) m f r gf gr x s, [])
  | GpuReason r' => (mkHealth b p g m f r gf (match gr with [] => r' | _ => gr end) x s, [])
  | StoreGpuFaulted => (mkHealth b p g m f r true gr x s, [])
  | AddXidWarn => (mkHealth b p g m f r gf gr (wrap 64 (x + 1)) s, [])
  end.

(** ** The methods, as their accesses *)

Definition beat : list Act := [ClockSwap].
Definition set_phase (p : Z) : list Act := [ClockStore; StorePhase p].
Definition beat_busy : list Act := StorePhase PHASE_BUSY :: beat.
Definition mark_ready : list Act := SetReason [] :: StoreFaulted false :: set_phase PHASE_IDLE.
Definition mark_dead (reason : str) : list Act := [SetReason reason; StoreFaulted true; StorePhase PHASE_DEAD].
Definition mark_respawning : list Act := AddGeneration :: set_phase PHASE_LOADING.
Definition mark_gpu_fault (reason : str) : list Act := [GpuReason reason; StoreGpuFaulted].
Definition note_xid_warn : list Act := [AddXidWarn].

(** ** GPU faults *)

Definition XID_FATAL : list Z := [48; 64; 79; 94; 95; 119; 120].
Fixpoint take_digits (s : str) : str :=
  match s with c :: s => if is_ascii_digit c then c :: take_digits s else [] | [] => [] end.
Definition classify_xid (line : str) : option (Z * bool) :=
  '(_, tail) ← split_once (lit "Xid") line;
  after ← (if contains (lit ":") tail && starts_with (lit "(") (trim_start tail)
           then '(_, rest) ← split_once (lit ")") tail; Some (drop_while (Z.eqb 58) (trim_start rest))
           else Some tail);
  xid ← parse_uint 32 (take_digits (trim_start after));
  Some (xid, bool_decide (xid ∈ XID_FATAL)).
Definition handle_xid_line (line : str) : list Act :=
  if negb (contains (lit "Xid") line) then []
  else match classify_xid line with
       | Some (xid, true) => mark_gpu_fault (lit "NVRM Xid " ++ show_uint xid ++ lit " (fatal class) " ++ 8212 :: lit " " ++ trim line)
       | Some (_, false) => note_xid_warn
       | None => []
       end.

(** The first of [lines()]: up to a newline, without it or the return before it. *)
Definition first_line (out : str) : option str :=
  match out with
  | [] => None
  | _ => Some (match split_once [10] out with
               | Some (l, _) => match reverse l with 13 :: l' => reverse l' | _ => l end
               | None => out
               end)
  end.
Definition ascii_lower (c : Z) : Z := if (65 <=? c) && (c <=? 90) then c + 32 else c.
Definition scan_smi_csv (out : str) : option str :=
  line ← first_line out;
  match trim <$> split_on 44 line with
  | _ :: ecc :: _ :: remap :: _ =>
      match parse_uint 64 ecc with
      | Some n =>
          if 0 <? n then Some (lit "uncorrected volatile ECC errors = " ++ show_uint n ++ lit " (nvidia-smi)")
          else if str_eqb (ascii_lower <$> remap) (lit "yes") || str_eqb remap (lit "1")
               then Some (lit "row-remap FAILURE reported by nvidia-smi (Xid 64 class)") else None
      | None =>
          if str_eqb (ascii_lower <$> remap) (lit "yes") || str_eqb remap (lit "1")
          then Some (lit "row-remap FAILURE reported by nvidia-smi (Xid 64 class)") else None
      end
  | _ => None
  end.
Inductive ProbeErr := Hang | SpawnErr (e : str) | Exit (e : str).
(** What the watcher does with the answer of a probe. *)
Definition on_probe (deadline_s : Z) (r : outcome ProbeErr str) : list Act :=
  match r with
  | Ok out => match scan_smi_csv out with Some reason => mark_gpu_fault reason | None => [] end
  | Err Hang => mark_gpu_fault (lit "nvidia-smi did not answer within " ++ show_uint deadline_s ++ lit "s " ++ 8212 :: lit " GPU/driver wedge")
  | _ => []
  end.

(** ** The threads *)

(** Where the worker thread is, once it has made the accesses it has [todo]. *)
Inductive Ctl :=
  | Loading                   (** [run], loading the models *)
  | LoopTop                   (** the top of the scheduler loop *)
  | Receiving                 (** [rx.recv()] *)
  | Handling                  (** [handle_cmd] after [recv] *)
  | Working                   (** the rest of the iteration *)
  | Panicked                  (** [catch_unwind] returned a payload *)
  | LoadFailed                (** [run] returned and the load had failed *)
  | Gone                      (** the thread has returned *)
  | Exited (code : Z).        (** [std::process::exit] *)
Global Instance ctl_eq_dec : EqDecision Ctl.
Proof. solve_decision. Defined.

Record St := mkSt {
  health : WorkerHealth;
  now : Z;
  todo : list Act;
  ctl : Ctl;
  attempt : Z;
  jobs : nat;                 (** [active.len() + queue.len()] *)
  watch : list (list Act);    (** the watchers' calls in progress *)
}.
Implicit Types (s : St).

Definition EXIT_WORKER_UNRECOVERABLE : Z := 70.
Definition load_why (why : str) : str := lit "model load failed: " ++ why.
Definition panic_why (why : str) : str := lit "worker thread panicked: " ++ why.

(** What may happen next.  The first six are choices of the machine and of other
    threads; the rest are outcomes of the code the worker runs. *)
Inductive Ev :=
  | Clock (d : Z) | Access | WatchAccess (i : nat)
  | XidLine (line : str) | Probe (deadline_s : Z) (r : outcome ProbeErr str)
  | Loaded | LoadErr (why : str) | LoadPanic (why : str)
  | Top | Received (n : nat) | Closed | Handled (n : nat) | IterEnd (n : nat) | Disconnected
  | PanicEv (why : str) | Respawn.

Definition goes (acts : list Act) (c : Ctl) (n : nat) s : St := mkSt (health s) (now s) acts c (attempt s) n (watch s).
(** A panic of [run]: the supervisor counts it and marks the worker dead. *)
Definition panics (first : list Act) (why : str) s : St :=
  mkSt (health s) (now s) (first ++ mark_dead (panic_why why)) Panicked (attempt s + 1) 0 (watch s).

(** The worker between two accesses. *)
Definition worker_step (respawn_max : Z) s (e : Ev) : option St :=
  match ctl s, e with
  | Loading, Loaded => Some (goes mark_ready LoopTop 0 s)
  | Loading, LoadErr why => Some (goes (mark_dead (load_why why)) LoadFailed 0 s)
  | Loading, LoadPanic why => Some (panics (mark_dead (load_why (lit "worker died during init"))) why s)
  | LoopTop, Top => Some (if Nat.eqb (jobs s) 0 then goes (set_phase PHASE_IDLE) Receiving (jobs s) s else goes beat_busy Working (jobs s) s)
  | Receiving, Received n => Some (goes (set_phase PHASE_BUSY) Handling n s)
  | Receiving, Closed => Some (goes (set_phase PHASE_DEAD) Gone 0 s)
  | Handling, Handled n => Some (goes beat_busy Working n s)
  | Handling, PanicEv why => Some (panics [] why s)
  | Working, IterEnd n => Some (goes [] LoopTop n s)
  | Working, Disconnected => Some (goes (set_phase PHASE_DEAD) Gone 0 s)
  | Working, PanicEv why => Some (panics [] why s)
  | Panicked, Respawn =>
      Some (if respawn_max <? attempt s then goes [] (Exited EXIT_WORKER_UNRECOVERABLE) 0 s else goes mark_respawning Loading 0 s)
  | LoadFailed, Respawn => Some (if attempt s =? 0 then goes [] Gone 0 s else goes [] (Exited EXIT_WORKER_UNRECOVERABLE) 0 s)
  | _, _ => None
  end.
Definition step (respawn_max : Z) s (e : Ev) : option St :=
  match e with
  | Clock d => if 0 <=? d then Some (mkSt (health s) (now s + d) (todo s) (ctl s) (attempt s) (jobs s) (watch s)) else None
  | Access =>
      match todo s with
      | [] => None
      | a :: rest => let '(h, next) := exec a (now s) (health s) in Some (mkSt h (now s) (next ++ rest) (ctl s) (attempt s) (jobs s) (watch s))
      end
  | WatchAccess i =>
      match watch s !! i with
      | Some (a :: rest) =>
          let '(h, next) := exec a (now s) (health s) in Some (mkSt h (now s) (todo s) (ctl s) (attempt s) (jobs s) (<[i := next ++ rest]> (watch s)))
      | _ => None
      end
  | XidLine line => Some (mkSt (health s) (now s) (todo s) (ctl s) (attempt s) (jobs s) (watch s ++ [handle_xid_line line]))
  | Probe d r => Some (mkSt (health s) (now s) (todo s) (ctl s) (attempt s) (jobs s) (watch s ++ [on_probe d r]))
  | _ => match todo s with [] => worker_step respawn_max s e | _ => None end
  end.
Fixpoint run (respawn_max : Z) s (es : list Ev) : option St :=
  match es with [] => Some s | e :: es => s ← step respawn_max s e; run respawn_max s es end.
(** The state [worker::spawn] starts the thread in. *)
Definition start (t : Z) (env : option str) : St := mkSt (default_health t env) t [] Loading 0 0 [].

(** ** Verdicts *)

(** A handler's accesses are made in the states [v 0], [v 1], ... of a run; [free]:
    its [try_lock] succeeds. *)
Section Verdict.
Variables (v : nat -> St) (free : bool).
Definition beat_age_ms (i : nat) : Z := sat_sub (now (v i)) (beat_ms (health (v (i + 1)))).
Definition stalled (i : nat) : bool := (phase (health (v i)) =? PHASE_BUSY) && (stall_ms (health (v i)) <? beat_age_ms (i + 1)).
Definition live : outcome str unit :=
  if gpu_faulted (health (v 0)) then Err (if free then gpu_reason (health (v 1)) else lit "gpu fault")
  else if faulted (health (v 1)) then Err (if free then fault_reason (health (v 2)) else lit "worker fault")
  else
    let p := phase (health (v 2)) in
    if p =? PHASE_DEAD then Err (lit "worker thread is gone")
    else if p =? PHASE_LOADING then Err (lit "worker is (re)loading weights")
    else if stalled 3 then
      Err (lit "worker stalled: no scheduler-loop progress for " ++ show_uint (beat_age_ms 6) ++ lit " ms (threshold " ++ show_uint (stall_ms (health (v 8))) ++ lit " ms)")
    else Ok tt.
Definition ready (draining : bool) : outcome str unit := if draining then Err (lit "draining (shutdown in progress)") else live.
End Verdict.
