(* ===== verification/HealthSpec.v ===== *)
(** What the health verdicts promise, under every interleaving of the worker, the
    watchers, the handlers and the clock ([health_verdicts]).

    An invariant ties the phase and the fault latch, once the accesses in progress
    are made, to where the worker is; a second argument follows the heartbeat from a
    state in which the worker waits, or begins an iteration, to its next stamp. *)
From S2P Require Import Prelude RustStr Health.
Local Open Scope Z_scope.

Section Runs.
Variable respawn_max : Z.
Implicit Types (s : St) (h : WorkerHealth) (a : Act).

Definition reaches s s' : Prop := exists es, run respawn_max s es = Some s'.
(** Only time passes and watchers act: the worker makes no progress. *)
Definition quiet (e : Ev) : bool := match e with Clock _ | WatchAccess _ | XidLine _ | Probe _ _ => true | _ => false end.
Definition hangs s s' : Prop := exists es, run respawn_max s es = Some s' /\ Forall (fun e => quiet e = true) es.

(** What a watcher may write. *)
Definition watcher a : Prop := match a with GpuReason _ | StoreGpuFaulted | AddXidWarn => True | _ => False end.
(** An event is time, an access of the worker, an access or the start of a watcher's
    call, or a move of the worker between accesses. *)
Inductive moved s (e : Ev) s' : Prop :=
  | moved_clock d : e = Clock d -> 0 <= d -> s' = mkSt (health s) (now s + d) (todo s) (ctl s) (attempt s) (jobs s) (watch s) -> moved s e s'
  | moved_access a rest h next : e = Access -> todo s = a :: rest -> exec a (now s) (health s) = (h, next) ->
      s' = mkSt h (now s) (next ++ rest) (ctl s) (attempt s) (jobs s) (watch s) -> moved s e s'
  | moved_watcher i a rest h next : e = WatchAccess i -> watch s !! i = Some (a :: rest) -> exec a (now s) (health s) = (h, next) ->
      s' = mkSt h (now s) (todo s) (ctl s) (attempt s) (jobs s) (<[i := next ++ rest]> (watch s)) -> moved s e s'
  | moved_call acts : quiet e = true -> Forall watcher acts ->
      s' = mkSt (health s) (now s) (todo s) (ctl s) (attempt s) (jobs s) (watch s ++ [acts]) -> moved s e s'
  | moved_worker : quiet e = false -> todo s = [] -> worker_step respawn_max s e = Some s' -> moved s e s'.

Lemma gpu_fault_watcher r : Forall watcher (mark_gpu_fault r).
Proof. repeat constructor. Qed.
Lemma handle_watcher line : Forall watcher (handle_xid_line line).
Proof.
  unfold handle_xid_line. destruct (negb _); [constructor|]. destruct (classify_xid line) as [[x [|]]|]; [apply gpu_fault_watcher|repeat constructor|constructor].
Qed.
Lemma probe_watcher d r : Forall watcher (on_probe d r).
Proof.
  unfold on_probe. destruct r as [out|[]|]; [destruct (scan_smi_csv out); [apply gpu_fault_watcher|constructor]|apply gpu_fault_watcher|constructor..].
Qed.
Lemma step_moved s e s' : step respawn_max s e = Some s' -> moved s e s'.
Proof.
  destruct e; cbn [step]; intros Hs.
  1: destruct (0 <=? d) eqn:Ed; [|done]; injection Hs as <-; eapply moved_clock; [done|lia|done].
  1: destruct (todo s) as [|a rest] eqn:Et; [done|]; destruct (exec a _ _) as [h next] eqn:Ee; injection Hs as <-; by eapply moved_access.
  1: destruct (watch s !! i) as [[|a rest]|] eqn:Et; [done| |done]; destruct (exec a _ _) as [h next] eqn:Ee; injection Hs as <-; by eapply moved_watcher.
  1: injection Hs as <-; eapply moved_call; [done|apply handle_watcher|done].
  1: injection Hs as <-; eapply moved_call; [done|apply probe_watcher|done].
  all: destruct (todo s) eqn:Et; [|done]; by apply moved_worker.
Qed.

(** Rule induction over runs. *)
Lemma reaches_ind (P : St -> Prop) s s' : (forall x e y, P x -> moved x e y -> P y) -> reaches s s' -> P s -> P s'.
Proof.
  intros Hstep [es Hr]. revert s Hr. induction es as [|e es IH]; intros s Hr Hs; cbn [run] in Hr; [by injection Hr as <-|].
  destruct (step respawn_max s e) as [x|] eqn:Ex; [|done]. apply step_moved in Ex. by eapply IH; [|eapply Hstep].
Qed.
Lemma hangs_ind (P : St -> Prop) s s' : (forall x e y, P x -> moved x e y -> quiet e = true -> P y) -> hangs s s' -> P s -> P s'.
Proof.
  intros Hstep (es & Hr & Hq). revert s Hr. induction es as [|e es IH]; intros s Hr Hs; cbn [run] in Hr; [by injection Hr as <-|].
  destruct (step respawn_max s e) as [x|] eqn:Ex; [|done]. apply step_moved in Ex. apply Forall_cons in Hq as [Hq1 Hq].
  by eapply IH; [|done|eapply Hstep].
Qed.
Lemma reaches_trans s1 s2 s3 : reaches s1 s2 -> reaches s2 s3 -> reaches s1 s3.
Proof.
  intros [es1 H1] [es2 H2]. exists (es1 ++ es2). revert s1 H1. induction es1 as [|e es1 IH]; intros s1 H1; cbn [run app] in *; [by injection H1 as ->|].
  destruct (step respawn_max s1 e); [by apply IH|done].
Qed.
Lemma hangs_reaches s s' : hangs s s' -> reaches s s'.
Proof. intros (es & Hr & _). by exists es. Qed.

(** ** The invariant *)

(** Phase and latch once the accesses [l] are made. *)
Definition then_phase (l : list Act) (p : Z) : Z := foldl (fun p a => match a with StorePhase p' => p' | _ => p end) p l.
Definition then_fault (l : list Act) (f : bool) : bool := foldl (fun f a => match a with StoreFaulted f' => f' | _ => f end) f l.
Definition down (c : Ctl) : bool := match c with LoopTop | Receiving | Handling | Working => false | _ => true end.
Definition stamp_le (t : Z) a : Prop := match a with StoreBeat t0 | SwapBeat t0 => t0 <= t | _ => True end.

Lemma exec_then a t h h' next rest : exec a t h = (h', next) ->
  then_phase (next ++ rest) (phase h') = then_phase (a :: rest) (phase h) /\ then_fault (next ++ rest) (faulted h') = then_fault (a :: rest) (faulted h).
Proof. destruct h, a; cbn [exec]; intros [= <- <-]; try done. by destruct (_ <? _). Qed.
Lemma exec_watcher a t h h' next : watcher a -> exec a t h = (h', next) ->
  next = [] /\ phase h' = phase h /\ faulted h' = faulted h /\ beat_ms h' = beat_ms h.
Proof. by destruct h, a; intros Hw; try done; cbn [exec]; intros [= <- <-]. Qed.
Lemma exec_beat a t h h' next : exec a t h = (h', next) -> stamp_le t a -> beat_ms h <= t -> beat_ms h' <= t /\ Forall (stamp_le t) next.
Proof.
  destruct h as [b p g mx f r gf gr x sm], a; cbn [exec stamp_le beat_ms]; intros [= <- <-] Ha Hb; cbn [beat_ms]; try (split; [done|repeat constructor; cbn; lia]).
  split; [done|]. destruct (_ <? _); repeat constructor.
Qed.
(** What is required of the place [c] with the accesses [acts] to make, from phase [p] and latch [f]. *)
Definition place (c : Ctl) (n : nat) (p : Z) (f : bool) : Prop :=
  if down c then p = PHASE_LOADING \/ p = PHASE_DEAD
  else f = false /\ match c with
                    | LoopTop => p = PHASE_BUSY \/ (p = PHASE_IDLE /\ n = 0%nat)
                    | Receiving => p = PHASE_IDLE
                    | _ => p = PHASE_BUSY
                    end.
Record inv s : Prop := {
  i_place : place (ctl s) (jobs s) (then_phase (todo s) (phase (health s))) (then_fault (todo s) (faulted (health s)));
  i_watch : Forall (Forall watcher) (watch s);
  i_beat : beat_ms (health s) <= now s;
  i_stamps : Forall (stamp_le (now s)) (todo s);
}.
Lemma inv_worker s e s' : inv s -> todo s = [] -> worker_step respawn_max s e = Some s' -> inv s'.
Proof.
  intros [Hp Hw Hb Ht] Htodo. rewrite Htodo in *. cbn [then_phase then_fault foldl] in Hp. unfold worker_step.
  destruct (ctl s), e; try done; intros [= <-];
    repeat match goal with |- context [if ?b then _ else _] => destruct b end;
    (split; cbn [ctl jobs todo health watch now goes panics]; [|done|done|repeat constructor]); unfold place in *; cbn in *; try tauto.
Qed.
Lemma stamp_le_mono t t' l : t <= t' -> Forall (stamp_le t) l -> Forall (stamp_le t') l.
Proof. intros Ht Hl. eapply Forall_impl; [exact Hl|]. intros []; cbn; lia. Qed.
Lemma watch_insert s i a rest : Forall (Forall watcher) (watch s) -> watch s !! i = Some (a :: rest) -> watcher a /\ Forall watcher rest.
Proof. intros Hw Hi. eapply Forall_lookup_1 in Hw; [|done]. by apply Forall_cons in Hw. Qed.
Lemma inv_moved s e s' : inv s -> moved s e s' -> inv s'.
Proof.
  intros Hi [d _ Hd ->|a rest h next _ Ht He ->|i a rest h next _ Hl He ->|acts _ Ha ->|_ Ht Hw]; [| | | |by eapply inv_worker].
  all: destruct Hi as [Hp Hw Hb Hs]; split; cbn [ctl jobs todo health watch now]; try done.
  - lia.
  - eapply stamp_le_mono; [|done]. lia.
  - destruct (exec_then _ _ _ _ _ rest He) as [-> ->]. by rewrite Ht in Hp.
  - rewrite Ht in Hs. apply Forall_cons in Hs as [Ha Hs]. by eapply exec_beat.
  - rewrite Ht in Hs. apply Forall_cons in Hs as [Ha Hs]. apply Forall_app. split; [|done]. by eapply exec_beat.
  - destruct (watch_insert _ _ _ _ Hw Hl) as [Ha _]. destruct (exec_watcher _ _ _ _ _ Ha He) as (_ & -> & -> & _). done.
  - destruct (watch_insert _ _ _ _ Hw Hl) as [Ha Hr]. destruct (exec_watcher _ _ _ _ _ Ha He) as (-> & _). by apply Forall_insert.
  - destruct (watch_insert _ _ _ _ Hw Hl) as [Ha _]. destruct (exec_watcher _ _ _ _ _ Ha He) as (_ & _ & _ & ->). done.
  - apply Forall_app. split; [done|by constructor].
Qed.
Lemma inv_reaches s s' : reaches s s' -> inv s -> inv s'.
Proof. apply reaches_ind. apply inv_moved. Qed.
Lemma inv_start t env : inv (start t env).
Proof. split; [by left|constructor|cbn; lia|constructor]. Qed.

(** *** What never changes back *)

Lemma gpu_stays s s' : reaches s s' -> gpu_faulted (health s) = true -> gpu_faulted (health s') = true.
Proof.
  apply (reaches_ind (fun x => gpu_faulted (health x) = true)). clear. intros x e y Hg [d _ _ ->|a rest h next _ _ He ->|i a rest h next _ _ He ->|acts _ _ ->|_ _ Hw]; cbn [health]; try done.
  1,2: destruct (health x), a; injection He as <- _; done.
  unfold worker_step in Hw. destruct (ctl x), e; try done; injection Hw as <-; by repeat match goal with |- context [if ?b then _ else _] => destruct b end.
Qed.
Lemma worker_health s e s' : worker_step respawn_max s e = Some s' -> health s' = health s /\ now s' = now s /\ watch s' = watch s.
Proof.
  unfold worker_step. destruct (ctl s), e; try done; intros [= <-]; by repeat match goal with |- context [if ?b then _ else _] => destruct b end.
Qed.
Lemma exec_stall a t h h' next : exec a t h = (h', next) -> stall_ms h' = stall_ms h.
Proof. destruct h, a; by intros [= <- _]. Qed.
Lemma stall_stays s s' : reaches s s' -> stall_ms (health s') = stall_ms (health s).
Proof.
  intros Hr. apply (reaches_ind (fun x => stall_ms (health x) = stall_ms (health s)) s s'); [|done|done]. clear.
  intros x e y Hx [d _ _ ->|a rest h next _ _ He ->|i a rest h next _ _ He ->|acts _ _ ->|_ _ Hw]; cbn [health]; try done.
  1,2: apply exec_stall in He; by rewrite He.
  apply worker_health in Hw as [-> _]. done.
Qed.
Lemma now_mono s s' : reaches s s' -> now s <= now s'.
Proof.
  intros Hr. apply (reaches_ind (fun x => now s <= now x) s s'); [|done|lia]. clear.
  intros x e y Hx [d _ Hd ->|a rest h next _ _ He ->|i a rest h next _ _ He ->|acts _ _ ->|_ _ Hw]; cbn [now]; try lia.
  apply worker_health in Hw as (_ & -> & _). done.
Qed.
(** A hung worker stays where it is, and what it wrote too. *)
Lemma hangs_same s s' : hangs s s' -> Forall (Forall watcher) (watch s) ->
  ctl s' = ctl s /\ todo s' = todo s /\ phase (health s') = phase (health s) /\ faulted (health s') = faulted (health s) /\ beat_ms (health s') = beat_ms (health s).
Proof.
  intros Hh Hw. pose (P x := Forall (Forall watcher) (watch x) /\ ctl x = ctl s /\ todo x = todo s /\ phase (health x) = phase (health s) /\
    faulted (health x) = faulted (health s) /\ beat_ms (health x) = beat_ms (health s)).
  enough (HP : P s') by apply HP. apply (hangs_ind P s s'); [|done|done]. clear. unfold P. clear P.
  intros x e y (Hw & Hc & Ht & Hp & Hf & Hb) [d _ Hd ->|a rest h next -> _ _ _|i a rest h next _ Hl He ->|acts _ Ha ->|He _ _] Hq; try done; [| |congruence].
  - destruct (watch_insert _ _ _ _ Hw Hl) as [Ha Hr]. destruct (exec_watcher _ _ _ _ _ Ha He) as (-> & Hp' & Hf' & Hb').
    cbn [ctl todo health watch]. rewrite Hp', Hf', Hb'. split; [by apply Forall_insert|done].
  - cbn [ctl todo health watch]. split; [|done]. apply Forall_app. split; [done|by constructor].
Qed.

(** ** The heartbeat *)

Section Since.
Variable T : Z.
Definition stamping a : bool := match a with ClockStore | StoreBeat _ | ClockSwap | SwapBeat _ => true | _ => false end.
Definition busies a : bool := match a with StorePhase p => p =? PHASE_BUSY | _ => false end.
(** A stamp is made before the phase is set to busy. *)
Fixpoint stamps_first (l : list Act) : bool :=
  match l with [] => false | a :: l => stamping a || (negb (busies a) && stamps_first l) end.
Definition stamp_ge a : Prop := match a with StoreBeat t0 | SwapBeat t0 => T <= t0 | _ => True end.

(** From time [T] on, whatever is about to be stamped is as recent. *)
Record late s : Prop := { l_now : T <= now s; l_stamps : Forall stamp_ge (todo s); l_watch : Forall (Forall watcher) (watch s) }.
Lemma exec_late a t h h' next : exec a t h = (h', next) -> T <= t -> stamp_ge a -> Forall stamp_ge next.
Proof. destruct h as [b p g mx f r gf gr x sm], a; intros [= <- <-] Ht Ha; repeat constructor; cbn; try lia. by destruct (_ <? _); repeat constructor. Qed.
Lemma late_moved s e s' : late s -> moved s e s' -> late s'.
Proof.
  intros [Hn Hs Hw] [d _ Hd ->|a rest h next _ Ht He ->|i a rest h next _ Hl He ->|acts _ Ha ->|_ Ht Hk]; [split; cbn; [lia|done|done]| | | |].
  - rewrite Ht in Hs. apply Forall_cons in Hs as [Ha Hs]. split; [done| |done]. cbn [todo]. apply Forall_app. split; [by eapply exec_late|done].
  - destruct (watch_insert _ _ _ _ Hw Hl) as [Ha Hr]. destruct (exec_watcher _ _ _ _ _ Ha He) as (-> & _). split; [done|done|]. cbn [watch]. by apply Forall_insert.
  - split; [done|done|]. cbn [watch]. apply Forall_app. split; [done|by constructor].
  - apply worker_health in Hk as Hk'. destruct Hk' as (_ & Hn' & Hw'). split; [lia| |by rewrite Hw'].
    unfold worker_step in Hk. destruct (ctl s), e; try done; injection Hk as <-; repeat match goal with |- context [if ?b then _ else _] => destruct b end; repeat constructor.
Qed.
(** A recent beat stays recent; until there is one, [P] holds of what the worker is about to do. *)
Lemma fresh_ind (P : St -> Prop) s s' :
  (forall x x' d, P x -> x' = mkSt (health x) (now x + d) (todo x) (ctl x) (attempt x) (jobs x) (watch x) -> P x') ->
  (forall x x', P x -> phase (health x') = phase (health x) -> todo x' = todo x -> ctl x' = ctl x -> P x') ->
  (forall x e x', P x -> todo x = [] -> worker_step respawn_max x e = Some x' -> P x') ->
  (forall x a rest h next, P x -> todo x = a :: rest -> exec a (now x) (health x) = (h, next) ->
     T <= beat_ms h \/ P (mkSt h (now x) (next ++ rest) (ctl x) (attempt x) (jobs x) (watch x)) \/ (exists x0, a = StoreBeat x0 \/ a = SwapBeat x0)) ->
  reaches s s' -> late s -> T <= beat_ms (health s) \/ P s -> late s' /\ (T <= beat_ms (health s') \/ P s').
Proof.
  intros Hclock Hwatch Hwork Hexec Hr Hl HP. apply (reaches_ind (fun x => late x /\ (T <= beat_ms (health x) \/ P x)) s s'); [|done|done].
  intros x e y [Hlx Hx] Hm. split; [by eapply late_moved|].
  destruct Hm as [d _ Hd ->|a rest h next _ Ht He ->|i a rest h next _ Hi He ->|acts _ Ha ->|_ Ht Hk].
  - destruct Hx as [Hx|Hx]; [by left|right; by eapply Hclock].
  - cbn [health]. destruct Hlx as [Hn Hs _]. rewrite Ht in Hs. apply Forall_cons in Hs as [Hga _].
    destruct a eqn:Ea; try (destruct Hx as [Hx|Hx]; [left; destruct (health x); by injection He as <- _|]);
      try (destruct (Hexec x _ _ _ _ Hx Ht He) as [|[|(x0 & [|])]]; [by left|by right|done|done]).
    all: left; destruct (health x); injection He as <- _; exact Hga.
  - destruct (watch_insert _ _ _ _ (l_watch _ Hlx) Hi) as [Ha _]. destruct (exec_watcher _ _ _ _ _ Ha He) as (_ & Hp & _ & Hb). cbn [health].
    destruct Hx as [Hx|Hx]; [left; by rewrite Hb|right]. by eapply Hwatch.
  - destruct Hx as [Hx|Hx]; [by left|right; by eapply Hwatch].
  - apply worker_health in Hk as Hh. destruct Hh as [-> _]. destruct Hx as [Hx|Hx]; [by left|right; by eapply Hwork].
Qed.
End Since.

(** From a state in which the worker waits: a busy phase comes with a beat since. *)
Lemma idle_fresh t s : inv t -> ctl t = Receiving -> todo t = [] -> reaches t s -> now t <= beat_ms (health s) \/ phase (health s) <> PHASE_BUSY.
Proof.
  intros Hi Hc Ht Hr.
  pose (P x := phase (health x) <> PHASE_BUSY /\ ((ctl x = Receiving /\ todo x = []) \/ stamps_first (todo x) = true)).
  enough (H : late (now t) s /\ (now t <= beat_ms (health s) \/ P s)) by (destruct H as [_ [H|[H _]]]; [by left|by right]).
  apply (fresh_ind (now t) P t s); [| | | |done| |].
  - intros x x' d HP ->. exact HP.
  - intros x x' [Hp HP] Hph Htd Hct. unfold P. by rewrite Hph, Htd, Hct.
  - intros x e x' [Hp HP] Htd Hk. apply worker_health in Hk as Hh. destruct Hh as [Hh _]. unfold P. rewrite Hh. split; [done|]. rewrite Htd in HP.
    destruct HP as [[Hcx _]|HP]; [|done]. unfold worker_step in Hk. rewrite Hcx in Hk. right. destruct e; try done; by injection Hk as <-.
  - intros x a rest h next [Hp HP] Htd He. rewrite Htd in HP. destruct HP as [[_ HP]|HP]; [done|]. cbn [stamps_first] in HP. unfold P. cbn [health todo ctl].
    destruct (health x) as [b p g mx f r gf gr y sm], a; injection He as <- <-; cbn [phase] in *; try (by eauto); right; left; cbn [stamping busies orb andb negb] in HP.
    all: try (split; [done|by right]).
    + split; [done|]. right. by destruct (_ <? _).
    + apply andb_true_iff in HP as [HP Hst]. split; [intros ->; by rewrite Z.eqb_refl in HP|by right].
  - destruct Hi as [_ Hw _ _]. split; [lia|by rewrite Ht|done].
  - right. destruct Hi as [Hp _ _ _]. rewrite Hc, Ht in Hp. destruct Hp as [_ Hp]. cbn in Hp. split; [by rewrite Hp|by left].
Qed.
(** From the loop's top to within the iteration, or the next wait, there is a beat. *)
Lemma top_fresh t s : inv t -> ctl t = LoopTop -> todo t = [] -> reaches t s -> ctl s <> LoopTop -> todo s = [] ->
  forall s', reaches s s' -> now t <= beat_ms (health s').
Proof.
  intros Hi Hc Ht Hr Hcs Hts s' Hr'.
  pose (P x := (ctl x = LoopTop /\ todo x = []) \/ existsb stamping (todo x) = true).
  assert (Hwork : forall x e x', P x -> todo x = [] -> worker_step respawn_max x e = Some x' -> P x').
  { intros x e x' HP Htd Hk. unfold P in *. rewrite Htd in HP. destruct HP as [[Hcx _]|HP]; [|done]. unfold worker_step in Hk. rewrite Hcx in Hk. right.
    destruct e; try done. injection Hk as <-. by destruct (Nat.eqb _ _). }
  assert (Hexec : forall x a rest h next, P x -> todo x = a :: rest -> exec a (now x) (health x) = (h, next) ->
     now t <= beat_ms h \/ P (mkSt h (now x) (next ++ rest) (ctl x) (attempt x) (jobs x) (watch x)) \/ (exists x0, a = StoreBeat x0 \/ a = SwapBeat x0)).
  { intros x a rest h next HP Htd He. unfold P in *. rewrite Htd in HP. destruct HP as [[_ HP]|HP]; [done|]. cbn [todo ctl].
    destruct (health x) as [b p g mx f r gf gr y sm], a; injection He as <- <-; cbn [existsb stamping orb] in HP; try (by eauto).
    right; left; right. rewrite existsb_app, HP. apply orb_true_r. }
  assert (Hlate : late (now t) t) by (destruct Hi as [_ Hw _ _]; split; [lia|by rewrite Ht|done]).
  assert (Hstep : forall x y, reaches x y -> late (now t) x -> now t <= beat_ms (health x) \/ P x -> late (now t) y /\ (now t <= beat_ms (health y) \/ P y)).
  { intros x y Hxy Hlx Hx. apply (fresh_ind (now t) P x y); try done; [by intros z z' d HP ->|].
    intros z z' HP _ Htd Hct. unfold P. by rewrite Htd, Hct. }
  destruct (Hstep t s Hr Hlate) as [Hls Hs]; [right; by left|].
  assert (Hbs : now t <= beat_ms (health s)).
  { destruct Hs as [|[[Hcs' _]|Hs]]; [done|done|by rewrite Hts in Hs]. }
  destruct (fresh_ind (now t) (fun _ => False) s s') as [_ [Hb|[]]]; try done. by left.
Qed.
Lemma late_at t : inv t -> todo t = [] -> late (now t) t.
Proof. intros [_ Hw _ _] Ht. split; [lia|by rewrite Ht|done]. Qed.
Lemma beat_keeps t s s' : inv t -> todo t = [] -> reaches t s -> reaches s s' -> now t <= beat_ms (health s) -> now t <= beat_ms (health s').
Proof.
  intros Hi Ht Hr Hr' Hb. assert (Hl : late (now t) s).
  { apply (reaches_ind (late (now t)) t s); [apply late_moved|done|by apply late_at]. }
  destruct (fresh_ind (now t) (fun _ => False) s s') as [_ [|[]]]; try done. by left.
Qed.

(** *** Verdicts *)

Definition unhealthy (r : outcome str unit) : Prop := exists why, r = Err why.
Definition waiting s : Prop := ctl s = Receiving /\ todo s = [].
(** The worker was at the top of its loop in [t] and has gone on by [s]. *)
Definition advances t s : Prop := ctl t = LoopTop /\ todo t = [] /\ exists u, reaches t u /\ reaches u s /\ ctl u <> LoopTop /\ todo u = [].

Lemma live_fault v free : gpu_faulted (health (v 0%nat)) = true -> unhealthy (live v free).
Proof. intros Hg. unfold live. rewrite Hg. by eexists. Qed.
Lemma live_phase v free : phase (health (v 2%nat)) = PHASE_LOADING \/ phase (health (v 2%nat)) = PHASE_DEAD -> unhealthy (live v free).
Proof.
  intros Hp. unfold live. destruct (gpu_faulted _); [by eexists|]. destruct (faulted _); [by eexists|]. destruct Hp as [-> | ->]; by eexists.
Qed.
Lemma live_stalled v free : stalled v 3 = true -> unhealthy (live v free).
Proof.
  intros Hs. unfold live. destruct (gpu_faulted _); [by eexists|]. destruct (faulted _); [by eexists|]. cbn zeta.
  destruct (_ =? PHASE_DEAD); [by eexists|]. destruct (_ =? PHASE_LOADING); [by eexists|]. rewrite Hs. by eexists.
Qed.
Lemma live_idle v free : gpu_faulted (health (v 0%nat)) = false -> faulted (health (v 1%nat)) = false ->
  phase (health (v 2%nat)) = PHASE_IDLE -> phase (health (v 3%nat)) = PHASE_IDLE -> live v free = Ok tt.
Proof. intros Hg Hf H2 H3. unfold live, stalled. by rewrite Hg, Hf, H2, H3. Qed.
Lemma inv_waiting s : inv s -> waiting s -> phase (health s) = PHASE_IDLE /\ faulted (health s) = false.
Proof. intros [Hp _ _ _] [Hc Ht]. rewrite Hc, Ht in Hp. by destruct Hp. Qed.
Lemma not_stalled v T : 0 <= stall_ms (health (v 3%nat)) -> phase (health (v 3%nat)) <> PHASE_BUSY \/ T <= beat_ms (health (v 5%nat)) ->
  now (v 4%nat) - T <= stall_ms (health (v 3%nat)) -> stalled v 3 = false.
Proof.
  intros Hst Hor Hn. unfold stalled, beat_age_ms, sat_sub. cbn [Nat.add].
  destruct Hor as [Hp|Hb]; [by apply Z.eqb_neq in Hp as ->|]. apply andb_false_iff. right. lia.
Qed.
End Runs.

(** C36. A handler may interleave its reads with everything else.  Wherever they fall:
    once a GPU fault is recorded every later verdict is unhealthy, whatever respawns;
    a worker that is loading, dead or gone is unhealthy at once; a worker that waits
    for work is healthy however long it has waited; no stall is reported within the
    threshold of a time at which the worker waited for work, or began an iteration
    from which it has since gone on; and a worker hung in an iteration for longer than
    the threshold is unhealthy. *)
Theorem health_verdicts respawn_max t0 env v free :
  reaches respawn_max (start t0 env) (v 0%nat) -> (forall i, reaches respawn_max (v i) (v (S i))) ->
  (forall s, reaches respawn_max s (v 0%nat) -> gpu_faulted (health s) = true -> unhealthy (live v free)) /\
  (down (ctl (v 2%nat)) = true -> todo (v 2%nat) = [] -> unhealthy (live v free)) /\
  (gpu_faulted (health (v 0%nat)) = false -> (forall i, (i <= 3)%nat -> waiting (v i)) -> live v free = Ok tt) /\
  (forall t, reaches respawn_max (start t0 env) t -> reaches respawn_max t (v 3%nat) ->
     waiting t \/ advances respawn_max t (v 3%nat) -> now (v 4%nat) - now t <= stall_threshold_ms env -> stalled v 3 = false) /\
  (forall t, reaches respawn_max (start t0 env) t -> ctl t = Working -> todo t = [] -> hangs respawn_max t (v 0%nat) ->
     (forall i, hangs respawn_max (v i) (v (S i))) -> stall_threshold_ms env < now (v 4%nat) - now t -> unhealthy (live v free)).
Proof.
  intros H0 Hv.
  assert (Hreach : forall i, reaches respawn_max (start t0 env) (v i)).
  { intros i. induction i as [|i IH]; [done|]. by eapply reaches_trans. }
  assert (Hinv : forall s, reaches respawn_max (start t0 env) s -> inv s) by (intros s Hs; eapply inv_reaches; [done|apply inv_start]).
  assert (Hstall : forall i, stall_ms (health (v i)) = stall_threshold_ms env) by (intros i; by rewrite (stall_stays _ _ _ (Hreach i))).
  split; [|split; [|split; [|split]]].
  - intros s Hs Hg. apply live_fault. by eapply gpu_stays.
  - intros Hd Ht. apply live_phase. destruct (Hinv _ (Hreach 2%nat)) as [Hp _ _ _]. unfold place in Hp. by rewrite Hd, Ht in Hp.
  - intros Hg Hw. pose proof (fun i Hi => inv_waiting _ (Hinv _ (Hreach i)) (Hw i Hi)) as Hwi. apply live_idle; [done|..]; apply Hwi; lia.
  - intros t Ht Hr Hor Hn. apply (not_stalled _ (now t)); rewrite ?Hstall; [apply Z.mod_pos_bound; lia| |done].
    assert (H35 : reaches respawn_max (v 3%nat) (v 5%nat)) by (by eapply reaches_trans). destruct Hor as [[Hc Hd]|(Hc & Hd & u & Htu & Hu & Hcu & Hdu)].
    + destruct (idle_fresh _ t (v 3%nat) (Hinv _ Ht) Hc Hd Hr) as [Hb|]; [right|by left]. exact (beat_keeps _ t _ _ (Hinv _ Ht) Hd Hr H35 Hb).
    + right. apply (top_fresh _ t u (Hinv _ Ht) Hc Hd Htu Hcu Hdu). by eapply reaches_trans.
  - intros t Ht Hc Hd H0' Hh Hn. apply live_stalled. destruct (Hinv _ Ht) as [Hp Hw Hb _]. rewrite Hc, Hd in Hp. destruct Hp as [_ Hp]. cbn in Hp.
    assert (Hsame : forall i, hangs respawn_max t (v i)).
    { intros i. induction i as [|i IH]; [done|]. destruct IH as (es & He & Hq), (Hh i) as (es' & He' & Hq'). exists (es ++ es'). split; [|by apply Forall_app].
      clear -He He'. revert t He. induction es as [|e es IH]; intros t He; cbn [run app] in *; [by injection He as ->|]. destruct (step respawn_max t e); [by apply IH|done]. }
    destruct (hangs_same _ _ _ (Hsame 3%nat) Hw) as (_ & _ & Hp3 & _). destruct (hangs_same _ _ _ (Hsame 5%nat) Hw) as (_ & _ & _ & _ & Hb5).
    unfold stalled, beat_age_ms, sat_sub. cbn [Nat.add]. rewrite Hp3, Hp, Hb5, Hstall. apply andb_true_iff. split; [done|]. lia.
Qed.

(** ** Concrete runs *)
Module HealthRuns.

(** A threshold of one second.  The worker loads, becomes ready and waits an hour;
    then a command arrives and the iteration that serves it hangs. *)
Definition env : option str := Some (lit "1").
Definition accesses (n : nat) : list Ev := repeat Access n.
Definition to_wait : list Ev := [Clock 500; Loaded] ++ accesses 5 ++ [Top] ++ accesses 3.
Definition to_work : list Ev := [Received 1] ++ accesses 3 ++ [Handled 1] ++ accesses 4.
Definition after (es : list Ev) : St := default (start 0 env) (run 3 (start 0 env) es).
Definition hour : Ev := Clock 3600000.
Definition idle : St := after (to_wait ++ [hour]).
Definition hung : St := after (to_wait ++ [hour] ++ to_work ++ [Clock 1001]).

Lemma reaches_refl s : reaches 3 s s.
Proof. by exists []. Qed.
Lemma health_verdicts_witness :
  live (fun _ => idle) true = Ok tt /\ unhealthy (live (fun _ => hung) true) /\
  live (fun _ => hung) true = Err (lit "worker stalled: no scheduler-loop progress for 1001 ms (threshold 1000 ms)") /\
  stalled (fun _ => idle) 3 = false.
Proof.
  assert (Hidle : reaches 3 (start 0 env) idle) by (exists (to_wait ++ [hour]); vm_compute; reflexivity).
  assert (Hhung : reaches 3 (start 0 env) hung) by (exists (to_wait ++ [hour] ++ to_work ++ [Clock 1001]); vm_compute; reflexivity).
  destruct (health_verdicts 3 0 env (fun _ => idle) true Hidle (fun _ => reaches_refl _)) as (_ & _ & Hwait & Hno & _).
  destruct (health_verdicts 3 0 env (fun _ => hung) true Hhung (fun _ => reaches_refl _)) as (_ & _ & _ & _ & Hstall).
  assert (Hw : waiting idle) by (split; vm_compute; reflexivity).
  split; [|split; [|split]].
  - apply Hwait; [vm_compute; reflexivity|]. intros i _. exact Hw.
  - apply (Hstall (after (to_wait ++ [hour] ++ to_work))); [| | | | |vm_compute; reflexivity].
    + exists (to_wait ++ [hour] ++ to_work). vm_compute. reflexivity.
    + vm_compute. reflexivity.
    + vm_compute. reflexivity.
    + exists [Clock 1001]. split; [vm_compute; reflexivity|repeat constructor].
    + intros i. exists []. split; [reflexivity|constructor].
  - vm_compute. reflexivity.
  - apply (Hno idle); [exact Hidle|apply reaches_refl|by left|vm_compute; discriminate].
Defined.

Example fatal_line : classify_xid (lit "NVRM: Xid (PCI:0000:01:00): 119, pid=1234, GSP RPC timeout") = Some (119, true).
Proof. vm_compute. reflexivity. Qed.
Example bare_line : classify_xid (lit "NVRM: Xid 13, Graphics") = Some (13, false).
Proof. vm_compute. reflexivity. Qed.
Example canary_line : scan_smi_csv (lit "2026/08/06, 3, No, No") = Some (lit "uncorrected volatile ECC errors = 3 (nvidia-smi)").
Proof. vm_compute. reflexivity. Qed.

(** The iteration that leaves no work is not measured: waiting stamps the beat before
    the next iteration would. *)
Lemma last_tick_unmeasured :
  tick_max_ms (health (after (to_wait ++ to_work ++ [Clock 900; IterEnd 0; Top] ++ accesses 3 ++ to_work ++ [IterEnd 0; Top] ++ accesses 3))) = 0.
Proof. vm_compute. reflexivity. Qed.
End HealthRuns.
