(* ===== verification/Chat.v ===== *)
(** Chat templates: [memra-tokenizer/src/chat.rs].

    Messages become the prompt of a dialect (ChatML of the qwen class, StepFun's
    variant of it, Tencent Hy3, gemma4), which a marker in the model's template
    chooses.  A text is its code points. *)
From S2P Require Import Prelude RustStr.
Local Open Scope nat_scope.

Record ToolCall := mkToolCall { name : str; params : list (str * str) }.
Record Turn := mkTurn { role : str; content : str; tool_calls : list ToolCall }.
Inductive ThinkMode := Default | NoThink | Think.
Implicit Types (template : option str) (turns : list Turn) (add : bool).

(** A line, ended by its newline. *)
Definition ln (s : string) : str := lit s ++ NL.
(** [template.is_some_and(|t| t.contains(m))] *)
Definition marks template (m : string) : bool := match template with Some t => contains (lit m) t | None => false end.
Definition is_role (r : str) (s : string) : bool := str_eqb r (lit s).

(** ** Hy3 *)

Definition hy (s : string) : str := lit "<" ++ [65372%Z] ++ lit s ++ [65372%Z] ++ lit ">".
Definition HY_BOS : str := hy "hy_begin_of_sentence:opensource".
Definition HY_USER : str := hy "hy_User:opensource".
Definition HY_ASSISTANT : str := hy "hy_Assistant:opensource".
Definition HY_EOS : str := hy "hy_eos:opensource".
Definition HY_REASONING : str := hy "reasoning_mode:opensource".
Definition HY_THINK_BEGIN : str := lit "<think:opensource>".
Definition HY_THINK_END : str := lit "</think:opensource>".

(** The loop over messages, with [last_is_assistant]. *)
Fixpoint hy3_turns (messages : list (str * str)) (last_is_assistant : bool) : str * bool :=
  match messages with
  | [] => ([], last_is_assistant)
  | (r, c) :: rest =>
      if is_role r "user" then let '(out, l) := hy3_turns rest false in (HY_USER ++ c ++ out, l)
      else if is_role r "assistant" then
        let eos := match rest with [] => [] | _ => HY_EOS end in
        let '(out, l) := hy3_turns rest true in (HY_ASSISTANT ++ HY_THINK_BEGIN ++ HY_THINK_END ++ c ++ eos ++ out, l)
      else hy3_turns rest false
  end.
Definition apply_hy3_template (messages : list (str * str)) add (effort : str) : str :=
  let '(out, last_is_assistant) := hy3_turns messages false in
  HY_BOS ++ concat (snd <$> filter (fun m => is_role m.1 "system" = true) messages) ++ HY_REASONING ++ lit "reasoning_effort:" ++ effort ++ out ++
  (if add && negb last_is_assistant
   then HY_ASSISTANT ++ HY_THINK_BEGIN ++ (if str_eqb effort (lit "no_think") then HY_THINK_END else [])
   else []).

(** ** gemma4 *)

Definition gemma4_turn (m : str * str) : str :=
  lit "<|turn>" ++ (if is_role m.1 "assistant" then lit "model" else m.1) ++ NL ++ trim m.2 ++ ln "<turn|>".
Definition apply_gemma4_template (messages : list (str * str)) add (thinking : bool) : str :=
  let leading := match messages with (r, c) :: _ => if is_role r "system" then Some c else None | [] => None end in
  let header :=
    if thinking || bool_decide (is_Some leading)
    then ln "<|turn>system" ++ (if thinking then ln "<|think|>" else []) ++ (match leading with Some c => trim c | None => [] end) ++ ln "<turn|>"
    else [] in
  let msgs := match leading with Some _ => drop 1 messages | None => messages end in
  header ++ (msgs ≫= gemma4_turn) ++
  (if add then ln "<|turn>model" ++ (if thinking then [] else ln "<|channel>thought" ++ lit "<channel|>") else []).

(** ** Tool calls, as both ChatML dialects render them *)

Definition render_param (kv : str * str) : str :=
  lit "<parameter=" ++ kv.1 ++ lit ">" ++ NL ++ kv.2 ++ NL ++ ln "</parameter>".
Definition render_call (c : ToolCall) : str :=
  ln "<tool_call>" ++ lit "<function=" ++ name c ++ lit ">" ++ NL ++ (params c ≫= render_param) ++ ln "</function>" ++ lit "</tool_call>".
Definition im_start (r : str) : str := lit "<|im_start|>" ++ r ++ NL.
Definition im_end : str := ln "<|im_end|>".
(** Whether the neighbour of a [tool] turn is not one: it opens, or closes, the run. *)
Definition not_tool (r : option str) : bool := match r with Some r => negb (is_role r "tool") | None => true end.
Definition next_role (rest : list Turn) : option str := role <$> head rest.

Definition instruction_format : str :=
  NL ++ NL ++ ln "If you choose to call a function ONLY reply in the following format with NO suffix:" ++ NL ++
  ln "<tool_call>" ++ ln "<function=example_function_name>" ++ ln "<parameter=example_parameter_1>" ++ ln "value_1" ++ ln "</parameter>" ++
  ln "<parameter=example_parameter_2>" ++ ln "This is the value for the second parameter" ++ ln "that can span" ++ ln "multiple lines" ++
  ln "</parameter>" ++ ln "</function>" ++ ln "</tool_call>" ++ NL ++ ln "<IMPORTANT>" ++ ln "Reminder:".
Definition QWEN_TOOLS_INSTRUCTION : str :=
  instruction_format ++
  ln "- Function calls MUST follow the specified format: an inner <function=...></function> block must be nested within <tool_call></tool_call> XML tags" ++
  ln "- Required parameters MUST be specified" ++
  ln "- You may provide optional reasoning for your function call in natural language BEFORE the function call, but NOT after" ++
  ln "- If there is no function call available, answer the question like normal with your current knowledge and do not tell the user about function calls" ++
  lit "</IMPORTANT>".
Definition STEP35_TOOLS_INSTRUCTION : str :=
  instruction_format ++
  ln "- Function calls MUST follow the specified format: an inner <function=...>" ++ ln "..." ++
  ln "</function> block must be nested within <tool_call>" ++ ln "..." ++ ln "</tool_call> XML tags" ++
  ln "- Required parameters MUST be specified" ++ lit "</IMPORTANT>".

(** ** StepFun step35 *)

Definition trim_nl_start (s : str) : str := drop_while (Z.eqb 10) s.
Definition trim_nl_end (s : str) : str := reverse (drop_while (Z.eqb 10) (reverse s)).
(** The text after the last occurrence of [p] ([rfind]). *)
Fixpoint after_last (p s : str) : option str :=
  match s with
  | [] => strip_prefix p []
  | _ :: s' => match after_last p s' with Some r => Some r | None => strip_prefix p s end
  end.
(** Reasoning and body of an assistant turn: text is split at the first and at the last
    [</think>], and a [<think>] before the first opens the reasoning. *)
Definition split_think (c : str) : str * str :=
  match split_once (lit "</think>") c with
  | Some (pre, _) =>
      let pre := trim_nl_end pre in
      let pre := default pre (after_last (lit "<think>") pre) in
      (trim_nl_start pre, trim_nl_start (default c (after_last (lit "</think>") c)))
  | None => ([], c)
  end.
Definition real_query (t : Turn) : bool :=
  is_role (role t) "user" && negb (starts_with (lit "<tool_response>") (content t) && ends_with (lit "</tool_response>") (content t)).
(** [enumerate().rev().find(..)], or the last index. *)
Fixpoint last_query (turns : list Turn) (i : nat) (best : option nat) : option nat :=
  match turns with
  | [] => best
  | t :: rest => last_query rest (S i) (if real_query t then Some i else best)
  end.
Definition last_query_index turns : nat := default (length turns - 1) (last_query turns 0 None).
(** [i] and [prev]: the turn's index and the role before it. *)
Fixpoint step35_turns (lq i : nat) (prev : option str) turns : str :=
  match turns with
  | [] => []
  | t :: rest =>
      (if is_role (role t) "system" && Nat.eqb i 0 then []
       else if is_role (role t) "system" || is_role (role t) "user" then im_start (role t) ++ content t ++ im_end
       else if is_role (role t) "assistant" then
         let '(reasoning, body) := split_think (content t) in
         im_start (lit "assistant") ++ (if lq <? i then ln "<think>" ++ reasoning ++ NL ++ ln "</think>" else []) ++
         body ++ (tool_calls t ≫= render_call) ++ im_end
       else if is_role (role t) "tool" then
         (if not_tool prev then im_start (lit "tool_response") else []) ++
         lit "<tool_response>" ++ content t ++ lit "</tool_response>" ++ (if not_tool (next_role rest) then im_end else [])
       else im_start (role t) ++ content t ++ im_end) ++
      step35_turns lq (S i) (Some (role t)) rest
  end.
Definition reasoning_line (effort : option str) : str :=
  match effort with Some e => lit "Reasoning: " ++ e ++ NL ++ NL | None => [] end.
Definition leading_system turns : option Turn :=
  match turns with t :: _ => if is_role (role t) "system" then Some t else None | [] => None end.
Definition tool_lines (tools_json : list str) : str := tools_json ≫= (fun tool => NL ++ tool).
Definition apply_step35_template turns add (tools_json : list str) (effort : option str) : str :=
  (match tools_json with
   | _ :: _ =>
       im_start (lit "system") ++ reasoning_line effort ++
       (match leading_system turns with Some sys => content sys ++ NL ++ NL | None => [] end) ++
       ln "# Tools" ++ NL ++ ln "You have access to the following functions in JSONSchema format:" ++ NL ++ lit "<tools>" ++
       tool_lines tools_json ++ NL ++ lit "</tools>" ++ STEP35_TOOLS_INSTRUCTION ++ im_end
   | [] =>
       match leading_system turns, effort with
       | Some sys, _ => im_start (lit "system") ++ reasoning_line effort ++ content sys ++ im_end
       | None, Some _ => im_start (lit "system") ++ reasoning_line effort ++ im_end
       | None, None => []
       end
   end) ++
  step35_turns (last_query_index turns) 0 None turns ++
  (if add then im_start (lit "assistant") ++ ln "<think>" else []).

(** ** ChatML, and the choice of the dialect *)

Definition turn_of (m : str * str) : Turn := mkTurn m.1 m.2 [].
Definition plain_turn (m : str * str) : str :=
  let content := trim m.2 in
  if is_role m.1 "system" then im_start (lit "system") ++ content ++ im_end
  else if is_role m.1 "user" then im_start (lit "user") ++ content ++ im_end
  else if is_role m.1 "assistant" then im_start (lit "assistant") ++ content ++ im_end
  else im_start m.1 ++ content ++ im_end.
Definition qwen_think template : bool := marks template "<think>" && marks template "add_generation_prompt".
Definition apply_chat_template_str template (messages : list (str * str)) add : str :=
  if marks template "hy_User" then apply_hy3_template messages add (lit "no_think")
  else if marks template "render_message_content" then apply_step35_template (turn_of <$> messages) add [] None
  else if marks template "<|turn>" then apply_gemma4_template messages add false
  else (messages ≫= plain_turn) ++
       (if add then im_start (lit "assistant") ++ (if qwen_think template then ln "<think>" else []) else []).

(** The calls of an assistant turn; the first follows its content. *)
Definition render_calls (content : str) (calls : list ToolCall) : str :=
  match calls with
  | [] => []
  | c :: rest => (match content with [] => [] | _ => NL ++ NL end) ++ render_call c ++ (rest ≫= (fun c => NL ++ render_call c))
  end.
Fixpoint qwen_turns (skip : bool) (prev : option str) turns : str :=
  match turns with
  | [] => []
  | t :: rest =>
      (if skip then []
       else
         let content := trim (content t) in
         if is_role (role t) "system" then im_start (lit "system") ++ content ++ im_end
         else if is_role (role t) "user" then im_start (lit "user") ++ content ++ im_end
         else if is_role (role t) "assistant" then im_start (lit "assistant") ++ content ++ render_calls content (tool_calls t) ++ im_end
         else if is_role (role t) "tool" then
           (if not_tool prev then lit "<|im_start|>user" else []) ++ NL ++ ln "<tool_response>" ++ content ++ NL ++ lit "</tool_response>" ++
           (if not_tool (next_role rest) then im_end else [])
         else im_start (role t) ++ content ++ im_end) ++
      qwen_turns false (Some (role t)) rest
  end.
Definition qwen_tools_header turns (tools_json : list str) : str :=
  match tools_json with
  | [] => []
  | _ =>
      im_start (lit "system") ++ ln "# Tools" ++ NL ++ ln "You have access to the following functions:" ++ NL ++ lit "<tools>" ++
      tool_lines tools_json ++ NL ++ lit "</tools>" ++ QWEN_TOOLS_INSTRUCTION ++
      (match leading_system turns with
       | Some first => match trim (content first) with [] => [] | c => NL ++ NL ++ c end
       | None => []
       end) ++ im_end
  end.
Definition has_tool_features turns (tools_json : list str) : bool :=
  negb (bool_decide (tools_json = [])) || existsb (fun t => is_role (role t) "tool" || negb (bool_decide (length (tool_calls t) = 0))) turns.
Definition hy3_effort (think : ThinkMode) (effort : option str) : str :=
  match think, effort with
  | Think, Some e => if str_eqb e (lit "high") then lit "high" else lit "low"
  | Think, None => lit "low"
  | _, _ => lit "no_think"
  end.
Definition apply_chat_template_tools template turns add (tools_json : list str) (think : ThinkMode) (reasoning_effort : option str) : outcome string str :=
  if has_tool_features turns tools_json && negb (marks template "<tools>") then Err "model chat template has no tools branch"%string
  else if marks template "render_message_content" then Ok (apply_step35_template turns add tools_json reasoning_effort)
  else if marks template "hy_User" || marks template "<|turn>" then
    if has_tool_features turns tools_json then Err "tools are not supported on this model's chat-template dialect"%string
    else
      let messages := (fun t => (role t, content t)) <$> turns in
      if marks template "hy_User" then Ok (apply_hy3_template messages add (hy3_effort think reasoning_effort))
      else Ok (apply_gemma4_template messages add (match think with Think => true | _ => false end))
  else
    let skip_leading_system := match tools_json with [] => false | _ => bool_decide (is_Some (leading_system turns)) end in
    Ok (qwen_tools_header turns tools_json ++ qwen_turns skip_leading_system None turns ++
        (if add
         then im_start (lit "assistant") ++
              (if qwen_think template
               then match think with
                    | NoThink => if marks template "enable_thinking" then ln "<think>" ++ NL ++ ln "</think>" ++ NL else ln "<think>"
                    | _ => ln "<think>"
                    end
               else [])
         else [])).
