(* ===== verification/ChatSpec.v ===== *)
(** What the chat templates promise.

    A request that uses no tools gets, byte for byte, the prompt of the renderer that
    knows no tools, whatever the dialect ([chat_plain_isolated]).  An assistant turn
    replayed in the prompt is read back by the server's own tool-call parser as the
    same content and calls, in either dialect that has tools ([tool_call_roundtrip]). *)
From S2P Require Import Prelude RustStr Utf8 Toolcall ToolcallSpec Chat.
Local Open Scope nat_scope.

(** ** Plain requests *)

Definition plain (messages : list (str * str)) : Prop := Forall (fun m => is_role m.1 "tool" = false) messages.

Lemma plain_features messages : plain messages -> has_tool_features (turn_of <$> messages) [] = false.
Proof.
  intros Hp. unfold has_tool_features. apply orb_false_iff. split; [by rewrite bool_decide_eq_true_2|]. induction Hp as [|m ms Hm _ IH]; [done|].
  cbn. by rewrite Hm.
Qed.
Lemma plain_qwen (messages : list (str * str)) prev : plain messages -> qwen_turns false prev (turn_of <$> messages) = messages ≫= plain_turn.
Proof.
  intros Hp. revert prev. induction Hp as [|m ms Hm _ IH]; intros prev; [done|]. cbn [fmap list_fmap qwen_turns mbind list_bind]. rewrite IH. f_equal.
  unfold plain_turn, turn_of. cbn [role content tool_calls render_calls]. rewrite Hm, app_nil_l. done.
Qed.
Lemma messages_of (messages : list (str * str)) : (fun t => (role t, content t)) <$> (turn_of <$> messages) = messages.
Proof. induction messages as [|[r c] ms IH]; [done|]. cbn. by f_equal. Qed.

(** C37. The isolation of requests without tools: from turns that carry no calls and no
    tool results, with no tools and no thinking control, the renderer with tools
    succeeds with exactly the bytes of the one without, in every dialect (no template
    is of two).  And it fails only when tools are used where the dialect has no
    branch for them. *)
Theorem chat_plain_isolated template (messages : list (str * str)) add turns tools think effort :
  plain messages -> marks template "hy_User" && marks template "render_message_content" = false ->
  apply_chat_template_tools template (turn_of <$> messages) add [] Default None = Ok (apply_chat_template_str template messages add) /\
  ((exists e, apply_chat_template_tools template turns add tools think effort = Err e) <->
   has_tool_features turns tools = true /\
   (marks template "<tools>" = false \/
    (marks template "render_message_content" = false /\ (marks template "hy_User" = true \/ marks template "<|turn>" = true)))) /\
  apply_chat_template_tools template turns add tools think effort <> Panic.
Proof.
  intros Hp Hd. split; [|split].
  - unfold apply_chat_template_tools, apply_chat_template_str. rewrite (plain_features _ Hp), messages_of. cbn [andb].
    destruct (marks template "render_message_content"); [rewrite andb_true_r in Hd; by rewrite Hd|].
    destruct (marks template "hy_User"); [done|]. destruct (marks template "<|turn>"); [done|]. cbn [orb qwen_tools_header app].
    rewrite plain_qwen by done. by destruct (qwen_think template).
  - unfold apply_chat_template_tools. destruct (has_tool_features turns tools), (marks template "<tools>"), (marks template "render_message_content"),
      (marks template "hy_User"), (marks template "<|turn>"); cbn [andb negb orb]; split; try (intros [e He]; done); try (intros [? [?|[? [?|?]]]]; done); try (intros _; by eexists); naive_solver.
  - unfold apply_chat_template_tools. destruct (has_tool_features turns tools), (marks template "<tools>"), (marks template "render_message_content"),
      (marks template "hy_User"), (marks template "<|turn>"); done.
Qed.

(** ** Replayed calls *)

Section Lines.
Implicit Types (tag l z s : str).

Lemma split_once_at tag z : tag <> [] -> split_once tag (tag ++ z) = Some ([], z).
Proof.
  intros Ht. assert (E : strip_prefix tag (tag ++ z) = Some z) by (by apply strip_prefix_Some). destruct (tag ++ z) as [|c y] eqn:Ey; cbn [split_once]; by rewrite E.
Qed.
Lemma split_once_occurs tag a b : tag <> [] -> split_once tag (a ++ tag ++ b) <> None.
Proof. intros Ht Hn. apply split_once_suffix in Hn. by rewrite split_once_at in Hn. Qed.
(** A line that does not contain the tag is passed over. *)
Lemma skip_line tag l z : tag <> [] -> 10%Z ∉ tag -> split_once tag l = None ->
  split_once tag (l ++ NL ++ z) = (fun x => (l ++ NL ++ x.1, x.2)) <$> split_once tag z.
Proof.
  intros Ht Hnl Hl. assert (Hn : split_once tag ((l ++ NL) ++ []) = None).
  { rewrite app_nil_r. destruct (split_once tag (l ++ NL)) as [[a b]|] eqn:E; [|done]. apply split_once_Some in E. exfalso.
    destruct b as [|b0 b _] using rev_ind.
    - rewrite app_nil_r in E. destruct tag as [|t0 tag _] using rev_ind; [done|]. rewrite app_assoc in E. apply app_inj_tail in E as [_ <-]. set_solver.
    - rewrite !app_assoc in E. apply app_inj_tail in E as [E _]. rewrite <- app_assoc in E. subst l. by apply split_once_occurs in Hl. }
  rewrite app_assoc. change ((l ++ NL) ++ z) with ((l ++ NL) ++ [] ++ z). rewrite (split_once_holdback tag (l ++ NL) [] z Hn).
  - cbn [app]. destruct (split_once tag z) as [[a b]|]; [|done]. cbn [fmap option_fmap option_map fst snd]. by rewrite <- app_assoc.
  - intros q s Hq Hs Hp. destruct s as [|s0 s _] using rev_ind; [cbn in Hs; lia|].
    rewrite app_nil_r in Hq. rewrite app_assoc in Hq. apply app_inj_tail in Hq as [_ <-]. apply Hnl.
    assert (Hin : 10%Z ∈ take (length (s ++ [10%Z])) tag) by (rewrite <- Hp; set_solver).
    apply elem_of_take in Hin as (i & Hi & _). by eapply list_elem_of_lookup_2.
Qed.
(** No tag starts in a line without its first character. *)
Lemma split_once_absent c tag s : c ∉ s -> split_once (c :: tag) s = None.
Proof.
  induction s as [|x s IH]; intros Hc; [done|]. cbn [split_once]. assert (Hn : strip_prefix (c :: tag) (x :: s) = None).
  { cbn [strip_prefix]. destruct (Z.eqb_spec c x); [set_solver|done]. }
  rewrite Hn, IH by set_solver. done.
Qed.
Lemma split_at_char c s z : c ∉ s -> split_once [c] (s ++ c :: z) = Some (s, z).
Proof.
  induction s as [|x s IH]; intros Hc; cbn [split_once app]; [by rewrite (proj2 (strip_prefix_Some [c] (c :: z) z) eq_refl)|].
  assert (Hn : strip_prefix [c] (x :: s ++ c :: z) = None).
  { cbn [strip_prefix]. destruct (Z.eqb_spec c x); [set_solver|done]. }
  rewrite Hn, IH by set_solver. done.
Qed.
(** A tag whose first character does not recur is found right after a text without it. *)
Lemma split_once_after c t l z : c ∉ t -> split_once (c :: t) l = None -> split_once (c :: t) (l ++ (c :: t) ++ z) = Some (l, z).
Proof.
  intros Hc. induction l as [|x l IH]; intros Hl; [exact (split_once_at (c :: t) z ltac:(done))|]. cbn [split_once] in Hl. destruct (strip_prefix (c :: t) (x :: l)) eqn:E; [done|].
  destruct (split_once (c :: t) l) as [[a b]|] eqn:El; [done|]. rewrite <- app_comm_cons. cbn [split_once].
  assert (Hn : strip_prefix (c :: t) (x :: l ++ (c :: t) ++ z) = None).
  { destruct (strip_prefix (c :: t) (x :: l ++ (c :: t) ++ z)) as [r|] eqn:Er; [|done]. exfalso. apply strip_prefix_Some in Er. injection Er as -> Er.
    assert (Hpre : forall k, l = t ++ k -> False).
    { intros k ->. by rewrite (proj2 (strip_prefix_Some (c :: t) (c :: t ++ k) k) eq_refl) in E. }
    apply app_eq_inv in Er as [(k & Hk & _)|(k & Hk & Hr)]; [by apply (Hpre k)|].
    destruct k as [|y k]; [apply (Hpre []); by rewrite Hk, !app_nil_r|]. injection Hr as <- _. apply Hc. rewrite Hk. set_solver. }
  by rewrite Hn, (IH eq_refl).
Qed.
End Lines.

Definition passes (tag l : str) : Prop := forall z, split_once tag (l ++ z) = (fun x => (l ++ x.1, x.2)) <$> split_once tag z.
Lemma passes_nil tag : passes tag [].
Proof. intros z. cbn [app]. by destruct (split_once tag z) as [[a b]|]. Qed.
Lemma passes_app tag l l' : passes tag l -> passes tag l' -> passes tag (l ++ l').
Proof. intros Hl Hl' z. rewrite <- app_assoc, Hl, Hl'. destruct (split_once tag z) as [[a b]|]; [|done]. cbn. by rewrite <- app_assoc. Qed.
Lemma passes_line tag l : tag <> [] -> 10%Z ∉ tag -> split_once tag l = None -> passes tag (l ++ NL).
Proof.
  intros Ht Hnl Hl z. rewrite <- app_assoc. rewrite skip_line by done. destruct (split_once tag z) as [[a b]|]; [|done]. cbn [fmap option_fmap option_map fst snd]. by rewrite <- app_assoc.
Qed.
Lemma passes_at tag l z : tag <> [] -> passes tag l -> split_once tag (l ++ tag ++ z) = Some (l, z).
Proof. intros Ht Hl. rewrite Hl, split_once_at by done. cbn. by rewrite app_nil_r. Qed.

Section Replay.
Context `{Json}.

(** A name no delimiter occurs in, and a value without a closing tag. *)
Definition word (s : str) : Prop := bad_name s = false.
Definition clean_param (kv : str * str) : Prop :=
  word kv.1 /\ split_once (lit "</parameter>") kv.2 = None /\ split_once CLOSE kv.2 = None.
(** The arguments the parser collects, each value coerced by the schemas of [p]. *)
Definition args_from p (nm : str) (ps : list (str * str)) (m : jmap) : jmap :=
  foldl (fun m kv => map_insert kv.1 (coerce p nm kv.1 kv.2) m) m ps.
Record clean p (c : ToolCall) : Prop := {
  k_name : word (name c);
  k_params : Forall clean_param (params c);
  k_prints : is_Some (to_string (args_from p (name c) (params c) map_new));
}.
(** The [n]-th call of a stream, as the client gets it. *)
Definition call_of p (n : nat) (c : ToolCall) : ParsedToolCall :=
  let a := default [] (to_string (args_from p (name c) (params c) map_new)) in
  mkCall (lit "call_" ++ hex16 (fnv1a64 [to_le 8 (Z.of_nat n); utf8 (name c); utf8 a])) (name c) a.

Lemma word_free s : word s -> (60%Z ∉ s) /\ (62%Z ∉ s).
Proof.
  intros Hw. enough (Hf : forall c, c ∈ [60; 62; 10]%Z -> c ∉ s) by (split; apply Hf; set_solver).
  intros c Hc Hs. destruct s as [|x s]; [done|]. unfold word, bad_name in Hw.
  assert (Ht : existsb (fun c => bool_decide (c ∈ [60; 62; 10]%Z)) (x :: s) = true).
  { apply existsb_exists. exists c. split; [by apply list_elem_of_In|by apply bool_decide_eq_true_2]. }
  by rewrite Ht in Hw.
Qed.
Lemma args_ext p q nm ps m : schemas q = schemas p -> args_from q nm ps m = args_from p nm ps m.
Proof. intros Hs. unfold args_from, coerce. by rewrite Hs. Qed.

Lemma trim_start_line c s : is_whitespace c = false -> trim_start (NL ++ c :: s) = c :: s.
Proof. intros Hc. unfold trim_start. cbn [NL app drop_while]. change (is_whitespace 10) with true. cbn iota. by rewrite Hc. Qed.
Lemma trim_lines c s d : is_whitespace c = false -> is_whitespace d = false -> trim (NL ++ c :: s ++ d :: NL) = c :: s ++ [d].
Proof.
  intros Hc Hd. unfold trim. rewrite trim_start_line by done. unfold trim_end.
  assert (Hr : reverse (c :: s ++ d :: NL) = (10%Z :: d :: reverse (c :: s))).
  { change (c :: s ++ d :: NL) with ((c :: s) ++ [d; 10%Z]). by rewrite reverse_app. }
  rewrite Hr. cbn [drop_while]. change (is_whitespace 10) with true. cbn iota. rewrite Hd. change (d :: reverse (c :: s)) with ([d] ++ reverse (c :: s)).
  rewrite reverse_app, reverse_involutive. done.
Qed.
Lemma strip_prefix_app_same tag z : strip_prefix tag (tag ++ z) = Some z.
Proof. by apply strip_prefix_Some. Qed.

Lemma parse_param fuel p nm key v rest m : clean_param (key, v) ->
  parse_params (S fuel) p nm (NL ++ render_param (key, v) ++ rest) m = parse_params fuel p nm (NL ++ rest) (map_insert key (coerce p nm key v) m).
Proof.
  intros (Hk & Hv & _). cbn [fst snd] in Hk, Hv. unfold render_param. cbn [fst snd parse_params].
  assert (Hb : trim_start (NL ++ (lit "<parameter=" ++ key ++ lit ">" ++ NL ++ v ++ NL ++ ln "</parameter>") ++ rest) =
    lit "<parameter=" ++ key ++ lit ">" ++ NL ++ v ++ NL ++ lit "</parameter>" ++ NL ++ rest).
  { unfold ln. rewrite <- !app_assoc. by apply (trim_start_line 60). }
  destruct (trim_start _) as [|c t]; [discriminate Hb|]. rewrite Hb, strip_prefix_app_same. cbn [mbind option_bind].
  destruct (word_free _ Hk) as [_ Hgt]. change (lit ">" ++ ?x) with (62%Z :: x). rewrite (split_at_char 62 key) by done. cbn [mbind option_bind].
  rewrite Hk, (strip_prefix_app_same NL). cbn [default id]. rewrite skip_line by (done || vm_compute; set_solver). rewrite split_once_at by done.
  cbn [fmap option_fmap option_map fst snd mbind option_bind]. rewrite app_nil_r, (proj2 (strip_suffix_Some NL (v ++ NL) v) eq_refl). done.
Qed.
Lemma parse_all fuel p nm ps m : Forall clean_param ps -> length ps < fuel ->
  parse_params fuel p nm (NL ++ (ps ≫= render_param)) m = Some (args_from p nm ps m).
Proof.
  intros Hps. revert fuel m. induction Hps as [|[key v] ps Hk _ IH]; intros [|fuel] m Hf; cbn [length] in Hf; try lia; [done|].
  cbn [mbind list_bind]. rewrite parse_param by done. apply IH. lia.
Qed.

(** The text between the tags. *)
Definition inner (c : ToolCall) : str :=
  NL ++ lit "<function=" ++ name c ++ lit ">" ++ NL ++ (params c ≫= render_param) ++ ln "</function>".
Lemma render_inner c : render_call c = OPEN ++ inner c ++ CLOSE.
Proof. unfold render_call, inner, ln. rewrite <- !app_assoc. done. Qed.
Lemma split_once_skip t c s : strip_prefix t (c :: s) = None -> split_once t s = None -> split_once t (c :: s) = None.
Proof. intros H1 H2. cbn [split_once]. by rewrite H1, H2. Qed.
(** The closing tag of a block does not occur inside it. *)
Lemma lt_line c y : c <> 47%Z -> 60%Z ∉ c :: y -> split_once CLOSE (60%Z :: c :: y) = None.
Proof.
  intros Hc Hy. change CLOSE with (60%Z :: 47%Z :: lit "tool_call>"). apply split_once_skip; [|by apply split_once_absent].
  cbn [strip_prefix]. destruct (Z.eqb_spec 47 c); [congruence|done].
Qed.
Lemma close_word pre s : word s -> pre = lit "<function=" \/ pre = lit "<parameter=" -> split_once CLOSE (pre ++ s ++ lit ">") = None.
Proof.
  intros Hw Hpre. destruct (word_free _ Hw) as [Hlt _]. change (lit ">") with [62%Z].
  destruct Hpre as [-> | ->]; [apply (lt_line 102 (lit "unction=" ++ s ++ [62%Z]))|apply (lt_line 112 (lit "arameter=" ++ s ++ [62%Z]))];
    (done || (vm_compute (lit _); set_solver)).
Qed.
Lemma passes_param kv : clean_param kv -> passes CLOSE (render_param kv).
Proof.
  destruct kv as [k v]. intros (Hk & _ & Hv). cbn [fst snd] in *. unfold render_param, ln. cbn [fst snd].
  replace (lit "<parameter=" ++ k ++ lit ">" ++ NL ++ v ++ NL ++ lit "</parameter>" ++ NL)
    with (((lit "<parameter=" ++ k ++ lit ">") ++ NL) ++ (v ++ NL) ++ (lit "</parameter>" ++ NL)) by (by rewrite <- !app_assoc).
  assert (Hnl : 10%Z ∉ CLOSE) by (vm_compute; set_solver).
  apply passes_app; [apply passes_line; [done|done|apply close_word; [done|by right]]|].
  apply passes_app; (apply passes_line; [done|done|]); done.
Qed.
Lemma passes_params tag ps : Forall (fun kv => passes tag (render_param kv)) ps -> passes tag (ps ≫= render_param).
Proof. intros Hp. induction Hp; cbn [mbind list_bind]; [apply passes_nil|by apply passes_app]. Qed.
Lemma passes_inner p c : clean p c -> passes CLOSE (inner c).
Proof.
  intros [Hn Hp _]. unfold inner, ln. assert (Hnl : 10%Z ∉ CLOSE) by (vm_compute; set_solver).
  replace (NL ++ lit "<function=" ++ name c ++ lit ">" ++ NL ++ (params c ≫= render_param) ++ lit "</function>" ++ NL)
    with (([] ++ NL) ++ ((lit "<function=" ++ name c ++ lit ">") ++ NL) ++ (params c ≫= render_param) ++ (lit "</function>" ++ NL))
    by (cbn [app]; by rewrite <- !app_assoc).
  apply passes_app; [by apply passes_line|]. apply passes_app; [apply passes_line; [done|done|apply close_word; [done|by left]]|].
  apply passes_app; [|by apply passes_line]. apply passes_params. eapply Forall_impl; [exact Hp|]. apply passes_param.
Qed.

Lemma params_length (ps : list (str * str)) : length ps <= length (ps ≫= render_param).
Proof.
  induction ps as [|[k v] ps IH]; [done|]. rewrite bind_cons, length_app. assert (Hr : 1 <= length (render_param (k, v))).
  { unfold render_param. rewrite length_app. change (length (lit "<parameter=")) with 11. lia. }
  cbn [length]. lia.
Qed.
Lemma parse_rendered p q c : clean p c -> schemas q = schemas p -> parse_block q (inner c) = Some (call_of p (n_calls q) c).
Proof.
  intros [Hn Hp [a Ha]] Hs. unfold parse_block.
  assert (Ht : trim (inner c) = lit "<function=" ++ name c ++ lit ">" ++ NL ++ (params c ≫= render_param) ++ lit "</function>").
  { unfold inner, ln. pose proof (trim_lines 60 (lit "function=" ++ name c ++ lit ">" ++ NL ++ (params c ≫= render_param) ++ lit "</function") 62 eq_refl eq_refl) as Ht.
    cbn [app] in Ht. rewrite <- !app_assoc in Ht. exact Ht. }
  rewrite Ht, strip_prefix_app_same. cbn [mbind option_bind]. destruct (word_free _ Hn) as [_ Hgt].
  change (lit ">" ++ ?x) with (62%Z :: x). rewrite (split_at_char 62 (name c)) by done. cbn [mbind option_bind]. rewrite Hn.
  rewrite app_assoc, (proj2 (strip_suffix_Some _ _ (NL ++ (params c ≫= render_param))) eq_refl). cbn [mbind option_bind].
  rewrite parse_all; [|done|]. 2: { rewrite length_app. pose proof (params_length (params c)). cbn [NL length]. lia. }
  cbn [mbind option_bind]. rewrite (args_ext p q) by done. unfold call_of. rewrite Ha. done.
Qed.

(** *** Reading a replayed turn *)

(** Text, then a call, again and again. *)
Definition chunked (l : list (str * ToolCall)) : str := l ≫= (fun x => x.1 ++ render_call x.2).
Fixpoint replay p (n : nat) (l : list (str * ToolCall)) : list Atom :=
  match l with [] => [] | (s, c) :: l => (AContent <$> s) ++ ACall (call_of p n c) :: replay p (S n) l end.
Lemma reads_chunks p q l : state q = Scan -> gemma q = false -> scan_tools q = true -> schemas q = schemas p ->
  Forall (fun x => split_once OPEN x.1 = None /\ clean p x.2) l -> reads q (chunked l) (replay p (n_calls q) l).
Proof.
  intros Hst Hg Hsc Hs Hl. revert q Hst Hg Hsc Hs. induction Hl as [|[s c] l [Hp Hc] _ IH]; intros q Hst Hg Hsc Hs.
  - apply (reads_content q []); [done|by rewrite Hsc, orb_true_r|by rewrite Hg].
  - cbn [fst snd] in Hp, Hc. unfold chunked. rewrite bind_cons. fold (chunked l). cbn [fst snd replay]. rewrite render_inner, <- !app_assoc.
    eapply (reads_tag q _ s (inner c ++ CLOSE ++ chunked l)); [done|by rewrite Hsc, orb_true_r|rewrite Hg; apply split_once_after; [vm_compute; set_solver|exact Hp]|]. rewrite Hg.
    eapply (reads_call _ _ (inner c) (chunked l)); [done|apply passes_at; [done|by eapply passes_inner]|exact (parse_rendered p (goes InCall [] (postthink_nl q) q) c Hc Hs)|].
    exact (IH (counted (goes Scan [] (postthink_nl q) (goes InCall [] (postthink_nl q) q))) eq_refl Hg Hsc Hs).
Qed.

(** *** The dialects that have tools *)

Inductive Dialect := Qwen | Step35.
(** The content of an assistant turn as the dialect shows it, without the reasoning. *)
Definition shown (d : Dialect) (t : Turn) : str := match d with Qwen => trim (content t) | Step35 => (split_think (content t)).2 end.
Definition calls_text (d : Dialect) (content : str) (calls : list ToolCall) : str :=
  match d with Qwen => render_calls content calls | Step35 => calls ≫= render_call end.
(** What an assistant turn says between its markers, after the reasoning. *)
Definition spoken (d : Dialect) (t : Turn) : str := shown d t ++ calls_text d (shown d t) (tool_calls t).
(** The qwen dialect sets its calls apart with newlines: two after content that is not
    empty, and one before each call but the first. *)
Definition between (d : Dialect) : str := match d with Qwen => NL | Step35 => [] end.
Definition lead (d : Dialect) (content : str) : str :=
  match d, content with Qwen, _ :: _ => NL ++ NL | _, _ => [] end.
Definition chunks (d : Dialect) (content : str) (calls : list ToolCall) : list (str * ToolCall) :=
  match calls with [] => [] | c :: rest => (content ++ lead d content, c) :: ((fun c => (between d, c)) <$> rest) end.
(** What the client sees: content, then calls. *)
Definition replay_turn p (d : Dialect) (content : str) (calls : list ToolCall) : list Atom :=
  match calls with [] => AContent <$> content | _ => replay p (n_calls p) (chunks d content calls) end.
Lemma chunked_chunks d content calls : calls <> [] -> content ++ calls_text d content calls = chunked (chunks d content calls).
Proof.
  intros Hc. destruct calls as [|c rest]; [done|]. unfold chunked, chunks. rewrite bind_cons. cbn [fst snd].
  assert (Hr : (rest ≫= (fun c => between d ++ render_call c)) = ((fun c => (between d, c)) <$> rest) ≫= (fun x => x.1 ++ render_call x.2)).
  { clear. induction rest as [|c rest IH]; [done|]. rewrite fmap_cons, !bind_cons. cbn [fst snd]. by rewrite IH. }
  rewrite <- Hr. destruct d; cbn [calls_text render_calls between lead]; [|rewrite bind_cons, app_nil_r, <- app_assoc; done].
  destruct content as [|x content]; [done|]. by rewrite <- !app_assoc.
Qed.
Lemma no_open_lines content : split_once OPEN content = None -> split_once OPEN (content ++ NL ++ NL) = None.
Proof.
  intros Ho. assert (Hnl : 10%Z ∉ OPEN) by (vm_compute; set_solver). assert (Hp : passes OPEN (content ++ NL ++ NL)).
  { rewrite app_assoc. apply passes_app; [by apply passes_line|by apply (passes_line _ [])]. }
  specialize (Hp []). by rewrite app_nil_r in Hp.
Qed.
Lemma reads_turn p d content calls : state p = Scan -> gemma p = false -> scan_tools p = true -> split_once OPEN content = None ->
  Forall (clean p) calls -> reads (bare p) (content ++ calls_text d content calls) (replay_turn p d content calls).
Proof.
  intros Hst Hg Hsc Ho Hc. destruct calls as [|c rest].
  - replace (calls_text d content []) with (@nil Z) by (by destruct d). cbn [replay_turn]. rewrite app_nil_r.
    apply (reads_content (bare p) content); [done|cbn; by rewrite Hsc, orb_true_r|cbn; by rewrite Hg].
  - rewrite chunked_chunks by done. unfold replay_turn. change (n_calls p) with (n_calls (bare p)). apply reads_chunks; [done..|].
    apply Forall_cons in Hc as [Hc Hrest]. constructor; cbn [fst snd].
    + split; [|done]. destruct d, content as [|x content]; cbn [lead]; [done|by apply no_open_lines|done|by rewrite app_nil_r].
    + apply Forall_fmap. eapply Forall_impl; [exact Hrest|]. intros c' Hc'. split; [by destruct d|done].
Qed.

(** *** What was read *)

Definition content_read (l : list Atom) : str := l ≫= (fun a => match a with AContent c => [c] | _ => [] end).
Definition calls_read (l : list Atom) : list ParsedToolCall := l ≫= (fun a => match a with ACall c => [c] | _ => [] end).
Definition reasoning_read (l : list Atom) : str := l ≫= (fun a => match a with AReasoning c => [c] | _ => [] end).
Lemma read_content (s : str) : content_read (AContent <$> s) = s /\ calls_read (AContent <$> s) = [] /\ reasoning_read (AContent <$> s) = [].
Proof. unfold content_read, calls_read, reasoning_read. induction s as [|c s (IH1 & IH2 & IH3)]; [done|]. rewrite fmap_cons, !bind_cons, IH1, IH2, IH3. done. Qed.
Lemma read_replay p n l : content_read (replay p n l) = l ≫= fst /\ calls_read (replay p n l) = imap (fun i x => call_of p (n + i) x.2) l /\
  reasoning_read (replay p n l) = [].
Proof.
  revert n. induction l as [|[s c] l IH]; intros n; [done|]. destruct (IH (S n)) as (IH1 & IH2 & IH3). destruct (read_content s) as (Hs1 & Hs2 & Hs3).
  unfold content_read, calls_read, reasoning_read in *. cbn [replay]. rewrite !bind_app, !bind_cons, Hs1, Hs2, Hs3, IH1, IH2, IH3. cbn [app]. split; [done|]. split; [|done].
  rewrite imap_cons. f_equal; [by rewrite Nat.add_0_r|]. apply imap_ext. intros i x _. cbn. by rewrite Nat.add_succ_r.
Qed.
Lemma read_turn p d content calls :
  content_read (replay_turn p d content calls) = content ++ (match calls with [] => [] | _ :: rest => lead d content ++ (rest ≫= fun _ => between d) end) /\
  calls_read (replay_turn p d content calls) = imap (fun i c => call_of p (n_calls p + i) c) calls /\ reasoning_read (replay_turn p d content calls) = [].
Proof.
  destruct calls as [|c rest]; [rewrite app_nil_r; apply read_content|]. unfold replay_turn. destruct (read_replay p (n_calls p) (chunks d content (c :: rest))) as (-> & -> & ->).
  split; [|split; [|done]].
  - cbn [chunks]. rewrite bind_cons. cbn [fst]. rewrite <- app_assoc. do 2 f_equal. clear. induction rest as [|c rest IH]; [done|]. rewrite fmap_cons, !bind_cons. by rewrite IH.
  - cbn [chunks]. rewrite !imap_cons. f_equal. rewrite imap_fmap. done.
Qed.
End Replay.

(** C38. Calls survive a round trip through the prompt in both dialects that have tools.
    An assistant turn is rendered between its markers, after its reasoning, as a text
    that the streaming parser, fed that text in pieces of any size, reads back as the
    turn's content and its calls: in order, each with its name, the arguments its
    parameters coerce to and the identifier of its place, and no reasoning.  Of the
    content only the newlines by which the qwen dialect sets calls apart are new.  This is
    so provided no name holds a delimiter, no value closes its own parameter or block,
    the arguments can be printed, and the content opens no block, for the format has no escapes. *)
Theorem tool_call_roundtrip `{Json} (d : Dialect) p t prev rest lq i :
  role t = lit "assistant" -> state p = Scan -> gemma p = false -> scan_tools p = true -> buf p = [] ->
  split_once OPEN (shown d t) = None -> Forall (clean p) (tool_calls t) ->
  match d with
  | Qwen => qwen_turns false prev (t :: rest) = im_start (lit "assistant") ++ spoken d t ++ im_end ++ qwen_turns false (Some (role t)) rest
  | Step35 => step35_turns lq i prev (t :: rest) =
      im_start (lit "assistant") ++ (if lq <? i then ln "<think>" ++ (split_think (content t)).1 ++ NL ++ ln "</think>" else []) ++ spoken d t ++ im_end ++
      step35_turns lq (S i) (Some (role t)) rest
  end /\
  forall texts, concat texts = spoken d t -> let read := atoms (stream texts p) in
    calls_read read = imap (fun i c => call_of p (n_calls p + i) c) (tool_calls t) /\
    content_read read = shown d t ++ (match tool_calls t with [] => [] | _ :: more => lead d (shown d t) ++ (more ≫= fun _ => between d) end) /\
    reasoning_read read = [] /\ read = replay_turn p d (shown d t) (tool_calls t).
Proof.
  intros Hrole Hst Hg Hsc Hb Ho Hc. split.
  - destruct d; cbn [qwen_turns step35_turns]; unfold spoken, shown, calls_text; rewrite Hrole; change (is_role (lit "assistant") "system") with false;
      change (is_role (lit "assistant") "user") with false; change (is_role (lit "assistant") "assistant") with true; cbn [andb orb]; [by rewrite <- !app_assoc|].
    destruct (split_think (content t)) as [reasoning body]. cbn [fst snd]. by rewrite <- !app_assoc.
  - intros texts Htexts read. assert (Hs : settled p) by (unfold settled; by rewrite Hst, Hg, Hsc, Hb).
    pose proof (stream_reads texts p Hs) as Hr. rewrite Hb, Htexts in Hr. unfold spoken in Hr.
    assert (Hread : read = replay_turn p d (shown d t) (tool_calls t)) by (eapply reads_det; [exact Hr|]; by apply reads_turn).
    rewrite Hread. destruct (read_turn p d (shown d t) (tool_calls t)) as (-> & -> & ->). done.
Qed.

(** ** Concrete runs *)
Module ChatRuns.
Import StreamRuns.

Definition qwen : option str := Some (lit "... <tools> ... add_generation_prompt ... enable_thinking ... <think> ...").
Definition hello : list (str * str) := [(lit "system", lit "rules"); (lit "user", lit " Hello ")].
Lemma chat_plain_isolated_witness :
  apply_chat_template_str qwen hello true =
    ln "<|im_start|>system" ++ lit "rules" ++ ln "<|im_end|>" ++ ln "<|im_start|>user" ++ lit "Hello" ++ ln "<|im_end|>" ++ ln "<|im_start|>assistant" ++ ln "<think>" /\
  apply_chat_template_tools qwen (turn_of <$> hello) true [] Default None = Ok (apply_chat_template_str qwen hello true) /\
  ~ exists e, apply_chat_template_tools qwen (turn_of <$> hello) true [lit "{}"] NoThink None = Err e.
Proof.
  destruct (chat_plain_isolated qwen hello true (turn_of <$> hello) [lit "{}"] NoThink None) as (Hsame & Herr & _).
  - repeat constructor.
  - vm_compute. reflexivity.
  - split; [vm_compute; reflexivity|]. split; [exact Hsame|]. intros He. apply Herr in He as [_ [He|[_ [He|He]]]]; vm_compute in He; discriminate He.
Defined.

(** Two calls, the second without parameters, after some content. *)
Definition calls : list ToolCall :=
  [mkToolCall (lit "get_weather") [(lit "city", lit "New" ++ NL ++ lit "York")]; mkToolCall (lit "b") []].
Definition turn : Turn := mkTurn (lit "assistant") (lit " checking ") calls.
Definition pieces : list str := [take 12 (spoken Qwen turn); drop 12 (spoken Qwen turn)].
Lemma tool_call_roundtrip_witness :
  calls_read (atoms (stream pieces first)) = imap (fun i c => call_of first (0 + i) c) calls /\
  content_read (atoms (stream pieces first)) = lit "checking" ++ NL ++ NL ++ NL /\
  content_read (atoms (stream [spoken Step35 turn] first)) = lit " checking " /\
  (exists id id', stream pieces first =
    [Content (lit "checking" ++ NL ++ NL); Call (mkCall id (lit "get_weather") (lit "city=New" ++ NL ++ lit "York;")); Content NL; Call (mkCall id' (lit "b") [])]).
Proof.
  assert (Hc : Forall (clean first) (tool_calls turn)).
  { repeat constructor; try (vm_compute; reflexivity); vm_compute; by eexists. }
  destruct (tool_call_roundtrip Qwen first turn None [] 0 0 eq_refl eq_refl eq_refl eq_refl eq_refl eq_refl Hc) as [_ Hq].
  destruct (tool_call_roundtrip Step35 first turn None [] 0 0 eq_refl eq_refl eq_refl eq_refl eq_refl eq_refl Hc) as [_ Hs].
  destruct (Hq pieces ltac:(vm_compute; reflexivity)) as (H1 & H2 & _). destruct (Hs [spoken Step35 turn] ltac:(vm_compute; reflexivity)) as (_ & H3 & _).
  split; [exact H1|]. split; [exact H2|]. split; [exact H3|]. eexists _, _. vm_compute. reflexivity.
Defined.

(** The strings the repository's tests pin for the other dialects. *)
Definition step35 : option str := Some (lit "render_message_content <tools> <think> add_generation_prompt").
Example step35_think :
  apply_chat_template_str step35 [(lit "user", lit "q"); (lit "assistant", ln "<think>" ++ ln "reasoned" ++ ln "</think>" ++ lit "answer")] false =
  ln "<|im_start|>user" ++ lit "q" ++ ln "<|im_end|>" ++ ln "<|im_start|>assistant" ++ ln "<think>" ++ ln "reasoned" ++ ln "</think>" ++ lit "answer" ++ ln "<|im_end|>".
Proof. vm_compute. reflexivity. Qed.
Example step35_boundary :
  apply_chat_template_str step35 [(lit "user", lit "question"); (lit "assistant", lit "plain"); (lit "user", lit "<tool_response>r</tool_response>")] true =
  ln "<|im_start|>user" ++ lit "question" ++ ln "<|im_end|>" ++ ln "<|im_start|>assistant" ++ ln "<think>" ++ NL ++ ln "</think>" ++ lit "plain" ++ ln "<|im_end|>" ++
  ln "<|im_start|>user" ++ lit "<tool_response>r</tool_response>" ++ ln "<|im_end|>" ++ ln "<|im_start|>assistant" ++ ln "<think>".
Proof. vm_compute. reflexivity. Qed.
Example hy3_history :
  apply_chat_template_tools (Some (lit "hy_User")) (turn_of <$> [(lit "user", lit "q"); (lit "assistant", lit "a"); (lit "user", lit "more")]) true [] Think (Some (lit "low")) =
  Ok (HY_BOS ++ HY_REASONING ++ lit "reasoning_effort:low" ++ HY_USER ++ lit "q" ++ HY_ASSISTANT ++ HY_THINK_BEGIN ++ HY_THINK_END ++ lit "a" ++ HY_EOS ++
      HY_USER ++ lit "more" ++ HY_ASSISTANT ++ HY_THINK_BEGIN).
Proof. vm_compute. reflexivity. Qed.
Example gemma_system :
  apply_chat_template_tools (Some (lit "<|turn>")) (turn_of <$> [(lit "system", lit "Be terse."); (lit "user", lit "Hi")]) true [] Think None =
  Ok (ln "<|turn>system" ++ ln "<|think|>" ++ lit "Be terse." ++ ln "<turn|>" ++ ln "<|turn>user" ++ lit "Hi" ++ ln "<turn|>" ++ ln "<|turn>model").
Proof. vm_compute. reflexivity. Qed.
Example qwen_tool_results :
  apply_chat_template_tools qwen [mkTurn (lit "user") (lit "both") []; mkTurn (lit "assistant") (lit "checking") [mkToolCall (lit "a") [(lit "x", lit "1")]; mkToolCall (lit "b") []];
    mkTurn (lit "tool") (lit "r1") []; mkTurn (lit "tool") (lit "r2") []] false [] Default None =
  Ok (ln "<|im_start|>user" ++ lit "both" ++ ln "<|im_end|>" ++ ln "<|im_start|>assistant" ++ ln "checking" ++ NL ++
      ln "<tool_call>" ++ ln "<function=a>" ++ ln "<parameter=x>" ++ ln "1" ++ ln "</parameter>" ++ ln "</function>" ++ ln "</tool_call>" ++
      ln "<tool_call>" ++ ln "<function=b>" ++ ln "</function>" ++ lit "</tool_call>" ++ ln "<|im_end|>" ++
      ln "<|im_start|>user" ++ ln "<tool_response>" ++ ln "r1" ++ ln "</tool_response>" ++ ln "<tool_response>" ++ ln "r2" ++ lit "</tool_response>" ++ ln "<|im_end|>").
Proof. vm_compute. reflexivity. Qed.
End ChatRuns.
