(* ===== verification/JsonText.v ===== *)
(** The JSON parser of the tokenizer crate: [memra-tokenizer/src/json.rs].

    The parser is a cursor over the bytes of the text; here it is the bytes that
    remain, from which an error's position is read off.  Its recursion takes fuel:
    every call that is not at the end consumes a byte or is followed by one that
    does, so twice the length is enough ([parse_total] of [JsonTextSpec]). *)
From Stdlib Require Import Floats.SpecFloat.
From S2P Require Import Prelude RustStr Utf8 F32.
Local Open Scope Z_scope.

(** A [HashMap] holds the last binding of a key. *)
Inductive Value :=
  | Null
  | VBool (b : bool)
  | Num (x : spec_float)
  | Str (s : str)
  | Arr (l : list Value)
  | Obj (o : gmap str Value).

Definition as_str (v : Value) : option str := match v with Str s => Some s | _ => None end.
Definition as_bool (v : Value) : option bool := match v with VBool b => Some b | _ => None end.
Definition as_arr (v : Value) : option (list Value) := match v with Arr a => Some a | _ => None end.
Definition as_obj (v : Value) : option (gmap str Value) := match v with Obj o => Some o | _ => None end.
Definition get (v : Value) (key : str) : option Value := o ← as_obj v; o !! key.
(** [*n as u64] of a number with no fraction saturates. *)
Definition as_u64 (v : Value) : option Z :=
  match v with
  | Num (S754_zero _) => Some 0
  | Num (S754_finite false m e) =>
      if 0 <=? e then Some (Z.min (u_max 64) (Zpos m * 2 ^ e))
      else if Zpos m mod 2 ^ (- e) =? 0 then Some (Z.min (u_max 64) (Zpos m / 2 ^ (- e))) else None
  | _ => None
  end.

Inductive JsonErr :=
  | UnexpectedEof
  | Expected (c at_ got : Z)
  | BadLiteral (at_ : Z)
  | ExpectedValue (at_ : Z)
  | BadNumber (at_ : Z)
  | TruncatedU
  | BadU
  | LoneHigh
  | BadLow
  | InvalidCodepoint
  | BadEscape (at_ : Z)
  | InvalidUtf8
  | ExpectedSep (close at_ got : Z)
  | TrailingBytes (at_ : Z)
  | OutOfFuel.

(** ** Numbers: [str::parse::<f64>] of digits, signs, points and exponents *)

Fixpoint span (p : Z -> bool) (l : list Z) : list Z * list Z :=
  match l with
  | [] => ([], [])
  | c :: l' => if p c then let '(a, b) := span p l' in (c :: a, b) else ([], l)
  end.
Definition num_char (c : Z) : bool := is_ascii_digit c || bool_decide (c ∈ [45; 43; 46; 101; 69]).
Definition digits_value (l : list Z) : Z := foldl (fun n c => n * 10 + (c - 48)) 0 l.
Definition signed (l : list Z) : bool * list Z :=
  match l with 45 :: l => (true, l) | 43 :: l => (false, l) | _ => (false, l) end.
(** The decimal [m * 10 ^ e], rounded to the nearest binary64. *)
Definition f64_of_decimal (neg : bool) (m e : Z) : spec_float :=
  match m with
  | Zpos p =>
      if 0 <=? e then binary_normalize 53 1024 (if neg then - (m * 10 ^ e) else m * 10 ^ e) 0 neg
      else SFdiv 53 1024 (S754_finite neg p 0) (S754_finite false (Z.to_pos (10 ^ (- e))) 0)
  | _ => S754_zero neg
  end.
Definition parse_f64 (l : list Z) : option spec_float :=
  let '(neg, l) := signed l in
  let '(int, l) := span is_ascii_digit l in
  let '(frac, l) := match l with 46 :: l => span is_ascii_digit l | _ => ([], l) end in
  match int ++ frac with
  | [] => None
  | mantissa =>
      let value e := f64_of_decimal neg (digits_value mantissa) (e - Z.of_nat (length frac)) in
      match l with
      | [] => Some (value 0)
      | c :: l =>
          if (c =? 101) || (c =? 69) then
            let '(eneg, l) := signed l in
            match l, span is_ascii_digit l with
            | _ :: _, (ds, []) => Some (value (if eneg then - digits_value ds else digits_value ds))
            | _, _ => None
            end
          else None
      end
  end.

#[export] Instance is_char_dec c : Decision (is_char c).
Proof. unfold is_char. apply _. Defined.
(** [std::str::from_utf8]: the string these bytes encode. *)
Definition from_utf8 (bs : list Z) : option str :=
  let s := from_utf8_lossy bs in if bool_decide (utf8 s = bs /\ Forall is_char s) then Some s else None.
Definition hex_value (c : Z) : option Z :=
  if is_ascii_digit c then Some (c - 48)
  else if (97 <=? c) && (c <=? 102) then Some (c - 87)
  else if (65 <=? c) && (c <=? 70) then Some (c - 55)
  else None.
(** [u32::from_str_radix(s, 16)] of four bytes, a leading plus accepted. *)
Definition from_hex (l : list Z) : option Z :=
  match match l with 43 :: l => l | _ => l end with
  | [] => None
  | l => foldl (fun n c => n ← n; d ← hex_value c; Some (n * 16 + d)) (Some 0) l
  end.

(** ** The parser *)

(** A result and the bytes that remain. *)
Local Notation R A := (outcome JsonErr (A * list Z)).

Section Parser.
(** The length of the text. *)
Variable len : Z.
Definition pos (l : list Z) : Z := len - Z.of_nat (length l).

Definition is_ws (c : Z) : bool := bool_decide (c ∈ [32; 9; 10; 13]).
Fixpoint ws (l : list Z) : list Z := match l with c :: l' => if is_ws c then ws l' else l | [] => [] end.
Definition peek (l : list Z) : outcome JsonErr Z := match l with c :: _ => Ok c | [] => Err UnexpectedEof end.
Definition expect (c : Z) (l : list Z) : R unit :=
  match l with
  | [] => Err UnexpectedEof
  | c' :: l' => if c' =? c then Ok (tt, l') else Err (Expected c (pos l) c')
  end.
Definition literal (word : list Z) (v : Value) (l : list Z) : R Value :=
  match strip_prefix word l with Some l' => Ok (v, l') | None => Err (BadLiteral (pos l)) end.
Definition number (l : list Z) : R Value :=
  let '(s, l') := span num_char l in
  match s with
  | [] => Err (ExpectedValue (pos l))
  | _ => match parse_f64 s with Some x => Ok (Num x, l') | None => Err (BadNumber (pos l)) end
  end.
Definition hex4 (l : list Z) : R Z :=
  if (length l <? 4)%nat then Err TruncatedU
  else match from_hex (take 4 l) with Some v => Ok (v, drop 4 l) | None => Err BadU end.
Definition simple_escape (e : Z) : option Z :=
  if e =? 34 then Some 34 else if e =? 92 then Some 92 else if e =? 47 then Some 47 else if e =? 98 then Some 8
  else if e =? 102 then Some 12 else if e =? 110 then Some 10 else if e =? 114 then Some 13 else if e =? 116 then Some 9 else None.
(** After the backslash and the [u]. *)
Definition unicode_escape (l : list Z) : R Z :=
  '(hi, l) ← hex4 l;
  '(cp, l) ← (if (55296 <=? hi) && (hi <? 56320) then
                match strip_prefix [92; 117] l with
                | Some l =>
                    '(lo, l) ← hex4 l;
                    if (56320 <=? lo) && (lo <? 57344) then Ok (65536 + Z.shiftl (hi - 55296) 10 + (lo - 56320), l) else Err BadLow
                | None => Err LoneHigh
                end
              else Ok (hi, l));
  if bool_decide (is_char cp) then Ok (cp, l) else Err InvalidCodepoint.
Definition run_char (c : Z) : bool := negb (c =? 34) && negb (c =? 92).
(** The loop of [string]; [out]: what is read so far. *)
Fixpoint string_loop (fuel : nat) (out : str) (l : list Z) : R str :=
  match fuel with
  | O => Err OutOfFuel
  | S fuel =>
      c ← peek l;
      if c =? 34 then Ok (out, drop 1 l)
      else if c =? 92 then
        let l := drop 1 l in
        e ← peek l;
        if e =? 117 then '(c, l) ← unicode_escape (drop 1 l); string_loop fuel (out ++ [c]) l
        else match simple_escape e with Some c => string_loop fuel (out ++ [c]) (drop 1 l) | None => Err (BadEscape (pos l)) end
      else
        let '(bytes, l) := span run_char l in
        match from_utf8 bytes with Some s => string_loop fuel (out ++ s) l | None => Err InvalidUtf8 end
  end.
Definition string (l : list Z) : R str := '(_, l) ← expect 34 l; string_loop (S (length l)) [] l.

Fixpoint value (fuel : nat) (l : list Z) {struct fuel} : R Value :=
  match fuel with
  | O => Err OutOfFuel
  | S fuel =>
      c ← peek l;
      if c =? 123 then
        '(_, l) ← expect 123 l;
        let l := ws l in
        c ← peek l;
        if c =? 125 then Ok (Obj ∅, drop 1 l) else members fuel ∅ l
      else if c =? 91 then
        '(_, l) ← expect 91 l;
        let l := ws l in
        c ← peek l;
        if c =? 93 then Ok (Arr [], drop 1 l) else elements fuel [] l
      else if c =? 34 then '(s, l) ← string l; Ok (Str s, l)
      else if c =? 116 then literal (lit "true") (VBool true) l
      else if c =? 102 then literal (lit "false") (VBool false) l
      else if c =? 110 then literal (lit "null") Null l
      else number l
  end
with elements (fuel : nat) (out : list Value) (l : list Z) {struct fuel} : R Value :=
  match fuel with
  | O => Err OutOfFuel
  | S fuel =>
      '(v, l) ← value fuel (ws l);
      let l := ws l in
      c ← peek l;
      if c =? 44 then elements fuel (out ++ [v]) (drop 1 l)
      else if c =? 93 then Ok (Arr (out ++ [v]), drop 1 l)
      else Err (ExpectedSep 93 (pos l) c)
  end
with members (fuel : nat) (out : gmap str Value) (l : list Z) {struct fuel} : R Value :=
  match fuel with
  | O => Err OutOfFuel
  | S fuel =>
      '(k, l) ← string (ws l);
      '(_, l) ← expect 58 (ws l);
      '(v, l) ← value fuel (ws l);
      let out := <[k := v]> out in
      let l := ws l in
      c ← peek l;
      if c =? 44 then members fuel out (drop 1 l)
      else if c =? 125 then Ok (Obj out, drop 1 l)
      else Err (ExpectedSep 125 (pos l) c)
  end.
End Parser.

Definition parse (text : list Z) : outcome JsonErr Value :=
  let len := Z.of_nat (length text) in
  '(v, l) ← value len (2 * length text + 1) (ws text);
  match ws l with [] => Ok v | l => Err (TrailingBytes (pos len l)) end.
