(* ===== verification/JsonTextSpec.v ===== *)
(** The JSON parser accepts exactly the texts of a grammar, with the value the
    grammar gives them, and never runs out of fuel ([json_parse_exact]).

    The grammar is RFC 8259's, as loose as the parser: a number is any run of its
    characters that reads as a decimal, a plus may stand for a hex digit's leading
    zero, and a string may hold control characters. *)
From Stdlib Require Import Floats.SpecFloat.
From S2P Require Import Prelude RustStr Utf8 F32 JsonText.
Local Open Scope Z_scope.

Notation blank w := (Forall (fun c => is_ws c = true) w).

(** ** The grammar *)

(** The bytes of a string between its quotes. *)
Inductive chars : str -> list Z -> Prop :=
  | ch_nil : chars [] []
  | ch_plain c s t : is_char c -> c <> 34 -> c <> 92 -> chars s t -> chars (c :: s) (utf8_char c ++ t)
  | ch_escape e c s t : simple_escape e = Some c -> chars s t -> chars (c :: s) (92 :: e :: t)
  | ch_unit h c s t : length h = 4%nat -> from_hex h = Some c -> ~ 55296 <= c < 56320 -> is_char c -> chars s t ->
      chars (c :: s) (92 :: 117 :: h ++ t)
  | ch_pair h1 h2 hi lo s t : length h1 = 4%nat -> length h2 = 4%nat -> from_hex h1 = Some hi -> 55296 <= hi < 56320 ->
      from_hex h2 = Some lo -> 56320 <= lo < 57344 -> chars s t ->
      chars (65536 + (hi - 55296) * 1024 + (lo - 56320) :: s) (92 :: 117 :: h1 ++ 92 :: 117 :: h2 ++ t).

(** The bindings of an object, the last of a key winning. *)
Definition bind_all (ps : list (str * Value)) (o : gmap str Value) : gmap str Value := foldl (fun o kv => <[kv.1 := kv.2]> o) o ps.
Inductive text : Value -> list Z -> Prop :=
  | t_null : text Null (lit "null")
  | t_true : text (VBool true) (lit "true")
  | t_false : text (VBool false) (lit "false")
  | t_num s x : Forall (fun c => num_char c = true) s -> parse_f64 s = Some x -> text (Num x) s
  | t_str s t : chars s t -> text (Str s) (34 :: t ++ [34])
  | t_arr0 w : blank w -> text (Arr []) (91 :: w ++ [93])
  | t_arr l t : items l t -> text (Arr l) (91 :: t ++ [93])
  | t_obj0 w : blank w -> text (Obj ∅) (123 :: w ++ [125])
  | t_obj ps t : bindings ps t -> text (Obj (bind_all ps ∅)) (123 :: t ++ [125])
with items : list Value -> list Z -> Prop :=
  | i_last v w1 t w2 : blank w1 -> blank w2 -> text v t -> items [v] (w1 ++ t ++ w2)
  | i_more v w1 t w2 l t' : blank w1 -> blank w2 -> text v t -> items l t' -> items (v :: l) (w1 ++ t ++ w2 ++ 44 :: t')
with bindings : list (str * Value) -> list Z -> Prop :=
  | b_last k kt w1 w2 w3 v t w4 : blank w1 -> blank w2 -> blank w3 -> blank w4 -> chars k kt -> text v t ->
      bindings [(k, v)] (w1 ++ 34 :: kt ++ 34 :: w2 ++ 58 :: w3 ++ t ++ w4)
  | b_more k kt w1 w2 w3 v t w4 ps t' : blank w1 -> blank w2 -> blank w3 -> blank w4 -> chars k kt -> text v t -> bindings ps t' ->
      bindings ((k, v) :: ps) (w1 ++ 34 :: kt ++ 34 :: w2 ++ 58 :: w3 ++ t ++ w4 ++ 44 :: t').
Scheme text_mind := Minimality for text Sort Prop
  with items_mind := Minimality for items Sort Prop
  with bindings_mind := Minimality for bindings Sort Prop.
Combined Scheme text_items_bindings from text_mind, items_mind, bindings_mind.
(** A document is a value between blanks. *)
Definition document (v : Value) (b : list Z) : Prop := exists w1 t w2, b = w1 ++ t ++ w2 /\ blank w1 /\ blank w2 /\ text v t.

(** ** Spans and blanks *)

Lemma span_spec p l a b : span p l = (a, b) -> l = a ++ b /\ Forall (fun c => p c = true) a /\ match b with c :: _ => p c = false | [] => True end.
Proof.
  revert a b. induction l as [|c l IH]; intros a b; cbn [span]; [by intros [= <- <-]|]. destruct (p c) eqn:Ec.
  - destruct (span p l) as [a' b'] eqn:Es. intros [= <- <-]. destruct (IH a' b' eq_refl) as (-> & Ha & Hb). split; [done|]. split; [by constructor|done].
  - intros [= <- <-]. done.
Qed.
Lemma span_app p a b : Forall (fun c => p c = true) a -> match b with c :: _ => p c = false | [] => True end -> span p (a ++ b) = (a, b).
Proof.
  intros Ha Hb. induction Ha as [|c a Hc _ IH]; cbn [app span]; [|by rewrite Hc, IH]. destruct b as [|c b]; [done|]. cbn [span]. by rewrite Hb.
Qed.
Definition not_ws (l : list Z) : Prop := match l with c :: _ => is_ws c = false | [] => True end.
Lemma ws_app w l : blank w -> not_ws l -> ws (w ++ l) = l.
Proof. intros Hw Hl. induction Hw as [|c w Hc _ IH]; cbn [app ws]; [|by rewrite Hc]. destruct l as [|c l]; [done|]. cbn [ws]. unfold not_ws in Hl. by rewrite Hl. Qed.
Lemma ws_spec l : exists w, blank w /\ l = w ++ ws l /\ not_ws (ws l).
Proof.
  induction l as [|c l (w & Hw & Hl & Hn)]; [by exists []|]. cbn [ws]. destruct (is_ws c) eqn:Ec; [|by exists []].
  exists (c :: w). split; [by constructor|]. split; [cbn; by f_equal|done].
Qed.
Lemma ws_idem l : ws (ws l) = ws l.
Proof. destruct (ws_spec l) as (w & _ & _ & Hn). destruct (ws l) as [|c l']; [done|]. cbn [ws]. unfold not_ws in Hn. by rewrite Hn. Qed.
Lemma ws_length l : (length (ws l) <= length l)%nat.
Proof. destruct (ws_spec l) as (w & _ & Hl & _). rewrite Hl at 2. rewrite length_app. lia. Qed.

(** ** Strings *)

Lemma from_utf8_Some bs s : from_utf8 bs = Some s <-> utf8 s = bs /\ Forall is_char s.
Proof.
  unfold from_utf8. cbn zeta. split.
  - destruct (bool_decide _) eqn:E; [|done]. apply bool_decide_eq_true in E. by intros [= <-].
  - intros [<- Hs]. rewrite from_utf8_utf8 by done. by rewrite bool_decide_eq_true_2.
Qed.
(** The bytes of a character other than quote and backslash are neither. *)
Lemma utf8_run c : is_char c -> c <> 34 -> c <> 92 -> Forall (fun b => run_char b = true) (utf8_char c).
Proof.
  intros Hc H1 H2. unfold is_char in Hc. unfold utf8_char, run_char.
  pose proof (Z.mod_pos_bound c 64 ltac:(lia)). pose proof (Z.mod_pos_bound (c / 64) 64 ltac:(lia)). pose proof (Z.mod_pos_bound (c / 4096) 64 ltac:(lia)).
  pose proof (Z.div_pos c 64 ltac:(lia) ltac:(lia)). pose proof (Z.div_pos c 4096 ltac:(lia) ltac:(lia)). pose proof (Z.div_pos c 262144 ltac:(lia) ltac:(lia)).
  destruct (c <? 128); [|destruct (c <? 2048); [|destruct (c <? 65536)]]; repeat constructor; apply andb_true_iff; split; apply negb_true_iff, Z.eqb_neq; lia.
Qed.
(** Plain characters come in maximal runs. *)
Lemma chars_run s t : chars s t -> exists r s' t', s = r ++ s' /\ t = utf8 r ++ t' /\ Forall is_char r /\ Forall (fun b => run_char b = true) (utf8 r) /\
  chars s' t' /\ match t' with c :: _ => c = 92 | [] => True end.
Proof.
  induction 1 as [|c s t Hc H1 H2 Ht (r & s' & t' & -> & -> & Hr & Hrr & Hs & Hh)|e c s t He Ht _|h c s t Hl Hx Hn Hc Ht _|h1 h2 hi lo s t Hl1 Hl2 Hx1 Hr1 Hx2 Hr2 Ht _].
  - exists [], [], []. repeat split; constructor.
  - exists (c :: r), s', t'. rewrite utf8_cons, <- app_assoc. split; [done|]. split; [done|]. split; [by constructor|]. split; [|done].
    apply Forall_app. split; [by apply utf8_run|done].
  - exists [], (c :: s), (92 :: e :: t). repeat split; try constructor; done.
  - exists [], (c :: s), (92 :: 117 :: h ++ t). split; [done|]. split; [done|]. split; [constructor|]. split; [constructor|]. split; [by eapply ch_unit|done].
  - eexists [], (_ :: s), _. split; [done|]. split; [reflexivity|]. split; [constructor|]. split; [constructor|]. split; [by eapply ch_pair|done].
Qed.
Lemma chars_utf8 r s t : Forall is_char r -> Forall (fun b => run_char b = true) (utf8 r) -> chars s t -> chars (r ++ s) (utf8 r ++ t).
Proof.
  intros Hr Hrr Hs. induction Hr as [|c r Hc Hr IH]; [done|]. rewrite utf8_cons, <- app_assoc in *. apply Forall_app in Hrr as [Hcc Hrr].
  assert (Hplain : forall d, 0 <= d < 128 -> run_char d = false -> c <> d).
  { intros d Hd Hx ->. unfold utf8_char in Hcc. rewrite (proj2 (Z.ltb_lt d 128)) in Hcc by lia. apply Forall_cons in Hcc as [Hcc _]. by rewrite Hx in Hcc. }
  cbn [app]. apply ch_plain; [done|by apply Hplain|by apply Hplain|by apply IH].
Qed.

Section Len.
Variable len : Z.

Lemma hex4_app h c t : length h = 4%nat -> from_hex h = Some c -> hex4 (h ++ t) = Ok (c, t).
Proof.
  intros Hl Hx. unfold hex4. rewrite length_app. destruct (Nat.ltb_spec (length h + length t) 4); [lia|].
  rewrite <- Hl, take_app_length, drop_app_length. by rewrite Hx.
Qed.
Lemma hex4_Ok l c r : hex4 l = Ok (c, r) -> exists h, l = h ++ r /\ length h = 4%nat /\ from_hex h = Some c.
Proof.
  unfold hex4. destruct (Nat.ltb_spec (length l) 4); [done|]. destruct (from_hex (take 4 l)) as [v|] eqn:E; [|done]. intros [= <- <-].
  exists (take 4 l). split; [by rewrite take_drop|]. split; [rewrite length_take; lia|done].
Qed.
Lemma pair_char hi lo : 55296 <= hi < 56320 -> 56320 <= lo < 57344 -> is_char (65536 + (hi - 55296) * 1024 + (lo - 56320)).
Proof. unfold is_char. lia. Qed.
Lemma unicode_unit h c t : length h = 4%nat -> from_hex h = Some c -> ~ 55296 <= c < 56320 -> is_char c -> unicode_escape (h ++ t) = Ok (c, t).
Proof.
  intros Hl Hx Hn Hc. unfold unicode_escape. rewrite (hex4_app _ c) by done. cbn [mbind outcome_bind].
  assert (Hb : (55296 <=? c) && (c <? 56320) = false) by (apply andb_false_iff; lia). rewrite Hb. cbn [mbind outcome_bind]. by rewrite bool_decide_eq_true_2.
Qed.
Lemma unicode_pair h1 h2 hi lo t : length h1 = 4%nat -> length h2 = 4%nat -> from_hex h1 = Some hi -> 55296 <= hi < 56320 -> from_hex h2 = Some lo ->
  56320 <= lo < 57344 -> unicode_escape (h1 ++ 92 :: 117 :: h2 ++ t) = Ok (65536 + (hi - 55296) * 1024 + (lo - 56320), t).
Proof.
  intros Hl1 Hl2 Hx1 Hr1 Hx2 Hr2. unfold unicode_escape. rewrite (hex4_app _ hi) by done. cbn [mbind outcome_bind].
  assert (Hb : (55296 <=? hi) && (hi <? 56320) = true) by (apply andb_true_iff; lia). rewrite Hb. change (92 :: 117 :: h2 ++ t) with ([92; 117] ++ h2 ++ t). rewrite (proj2 (strip_prefix_Some [92; 117] _ (h2 ++ t)) eq_refl), (hex4_app _ lo) by done. cbn [mbind outcome_bind].
  assert (Hb2 : (56320 <=? lo) && (lo <? 57344) = true) by (apply andb_true_iff; lia). rewrite Hb2. cbn [mbind outcome_bind].
  rewrite Z.shiftl_mul_pow2 by lia. rewrite bool_decide_eq_true_2 by (by apply pair_char). done.
Qed.
(** What follows the [u], and the character it stands for. *)
Definition unicode (c : Z) (u : list Z) : Prop := forall s t, chars s t -> chars (c :: s) (92 :: 117 :: u ++ t).
Lemma unicode_Ok l c r : unicode_escape l = Ok (c, r) -> exists u, l = u ++ r /\ (4 <= length u)%nat /\ unicode c u.
Proof.
  unfold unicode_escape. intros Hu. apply bind_Ok in Hu as ([hi l1] & H1 & Hu). apply hex4_Ok in H1 as (h1 & -> & Hl1 & Hx1).
  apply bind_Ok in Hu as ([cp l2] & H2 & Hu). destruct (bool_decide (is_char cp)) eqn:Ec; [|done]. apply bool_decide_eq_true in Ec. injection Hu as <- <-.
  destruct ((55296 <=? hi) && (hi <? 56320)) eqn:Eb.
  - destruct (strip_prefix [92; 117] l1) as [l3|] eqn:Es; [|done]. apply strip_prefix_Some in Es as ->.
    apply bind_Ok in H2 as ([lo l4] & H3 & H2). apply hex4_Ok in H3 as (h2 & -> & Hl2 & Hx2).
    destruct ((56320 <=? lo) && (lo <? 57344)) eqn:Eb2; [|done]. injection H2 as <- <-. apply andb_true_iff in Eb as [E1 E2], Eb2 as [E3 E4].
    exists (h1 ++ [92; 117] ++ h2). split; [by rewrite <- !app_assoc|]. split; [rewrite length_app; lia|]. intros s t Hs.
    rewrite Z.shiftl_mul_pow2 by lia. rewrite <- !app_assoc. eapply (ch_pair h1 h2 hi lo); (done || lia).
  - injection H2 as <- <-. exists h1. split; [done|]. split; [lia|]. intros s t Hs. apply ch_unit; try done. intros [? ?]. apply andb_false_iff in Eb. lia.
Qed.

(** *** The loop *)

Lemma string_loop_Ok f out l s r : string_loop len f out l = Ok (s, r) -> exists s' t, s = out ++ s' /\ l = t ++ 34 :: r /\ chars s' t.
Proof.
  revert out l. induction f as [|f IH]; intros out l; [done|]. cbn [string_loop]. intros Hr. destruct l as [|c l]; [done|]. cbn [peek mbind outcome_bind drop] in Hr. rewrite ?drop_0 in Hr.
  destruct (Z.eqb_spec c 34) as [->|H34]; [injection Hr as <- <-; exists [], []; split; [by rewrite app_nil_r|split; [done|constructor]]|].
  destruct (Z.eqb_spec c 92) as [->|H92].
  - destruct l as [|e l]; [done|]. cbn [peek mbind outcome_bind drop] in Hr. rewrite ?drop_0 in Hr. destruct (Z.eqb_spec e 117) as [->|Hu].
    + apply bind_Ok in Hr as ([c l'] & Hc & Hr). apply unicode_Ok in Hc as (u & -> & _ & Hu). apply IH in Hr as (s' & t & -> & -> & Hs).
      exists (c :: s'), (92 :: 117 :: u ++ t). split; [by rewrite <- app_assoc|]. split; [cbn; by rewrite <- app_assoc|by apply Hu].
    + destruct (simple_escape e) as [c|] eqn:Ee; [|done]. apply IH in Hr as (s' & t & -> & -> & Hs).
      exists (c :: s'), (92 :: e :: t). split; [by rewrite <- app_assoc|]. split; [done|by apply ch_escape].
  - destruct (span run_char (c :: l)) as [bytes l'] eqn:Es. apply span_spec in Es as (El & Hb & _). destruct (from_utf8 bytes) as [x|] eqn:Ex; [|done].
    apply from_utf8_Some in Ex as [<- Hx]. apply IH in Hr as (s' & t & -> & -> & Hs). exists (x ++ s'), (utf8 x ++ t).
    split; [by rewrite <- app_assoc|]. split; [by rewrite El, <- app_assoc|by apply chars_utf8].
Qed.
Lemma string_loop_chars f out s t r : chars s t -> (length t < f)%nat -> string_loop len f out (t ++ 34 :: r) = Ok (out ++ s, r).
Proof.
  revert out s t. induction f as [|f IH]; intros out s t Hs Hf; [lia|]. cbn [string_loop].
  destruct (chars_run _ _ Hs) as (x & s' & t' & -> & -> & Hx & Hxr & Hs' & Hh). destruct x as [|c x].
  - cbn [app utf8 mbind list_bind]. destruct Hs' as [|c s' t' Hc H1 H2 Ht|e c s' t' He Ht|h c s' t' Hl Hxh Hn Hc Ht|h1 h2 hi lo s' t' Hl1 Hl2 Hx1 Hr1 Hx2 Hr2 Ht].
    + cbn. by rewrite app_nil_r.
    + exfalso. pose proof (utf8_run c Hc H1 H2) as Hrun. destruct (utf8_char c) as [|b y] eqn:Eb; [|cbn in Hh; subst b; by apply Forall_cons in Hrun as [Hrun _]].
      unfold utf8_char in Eb. by destruct (c <? 128), (c <? 2048), (c <? 65536).
    + cbn [app utf8 mbind list_bind length] in Hf. cbn [app peek mbind outcome_bind drop]. rewrite ?drop_0. change (92 =? 34) with false. change (92 =? 92) with true. cbn iota.
      destruct (Z.eqb_spec e 117) as [->|]; [done|]. rewrite He, (IH _ s') by (done || lia). by rewrite <- app_assoc.
    + cbn [app utf8 mbind list_bind length] in Hf. rewrite length_app in Hf. cbn [app peek mbind outcome_bind drop]. rewrite ?drop_0. change (92 =? 34) with false. change (92 =? 92) with true.
      change (117 =? 117) with true. cbn iota. rewrite <- app_assoc, (unicode_unit h c) by done. cbn [mbind outcome_bind]. rewrite (IH _ s') by (done || lia). by rewrite <- app_assoc.
    + cbn [app utf8 mbind list_bind length] in Hf. rewrite length_app in Hf. cbn [length] in Hf. rewrite length_app in Hf. cbn [app peek mbind outcome_bind drop]. rewrite ?drop_0.
      change (92 =? 34) with false. change (92 =? 92) with true. change (117 =? 117) with true. cbn iota.
      replace ((h1 ++ 92 :: 117 :: h2 ++ t') ++ 34 :: r) with (h1 ++ 92 :: 117 :: h2 ++ (t' ++ 34 :: r)) by (rewrite <- app_assoc; cbn; by rewrite <- app_assoc).
      rewrite (unicode_pair h1 h2 hi lo) by done. cbn [mbind outcome_bind]. rewrite (IH _ s') by (done || lia). by rewrite <- app_assoc.
  - rewrite <- app_assoc. pose proof (utf8_length (c :: x)) as Hl. rewrite length_app in Hf. cbn [length] in Hl.
    assert (Hspan : span run_char (utf8 (c :: x) ++ t' ++ 34 :: r) = (utf8 (c :: x), t' ++ 34 :: r)).
    { apply span_app; [done|]. destruct t' as [|d t']; [done|]. cbn. by rewrite Hh. }
    destruct (utf8 (c :: x)) as [|b y] eqn:Eb; [cbn in Hl; lia|]. cbn [app peek mbind outcome_bind]. apply Forall_cons in Hxr as [Hb Hy].
    apply andb_true_iff in Hb as [Hb1 Hb2]. apply negb_true_iff in Hb1 as ->, Hb2 as ->.
    change (b :: y ++ t' ++ 34 :: r) with ((b :: y) ++ t' ++ 34 :: r). rewrite Hspan.
    assert (Hd : from_utf8 (b :: y) = Some (c :: x)) by (by apply from_utf8_Some). rewrite Hd, (IH _ s'); [by rewrite <- app_assoc|done|]. cbn [length] in Hf. lia.
Qed.
(** Neither a panic nor the lack of fuel. *)
Definition sound {A} (m : outcome JsonErr A) : Prop := match m with Ok _ => True | Err e => e <> OutOfFuel | Panic => False end.
Lemma sound_bind {A B} (m : outcome JsonErr A) (k : A -> outcome JsonErr B) : sound m -> (forall a, m = Ok a -> sound (k a)) -> sound (a ← m; k a).
Proof. intros Hm Hk. destruct m as [a|e|]; cbn [mbind outcome_bind]; [by apply Hk|done|done]. Qed.
Lemma sound_peek l : sound (peek l).
Proof. by destruct l. Qed.
Lemma sound_hex4 l : sound (hex4 l).
Proof. unfold hex4. destruct (length l <? 4)%nat; [done|]. by destruct (from_hex _). Qed.
Lemma sound_unicode l : sound (unicode_escape l).
Proof.
  unfold unicode_escape. apply sound_bind; [apply sound_hex4|]. intros [hi l1] _. apply sound_bind.
  - destruct (_ && _); [|done]. destruct (strip_prefix _ l1); [|done]. apply sound_bind; [apply sound_hex4|]. intros [lo l2] _. by destruct (_ && _).
  - intros [cp l2] _. by destruct (bool_decide _).
Qed.
Lemma sound_string_loop f out l : (length l < f)%nat -> sound (string_loop len f out l).
Proof.
  revert out l. induction f as [|f IH]; intros out l Hf; [lia|]. cbn [string_loop]. destruct l as [|c l]; [done|]. cbn [length] in Hf. cbn [peek mbind outcome_bind drop]. rewrite ?drop_0.
  destruct (Z.eqb_spec c 34) as [->|H34]; [done|]. destruct (Z.eqb_spec c 92) as [->|H92].
  - destruct l as [|e l]; [done|]. cbn [peek mbind outcome_bind drop length] in *. rewrite ?drop_0. destruct (Z.eqb_spec e 117).
    + apply sound_bind; [apply sound_unicode|]. intros [c l'] Eu. apply unicode_Ok in Eu as (u & -> & Hu & _). rewrite length_app in Hf. apply IH. lia.
    + destruct (simple_escape e); [apply IH; lia|done].
  - destruct (span run_char (c :: l)) as [bytes l'] eqn:Es. pose proof Es as Es'. apply span_spec in Es as (El & _ & _).
    assert (Hb : bytes <> []).
    { cbn [span] in Es'. unfold run_char at 1 in Es'. rewrite (proj2 (Z.eqb_neq c 34)), (proj2 (Z.eqb_neq c 92)) in Es' by done. cbn [negb andb] in Es'.
      destruct (span run_char l). by injection Es' as <- _. }
    destruct (from_utf8 bytes); [|done]. apply IH. apply (f_equal length) in El. rewrite length_app in El. destruct bytes; [done|]. cbn [length] in El. lia.
Qed.

(** ** Values *)

Lemma expect_same c l : expect len c (c :: l) = Ok (tt, l).
Proof. cbn [expect]. by rewrite Z.eqb_refl. Qed.
Lemma expect_Ok c l x r : expect len c l = Ok (x, r) -> l = c :: r.
Proof. destruct l as [|c' l]; [done|]. cbn [expect]. destruct (Z.eqb_spec c' c) as [->|]; [|done]. by intros [= _ <-]. Qed.
Lemma string_Ok l s r : string len l = Ok (s, r) -> exists t, l = 34 :: t ++ 34 :: r /\ chars s t.
Proof.
  unfold string. intros Hs. apply bind_Ok in Hs as ([[] l'] & He & Hs). apply expect_Ok in He as ->. apply string_loop_Ok in Hs as (s' & t & -> & -> & Hc). by exists t.
Qed.
Lemma string_chars s t r : chars s t -> string len (34 :: t ++ 34 :: r) = Ok (s, r).
Proof.
  intros Hs. unfold string. rewrite expect_same. cbn [mbind outcome_bind]. rewrite (string_loop_chars _ _ s) by (done || (rewrite length_app; lia)). done.
Qed.
Lemma sound_expect c l : sound (expect len c l).
Proof. destruct l as [|c' l]; [done|]. cbn [expect]. by destruct (c' =? c). Qed.
Lemma sound_string l : sound (string len l).
Proof. unfold string. apply sound_bind; [apply sound_expect|]. intros [[] l'] _. apply sound_string_loop. lia. Qed.

Lemma num_not c : num_char c = true -> c ∉ [123; 91; 34; 116; 102; 110; 93; 125; 44; 58; 32; 9; 10; 13].
Proof.
  unfold num_char, is_ascii_digit. intros Hc Hin. apply orb_true_iff in Hc as [Hc|Hc].
  - apply andb_true_iff in Hc as [H1 H2]. rewrite !elem_of_cons, elem_of_nil in Hin. lia.
  - apply bool_decide_eq_true in Hc. set_unfold. lia.
Qed.
(** A value's first byte is no blank and no delimiter. *)
Lemma text_head v t : text v t -> exists c t', t = c :: t' /\ c ∉ [93; 125; 44; 58; 32; 9; 10; 13].
Proof.
  intros Ht. destruct Ht as [| | |s x Hs Hx|s t _|w _|l t _|w _|ps t _]; try (eexists _, _; split; [reflexivity|]; vm_compute; set_solver); try (eexists _, _; split; [reflexivity|]; set_solver).
  destruct s as [|c s]; [done|]. apply Forall_cons in Hs as [Hc _]. eexists _, _. split; [done|]. pose proof (num_not c Hc). set_solver.
Qed.
Lemma not_ws_head c l : c ∉ [32; 9; 10; 13] -> not_ws (c :: l).
Proof. intros Hc. unfold not_ws, is_ws. by apply bool_decide_eq_false_2. Qed.
Lemma ws_text w v t z : blank w -> text v t -> ws (w ++ t ++ z) = t ++ z.
Proof.
  intros Hw Ht. apply ws_app; [done|]. destruct (text_head v t Ht) as (c & t' & -> & Hc). apply not_ws_head. set_solver.
Qed.
(** Nothing that follows is read as part of a number. *)
Definition stops (l : list Z) : Prop := match l with c :: _ => num_char c = false | [] => True end.
Lemma stops_blank w l : blank w -> stops l -> stops (w ++ l).
Proof.
  intros Hw Hl. destruct w as [|c w]; [done|]. apply Forall_cons in Hw as [Hc _]. cbn. apply bool_decide_eq_true in Hc.
  destruct (num_char c) eqn:En; [|done]. apply num_not in En. set_solver.
Qed.
Lemma literal_same w v l : literal len w v (w ++ l) = Ok (v, l).
Proof. unfold literal. by rewrite (proj2 (strip_prefix_Some w _ l) eq_refl). Qed.
Lemma elements_ws f out l : elements len f out (ws l) = elements len f out l.
Proof. destruct f as [|f]; [done|]. cbn [elements]. by rewrite ws_idem. Qed.
Lemma members_ws f out l : members len f out (ws l) = members len f out l.
Proof. destruct f as [|f]; [done|]. cbn [members]. by rewrite ws_idem. Qed.
Lemma value_number f s x r : Forall (fun c => num_char c = true) s -> parse_f64 s = Some x -> stops r -> value len (S f) (s ++ r) = Ok (Num x, r).
Proof.
  intros Hs Hx Hr. destruct s as [|c s]; [done|]. cbn [value app peek mbind outcome_bind]. pose proof Hs as Hs'. apply Forall_cons in Hs as [Hc _]. apply num_not in Hc.
  assert (Hn : forall d, d ∈ [123; 91; 34; 116; 102; 110] -> (c =? d) = false) by (intros d Hd; apply Z.eqb_neq; intros ->; set_solver).
  rewrite !Hn by set_solver. unfold number. change (c :: s ++ r) with ((c :: s) ++ r). rewrite span_app by done. by rewrite Hx.
Qed.
(** The first byte of the items, or bindings, past the blanks. *)
Lemma items_head l t : items l t -> forall z, exists c y, ws (t ++ z) = c :: y /\ c <> 93.
Proof.
  intros Hi z. destruct Hi as [v w1 t w2 Hw1 _ Ht|v w1 t w2 l t' Hw1 _ Ht _]; rewrite <- !app_assoc, (ws_text w1 v t) by done;
    destruct (text_head v t Ht) as (c & t0 & -> & Hc); eexists _, _; (split; [reflexivity|]); intros ->; set_solver.
Qed.
Lemma bindings_head ps t : bindings ps t -> forall z, exists y, ws (t ++ z) = 34 :: y.
Proof.
  intros Hb z. destruct Hb as [k kt w1 w2 w3 v t w4 Hw1 _ _ _ _ _|k kt w1 w2 w3 v t w4 ps t' Hw1 _ _ _ _ _ _]; rewrite <- app_assoc; eexists; (rewrite ws_app; [reflexivity|done|]);
    apply not_ws_head; set_solver.
Qed.

(** *** Every text of the grammar is read *)

Lemma peek_blank w c l : blank w -> c ∉ [32; 9; 10; 13] -> ws (w ++ c :: l) = c :: l.
Proof. intros Hw Hc. apply ws_app; [done|by apply not_ws_head]. Qed.
Lemma stops_sep w c l : blank w -> c ∈ [93; 125; 44] -> stops (w ++ c :: l).
Proof. intros Hw Hc. apply stops_blank; [done|]. cbn. destruct (num_char c) eqn:En; [|done]. apply num_not in En. set_solver. Qed.
(** One item, or binding, and what its delimiter decides. *)
Lemma item_read f out w1 v t w2 c z : blank w1 -> blank w2 -> text v t -> c ∈ [44; 93] -> value len f (t ++ w2 ++ c :: z) = Ok (v, w2 ++ c :: z) ->
  elements len (S f) out (w1 ++ t ++ w2 ++ c :: z) = if c =? 44 then elements len f (out ++ [v]) z else Ok (Arr (out ++ [v]), z).
Proof.
  intros Hw1 Hw2 Ht Hc Hv. cbn [elements]. rewrite (ws_text w1 v t), Hv by done. cbn [mbind outcome_bind]. rewrite peek_blank by (done || set_solver).
  cbn [peek mbind outcome_bind drop]. rewrite drop_0. destruct (Z.eqb_spec c 44); [done|]. assert (c = 93) as -> by set_solver. done.
Qed.
Lemma binding_read f o k kt w1 w2 w3 v t w4 c z : blank w1 -> blank w2 -> blank w3 -> blank w4 -> chars k kt -> text v t -> c ∈ [44; 125] ->
  value len f (t ++ w4 ++ c :: z) = Ok (v, w4 ++ c :: z) ->
  members len (S f) o (w1 ++ 34 :: kt ++ 34 :: w2 ++ 58 :: w3 ++ t ++ w4 ++ c :: z) =
  if c =? 44 then members len f (<[k := v]> o) z else Ok (Obj (<[k := v]> o), z).
Proof.
  intros Hw1 Hw2 Hw3 Hw4 Hk Ht Hc Hv. cbn [members]. rewrite peek_blank by (done || set_solver). rewrite (string_chars k kt) by done. cbn [mbind outcome_bind].
  rewrite peek_blank by (done || set_solver). rewrite expect_same. cbn [mbind outcome_bind]. rewrite (ws_text w3 v t), Hv by done. cbn [mbind outcome_bind].
  rewrite peek_blank by (done || set_solver). cbn [peek mbind outcome_bind drop]. rewrite drop_0. destruct (Z.eqb_spec c 44); [done|]. assert (c = 125) as -> by set_solver. done.
Qed.
Lemma text_long v t : text v t -> (1 <= length t)%nat.
Proof. intros Ht. destruct (text_head v t Ht) as (c & t' & -> & _). cbn [length]. lia. Qed.
Ltac lengths H := repeat first [rewrite length_app in H | progress cbn [length] in H].
Lemma text_read :
  (forall v t, text v t -> forall f r, (2 * length t <= f + 1)%nat -> stops r -> value len f (t ++ r) = Ok (v, r)) /\
  (forall l t, items l t -> forall f out r, (2 * length t <= f)%nat -> elements len f out (t ++ 93 :: r) = Ok (Arr (out ++ l), r)) /\
  (forall ps t, bindings ps t -> forall f o r, (2 * length t <= f)%nat -> members len f o (t ++ 125 :: r) = Ok (Obj (bind_all ps o), r)).
Proof.
  apply text_items_bindings.
  - intros [|f] r Hf _; [change (length (lit "null")) with 4%nat in Hf; lia|]. apply (literal_same (lit "null")).
  - intros [|f] r Hf _; [change (length (lit "true")) with 4%nat in Hf; lia|]. apply (literal_same (lit "true")).
  - intros [|f] r Hf _; [change (length (lit "false")) with 5%nat in Hf; lia|]. apply (literal_same (lit "false")).
  - intros s x Hs Hx [|f] r Hf Hr; [|by apply value_number]. destruct s as [|c s]; [done|]. cbn [length] in Hf. lia.
  - intros s t Hs [|f] r Hf _; [cbn [length] in Hf; lia|]. cbn [app value peek mbind outcome_bind]. change (34 =? 123) with false. change (34 =? 91) with false.
    change (34 =? 34) with true. cbn iota. rewrite <- app_assoc. cbn [app]. by rewrite (string_chars s) by done.
  - intros w Hw [|f] r Hf _; [cbn [length] in Hf; lia|]. cbn [app value peek mbind outcome_bind]. change (91 =? 123) with false. change (91 =? 91) with true. cbn iota.
    rewrite expect_same. cbn [mbind outcome_bind]. rewrite <- app_assoc. cbn [app]. rewrite peek_blank by (done || set_solver). done.
  - intros l t Hi IH [|f] r Hf _; [cbn [length] in Hf; lia|]. cbn [app value peek mbind outcome_bind]. change (91 =? 123) with false. change (91 =? 91) with true. cbn iota.
    rewrite expect_same. cbn [mbind outcome_bind]. rewrite <- app_assoc. cbn [app]. rewrite elements_ws.
    destruct (items_head l t Hi (93 :: r)) as (c & y & -> & Hc). cbn [peek mbind outcome_bind]. rewrite (proj2 (Z.eqb_neq c 93)) by done.
    apply (IH f []). cbn [length] in Hf. rewrite length_app in Hf. cbn [length] in Hf. lia.
  - intros w Hw [|f] r Hf _; [cbn [length] in Hf; lia|]. cbn [app value peek mbind outcome_bind]. change (123 =? 123) with true. cbn iota.
    rewrite expect_same. cbn [mbind outcome_bind]. rewrite <- app_assoc. cbn [app]. rewrite peek_blank by (done || set_solver). done.
  - intros ps t Hb IH [|f] r Hf _; [cbn [length] in Hf; lia|]. cbn [app value peek mbind outcome_bind]. change (123 =? 123) with true. cbn iota.
    rewrite expect_same. cbn [mbind outcome_bind]. rewrite <- app_assoc. cbn [app]. rewrite members_ws.
    destruct (bindings_head ps t Hb (125 :: r)) as (y & ->). cbn [peek mbind outcome_bind]. change (34 =? 125) with false. cbn iota.
    apply (IH f ∅). cbn [length] in Hf. rewrite length_app in Hf. cbn [length] in Hf. lia.
  - intros v w1 t w2 Hw1 Hw2 Ht IH f out r Hf. pose proof (text_long v t Ht) as Hl. lengths Hf. destruct f as [|f]; [lia|].
    rewrite <- !app_assoc. rewrite (item_read f out w1 v t w2 93 r); [done|done|done|done|set_solver|]. apply IH; [lia|]. apply stops_sep; [done|set_solver].
  - intros v w1 t w2 l t' Hw1 Hw2 Ht IH _ IHl f out r Hf. lengths Hf. destruct f as [|f]; [lia|].
    rewrite <- !app_assoc. cbn [app]. rewrite (item_read f out w1 v t w2 44); [|done|done|done|set_solver|]. 2: { apply IH; [lia|]. apply stops_sep; [done|set_solver]. }
    change (44 =? 44) with true. cbn iota. rewrite IHl by lia. by rewrite <- app_assoc.
  - intros k kt w1 w2 w3 v t w4 Hw1 Hw2 Hw3 Hw4 Hk Ht IH f o r Hf. lengths Hf. destruct f as [|f]; [lia|].
    repeat (rewrite <- app_assoc; cbn [app]). rewrite (binding_read f o k kt w1 w2 w3 v t w4 125 r); [done|done|done|done|done|done|done|set_solver|].
    apply IH; [lia|]. apply stops_sep; [done|set_solver].
  - intros k kt w1 w2 w3 v t w4 ps t' Hw1 Hw2 Hw3 Hw4 Hk Ht IH _ IHl f o r Hf. lengths Hf. destruct f as [|f]; [lia|].
    repeat (rewrite <- app_assoc; cbn [app]). rewrite (binding_read f o k kt w1 w2 w3 v t w4 44); [|done|done|done|done|done|done|set_solver|].
    2: { apply IH; [lia|]. apply stops_sep; [done|set_solver]. }
    change (44 =? 44) with true. cbn iota. by rewrite IHl by lia.
Qed.

(** *** What is read is a text of the grammar *)

Lemma items_blank w l t : blank w -> items l t -> items l (w ++ t).
Proof.
  intros Hw Hi. destruct Hi as [v w1 t w2 Hw1 Hw2 Ht|v w1 t w2 l t' Hw1 Hw2 Ht Hl]; rewrite app_assoc; constructor; try done; by apply Forall_app.
Qed.
Lemma bindings_blank w l t : blank w -> bindings l t -> bindings l (w ++ t).
Proof.
  intros Hw Hb. destruct Hb; rewrite app_assoc; constructor; try done; by apply Forall_app.
Qed.
Lemma literal_Ok w v l x r : literal len w v l = Ok (x, r) -> x = v /\ l = w ++ r.
Proof. unfold literal. destruct (strip_prefix w l) eqn:E; [|done]. intros [= <- <-]. by apply strip_prefix_Some in E. Qed.
Lemma number_Ok l v r : number len l = Ok (v, r) -> exists t, l = t ++ r /\ text v t.
Proof.
  unfold number. destruct (span num_char l) as [s l'] eqn:Es. apply span_spec in Es as (-> & Hs & _). destruct s as [|c s]; [done|].
  destruct (parse_f64 (c :: s)) as [x|] eqn:Ex; [|done]. intros [= <- <-]. exists (c :: s). split; [done|by constructor].
Qed.
Lemma read_text f :
  (forall l v r, value len f l = Ok (v, r) -> exists t, l = t ++ r /\ text v t) /\
  (forall out l v r, elements len f out l = Ok (v, r) -> exists vs t, v = Arr (out ++ vs) /\ l = t ++ 93 :: r /\ items vs t) /\
  (forall o l v r, members len f o l = Ok (v, r) -> exists ps t, v = Obj (bind_all ps o) /\ l = t ++ 125 :: r /\ bindings ps t).
Proof.
  induction f as [|f (IHv & IHe & IHm)]; [done|]. split; [|split].
  - intros l v r Hr. cbn [value] in Hr. destruct l as [|c l]; [done|]. cbn [peek mbind outcome_bind] in Hr.
    destruct (Z.eqb_spec c 123) as [->|H1]; [|destruct (Z.eqb_spec c 91) as [->|H2]; [|destruct (Z.eqb_spec c 34) as [->|H3]; [|destruct (c =? 116); [|destruct (c =? 102); [|destruct (c =? 110)]]]]].
    + rewrite expect_same in Hr. cbn [mbind outcome_bind] in Hr. destruct (ws_spec l) as (w & Hw & Hl & _). destruct (ws l) as [|c y] eqn:Ey; [done|]. cbn [peek mbind outcome_bind] in Hr.
      destruct (Z.eqb_spec c 125) as [->|Hc].
      * cbn [drop] in Hr. rewrite drop_0 in Hr. injection Hr as <- <-. exists (123 :: w ++ [125]). split; [rewrite Hl; cbn; by rewrite <- app_assoc|by constructor].
      * apply IHm in Hr as (ps & t & -> & Ht & Hb). exists (123 :: (w ++ t) ++ [125]). split; [rewrite Hl, Ht; cbn; by rewrite <- !app_assoc|]. constructor. by apply bindings_blank.
    + rewrite expect_same in Hr. cbn [mbind outcome_bind] in Hr. destruct (ws_spec l) as (w & Hw & Hl & _). destruct (ws l) as [|c y] eqn:Ey; [done|]. cbn [peek mbind outcome_bind] in Hr.
      destruct (Z.eqb_spec c 93) as [->|Hc].
      * cbn [drop] in Hr. rewrite drop_0 in Hr. injection Hr as <- <-. exists (91 :: w ++ [93]). split; [rewrite Hl; cbn; by rewrite <- app_assoc|by constructor].
      * apply IHe in Hr as (vs & t & -> & Ht & Hi). exists (91 :: (w ++ t) ++ [93]). split; [rewrite Hl, Ht; cbn; by rewrite <- !app_assoc|]. constructor. by apply items_blank.
    + apply bind_Ok in Hr as ([s l'] & Hs & [= <- <-]). apply string_Ok in Hs as (t & Ht & Hs). exists (34 :: t ++ [34]). split; [rewrite Ht; cbn; by rewrite <- app_assoc|by constructor].
    + apply literal_Ok in Hr as [-> Hr]. eexists. split; [exact Hr|constructor].
    + apply literal_Ok in Hr as [-> Hr]. eexists. split; [exact Hr|constructor].
    + apply literal_Ok in Hr as [-> Hr]. eexists. split; [exact Hr|constructor].
    + by apply number_Ok in Hr.
  - intros out l v r Hr. cbn [elements] in Hr. destruct (ws_spec l) as (w1 & Hw1 & Hl & _). apply bind_Ok in Hr as ([x l1] & Hx & Hr). apply IHv in Hx as (t & Hx & Ht).
    destruct (ws_spec l1) as (w2 & Hw2 & Hl1 & _). destruct (ws l1) as [|c y] eqn:Ey; [done|]. cbn [peek mbind outcome_bind drop] in Hr. rewrite !drop_0 in Hr.
    destruct (Z.eqb_spec c 44) as [->|H44]; [|destruct (Z.eqb_spec c 93) as [->|H93]; [|done]].
    + apply IHe in Hr as (vs & t' & -> & -> & Hi). exists (x :: vs), (w1 ++ t ++ w2 ++ 44 :: t'). split; [by rewrite <- app_assoc|]. split; [|by constructor].
      rewrite Hl, Hx, Hl1. repeat (rewrite <- app_assoc; cbn [app]); done.
    + injection Hr as <- <-. exists [x], (w1 ++ t ++ w2). split; [done|]. split; [|by constructor]. rewrite Hl, Hx, Hl1. by rewrite <- !app_assoc.
  - intros o l v r Hr. cbn [members] in Hr. destruct (ws_spec l) as (w1 & Hw1 & Hl & _). apply bind_Ok in Hr as ([k l1] & Hk & Hr). apply string_Ok in Hk as (kt & Hk & Hkt).
    destruct (ws_spec l1) as (w2 & Hw2 & Hl1 & _). apply bind_Ok in Hr as ([[] l2] & He & Hr). apply expect_Ok in He. destruct (ws_spec l2) as (w3 & Hw3 & Hl2 & _).
    apply bind_Ok in Hr as ([x l3] & Hx & Hr). apply IHv in Hx as (t & Hx & Ht). destruct (ws_spec l3) as (w4 & Hw4 & Hl3 & _). destruct (ws l3) as [|c y] eqn:Ey; [done|].
    cbn [peek mbind outcome_bind drop] in Hr. rewrite !drop_0 in Hr.
    assert (Hall : l = w1 ++ 34 :: kt ++ 34 :: w2 ++ 58 :: w3 ++ t ++ w4 ++ c :: y) by (rewrite Hl, Hk, Hl1, He, Hl2, Hx, Hl3; done).
    destruct (Z.eqb_spec c 44) as [->|H44]; [|destruct (Z.eqb_spec c 125) as [->|H93]; [|done]].
    + apply IHm in Hr as (ps & t' & -> & -> & Hb). exists ((k, x) :: ps). eexists. split; [done|]. split; [|by apply (b_more k kt w1 w2 w3 x t w4 ps t')].
      rewrite Hall. repeat (rewrite <- app_assoc; cbn [app]); done.
    + injection Hr as <- <-. exists [(k, x)]. eexists. split; [done|]. split; [|by apply (b_last k kt w1 w2 w3 x t w4)].
      rewrite Hall. repeat (rewrite <- app_assoc; cbn [app]); done.
Qed.

(** *** The fuel is enough *)

Lemma value_shorter f l v r : value len f l = Ok (v, r) -> (length r < length l)%nat.
Proof. intros Hr. apply (proj1 (read_text f)) in Hr as (t & -> & Ht). apply text_long in Ht. rewrite length_app. lia. Qed.
Lemma string_shorter l s r : string len l = Ok (s, r) -> (length r < length l)%nat.
Proof. intros Hs. apply string_Ok in Hs as (t & -> & _). cbn [length]. rewrite length_app. cbn [length]. lia. Qed.
Lemma expect_shorter c l x r : expect len c l = Ok (x, r) -> (length r < length l)%nat.
Proof. intros He. apply expect_Ok in He as ->. cbn [length]. lia. Qed.
Lemma sound_literal w v l : sound (literal len w v l).
Proof. unfold literal. by destruct (strip_prefix w l). Qed.
Lemma sound_number l : sound (number len l).
Proof. unfold number. destruct (span num_char l) as [[|c s] l']; [done|]. by destruct (parse_f64 (c :: s)). Qed.
Lemma sound_value f :
  (forall l, (2 * length l + 1 <= f)%nat -> sound (value len f l)) /\
  (forall out l, (2 * length l + 2 <= f)%nat -> sound (elements len f out l)) /\
  (forall o l, (2 * length l + 2 <= f)%nat -> sound (members len f o l)).
Proof.
  induction f as [|f (IHv & IHe & IHm)]; [split; [|split]; intros; lia|]. split; [|split].
  - intros l Hf. cbn [value]. destruct l as [|c l]; [done|]. cbn [length] in Hf. cbn [peek mbind outcome_bind]. pose proof (ws_length l).
    destruct (Z.eqb_spec c 123) as [->|H1]; [|destruct (Z.eqb_spec c 91) as [->|H2]; [|destruct (c =? 34); [|destruct (c =? 116); [|destruct (c =? 102); [|destruct (c =? 110)]]]]].
    + rewrite expect_same. cbn [mbind outcome_bind]. apply sound_bind; [apply sound_peek|]. intros c _. destruct (c =? 125); [done|]. apply IHm. lia.
    + rewrite expect_same. cbn [mbind outcome_bind]. apply sound_bind; [apply sound_peek|]. intros c _. destruct (c =? 93); [done|]. apply IHe. lia.
    + apply sound_bind; [apply sound_string|]. by intros [s l'] _.
    + apply sound_literal.
    + apply sound_literal.
    + apply sound_literal.
    + apply sound_number.
  - intros out l Hf. cbn [elements]. pose proof (ws_length l). apply sound_bind; [apply IHv; lia|]. intros [v l1] Hv. apply value_shorter in Hv. pose proof (ws_length l1).
    destruct (ws l1) as [|c y]; [done|]. cbn [peek mbind outcome_bind drop length] in *. rewrite drop_0. destruct (c =? 44); [apply IHe; lia|]. by destruct (c =? 93).
  - intros o l Hf. cbn [members]. pose proof (ws_length l). apply sound_bind; [apply sound_string|]. intros [k l1] Hk. apply string_shorter in Hk. pose proof (ws_length l1).
    apply sound_bind; [apply sound_expect|]. intros [[] l2] He. apply expect_shorter in He. pose proof (ws_length l2).
    apply sound_bind; [apply IHv; lia|]. intros [v l3] Hv. apply value_shorter in Hv. pose proof (ws_length l3).
    destruct (ws l3) as [|c y]; [done|]. cbn [peek mbind outcome_bind drop length] in *. rewrite drop_0. destruct (c =? 44); [apply IHm; lia|]. by destruct (c =? 125).
Qed.
End Len.
Lemma parse_document b v : parse b = Ok v <-> document v b.
Proof.
  unfold parse. cbn zeta. split.
  - intros Hr. apply bind_Ok in Hr as ([x l] & Hx & Hr). apply (proj1 (read_text _ _)) in Hx as (t & Ht & Htext).
    destruct (ws_spec b) as (w1 & Hw1 & Hb & _), (ws_spec l) as (w2 & Hw2 & Hl & _). destruct (ws l) as [|c y]; [|done]. injection Hr as <-.
    exists w1, t, w2. rewrite app_nil_r in Hl. split; [by rewrite Hb, Ht, Hl at 1|done].
  - intros (w1 & t & w2 & Hb & Hw1 & Hw2 & Ht). assert (Hws : ws b = t ++ w2) by (rewrite Hb; by apply (ws_text w1 v t)). rewrite Hws.
    rewrite (proj1 (text_read _) v t Ht).
    + cbn [mbind outcome_bind]. rewrite <- (app_nil_r w2), ws_app by done. done.
    + apply (f_equal length) in Hb. rewrite !length_app in Hb. lia.
    + rewrite <- (app_nil_r w2). by apply stops_blank.
Qed.

(** C39. The parser returns exactly the values of the documents of the grammar, which
    gives a text at most one; every other text is an error of the parser, never a
    panic and never the lack of fuel. *)
Theorem json_parse_exact b :
  (forall v, parse b = Ok v <-> document v b) /\ (forall v v', document v b -> document v' b -> v = v') /\
  match parse b with Ok _ => True | Err e => e <> OutOfFuel | Panic => False end.
Proof.
  split; [intros v; apply parse_document|]. split; [intros v v' H1 H2; apply parse_document in H1, H2; congruence|].
  unfold parse. cbn zeta. pose proof (ws_length b). apply (sound_bind (value _ _ _)); [apply sound_value; lia|]. intros [v l] _. by destruct (ws l).
Qed.

(** ** Concrete texts *)
Module JsonRuns.
Definition quoted (s : str) : list Z := 34 :: s ++ [34].
Definition sample : list Z :=
  lit "{" ++ quoted (lit "a") ++ lit ": [1, -2.5, " ++ quoted (utf8 [120; 288; 121]) ++ lit ", true, null], " ++
  quoted (lit "b") ++ lit ": {" ++ quoted (lit "c") ++ lit ": " ++ quoted (lit "\ud83d\ude00") ++ lit "}}".
Example sample_parsed : (v ← (match parse sample with Ok v => Some v | _ => None end); a ← get v (lit "a"); l ← as_arr a; Some (as_u64 <$> head l, as_str <$> l !! 2%nat)) =
  Some (Some (Some 1), Some (Some [120; 288; 121])).
Proof. vm_compute. reflexivity. Qed.
Example pair_parsed : (v ← (match parse sample with Ok v => Some v | _ => None end); b ← get v (lit "b"); c ← get b (lit "c"); as_str c) = Some [128512].
Proof. vm_compute. reflexivity. Qed.
Example half_parsed : parse (lit "-2.5") = Ok (Num (S754_finite true 5629499534213120 (-51))).
Proof. vm_compute. reflexivity. Qed.
Example tenth_parsed : parse (lit "1e-1") = Ok (Num (S754_finite false 7205759403792794 (-56))).
Proof. vm_compute. reflexivity. Qed.
Example trailing : parse (lit "[1] x") = Err (TrailingBytes 4).
Proof. vm_compute. reflexivity. Qed.
Lemma json_parse_exact_witness : document (Arr [Num (S754_finite false 4503599627370496 (-52)); Str [97]; Null]) (lit "[1, " ++ quoted (lit "a") ++ lit " ,null] ") /\
  ~ (exists v, document v (lit "[1,]")).
Proof.
  split.
  - apply (proj1 (json_parse_exact _)). vm_compute. reflexivity.
  - intros [v Hv]. apply (proj1 (json_parse_exact _)) in Hv. vm_compute in Hv. discriminate Hv.
Defined.
End JsonRuns.
