(* ===== verification/HfVocab.v ===== *)
(** A tokenizer from a Hugging Face directory: [Tokenizer::from_hf_dir] of
    [memra-tokenizer/src/lib.rs].

    [tokenizer.json] is parsed by [JsonText]; the vocabulary is a [HashMap], whose
    iteration order is the parameter [iter] (some permutation of its bindings).
    [read] is [read_to_string] on the directory. *)
From Stdlib Require Import Floats.SpecFloat.
From S2P Require Import Prelude RustStr Utf8 F32 JsonText Gguf Tokenizer.
Local Open Scope Z_scope.

Inductive HfErr := CannotRead (file : str) | NotJson (e : JsonErr) | HfMsg (s : str).
Definition msg (s : Stdlib.Strings.String.string) : HfErr := HfMsg (lit "tokenizer.json: " ++ lit s).

Definition not_byte_level : HfErr :=
  HfMsg (lit "tokenizer.json: pre_tokenizer is not ByteLevel " ++ [8212] ++ lit " only byte-level BPE is supported").

Definition QWEN35_PRETOKENIZE_REGEX : str :=
  lit "(?i:'s|'t|'re|'ve|'m|'ll|'d)|[^\r\n\p{L}\p{N}]?[\p{L}\p{M}]+|\p{N}| ?[^\s\p{L}\p{M}\p{N}]+[\r\n]*|\s*[\r\n]+|\s+(?!\S)|\s+".

(** ** The vocabulary *)

Notation field v k := (JsonText.get v (lit k)).
(** [as_u64()? as u32] *)
Definition id_of (v : Value) : option Z := wrap 32 <$> JsonText.as_u64 v.
(** The recursion follows the nesting of the value, for which its text's length is
    fuel enough ([byte_level_fuel]). *)
Fixpoint pre_tokenizer_is_byte_level (fuel : nat) (pt : Value) : option bool :=
  match fuel with
  | O => None
  | S fuel =>
      match field pt "type" ≫= JsonText.as_str with
      | Some t =>
          if str_eqb t (lit "ByteLevel") then Some true
          else if str_eqb t (lit "Sequence") then
            match field pt "pretokenizers" ≫= as_arr with
            | Some arr =>
                (fix any l := match l with
                              | [] => Some false
                              | x :: l => b ← pre_tokenizer_is_byte_level fuel x; if b : bool then Some true else any l
                              end) arr
            | None => Some false
            end
          else Some false
      | None => Some false
      end
  end.
Fixpoint vocab_max (l : list (str * Value)) (m : Z) : option Z :=
  match l with [] => Some m | (_, v) :: l => id ← id_of v; vocab_max l (Z.max m id) end.
Definition added_max (added : list Value) (m : Z) : Z :=
  foldl (fun m a => match field a "id" ≫= id_of with Some id => Z.max m id | None => m end) m added.
Definition or_insert (k : str) (id : Z) (m : gmap str Z) : gmap str Z := match m !! k with Some _ => m | None => <[k := id]> m end.
(** [v[i] = x] with [i] a [u32] *)
Definition set_at {A : Type} (l : list A) (i : Z) (x : A) : option (list A) :=
  if (0 <=? i) && (i <? Z.of_nat (length l)) then Some (<[Z.to_nat i := x]> l) else None.
Fixpoint fill_vocab (l : list (str * Value)) (tokens : list str) (ids : gmap str Z) : option (list str * gmap str Z) :=
  match l with
  | [] => Some (tokens, ids)
  | (tok, v) :: l =>
      id ← id_of v;
      tokens ← set_at tokens id tok;
      fill_vocab l tokens (or_insert tok id ids)
  end.
Fixpoint add_added (added : list Value) (tokens : list str) (ids : gmap str Z) (attrs : list TokAttr) : outcome HfErr (list str * gmap str Z * list TokAttr) :=
  match added with
  | [] => Ok (tokens, ids, attrs)
  | a :: added =>
      id ← ok_or (field a "id" ≫= id_of) (msg "added_tokens entry missing id");
      content ← ok_or (field a "content" ≫= JsonText.as_str) (msg "added_tokens entry missing content");
      match index tokens id with
      | None => Panic
      | Some t =>
          let attr := if default false (field a "special" ≫= as_bool) then Control else UserDefined in
          match (match t with [] => set_at tokens id content | _ => Some tokens end), set_at attrs id attr with
          | Some tokens, Some attrs => add_added added tokens (or_insert content id ids) attrs
          | _, _ => Panic
          end
      end
  end.

(** ** The merges *)

Definition at_merge (i : nat) (what : str) : HfErr :=
  HfMsg (lit "tokenizer.json: merges[" ++ show_uint (Z.of_nat i) ++ lit "] " ++ what).
Definition hf_merge (i : nat) (v : Value) : outcome HfErr (str * str) :=
  match v with
  | Str s => ok_or (split_merge s) (at_merge i (lit "has no space"))
  | Arr [a; b] =>
      f ← ok_or (JsonText.as_str a) (at_merge i (lit "non-string pair"));
      s ← ok_or (JsonText.as_str b) (at_merge i (lit "non-string pair"));
      Ok (f, s)
  | _ => Err (at_merge i (lit "is neither " ++ 34 :: lit "a b" ++ 34 :: lit " string nor [a, b] pair"))
  end.
Fixpoint hf_merges (i : nat) (l : list Value) (m : gmap (str * str) Z) : outcome HfErr (gmap (str * str) Z) :=
  match l with
  | [] => Ok m
  | v :: l => p ← hf_merge i v; hf_merges (S i) l (<[p := as_i32 i]> m)
  end.

(** ** The sidecars *)

Section Load.
Variables (iter : gmap str Value -> list (str * Value)) (read : str -> option str).

Definition parsed (t : str) : option Value := match parse (utf8 t) with Ok v => Some v | _ => None end.
Definition sidecar (file : str) : option Value := t ← read file; parsed t.
Definition tok_content (v : Value) : option str :=
  match JsonText.as_str v with Some s => Some s | None => field v "content" ≫= JsonText.as_str end.
(** The first of an array, or the number itself. *)
Definition first_id (v : Value) : option Z :=
  match v with
  | Num _ => JsonText.as_u64 v
  | Arr a => head a ≫= JsonText.as_u64
  | _ => None
  end.

Definition from_hf_dir : outcome HfErr Tokenizer :=
  text ← ok_or (read (lit "tokenizer.json")) (CannotRead (lit "tokenizer.json"));
  tj ← match parse (utf8 text) with Ok v => Ok v | Err e => Err (NotJson e) | Panic => Panic end;
  model ← ok_or (field tj "model") (msg "missing model");
  match field model "type" ≫= JsonText.as_str with
  | Some t =>
      if str_eqb t (lit "BPE") then Ok tt
      else Err (HfMsg (lit "unsupported tokenizer.json model type '" ++ t ++ lit "' (only BPE)"))
  | None => Ok tt
  end;;
  pre_tok ← ok_or (field tj "pre_tokenizer") (msg "missing pre_tokenizer");
  b ← match pre_tokenizer_is_byte_level (length (utf8 text)) pre_tok with Some b => Ok b | None => Panic end;
  (if b : bool then Ok tt else Err not_byte_level);;
  vocab ← ok_or (field model "vocab" ≫= as_obj) (msg "missing model.vocab");
  let added := default [] (field tj "added_tokens" ≫= as_arr) in
  let order := iter vocab in
  max_id ← ok_or (vocab_max order 0) (msg "non-integer id in model.vocab");
  let n := Z.to_nat (added_max added max_id + 1) in
  '(tokens, ids) ← match fill_vocab order (replicate n []) ∅ with Some r => Ok r | None => Panic end;
  '(tokens, ids, attrs) ← add_added added tokens ids (replicate n Normal);
  merges ← ok_or (field model "merges" ≫= as_arr) (msg "missing model.merges");
  bpe_ranks ← hf_merges 0 merges ∅;
  let special_tokens := special_ids tokens attrs in
  let tc := sidecar (lit "tokenizer_config.json") in
  let gc := sidecar (lit "generation_config.json") in
  let named k := c ← tc; v ← JsonText.get c (lit k); s ← tok_content v; ids !! s in
  let from_gen := wrap 32 <$> (c ← gc; v ← field c "eos_token_id"; first_id v) in
  eos_id ← ok_or (match named "eos_token"%string with Some id => Some id | None => from_gen end)
    (HfMsg (lit "no eos token: need tokenizer_config.json eos_token or generation_config.json eos_token_id"));
  let chat_template :=
    match (c ← tc; v ← field c "chat_template"; JsonText.as_str v) with
    | Some t => Some t
    | None => read (lit "chat_template.jinja")
    end in
  let pre :=
    match (c ← tc; v ← field c "pretokenize_regex"; JsonText.as_str v) with
    | Some regex => if str_eqb regex QWEN35_PRETOKENIZE_REGEX then lit "qwen35" else lit "default"
    | None => lit "default"
    end in
  Ok (mkTokenizer tokens ids attrs bpe_ranks special_tokens eos_id (named "bos_token"%string)
        (default false (c ← tc; v ← field c "add_bos_token"; as_bool v)) pre chat_template false).
End Load.
