(* ===== verification/HfVocabSpec.v ===== *)
(** What loading a Hugging Face directory promises: it never panics, whatever the
    files hold, and from a consistent vocabulary it makes a well-formed tokenizer
    that does not depend on the order in which the vocabulary's map is iterated
    ([from_hf_dir_ok]). *)
From Stdlib Require Import Floats.SpecFloat.
From S2P Require Import Prelude RustStr Utf8 F32 JsonText JsonTextSpec Gguf Tokenizer TokenizerSpec HfVocab.
Local Open Scope Z_scope.

(** ** Nesting *)

Lemma bind_all_elem ps o k v : bind_all ps o !! k = Some v -> (k, v) ∈ ps \/ o !! k = Some v.
Proof.
  revert o. induction ps as [|[k' v'] ps IH]; intros o; cbn; [by right|]. intros [H|H]%IH; [left; by right|].
  apply lookup_insert_Some in H as [[-> ->]|[_ H]]; [left; by left|by right].
Qed.
Definition decided (f : nat) (v : Value) : Prop :=
  is_Some (pre_tokenizer_is_byte_level f v) /\ forall l, v = Arr l -> Forall (fun x => is_Some (pre_tokenizer_is_byte_level f x)) l.
Lemma decided_other f v : (forall o, v <> Obj o) -> (forall l, v <> Arr l) -> decided (S f) v.
Proof. intros Ho Hl. split; [destruct v; try (by eexists); by destruct (Ho o)|]. intros l ->. by destruct (Hl l). Qed.
Definition any_level (f : nat) : list Value -> option bool :=
  fix any l := match l with [] => Some false | x :: l => b ← pre_tokenizer_is_byte_level f x; if b : bool then Some true else any l end.
Lemma any_decided f l : Forall (fun x => is_Some (pre_tokenizer_is_byte_level f x)) l -> is_Some (any_level f l).
Proof. intros Hl. induction Hl as [|x l [b Hb] _ IH]; [by eexists|]. cbn [any_level]. rewrite Hb. cbn [mbind option_bind]. destruct b; [by eexists|exact IH]. Qed.
Lemma decided_obj f o : (forall k v, o !! k = Some v -> decided f v) -> decided (S f) (Obj o).
Proof.
  intros Ho. split; [|done]. cbn [pre_tokenizer_is_byte_level]. destruct (_ ≫= JsonText.as_str) as [t|]; [|by eexists]. destruct (str_eqb t _); [by eexists|].
  destruct (str_eqb t _); [|by eexists]. destruct (_ ≫= as_arr) as [arr|] eqn:Ea; [|by eexists]. apply any_decided.
  destruct (JsonText.get (Obj o) (lit "pretokenizers")) as [v|] eqn:Eg; [|done]. cbn [mbind option_bind] in Ea. destruct v; try discriminate Ea. injection Ea as ->.
  by apply (Ho _ _ Eg).
Qed.
(** The text of a value is fuel enough for its nesting. *)
Lemma byte_level_fuel :
  (forall v t, text v t -> forall f, (length t <= f)%nat -> decided f v) /\
  (forall l t, items l t -> forall f, (length t <= f)%nat -> Forall (decided f) l) /\
  (forall ps t, bindings ps t -> forall f, (length t <= f)%nat -> Forall (fun kv => decided f kv.2) ps).
Proof.
  apply text_items_bindings.
  - intros [|f] Hf; [change (length (lit "null")) with 4%nat in Hf; lia|by apply decided_other].
  - intros [|f] Hf; [change (length (lit "true")) with 4%nat in Hf; lia|by apply decided_other].
  - intros [|f] Hf; [change (length (lit "false")) with 5%nat in Hf; lia|by apply decided_other].
  - intros s x _ Hx [|f] Hf; [|by apply decided_other]. destruct s; [done|cbn [length] in Hf; lia].
  - intros s t _ [|f] Hf; [cbn [length] in Hf; lia|by apply decided_other].
  - intros w _ [|f] Hf; [cbn [length] in Hf; lia|]. split; [by eexists|]. intros l [= <-]. constructor.
  - intros l t _ IH [|f] Hf; [cbn [length] in Hf; lia|]. split; [by eexists|]. intros l' [= <-]. cbn [length] in Hf. rewrite length_app in Hf.
    eapply Forall_impl; [apply (IH (S f)); lia|]. by intros x [Hx _].
  - intros w _ [|f] Hf; [cbn [length] in Hf; lia|]. apply decided_obj. intros k v Hk. by rewrite lookup_empty in Hk.
  - intros ps t _ IH [|f] Hf; [cbn [length] in Hf; lia|]. apply decided_obj. intros k v Hk. apply bind_all_elem in Hk as [Hk|Hk]; [|by rewrite lookup_empty in Hk].
    cbn [length] in Hf. rewrite length_app in Hf. specialize (IH f ltac:(lia)). rewrite Forall_forall in IH. by apply (IH (k, v)).
  - intros v w1 t w2 _ _ _ IH f Hf. rewrite !length_app in Hf. constructor; [apply IH; lia|constructor].
  - intros v w1 t w2 l t' _ _ _ IH _ IHl f Hf. rewrite !length_app in Hf. cbn [length] in Hf. constructor; [apply IH; lia|apply IHl; lia].
  - intros k kt w1 w2 w3 v t w4 _ _ _ _ _ _ IH f Hf. repeat first [rewrite length_app in Hf | progress cbn [length] in Hf]. constructor; [apply IH; lia|constructor].
  - intros k kt w1 w2 w3 v t w4 ps t' _ _ _ _ _ _ IH _ IHl f Hf. repeat first [rewrite length_app in Hf | progress cbn [length] in Hf].
    constructor; [apply IH; lia|apply IHl; lia].
Qed.
Lemma parse_level b v w k : parse b = Ok v -> JsonText.get v k = Some w -> is_Some (pre_tokenizer_is_byte_level (length b) w).
Proof.
  intros Hp Hk. apply parse_document in Hp as (w1 & t & w2 & Hb & _ & _ & Ht). assert (Hl : (length t <= length b)%nat) by (rewrite Hb, !length_app; lia).
  destruct Ht as [| | | | | | | |ps t Hps]; try discriminate Hk. cbn in Hk.
  apply bind_all_elem in Hk as [Hk|Hk]; [|by rewrite lookup_empty in Hk]. cbn [length] in Hl. rewrite length_app in Hl.
  pose proof (proj2 (proj2 byte_level_fuel) ps t Hps (length b) ltac:(lia)) as Hf. rewrite Forall_forall in Hf. by destruct (Hf _ Hk).
Qed.

(** ** Filling the vocabulary *)

Lemma set_at_Some {A : Type} (l : list A) i x : 0 <= i < Z.of_nat (length l) -> set_at l i x = Some (<[Z.to_nat i := x]> l).
Proof. intros Hi. unfold set_at. by rewrite (proj2 (Z.leb_le _ _)), (proj2 (Z.ltb_lt _ _)) by lia. Qed.
Lemma id_of_range v id : id_of v = Some id -> 0 <= id < 2 ^ 32.
Proof. unfold id_of. destruct (JsonText.as_u64 v); [|done]. intros [= <-]. by apply Z.mod_pos_bound. Qed.

(** The pieces of a parsed file, with their ids: the vocabulary, then the added tokens. *)
Definition vocab_entries (l : list (str * Value)) : list (str * Z) := omap (fun kv => pair kv.1 <$> id_of kv.2) l.
Definition added_entry (a : Value) : option (str * Z) :=
  id ← field a "id" ≫= id_of; content ← field a "content" ≫= JsonText.as_str; Some (content, id).
Definition added_of (tj : Value) : list Value := default [] (field tj "added_tokens" ≫= as_arr).
Definition vocab_of (tj : Value) : gmap str Value := default ∅ (model ← field tj "model"; field model "vocab" ≫= as_obj).
Definition entries (tj : Value) : list (str * Z) := vocab_entries (map_to_list (vocab_of tj)) ++ omap added_entry (added_of tj).
(** One piece per id, one id per piece, no id left out and no empty piece. *)
Record vocabulary (es : list (str * Z)) (n : nat) : Prop := {
  v_piece s1 s2 id : (s1, id) ∈ es -> (s2, id) ∈ es -> s1 = s2;
  v_id s id1 id2 : (s, id1) ∈ es -> (s, id2) ∈ es -> id1 = id2;
  v_dense id : 0 <= id < Z.of_nat n -> exists s, (s, id) ∈ es;
  v_nonempty id : ([], id) ∉ es;
}.

(** The vectors and the map once the entries [done] are in, of all the entries [es]. *)
Section Filling.
Variables (es : list (str * Z)) (n : nat).
Context (Hes : vocabulary es n).
Record filled (dn : list (str * Z)) (tokens : list str) (ids : gmap str Z) : Prop := {
  f_length : length tokens = n;
  f_dn : dn ⊆ es;
  f_piece (i : nat) (s : str) : tokens !! i = Some s -> s <> [] -> (s, Z.of_nat i) ∈ es;
  f_done s id : (s, id) ∈ dn -> 0 <= id -> tokens !! Z.to_nat id = Some s;
  f_ids s id : ids !! s = Some id <-> (s, id) ∈ dn;
}.
Lemma filled_start : filled [] (replicate n []) ∅.
Proof.
  split; [apply length_replicate|set_solver| |set_solver|].
  - intros i s [-> _]%lookup_replicate. done.
  - intros s id. rewrite lookup_empty. set_solver.
Qed.
Lemma filled_step dn (tokens : list str) ids (s : str) id (tokens' : list str) : filled dn tokens ids -> (s, id) ∈ es -> 0 <= id ->
  (forall (i : nat) (t : str), tokens' !! i = Some t -> i <> Z.to_nat id -> tokens !! i = Some t) -> (forall (i : nat) (t : str), tokens !! i = Some t -> i <> Z.to_nat id -> tokens' !! i = Some t) ->
  length tokens' = n -> tokens' !! Z.to_nat id = Some s -> filled (dn ++ [(s, id)]) tokens' (or_insert s id ids).
Proof.
  intros [Hl Hd Hp Hdn Hi] Hin H0 Hold Hnew Hl' Hs. split; [done|set_solver| | |].
  - intros i t Ht Hne. destruct (decide (i = Z.to_nat id)) as [->|Hi']; [|by eapply Hp; [eapply Hold|]].
    rewrite Hs in Ht. injection Ht as <-. by rewrite Z2Nat.id.
  - intros t id' Ht H0'. apply elem_of_app in Ht as [Ht|Ht]; [|apply list_elem_of_singleton in Ht as [= -> ->]; done].
    destruct (decide (Z.to_nat id' = Z.to_nat id)) as [He|Hi']; [|by apply Hnew; [apply Hdn|]].
    assert (id' = id) as -> by lia. assert (t = s) as -> by (eapply (v_piece _ _ Hes); [by apply Hd|done]). done.
  - intros t id'. unfold or_insert. rewrite elem_of_app, list_elem_of_singleton. destruct (ids !! s) as [id0|] eqn:E.
    + apply Hi in E as E'. assert (id0 = id) as -> by (eapply (v_id _ _ Hes); [by apply Hd|done]). rewrite Hi. naive_solver.
    + destruct (decide (t = s)) as [->|Hne].
      * rewrite lookup_insert_eq. split; [intros [= <-]; by right|]. intros [Ht|[= ->]]; [|done]. apply Hi in Ht. by rewrite E in Ht.
      * rewrite lookup_insert_ne by done. rewrite Hi. naive_solver.
Qed.
Lemma fill_vocab_filled l dn tokens ids tokens' ids' : filled dn tokens ids -> vocab_entries l ⊆ es -> fill_vocab l tokens ids = Some (tokens', ids') ->
  filled (dn ++ vocab_entries l) tokens' ids'.
Proof.
  revert dn tokens ids. induction l as [|[s v] l IH]; intros dn tokens ids Hf Hsub Hr; cbn in Hr; [injection Hr as <- <-; by rewrite app_nil_r|].
  destruct (id_of v) as [id|] eqn:Ei; [|done]. cbn [mbind option_bind] in Hr. destruct (set_at tokens id s) as [t1|] eqn:Et; [|done]. cbn [mbind option_bind] in Hr.
  assert (He : vocab_entries ((s, v) :: l) = (s, id) :: vocab_entries l) by (cbn; by rewrite Ei). rewrite He in *.
  unfold set_at in Et. destruct ((0 <=? id) && (id <? Z.of_nat (length tokens))) eqn:Eb; [|done]. injection Et as <-. apply andb_true_iff in Eb as [Eb1 Eb2].
  replace (dn ++ (s, id) :: vocab_entries l) with ((dn ++ [(s, id)]) ++ vocab_entries l) by (by rewrite <- app_assoc).
  eapply IH; [|set_solver|exact Hr]. eapply filled_step; [exact Hf|set_solver|lia| | | |].
  - intros i t Ht Hi. by rewrite list_lookup_insert_ne in Ht.
  - intros i t Ht Hi. by rewrite list_lookup_insert_ne.
  - rewrite length_insert. apply Hf.
  - apply list_lookup_insert_eq. lia.
Qed.
Lemma add_added_filled l dn tokens ids attrs tokens' ids' attrs' : filled dn tokens ids -> omap added_entry l ⊆ es -> length attrs = n ->
  add_added l tokens ids attrs = Ok (tokens', ids', attrs') -> filled (dn ++ omap added_entry l) tokens' ids' /\ length attrs' = n.
Proof.
  revert dn tokens ids attrs. induction l as [|a l IH]; intros dn tokens ids attrs Hf Hsub Ha Hr; cbn [add_added] in Hr; [injection Hr as <- <- <-; by rewrite app_nil_r|].
  apply bind_Ok in Hr as (id & Hid & Hr). apply bind_Ok in Hr as (content & Hc & Hr). unfold ok_or in Hid, Hc.
  destruct (field a "id" ≫= id_of) as [id'|] eqn:Ei; [|done]. injection Hid as ->. destruct (field a "content" ≫= JsonText.as_str) as [c'|] eqn:Ec; [|done]. injection Hc as ->.
  assert (He : omap added_entry (a :: l) = (content, id) :: omap added_entry l) by (cbn; unfold added_entry at 1; by rewrite Ei, Ec). rewrite He in *.
  assert (H0 : 0 <= id). { destruct (field a "id") as [v|]; [|done]. by apply id_of_range in Ei as [? _]. }
  destruct (index tokens id) as [t|] eqn:Et; [|done]. apply index_lookup in Et as [_ Et].
  destruct (match t with [] => set_at tokens id content | _ => Some tokens end) as [t1|] eqn:E1; [|done]. destruct (set_at attrs id _) as [at1|] eqn:E2; [|done].
  assert (Hat : length at1 = n) by (unfold set_at in E2; destruct (_ && _); [injection E2 as <-; by rewrite length_insert|done]).
  replace (dn ++ (content, id) :: omap added_entry l) with ((dn ++ [(content, id)]) ++ omap added_entry l) by (by rewrite <- app_assoc).
  eapply IH; [|set_solver|exact Hat|exact Hr]. pose proof (lookup_lt_Some _ _ _ Et) as Hlt. eapply filled_step; [exact Hf|set_solver|done| | | |].
  - intros i x Hx Hi. destruct t; [|by injection E1 as <-]. rewrite set_at_Some in E1 by lia. injection E1 as <-. by rewrite list_lookup_insert_ne in Hx.
  - intros i x Hx Hi. destruct t; [|by injection E1 as <-]. rewrite set_at_Some in E1 by lia. injection E1 as <-. by rewrite list_lookup_insert_ne.
  - destruct t; [|injection E1 as <-; apply Hf]. rewrite set_at_Some in E1 by lia. injection E1 as <-. rewrite length_insert. apply Hf.
  - destruct t as [|x t]; [rewrite set_at_Some in E1 by lia; injection E1 as <-; apply list_lookup_insert_eq; lia|]. injection E1 as <-.
    assert (Hx : (x :: t, id) ∈ es) by (rewrite <- (Z2Nat.id id) by done; by eapply (f_piece _ _ _ Hf)).
    by rewrite (v_piece _ _ Hes (x :: t) content id) in Et by set_solver.
Qed.
End Filling.

(** ** No panic *)

Lemma vocab_max_spec l m M : vocab_max l m = Some M -> m <= M /\ Forall (fun kv => exists id, id_of kv.2 = Some id /\ id <= M) l.
Proof.
  revert m. induction l as [|[s v] l IH]; intros m; cbn; [intros [= <-]; split; [lia|constructor]|]. destruct (id_of v) as [id|] eqn:E; [|done]. cbn [mbind option_bind].
  intros [Hm Hl]%IH. split; [lia|]. constructor; [|done]. exists id. split; [done|lia].
Qed.
Lemma added_max_spec added m : m <= added_max added m /\ Forall (fun a => forall id, field a "id" ≫= id_of = Some id -> id <= added_max added m) added.
Proof.
  revert m. induction added as [|a added IH]; intros m; [split; [done|constructor]|]. pose (m' := match field a "id" ≫= id_of with Some id => Z.max m id | None => m end).
  change (added_max (a :: added) m) with (added_max added m'). destruct (IH m') as [Hm Hl].
  assert (Hm' : m <= m') by (unfold m'; destruct (field a "id" ≫= id_of); lia). split; [lia|]. constructor; [|done].
  intros id Hid. assert (id <= m') by (unfold m'; rewrite Hid; lia). lia.
Qed.
Lemma fill_vocab_total l tokens ids M : Forall (fun kv => exists id, id_of kv.2 = Some id /\ id <= M) l -> M < Z.of_nat (length tokens) ->
  exists tokens' ids', fill_vocab l tokens ids = Some (tokens', ids') /\ length tokens' = length tokens.
Proof.
  intros Hl. revert tokens ids. induction Hl as [|[s v] l (id & Hid & Hle) _ IH]; intros tokens ids Hm; [by eexists _, _|]. cbn [fill_vocab]. cbn [snd] in Hid. rewrite Hid. cbn [mbind option_bind].
  apply id_of_range in Hid as [H0 _]. rewrite set_at_Some by (split; [done|eapply Z.le_lt_trans; [exact Hle|exact Hm]]). cbn [mbind option_bind].
  destruct (IH (<[Z.to_nat id := s]> tokens) (or_insert s id ids)) as (t' & i' & Hf & Hlen); [by rewrite length_insert|]. exists t', i'. split; [done|by rewrite Hlen, length_insert].
Qed.
Lemma ok_or_safe {A} (o : option A) (e : HfErr) : ok_or o e <> Panic.
Proof. by destruct o. Qed.
Lemma safe_bind {A B} (m : outcome HfErr A) (k : A -> outcome HfErr B) : m <> Panic -> (forall a, m = Ok a -> k a <> Panic) -> (a ← m; k a) <> Panic.
Proof. intros Hm Hk. destruct m as [a|e|]; cbn [mbind outcome_bind]; [by apply Hk|done|done]. Qed.
Lemma add_added_safe l tokens ids attrs M : Forall (fun a => forall id, field a "id" ≫= id_of = Some id -> id <= M) l -> M < Z.of_nat (length tokens) ->
  length attrs = length tokens -> add_added l tokens ids attrs <> Panic.
Proof.
  intros Hl. revert tokens ids attrs. induction Hl as [|a l Ha _ IH]; intros tokens ids attrs Hm Hat; [done|]. cbn [add_added].
  apply safe_bind; [apply ok_or_safe|]. intros id Hid. apply safe_bind; [apply ok_or_safe|]. intros content _. unfold ok_or in Hid.
  destruct (field a "id" ≫= id_of) as [id'|] eqn:Ei; [|done]. injection Hid as ->. specialize (Ha id eq_refl).
  assert (H0 : 0 <= id). { destruct (field a "id") as [v|]; [|done]. by apply id_of_range in Ei as [? _]. }
  destruct (index tokens id) as [t|] eqn:Et.
  - rewrite !set_at_Some by lia. destruct t; (apply IH; rewrite ?length_insert; done).
  - unfold index in Et. rewrite (proj2 (Z.ltb_ge id 0)) in Et by lia. apply lookup_ge_None in Et. lia.
Qed.
Lemma hf_merge_safe i v : hf_merge i v <> Panic.
Proof.
  destruct v as [| | |s|[|a [|b [|]]]|]; try done; cbn [hf_merge]; [apply ok_or_safe|]. apply safe_bind; [apply ok_or_safe|]. intros f _. by apply safe_bind; [apply ok_or_safe|].
Qed.
Lemma hf_merges_safe i l m : hf_merges i l m <> Panic.
Proof. revert i m. induction l as [|v l IH]; intros i m; [done|]. cbn [hf_merges]. apply safe_bind; [apply hf_merge_safe|]. intros p _. apply IH. Qed.
Lemma hf_merges_range i l m m' : (forall p r, m !! p = Some r -> - 2 ^ 31 <= r < 2 ^ 31) -> hf_merges i l m = Ok m' ->
  forall p r, m' !! p = Some r -> - 2 ^ 31 <= r < 2 ^ 31.
Proof.
  revert i m. induction l as [|v l IH]; intros i m Hm Hr; cbn [hf_merges] in Hr; [by injection Hr as <-|]. apply bind_Ok in Hr as (p & _ & Hr). eapply IH; [|exact Hr].
  intros q r [[_ <-]|[_ H]]%lookup_insert_Some; [apply as_i32_range|by eapply Hm].
Qed.
Lemma parse_safe b : parse b <> Panic.
Proof.
  assert (Hs : sound (parse b)).
  { unfold parse. cbn zeta. pose proof (ws_length b). apply (sound_bind (JsonText.value _ _ _)); [apply sound_value; lia|]. intros [v l] _. by destruct (ws l). }
  by destruct (parse b).
Qed.

Section Loading.
Variables (iter : gmap str Value -> list (str * Value)) (read : str -> option str).

Lemma from_hf_dir_safe : from_hf_dir iter read <> Panic.
Proof.
  unfold from_hf_dir. apply safe_bind; [apply ok_or_safe|]. intros text _. apply safe_bind; [pose proof (parse_safe (utf8 text)); by destruct (parse (utf8 text))|].
  intros tj Htj. assert (Hp : parse (utf8 text) = Ok tj) by (by destruct (parse (utf8 text)); [injection Htj as ->| |]). clear Htj.
  apply safe_bind; [apply ok_or_safe|]. intros model _. apply safe_bind; [destruct (_ ≫= _); [by destruct (str_eqb _ _)|done]|]. intros [] _.
  apply safe_bind; [apply ok_or_safe|]. intros pt Hpt. unfold ok_or in Hpt. destruct (field tj "pre_tokenizer") as [pt'|] eqn:Ept; [|done]. injection Hpt as ->.
  destruct (parse_level _ _ _ _ Hp Ept) as [b Hb]. rewrite Hb. cbn [mbind outcome_bind]. apply safe_bind; [by destruct b|]. intros [] _.
  apply safe_bind; [apply ok_or_safe|]. intros vocab _. cbn zeta. apply safe_bind; [apply ok_or_safe|]. intros M HM. unfold ok_or in HM.
  destruct (vocab_max (iter vocab) 0) as [M'|] eqn:EM; [|done]. injection HM as ->. apply vocab_max_spec in EM as [H0 Hv].
  destruct (added_max_spec (default [] (field tj "added_tokens" ≫= as_arr)) M) as [Hle Ha]. set (A := added_max _ M) in *.
  destruct (fill_vocab_total (iter vocab) (replicate (Z.to_nat (A + 1)) []) ∅ M Hv) as (tokens & ids & Hf & Hl); [rewrite length_replicate; lia|]. rewrite Hf. cbn [mbind outcome_bind].
  rewrite length_replicate in Hl. apply safe_bind.
  - eapply (add_added_safe _ _ _ _ A); [done|lia|by rewrite length_replicate].
  - intros [[tokens' ids'] attrs] _. apply safe_bind; [apply ok_or_safe|]. intros merges _. apply safe_bind; [apply hf_merges_safe|]. intros ranks _.
    by apply safe_bind; [apply ok_or_safe|].
Qed.
(** Where each field comes from. *)
Lemma from_hf_dir_fields tk : from_hf_dir iter read = Ok tk ->
  exists text tj tokens ids merges n,
    read (lit "tokenizer.json") = Some text /\ parse (utf8 text) = Ok tj /\
    fill_vocab (iter (vocab_of tj)) (replicate n []) ∅ = Some (tokens, ids) /\
    add_added (added_of tj) tokens ids (replicate n Normal) = Ok (id_to_token tk, token_to_id tk, attrs tk) /\
    special_tokens tk = special_ids (id_to_token tk) (attrs tk) /\ hf_merges 0 merges ∅ = Ok (bpe_ranks tk).
Proof.
  unfold from_hf_dir. intros H. apply bind_Ok in H as (text & Ht & H). apply bind_Ok in H as (tj & Htj & H).
  apply bind_Ok in H as (model & Hmodel & H). apply bind_Ok in H as ([] & _ & H). apply bind_Ok in H as (pt & _ & H). apply bind_Ok in H as (b & _ & H). apply bind_Ok in H as ([] & _ & H).
  apply bind_Ok in H as (vocab & Hvocab & H). cbn zeta in H. apply bind_Ok in H as (M & _ & H). apply bind_Ok in H as ([tokens ids] & Hf & H).
  apply bind_Ok in H as ([[tokens' ids'] attrs] & Ha & H). apply bind_Ok in H as (merges & _ & H). apply bind_Ok in H as (ranks & Hr & H). apply bind_Ok in H as (eos & _ & H). injection H as <-.
  unfold ok_or in Ht, Hmodel, Hvocab. destruct (read _) as [text'|] eqn:Er; [|done]. injection Ht as ->. destruct (field tj "model") as [model'|] eqn:Em; [|done]. injection Hmodel as ->.
  destruct (field model "vocab" ≫= as_obj) as [vocab'|] eqn:Ev; [|done]. injection Hvocab as ->.
  eexists text, tj, tokens, ids, merges, _. split; [done|]. split; [by destruct (parse (utf8 text)); [injection Htj as ->| |]|].
  assert (Hvoc : vocab_of tj = vocab) by (unfold vocab_of; rewrite Em; cbn [mbind option_bind]; by rewrite Ev). rewrite Hvoc.
  cbn [id_to_token token_to_id Tokenizer.attrs special_tokens bpe_ranks]. split; [|split; [exact Ha|done]].
  by destruct (fill_vocab _ _ _) as [r|]; [injection Hf as ->|].
Qed.
End Loading.

(** ** The property *)

Lemma filled_tokenizer es tk ids : vocabulary es (length (id_to_token tk)) -> filled es (length (id_to_token tk)) ids (id_to_token tk) (token_to_id tk) ->
  (forall s id, (s, id) ∈ es -> 0 <= id) -> (forall s id, (s, id) ∈ es <-> (s, id) ∈ ids) ->
  forall s id, token_to_id tk !! s = Some id <->
    0 <= id /\ index (id_to_token tk) id = Some s /\ forall id', 0 <= id' < id -> index (id_to_token tk) id' <> Some s.
Proof.
  intros Hes Hf H0 Hids s id. rewrite (f_ids _ _ _ _ _ Hf). rewrite <- Hids. split.
  - intros Hin. pose proof (H0 _ _ Hin) as Hp. split; [done|]. split; [apply index_lookup; split; [done|]; apply (f_done _ _ _ _ _ Hf); [by apply Hids|done]|].
    intros id' Hid' [_ Hx]%index_lookup. apply (f_piece _ _ _ _ _ Hf) in Hx; [|intros ->; by apply (v_nonempty _ _ Hes id)].
    pose proof (v_id _ _ Hes _ _ _ Hin Hx). lia.
  - intros (Hp & Hx & _). apply index_lookup in Hx as [_ Hx]. pose proof (lookup_lt_Some _ _ _ Hx) as Hlt. destruct (v_dense _ _ Hes id) as [s' Hs']; [lia|].
    pose proof (f_done _ _ _ _ _ Hf s' id ltac:(by apply Hids) Hp) as Hx'. congruence.
Qed.
Lemma entries_perm (iter : gmap str Value -> list (str * Value)) tj : (forall m, iter m ≡ₚ map_to_list m) ->
  forall s id, (s, id) ∈ entries tj <-> (s, id) ∈ vocab_entries (iter (vocab_of tj)) ++ omap added_entry (added_of tj).
Proof. intros Hi s id. unfold entries. rewrite !elem_of_app. unfold vocab_entries. by rewrite (Hi (vocab_of tj)). Qed.
Lemma entries_nonneg tj s id : (s, id) ∈ entries tj -> 0 <= id.
Proof.
  unfold entries. rewrite elem_of_app. intros [H|H]; apply list_elem_of_omap in H as (x & _ & Hx).
  - destruct (id_of x.2) as [i|] eqn:E; [|done]. injection Hx as _ ->. by apply id_of_range in E as [? _].
  - unfold added_entry in Hx. destruct (field x "id") as [v|]; [|done]. cbn [mbind option_bind] in Hx. destruct (id_of v) as [i|] eqn:E; [|done]. cbn [mbind option_bind] in Hx.
    destruct (_ ≫= JsonText.as_str); [|done]. injection Hx as _ ->. by apply id_of_range in E as [? _].
Qed.

Lemma special_ids_nodup tokens attrs : NoDup (special_ids tokens attrs).
Proof. unfold special_ids. rewrite sort_by_len_perm. apply NoDup_filter, NoDup_fmap; [apply _|]. apply NoDup_seq. Qed.
Lemma add_added_length l tokens ids attrs tokens' ids' attrs' :
  add_added l tokens ids attrs = Ok (tokens', ids', attrs') -> length tokens' = length tokens.
Proof.
  revert tokens ids attrs. induction l as [|a l IH]; intros tokens ids attrs Hr; cbn [add_added] in Hr; [by injection Hr as <- <- <-|].
  apply bind_Ok in Hr as (id & _ & Hr). apply bind_Ok in Hr as (content & _ & Hr). destruct (index tokens id) as [t|]; [|done].
  destruct (match t with [] => set_at tokens id content | _ => Some tokens end) as [t1|] eqn:E1; [|done]. destruct (set_at attrs id _); [|done].
  rewrite (IH _ _ _ Hr). destruct t; [|by injection E1 as <-]. unfold set_at in E1. destruct (_ && _); [|done]. injection E1 as <-. apply length_insert.
Qed.
Lemma fill_vocab_length l tokens ids tokens' ids' : fill_vocab l tokens ids = Some (tokens', ids') -> length tokens' = length tokens.
Proof.
  revert tokens ids. induction l as [|[s v] l IH]; intros tokens ids Hr; cbn in Hr; [by injection Hr as <- <-|].
  destruct (id_of v) as [id|]; [|done]. cbn [mbind option_bind] in Hr. unfold set_at in Hr. destruct (_ && _); [|done].
  rewrite (IH _ _ Hr). apply length_insert.
Qed.
(** What the two passes leave, of a consistent vocabulary. *)
Lemma from_hf_dir_filled (iter : gmap str Value -> list (str * Value)) tk tj tokens ids (n : nat) : (forall m, iter m ≡ₚ map_to_list m) ->
  fill_vocab (iter (vocab_of tj)) (replicate n []) ∅ = Some (tokens, ids) ->
  add_added (added_of tj) tokens ids (replicate n Normal) = Ok (id_to_token tk, token_to_id tk, attrs tk) ->
  vocabulary (entries tj) (length (id_to_token tk)) ->
  length (attrs tk) = length (id_to_token tk) /\
  filled (entries tj) (length (id_to_token tk)) (vocab_entries (iter (vocab_of tj)) ++ omap added_entry (added_of tj)) (id_to_token tk) (token_to_id tk).
Proof.
  intros Hiter Hf Ha Hes. assert (Hn : length (id_to_token tk) = n).
  { rewrite (add_added_length _ _ _ _ _ _ _ Ha), (fill_vocab_length _ _ _ _ _ Hf). apply length_replicate. }
  rewrite Hn in *. pose proof (entries_perm iter tj Hiter) as Hperm.
  assert (H0 : filled (entries tj) n ([] ++ vocab_entries (iter (vocab_of tj))) tokens ids).
  { eapply fill_vocab_filled; [exact Hes|by apply filled_start| |exact Hf]. intros [s id] Hin. apply Hperm. apply elem_of_app. by left. }
  destruct (add_added_filled _ _ Hes _ _ _ _ _ _ _ _ H0 ltac:(intros [s id] Hin; apply Hperm; apply elem_of_app; by right) (length_replicate n Normal) Ha) as [H1 H2]. done.
Qed.

(** C40. Loading a Hugging Face directory never panics, whatever its files hold.  When
    [tokenizer.json] gives every id one piece and every piece one id, with no gap, the
    tokenizer is well formed, as one read from a GGUF file is, and looks up exactly
    the pieces of the file, added tokens included, in whatever order the vocabulary's
    map is iterated. *)
Theorem from_hf_dir_ok (iter : gmap str Value -> list (str * Value)) (read : str -> option str) :
  (forall m, iter m ≡ₚ map_to_list m) ->
  from_hf_dir iter read <> Panic /\
  forall tk, from_hf_dir iter read = Ok tk -> exists text tj, read (lit "tokenizer.json") = Some text /\ parse (utf8 text) = Ok tj /\
    (vocabulary (entries tj) (length (id_to_token tk)) -> Z.of_nat (length (id_to_token tk)) < 2 ^ 32 ->
     tokenizer_ok tk /\ forall s id, token_to_id tk !! s = Some id <-> (s, id) ∈ entries tj).
Proof.
  intros Hiter. split; [apply from_hf_dir_safe|]. intros tk Htk.
  destruct (from_hf_dir_fields _ _ _ Htk) as (text & tj & tokens & ids & merges & n & Hr & Hp & Hf & Ha & Hsp & Hm). exists text, tj. split; [done|]. split; [done|]. intros Hes Hn.
  destruct (from_hf_dir_filled iter tk tj tokens ids n Hiter Hf Ha Hes) as [Hat Hfill]. pose proof (entries_perm iter tj Hiter) as Hperm.
  split; [split|intros s id; rewrite Hperm; apply (f_ids _ _ _ _ _ Hfill)].
  - exact Hat.
  - eapply filled_tokenizer; [exact Hes|exact Hfill|apply entries_nonneg|exact Hperm].
  - intros id. rewrite Hsp. apply special_ids_elem; [by rewrite ?Hat|by rewrite ?Hat].
  - rewrite Hsp. apply sort_by_len_sorted.
  - rewrite Hsp. apply special_ids_nodup.
  - eapply hf_merges_range; [|exact Hm]. intros p r. by rewrite lookup_empty.
Qed.

(** ** A small directory *)
Module HfToy.
Definition q (s : Stdlib.Strings.String.string) : str := 34 :: lit s ++ [34].
Definition tokenizer_json : str :=
  lit "{" ++ q "model" ++ lit ": {" ++ q "type" ++ lit ": " ++ q "BPE" ++ lit ", " ++
    q "vocab" ++ lit ": {" ++ q "a" ++ lit ": 0, " ++ q "b" ++ lit ": 1, " ++ q "ab" ++ lit ": 2}, " ++
    q "merges" ++ lit ": [" ++ q "a b" ++ lit "]}, " ++
  q "pre_tokenizer" ++ lit ": {" ++ q "type" ++ lit ": " ++ q "Sequence" ++ lit ", " ++
    q "pretokenizers" ++ lit ": [{" ++ q "type" ++ lit ": " ++ q "Split" ++ lit "}, {" ++ q "type" ++ lit ": " ++ q "ByteLevel" ++ lit "}]}, " ++
  q "added_tokens" ++ lit ": [{" ++ q "id" ++ lit ": 3, " ++ q "content" ++ lit ": " ++ q "<e>" ++ lit ", " ++ q "special" ++ lit ": true}, {" ++
    q "id" ++ lit ": 4, " ++ q "content" ++ lit ": " ++ q "<t>" ++ lit "}]}".
Definition config_json : str := lit "{" ++ q "eos_token" ++ lit ": {" ++ q "content" ++ lit ": " ++ q "<e>" ++ lit "}}".
Definition files (f : str) : option str :=
  if str_eqb f (lit "tokenizer.json") then Some tokenizer_json
  else if str_eqb f (lit "tokenizer_config.json") then Some config_json else None.
Definition loaded : option Tokenizer := match from_hf_dir map_to_list files with Ok tk => Some tk | _ => None end.
Example loaded_fields : (tk ← loaded; Some (id_to_token tk, attrs tk, special_tokens tk, eos_id tk, pre tk)) =
  Some (lit <$> ["a"; "b"; "ab"; "<e>"; "<t>"]%string, [Normal; Normal; Normal; Control; UserDefined], [3; 4], 3, lit "default").
Proof. vm_compute. reflexivity. Qed.
Definition pieces : list (str * Z) := [(lit "a", 0); (lit "b", 1); (lit "ab", 2); (lit "<e>", 3); (lit "<t>", 4)].
Lemma pieces_vocabulary : vocabulary pieces 5.
Proof.
  assert (Hk : forall p, p ∈ pieces -> p = (lit "a", 0) \/ p = (lit "b", 1) \/ p = (lit "ab", 2) \/ p = (lit "<e>", 3) \/ p = (lit "<t>", 4)) by (unfold pieces; set_solver).
  split.
  - intros s1 s2 id H1%Hk H2%Hk. naive_solver.
  - intros s id1 id2 H1%Hk H2%Hk. naive_solver.
  - intros id Hid. assert (id = 0 \/ id = 1 \/ id = 2 \/ id = 3 \/ id = 4) as [->|[->|[->|[->| ->]]]] by lia; eexists; unfold pieces; repeat (first [by left|right]).
  - intros id H%Hk. naive_solver.
Qed.
Lemma parsed_pieces tj : parse (utf8 tokenizer_json) = Ok tj -> entries tj ≡ₚ pieces.
Proof. intros H. vm_compute in H. injection H as <-. apply (bool_decide_unpack _). vm_compute. exact I. Qed.
Lemma vocabulary_perm es es' n : es ≡ₚ es' -> vocabulary es n -> vocabulary es' n.
Proof. intros Hp [H1 H2 H3 H4]. split; setoid_rewrite <- Hp; done. Qed.
Lemma loaded_length : match from_hf_dir map_to_list files with Ok tk => length (id_to_token tk) = 5%nat | _ => False end.
Proof. vm_compute. reflexivity. Qed.
Lemma loaded_some : exists tk, from_hf_dir map_to_list files = Ok tk /\ length (id_to_token tk) = 5%nat.
Proof.
  pose proof loaded_length as H. generalize dependent (from_hf_dir map_to_list files). intros r H. destruct r as [tk|e|]; [|destruct H..]. exists tk. split; [reflexivity|exact H].
Qed.
Lemma from_hf_dir_ok_witness : exists tk, from_hf_dir map_to_list files = Ok tk /\ tokenizer_ok tk /\ token_to_id tk !! lit "<t>" = Some 4.
Proof.
  destruct loaded_some as (tk & Htk & Hn). exists tk. split; [exact Htk|].
  destruct (proj2 (from_hf_dir_ok map_to_list files (fun m => Permutation_refl _)) tk Htk) as (text & tj & Ht & Hp & H).
  assert (Hpieces : entries tj ≡ₚ pieces) by (apply parsed_pieces; injection Ht as <-; exact Hp).
  destruct H as [Hok Hids]; [|rewrite Hn; lia|].
  - rewrite Hn. eapply vocabulary_perm; [symmetry; exact Hpieces|apply pieces_vocabulary].
  - split; [exact Hok|]. apply Hids. rewrite Hpieces. unfold pieces. do 4 right. by left.
Defined.
End HfToy.
